(* ===== verification/_CoqProject ===== *)
-Q . S2P
Prelude.v
Limits.v
Glob.v
RespWrite.v
RespParse.v
Hll.v
Codec.v
Wal.v
Disk.v
Compaction.v
Values.v
Store.v
Strings.v
Eviction.v
Keyspace.v
Lists.v
Sets.v
SortedSets.v
TableBatch.v
Hashes.v
Bits.v
Waiters.v
Durability.v
Streams.v
Commands.v
Groups.v
Session.v
Where.v
Grants.v
Access.v
Jsonb.v
Schema.v
Tables.v
TableJournal.v
Snapshot.v
SaveWorker.v
Restore.v
Query.v
Refresh.v
Timeseries.v
Keyring.v
