(* ===== verification/Prelude.v ===== *)
(** * Lux: a verification of the Lux database engine

    Lux is a Redis-compatible database: clients send RESP commands over TCP, the commands run on a
    keyspace that is split into shards held in memory, every mutation is journaled before it is
    acknowledged, and entries that do not fit in memory are deleted or moved to files of a cold tier.
    This library models that engine as executable functions, translated from the Rust sources under
    [src/src], and proves what the parts promise each other and their clients.

    ** The program and its parts

    A connection reads bytes; [resp.rs] cuts them into commands and writes the replies, within byte
    budgets that all connections share ([limits.rs]). [cmd/mod.rs] has the table of commands: it checks
    the number of arguments, decides how a command is journaled, and routes pipelines. MULTI, EXEC and
    WATCH are handled by the session in [lib.rs]. The operations themselves are methods of [Store]
    ([store/mod.rs], [store/hashes.rs], [store/streams.rs]). A mutation passes the journal boundary of
    [store/mod.rs], which appends to the write-ahead log of [disk.rs], applies the mutation, and undoes
    or refuses it when something fails; recovery executes the log again. Clients that wait for a
    list or stream are kept by the broker of [pubsub.rs]. [eviction.rs] takes victims out of the
    keyspace, and [disk.rs] also holds the cold tier they go to. Relational tables ([tables/mod.rs],
    [tables/select.rs]) are stored in keys of the same keyspace; users reach them over HTTP
    ([http.rs]) through grants, row filters that [grants.rs] parses and [auth.rs] enforces by adding
    conditions to the queries. JSON cells are kept in the binary format of [jsonb.rs].

    ** The files, and what they model

    - [Prelude]: machine integers at their width, bytes, decimal parsing and printing, UTF-8, error
      results, the tactics and hint databases of the development.
    - [Limits] ([limits.rs]): the shared budgets, as one thread runs them and as interleaved atomic steps.
    - [Glob] ([glob.rs]): pattern compilation and the iterative matcher.
    - [RespWrite], [RespParse] ([resp.rs], the request loop of [lib.rs]): replies under an output limit;
      the incremental request parser.
    - [Hll] ([hll.rs]): HyperLogLog registers.
    - [Codec], [Wal], [Disk], [Compaction] ([disk.rs]): the entry format and its checksum; the
      journal file; a shard of the cold tier; its compaction as a protocol on the file system.
    - [Values], [Store] ([store/mod.rs]): the value types; the sharded keyspace with its counters,
      eviction to and promotion from the cold tier.
    - [Strings], [Keyspace], [Lists], [Sets], [Bits] ([store/mod.rs]), [Hashes] ([store/hashes.rs]),
      [SortedSets] ([store/sorted_sets.rs]), [Streams] ([store/streams.rs]): the commands on each type. [Keyspace] has the theorems about
      counters, versions and integer bounds of the string commands, and makes the string commands an
      instance of the session's interface.
    - [Eviction] ([eviction.rs]): victim selection and the loop over the memory limit.
    - [Waiters] ([pubsub.rs]): blocked clients and how a push serves them.
    - [Durability] ([store/mod.rs]): the journal boundary and recovery. [Groups] ([cmd/mod.rs],
      [store/streams.rs]): the replay of group reads and claims.
    - [Commands] ([cmd/mod.rs], [eviction.rs]): the command table and its classifications.
    - [Session] ([lib.rs], [store/transactions.rs]): transactions of a client.
    - [TableBatch] ([store/mod.rs]): how a change of a table, which touches many keys, is collected and
      published. [Schema] ([tables/mod.rs]): declarations of columns, their stored form, the bytes of
      cells, the keys of a table. [Jsonb] ([jsonb.rs]): JSON cells. [Tables] ([tables/mod.rs]): how
      inserts, updates, upserts and deletes of rows are staged, with constraints, sequences, indexes,
      cascades and deadlines. [TableJournal] ([tables/mod.rs], [cmd/tables.rs]): the row images that
      are journalled and their replay.
    - [Where] ([tables/mod.rs], [tables/select.rs], [http.rs]): WHERE texts and LIKE. [Grants]
      ([grants.rs]): grant texts and their evaluation on rows. [Access] ([auth.rs], [http.rs]): the
      grant table and the filters it adds to queries and writes.

    Definitions have the names of the functions they translate. A method that changes [self] is a
    function from the store to its answer and the new store. Errors are [result] values; an operation
    that can panic has an [outcome] or says so in its reply. Integers are [Z] with the width written
    out ([as_u64], [as_i64], [sat_sub]): overflow wraps, as in the release profile. Times are
    nanoseconds of the monotonic clock; a clock that the code reads inside an operation is an argument.
    A hash map is a finite map, and the order of its iteration is a parameter where it can be observed.

    Interfaces: [Session.Database] is what a transaction needs of a database, discharged by
    [Keyspace] for the string commands; [Durability.Machine] is what recovery needs of the state,
    discharged by [Groups] for the group commands and by the sample of [Durability].

    ** What the theorems show

    - Contracts of the commands: [keyspace_refines], [list_commands_refine], [sets_refine],
      [sorted_sets_refine], [hashes_refine], [bit_commands_refine] and [streams_refine] say that every command of a type
      answers and changes the state as its mathematical reading does (a map of live keys, lists,
      sets, rankings of scores, tables of fields with deadlines, sequences of bits, logs with consumer groups), panics
      included; [setdata_refines], [hll_sketch], [matches_correct] and [scan_pages] do the same for
      the parts below.
    - Durability: [crash_atomicity], [corruption_detected] and [rotation_preserves_recovery] for the
      journal file, [recovery_is_exact] and [refused_changes_nothing] for the boundary,
      [group_commands_durable] for the group commands that cross it, [cold_tier_refines],
      [reopen_recovers] and [compaction_crash_safe] for the cold tier, [entry_roundtrip] and
      [evict_promote_roundtrip] for what is written.
    - Memory: [memory_eviction_exact], [tiered_eviction_keeps], [metrics_exact],
      [budget_never_oversubscribed], [session_capacity].
    - Clients: [drain_pipeline], [parse_bounded], [drain_total], [guarded_reply]; [exec_isolated],
      [exec_atomic] and [watch_detects_changes] for transactions; [blocked_clients_served] and
      [waiter_counts_exact] for blocked clients.
    - Command tables: [journal_contract] and [fast_path_sound].
    - Relational tables: [table_batch_atomic] for the publication of a change; [table_request_applied]
      says that a request on rows, once staged, leaves exactly the rows of its images in the sharded
      store, and [recovery_restores_rows] that the replay of its journal rebuilds them;
      [column_roundtrip], [cell_roundtrip], [json_roundtrip] and [get_path_correct] for what is stored;
      [like_correct].
    - Access rules: [grant_limits_reads] and [grant_limits_writes] say that a query or write with the
      filter of a grant reaches only rows the grant allows, whatever the text of the client;
      [grants_are_alternatives] is the contract of the grant table, [grant_text_roundtrip] of its
      stored form, [update_stays_in_clause] of the check of updates.
    - Where the code does something else than it means to, a theorem states what it does
      ([planted_envelope_poisons], [oversized_frame_poisons], [expired_key_revives],
      [binary_key_lost], [rename_overcounts], [nameless_consumer_forgotten], [bar_in_default] and others).

    ** Bounds and fuel

    Loops that are not structural take fuel: the glob matcher and the request loop (the theorems give
    an amount that is always enough, from the lengths of pattern, value and input), the eviction loop
    (one round per key), the drain of blocked clients (one round per waiting client), the cascade of
    deletes (the depth limit of the code plus one). No other
    bound is chosen: shards, keys, sequences of commands and crash points are arbitrary. Hypotheses
    keep sizes within the fields of the file formats, as the code does not check them.

    ** Not modelled

    Floating-point arithmetic and the texts of floating-point numbers, which are parameters with their
    documented laws where they are needed (sorted-set scores are bit patterns with their order);
    HINCRBYFLOAT, geo, vectors, time series aggregation, the estimate of HyperLogLog, the compaction
    ratio. Cryptography: the keyring is a parameter. Unicode tables: which characters are letters is a
    parameter. The argument parsing inside command handlers. Locks: an operation is one step, except
    in [Limits]. Sockets, configuration, file permissions, Lua, the embedded API and the command-line
    client, which are input and output or third-party code. Later work, in this order of plan: the
    execution of queries on tables and changes of their schemas, snapshots, argument parsing. *)

From stdpp Require Export base list strings gmap numbers relations sorting.
Local Open Scope Z_scope.

(** ** Machine integers *)

Definition u32_mod : Z := 4294967296.
Definition u64_mod : Z := 18446744073709551616.
Definition i64_min : Z := -9223372036854775808.
Definition i64_max : Z := 9223372036854775807.
Definition usize_max : Z := 18446744073709551615.
Definition u32_max : Z := 4294967295.

(** [as u32], [as u64]/[as usize]: reduction modulo the width. *)
Definition as_u32 (z : Z) : Z := z mod u32_mod.
Definition as_u64 (z : Z) : Z := z mod u64_mod.

(** [as i64]: the representative of [z] modulo 2^64 in the signed range; it is also what an
    overflowing [i64] addition gives in a release build. *)
Definition as_i64 (z : Z) : Z := (z - i64_min) mod u64_mod + i64_min.

(** [usize] addition in a release build wraps; [saturating_sub] stops at zero. *)
Definition usize_add (a b : Z) : Z := as_u64 (a + b).
Definition sat_sub (a b : Z) : Z := Z.max 0 (a - b).

Definition in_i64 (z : Z) : bool := (i64_min <=? z) && (z <=? i64_max).
Definition in_usize (z : Z) : bool := (0 <=? z) && (z <=? usize_max).

(** [i64::checked_add] and friends. *)
Definition i64_checked (z : Z) : option Z := if in_i64 z then Some z else None.
Definition usize_checked (z : Z) : option Z := if in_usize z then Some z else None.

(** ** Bytes *)

Abbreviation bytes := (list Z).

(** A byte-string literal [b"..."]. *)
Definition bs (s : string) : bytes :=
  (fun c => Z.of_nat (Ascii.nat_of_ascii c)) <$> String.list_ascii_of_string s.

Definition byte_ok (b : Z) : Prop := 0 <= b < 256.

(** [slice.len()] as an integer. *)
Definition zlen {A} (l : list A) : Z := Z.of_nat (length l).

Definition bytes_eqb (a b : bytes) : bool := bool_decide (a = b).

Definition starts_with (l p : bytes) : bool := bytes_eqb (take (length p) l) p.

(** The order of [String]s: byte-wise lexicographic. *)
Fixpoint bytes_leb (a b : bytes) : bool :=
  match a, b with
  | [], _ => true
  | _ :: _, [] => false
  | x :: a, y :: b => if x =? y then bytes_leb a b else x <? y
  end.

Definition bytes_le (a b : bytes) : Prop := bytes_leb a b = true.

#[export] Instance bytes_le_dec : RelDecision bytes_le.
Proof. intros a b. unfold bytes_le. apply _. Defined.

(** [u8::is_ascii_digit] *)
Definition is_ascii_digit (b : Z) : bool := (48 <=? b) && (b <=? 57).

(** ** Little-endian integers: [to_le_bytes] and [from_le_bytes] *)

Fixpoint le_bytes (n : nat) (z : Z) : bytes :=
  match n with
  | O => []
  | S n => (z mod 256) :: le_bytes n (z / 256)
  end.

Fixpoint le_decode (l : bytes) : Z :=
  match l with
  | [] => 0
  | b :: l => b + 256 * le_decode l
  end.

(** ** Decimal integers: [to_string] and [str::parse] *)

Fixpoint digits_go (fuel : nat) (z : Z) (acc : bytes) : bytes :=
  match fuel with
  | O => acc
  | S fuel => if z =? 0 then acc else digits_go fuel (z / 10) (48 + z mod 10 :: acc)
  end.

(** Decimal text of a non-negative integer; the fuel bounds the number of digits. *)
Definition fmt_u (z : Z) : bytes :=
  if z =? 0 then [48] else digits_go (S (Z.to_nat (Z.log2 z))) z [].

Definition fmt_i (z : Z) : bytes := if z <? 0 then 45 :: fmt_u (- z) else fmt_u z.

Fixpoint parse_digits (l : bytes) (acc : Z) : option Z :=
  match l with
  | [] => Some acc
  | b :: l => if is_ascii_digit b then parse_digits l (acc * 10 + (b - 48)) else None
  end.

Definition parse_nonempty (l : bytes) : option Z :=
  match l with [] => None | _ => parse_digits l 0 end.

(** [str::parse::<i64>]: an optional sign, at least one digit, value in range. *)
Definition parse_i64 (l : bytes) : option Z :=
  match l with
  | 45 :: r => v ← parse_nonempty r; i64_checked (- v)
  | 43 :: r => v ← parse_nonempty r; i64_checked v
  | _ => v ← parse_nonempty l; i64_checked v
  end.

(** [str::parse::<u64>] (and [usize]): an optional plus sign. *)
Definition parse_u64 (l : bytes) : option Z :=
  match l with
  | 43 :: r => v ← parse_nonempty r; usize_checked v
  | _ => v ← parse_nonempty l; usize_checked v
  end.

(** ** UTF-8: [str::from_utf8], [String::from_utf8_lossy] and [str::chars] *)

Definition in_rng (lo hi x : Z) : bool := (lo <=? x) && (x <=? hi).

(** For a lead byte of a multi-byte sequence: the number of continuation bytes, the bounds of the
    first of them, and the payload bits of the lead byte. *)
Definition utf8_lead (b : Z) : option (nat * Z * Z * Z) :=
  if in_rng 194 223 b then Some (1%nat, 128, 191, b - 192)
  else if b =? 224 then Some (2%nat, 160, 191, 0)
  else if in_rng 225 236 b then Some (2%nat, 128, 191, b - 224)
  else if b =? 237 then Some (2%nat, 128, 159, 13)
  else if in_rng 238 239 b then Some (2%nat, 128, 191, b - 224)
  else if b =? 240 then Some (3%nat, 144, 191, 0)
  else if in_rng 241 243 b then Some (3%nat, 128, 191, b - 240)
  else if b =? 244 then Some (3%nat, 128, 143, 4)
  else None.

(** Reads [n] continuation bytes, the first within [lo..hi]: the scalar value (or [None] when the
    sequence is cut short or malformed), the bytes consumed and the rest of the input. *)
Fixpoint utf8_cont (n : nat) (lo hi acc : Z) (used l : bytes) : option Z * bytes * bytes :=
  match n with
  | O => (Some acc, used, l)
  | S n =>
      match l with
      | c :: l' =>
          if in_rng lo hi c
          then utf8_cont n 128 191 (acc * 64 + (c - 128)) (used ++ [c]) l'
          else (None, used, l)
      | [] => (None, used, l)
      end
  end.

(** The next chunk of a byte string: a scalar value, or [None] for a maximal invalid part. *)
Definition utf8_next (b : Z) (l : bytes) : option Z * bytes * bytes :=
  if b <? 128 then (Some b, [b], l)
  else match utf8_lead b with
       | Some (n, lo, hi, acc) => utf8_cont n lo hi acc [b] l
       | None => (None, [b], l)
       end.

Fixpoint utf8_chunks_go (fuel : nat) (l : bytes) : list (option Z * bytes) :=
  match fuel, l with
  | S fuel, b :: l =>
      let '(c, used, rest) := utf8_next b l in (c, used) :: utf8_chunks_go fuel rest
  | _, _ => []
  end.

Definition utf8_chunks (l : bytes) : list (option Z * bytes) := utf8_chunks_go (length l) l.

(** The scalar values of a string that is valid UTF-8. *)
Definition utf8_chars (l : bytes) : option (list Z) := mapM fst (utf8_chunks l).

Definition is_utf8 (l : bytes) : bool := forallb (fun c => bool_decide (is_Some c.1)) (utf8_chunks l).

(** [String::from_utf8_lossy]: U+FFFD in place of every maximal invalid part. *)
Definition from_utf8_lossy (l : bytes) : bytes :=
  concat ((fun c => match c.1 with Some _ => c.2 | None => [239; 191; 189] end) <$> utf8_chunks l).

(** ** Results and panics *)

(** [Result<A, String>] *)
Inductive result (A : Type) : Type :=
| Ok (a : A)
| Err (e : string).
Arguments Ok {A} _.
Arguments Err {A} _.

(** What a call that may panic gives. The release profile sets [panic = "abort"], so [Panicked]
    is the end of the process. *)
Inductive outcome (A : Type) : Type :=
| Returned (a : A)
| Panicked.
Arguments Returned {A} _.
Arguments Panicked {A}.

#[export] Instance result_fmap : FMap result := fun A B f r =>
  match r with Ok a => Ok (f a) | Err e => Err e end.
#[export] Instance result_ret : MRet result := @Ok.
#[export] Instance result_bind : MBind result := fun A B f r =>
  match r with Ok a => f a | Err e => Err e end.

#[export] Instance outcome_ret : MRet outcome := @Returned.
#[export] Instance outcome_bind : MBind outcome := fun A B f r =>
  match r with Returned a => f a | Panicked => Panicked end.

Definition is_ok {A} (r : result A) : bool := match r with Ok _ => true | Err _ => false end.
Definition result_ok {A} (r : result A) : option A := match r with Ok a => Some a | Err _ => None end.

(** [&l[s..e]] for indices in range. *)
Definition slice {A} (l : list A) (s e : nat) : list A := take (e - s) (drop s l).

(** A proper beginning of a byte string: what a read or a crash may leave of it. *)
Definition incomplete (q whole : bytes) : Prop := exists s, s ≠ [] /\ whole = q ++ s.

(** ** Automation *)

(** Rewriting rules that normalise reads of updated state, and facts about ranges. *)
Create HintDb lux.
Create Rewrite HintDb lux.

(** Case analysis on the boolean and optional tests left in a goal or hypothesis. *)
Ltac case_tests :=
  repeat match goal with
  | |- context [if ?b then _ else _] => destruct b eqn:?
  | |- context [match ?o with Some _ => _ | None => _ end] => destruct o eqn:?
  end.

(** Boolean comparisons of integers as propositions. *)
Ltac zbool :=
  rewrite ?andb_true_iff, ?andb_false_iff, ?orb_true_iff, ?orb_false_iff, ?negb_true_iff,
    ?negb_false_iff, ?Z.leb_le, ?Z.leb_gt, ?Z.ltb_lt, ?Z.ltb_ge, ?Z.eqb_eq, ?Z.eqb_neq in *.

(** ** Lemmas on machine integers *)

Lemma as_u64_range z : 0 <= as_u64 z < u64_mod.
Proof. unfold as_u64. apply Z.mod_pos_bound. done. Qed.

Lemma as_u64_small z : 0 <= z < u64_mod -> as_u64 z = z.
Proof. unfold as_u64. intros. by apply Z.mod_small. Qed.

Lemma as_u32_small z : 0 <= z < u32_mod -> as_u32 z = z.
Proof. unfold as_u32. intros. by apply Z.mod_small. Qed.

Lemma as_i64_range z : i64_min <= as_i64 z <= i64_max.
Proof.
  unfold as_i64. pose proof (Z.mod_pos_bound (z - i64_min) u64_mod ltac:(done)).
  unfold i64_min, i64_max, u64_mod in *. lia.
Qed.

Lemma as_i64_small z : i64_min <= z <= i64_max -> as_i64 z = z.
Proof.
  unfold as_i64. intros. rewrite Z.mod_small by (unfold i64_min, i64_max, u64_mod in *; lia). lia.
Qed.

Lemma in_i64_spec z : in_i64 z = true <-> i64_min <= z <= i64_max.
Proof. unfold in_i64. zbool. lia. Qed.

Lemma in_usize_spec z : in_usize z = true <-> 0 <= z <= usize_max.
Proof. unfold in_usize. zbool. lia. Qed.

Lemma i64_checked_Some z : i64_min <= z <= i64_max -> i64_checked z = Some z.
Proof. intros. unfold i64_checked. by rewrite (proj2 (in_i64_spec z)). Qed.

Lemma usize_checked_Some z : 0 <= z <= usize_max -> usize_checked z = Some z.
Proof. intros. unfold usize_checked. by rewrite (proj2 (in_usize_spec z)). Qed.

Lemma i64_checked_inv z v : i64_checked z = Some v -> v = z /\ i64_min <= z <= i64_max.
Proof.
  unfold i64_checked. destruct (in_i64 z) eqn:E; [|done]. intros [= <-].
  by apply in_i64_spec in E.
Qed.

Lemma usize_checked_inv z v : usize_checked z = Some v -> v = z /\ 0 <= z <= usize_max.
Proof.
  unfold usize_checked. destruct (in_usize z) eqn:E; [|done]. intros [= <-].
  by apply in_usize_spec in E.
Qed.

Lemma zlen_nonneg {A} (l : list A) : 0 <= zlen l.
Proof. unfold zlen. lia. Qed.

Lemma zlen_app {A} (l k : list A) : zlen (l ++ k) = zlen l + zlen k.
Proof. unfold zlen. rewrite length_app. lia. Qed.

Lemma zlen_cons {A} (x : A) l : zlen (x :: l) = 1 + zlen l.
Proof. unfold zlen. simpl. lia. Qed.

Lemma bytes_eqb_eq a b : bytes_eqb a b = true <-> a = b.
Proof. unfold bytes_eqb. by rewrite bool_decide_eq_true. Qed.

Lemma bytes_eqb_refl a : bytes_eqb a a = true.
Proof. by apply bytes_eqb_eq. Qed.

Lemma bytes_eqb_neq a b : bytes_eqb a b = false <-> a ≠ b.
Proof. unfold bytes_eqb. by rewrite bool_decide_eq_false. Qed.

(** ** Lemmas on little-endian integers *)

Lemma length_le_bytes n z : length (le_bytes n z) = n.
Proof. revert z. induction n as [|n IH]; intros z; simpl; [done|by rewrite IH]. Qed.

Lemma le_decode_le_bytes n z : le_decode (le_bytes n z) = z mod 256 ^ Z.of_nat n.
Proof.
  revert z. induction n as [|n IH]; intros z; cbn [le_bytes le_decode].
  - by rewrite Z.mod_1_r.
  - rewrite IH, Nat2Z.inj_succ, Z.pow_succ_r by lia.
    rewrite (Z.rem_mul_r z 256) by lia. lia.
Qed.

Lemma le_bytes_ok n z : Forall byte_ok (le_bytes n z).
Proof.
  revert z. induction n as [|n IH]; intros z; simpl; constructor; [|apply IH].
  apply Z.mod_pos_bound. lia.
Qed.

Lemma le_decode_range l : Forall byte_ok l -> 0 <= le_decode l < 256 ^ Z.of_nat (length l).
Proof.
  induction 1 as [|b l Hb Hl IH]; cbn [le_decode length]; [simpl; lia|].
  rewrite Nat2Z.inj_succ, Z.pow_succ_r by lia. unfold byte_ok in Hb. lia.
Qed.

Lemma le_bytes_decode l : Forall byte_ok l -> le_bytes (length l) (le_decode l) = l.
Proof.
  induction 1 as [|b l Hb Hl IH]; cbn [le_decode length le_bytes]; [done|].
  unfold byte_ok in Hb. f_equal.
  - rewrite Z.mul_comm, Z.mod_add, Z.mod_small by lia. done.
  - rewrite Z.mul_comm, Z.div_add, Z.div_small by lia. done.
Qed.

Lemma le_u32_roundtrip z : 0 <= z < u32_mod -> le_decode (le_bytes 4 z) = z.
Proof. intros. rewrite le_decode_le_bytes. by apply Z.mod_small. Qed.

Lemma le_u64_roundtrip z : 0 <= z < u64_mod -> le_decode (le_bytes 8 z) = z.
Proof. intros. rewrite le_decode_le_bytes. by apply Z.mod_small. Qed.

(** ** Lemmas on decimal integers *)

Lemma parse_digits_app l k acc :
  parse_digits (l ++ k) acc = parse_digits l acc ≫= parse_digits k.
Proof.
  revert acc. induction l as [|b l IH]; intros acc; cbn; [done|].
  destruct (is_ascii_digit b); [apply IH|done].
Qed.

Lemma is_ascii_digit_rem z : is_ascii_digit (48 + z mod 10) = true.
Proof. unfold is_ascii_digit. zbool. pose proof (Z.mod_pos_bound z 10). lia. Qed.

Lemma digits_go_app fuel z acc : digits_go fuel z acc = digits_go fuel z [] ++ acc.
Proof.
  revert z acc. induction fuel as [|fuel IH]; intros z acc; cbn; [done|].
  destruct (z =? 0); [done|].
  rewrite IH, (IH _ [_]), <-(assoc_L (++)). done.
Qed.

Lemma parse_digits_go fuel z :
  0 <= z < 10 ^ Z.of_nat fuel -> parse_digits (digits_go fuel z []) 0 = Some z.
Proof.
  revert z. induction fuel as [|fuel IH]; intros z Hz.
  - simpl in *. f_equal. lia.
  - rewrite Nat2Z.inj_succ, Z.pow_succ_r in Hz by lia.
    cbn [digits_go]. destruct (Z.eqb_spec z 0) as [->|Hnz]; [done|].
    rewrite digits_go_app, parse_digits_app, IH.
    + cbn [mbind option_bind parse_digits]. rewrite is_ascii_digit_rem. f_equal.
      pose proof (Z.div_mod z 10 ltac:(lia)). lia.
    + split; [apply Z.div_pos; lia|]. apply Z.div_lt_upper_bound; lia.
Qed.

Lemma fmt_u_fuel z : 0 < z -> 0 <= z < 10 ^ Z.of_nat (S (Z.to_nat (Z.log2 z))).
Proof.
  intros Hz. split; [lia|].
  pose proof (Z.log2_nonneg z). pose proof (Z.log2_spec z Hz) as [_ H2].
  rewrite Nat2Z.inj_succ, Z2Nat.id by lia.
  eapply Z.lt_le_trans; [apply H2|]. apply Z.pow_le_mono_l. lia.
Qed.

Lemma parse_digits_fmt_u z : 0 <= z -> parse_digits (fmt_u z) 0 = Some z.
Proof.
  intros Hz. unfold fmt_u. destruct (Z.eqb_spec z 0) as [->|]; [done|].
  apply parse_digits_go, fmt_u_fuel. lia.
Qed.

Lemma digits_go_digits fuel z acc :
  Forall (fun b => is_ascii_digit b = true) acc ->
  Forall (fun b => is_ascii_digit b = true) (digits_go fuel z acc).
Proof.
  revert z acc. induction fuel as [|fuel IH]; intros z acc Hacc; cbn; [done|].
  destruct (z =? 0); [done|]. apply IH. constructor; [apply is_ascii_digit_rem|done].
Qed.

Lemma fmt_u_digits z : Forall (fun b => is_ascii_digit b = true) (fmt_u z).
Proof.
  unfold fmt_u. destruct (z =? 0); [by repeat constructor|]. by apply digits_go_digits.
Qed.

Lemma fmt_u_nonempty z : 0 <= z -> fmt_u z ≠ [].
Proof.
  intros Hz. unfold fmt_u. destruct (Z.eqb_spec z 0) as [->|Hnz]; [done|].
  cbn [digits_go]. destruct (Z.eqb_spec z 0); [done|].
  rewrite digits_go_app. intros [_ ?]%app_eq_nil. done.
Qed.

Lemma fmt_u_cons z : 0 <= z -> exists b r, fmt_u z = b :: r /\ is_ascii_digit b = true.
Proof.
  intros Hz. pose proof (fmt_u_digits z) as Hd. pose proof (fmt_u_nonempty z Hz).
  destruct (fmt_u z) as [|b r]; [done|]. inversion Hd; subst. eauto.
Qed.

Lemma digit_cases b : is_ascii_digit b = true -> b ∈ [48; 49; 50; 51; 52; 53; 54; 55; 56; 57].
Proof.
  unfold is_ascii_digit. zbool. intros H.
  assert (b = 48 \/ b = 49 \/ b = 50 \/ b = 51 \/ b = 52 \/ b = 53 \/ b = 54 \/ b = 55
          \/ b = 56 \/ b = 57) by lia.
  rewrite !elem_of_cons. tauto.
Qed.

Ltac digit_cases H :=
  apply digit_cases in H; rewrite !elem_of_cons, elem_of_nil in H;
  repeat destruct H as [->|H]; [..|done].

Lemma parse_i64_unsigned b r :
  is_ascii_digit b = true -> parse_i64 (b :: r) = parse_nonempty (b :: r) ≫= i64_checked.
Proof. intros Hd. digit_cases Hd; done. Qed.

Lemma parse_u64_unsigned b r :
  is_ascii_digit b = true -> parse_u64 (b :: r) = parse_nonempty (b :: r) ≫= usize_checked.
Proof. intros Hd. digit_cases Hd; done. Qed.

Lemma parse_nonempty_fmt_u z : 0 <= z -> parse_nonempty (fmt_u z) = Some z.
Proof.
  intros Hz. pose proof (parse_digits_fmt_u z Hz). pose proof (fmt_u_nonempty z Hz).
  by destruct (fmt_u z).
Qed.

Lemma parse_u64_fmt_u z : 0 <= z <= usize_max -> parse_u64 (fmt_u z) = Some z.
Proof.
  intros Hz. destruct (fmt_u_cons z) as (b & r & E & Hd); [lia|].
  rewrite E, parse_u64_unsigned, <-E, parse_nonempty_fmt_u by (done || lia).
  by apply usize_checked_Some.
Qed.

Lemma parse_u64_range l n : parse_u64 l = Some n -> 0 <= n <= usize_max.
Proof.
  assert (forall o : option Z, (v ← o; usize_checked v) = Some n -> 0 <= n <= usize_max) as G.
  { intros [v|]; [|done]. cbn. intros (-> & Hv)%usize_checked_inv. exact Hv. }
  unfold parse_u64. intros Hp. destruct l as [|c l]; [done|]. repeat (case_match; try done); by apply G in Hp.
Qed.

Lemma parse_u64_nonneg l n : parse_u64 l = Some n -> 0 <= n.
Proof. intros H. apply parse_u64_range in H. lia. Qed.

Lemma parse_i64_fmt_i z : i64_min <= z <= i64_max -> parse_i64 (fmt_i z) = Some z.
Proof.
  intros Hz. unfold fmt_i. destruct (Z.ltb_spec z 0).
  - cbn [parse_i64]. rewrite parse_nonempty_fmt_u by lia. cbn. rewrite Z.opp_involutive.
    by apply i64_checked_Some.
  - destruct (fmt_u_cons z) as (b & r & E & Hd); [lia|].
    rewrite E, parse_i64_unsigned, <-E, parse_nonempty_fmt_u by (done || lia).
    by apply i64_checked_Some.
Qed.

(** ** Lemmas on UTF-8 *)

Lemma utf8_cont_concat n lo hi acc used l c used' rest :
  utf8_cont n lo hi acc used l = (c, used', rest) ->
  used' ++ rest = used ++ l /\ (length rest <= length l)%nat.
Proof.
  revert lo hi acc used l. induction n as [|n IH]; intros lo hi acc used l; cbn.
  - by intros [= <- <- <-].
  - destruct l as [|x l]; [by intros [= <- <- <-]|].
    destruct (in_rng lo hi x); [|by intros [= <- <- <-]].
    intros [-> ?]%IH. rewrite <-(assoc_L (++)). simpl. split; [done|lia].
Qed.

Lemma utf8_next_concat b l c used rest :
  utf8_next b l = (c, used, rest) -> used ++ rest = b :: l /\ (length rest <= length l)%nat.
Proof.
  unfold utf8_next. destruct (b <? 128); [by intros [= <- <- <-]|].
  destruct (utf8_lead b) as [[[[n lo] hi] acc]|]; [|by intros [= <- <- <-]].
  apply utf8_cont_concat.
Qed.

Lemma utf8_chunks_concat fuel l :
  (length l <= fuel)%nat -> concat (snd <$> utf8_chunks_go fuel l) = l.
Proof.
  revert l. induction fuel as [|fuel IH]; intros [|b l] Hl; cbn in *; try done; [lia|].
  destruct (utf8_next b l) as [[c used] rest] eqn:E.
  apply utf8_next_concat in E as [E ?]. cbn. rewrite IH by lia. done.
Qed.

(** A byte string that is valid UTF-8 is its own lossy decoding. *)
Lemma from_utf8_lossy_valid l : is_utf8 l = true -> from_utf8_lossy l = l.
Proof.
  intros H. rewrite <-(utf8_chunks_concat (length l) l) at 2 by done.
  unfold from_utf8_lossy, is_utf8, utf8_chunks in *. f_equal.
  induction (utf8_chunks_go (length l) l) as [|[c u] cs IH]; [done|].
  cbn in *. apply andb_true_iff in H as [Hc Hcs]. apply bool_decide_eq_true in Hc as [x Hx].
  cbn in Hx. subst c. by rewrite IH.
Qed.

(** A chunk that is a scalar value is one in front of any other text. *)
Lemma utf8_cont_local n : forall lo hi acc used l c used' rest,
  utf8_cont n lo hi acc used l = (Some c, used', rest) ->
  exists mid, used' = used ++ mid /\ forall rest', utf8_cont n lo hi acc used (mid ++ rest') = (Some c, used', rest').
Proof.
  induction n as [|n IH]; intros lo hi acc used l c used' rest; cbn [utf8_cont].
  - intros [= <- <- <-]. exists []. by rewrite app_nil_r.
  - destruct l as [|b l]; [done|]. destruct (in_rng lo hi b) eqn:Eb; [|done]. intros H.
    destruct (IH _ _ _ _ _ _ _ _ H) as (mid & -> & Hm). exists (b :: mid). split; [by rewrite <-(assoc_L (++))|].
    intros rest'. cbn [app]. rewrite Eb. apply Hm.
Qed.

Lemma utf8_next_local b l c used rest :
  utf8_next b l = (Some c, used, rest) ->
  exists mid, used = b :: mid /\ forall rest', utf8_next b (mid ++ rest') = (Some c, used, rest').
Proof.
  unfold utf8_next. destruct (b <? 128); [intros [= <- <- <-]; by exists []|].
  destruct (utf8_lead b) as [[[[n lo] hi] acc]|]; [|done]. intros H.
  apply utf8_cont_local in H as (mid & -> & Hm). by exists mid.
Qed.

(** [u] is the bytes of one scalar value. *)
Definition utf8_scalar (u : bytes) : Prop :=
  exists b mid c, u = b :: mid /\ forall rest, utf8_next b (mid ++ rest) = (Some c, u, rest).

Lemma is_utf8_concat us : Forall utf8_scalar us -> is_utf8 (concat us) = true.
Proof.
  intros Hus. unfold is_utf8, utf8_chunks.
  assert (forall fuel, forallb (fun c => bool_decide (is_Some c.1)) (utf8_chunks_go fuel (concat us)) = true) as H;
    [|apply H].
  induction Hus as [|u us (b & mid & c & -> & Hu) _ IH]; intros fuel; [by destruct fuel|].
  destruct fuel as [|fuel]; [done|]. cbn [concat app utf8_chunks_go]. rewrite Hu. cbn. apply IH.
Qed.

Lemma utf8_chunks_scalars fuel l :
  Forall (fun c => is_Some c.1 -> utf8_scalar c.2) (utf8_chunks_go fuel l).
Proof.
  revert l. induction fuel as [|fuel IH]; intros l; [by constructor|]. destruct l as [|b l]; [by constructor|].
  cbn [utf8_chunks_go]. destruct (utf8_next b l) as [[c used] rest] eqn:E. constructor; [|apply IH].
  intros [x Hx]. cbn in *. subst c. apply utf8_next_local in E as (mid & -> & Hm). by exists b, mid, x.
Qed.

(** The lossy text is text. *)
Lemma from_utf8_lossy_utf8 l : is_utf8 (from_utf8_lossy l) = true.
Proof.
  apply is_utf8_concat. apply Forall_fmap. eapply Forall_impl; [apply utf8_chunks_scalars|].
  intros [[c|] u]; cbn; [intros H; apply H; by eexists|]. intros _. by exists 239, [191; 189], 65533.
Qed.

(** ** Lemmas on proper prefixes *)

Lemma incomplete_app q a b :
  incomplete q (a ++ b) -> incomplete q a \/ exists q', q = a ++ q' /\ incomplete q' b.
Proof.
  intros (s & Hs & E). apply app_eq_inv in E as [(k & -> & ->)|(k & -> & ->)].
  - destruct (decide (k = [])) as [->|Hk]; [|left; by exists k].
    right. exists []. rewrite !app_nil_r. split; [done|]. by exists b.
  - right. exists k. split; [done|]. by exists s.
Qed.

Lemma incomplete_length q whole : incomplete q whole -> (length q < length whole)%nat.
Proof.
  intros (s & Hs & ->). rewrite length_app. destruct s; [done|]. simpl. lia.
Qed.

Lemma incomplete_take k whole : (k < length whole)%nat -> incomplete (take k whole) whole.
Proof.
  intros Hk. exists (drop k whole). split; [|by rewrite take_drop].
  intros E. apply (f_equal length) in E. rewrite length_drop in E. simpl in E. lia.
Qed.
