(* ===== verification/Limits.v ===== *)
(** * Shared byte and count budgets ([src/src/limits.rs])

    [ByteBudget]/[ByteReservation] and [CountBudget]/[CountReservation] are the admission control
    of the network surfaces: an atomic counter shared by every connection, grown by a
    compare-exchange loop and returned on release or drop.

    [Budget.try_grow] and [Budget.release] are the operations as one thread runs them when nobody
    interferes. [Budget.fire] is the interleaved semantics: every access to the shared counter is
    a step of its own, a weak compare-exchange may fail spuriously, and the two writes of
    [release] (the private field, then the shared counter) are two steps. *)


From S2P Require Import Prelude.
Local Open Scope Z_scope.

Module Budget.

(** The body of the loop up to the exchange: [checked_add], then the limit. *)
Definition grow_target (limit current count : Z) : option Z :=
  next ← usize_checked (current + count);
  if next >? limit then None else Some next.

(** [try_grow] without interference: whether it succeeded, the counter and the reservation. *)
Definition try_grow (limit used held count : Z) : bool * Z * Z :=
  if count =? 0 then (true, used, held)
  else match grow_target limit used count with
       | None => (false, used, held)
       | Some next => (true, next, held + count)
       end.

(** [release] without interference: the counter and the reservation. [fetch_sub] wraps. *)
Definition release (used held count : Z) : Z * Z :=
  let released := Z.min count held in
  if released =? 0 then (used, held) else (as_u64 (used - released), held - released).

(** [Drop]: release everything that is held. *)
Definition drop_reservation (used held : Z) : Z := (release used held held).1.

(** [ByteBudget::try_reserve]: a fresh reservation grown once. *)
Definition try_reserve (limit used bytes : Z) : option Z * Z :=
  let '(ok, used', held) := try_grow limit used 0 bytes in
  if ok then (Some held, used') else (None, used').

(** [CountReservation] is the same code over a count of subscriptions. *)
Definition count_try_grow := try_grow.
Definition count_release := release.

(** ** Interleaved semantics *)

(** Where a reservation's owner stands inside [try_grow] or [release]. *)
Inductive phase :=
| Idle
| Loaded (count current : Z)
| Releasing (released : Z).

Record reservation := Reservation { held : Z; at_phase : phase }.

Record system := System { limit : Z; used : Z; reservations : list reservation }.

Inductive event :=
| EvReserve                            (* budget.reservation() *)
| EvLoad (i : nat) (count : Z)         (* try_grow(count): load *)
| EvExchange (i : nat) (spurious : bool) (* one turn of the loop *)
| EvRelease (i : nat) (count : Z)      (* release(count): self.bytes -= released *)
| EvFetchSub (i : nat)                 (* release: fetch_sub *)
| EvDropped (i : nat).                 (* the reservation is gone after its release *)

Definition set_res (s : system) (i : nat) (r : reservation) : system :=
  System (limit s) (used s) (<[i := r]> (reservations s)).

Definition fire (ev : event) (s : system) : option system :=
  match ev with
  | EvReserve => Some (System (limit s) (used s) (reservations s ++ [Reservation 0 Idle]))
  | EvLoad i count =>
      match reservations s !! i with
      | Some (Reservation h Idle) =>
          if (0 <? count) && (count <=? usize_max)
          then Some (set_res s i (Reservation h (Loaded count (used s)))) else None
      | _ => None
      end
  | EvExchange i spurious =>
      match reservations s !! i with
      | Some (Reservation h (Loaded count current)) =>
          match grow_target (limit s) current count with
          | None => Some (set_res s i (Reservation h Idle))
          | Some next =>
              if (current =? used s) && negb spurious
              then Some (System (limit s) next
                           (<[i := Reservation (h + count) Idle]> (reservations s)))
              else Some (set_res s i (Reservation h (Loaded count (used s))))
          end
      | _ => None
      end
  | EvRelease i count =>
      match reservations s !! i with
      | Some (Reservation h Idle) =>
          let released := Z.min count h in
          if released =? 0 then Some s
          else if 0 <=? count
               then Some (set_res s i (Reservation (h - released) (Releasing released))) else None
      | _ => None
      end
  | EvFetchSub i =>
      match reservations s !! i with
      | Some (Reservation h (Releasing released)) =>
          Some (System (limit s) (as_u64 (used s - released))
                  (<[i := Reservation h Idle]> (reservations s)))
      | _ => None
      end
  | EvDropped i =>
      match reservations s !! i with
      | Some (Reservation 0 Idle) =>
          Some (System (limit s) (used s) (delete i (reservations s)))
      | _ => None
      end
  end.

Definition new (lim : Z) : system := System lim 0 [].

Definition step (s s' : system) : Prop := exists ev, fire ev s = Some s'.

(** What one reservation accounts for in the shared counter. *)
Definition charge (r : reservation) : Z :=
  held r + match at_phase r with Releasing n => n | _ => 0 end.

Fixpoint charges (rs : list reservation) : Z :=
  match rs with [] => 0 | r :: rs => charge r + charges rs end.

Definition res_ok (r : reservation) : Prop :=
  0 <= held r /\
  match at_phase r with
  | Idle => True
  | Loaded n _ => 0 < n <= usize_max
  | Releasing n => 0 < n
  end.

(** The counter is exactly what the reservations hold, and within the limit. *)
Definition accounted (s : system) : Prop :=
  0 <= limit s <= usize_max /\ Forall res_ok (reservations s) /\
  used s = charges (reservations s) /\ used s <= limit s.

(** ** Lemmas *)

Lemma charges_app rs ks : charges (rs ++ ks) = charges rs + charges ks.
Proof. induction rs; cbn [charges app]; [done|lia]. Qed.

Lemma charges_nonneg rs : Forall res_ok rs -> 0 <= charges rs.
Proof.
  induction 1 as [|[h p] rs [Hh Hp] _ IH]; [done|]. cbn [charges]. unfold charge.
  cbn in *. destruct p; lia.
Qed.

Lemma charges_insert rs i r r' :
  rs !! i = Some r -> charges (<[i := r']> rs) = charges rs - charge r + charge r'.
Proof.
  intros Hi. rewrite insert_take_drop by (by eapply lookup_lt_Some).
  rewrite <-(take_drop_middle rs i r Hi) at 3. rewrite !charges_app. cbn [charges]. lia.
Qed.

Lemma charges_delete rs i r :
  rs !! i = Some r -> charges (delete i rs) = charges rs - charge r.
Proof.
  intros Hi. rewrite delete_take_drop. rewrite <-(take_drop_middle rs i r Hi) at 3.
  rewrite !charges_app. cbn [charges]. lia.
Qed.

Lemma charge_le rs i r : Forall res_ok rs -> rs !! i = Some r -> charge r <= charges rs.
Proof.
  intros Hok Hi. pose proof (charges_delete rs i r Hi).
  pose proof (charges_nonneg (delete i rs) (Forall_delete _ _ _ Hok)). lia.
Qed.

Lemma grow_target_Some lim cur n next :
  grow_target lim cur n = Some next <-> next = cur + n /\ 0 <= cur + n <= usize_max /\ cur + n <= lim.
Proof.
  unfold grow_target. split.
  - destruct (usize_checked (cur + n)) as [v|] eqn:E; [|done]. cbn.
    apply usize_checked_inv in E as [-> ?].
    destruct (Z.gtb_spec (cur + n) lim); [done|]. intros [= <-]. lia.
  - intros (-> & ? & ?). rewrite usize_checked_Some by done. cbn.
    destruct (Z.gtb_spec (cur + n) lim); [lia|done].
Qed.

Lemma budget_accounted_new lim : 0 <= lim <= usize_max -> accounted (new lim).
Proof. intros. unfold accounted, new; cbn. auto with lia. Qed.

(** Replacing one reservation keeps the accounting when its charge moves with the counter. *)
Lemma res_accounted_insert s i r r' u :
  accounted s -> reservations s !! i = Some r -> res_ok r' ->
  u = used s - charge r + charge r' -> u <= limit s ->
  accounted (System (limit s) u (<[i := r']> (reservations s))).
Proof.
  intros (Hl & Hok & Hu & Hle) Hi Hr' -> ?.
  unfold accounted; simpl. split_and!; try lia.
  - by apply Forall_insert.
  - rewrite (charges_insert _ _ _ _ Hi). lia.
Qed.

Lemma accounted_fire ev s s' : accounted s -> fire ev s = Some s' -> accounted s'.
Proof.
  intros Hs. pose proof Hs as (Hl & Hok & Hu & Hle). destruct ev as [|i n|i sp|i n|i|i]; cbn.
  - intros [= <-]. unfold accounted; simpl; split_and!; try lia.
    + apply Forall_app; split; [done|]. repeat constructor; cbn; lia.
    + rewrite charges_app. change (charges [Reservation 0 Idle]) with 0. lia.
  - destruct (_ !! i) as [[h []]|] eqn:Hi; try done. destruct (_ && _) eqn:Hn; [|done].
    intros [= <-]. zbool. pose proof (Forall_lookup_1 _ _ _ _ Hok Hi) as [? _].
    eapply res_accounted_insert; eauto; unfold res_ok, charge in *; cbn in *; lia.
  - destruct (_ !! i) as [[h [|n c|]]|] eqn:Hi; try done.
    pose proof (Forall_lookup_1 _ _ _ _ Hok Hi) as [? ?].
    unfold charge, res_ok in *; cbn in *.
    destruct (grow_target _ _ _) as [next|] eqn:Hg.
    + apply grow_target_Some in Hg as (-> & ? & ?).
      destruct (Z.eqb_spec c (used s)) as [->|]; destruct sp; cbn; intros [= <-];
        eapply res_accounted_insert; eauto; unfold res_ok, charge; cbn; lia.
    + intros [= <-]. eapply res_accounted_insert; eauto; unfold res_ok, charge; cbn; lia.
  - destruct (_ !! i) as [[h []]|] eqn:Hi; try done.
    pose proof (Forall_lookup_1 _ _ _ _ Hok Hi) as [? _]. cbn in *.
    destruct (Z.eqb_spec (Z.min n h) 0); [by intros [= <-]|].
    destruct (Z.leb_spec 0 n); [|done].
    intros [= <-]. eapply res_accounted_insert; eauto; unfold res_ok, charge; cbn; lia.
  - destruct (_ !! i) as [[h [| |n]]|] eqn:Hi; try done. intros [= <-].
    pose proof (Forall_lookup_1 _ _ _ _ Hok Hi) as [? ?].
    pose proof (charge_le _ _ _ Hok Hi). unfold charge in *; cbn in *.
    rewrite as_u64_small by (unfold usize_max, u64_mod in *; lia).
    eapply res_accounted_insert; eauto; unfold res_ok, charge; cbn; lia.
  - destruct (_ !! i) as [[[] []]|] eqn:Hi; try done. intros [= <-]. unfold accounted; simpl; split_and!; try lia.
    + by apply Forall_delete.
    + rewrite (charges_delete _ _ _ Hi). change (charge (Reservation 0 Idle)) with 0. lia.
Qed.

Lemma accounted_step s s' : accounted s -> step s s' -> accounted s'.
Proof. intros Hs [ev Hev]. by eapply accounted_fire. Qed.

Lemma fire_limit ev s s' : fire ev s = Some s' -> limit s' = limit s.
Proof.
  destruct ev; cbn; intros; repeat case_match; simplify_eq; done.
Qed.

Lemma reachable_limit s s' : rtc step s s' -> limit s' = limit s.
Proof.
  induction 1 as [|s1 s2 s3 [ev Hev] _ IH]; [done|]. rewrite IH. by eapply fire_limit.
Qed.

Lemma budget_reachable_accounted s s' : accounted s -> rtc step s s' -> accounted s'.
Proof. induction 2; eauto using accounted_step. Qed.

(** C12. However the compare-exchange loops, releases and drops of any number of connections
    interleave, and however often a weak exchange fails spuriously, the shared counter of a budget
    is exactly the sum of what the live reservations account for and never exceeds the limit. *)
Theorem budget_never_oversubscribed (lim : Z) (s : system) :
  0 <= lim <= usize_max -> rtc step (new lim) s ->
  limit s = lim /\ used s = charges (reservations s) /\ 0 <= used s <= lim.
Proof.
  intros Hlim Hr. pose proof (reachable_limit _ _ Hr) as Hl.
  destruct (budget_reachable_accounted _ _ (budget_accounted_new lim Hlim) Hr) as (_ & Hok & Hu & Hle).
  pose proof (charges_nonneg _ Hok). cbn in Hl. split_and!; try done; lia.
Qed.

(** Two connections race for a budget of ten bytes: both load zero, the second exchange observes
    the first and is refused after its retry. *)
Definition race : list event :=
  [EvReserve; EvReserve; EvLoad 0 6; EvLoad 1 6; EvExchange 0 false; EvExchange 1 false;
   EvExchange 1 false; EvRelease 0 2; EvFetchSub 0].

Fixpoint fire_all (evs : list event) (s : system) : option system :=
  match evs with [] => Some s | ev :: evs => fire ev s ≫= fire_all evs end.

Lemma fire_all_steps evs s s' : fire_all evs s = Some s' -> rtc step s s'.
Proof.
  revert s. induction evs as [|ev evs IH]; intros s; cbn; [by intros [= ->]|].
  destruct (fire ev s) as [s1|] eqn:E; [|done]. intros H.
  eapply rtc_l; [by exists ev|by apply IH].
Qed.

Lemma budget_never_oversubscribed_witness :
  let s := System 10 4 [Reservation 4 Idle; Reservation 0 Idle] in
  fire_all race (new 10) = Some s /\
  (limit s = 10 /\ used s = charges (reservations s) /\ 0 <= used s <= 10).
Proof.
  split; [reflexivity|].
  apply (budget_never_oversubscribed 10).
  - unfold usize_max. lia.
  - apply (fire_all_steps race). reflexivity.
Defined.

(** The compare-exchange loop implements the sequential operation: when nobody interferes
    between the load and the exchange, [try_grow] of a positive amount ends after one exchange
    with the answer, the counter and the reservation that [try_grow] computes, and it succeeds
    exactly when the amount fits under the limit. *)
Theorem try_grow_refines (s : system) (i : nat) (h count : Z) :
  accounted s -> reservations s !! i = Some (Reservation h Idle) -> 0 < count <= usize_max ->
  let '(ok, used', held') := try_grow (limit s) (used s) h count in
  fire_all [EvLoad i count; EvExchange i false] s =
    Some (System (limit s) used' (<[i := Reservation held' Idle]> (reservations s))) /\
  ok = bool_decide (used s + count <= limit s) /\
  used' = (if ok then used s + count else used s) /\
  held' = (if ok then h + count else h).
Proof.
  intros (Hl & Hok & Hu & Hle) Hi Hc. unfold try_grow. cbn [fire_all fire].
  rewrite Hi. replace ((0 <? count) && (count <=? usize_max)) with true by (symmetry; zbool; lia).
  destruct (Z.eqb_spec count 0); [lia|]. cbn [mbind option_bind]. simpl.
  rewrite list_lookup_insert_eq by (by eapply lookup_lt_Some).
  pose proof (charges_nonneg _ Hok).
  destruct (grow_target _ _ _) as [next|] eqn:Hg.
  - apply grow_target_Some in Hg as (-> & ? & ?). rewrite Z.eqb_refl. cbn.
    rewrite list_insert_insert_eq, bool_decide_eq_true_2 by done. done.
  - cbn. unfold set_res; cbn. rewrite list_insert_insert_eq. split; [done|].
    rewrite bool_decide_eq_false_2; [done|]. intros Hfit.
    assert (grow_target (limit s) (used s) count = Some (used s + count)) as Hs
      by (apply grow_target_Some; lia). congruence.
Qed.

Lemma try_grow_refines_witness :
  let s := System 10 4 [Reservation 4 Idle] in
  let '(ok, used', held') := try_grow (limit s) (used s) 4 6 in
  fire_all [EvLoad 0 6; EvExchange 0 false] s =
    Some (System (limit s) used' (<[0%nat := Reservation held' Idle]> (reservations s))) /\
  ok = bool_decide (used s + 6 <= limit s) /\
  used' = (if ok then used s + 6 else used s) /\ held' = (if ok then 4 + 6 else 4).
Proof.
  apply (try_grow_refines (System 10 4 [Reservation 4 Idle]) 0 4 6).
  - unfold accounted, usize_max. simpl. split_and!; try lia; try reflexivity.
    repeat constructor. simpl. lia.
  - reflexivity.
  - unfold usize_max. lia.
Defined.

End Budget.
