(* ===== verification/Glob.v ===== *)
(** * Redis-style glob patterns ([src/src/glob.rs])

    A pattern is compiled into tokens ([new], with [parse_class] for bracket classes) and matched
    by an iterative two-pointer loop that remembers only the last [*] ([matches]). A [&str] is
    the list of its [char]s. The reference semantics [glob_spec] is the textbook recursive
    definition; the theorems show that the iterative matcher terminates and computes it. *)


From S2P Require Import Prelude.
Local Open Scope Z_scope.

Module Glob.

Inductive ClassMember :=
| Character (c : Z)
| Range (start stop : Z).

Inductive Token :=
| AnySequence
| AnyCharacter
| Literal (c : Z)
| Class_ (negated : bool) (members : list ClassMember).

Definition is_seq (t : Token) : bool := match t with AnySequence => true | _ => false end.

Definition member_matches (value : Z) (m : ClassMember) : bool :=
  match m with
  | Character expected => expected =? value
  | Range start stop => (start <=? value) && (value <=? stop)
  end.

Definition token_matches (t : Token) (value : Z) : bool :=
  match t with
  | AnyCharacter => true
  | Literal expected => expected =? value
  | Class_ negated members => negb (Bool.eqb (existsb (member_matches value) members) negated)
  | AnySequence => false
  end.

(** [chars[pos]] as a test that is false out of range. *)
Definition char_is (chars : list Z) (pos : nat) (c : Z) : bool :=
  match chars !! pos with Some x => x =? c | None => false end.

(** The member loop of [parse_class]; the fuel is the number of characters left. *)
Fixpoint class_members (fuel : nat) (chars : list Z) (pos : nat) (acc : list ClassMember)
  : nat * list ClassMember :=
  match fuel, chars !! pos with
  | S fuel, Some c =>
      if c =? 93 then (pos, acc)
      else match chars !! (pos + 2)%nat with
           | Some hi =>
               if char_is chars (pos + 1) 45 && negb (hi =? 93)
               then class_members fuel chars (pos + 3) (acc ++ [Range c hi])
               else class_members fuel chars (pos + 1) (acc ++ [Character c])
           | None => class_members fuel chars (pos + 1) (acc ++ [Character c])
           end
  | _, _ => (pos, acc)
  end.

Definition parse_class (chars : list Z) (start : nat) : option (Token * nat) :=
  let pos := (start + 1)%nat in
  let negated := char_is chars pos 94 in
  let pos := if negated then (pos + 1)%nat else pos in
  let '(pos, members) := class_members (length chars) chars pos [] in
  if (length chars <=? pos)%nat || bool_decide (members = []) then None
  else Some (Class_ negated members, (pos + 1)%nat).

Definition last_is_seq (tokens : list Token) : bool :=
  match list.last tokens with Some t => is_seq t | None => false end.

(** The compilation loop of [GlobPattern::new]. *)
Fixpoint compile (fuel : nat) (chars : list Z) (pos : nat) (tokens : list Token) : list Token :=
  match fuel, chars !! pos with
  | S fuel, Some c =>
      if c =? 42 then
        compile fuel chars (pos + 1) (if last_is_seq tokens then tokens else tokens ++ [AnySequence])
      else if c =? 63 then compile fuel chars (pos + 1) (tokens ++ [AnyCharacter])
      else if c =? 91 then
        match parse_class chars pos with
        | Some (token, next) => compile fuel chars next (tokens ++ [token])
        | None => compile fuel chars (pos + 1) (tokens ++ [Literal 91])
        end
      else compile fuel chars (pos + 1) (tokens ++ [Literal c])
  | _, _ => tokens
  end.

Definition new (pattern : list Z) : list Token := compile (length pattern) pattern 0 [].

(** [tokens.iter().zip(value).all(token_matches)] *)
Definition zip_all (tokens : list Token) (value : list Z) : bool :=
  forallb (fun p => token_matches p.1 p.2) (zip tokens value).

(** [iter().position(is AnySequence)] and [rposition]. *)
Fixpoint position_seq (tokens : list Token) : option nat :=
  match tokens with
  | [] => None
  | t :: tokens => if is_seq t then Some 0%nat else S <$> position_seq tokens
  end.

Fixpoint rposition_seq (tokens : list Token) : option nat :=
  match tokens with
  | [] => None
  | t :: tokens =>
      match rposition_seq tokens with
      | Some i => Some (S i)
      | None => if is_seq t then Some 0%nat else None
      end
  end.

Definition seq_at (tokens : list Token) (pos : nat) : bool :=
  match tokens !! pos with Some t => is_seq t | None => false end.

Definition match_at (tokens : list Token) (value : list Z) (tp vp : nat) : bool :=
  match tokens !! tp, value !! vp with
  | Some t, Some c => token_matches t c
  | _, _ => false
  end.

(** The trailing loop: skip the sequences left at the end. *)
Fixpoint skip_seqs (fuel : nat) (tokens : list Token) (tp : nat) : nat :=
  match fuel with
  | O => tp
  | S fuel => if seq_at tokens tp then skip_seqs fuel tokens (S tp) else tp
  end.

(** The matching loop; [None] when the fuel runs out. *)
Fixpoint match_loop (fuel : nat) (tokens : list Token) (value : list Z) (vp tp : nat)
    (sequence_pos : option nat) (sequence_match : nat) : option bool :=
  match fuel with
  | O => None
  | S fuel =>
      if (vp <? length value)%nat then
        if match_at tokens value tp vp then
          match_loop fuel tokens value (S vp) (S tp) sequence_pos sequence_match
        else if seq_at tokens tp then
          match_loop fuel tokens value vp (S tp) (Some tp) vp
        else match sequence_pos with
             | Some sequence =>
                 match_loop fuel tokens value (S sequence_match) (S sequence) sequence_pos
                   (S sequence_match)
             | None => Some false
             end
      else Some (skip_seqs (length tokens) tokens tp =? length tokens)%nat
  end.

(** Enough turns for any pattern and value; see [match_loop_correct]. *)
Definition match_fuel (tokens : list Token) (value : list Z) : nat :=
  S ((length value + 2) * (length value + length tokens + 2))%nat.

Definition matches (tokens : list Token) (value : list Z) : option bool :=
  if (length tokens =? 1)%nat && seq_at tokens 0 then Some true
  else match position_seq tokens, rposition_seq tokens with
       | Some first_sequence, Some last_sequence =>
           let suffix_len := (length tokens - last_sequence - 1)%nat in
           if (length value <? first_sequence + suffix_len)%nat then Some false
           else if negb (zip_all (take first_sequence tokens) (take first_sequence value))
           then Some false
           else if negb (zip_all (drop (last_sequence + 1) tokens)
                           (drop (length value - suffix_len) value))
           then Some false
           else if (first_sequence =? last_sequence)%nat then Some true
           else let tokens := slice tokens first_sequence (last_sequence + 1) in
                let value := slice value first_sequence (length value - suffix_len) in
                match_loop (match_fuel tokens value) tokens value 0 0 None 0
       | _, _ =>
           Some ((length tokens =? length value)%nat && zip_all tokens value)
       end.

(** ** Reference semantics *)

(** Some suffix of [v] satisfies [f]. *)
Fixpoint some_suffix (f : list Z -> bool) (v : list Z) : bool :=
  f v || match v with [] => false | _ :: v => some_suffix f v end.

Fixpoint glob_spec (tokens : list Token) (v : list Z) : bool :=
  match tokens with
  | [] => match v with [] => true | _ => false end
  | t :: tokens =>
      if is_seq t then some_suffix (glob_spec tokens) v
      else match v with
           | [] => false
           | c :: v => token_matches t c && glob_spec tokens v
           end
  end.

(** ** Lemmas on the reference semantics *)

Lemma some_suffix_spec f v :
  some_suffix f v = true <-> exists k, (k <= length v)%nat /\ f (drop k v) = true.
Proof.
  induction v as [|c v IH]; cbn [some_suffix].
  - rewrite orb_false_r. split; [intros; by exists 0%nat|]. intros (k & ? & H).
    by destruct k.
  - rewrite orb_true_iff, IH. split.
    + intros [H|(k & ? & H)]; [by exists 0%nat; split; [lia|]|].
      exists (S k). cbn. split; [lia|done].
    + intros ([|k] & ? & H); [by left|]. right. exists k. cbn in *. split; [lia|done].
Qed.

Lemma some_suffix_drop f v k : some_suffix f (drop k v) = true -> some_suffix f v = true.
Proof.
  rewrite !some_suffix_spec. intros (j & Hj & H). rewrite drop_drop in H.
  rewrite length_drop in Hj.
  destruct (decide (k + j <= length v)%nat).
  - by exists (k + j)%nat.
  - exists (length v). split; [done|].
    rewrite drop_ge in H by lia. by rewrite drop_all.
Qed.

Lemma glob_spec_nil tokens : glob_spec tokens [] = forallb is_seq tokens.
Proof.
  induction tokens as [|t tokens IH]; cbn; [done|]. rewrite <-IH.
  destruct (is_seq t); cbn; [by rewrite orb_false_r|done].
Qed.

Lemma glob_spec_app R S v :
  glob_spec (R ++ S) v = true <->
  exists k, (k <= length v)%nat /\ glob_spec R (take k v) = true /\ glob_spec S (drop k v) = true.
Proof.
  revert v. induction R as [|t R IH]; intros v; cbn [app glob_spec].
  - split; [intros; exists 0%nat; split_and!; [lia|done|done]|].
    intros (k & Hk & H & H2). destruct k; [done|]. destruct v; cbn in *; [done|discriminate].
  - destruct (is_seq t).
    + rewrite some_suffix_spec. split.
      * intros (j & Hj & (k & Hk & H1 & H2)%IH). rewrite length_drop in Hk.
        exists (j + k)%nat. rewrite drop_drop in H2. split_and!; [lia| |done].
        apply some_suffix_spec. exists j. rewrite length_take. split; [lia|].
        by rewrite skipn_firstn_comm, (Nat.add_comm j k), Nat.add_sub.
      * intros (k & Hk & (j & Hj & H1)%some_suffix_spec & H2). rewrite length_take in Hj.
        exists j. split; [lia|]. apply IH. exists (k - j)%nat.
        rewrite length_drop, drop_drop. split_and!; [lia| |].
        -- by rewrite <-skipn_firstn_comm.
        -- by replace (j + (k - j))%nat with k by lia.
    + destruct v as [|c v].
      * split; [done|]. intros (k & _ & H & _). rewrite take_nil in H. done.
      * rewrite andb_true_iff, IH. split.
        -- intros (Ht & k & ? & ? & ?). exists (Datatypes.S k). cbn. rewrite Ht.
           split_and!; [lia|done|done].
        -- intros ([|k] & Hk & H & H2); cbn in *; [done|].
           apply andb_true_iff in H as [-> ?]. split; [done|]. exists k. auto with lia.
Qed.

(** ** The matching loop *)

(** Past a token that is no sequence, the specification consumes one character. *)
Lemma glob_spec_step tokens v tp t c vp :
  tokens !! tp = Some t -> v !! vp = Some c -> is_seq t = false ->
  glob_spec (drop tp tokens) (drop vp v) =
    token_matches t c && glob_spec (drop (S tp) tokens) (drop (S vp) v).
Proof.
  intros Ht Hc Hs. rewrite (drop_S _ _ _ Ht), (drop_S _ _ _ Hc). cbn. by rewrite Hs.
Qed.

Lemma glob_spec_seq tokens v s :
  seq_at tokens s = true ->
  glob_spec (drop s tokens) v = some_suffix (glob_spec (drop (S s) tokens)) v.
Proof.
  unfold seq_at. destruct (tokens !! s) as [t|] eqn:Ht; [|done]. intros Hs.
  rewrite (drop_S _ _ _ Ht). cbn. by rewrite Hs.
Qed.

(** What the loop knows about the last sequence [s], tried at [m], when it stands at [tp]/[vp]. *)
Record seq_inv (tokens : list Token) (value : list Z) (vp tp s m : nat) : Prop := {
  si_seq : seq_at tokens s = true;
  si_pos : (s < tp)%nat /\ (m <= vp)%nat /\ (tp - S s = vp - m)%nat;
  si_here : glob_spec (drop (S s) tokens) (drop m value) = glob_spec (drop tp tokens) (drop vp value);
  si_tail : forall w, glob_spec (drop (S s) tokens) w = true ->
      glob_spec (drop tp tokens) (drop (tp - S s) w) = true;
  si_spec : glob_spec tokens value = glob_spec (drop s tokens) (drop m value)
}.

Definition loop_inv (tokens : list Token) (value : list Z) (vp tp : nat) (seq : option nat)
    (m : nat) : Prop :=
  (vp <= length value)%nat /\ (tp <= length tokens)%nat /\ (m <= vp)%nat /\
  match seq with
  | None => m = 0%nat /\ glob_spec tokens value = glob_spec (drop tp tokens) (drop vp value)
  | Some s => seq_inv tokens value vp tp s m
  end.

Lemma seq_at_lt tokens s : seq_at tokens s = true -> (s < length tokens)%nat.
Proof.
  unfold seq_at. destruct (tokens !! s) eqn:E; [|done]. intros _. by eapply lookup_lt_Some.
Qed.

Lemma match_at_inv tokens value tp vp :
  match_at tokens value tp vp = true ->
  exists t c, tokens !! tp = Some t /\ value !! vp = Some c /\ is_seq t = false /\
    token_matches t c = true.
Proof.
  unfold match_at. destruct (tokens !! tp) as [t|]; [|done].
  destruct (value !! vp) as [c|]; [|done]. intros H. exists t, c. by destruct t.
Qed.

(** A character that matches no token and meets no sequence: the specification is false here. *)
Lemma glob_spec_mismatch tokens value tp vp :
  (vp < length value)%nat -> match_at tokens value tp vp = false -> seq_at tokens tp = false ->
  glob_spec (drop tp tokens) (drop vp value) = false.
Proof.
  intros [c Hc]%lookup_lt_is_Some Hm Hs. unfold match_at, seq_at in *.
  destruct (tokens !! tp) as [t|] eqn:Ht.
  - rewrite Hc in Hm. by rewrite (glob_spec_step _ _ _ _ _ _ Ht Hc Hs), Hm.
  - apply lookup_ge_None in Ht. rewrite drop_ge by done. rewrite (drop_S _ _ _ Hc). done.
Qed.

Lemma loop_inv_match tokens value vp tp seq m :
  loop_inv tokens value vp tp seq m -> match_at tokens value tp vp = true ->
  loop_inv tokens value (S vp) (S tp) seq m.
Proof.
  intros (Hv & Ht & Hm & Hi) (t & c & Et & Ec & Es & Em)%match_at_inv.
  pose proof (lookup_lt_Some _ _ _ Et). pose proof (lookup_lt_Some _ _ _ Ec).
  pose proof (glob_spec_step _ _ _ _ _ _ Et Ec Es) as Hstep. rewrite Em in Hstep. cbn in Hstep.
  split_and!; [lia|lia|lia|]. destruct seq as [s|]; [|by rewrite <-Hstep].
  destruct Hi as [H1 (H2 & H3 & H4) H5 H6 H7]. constructor; try done; [lia|congruence|].
  intros w Hw. apply H6 in Hw. replace (S tp - S s)%nat with (S (tp - S s)) by lia.
  rewrite (drop_S _ _ _ Et) in Hw. cbn in Hw. rewrite Es in Hw.
  destruct (drop (tp - S s) w) as [|x w'] eqn:Ew; [done|].
  apply andb_true_iff in Hw as [_ Hw].
  replace (S (tp - S s)) with (tp - S s + 1)%nat by lia. by rewrite <-drop_drop, Ew.
Qed.

Lemma loop_inv_seq tokens value vp tp seq m :
  loop_inv tokens value vp tp seq m -> seq_at tokens tp = true ->
  loop_inv tokens value vp (S tp) (Some tp) vp.
Proof.
  intros (Hv & Ht & Hm & Hi) Hs. pose proof (seq_at_lt _ _ Hs).
  split_and!; [lia|lia|lia|]. constructor; [done|lia|done|..].
  - intros w. by rewrite Nat.sub_diag, drop_0.
  - destruct seq as [s|]; [|by destruct Hi].
    destruct Hi as [H1 (H2 & H3 & H4) H5 H6 H7]. rewrite H7, (glob_spec_seq _ _ _ H1).
    apply eq_true_iff_eq. rewrite some_suffix_spec. split.
    + intros (k & Hk & Hw). apply H6 in Hw. rewrite !drop_drop in Hw.
      rewrite (glob_spec_seq _ _ _ Hs) in Hw. rewrite (glob_spec_seq _ _ _ Hs).
      apply some_suffix_drop with (k := k). rewrite drop_drop.
      by replace (vp + k)%nat with (m + (k + (tp - S s)))%nat by lia.
    + intros Hw. exists 0%nat. rewrite drop_0. split; [lia|]. congruence.
Qed.

Lemma loop_inv_back tokens value vp tp s m :
  loop_inv tokens value vp tp (Some s) m -> (vp < length value)%nat ->
  match_at tokens value tp vp = false -> seq_at tokens tp = false ->
  loop_inv tokens value (S m) (S s) (Some s) (S m).
Proof.
  intros (Hv & Ht & Hm & [H1 (H2 & H3 & H4) H5 H6 H7]) Hlt Hma Hse.
  pose proof (glob_spec_mismatch _ _ _ _ Hlt Hma Hse) as Hf. pose proof (seq_at_lt _ _ H1).
  split_and!; [lia|lia|lia|]. constructor; [done|lia|done|..].
  - intros w. by rewrite Nat.sub_diag, drop_0.
  - rewrite H7, !(glob_spec_seq _ _ _ H1).
    destruct (lookup_lt_is_Some_2 value m) as [c Hc]; [lia|].
    rewrite (drop_S _ _ _ Hc) at 1. cbn. rewrite <-(drop_S _ _ _ Hc), H5, Hf. done.
Qed.

Lemma skip_seqs_spec fuel tokens tp :
  (length tokens - tp <= fuel)%nat -> (tp <= length tokens)%nat ->
  (skip_seqs fuel tokens tp =? length tokens)%nat = glob_spec (drop tp tokens) [].
Proof.
  revert tp. induction fuel as [|fuel IH]; intros tp Hf Ht; cbn.
  - rewrite drop_ge by lia. cbn. apply Nat.eqb_eq. lia.
  - destruct (seq_at tokens tp) eqn:Hs.
    + rewrite IH by (pose proof (seq_at_lt _ _ Hs); lia). rewrite (glob_spec_seq _ _ _ Hs). cbn.
      by rewrite orb_false_r.
    + unfold seq_at in Hs. destruct (tokens !! tp) as [t|] eqn:Et.
      * rewrite (drop_S _ _ _ Et). cbn. rewrite Hs.
        apply Nat.eqb_neq. pose proof (lookup_lt_Some _ _ _ Et). lia.
      * apply lookup_ge_None in Et. rewrite drop_ge by done. cbn. apply Nat.eqb_eq. lia.
Qed.

(** At the end of the value the sequences left decide. *)
Lemma loop_inv_end tokens value tp seq m :
  loop_inv tokens value (length value) tp seq m ->
  glob_spec tokens value = glob_spec (drop tp tokens) [].
Proof.
  intros (_ & Ht & Hm & Hi). destruct seq as [s|].
  - destruct Hi as [H1 (H2 & H3 & H4) H5 H6 H7]. rewrite H7, (glob_spec_seq _ _ _ H1).
    rewrite drop_all in H5. apply eq_true_iff_eq. rewrite some_suffix_spec. split.
    + intros (k & Hk & Hw). apply H6 in Hw. rewrite !drop_drop in Hw.
      by rewrite (drop_ge value) in Hw by lia.
    + intros Hw. exists 0%nat. rewrite drop_0. split; [lia|]. congruence.
  - destruct Hi as [_ ->]. by rewrite drop_all.
Qed.

(** The measure every turn decreases. *)
Definition loop_measure (tokens : list Token) (value : list Z) (vp tp m : nat) : nat :=
  ((length value + 1 - m) * (length value + length tokens + 2)
   + (length value - vp) + (length tokens - tp))%nat.

Lemma match_loop_correct fuel tokens value vp tp seq m :
  loop_inv tokens value vp tp seq m -> (loop_measure tokens value vp tp m < fuel)%nat ->
  match_loop fuel tokens value vp tp seq m = Some (glob_spec tokens value).
Proof.
  revert vp tp seq m. induction fuel as [|fuel IH]; intros vp tp seq m Hi Hf; [lia|].
  cbn [match_loop]. pose proof Hi as (Hv & Ht & Hm & _). unfold loop_measure in *.
  destruct (Nat.ltb_spec vp (length value)) as [Hlt|Hge].
  - destruct (match_at tokens value tp vp) eqn:Hma.
    { apply IH; [by apply loop_inv_match|].
      apply match_at_inv in Hma as (t & c & Et & _). apply lookup_lt_Some in Et. lia. }
    destruct (seq_at tokens tp) eqn:Hse.
    { apply IH; [by eapply loop_inv_seq|]. apply seq_at_lt in Hse.
      assert ((length value + 1 - vp) <= (length value + 1 - m))%nat as Hle by lia.
      pose proof (Nat.mul_le_mono_r _ _ (length value + length tokens + 2) Hle). lia. }
    destruct seq as [s|].
    + apply IH; [by eapply loop_inv_back|].
      replace (length value + 1 - m)%nat with (S (length value + 1 - S m)) in Hf by lia.
      rewrite Nat.mul_succ_l in Hf. lia.
    + f_equal. destruct Hi as (_ & _ & _ & _ & ->). by rewrite glob_spec_mismatch.
  - assert (vp = length value) as -> by lia. f_equal.
    rewrite skip_seqs_spec by lia. symmetry. by eapply loop_inv_end.
Qed.

Lemma match_loop_start tokens value :
  match_loop (match_fuel tokens value) tokens value 0 0 None 0 = Some (glob_spec tokens value).
Proof.
  apply match_loop_correct.
  - unfold loop_inv. rewrite !drop_0. auto with lia.
  - unfold loop_measure, match_fuel. rewrite Nat.mul_add_distr_r. lia.
Qed.

(** ** Prefix and suffix *)

Definition seq_free (tokens : list Token) : Prop := Forall (fun t => is_seq t = false) tokens.

Lemma glob_spec_seq_free tokens v :
  seq_free tokens -> glob_spec tokens v = (length tokens =? length v)%nat && zip_all tokens v.
Proof.
  intros H. revert v. induction H as [|t tokens Ht _ IH]; intros [|c v]; cbn; try done.
  - by rewrite Ht.
  - rewrite Ht, IH. unfold zip_all. cbn.
    destruct (token_matches t c), (length tokens =? length v)%nat; done.
Qed.

Lemma position_seq_None tokens : position_seq tokens = None -> seq_free tokens.
Proof.
  induction tokens as [|t tokens IH]; cbn; [constructor|]. destruct (is_seq t) eqn:E; [done|].
  destruct (position_seq tokens); [done|]. intros _. constructor; [done|by apply IH].
Qed.

Lemma position_seq_Some tokens i :
  position_seq tokens = Some i -> seq_free (take i tokens) /\ seq_at tokens i = true.
Proof.
  revert i. induction tokens as [|t tokens IH]; intros i; cbn; [done|].
  destruct (is_seq t) eqn:E; [intros [= <-]; split; [constructor|done]|].
  destruct (position_seq tokens) as [j|]; [|done]. intros [= <-]. cbn.
  destruct (IH j eq_refl) as [H1 H2]. split; [by constructor|done].
Qed.

Lemma rposition_seq_None tokens : rposition_seq tokens = None -> seq_free tokens.
Proof.
  induction tokens as [|t tokens IH]; cbn; [constructor|].
  destruct (rposition_seq tokens); [done|]. destruct (is_seq t) eqn:E; [done|].
  intros _. constructor; [done|by apply IH].
Qed.

Lemma rposition_seq_Some tokens j :
  rposition_seq tokens = Some j -> seq_free (drop (j + 1) tokens) /\ seq_at tokens j = true.
Proof.
  revert j. induction tokens as [|t tokens IH]; intros j; cbn; [done|].
  destruct (rposition_seq tokens) as [k|] eqn:Ek.
  - intros [= <-]. destruct (IH k eq_refl) as [H1 H2]. done.
  - destruct (is_seq t) eqn:E; [|done]. intros [= <-]. rewrite drop_0 || cbn.
    split; [by apply rposition_seq_None|done].
Qed.

Lemma seq_free_no_seq tokens i : seq_free tokens -> seq_at tokens i = false.
Proof.
  intros H. unfold seq_at. destruct (tokens !! i) eqn:E; [|done].
  by apply (Forall_lookup_1 _ _ _ _ H E).
Qed.

Lemma position_le tokens i j :
  position_seq tokens = Some i -> rposition_seq tokens = Some j -> (i <= j)%nat.
Proof.
  intros [Hi _]%position_seq_Some [_ Hj]%rposition_seq_Some.
  destruct (decide (i <= j)%nat) as [|Hlt]; [done|].
  pose proof (seq_free_no_seq _ j Hi) as H. unfold seq_at in *.
  by rewrite lookup_take_lt in H by lia; rewrite H in Hj.
Qed.

(** A pattern that starts with a sequence-free prefix and ends with a sequence-free suffix. *)
Lemma glob_spec_affixes pre mid suf v :
  seq_free pre -> seq_free suf ->
  glob_spec (pre ++ mid ++ suf) v =
    (length pre + length suf <=? length v)%nat
    && zip_all pre (take (length pre) v)
    && zip_all suf (drop (length v - length suf) v)
    && glob_spec mid (slice v (length pre) (length v - length suf)).
Proof.
  intros Hp Hs. apply eq_true_iff_eq. rewrite glob_spec_app, !andb_true_iff, Nat.leb_le. split.
  - intros (i & Hi & H1 & (k & Hk & H2 & H3)%glob_spec_app).
    rewrite (glob_spec_seq_free _ _ Hp), andb_true_iff, Nat.eqb_eq, length_take in H1.
    rewrite (glob_spec_seq_free _ _ Hs), andb_true_iff, Nat.eqb_eq, !length_drop in H3.
    rewrite length_drop in Hk. destruct H1 as [H1 H1'], H3 as [H3 H3'].
    assert (i = length pre) as -> by lia.
    rewrite drop_drop in H3'. replace (length pre + k)%nat with (length v - length suf)%nat in H3' by lia.
    unfold slice. replace (length v - length suf - length pre)%nat with k by lia. auto with lia.
  - intros [[[Hl H1] H3] H2]. exists (length pre). split; [lia|]. split.
    + rewrite (glob_spec_seq_free _ _ Hp), length_take, H1.
      replace (length pre =? _)%nat with true by (symmetry; apply Nat.eqb_eq; lia). done.
    + apply glob_spec_app. exists (length v - length suf - length pre)%nat.
      rewrite length_drop, drop_drop. split; [lia|]. split; [done|].
      replace (length pre + _)%nat with (length v - length suf)%nat by lia.
      rewrite (glob_spec_seq_free _ _ Hs), length_drop, H3.
      replace (length suf =? _)%nat with true by (symmetry; apply Nat.eqb_eq; lia). done.
Qed.

Lemma glob_spec_any v : glob_spec [AnySequence] v = true.
Proof. apply some_suffix_spec. exists (length v). by rewrite drop_all. Qed.

Lemma split_at_seqs (tokens : list Token) i j :
  (i <= j < length tokens)%nat ->
  tokens = take i tokens ++ slice tokens i (j + 1) ++ drop (j + 1) tokens.
Proof.
  intros H. unfold slice. rewrite <-(take_drop i tokens) at 1. f_equal.
  rewrite <-(take_drop (j + 1 - i) (drop i tokens)) at 1. f_equal.
  rewrite drop_drop. f_equal. lia.
Qed.

Lemma matches_total (tokens : list Token) (value : list Z) :
  matches tokens value = Some (glob_spec tokens value).
Proof.
  unfold matches. destruct (_ && seq_at tokens 0) eqn:E1.
  { apply andb_true_iff in E1 as [Hl Hs]. apply Nat.eqb_eq in Hl.
    destruct tokens as [|[] []]; try done. by rewrite glob_spec_any. }
  destruct (position_seq tokens) as [i|] eqn:Ei.
  2: { f_equal. symmetry. by apply glob_spec_seq_free, position_seq_None. }
  destruct (rposition_seq tokens) as [j|] eqn:Ej.
  2: { f_equal. symmetry. by apply glob_spec_seq_free, rposition_seq_None. }
  pose proof (position_le _ _ _ Ei Ej) as Hij.
  apply position_seq_Some in Ei as [Hpre Hi]. apply rposition_seq_Some in Ej as [Hsuf Hj].
  pose proof (seq_at_lt _ _ Hj) as Hjl.
  pose proof (glob_spec_affixes _ (slice tokens i (j + 1)) _ value Hpre Hsuf) as Haff.
  rewrite <-split_at_seqs in Haff by lia. rewrite length_take, length_drop in Haff.
  replace (i `min` length tokens)%nat with i in Haff by lia.
  rewrite Nat.sub_add_distr in Haff.
  rewrite Haff. destruct (Nat.ltb_spec (length value) (i + (length tokens - j - 1))) as [Hlt|Hge].
  { by rewrite (proj2 (Nat.leb_gt _ _) Hlt). }
  rewrite (proj2 (Nat.leb_le _ _) Hge). cbn [andb].
  destruct (zip_all (take i tokens) _); cbn [negb andb]; [|done].
  destruct (zip_all (drop _ tokens) _); cbn [negb andb]; [|done].
  destruct (Nat.eqb_spec i j) as [->|Hne]; [|by rewrite match_loop_start].
  unfold slice. replace (j + 1 - j)%nat with 1%nat by lia.
  unfold seq_at in Hj. destruct (tokens !! j) as [[]|] eqn:Et; try done.
  rewrite (drop_S _ _ _ Et). cbn [take]. by rewrite glob_spec_any.
Qed.

(** C38. The iterative matcher is correct and terminates: for every compiled pattern and every
    value, [matches] returns (the fuel never runs out), and what it returns is the recursive
    reference semantics, where [*] stands for any run of characters. *)
Theorem matches_correct (tokens : list Token) (value : list Z) :
  matches tokens value = Some (glob_spec tokens value).
Proof. apply matches_total. Qed.

(** ** Compilation *)

Lemma class_members_pos fuel chars pos acc :
  (pos <= (class_members fuel chars pos acc).1)%nat.
Proof.
  revert pos acc. induction fuel as [|fuel IH]; intros pos acc; cbn; [done|].
  destruct (chars !! pos) as [c|]; [|done]. destruct (c =? 93); [done|].
  destruct (chars !! (pos + 2)%nat) as [hi|].
  - destruct (_ && _);
      match goal with |- context [class_members fuel chars ?p ?a] => pose proof (IH p a) end; lia.
  - match goal with |- context [class_members fuel chars ?p ?a] => pose proof (IH p a) end; lia.
Qed.

Lemma parse_class_advances chars start token next :
  parse_class chars start = Some (token, next) -> (start < next <= length chars)%nat.
Proof.
  unfold parse_class. set (p := if char_is chars (start + 1) 94 then _ else _).
  pose proof (class_members_pos (length chars) chars p []) as Hp.
  destruct (class_members _ _ _ _) as [pos ms]. cbn in Hp.
  destruct (_ || _) eqn:E; [done|]. apply orb_false_iff in E as [E _].
  apply Nat.leb_gt in E. intros [= _ <-]. subst p. destruct (char_is chars (start + 1) 94); lia.
Qed.

(** Once the fuel covers the characters left, more of it changes nothing. *)
Lemma compile_fuel f1 f2 chars pos tokens :
  (length chars - pos <= f1)%nat -> (length chars - pos <= f2)%nat ->
  compile f1 chars pos tokens = compile f2 chars pos tokens.
Proof.
  revert f2 pos tokens. induction f1 as [|f1 IH]; intros [|f2] pos tokens H1 H2; cbn; try done.
  - by rewrite lookup_ge_None_2 by lia.
  - by rewrite lookup_ge_None_2 by lia.
  - destruct (chars !! pos) as [c|] eqn:Ec; [|done]. apply lookup_lt_Some in Ec.
    repeat case_match; apply IH; try lia;
      match goal with H : parse_class _ _ = Some _ |- _ => apply parse_class_advances in H end; lia.
Qed.

Definition special (c : Z) : bool := (c =? 42) || (c =? 63) || (c =? 91).

Lemma compile_literals fuel chars pos tokens :
  (length chars - pos <= fuel)%nat -> Forall (fun c => special c = false) chars ->
  compile fuel chars pos tokens = tokens ++ (Literal <$> drop pos chars).
Proof.
  revert pos tokens. induction fuel as [|fuel IH]; intros pos tokens Hf Hs; cbn.
  - rewrite drop_ge by lia. cbn. by rewrite app_nil_r.
  - destruct (chars !! pos) as [c|] eqn:Ec.
    + pose proof (Forall_lookup_1 _ _ _ _ Hs Ec) as Hc. unfold special in Hc.
      rewrite !orb_false_iff in Hc. destruct Hc as [[-> ->] ->].
      rewrite IH by (done || lia). rewrite (drop_S _ _ _ Ec). cbn.
      by rewrite <-(assoc_L (++)), Nat.add_1_r.
    + apply lookup_ge_None in Ec. rewrite drop_ge by done. cbn. by rewrite app_nil_r.
Qed.

Lemma glob_spec_literals p v : glob_spec (Literal <$> p) v = bytes_eqb p v.
Proof.
  revert v. induction p as [|c p IH]; intros [|x v]; cbn; try done.
  rewrite IH. apply eq_true_iff_eq. rewrite andb_true_iff, Z.eqb_eq, !bytes_eqb_eq.
  split; [by intros [-> ->]|by intros [= -> ->]].
Qed.

(** A pattern without [*], [?] or [[] compiles to its literal characters and matches exactly
    the string it spells. *)
Theorem literal_pattern_matches (pattern value : list Z) :
  Forall (fun c => special c = false) pattern ->
  matches (new pattern) value = Some (bytes_eqb pattern value).
Proof.
  intros Hs. unfold new. rewrite compile_literals, drop_0 by (done || lia).
  rewrite matches_total. f_equal. apply glob_spec_literals.
Qed.

Lemma literal_pattern_matches_witness :
  Forall (fun c => special c = false) (bs "user:1") /\
  matches (new (bs "user:1")) (bs "user:1") = Some (bytes_eqb (bs "user:1") (bs "user:1")).
Proof.
  assert (Forall (fun c => special c = false) (bs "user:1")) as H
    by (repeat constructor; reflexivity).
  split; [exact H|]. apply (literal_pattern_matches (bs "user:1") (bs "user:1") H).
Defined.

(** Classes, ranges, negation and an unterminated class, as the source tests them. *)
Example class_examples :
  matches (new (bs "h[a-c]llo*")) (bs "hbllo world") = Some true /\
  matches (new (bs "h[^a]llo")) (bs "hallo") = Some false /\
  matches (new (bs "a[b")) (bs "a[b") = Some true /\
  matches (new (bs "**a**b**")) (bs "xxaxxbxx") = Some true.
Proof. vm_compute. done. Qed.

End Glob.
