(* ===== verification/RespWrite.v ===== *)
(** * RESP replies ([src/src/resp.rs], lines 1-265 and 479-541)

    [Itoa] is the twenty-byte integer formatter; [Out] is the construction of a reply: the
    thread-local output limit with its budget reservation, the guard that installs and restores
    it, [extend], and the writers of every RESP fragment.

    A [Thread] value is what the writers share: the thread-local [OUTPUT_LIMIT], and the process's
    response budget (its limit and its counter, [Limits.Budget]). *)

From S2P Require Import Prelude.
From S2P Require Import Limits.
Local Open Scope Z_scope.

Module Itoa.

Record Buffer := mkBuffer { buf : bytes; pos : nat }.

Definition new : Buffer := mkBuffer (replicate 20 0) 20.

(** [self.pos -= 1; self.buf[self.pos] = b]: below position zero, or past the twenty bytes, the
    index panics. *)
Definition put (b : Z) (self : Buffer) : outcome Buffer :=
  match pos self with
  | O => Panicked
  | S p => if bool_decide (p < length (buf self))%nat
           then Returned (mkBuffer (<[p := b]> (buf self)) p) else Panicked
  end.

(** [while n > 0 { .. }]. Every turn moves [pos] one to the left and panics at zero, so
    [S (pos self)] turns are always enough. *)
Fixpoint put_digits (fuel : nat) (n : Z) (self : Buffer) : outcome Buffer :=
  match fuel with
  | O => Panicked
  | S fuel =>
      if n >? 0 then put (48 + n mod 10) self ≫= put_digits fuel (n / 10) else Returned self
  end.

Definition put_number (n : Z) (self : Buffer) : outcome Buffer :=
  if n =? 0 then put 48 self else put_digits (S (pos self)) n self.

(** The text and the buffer it borrows from. *)
Definition format_usize (n : Z) (self : Buffer) : outcome (bytes * Buffer) :=
  self ← put_number n (mkBuffer (buf self) 20);
  Returned (drop (pos self) (buf self), self).

(** The magnitude goes through [i128], so it is defined for [i64::MIN] too. *)
Definition format_i64 (n : Z) (self : Buffer) : outcome (bytes * Buffer) :=
  let negative := n <? 0 in
  self ← put_number (as_u64 (if negative then - n else n)) (mkBuffer (buf self) 20);
  self ← (if negative then put 45 self else Returned self);
  Returned (drop (pos self) (buf self), self).

(** ** Lemmas *)

Lemma put_spec b self :
  (0 < pos self <= length (buf self))%nat ->
  exists self', put b self = Returned self' /\ pos self = S (pos self') /\
    length (buf self') = length (buf self) /\
    drop (pos self') (buf self') = b :: drop (pos self) (buf self).
Proof.
  intros Hp. unfold put. destruct self as [l [|p]]; simpl in *; [lia|].
  rewrite bool_decide_eq_true_2 by lia. eexists; split; [reflexivity|]; simpl.
  rewrite length_insert. split_and!; [done|done|].
  erewrite drop_S by (by apply list_lookup_insert_eq; lia).
  by rewrite drop_insert_lt by lia.
Qed.

Lemma put_digits_spec fuel n self :
  (pos self <= length (buf self))%nat -> (pos self < fuel)%nat ->
  0 <= n < 10 ^ Z.of_nat (pos self) ->
  exists self', put_digits fuel n self = Returned self' /\
    length (buf self') = length (buf self) /\ (pos self' <= pos self)%nat /\
    drop (pos self') (buf self') = digits_go fuel n [] ++ drop (pos self) (buf self) /\
    (forall k, (k <= pos self)%nat -> n < 10 ^ Z.of_nat k -> (pos self - k <= pos self')%nat).
Proof.
  revert n self. induction fuel as [|fuel IH]; intros n self Hl Hf Hn; [lia|].
  cbn [put_digits digits_go]. destruct (Z.gtb_spec n 0); destruct (Z.eqb_spec n 0); try lia.
  - destruct (pos self) as [|p] eqn:Hp; [simpl in Hn; lia|].
    rewrite Nat2Z.inj_succ, Z.pow_succ_r in Hn by lia.
    destruct (put_spec (48 + n mod 10) self) as (s1 & -> & E1 & L1 & D1); [lia|].
    cbn [mbind outcome_bind].
    assert (0 <= n / 10 < 10 ^ Z.of_nat (pos s1)) as Hn1.
    { split; [apply Z.div_pos; lia|]. apply Z.div_lt_upper_bound; [lia|].
      replace (pos s1) with p by lia. lia. }
    destruct (IH (n / 10) s1) as (s2 & -> & L2 & P2 & D2 & K2); [lia|lia|done|].
    exists s2. split_and!; [done|lia|lia| |].
    + rewrite D2, D1, Hp. rewrite (digits_go_app _ _ [_]), <-(assoc_L (++)). done.
    + intros [|k] Hk Hnk; [simpl in Hnk; lia|].
      rewrite Nat2Z.inj_succ, Z.pow_succ_r in Hnk by lia.
      assert (n / 10 < 10 ^ Z.of_nat k) by (apply Z.div_lt_upper_bound; lia).
      specialize (K2 k ltac:(lia) ltac:(done)). lia.
  - exists self. split_and!; try done. lia.
Qed.

Lemma digits_go_fuel f1 f2 z :
  0 <= z < 10 ^ Z.of_nat f1 -> 0 <= z < 10 ^ Z.of_nat f2 -> digits_go f1 z [] = digits_go f2 z [].
Proof.
  revert f2 z. induction f1 as [|f1 IH]; intros f2 z H1 H2.
  - assert (z = 0) as -> by (simpl in H1; lia). by destruct f2.
  - destruct (Z.eqb_spec z 0) as [->|Hz]; [by destruct f2|].
    destruct f2 as [|f2]; [simpl in H2; lia|].
    rewrite Nat2Z.inj_succ, Z.pow_succ_r in H1, H2 by lia.
    cbn [digits_go]. destruct (Z.eqb_spec z 0); [done|].
    rewrite (digits_go_app f1), (digits_go_app f2). f_equal.
    apply IH; (split; [apply Z.div_pos; lia|apply Z.div_lt_upper_bound; lia]).
Qed.

(** A number below [10 ^ k] is written in the last [k] positions. *)
Lemma put_number_spec n k self :
  length (buf self) = 20%nat -> (0 < k <= 20)%nat -> 0 <= n < 10 ^ Z.of_nat k ->
  exists self', put_number n (mkBuffer (buf self) 20) = Returned self' /\
    length (buf self') = 20%nat /\ (20 - k <= pos self' <= 20)%nat /\
    drop (pos self') (buf self') = fmt_u n.
Proof.
  intros Hl Hk Hn. set (b0 := mkBuffer (buf self) 20). unfold put_number, fmt_u.
  assert (drop 20 (buf self) = []) as Hd by (apply drop_ge; lia).
  destruct (Z.eqb_spec n 0) as [->|Hnz].
  - destruct (put_spec 48 b0) as (s1 & -> & E1 & L1 & D1); [simpl; lia|].
    simpl in E1. exists s1. split_and!; [done|simpl in L1; lia|lia|lia|].
    rewrite D1. simpl. by rewrite Hd.
  - assert (10 ^ Z.of_nat k <= 10 ^ 20) by (apply Z.pow_le_mono_r; lia).
    assert (0 <= n < 10 ^ Z.of_nat (pos b0)) as Hb by (change (Z.of_nat (pos b0)) with 20; lia).
    destruct (put_digits_spec (S (pos b0)) n b0) as (s1 & -> & L1 & P1 & D1 & K1);
      [simpl; lia|lia|done|].
    exists s1. specialize (K1 k). simpl in L1, P1, K1.
    split_and!; [done|lia| |lia|].
    + apply K1; [lia|apply Hn].
    + rewrite D1. simpl pos. simpl buf. rewrite Hd, app_nil_r.
      apply digits_go_fuel; [|apply fmt_u_fuel; lia].
      split; [lia|]. eapply Z.lt_le_trans; [apply Hn|]. apply Z.pow_le_mono_r; lia.
Qed.

Lemma format_usize_ok n self :
  length (buf self) = 20%nat -> 0 <= n <= usize_max ->
  exists self', format_usize n self = Returned (fmt_u n, self') /\ length (buf self') = 20%nat.
Proof.
  intros Hl Hn. unfold format_usize.
  destruct (put_number_spec n 20 self) as (s1 & -> & L1 & _ & D1); [done|lia| |].
  { unfold usize_max in Hn. change (10 ^ Z.of_nat 20) with 100000000000000000000. lia. }
  cbn [mbind outcome_bind]. rewrite D1. eauto.
Qed.

Lemma format_i64_ok n self :
  length (buf self) = 20%nat -> i64_min <= n <= i64_max ->
  exists self', format_i64 n self = Returned (fmt_i n, self') /\ length (buf self') = 20%nat.
Proof.
  intros Hl Hn. unfold format_i64, fmt_i, i64_min, i64_max in *.
  rewrite as_u64_small by (unfold u64_mod; destruct (Z.ltb_spec n 0); lia).
  destruct (put_number_spec (if n <? 0 then - n else n) 19 self)
    as (s1 & -> & L1 & P1 & D1); [done|lia| |].
  { change (10 ^ Z.of_nat 19) with 10000000000000000000. destruct (Z.ltb_spec n 0); lia. }
  cbn [mbind outcome_bind]. destruct (Z.ltb_spec n 0).
  - destruct (put_spec 45 s1) as (s2 & -> & E2 & L2 & D2); [lia|].
    cbn [mbind outcome_bind]. rewrite D2, D1. eexists; split; [done|lia].
  - cbn [mbind outcome_bind]. rewrite D1. eauto.
Qed.

(** The hand-written integer formatter, whatever its buffer held before, never indexes outside
    its twenty bytes, for any [i64] (the minimum included) and any [usize], and produces exactly
    the decimal text. *)
Theorem format_correct (self : Buffer) (n : Z) :
  length (buf self) = 20%nat ->
  (i64_min <= n <= i64_max ->
   exists self', format_i64 n self = Returned (fmt_i n, self') /\ length (buf self') = 20%nat) /\
  (0 <= n <= usize_max ->
   exists self', format_usize n self = Returned (fmt_u n, self') /\ length (buf self') = 20%nat).
Proof. intros. split; intros; [by apply format_i64_ok|by apply format_usize_ok]. Qed.

Lemma format_correct_witness :
  exists self', format_i64 i64_min new = Returned (bs "-9223372036854775808", self')
    /\ length (buf self') = 20%nat.
Proof.
  destruct (proj1 (format_correct new i64_min eq_refl)) as (s & E & L).
  - unfold i64_min, i64_max. lia.
  - exists s. split; [exact E|exact L].
Defined.

End Itoa.

Module Out.
Import Limits.Budget.

Record OutputLimitState := mkOLS {
  out_limit : Z;
  exceeded : bool;
  capacity_exhausted : bool;
  out_reservation : option Z       (* the bytes the [ByteReservation] holds *)
}.

Definition unlimited : OutputLimitState := mkOLS usize_max false false None.

(** The thread-local limit, the response budget and the reply buffer. *)
Record Thread := mkThread {
  current : OutputLimitState;
  budget_limit : Z;
  budget_used : Z;
  out : bytes
}.

Definition set_current (c : OutputLimitState) (t : Thread) : Thread :=
  mkThread c (budget_limit t) (budget_used t) (out t).

Definition limit_output_inner (limit existing : Z) (with_budget : bool) (t : Thread)
    : OutputLimitState * Thread :=
  let '(reservation, exhausted, used) :=
    if with_budget then
      match try_reserve (budget_limit t) (budget_used t) existing with
      | (Some held, used) => (Some held, false, used)
      | (None, used) => (None, true, used)
      end
    else (None, false, budget_used t) in
  (current t,
   mkThread (mkOLS limit ((existing >? limit) || exhausted) exhausted reservation)
     (budget_limit t) used (out t)).

Definition limit_output (limit : Z) (t : Thread) := limit_output_inner limit 0 false t.
Definition limit_output_with_budget (limit existing : Z) (t : Thread) :=
  limit_output_inner limit existing true t.

(** [Drop for OutputLimitGuard]: the state is replaced by the previous one, and the reservation
    of the replaced state is dropped with it. *)
Definition drop_guard (previous : OutputLimitState) (t : Thread) : Thread :=
  mkThread previous (budget_limit t)
    (match out_reservation (current t) with
     | Some held => drop_reservation (budget_used t) held
     | None => budget_used t
     end) (out t).

Definition extend (b : bytes) (t : Thread) : Thread :=
  let c := current t in
  if exceeded c then t
  else if match usize_checked (zlen (out t) + zlen b) with
          | None => true
          | Some next => next >? out_limit c
          end
  then set_current (mkOLS (out_limit c) true (capacity_exhausted c) (out_reservation c)) t
  else match out_reservation c with
       | None => mkThread c (budget_limit t) (budget_used t) (out t ++ b)
       | Some held =>
           match try_grow (budget_limit t) (budget_used t) held (zlen b) with
           | (false, used', held') =>
               mkThread (mkOLS (out_limit c) true true (Some held')) (budget_limit t) used' (out t)
           | (true, used', held') =>
               mkThread (mkOLS (out_limit c) (exceeded c) (capacity_exhausted c) (Some held'))
                 (budget_limit t) used' (out t ++ b)
           end
       end.

Definition crlf : bytes := [13; 10].
Definition OK : bytes := bs "+OK" ++ crlf.
Definition PONG : bytes := bs "+PONG" ++ crlf.
Definition NULL : bytes := bs "$-1" ++ crlf.
Definition ZERO : bytes := bs ":0" ++ crlf.
Definition ONE : bytes := bs ":1" ++ crlf.
Definition NEG_ONE : bytes := bs ":-1" ++ crlf.
Definition NEG_TWO : bytes := bs ":-2" ++ crlf.
Definition EMPTY_ARRAY : bytes := bs "*0" ++ crlf.
Definition QUEUED : bytes := bs "+QUEUED" ++ crlf.
Definition NULL_ARRAY : bytes := bs "*-1" ++ crlf.

Definition write_encoded (encoded : bytes) (t : Thread) : Thread := extend encoded t.
Definition write_ok (t : Thread) : Thread := extend OK t.
Definition write_pong (t : Thread) : Thread := extend PONG t.
Definition write_null (t : Thread) : Thread := extend NULL t.
Definition write_queued (t : Thread) : Thread := extend QUEUED t.
Definition write_null_array (t : Thread) : Thread := extend NULL_ARRAY t.

Definition write_simple (s : bytes) (t : Thread) : Thread :=
  extend crlf (extend s (extend (bs "+") t)).
Definition write_error (s : bytes) (t : Thread) : Thread :=
  extend crlf (extend s (extend (bs "-") t)).

Definition write_integer (n : Z) (t : Thread) : outcome Thread :=
  match n with
  | 0 => Returned (extend ZERO t)
  | 1 => Returned (extend ONE t)
  | -1 => Returned (extend NEG_ONE t)
  | -2 => Returned (extend NEG_TWO t)
  | _ =>
      let t := extend (bs ":") t in
      '(text, _) ← Itoa.format_i64 n Itoa.new;
      Returned (extend crlf (extend text t))
  end.

Definition write_bulk_raw (data : bytes) (t : Thread) : outcome Thread :=
  let t := extend (bs "$") t in
  '(text, _) ← Itoa.format_usize (zlen data) Itoa.new;
  Returned (extend crlf (extend data (extend crlf (extend text t)))).

Definition write_bulk (s : bytes) (t : Thread) : outcome Thread := write_bulk_raw s t.

Definition write_array_header (len : Z) (t : Thread) : outcome Thread :=
  if len =? 0 then Returned (extend EMPTY_ARRAY t)
  else
    let t := extend (bs "*") t in
    '(text, _) ← Itoa.format_usize len Itoa.new;
    Returned (extend crlf (extend text t)).

Fixpoint write_bulks (items : list bytes) (t : Thread) : outcome Thread :=
  match items with
  | [] => Returned t
  | item :: items => write_bulk_raw item t ≫= write_bulks items
  end.

Definition write_bulk_array_raw (items : list bytes) (t : Thread) : outcome Thread :=
  write_array_header (zlen items) t ≫= write_bulks items.

Definition write_bulk_array (items : list bytes) (t : Thread) : outcome Thread :=
  write_bulk_array_raw items t.

Definition write_optional_bulk_raw (val : option bytes) (t : Thread) : outcome Thread :=
  match val with
  | Some s => write_bulk_raw s t
  | None => Returned (write_null t)
  end.

(** ** The RESP encoding the writers implement *)

Definition enc_integer (n : Z) : bytes := bs ":" ++ fmt_i n ++ crlf.
Definition enc_bulk (data : bytes) : bytes := bs "$" ++ fmt_u (zlen data) ++ crlf ++ data ++ crlf.
Definition enc_header (n : Z) : bytes := bs "*" ++ fmt_u n ++ crlf.
Definition enc_array (items : list bytes) : bytes :=
  enc_header (zlen items) ++ concat (enc_bulk <$> items).

(** The fragments of [frags] that [extend] puts in the buffer, one call per fragment. *)
Definition extends (frags : list bytes) (t : Thread) : Thread := foldl (fun t b => extend b t) t frags.

(** The invariant of a thread between writes: while the limit is not exceeded, the reply fits it
    and the reservation is part of the budget's counter. *)
Definition held_by (t : Thread) : Z := default 0 (out_reservation (current t)).

Definition thread_ok (t : Thread) : Prop :=
  0 <= budget_used t <= budget_limit t /\ budget_limit t <= usize_max /\
  0 <= held_by t <= budget_used t /\
  (exceeded (current t) = false -> zlen (out t) <= out_limit (current t)).

(** What is charged to the budget by everybody else. *)
Definition others (t : Thread) : Z := budget_used t - held_by t.

(** There is room for [b]: under the output limit, and in the budget where one is reserved. *)
Definition fits (t : Thread) (b : bytes) : Prop :=
  exceeded (current t) = false /\ zlen (out t) + zlen b <= out_limit (current t) /\
  zlen (out t) + zlen b <= usize_max /\
  (is_Some (out_reservation (current t)) -> budget_used t + zlen b <= budget_limit t).

(** [t'] is [t] after some writes of the bytes [b]: either all of them are in the buffer and the
    limit is not exceeded, or the limit is exceeded and a prefix of them is. *)
Record wrote (t : Thread) (b : bytes) (t' : Thread) : Prop := {
  wrote_ok : thread_ok t';
  wrote_limit : out_limit (current t') = out_limit (current t);
  wrote_budget : budget_limit t' = budget_limit t;
  wrote_others : others t' = others t;
  wrote_reserved : is_Some (out_reservation (current t')) <-> is_Some (out_reservation (current t));
  wrote_all : exceeded (current t') = false ->
    exceeded (current t) = false /\ out t' = out t ++ b /\
    (is_Some (out_reservation (current t)) -> held_by t' = held_by t + zlen b);
  wrote_prefix : exists b', b' `prefix_of` b /\ out t' = out t ++ b';
  wrote_fits : fits t b -> exceeded (current t') = false
}.

(** ** Lemmas *)

Lemma wrote_refl t : thread_ok t -> wrote t [] t.
Proof.
  intros Ht. split; try done.
  - intros. split_and!; [done|by rewrite app_nil_r|]. unfold zlen. simpl. lia.
  - exists []. by rewrite app_nil_r.
  - by intros [? _].
Qed.

Lemma wrote_trans t1 t2 t3 b1 b2 :
  wrote t1 b1 t2 -> wrote t2 b2 t3 ->
  (exceeded (current t2) = true -> out t3 = out t2) -> wrote t1 (b1 ++ b2) t3.
Proof.
  intros [? Hl1 Hb1 Ho1 Hr1 Ha1 (p1 & Hp1 & E1) Hf1] [? Hl2 Hb2 Ho2 Hr2 Ha2 (p2 & Hp2 & E2) Hf2] Hx.
  split; try congruence; try tauto.
  - intros H3. destruct (Ha2 H3) as (H2 & E & Hh2), (Ha1 H2) as (H1 & E' & Hh1).
    split_and!; [done|by rewrite E, E', (assoc_L (++))|].
    intros Hs. rewrite Hh2, Hh1, zlen_app by (done || by apply Hr1). lia.
  - destruct (exceeded (current t2)) eqn:H2.
    + exists p1. split; [by apply prefix_app_r|]. by rewrite Hx, E1.
    + destruct (Ha1 eq_refl) as (_ & E & _). exists (b1 ++ p2).
      split; [by apply prefix_app|]. by rewrite E2, E, (assoc_L (++)).
  - intros (Hx0 & Hfl & Hfu & Hfb). rewrite zlen_app in *. pose proof (zlen_nonneg b2).
    assert (exceeded (current t2) = false) as H2.
    { apply Hf1. split_and!; try done; try lia. intros Hs. specialize (Hfb Hs). lia. }
    destruct (Ha1 H2) as (_ & E & Hh). apply Hf2. unfold fits. rewrite E, Hl1, Hb1, zlen_app.
    split_and!; try done; try lia. intros Hs%Hr1. specialize (Hh Hs). specialize (Hfb Hs).
    unfold others in *. lia.
Qed.

Lemma extend_exceeded b t : exceeded (current t) = true -> extend b t = t.
Proof. intros E. unfold extend. by rewrite E. Qed.

(** Closes the fields of [wrote] for an explicit final state. *)
Ltac wrote_fields Hr :=
  split; unfold thread_ok, others, held_by, fits; simpl; rewrite ?Hr; simpl; rewrite ?zlen_app;
  try done;
  lazymatch goal with
  | |- exists _, _ => first [by eexists|exists []; split; [apply prefix_nil|by rewrite app_nil_r]]
  | |- _ = false -> _ => intros ?; try congruence; split_and!; try done; try lia; by intros [? ?]
  | |- _ /\ _ -> _ => intros (? & ? & ? & Hroom); first [done|lia|specialize (Hroom ltac:(eauto)); lia]
  | |- _ => try split_and!; first [done|lia|congruence]
  end.

Lemma extend_wrote b t : thread_ok t -> wrote t b (extend b t).
Proof.
  intros Ht. pose proof Ht as (Hu & Hbl & Hh & Hlen). unfold extend.
  destruct (exceeded (current t)) eqn:Ex.
  { split; try done; [congruence| |by intros [? _]; congruence].
    exists []. split; [apply prefix_nil|by rewrite app_nil_r]. }
  specialize (Hlen eq_refl).
  assert (forall c, out_limit c = out_limit (current t) -> exceeded c = true ->
    out_reservation c = out_reservation (current t) -> ~ fits t b ->
    wrote t b (set_current c t)) as Hstop.
  { intros c Hc Hx Hr Hnf. unfold fits, held_by in *. wrote_fields Hr. }
  pose proof (zlen_nonneg b). pose proof (zlen_nonneg (out t)).
  destruct (usize_checked _) as [next|] eqn:En; cycle 1.
  { apply Hstop; try done. intros (_ & _ & ? & _). rewrite usize_checked_Some in En by lia. done. }
  apply usize_checked_inv in En as [-> Hrange].
  destruct (Z.gtb_spec (zlen (out t) + zlen b) (out_limit (current t))).
  { apply Hstop; try done. intros (_ & ? & _ & _). lia. }
  destruct (out_reservation (current t)) as [held|] eqn:Hr;
    unfold held_by in Hh; rewrite Hr in Hh; cbn in Hh; [|wrote_fields Hr].
  unfold try_grow. destruct (Z.eqb_spec (zlen b) 0) as [E0|]; [wrote_fields Hr|].
  destruct (grow_target _ _ _) as [next|] eqn:Hg.
  - apply grow_target_Some in Hg as (-> & ? & ?). wrote_fields Hr.
  - assert (~ budget_used t + zlen b <= budget_limit t).
    { intros ?. rewrite (proj2 (grow_target_Some _ _ _ (budget_used t + zlen b))) in Hg;
        [done|]. lia. }
    wrote_fields Hr.
Qed.

Lemma wrote_extend t b1 t' b2 : wrote t b1 t' -> wrote t (b1 ++ b2) (extend b2 t').
Proof.
  intros H. eapply wrote_trans; [done|apply extend_wrote, H|].
  intros. by rewrite extend_exceeded.
Qed.

Lemma extends_wrote frags t : thread_ok t -> wrote t (concat frags) (extends frags t).
Proof.
  intros Ht. unfold extends. change (concat frags) with ([] ++ concat frags).
  generalize (wrote_refl t Ht). generalize (@nil Z). generalize t at 2 4.
  induction frags as [|b frags IH]; intros t' b' Hw; simpl; [by rewrite app_nil_r|].
  rewrite (assoc_L (++)). by apply IH, wrote_extend.
Qed.

(** Chains of [extend] from the outermost call inwards. *)
Ltac wrote_chain :=
  repeat lazymatch goal with
  | |- wrote _ _ (extend _ _) => eapply wrote_extend
  | H : wrote ?t ?b ?t' |- wrote ?t _ ?t' => exact H
  end.

(** A writer that was meant to write [b] after [b0]. *)
Definition writes (t : Thread) (b : bytes) (r : outcome Thread) : Prop :=
  exists t', r = Returned t' /\ wrote t b t'.

Lemma format_usize_new n :
  0 <= n <= usize_max -> exists s, Itoa.format_usize n Itoa.new = Returned (fmt_u n, s).
Proof.
  intros Hn. destruct (Itoa.format_usize_ok n Itoa.new) as (s & -> & _); eauto.
Qed.

Lemma write_bulk_raw_wrote data t b0 t0 :
  zlen data <= usize_max -> wrote t b0 t0 -> writes t (b0 ++ enc_bulk data) (write_bulk_raw data t0).
Proof.
  intros Hd Hw. unfold write_bulk_raw, enc_bulk.
  destruct (format_usize_new (zlen data)) as (s & ->); [pose proof (zlen_nonneg data); lia|].
  cbn [mbind outcome_bind]. eexists; split; [reflexivity|]. rewrite !(assoc_L (++)). wrote_chain.
Qed.

Lemma write_array_header_wrote n t b0 t0 :
  0 <= n <= usize_max -> wrote t b0 t0 -> writes t (b0 ++ enc_header n) (write_array_header n t0).
Proof.
  intros Hn Hw. unfold write_array_header, enc_header. destruct (Z.eqb_spec n 0) as [->|].
  - eexists; split; [reflexivity|]. change (bs "*" ++ fmt_u 0 ++ crlf) with EMPTY_ARRAY. wrote_chain.
  - destruct (format_usize_new n) as (s & ->); [done|].
    cbn [mbind outcome_bind]. eexists; split; [reflexivity|]. rewrite !(assoc_L (++)). wrote_chain.
Qed.

Lemma write_integer_wrote n t :
  thread_ok t -> i64_min <= n <= i64_max -> writes t (enc_integer n) (write_integer n t).
Proof.
  intros Ht Hn. apply wrote_refl in Ht as Hw.
  assert (writes t (enc_integer n)
    ('(text, _) ← Itoa.format_i64 n Itoa.new;
     Returned (extend crlf (extend text (extend (bs ":") t))))) as Hgen.
  { destruct (Itoa.format_i64_ok n Itoa.new) as (s & -> & _); [done|done|].
    cbn [mbind outcome_bind]. eexists; split; [reflexivity|].
    unfold enc_integer. rewrite !(assoc_L (++)). repeat apply wrote_extend. by apply extend_wrote. }
  unfold write_integer.
  destruct (decide (n = 0)) as [->|]; [by eexists; split; [done|apply extend_wrote]|].
  destruct (decide (n = 1)) as [->|]; [by eexists; split; [done|apply extend_wrote]|].
  destruct (decide (n = -1)) as [->|]; [by eexists; split; [done|apply extend_wrote]|].
  destruct (decide (n = -2)) as [->|]; [by eexists; split; [done|apply extend_wrote]|].
  destruct n as [|[| |]|[|[]|]]; done || exact Hgen.
Qed.

Lemma write_bulks_wrote items t b0 t0 :
  Forall (fun i => zlen i <= usize_max) items -> wrote t b0 t0 ->
  writes t (b0 ++ concat (enc_bulk <$> items)) (write_bulks items t0).
Proof.
  intros Hi. revert b0 t0. induction Hi as [|item items Hit _ IH]; intros b0 t0 Hw.
  - cbn. rewrite app_nil_r. by eexists.
  - rewrite fmap_cons, concat_cons. cbn [write_bulks].
    destruct (write_bulk_raw_wrote item t b0 t0 Hit Hw) as (t1 & -> & Hw1).
    cbn [mbind outcome_bind]. rewrite (assoc_L (++)). by apply IH.
Qed.

Lemma write_bulk_array_raw_wrote items t :
  zlen items <= usize_max -> Forall (fun i => zlen i <= usize_max) items -> thread_ok t ->
  writes t (enc_array items) (write_bulk_array_raw items t).
Proof.
  intros Hn Hi Ht. unfold write_bulk_array_raw, enc_array.
  destruct (write_array_header_wrote (zlen items) t [] t) as (t1 & -> & Hw);
    [split; [apply zlen_nonneg|done]|by apply wrote_refl|].
  cbn [mbind outcome_bind]. by apply write_bulks_wrote.
Qed.

(** The state a guard installs. *)
Lemma limit_output_ok limit t previous t1 :
  0 <= budget_used t <= budget_limit t -> budget_limit t <= usize_max ->
  limit_output_with_budget limit (zlen (out t)) t = (previous, t1) ->
  previous = current t /\ thread_ok t1 /\ out t1 = out t /\ others t1 = budget_used t /\
  budget_limit t1 = budget_limit t /\ out_limit (current t1) = limit /\
  (exceeded (current t1) = false ->
     is_Some (out_reservation (current t1)) /\ held_by t1 = zlen (out t)) /\
  (zlen (out t) <= limit -> budget_used t + zlen (out t) <= budget_limit t ->
     exceeded (current t1) = false).
Proof.
  intros Hu Hl. pose proof (zlen_nonneg (out t)) as Hz.
  unfold limit_output_with_budget, limit_output_inner, try_reserve, try_grow.
  destruct (Z.eqb_spec (zlen (out t)) 0) as [E0|].
  - intros [= <- <-]. unfold thread_ok, others, held_by; simpl. rewrite E0, orb_false_r.
    destruct (Z.gtb_spec 0 limit); split_and!; try done; try lia; eauto; lia.
  - destruct (grow_target _ _ _) as [next|] eqn:Hg.
    + apply grow_target_Some in Hg as (-> & ? & ?). intros [= <- <-].
      unfold thread_ok, others, held_by; simpl. rewrite orb_false_r.
      destruct (Z.gtb_spec (zlen (out t)) limit); split_and!; try done; try lia; eauto; lia.
    + intros [= <- <-]. unfold thread_ok, others, held_by; simpl. rewrite orb_true_r.
      assert (~ budget_used t + zlen (out t) <= budget_limit t).
      { intros ?. rewrite (proj2 (grow_target_Some _ _ _ (budget_used t + zlen (out t)))) in Hg;
          [done|]. lia. }
      split_and!; try done; lia.
Qed.

Lemma drop_guard_ok previous t :
  thread_ok t ->
  drop_guard previous t = mkThread previous (budget_limit t) (others t) (out t).
Proof.
  intros (Hu & Hl & Hh & _). unfold drop_guard, drop_reservation, release, others.
  unfold held_by in *. destruct (out_reservation (current t)) as [h|]; simpl in *.
  - rewrite Z.min_id. destruct (Z.eqb_spec h 0) as [->|]; simpl.
    + by rewrite Z.sub_0_r.
    + rewrite as_u64_small by (unfold usize_max, u64_mod in *; lia). done.
  - by rewrite Z.sub_0_r.
Qed.

(** Writing an array reply under a guard: the writers return (no panic); if the limit was not
    exceeded the buffer holds what it held before followed by the complete RESP encoding, within
    the output limit, and the budget is charged for exactly the bytes of the buffer; if it was
    exceeded only a prefix was written; a reply that fits is never refused; and dropping the guard
    restores the outer limit and returns every byte to the budget. *)
Theorem guarded_reply (t : Thread) (limit : Z) (items : list bytes) :
  0 <= budget_used t <= budget_limit t -> budget_limit t <= usize_max -> limit <= usize_max ->
  zlen items <= usize_max -> Forall (fun i => zlen i <= usize_max) items ->
  let '(previous, t1) := limit_output_with_budget limit (zlen (out t)) t in
  let full := out t ++ enc_array items in
  exists t2, write_bulk_array_raw items t1 = Returned t2 /\
    (exceeded (current t2) = false ->
       out t2 = full /\ zlen full <= limit /\ budget_used t2 = budget_used t + zlen full) /\
    out t2 `prefix_of` full /\
    (zlen full <= limit -> budget_used t + zlen full <= budget_limit t ->
       exceeded (current t2) = false) /\
    drop_guard previous t2 = mkThread (current t) (budget_limit t) (budget_used t) (out t2).
Proof.
  intros Hu Hl Hlim Hn Hi.
  destruct (limit_output_with_budget _ _ _) as [previous t1] eqn:E.
  apply limit_output_ok in E as (-> & Ht1 & E1 & Ho1 & Hb1 & Hl1 & Hx1 & Hfit); [|done|done].
  destruct (write_bulk_array_raw_wrote items t1 Hn Hi Ht1) as (t2 & -> & Hw).
  pose proof (zlen_nonneg (enc_array items)).
  exists t2. destruct Hw as [Ht2 Hl2 Hb2 Ho2 Hr2 Ha2 (b' & Hp & E2) Hf2].
  split_and!; [done| | | |].
  - intros Hx. destruct (Ha2 Hx) as (Hx1' & E2' & Hh). destruct (Hx1 Hx1') as [Hs Hheld].
    rewrite E2', E1. destruct Ht2 as (_ & _ & _ & Hlen2). specialize (Hlen2 Hx).
    rewrite E2', E1, Hl2, Hl1 in Hlen2. specialize (Hh Hs). unfold others in *.
    split_and!; [done|done|]. rewrite zlen_app. lia.
  - rewrite E2, E1. by apply prefix_app.
  - rewrite zlen_app. intros Hfl Hfb.
    assert (exceeded (current t1) = false) as Hx by (apply Hfit; lia).
    apply Hf2. destruct (Hx1 Hx) as [Hs Hheld]. unfold fits, others in *. rewrite E1, Hl1, Hb1.
    split_and!; try done; lia.
  - rewrite drop_guard_ok by done. f_equal; congruence.
Qed.

Lemma guarded_reply_witness :
  let t := mkThread unlimited 100 7 (bs "+OK") in
  exists t2, write_bulk_array_raw [bs "ab"] (limit_output_with_budget 50 3 t).2 = Returned t2 /\
    exceeded (current t2) = false /\
    drop_guard unlimited t2 = mkThread unlimited 100 7 (out t2).
Proof.
  assert (Forall (fun i => zlen i <= usize_max) [bs "ab"]) as Hi.
  { repeat constructor. vm_compute. discriminate. }
  destruct (guarded_reply (mkThread unlimited 100 7 (bs "+OK")) 50 [bs "ab"])
    as (t2 & E & _ & _ & Hfit & Hd);
    [split; simpl; discriminate|vm_compute; discriminate|vm_compute; discriminate
    |vm_compute; discriminate|exact Hi|].
  exists t2. split; [exact E|]. split; [|exact Hd].
  apply Hfit; vm_compute; discriminate.
Defined.

End Out.
