(* ===== verification/RespParse.v ===== *)
(** * RESP requests ([src/src/resp.rs], lines 266-478, and the request loop of [src/src/lib.rs])

    [Args] is the small-vector holder of a command's arguments. [Parse] is the incremental parser
    over the connection's read buffer: a cursor into the buffer, moved forward by every successful
    read and restored when a command is incomplete. [Parse.drain] is the loop of
    [handle_connection] that takes every complete command of the pending bytes. *)

From S2P Require Import Prelude.
From S2P Require Import RespWrite.
Local Open Scope Z_scope.

Module Args.

Definition INLINE_ARG_COUNT : nat := 8.

(** [heap_allocated] is [heap.capacity() > 0]. *)
Record CommandArgs := mkArgs {
  inline : list bytes;
  len : nat;
  heap : list bytes;
  heap_allocated : bool
}.

Definition new (capacity : Z) : CommandArgs :=
  mkArgs (replicate INLINE_ARG_COUNT []) 0 [] (capacity >? Z.of_nat INLINE_ARG_COUNT).

Definition push (arg : bytes) (self : CommandArgs) : CommandArgs :=
  if negb (bool_decide (heap self = [])) || heap_allocated self
  then mkArgs (inline self) (len self) (heap self ++ [arg]) (heap_allocated self)
  else if bool_decide (len self < INLINE_ARG_COUNT)%nat
  then mkArgs (<[len self := arg]> (inline self)) (S (len self)) (heap self) (heap_allocated self)
  else mkArgs (inline self) (len self) (take (len self) (inline self) ++ [arg]) true.

Definition as_slice (self : CommandArgs) : list bytes :=
  if bool_decide (heap self = []) then take (len self) (inline self) else heap self.

Definition is_empty (self : CommandArgs) : bool := bool_decide (as_slice self = []).

Definition into_vec (self : CommandArgs) : list bytes :=
  if bool_decide (heap self = []) then take (len self) (inline self) else heap self.

(** The arguments pushed so far are [l]. *)
Definition holds (self : CommandArgs) (l : list bytes) : Prop :=
  length (inline self) = INLINE_ARG_COUNT /\
  if heap_allocated self
  then heap self = l /\ (l = [] -> len self = 0%nat)
  else heap self = [] /\ (len self <= INLINE_ARG_COUNT)%nat /\ take (len self) (inline self) = l.

Lemma holds_new capacity : holds (new capacity) [].
Proof.
  unfold holds, new; simpl. split; [done|]. destruct (_ >? _); [done|].
  split_and!; [done|lia|done].
Qed.

Lemma holds_push self l arg : holds self l -> holds (push arg self) (l ++ [arg]).
Proof.
  intros [Hi Hl]. unfold push, holds in *. destruct (heap_allocated self) eqn:Ha.
  - destruct Hl as [-> _]. rewrite orb_true_r. cbn.
    split_and!; [done|done|]. by intros [_ ?]%app_eq_nil.
  - destruct Hl as (Hh & Hlen & <-). rewrite Hh. rewrite bool_decide_eq_true_2 by done. cbn.
    destruct (decide (len self < INLINE_ARG_COUNT)%nat) as [Hlt|Hge].
    + rewrite bool_decide_eq_true_2 by done. cbn. rewrite length_insert.
      split_and!; [done|done|lia|].
      rewrite (take_S_r _ _ arg) by (apply list_lookup_insert_eq; lia).
      by rewrite take_insert_ge by lia.
    + rewrite bool_decide_eq_false_2 by done. cbn.
      split_and!; [done|done|]. by intros [_ ?]%app_eq_nil.
Qed.

Lemma holds_as_slice self l : holds self l -> as_slice self = l.
Proof.
  intros [Hi Hl]. unfold as_slice. destruct (heap_allocated self).
  - destruct Hl as [-> Hn]. case_bool_decide as E; [|done]. by rewrite E, Hn.
  - destruct Hl as (-> & _ & <-). by rewrite bool_decide_eq_true_2.
Qed.

Lemma holds_into_vec self l : holds self l -> into_vec self = l.
Proof. apply holds_as_slice. Qed.

Lemma holds_foldl self l items :
  holds self l -> holds (foldl (fun a i => push i a) self items) (l ++ items).
Proof.
  revert self l. induction items as [|i items IH]; intros self l H; simpl; [by rewrite app_nil_r|].
  replace (l ++ i :: items) with ((l ++ [i]) ++ items) by (by rewrite <-(assoc_L (++))).
  by apply IH, holds_push.
Qed.

(** The argument holder is a list: whatever capacity it is created with, and however many
    arguments are pushed (below, at and above the eight inline slots), reading it back gives
    exactly the pushed arguments in order. *)
Theorem args_roundtrip (capacity : Z) (items : list bytes) :
  let a := foldl (fun a i => push i a) (new capacity) items in
  as_slice a = items /\ into_vec a = items /\ is_empty a = bool_decide (items = []).
Proof.
  intros a. assert (holds a items) as H by (apply (holds_foldl _ []), holds_new).
  unfold is_empty. by rewrite (holds_into_vec _ _ H), (holds_as_slice _ _ H).
Qed.

End Args.

Module Parse.
Import Args.

Record Parser := mkParser { buf : bytes; pos : nat; max_bulk_len : Z; max_array_len : Z }.

Definition set_pos (p : nat) (self : Parser) : Parser :=
  mkParser (buf self) p (max_bulk_len self) (max_array_len self).

Definition with_limits (b : bytes) (max_bulk max_array : Z) : Parser := mkParser b 0 max_bulk max_array.
Definition with_max_bulk_len (b : bytes) (max_bulk : Z) : Parser := with_limits b max_bulk 16384.
Definition new (b : bytes) : Parser := with_max_bulk_len b (64 * 1024 * 1024).

(** The accumulation loop of [parse_i64_bytes]. *)
Fixpoint acc_digits (digits : bytes) (value : Z) : option Z :=
  match digits with
  | [] => Some value
  | byte :: digits =>
      if is_ascii_digit byte then
        v ← i64_checked (value * 10);
        v ← i64_checked (v + (byte - 48));
        acc_digits digits v
      else None
  end.

Definition parse_i64_bytes (line : bytes) : option Z :=
  match line with
  | [] => None
  | first :: tail =>
      let '(negative, digits) :=
        if first =? 45 then (true, tail) else if first =? 43 then (false, tail) else (false, line) in
      match digits with
      | [] => None
      | _ => v ← acc_digits digits 0; if negative then i64_checked (- v) else Some v
      end
  end.

(** The search of [read_line_int]: the position of the first CR that an LF follows. *)
Fixpoint scan_crlf (fuel p : nat) (b : bytes) : option nat :=
  match fuel with
  | O => None
  | S fuel =>
      if bool_decide (b !! p = Some 13) && bool_decide (b !! S p = Some 10) then Some p
      else scan_crlf fuel (S p) b
  end.

Definition read_line_int (self : Parser) : option Z * Parser :=
  match scan_crlf (length (buf self) - pos self) (pos self) (buf self) with
  | Some p => (parse_i64_bytes (slice (buf self) (pos self) p), set_pos (p + 2) self)
  | None => (None, self)
  end.

Definition parse_bulk_string (self : Parser) : result (option bytes) * Parser :=
  match buf self !! pos self with
  | None => (Ok None, self)
  | Some c =>
      if negb (c =? 36) then (Err "ERR expected bulk string", self)
      else
        match read_line_int (set_pos (S (pos self)) self) with
        | (None, self) => (Ok None, self)
        | (Some len, self) =>
            if len <? 0 then (Ok (Some []), self)
            else if len >? max_bulk_len self
            then (Err "ERR RESP bulk length exceeds maximum", self)
            else match (p ← usize_checked (Z.of_nat (pos self) + len); usize_checked (p + 2)) with
                 | None => (Err "ERR RESP bulk length exceeds maximum", self)
                 | Some stop =>
                     if stop >? zlen (buf self) then (Ok None, self)
                     else
                       let e := (pos self + Z.to_nat len)%nat in
                       if negb (bytes_eqb (slice (buf self) e (Z.to_nat stop)) Out.crlf)
                       then (Err "ERR invalid bulk string terminator", self)
                       else (Ok (Some (slice (buf self) (pos self) e)),
                             set_pos (Z.to_nat stop) self)
                 end
        end
  end.

(** [for _ in 0..count] of [parse_multibulk_args]. *)
Fixpoint parse_bulks (count : nat) (saved : nat) (args : CommandArgs) (self : Parser)
    : result (option CommandArgs) * Parser :=
  match count with
  | O => (Ok (Some args), self)
  | S count =>
      match parse_bulk_string self with
      | (Err e, self) => (Err e, self)
      | (Ok (Some s), self) => parse_bulks count saved (push s args) self
      | (Ok None, self) => (Ok None, set_pos saved self)
      end
  end.

Definition parse_multibulk_args (self : Parser) : result (option CommandArgs) * Parser :=
  let saved := pos self in
  match read_line_int (set_pos (S saved) self) with
  | (None, self) => (Ok None, set_pos saved self)
  | (Some count, self) =>
      if count <? 0 then (Ok None, self)
      else if count >? max_array_len self then (Err "ERR RESP array count exceeds maximum", self)
      else parse_bulks (Z.to_nat count) saved (Args.new count) self
  end.

(** [line.split(|&b| b == b' ')] *)
Fixpoint split_spaces (l : bytes) : list bytes :=
  match l with
  | [] => [[]]
  | b :: l =>
      if b =? 32 then [] :: split_spaces l
      else match split_spaces l with
           | [] => [[b]]
           | part :: parts => (b :: part) :: parts
           end
  end.

(** The loop over the parts of an inline command. *)
Fixpoint push_parts (max_array : Z) (parts : list bytes) (count : Z) (args : CommandArgs)
    : result (option CommandArgs) :=
  match parts with
  | [] => Ok (Some args)
  | part :: parts =>
      if bool_decide (part = []) then push_parts max_array parts count args
      else if count >=? max_array then Err "ERR RESP argument count exceeds maximum"
      else push_parts max_array parts (count + 1) (push part args)
  end.

(** The position of the first LF. *)
Fixpoint scan_lf (fuel p : nat) (b : bytes) : option nat :=
  match fuel with
  | O => None
  | S fuel => if bool_decide (b !! p = Some 10) then Some p else scan_lf fuel (S p) b
  end.

Definition parse_inline_args (self : Parser) : result (option CommandArgs) * Parser :=
  let start := pos self in
  match scan_lf (length (buf self) - start) start (buf self) with
  | Some p =>
      let stop := if bool_decide (start < p)%nat && bool_decide (buf self !! (p - 1)%nat = Some 13)
                  then (p - 1)%nat else p in
      let line := slice (buf self) start stop in
      (push_parts (max_array_len self) (split_spaces line) 0 (Args.new 0), set_pos (S p) self)
  | None => (Ok None, self)
  end.

Definition parse_command_args (self : Parser) : result (option CommandArgs) * Parser :=
  match buf self !! pos self with
  | None => (Ok None, self)
  | Some c => if c =? 42 then parse_multibulk_args self else parse_inline_args self
  end.

Definition parse_command (self : Parser) : result (option (list bytes)) * Parser :=
  let '(r, self) := parse_command_args self in (option_map into_vec <$> r, self).

(** ** The request loop of a connection *)

(** What the loop over the pending bytes ends with. *)
Inductive drained :=
| Commands (commands : list (list bytes)) (consumed : nat)
| ReplyError (e : string)                 (* the error is written and the connection closed *)
| OutOfFuel.

Fixpoint drain_loop (fuel : nat) (max_pipeline : Z) (commands : list (list bytes)) (parser : Parser)
    : drained :=
  match fuel with
  | O => OutOfFuel
  | S fuel =>
      match parse_command_args parser with
      | (Ok (Some args), parser) =>
          if is_empty args then drain_loop fuel max_pipeline commands parser
          else if zlen commands >=? max_pipeline
          then ReplyError "ERR RESP pipeline command limit exceeded"
          else drain_loop fuel max_pipeline (commands ++ [as_slice args]) parser
      | (Ok None, parser) => Commands commands (pos parser)
      | (Err e, _) => ReplyError e
      end
  end.

(** Every command consumes at least a byte, so one turn per byte and a last one are enough. *)
Definition drain (max_request max_array max_pipeline : Z) (pending : bytes) : drained :=
  if zlen pending >? max_request then ReplyError "ERR RESP request exceeds maximum"
  else drain_loop (S (length pending)) max_pipeline [] (with_limits pending max_request max_array).

(** A command within the limits. *)
Definition command_ok (max_bulk max_array : Z) (items : list bytes) : Prop :=
  zlen items <= max_array /\ Forall (fun i => zlen i <= max_bulk) items.

Definition no_crlf (l : bytes) : Prop := forall i, l !! i = Some 13 -> l !! S i ≠ Some 10.

(** ** Lemmas: integers and lines *)

Lemma parse_digits_le l v r : 0 <= v -> parse_digits l v = Some r -> v <= r.
Proof.
  revert v. induction l as [|b l IH]; intros v Hv; cbn; [intros [= ->]; lia|].
  destruct (is_ascii_digit b) eqn:Hd; [|done]. unfold is_ascii_digit in Hd. zbool.
  intros H%IH; lia.
Qed.

Lemma acc_digits_parse l v r :
  0 <= v -> parse_digits l v = Some r -> r <= i64_max -> acc_digits l v = Some r.
Proof.
  revert v. induction l as [|b l IH]; intros v Hv; cbn; [done|].
  destruct (is_ascii_digit b) eqn:Hd; [|done]. unfold is_ascii_digit in Hd. zbool.
  intros H Hr. pose proof (parse_digits_le l (v * 10 + (b - 48)) r ltac:(lia) H).
  rewrite i64_checked_Some by (unfold i64_min in *; lia). cbn.
  rewrite i64_checked_Some by (unfold i64_min in *; lia). cbn.
  apply IH; [lia|done|done].
Qed.

Lemma parse_i64_bytes_fmt_u n : 0 <= n <= i64_max -> parse_i64_bytes (fmt_u n) = Some n.
Proof.
  intros Hn. pose proof (parse_digits_fmt_u n ltac:(lia)) as Hp.
  destruct (fmt_u_cons n) as (b & r & E & Hd); [lia|]. rewrite E in *.
  pose proof (acc_digits_parse (b :: r) 0 n ltac:(lia) Hp ltac:(lia)) as Ha.
  unfold is_ascii_digit in Hd. zbool. cbn [parse_i64_bytes].
  destruct (Z.eqb_spec b 45); [lia|]. destruct (Z.eqb_spec b 43); [lia|]. by rewrite Ha.
Qed.

Lemma fmt_u_no_cr n : (13 : Z) ∉ fmt_u n.
Proof.
  intros Hin. pose proof (fmt_u_digits n) as Hd.
  rewrite Forall_forall in Hd. by specialize (Hd 13 Hin).
Qed.

Lemma drop_shift {A} (l : list A) p a r : drop p l = a ++ r -> drop (p + length a) l = r.
Proof. intros E. by rewrite <-drop_drop, E, drop_app_length. Qed.

Lemma scan_crlf_found line rest fuel p b :
  drop p b = line ++ 13 :: 10 :: rest -> (13 : Z) ∉ line -> (length line < fuel)%nat ->
  scan_crlf fuel p b = Some (p + length line)%nat.
Proof.
  revert fuel p. induction line as [|x line IH]; intros [|fuel] p E Hn Hf; simpl in *; try lia.
  - pose proof (lookup_drop b p 0) as E0. pose proof (lookup_drop b p 1) as E1.
    rewrite E in E0, E1. cbn in E0, E1. rewrite Nat.add_0_r, Nat.add_1_r in *.
    rewrite <-E0, <-E1, !bool_decide_eq_true_2 by done. done.
  - apply not_elem_of_cons in Hn as [Hx Hn].
    pose proof (lookup_drop b p 0) as E0. rewrite E in E0. cbn in E0. rewrite Nat.add_0_r in E0.
    rewrite <-E0, bool_decide_eq_false_2 by congruence. cbn [andb].
    rewrite IH; [f_equal; lia| |done|lia].
    apply (drop_shift b p [x]) in E. by rewrite Nat.add_1_r in E.
Qed.

Lemma scan_crlf_none fuel p b : no_crlf (drop p b) -> scan_crlf fuel p b = None.
Proof.
  revert p. induction fuel as [|fuel IH]; intros p Hn; [done|]. simpl.
  destruct (decide (b !! p = Some 13)) as [E13|]; cycle 1.
  - rewrite bool_decide_eq_false_2 by done. cbn [andb]. apply IH. intros i.
    rewrite !lookup_drop. specialize (Hn (S i)). rewrite !lookup_drop in Hn.
    by replace (S p + i)%nat with (p + S i)%nat by lia;
       replace (S p + S i)%nat with (p + S (S i))%nat by lia.
  - specialize (Hn 0%nat) as H0. rewrite !lookup_drop, Nat.add_0_r, Nat.add_1_r in H0.
    rewrite (bool_decide_eq_false_2 (b !! S p = _)) by auto. rewrite andb_false_r.
    apply IH. intros i. specialize (Hn (S i)). rewrite !lookup_drop in *.
    by replace (S p + i)%nat with (p + S i)%nat by lia;
       replace (S p + S i)%nat with (p + S (S i))%nat by lia.
Qed.

Lemma slice_drop {A} (l : list A) p a r : drop p l = a ++ r -> slice l p (p + length a) = a.
Proof.
  intros E. unfold slice. rewrite E. replace (p + length a - p)%nat with (length a) by lia.
  apply take_app_length.
Qed.

Lemma drop_length_le {A} (l : list A) p a r :
  drop p l = a ++ r -> a ++ r ≠ [] -> (p + length a + length r = length l)%nat.
Proof.
  intros E Hne. pose proof (length_drop l p) as HL. rewrite E, length_app in HL.
  assert (length (a ++ r) ≠ 0%nat) as H0 by (by intros ?%nil_length_inv). rewrite length_app in H0. lia.
Qed.

Lemma read_line_int_found self line rest :
  drop (pos self) (buf self) = line ++ Out.crlf ++ rest -> (13 : Z) ∉ line ->
  read_line_int self = (parse_i64_bytes line, set_pos (pos self + length (line ++ Out.crlf)) self).
Proof.
  intros E Hn. unfold read_line_int. pose proof E as E'. apply drop_length_le in E'; cycle 1.
  { by intros [_ ?]%app_eq_nil. }
  rewrite length_app in E'. simpl in E'.
  rewrite (scan_crlf_found line rest) by (done || lia).
  rewrite (slice_drop _ _ _ _ E), length_app. simpl. f_equal. f_equal. lia.
Qed.

Lemma read_line_int_none self :
  no_crlf (drop (pos self) (buf self)) -> read_line_int self = (None, self).
Proof. intros Hn. unfold read_line_int. by rewrite scan_crlf_none. Qed.

(** A length line that is not complete has no CRLF yet. *)
Lemma incomplete_line line q :
  (13 : Z) ∉ line -> incomplete q (line ++ Out.crlf) -> no_crlf q.
Proof.
  intros Hn (s & Hs & E) i H13 H10.
  assert (forall j x, q !! j = Some x -> (line ++ Out.crlf) !! j = Some x) as Hl.
  { intros j x Hj. rewrite E. by apply lookup_app_l_Some. }
  apply lookup_lt_Some in H10 as Hlen. apply Hl in H13, H10.
  assert (length q < length line + 2)%nat as Hq.
  { apply (f_equal length) in E. rewrite !length_app in E. simpl in E.
    destruct s; [done|simpl in E; lia]. }
  apply lookup_app_Some in H13 as [H13|[Hge H13]].
  - apply Hn. by eapply list_elem_of_lookup_2.
  - apply lookup_lt_Some in H13. simpl in H13. assert (i = length line) as -> by lia. lia.
Qed.

(** ** Lemmas: encoded commands *)

(** Buffers are at most [isize::MAX] bytes long, and the limits are below [i64::MAX]. *)
Definition limits_ok (self : Parser) : Prop :=
  max_bulk_len self < i64_max /\ max_array_len self <= i64_max /\ zlen (buf self) <= i64_max.

Lemma drop_cons_lookup {A} (l : list A) p x r : drop p l = x :: r -> l !! p = Some x.
Proof.
  intros E. pose proof (lookup_drop l p 0) as H. rewrite E, Nat.add_0_r in H. done.
Qed.

Lemma drop_nil_lookup {A} (l : list A) p : drop p l = [] -> l !! p = None.
Proof.
  intros E. pose proof (lookup_drop l p 0) as H. rewrite E, Nat.add_0_r in H. done.
Qed.

Lemma set_pos_set_pos p q self : set_pos p (set_pos q self) = set_pos p self.
Proof. done. Qed.

(** The header of a bulk string whose length line is complete. *)
Lemma bulk_header self (data rest : bytes) :
  limits_ok self -> zlen data <= max_bulk_len self ->
  drop (pos self) (buf self) = bs "$" ++ fmt_u (zlen data) ++ Out.crlf ++ rest ->
  let p := (pos self + length (bs "$" ++ fmt_u (zlen data) ++ Out.crlf))%nat in
  read_line_int (set_pos (S (pos self)) self) = (Some (zlen data), set_pos p self) /\
  drop p (buf self) = rest /\ (p <= length (buf self))%nat.
Proof.
  intros (Hb & _ & _) Hd E. pose proof (zlen_nonneg data).
  pose proof (drop_length_le _ _ _ _ E ltac:(done)) as HL.
  pose proof (drop_shift _ _ _ _ E) as E1. simpl length in E1. rewrite Nat.add_1_r in E1.
  split; [|split].
  - rewrite (read_line_int_found _ (fmt_u (zlen data)) rest) by (done || apply fmt_u_no_cr).
    rewrite parse_i64_bytes_fmt_u by lia. rewrite set_pos_set_pos.
    do 2 f_equal. rewrite !length_app. simpl. lia.
  - rewrite (assoc_L (++)), (assoc_L (++)) in E. apply drop_shift in E.
    by rewrite <-(assoc_L (++)) in E.
  - rewrite !length_app in *. simpl in *. lia.
Qed.

Lemma parse_bulk_string_encoded self (data rest : bytes) :
  limits_ok self -> zlen data <= max_bulk_len self ->
  drop (pos self) (buf self) = Out.enc_bulk data ++ rest ->
  parse_bulk_string self =
    (Ok (Some data), set_pos (pos self + length (Out.enc_bulk data)) self).
Proof.
  intros Hl Hd E. unfold Out.enc_bulk in E. rewrite <-!(assoc_L (++)) in E.
  destruct (bulk_header self data (data ++ Out.crlf ++ rest) Hl Hd E) as (Hr & E2 & Hp).
  unfold parse_bulk_string. rewrite (drop_cons_lookup _ _ _ _ E). cbn [negb Z.eqb Pos.eqb].
  rewrite Hr. set (p := (pos self + _)%nat) in *. cbn [pos max_bulk_len buf set_pos].
  pose proof (zlen_nonneg data). destruct Hl as (Hb & _ & HL). unfold zlen in HL.
  destruct (Z.ltb_spec (zlen data) 0); [lia|].
  destruct (Z.gtb_spec (zlen data) (max_bulk_len self)); [lia|].
  unfold i64_max, usize_max in *.
  rewrite usize_checked_Some by (unfold usize_max; lia). cbn [mbind option_bind].
  rewrite usize_checked_Some by (unfold usize_max; lia).
  pose proof (drop_length_le _ _ _ _ E2) as HL2.
  rewrite !length_app in HL2. simpl length in HL2.
  specialize (HL2 ltac:(intros [_ ?]%app_eq_nil; done)).
  destruct (Z.gtb_spec (Z.of_nat p + zlen data + 2) (zlen (buf self))); [unfold zlen in *; lia|].
  replace (Z.to_nat (zlen data)) with (length data) by (unfold zlen; lia).
  replace (Z.to_nat (Z.of_nat p + zlen data + 2)) with (p + length data + length Out.crlf)%nat
    by (unfold zlen; simpl; lia).
  rewrite (slice_drop _ _ _ _ (drop_shift _ _ _ _ E2)), bytes_eqb_refl. cbn [negb].
  rewrite (slice_drop _ _ _ _ E2). f_equal. rewrite set_pos_set_pos. f_equal.
  unfold p, Out.enc_bulk. rewrite !length_app. simpl. lia.
Qed.

Lemma parse_bulk_string_incomplete self (data : bytes) :
  limits_ok self -> zlen data <= max_bulk_len self ->
  incomplete (drop (pos self) (buf self)) (Out.enc_bulk data) ->
  exists self', parse_bulk_string self = (Ok None, self') /\ exists p, self' = set_pos p self.
Proof.
  intros Hl Hd Hi. unfold parse_bulk_string.
  destruct (drop (pos self) (buf self)) as [|c q] eqn:E.
  { rewrite (drop_nil_lookup _ _ E). eexists; split; [done|]. exists (pos self). by destruct self. }
  rewrite (drop_cons_lookup _ _ _ _ E).
  assert (c = 36 /\ incomplete q ((fmt_u (zlen data) ++ Out.crlf) ++ data ++ Out.crlf)) as [-> Hq].
  { destruct Hi as (s & Hs & Ei). unfold Out.enc_bulk in Ei.
    change (bs "$") with [36] in Ei. injection Ei as <- Ei.
    split; [done|]. exists s. split; [done|]. by rewrite <-(assoc_L (++)). }
  cbn [negb Z.eqb Pos.eqb]. assert (drop (S (pos self)) (buf self) = q) as E1.
  { apply (drop_shift _ _ [36]) in E. by rewrite Nat.add_1_r in E. }
  apply incomplete_app in Hq as [Hq|(q' & -> & Hq')].
  - rewrite read_line_int_none; [by eauto|]. cbn [pos buf set_pos]. rewrite E1.
    eapply incomplete_line; [apply fmt_u_no_cr|done].
  - destruct (bulk_header self data q' Hl Hd) as (-> & E2 & Hp).
    { rewrite E. by rewrite <-(assoc_L (++)). }
    set (p := (pos self + _)%nat) in *. cbn [pos max_bulk_len buf set_pos].
    pose proof (zlen_nonneg data). destruct Hl as (Hb & _ & HL). unfold zlen in HL.
    destruct (Z.ltb_spec (zlen data) 0); [lia|].
    destruct (Z.gtb_spec (zlen data) (max_bulk_len self)); [lia|].
    unfold i64_max, usize_max in *.
    rewrite usize_checked_Some by (unfold usize_max; lia). cbn [mbind option_bind].
    rewrite usize_checked_Some by (unfold usize_max; lia).
    destruct Hq' as (s & Hs & Eq). apply (f_equal length) in Eq.
    rewrite !length_app in Eq. simpl in Eq. rewrite <-E2, length_drop in Eq.
    assert (length s ≠ 0%nat) by (by intros ?%nil_length_inv).
    destruct (Z.gtb_spec (Z.of_nat p + zlen data + 2) (zlen (buf self)));
      [by eauto|unfold zlen in *; lia].
Qed.

Lemma parse_bulks_encoded items self args l saved rest :
  limits_ok self -> Forall (fun i => zlen i <= max_bulk_len self) items -> holds args l ->
  drop (pos self) (buf self) = concat (Out.enc_bulk <$> items) ++ rest ->
  exists args', holds args' (l ++ items) /\
    parse_bulks (length items) saved args self =
      (Ok (Some args'), set_pos (pos self + length (concat (Out.enc_bulk <$> items))) self).
Proof.
  intros Hl Hi. revert self args l Hl Hi.
  induction items as [|i items IH]; intros self args l Hl Hi Hh E.
  - exists args. rewrite app_nil_r. split; [done|]. cbn. rewrite Nat.add_0_r. by destruct self.
  - apply Forall_cons in Hi as [Hi His].
    rewrite fmap_cons, concat_cons in *. rewrite <-(assoc_L (++)) in E.
    cbn [length parse_bulks]. rewrite (parse_bulk_string_encoded _ _ _ Hl Hi E).
    apply drop_shift in E.
    destruct (IH (set_pos (pos self + length (Out.enc_bulk i)) self) (push i args) (l ++ [i]))
      as (args' & Hh' & ->); [done|done|by apply holds_push|done|].
    exists args'. split; [by rewrite <-(assoc_L (++)) in Hh'|].
    rewrite set_pos_set_pos, length_app. cbn [pos set_pos]. do 2 f_equal. lia.
Qed.

Lemma parse_bulks_incomplete items self args saved :
  limits_ok self -> Forall (fun i => zlen i <= max_bulk_len self) items ->
  incomplete (drop (pos self) (buf self)) (concat (Out.enc_bulk <$> items)) ->
  parse_bulks (length items) saved args self = (Ok None, set_pos saved self).
Proof.
  revert self args. induction items as [|i items IH]; intros self args Hl Hi Hq.
  - destruct Hq as (s & Hs & Eq). symmetry in Eq. by apply app_eq_nil in Eq as [_ ?].
  - apply Forall_cons in Hi as [Hi His]. rewrite fmap_cons, concat_cons in Hq.
    cbn [length parse_bulks]. apply incomplete_app in Hq as [Hq|(q & Eq & Hq)].
    + destruct (parse_bulk_string_incomplete _ _ Hl Hi Hq) as (self' & -> & p & ->). done.
    + rewrite (parse_bulk_string_encoded _ _ _ Hl Hi Eq). apply drop_shift in Eq.
      rewrite IH; [done|done|done|]. cbn [pos buf set_pos]. by rewrite Eq.
Qed.

(** The header of a command whose count line is complete. *)
Lemma array_header self n rest :
  limits_ok self -> 0 <= n <= max_array_len self ->
  drop (pos self) (buf self) = Out.enc_header n ++ rest ->
  parse_command_args self =
    parse_bulks (Z.to_nat n) (pos self) (Args.new n)
      (set_pos (pos self + length (Out.enc_header n)) self) /\
  drop (pos self + length (Out.enc_header n)) (buf self) = rest.
Proof.
  intros (Hb & Ha & _) Hn E. split; [|by apply drop_shift].
  unfold parse_command_args. unfold Out.enc_header in E. rewrite <-!(assoc_L (++)) in E.
  rewrite (drop_cons_lookup _ _ 42 _ E). cbn [Z.eqb Pos.eqb]. unfold parse_multibulk_args.
  apply drop_shift in E. simpl length in E. rewrite Nat.add_1_r in E.
  rewrite (read_line_int_found _ (fmt_u n) rest) by (done || apply fmt_u_no_cr).
  rewrite parse_i64_bytes_fmt_u by lia. cbn [max_array_len set_pos].
  destruct (Z.ltb_spec n 0); [lia|]. destruct (Z.gtb_spec n (max_array_len self)); [lia|].
  f_equal. unfold set_pos; cbn [buf pos max_bulk_len max_array_len]. f_equal.
  unfold Out.enc_header. rewrite !length_app. simpl. lia.
Qed.

Lemma parse_encoded self items rest :
  limits_ok self -> command_ok (max_bulk_len self) (max_array_len self) items ->
  drop (pos self) (buf self) = Out.enc_array items ++ rest ->
  exists args, holds args items /\
    parse_command_args self =
      (Ok (Some args), set_pos (pos self + length (Out.enc_array items)) self).
Proof.
  intros Hl [Hn Hi] E. unfold Out.enc_array in *. rewrite <-(assoc_L (++)) in E.
  destruct (array_header self (zlen items) (concat (Out.enc_bulk <$> items) ++ rest))
    as [-> E2]; [done|split; [apply zlen_nonneg|done]|done|].
  unfold zlen at 1. rewrite Nat2Z.id.
  destruct (parse_bulks_encoded items
    (set_pos (pos self + length (Out.enc_header (zlen items))) self) (Args.new (zlen items)) []
    (pos self) rest) as (args & Hh & ->); [done|done|apply holds_new|done|].
  exists args. split; [done|]. rewrite set_pos_set_pos, length_app. cbn [pos set_pos].
  do 2 f_equal. lia.
Qed.

Lemma parse_incomplete self items :
  limits_ok self -> command_ok (max_bulk_len self) (max_array_len self) items ->
  incomplete (drop (pos self) (buf self)) (Out.enc_array items) ->
  parse_command_args self = (Ok None, self).
Proof.
  intros Hl [Hn Hi] Hq. unfold Out.enc_array in Hq. apply incomplete_app in Hq as [Hq|(q & Eq & Hq)].
  - unfold parse_command_args. destruct (drop (pos self) (buf self)) as [|c q] eqn:E.
    { by rewrite (drop_nil_lookup _ _ E). }
    rewrite (drop_cons_lookup _ _ _ _ E). destruct Hq as (s & Hs & Eq).
    unfold Out.enc_header in Eq. change (bs "*") with [42] in Eq. injection Eq as <- Eq.
    cbn [Z.eqb Pos.eqb]. unfold parse_multibulk_args. rewrite read_line_int_none.
    { by destruct self. }
    apply (drop_shift _ _ [42]) in E. rewrite Nat.add_1_r in E. cbn [pos buf set_pos]. rewrite E.
    eapply incomplete_line; [apply fmt_u_no_cr|by exists s].
  - destruct (array_header self (zlen items) q) as [-> E2];
      [done|split; [apply zlen_nonneg|done]|done|].
    unfold zlen at 1. rewrite Nat2Z.id. rewrite parse_bulks_incomplete; [by destruct self|done|done|].
    cbn [pos buf set_pos]. by rewrite E2.
Qed.

(** ** Lemmas: bounds on arbitrary input *)

(** Only the cursor moves, forwards and within the buffer. *)
Definition advances (self self' : Parser) : Prop :=
  self' = set_pos (pos self') self /\ (pos self <= pos self' <= length (buf self))%nat.

Lemma advances_refl self : (pos self <= length (buf self))%nat -> advances self self.
Proof. intros. split; [by destruct self|lia]. Qed.

Lemma advances_trans a b c : advances a b -> advances b c -> advances a c.
Proof.
  destruct a as [ba pa xa ya], b as [bb pb xb yb], c as [bc pc xc yc]. unfold advances, set_pos.
  simpl. intros [[= -> -> ->] ?] [[= -> -> ->] ?]. split; [done|lia].
Qed.

Lemma scan_crlf_Some fuel p b q :
  scan_crlf fuel p b = Some q -> (p <= q)%nat /\ (q + 2 <= length b)%nat.
Proof.
  revert p. induction fuel as [|fuel IH]; intros p; simpl; [done|].
  destruct (_ && _) eqn:E; [|intros H%IH; lia]. intros [= ->].
  apply andb_true_iff in E as [_ E%bool_decide_eq_true%lookup_lt_Some]. lia.
Qed.

Lemma read_line_int_advances self o self' :
  (pos self <= length (buf self))%nat -> read_line_int self = (o, self') ->
  advances self self' /\ (is_Some o -> pos self + 2 <= pos self')%nat.
Proof.
  intros Hp. unfold read_line_int. destruct (scan_crlf _ _ _) as [q|] eqn:E; intros [= <- <-].
  - apply scan_crlf_Some in E. unfold advances; simpl. split_and!; try done; lia.
  - split; [by apply advances_refl|]. by intros [? ?].
Qed.

Lemma length_slice {A} (l : list A) s e :
  (e <= length l)%nat -> length (slice l s e) = (e - s)%nat.
Proof. intros. unfold slice. rewrite length_take, length_drop. lia. Qed.

Lemma parse_bulk_string_advances self r self' :
  (pos self <= length (buf self))%nat -> parse_bulk_string self = (r, self') ->
  advances self self' /\
  (forall s, r = Ok (Some s) -> pos self + length s < pos self')%nat.
Proof.
  intros Hp. unfold parse_bulk_string. destruct (buf self !! pos self) as [c|] eqn:Ec.
  2: { intros [= <- <-]. split; [by apply advances_refl|done]. }
  apply lookup_lt_Some in Ec.
  destruct (negb _); [intros [= <- <-]; split; [by apply advances_refl|done]|].
  destruct (read_line_int _) as [o s1] eqn:Er.
  apply read_line_int_advances in Er as [[Es1 Hs1] Ho]; [|simpl; lia].
  simpl in Hs1, Ho. rewrite set_pos_set_pos in Es1.
  assert (advances self s1) as Hadv by (split; [done|lia]).
  destruct o as [len|]; [|intros [= <- <-]; done].
  specialize (Ho ltac:(eauto)).
  destruct (Z.ltb_spec len 0).
  { intros [= <- <-]. split; [done|]. intros s [= <-]. simpl. lia. }
  destruct (_ >? _); [intros [= <- <-]; done|].
  destruct (usize_checked _) as [v|] eqn:Ev; cbn; [|intros [= <- <-]; done].
  apply usize_checked_inv in Ev as [-> _].
  destruct (usize_checked (_ + 2)) as [v|] eqn:Ev; [|intros [= <- <-]; done].
  apply usize_checked_inv in Ev as [-> _].
  destruct (Z.gtb_spec (Z.of_nat (pos s1) + len + 2) (zlen (buf s1))); [intros [= <- <-]; done|].
  destruct (negb _); [intros [= <- <-]; done|]. intros [= <- <-].
  assert (buf s1 = buf self) as Eb by (by rewrite Es1). rewrite Eb in *. unfold zlen in *.
  split.
  - split; simpl; [by rewrite Es1|lia].
  - intros s [= <-]. rewrite length_slice by lia. simpl. lia.
Qed.

Lemma parse_bulks_advances count saved args l self r self' :
  (saved <= pos self <= length (buf self))%nat -> holds args l ->
  parse_bulks count saved args self = (r, self') ->
  advances (set_pos saved self) self' /\
  (forall a, r = Ok (Some a) -> exists l', holds a (l ++ l') /\ length l' = count /\
     (pos self + length (concat l') <= pos self')%nat).
Proof.
  revert args l self. induction count as [|count IH]; intros args l self Hp Hh; simpl.
  - intros [= <- <-]. split; [split; simpl; [by destruct self|lia]|].
    intros a [= <-]. exists []. rewrite app_nil_r. simpl. split_and!; [done|done|lia].
  - destruct (parse_bulk_string self) as [r1 s1] eqn:E1.
    apply parse_bulk_string_advances in E1 as [[E1 H1] Hs]; [|lia].
    destruct r1 as [[s|]|e].
    + specialize (Hs s eq_refl). intros E2. eapply IH in E2 as [Ha Hr];
        [|rewrite E1; simpl; lia|by apply holds_push].
      rewrite E1, set_pos_set_pos in Ha. split; [done|]. intros a Ea.
      destruct (Hr a Ea) as (l' & Hl' & Hn & Hc). exists (s :: l').
      split_and!; [by rewrite <-(assoc_L (++)) in Hl'|simpl; lia|].
      simpl. rewrite length_app. lia.
    + intros [= <- <-]. split; [|done]. rewrite E1. split; simpl; [done|lia].
    + intros [= <- <-]. split; [|done]. rewrite E1. split; simpl; [done|lia].
Qed.

Lemma scan_lf_Some fuel p b q :
  scan_lf fuel p b = Some q -> (p <= q)%nat /\ (q < length b)%nat.
Proof.
  revert p. induction fuel as [|fuel IH]; intros p; simpl; [done|].
  destruct (bool_decide _) eqn:E; [|intros H%IH; lia]. intros [= ->].
  apply bool_decide_eq_true, lookup_lt_Some in E. lia.
Qed.

Lemma split_spaces_length l : (length (concat (split_spaces l)) <= length l)%nat.
Proof.
  induction l as [|b l IH]; simpl; [lia|]. destruct (b =? 32); [simpl; lia|].
  destruct (split_spaces l); simpl in *; lia.
Qed.

Lemma push_parts_bounds max parts count args l a :
  holds args l -> zlen l <= count ->
  push_parts max parts count args = Ok (Some a) ->
  exists l', holds a (l ++ l') /\ (l' = [] \/ count + zlen l' <= max) /\
    (length (concat l') <= length (concat parts))%nat.
Proof.
  revert count args l.
  induction parts as [|part parts IH]; intros count args l Hh Hc; simpl.
  - intros [= <-]. exists []. rewrite app_nil_r. simpl. split_and!; auto.
  - case_bool_decide as Hp.
    + subst. intros H. eapply IH in H as (l' & ? & ? & ?); [|done|done]. exists l'. auto.
    + destruct (Z.geb_spec count max); [done|]. intros H'.
      eapply IH in H' as (l' & Hh' & Hm & Hl'); [|by apply holds_push|rewrite zlen_app; unfold zlen in *; simpl; lia].
      exists (part :: l'). split_and!.
      * by rewrite <-(assoc_L (++)) in Hh'.
      * right. rewrite zlen_cons. destruct Hm as [->|Hm]; [unfold zlen; simpl; lia|lia].
      * simpl. rewrite !length_app. lia.
Qed.

(** What a returned command is bounded by. *)
Definition bounded_command (self self' : Parser) (l : list bytes) : Prop :=
  zlen l <= max_array_len self /\
  Z.of_nat (pos self) + zlen (concat l) < Z.of_nat (pos self').

Lemma parse_command_args_advances self r self' :
  (pos self <= length (buf self))%nat -> 0 <= max_array_len self ->
  parse_command_args self = (r, self') ->
  advances self self' /\
  (forall a, r = Ok (Some a) -> exists l, holds a l /\ bounded_command self self' l).
Proof.
  intros Hp Hm. unfold parse_command_args. destruct (buf self !! pos self) as [c|] eqn:Ec.
  2: { intros [= <- <-]. split; [by apply advances_refl|done]. }
  apply lookup_lt_Some in Ec.
  assert (parse_inline_args self = (r, self') -> advances self self' /\
    (forall a, r = Ok (Some a) -> exists l, holds a l /\ bounded_command self self' l)) as Hin.
  { unfold parse_inline_args. destruct (scan_lf _ _ _) as [q|] eqn:Eq.
    - apply scan_lf_Some in Eq. intros [= <- <-]. split; [split; simpl; [done|lia]|].
      intros a Ha. eapply (push_parts_bounds _ _ _ _ []) in Ha as (l & Hl & Hc & Hlen);
        [|apply holds_new|done]. exists l. split; [done|]. unfold bounded_command.
      split; [destruct Hc as [->|?]; unfold zlen in *; simpl; lia|].
      set (stop := if _ && _ then _ else _) in Hlen.
      assert (stop <= q)%nat by (unfold stop; case_match; lia).
      pose proof (split_spaces_length (slice (buf self) (pos self) stop)) as Hs.
      rewrite length_slice in Hs by lia. unfold zlen. simpl pos. lia.
    - intros [= <- <-]. split; [by apply advances_refl|done]. }
  assert (parse_multibulk_args self = (r, self') -> advances self self' /\
    (forall a, r = Ok (Some a) -> exists l, holds a l /\ bounded_command self self' l)) as Hmu.
  { unfold parse_multibulk_args. destruct (read_line_int _) as [o s1] eqn:Er.
    apply read_line_int_advances in Er as [[Es1 Hs1] Ho]; [|simpl; lia]. simpl in Hs1, Ho.
    rewrite set_pos_set_pos in Es1.
    destruct o as [count|].
    - specialize (Ho ltac:(eauto)). destruct (Z.ltb_spec count 0).
      { intros [= <- <-]. split; [|done]. split; [done|lia]. }
      destruct (Z.gtb_spec count (max_array_len s1)).
      { intros [= <- <-]. split; [|done]. split; [done|lia]. }
      rewrite Es1 in *. simpl in *. intros E. eapply parse_bulks_advances in E as [Ha Hr];
        [|simpl; lia|apply holds_new]. simpl in Ha. split; [by destruct self|].
      intros a Ea. destruct (Hr a Ea) as (l & Hl & Hn & Hc). exists l. split; [done|].
      unfold bounded_command, zlen. simpl in Hc. lia.
    - intros [= <- <-]. split; [|done]. rewrite Es1. simpl. split; simpl; [by destruct self|lia]. }
  destruct (c =? 42); [exact Hmu|exact Hin].
Qed.

Lemma enc_array_length items : (0 < length (Out.enc_array items))%nat.
Proof. unfold Out.enc_array, Out.enc_header. rewrite !length_app. simpl. lia. Qed.

Lemma concat_length_ge {A} (f : A -> bytes) l :
  (forall x, 0 < length (f x))%nat -> (length l <= length (concat (f <$> l)))%nat.
Proof.
  intros Hf. induction l as [|x l IH]; [simpl; lia|].
  rewrite fmap_cons, concat_cons, length_app. cbn [length]. specialize (Hf x). lia.
Qed.

Lemma drain_loop_encoded fuel max_pipeline cmds c tail commands self :
  limits_ok self -> Forall (command_ok (max_bulk_len self) (max_array_len self)) cmds ->
  command_ok (max_bulk_len self) (max_array_len self) c -> incomplete tail (Out.enc_array c) ->
  (length cmds < fuel)%nat -> zlen commands + zlen cmds <= max_pipeline ->
  drop (pos self) (buf self) = concat (Out.enc_array <$> cmds) ++ tail ->
  drain_loop fuel max_pipeline commands self =
    Commands (commands ++ filter (fun l => l ≠ []) cmds)
      (pos self + length (concat (Out.enc_array <$> cmds))).
Proof.
  intros Hl Hc Hcc Htail. revert fuel commands self Hl Hc Hcc.
  induction cmds as [|cmd cmds IH]; intros [|fuel] commands self Hl Hc Hcc Hf Hp E;
    try (simpl in Hf; lia).
  - cbn. rewrite (parse_incomplete self c); [|done|done|].
    + by rewrite app_nil_r, Nat.add_0_r.
    + by rewrite E.
  - apply Forall_cons in Hc as [Hcmd Hc]. rewrite fmap_cons, concat_cons in *.
    rewrite <-(assoc_L (++)) in E. cbn [drain_loop].
    destruct (parse_encoded _ _ _ Hl Hcmd E) as (args & Hh & ->). apply drop_shift in E.
    unfold is_empty. rewrite (holds_as_slice _ _ Hh). rewrite zlen_cons in Hp.
    pose proof (zlen_nonneg cmds). simpl in Hf. rewrite filter_cons, length_app.
    case_bool_decide as Hne; [rewrite decide_False by auto|rewrite decide_True by done].
    + rewrite IH; [|done|done|done|lia|lia|done]. f_equal. simpl. lia.
    + destruct (Z.geb_spec (zlen commands) max_pipeline); [lia|].
      rewrite IH; [|done|done|done|lia|rewrite zlen_app; unfold zlen in *; simpl; lia|done].
      rewrite <-(assoc_L (++)). f_equal. simpl. lia.
Qed.

(** C11. The request loop on pipelined input: when the pending bytes are the encodings of any
    number of commands followed by the beginning of one more (possibly nothing), the loop returns
    exactly those commands with exactly their arguments (binary safe), in order, without the empty
    ones, and consumes exactly their encodings, leaving the incomplete one for the next read. *)
Theorem drain_pipeline (max_request max_array max_pipeline : Z) (cmds : list (list bytes))
    (c : list bytes) (tail : bytes) :
  max_request < i64_max -> max_array <= i64_max ->
  Forall (command_ok max_request max_array) cmds ->
  command_ok max_request max_array c -> incomplete tail (Out.enc_array c) ->
  zlen cmds <= max_pipeline ->
  let sent := concat (Out.enc_array <$> cmds) in
  zlen (sent ++ tail) <= max_request ->
  drain max_request max_array max_pipeline (sent ++ tail) =
    Commands (filter (fun l => l ≠ []) cmds) (length sent).
Proof.
  intros Hr Ha Hc Hcc Ht Hp sent Hlen. unfold drain.
  destruct (Z.gtb_spec (zlen (sent ++ tail)) max_request); [lia|].
  rewrite (drain_loop_encoded _ _ cmds c tail); simpl; try done.
  - unfold limits_ok; simpl. lia.
  - rewrite length_app. pose proof (concat_length_ge Out.enc_array cmds enc_array_length).
    unfold sent. lia.
Qed.

Lemma drain_pipeline_witness :
  let get := [bs "GET"; [255; 13; 10]] in
  drain 1000 10 5 (concat (Out.enc_array <$> [get; []; [bs "PING"]]) ++ bs "*1") =
    Commands [get; [bs "PING"]]
      (length (concat (Out.enc_array <$> [get; []; [bs "PING"]]))).
Proof.
  assert (forall l, forallb (fun i => zlen i <=? 1000) l = true -> zlen l <= 10 ->
    command_ok 1000 10 l) as Hok.
  { intros l Hl Hn. split; [exact Hn|]. rewrite forallb_forall in Hl. apply Forall_forall.
    intros x Hx. apply Z.leb_le, Hl, list_elem_of_In, Hx. }
  apply (drain_pipeline 1000 10 5 [[bs "GET"; [255; 13; 10]]; []; [bs "PING"]] [bs "PING"]).
  - vm_compute. reflexivity.
  - vm_compute. discriminate.
  - repeat (apply Forall_cons; split); try apply Forall_nil; try exact I;
      apply Hok; vm_compute; solve [reflexivity|discriminate].
  - apply Hok; vm_compute; solve [reflexivity|discriminate].
  - exists (Out.crlf ++ Out.enc_bulk (bs "PING")). split; [discriminate|reflexivity].
  - vm_compute. discriminate.
  - vm_compute. discriminate.
Defined.



Lemma drain_loop_total fuel max_pipeline commands self :
  (pos self <= length (buf self))%nat -> 0 <= max_array_len self ->
  (length (buf self) - pos self < fuel)%nat ->
  match drain_loop fuel max_pipeline commands self with
  | Commands cs consumed => (consumed <= length (buf self))%nat /\
      (zlen commands <= max_pipeline -> zlen cs <= max_pipeline)
  | ReplyError _ => True
  | OutOfFuel => False
  end.
Proof.
  revert commands self. induction fuel as [|fuel IH]; intros commands self Hp Hm Hf; [lia|].
  cbn [drain_loop]. destruct (parse_command_args self) as [r s1] eqn:E.
  apply parse_command_args_advances in E as [[Es Hs] Hr]; [|done|done].
  destruct r as [[args|]|e]; [|split; [lia|done]|done].
  destruct (Hr _ eq_refl) as (l & _ & _ & Hb). pose proof (zlen_nonneg (concat l)).
  assert (buf s1 = buf self) as Eb by (by rewrite Es).
  assert (max_array_len s1 = max_array_len self) as Em by (by rewrite Es).
  destruct (is_empty args).
  - specialize (IH commands s1). rewrite Eb, Em in IH. apply IH; lia.
  - destruct (Z.geb_spec (zlen commands) max_pipeline); [done|].
    specialize (IH (commands ++ [as_slice args]) s1). rewrite Eb, Em in IH.
    specialize (IH ltac:(lia) ltac:(lia) ltac:(lia)).
    destruct (drain_loop _ _ _ _) as [cs n| |]; try done. split; [apply IH|].
    intros _. apply IH. rewrite zlen_app. unfold zlen in *. simpl. lia.
Qed.

(** C40. The request loop terminates on any input, consumes no more than what is pending and never
    hands out more commands than the pipeline limit. *)
Theorem drain_total (max_request max_array max_pipeline : Z) (pending : bytes) :
  0 <= max_array -> 0 <= max_pipeline ->
  match drain max_request max_array max_pipeline pending with
  | Commands cs consumed => (consumed <= length pending)%nat /\ zlen cs <= max_pipeline
  | ReplyError _ => True
  | OutOfFuel => False
  end.
Proof.
  intros Ha Hp. unfold drain. destruct (_ >? _); [done|].
  pose proof (drain_loop_total (S (length pending)) max_pipeline []
    (with_limits pending max_request max_array)) as H.
  cbn [pos buf max_array_len with_limits] in H.
  specialize (H ltac:(lia) Ha ltac:(lia)). destruct (drain_loop _ _ _ _); try done.
  destruct H as [H1 H2]. split; [done|]. by apply H2.
Qed.

Lemma drain_total_witness :
  drain 100 10 5 (bs "*1" ++ Out.crlf ++ bs "$99") = Commands [] 0 /\
  (0 <= 7)%nat /\ zlen (@nil (list bytes)) <= 5.
Proof.
  split; [vm_compute; reflexivity|].
  apply (drain_total 100 10 5 (bs "*1" ++ Out.crlf ++ bs "$99")); lia.
Defined.

(** A count line that is not a number is not a protocol error for this parser: whatever
    follows, it answers that it needs more bytes and stays where it is. *)
Theorem malformed_count_stalls (self : Parser) (line rest : bytes) :
  (13 : Z) ∉ line -> parse_i64_bytes line = None ->
  drop (pos self) (buf self) = bs "*" ++ line ++ Out.crlf ++ rest ->
  parse_command_args self = (Ok None, self).
Proof.
  intros Hn Hl E. unfold parse_command_args. rewrite (drop_cons_lookup _ _ 42 _ E).
  cbn [Z.eqb Pos.eqb]. unfold parse_multibulk_args. apply drop_shift in E.
  simpl length in E. rewrite Nat.add_1_r in E.
  rewrite (read_line_int_found _ line rest), Hl by done. by destruct self.
Qed.

Lemma malformed_count_stalls_witness :
  let self := new (bs "*abc" ++ Out.crlf ++ Out.enc_array [bs "PING"]) in
  parse_command_args self = (Ok None, self).
Proof.
  apply (malformed_count_stalls _ (bs "abc") (Out.enc_array [bs "PING"])).
  - apply (bool_decide_unpack _). vm_compute. exact I.
  - reflexivity.
  - reflexivity.
Defined.

End Parse.
