(* ===== verification/Hll.v ===== *)
(** * HyperLogLog registers ([src/src/hll.rs])

    The 64-bit MurmurHash2 of an element, the register it updates, and the merge of two register
    arrays. The cardinality estimate ([hll_count], a floating-point formula with a logarithm) is
    not modelled. *)

From S2P Require Import Prelude.
Local Open Scope Z_scope.

Module Hll.

Definition HLL_REGISTERS : nat := Z.to_nat 16384.
Definition HLL_P : Z := 14.
Definition max_register : Z := 64 - HLL_P + 1.

Definition wrapping_mul (a b : Z) : Z := as_u64 (a * b).
Definition mur_m : Z := 14313749767032793493.  (* 0xc6a4a7935bd1e995 *)
Definition mur_seed : Z := 2915580697.         (* 0xadc83b19 *)
Definition mur_r : Z := 47.

Definition mur_block (h : Z) (block : bytes) : Z :=
  let k := wrapping_mul (le_decode block) mur_m in
  let k := Z.lxor k (Z.shiftr k mur_r) in
  let k := wrapping_mul k mur_m in
  wrapping_mul (Z.lxor h k) mur_m.

Fixpoint mur_blocks (n : nat) (h : Z) (data : bytes) : Z * bytes :=
  match n with
  | O => (h, data)
  | S n => mur_blocks n (mur_block h (take 8 data)) (drop 8 data)
  end.

(** The cascade over the last seven bytes, from the highest down; [tail[0]] also multiplies. *)
Definition mur_tail (h : Z) (tail : bytes) : Z :=
  let h := foldl (fun h i => match tail !! i with
                             | Some b => Z.lxor h (Z.shiftl b (8 * Z.of_nat i))
                             | None => h
                             end) h [6; 5; 4; 3; 2; 1]%nat in
  match tail with
  | b :: _ => wrapping_mul (Z.lxor h b) mur_m
  | [] => h
  end.

Definition murmur_hash_64a (data : bytes) : Z :=
  let h := Z.lxor mur_seed (wrapping_mul (zlen data) mur_m) in
  let '(h, tail) := mur_blocks (length data / 8) h data in
  let h := mur_tail h tail in
  let h := Z.lxor h (Z.shiftr h mur_r) in
  let h := wrapping_mul h mur_m in
  Z.lxor h (Z.shiftr h mur_r).

(** [u64::trailing_zeros] of a non-zero word. *)
Fixpoint trailing_zeros_go (fuel : nat) (z : Z) : Z :=
  match fuel with
  | O => 0
  | S fuel => if Z.testbit z 0 then 0 else 1 + trailing_zeros_go fuel (Z.shiftr z 1)
  end.

Definition trailing_zeros (z : Z) : Z := trailing_zeros_go 64 z.

(** The register an element selects and the rank it puts there. *)
Definition hll_index (element : bytes) : nat :=
  Z.to_nat (Z.land (murmur_hash_64a element) (Z.shiftl 1 HLL_P - 1)).

Definition hll_rank (element : bytes) : Z :=
  let bits := Z.shiftr (murmur_hash_64a element) HLL_P in
  if bits =? 0 then 64 - HLL_P + 1 else trailing_zeros bits + 1.

(** Whether the registers changed, and the registers; [registers[index]] panics out of range. *)
Definition hll_add (registers : bytes) (element : bytes) : outcome (bool * bytes) :=
  match registers !! hll_index element with
  | None => Panicked
  | Some r =>
      if hll_rank element >? r
      then Returned (true, <[hll_index element := hll_rank element]> registers)
      else Returned (false, registers)
  end.

Fixpoint hll_merge_go (n : nat) (dest src : bytes) : outcome bytes :=
  match n with
  | O => Returned []
  | S n =>
      match dest, src with
      | d :: dest, s :: src =>
          rest ← hll_merge_go n dest src;
          Returned ((if s >? d then s else d) :: rest)
      | _, _ => Panicked
      end
  end.

(** [for i in 0..HLL_REGISTERS]: the registers past that, if any, are left alone. *)
Definition hll_merge (dest src : bytes) : outcome bytes :=
  merged ← hll_merge_go HLL_REGISTERS dest src;
  Returned (merged ++ drop HLL_REGISTERS dest).

Fixpoint hll_add_all (registers : bytes) (elements : list bytes) : outcome bytes :=
  match elements with
  | [] => Returned registers
  | e :: elements => '(_, registers) ← hll_add registers e; hll_add_all registers elements
  end.

Definition empty_registers : bytes := replicate HLL_REGISTERS 0.

(** What [read_registers] accepts. *)
Definition regs_ok (registers : bytes) : Prop :=
  length registers = HLL_REGISTERS /\ Forall (fun v => 0 <= v <= max_register) registers.

(** The mathematical content: register-wise maximum. *)
Definition merge_spec (dest src : bytes) : bytes := zip_with Z.max dest src.

(** The registers of one element. *)
Definition singleton_regs (element : bytes) : bytes :=
  <[hll_index element := hll_rank element]> empty_registers.

(** The registers of a set of elements. *)
Definition sketch (registers : bytes) (elements : list bytes) : bytes :=
  foldl (fun r e => merge_spec r (singleton_regs e)) registers elements.

(** ** Lemmas *)

Lemma hll_merge_go_spec n dest src :
  length dest = n -> length src = n -> hll_merge_go n dest src = Returned (merge_spec dest src).
Proof.
  revert dest src. induction n as [|n IH]; intros [|d dest] [|s src] Hd Hs; simpl in *; try lia;
    [done|].
  rewrite IH by lia. cbn [mbind outcome_bind]. do 2 f_equal.
  destruct (Z.gtb_spec s d); lia.
Qed.

Lemma hll_merge_spec dest src :
  length dest = HLL_REGISTERS -> length src = HLL_REGISTERS ->
  hll_merge dest src = Returned (merge_spec dest src).
Proof.
  intros Hd Hs. unfold hll_merge. rewrite hll_merge_go_spec by done. cbn [mbind outcome_bind].
  rewrite drop_ge by lia. by rewrite app_nil_r.
Qed.

Lemma merge_spec_lookup a b i :
  merge_spec a b !! i = x ← a !! i; y ← b !! i; Some (Z.max x y).
Proof. apply lookup_zip_with. Qed.

Lemma merge_spec_comm a b : merge_spec a b = merge_spec b a.
Proof.
  apply list_eq. intros i. rewrite !merge_spec_lookup.
  destruct (a !! i), (b !! i); cbn; try done. f_equal. lia.
Qed.

Lemma merge_spec_assoc a b c : merge_spec a (merge_spec b c) = merge_spec (merge_spec a b) c.
Proof.
  apply list_eq. intros i. rewrite !merge_spec_lookup.
  destruct (a !! i), (b !! i), (c !! i); cbn; try done. f_equal. lia.
Qed.

Lemma merge_spec_idemp a : merge_spec a a = a.
Proof.
  apply list_eq. intros i. rewrite merge_spec_lookup. destruct (a !! i); cbn; [|done].
  f_equal. lia.
Qed.

Lemma merge_spec_length a b : length a = length b -> length (merge_spec a b) = length a.
Proof. intros E. unfold merge_spec. rewrite length_zip_with. lia. Qed.

Lemma hll_index_lt element : (hll_index element < HLL_REGISTERS)%nat.
Proof.
  unfold hll_index, HLL_REGISTERS. change (Z.shiftl 1 HLL_P - 1) with (Z.ones 14).
  rewrite Z.land_ones by lia. pose proof (Z.mod_pos_bound (murmur_hash_64a element) (2 ^ 14)).
  apply Z2Nat.inj_lt; lia.
Qed.

Lemma mur_final_range h : 0 <= h < u64_mod -> 0 <= Z.lxor h (Z.shiftr h mur_r) < u64_mod.
Proof.
  intros Hh. assert (0 <= Z.shiftr h mur_r) by (apply Z.shiftr_nonneg; lia).
  split; [apply Z.lxor_nonneg; lia|].
  destruct (Z.eq_dec (Z.lxor h (Z.shiftr h mur_r)) 0) as [->|Hnz]; [done|].
  change u64_mod with (2 ^ 64). apply Z.log2_lt_pow2.
  - assert (0 <= Z.lxor h (Z.shiftr h mur_r)) by (apply Z.lxor_nonneg; lia). lia.
  - eapply Z.le_lt_trans; [apply Z.log2_lxor; lia|].
    assert (Z.log2 (Z.shiftr h mur_r) <= Z.log2 h).
    { apply Z.log2_le_mono. rewrite Z.shiftr_div_pow2 by done.
      apply Z.div_le_upper_bound; [done|]. unfold mur_r. lia. }
    assert (Z.log2 h < 64).
    { destruct (Z.eq_dec h 0) as [->|]; [done|]. apply Z.log2_lt_pow2; [lia|]. apply Hh. }
    lia.
Qed.

Lemma murmur_range data : 0 <= murmur_hash_64a data < u64_mod.
Proof.
  unfold murmur_hash_64a. destruct (mur_blocks _ _ _) as [h tail].
  apply mur_final_range. apply as_u64_range.
Qed.

Lemma trailing_zeros_go_range n fuel z :
  0 < z < 2 ^ Z.of_nat n -> 0 <= trailing_zeros_go fuel z < Z.of_nat n.
Proof.
  revert n z. induction fuel as [|fuel IH]; intros n z Hz; cbn [trailing_zeros_go].
  - destruct n; [simpl in Hz; lia|lia].
  - destruct n as [|n]; [simpl in Hz; lia|].
    destruct (Z.testbit z 0) eqn:Hb; [lia|].
    rewrite Nat2Z.inj_succ, Z.pow_succ_r in Hz by lia.
    assert (0 < Z.shiftr z 1 < 2 ^ Z.of_nat n) as Hs.
    { rewrite Z.shiftr_div_pow2 by lia. change (2 ^ 1) with 2.
      rewrite Z.bit0_odd in Hb. pose proof (Z.odd_spec z) as Ho.
      pose proof (Z.div_mod z 2 ltac:(lia)). rewrite Zmod_odd, Hb in *. lia. }
    specialize (IH n _ Hs). lia.
Qed.

(** A rank is never zero and fits the bound that [read_registers] checks. *)
Lemma hll_rank_range element : 1 <= hll_rank element <= max_register.
Proof.
  unfold hll_rank, max_register, HLL_P. pose proof (murmur_range element) as Hr.
  set (bits := Z.shiftr _ _). destruct (Z.eqb_spec bits 0); [lia|].
  assert (0 < bits < 2 ^ Z.of_nat 50) as Hb.
  { assert (0 <= bits) by (apply Z.shiftr_nonneg; lia). split; [lia|].
    unfold bits. rewrite Z.shiftr_div_pow2 by lia. apply Z.div_lt_upper_bound; [lia|].
    change (2 ^ 14 * 2 ^ Z.of_nat 50) with u64_mod. lia. }
  pose proof (trailing_zeros_go_range 50 64 bits Hb). unfold trailing_zeros. lia.
Qed.

(** Adding an element is merging with its one-element registers. *)
Lemma hll_add_spec registers element :
  regs_ok registers ->
  exists changed, hll_add registers element =
    Returned (changed, merge_spec registers (singleton_regs element)) /\
    (changed = false <-> merge_spec registers (singleton_regs element) = registers).
Proof.
  intros [Hlen Hv]. pose proof (hll_index_lt element) as Hi. pose proof (hll_rank_range element).
  assert (length empty_registers = HLL_REGISTERS) as He by (unfold empty_registers; apply length_replicate).
  unfold hll_add. destruct (lookup_lt_is_Some_2 registers (hll_index element)) as [r Hr]; [lia|].
  rewrite Hr.
  assert (forall x, merge_spec registers (singleton_regs element) !! x =
    <[hll_index element := Z.max r (hll_rank element)]> registers !! x) as Hm.
  { intros x. rewrite merge_spec_lookup. unfold singleton_regs.
    destruct (decide (x = hll_index element)) as [->|Hne].
    - rewrite !list_lookup_insert_eq by lia. by rewrite Hr.
    - rewrite !list_lookup_insert_ne by done. unfold empty_registers.
      destruct (registers !! x) as [v|] eqn:Hx; [|done]. cbn.
      pose proof (lookup_lt_Some _ _ _ Hx). rewrite lookup_replicate_2 by lia.
      cbn. pose proof (Forall_lookup_1 _ _ _ _ Hv Hx) as [??]. f_equal. lia. }
  apply list_eq in Hm. rewrite Hm.
  destruct (Z.gtb_spec (hll_rank element) r) as [Hg|Hg].
  - rewrite Z.max_r by lia. eexists; split; [done|]. split; [done|]. intros E.
    assert (<[hll_index element := hll_rank element]> registers !! hll_index element = Some r)
      as E' by (by rewrite E). rewrite list_lookup_insert_eq in E' by lia. injection E'. lia.
  - rewrite Z.max_l by lia. rewrite list_insert_id by done. eexists; split; [done|]. done.
Qed.

Lemma merge_regs_ok a b : regs_ok a -> regs_ok b -> regs_ok (merge_spec a b).
Proof.
  intros [Ha Fa] [Hb Fb]. split; [rewrite merge_spec_length; lia|].
  apply Forall_lookup. intros i x Hx. rewrite merge_spec_lookup in Hx.
  destruct (a !! i) as [y|] eqn:Ey, (b !! i) as [z|] eqn:Ez; simplify_eq/=.
  destruct (Forall_lookup_1 _ _ _ _ Fa Ey), (Forall_lookup_1 _ _ _ _ Fb Ez). lia.
Qed.

Lemma empty_regs_ok : regs_ok empty_registers.
Proof.
  split; [apply length_replicate|]. apply Forall_replicate. unfold max_register, HLL_P. lia.
Qed.

Lemma singleton_regs_ok element : regs_ok (singleton_regs element).
Proof.
  destruct empty_regs_ok as [He Hf]. split; [unfold singleton_regs; by rewrite length_insert|].
  apply Forall_insert; [done|]. pose proof (hll_rank_range element). lia.
Qed.

Lemma hll_add_all_sketch registers elements :
  regs_ok registers ->
  hll_add_all registers elements = Returned (sketch registers elements) /\
  regs_ok (sketch registers elements).
Proof.
  revert registers. induction elements as [|e elements IH]; intros registers Hr; [done|].
  cbn [hll_add_all sketch foldl]. destruct (hll_add_spec registers e Hr) as (c & -> & _).
  cbn [mbind outcome_bind]. apply IH, merge_regs_ok; [done|apply singleton_regs_ok].
Qed.

Lemma sketch_merge registers other elements :
  sketch (merge_spec registers other) elements = merge_spec other (sketch registers elements).
Proof.
  revert registers. induction elements as [|e elements IH]; intros registers; simpl;
    [apply merge_spec_comm|].
  rewrite <-IH. f_equal. rewrite <-!merge_spec_assoc. f_equal. apply merge_spec_comm.
Qed.

Lemma merge_empty registers : regs_ok registers -> merge_spec registers empty_registers = registers.
Proof.
  intros [Hl Hv]. apply list_eq. intros i. rewrite merge_spec_lookup.
  destruct (registers !! i) as [v|] eqn:E; [|done]. cbn. pose proof (lookup_lt_Some _ _ _ E).
  unfold empty_registers. rewrite lookup_replicate_2 by lia. cbn.
  destruct (Forall_lookup_1 _ _ _ _ Hv E). f_equal. lia.
Qed.

(** Registers are a sketch of a set: adding elements never panics and keeps every register
    within the bound [read_registers] enforces; the result does not depend on the order of the
    elements; an element added again changes nothing; and merging the sketches of two collections
    gives the sketch of both together. *)
Theorem hll_sketch (xs ys : list bytes) :
  exists rx ry rxy,
    hll_add_all empty_registers xs = Returned rx /\
    hll_add_all empty_registers ys = Returned ry /\
    hll_add_all empty_registers (xs ++ ys) = Returned rxy /\
    regs_ok rxy /\
    hll_merge rx ry = Returned rxy /\
    hll_add_all empty_registers (ys ++ xs) = Returned rxy /\
    (forall x, x ∈ xs -> hll_add rx x = Returned (false, rx)).
Proof.
  destruct (hll_add_all_sketch empty_registers xs empty_regs_ok) as [Ex Hx].
  destruct (hll_add_all_sketch empty_registers ys empty_regs_ok) as [Ey Hy].
  destruct (hll_add_all_sketch empty_registers (xs ++ ys) empty_regs_ok) as [Exy Hxy].
  destruct (hll_add_all_sketch empty_registers (ys ++ xs) empty_regs_ok) as [Eyx Hyx].
  assert (forall us vs, sketch empty_registers (us ++ vs) =
    merge_spec (sketch empty_registers us) (sketch empty_registers vs)) as Happ.
  { intros us vs. unfold sketch at 1. rewrite foldl_app. change (foldl _ _ us) with (sketch empty_registers us).
    change (foldl _ ?r vs) with (sketch r vs).
    destruct (hll_add_all_sketch empty_registers us empty_regs_ok) as [_ Hu].
    rewrite <-(merge_empty _ Hu) at 1. rewrite merge_spec_comm. apply sketch_merge. }
  do 3 eexists. split_and!; [done|done|done|done| | |].
  - rewrite hll_merge_spec by (apply Hx || apply Hy). by rewrite Happ.
  - rewrite Eyx, !Happ. by rewrite merge_spec_comm.
  - intros x Hin. destruct (hll_add_spec _ x Hx) as (c & -> & Hc).
    assert (merge_spec (sketch empty_registers xs) (singleton_regs x) = sketch empty_registers xs) as E.
    { apply list_elem_of_split in Hin as (l1 & l2 & ->). rewrite Happ.
      change (x :: l2) with ([x] ++ l2). rewrite Happ.
      assert (sketch empty_registers [x] = singleton_regs x) as ->.
      { unfold sketch. cbn [foldl]. rewrite merge_spec_comm. apply merge_empty, singleton_regs_ok. }
      rewrite (merge_spec_comm (singleton_regs x)), <-!merge_spec_assoc. by rewrite merge_spec_idemp. }
    rewrite E. do 2 f_equal. by apply Hc.
Qed.

End Hll.
