(* ===== verification/Codec.v ===== *)
(** * Binary encoding of entries ([src/src/disk.rs], [src/src/hll.rs])

    The checksum, the little-endian primitives, and the reader and writer of one entry of the cold
    tier ([write_single_entry], [read_single_entry]), with the consumer groups of streams.

    A writer into a [Vec<u8>] cannot fail, so it is the function to the bytes it appends. A reader
    is a function of the bytes left to read: it gives a value and the rest, or an [io::Error].
    Floating-point numbers are their bit patterns: the encoding only moves them. *)

From S2P Require Import Prelude.
From S2P Require Import Hll.
Local Open Scope Z_scope.

(** ** I/O results *)

Inductive io_error :=
| UnexpectedEof
| InvalidData (msg : string)
| InvalidInput (msg : string)
| Other (msg : string).

Inductive io (A : Type) : Type :=
| IoOk (a : A)
| IoErr (e : io_error).
Arguments IoOk {A} _.
Arguments IoErr {A} _.

#[export] Instance io_ret : MRet io := @IoOk.
#[export] Instance io_bind : MBind io := fun A B f r =>
  match r with IoOk a => f a | IoErr e => IoErr e end.

Definition reader (A : Type) : Type := bytes -> io (A * bytes).

#[export] Instance reader_ret : MRet reader := fun A a input => IoOk (a, input).
#[export] Instance reader_bind : MBind reader := fun A B f m input =>
  match m input with IoOk (a, rest) => f a rest | IoErr e => IoErr e end.

Definition fail {A} (e : io_error) : reader A := fun _ => IoErr e.

Module Codec.

(** ** CRC-32 with a lookup table *)

Definition crc_bit (crc : Z) : Z :=
  if Z.testbit crc 0 then Z.lxor (Z.shiftr crc 1) 3988292384 else Z.shiftr crc 1.

Definition crc_entry (i : Z) : Z := Nat.iter 8 crc_bit i.

Definition crc_table : list Z := crc_entry <$> (Z.of_nat <$> seq 0 256).

(** The table as a vector of 256 entries, [0] outside (the index is masked to eight bits). *)
Definition crc_lookup (i : Z) : Z := default 0 (crc_table !! Z.to_nat i).

Definition crc_update (crc b : Z) : Z :=
  Z.lxor (crc_lookup (Z.land (Z.lxor crc b) 255)) (Z.shiftr crc 8).

Definition crc32 (data : bytes) : Z := Z.lxor (foldl crc_update u32_max data) u32_max.

(** ** Primitive writers and readers *)

Definition write_u32 (v : Z) : bytes := le_bytes 4 v.
Definition write_i64 (v : Z) : bytes := le_bytes 8 v.
Definition write_f64 (v : Z) : bytes := le_bytes 8 v.
Definition write_f32 (v : Z) : bytes := le_bytes 4 v.
Definition write_bytes (data : bytes) : bytes := le_bytes 4 (as_u32 (zlen data)) ++ data.

Definition read_exact (n : nat) : reader bytes := fun input =>
  if bool_decide (length input < n)%nat then IoErr UnexpectedEof
  else IoOk (take n input, drop n input).

Definition read_u8 : reader Z := b ← read_exact 1; mret (default 0 (head b)).
Definition read_u32 : reader Z := b ← read_exact 4; mret (le_decode b).
Definition read_i64 : reader Z := b ← read_exact 8; mret (as_i64 (le_decode b)).
Definition read_f64 : reader Z := b ← read_exact 8; mret (le_decode b).
Definition read_f32 : reader Z := b ← read_exact 4; mret (le_decode b).

(** [r.take(len).read_to_end(..)] and the length check. *)
Definition read_take (len : Z) : reader bytes := fun input =>
  if zlen input <? len then IoErr UnexpectedEof
  else IoOk (take (Z.to_nat len) input, drop (Z.to_nat len) input).

Definition read_bytes : reader bytes := len ← read_u32; read_take len.

Definition read_string : reader bytes :=
  raw ← read_bytes;
  if is_utf8 raw then mret raw else fail (InvalidData "invalid utf-8").

(** [for _ in 0..n { v.push(read(r)?) }] *)
Fixpoint read_n {A} (n : nat) (read : reader A) : reader (list A) :=
  match n with
  | O => mret []
  | S n => a ← read; l ← read_n n read; mret (a :: l)
  end.

(** [let n = read_u32(r)? as usize; for _ in 0..n { .. }] *)
Definition read_vec {A} (read : reader A) : reader (list A) :=
  n ← read_u32; read_n (Z.to_nat n) read.

Definition write_vec {A} (write : A -> bytes) (l : list A) : bytes :=
  write_u32 (as_u32 (zlen l)) ++ concat (write <$> l).

Definition read_pair {A B} (ra : reader A) (rb : reader B) : reader (A * B) :=
  a ← ra; b ← rb; mret (a, b).

(** ** Dumped values *)

Definition StreamDumpEntry : Type := bytes * list (bytes * bytes).
Definition StreamConsumerDump : Type := bytes * list bytes.
Definition StreamPendingDump : Type := bytes * bytes * Z.
Definition StreamGroupDump : Type :=
  bytes * bytes * list StreamConsumerDump * list StreamPendingDump.

Inductive DumpValue :=
| DStr (v : bytes)
| DList (items : list bytes)
| DHash (pairs : list (bytes * bytes)) (expiries : list (bytes * Z))
| DSet (members : list bytes)
| DSortedSet (members : list (bytes * Z))
| DStream (entries : list StreamDumpEntry) (last_id : bytes) (groups : list StreamGroupDump)
| DVector (data : list Z) (metadata : option bytes) (encrypted : bool)
| DHyperLogLog (regs : bytes) (cached : Z)
| DTimeSeries (samples : list (Z * Z)) (retention : Z) (labels : list (bytes * bytes)).

Record DumpEntry := mkDumpEntry { d_key : bytes; d_value : DumpValue; d_ttl_ms : Z }.

(** ** Consumer groups *)

Definition write_consumer (c : StreamConsumerDump) : bytes :=
  write_bytes c.1 ++ write_vec write_bytes c.2.

Definition write_pending (p : StreamPendingDump) : bytes :=
  write_bytes p.1.1 ++ write_bytes p.1.2 ++ write_u32 (Z.min p.2 u32_max).

Definition write_group (g : StreamGroupDump) : bytes :=
  let '(name, last_delivered_id, consumers, pending) := g in
  write_bytes name ++ write_bytes last_delivered_id ++
  write_vec write_consumer consumers ++ write_vec write_pending pending.

Definition write_stream_groups (groups : list StreamGroupDump) : bytes :=
  write_vec write_group groups.

Definition read_consumer : reader StreamConsumerDump := read_pair read_string (read_vec read_string).

Definition read_pending : reader StreamPendingDump :=
  id ← read_string; consumer ← read_string; n ← read_u32; mret (id, consumer, n).

Definition read_group : reader StreamGroupDump :=
  name ← read_string; last_delivered_id ← read_string;
  consumers ← read_vec read_consumer; pending ← read_vec read_pending;
  mret (name, last_delivered_id, consumers, pending).

(** The end of input before the count is an entry written without groups. *)
Definition read_stream_groups : reader (list StreamGroupDump) := fun input =>
  match input with
  | [] => IoOk ([], [])
  | _ => (first ← read_exact 1; rest ← read_exact 3;
          read_n (Z.to_nat (le_decode (first ++ rest))) read_group : reader _) input
  end.

(** ** Entries *)

Definition write_kv (p : bytes * bytes) : bytes := write_bytes p.1 ++ write_bytes p.2.
Definition write_expiry (p : bytes * Z) : bytes := write_bytes p.1 ++ write_i64 p.2.
Definition write_scored (p : bytes * Z) : bytes := write_bytes p.1 ++ write_f64 p.2.
Definition write_stream_entry (e : StreamDumpEntry) : bytes :=
  write_bytes e.1 ++ write_vec write_kv e.2.
Definition write_sample (s : Z * Z) : bytes := write_i64 s.1 ++ write_f64 s.2.

Definition type_byte (v : DumpValue) : Z :=
  match v with
  | DStr _ => 83
  | DList _ => 76
  | DHash _ (_ :: _) => 104
  | DHash _ [] => 72
  | DSet _ => 84
  | DSortedSet _ => 90
  | DStream _ _ _ => 88
  | DVector _ _ _ => 86
  | DHyperLogLog _ _ => 80
  | DTimeSeries _ _ _ => 73
  end.

Definition write_value (v : DumpValue) : bytes :=
  match v with
  | DStr v => write_bytes v
  | DList items => write_vec write_bytes items
  | DHash pairs expiries =>
      write_vec write_kv pairs ++
      (match expiries with [] => [] | _ => write_vec write_expiry expiries end)
  | DSet members => write_vec write_bytes members
  | DSortedSet members => write_vec write_scored members
  | DStream entries last_id groups =>
      write_bytes last_id ++ write_vec write_stream_entry entries ++ write_stream_groups groups
  | DVector data metadata _ =>
      write_vec write_f32 data ++
      (match metadata with Some m => 1 :: write_bytes m | None => [0] end)
  | DHyperLogLog regs _ => write_u32 (as_u32 (zlen regs)) ++ regs
  | DTimeSeries samples retention labels =>
      write_vec write_sample samples ++ write_i64 (as_i64 retention) ++ write_vec write_kv labels
  end.

Definition stored_ttl (ttl_ms : Z) : Z := if ttl_ms >? 0 then ttl_ms else -1.

Definition write_single_entry (e : DumpEntry) : bytes :=
  type_byte (d_value e) :: write_bytes (d_key e) ++ write_i64 (stored_ttl (d_ttl_ms e)) ++
  write_value (d_value e).

Definition read_kv : reader (bytes * bytes) := read_pair read_string read_bytes.
Definition read_label : reader (bytes * bytes) := read_pair read_string read_string.
Definition read_expiry : reader (bytes * Z) := read_pair read_string read_i64.
Definition read_scored : reader (bytes * Z) := read_pair read_string read_f64.
Definition read_stream_entry : reader StreamDumpEntry := read_pair read_string (read_vec read_kv).
Definition read_sample : reader (Z * Z) := read_pair read_i64 read_f64.

(** [hll::read_registers] *)
Definition read_registers (len : Z) : reader bytes :=
  if negb (len =? Z.of_nat Hll.HLL_REGISTERS)
  then fail (InvalidData "invalid HyperLogLog register count")
  else
    registers ← read_exact Hll.HLL_REGISTERS;
    if existsb (fun v => v >? Hll.max_register) registers
    then fail (InvalidData "invalid HyperLogLog register value")
    else mret registers.

Section Entries.

(** The cardinality estimate of [hll.rs], recomputed when registers are read. *)
Context (hll_count : bytes -> Z).

Definition read_value (type : Z) : reader DumpValue :=
  if type =? 83 then v ← read_bytes; mret (DStr v)
  else if type =? 76 then items ← read_vec read_bytes; mret (DList items)
  else if (type =? 72) || (type =? 104) then
    pairs ← read_vec read_kv;
    expiries ← (if type =? 104 then read_vec read_expiry else mret []);
    mret (DHash pairs expiries)
  else if type =? 84 then members ← read_vec read_string; mret (DSet members)
  else if type =? 90 then members ← read_vec read_scored; mret (DSortedSet members)
  else if type =? 88 then
    last_id ← read_string;
    entries ← read_vec read_stream_entry;
    groups ← read_stream_groups;
    mret (DStream entries last_id groups)
  else if type =? 86 then
    data ← read_vec read_f32;
    flag ← read_u8;
    metadata ← (if flag =? 1 then m ← read_string; mret (Some m) else mret None);
    mret (DVector data metadata false)
  else if type =? 80 then
    len ← read_u32;
    regs ← read_registers len;
    mret (DHyperLogLog regs (hll_count regs))
  else if type =? 73 then
    samples ← read_vec read_sample;
    retention ← read_i64;
    labels ← read_vec read_label;
    mret (DTimeSeries samples (as_u64 retention) labels)
  else fail (InvalidData "unknown type byte").

Definition read_single_entry : reader (bytes * DumpValue * Z) :=
  type ← read_u8;
  key ← read_string;
  ttl_ms ← read_i64;
  value ← read_value type;
  mret (key, value, ttl_ms).

End Entries.

(** ** Specifications *)

(** The bitwise CRC-32, without a table. *)
Definition crc_update_ref (crc b : Z) : Z := Nat.iter 8 crc_bit (Z.lxor crc b).
Definition crc32_ref (data : bytes) : Z := Z.lxor (foldl crc_update_ref u32_max data) u32_max.

(** A reader inverts a writer on the valid values, whatever follows. *)
Class RoundTrip {A} (write : A -> bytes) (read : reader A) (valid : A -> Prop) : Prop :=
  round_trip : forall a rest, valid a -> read (write a ++ rest) = IoOk (a, rest).

Definition u32_ok (v : Z) : Prop := 0 <= v < u32_mod.
Definition u64_ok (v : Z) : Prop := 0 <= v < u64_mod.
Definition i64_ok (v : Z) : Prop := i64_min <= v <= i64_max.
Definition bytes_ok (b : bytes) : Prop := zlen b < u32_mod.
Definition string_ok (b : bytes) : Prop := zlen b < u32_mod /\ is_utf8 b = true.
Definition vec_ok {A} (P : A -> Prop) (l : list A) : Prop := zlen l < u32_mod /\ Forall P l.
Definition pair_ok {A B} (P : A -> Prop) (Q : B -> Prop) (p : A * B) : Prop := P p.1 /\ Q p.2.

Definition pending_ok (p : StreamPendingDump) : Prop :=
  string_ok p.1.1 /\ string_ok p.1.2 /\ 0 <= p.2.

Definition group_ok (g : StreamGroupDump) : Prop :=
  let '(name, last_delivered_id, consumers, pending) := g in
  string_ok name /\ string_ok last_delivered_id /\
  vec_ok (pair_ok string_ok (vec_ok string_ok)) consumers /\ vec_ok pending_ok pending.

(** What the types and the length fields of the format allow. *)
Definition value_ok (v : DumpValue) : Prop :=
  match v with
  | DStr v => bytes_ok v
  | DList items => vec_ok bytes_ok items
  | DHash pairs expiries =>
      vec_ok (pair_ok string_ok bytes_ok) pairs /\ vec_ok (pair_ok string_ok i64_ok) expiries
  | DSet members => vec_ok string_ok members
  | DSortedSet members => vec_ok (pair_ok string_ok u64_ok) members
  | DStream entries last_id groups =>
      vec_ok (pair_ok string_ok (vec_ok (pair_ok string_ok bytes_ok))) entries /\
      string_ok last_id /\ vec_ok group_ok groups
  | DVector data metadata _ =>
      vec_ok u32_ok data /\ match metadata with Some m => string_ok m | None => True end
  | DHyperLogLog regs _ => Hll.regs_ok regs
  | DTimeSeries samples retention labels =>
      vec_ok (pair_ok i64_ok u64_ok) samples /\ u64_ok retention /\
      vec_ok (pair_ok string_ok string_ok) labels
  end.

Definition entry_ok (e : DumpEntry) : Prop :=
  string_ok (d_key e) /\ i64_ok (d_ttl_ms e) /\ value_ok (d_value e).

(** What the format keeps of a value: the encryption flag of a vector is not persisted, the
    estimate of a HyperLogLog is recomputed, delivery counts stop at [u32::MAX]. *)
Definition stored_pending (p : StreamPendingDump) : StreamPendingDump := (p.1, Z.min p.2 u32_max).

Definition stored_group (g : StreamGroupDump) : StreamGroupDump :=
  (g.1, stored_pending <$> g.2).

Definition stored_value (hll_count : bytes -> Z) (v : DumpValue) : DumpValue :=
  match v with
  | DVector data metadata _ => DVector data metadata false
  | DHyperLogLog regs _ => DHyperLogLog regs (hll_count regs)
  | DStream entries last_id groups => DStream entries last_id (stored_group <$> groups)
  | v => v
  end.

(** ** Lemmas: CRC-32 *)

Lemma crc_bit_lxor x y : crc_bit (Z.lxor x y) = Z.lxor (crc_bit x) (crc_bit y).
Proof.
  unfold crc_bit. rewrite Z.lxor_spec, Z.shiftr_lxor.
  destruct (Z.testbit x 0), (Z.testbit y 0); cbn [xorb].
  - apply Z.bits_inj'. intros n _. rewrite !Z.lxor_spec. by destruct (Z.testbit _ n), (Z.testbit _ n), (Z.testbit _ n).
  - apply Z.bits_inj'. intros n _. rewrite !Z.lxor_spec. by destruct (Z.testbit _ n), (Z.testbit _ n), (Z.testbit _ n).
  - by rewrite Z.lxor_assoc.
  - done.
Qed.

Lemma crc_iter_lxor n x y :
  Nat.iter n crc_bit (Z.lxor x y) = Z.lxor (Nat.iter n crc_bit x) (Nat.iter n crc_bit y).
Proof. induction n as [|n IH]; simpl; [done|]. by rewrite IH, crc_bit_lxor. Qed.

Lemma crc_iter_shiftl n y : Nat.iter n crc_bit (Z.shiftl y (Z.of_nat n)) = y.
Proof.
  induction n as [|n IH]; [apply Z.shiftl_0_r|].
  assert (crc_bit (Z.shiftl y (Z.of_nat (S n))) = Z.shiftl y (Z.of_nat n)) as E.
  { unfold crc_bit. rewrite Z.shiftl_spec, Z.testbit_neg_r by lia.
    rewrite Z.shiftr_shiftl_l by lia. f_equal. lia. }
  by rewrite Nat.iter_succ_r, E.
Qed.

Lemma low_high x : Z.lxor (Z.land x 255) (Z.shiftl (Z.shiftr x 8) 8) = x.
Proof.
  apply Z.bits_inj'. intros n Hn. change 255 with (Z.ones 8).
  rewrite Z.lxor_spec, Z.land_spec, Z.shiftl_spec by lia.
  destruct (Z.ltb_spec n 8).
  - rewrite Z.ones_spec_low, (Z.testbit_neg_r _ (n - 8)), andb_true_r, xorb_false_r by lia. done.
  - rewrite Z.ones_spec_high, andb_false_r, xorb_false_l, Z.shiftr_spec by lia. f_equal. lia.
Qed.

Lemma crc_lookup_entry i : 0 <= i < 256 -> crc_lookup i = crc_entry i.
Proof.
  intros Hi. unfold crc_lookup, crc_table. rewrite !list_lookup_fmap.
  rewrite (lookup_seq_lt 0 256 (Z.to_nat i)) by lia.
  cbn [fmap option_fmap option_map from_option]. unfold id. f_equal. lia.
Qed.

(** One step of the table is eight steps of the shift register. *)
Lemma crc_update_bitwise crc b : byte_ok b -> crc_update crc b = crc_update_ref crc b.
Proof.
  intros Hb. unfold crc_update, crc_update_ref, byte_ok in *.
  rewrite <-(low_high (Z.lxor crc b)) at 2. rewrite crc_iter_lxor.
  change (Z.shiftl (Z.shiftr (Z.lxor crc b) 8) 8)
    with (Z.shiftl (Z.shiftr (Z.lxor crc b) 8) (Z.of_nat 8)).
  rewrite crc_iter_shiftl, Z.shiftr_lxor.
  assert (Z.shiftr b 8 = 0) as ->.
  { rewrite Z.shiftr_div_pow2 by lia. apply Z.div_small. lia. }
  rewrite Z.lxor_0_r, crc_lookup_entry; [done|].
  change 255 with (Z.ones 8). rewrite Z.land_ones by lia. apply Z.mod_pos_bound. lia.
Qed.

Lemma crc_fold_bitwise data crc :
  Forall byte_ok data -> foldl crc_update crc data = foldl crc_update_ref crc data.
Proof.
  intros Hd. revert crc. induction Hd as [|b data Hb _ IH]; intros crc; [done|].
  cbn [foldl]. by rewrite crc_update_bitwise, IH.
Qed.

Lemma shiftr1_range x n : 0 <= x < 2 ^ (n + 1) -> 0 <= n -> 0 <= Z.shiftr x 1 < 2 ^ n.
Proof.
  intros Hx Hn. rewrite Z.shiftr_div_pow2 by lia. change (2 ^ 1) with 2.
  rewrite Z.pow_add_r in Hx by lia. change (2 ^ 1) with 2 in Hx.
  split; [apply Z.div_pos; lia|]. apply Z.div_lt_upper_bound; lia.
Qed.

Lemma lxor_range x y n : 0 <= n -> 0 <= x < 2 ^ n -> 0 <= y < 2 ^ n -> 0 <= Z.lxor x y < 2 ^ n.
Proof.
  intros Hn Hx Hy. assert (0 <= Z.lxor x y) as H0 by (apply Z.lxor_nonneg; lia).
  split; [done|]. destruct (Z.eq_dec (Z.lxor x y) 0) as [->|]; [lia|].
  apply Z.log2_lt_pow2; [lia|]. eapply Z.le_lt_trans; [apply Z.log2_lxor; lia|].
  assert (forall z, 0 <= z < 2 ^ n -> 0 < n -> Z.log2 z < n) as Hlog.
  { intros z Hz Hn0. destruct (Z.eq_dec z 0) as [->|]; [done|]. apply Z.log2_lt_pow2; lia. }
  destruct (Z.eq_dec n 0) as [->|]; [|apply Z.max_lub_lt; apply Hlog; lia].
  change (2 ^ 0) with 1 in *. assert (x = 0) as -> by lia. assert (y = 0) as -> by lia. done.
Qed.

Lemma crc_bit_range x : 0 <= x < 2 ^ 32 -> 0 <= crc_bit x < 2 ^ 32.
Proof.
  intros Hx. unfold crc_bit. pose proof (shiftr1_range x 31 Hx ltac:(lia)).
  destruct (Z.testbit x 0); [apply lxor_range; lia|lia].
Qed.

(** No 32-bit state but zero is sent to zero: the register is a permutation. *)
Lemma crc_bit_zero x : 0 <= x < 2 ^ 32 -> crc_bit x = 0 -> x = 0.
Proof.
  intros Hx. unfold crc_bit. pose proof (shiftr1_range x 31 Hx ltac:(lia)) as Hs.
  destruct (Z.testbit x 0) eqn:Hb; intros E.
  - apply Z.lxor_eq in E. lia.
  - rewrite Z.shiftr_div_pow2 in E by lia. change (2 ^ 1) with 2 in E.
    rewrite Z.bit0_odd in Hb. pose proof (Z.div_mod x 2 ltac:(lia)). rewrite Zmod_odd, Hb in *. lia.
Qed.

Lemma crc_iter_range n x : 0 <= x < 2 ^ 32 -> 0 <= Nat.iter n crc_bit x < 2 ^ 32.
Proof. intros Hx. induction n; simpl; [done|by apply crc_bit_range]. Qed.

Lemma crc_iter_inj n x y :
  0 <= x < 2 ^ 32 -> 0 <= y < 2 ^ 32 -> Nat.iter n crc_bit x = Nat.iter n crc_bit y -> x = y.
Proof.
  intros Hx Hy E. apply Z.lxor_eq.
  pose proof (lxor_range x y 32 ltac:(lia) Hx Hy) as Hxy.
  assert (Nat.iter n crc_bit (Z.lxor x y) = 0) as E0.
  { rewrite crc_iter_lxor, E. apply Z.lxor_nilpotent. }
  clear E. induction n as [|n IH]; [done|]. apply IH.
  apply crc_bit_zero; [by apply crc_iter_range|done].
Qed.

Lemma byte_u32 b : byte_ok b -> 0 <= b < 2 ^ 32.
Proof. unfold byte_ok. lia. Qed.

Lemma crc_update_ref_range crc b :
  byte_ok b -> 0 <= crc < 2 ^ 32 -> 0 <= crc_update_ref crc b < 2 ^ 32.
Proof. intros Hb Hc. apply crc_iter_range, lxor_range; [lia|done|by apply byte_u32]. Qed.

Lemma lxor_cancel_r x y z : Z.lxor x z = Z.lxor y z -> x = y.
Proof.
  intros E. apply (f_equal (fun w => Z.lxor w z)) in E.
  by rewrite !Z.lxor_assoc, !Z.lxor_nilpotent, !Z.lxor_0_r in E.
Qed.

Lemma crc_update_ref_inj c1 c2 b :
  byte_ok b -> 0 <= c1 < 2 ^ 32 -> 0 <= c2 < 2 ^ 32 ->
  crc_update_ref c1 b = crc_update_ref c2 b -> c1 = c2.
Proof.
  intros Hb H1 H2 E. apply crc_iter_inj in E; [by eapply lxor_cancel_r| |];
    (apply lxor_range; [lia|done|by apply byte_u32]).
Qed.

Lemma crc_fold_range data crc :
  Forall byte_ok data -> 0 <= crc < 2 ^ 32 -> 0 <= foldl crc_update_ref crc data < 2 ^ 32.
Proof.
  intros Hd. revert crc. induction Hd as [|b data Hb _ IH]; intros crc Hc; [done|].
  cbn [foldl]. by apply IH, crc_update_ref_range.
Qed.

Lemma crc_fold_inj data c1 c2 :
  Forall byte_ok data -> 0 <= c1 < 2 ^ 32 -> 0 <= c2 < 2 ^ 32 ->
  foldl crc_update_ref c1 data = foldl crc_update_ref c2 data -> c1 = c2.
Proof.
  intros Hd. revert c1 c2. induction Hd as [|b data Hb _ IH]; intros c1 c2 H1 H2; [done|].
  cbn [foldl]. intros E. apply IH in E; [|by apply crc_update_ref_range..].
  by eapply crc_update_ref_inj.
Qed.

Lemma crc32_range data : Forall byte_ok data -> 0 <= crc32 data < u32_mod.
Proof.
  intros Hd. unfold crc32. rewrite crc_fold_bitwise by done. change u32_mod with (2 ^ 32).
  apply lxor_range; [lia|apply crc_fold_range; [done|]|]; unfold u32_max; lia.
Qed.

(** Replacing one byte changes the checksum. *)
Lemma crc32_one_byte a x y b :
  Forall byte_ok (a ++ x :: b) -> byte_ok y -> x ≠ y -> crc32 (a ++ x :: b) ≠ crc32 (a ++ y :: b).
Proof.
  intros Hd Hy Hne E. apply Forall_app in Hd as [Ha Hd]. apply Forall_cons in Hd as [Hx Hb].
  unfold crc32 in E. apply lxor_cancel_r in E. rewrite !foldl_app in E. cbn [foldl] in E.
  rewrite (crc_fold_bitwise a) in E by done. set (c := foldl crc_update_ref u32_max a) in E.
  assert (0 <= c < 2 ^ 32) as Hc by (apply crc_fold_range; [done|unfold u32_max; lia]).
  rewrite !crc_fold_bitwise, !crc_update_bitwise in E by done.
  apply crc_fold_inj in E; [|done|by apply crc_update_ref_range..].
  apply crc_iter_inj in E; [|(apply lxor_range; [lia|done|by apply byte_u32])..].
  rewrite !(Z.lxor_comm c) in E. by apply lxor_cancel_r in E.
Qed.

(** ** Lemmas: readers invert writers *)

Lemma bind_ok {A B} (m : reader A) (f : A -> reader B) input a rest :
  m input = IoOk (a, rest) -> (m ≫= f) input = f a rest.
Proof. intros E. unfold mbind, reader_bind. by rewrite E. Qed.

Lemma read_exact_app n b rest : length b = n -> read_exact n (b ++ rest) = IoOk (b, rest).
Proof.
  intros <-. unfold read_exact. rewrite length_app, bool_decide_eq_false_2 by lia.
  by rewrite take_app_length, drop_app_length.
Qed.

Lemma read_exact_short n input : (length input < n)%nat -> read_exact n input = IoErr UnexpectedEof.
Proof. intros. unfold read_exact. by rewrite bool_decide_eq_true_2. Qed.

#[export] Instance rt_u32 : RoundTrip write_u32 read_u32 u32_ok.
Proof.
  intros v rest Hv. unfold read_u32, write_u32.
  rewrite (bind_ok _ _ _ _ _ (read_exact_app _ _ _ (length_le_bytes 4 v))).
  unfold mret, reader_ret. by rewrite le_u32_roundtrip.
Qed.

#[export] Instance rt_f32 : RoundTrip write_f32 read_f32 u32_ok := rt_u32.

#[export] Instance rt_f64 : RoundTrip write_f64 read_f64 u64_ok.
Proof.
  intros v rest Hv. unfold read_f64, write_f64.
  rewrite (bind_ok _ _ _ _ _ (read_exact_app _ _ _ (length_le_bytes 8 v))).
  unfold mret, reader_ret. by rewrite le_u64_roundtrip.
Qed.

#[export] Instance rt_i64 : RoundTrip write_i64 read_i64 i64_ok.
Proof.
  intros v rest Hv. unfold read_i64, write_i64.
  rewrite (bind_ok _ _ _ _ _ (read_exact_app _ _ _ (length_le_bytes 8 v))).
  unfold mret, reader_ret. rewrite le_decode_le_bytes. do 2 f_equal.
  unfold i64_ok in Hv. rewrite <-(as_i64_small v Hv) at 2. unfold as_i64.
  rewrite Zminus_mod_idemp_l. done.
Qed.

Lemma as_u32_len {A} (l : list A) : zlen l < u32_mod -> as_u32 (zlen l) = zlen l.
Proof. intros. apply as_u32_small. split; [apply zlen_nonneg|done]. Qed.

Lemma len_u32_ok {A} (l : list A) : zlen l < u32_mod -> u32_ok (zlen l).
Proof. split; [apply zlen_nonneg|done]. Qed.

#[export] Instance rt_bytes : RoundTrip write_bytes read_bytes bytes_ok.
Proof.
  intros b rest Hb. unfold read_bytes, write_bytes, bytes_ok in *.
  rewrite as_u32_len, <-(assoc_L (++)) by done.
  rewrite (bind_ok _ _ _ _ _ (rt_u32 (zlen b) (b ++ rest) (len_u32_ok b Hb))).
  unfold read_take. destruct (Z.ltb_spec (zlen (b ++ rest)) (zlen b)) as [H|H].
  - rewrite zlen_app in H. pose proof (zlen_nonneg rest). lia.
  - unfold zlen. rewrite Nat2Z.id. by rewrite take_app_length, drop_app_length.
Qed.

#[export] Instance rt_string : RoundTrip write_bytes read_string string_ok.
Proof.
  intros b rest [Hb Hu]. unfold read_string.
  rewrite (bind_ok _ _ _ _ _ (rt_bytes b rest Hb)). by rewrite Hu.
Qed.

#[export] Instance rt_pair {A B} (wa : A -> bytes) ra P (wb : B -> bytes) rb Q :
  RoundTrip wa ra P -> RoundTrip wb rb Q ->
  RoundTrip (fun p => wa p.1 ++ wb p.2) (read_pair ra rb) (pair_ok P Q).
Proof.
  intros Ha Hb [a b] rest [HP HQ]. cbn [fst snd] in *. unfold read_pair.
  rewrite <-(assoc_L (++)), (bind_ok _ _ _ _ _ (Ha a (wb b ++ rest) HP)).
  by rewrite (bind_ok _ _ _ _ _ (Hb b rest HQ)).
Qed.

Lemma read_n_ok {A} (w : A -> bytes) r P (RT : RoundTrip w r P) l rest :
  Forall P l -> read_n (length l) r (concat (w <$> l) ++ rest) = IoOk (l, rest).
Proof.
  intros HP. revert rest. induction HP as [|a l Ha _ IH]; intros rest; [done|].
  rewrite fmap_cons, concat_cons, <-(assoc_L (++)). cbn [length read_n].
  rewrite (bind_ok _ _ _ _ _ (RT a _ Ha)). by rewrite (bind_ok _ _ _ _ _ (IH rest)).
Qed.

#[export] Instance rt_vec {A} (w : A -> bytes) r P :
  RoundTrip w r P -> RoundTrip (write_vec w) (read_vec r) (vec_ok P).
Proof.
  intros RT l rest [Hl HP]. unfold read_vec, write_vec.
  rewrite as_u32_len, <-(assoc_L (++)) by done.
  rewrite (bind_ok _ _ _ _ _ (rt_u32 (zlen l) _ (len_u32_ok l Hl))).
  unfold zlen. rewrite Nat2Z.id. by apply (read_n_ok w r P).
Qed.

#[export] Instance rt_kv : RoundTrip write_kv read_kv (pair_ok string_ok bytes_ok) :=
  rt_pair _ _ _ _ _ _ rt_string rt_bytes.
#[export] Instance rt_label : RoundTrip write_kv read_label (pair_ok string_ok string_ok) :=
  rt_pair _ _ _ _ _ _ rt_string rt_string.
#[export] Instance rt_expiry : RoundTrip write_expiry read_expiry (pair_ok string_ok i64_ok) :=
  rt_pair _ _ _ _ _ _ rt_string rt_i64.
#[export] Instance rt_scored : RoundTrip write_scored read_scored (pair_ok string_ok u64_ok) :=
  rt_pair _ _ _ _ _ _ rt_string rt_f64.
#[export] Instance rt_sample : RoundTrip write_sample read_sample (pair_ok i64_ok u64_ok) :=
  rt_pair _ _ _ _ _ _ rt_i64 rt_f64.
#[export] Instance rt_stream_entry : RoundTrip write_stream_entry read_stream_entry
    (pair_ok string_ok (vec_ok (pair_ok string_ok bytes_ok))) :=
  rt_pair _ _ _ _ _ _ rt_string (rt_vec _ _ _ rt_kv).
#[export] Instance rt_consumer : RoundTrip write_consumer read_consumer
    (pair_ok string_ok (vec_ok string_ok)) :=
  rt_pair _ _ _ _ _ _ rt_string (rt_vec _ _ _ rt_string).

(** One step of a reader on the encoding of a component: the instance is found by resolution, its
    validity condition among the hypotheses. *)
Ltac read_with m f w a rest :=
  let H := fresh in
  pose proof (round_trip (write := w) (read := m)) as H;
  rewrite (bind_ok m f (w a ++ rest) a rest (H a rest ltac:(assumption))); clear H.

Ltac read_step :=
  rewrite <-?(assoc_L (++));
  match goal with
  | |- (?m ≫= ?f) (?w ?a ++ ?rest) = _ => read_with m f w a rest
  end.

Lemma min_u32_ok n : 0 <= n -> u32_ok (Z.min n u32_max).
Proof. unfold u32_ok, u32_max, u32_mod. lia. Qed.

Lemma rt_pending p rest :
  pending_ok p -> read_pending (write_pending p ++ rest) = IoOk (stored_pending p, rest).
Proof.
  destruct p as [[id consumer] n]. intros (Hi & Hc & Hn). cbn [fst snd] in *.
  unfold read_pending, write_pending. cbn [fst snd].
  pose proof (min_u32_ok n Hn). do 3 read_step. done.
Qed.

Lemma read_n_map {A} (w : A -> bytes) (norm : A -> A) r P l rest :
  (forall a rest, P a -> r (w a ++ rest) = IoOk (norm a, rest)) ->
  Forall P l -> read_n (length l) r (concat (w <$> l) ++ rest) = IoOk (norm <$> l, rest).
Proof.
  intros RT HP. revert rest. induction HP as [|a l Ha _ IH]; intros rest; [done|].
  rewrite fmap_cons, concat_cons, <-(assoc_L (++)). cbn [length read_n].
  rewrite (bind_ok _ _ _ _ _ (RT a _ Ha)). by rewrite (bind_ok _ _ _ _ _ (IH rest)).
Qed.

Lemma read_vec_map {A} (w : A -> bytes) (norm : A -> A) r P l rest :
  (forall a rest, P a -> r (w a ++ rest) = IoOk (norm a, rest)) ->
  vec_ok P l -> read_vec r (write_vec w l ++ rest) = IoOk (norm <$> l, rest).
Proof.
  intros RT [Hl HP]. unfold read_vec, write_vec.
  rewrite as_u32_len, <-(assoc_L (++)) by done.
  rewrite (bind_ok _ _ _ _ _ (rt_u32 (zlen l) _ (len_u32_ok l Hl))).
  unfold zlen. rewrite Nat2Z.id. by eapply read_n_map.
Qed.

Lemma rt_group g rest :
  group_ok g -> read_group (write_group g ++ rest) = IoOk (stored_group g, rest).
Proof.
  destruct g as [[[name last] consumers] pending]. intros (Hn & Hl & Hc & Hp).
  unfold read_group, write_group. do 3 read_step.
  by rewrite (bind_ok _ _ _ _ _ (read_vec_map _ _ _ _ _ rest rt_pending Hp)).
Qed.

Lemma read_u32_split {A} (f : Z -> reader A) input :
  (first ← read_exact 1; rest ← read_exact 3; f (le_decode (first ++ rest)) : reader A) input =
  (n ← read_u32; f n : reader A) input.
Proof.
  unfold read_u32, read_exact, mbind, reader_bind, mret, reader_ret.
  destruct input as [|a [|b [|c [|d input]]]]; reflexivity.
Qed.

Lemma rt_groups groups rest :
  vec_ok group_ok groups ->
  read_stream_groups (write_stream_groups groups ++ rest) = IoOk (stored_group <$> groups, rest).
Proof.
  intros Hg. unfold read_stream_groups.
  assert (write_stream_groups groups ++ rest ≠ []) as Hne.
  { unfold write_stream_groups, write_vec, write_u32. cbn [le_bytes app]. done. }
  destruct (write_stream_groups groups ++ rest) as [|b l] eqn:E; [done|]. rewrite <-E.
  rewrite (read_u32_split (fun n => read_n (Z.to_nat n) read_group)).
  exact (read_vec_map _ _ _ _ _ rest rt_group Hg).
Qed.

Lemma rt_registers regs rest :
  Hll.regs_ok regs ->
  (len ← read_u32; read_registers len : reader bytes) (write_u32 (as_u32 (zlen regs)) ++ regs ++ rest)
  = IoOk (regs, rest).
Proof.
  intros [Hl Hv]. assert (zlen regs = 16384) as Hz.
  { unfold zlen. rewrite Hl. unfold Hll.HLL_REGISTERS. lia. }
  rewrite as_u32_len by (rewrite Hz; done).
  rewrite (bind_ok _ _ _ _ _ (rt_u32 (zlen regs) _ (len_u32_ok regs ltac:(rewrite Hz; done)))).
  unfold read_registers.
  replace (zlen regs =? Z.of_nat Hll.HLL_REGISTERS) with true
    by (symmetry; apply Z.eqb_eq; unfold zlen; by rewrite Hl).
  cbn [negb]. rewrite (bind_ok _ _ _ _ _ (read_exact_app _ regs rest Hl)).
  replace (existsb _ regs) with false; [done|]. symmetry. apply not_true_is_false.
  intros (v & Hin & Hgt)%existsb_exists. rewrite Forall_forall in Hv.
  specialize (Hv v ltac:(by apply list_elem_of_In)). cbn in Hv. lia.
Qed.

Lemma read_u8_cons b rest : read_u8 (b :: rest) = IoOk (b, rest).
Proof. unfold read_u8. by rewrite (bind_ok _ _ _ _ _ (read_exact_app 1 [b] rest eq_refl)). Qed.

Lemma stored_ttl_ok ttl : i64_ok ttl -> i64_ok (stored_ttl ttl).
Proof. unfold stored_ttl, i64_ok, i64_min, i64_max. destruct (Z.gtb_spec ttl 0); lia. Qed.

Lemma as_i64_u64 z : u64_ok z -> i64_ok (as_i64 z) /\ as_u64 (as_i64 z) = z.
Proof.
  intros Hz. split; [apply as_i64_range|]. unfold as_u64, as_i64, u64_ok in *.
  rewrite Zplus_mod_idemp_l. replace (z - i64_min + i64_min) with z by lia.
  by apply Z.mod_small.
Qed.

Lemma rt_value hll_count v rest :
  value_ok v ->
  read_value hll_count (type_byte v) (write_value v ++ rest) = IoOk (stored_value hll_count v, rest).
Proof.
  destruct v as [v|items|pairs expiries|members|members|entries last groups|data meta enc|regs cached
                |samples retention labels]; intros Hv; cbn [value_ok] in Hv.
  - unfold read_value. cbn [type_byte Z.eqb Pos.eqb orb write_value]. read_step. done.
  - unfold read_value. cbn [type_byte Z.eqb Pos.eqb orb write_value]. read_step. done.
  - destruct Hv as [Hp He]. destruct expiries as [|e expiries]; cbn [type_byte write_value];
      unfold read_value; cbn [Z.eqb Pos.eqb orb].
    + rewrite app_nil_r. read_step. done.
    + read_step. read_step. done.
  - unfold read_value. cbn [type_byte Z.eqb Pos.eqb orb write_value]. read_step. done.
  - unfold read_value. cbn [type_byte Z.eqb Pos.eqb orb write_value]. read_step. done.
  - destruct Hv as (He & Hl & Hg). unfold read_value.
    cbn [type_byte Z.eqb Pos.eqb orb write_value]. read_step. read_step.
    by rewrite (bind_ok _ _ _ _ _ (rt_groups groups rest Hg)).
  - destruct Hv as [Hd Hm]. unfold read_value. cbn [type_byte Z.eqb Pos.eqb orb write_value].
    read_step. destruct meta as [m|]; cbn [app]; rewrite (bind_ok _ _ _ _ _ (read_u8_cons _ _));
      cbn [Z.eqb Pos.eqb]; [|done].
    rewrite (bind_ok _ _ (write_bytes m ++ rest) (Some m) rest); [done|]. read_step. done.
  - unfold read_value. cbn [type_byte Z.eqb Pos.eqb orb write_value]. rewrite <-(assoc_L (++)).
    pose proof (rt_registers regs rest Hv) as E. unfold mbind, reader_bind in *.
    destruct (read_u32 _) as [[n r]|]; [|done]. by rewrite E.
  - destruct Hv as (Hs & Hr & Hl). unfold read_value.
    cbn [type_byte Z.eqb Pos.eqb orb write_value].
    destruct (as_i64_u64 retention Hr) as [Hri Hru].
    read_step. read_step. read_step. unfold mret, reader_ret. by rewrite Hru.
Qed.

Lemma rt_entry hll_count e rest :
  entry_ok e ->
  read_single_entry hll_count (write_single_entry e ++ rest) =
    IoOk ((d_key e, stored_value hll_count (d_value e), stored_ttl (d_ttl_ms e)), rest).
Proof.
  intros (Hk & Ht & Hv). destruct e as [key v ttl]. unfold read_single_entry, write_single_entry.
  cbn [d_key d_value d_ttl_ms] in *. apply stored_ttl_ok in Ht. cbn [app].
  rewrite (bind_ok _ _ _ _ _ (read_u8_cons _ _)). do 2 read_step.
  by rewrite (bind_ok _ _ _ _ _ (rt_value hll_count v rest Hv)).
Qed.

(** The entry format round-trips: for every entry whose sizes fit the format and whose
    strings are UTF-8, [read_single_entry] on the bytes of [write_single_entry], whatever follows
    them, gives the key, the value and the TTL back and leaves exactly what followed. The
    exceptions are those of [stored_value] and of [stored_ttl]: a TTL that is not positive is
    stored as [-1], no expiry. *)
Theorem entry_roundtrip (hll_count : bytes -> Z) (e : DumpEntry) (rest : bytes) :
  entry_ok e ->
  read_single_entry hll_count (write_single_entry e ++ rest) =
    IoOk ((d_key e, stored_value hll_count (d_value e), stored_ttl (d_ttl_ms e)), rest).
Proof. apply rt_entry. Qed.

Definition sample_entry : DumpEntry :=
  mkDumpEntry (bs "s") (DStream [(bs "1-0", [(bs "f", [255])])] (bs "1-0")
    [(bs "g", bs "1-0", [(bs "c", [bs "1-0"])], [(bs "1-0", bs "c", 3)])]) 250.

Lemma entry_roundtrip_witness :
  read_single_entry (fun _ => 0) (write_single_entry sample_entry ++ [7]) =
    IoOk ((bs "s", d_value sample_entry, 250), [7]).
Proof.
  assert (forall l, is_utf8 l = true -> (zlen l <? u32_mod) = true -> string_ok l) as Hs.
  { intros l Hu Hl. split; [apply Z.ltb_lt; exact Hl|exact Hu]. }
  apply (entry_roundtrip (fun _ => 0) sample_entry [7]).
  split; [apply Hs; reflexivity|]. split; [unfold i64_ok, i64_min, i64_max; simpl; lia|].
  cbn [value_ok sample_entry d_value].
  repeat first [split | apply Forall_cons | apply Forall_nil | apply Hs]; try reflexivity;
    try exact I; simpl; lia.
Defined.

(** The table-driven checksum is the bitwise CRC-32 (polynomial 0xEDB88320, reflected), and
    it detects every corruption of a single byte: two strings that differ in one byte have
    different checksums. *)
Theorem crc32_correct (a b : bytes) (x y : Z) :
  Forall byte_ok (a ++ x :: b) -> byte_ok y ->
  crc32 (a ++ x :: b) = crc32_ref (a ++ x :: b) /\
  (x ≠ y -> crc32 (a ++ x :: b) ≠ crc32 (a ++ y :: b)).
Proof.
  intros Hd Hy. split; [|by apply crc32_one_byte].
  unfold crc32, crc32_ref. by rewrite crc_fold_bitwise.
Qed.

(** The check value of CRC-32: the checksum of the nine digits. *)
Lemma crc32_correct_witness :
  crc32 (bs "123456789") = crc32_ref (bs "123456789") /\ crc32 (bs "123456789") = 3421780262 /\
  crc32 (bs "123456789") ≠ crc32 (bs "123056789").
Proof.
  assert (Forall byte_ok (bs "123" ++ 52 :: bs "56789")) as Hd.
  { repeat constructor; vm_compute; intros; discriminate. }
  assert (byte_ok 48) as Hy by (unfold byte_ok; lia).
  destruct (crc32_correct (bs "123") (bs "56789") 52 48 Hd Hy) as [E Hne].
  split; [exact E|]. split; [vm_compute; reflexivity|]. apply Hne. discriminate.
Defined.

End Codec.
