(* ===== verification/Wal.v ===== *)
(** * Write-ahead log ([src/src/disk.rs], lines 94-1117)

    The journal of resolved mutations: frames, batches and checked commands, appending with its
    rollback, opening, replay from a snapshot's checkpoint, and rotation after a snapshot.

    A [Wal] is the content of the file with what [open_in] learned from its header; the file is
    opened for appending, so between operations its cursor is at the end. What a crash leaves of an
    append is any prefix of the appended bytes. Fresh random generations are arguments. *)

From S2P Require Import Prelude.
From S2P Require Import Codec.
Local Open Scope Z_scope.

Module Wal.
Import Codec.Codec.

Definition WAL_MAGIC_V1 : bytes := bs "LXW1".
Definition WAL_MAGIC_V2 : bytes := bs "LXW2".
Definition WAL_MAGIC : bytes := bs "LXW3".
Definition WAL_GENERATION_LEN : nat := 16.
Definition WAL_HEADER_V2_LEN : nat := 20.
Definition WAL_HEADER_LEN : nat := 24.
Definition WAL_FRAME_MAGIC : bytes := bs "LXF1".
Definition LEGACY_WAL_GENERATION : bytes := replicate WAL_GENERATION_LEN 0.
Definition MAX_WAL_FRAME_BYTES : Z := 512 * 1024 * 1024.
Definition WAL_BATCH_MARKER : bytes := 0 :: bs "LUX:BATCH".
Definition WAL_CHECKED_MARKER : bytes := 0 :: bs "LUX:CHECKED".

Inductive WalFrameFormat := Legacy | Checksummed | Guarded.

#[export] Instance WalFrameFormat_eq_dec : EqDecision WalFrameFormat.
Proof. solve_decision. Defined.

Record Wal := mkWal {
  file : bytes;
  frame_format : WalFrameFormat;
  header_len : nat;
  generation : bytes
}.

Definition set_file (f : bytes) (w : Wal) : Wal :=
  mkWal f (frame_format w) (header_len w) (generation w).

Record WalCheckpoint := mkCheckpoint {
  cp_generation : bytes;
  cp_offset : nat;
  cp_successor : option bytes
}.

Record WalReplay := mkReplay {
  replayed : list (list bytes);
  checked_tail_offset : option nat
}.

(** ** Headers *)

Definition wal_header_crc (generation : bytes) : Z := crc32 (WAL_MAGIC ++ generation).

Definition wal_header_bytes (generation : bytes) : bytes :=
  WAL_MAGIC ++ generation ++ write_u32 (wal_header_crc generation).

(** [WalCheckpoint::detached]: [fresh] and [fresh'] are two new random generations. *)
Definition detached (fresh fresh' : bytes) : WalCheckpoint :=
  mkCheckpoint fresh WAL_HEADER_LEN (Some fresh').

(** [open_in] on the content of [wal.lux] (empty when it does not exist). *)
Definition open_in (content : bytes) (create : bool) (initial_generation : option bytes)
    (fresh : bytes) : io Wal :=
  match content with
  | [] =>
      if negb create then
        IoErr (InvalidData "journal is empty; refusing to initialize it beside an existing snapshot")
      else
        let generation := default fresh initial_generation in
        IoOk (mkWal (wal_header_bytes generation) Guarded WAL_HEADER_LEN generation)
  | _ =>
      '(magic, rest) ← read_exact 4 content;
      if bytes_eqb magic WAL_MAGIC then
        match read_exact WAL_GENERATION_LEN rest with
        | IoErr _ => IoErr (InvalidData "truncated LXW3 WAL header")
        | IoOk (generation, rest) =>
            match read_u32 rest with
            | IoErr _ => IoErr (InvalidData "truncated LXW3 WAL header checksum")
            | IoOk (stored_crc, _) =>
                if negb (stored_crc =? wal_header_crc generation)
                then IoErr (InvalidData "LXW3 WAL header checksum mismatch")
                else IoOk (mkWal content Guarded WAL_HEADER_LEN generation)
            end
        end
      else if bytes_eqb magic WAL_MAGIC_V2 then
        match read_exact WAL_GENERATION_LEN rest with
        | IoErr _ => IoErr (InvalidData "truncated LXW2 WAL header")
        | IoOk (generation, _) => IoOk (mkWal content Checksummed WAL_HEADER_V2_LEN generation)
        end
      else if bytes_eqb magic WAL_MAGIC_V1
      then IoOk (mkWal content Checksummed (length WAL_MAGIC_V1) LEGACY_WAL_GENERATION)
      else IoOk (mkWal content Legacy 0 LEGACY_WAL_GENERATION)
  end.

(** The checks of [open_named] and [create_named_with_generation]. *)
Definition is_wal_name_byte (b : Z) : bool :=
  in_rng 48 57 b || in_rng 65 90 b || in_rng 97 122 b || (b =? 95) || (b =? 45).

Definition wal_name_ok (name : bytes) : bool :=
  negb (bool_decide (name = [])) && forallb is_wal_name_byte name.

Definition open_named_with_create (name content : bytes) (create : bool) (fresh : bytes) : io Wal :=
  if negb (wal_name_ok name) then IoErr (InvalidInput "invalid WAL name")
  else open_in content create None fresh.

Definition create_named_with_generation (name content gen fresh : bytes) : io Wal :=
  if negb (wal_name_ok name) then IoErr (InvalidInput "invalid WAL name")
  else if bytes_eqb gen LEGACY_WAL_GENERATION
  then IoErr (InvalidInput "invalid zero WAL generation")
  else
    wal ← open_in content true (Some gen) fresh;
    if negb (bytes_eqb (generation wal) gen)
    then IoErr (InvalidData "existing WAL generation does not match the requested generation")
    else IoOk wal.

(** ** Frames *)

Definition encode_guarded_payload (payload : bytes) : bytes :=
  let frame_len := as_u32 (zlen payload) in
  WAL_FRAME_MAGIC ++ write_u32 frame_len ++ write_u32 (u32_max - frame_len) ++
  write_u32 (crc32 (write_u32 frame_len ++ payload)) ++ payload.

(** The payload of a command: the argument count, then each argument with its length. *)
Definition command_payload (args : list bytes) : bytes := write_vec write_bytes args.

Definition encode_payload (format : WalFrameFormat) (payload : bytes) : bytes :=
  match format with
  | Guarded => encode_guarded_payload payload
  | Checksummed =>
      write_u32 (as_u32 (4 + zlen payload)) ++ write_u32 (crc32 payload) ++ payload
  | Legacy => write_u32 (as_u32 (zlen payload)) ++ payload
  end.

Definition encode_command_frame (format : WalFrameFormat) (args : list bytes) : bytes :=
  encode_payload format (command_payload args).

Fixpoint encode_batch_args (args : list bytes) : io bytes :=
  match args with
  | [] => IoOk []
  | arg :: args =>
      if zlen arg >? u32_max then IoErr (InvalidInput "WAL argument is too large")
      else rest ← encode_batch_args args; IoOk (write_u32 (zlen arg) ++ arg ++ rest)
  end.

Fixpoint encode_batch_commands (commands : list (list bytes)) : io bytes :=
  match commands with
  | [] => IoOk []
  | command :: commands =>
      if zlen command >? u32_max then IoErr (InvalidInput "too many WAL arguments")
      else
        args ← encode_batch_args command;
        rest ← encode_batch_commands commands;
        IoOk (write_u32 (zlen command) ++ args ++ rest)
  end.

Definition encode_command_batch (commands : list (list bytes)) : io bytes :=
  if zlen commands >? u32_max then IoErr (InvalidInput "too many WAL commands")
  else out ← encode_batch_commands commands; IoOk (write_u32 (zlen commands) ++ out).

(** One command of a batch: an empty one is refused before its arguments. *)
Definition read_batch_command : reader (list bytes) :=
  argc ← read_u32;
  if argc =? 0 then fail (InvalidData "empty command in WAL batch")
  else read_n (Z.to_nat argc) read_bytes.

Definition decode_command_batch (input : bytes) : io (list (list bytes)) :=
  '(commands, rest) ← read_vec read_batch_command input;
  match rest with
  | [] => IoOk commands
  | _ => IoErr (InvalidData "trailing bytes in WAL batch")
  end.

(** The commands with those of the frame appended, and whether it was a checked one. *)
Definition decode_wal_payload (payload : bytes) (commands : list (list bytes))
    : io (list (list bytes) * bool) :=
  match read_u32 payload with
  | IoErr _ => IoErr (InvalidData "WAL frame has no argument count")
  | IoOk (argc, cursor) =>
      if argc =? 0 then IoErr (InvalidData "WAL frame contains an empty command")
      else match read_n (Z.to_nat argc) read_bytes cursor with
           | IoErr _ => IoErr (InvalidData "WAL frame contains a malformed argument")
           | IoOk (args, []) =>
               match args with
               | [marker; batch] =>
                   if bytes_eqb marker WAL_BATCH_MARKER then
                     decoded ← decode_command_batch batch; IoOk (commands ++ decoded, false)
                   else if bytes_eqb marker WAL_CHECKED_MARKER then
                     checked ← decode_command_batch batch;
                     match checked with
                     | [c] => IoOk (commands ++ [c], true)
                     | _ => IoErr (InvalidData "checked WAL frame must contain exactly one command")
                     end
                   else IoOk (commands ++ [args], false)
               | _ => IoOk (commands ++ [args], false)
               end
           | IoOk (_, _ :: _) => IoErr (InvalidData "WAL frame contains trailing bytes")
           end
  end.

(** [read_next_frame_payload_from] on the bytes from the cursor to the end of the file: the
    payload and the bytes after the frame, or nothing when the input ends inside a frame that may
    be torn. *)
Definition read_guarded (input : bytes) : io (option (bytes * bytes)) :=
  match read_exact 4 input with
  | IoErr _ => IoOk None
  | IoOk (magic, rest) =>
      if negb (bytes_eqb magic WAL_FRAME_MAGIC)
      then IoErr (InvalidData "WAL frame boundary marker is corrupt")
      else match read_pair read_u32 (read_pair read_u32 read_u32) rest with
           | IoErr _ => IoOk None
           | IoOk ((frame_len, (complement, stored_crc)), rest) =>
               if negb (complement =? u32_max - frame_len)
               then IoErr (InvalidData "WAL frame length guard is corrupt")
               else if frame_len >? MAX_WAL_FRAME_BYTES
               then IoErr (InvalidData "WAL frame length exceeds maximum")
               else if frame_len >? zlen rest then IoOk None
               else
                 let payload := take (Z.to_nat frame_len) rest in
                 if negb (stored_crc =? crc32 (write_u32 frame_len ++ payload))
                 then IoErr (InvalidData "WAL frame checksum mismatch")
                 else IoOk (Some (payload, drop (Z.to_nat frame_len) rest))
           end
  end.

Definition read_unguarded (legacy : bool) (input : bytes) : io (option (bytes * bytes)) :=
  match read_u32 input with
  | IoErr _ => IoOk None
  | IoOk (frame_len, rest) =>
      if frame_len >? MAX_WAL_FRAME_BYTES
      then IoErr (InvalidData "WAL frame length exceeds maximum")
      else if frame_len >? zlen rest then IoErr (InvalidData "legacy WAL ends inside a frame")
      else
        let frame := take (Z.to_nat frame_len) rest in
        let rest := drop (Z.to_nat frame_len) rest in
        if legacy then IoOk (Some (frame, rest))
        else if zlen frame <? 4
        then IoErr (InvalidData "WAL frame is too short for its checksum")
        else if negb (le_decode (take 4 frame) =? crc32 (drop 4 frame))
        then IoErr (InvalidData "WAL frame checksum mismatch")
        else IoOk (Some (drop 4 frame, rest))
  end.

Definition read_next_frame_payload (format : WalFrameFormat) (input : bytes)
    : io (option (bytes * bytes)) :=
  match input with
  | [] => IoOk None
  | _ =>
      match format with
      | Guarded => read_guarded input
      | Checksummed => read_unguarded false input
      | Legacy => read_unguarded true input
      end
  end.

(** ** Appending *)

(** What the operating system does with [write_all] and [flush]: everything is written, or the
    call fails after some bytes and [set_len] then removes them or fails too. *)
Inductive write_outcome :=
| Written
| WriteFailed (bytes_written : nat) (truncated : bool).

Definition append_encoded_frames (os : write_outcome) (frames : bytes) (w : Wal) : bool * Wal :=
  match os with
  | Written => (true, set_file (file w ++ frames) w)
  | WriteFailed n truncated =>
      (false, if truncated then w else set_file (file w ++ take n frames) w)
  end.

(** The frame of one logical mutation. *)
Definition batch_frame (format : WalFrameFormat) (commands : list (list bytes)) : io bytes :=
  match commands with
  | [command] => IoOk (encode_command_frame format command)
  | _ =>
      payload ← encode_command_batch commands;
      IoOk (encode_command_frame format [WAL_BATCH_MARKER; payload])
  end.

Definition append_commands (os : write_outcome) (commands : list (list bytes)) (w : Wal)
    : io bool * Wal :=
  match commands with
  | [] => (IoOk true, w)
  | _ =>
      match batch_frame (frame_format w) commands with
      | IoErr e => (IoErr e, w)
      | IoOk frame =>
          let '(ok, w) := append_encoded_frames os frame w in (IoOk ok, w)
      end
  end.

Definition append_checked_command (os : write_outcome) (args : list bytes) (w : Wal)
    : io bool * Wal :=
  match encode_command_batch [args] with
  | IoErr e => (IoErr e, w)
  | IoOk payload =>
      let '(ok, w) :=
        append_encoded_frames os
          (encode_command_frame (frame_format w) [WAL_CHECKED_MARKER; payload]) w in
      (IoOk ok, w)
  end.

Definition checkpoint (fresh : bytes) (w : Wal) : WalCheckpoint :=
  mkCheckpoint (generation w) (length (file w)) (Some fresh).

(** [set_len] truncates, or extends with zeros. *)
Definition rollback_to (offset : nat) (w : Wal) : Wal :=
  set_file (take offset (file w) ++ replicate (offset - length (file w)) 0) w.

(** ** Recovery *)

(** [while position < offset]. *)
Fixpoint validate_loop (fuel : nat) (format : WalFrameFormat) (position offset : nat) (input : bytes)
    : io unit :=
  if bool_decide (position < offset)%nat then
    match fuel with
    | O => IoErr (InvalidData "out of fuel")
    | S fuel =>
        frame ← read_next_frame_payload format input;
        match frame with
        | None => IoErr (InvalidData "snapshot WAL checkpoint does not fall on a frame boundary")
        | Some (_, rest) =>
            let position := (position + (length input - length rest))%nat in
            if bool_decide (offset < position)%nat
            then IoErr (InvalidData "snapshot WAL checkpoint does not fall on a frame boundary")
            else validate_loop fuel format position offset rest
        end
    end
  else IoOk tt.

(** Every frame is at least four bytes long, so one turn per byte is enough. *)
Definition validate_checkpoint_offset (offset : nat) (w : Wal) : io unit :=
  if bool_decide (offset < header_len w)%nat || bool_decide (length (file w) < offset)%nat
  then IoErr (InvalidData "snapshot WAL checkpoint is outside the journal")
  else validate_loop (length (file w)) (frame_format w) (header_len w) offset
         (drop (header_len w) (file w)).

(** The replay loop: the commands, the checked tail and where to roll back to, if anywhere. *)
Fixpoint replay_loop (fuel : nat) (format : WalFrameFormat) (position : nat) (input : bytes)
    (commands : list (list bytes)) (checked_tail : option nat)
    : io (list (list bytes) * option nat * option nat) :=
  match input with
  | [] => IoOk (commands, checked_tail, None)
  | _ =>
      match fuel with
      | O => IoErr (InvalidData "out of fuel")
      | S fuel =>
          frame ← read_next_frame_payload format input;
          match frame with
          | None => IoOk (commands, None, Some position)
          | Some (payload, rest) =>
              match decode_wal_payload payload commands with
              | IoErr e => IoErr e
              | IoOk (commands, checked) =>
                  replay_loop fuel format (position + (length input - length rest)) rest commands
                    (if checked then Some position else None)
              end
          end
      end
  end.

Definition replay_offset (cp : option WalCheckpoint) (w : Wal) : io nat :=
  match cp with
  | Some cp =>
      if bytes_eqb (cp_generation cp) (generation w) then
        _ ← validate_checkpoint_offset (cp_offset cp) w; IoOk (cp_offset cp)
      else match cp_successor cp with
           | Some successor =>
               if bytes_eqb successor (generation w) then IoOk (header_len w)
               else IoErr (InvalidData "journal generation does not match the snapshot checkpoint or its authorized successor")
           | None => IoOk (header_len w)
           end
  | None => IoOk (header_len w)
  end.

Definition replay_scan (cp : option WalCheckpoint) (w : Wal)
    : io (list (list bytes) * option nat * option nat) :=
  offset ← replay_offset cp w;
  replay_loop (length (file w)) (frame_format w) offset (drop offset (file w)) [] None.

Definition replay_from (cp : option WalCheckpoint) (w : Wal) : io WalReplay * Wal :=
  match file w with
  | [] => (IoOk (mkReplay [] None), w)
  | _ =>
      match replay_scan cp w with
      | IoErr e => (IoErr e, w)
      | IoOk (commands, tail, None) => (IoOk (mkReplay commands tail), w)
      | IoOk (commands, tail, Some start) => (IoOk (mkReplay commands tail), rollback_to start w)
      end
  end.

(** ** Rotation *)

(** Re-encoding the retained frames with guards. *)
Fixpoint retain_loop (fuel : nat) (format : WalFrameFormat) (input : bytes) : io bytes :=
  match input with
  | [] => IoOk []
  | _ =>
      match fuel with
      | O => IoErr (InvalidData "out of fuel")
      | S fuel =>
          frame ← read_next_frame_payload format input;
          match frame with
          | None => IoErr (InvalidData "WAL ends inside a frame after the snapshot checkpoint")
          | Some (payload, rest) =>
              kept ← retain_loop fuel format rest;
              IoOk (encode_guarded_payload payload ++ kept)
          end
      end
  end.

Definition replace_with (new_generation : bytes) (retained : option nat) (w : Wal) : io Wal :=
  if bytes_eqb new_generation LEGACY_WAL_GENERATION || bytes_eqb new_generation (generation w)
  then IoErr (InvalidInput "replacement WAL generation must be non-zero and new")
  else
    kept ← (match retained with
            | None => IoOk []
            | Some offset => retain_loop (length (file w)) (frame_format w) (drop offset (file w))
            end);
    IoOk (mkWal (wal_header_bytes new_generation ++ kept) Guarded WAL_HEADER_LEN new_generation).

Definition rotate_after (cp : WalCheckpoint) (w : Wal) : io Wal :=
  if negb (bytes_eqb (cp_generation cp) (generation w))
  then IoErr (InvalidData "WAL changed generation before checkpoint rotation")
  else match cp_successor cp with
       | None => IoErr (InvalidInput "checkpoint has no authorized successor WAL generation")
       | Some successor =>
           if bool_decide (cp_offset cp < header_len w)%nat
              || bool_decide (length (file w) < cp_offset cp)%nat
           then IoErr (InvalidData "snapshot WAL checkpoint is outside the journal")
           else replace_with successor (Some (cp_offset cp)) w
       end.

(** ** Logical mutations *)

(** What the store journals as one unit. *)
Inductive mutation :=
| MBatch (commands : list (list bytes))
| MChecked (args : list bytes).

Definition commands_of (m : mutation) : list (list bytes) :=
  match m with MBatch cs => cs | MChecked c => [c] end.

Definition is_checked (m : mutation) : bool :=
  match m with MBatch _ => false | MChecked _ => true end.

Definition batch_bytes (cs : list (list bytes)) : bytes := write_vec (write_vec write_bytes) cs.

Definition mutation_args (m : mutation) : list bytes :=
  match m with
  | MBatch [c] => c
  | MBatch cs => [WAL_BATCH_MARKER; batch_bytes cs]
  | MChecked c => [WAL_CHECKED_MARKER; batch_bytes [c]]
  end.

Definition mutation_frame (format : WalFrameFormat) (m : mutation) : bytes :=
  encode_command_frame format (mutation_args m).

Definition append_mutation (os : write_outcome) (m : mutation) (w : Wal) : io bool * Wal :=
  match m with
  | MBatch cs => append_commands os cs w
  | MChecked c => append_checked_command os c w
  end.

(** A command: at least one argument, sizes that fit the format. *)
Definition command_ok (c : list bytes) : Prop := c ≠ [] /\ vec_ok bytes_ok c.

Definition plain_command (c : list bytes) : Prop :=
  head c ≠ Some WAL_BATCH_MARKER /\ head c ≠ Some WAL_CHECKED_MARKER.

Definition payload_ok (p : bytes) : Prop := Forall byte_ok p /\ 4 + zlen p <= MAX_WAL_FRAME_BYTES.

(** A mutation the journal can hold: well-formed commands, none of them named like a marker, and a
    payload below the frame maximum. *)
Definition mutation_ok (m : mutation) : Prop :=
  commands_of m ≠ [] /\ vec_ok command_ok (commands_of m) /\
  Forall plain_command (commands_of m) /\
  payload_ok (command_payload (mutation_args m)) /\
  zlen (batch_bytes (commands_of m)) < u32_mod.

(** The journal after the mutations [ms], with the bytes [torn] of an interrupted append. *)
Definition journal (gen : bytes) (ms : list mutation) (torn : bytes) : Wal :=
  mkWal (wal_header_bytes gen ++ concat (mutation_frame Guarded <$> ms) ++ torn)
    Guarded WAL_HEADER_LEN gen.

Definition generation_ok (gen : bytes) : Prop :=
  length gen = WAL_GENERATION_LEN /\ Forall byte_ok gen /\ gen ≠ LEGACY_WAL_GENERATION.

(** Appending a sequence of mutations, every write succeeding. *)
Fixpoint append_all (ms : list mutation) (w : Wal) : option Wal :=
  match ms with
  | [] => Some w
  | m :: ms =>
      match append_mutation Written m w with
      | (IoOk true, w) => append_all ms w
      | _ => None
      end
  end.

(** The start of a final checked frame. *)
Fixpoint checked_tail (format : WalFrameFormat) (position : nat) (tail : option nat)
    (ms : list mutation) : option nat :=
  match ms with
  | [] => tail
  | m :: ms =>
      checked_tail format (position + length (mutation_frame format m))
        (if is_checked m then Some position else None) ms
  end.

Definition expected_replay (ms : list mutation) (torn : bytes) : WalReplay :=
  mkReplay (concat (commands_of <$> ms))
    (match torn with [] => checked_tail Guarded WAL_HEADER_LEN None ms | _ => None end).

(** ** Lemmas: batches and payloads *)

Lemma encode_batch_args_ok c :
  Forall bytes_ok c -> encode_batch_args c = IoOk (concat (write_bytes <$> c)).
Proof.
  induction 1 as [|a c Ha _ IH]; [done|]. rewrite fmap_cons, concat_cons. cbn [encode_batch_args].
  unfold bytes_ok, u32_mod in Ha.
  destruct (Z.gtb_spec (zlen a) u32_max) as [H|_]; [unfold u32_max in H; lia|].
  rewrite IH. cbn [mbind io_bind]. unfold write_bytes. rewrite as_u32_len by done.
  by rewrite <-(assoc_L (++)).
Qed.

Lemma encode_batch_commands_ok cs :
  Forall (vec_ok bytes_ok) cs ->
  encode_batch_commands cs = IoOk (concat (write_vec write_bytes <$> cs)).
Proof.
  induction 1 as [|c cs [Hl Hc] _ IH]; [done|]. rewrite fmap_cons, concat_cons.
  cbn [encode_batch_commands].
  destruct (Z.gtb_spec (zlen c) u32_max) as [H|_]; [unfold u32_max, u32_mod in *; lia|].
  rewrite encode_batch_args_ok, IH by done. cbn [mbind io_bind]. unfold write_vec at 2.
  rewrite as_u32_len by done. by rewrite <-(assoc_L (++)).
Qed.

Lemma encode_command_batch_ok cs :
  vec_ok (vec_ok bytes_ok) cs -> encode_command_batch cs = IoOk (batch_bytes cs).
Proof.
  intros [Hl Hc]. unfold encode_command_batch.
  destruct (Z.gtb_spec (zlen cs) u32_max) as [H|_]; [unfold u32_max, u32_mod in *; lia|].
  rewrite encode_batch_commands_ok by done. cbn [mbind io_bind]. unfold batch_bytes, write_vec at 2.
  by rewrite as_u32_len.
Qed.

#[export] Instance rt_batch_command :
  RoundTrip (write_vec write_bytes) read_batch_command command_ok.
Proof.
  intros c rest [Hne [Hl Hc]]. unfold read_batch_command, write_vec.
  rewrite as_u32_len, <-(assoc_L (++)) by done.
  rewrite (bind_ok _ _ _ _ _ (rt_u32 (zlen c) _ (len_u32_ok c Hl))).
  destruct (Z.eqb_spec (zlen c) 0) as [E|_]; [unfold zlen in E; destruct c; [done|simpl in E; lia]|].
  unfold zlen. rewrite Nat2Z.id. by apply (read_n_ok write_bytes read_bytes bytes_ok rt_bytes).
Qed.

Lemma decode_command_batch_ok cs :
  vec_ok command_ok cs -> decode_command_batch (batch_bytes cs) = IoOk cs.
Proof.
  intros Hc. unfold decode_command_batch, batch_bytes.
  pose proof (round_trip (write := write_vec (write_vec write_bytes))
    (read := read_vec read_batch_command) cs [] Hc) as E.
  rewrite app_nil_r in E. by rewrite E.
Qed.

Lemma command_ok_vec cs : vec_ok command_ok cs -> vec_ok (vec_ok bytes_ok) cs.
Proof. intros [Hl Hc]. split; [done|]. eapply Forall_impl; [done|]. by intros c [_ ?]. Qed.

(** A payload of well-formed arguments decodes to them. *)
Lemma decode_args args acc :
  command_ok args ->
  decode_wal_payload (command_payload args) acc =
    match args with
    | [marker; batch] =>
        if bytes_eqb marker WAL_BATCH_MARKER then
          decoded ← decode_command_batch batch; IoOk (acc ++ decoded, false)
        else if bytes_eqb marker WAL_CHECKED_MARKER then
          checked ← decode_command_batch batch;
          match checked with
          | [c] => IoOk (acc ++ [c], true)
          | _ => IoErr (InvalidData "checked WAL frame must contain exactly one command")
          end
        else IoOk (acc ++ [args], false)
    | _ => IoOk (acc ++ [args], false)
    end.
Proof.
  intros [Hne [Hl Hc]]. unfold decode_wal_payload, command_payload, write_vec.
  rewrite as_u32_len by done. rewrite (rt_u32 (zlen args) _ (len_u32_ok args Hl)).
  destruct (Z.eqb_spec (zlen args) 0) as [E|_];
    [unfold zlen in E; destruct args; [done|simpl in E; lia]|].
  pose proof (read_n_ok write_bytes read_bytes bytes_ok rt_bytes args [] Hc) as E.
  rewrite app_nil_r in E. unfold zlen. rewrite Nat2Z.id, E. done.
Qed.

Lemma mutation_args_ok m : mutation_ok m -> command_ok (mutation_args m).
Proof.
  intros (Hne & [Hl Hc] & _ & _ & Hb). 
  assert (forall marker, zlen marker < u32_mod ->
    command_ok [marker; batch_bytes (commands_of m)]) as H2.
  { intros marker Hm. split; [done|]. split; [done|]. by repeat constructor. }
  destruct m as [[|c [|c' cs]]|c]; try done; cbn [mutation_args]; try (by apply H2).
  by inversion Hc.
Qed.

Lemma decode_mutation m acc :
  mutation_ok m ->
  decode_wal_payload (command_payload (mutation_args m)) acc =
    IoOk (acc ++ commands_of m, is_checked m).
Proof.
  intros Hm. rewrite decode_args by (by apply mutation_args_ok).
  destruct Hm as (Hne & Hc & Hp & _).
  destruct m as [[|c [|c' cs]]|c]; cbn [mutation_args commands_of is_checked] in *; [done| | |].
  - apply Forall_cons in Hp as [[H1 H2] _].
    destruct c as [|a [|b [|]]]; try done.
    rewrite !(proj2 (bytes_eqb_neq a _)); [done|..]; intros ->; done.
  - rewrite bytes_eqb_refl, decode_command_batch_ok by done. done.
  - rewrite bytes_eqb_refl, decode_command_batch_ok by done. done.
Qed.

(** ** Lemmas: frames *)

Lemma payload_len_u32 p : payload_ok p -> 0 <= zlen p < u32_mod.
Proof.
  intros [_ H]. pose proof (zlen_nonneg p). unfold MAX_WAL_FRAME_BYTES, u32_mod in *. lia.
Qed.

Lemma frame_crc_ok n p : Forall byte_ok p -> u32_ok (crc32 (write_u32 n ++ p)).
Proof.
  intros Hp. apply crc32_range, Forall_app. split; [apply le_bytes_ok|done].
Qed.

(** The sixteen bytes before a guarded payload, read by three integers after the marker. *)
Definition guard_bytes (p : bytes) : bytes :=
  write_u32 (zlen p) ++ write_u32 (u32_max - zlen p) ++ write_u32 (crc32 (write_u32 (zlen p) ++ p)).

Lemma guarded_split p :
  payload_ok p -> encode_guarded_payload p = WAL_FRAME_MAGIC ++ guard_bytes p ++ p.
Proof.
  intros Hp. unfold encode_guarded_payload, guard_bytes.
  rewrite as_u32_small by (by apply payload_len_u32). by rewrite <-!(assoc_L (++)).
Qed.

Lemma read_guard p rest :
  Forall byte_ok p -> 0 <= zlen p < u32_mod ->
  read_pair read_u32 (read_pair read_u32 read_u32) (guard_bytes p ++ rest) =
    IoOk ((zlen p, (u32_max - zlen p, crc32 (write_u32 (zlen p) ++ p))), rest).
Proof.
  intros Hp Hl.
  assert (pair_ok u32_ok (pair_ok u32_ok u32_ok)
    (zlen p, (u32_max - zlen p, crc32 (write_u32 (zlen p) ++ p)))) as Hok.
  { split; [done|]. split; [unfold u32_ok, u32_max, u32_mod in *; simpl; lia|by apply frame_crc_ok]. }
  exact (rt_pair _ _ _ _ _ _ rt_u32 (rt_pair _ _ _ _ _ _ rt_u32 rt_u32) _ rest Hok).
Qed.

Lemma read_guarded_ok p rest :
  payload_ok p -> read_guarded (encode_guarded_payload p ++ rest) = IoOk (Some (p, rest)).
Proof.
  intros Hp. pose proof (payload_len_u32 p Hp) as Hl. rewrite guarded_split by done.
  destruct Hp as [Hb Hm]. unfold read_guarded. rewrite <-!(assoc_L (++)).
  rewrite (read_exact_app 4 WAL_FRAME_MAGIC) by done. rewrite bytes_eqb_refl. cbn [negb].
  rewrite read_guard by done. rewrite Z.eqb_refl. cbn [negb].
  destruct (Z.gtb_spec (zlen p) MAX_WAL_FRAME_BYTES); [lia|].
  destruct (Z.gtb_spec (zlen p) (zlen (p ++ rest))) as [H'|_];
    [rewrite zlen_app in H'; pose proof (zlen_nonneg rest); lia|].
  replace (Z.to_nat (zlen p)) with (length p) by (unfold zlen; lia).
  by rewrite take_app_length, drop_app_length, Z.eqb_refl.
Qed.

Lemma read_frame_ok format p rest :
  payload_ok p ->
  read_next_frame_payload format (encode_payload format p ++ rest) = IoOk (Some (p, rest)).
Proof.
  intros Hp. pose proof Hp as [Hb Hm]. pose proof (zlen_nonneg p). pose proof (zlen_nonneg rest).
  unfold read_next_frame_payload.
  destruct (encode_payload format p ++ rest) as [|b l] eqn:E; [|rewrite <-E; clear E].
  { by destruct format. }
  destruct format; cbn [encode_payload]; [| |by apply read_guarded_ok];
    unfold read_unguarded; unfold MAX_WAL_FRAME_BYTES in *.
  - rewrite as_u32_small by (unfold u32_mod; lia). rewrite <-(assoc_L (++)).
    rewrite (rt_u32 (zlen p) (p ++ rest)) by (unfold u32_ok, u32_mod; lia).
    destruct (Z.gtb_spec (zlen p) (512 * 1024 * 1024)); [lia|].
    destruct (Z.gtb_spec (zlen p) (zlen (p ++ rest))) as [H'|_]; [rewrite zlen_app in H'; lia|].
    unfold zlen. by rewrite Nat2Z.id, take_app_length, drop_app_length.
  - assert (u32_ok (crc32 p)) as Hcrc by (by apply crc32_range).
    rewrite as_u32_small by (unfold u32_mod; lia). rewrite <-!(assoc_L (++)).
    rewrite (rt_u32 (4 + zlen p)) by (unfold u32_ok, u32_mod; lia).
    destruct (Z.gtb_spec (4 + zlen p) (512 * 1024 * 1024)); [lia|].
    set (frame := write_u32 (crc32 p) ++ p).
    assert (length frame = Z.to_nat (4 + zlen p)) as Hf.
    { unfold frame. rewrite length_app. unfold write_u32. rewrite length_le_bytes. unfold zlen. lia. }
    rewrite (assoc_L (++)). fold frame. rewrite <-Hf, take_app_length, drop_app_length.
    assert (zlen frame = 4 + zlen p) as Hfz by (unfold zlen at 1; rewrite Hf; lia).
    destruct (Z.gtb_spec (4 + zlen p) (zlen (frame ++ rest))) as [H'|_];
      [rewrite zlen_app in H'; lia|].
    destruct (Z.ltb_spec (zlen frame) 4); [lia|].
    assert (take 4 frame = write_u32 (crc32 p)) as ->.
    { unfold frame. by rewrite take_app_le by (unfold write_u32; rewrite length_le_bytes; lia). }
    assert (drop 4 frame = p) as ->. { done. }
    unfold write_u32. rewrite le_u32_roundtrip by done. by rewrite Z.eqb_refl.
Qed.

Lemma read_u32_short input : (length input < 4)%nat -> read_u32 input = IoErr UnexpectedEof.
Proof. intros H. unfold read_u32, mbind, reader_bind. by rewrite read_exact_short. Qed.

Lemma read_u32_rest input v rest :
  read_u32 input = IoOk (v, rest) -> (length input = 4 + length rest)%nat.
Proof.
  unfold read_u32, mbind, reader_bind, read_exact. case_bool_decide; [done|].
  intros [= <- <-]. rewrite length_drop. lia.
Qed.

Lemma read_guard_short input :
  (length input < 12)%nat ->
  exists e, read_pair read_u32 (read_pair read_u32 read_u32) input = IoErr e.
Proof.
  intros Hl. destruct (read_pair _ _ input) as [[v rest]|e] eqn:E; [|by eexists].
  unfold read_pair, mbind, reader_bind, mret, reader_ret in E.
  destruct (read_u32 input) as [[a r1]|] eqn:E1; [|done].
  destruct (read_u32 r1) as [[b r2]|] eqn:E2; [|done].
  destruct (read_u32 r2) as [[c r3]|] eqn:E3; [|done].
  apply read_u32_rest in E1, E2, E3. lia.
Qed.

(** Any proper prefix of a guarded frame is recognised as torn, never as corruption. *)
Lemma read_torn p torn :
  payload_ok p -> incomplete torn (encode_guarded_payload p) ->
  read_next_frame_payload Guarded torn = IoOk None.
Proof.
  intros Hp Ht. pose proof (payload_len_u32 p Hp) as Hl. rewrite guarded_split in Ht by done.
  unfold read_next_frame_payload. destruct torn as [|b torn']; [done|].
  set (torn := b :: torn') in *. unfold read_guarded.
  apply incomplete_app in Ht as [Ht|(q & -> & Ht)].
  { apply incomplete_length in Ht. by rewrite read_exact_short. }
  rewrite (read_exact_app 4 WAL_FRAME_MAGIC) by done. rewrite bytes_eqb_refl. cbn [negb].
  apply incomplete_app in Ht as [Ht|(q' & -> & Ht)].
  { apply incomplete_length in Ht. unfold guard_bytes, write_u32 in Ht.
    rewrite !length_app, !length_le_bytes in Ht.
    destruct (read_guard_short q) as [e ->]; [lia|done]. }
  destruct Hp as [Hb Hm]. rewrite read_guard by done. rewrite Z.eqb_refl. cbn [negb].
  destruct (Z.gtb_spec (zlen p) MAX_WAL_FRAME_BYTES); [lia|].
  apply incomplete_length in Ht.
  destruct (Z.gtb_spec (zlen p) (zlen q')); [done|]. unfold zlen in *. lia.
Qed.

(** ** Lemmas: journals *)

Lemma mutation_frame_ok format m rest :
  mutation_ok m ->
  read_next_frame_payload format (mutation_frame format m ++ rest) =
    IoOk (Some (command_payload (mutation_args m), rest)).
Proof. intros (_ & _ & _ & Hp & _). by apply read_frame_ok. Qed.

Lemma mutation_frame_length format m : (4 <= length (mutation_frame format m))%nat.
Proof.
  unfold mutation_frame, encode_command_frame, encode_payload, encode_guarded_payload, write_u32.
  destruct format; rewrite !length_app, !length_le_bytes; lia.
Qed.

Lemma length_diff {A} (a b : list A) : (length (a ++ b) - length b = length a)%nat.
Proof. rewrite length_app. lia. Qed.

Lemma app_cons_inv {A} (a b : list A) : a ≠ [] -> exists x l, a ++ b = x :: l.
Proof. destruct a; [done|]. cbn. eauto. Qed.

Lemma mutation_frame_cons format m rest : exists b l, mutation_frame format m ++ rest = b :: l.
Proof.
  apply app_cons_inv. intros E. pose proof (mutation_frame_length format m) as H.
  rewrite E in H. simpl in H. lia.
Qed.

Lemma replay_loop_frames format ms torn fuel pos acc tail :
  Forall mutation_ok ms -> read_next_frame_payload format torn = IoOk None ->
  let frames := concat (mutation_frame format <$> ms) in
  (length (frames ++ torn) <= fuel)%nat ->
  replay_loop fuel format pos (frames ++ torn) acc tail =
    IoOk (acc ++ concat (commands_of <$> ms),
          match torn with [] => checked_tail format pos tail ms | _ => None end,
          match torn with [] => None | _ => Some (pos + length frames)%nat end).
Proof.
  intros Hms Ht. revert fuel pos acc tail.
  induction Hms as [|m ms Hm _ IH]; intros fuel pos acc tail; cbn zeta.
  - cbn. intros Hf. destruct torn as [|b torn]; destruct fuel as [|fuel]; simpl in Hf; try lia;
      cbn [replay_loop]; [by rewrite app_nil_r..|].
    rewrite Ht. cbn [mbind io_bind]. by rewrite app_nil_r, Nat.add_0_r.
  - rewrite fmap_cons, concat_cons, <-(assoc_L (++)). intros Hf.
    pose proof (mutation_frame_length format m) as H4.
    rewrite length_app in Hf. destruct fuel as [|fuel]; [lia|].
    destruct (mutation_frame_cons format m (concat (mutation_frame format <$> ms) ++ torn))
      as (b & l & E).
    rewrite E. cbn [replay_loop]. rewrite <-E, mutation_frame_ok by done. cbn [mbind io_bind].
    rewrite decode_mutation, length_diff by done.
    cbn zeta in IH. rewrite IH by lia. cbn [checked_tail]. rewrite fmap_cons, concat_cons.
    rewrite <-(assoc_L (++)), length_app. destruct torn; do 3 f_equal. lia.
Qed.

Lemma validate_loop_frames format ms rest fuel pos :
  Forall mutation_ok ms ->
  let frames := concat (mutation_frame format <$> ms) in
  (length frames <= fuel)%nat ->
  validate_loop fuel format pos (pos + length frames) (frames ++ rest) = IoOk tt.
Proof.
  intros Hms. revert fuel pos. induction Hms as [|m ms Hm _ IH]; intros fuel pos; cbn zeta.
  - intros _. cbn. rewrite Nat.add_0_r. destruct fuel; cbn [validate_loop];
      by rewrite bool_decide_eq_false_2 by lia.
  - rewrite fmap_cons, concat_cons, <-(assoc_L (++)), length_app. intros Hf.
    pose proof (mutation_frame_length format m) as H4. destruct fuel as [|fuel]; [lia|].
    cbn [validate_loop]. rewrite bool_decide_eq_true_2 by lia.
    rewrite mutation_frame_ok by done. cbn [mbind io_bind]. rewrite length_diff.
    rewrite bool_decide_eq_false_2 by lia. rewrite Nat.add_assoc. apply IH. lia.
Qed.

Lemma retain_loop_frames format ms fuel :
  Forall mutation_ok ms ->
  let frames := concat (mutation_frame format <$> ms) in
  (length frames <= fuel)%nat ->
  retain_loop fuel format frames = IoOk (concat (mutation_frame Guarded <$> ms)).
Proof.
  intros Hms. revert fuel. induction Hms as [|m ms Hm _ IH]; intros fuel; cbn zeta.
  - intros _. by destruct fuel.
  - rewrite !fmap_cons, !concat_cons, length_app. intros Hf.
    pose proof (mutation_frame_length format m) as H4. destruct fuel as [|fuel]; [lia|].
    destruct (mutation_frame_cons format m (concat (mutation_frame format <$> ms))) as (b & l & E).
    rewrite E. cbn [retain_loop]. rewrite <-E, mutation_frame_ok by done. cbn [mbind io_bind].
    cbn zeta in IH. rewrite IH by lia. done.
Qed.

Lemma header_length gen : generation_ok gen -> length (wal_header_bytes gen) = WAL_HEADER_LEN.
Proof.
  intros [Hl _]. unfold wal_header_bytes, write_u32. rewrite !length_app, Hl, length_le_bytes. done.
Qed.

Lemma journal_drop gen ms torn :
  generation_ok gen ->
  drop WAL_HEADER_LEN (file (journal gen ms torn)) = concat (mutation_frame Guarded <$> ms) ++ torn.
Proof. intros Hg. cbn [journal file]. by rewrite <-(header_length gen Hg), drop_app_length. Qed.

Lemma journal_file_cons gen ms torn : exists b l, file (journal gen ms torn) = b :: l.
Proof. by apply app_cons_inv. Qed.

Lemma frames_app ms1 ms2 :
  concat (mutation_frame Guarded <$> ms1 ++ ms2) =
  concat (mutation_frame Guarded <$> ms1) ++ concat (mutation_frame Guarded <$> ms2).
Proof. by rewrite fmap_app, concat_app. Qed.

Lemma append_journal gen ms m :
  mutation_ok m ->
  append_mutation Written m (journal gen ms []) = (IoOk true, journal gen (ms ++ [m]) []).
Proof.
  intros (Hne & Hc & _).
  assert (forall frame, frame = mutation_frame Guarded m ->
    set_file (file (journal gen ms []) ++ frame) (journal gen ms []) = journal gen (ms ++ [m]) [])
    as Hset.
  { intros frame ->. unfold set_file, journal. cbn [file frame_format header_len Wal.generation].
    rewrite frames_app. cbn [fmap list_fmap concat]. by rewrite !app_nil_r, <-!(assoc_L (++)). }
  apply command_ok_vec in Hc.
  destruct m as [[|c [|c' cs]]|c]; cbn [append_mutation commands_of] in *; [done| | |].
  - unfold append_commands, batch_frame. cbn [append_encoded_frames]. by rewrite Hset.
  - unfold append_commands, batch_frame. rewrite encode_command_batch_ok by done.
    cbn [mbind io_bind append_encoded_frames]. by rewrite Hset.
  - unfold append_checked_command. rewrite encode_command_batch_ok by done.
    cbn [append_encoded_frames]. by rewrite Hset.
Qed.

Lemma append_all_journal gen ms ms' :
  Forall mutation_ok ms' -> append_all ms' (journal gen ms []) = Some (journal gen (ms ++ ms') []).
Proof.
  intros Hms. revert ms. induction Hms as [|m ms' Hm _ IH]; intros ms; cbn [append_all].
  - by rewrite app_nil_r.
  - rewrite append_journal, IH by done. by rewrite <-(assoc_L (++)).
Qed.

Lemma open_journal gen ms torn create initial fresh :
  generation_ok gen ->
  open_in (file (journal gen ms torn)) create initial fresh = IoOk (journal gen ms torn).
Proof.
  intros (Hl & Hb & _). destruct (journal_file_cons gen ms torn) as (b & l & E).
  unfold open_in. rewrite E, <-E. cbn [journal file]. unfold wal_header_bytes.
  rewrite <-!(assoc_L (++)). rewrite (read_exact_app 4 WAL_MAGIC) by done.
  cbn [mbind io_bind]. rewrite bytes_eqb_refl. rewrite read_exact_app by done.
  rewrite rt_u32 by (apply crc32_range, Forall_app; split; [by repeat constructor|done]).
  rewrite Z.eqb_refl. cbn [negb]. unfold journal, wal_header_bytes.
  by rewrite <-!(assoc_L (++)).
Qed.

Lemma rollback_journal gen ms torn :
  rollback_to (length (file (journal gen ms []))) (journal gen ms torn) = journal gen ms [].
Proof.
  unfold rollback_to, set_file, journal. cbn [file frame_format header_len Wal.generation].
  f_equal. rewrite app_nil_r, (assoc_L (++)), take_app_length.
  rewrite (proj2 (Nat.sub_0_le _ _)) by (rewrite !length_app; lia). by rewrite app_nil_r.
Qed.

(** Replay of a journal from its header. *)
Lemma replay_journal gen ms torn cp :
  generation_ok gen -> Forall mutation_ok ms ->
  read_next_frame_payload Guarded torn = IoOk None ->
  replay_offset cp (journal gen ms torn) = IoOk WAL_HEADER_LEN ->
  replay_from cp (journal gen ms torn) = (IoOk (expected_replay ms torn), journal gen ms []).
Proof.
  intros Hg Hms Ht Ho. destruct (journal_file_cons gen ms torn) as (b & l & E).
  unfold replay_from. rewrite E. unfold replay_scan. rewrite Ho. cbn [mbind io_bind].
  rewrite journal_drop by done. cbn [frame_format journal].
  rewrite replay_loop_frames; [|done|done|cbn [journal file]; rewrite !length_app; lia].
  unfold expected_replay. destruct torn as [|t torn]; cbn [app]; [done|].
  rewrite <-(rollback_journal gen ms (t :: torn)). f_equal. f_equal.
  cbn [journal file]. by rewrite app_nil_r, length_app, header_length.
Qed.

Lemma journal_drop_prefix gen ms1 ms2 :
  drop (length (file (journal gen ms1 []))) (file (journal gen (ms1 ++ ms2) [])) =
  concat (mutation_frame Guarded <$> ms2).
Proof.
  cbn [journal file]. rewrite frames_app, !app_nil_r, (assoc_L (++)). by rewrite drop_app_length.
Qed.

Lemma journal_length_le gen ms1 ms2 :
  (length (file (journal gen ms1 [])) <= length (file (journal gen (ms1 ++ ms2) [])))%nat.
Proof. cbn [journal file]. rewrite frames_app, !length_app. lia. Qed.

Lemma validate_journal gen ms1 ms2 :
  generation_ok gen -> Forall mutation_ok ms1 ->
  validate_checkpoint_offset (length (file (journal gen ms1 []))) (journal gen (ms1 ++ ms2) [])
    = IoOk tt.
Proof.
  intros Hg H1. unfold validate_checkpoint_offset.
  pose proof (journal_length_le gen ms1 ms2). pose proof (header_length gen Hg) as Hh.
  rewrite bool_decide_eq_false_2 by (cbn [journal header_len file]; rewrite length_app; lia).
  rewrite bool_decide_eq_false_2 by lia. cbn [orb].
  replace (drop _ (file (journal gen (ms1 ++ ms2) [])))
    with (concat (mutation_frame Guarded <$> ms1) ++ concat (mutation_frame Guarded <$> ms2))
    by (rewrite <-frames_app; symmetry; rewrite <-(app_nil_r (concat _)); by apply journal_drop).
  replace (length (file (journal gen ms1 [])))
    with (header_len (journal gen (ms1 ++ ms2) []) + length (concat (mutation_frame Guarded <$> ms1)))%nat
    by (cbn [journal header_len file]; by rewrite app_nil_r, length_app, Hh).
  apply validate_loop_frames; [done|].
  cbn [journal file]. rewrite frames_app, !length_app. lia.
Qed.

Lemma replay_journal_suffix gen ms1 ms2 successor :
  generation_ok gen -> Forall mutation_ok ms1 -> Forall mutation_ok ms2 ->
  exists tail,
    replay_from (Some (mkCheckpoint gen (length (file (journal gen ms1 []))) successor))
      (journal gen (ms1 ++ ms2) []) =
    (IoOk (mkReplay (concat (commands_of <$> ms2)) tail), journal gen (ms1 ++ ms2) []).
Proof.
  intros Hg H1 H2. destruct (journal_file_cons gen (ms1 ++ ms2) []) as (b & l & E).
  unfold replay_from. rewrite E. unfold replay_scan, replay_offset.
  cbn [cp_generation cp_offset]. rewrite bytes_eqb_refl, validate_journal by done.
  cbn [mbind io_bind]. rewrite journal_drop_prefix.
  pose proof (replay_loop_frames Guarded ms2 [] (length (file (journal gen (ms1 ++ ms2) [])))
    (length (file (journal gen ms1 []))) [] None H2 eq_refl) as Hr. cbn zeta in Hr.
  rewrite !app_nil_r in Hr. cbn [frame_format journal] in *. rewrite Hr; [eexists; done|].
  cbn [journal file]. rewrite frames_app, !length_app. lia.
Qed.

Lemma new_journal gen fresh :
  open_in [] true (Some gen) fresh = IoOk (journal gen [] []).
Proof. unfold open_in, journal. cbn. by rewrite app_nil_r. Qed.

(** C2. Crash atomicity of the journal. A journal is created, any number of mutations (single
    commands, batches and checked commands) are acknowledged, and the process dies while one more
    is being appended, after any number of bytes of its frame. Reopening succeeds, and replay
    returns exactly the commands of the acknowledged mutations in order, followed by all commands
    of the interrupted one if its frame was complete and none of them otherwise; a torn frame is
    cut off, so that the file is again exactly the acknowledged one. *)
Theorem crash_atomicity (gen fresh : bytes) (ms : list mutation) (m : mutation) (k : nat) :
  generation_ok gen -> Forall mutation_ok ms -> mutation_ok m ->
  exists w0 w w' r w'',
    open_in [] true (Some gen) fresh = IoOk w0 /\
    append_all ms w0 = Some w /\
    open_in (file w ++ take k (mutation_frame Guarded m)) true None fresh = IoOk w' /\
    replay_from None w' = (IoOk r, w'') /\
    let complete := bool_decide (length (mutation_frame Guarded m) <= k)%nat in
    replayed r = concat (commands_of <$> ms) ++ (if complete then commands_of m else []) /\
    (complete = false -> w'' = w).
Proof.
  intros Hg Hms Hm. exists (journal gen [] []), (journal gen ms []).
  assert (file (journal gen ms []) ++ take k (mutation_frame Guarded m) =
    file (journal gen ms (take k (mutation_frame Guarded m)))) as Ef.
  { cbn [journal file]. by rewrite app_nil_r, <-(assoc_L (++)). }
  case_bool_decide as Hk.
  - assert (file (journal gen ms []) ++ take k (mutation_frame Guarded m) =
      file (journal gen (ms ++ [m]) [])) as Ef'.
    { cbn [journal file]. rewrite take_ge, frames_app by lia. cbn [fmap list_fmap concat].
      by rewrite !app_nil_r, <-(assoc_L (++)). }
    exists (journal gen (ms ++ [m]) []), (expected_replay (ms ++ [m]) []), (journal gen (ms ++ [m]) []).
    split; [apply new_journal|]. split; [by apply append_all_journal|].
    split; [by rewrite Ef', open_journal|]. split; [|split; [|done]].
    + apply replay_journal; [done| |done|done]. apply Forall_app; split; [done|]. by constructor.
    + cbn [expected_replay replayed]. rewrite fmap_app, concat_app. cbn. by rewrite app_nil_r.
  - set (torn := take k (mutation_frame Guarded m)) in *.
    exists (journal gen ms torn), (expected_replay ms torn), (journal gen ms []).
    split; [apply new_journal|]. split; [by apply append_all_journal|].
    split; [by rewrite Ef, open_journal|]. split; [|split; [|done]].
    + apply replay_journal; [done|done| |done]. destruct Hm as (_ & _ & _ & Hp & _).
      apply (read_torn _ _ Hp). apply incomplete_take. change (mutation_frame Guarded m)
        with (encode_guarded_payload (command_payload (mutation_args m))) in Hk. lia.
    + cbn [expected_replay replayed]. by rewrite app_nil_r.
Qed.

Lemma mutation_ok_intro m :
  commands_of m ≠ [] ->
  forallb (fun c => negb (bool_decide (c = [])) && (zlen c <? u32_mod) &&
    forallb (fun a => zlen a <? u32_mod) c) (commands_of m) &&
  (zlen (commands_of m) <? u32_mod) &&
  forallb (fun c => negb (bool_decide (head c = Some WAL_BATCH_MARKER)) &&
    negb (bool_decide (head c = Some WAL_CHECKED_MARKER))) (commands_of m) &&
  forallb (fun b => (0 <=? b) && (b <? 256)) (command_payload (mutation_args m)) &&
  (4 + zlen (command_payload (mutation_args m)) <=? MAX_WAL_FRAME_BYTES) &&
  (zlen (batch_bytes (commands_of m)) <? u32_mod) = true -> mutation_ok m.
Proof.
  intros Hne. rewrite !andb_true_iff, !forallb_forall. intros [[[[[Hc Hn] Hp] Hb] Hm] Hs].
  zbool. unfold mutation_ok, vec_ok, payload_ok. split_and!; try done; apply Forall_forall.
  - intros c Hin%list_elem_of_In. specialize (Hc c Hin). rewrite !andb_true_iff, forallb_forall in Hc.
    destruct Hc as [[Hc1 Hc2] Hc3]. apply negb_true_iff, bool_decide_eq_false in Hc1. zbool.
    split; [done|]. split; [done|]. apply Forall_forall. intros a Ha%list_elem_of_In.
    by apply Z.ltb_lt, Hc3.
  - intros c Hin%list_elem_of_In. specialize (Hp c Hin). rewrite andb_true_iff in Hp.
    destruct Hp as [H1 H2]. by apply negb_true_iff, bool_decide_eq_false in H1, H2.
  - intros b Hin%list_elem_of_In. specialize (Hb b Hin). unfold byte_ok. zbool. lia.
Qed.

Definition sample_generation : bytes := replicate 16 7.
Definition sample_batch : mutation := MBatch [[bs "SET"; bs "a"; bs "1"]; [bs "DEL"; bs "b"]].
Definition sample_checked : mutation := MChecked [bs "RENAME"; bs "a"; bs "c"].

Lemma sample_generation_ok : generation_ok sample_generation.
Proof.
  split; [done|]. split; [|done]. apply Forall_replicate. unfold byte_ok. lia.
Qed.

Lemma sample_batch_ok : mutation_ok sample_batch.
Proof. apply mutation_ok_intro; [done|]. vm_compute. reflexivity. Qed.

Lemma sample_checked_ok : mutation_ok sample_checked.
Proof. apply mutation_ok_intro; [done|]. vm_compute. reflexivity. Qed.

Lemma crash_atomicity_witness :
  exists w0 w w' r w'',
    open_in [] true (Some sample_generation) [] = IoOk w0 /\
    append_all [sample_batch] w0 = Some w /\
    open_in (file w ++ take 30 (mutation_frame Guarded sample_checked)) true None [] = IoOk w' /\
    replay_from None w' = (IoOk r, w'') /\
    replayed r = [[bs "SET"; bs "a"; bs "1"]; [bs "DEL"; bs "b"]] /\ w'' = w.
Proof.
  destruct (crash_atomicity sample_generation [] [sample_batch] sample_checked 30
    sample_generation_ok (proj2 (Forall_singleton _ _) sample_batch_ok) sample_checked_ok)
    as (w0 & w & w' & r & w'' & H1 & H2 & H3 & H4 & H5 & H6).
  exists w0, w, w', r, w''. split_and!; try assumption. apply H6. vm_compute. reflexivity.
Defined.

(** Snapshots and rotation. A snapshot's checkpoint is taken after some mutations and more are
    acknowledged while the snapshot is written. Replaying from the checkpoint returns exactly the
    later ones; rotating the journal after the snapshot succeeds, and replaying the rotated journal
    from the same checkpoint returns the same commands, so that whichever side of the rotation a
    crash falls on, recovery is the same and nothing is applied twice or lost. *)
Theorem rotation_preserves_recovery (gen successor : bytes) (ms1 ms2 : list mutation) (w1 : Wal) :
  generation_ok gen -> generation_ok successor -> successor ≠ gen ->
  Forall mutation_ok ms1 -> Forall mutation_ok ms2 ->
  append_all ms1 (journal gen [] []) = Some w1 ->
  let cp := checkpoint successor w1 in
  exists w2 w3 r2 r3,
    append_all ms2 w1 = Some w2 /\
    replay_from (Some cp) w2 = (IoOk r2, w2) /\
    replayed r2 = concat (commands_of <$> ms2) /\
    rotate_after cp w2 = IoOk w3 /\ generation w3 = successor /\
    replay_from (Some cp) w3 = (IoOk r3, w3) /\
    replayed r3 = replayed r2.
Proof.
  intros Hg Hs Hne H1 H2. rewrite append_all_journal by done. intros [= <-]. cbn [app].
  destruct (replay_journal_suffix gen ms1 ms2 (Some successor) Hg H1 H2) as [tail Hr].
  exists (journal gen (ms1 ++ ms2) []), (journal successor ms2 []),
    (mkReplay (concat (commands_of <$> ms2)) tail), (expected_replay ms2 []).
  split; [by apply append_all_journal|]. split; [done|]. split; [done|].
  pose proof (journal_length_le gen ms1 ms2). pose proof (header_length gen Hg).
  split; [|split; [done|]]; [|split; [|done]].
  - unfold rotate_after, checkpoint. cbn [cp_generation cp_successor cp_offset].
    rewrite bytes_eqb_refl. cbn [negb].
    rewrite !bool_decide_eq_false_2
      by first [lia|cbn [journal header_len file]; rewrite length_app; lia]. cbn [orb].
    unfold replace_with. rewrite (proj2 (bytes_eqb_neq successor _)) by apply Hs.
    rewrite (proj2 (bytes_eqb_neq successor _)) by done. cbn [orb].
    rewrite journal_drop_prefix, (retain_loop_frames Guarded ms2);
      [|done|cbn [journal file]; rewrite frames_app, !length_app; lia].
    cbn [mbind io_bind]. unfold journal. by rewrite app_nil_r.
  - apply replay_journal; [done|done|done|]. unfold replay_offset, checkpoint.
    cbn [cp_generation cp_successor journal Wal.generation].
    rewrite (proj2 (bytes_eqb_neq gen successor)) by done. by rewrite bytes_eqb_refl.
Qed.

Lemma rotation_preserves_recovery_witness :
  let successor := replicate 16 9 in
  let w1 := journal sample_generation [sample_batch] [] in
  let cp := checkpoint successor w1 in
  exists w2 w3 r2 r3,
    append_all [sample_checked] w1 = Some w2 /\ replay_from (Some cp) w2 = (IoOk r2, w2) /\
    replayed r2 = concat (commands_of <$> [sample_checked]) /\
    rotate_after cp w2 = IoOk w3 /\ generation w3 = successor /\
    replay_from (Some cp) w3 = (IoOk r3, w3) /\ replayed r3 = replayed r2.
Proof.
  apply (rotation_preserves_recovery sample_generation (replicate 16 9) [sample_batch] [sample_checked]).
  - exact sample_generation_ok.
  - split; [reflexivity|]. split; [|discriminate]. apply Forall_replicate. unfold byte_ok. lia.
  - discriminate.
  - apply Forall_singleton, sample_batch_ok.
  - apply Forall_singleton, sample_checked_ok.
  - vm_compute. reflexivity.
Defined.

Lemma guard_bytes_length p : length (guard_bytes p) = 12%nat.
Proof. unfold guard_bytes, write_u32. rewrite !length_app, !length_le_bytes. done. Qed.

Lemma read_next_guarded input :
  input ≠ [] -> read_next_frame_payload Guarded input = read_guarded input.
Proof. by destruct input. Qed.

Lemma read_corrupt a x y b rest :
  payload_ok (a ++ x :: b) -> byte_ok y -> x ≠ y ->
  read_next_frame_payload Guarded
    (WAL_FRAME_MAGIC ++ guard_bytes (a ++ x :: b) ++ (a ++ y :: b) ++ rest) =
  IoErr (InvalidData "WAL frame checksum mismatch").
Proof.
  intros Hp Hy Hne. pose proof (payload_len_u32 _ Hp) as Hl. destruct Hp as [Hb Hm].
  rewrite read_next_guarded by done. unfold read_guarded. rewrite (read_exact_app 4 WAL_FRAME_MAGIC) by done.
  rewrite bytes_eqb_refl. cbn [negb]. rewrite read_guard by done. rewrite Z.eqb_refl. cbn [negb].
  destruct (Z.gtb_spec (zlen (a ++ x :: b)) MAX_WAL_FRAME_BYTES); [lia|].
  assert (zlen (a ++ y :: b) = zlen (a ++ x :: b)) as El by (by rewrite !zlen_app, !zlen_cons).
  pose proof (zlen_nonneg rest).
  destruct (Z.gtb_spec (zlen (a ++ x :: b)) (zlen ((a ++ y :: b) ++ rest))) as [H'|_];
    [rewrite zlen_app in H'; lia|].
  replace (Z.to_nat (zlen (a ++ x :: b))) with (length (a ++ y :: b)) by (unfold zlen in *; lia).
  rewrite take_app_length.
  destruct (Z.eqb_spec (crc32 (write_u32 (zlen (a ++ x :: b)) ++ a ++ x :: b))
    (crc32 (write_u32 (zlen (a ++ x :: b)) ++ a ++ y :: b))) as [E|]; [|done].
  exfalso. rewrite !(assoc_L (++)) in E. revert E.
  apply crc32_one_byte; [|done|done]. rewrite <-(assoc_L (++)).
  apply Forall_app. split; [apply le_bytes_ok|done].
Qed.

Lemma replay_loop_error format ms input e fuel pos acc tail :
  Forall mutation_ok ms -> input ≠ [] -> read_next_frame_payload format input = IoErr e ->
  let frames := concat (mutation_frame format <$> ms) in
  (length (frames ++ input) <= fuel)%nat ->
  replay_loop fuel format pos (frames ++ input) acc tail = IoErr e.
Proof.
  intros Hms Hi He. revert fuel pos acc tail.
  induction Hms as [|m ms Hm _ IH]; intros fuel pos acc tail; cbn zeta.
  - cbn. intros Hf. destruct input as [|b input]; [done|]. destruct fuel as [|fuel]; simpl in Hf; [lia|].
    cbn [replay_loop]. by rewrite He.
  - rewrite fmap_cons, concat_cons, <-(assoc_L (++)). intros Hf.
    pose proof (mutation_frame_length format m) as H4.
    rewrite length_app in Hf. destruct fuel as [|fuel]; [lia|].
    destruct (mutation_frame_cons format m (concat (mutation_frame format <$> ms) ++ input))
      as (b & l & E).
    rewrite E. cbn [replay_loop]. rewrite <-E, mutation_frame_ok by done. cbn [mbind io_bind].
    rewrite decode_mutation by done. cbn zeta in IH. apply IH. lia.
Qed.

Lemma replay_journal_error gen ms input e :
  generation_ok gen -> Forall mutation_ok ms -> input ≠ [] ->
  read_next_frame_payload Guarded input = IoErr e ->
  replay_from None (journal gen ms input) = (IoErr e, journal gen ms input).
Proof.
  intros Hg Hms Hi He. destruct (journal_file_cons gen ms input) as (b & l & E).
  unfold replay_from. rewrite E. unfold replay_scan, replay_offset. cbn [mbind io_bind].
  change (header_len (journal gen ms input)) with WAL_HEADER_LEN. rewrite journal_drop by done.
  change (frame_format (journal gen ms input)) with Guarded.
  rewrite (replay_loop_error _ _ _ e); [done|done|done|done|].
  cbn [journal file]. rewrite !length_app. lia.
Qed.

(** Corruption fails closed: if any one byte of the payload of any acknowledged frame is
    changed on disk, replay reports invalid data and leaves the file untouched, whatever frames
    come before and whatever bytes come after; it never skips or truncates the frame. *)
Theorem corruption_detected (gen : bytes) (ms : list mutation) (m : mutation) (a b rest : bytes)
    (x y : Z) :
  generation_ok gen -> Forall mutation_ok ms -> mutation_ok m ->
  command_payload (mutation_args m) = a ++ x :: b -> byte_ok y -> x ≠ y ->
  let corrupt := take (length (mutation_frame Guarded m) - length (a ++ x :: b))
                   (mutation_frame Guarded m) ++ (a ++ y :: b) in
  length corrupt = length (mutation_frame Guarded m) /\
  replay_from None (journal gen ms (corrupt ++ rest)) =
    (IoErr (InvalidData "WAL frame checksum mismatch"), journal gen ms (corrupt ++ rest)).
Proof.
  intros Hg Hms (_ & _ & _ & Hp & _) Ep Hy Hne. rewrite Ep in Hp.
  unfold mutation_frame, encode_command_frame, encode_payload. rewrite Ep, guarded_split by done.
  rewrite (assoc_L (++) WAL_FRAME_MAGIC), length_diff, take_app_length. cbn zeta. split.
  - rewrite !length_app. simpl. lia.
  - rewrite <-!(assoc_L (++)). apply replay_journal_error; [done|done|done|].
    rewrite (assoc_L (++) a). by apply read_corrupt.
Qed.

Lemma corruption_detected_witness :
  let frame := mutation_frame Guarded sample_batch in
  let corrupt := <[20%nat := 99]> frame in
  corrupt ≠ frame /\
  (replay_from None (journal sample_generation [sample_checked] (corrupt ++ []))).1 =
    IoErr (InvalidData "WAL frame checksum mismatch").
Proof.
  split; [vm_compute; discriminate|].
  destruct (corruption_detected sample_generation [sample_checked] sample_batch
    (take 4 (command_payload (mutation_args sample_batch)))
    (drop 5 (command_payload (mutation_args sample_batch))) [] 10 99) as [_ E].
  - exact sample_generation_ok.
  - apply Forall_singleton, sample_checked_ok.
  - exact sample_batch_ok.
  - vm_compute. reflexivity.
  - unfold byte_ok. lia.
  - discriminate.
  - refine (eq_trans _ (f_equal fst E)). vm_compute. reflexivity.
Defined.

Lemma read_oversized p rest :
  Forall byte_ok p -> MAX_WAL_FRAME_BYTES < zlen p < u32_mod ->
  read_next_frame_payload Guarded (encode_guarded_payload p ++ rest) =
    IoErr (InvalidData "WAL frame length exceeds maximum").
Proof.
  intros Hb Hm.
  assert (0 <= zlen p < u32_mod) as Hl by (split; [apply zlen_nonneg|lia]).
  assert (encode_guarded_payload p = WAL_FRAME_MAGIC ++ guard_bytes p ++ p) as ->.
  { unfold encode_guarded_payload, guard_bytes. rewrite as_u32_small by done.
    by rewrite <-!(assoc_L (++)). }
  rewrite <-!(assoc_L (++)). rewrite read_next_guarded by done. unfold read_guarded. rewrite (read_exact_app 4 WAL_FRAME_MAGIC) by done.
  rewrite bytes_eqb_refl. cbn [negb]. rewrite read_guard by done. rewrite Z.eqb_refl. cbn [negb].
  destruct (Z.gtb_spec (zlen p) MAX_WAL_FRAME_BYTES); [done|lia].
Qed.

(** The writer does not enforce the reader's frame maximum: a command whose payload is larger
    than [MAX_WAL_FRAME_BYTES] is appended and acknowledged, and every later replay of the journal
    is refused, whatever was acknowledged before and after it. *)
Theorem oversized_frame_poisons (gen : bytes) (ms : list mutation) (c : list bytes) :
  generation_ok gen -> Forall mutation_ok ms -> Forall byte_ok (command_payload c) ->
  MAX_WAL_FRAME_BYTES < zlen (command_payload c) < u32_mod ->
  exists w, append_commands Written [c] (journal gen ms []) = (IoOk true, w) /\
    forall rest,
      replay_from None (set_file (file w ++ rest) w) =
        (IoErr (InvalidData "WAL frame length exceeds maximum"), set_file (file w ++ rest) w).
Proof.
  intros Hg Hms Hb Hm. eexists. split; [reflexivity|]. intros rest.
  unfold append_encoded_frames.
  replace (set_file _ (set_file _ (journal gen ms [])))
    with (journal gen ms (encode_command_frame Guarded c ++ rest)).
  - apply replay_journal_error; [done|done|done|]. by apply read_oversized.
  - unfold journal, set_file. cbn [file frame_format header_len Wal.generation].
    by rewrite app_nil_r, <-!(assoc_L (++)).
Qed.

Lemma command_payload_single a :
  zlen (command_payload [a]) = 8 + zlen a /\
  (Forall byte_ok a -> Forall byte_ok (command_payload [a])).
Proof.
  unfold command_payload, write_vec, write_bytes, write_u32. rewrite fmap_cons, concat_cons.
  cbn [fmap list_fmap concat]. rewrite app_nil_r. split.
  - rewrite !zlen_app. unfold zlen. rewrite !length_le_bytes. lia.
  - intros Ha. repeat (apply Forall_app; split); try apply le_bytes_ok. done.
Qed.

Lemma oversized_frame_poisons_witness :
  let c := [replicate (Z.to_nat MAX_WAL_FRAME_BYTES) 0] in
  exists w, append_commands Written [c] (journal sample_generation [sample_batch] []) = (IoOk true, w)
    /\ forall rest, replay_from None (set_file (file w ++ rest) w) =
        (IoErr (InvalidData "WAL frame length exceeds maximum"), set_file (file w ++ rest) w).
Proof.
  destruct (command_payload_single (replicate (Z.to_nat MAX_WAL_FRAME_BYTES) 0)) as [Hl Hb].
  apply oversized_frame_poisons.
  - exact sample_generation_ok.
  - apply Forall_singleton, sample_batch_ok.
  - apply Hb, Forall_replicate. unfold byte_ok. lia.
  - rewrite Hl. unfold zlen. rewrite length_replicate.
    unfold MAX_WAL_FRAME_BYTES, u32_mod. lia.
Defined.

End Wal.
