(* ===== verification/Disk.v ===== *)
(** * Cold storage ([src/src/disk.rs], lines 1119-1838)

    One shard of the cold tier: an append-only data file of checksummed records, and an index from
    keys to file positions. [put] appends, [get] reads and validates a record, [remove] drops an
    index entry, [compact] rewrites the live records, [rebuild_index] scans a file at startup.

    Times are nanoseconds on the monotonic clock; [Instant::now()] inside an operation is its [now]
    argument. [compact] is here its effect when every step succeeds; the steps (staging file, backup
    link, rename) are in [Compaction]. [should_compact], a floating-point ratio, is left to the
    caller. *)

From S2P Require Import Prelude.
From S2P Require Import Codec.
Local Open Scope Z_scope.

Module Disk.
Import Codec.Codec.

Definition DATA_MAGIC : bytes := bs "LXD1".

Record DiskEntry := mkDiskEntry {
  offset : nat;
  len : nat;
  ttl_ms : Z;
  created_at : Z
}.

(** [now.duration_since(created_at).as_millis() as i64]; an earlier [now] gives zero. *)
Definition elapsed_ms (e : DiskEntry) (now : Z) : Z := Z.max 0 (now - created_at e) / 1000000.

Definition is_expired (e : DiskEntry) (now : Z) : bool :=
  if ttl_ms e <=? 0 then false else elapsed_ms e now >=? ttl_ms e.

Definition remaining_ttl_ms (e : DiskEntry) (now : Z) : Z :=
  if ttl_ms e <=? 0 then -1
  else let remaining := ttl_ms e - elapsed_ms e now in if remaining <=? 0 then 0 else remaining.

Record DiskShard := mkDisk {
  index : gmap bytes DiskEntry;
  data_file : bytes;
  dead_bytes : nat;
  total_bytes : nat;
  has_checksums : bool;
  compaction_safe : bool
}.

Definition set_index (i : gmap bytes DiskEntry) (dead : nat) (s : DiskShard) : DiskShard :=
  mkDisk i (data_file s) dead (total_bytes s) (has_checksums s) (compaction_safe s).

(** A shard opened on a file that did not exist. *)
Definition create : DiskShard := mkDisk ∅ DATA_MAGIC 0 4 true true.

Definition envelope (entry_data : bytes) : bytes :=
  write_u32 (as_u32 (zlen entry_data)) ++ write_u32 (crc32 entry_data) ++ entry_data.

(** What the operating system does with the write, as in [Wal]. *)
Definition put (written : option (nat * bool)) (key : bytes) (dump : DumpEntry) (now : Z)
    (s : DiskShard) : bool * DiskShard :=
  let entry_data := write_single_entry dump in
  let buf := envelope entry_data in
  match written with
  | Some (n, truncated) =>
      (false, if truncated
              then mkDisk (index s) (take (total_bytes s) (data_file s)) (dead_bytes s)
                     (total_bytes s) (has_checksums s) (compaction_safe s)
              else mkDisk (index s) (data_file s ++ take n buf) (dead_bytes s) (total_bytes s)
                     (has_checksums s) (compaction_safe s))
  | None =>
      let total_on_disk := (8 + length entry_data)%nat in
      let entry := mkDiskEntry (total_bytes s) (Z.to_nat (as_u32 (Z.of_nat total_on_disk)))
                     (if d_ttl_ms dump >? 0 then d_ttl_ms dump else -1) now in
      let dead := match index s !! key with
                  | Some old => (dead_bytes s + len old)%nat
                  | None => dead_bytes s
                  end in
      (true, mkDisk (<[key := entry]> (index s)) (data_file s ++ buf) dead
               (total_bytes s + total_on_disk) (has_checksums s) (compaction_safe s))
  end.

Section Reading.

Context (hll_count : bytes -> Z).

(** The bytes of an indexed record without its envelope. *)
Definition indexed_data (entry : DiskEntry) (s : DiskShard) : io bytes :=
  '(buf, _) ← read_exact (len entry) (drop (offset entry) (data_file s));
  if has_checksums s then
    if bool_decide (length buf < 8)%nat
    then IoErr (InvalidData "disk entry too short for checksum envelope")
    else if negb (le_decode (take 4 buf) =? zlen buf - 8)
    then IoErr (InvalidData "disk entry length mismatch")
    else if negb (le_decode (take 4 (drop 4 buf)) =? crc32 (drop 8 buf))
    then IoErr (InvalidData "disk entry checksum mismatch")
    else IoOk (drop 8 buf)
  else IoOk buf.

Definition read_indexed_entry (key : bytes) (entry : DiskEntry) (s : DiskShard)
    : io (bytes * DumpValue * Z) :=
  entry_data ← indexed_data entry s;
  match read_single_entry hll_count entry_data with
  | IoErr e => IoErr e
  | IoOk ((stored_key, value, ttl), cursor) =>
      if negb (bytes_eqb stored_key key) || negb (bool_decide (cursor = []))
      then IoErr (InvalidData "disk index does not match the complete record")
      else IoOk (entry_data, value, ttl)
  end.

(** The value and its remaining TTL in milliseconds. *)
Definition get (key : bytes) (now : Z) (s : DiskShard)
    : io (option (DumpValue * option Z)) * DiskShard :=
  match index s !! key with
  | None => (IoOk None, s)
  | Some de =>
      if is_expired de now
      then (IoOk None, set_index (delete key (index s)) (dead_bytes s + len de) s)
      else
        let remaining := remaining_ttl_ms de now in
        match read_indexed_entry key de s with
        | IoErr e => (IoErr e, s)
        | IoOk (_, value, _) =>
            (IoOk (Some (value, if remaining >? 0 then Some remaining else None)), s)
        end
  end.

Definition remove (key : bytes) (s : DiskShard) : DiskShard :=
  match index s !! key with
  | Some de => set_index (delete key (index s)) (dead_bytes s + len de) s
  | None => s
  end.

Definition contains (key : bytes) (s : DiskShard) : bool := bool_decide (is_Some (index s !! key)).

Definition contains_valid (key : bytes) (now : Z) (s : DiskShard) : bool :=
  match index s !! key with
  | Some de => negb (is_expired de now)
  | None => false
  end.

Definition disk_len (s : DiskShard) : nat := size (index s).

Definition sorted_keys (s : DiskShard) : list bytes :=
  merge_sort bytes_le (fst <$> map_to_list (index s)).

(** The loop of [compact_inner]: the replacement file and its index. *)
Fixpoint compact_loop (keys : list bytes) (s : DiskShard) (out : bytes)
    (new_index : gmap bytes DiskEntry) : io (bytes * gmap bytes DiskEntry) :=
  match keys with
  | [] => IoOk (out, new_index)
  | key :: keys =>
      match index s !! key with
      | None => IoErr (InvalidData "tiered index changed")
      | Some old =>
          match read_indexed_entry key old s with
          | IoErr e => IoErr e
          | IoOk (entry_data, _, stored_ttl) =>
              if 8 + zlen entry_data >? u32_max
              then IoErr (InvalidData "tiered entry is too large")
              else
                compact_loop keys s (out ++ envelope entry_data)
                  (<[key := mkDiskEntry (length out) (8 + length entry_data) stored_ttl
                              (created_at old)]> new_index)
          end
      end
  end.

Definition compact (s : DiskShard) : io DiskShard :=
  if negb (compaction_safe s)
  then IoErr (InvalidData "refusing to compact a tiered shard that opened with rejected records")
  else
    '(out, new_index) ← compact_loop (sorted_keys s) s DATA_MAGIC ∅;
    IoOk (mkDisk new_index out 0 (length out) true true).

(** The scan of a checksummed file: index, dead bytes, bytes accounted for, rejected records. *)
Record scan := mkScan { sc_index : gmap bytes DiskEntry; sc_dead : nat; sc_total : nat; sc_bad : nat }.

(** A record of [n] bytes is indexed; its length is kept in 32 bits. *)
Definition scan_insert (key : bytes) (n : nat) (ttl now : Z) (sc : scan) : scan :=
  mkScan (<[key := mkDiskEntry (sc_total sc) (Z.to_nat (as_u32 (Z.of_nat n))) ttl now]> (sc_index sc))
    (match sc_index sc !! key with Some old => sc_dead sc + len old | None => sc_dead sc end)
    (sc_total sc + n) (sc_bad sc).

Fixpoint rebuild_loop (fuel : nat) (now : Z) (input : bytes) (sc : scan) : scan :=
  match fuel with
  | O => sc
  | S fuel =>
      match read_pair read_u32 read_u32 input with
      | IoErr _ => sc
      | IoOk ((entry_len, stored_crc), rest) =>
          if entry_len >? zlen rest then sc
          else
            let entry_data := take (Z.to_nat entry_len) rest in
            let rest := drop (Z.to_nat entry_len) rest in
            let total_on_disk := (8 + Z.to_nat entry_len)%nat in
            let rejected := mkScan (sc_index sc) (sc_dead sc + total_on_disk)
                              (sc_total sc + total_on_disk) (S (sc_bad sc)) in
            if negb (stored_crc =? crc32 entry_data) then rebuild_loop fuel now rest rejected
            else match read_single_entry hll_count entry_data with
                 | IoOk ((key, _, ttl), _) =>
                     rebuild_loop fuel now rest (scan_insert key total_on_disk ttl now sc)
                 | IoErr _ => rebuild_loop fuel now rest rejected
                 end
      end
  end.

(** [open] on an existing checksummed file without compaction leftovers: the scan, and the cut of
    trailing bytes that are not a complete record (reported, which forbids compaction). *)
Definition reopen (content : bytes) (now : Z) : DiskShard :=
  let sc := rebuild_loop (length content) now (drop 4 content) (mkScan ∅ 0 4 0) in
  mkDisk (sc_index sc) (take (sc_total sc) content) (sc_dead sc) (sc_total sc) true
    (bool_decide (sc_bad sc = 0%nat) && bool_decide (sc_total sc = length content)).

(** [dump_all]: every live entry with its remaining TTL. *)
Fixpoint dump_keys (keys : list bytes) (now : Z) (s : DiskShard) : io (list DumpEntry) * DiskShard :=
  match keys with
  | [] => (IoOk [], s)
  | key :: keys =>
      match get key now s with
      | (IoErr e, s) => (IoErr e, s)
      | (IoOk None, s) => dump_keys keys now s
      | (IoOk (Some (value, _)), s) =>
          match index s !! key, dump_keys keys now s with
          | Some de, (IoOk entries, s) =>
              (IoOk (mkDumpEntry key value (remaining_ttl_ms de now) :: entries), s)
          | _, r => r
          end
      end
  end.

Definition dump_all (now : Z) (s : DiskShard) : io (list DumpEntry) * DiskShard :=
  dump_keys (fst <$> map_to_list (index s)) now s.

(** ** The contract of the cold tier *)

(** A cold value, its TTL in milliseconds ([<= 0] for none) and when it was stored. *)
Record cold := mkCold { c_value : DumpValue; c_ttl : Z; c_created : Z }.

Definition cold_expired (c : cold) (now : Z) : bool :=
  if c_ttl c <=? 0 then false else Z.max 0 (now - c_created c) / 1000000 >=? c_ttl c.

(** The entry [e] is stored at [de]. *)
Definition stored_at (file : bytes) (key : bytes) (de : DiskEntry) (e : DumpEntry) : Prop :=
  entry_ok e /\ Forall byte_ok (write_single_entry e) /\ d_key e = key /\
  8 + zlen (write_single_entry e) <= u32_max /\
  (offset de + len de <= length file)%nat /\
  slice file (offset de) (offset de + len de) = envelope (write_single_entry e) /\
  ttl_ms de = stored_ttl (d_ttl_ms e).

Definition represents (file : bytes) (key : bytes) (de : DiskEntry) (c : cold) : Prop :=
  exists e, stored_at file key de e /\ c_value c = stored_value hll_count (d_value e) /\
    c_ttl c = ttl_ms de /\ c_created c = created_at de.

(** The shard implements the map [m]. *)
Definition refines (s : DiskShard) (m : gmap bytes cold) : Prop :=
  total_bytes s = length (data_file s) /\ has_checksums s = true /\
  forall key, option_relation (represents (data_file s) key) (fun _ => False) (fun _ => False)
    (index s !! key) (m !! key).

End Reading.

(** ** Lemmas *)

Section Facts.

Context (hll_count : bytes -> Z).

Lemma envelope_length data : length (envelope data) = (8 + length data)%nat.
Proof. unfold envelope, write_u32. rewrite !length_app, !length_le_bytes. lia. Qed.

Lemma slice_app_l {A} (l k : list A) s e : (e <= length l)%nat -> slice (l ++ k) s e = slice l s e.
Proof.
  intros He. unfold slice. destruct (decide (s <= length l)%nat).
  - rewrite drop_app_le, take_app_le by (rewrite ?length_drop; lia). done.
  - replace (e - s)%nat with 0%nat by lia. by rewrite !take_0.
Qed.

Lemma slice_app_r {A} (l k : list A) n :
  n = length k -> slice (l ++ k) (length l) (length l + n) = k.
Proof.
  intros ->. unfold slice. rewrite drop_app_length, firstn_all2; [done|lia].
Qed.

Lemma envelope_fields data :
  zlen data < u32_mod -> Forall byte_ok data ->
  le_decode (take 4 (envelope data)) = zlen data /\
  le_decode (take 4 (drop 4 (envelope data))) = crc32 data /\
  drop 8 (envelope data) = data.
Proof.
  intros Hl Hb. unfold envelope. rewrite as_u32_len by done.
  assert (length (write_u32 (zlen data)) = 4%nat) as L1 by apply length_le_bytes.
  assert (length (write_u32 (crc32 data)) = 4%nat) as L2 by apply length_le_bytes.
  split_and!.
  - rewrite take_app_le, take_ge by lia. apply le_u32_roundtrip. by apply len_u32_ok.
  - rewrite drop_app_ge, L1 by lia. cbn [Nat.sub]. rewrite drop_0, take_app_le, take_ge by lia.
    apply le_u32_roundtrip. by apply crc32_range.
  - rewrite drop_app_ge, L1 by lia. cbn [Nat.sub]. rewrite drop_app_ge, L2 by lia. done.
Qed.

(** Reading back a stored entry. *)
Lemma read_stored s key de e :
  has_checksums s = true -> stored_at (data_file s) key de e ->
  read_indexed_entry hll_count key de s =
    IoOk (write_single_entry e, stored_value hll_count (d_value e), stored_ttl (d_ttl_ms e)).
Proof.
  intros Hc (Hok & Hb & Hk & Hsz & Hlen & Hs & Ht).
  pose proof (zlen_nonneg (write_single_entry e)).
  assert (zlen (write_single_entry e) < u32_mod) as Hl by (unfold u32_max, u32_mod in *; lia).
  unfold read_indexed_entry, indexed_data.
  replace (drop (offset de) (data_file s)) with (envelope (write_single_entry e) ++
    drop (len de) (drop (offset de) (data_file s))).
  2: { rewrite <-Hs. unfold slice. rewrite Nat.add_comm, Nat.add_sub. by rewrite take_drop. }
  assert (length (envelope (write_single_entry e)) = len de) as Hle.
  { rewrite <-Hs. unfold slice. rewrite length_take, length_drop. lia. }
  rewrite read_exact_app by done. cbn [mbind io_bind]. rewrite Hc.
  destruct (envelope_fields _ Hl Hb) as (E1 & E2 & E3).
  pose proof (envelope_length (write_single_entry e)) as EL.
  rewrite bool_decide_eq_false_2 by lia. rewrite E1, E2, E3.
  replace (zlen (write_single_entry e) =? zlen (envelope (write_single_entry e)) - 8) with true
    by (symmetry; apply Z.eqb_eq; unfold zlen; lia).
  rewrite Z.eqb_refl. cbn [negb mbind io_bind].
  pose proof (rt_entry hll_count e [] Hok) as Er. rewrite app_nil_r in Er. rewrite Er.
  by rewrite Hk, bytes_eqb_refl.
Qed.

Lemma stored_at_app file key de e k :
  stored_at file key de e -> stored_at (file ++ k) key de e.
Proof.
  intros (? & ? & ? & ? & Hl & Hs & ?). unfold stored_at. rewrite slice_app_l by lia.
  rewrite length_app. split_and!; try done. lia.
Qed.

Lemma represents_app file key de c k :
  represents hll_count file key de c -> represents hll_count (file ++ k) key de c.
Proof. intros (e & He & ?). exists e. split; [by apply stored_at_app|done]. Qed.

Lemma stored_at_append file e now :
  entry_ok e -> Forall byte_ok (write_single_entry e) ->
  8 + zlen (write_single_entry e) <= u32_max ->
  stored_at (file ++ envelope (write_single_entry e)) (d_key e)
    (mkDiskEntry (length file) (8 + length (write_single_entry e)) (stored_ttl (d_ttl_ms e)) now) e.
Proof.
  intros Hok Hb Hsz. unfold stored_at. cbn [offset len ttl_ms].
  rewrite slice_app_r by (by rewrite envelope_length).
  rewrite length_app, envelope_length. split_and!; try done; lia.
Qed.

Lemma is_expired_cold file key de c now :
  represents hll_count file key de c -> is_expired de now = cold_expired c now.
Proof.
  intros (e & _ & _ & Ht & Hc). unfold is_expired, cold_expired, elapsed_ms. by rewrite Ht, Hc.
Qed.

Lemma refines_lookup s m key :
  refines hll_count s m ->
  match index s !! key, m !! key with
  | Some de, Some c => represents hll_count (data_file s) key de c
  | None, None => True
  | _, _ => False
  end.
Proof. intros (_ & _ & H). specialize (H key). by destruct (index s !! key), (m !! key). Qed.

Lemma refines_set_index s m key dead :
  refines hll_count s m ->
  refines hll_count (set_index (delete key (index s)) dead s) (delete key m).
Proof.
  intros (Ht & Hc & Hr). split; [done|]. split; [done|]. intros k. cbn [index set_index data_file].
  destruct (decide (k = key)) as [->|Hne]; [rewrite !lookup_delete_eq; done|].
  rewrite !lookup_delete_ne by done. apply Hr.
Qed.

Lemma stored_at_put s e now :
  entry_ok e -> Forall byte_ok (write_single_entry e) ->
  8 + zlen (write_single_entry e) <= u32_max -> total_bytes s = length (data_file s) ->
  stored_at (data_file s ++ envelope (write_single_entry e)) (d_key e)
    (mkDiskEntry (total_bytes s) (Z.to_nat (as_u32 (Z.of_nat (8 + length (write_single_entry e)))))
       (if d_ttl_ms e >? 0 then d_ttl_ms e else -1) now) e.
Proof.
  intros Hok Hb Hsz ->. rewrite as_u32_small.
  2: { unfold zlen, u32_max, u32_mod in *. lia. }
  rewrite Nat2Z.id. by apply stored_at_append.
Qed.

Lemma put_refines s m key e now :
  refines hll_count s m -> entry_ok e -> Forall byte_ok (write_single_entry e) -> d_key e = key ->
  8 + zlen (write_single_entry e) <= u32_max ->
  exists s', put None key e now s = (true, s') /\
    refines hll_count s' (<[key := mkCold (stored_value hll_count (d_value e))
                             (stored_ttl (d_ttl_ms e)) now]> m).
Proof.
  intros (Ht & Hc & Hr) Hok Hb <- Hsz. eexists. split; [reflexivity|].
  split; [cbn [total_bytes data_file]; rewrite length_app, envelope_length; lia|].
  split; [done|]. intros k. cbn [index data_file].
  destruct (decide (k = d_key e)) as [->|Hne].
  - rewrite !lookup_insert_eq. cbn [option_relation]. exists e.
    split; [by apply stored_at_put|]. done.
  - rewrite !lookup_insert_ne by done. specialize (Hr k).
    destruct (index s !! k), (m !! k); cbn in *; try done. by apply represents_app.
Qed.

(** What [get] gives of a cold value. *)
Definition cold_get (c : cold) (now : Z) : DumpValue * option Z :=
  (c_value c,
   let remaining := c_ttl c - Z.max 0 (now - c_created c) / 1000000 in
   if (c_ttl c >? 0) && (remaining >? 0) then Some remaining else None).

Lemma get_refines s m key now :
  refines hll_count s m ->
  match m !! key with
  | None => get hll_count key now s = (IoOk None, s)
  | Some c =>
      if cold_expired c now
      then exists s', get hll_count key now s = (IoOk None, s') /\
             refines hll_count s' (delete key m)
      else get hll_count key now s = (IoOk (Some (cold_get c now)), s)
  end.
Proof.
  intros Hr. pose proof (refines_lookup _ _ key Hr) as Hk. unfold get.
  destruct (index s !! key) as [de|] eqn:Ei, (m !! key) as [c|] eqn:Em; try done.
  rewrite (is_expired_cold _ _ _ _ now Hk). destruct (cold_expired c now) eqn:Ee.
  - eexists. split; [done|]. by apply refines_set_index.
  - destruct Hk as (e & He & Hv & Ht & Hcr). pose proof Hr as (_ & Hc & _).
    rewrite (read_stored s key de e Hc He). unfold cold_get. rewrite Hv, Ht, Hcr.
    do 3 f_equal. unfold remaining_ttl_ms, elapsed_ms, cold_expired in *. rewrite Ht, Hcr in Ee.
    set (el := Z.max 0 (now - created_at de) / 1000000) in *.
    destruct (Z.leb_spec (ttl_ms de) 0), (Z.gtb_spec (ttl_ms de) 0); try lia; cbn [andb]; [done|].
    destruct (Z.leb_spec (ttl_ms de - el) 0), (Z.gtb_spec (ttl_ms de - el) 0); try lia; try done.
Qed.

Lemma remove_refines s m key :
  refines hll_count s m -> refines hll_count (remove key s) (delete key m).
Proof.
  intros Hr. unfold remove. pose proof (refines_lookup _ _ key Hr) as Hk.
  destruct (index s !! key) as [de|] eqn:Ei, (m !! key) as [c|] eqn:Em; try done.
  - by apply refines_set_index.
  - by rewrite delete_id.
Qed.

Lemma contains_refines s m key :
  refines hll_count s m -> contains key s = bool_decide (is_Some (m !! key)).
Proof.
  intros Hr. pose proof (refines_lookup _ _ key Hr) as Hk. unfold contains.
  destruct (index s !! key), (m !! key); try done; apply bool_decide_ext;
    split; intros [? ?]; eauto.
Qed.

Lemma contains_valid_refines s m key now :
  refines hll_count s m ->
  contains_valid key now s =
    match m !! key with Some c => negb (cold_expired c now) | None => false end.
Proof.
  intros Hr. pose proof (refines_lookup _ _ key Hr) as Hk. unfold contains_valid.
  destruct (index s !! key), (m !! key); try done. by rewrite (is_expired_cold _ _ _ _ now Hk).
Qed.

(** ** Lemmas: compaction *)

(** The replacement built so far represents exactly the processed keys. *)
Definition partial (done_keys : list bytes) (m : gmap bytes cold) (out : bytes)
    (ni : gmap bytes DiskEntry) : Prop :=
  forall key, match ni !! key with
              | Some de => key ∈ done_keys /\ exists c, m !! key = Some c /\
                             represents hll_count out key de c
              | None => key ∉ done_keys
              end.

Lemma compact_loop_ok keys s m done_keys out ni :
  refines hll_count s m -> (forall k, k ∈ keys -> is_Some (index s !! k)) ->
  partial done_keys m out ni ->
  exists out' ni', compact_loop hll_count keys s out ni = IoOk (out', ni') /\
    partial (done_keys ++ keys) m out' ni'.
Proof.
  intros Hr. revert done_keys out ni. induction keys as [|key keys IH]; intros dk out ni Hk Hp.
  - exists out, ni. by rewrite app_nil_r.
  - destruct (Hk key) as [de Hde]; [by left|].
    pose proof (refines_lookup _ _ key Hr) as Hl. rewrite Hde in Hl.
    destruct (m !! key) as [c|] eqn:Em; [|done]. destruct Hl as (e & He & Hv & Ht & Hcr).
    pose proof Hr as (_ & Hc & _). cbn [compact_loop].
    rewrite Hde, (read_stored s key de e Hc He).
    pose proof He as (Hok & Hb & Hkey & Hsz & _ & _ & Htt).
    destruct (Z.gtb_spec (8 + zlen (write_single_entry e)) u32_max); [lia|].
    destruct (IH (dk ++ [key]) (out ++ envelope (write_single_entry e))
      (<[key := mkDiskEntry (length out) (8 + length (write_single_entry e))
                  (stored_ttl (d_ttl_ms e)) (created_at de)]> ni)) as (out' & ni' & E & Hp').
    + intros k Hin. apply Hk. by right.
    + intros k. destruct (decide (k = key)) as [->|Hne].
      * rewrite lookup_insert_eq. split; [set_solver|]. exists c. split; [done|]. exists e.
        rewrite <-Hkey at 1. split; [rewrite Hkey at 1; by (rewrite <-Hkey at 1; apply stored_at_append)|].
        cbn [ttl_ms created_at]. rewrite <-Htt. done.
      * rewrite lookup_insert_ne by done. specialize (Hp k). destruct (ni !! k) as [de'|].
        -- destruct Hp as (Hin & c' & Hc' & Hrep). split; [set_solver|].
           exists c'. split; [done|]. by apply represents_app.
        -- rewrite elem_of_app, list_elem_of_singleton. tauto.
    + exists out', ni'. split; [done|]. by rewrite <-(assoc_L (++)) in Hp'.
Qed.

Lemma sorted_keys_elem s k : k ∈ sorted_keys s <-> is_Some (index s !! k).
Proof.
  unfold sorted_keys. rewrite merge_sort_Permutation, list_elem_of_fmap. split.
  - intros ([k' de] & -> & Hin%elem_of_map_to_list). eauto.
  - intros [de Hde]. exists (k, de). split; [done|]. by apply elem_of_map_to_list.
Qed.

Lemma compact_refines s m :
  refines hll_count s m -> compaction_safe s = true ->
  exists s', compact hll_count s = IoOk s' /\ refines hll_count s' m /\
    dead_bytes s' = 0%nat /\ compaction_safe s' = true.
Proof.
  intros Hr Hsafe. unfold compact. rewrite Hsafe. cbn [negb].
  destruct (compact_loop_ok (sorted_keys s) s m [] DATA_MAGIC ∅ Hr) as (out & ni & -> & Hp).
  { intros k. apply sorted_keys_elem. }
  { intros k. rewrite lookup_empty. set_solver. }
  cbn [mbind io_bind]. eexists. split; [done|]. split; [|done].
  split; [done|]. split; [done|]. intros k. cbn [index data_file]. specialize (Hp k).
  cbn [app] in Hp. pose proof (refines_lookup _ _ k Hr) as Hl.
  destruct (ni !! k) as [de|].
  - destruct Hp as (_ & c & -> & Hrep). done.
  - rewrite sorted_keys_elem in Hp. destruct (index s !! k); [destruct Hp; eauto|].
    by destruct (m !! k).
Qed.

Lemma create_refines : refines hll_count create ∅.
Proof. split; [done|]. split; [done|]. intros k. by rewrite !lookup_empty. Qed.

(** ** Operations on a shard and on its specification *)

Inductive op :=
| OpPut (dump : DumpEntry) (now : Z)
| OpGet (key : bytes) (now : Z)
| OpRemove (key : bytes)
| OpCompact.

Definition op_ok (o : op) : Prop :=
  match o with
  | OpPut e _ => entry_ok e /\ Forall byte_ok (write_single_entry e) /\
                 8 + zlen (write_single_entry e) <= u32_max
  | _ => True
  end.

(** What an operation answers: only [get] returns a value. *)
Definition run_op (o : op) (s : DiskShard) : io (option (DumpValue * option Z)) * DiskShard :=
  match o with
  | OpPut e now => (IoOk None, (put None (d_key e) e now s).2)
  | OpGet key now => get hll_count key now s
  | OpRemove key => (IoOk None, remove key s)
  | OpCompact => match compact hll_count s with
                 | IoOk s' => (IoOk None, s')
                 | IoErr e => (IoErr e, s)
                 end
  end.

Definition spec_op (o : op) (m : gmap bytes cold) : option (DumpValue * option Z) * gmap bytes cold :=
  match o with
  | OpPut e now =>
      (None, <[d_key e := mkCold (stored_value hll_count (d_value e)) (stored_ttl (d_ttl_ms e)) now]> m)
  | OpGet key now =>
      match m !! key with
      | None => (None, m)
      | Some c => if cold_expired c now then (None, delete key m) else (Some (cold_get c now), m)
      end
  | OpRemove key => (None, delete key m)
  | OpCompact => (None, m)
  end.

Fixpoint run_ops (os : list op) (s : DiskShard) : list (io (option (DumpValue * option Z))) * DiskShard :=
  match os with
  | [] => ([], s)
  | o :: os => let '(r, s) := run_op o s in let '(rs, s) := run_ops os s in (r :: rs, s)
  end.

Fixpoint spec_ops (os : list op) (m : gmap bytes cold) : list (option (DumpValue * option Z)) * gmap bytes cold :=
  match os with
  | [] => ([], m)
  | o :: os => let '(r, m) := spec_op o m in let '(rs, m) := spec_ops os m in (r :: rs, m)
  end.

Lemma run_op_refines o s m :
  refines hll_count s m -> compaction_safe s = true -> op_ok o ->
  let '(r, s') := run_op o s in
  r = IoOk (spec_op o m).1 /\ refines hll_count s' (spec_op o m).2 /\ compaction_safe s' = true.
Proof.
  intros Hr Hs Ho. destruct o as [e now|key now|key|]; cbn [run_op spec_op].
  - destruct Ho as (Hok & Hb & Hsz).
    destruct (put_refines s m (d_key e) e now Hr Hok Hb eq_refl Hsz) as (s' & E & Hr').
    rewrite E. split; [done|]. split; [done|]. unfold put in E. injection E as <-. done.
  - pose proof (get_refines s m key now Hr) as Hg. destruct (m !! key) as [c|].
    + destruct (cold_expired c now).
      * destruct Hg as (s' & E & Hr'). rewrite E. split; [done|]. split; [done|].
        unfold get in E. repeat case_match; simplify_eq; done.
      * by rewrite Hg.
    + by rewrite Hg.
  - split; [done|]. split; [by apply remove_refines|]. unfold remove. by case_match.
  - destruct (compact_refines s m Hr Hs) as (s' & -> & Hr' & _ & Hs'). done.
Qed.

End Facts.

(** C8. The cold tier is a map with expiry. Whatever sequence of evictions, reads, removals and
    compactions is run on a fresh shard, every answer is the one of the abstract map from keys to
    (value, TTL, time stored): records are found under their key, validated, with the remaining
    TTL; expired ones are absent; a compaction changes no answer. *)
Theorem cold_tier_refines (hll_count : bytes -> Z) (os : list op) :
  Forall op_ok os ->
  let '(rs, s) := run_ops hll_count os create in
  let '(rs', m) := spec_ops hll_count os ∅ in
  rs = IoOk <$> rs' /\ refines hll_count s m.
Proof.
  intros Hos. generalize (create_refines hll_count) (eq_refl : compaction_safe create = true).
  generalize create (∅ : gmap bytes cold). induction Hos as [|o os Ho _ IH]; intros s m Hr Hs; [done|].
  cbn [run_ops spec_ops]. pose proof (run_op_refines hll_count o s m Hr Hs Ho) as H.
  destruct (run_op hll_count o s) as [r s1], (spec_op hll_count o m) as [r' m1].
  destruct H as (-> & Hr1 & Hs1). specialize (IH s1 m1 Hr1 Hs1).
  destruct (run_ops hll_count os s1) as [rs s2], (spec_ops hll_count os m1) as [rs' m2].
  destruct IH as [-> ?]. done.
Qed.

Lemma sample_op_ok : op_ok (OpPut (mkDumpEntry (bs "k") (DStr [1; 2]) 50) 0).
Proof.
  split; [|split].
  - split; [split; reflexivity|]. split; [unfold i64_ok, i64_min, i64_max; simpl; lia|reflexivity].
  - repeat constructor; vm_compute; intros; discriminate.
  - vm_compute. discriminate.
Qed.

Lemma cold_tier_refines_witness :
  let os := [OpPut (mkDumpEntry (bs "k") (DStr [1; 2]) 50) 0; OpCompact;
             OpGet (bs "k") 20000000; OpGet (bs "k") 50000000] in
  let '(rs, s) := run_ops (fun _ => 0) os create in
  let '(rs', m) := spec_ops (fun _ => 0) os ∅ in
  rs = IoOk <$> rs' /\ refines (fun _ => 0) s m.
Proof.
  apply (cold_tier_refines (fun _ => 0)
    [OpPut (mkDumpEntry (bs "k") (DStr [1; 2]) 50) 0; OpCompact;
     OpGet (bs "k") 20000000; OpGet (bs "k") 50000000]).
  repeat (apply Forall_cons; split); try apply Forall_nil; try exact I. exact sample_op_ok.
Defined.

(** A TTL that has run out before the entry is stored is lost: an entry evicted with no whole
    millisecond left is stored without expiry, and the cold tier never treats it as expired. *)
Theorem expired_ttl_becomes_permanent (hll_count : bytes -> Z) (s : DiskShard)
    (m : gmap bytes cold) (e : DumpEntry) (now : Z) :
  refines hll_count s m -> op_ok (OpPut e now) -> d_ttl_ms e <= 0 ->
  exists s', put None (d_key e) e now s = (true, s') /\
    forall later, get hll_count (d_key e) later s' =
      (IoOk (Some (stored_value hll_count (d_value e), None)), s').
Proof.
  intros Hr (Hok & Hb & Hsz) Ht.
  destruct (put_refines hll_count s m (d_key e) e now Hr Hok Hb eq_refl Hsz) as (s' & E & Hr').
  exists s'. split; [done|]. intros later.
  pose proof (get_refines hll_count s' _ (d_key e) later Hr') as Hg.
  rewrite lookup_insert_eq in Hg. unfold cold_expired, cold_get, stored_ttl in Hg.
  cbn [c_ttl c_value c_created] in Hg.
  destruct (Z.gtb_spec (d_ttl_ms e) 0); [lia|]. cbn in Hg. done.
Qed.

Lemma expired_ttl_becomes_permanent_witness :
  let e := mkDumpEntry (bs "k") (DStr [1]) 0 in
  exists s', put None (bs "k") e 0 create = (true, s') /\
    forall later, get (fun _ => 0) (bs "k") later s' =
      (IoOk (Some (stored_value (fun _ => 0) (DStr [1]), None)), s').
Proof.
  apply (expired_ttl_becomes_permanent (fun _ => 0) create ∅ (mkDumpEntry (bs "k") (DStr [1]) 0) 0).
  - apply create_refines.
  - split; [|split].
    + split; [split; reflexivity|]. split; [unfold i64_ok, i64_min, i64_max; simpl; lia|reflexivity].
    + repeat constructor; vm_compute; intros; discriminate.
    + vm_compute. discriminate.
  - simpl. lia.
Defined.

(** ** Reopening a data file *)

Section Reopen.

Context (hll_count : bytes -> Z).

Definition records (es : list DumpEntry) : bytes :=
  concat ((fun e => envelope (write_single_entry e)) <$> es).

Definition entry_storable (e : DumpEntry) : Prop := op_ok (OpPut e 0).

(** The map after evicting [es] in order, with the clock restarted at [now]. *)
Definition latest (now : Z) (es : list DumpEntry) (m : gmap bytes cold) : gmap bytes cold :=
  foldl (fun m e => <[d_key e := mkCold (stored_value hll_count (d_value e))
                                 (stored_ttl (d_ttl_ms e)) now]> m) m es.

Lemma read_envelope_header data rest :
  Forall byte_ok data -> zlen data < u32_mod ->
  read_pair read_u32 read_u32 (envelope data ++ rest) = IoOk ((zlen data, crc32 data), data ++ rest).
Proof.
  intros Hb Hl. unfold envelope. rewrite as_u32_len, <-!(assoc_L (++)) by done.
  rewrite (assoc_L (++)).
  apply (rt_pair _ _ _ _ _ _ rt_u32 rt_u32 (zlen data, crc32 data) (data ++ rest)).
  split; [by apply len_u32_ok|by apply crc32_range].
Qed.

Lemma rebuild_loop_torn fuel now e torn sc :
  entry_storable e -> incomplete torn (envelope (write_single_entry e)) ->
  rebuild_loop hll_count fuel now torn sc = sc.
Proof.
  intros (_ & Hb & Hsz) Ht. destruct fuel as [|fuel]; [done|]. cbn [rebuild_loop].
  set (data := write_single_entry e) in *.
  assert (zlen data < u32_mod) as Hl by (unfold u32_max, u32_mod in *; lia).
  unfold envelope in Ht. rewrite (assoc_L (++)) in Ht.
  apply incomplete_app in Ht as [Ht|(q & -> & Ht)].
  - apply incomplete_length in Ht. unfold write_u32 in Ht.
    rewrite length_app, !length_le_bytes in Ht.
    destruct (read_pair read_u32 read_u32 torn) as [[[a b] r]|] eqn:E; [|done].
    unfold read_pair, mbind, reader_bind, mret, reader_ret in E.
    destruct (read_u32 torn) as [[a' r1]|] eqn:E1; [|done].
    destruct (read_u32 r1) as [[b' r2]|] eqn:E2; [|done].
    assert (forall i v r, read_u32 i = IoOk (v, r) -> (length i = 4 + length r)%nat) as Hrd.
    { intros i v r'. unfold read_u32, mbind, reader_bind, read_exact. case_bool_decide; [done|].
      intros [= <- <-]. rewrite length_drop. lia. }
    apply Hrd in E1, E2. lia.
  - apply incomplete_length in Ht. rewrite as_u32_len by done.
    pose proof (rt_pair _ _ _ _ _ _ rt_u32 rt_u32 (zlen data, crc32 data) q) as E.
    cbn [fst snd] in E. rewrite E; [|split; [by apply len_u32_ok|by apply crc32_range]].
    destruct (Z.gtb_spec (zlen data) (zlen q)); [done|unfold zlen in *; lia].
Qed.

Lemma rebuild_loop_ok es torn now fuel pre sc m :
  Forall entry_storable es -> (forall fuel sc, rebuild_loop hll_count fuel now torn sc = sc) ->
  (length (records es ++ torn) <= fuel)%nat -> sc_total sc = length pre ->
  (forall k, option_relation (represents hll_count pre k) (fun _ => False) (fun _ => False)
     (sc_index sc !! k) (m !! k)) ->
  let sc' := rebuild_loop hll_count fuel now (records es ++ torn) sc in
  sc_total sc' = length (pre ++ records es) /\ sc_bad sc' = sc_bad sc /\
  forall k, option_relation (represents hll_count (pre ++ records es) k) (fun _ => False)
    (fun _ => False) (sc_index sc' !! k) (latest now es m !! k).
Proof.
  intros Hes Ht. revert fuel pre sc m.
  induction Hes as [|e es He _ IH]; intros fuel pre sc m Hf Htot Hrel; cbn zeta.
  - unfold records. cbn. rewrite Ht, app_nil_r. done.
  - assert (records (e :: es) = envelope (write_single_entry e) ++ records es) as Er by done.
    rewrite Er in *. set (data := write_single_entry e) in *.
    rewrite <-(assoc_L (++)) in *. rewrite length_app, envelope_length in Hf.
    destruct fuel as [|fuel]; [lia|]. cbn [rebuild_loop].
    pose proof He as (Hok & Hb & Hsz). fold data in Hb, Hsz.
    assert (zlen data < u32_mod) as Hl by (unfold u32_max, u32_mod in *; lia).
    rewrite read_envelope_header by done.
    destruct (Z.gtb_spec (zlen data) (zlen (data ++ records es ++ torn))) as [H|_].
    { rewrite zlen_app in H. pose proof (zlen_nonneg (records es ++ torn)). lia. }
    replace (Z.to_nat (zlen data)) with (length data) by (unfold zlen; lia).
    rewrite take_app_length, drop_app_length, Z.eqb_refl. cbn [negb].
    pose proof (rt_entry hll_count e [] Hok) as Ert. rewrite app_nil_r in Ert. fold data in Ert.
    rewrite Ert. cbn [latest foldl].
    specialize (IH fuel (pre ++ envelope data)
      (scan_insert (d_key e) (8 + length data) (stored_ttl (d_ttl_ms e)) now sc)
      (<[d_key e := mkCold (stored_value hll_count (d_value e)) (stored_ttl (d_ttl_ms e)) now]> m)).
    rewrite <-(assoc_L (++)) in IH. apply IH; [lia| |].
    + cbn [scan_insert sc_total]. rewrite length_app, envelope_length. lia.
    + intros k. cbn [scan_insert sc_index]. rewrite (as_u32_small (Z.of_nat (8 + length data))), Nat2Z.id
        by (unfold u32_max, u32_mod, zlen in *; lia). destruct (decide (k = d_key e)) as [->|Hne].
      * rewrite !lookup_insert_eq. cbn [option_relation]. exists e. split; [|done].
        rewrite Htot. by apply stored_at_append.
      * rewrite !lookup_insert_ne by done. specialize (Hrel k).
        destruct (sc_index sc !! k), (m !! k); cbn in *; try done. by apply represents_app.
Qed.

End Reopen.

(** Startup scan. A data file that holds complete records followed by the torn bytes of one
    interrupted eviction reopens as the map in which every key has its last record (clocks restart
    at the opening time); the torn bytes are cut off; and compaction stays allowed exactly when
    nothing was cut. *)
Theorem reopen_recovers (hll_count : bytes -> Z) (es : list DumpEntry) (e : DumpEntry)
    (torn : bytes) (now : Z) :
  Forall entry_storable es -> entry_storable e ->
  incomplete torn (envelope (write_single_entry e)) ->
  let s := reopen hll_count (DATA_MAGIC ++ records es ++ torn) now in
  refines hll_count s (latest hll_count now es ∅) /\
  data_file s = DATA_MAGIC ++ records es /\
  compaction_safe s = bool_decide (torn = []).
Proof.
  intros Hes He Ht s.
  destruct (rebuild_loop_ok hll_count es torn now (length (DATA_MAGIC ++ records es ++ torn))
    DATA_MAGIC (mkScan ∅ 0 4 0) ∅ Hes) as (Htot & Hbad & Hrel).
  - intros fuel sc. by eapply rebuild_loop_torn.
  - rewrite (length_app DATA_MAGIC). lia.
  - done.
  - intros k. by rewrite !lookup_empty.
  - unfold s, reopen. cbn zeta. cbn [data_file compaction_safe index].
    change (drop 4 (DATA_MAGIC ++ records es ++ torn)) with (records es ++ torn).
    rewrite Htot, Hbad. rewrite (assoc_L (++)), take_app_length. split_and!.
    + split; [done|]. split; [done|]. intros k. cbn [index data_file]. apply Hrel.
    + done.
    + cbn [sc_bad]. rewrite bool_decide_eq_true_2 by done. cbn [andb]. apply bool_decide_ext.
      rewrite !length_app. split; [intros; apply nil_length_inv; lia|intros ->; simpl; lia].
Qed.

Lemma reopen_recovers_witness :
  let e := mkDumpEntry (bs "k") (DStr [1; 2]) 50 in
  let s := reopen (fun _ => 0) (DATA_MAGIC ++ records [e; e] ++ [20]) 0 in
  refines (fun _ => 0) s (latest (fun _ => 0) 0 [e; e] ∅) /\
  data_file s = DATA_MAGIC ++ records [e; e] /\ compaction_safe s = bool_decide ([20] = @nil Z).
Proof.
  apply (reopen_recovers (fun _ => 0) _ (mkDumpEntry (bs "k") (DStr [1; 2]) 50) [_] 0).
  - apply Forall_cons; split; [exact sample_op_ok|]. apply Forall_singleton. exact sample_op_ok.
  - exact sample_op_ok.
  - vm_compute. eexists. split; [|reflexivity]. discriminate.
Defined.

End Disk.
