(* ===== verification/Compaction.v ===== *)
(** * Opening and compacting a shard of the cold tier ([src/src/disk.rs], [DiskShard::open],
      [remove_compaction_artifacts], [compact_inner], [rebuild_index])

    [Disk.compact] says what a compaction writes. This file is about how it is installed: a staging
    file is written and synced, the current data file gets a second name, the staging file is
    renamed over the first name, and the second name goes, with a sync of the directory after each
    of the three changes. A crash may come between any two steps; what the directory then shows is
    what the last sync made durable plus any of the changes made since, and a file that was not
    synced may hold anything. [open] picks the data file up again.

    The directory maps three names to files: the data file, the backup [data.prev], and the staging
    files, of which there is at most one new one (earlier ones are removed first). *)

From S2P Require Import Prelude.
From S2P Require Import Codec.
From S2P Require Import Disk.
Local Open Scope Z_scope.

Module Compaction.
Import Codec.Codec Disk.Disk.

(** ** Opening *)

(** A directory as it is found: the contents under each name. *)
Record Dir := mkDir { target : option bytes; backup : option bytes; temps : list bytes }.

(** The scan of a file without envelopes: complete entries up to the end of the file. *)
Fixpoint rebuild_legacy (hll_count : bytes -> Z) (fuel : nat) (now : Z) (input : bytes) (sc : scan)
    : io scan :=
  match fuel with
  | O => IoOk sc
  | S fuel =>
      if bool_decide (input = []) then IoOk sc
      else match read_single_entry hll_count input with
           | IoOk ((key, _, ttl), rest) =>
               let n := (length input - length rest)%nat in
               let length := as_u32 (Z.of_nat n) in
               rebuild_legacy hll_count fuel now rest (scan_insert key (Z.to_nat length) ttl now sc)
           | IoErr UnexpectedEof => IoOk sc
           | IoErr e => IoErr e
           end
  end.

(** [rebuild_index] on a file that is not empty. *)
Definition rebuild_index (hll_count : bytes -> Z) (has_checksums : bool) (content : bytes) (now : Z) : io scan :=
  if has_checksums
  then IoOk (rebuild_loop hll_count (length content) now (drop 4 content) (mkScan ∅ 0 4 0))
  else rebuild_legacy hll_count (length content) now content (mkScan ∅ 0 0 0).

Definition remove_compaction_artifacts (d : Dir) : Dir := mkDir (target d) None [].

Definition open (hll_count : bytes -> Z) (d : Dir) (now : Z) : io (DiskShard * Dir) :=
  let backup_exists := bool_decide (is_Some (backup d)) in
  let restored :=
    match target d, backup d, temps d with
    | None, Some b, _ => IoOk (mkDir (Some b) None (temps d))
    | None, None, _ :: _ =>
        IoErr (InvalidData "tiered data file is missing beside an interrupted compaction")
    | _, _, _ => IoOk d
    end in
  d ← restored;
  let content := default [] (target d) in
  if bool_decide (content = []) then
    if backup_exists
    then IoErr (InvalidData "tiered canonical generation is empty; previous generation preserved")
    else IoOk (create, remove_compaction_artifacts (mkDir (Some DATA_MAGIC) (backup d) (temps d)))
  else
    let has_checksums := bytes_eqb (take 4 content) DATA_MAGIC in
    sc ← rebuild_index hll_count has_checksums content now;
    let cut := negb (bool_decide (sc_total sc = length content)) in
    if cut && backup_exists
    then IoErr (InvalidData "tiered canonical generation is incomplete; previous generation preserved")
    else
      let content := take (sc_total sc) content in
      let clean := bool_decide (sc_bad sc = 0%nat) && negb cut in
      let d := mkDir (Some content) (backup d) (temps d) in
      IoOk (mkDisk (sc_index sc) content (sc_dead sc) (sc_total sc) has_checksums clean,
            if clean then remove_compaction_artifacts d else d).

(** ** The file system under a compaction *)

(** The two files involved. *)
Inductive inode := Old | New.

Record Names := mkNames { n_target : inode; n_backup : option inode; n_temp : option inode }.

(** Changes of the directory. *)
Inductive fsop := Create | Link | Rename | Unlink | RemoveTemp.

Definition apply (n : Names) (o : fsop) : Names :=
  match o with
  | Create => mkNames (n_target n) (n_backup n) (Some New)
  | Link => mkNames (n_target n) (Some (n_target n)) (n_temp n)
  | Rename => mkNames New (n_backup n) None
  | Unlink => mkNames (n_target n) None (n_temp n)
  | RemoveTemp => mkNames (n_target n) (n_backup n) None
  end.

(** The directory as of the last sync, the changes since, the contents of the new file and whether
    they are synced. The old file is synced. *)
Record Fs := mkFs { durable : Names; pending : list fsop; staged : bytes; staged_synced : bool }.

Definition visible (f : Fs) : Names := foldl apply (durable f) (pending f).

Inductive step :=
| Change (o : fsop)
| WriteStaged (b : bytes)
| SyncStaged
| SyncDir.

Definition exec (f : Fs) (s : step) : Fs :=
  match s with
  | Change o => mkFs (durable f) (pending f ++ [o]) (staged f) (staged_synced f)
  | WriteStaged b => mkFs (durable f) (pending f) (staged f ++ b) false
  | SyncStaged => mkFs (durable f) (pending f) (staged f) true
  | SyncDir => mkFs (visible f) [] (staged f) (staged_synced f)
  end.

(** The steps of [compact_inner] that write [new] and install it; [publish] is the rename. *)
Definition prepare_steps (new : bytes) : list step :=
  [Change Create; WriteStaged new; SyncStaged; Change Link; SyncDir].
Definition publish_steps : list step := [Change Rename; SyncDir; Change Unlink; SyncDir].
Definition compact_steps (new : bytes) : list step := prepare_steps new ++ publish_steps.

(** A directory without leftovers, as [remove_compaction_artifacts] leaves it. *)
Definition clean_fs : Fs := mkFs (mkNames Old None None) [] [] false.

Definition run (f : Fs) (l : list step) : Fs := foldl exec f l.

(** What is found after a crash: any of the pending changes, in order, and any contents for a file
    that was not synced. *)
Definition crash (f : Fs) (old : bytes) (d : Dir) : Prop :=
  exists sub garbage,
    sublist sub (pending f) /\
    let n := foldl apply (durable f) sub in
    let file i := match i with Old => old | New => if staged_synced f then staged f else garbage end in
    d = mkDir (Some (file (n_target n))) (file <$> n_backup n) (option_list (file <$> n_temp n)).

(** ** Compaction of a shard *)

(** [remove_compaction_artifacts]: the directory is synced first when there is a backup. *)
Definition cleanup_steps (f : Fs) : list step :=
  match n_backup (visible f), n_temp (visible f) with
  | None, None => []
  | None, Some _ => [Change RemoveTemp; SyncDir]
  | Some _, None => [SyncDir; Change Unlink; SyncDir]
  | Some _, Some _ => [SyncDir; Change RemoveTemp; Change Unlink; SyncDir]
  end.

(** Every step of an attempt that installs [new]: all of them, or up to the one that fails and then
    the clean-up, if the replacement was not published yet. *)
Definition compaction_trace (fails : option nat) (new : bytes) : list step :=
  match fails with
  | None => compact_steps new
  | Some n =>
      let started := take n (compact_steps new) in
      if bool_decide (n <= length (prepare_steps new))%nat
      then started ++ cleanup_steps (run clean_fs started)
      else started
  end.

(** [compact_inner]: the answer and the shard. [fails] is the number of the step that fails. A
    failure before the rename leaves the shard as it was. Errors of kind [Interrupted], which only
    tests inject, are left out. *)
Definition compact_inner (hll_count : bytes -> Z) (fails : option nat) (s : DiskShard) : io unit * DiskShard :=
  match compact hll_count s with
  | IoErr e => (IoErr e, s)
  | IoOk s' =>
      match fails with
      | None => (IoOk tt, s')
      | Some n =>
          if bool_decide (n <= length (prepare_steps (data_file s')))%nat
          then (IoErr (InvalidData "tiered compaction failed"), s)
          else (IoErr (InvalidData "tiered compaction failed"), s')
      end
  end.

(** ** What a crash leaves *)

(** The replacement is, or may become, the data file. *)
Definition installed (f : Fs) : Prop := n_target (durable f) = New \/ Rename ∈ pending f.

Lemma apply_target sub : forall n, n_target (foldl apply n sub) = New -> n_target n = New \/ Rename ∈ sub.
Proof.
  induction sub as [|o sub IH]; intros n; [by left|]. cbn [foldl]. intros H%IH.
  destruct H as [H|H]; [|right; set_solver]. destruct o; cbn in H; try (by left). right. set_solver.
Qed.

Lemma crash_target f old new d :
  (installed f -> staged_synced f = true /\ staged f = new) -> crash f old d ->
  target d = Some old \/ target d = Some new.
Proof.
  intros Hi (sub & garbage & Hsub & ->). cbn [target].
  destruct (n_target (foldl apply (durable f) sub)) eqn:E; [by left|]. right.
  destruct Hi as [-> ->]; [|done]. apply apply_target in E as [E|E]; [by left|]. right.
  eapply elem_of_submseteq; [exact E|by apply sublist_submseteq].
Qed.

(** A step that keeps an installed replacement complete. *)
Definition step_safe (new : bytes) (f : Fs) (s : step) : Prop :=
  match s with
  | Change Rename => staged_synced f = true /\ staged f = new
  | WriteStaged _ => ~ installed f
  | _ => True
  end.

Fixpoint trace_safe (new : bytes) (f : Fs) (l : list step) : Prop :=
  match l with
  | [] => True
  | s :: l => step_safe new f s /\ trace_safe new (exec f s) l
  end.

Lemma exec_installed new f s :
  (installed f -> staged_synced f = true /\ staged f = new) -> step_safe new f s ->
  installed (exec f s) -> staged_synced (exec f s) = true /\ staged (exec f s) = new.
Proof.
  unfold installed. intros Hi Hs. destruct s as [o|b| |]; cbn in *.
  - intros [H|[H|H%list_elem_of_singleton]%elem_of_app]; [auto..|]. by subst o.
  - intros H. destruct (Hs H).
  - intros H. destruct (Hi H). done.
  - intros [H|H]; [|set_solver]. apply apply_target in H. auto.
Qed.

Lemma run_installed new l : forall f k,
  (installed f -> staged_synced f = true /\ staged f = new) -> trace_safe new f l ->
  installed (run f (take k l)) -> staged_synced (run f (take k l)) = true /\ staged (run f (take k l)) = new.
Proof.
  induction l as [|s l IH]; intros f k Hi; [by rewrite take_nil|]. intros [Hs Hl].
  destruct k as [|k]; [done|]. cbn [take run foldl]. apply IH; [|done]. by apply exec_installed.
Qed.

Lemma trace_is_safe fails new : trace_safe new clean_fs (compaction_trace fails new).
Proof.
  assert (~ installed (exec clean_fs (Change Create))) as H by (intros [H|H]; [done|cbn in H; set_solver]).
  destruct fails as [n|]; [|by cbn]. do 9 (destruct n as [|n]; [by cbn|]).
  unfold compaction_trace. rewrite bool_decide_eq_false_2 by (cbn; lia). by rewrite take_ge by (cbn; lia).
Qed.

(** At every moment of an attempt, the data file is the old one or the complete new one. *)
Lemma trace_crash fails old new k d :
  crash (run clean_fs (take k (compaction_trace fails new))) old d ->
  target d = Some old \/ target d = Some new.
Proof.
  apply crash_target. apply run_installed; [|apply trace_is_safe].
  intros [H|H]; [done|]. by apply not_elem_of_nil in H.
Qed.

(** ** What the files hold *)

Section Contents.

Context (hll_count : bytes -> Z).

Definition restarted (now : Z) (c : cold) : cold := mkCold (c_value c) (c_ttl c) now.

(** The shard's file is a sequence of complete records in which the last record of every key of
    [m] is the one [m] has. *)
Definition written (s : DiskShard) (m : gmap bytes cold) (es : list DumpEntry) : Prop :=
  Forall entry_storable es /\ data_file s = DATA_MAGIC ++ records es /\
  forall now key c, m !! key = Some c -> latest hll_count now es ∅ !! key = Some (restarted now c).

Lemma latest_app now es es' m : latest hll_count now (es ++ es') m = latest hll_count now es' (latest hll_count now es m).
Proof. apply foldl_app. Qed.

Lemma records_app es es' : records (es ++ es') = records es ++ records es'.
Proof. unfold records. by rewrite fmap_app, concat_app. Qed.

Lemma records_snoc es e : records (es ++ [e]) = records es ++ envelope (write_single_entry e).
Proof. rewrite records_app. unfold records at 2. cbn. by rewrite app_nil_r. Qed.

Lemma written_sub s m m' es : written s m es -> m' ⊆ m -> written s m' es.
Proof.
  intros (Hes & Hf & Hl) Hm. split; [done|]. split; [done|]. intros now key c Hc. apply Hl.
  by eapply lookup_weaken.
Qed.

(** The replacement written so far: the live records in the order of the keys. *)
Lemma compact_loop_written keys s m : forall done_keys es ni,
  refines hll_count s m -> (forall k, k ∈ keys -> is_Some (index s !! k)) -> Forall entry_storable es ->
  (forall now k c, k ∈ done_keys -> m !! k = Some c -> latest hll_count now es ∅ !! k = Some (restarted now c)) ->
  exists es' ni', compact_loop hll_count keys s (DATA_MAGIC ++ records es) ni = IoOk (DATA_MAGIC ++ records es', ni') /\
    Forall entry_storable es' /\
    forall now k c, k ∈ done_keys ++ keys -> m !! k = Some c ->
      latest hll_count now es' ∅ !! k = Some (restarted now c).
Proof.
  induction keys as [|key keys IH]; intros dk es ni Hr Hk Hes Hl.
  - exists es, ni. split; [done|]. split; [done|]. intros now k c. rewrite app_nil_r. apply Hl.
  - destruct (Hk key) as [de Hde]; [by left|].
    pose proof (refines_lookup hll_count s m key Hr) as Hlk. rewrite Hde in Hlk.
    destruct (m !! key) as [c|] eqn:Em; [|done]. destruct Hlk as (e & He & Hv & Ht & Hcr).
    pose proof Hr as (_ & Hc & _). cbn [compact_loop]. rewrite Hde, (read_stored hll_count s key de e Hc He).
    pose proof He as (Hok & Hb & Hkey & Hsz & _ & _ & Htt).
    destruct (Z.gtb_spec (8 + zlen (write_single_entry e)) u32_max); [lia|].
    rewrite <-(assoc_L (++) DATA_MAGIC), <-records_snoc.
    edestruct (IH (dk ++ [key]) (es ++ [e])) as (es' & ni' & E & Hes' & Hl'); [done| | | |].
    + intros k Hin. apply Hk. by right.
    + apply Forall_app. split; [done|]. by apply Forall_singleton.
    + intros now k c' Hin Hc'. rewrite latest_app. cbn [latest foldl]. rewrite Hkey.
      destruct (decide (k = key)) as [->|Hne].
      * rewrite lookup_insert_eq. rewrite Em in Hc'. injection Hc' as <-. unfold restarted.
        by rewrite Hv, Ht, Htt.
      * rewrite lookup_insert_ne by done. apply Hl; [set_solver|done].
    + exists es', ni'. split; [exact E|]. split; [done|]. intros now k c' Hin. apply Hl'.
      by rewrite <-(assoc_L (++)).
Qed.

Lemma compact_written s m s' :
  refines hll_count s m -> compact hll_count s = IoOk s' -> exists es, written s' m es.
Proof.
  intros Hr. unfold compact. destruct (negb _); [done|].
  destruct (compact_loop_written (sorted_keys s) s m [] [] ∅ Hr) as (es & ni & E & Hes & Hl).
  { intros k. apply sorted_keys_elem. }
  { by constructor. }
  { intros now k c H. by apply not_elem_of_nil in H. }
  change (DATA_MAGIC ++ records []) with DATA_MAGIC in E. rewrite E. cbn [mbind io_bind]. intros [= <-].
  exists es. split; [done|]. split; [done|]. intros now k c Hc. apply Hl; [|done].
  apply sorted_keys_elem. pose proof (refines_lookup hll_count s m k Hr) as Hk. rewrite Hc in Hk.
  destruct (index s !! k); [by eexists|done].
Qed.

Lemma create_written : written create ∅ [].
Proof. split; [by constructor|]. split; [done|]. intros now k c Hc. by rewrite lookup_empty in Hc. Qed.

(** Every shard that evictions, reads, removals and compactions produce is of this form. *)
Lemma run_op_written o s m es :
  refines hll_count s m -> compaction_safe s = true -> op_ok o -> written s m es ->
  exists es', written (run_op hll_count o s).2 (spec_op hll_count o m).2 es'.
Proof.
  intros Hr Hs Ho Hw. pose proof Hw as (Hes & Hf & Hl). destruct o as [e now|key now|key|]; cbn [run_op spec_op].
  - exists (es ++ [e]). cbn [snd put]. split; [|split].
    + apply Forall_app. split; [done|]. by apply Forall_singleton.
    + cbn [data_file]. by rewrite Hf, records_snoc, (assoc_L (++)).
    + intros now' key c. rewrite latest_app. cbn [latest foldl].
      destruct (decide (key = d_key e)) as [->|Hne].
      * rewrite !lookup_insert_eq. by intros [= <-].
      * rewrite !lookup_insert_ne by done. apply Hl.
  - exists es. assert (data_file (get hll_count key now s).2 = data_file s) as Ed.
    { unfold get. repeat case_match; simplify_eq; done. }
    apply (written_sub _ m); [split; [done|]; split; [by rewrite Ed|done]|].
    destruct (m !! key); [|done]. destruct (cold_expired _ _); [apply delete_subseteq|done].
  - exists es. apply (written_sub _ m); [|apply delete_subseteq].
    split; [done|]. split; [|done]. rewrite <-Hf. unfold remove. by case_match.
  - destruct (compact_refines hll_count s m Hr Hs) as (s' & E & _). rewrite E. by apply compact_written with s.
Qed.

Lemma run_ops_written os : forall s m es,
  Forall op_ok os -> refines hll_count s m -> compaction_safe s = true -> written s m es ->
  exists es', written (run_ops hll_count os s).2 (spec_ops hll_count os m).2 es' /\
    refines hll_count (run_ops hll_count os s).2 (spec_ops hll_count os m).2 /\
    compaction_safe (run_ops hll_count os s).2 = true.
Proof.
  induction os as [|o os IH]; intros s m es Hos Hr Hs Hw; [by exists es|].
  apply Forall_cons in Hos as [Ho Hos]. cbn [run_ops spec_ops].
  pose proof (run_op_refines hll_count o s m Hr Hs Ho) as H.
  destruct (run_op_written o s m es Hr Hs Ho Hw) as [es1 Hw1].
  destruct (run_op hll_count o s) as [r s1], (spec_op hll_count o m) as [r' m1].
  destruct H as (_ & Hr1 & Hs1). cbn [snd] in *.
  destruct (IH s1 m1 es1 Hos Hr1 Hs1 Hw1) as [es' H].
  destruct (run_ops hll_count os s1), (spec_ops hll_count os m1). by exists es'.
Qed.

(** Opening a complete file: it is accepted whatever else the directory holds. *)
Lemma open_complete es d now :
  Forall entry_storable es -> target d = Some (DATA_MAGIC ++ records es) ->
  exists s, open hll_count d now = IoOk (s, mkDir (target d) None []) /\
    refines hll_count s (latest hll_count now es ∅) /\ compaction_safe s = true.
Proof.
  intros Hes Ht. pose proof (rebuild_loop_ok hll_count es [] now (length (DATA_MAGIC ++ records es))
    DATA_MAGIC (mkScan ∅ 0 4 0) ∅ Hes) as H.
  destruct H as (Htot & Hbad & Hrel).
  { intros fuel sc. by destruct fuel. }
  { rewrite app_nil_r, length_app. lia. }
  { done. }
  { intros k. by rewrite !lookup_empty. }
  rewrite app_nil_r in *. unfold open. rewrite Ht. cbn [mbind io_bind]. rewrite Ht.
  change (default [] (Some (DATA_MAGIC ++ records es))) with (DATA_MAGIC ++ records es).
  rewrite bool_decide_eq_false_2 by done.
  assert (bytes_eqb (take 4 (DATA_MAGIC ++ records es)) DATA_MAGIC = true) as -> by (by apply bool_decide_eq_true_2).
  unfold rebuild_index. cbn [mbind io_bind].
  change (drop 4 (DATA_MAGIC ++ records es)) with (records es).
  rewrite Htot, Hbad. rewrite (bool_decide_eq_true_2 (length _ = length _)) by done. cbn [negb andb].
  rewrite bool_decide_eq_true_2 by done. cbn [andb].
  rewrite (take_ge (DATA_MAGIC ++ records es)) by done.
  eexists. split; [reflexivity|]. split; [|done]. split; [done|]. split; [done|].
  intros k. cbn [index data_file]. apply Hrel.
Qed.

End Contents.

(** ** Theorems *)


(** A compaction that fails does no harm to the running shard: whatever step fails, the shard
    still implements the same map, and its data file is the one the directory names. *)
Theorem failed_compaction_harmless (hll_count : bytes -> Z) (s s1 : DiskShard) (m : gmap bytes cold)
    (fails : option nat) (r : io unit) :
  refines hll_count s m -> compact_inner hll_count fails s = (r, s1) ->
  refines hll_count s1 m /\
  forall s', compact hll_count s = IoOk s' ->
    data_file s1 = match n_target (visible (run clean_fs (compaction_trace fails (data_file s')))) with
                   | Old => data_file s
                   | New => data_file s'
                   end.
Proof.
  intros Hr. unfold compact_inner. destruct (compact hll_count s) as [s'|e] eqn:E; [|by intros [= <- <-]].
  assert (refines hll_count s' m) as Hr'.
  { destruct (compaction_safe s) eqn:Es; [|unfold compact in E; by rewrite Es in E].
    destruct (compact_refines hll_count s m Hr Es) as (s'' & E' & ? & _). congruence. }
  destruct fails as [n|]; [|intros [= <- <-]; split; [done|]; by intros ? [= <-]].
  do 9 (destruct n as [|n]; [cbn; intros [= <- <-]; split; [done|]; by intros ? [= <-]|]).
  rewrite bool_decide_eq_false_2 by (cbn; lia). intros [= <- <-]. split; [done|]. intros s'' [= <-].
  unfold compaction_trace. rewrite bool_decide_eq_false_2 by (cbn; lia). by rewrite take_ge by (cbn; lia).
Qed.

(** ** Witnesses *)

Definition sample_ops : list op :=
  [OpPut (mkDumpEntry (bs "k") (DStr [1; 2]) 50) 0; OpPut (mkDumpEntry (bs "k") (DStr [1; 2]) 50) 1].
Definition sample_shard : DiskShard := (run_ops (fun _ => 0) sample_ops create).2.
Definition sample_compacted : DiskShard :=
  match compact (fun _ => 0) sample_shard with IoOk s => s | IoErr _ => create end.

(** The machine stops after the rename, before the directory is synced, and the rename is lost. *)
Definition sample_dir : Dir := mkDir (Some (data_file sample_shard)) (Some (data_file sample_shard))
  [data_file sample_compacted].


Lemma failed_compaction_harmless_witness :
  refines (fun _ => 0) sample_compacted (spec_ops (fun _ => 0) sample_ops ∅).2 /\
  forall s', compact (fun _ => 0) sample_shard = IoOk s' ->
    data_file sample_compacted =
      match n_target (visible (run clean_fs (compaction_trace (Some 7%nat) (data_file s')))) with
      | Old => data_file sample_shard
      | New => data_file s'
      end.
Proof.
  apply (failed_compaction_harmless (fun _ => 0) sample_shard sample_compacted _ (Some 7%nat)
    (IoErr (InvalidData "tiered compaction failed"))).
  - destruct (run_ops_written (fun _ => 0) sample_ops create ∅ []) as (es & _ & Hr & _);
      [|apply create_refines|done|apply create_written|exact Hr].
    repeat (apply Forall_cons; split); try apply Forall_nil; try exact I; exact sample_op_ok.
  - vm_compute. reflexivity.
Defined.

End Compaction.
