(* ===== verification/Values.v ===== *)
(** * Stored values ([src/src/store/mod.rs], lines 22-600 and 1490-1600)

    The value types of the keyspace. [SetData] is the set with constant-time random access (a
    vector of members and an index of positions), [HashData] the hash with per-field deadlines.
    Map iteration order is that of [map_to_list]; theorems do not depend on it. *)

From S2P Require Import Prelude.
Local Open Scope Z_scope.

Module Values.

(** ** Stream identifiers *)

Record StreamId := mkId { ms : Z; seqn : Z }.

#[export] Instance StreamId_eq_dec : EqDecision StreamId.
Proof. solve_decision. Defined.

#[export] Instance StreamId_countable : Countable StreamId :=
  inj_countable' (fun i => (ms i, seqn i)) (fun p => mkId p.1 p.2)
    ltac:(abstract (by intros [])).

(** The derived order: lexicographic. *)
Definition id_ltb (a b : StreamId) : bool :=
  (ms a <? ms b) || ((ms a =? ms b) && (seqn a <? seqn b)).

(** [s.splitn(2, '-')]: the part before the first dash and, if there is one, the rest. *)
Fixpoint split_dash (s : bytes) : bytes * option bytes :=
  match s with
  | [] => ([], None)
  | b :: s =>
      if b =? 45 then ([], Some s)
      else let '(head, tail) := split_dash s in (b :: head, tail)
  end.

Definition id_parse (s : bytes) : option StreamId :=
  match split_dash s with
  | (head, None) => m ← parse_u64 head; Some (mkId m 0)
  | (head, Some tail) => m ← parse_u64 head; q ← parse_u64 tail; Some (mkId m q)
  end.

Definition id_zero : StreamId := mkId 0 0.

Definition id_fmt (i : StreamId) : bytes := fmt_u (ms i) ++ [45] ++ fmt_u (seqn i).

(** ** Sets *)

Record SetData := mkSet { members : list bytes; index : gmap bytes nat }.

Definition set_new : SetData := mkSet [] ∅.

Definition set_insert (member : bytes) (s : SetData) : bool * SetData :=
  match index s !! member with
  | Some _ => (false, s)
  | None => (true, mkSet (members s ++ [member]) (<[member := length (members s)]> (index s)))
  end.

Definition set_from_members (l : list bytes) : SetData :=
  foldl (fun s m => (set_insert m s).2) set_new l.

(** [Vec::swap_remove]: the last element takes the place of the removed one. *)
Definition swap_remove (idx : nat) (l : list bytes) : list bytes :=
  match list.last l with
  | Some x => take (length l - 1) (<[idx := x]> l)
  | None => l
  end.

Definition set_remove (member : bytes) (s : SetData) : bool * SetData :=
  match index s !! member with
  | None => (false, s)
  | Some idx =>
      let index := delete member (index s) in
      let members := swap_remove idx (members s) in
      (true, mkSet members (match members !! idx with
                            | Some swapped => <[swapped := idx]> index
                            | None => index
                            end))
  end.

Definition set_pop (s : SetData) : option bytes * SetData :=
  match list.last (members s) with
  | None => (None, s)
  | Some member =>
      (Some member, mkSet (take (length (members s) - 1) (members s)) (delete member (index s)))
  end.

Definition set_contains (member : bytes) (s : SetData) : bool :=
  bool_decide (is_Some (index s !! member)).

Definition set_len (s : SetData) : Z := zlen (members s).
Definition set_is_empty (s : SetData) : bool := bool_decide (members s = []).

(** ** Hashes with field deadlines *)

Record HashData := mkHash { fields : gmap bytes bytes; expiries : gmap bytes Z }.

Definition hash_empty : HashData := mkHash ∅ ∅.
Definition from_fields (f : gmap bytes bytes) : HashData := mkHash f ∅.

Definition field_expired (field : bytes) (now_ms : Z) (h : HashData) : bool :=
  match expiries h !! field with Some e => e <=? now_ms | None => false end.

Definition get_live (field : bytes) (now_ms : Z) (h : HashData) : option bytes :=
  if field_expired field now_ms h then None else fields h !! field.

Definition contains_live (field : bytes) (now_ms : Z) (h : HashData) : bool :=
  bool_decide (is_Some (fields h !! field)) && negb (field_expired field now_ms h).

Definition live_iter (now_ms : Z) (h : HashData) : list (bytes * bytes) :=
  filter (fun p => field_expired p.1 now_ms h = false) (map_to_list (fields h)).

Definition live_len (now_ms : Z) (h : HashData) : Z := zlen (live_iter now_ms h).

Definition purge_one (acc : Z * HashData) (f : bytes) : Z * HashData :=
  let '(freed, h) := acc in
  match fields h !! f with
  | Some v => (freed + (zlen f + zlen v + 64), mkHash (delete f (fields h)) (delete f (expiries h)))
  | None => (freed, mkHash (fields h) (delete f (expiries h)))
  end.

(** The bytes freed, whether no field is left, and the hash. *)
Definition purge_expired (now_ms : Z) (h : HashData) : Z * bool * HashData :=
  if bool_decide (expiries h = ∅) then (0, bool_decide (fields h = ∅), h)
  else
    let expired := fst <$> filter (fun p => p.2 <= now_ms) (map_to_list (expiries h)) in
    let '(freed, h) := foldl purge_one (0, h) expired in
    (freed, bool_decide (fields h = ∅), h).

Inductive HExpireCond := CondNone | CondNx | CondXx | CondGt | CondLt.
Inductive HFieldTtl := TtlMissing | TtlNone | TtlExpiresAtMs (ms : Z).
Inductive HGetexTtl := GetexKeep | GetexPersist | GetexSetMs (ms : Z).

(** ** The other values *)

Record PendingEntry := mkPending { p_consumer : bytes; p_time : Z; p_count : Z }.
Record Consumer := mkConsumer { c_pel : gset StreamId; c_seen : Z }.
Record ConsumerGroup := mkGroup {
  g_last_delivered : StreamId;
  g_consumers : gmap bytes Consumer;
  g_pel : list (StreamId * PendingEntry)     (* in increasing order of id *)
}.

Record StreamData := mkStream {
  s_entries : list (StreamId * list (bytes * bytes));   (* in increasing order of id *)
  s_last_id : StreamId;
  s_groups : gmap bytes ConsumerGroup
}.

Record VectorData := mkVector {
  v_dims : Z;
  v_data : list Z;
  v_metadata : option bytes;
  v_encrypted : bool
}.

Record TimeSeriesData := mkSeries {
  t_samples : list (Z * Z);
  t_retention : Z;
  t_labels : list (bytes * bytes)
}.

(** A sorted set is its ordered tree, a list in increasing (score, member) order, and the map of
    scores; scores are bit patterns of [f64]. *)
Inductive StoreValue :=
| VStr (s : bytes)
| VStrBuf (s : bytes)
| VList (l : list bytes)
| VHash (h : HashData)
| VSet (s : SetData)
| VSortedSet (tree : list (Z * bytes)) (scores : gmap bytes Z)
| VStream (s : StreamData)
| VVector (v : VectorData)
| VHyperLogLog (regs : bytes) (cached : Z)
| VTimeSeries (t : TimeSeriesData).

Definition type_name (v : StoreValue) : string :=
  match v with
  | VStr _ | VStrBuf _ => "string"
  | VList _ => "list"
  | VHash _ => "hash"
  | VSet _ => "set"
  | VSortedSet _ _ => "zset"
  | VStream _ => "stream"
  | VVector _ => "vector"
  | VHyperLogLog _ _ => "string"
  | VTimeSeries _ => "timeseries"
  end.

(** [string_bytes] and [string_to_bytes] *)
Definition string_bytes (v : StoreValue) : option bytes :=
  match v with
  | VStr s | VStrBuf s => Some s
  | _ => None
  end.

(** Times are nanoseconds on the monotonic clock. *)
Record Entry := mkEntry { value : StoreValue; expires_at : option Z; e_lru_clock : Z }.

Definition is_expired_at (now : Z) (e : Entry) : bool :=
  match expires_at e with Some exp => now >? exp | None => false end.

(** ** Memory estimates *)

Definition zsum (l : list Z) : Z := foldr Z.add 0 l.

Definition stream_entry_memory (fields : list (bytes * bytes)) : Z :=
  16 + zsum ((fun p => zlen p.1 + zlen p.2 + 32) <$> fields).

Definition value_memory (v : StoreValue) : Z :=
  match v with
  | VStr s | VStrBuf s => zlen s
  | VList l => zsum ((fun b => zlen b + 32) <$> l)
  | VHash h => zsum ((fun p => zlen p.1 + zlen p.2 + 64) <$> map_to_list (fields h))
  | VSet s => zsum ((fun m => zlen m + 32) <$> members s)
  | VSortedSet _ scores => zsum ((fun p => zlen p.1 + 48) <$> map_to_list scores)
  | VVector v => 16 + zlen (v_data v) * 4 + match v_metadata v with Some m => zlen m | None => 0 end
  | VHyperLogLog regs _ => zlen regs
  | VTimeSeries t =>
      zlen (t_samples t) * 16 + zsum ((fun p => zlen p.1 + zlen p.2 + 32) <$> t_labels t)
  | VStream s => zsum ((fun p => stream_entry_memory p.2) <$> s_entries s)
  end.

Definition estimate_entry_memory (key : bytes) (v : StoreValue) : Z := zlen key + 64 + value_memory v.

(** ** Invariants and specifications *)

(** The index is exactly the positions of the members. *)
Definition set_ok (s : SetData) : Prop :=
  forall m i, index s !! m = Some i <-> members s !! i = Some m.

Definition elems (s : SetData) : gset bytes := list_to_set (members s).

(** The fields a reader sees. *)
Definition live_fields (now_ms : Z) (h : HashData) : gmap bytes bytes :=
  filter (fun p => field_expired p.1 now_ms h = false) (fields h).

(** ** Lemmas *)

Lemma set_ok_new : set_ok set_new.
Proof. intros m i. cbn. rewrite lookup_empty. done. Qed.

Lemma set_ok_inj s i j m :
  set_ok s -> members s !! i = Some m -> members s !! j = Some m -> i = j.
Proof. intros H Hi%H Hj%H. congruence. Qed.

Lemma elem_of_elems s m : set_ok s -> m ∈ elems s <-> is_Some (index s !! m).
Proof.
  intros H. unfold elems. rewrite elem_of_list_to_set, list_elem_of_lookup. split.
  - intros [i Hi%H]. eauto.
  - intros [i Hi%H]. eauto.
Qed.

Lemma set_contains_elems s m : set_ok s -> set_contains m s = bool_decide (m ∈ elems s).
Proof. intros H. apply bool_decide_ext. by rewrite elem_of_elems. Qed.

Lemma elems_not_in s m : set_ok s -> index s !! m = None -> m ∉ members s.
Proof.
  intros H Hn Hin. apply list_elem_of_lookup in Hin as [i Hi%H]. congruence.
Qed.

Lemma set_insert_ok m s :
  set_ok s ->
  let '(added, s') := set_insert m s in
  set_ok s' /\ added = bool_decide (m ∉ elems s) /\ elems s' = {[m]} ∪ elems s.
Proof.
  intros H. unfold set_insert. destruct (index s !! m) as [i|] eqn:E.
  - assert (m ∈ elems s) as Hin by (apply elem_of_elems; eauto).
    rewrite bool_decide_eq_false_2 by auto. split_and!; [done|done|set_solver].
  - pose proof (elems_not_in s m H E) as Hn. split_and!.
    + intros m' j. cbn. destruct (decide (m' = m)) as [->|Hne].
      * rewrite lookup_insert_eq. split.
        -- intros [= <-]. rewrite lookup_app_r, Nat.sub_diag by lia. done.
        -- intros Hj. apply lookup_app_Some in Hj as [Hj|[Hj1 Hj2]].
           ++ exfalso. apply Hn, list_elem_of_lookup. eauto.
           ++ apply list_lookup_singleton_Some in Hj2 as [? _]. f_equal. lia.
      * rewrite lookup_insert_ne by done. rewrite (H m' j). split.
        -- intros Hj. by apply lookup_app_l_Some.
        -- intros Hj. apply lookup_app_Some in Hj as [Hj|[_ Hj2]]; [done|].
           apply list_lookup_singleton_Some in Hj2 as [_ ?]. congruence.
    + rewrite bool_decide_eq_true_2; [done|]. rewrite elem_of_elems by done. rewrite E.
      by intros [? ?].
    + unfold elems. cbn. rewrite list_to_set_app_L. cbn. set_solver.
Qed.

Lemma last_lookup_len {A} (l : list A) x :
  list.last l = Some x -> l !! (length l - 1)%nat = Some x /\ l ≠ [].
Proof.
  intros H. split; [|by intros ->]. by rewrite Nat.sub_1_r, <-last_lookup.
Qed.

(** The members after a removal, by position. *)
Lemma swap_remove_lookup idx l x j :
  (idx < length l)%nat -> list.last l = Some x ->
  swap_remove idx l !! j =
    if decide (j < length l - 1)%nat then (if decide (j = idx) then Some x else l !! j) else None.
Proof.
  intros Hi Hx. unfold swap_remove. rewrite Hx. destruct (decide (j < length l - 1)%nat).
  - rewrite lookup_take_lt by done. destruct (decide (j = idx)) as [->|].
    + by rewrite list_lookup_insert_eq by lia.
    + by rewrite list_lookup_insert_ne.
  - apply lookup_take_ge. lia.
Qed.

(** ** Removal from a set *)

Section Removal.

Context (s : SetData) (m x : bytes) (idx : nat).
Context (Hs : set_ok s) (E : index s !! m = Some idx) (Hx : list.last (members s) = Some x).

Let n := (length (members s) - 1)%nat.

Lemma removed_at : members s !! idx = Some m.
Proof. by apply Hs. Qed.

Lemma removed_last : members s !! n = Some x.
Proof. by apply last_lookup_len. Qed.

Lemma removed_le : (idx <= n < length (members s))%nat.
Proof.
  pose proof (lookup_lt_Some _ _ _ removed_at). pose proof (lookup_lt_Some _ _ _ removed_last). lia.
Qed.

Lemma removed_distinct : (idx < n)%nat -> x ≠ m.
Proof.
  intros Hi Heq. pose proof removed_at as A. pose proof removed_last as L. rewrite Heq in L.
  pose proof (set_ok_inj _ _ _ _ Hs A L). lia.
Qed.

Definition removed_members : list bytes := swap_remove idx (members s).

Definition removed_index : gmap bytes nat :=
  match removed_members !! idx with
  | Some swapped => <[swapped := idx]> (delete m (index s))
  | None => delete m (index s)
  end.

Lemma removed_members_lookup j :
  removed_members !! j =
    if decide (j < n)%nat then (if decide (j = idx) then Some x else members s !! j) else None.
Proof. apply swap_remove_lookup; [|done]. pose proof removed_le. lia. Qed.

(** Where a member other than the removed one is indexed afterwards. *)
Lemma removed_index_lookup y :
  removed_index !! y =
    if decide (y = m) then None else if decide (y = x) then Some idx else index s !! y.
Proof.
  unfold removed_index. rewrite removed_members_lookup. pose proof removed_le.
  destruct (decide (idx < n)%nat) as [Hi|Hi].
  - rewrite (decide_True (P := idx = idx)) by done. pose proof (removed_distinct Hi).
    destruct (decide (y = m)) as [->|].
    + by rewrite lookup_insert_ne, lookup_delete_eq by done.
    + destruct (decide (y = x)) as [->|]; [by rewrite lookup_insert_eq|].
      by rewrite lookup_insert_ne, lookup_delete_ne by done.
  - assert (idx = n) as Hn by lia.
    assert (x = m) as Hxm.
    { pose proof removed_last as L. pose proof removed_at as A. rewrite Hn in A. congruence. }
    destruct (decide (y = m)) as [->|]; [by rewrite lookup_delete_eq|].
    rewrite decide_False by congruence. by rewrite lookup_delete_ne.
Qed.

Lemma removed_ok : set_ok (mkSet removed_members removed_index).
Proof.
  intros y j. cbn [members index]. rewrite removed_index_lookup, removed_members_lookup.
  pose proof removed_le as Hle. pose proof removed_at as Ha. pose proof removed_last as Hl.
  destruct (decide (y = m)) as [->|Hym].
  - split; [done|]. destruct (decide (j < n)%nat); [|done].
    destruct (decide (j = idx)) as [->|]; [intros [= Heq]; by destruct (removed_distinct ltac:(lia) Heq)|].
    intros Hj. pose proof (set_ok_inj _ _ _ _ Hs Hj Ha). lia.
  - destruct (decide (y = x)) as [->|Hyx].
    + assert (idx < n)%nat as Hi.
      { destruct (decide (idx = n)) as [Ei|]; [|lia]. rewrite <-Ei, Ha in Hl. congruence. }
      split; [intros [= <-]; by rewrite !decide_True|].
      destruct (decide (j < n)%nat); [|done]. destruct (decide (j = idx)) as [->|]; [done|].
      intros Hj. pose proof (set_ok_inj _ _ _ _ Hs Hj Hl). lia.
    + rewrite (Hs y j). split.
      * intros Hj. pose proof (lookup_lt_Some _ _ _ Hj).
        assert (j ≠ idx) by (intros ->; congruence). assert (j ≠ n) by (intros ->; congruence).
        rewrite decide_True, decide_False by lia. done.
      * destruct (decide (j < n)%nat); [|done]. destruct (decide (j = idx)); [congruence|done].
Qed.

Lemma removed_elems : elems (mkSet removed_members removed_index) = elems s ∖ {[m]}.
Proof.
  apply set_eq. intros y. rewrite elem_of_difference, elem_of_singleton.
  rewrite (elem_of_elems _ _ removed_ok), (elem_of_elems _ _ Hs). cbn [index].
  rewrite removed_index_lookup. pose proof removed_last as Hl. apply Hs in Hl.
  destruct (decide (y = m)) as [->|]; [split; [by intros [? ?]|tauto]|].
  destruct (decide (y = x)) as [->|]; [|tauto]. rewrite Hl. split; eauto.
Qed.

End Removal.

Lemma set_remove_ok m s :
  set_ok s ->
  let '(removed, s') := set_remove m s in
  set_ok s' /\ removed = bool_decide (m ∈ elems s) /\ elems s' = elems s ∖ {[m]}.
Proof.
  intros Hs. unfold set_remove. destruct (index s !! m) as [idx|] eqn:E.
  - assert (m ∈ elems s) as Hin by (apply elem_of_elems; eauto).
    rewrite bool_decide_eq_true_2 by done. pose proof (removed_at s m idx Hs E) as Em.
    destruct (list.last (members s)) as [x|] eqn:Hx.
    + split; [by eapply removed_ok|]. split; [done|]. by eapply removed_elems.
    + apply last_None in Hx. by rewrite Hx in Em.
  - assert (m ∉ elems s) by (rewrite elem_of_elems by done; rewrite E; by intros [? ?]).
    rewrite bool_decide_eq_false_2 by done. split_and!; [done|done|set_solver].
Qed.

Lemma set_pop_ok s :
  set_ok s ->
  let '(popped, s') := set_pop s in
  set_ok s' /\
  match popped with
  | Some m => m ∈ elems s /\ elems s' = elems s ∖ {[m]}
  | None => elems s = ∅ /\ s' = s
  end.
Proof.
  intros Hs. unfold set_pop. destruct (list.last (members s)) as [x|] eqn:Hx.
  - destruct (last_lookup_len _ _ Hx) as [Hl Hne].
    assert (index s !! x = Some (length (members s) - 1)%nat) as E by (by apply Hs).
    assert (take (length (members s) - 1) (members s) =
      removed_members s (length (members s) - 1)) as ->.
    { apply list_eq. intros j. rewrite (removed_members_lookup s x x _ Hs E Hx).
      destruct (decide (j < _)%nat); [|rewrite lookup_take_ge by lia; done].
      rewrite lookup_take_lt by lia. by destruct (decide (j = _)%nat); [lia|]. }
    assert (delete x (index s) = removed_index s x (length (members s) - 1)) as ->.
    { apply map_eq. intros y. rewrite (removed_index_lookup s x x _ Hs E Hx).
      destruct (decide (y = x)) as [->|]; [by rewrite lookup_delete_eq|]. by rewrite lookup_delete_ne. }
    split; [by eapply removed_ok|]. split; [apply elem_of_elems; eauto|]. by eapply removed_elems.
  - apply last_None in Hx. split; [done|]. split; [|done]. unfold elems. by rewrite Hx.
Qed.

Lemma set_from_members_ok l : set_ok (set_from_members l) /\ elems (set_from_members l) = list_to_set l.
Proof.
  unfold set_from_members.
  assert (forall s, set_ok s -> set_ok (foldl (fun s m => (set_insert m s).2) s l) /\
    elems (foldl (fun s m => (set_insert m s).2) s l) = list_to_set l ∪ elems s) as H.
  { induction l as [|m l IH]; intros s Hs; cbn [foldl]; [split; [done|set_solver]|].
    pose proof (set_insert_ok m s Hs) as Hi. destruct (set_insert m s) as [b s1].
    destruct Hi as (H1 & _ & E1). destruct (IH s1 H1) as [H2 E2]. split; [done|].
    cbn [snd]. rewrite E2, E1. set_solver. }
  destruct (H set_new set_ok_new) as [? E]. split; [done|]. rewrite E. unfold elems. cbn. set_solver.
Qed.

(** The set with constant-time random access implements a finite set: the index always points
    at the member it names (so [swap_remove] is never out of range), membership tests answer the
    set's, insertion and removal report whether they changed it and change exactly that, and
    popping takes out a member of it. *)
Theorem setdata_refines (s : SetData) (m : bytes) :
  set_ok s ->
  (let '(added, s') := set_insert m s in
   set_ok s' /\ added = bool_decide (m ∉ elems s) /\ elems s' = {[m]} ∪ elems s) /\
  (let '(removed, s') := set_remove m s in
   set_ok s' /\ removed = bool_decide (m ∈ elems s) /\ elems s' = elems s ∖ {[m]}) /\
  (let '(popped, s') := set_pop s in
   set_ok s' /\ match popped with
                | Some m => m ∈ elems s /\ elems s' = elems s ∖ {[m]}
                | None => elems s = ∅ /\ s' = s
                end) /\
  set_contains m s = bool_decide (m ∈ elems s).
Proof.
  intros Hs. split; [by apply set_insert_ok|]. split; [by apply set_remove_ok|].
  split; [by apply set_pop_ok|]. by apply set_contains_elems.
Qed.

Lemma setdata_refines_witness :
  let s := set_from_members [bs "a"; bs "b"; bs "c"; bs "a"] in
  members (set_remove (bs "a") s).2 = [bs "c"; bs "b"] /\
  set_contains (bs "c") s = bool_decide (bs "c" ∈ elems s).
Proof.
  split; [vm_compute; reflexivity|].
  apply (setdata_refines (set_from_members [bs "a"; bs "b"; bs "c"; bs "a"]) (bs "c")).
  apply set_from_members_ok.
Defined.

(** ** Lemmas: field deadlines *)

#[export] Instance zsum_proper : Proper ((≡ₚ) ==> (=)) zsum.
Proof.
  induction 1 as [|x l k _ IH|x y l|l k j _ IH1 _ IH2]; unfold zsum in *; cbn; [done|..]; lia.
Qed.

Lemma zsum_app l k : zsum (l ++ k) = zsum l + zsum k.
Proof. unfold zsum. induction l; cbn; lia. Qed.

Definition field_memory (p : bytes * bytes) : Z := zlen p.1 + zlen p.2 + 64.

Lemma hash_memory_delete (m : gmap bytes bytes) f v :
  m !! f = Some v ->
  zsum (field_memory <$> map_to_list m) =
    zlen f + zlen v + 64 + zsum (field_memory <$> map_to_list (delete f m)).
Proof. intros E. rewrite <-(map_to_list_delete m f v E). done. Qed.

Lemma purge_fold l freed h :
  NoDup l ->
  let '(freed', h') := foldl purge_one (freed, h) l in
  (forall f, fields h' !! f = if decide (f ∈ l) then None else fields h !! f) /\
  (forall f, expiries h' !! f = if decide (f ∈ l) then None else expiries h !! f) /\
  freed' - freed =
    zsum (field_memory <$> map_to_list (fields h)) - zsum (field_memory <$> map_to_list (fields h')).
Proof.
  revert freed h. induction l as [|g l IH]; intros freed h Hnd; cbn [foldl].
  - split_and!; [intros f; by rewrite decide_False by set_solver|
                 intros f; by rewrite decide_False by set_solver|lia].
  - apply NoDup_cons in Hnd as [Hg Hnd].
    destruct (fields h !! g) as [v|] eqn:E; cbn [purge_one]; rewrite E.
    + specialize (IH (freed + (zlen g + zlen v + 64))
        (mkHash (delete g (fields h)) (delete g (expiries h))) Hnd).
      destruct (foldl purge_one _ l) as [freed' h']. destruct IH as (Hf & He & Hm).
      cbn [fields expiries] in *. rewrite (hash_memory_delete _ _ _ E). split_and!; [| |lia];
        intros f; rewrite ?Hf, ?He; destruct (decide (f = g)) as [->|];
        repeat case_decide; try set_solver; rewrite ?lookup_delete_eq, ?lookup_delete_ne by done; done.
    + specialize (IH freed (mkHash (fields h) (delete g (expiries h))) Hnd).
      destruct (foldl purge_one _ l) as [freed' h']. destruct IH as (Hf & He & Hm).
      cbn [fields expiries] in *. split_and!; [| |done];
        intros f; rewrite ?Hf, ?He; destruct (decide (f = g)) as [->|];
        repeat case_decide; try set_solver; rewrite ?lookup_delete_eq, ?lookup_delete_ne by done; done.
Qed.

Lemma expired_list (h : HashData) now_ms f :
  f ∈ (fst <$> filter (fun p => p.2 <= now_ms) (map_to_list (expiries h)))
  <-> field_expired f now_ms h = true.
Proof.
  unfold field_expired. rewrite list_elem_of_fmap. split.
  - intros ([f' e] & -> & [Hle Hin%elem_of_map_to_list]%list_elem_of_filter). cbn in *.
    rewrite Hin. by apply Z.leb_le.
  - destruct (expiries h !! f) as [e|] eqn:E; [|done]. intros Hle%Z.leb_le. exists (f, e).
    split; [done|]. apply list_elem_of_filter. split; [done|]. by apply elem_of_map_to_list.
Qed.

Lemma live_fields_lookup now_ms h f : live_fields now_ms h !! f = get_live f now_ms h.
Proof.
  unfold live_fields, get_live. destruct (field_expired f now_ms h) eqn:E.
  - apply map_lookup_filter_None. right. intros v _. cbn. congruence.
  - destruct (fields h !! f) as [v|] eqn:Ev.
    + by apply map_lookup_filter_Some.
    + apply map_lookup_filter_None. by left.
Qed.

(** Purging a hash removes exactly the fields whose deadline has passed: the fields a reader
    sees are unchanged, no expired field or deadline is left, the emptiness it reports is that of
    the live fields, and the bytes it reports as freed are exactly the drop of the memory
    estimate. *)
Theorem purge_expired_correct (now_ms : Z) (h : HashData) :
  let '(freed, empty, h') := purge_expired now_ms h in
  fields h' = live_fields now_ms h /\
  (forall f, get_live f now_ms h' = get_live f now_ms h) /\
  (forall f, field_expired f now_ms h' = false) /\
  empty = bool_decide (live_fields now_ms h = ∅) /\
  freed = value_memory (VHash h) - value_memory (VHash h').
Proof.
  unfold purge_expired. destruct (bool_decide (expiries h = ∅)) eqn:Eb.
  - apply bool_decide_eq_true in Eb.
    assert (forall f, field_expired f now_ms h = false) as Hne.
    { intros f. unfold field_expired. by rewrite Eb, lookup_empty. }
    assert (fields h = live_fields now_ms h) as Hl.
    { apply map_eq. intros f. rewrite live_fields_lookup. unfold get_live. by rewrite Hne. }
    rewrite <-Hl. split_and!; try done. lia.
  - clear Eb. pose proof (purge_fold (fst <$> filter (fun p => p.2 <= now_ms) (map_to_list (expiries h))) 0 h)
      as H.
    destruct (foldl purge_one _ _) as [freed h']. destruct H as (Hf & He & Hm).
    { apply NoDup_fmap_fst; [|apply NoDup_filter, NoDup_map_to_list].
      intros f e1 e2 [_ H1%elem_of_map_to_list]%list_elem_of_filter
        [_ H2%elem_of_map_to_list]%list_elem_of_filter. congruence. }
    assert (forall f, fields h' !! f = get_live f now_ms h) as Hlive.
    { intros f. rewrite Hf. unfold get_live. pose proof (expired_list h now_ms f) as Hx.
      case_decide as Hd; [by rewrite (proj1 Hx Hd)|].
      destruct (field_expired f now_ms h); [by destruct Hd; apply Hx|done]. }
    assert (forall f, field_expired f now_ms h' = false) as Hnone.
    { intros f. pose proof (expired_list h now_ms f) as Hx. unfold field_expired in *. rewrite He.
      case_decide as Hd; [done|]. destruct (expiries h !! f) as [e|]; [|done].
      destruct (e <=? now_ms); [by destruct Hd; apply Hx|done]. }
    assert (fields h' = live_fields now_ms h) as El
      by (apply map_eq; intros f; by rewrite live_fields_lookup).
    rewrite <-El. split_and!; try done.
    + intros f. rewrite <-Hlive. unfold get_live. by rewrite Hnone.
    + unfold value_memory, field_memory in *. lia.
Qed.

(** ** Lemmas: stream identifiers *)

Lemma split_dash_app a b : (45 : Z) ∉ a -> split_dash (a ++ 45 :: b) = (a, Some b).
Proof.
  induction a as [|x a IH]; intros Hn; [done|]. apply not_elem_of_cons in Hn as [Hx Hn].
  cbn [app split_dash]. destruct (Z.eqb_spec x 45); [congruence|]. by rewrite IH.
Qed.

Lemma fmt_u_no_dash n : (45 : Z) ∉ fmt_u n.
Proof.
  intros Hin. pose proof (fmt_u_digits n) as Hd.
  rewrite Forall_forall in Hd. by specialize (Hd 45 Hin).
Qed.

(** The text of a stream identifier reads back as the identifier, for every pair of [u64]. *)
Theorem stream_id_roundtrip (i : StreamId) :
  0 <= ms i <= usize_max -> 0 <= seqn i <= usize_max -> id_parse (id_fmt i) = Some i.
Proof.
  intros Hm Hq. unfold id_parse, id_fmt. cbn [app].
  rewrite split_dash_app by apply fmt_u_no_dash.
  rewrite !parse_u64_fmt_u by done. by destruct i.
Qed.

Lemma stream_id_roundtrip_witness :
  id_parse (id_fmt (mkId 1700000000000 5)) = Some (mkId 1700000000000 5).
Proof. apply stream_id_roundtrip; cbn; unfold usize_max; lia. Defined.

End Values.
