(* ===== verification/Store.v ===== *)
(** * The sharded keyspace ([src/src/store/mod.rs])

    A [Store] is the shards (each with its map, its version and its memory counter), the metrics
    the operations update, the cold tier, and the names the vector indexes hold. An operation is a
    function from the store to its answer and the new store; the locks it takes are not modelled:
    every operation is one critical section of the shards it touches, so operations are steps.

    Times are nanoseconds on the monotonic clock, [now] arguments as in the code; a clock that the
    code reads inside an operation is an argument of it. Counters have the width of [usize]: the
    global memory counter is added to with wrap-around and subtracted from with saturation. *)

From S2P Require Import Prelude.
From S2P Require Import Codec.
From S2P Require Import Disk.
From S2P Require Import Values.
Local Open Scope Z_scope.

Module Store.
Import Codec.Codec Values.Values.

(** ** Hashing and key text *)

Definition fx_step (hash b : Z) : Z := as_u64 (Z.lxor hash b * 1099511628211).
Definition fx_hash (key : bytes) : Z := foldl fx_step 14695981039346656037 key.

(** [key_str]: the key if it is UTF-8, else the empty string. *)
Definition key_str (key : bytes) : bytes := if is_utf8 key then key else [].

(** [key_string]: the key if it is UTF-8, else its lossy decoding. *)
Definition key_string (key : bytes) : bytes := if is_utf8 key then key else from_utf8_lossy key.

Definition is_table_storage_key (key : bytes) : bool := starts_with key (bs "_t:").

(** [str::split_once] *)
Fixpoint split_once (sep l : bytes) : option (bytes * bytes) :=
  if starts_with l sep then Some ([], drop (length sep) l)
  else match l with
       | [] => None
       | b :: l => '(a, r) ← split_once sep l; Some (b :: a, r)
       end.

Definition parse_table_vector_key (key : bytes) : option (bytes * bytes * bytes) :=
  if starts_with key (bs "_t:") then
    '(table, rest) ← split_once (bs ":vec:") (drop 3 key);
    '(field, pk) ← split_once (bs ":") rest;
    if bool_decide (table = []) || bool_decide (field = []) || bool_decide (pk = []) then None
    else Some (table, field, pk)
  else None.

Definition table_vector_index_name (table field : bytes) : bytes := table ++ bs "." ++ field.

(** ** State *)

Record Shard := mkShard { data : gmap bytes Entry; version : Z; shard_memory : Z }.

Record Store := mkStore {
  shards : list Shard;
  used_memory : Z;
  key_count : Z;
  lru_clock : Z;
  disk_shards : option (list Disk.DiskShard);
  vector_indexes : gmap Z (gset bytes);
  table_vector_indexes : gmap (Z * bytes) (gset bytes)
}.

Definition empty_shard : Shard := mkShard ∅ 0 0.

Definition new (n : nat) : Store := mkStore (replicate n empty_shard) 0 0 0 None ∅ ∅.

Definition set_shards (l : list Shard) (s : Store) : Store :=
  mkStore l (used_memory s) (key_count s) (lru_clock s) (disk_shards s) (vector_indexes s)
    (table_vector_indexes s).
Definition set_used (u : Z) (s : Store) : Store :=
  mkStore (shards s) u (key_count s) (lru_clock s) (disk_shards s) (vector_indexes s)
    (table_vector_indexes s).
Definition set_keys (k : Z) (s : Store) : Store :=
  mkStore (shards s) (used_memory s) k (lru_clock s) (disk_shards s) (vector_indexes s)
    (table_vector_indexes s).
Definition set_disk (d : option (list Disk.DiskShard)) (s : Store) : Store :=
  mkStore (shards s) (used_memory s) (key_count s) (lru_clock s) d (vector_indexes s)
    (table_vector_indexes s).
Definition set_vectors (v : gmap Z (gset bytes)) (t : gmap (Z * bytes) (gset bytes)) (s : Store)
    : Store :=
  mkStore (shards s) (used_memory s) (key_count s) (lru_clock s) (disk_shards s) v t.

Definition shard_index (s : Store) (key : bytes) : nat :=
  Z.to_nat (fx_hash key mod zlen (shards s)).

Definition shard_at (s : Store) (idx : nat) : Shard := default empty_shard (shards s !! idx).

Definition with_shard (idx : nat) (f : Shard -> Shard) (s : Store) : Store :=
  set_shards (alter f idx (shards s)) s.

(** [shard.data.get(key)] in the shard of the key. *)
Definition find (s : Store) (key : bytes) : option Entry := data (shard_at s (shard_index s key)) !! key.

(** The entry, if there is one and it has not expired. *)
Definition live (s : Store) (now : Z) (key : bytes) : option Entry :=
  match find s key with
  | Some e => if is_expired_at now e then None else Some e
  | None => None
  end.

(** ** Counters *)

Definition mem_add (amount : Z) (s : Store) : Store := set_used (usize_add (used_memory s) amount) s.
Definition mem_sub (amount : Z) (s : Store) : Store := set_used (sat_sub (used_memory s) amount) s.
Definition key_added (s : Store) : Store := set_keys (usize_add (key_count s) 1) s.
Definition key_removed (s : Store) : Store := set_keys (sat_sub (key_count s) 1) s.

(** [if mem >= old { mem_add(mem - old) } else { mem_sub(old - mem) }] *)
Definition mem_replace (old mem : Z) (s : Store) : Store :=
  if mem >=? old then mem_add (mem - old) s else mem_sub (old - mem) s.

Definition bump (key : bytes) (s : Store) : Store :=
  with_shard (shard_index s key)
    (fun sh => mkShard (data sh) (as_u64 (version sh + 1)) (shard_memory sh)) s.

Definition put_data (key : bytes) (e : Entry) (s : Store) : Store :=
  with_shard (shard_index s key)
    (fun sh => mkShard (<[key := e]> (data sh)) (version sh) (shard_memory sh)) s.

Definition drop_data (key : bytes) (s : Store) : Store :=
  with_shard (shard_index s key)
    (fun sh => mkShard (delete key (data sh)) (version sh) (shard_memory sh)) s.

(** [shard.used_memory += amount] and [saturating_sub], on the shard of the key. *)
Definition shard_mem_add (key : bytes) (amount : Z) (s : Store) : Store :=
  with_shard (shard_index s key)
    (fun sh => mkShard (data sh) (version sh) (usize_add (shard_memory sh) amount)) s.
Definition shard_mem_sub (key : bytes) (amount : Z) (s : Store) : Store :=
  with_shard (shard_index s key)
    (fun sh => mkShard (data sh) (version sh) (sat_sub (shard_memory sh) amount)) s.

(** The insertion every string command ends with: the entry replaces the old one, the memory
    counter moves by the difference of the estimates, and a new key is counted. *)
Definition insert_accounted (key : bytes) (e : Entry) (s : Store) : Store :=
  let mem := estimate_entry_memory key (value e) in
  match find s key with
  | Some old => mem_replace (estimate_entry_memory key (value old)) mem (put_data key e s)
  | None => key_added (mem_add mem (put_data key e s))
  end.

(** The removal every deleting command performs on an entry that is present. *)
Definition remove_accounted (key : bytes) (e : Entry) (s : Store) : Store :=
  let mem := estimate_entry_memory key (value e) in
  mem_sub mem (shard_mem_sub key mem (key_removed (drop_data key s))).

(** ** Vector indexes (the names they hold) *)

Definition insert_vector_indexes (key : bytes) (dims : Z) (s : Store) : Store :=
  match parse_table_vector_key key with
  | Some (table, field, _) =>
      let k := (dims, table_vector_index_name table field) in
      set_vectors (vector_indexes s)
        (<[k := {[key]} ∪ default ∅ (table_vector_indexes s !! k)]> (table_vector_indexes s)) s
  | None =>
      set_vectors (<[dims := {[key]} ∪ default ∅ (vector_indexes s !! dims)]> (vector_indexes s))
        (table_vector_indexes s) s
  end.

Definition remove_vector_indexes (key : bytes) (dims : Z) (s : Store) : Store :=
  match parse_table_vector_key key with
  | Some (table, field, _) =>
      let k := (dims, table_vector_index_name table field) in
      set_vectors (vector_indexes s) (alter (fun names => names ∖ {[key]}) k (table_vector_indexes s)) s
  | None =>
      set_vectors (alter (fun names => names ∖ {[key]}) dims (vector_indexes s))
        (table_vector_indexes s) s
  end.

(** ** The cold tier *)

Definition disk_shard_index (s : Store) (key : bytes) : nat :=
  match disk_shards s with
  | Some ds => Z.to_nat (fx_hash key mod zlen ds)
  | None => 0%nat
  end.

(** The disk shard of a key; it is looked up under [key_str]. *)
Definition disk_at (s : Store) (key : bytes) : option Disk.DiskShard :=
  ds ← disk_shards s; ds !! disk_shard_index s key.

Definition with_disk (key : bytes) (d : Disk.DiskShard) (s : Store) : Store :=
  match disk_shards s with
  | Some ds => set_disk (Some (<[disk_shard_index s key := d]> ds)) s
  | None => s
  end.

Definition is_tiered (s : Store) : bool := bool_decide (is_Some (disk_shards s)).

Definition disk_contains (key : bytes) (clock : Z) (s : Store) : bool :=
  match disk_at s key with
  | Some d => Disk.contains_valid (key_str key) clock d
  | None => false
  end.

Definition remove_from_disk (key : bytes) (s : Store) : Store :=
  match disk_at s key with
  | Some d => with_disk key (Disk.remove (key_str key) d) s
  | None => s
  end.

Definition disk_key_count (s : Store) : Z :=
  match disk_shards s with
  | Some ds => zsum ((fun d => Z.of_nat (Disk.disk_len d)) <$> ds)
  | None => 0
  end.

(** ** Dumping and loading values *)

Definition dump_group (p : bytes * ConsumerGroup) : StreamGroupDump :=
  let '(name, g) := p in
  (name, id_fmt (g_last_delivered g),
   (fun c => (c.1, merge_sort bytes_le (id_fmt <$> elements (c_pel c.2))))
     <$> map_to_list (g_consumers g),
   (fun e => (id_fmt e.1, p_consumer e.2, p_count e.2)) <$> g_pel g).

Definition store_value_to_dump_value (v : StoreValue) : DumpValue :=
  match v with
  | VStr s | VStrBuf s => DStr s
  | VList l => DList l
  | VHash h => DHash (map_to_list (fields h)) (map_to_list (expiries h))
  | VSet s => DSet (members s)
  | VSortedSet _ scores => DSortedSet (map_to_list scores)
  | VStream s =>
      DStream ((fun e => (id_fmt e.1, e.2)) <$> s_entries s) (id_fmt (s_last_id s))
        (dump_group <$> map_to_list (s_groups s))
  | VVector v => DVector (v_data v) (v_metadata v) (v_encrypted v)
  | VHyperLogLog regs cached => DHyperLogLog regs cached
  | VTimeSeries t => DTimeSeries (t_samples t) (t_retention t) (t_labels t)
  end.

Definition entry_to_dump (key : bytes) (v : StoreValue) (ttl_ms : Z) : DumpEntry :=
  mkDumpEntry key (store_value_to_dump_value v) ttl_ms.

(** The order of [OrderedFloat<f64>] on bit patterns: NaN is the greatest and equal to itself, the
    two zeros are equal. *)
Definition f64_is_nan (b : Z) : bool := Z.land b 9223372036854775807 >? 9218868437227405312.
Definition f64_rank (b : Z) : Z :=
  if f64_is_nan b then u64_mod
  else if Z.testbit b 63 then - (b - 9223372036854775808) else b.

Definition zkey_ltb (a b : Z * bytes) : bool :=
  (f64_rank a.1 <? f64_rank b.1) ||
  ((f64_rank a.1 =? f64_rank b.1) && bytes_leb a.2 b.2 && negb (bytes_eqb a.2 b.2)).
Definition zkey_eqb (a b : Z * bytes) : bool :=
  (f64_rank a.1 =? f64_rank b.1) && bytes_eqb a.2 b.2.

(** [BTreeMap::insert] of a key of a sorted set. *)
Fixpoint tree_insert (x : Z * bytes) (l : list (Z * bytes)) : list (Z * bytes) :=
  match l with
  | [] => [x]
  | y :: l => if zkey_ltb x y then x :: y :: l else if zkey_eqb x y then y :: l else y :: tree_insert x l
  end.

(** [BTreeMap::insert] by stream identifier: the value is replaced. *)
Fixpoint id_insert {A} (i : StreamId) (a : A) (l : list (StreamId * A)) : list (StreamId * A) :=
  match l with
  | [] => [(i, a)]
  | (j, b) :: l =>
      if id_ltb i j then (i, a) :: (j, b) :: l
      else if bool_decide (i = j) then (j, a) :: l
      else (j, b) :: id_insert i a l
  end.

Definition load_group (clock : Z) (g : StreamGroupDump) : bytes * ConsumerGroup :=
  let '(name, last_str, consumers_data, pending_data) := g in
  let last := default id_zero (id_parse last_str) in
  let consumers := foldl (fun m c =>
    <[c.1 := mkConsumer (list_to_set (omap id_parse c.2)) clock]> m) ∅ consumers_data in
  let '(pel, consumers) := foldl (fun acc p =>
    let '(pel, consumers) := acc in
    let '(id_str, consumer, count) := p in
    match id_parse id_str with
    | Some i => (id_insert i (mkPending consumer clock count) pel,
                 match consumers !! consumer with
                 | Some _ => consumers
                 | None => <[consumer := mkConsumer ∅ clock]> consumers
                 end)
    | None => (pel, consumers)
    end) ([], consumers) pending_data in
  let consumers := foldl (fun m p =>
    alter (fun c => mkConsumer ({[p.1]} ∪ c_pel c) (c_seen c)) (p_consumer p.2) m) consumers pel in
  (name, mkGroup last consumers pel).

(** The value [load_entry] builds; [clock] is its [Instant::now()]. *)
Definition load_value (clock : Z) (v : DumpValue) : StoreValue :=
  match v with
  | DStr s => VStr s
  | DList l => VList l
  | DHash pairs expiries => VHash (mkHash (list_to_map (reverse pairs)) (list_to_map (reverse expiries)))
  | DSet l => VSet (set_from_members l)
  | DSortedSet l =>
      VSortedSet (foldl (fun t p => tree_insert (p.2, p.1) t) [] l)
        (foldl (fun m p => <[p.1 := p.2]> m) ∅ l)
  | DStream entries last groups =>
      VStream (mkStream
        (foldl (fun l e => match id_parse e.1 with Some i => id_insert i e.2 l | None => l end) [] entries)
        (default id_zero (id_parse last))
        (foldl (fun m g => let '(name, cg) := load_group clock g in <[name := cg]> m) ∅ groups))
  | DVector data metadata encrypted => VVector (mkVector (as_u32 (zlen data)) data metadata encrypted)
  | DHyperLogLog regs cached => VHyperLogLog regs cached
  | DTimeSeries samples retention labels => VTimeSeries (mkSeries samples retention labels)
  end.

(** [load_entry]; [ttl] in nanoseconds. Loading only ever adds to the memory counters. *)
Definition load_entry (clock : Z) (key : bytes) (v : DumpValue) (ttl : option Z) (s : Store) : Store :=
  let s := bump key s in
  let sv := load_value clock v in
  let mem := estimate_entry_memory key sv in
  let fresh := bool_decide (find s key = None) in
  let s := put_data key (mkEntry sv ((fun d => clock + d) <$> ttl) (lru_clock s)) s in
  let s := if fresh then key_added s else s in
  let s := mem_add mem (shard_mem_add key mem s) in
  match sv with
  | VVector vec => insert_vector_indexes key (v_dims vec) s
  | _ => s
  end.

(** ** Eviction and promotion *)

(** [exp.duration_since(now).as_millis()], in nanoseconds since the start of the clock. *)
Definition millis_until (exp now : Z) : Z := Z.max 0 (exp - now) / 1000000.

(** [evict_key]. [write] is what the operating system does with the write of the record, and
    [compacted] whether the inline compaction ran and what it gave. *)
Definition evict_key (hll_count : bytes -> Z) (write : option (nat * bool)) (compacting : bool)
    (clock : Z) (key : bytes) (s : Store) : bool * Store :=
  match find s key with
  | None => (false, s)
  | Some e =>
      match disk_at s key with
      | Some d =>
          match value e with
          | VVector _ => (false, s)
          | _ =>
              let ttl_ms := match expires_at e with
                            | Some exp => if exp >? clock then millis_until exp clock else 0
                            | None => 0
                            end in
              let ks := key_string key in
              let '(ok, d) := Disk.put write ks (entry_to_dump ks (value e) ttl_ms) clock d in
              if negb ok then (false, with_disk key d s)
              else
                let d := if compacting
                         then match Disk.compact hll_count d with IoOk d' => d' | IoErr _ => d end
                         else d in
                (true, bump key (remove_accounted key e (with_disk key d s)))
          end
      | None =>
          match disk_shards s with
          | Some _ => (false, s)
          | None => (true, bump key (remove_accounted key e s))
          end
      end
  end.

(** [try_promote]: [Ok true] when the key was cold and is hot now. *)
Definition try_promote (hll_count : bytes -> Z) (clock : Z) (key : bytes) (now : Z) (s : Store)
    : result bool * Store :=
  match disk_at s key with
  | None => (Ok false, s)
  | Some d =>
      if negb (Disk.contains (key_str key) d) then (Ok false, s)
      else match Disk.get hll_count (key_str key) now d with
           | (IoOk None, d) => (Ok false, with_disk key d s)
           | (IoErr _, d) => (Err "ERR cold storage read failed", with_disk key d s)
           | (IoOk (Some (v, ttl)), d) =>
               let s := with_disk key (Disk.remove (key_str key) d) s in
               (Ok true, load_entry clock (key_str key) v ((fun t => t * 1000000) <$> ttl) s)
           end
  end.

(** ** Invariants *)

Definition nonempty (s : Store) : Prop := (0 < length (shards s))%nat.

(** Every key is in the shard its hash selects. *)
Definition placed (s : Store) : Prop :=
  forall i sh k, shards s !! i = Some sh -> is_Some (data sh !! k) -> shard_index s k = i.

Definition shard_keys (sh : Shard) : Z := Z.of_nat (size (data sh)).
Definition total_keys (s : Store) : Z := zsum (shard_keys <$> shards s).

Definition entry_cost (p : bytes * Entry) : Z := estimate_entry_memory p.1 (value p.2).
Definition shard_cost (sh : Shard) : Z := zsum (entry_cost <$> map_to_list (data sh)).
Definition total_memory (s : Store) : Z := zsum (shard_cost <$> shards s).

(** The metrics are exact. *)
Record accounted (s : Store) : Prop := {
  acc_nonempty : nonempty s;
  acc_placed : placed s;
  acc_keys : key_count s = total_keys s;
  acc_memory : used_memory s = total_memory s
}.

(** The counters of [s] are within the width of [usize]. *)
Definition fits (s : Store) : Prop := total_keys s <= usize_max /\ total_memory s <= usize_max.

(** ** Lemmas: shards *)

Lemma shard_index_lt s key : nonempty s -> (shard_index s key < length (shards s))%nat.
Proof.
  unfold nonempty, shard_index, zlen. intros H.
  pose proof (Z.mod_pos_bound (fx_hash key) (Z.of_nat (length (shards s))) ltac:(lia)). lia.
Qed.

Lemma shard_at_lookup s i : (i < length (shards s))%nat -> shards s !! i = Some (shard_at s i).
Proof.
  intros H. unfold shard_at. destruct (lookup_lt_is_Some_2 (shards s) i H) as [sh ->]. done.
Qed.

Lemma length_with_shard i f s : length (shards (with_shard i f s)) = length (shards s).
Proof. cbn. apply length_alter. Qed.

Lemma shard_index_length s s' key :
  length (shards s') = length (shards s) -> shard_index s' key = shard_index s key.
Proof. unfold shard_index, zlen. by intros ->. Qed.

Lemma shard_index_with_shard i f s key : shard_index (with_shard i f s) key = shard_index s key.
Proof. apply shard_index_length, length_with_shard. Qed.

Lemma nonempty_with_shard i f s : nonempty (with_shard i f s) <-> nonempty s.
Proof. unfold nonempty. by rewrite length_with_shard. Qed.

Lemma shard_at_with_shard_eq i f s :
  (i < length (shards s))%nat -> shard_at (with_shard i f s) i = f (shard_at s i).
Proof.
  intros H. unfold shard_at. cbn. rewrite list_lookup_alter_eq.
  by destruct (lookup_lt_is_Some_2 (shards s) i H) as [sh ->].
Qed.

Lemma shard_at_with_shard_ne i j f s : i ≠ j -> shard_at (with_shard i f s) j = shard_at s j.
Proof. intros H. unfold shard_at. cbn. by rewrite list_lookup_alter_ne. Qed.

(** An update of a shard that does not touch its map. *)
Lemma find_with_shard_same i f s k :
  (forall sh, data (f sh) = data sh) -> find (with_shard i f s) k = find s k.
Proof.
  intros Hf. unfold find. rewrite shard_index_with_shard.
  destruct (decide (i = shard_index s k)) as [->|Hne]; [|by rewrite shard_at_with_shard_ne].
  unfold shard_at. cbn. rewrite list_lookup_alter_eq.
  destruct (shards s !! shard_index s k) as [sh|]; [|done]. cbn. by rewrite Hf.
Qed.

Lemma find_put_data key e s k :
  nonempty s -> find (put_data key e s) k = if decide (k = key) then Some e else find s k.
Proof.
  intros Hn. unfold find, put_data. rewrite shard_index_with_shard.
  destruct (decide (shard_index s key = shard_index s k)) as [E|Hne].
  - rewrite <-E, shard_at_with_shard_eq by (by apply shard_index_lt). cbn.
    destruct (decide (k = key)) as [->|]; [by rewrite lookup_insert_eq|by rewrite lookup_insert_ne].
  - rewrite shard_at_with_shard_ne by done. by destruct (decide (k = key)) as [->|].
Qed.

Lemma find_drop_data key s k :
  nonempty s -> find (drop_data key s) k = if decide (k = key) then None else find s k.
Proof.
  intros Hn. unfold find, drop_data. rewrite shard_index_with_shard.
  destruct (decide (shard_index s key = shard_index s k)) as [E|Hne].
  - rewrite <-E, shard_at_with_shard_eq by (by apply shard_index_lt). cbn.
    destruct (decide (k = key)) as [->|]; [by rewrite lookup_delete_eq|by rewrite lookup_delete_ne].
  - rewrite shard_at_with_shard_ne by done. by destruct (decide (k = key)) as [->|].
Qed.

(** Updates that leave every entry where it is. *)
Lemma find_bump key s k : find (bump key s) k = find s k.
Proof. by apply find_with_shard_same. Qed.
Lemma find_shard_mem_add key a s k : find (shard_mem_add key a s) k = find s k.
Proof. by apply find_with_shard_same. Qed.
Lemma find_shard_mem_sub key a s k : find (shard_mem_sub key a s) k = find s k.
Proof. by apply find_with_shard_same. Qed.
Lemma find_mem_add a s k : find (mem_add a s) k = find s k.
Proof. done. Qed.
Lemma find_mem_sub a s k : find (mem_sub a s) k = find s k.
Proof. done. Qed.
Lemma find_key_added s k : find (key_added s) k = find s k.
Proof. done. Qed.
Lemma find_key_removed s k : find (key_removed s) k = find s k.
Proof. done. Qed.
Lemma find_mem_replace o m s k : find (mem_replace o m s) k = find s k.
Proof. unfold mem_replace. by destruct (_ >=? _). Qed.
Lemma find_with_disk key d s k : find (with_disk key d s) k = find s k.
Proof. unfold with_disk. by destruct (disk_shards s). Qed.
Lemma find_remove_from_disk key s k : find (remove_from_disk key s) k = find s k.
Proof. unfold remove_from_disk. destruct (disk_at s key); [apply find_with_disk|done]. Qed.
Lemma find_insert_vector key d s k : find (insert_vector_indexes key d s) k = find s k.
Proof. unfold insert_vector_indexes. by destruct (parse_table_vector_key key) as [[[]]|]. Qed.
Lemma find_remove_vector key d s k : find (remove_vector_indexes key d s) k = find s k.
Proof. unfold remove_vector_indexes. by destruct (parse_table_vector_key key) as [[[]]|]. Qed.

#[export] Hint Rewrite find_bump find_shard_mem_add find_shard_mem_sub find_mem_add find_mem_sub
  find_key_added find_key_removed find_mem_replace find_with_disk find_remove_from_disk
  find_insert_vector find_remove_vector : lux.

Lemma nonempty_bump key s : nonempty (bump key s) <-> nonempty s.
Proof. apply nonempty_with_shard. Qed.
Lemma nonempty_put_data key e s : nonempty (put_data key e s) <-> nonempty s.
Proof. apply nonempty_with_shard. Qed.
Lemma nonempty_drop_data key s : nonempty (drop_data key s) <-> nonempty s.
Proof. apply nonempty_with_shard. Qed.
Lemma nonempty_shard_mem_add key a s : nonempty (shard_mem_add key a s) <-> nonempty s.
Proof. apply nonempty_with_shard. Qed.
Lemma nonempty_shard_mem_sub key a s : nonempty (shard_mem_sub key a s) <-> nonempty s.
Proof. apply nonempty_with_shard. Qed.
Lemma nonempty_mem_replace o m s : nonempty (mem_replace o m s) <-> nonempty s.
Proof. unfold mem_replace. by destruct (_ >=? _). Qed.
Lemma nonempty_mem_add a s : nonempty (mem_add a s) <-> nonempty s.
Proof. done. Qed.
Lemma nonempty_mem_sub a s : nonempty (mem_sub a s) <-> nonempty s.
Proof. done. Qed.
Lemma nonempty_key_added s : nonempty (key_added s) <-> nonempty s.
Proof. done. Qed.
Lemma nonempty_key_removed s : nonempty (key_removed s) <-> nonempty s.
Proof. done. Qed.
Lemma nonempty_with_disk key d s : nonempty (with_disk key d s) <-> nonempty s.
Proof. unfold with_disk. by destruct (disk_shards s). Qed.
Lemma nonempty_remove_from_disk key s : nonempty (remove_from_disk key s) <-> nonempty s.
Proof. unfold remove_from_disk. destruct (disk_at s key); [apply nonempty_with_disk|done]. Qed.

#[export] Hint Rewrite nonempty_bump nonempty_put_data nonempty_drop_data nonempty_shard_mem_add
  nonempty_shard_mem_sub nonempty_mem_replace nonempty_mem_add nonempty_mem_sub nonempty_key_added
  nonempty_key_removed nonempty_with_disk nonempty_remove_from_disk : lux.

(** Entries of updated stores. *)
Ltac find_simp :=
  repeat first
    [ progress autorewrite with lux
    | rewrite find_put_data by (autorewrite with lux; assumption)
    | rewrite find_drop_data by (autorewrite with lux; assumption) ].

Lemma find_insert_accounted key e s k :
  nonempty s -> find (insert_accounted key e s) k = if decide (k = key) then Some e else find s k.
Proof. intros Hn. unfold insert_accounted. destruct (find s key); by find_simp. Qed.

Lemma find_remove_accounted key e s k :
  nonempty s -> find (remove_accounted key e s) k = if decide (k = key) then None else find s k.
Proof. intros Hn. unfold remove_accounted. by find_simp. Qed.

Lemma nonempty_insert_accounted key e s : nonempty (insert_accounted key e s) <-> nonempty s.
Proof. unfold insert_accounted. destruct (find s key); by autorewrite with lux. Qed.

Lemma nonempty_remove_accounted key e s : nonempty (remove_accounted key e s) <-> nonempty s.
Proof. unfold remove_accounted. by autorewrite with lux. Qed.

#[export] Hint Rewrite nonempty_insert_accounted nonempty_remove_accounted : lux.

(** ** Lemmas: accounting *)

Lemma zsum_alter {A} (f : A -> Z) (g : A -> A) i l x :
  l !! i = Some x -> zsum (f <$> alter g i l) = zsum (f <$> l) - f x + f (g x).
Proof.
  revert i. induction l as [|y l IH]; intros [|i] H; cbn in H; simplify_eq/=.
  - unfold zsum. cbn. lia.
  - specialize (IH i H). unfold zsum in *. cbn. lia.
Qed.

Lemma cost_split (d : gmap bytes Entry) key e :
  d !! key = Some e ->
  zsum (entry_cost <$> map_to_list d) =
    entry_cost (key, e) + zsum (entry_cost <$> map_to_list (delete key d)).
Proof. intros E. rewrite <-(map_to_list_delete d key e E). done. Qed.

Lemma shard_cost_insert key e d v m :
  shard_cost (mkShard (<[key := e]> d) v m) =
    shard_cost (mkShard d v m) + entry_cost (key, e)
    - match d !! key with Some old => entry_cost (key, old) | None => 0 end.
Proof.
  unfold shard_cost. cbn [data]. destruct (d !! key) as [old|] eqn:E.
  - rewrite <-insert_delete_eq.
    rewrite (map_to_list_insert (delete key d)) by apply lookup_delete_eq.
    rewrite (cost_split d key old E), fmap_cons. unfold zsum. cbn [foldr]. lia.
  - rewrite map_to_list_insert, fmap_cons by done. unfold zsum. cbn [foldr]. lia.
Qed.

Lemma shard_cost_delete key d v m e :
  d !! key = Some e ->
  shard_cost (mkShard (delete key d) v m) = shard_cost (mkShard d v m) - entry_cost (key, e).
Proof.
  intros E. unfold shard_cost. cbn [data]. rewrite (cost_split d key e E). lia.
Qed.

Lemma zsum_nonneg {A} (f : A -> Z) l : (forall x, 0 <= f x) -> 0 <= zsum (f <$> l).
Proof. intros Hf. unfold zsum. induction l as [|x l IH]; cbn; [lia|]. specialize (Hf x). lia. Qed.

Lemma value_memory_nonneg v : 0 <= value_memory v.
Proof.
  destruct v; cbn [value_memory];
    repeat match goal with
    | |- context [zlen ?l] => lazymatch goal with
        | H : 0 <= zlen l |- _ => fail
        | _ => pose proof (zlen_nonneg l) end
    end;
    try (apply zsum_nonneg; intros; unfold zlen; lia); try lia.
  - apply zsum_nonneg. intros x. unfold stream_entry_memory.
    pose proof (zsum_nonneg (fun p : bytes * bytes => zlen p.1 + zlen p.2 + 32) x.2
      ltac:(intros; unfold zlen; lia)). lia.
  - destruct (v_metadata v) as [md|]; [pose proof (zlen_nonneg md)|]; lia.
  - pose proof (zsum_nonneg (fun p : bytes * bytes => zlen p.1 + zlen p.2 + 32) (t_labels t)
      ltac:(intros; unfold zlen; lia)). lia.
Qed.

Lemma estimate_pos key v : 0 < estimate_entry_memory key v.
Proof.
  unfold estimate_entry_memory. pose proof (zlen_nonneg key). pose proof (value_memory_nonneg v). lia.
Qed.

Lemma shard_cost_nonneg sh : 0 <= shard_cost sh.
Proof. apply zsum_nonneg. intros p. unfold entry_cost. pose proof (estimate_pos p.1 (value p.2)). lia. Qed.

Lemma total_memory_nonneg s : 0 <= total_memory s.
Proof. apply zsum_nonneg, shard_cost_nonneg. Qed.

Lemma total_keys_nonneg s : 0 <= total_keys s.
Proof. apply zsum_nonneg. intros. unfold shard_keys. lia. Qed.

(** The totals after a change of one shard. *)
Lemma totals_with_shard key f s :
  nonempty s ->
  total_keys (with_shard (shard_index s key) f s) =
    total_keys s - shard_keys (shard_at s (shard_index s key))
    + shard_keys (f (shard_at s (shard_index s key))) /\
  total_memory (with_shard (shard_index s key) f s) =
    total_memory s - shard_cost (shard_at s (shard_index s key))
    + shard_cost (f (shard_at s (shard_index s key))).
Proof.
  intros Hn. pose proof (shard_at_lookup s _ (shard_index_lt s key Hn)) as E.
  unfold total_keys, total_memory. cbn. by rewrite !(zsum_alter _ _ _ _ _ E).
Qed.

Lemma totals_put key e s :
  nonempty s ->
  total_keys (put_data key e s) =
    total_keys s + match find s key with Some _ => 0 | None => 1 end /\
  total_memory (put_data key e s) =
    total_memory s + entry_cost (key, e)
    - match find s key with Some old => entry_cost (key, old) | None => 0 end.
Proof.
  intros Hn. unfold put_data.
  destruct (totals_with_shard key (fun sh => mkShard (<[key := e]> (data sh)) (version sh)
    (shard_memory sh)) s Hn) as [-> ->].
  unfold find. destruct (shard_at s (shard_index s key)) as [d v m]. cbn [data version shard_memory].
  rewrite shard_cost_insert. unfold shard_keys. cbn [data]. rewrite map_size_insert.
  destruct (d !! key); cbn; lia.
Qed.

Lemma totals_drop key e s :
  nonempty s -> find s key = Some e ->
  total_keys (drop_data key s) = total_keys s - 1 /\
  total_memory (drop_data key s) = total_memory s - entry_cost (key, e) /\
  0 < total_keys s /\ entry_cost (key, e) <= total_memory s.
Proof.
  intros Hn Hf. unfold drop_data.
  destruct (totals_with_shard key (fun sh => mkShard (delete key (data sh)) (version sh)
    (shard_memory sh)) s Hn) as [E1 E2].
  pose proof (total_keys_nonneg (drop_data key s)) as H1.
  pose proof (total_memory_nonneg (drop_data key s)) as H2. unfold drop_data in H1, H2.
  rewrite E1 in *. rewrite E2 in *. clear E1 E2.
  unfold find in Hf. destruct (shard_at s (shard_index s key)) as [d v m].
  cbn [data version shard_memory] in *. rewrite (shard_cost_delete key d v m e Hf) in *.
  unfold shard_keys in *. cbn [data] in *.
  pose proof (map_size_delete key d) as Hs. rewrite Hf in Hs.
  assert (size d ≠ 0%nat) by (intros Hz%map_size_empty_iff; by rewrite Hz, lookup_empty in Hf).
  lia.
Qed.

Lemma totals_same_data i f s :
  (forall sh, data (f sh) = data sh) ->
  total_keys (with_shard i f s) = total_keys s /\ total_memory (with_shard i f s) = total_memory s.
Proof.
  intros Hf. unfold total_keys, total_memory. cbn. destruct (shards s !! i) as [sh|] eqn:E.
  - rewrite !(zsum_alter _ _ _ _ _ E). unfold shard_keys, shard_cost. rewrite Hf. lia.
  - assert (alter f i (shards s) = shards s) as ->; [|done].
    apply list_eq. intros j. destruct (decide (i = j)) as [->|].
    + by rewrite list_lookup_alter_eq, E.
    + by rewrite list_lookup_alter_ne.
Qed.

(** Placement only depends on which keys are where. *)
Lemma placed_with_shard key f s :
  (forall sh k, is_Some (data (f sh) !! k) -> k = key \/ is_Some (data sh !! k)) ->
  placed s -> placed (with_shard (shard_index s key) f s).
Proof.
  intros Hf Hp i sh k Hi Hk. rewrite shard_index_with_shard. cbn in Hi.
  rewrite list_lookup_alter in Hi. case_decide as Hd; [subst i|by eapply Hp].
  destruct (shards s !! shard_index s key) as [sh'|] eqn:E; [|done]. injection Hi as <-.
  destruct (Hf _ _ Hk) as [->|Hk']; [done|]. by eapply Hp.
Qed.

Lemma accounted_same s s' :
  accounted s -> length (shards s') = length (shards s) -> placed s' ->
  total_keys s' = total_keys s -> total_memory s' = total_memory s ->
  key_count s' = key_count s -> used_memory s' = used_memory s -> accounted s'.
Proof.
  intros [Hn Hp Hk Hm] Hl Hp' ????. split; [|done|congruence|congruence].
  unfold nonempty in *. lia.
Qed.

Lemma accounted_touch key f s :
  (forall sh, data (f sh) = data sh) -> accounted s ->
  accounted (with_shard (shard_index s key) f s).
Proof.
  intros Hf Ha. destruct (totals_same_data (shard_index s key) f s Hf).
  eapply accounted_same; [done|apply length_with_shard| |done|done|done|done].
  apply placed_with_shard; [|apply Ha]. intros sh k. rewrite Hf. auto.
Qed.

Lemma accounted_bump key s : accounted s -> accounted (bump key s).
Proof. by apply accounted_touch. Qed.
Lemma accounted_shard_mem_add key a s : accounted s -> accounted (shard_mem_add key a s).
Proof. by apply accounted_touch. Qed.
Lemma accounted_shard_mem_sub key a s : accounted s -> accounted (shard_mem_sub key a s).
Proof. by apply accounted_touch. Qed.

Lemma accounted_set_disk d s : accounted s -> accounted (set_disk d s).
Proof. intros [????]. by split. Qed.

Lemma accounted_with_disk key d s : accounted s -> accounted (with_disk key d s).
Proof. unfold with_disk. destruct (disk_shards s); [apply accounted_set_disk|done]. Qed.

Lemma accounted_remove_from_disk key s : accounted s -> accounted (remove_from_disk key s).
Proof. unfold remove_from_disk. destruct (disk_at s key); [apply accounted_with_disk|done]. Qed.

Lemma accounted_remove_vector key d s : accounted s -> accounted (remove_vector_indexes key d s).
Proof.
  intros [????]. unfold remove_vector_indexes. destruct (parse_table_vector_key key) as [[[]]|]; by split.
Qed.

#[export] Hint Resolve accounted_bump accounted_shard_mem_add accounted_shard_mem_sub
  accounted_with_disk accounted_remove_from_disk accounted_remove_vector : lux.

Lemma placed_put key e s : placed s -> placed (put_data key e s).
Proof.
  apply placed_with_shard. intros sh k. cbn. destruct (decide (k = key)); [by left|].
  rewrite lookup_insert_ne by done. by right.
Qed.

Lemma placed_drop key s : placed s -> placed (drop_data key s).
Proof.
  apply placed_with_shard. intros sh k. cbn. destruct (decide (k = key)); [by left|].
  rewrite lookup_delete_ne by done. by right.
Qed.

Lemma usize_add_small a b : 0 <= a + b <= usize_max -> usize_add a b = a + b.
Proof. intros. unfold usize_add. apply as_u64_small. unfold usize_max, u64_mod in *. lia. Qed.

Lemma usize_add_wraps a b :
  0 <= a <= usize_max -> 0 <= b <= usize_max -> usize_max < a + b -> usize_add a b = a + b - u64_mod.
Proof.
  intros Ha Hb Hov. unfold usize_add, as_u64. rewrite <-(Z.mod_add _ (-1)) by done.
  unfold usize_max, u64_mod in *. rewrite Z.mod_small; lia.
Qed.

Lemma sat_sub_small a b : b <= a -> sat_sub a b = a - b.
Proof. unfold sat_sub. lia. Qed.

Lemma accounted_insert key e s :
  accounted s -> fits (insert_accounted key e s) -> accounted (insert_accounted key e s).
Proof.
  intros [Hn Hp Hk Hm] [Fk Fm]. destruct (totals_put key e s Hn) as [Tk Tm].
  pose proof (total_keys_nonneg s). pose proof (total_memory_nonneg s).
  unfold insert_accounted in *. destruct (find s key) as [old|] eqn:E.
  - assert (total_memory (mem_replace (estimate_entry_memory key (value old))
      (estimate_entry_memory key (value e)) (put_data key e s)) = total_memory (put_data key e s))
      as Er by (unfold mem_replace; by destruct (_ >=? _)). rewrite Er in Fm. clear Er.
    pose proof (total_memory_nonneg (put_data key e s)) as Hpos.
    unfold entry_cost in *. cbn [fst snd] in *. unfold mem_replace.
    destruct (Z.geb_spec (estimate_entry_memory key (value e)) (estimate_entry_memory key (value old))).
    + split; [by apply nonempty_put_data|by apply placed_put|unfold total_keys in *; cbn in *; lia|].
      change (total_memory (mem_add _ (put_data key e s))) with (total_memory (put_data key e s)).
      cbn [used_memory mem_add set_used]. change (used_memory (put_data key e s)) with (used_memory s).
      rewrite usize_add_small; lia.
    + split; [by apply nonempty_put_data|by apply placed_put|unfold total_keys in *; cbn in *; lia|].
      change (total_memory (mem_sub _ (put_data key e s))) with (total_memory (put_data key e s)).
      cbn [used_memory mem_sub set_used]. change (used_memory (put_data key e s)) with (used_memory s).
      rewrite sat_sub_small; lia.
  - change (total_keys (key_added _)) with (total_keys (put_data key e s)) in Fk.
    change (total_memory (key_added _)) with (total_memory (put_data key e s)) in Fm.
    unfold entry_cost in *. cbn [fst snd] in *. pose proof (estimate_pos key (value e)).
    split; [by apply nonempty_put_data|by apply placed_put| |].
    + change (total_keys (key_added _)) with (total_keys (put_data key e s)).
      cbn [key_count key_added set_keys]. change (key_count (mem_add _ _)) with (key_count s).
      rewrite usize_add_small; lia.
    + change (total_memory (key_added _)) with (total_memory (put_data key e s)).
      cbn [used_memory key_added set_keys mem_add set_used].
      change (used_memory (put_data key e s)) with (used_memory s).
      rewrite usize_add_small; lia.
Qed.

Lemma accounted_remove key e s :
  accounted s -> find s key = Some e -> accounted (remove_accounted key e s).
Proof.
  intros [Hn Hp Hk Hm] E. destruct (totals_drop key e s Hn E) as (Tk & Tm & Hpos & Hle).
  assert (accounted (mem_sub (estimate_entry_memory key (value e)) (key_removed (drop_data key s)))) as H.
  { split; [by apply nonempty_drop_data|by apply placed_drop| |].
    - change (total_keys (mem_sub _ _)) with (total_keys (drop_data key s)).
      cbn [key_count mem_sub set_used key_removed set_keys].
      change (key_count (drop_data key s)) with (key_count s). rewrite sat_sub_small; lia.
    - change (total_memory (mem_sub _ _)) with (total_memory (drop_data key s)).
      cbn [used_memory mem_sub set_used key_removed set_keys].
      change (used_memory (drop_data key s)) with (used_memory s). unfold entry_cost in *.
      cbn [fst snd] in *. rewrite sat_sub_small; lia. }
  apply (accounted_shard_mem_sub key (estimate_entry_memory key (value e))) in H. exact H.
Qed.

(** ** Lemmas: placement moves *)

Lemma disk_at_ext s s' key : disk_shards s' = disk_shards s -> disk_at s' key = disk_at s key.
Proof. intros E. unfold disk_at, disk_shard_index. by rewrite E. Qed.

Lemma disk_at_with_disk s key d0 d :
  disk_at s key = Some d0 -> disk_at (with_disk key d s) key = Some d.
Proof.
  unfold disk_at, with_disk, disk_shard_index. destruct (disk_shards s) as [ds|]; [|done].
  cbn [mbind option_bind disk_shards set_disk]. intros Hd. unfold zlen. rewrite length_insert.
  apply list_lookup_insert_eq. by eapply lookup_lt_Some.
Qed.

Lemma key_str_utf8 key : is_utf8 key = true -> key_str key = key.
Proof. unfold key_str. by intros ->. Qed.

Lemma key_string_utf8 key : is_utf8 key = true -> key_string key = key.
Proof. unfold key_string. by intros ->. Qed.

Section Tiering.

Context (hll_count : bytes -> Z).

(** The TTL an eviction stores, in milliseconds. *)
Definition evicted_ttl (e : Entry) (clock : Z) : Z :=
  match expires_at e with
  | Some exp => if exp >? clock then millis_until exp clock else 0
  | None => 0
  end.

Definition is_vector (v : StoreValue) : bool := match v with VVector _ => true | _ => false end.

(** An entry that the cold tier can hold under the name [ks]. *)
Definition evictable (ks : bytes) (e : Entry) (clock : Z) : Prop :=
  is_vector (value e) = false /\
  Disk.op_ok (Disk.OpPut (entry_to_dump ks (value e) (evicted_ttl e clock)) clock).

Definition cold_of (e : Entry) (clock : Z) : Disk.cold :=
  Disk.mkCold (stored_value hll_count (store_value_to_dump_value (value e)))
    (stored_ttl (evicted_ttl e clock)) clock.

Lemma evict_ok s key e d m compacting clock :
  nonempty s -> find s key = Some e -> disk_at s key = Some d -> Disk.refines hll_count d m ->
  evictable (key_string key) e clock ->
  exists d' s1, evict_key hll_count None compacting clock key s = (true, s1) /\
    disk_at s1 key = Some d' /\
    Disk.refines hll_count d' (<[key_string key := cold_of e clock]> m) /\
    nonempty s1 /\ s1 = bump key (remove_accounted key e (with_disk key d' s)) /\
    forall k, find s1 k = if decide (k = key) then None else find s k.
Proof.
  intros Hn Hf Hd Hr [Hv (Hok & Hb & Hsz)].
  destruct (Disk.put_refines hll_count d m (key_string key)
    (entry_to_dump (key_string key) (value e) (evicted_ttl e clock)) clock Hr Hok Hb eq_refl Hsz)
    as (d1 & Ep & Hr1).
  set (d2 := if compacting then match Disk.compact hll_count d1 with IoOk d' => d' | IoErr _ => d1 end
             else d1).
  assert (Disk.refines hll_count d2 (<[key_string key := cold_of e clock]> m)) as Hr2.
  { unfold d2. destruct compacting; [|done]. destruct (Disk.compact hll_count d1) eqn:Ec; [|done].
    destruct (Disk.compaction_safe d1) eqn:Es; [|unfold Disk.compact in Ec; by rewrite Es in Ec].
    destruct (Disk.compact_refines hll_count d1 _ Hr1 Es) as (d' & E' & ? & _).
    rewrite Ec in E'. injection E' as ->. done. }
  exists d2, (bump key (remove_accounted key e (with_disk key d2 s))).
  split; [|split; [|split; [done|split; [|split; [done|]]]]].
  - unfold evict_key. rewrite Hf, Hd. fold (evicted_ttl e clock). rewrite Ep. cbn [negb].
    destruct (value e); done.
  - rewrite <-(disk_at_with_disk s key d d2 Hd). by apply disk_at_ext.
  - by autorewrite with lux.
  - intros k. find_simp. rewrite find_remove_accounted by (by autorewrite with lux). by find_simp.
Qed.

Lemma find_load_entry clock key v ttl s k :
  nonempty s ->
  find (load_entry clock key v ttl s) k =
    if decide (k = key)
    then Some (mkEntry (load_value clock v) ((fun d => clock + d) <$> ttl) (lru_clock s))
    else find s k.
Proof.
  intros Hn. unfold load_entry. cbn zeta.
  set (s1 := put_data _ _ _).
  assert (forall s' : Store, find (match load_value clock v with
    | VVector vec => insert_vector_indexes key (v_dims vec) s' | _ => s' end) k = find s' k) as E.
  { intros s'. destruct (load_value clock v); by autorewrite with lux. }
  rewrite E. autorewrite with lux. destruct (bool_decide _); autorewrite with lux;
    unfold s1; by find_simp.
Qed.

Lemma promote_ok s key d m c clock now :
  nonempty s -> disk_at s key = Some d -> Disk.refines hll_count d m ->
  m !! key_str key = Some c -> Disk.cold_expired c now = false ->
  exists s', try_promote hll_count clock key now s = (Ok true, s') /\
    forall k, find s' k =
      if decide (k = key_str key)
      then Some (mkEntry (load_value clock (Disk.c_value c))
             ((fun t => clock + t * 1000000) <$> (Disk.cold_get c now).2) (lru_clock s))
      else find s k.
Proof.
  intros Hn Hd Hr Hm He. unfold try_promote. rewrite Hd, (Disk.contains_refines _ _ _ _ Hr), Hm.
  rewrite bool_decide_eq_true_2 by eauto. cbn [negb].
  pose proof (Disk.get_refines hll_count d m (key_str key) now Hr) as Hg.
  rewrite Hm, He in Hg. rewrite Hg. unfold Disk.cold_get in *. cbn [snd].
  eexists. split; [reflexivity|]. intros k.
  rewrite find_load_entry by (by autorewrite with lux).
  destruct (decide (k = key_str key)); [|by autorewrite with lux].
  unfold with_disk. do 2 f_equal.
  - by destruct (_ && _).
  - by destruct (disk_shards s).
Qed.

End Tiering.

(** Eviction and promotion. Evicting a key whose name is UTF-8 to the cold tier takes it out
    of memory (whether or not the inline compaction runs), and a later access promotes it back: the
    value is the one the dump format keeps of it, an entry without expiry comes back without one,
    an entry with an expiry (more than a millisecond away at both times) comes back with an expiry
    less than a millisecond off, and no other key changes. *)
Theorem evict_promote_roundtrip (hll_count : bytes -> Z) (s : Store) (key : bytes) (e : Entry)
    (d : Disk.DiskShard) (m : gmap bytes Disk.cold) (compacting : bool) (clock now : Z) :
  nonempty s -> is_utf8 key = true -> find s key = Some e ->
  disk_at s key = Some d -> Disk.refines hll_count d m -> evictable key e clock -> clock <= now ->
  (forall exp, expires_at e = Some exp ->
     1000000 <= exp - clock /\ millis_until now clock < millis_until exp clock) ->
  exists s1 s2 e',
    evict_key hll_count None compacting clock key s = (true, s1) /\ find s1 key = None /\
    try_promote hll_count now key now s1 = (Ok true, s2) /\ find s2 key = Some e' /\
    value e' = load_value now (stored_value hll_count (store_value_to_dump_value (value e))) /\
    match expires_at e, expires_at e' with
    | None, None => True
    | Some exp, Some exp' => Z.abs (exp' - exp) < 1000000
    | _, _ => False
    end /\
    forall k, k ≠ key -> find s2 k = find s k.
Proof.
  intros Hn Hu Hf Hd Hr Hev Hnow Hexp. pose proof (key_str_utf8 key Hu) as Eks.
  pose proof (key_string_utf8 key Hu) as Ekn.
  destruct (evict_ok hll_count s key e d m compacting clock Hn Hf Hd Hr) as
    (d' & s1 & E1 & Hd1 & Hr1 & Hn1 & _ & Hf1); [by rewrite Ekn|]. rewrite Ekn in Hr1.
  assert (Disk.cold_expired (cold_of hll_count e clock) now = false /\
    match expires_at e, (fun t => now + t * 1000000) <$> (Disk.cold_get (cold_of hll_count e clock) now).2 with
    | None, None => True
    | Some exp, Some exp' => Z.abs (exp' - exp) < 1000000
    | _, _ => False end) as [He Hexp'].
  { unfold Disk.cold_expired, Disk.cold_get, cold_of, evicted_ttl, stored_ttl.
    cbn [Disk.c_ttl Disk.c_created snd]. destruct (expires_at e) as [exp|]; [|done].
    destruct (Hexp exp eq_refl) as [Hms Hlt]. unfold millis_until in *.
    destruct (Z.gtb_spec exp clock); [|lia]. rewrite !Z.max_r in * by lia.
    assert (1 <= (exp - clock) / 1000000) by (apply Z.div_le_lower_bound; lia).
    destruct (Z.gtb_spec ((exp - clock) / 1000000) 0); [|lia].
    destruct (Z.leb_spec ((exp - clock) / 1000000) 0); [lia|].
    destruct (Z.gtb_spec ((exp - clock) / 1000000) 0); [|lia].
    destruct (Z.geb_spec ((now - clock) / 1000000) ((exp - clock) / 1000000)); [lia|].
    split; [done|]. cbn [andb].
    destruct (Z.gtb_spec ((exp - clock) / 1000000 - (now - clock) / 1000000) 0); [|lia]. cbn.
    pose proof (Z.div_mod (exp - clock) 1000000 ltac:(lia)).
    pose proof (Z.mod_pos_bound (exp - clock) 1000000 ltac:(lia)).
    pose proof (Z.div_mod (now - clock) 1000000 ltac:(lia)).
    pose proof (Z.mod_pos_bound (now - clock) 1000000 ltac:(lia)). lia. }
  destruct (promote_ok hll_count s1 key d' _ (cold_of hll_count e clock) now now Hn1 Hd1 Hr1)
    as (s2 & E2 & Hf2); [by rewrite Eks, lookup_insert_eq|done|].
  rewrite Eks in Hf2.
  eexists s1, s2, _. split; [done|]. split; [by rewrite Hf1, decide_True|]. split; [done|].
  split; [by rewrite Hf2, decide_True|]. split; [done|]. split; [done|].
  intros k Hk. by rewrite Hf2, Hf1, !decide_False.
Qed.

(** A key that is not UTF-8 does not survive eviction: it is stored under its lossy name and
    looked up under the empty name, so promotion does not find it and the key is gone. *)
Theorem binary_key_lost (hll_count : bytes -> Z) (s : Store) (key : bytes) (e : Entry)
    (d : Disk.DiskShard) (m : gmap bytes Disk.cold) (clock clock' now : Z) :
  nonempty s -> is_utf8 key = false -> find s key = Some e ->
  disk_at s key = Some d -> Disk.refines hll_count d m -> m !! [] = None ->
  key_string key ≠ [] -> evictable (key_string key) e clock ->
  exists s1, evict_key hll_count None false clock key s = (true, s1) /\
    try_promote hll_count clock' key now s1 = (Ok false, s1) /\ find s1 key = None /\
    disk_contains key now s1 = false.
Proof.
  intros Hn Hu Hf Hd Hr Hm Hne Hev.
  destruct (evict_ok hll_count s key e d m false clock Hn Hf Hd Hr Hev)
    as (d' & s1 & E1 & Hd1 & Hr1 & Hn1 & _ & Hf1).
  assert (key_str key = []) as Eks by (unfold key_str; by rewrite Hu).
  exists s1. split; [done|]. unfold try_promote, disk_contains. rewrite Hd1, Eks.
  rewrite (Disk.contains_refines _ _ _ _ Hr1), (Disk.contains_valid_refines _ _ _ _ _ Hr1).
  rewrite lookup_insert_ne, Hm by done. rewrite bool_decide_eq_false_2 by (by intros [? ?]).
  split; [done|]. split; [by rewrite Hf1, decide_True|done].
Qed.

(** An expired key can come back: if the key that eviction picks has already expired, it is
    stored without an expiry and promotion returns it to life, permanently. *)
Theorem expired_key_revives (hll_count : bytes -> Z) (s : Store) (key : bytes) (e : Entry)
    (d : Disk.DiskShard) (m : gmap bytes Disk.cold) (exp clock clock' now : Z) :
  nonempty s -> is_utf8 key = true -> find s key = Some e -> expires_at e = Some exp ->
  exp < clock -> disk_at s key = Some d -> Disk.refines hll_count d m -> evictable key e clock ->
  live s clock key = None /\
  exists s1 s2 e', evict_key hll_count None false clock key s = (true, s1) /\
    try_promote hll_count clock' key now s1 = (Ok true, s2) /\
    live s2 now key = Some e' /\ expires_at e' = None.
Proof.
  intros Hn Hu Hf He Hlt Hd Hr Hev. pose proof (key_str_utf8 key Hu) as Eks.
  pose proof (key_string_utf8 key Hu) as Ekn. split.
  { unfold live, is_expired_at. rewrite Hf, He. by destruct (Z.gtb_spec clock exp); [|lia]. }
  destruct (evict_ok hll_count s key e d m false clock Hn Hf Hd Hr)
    as (d' & s1 & E1 & Hd1 & Hr1 & Hn1 & _ & Hf1); [by rewrite Ekn|]. rewrite Ekn in Hr1.
  assert (stored_ttl (evicted_ttl e clock) = -1) as Ht.
  { unfold evicted_ttl. rewrite He. by destruct (Z.gtb_spec exp clock); [lia|]. }
  destruct (promote_ok hll_count s1 key d' _ (cold_of hll_count e clock) clock' now Hn1 Hd1 Hr1)
    as (s2 & E2 & Hf2); [by rewrite Eks, lookup_insert_eq| |].
  { unfold Disk.cold_expired, cold_of. cbn [Disk.c_ttl]. by rewrite Ht. }
  rewrite Eks in Hf2. eexists s1, s2, _. split; [done|]. split; [done|].
  assert ((Disk.cold_get (cold_of hll_count e clock) now).2 = None) as Eg.
  { unfold Disk.cold_get, cold_of. cbn [Disk.c_ttl snd]. by rewrite Ht. }
  unfold live. rewrite Hf2, decide_True, Eg by done. cbn. done.
Qed.

(** ** Sample states *)

(** One shard over one disk shard, holding one string under [key]. *)
Definition sample (key : bytes) (exp : option Z) : Store :=
  put_data key (mkEntry (VStr [1]) exp 0)
    (mkStore [empty_shard] 0 0 0 (Some [Disk.create]) ∅ ∅).

Lemma sample_evictable key e clock :
  entry_ok (entry_to_dump key (value e) (evicted_ttl e clock)) ->
  is_vector (value e) = false ->
  forallb (fun b => (0 <=? b) && (b <? 256)) (write_single_entry
    (entry_to_dump key (value e) (evicted_ttl e clock))) = true ->
  8 + zlen (write_single_entry (entry_to_dump key (value e) (evicted_ttl e clock))) <= u32_max ->
  evictable key e clock.
Proof.
  intros Hok Hv Hb Hsz. split; [done|]. split; [done|]. split; [|done].
  apply Forall_forall. intros b Hin. rewrite forallb_forall in Hb.
  specialize (Hb b ltac:(by apply list_elem_of_In)). unfold byte_ok. zbool. lia.
Qed.

Lemma evict_promote_roundtrip_witness :
  let s := sample (bs "k") (Some 50000000) in
  exists s1 s2 e',
    evict_key (fun _ => 0) None true 0 (bs "k") s = (true, s1) /\ find s1 (bs "k") = None /\
    try_promote (fun _ => 0) 1500000 (bs "k") 1500000 s1 = (Ok true, s2) /\
    find s2 (bs "k") = Some e' /\
    value e' = load_value 1500000 (stored_value (fun _ => 0) (store_value_to_dump_value (VStr [1]))) /\
    match Some 50000000, expires_at e' with
    | None, None => True
    | Some exp, Some exp' => Z.abs (exp' - exp) < 1000000
    | _, _ => False
    end /\
    forall k, k ≠ bs "k" -> find s2 k = find s k.
Proof.
  apply (evict_promote_roundtrip (fun _ => 0) (sample (bs "k") (Some 50000000)) (bs "k")
    (mkEntry (VStr [1]) (Some 50000000) 0) Disk.create ∅ true 0 1500000).
  - vm_compute. lia.
  - reflexivity.
  - reflexivity.
  - reflexivity.
  - apply Disk.create_refines.
  - apply sample_evictable; [|reflexivity|reflexivity|vm_compute; discriminate].
    split; [split; reflexivity|]. split; [vm_compute; split; discriminate|reflexivity].
  - lia.
  - intros exp [= <-]. vm_compute. split; [discriminate|reflexivity].
Defined.

Lemma binary_key_lost_witness :
  exists s1, evict_key (fun _ => 0) None false 0 [255] (sample [255] None) = (true, s1) /\
    try_promote (fun _ => 0) 0 [255] 0 s1 = (Ok false, s1) /\ find s1 [255] = None /\
    disk_contains [255] 0 s1 = false.
Proof.
  apply (binary_key_lost (fun _ => 0) (sample [255] None) [255] (mkEntry (VStr [1]) None 0)
    Disk.create ∅ 0 0 0); try reflexivity.
  - vm_compute. lia.
  - apply Disk.create_refines.
  - vm_compute. discriminate.
  - apply sample_evictable; [|reflexivity|reflexivity|vm_compute; discriminate].
    split; [split; reflexivity|]. split; [vm_compute; split; discriminate|reflexivity].
Defined.

Lemma expired_key_revives_witness :
  live (sample (bs "k") (Some 5)) 9 (bs "k") = None /\
  exists s1 s2 e', evict_key (fun _ => 0) None false 9 (bs "k") (sample (bs "k") (Some 5)) = (true, s1) /\
    try_promote (fun _ => 0) 10 (bs "k") 10 s1 = (Ok true, s2) /\
    live s2 10 (bs "k") = Some e' /\ expires_at e' = None.
Proof.
  apply (expired_key_revives (fun _ => 0) (sample (bs "k") (Some 5)) (bs "k")
    (mkEntry (VStr [1]) (Some 5) 0) Disk.create ∅ 5 9 10 10); try reflexivity.
  - vm_compute. lia.
  - apply Disk.create_refines.
  - apply sample_evictable; [|reflexivity|reflexivity|vm_compute; discriminate].
    split; [split; reflexivity|]. split; [vm_compute; split; discriminate|reflexivity].
Defined.

End Store.
