(* ===== verification/Strings.v ===== *)
(** * String and key commands ([src/src/store/mod.rs], lines 3662-4957 and 5853-6032)

    The operations of the store behind GET, SET, SETNX, GETSET, APPEND, INCR, DEL, EXISTS, TTL,
    EXPIRE, PERSIST, RENAME, KEYS, SCAN, DBSIZE, FLUSHDB, GETDEL, GETEX, GETRANGE, SETRANGE and
    MSETNX. Each is a function of the store to its answer and the new store. Operations that can
    panic return an [outcome].

    The commands then become the steps of one machine ([exec]) and of a specification that is a
    plain map from live keys to values ([spec_exec]); the theorems show that the sharded store
    with lazy expiry, in-place string buffers and metrics implements that map. *)

From S2P Require Import Prelude.
From S2P Require Import Glob.
From S2P Require Import Codec.
From S2P Require Import Disk.
From S2P Require Import Values.
From S2P Require Import Store.
Local Open Scope Z_scope.

Module Strings.
Import Values.Values Store.Store.

Definition WRONGTYPE : string := "WRONGTYPE Operation against a key holding the wrong kind of value".
Definition RENAME_ENCRYPTED_ERR : string := "ERR cannot relocate an encrypted key: its ciphertext is bound to the key name and would be unrecoverable at the destination; decrypt and re-set under the new key instead".
Definition NOT_INTEGER : string := "ERR value is not an integer or out of range".

(** [now + d] on the monotonic clock: an [Instant] counts seconds in an [i64], and the addition
    panics when they overflow. *)
Definition instant_add (now d : Z) : outcome Z :=
  if (now + d) / 1000000000 <=? i64_max then Returned (now + d) else Panicked.

Definition deadline (ttl : option Z) (now : Z) : outcome (option Z) :=
  match ttl with
  | Some d => exp ← instant_add now d; Returned (Some exp)
  | None => Returned None
  end.

(** ** Reading *)

(** [entry.value.string_to_bytes()] of the live entry of a shard. *)
Definition get_from_shard (key : bytes) (now : Z) (s : Store) : option bytes :=
  match find s key with
  | Some e => if is_expired_at now e then None else string_bytes (value e)
  | None => None
  end.

(** [get_checked]; [clock] is the time at which a promotion reads the clock. *)
Definition get_checked (hll_count : bytes -> Z) (clock : Z) (key : bytes) (now : Z) (s : Store)
    : result (option bytes) * Store :=
  match get_from_shard key now s with
  | Some v => (Ok (Some v), s)
  | None =>
      match try_promote hll_count clock key now s with
      | (Err e, s) => (Err e, s)
      | (Ok true, s) => (Ok (get_from_shard key now s), s)
      | (Ok false, s) => (Ok None, s)
      end
  end.

Definition get (hll_count : bytes -> Z) (clock : Z) (key : bytes) (now : Z) (s : Store)
    : option bytes * Store :=
  match get_checked hll_count clock key now s with
  | (Ok v, s) => (v, s)
  | (Err _, s) => (None, s)
  end.

Definition entry_type_from_shard (key : bytes) (now : Z) (s : Store) : option string :=
  match find s key with
  | Some e => if is_expired_at now e then None else Some (type_name (value e))
  | None => None
  end.

Definition get_entry_type (hll_count : bytes -> Z) (clock : Z) (key : bytes) (now : Z) (s : Store)
    : option string * Store :=
  match entry_type_from_shard key now s with
  | Some t => (Some t, s)
  | None =>
      match entry_type_from_shard key now s with
      | Some t => (Some t, s)
      | None =>
          match try_promote hll_count clock key now s with
          | (Ok true, s) => (entry_type_from_shard key now s, s)
          | (_, s) => (None, s)
          end
      end
  end.

Definition strlen (key : bytes) (now : Z) (s : Store) : Z :=
  match find s key with
  | Some e =>
      if is_expired_at now e then 0
      else match string_bytes (value e) with Some b => zlen b | None => 0 end
  | None => 0
  end.

(** ** Writing *)

Definition set_on_shard (key val : bytes) (ttl : option Z) (now : Z) (s : Store) : outcome Store :=
  exp ← deadline ttl now;
  Returned (insert_accounted key (mkEntry (VStr val) exp (lru_clock s)) s).

Definition set (key val : bytes) (ttl : option Z) (now : Z) (s : Store) : outcome Store :=
  s ← set_on_shard key val ttl now (bump key s);
  Returned (remove_from_disk key s).

Definition set_nx_on_shard (key val : bytes) (now : Z) (s : Store) : bool * Store :=
  match find s key with
  | Some e =>
      if negb (is_expired_at now e) then (false, s)
      else (true, insert_accounted key (mkEntry (VStr val) None (lru_clock s)) s)
  | None => (true, insert_accounted key (mkEntry (VStr val) None (lru_clock s)) s)
  end.

Definition set_nx (key val : bytes) (now : Z) (s : Store) : bool * Store :=
  set_nx_on_shard key val now (bump key s).

Definition get_set_on_shard (key val : bytes) (now : Z) (s : Store) : option bytes * Store :=
  (get_from_shard key now s, insert_accounted key (mkEntry (VStr val) None (lru_clock s)) s).

Definition get_set (key val : bytes) (now : Z) (s : Store) : option bytes * Store :=
  get_set_on_shard key val now (bump key s).

(** The entry of [key] replaced by a changed one, in place. *)
Definition update_entry (key : bytes) (e : Entry) (s : Store) : Store := put_data key e s.

Definition append_on_shard (key val : bytes) (now : Z) (s : Store) : Z * Store :=
  let fresh := (zlen val, insert_accounted key (mkEntry (VStr val) None (lru_clock s)) s) in
  match find s key with
  | Some e =>
      if negb (is_expired_at now e) then
        match value e with
        | VStr b | VStrBuf b =>
            (zlen (b ++ val),
             update_entry key (mkEntry (VStrBuf (b ++ val)) (expires_at e) (lru_clock s))
               (mem_add (zlen val) s))
        | _ => fresh
        end
      else fresh
  | None => fresh
  end.

Definition append (key val : bytes) (now : Z) (s : Store) : Z * Store :=
  append_on_shard key val now (bump key s).

Definition incr (hll_count : bytes -> Z) (clock : Z) (key : bytes) (delta now : Z) (s : Store)
    : result Z * Store :=
  match try_promote hll_count clock key now s with
  | (Err e, s) => (Err e, s)
  | (Ok _, s) =>
      let s := bump key s in
      let current :=
        match find s key with
        | Some e =>
            if negb (is_expired_at now e) then
              match string_bytes (value e) with
              | Some b =>
                  if negb (is_utf8 b) then Err NOT_INTEGER
                  else match parse_i64 b with
                       | Some n => Ok (n, expires_at e)
                       | None => Err NOT_INTEGER
                       end
              | None => Err WRONGTYPE
              end
            else Ok (0, None)
        | None => Ok (0, None)
        end in
      match current with
      | Err e => (Err e, s)
      | Ok (current, exp) =>
          match i64_checked (current + delta) with
          | None => (Err "ERR increment or decrement would overflow", s)
          | Some new_val =>
              (Ok new_val,
               insert_accounted key (mkEntry (VStr (fmt_i new_val)) exp (lru_clock s)) s)
          end
      end
  end.

(** ** Conditional SET; the keyring is a parameter *)

Record SetOptions := mkOptions {
  o_ttl : option Z; o_keep_ttl : bool; o_nx : bool; o_xx : bool; o_ifeq : option bytes;
  o_get : bool; o_encrypted : bool
}.

Record PreparedConditionalSet := mkPrepared {
  should_set : bool;
  old : option bytes;
  stored_value : option bytes;
  p_expires_at : option Z
}.

Section Encryption.

(** [EncryptionKeyring::is_encrypted_value], and [encrypt] and [decrypt] for the string
    namespace, by key name. *)
Context (is_encrypted_value : bytes -> bool).
Context (encrypt decrypt : bytes -> bytes -> result bytes).

Definition decrypt_kv_string_value (key val : bytes) : result bytes :=
  if negb (is_encrypted_value val) then Ok val else decrypt (key_string key) val.

Definition encrypt_kv_string_value (key val : bytes) : result bytes := encrypt (key_string key) val.

Definition kv_string_is_encrypted (key : bytes) (now : Z) (s : Store) : bool :=
  match get_from_shard key now s with Some v => is_encrypted_value v | None => false end.

Definition get_kv_string (key : bytes) (now : Z) (s : Store) : result (option bytes) :=
  match get_from_shard key now s with
  | Some v => Some <$> decrypt_kv_string_value key v
  | None => Ok None
  end.

(** The current plaintext of a live entry, as GET and IFEQ read it. *)
Definition current_plain (key : bytes) (e : Entry) : result bytes :=
  match string_bytes (value e) with
  | Some raw => decrypt_kv_string_value key raw
  | None => Err WRONGTYPE
  end.

Definition prepare_conditional_set (key val : bytes) (o : SetOptions) (now : Z) (s : Store)
    : outcome (result PreparedConditionalSet) :=
  let entry := live s now key in
  let exists_ := bool_decide (is_Some entry) in
  let old_expires_at := e ← entry; expires_at e in
  let existing_encrypted :=
    match entry ≫= (fun e => string_bytes (value e)) with
    | Some b => is_encrypted_value b
    | None => false
    end in
  let old : result (option bytes) :=
    match entry with
    | Some e => if o_get o then Some <$> current_plain key e else Ok None
    | None => Ok None
    end in
  let ifeq_matches : result bool :=
    match o_ifeq o, entry with
    | None, _ => Ok true
    | Some _, None => Ok false
    | Some expected, Some e => (fun c => bytes_eqb c expected) <$> current_plain key e
    end in
  match old, ifeq_matches with
  | Err e, _ => Returned (Err e)
  | Ok _, Err e => Returned (Err e)
  | Ok old, Ok ifeq_matches =>
      let should_set :=
        match o_ifeq o with
        | Some _ => ifeq_matches
        | None => (negb (o_nx o) || negb exists_) && (negb (o_xx o) || exists_)
        end in
      if should_set then
        exp ← (if o_keep_ttl o then Returned old_expires_at else deadline (o_ttl o) now);
        let stored := if o_encrypted o || existing_encrypted then encrypt_kv_string_value key val
                      else Ok val in
        Returned (match stored with
                  | Ok v => Ok (mkPrepared true old (Some v) exp)
                  | Err e => Err e
                  end)
      else Returned (Ok (mkPrepared false old None None))
  end.

(** [apply_conditional_set]; the [expect] on the stored value. *)
Definition apply_conditional_set (key : bytes) (p : PreparedConditionalSet) (s : Store)
    : outcome (bool * option bytes * Store) :=
  if should_set p then
    let s := bump key s in
    match stored_value p with
    | None => Panicked
    | Some v =>
        let s := insert_accounted key (mkEntry (VStr v) (p_expires_at p) (lru_clock s)) s in
        Returned (true, old p, remove_from_disk key s)
    end
  else Returned (false, old p, s).

Definition value_has_key_bound_encryption (v : StoreValue) : bool :=
  match v with
  | VStr v | VStrBuf v => is_encrypted_value v
  | VHash h => existsb (fun p => is_encrypted_value p.2) (map_to_list (fields h))
  | VStream st => existsb (fun e => existsb (fun p => is_encrypted_value p.2) e.2) (s_entries st)
  | _ => false
  end.

(** [rename]. The estimates are made with [key_str], and only the counters of a live source are
    updated; the destination's old entry is dropped without being subtracted. *)
Definition rename (key new_key : bytes) (now : Z) (s : Store) : result unit * Store :=
  let refused := match find s key with
                 | Some e => negb (is_expired_at now e) && value_has_key_bound_encryption (value e)
                 | None => false
                 end in
  if refused then (Err RENAME_ENCRYPTED_ERR, s)
  else
    let s := bump key s in
    match find s key with
    | None => (Err "ERR no such key", s)
    | Some e =>
        let s := drop_data key s in
        if is_expired_at now e then (Err "ERR no such key", s)
        else
          let mem := estimate_entry_memory (key_str key) (value e) in
          let s := mem_sub mem (shard_mem_sub key mem (key_removed s)) in
          let s := bump new_key s in
          let mem := estimate_entry_memory (key_str new_key) (value e) in
          let fresh := bool_decide (find s new_key = None) in
          let s := put_data new_key e s in
          let s := if fresh then key_added s else s in
          (Ok tt, mem_add mem (shard_mem_add new_key mem s))
    end.

End Encryption.

(** ** Deleting *)

Definition vector_dims (v : StoreValue) : option Z :=
  match v with VVector d => Some (v_dims d) | _ => None end.

(** One key of DEL: the count, the vectors to unindex and the store. *)
Definition del_one (clock : Z) (acc : Z * list (bytes * Z) * Store) (key : bytes)
    : Z * list (bytes * Z) * Store :=
  let '(count, vectors, s) := acc in
  let s := bump key s in
  match find s key with
  | Some e =>
      let s := remove_accounted key e s in
      (if is_expired_at clock e then count else count + 1,
       match vector_dims (value e) with
       | Some dims => vectors ++ [(key_string key, dims)]
       | None => vectors
       end, s)
  | None =>
      if disk_contains key clock s then (count + 1, vectors, remove_from_disk key s)
      else (count, vectors, s)
  end.

Definition del (clock : Z) (keys : list bytes) (s : Store) : Z * Store :=
  let '(count, vectors, s) := foldl (del_one clock) (0, [], s) keys in
  (count, foldl (fun s kd => remove_vector_indexes kd.1 kd.2 s) s vectors).

Definition delifeq (key expected : bytes) (now : Z) (s : Store) : result bool * Store :=
  match find s key with
  | None => (Ok false, s)
  | Some e =>
      let remove s := remove_from_disk key (remove_accounted key e (bump key s)) in
      if is_expired_at now e then (Ok false, remove s)
      else match string_bytes (value e) with
           | None => (Err WRONGTYPE, s)
           | Some current => if bytes_eqb current expected then (Ok true, remove s) else (Ok false, s)
           end
  end.

Definition getdel (key : bytes) (now : Z) (s : Store) : option bytes * Store :=
  let s := bump key s in
  match find s key with
  | Some e =>
      if is_expired_at now e then (None, s)
      else match string_bytes (value e) with
           | Some b => (Some b, remove_accounted key e s)
           | None => (None, s)
           end
  | None => (None, s)
  end.

(** ** EXISTS *)

Definition exists_in_mem (now : Z) (s : Store) (key : bytes) : bool :=
  match find s key with Some e => negb (is_expired_at now e) | None => false end.

(** Up to eight keys: one lookup each. [clock] is the clock that the disk lookups read. *)
Definition exists_few (now clock : Z) (keys : list bytes) (s : Store) : Z :=
  foldl (fun count key =>
    if exists_in_mem now s key || (is_tiered s && disk_contains key clock s) then count + 1 else count)
    0 keys.

(** More keys: grouped by shard, each shard visited once, then the misses looked up on disk. *)
Definition group_by_shard (s : Store) (keys : list bytes) : gmap nat (list bytes) :=
  foldl (fun m key =>
    <[shard_index s key := default [] (m !! shard_index s key) ++ [key]]> m) ∅ keys.

Definition visit_group (now : Z) (s : Store) (acc : Z * list bytes) (g : nat * list bytes)
    : Z * list bytes :=
  foldl (fun acc key =>
    let '(count, missing) := acc in
    let in_mem := match data (shard_at s g.1) !! key with
                  | Some e => negb (is_expired_at now e)
                  | None => false
                  end in
    if in_mem then (count + 1, missing)
    else if is_tiered s then (count, missing ++ [key])
    else (count, missing)) acc g.2.

Definition exists_many (now clock : Z) (keys : list bytes) (s : Store) : Z :=
  let '(count, missing) :=
    foldl (visit_group now s) (0, []) (map_to_list (group_by_shard s keys)) in
  if is_tiered s
  then foldl (fun count key => if disk_contains key clock s then count + 1 else count) count missing
  else count.

Definition exists_ (now clock : Z) (keys : list bytes) (s : Store) : Z :=
  if bool_decide (keys = []) then 0
  else if zlen keys <=? 8 then exists_few now clock keys s
  else exists_many now clock keys s.

(** ** Enumerating *)

(** [e.expires_at.is_none_or(|exp| now < exp)] *)
Definition not_yet_expired (now : Z) (e : Entry) : bool :=
  match expires_at e with None => true | Some exp => now <? exp end.

(** The glob matcher on text: patterns and names are compared scalar value by scalar value. *)
Definition glob_matches (pattern name : bytes) : bool :=
  match utf8_chars pattern, utf8_chars name with
  | Some p, Some n => default false (Glob.matches (Glob.new p) n)
  | _, _ => false
  end.

Definition shard_key_names (pattern : bytes) (now : Z) (sh : Shard) : list bytes :=
  omap (fun p => let name := key_string p.1 in
    if not_yet_expired now p.2 && glob_matches pattern name then Some name else None)
    (map_to_list (data sh)).

Definition add_disk_names (pattern : bytes) (result : list bytes) (d : Disk.DiskShard) : list bytes :=
  foldl (fun result k =>
    if glob_matches pattern k && negb (bool_decide (k ∈ result)) then result ++ [k] else result)
    result (fst <$> map_to_list (Disk.index d)).

Definition keys (pattern : bytes) (now : Z) (s : Store) : list bytes :=
  let hot := concat (shard_key_names (key_str pattern) now <$> shards s) in
  foldl (add_disk_names (key_str pattern)) hot (default [] (disk_shards s)).

(** [scan]: [start + count] wraps in a release build, and the slice panics when it is reversed. *)
Definition scan (cursor : Z) (pattern : bytes) (count now : Z) (s : Store)
    : outcome (Z * list bytes) :=
  let all_keys := keys pattern now s in
  let start := Z.min cursor (zlen all_keys) in
  let end_ := Z.min (usize_add start count) (zlen all_keys) in
  let next_cursor := if end_ >=? zlen all_keys then 0 else end_ in
  if start <=? end_
  then Returned (next_cursor, slice all_keys (Z.to_nat start) (Z.to_nat end_))
  else Panicked.

Definition dbsize (now : Z) (s : Store) : Z :=
  zsum ((fun sh => zlen (filter (fun p => not_yet_expired now p.2 = true) (map_to_list (data sh))))
    <$> shards s) + disk_key_count s.

(** [flushdb]: the global counter goes down by the counters of the shards. *)
Definition flush_shard (s : Store) (idx : nat) : Store :=
  let freed := shard_memory (shard_at s idx) in
  mem_sub freed (with_shard idx (fun sh => mkShard ∅ (as_u64 (version sh + 1)) 0) s).

Definition flush_disk (d : Disk.DiskShard) : Disk.DiskShard :=
  foldl (fun d k => Disk.remove k d) d (fst <$> map_to_list (Disk.index d)).

Definition flushdb (s : Store) : Store :=
  let s := foldl flush_shard s (seq 0 (length (shards s))) in
  let s := set_vectors ∅ ∅ (set_keys 0 s) in
  set_disk (match disk_shards s with Some ds => Some (map flush_disk ds) | None => None end) s.

(** ** Expiry *)

Definition ttl (key : bytes) (now : Z) (s : Store) : Z :=
  match find s key with
  | None => -2
  | Some e => match expires_at e with
              | None => -1
              | Some exp => if now >? exp then -2 else as_i64 ((exp - now) / 1000000000)
              end
  end.

Definition pttl (key : bytes) (now : Z) (s : Store) : Z :=
  match find s key with
  | None => -2
  | Some e => match expires_at e with
              | None => -1
              | Some exp => if now >? exp then -2 else as_i64 ((exp - now) / 1000000)
              end
  end.

(** [unix_ms]: the wall clock in milliseconds. *)
Definition pexpiretime (unix_ms : Z) (key : bytes) (now : Z) (s : Store) : Z :=
  match find s key with
  | None => -2
  | Some e =>
      if is_expired_at now e then -2
      else match expires_at e with
           | None => -1
           | Some exp => as_i64 (unix_ms + (exp - now) / 1000000)
           end
  end.

Definition pexpire (key : bytes) (millis now : Z) (s : Store) : outcome (bool * Store) :=
  let s := bump key s in
  match find s key with
  | Some e =>
      if negb (is_expired_at now e) then
        exp ← instant_add now (millis * 1000000);
        Returned (true, update_entry key (mkEntry (value e) (Some exp) (e_lru_clock e)) s)
      else Returned (false, s)
  | None => Returned (false, s)
  end.

Definition persist (key : bytes) (now : Z) (s : Store) : bool * Store :=
  match find s key with
  | Some e =>
      if negb (is_expired_at now e) && bool_decide (is_Some (expires_at e))
      then (true, bump key (update_entry key (mkEntry (value e) None (e_lru_clock e)) s))
      else (false, s)
  | None => (false, s)
  end.

Definition getex (key : bytes) (ttl : option Z) (persist : bool) (now : Z) (s : Store)
    : outcome (option bytes * Store) :=
  let s := bump key s in
  match find s key with
  | Some e =>
      if is_expired_at now e then Returned (None, s)
      else
        exp ← (if persist then Returned None
               else match ttl with
                    | Some d => exp ← instant_add now d; Returned (Some exp)
                    | None => Returned (expires_at e)
                    end);
        Returned (string_bytes (value e),
                  update_entry key (mkEntry (value e) exp (e_lru_clock e)) s)
  | None => Returned (None, s)
  end.

(** One shard of the sweep: the sampled keys that have expired are removed. The sample (every
    fifth key from a seed, at most twenty) is an argument; its keys are those of the shard. *)
Definition sweep_key (now : Z) (s : Store) (key : bytes) : Store :=
  match find s key with
  | Some e =>
      if is_expired_at now e then
        let s := bump key (remove_accounted key e s) in
        match vector_dims (value e) with
        | Some dims => remove_vector_indexes (key_string key) dims s
        | None => s
        end
      else s
  | None => s
  end.

(** The keys of shard [i] that a sweep with [seed] looks at. *)
Definition sweep_sample (seed : Z) (i : nat) (sh : Shard) : list bytes :=
  take 20 (omap (fun p => if usize_add (usize_add (Z.of_nat p.1) seed) (Z.of_nat i) mod 5 =? 0
                          then Some p.2 else None)
            (imap pair (fst <$> map_to_list (data sh)))).

Definition expire_sweep (seed now : Z) (s : Store) : Store :=
  foldl (fun s i => foldl (sweep_key now) s (sweep_sample seed i (shard_at s i))) s
    (seq 0 (length (shards s))).

(** ** Ranges *)

Definition as_usize (z : Z) : Z := as_u64 z.

(** [getrange]: [i64] and [usize] arithmetic wraps in a release build; a slice out of range
    panics. *)
Definition getrange (key : bytes) (start end_ now : Z) (s : Store) : outcome (result bytes) :=
  match find s key with
  | Some e =>
      if is_expired_at now e then Returned (Ok [])
      else match string_bytes (value e) with
           | None => Returned (Err WRONGTYPE)
           | Some b =>
               let len := zlen b in
               let s_i := if start <? 0 then as_usize (Z.max (as_i64 (len + start)) 0)
                          else as_usize (Z.min start len) in
               let e_i := if end_ <? 0 then usize_add (as_usize (Z.max (as_i64 (len + end_)) (-1))) 1
                          else as_usize (Z.min (as_i64 (end_ + 1)) len) in
               if s_i >=? e_i then Returned (Ok [])
               else if e_i <=? len then Returned (Ok (slice b (Z.to_nat s_i) (Z.to_nat e_i)))
               else Panicked
           end
  | None => Returned (Ok [])
  end.

(** [buf[offset..offset + value.len()].copy_from_slice(value)] *)
Definition overwrite (buf : bytes) (offset : nat) (val : bytes) : bytes :=
  take offset buf ++ val ++ drop (offset + length val) buf.

(** The expired entry that SETRANGE drops first; its memory is not subtracted. *)
Definition drop_if_expired (key : bytes) (now : Z) (s : Store) : Store :=
  match find s key with
  | Some e => if is_expired_at now e then key_removed (drop_data key s) else s
  | None => s
  end.

(** [setrange]: the size of the buffer wraps in a release build, and then the copy panics. An
    allocation that fails aborts; [max_alloc] is the largest buffer the allocator gives. *)
Definition setrange (max_alloc : Z) (key : bytes) (offset : Z) (val : bytes) (now : Z) (s : Store)
    : outcome (result Z * Store) :=
  let s := drop_if_expired key now s in
  match find s key with
  | None =>
      if bool_decide (val = []) then Returned (Ok 0, s)
      else
        let s := bump key s in
        let needed := usize_add offset (zlen val) in
        if (needed >? max_alloc) || (needed <? offset) then Panicked
        else
          let buf := overwrite (replicate (Z.to_nat needed) 0) (Z.to_nat offset) val in
          let mem := estimate_entry_memory key (VStrBuf buf) in
          let s := put_data key (mkEntry (VStrBuf buf) None (lru_clock s)) s in
          Returned (Ok needed, key_added (mem_add mem (shard_mem_add key mem s)))
  | Some e =>
      match string_bytes (value e) with
      | None => Returned (Err WRONGTYPE, s)
      | Some b =>
          if bool_decide (val = []) then Returned (Ok (zlen b), s)
          else
            let s := bump key s in
            let needed := usize_add offset (zlen val) in
            if (needed >? max_alloc) || (needed <? offset) then Panicked
            else
              let buf := if zlen b <? needed then b ++ replicate (Z.to_nat needed - length b) 0 else b in
              let buf := overwrite buf (Z.to_nat offset) val in
              let mem := estimate_entry_memory key (VStrBuf buf) in
              let old_mem := estimate_entry_memory key (value e) in
              let s := put_data key (mkEntry (VStrBuf buf) (expires_at e) (lru_clock s)) s in
              Returned (Ok (zlen buf),
                if mem >=? old_mem
                then mem_add (mem - old_mem) (shard_mem_add key (mem - old_mem) s)
                else mem_sub (old_mem - mem) (shard_mem_sub key (old_mem - mem) s))
      end
  end.

(** [msetnx_would_set]: [all] stops at the first key that has a string. *)
Fixpoint msetnx_would_set (hll_count : bytes -> Z) (clock : Z) (pairs : list (bytes * bytes))
    (now : Z) (s : Store) : bool * Store :=
  match pairs with
  | [] => (true, s)
  | (key, _) :: pairs =>
      match get hll_count clock key now s with
      | (None, s) => msetnx_would_set hll_count clock pairs now s
      | (Some _, s) => (false, s)
      end
  end.

Fixpoint set_all (pairs : list (bytes * bytes)) (now : Z) (s : Store) : outcome Store :=
  match pairs with
  | [] => Returned s
  | (key, val) :: pairs => s ← set key val None now s; set_all pairs now s
  end.

Definition msetnx (hll_count : bytes -> Z) (clock : Z) (pairs : list (bytes * bytes)) (now : Z)
    (s : Store) : outcome (bool * Store) :=
  let '(ok, s) := msetnx_would_set hll_count clock pairs now s in
  if negb ok then Returned (false, s)
  else s ← set_all pairs now s; Returned (true, s).

(** ** EXISTS: the grouped lookup counts what the simple one counts *)

Definition countb {A} (p : A -> bool) (l : list A) : Z := zlen (filter (fun x => p x = true) l).

Lemma countb_cons {A} (p : A -> bool) x l : countb p (x :: l) = (if p x then 1 else 0) + countb p l.
Proof.
  unfold countb, zlen. rewrite filter_cons. destruct (p x) eqn:E.
  - rewrite decide_True by done. cbn. lia.
  - rewrite decide_False by done. lia.
Qed.

Lemma countb_nil {A} (p : A -> bool) : countb p [] = 0.
Proof. done. Qed.

Lemma countb_app {A} (p : A -> bool) l k : countb p (l ++ k) = countb p l + countb p k.
Proof. unfold countb. by rewrite filter_app, zlen_app. Qed.

Lemma countb_perm {A} (p : A -> bool) l k : l ≡ₚ k -> countb p l = countb p k.
Proof. intros H. unfold countb, zlen. by rewrite H. Qed.

Lemma fold_count {A} (p : A -> bool) l n :
  foldl (fun c x => if p x then c + 1 else c) n l = n + countb p l.
Proof.
  revert n. induction l as [|x l IH]; intros n; cbn [foldl].
  - rewrite countb_nil. lia.
  - rewrite IH, countb_cons. destruct (p x); lia.
Qed.

Definition exists_key (now clock : Z) (s : Store) (key : bytes) : bool :=
  exists_in_mem now s key || (is_tiered s && disk_contains key clock s).

Lemma exists_few_count now clock l s : exists_few now clock l s = countb (exists_key now clock s) l.
Proof. unfold exists_few. by rewrite (fold_count (exists_key now clock s)). Qed.

(** What one group adds to the count and to the misses. *)
Lemma visit_group_ok now s idx l n missing :
  Forall (fun k => shard_index s k = idx) l ->
  visit_group now s (n, missing) (idx, l) =
    (n + countb (exists_in_mem now s) l,
     missing ++ filter (fun k => negb (exists_in_mem now s k) && is_tiered s = true) l).
Proof.
  unfold visit_group. cbn [fst snd]. revert n missing.
  induction l as [|k l IH]; intros n missing Hl; cbn [foldl].
  - cbn [fmap list_fmap concat]. rewrite ?countb_nil, ?filter_nil, app_nil_r. f_equal. lia.
  - apply Forall_cons in Hl as [Hk Hl]. rewrite <-Hk at 1.
    change (match data (shard_at s (shard_index s k)) !! k with
            | Some e => negb (is_expired_at now e) | None => false end) with (exists_in_mem now s k).
    rewrite countb_cons, filter_cons. destruct (exists_in_mem now s k).
    + rewrite IH by done. rewrite decide_False by done. f_equal. lia.
    + destruct (is_tiered s) eqn:Et; rewrite IH by done.
      * rewrite decide_True, <-(assoc_L (++)) by done. f_equal.
      * rewrite decide_False by done. f_equal.
Qed.

Lemma visit_groups_ok now s gs n missing :
  Forall (fun g => Forall (fun k => shard_index s k = g.1) g.2) gs ->
  foldl (visit_group now s) (n, missing) gs =
    (n + countb (exists_in_mem now s) (concat gs.*2),
     missing ++ filter (fun k => negb (exists_in_mem now s k) && is_tiered s = true) (concat gs.*2)).
Proof.
  revert n missing. induction gs as [|[i l] gs IH]; intros n missing Hg; cbn [foldl].
  - cbn [fmap list_fmap concat]. rewrite ?countb_nil, ?filter_nil, app_nil_r. f_equal. lia.
  - apply Forall_cons in Hg as [Hi Hg]. rewrite visit_group_ok, IH by done.
    rewrite fmap_cons, concat_cons, countb_app, filter_app.
    f_equal; [cbn [snd]; lia|]. by rewrite (assoc_L (++)).
Qed.

(** The groups hold exactly the keys, each under its shard. *)
Lemma group_insert_perm (m : gmap nat (list bytes)) i k :
  concat (map_to_list (<[i := default [] (m !! i) ++ [k]]> m)).*2 ≡ₚ concat (map_to_list m).*2 ++ [k].
Proof.
  destruct (m !! i) as [l|] eqn:E; cbn [default from_option id].
  - rewrite <-insert_delete_eq.
    rewrite map_to_list_insert by apply lookup_delete_eq.
    rewrite <-(map_to_list_delete m i l E), !fmap_cons, !concat_cons. cbn [snd].
    rewrite <-!(assoc_L (++)). apply Permutation_app_head, Permutation_app_comm.
  - rewrite map_to_list_insert, fmap_cons, concat_cons by done. cbn [snd app].
    apply (Permutation_app_comm [k]).
Qed.

Lemma group_by_shard_ok s keys :
  concat (map_to_list (group_by_shard s keys)).*2 ≡ₚ keys /\
  forall i l, group_by_shard s keys !! i = Some l -> Forall (fun k => shard_index s k = i) l.
Proof.
  unfold group_by_shard. induction keys as [|k keys [IHp IHg]] using rev_ind.
  - split; [by cbn; rewrite map_to_list_empty|]. intros i l. cbn. by rewrite lookup_empty.
  - rewrite foldl_app. cbn [foldl]. split; [by rewrite group_insert_perm, IHp|].
    intros i l. destruct (decide (i = shard_index s k)) as [->|Hne].
    + rewrite lookup_insert_eq. intros [= <-]. apply Forall_app; split; [|by apply Forall_singleton].
      destruct (foldl _ ∅ keys !! shard_index s k) eqn:E; [by apply IHg|by apply Forall_nil].
    + rewrite lookup_insert_ne by done. apply IHg.
Qed.

Lemma exists_split now clock s keys :
  countb (exists_key now clock s) keys =
    countb (exists_in_mem now s) keys +
    countb (fun k => disk_contains k clock s)
      (filter (fun k => negb (exists_in_mem now s k) && is_tiered s = true) keys).
Proof.
  induction keys as [|k keys IH]; [done|]. rewrite !countb_cons, filter_cons, IH.
  unfold exists_key. destruct (exists_in_mem now s k); cbn [orb negb andb].
  - rewrite decide_False by done. lia.
  - destruct (is_tiered s); cbn [andb].
    + rewrite decide_True, countb_cons by done. lia.
    + rewrite decide_False by done. lia.
Qed.

Lemma exists_many_count now clock keys s :
  exists_many now clock keys s = countb (exists_key now clock s) keys.
Proof.
  destruct (group_by_shard_ok s keys) as [Hp Hg]. unfold exists_many.
  rewrite visit_groups_ok.
  2:{ apply Forall_forall. intros [i l] Hin. apply elem_of_map_to_list in Hin. by apply Hg. }
  rewrite app_nil_l, (fold_count (fun k => disk_contains k clock s)), exists_split.
  rewrite (countb_perm _ _ _ Hp). destruct (is_tiered s) eqn:Et.
  - rewrite Z.add_0_l. f_equal. apply countb_perm. by rewrite Hp.
  - assert (filter (fun k => negb (exists_in_mem now s k) && false = true) keys = []) as ->.
    { clear. induction keys as [|k keys IH]; [done|]. rewrite filter_cons, decide_False; [done|].
      by rewrite andb_false_r. }
    rewrite countb_nil. lia.
Qed.

Lemma exists_count now clock keys s :
  exists_ now clock keys s = countb (exists_key now clock s) keys.
Proof.
  unfold exists_. case_bool_decide as E; [by subst|].
  destruct (_ <=? 8); [apply exists_few_count|apply exists_many_count].
Qed.

(** ** The command machine and its specification *)

Inductive cmd :=
| Get (key : bytes)
| Type_ (key : bytes)
| Strlen (key : bytes)
| Exists_ (keys : list bytes)
| Ttl (key : bytes)
| Pttl (key : bytes)
| SetKey (key val : bytes) (ttl : option Z)
| SetNx (key val : bytes)
| GetSet (key val : bytes)
| Append (key val : bytes)
| Incr (key : bytes) (delta : Z)
| Del (keys : list bytes)
| DelIfEq (key expected : bytes)
| GetDel (key : bytes)
| Pexpire (key : bytes) (millis : Z)
| Persist (key : bytes)
| GetEx (key : bytes) (ttl : option Z) (persist : bool)
| MSetNx (pairs : list (bytes * bytes))
| Rename (key new_key : bytes)
| Sweep (seed : Z)
| FlushDb.

Inductive reply :=
| RUnit
| RBool (b : bool)
| RInt (n : Z)
| RBulk (b : option bytes)
| RType (t : option string)
| RErr (e : string).

Definition reply_of {A} (f : A -> reply) (r : result A) : reply :=
  match r with Ok a => f a | Err e => RErr e end.

Section Machine.

Context (hll_count : bytes -> Z) (is_encrypted_value : bytes -> bool).

(** One command at time [now]; the clocks that operations read are [now] as well. *)
Definition exec (now : Z) (c : cmd) (s : Store) : outcome (reply * Store) :=
  match c with
  | Get k => let '(r, s) := get_checked hll_count now k now s in Returned (reply_of RBulk r, s)
  | Type_ k => let '(r, s) := get_entry_type hll_count now k now s in Returned (RType r, s)
  | Strlen k => Returned (RInt (strlen k now s), s)
  | Exists_ ks => Returned (RInt (exists_ now now ks s), s)
  | Ttl k => Returned (RInt (ttl k now s), s)
  | Pttl k => Returned (RInt (pttl k now s), s)
  | SetKey k v t => s ← set k v t now s; Returned (RUnit, s)
  | SetNx k v => let '(b, s) := set_nx k v now s in Returned (RBool b, s)
  | GetSet k v => let '(b, s) := get_set k v now s in Returned (RBulk b, s)
  | Append k v => let '(n, s) := append k v now s in Returned (RInt n, s)
  | Incr k d => let '(r, s) := incr hll_count now k d now s in Returned (reply_of RInt r, s)
  | Del ks => let '(n, s) := del now ks s in Returned (RInt n, s)
  | DelIfEq k e => let '(r, s) := delifeq k e now s in Returned (reply_of RBool r, s)
  | GetDel k => let '(b, s) := getdel k now s in Returned (RBulk b, s)
  | Pexpire k ms => '(b, s) ← pexpire k ms now s; Returned (RBool b, s)
  | Persist k => let '(b, s) := persist k now s in Returned (RBool b, s)
  | GetEx k t p => '(b, s) ← getex k t p now s; Returned (RBulk b, s)
  | MSetNx ps => '(b, s) ← msetnx hll_count now ps now s; Returned (RBool b, s)
  | Rename k k' => let '(r, s) := rename is_encrypted_value k k' now s in
                   Returned (reply_of (fun _ => RUnit) r, s)
  | Sweep seed => Returned (RUnit, expire_sweep seed now s)
  | FlushDb => Returned (RUnit, flushdb s)
  end.

Fixpoint run (cs : list (Z * cmd)) (s : Store) : outcome (list reply * Store) :=
  match cs with
  | [] => Returned ([], s)
  | (now, c) :: cs =>
      '(r, s) ← exec now c s; '(rs, s) ← run cs s; Returned (r :: rs, s)
  end.

(** The specification: a map from the live keys to a string, or another value, and an expiry. *)
Abbreviation avalue := (bytes + StoreValue)%type.
Abbreviation keyspace := (gmap bytes (avalue * option Z)).

Definition abs_value (v : StoreValue) : avalue :=
  match string_bytes v with Some b => inl b | None => inr v end.

Definition alive (now : Z) (exp : option Z) : bool :=
  match exp with Some exp => now <=? exp | None => true end.

Definition purge (now : Z) (m : keyspace) : keyspace := filter (fun p => alive now p.2.2 = true) m.

Definition astring (o : option (avalue * option Z)) : option bytes :=
  match o with Some (inl b, _) => Some b | _ => None end.

Definition atype (v : avalue) : string :=
  match v with inl _ => "string" | inr v => type_name v end.

Definition abound (v : avalue) : bool :=
  match v with
  | inl b => is_encrypted_value b
  | inr v => value_has_key_bound_encryption is_encrypted_value v
  end.

Definition adel (acc : Z * keyspace) (key : bytes) : Z * keyspace :=
  match acc.2 !! key with
  | Some _ => (acc.1 + 1, delete key acc.2)
  | None => acc
  end.

Definition attl (unit : Z) (o : option (avalue * option Z)) (now : Z) : Z :=
  match o with
  | None => -2
  | Some (_, None) => -1
  | Some (_, Some exp) => as_i64 ((exp - now) / unit)
  end.

Definition aincr (key : bytes) (delta : Z) (m : keyspace) : reply * keyspace :=
  let put n exp := match i64_checked (n + delta) with
                   | Some n => (RInt n, <[key := (inl (fmt_i n), exp)]> m)
                   | None => (RErr "ERR increment or decrement would overflow", m)
                   end in
  match m !! key with
  | None => put 0 None
  | Some (inl b, exp) =>
      match (if is_utf8 b then parse_i64 b else None) with
      | Some n => put n exp
      | None => (RErr NOT_INTEGER, m)
      end
  | Some (inr _, _) => (RErr WRONGTYPE, m)
  end.

Definition spec_live (now : Z) (c : cmd) (m : keyspace) : outcome (reply * keyspace) :=
  match c with
  | Get k => Returned (RBulk (astring (m !! k)), m)
  | Type_ k => Returned (RType ((fun e => atype e.1) <$> m !! k), m)
  | Strlen k => Returned (RInt (match astring (m !! k) with Some b => zlen b | None => 0 end), m)
  | Exists_ ks => Returned (RInt (countb (fun k => bool_decide (is_Some (m !! k))) ks), m)
  | Ttl k => Returned (RInt (attl 1000000000 (m !! k) now), m)
  | Pttl k => Returned (RInt (attl 1000000 (m !! k) now), m)
  | SetKey k v t => exp ← deadline t now; Returned (RUnit, <[k := (inl v, exp)]> m)
  | SetNx k v =>
      Returned (match m !! k with
                | Some _ => (RBool false, m)
                | None => (RBool true, <[k := (inl v, None)]> m)
                end)
  | GetSet k v => Returned (RBulk (astring (m !! k)), <[k := (inl v, None)]> m)
  | Append k v =>
      Returned (match m !! k with
                | Some (inl b, exp) => (RInt (zlen (b ++ v)), <[k := (inl (b ++ v), exp)]> m)
                | _ => (RInt (zlen v), <[k := (inl v, None)]> m)
                end)
  | Incr k d => Returned (aincr k d m)
  | Del ks => let '(n, m) := foldl adel (0, m) ks in Returned (RInt n, m)
  | DelIfEq k e =>
      Returned (match m !! k with
                | None => (RBool false, m)
                | Some (inr _, _) => (RErr WRONGTYPE, m)
                | Some (inl b, _) =>
                    if bytes_eqb b e then (RBool true, delete k m) else (RBool false, m)
                end)
  | GetDel k =>
      Returned (match astring (m !! k) with
                | Some b => (RBulk (Some b), delete k m)
                | None => (RBulk None, m)
                end)
  | Pexpire k ms =>
      match m !! k with
      | Some (v, _) => exp ← instant_add now (ms * 1000000);
                       Returned (RBool true, <[k := (v, Some exp)]> m)
      | None => Returned (RBool false, m)
      end
  | Persist k =>
      Returned (match m !! k with
                | Some (v, Some _) => (RBool true, <[k := (v, None)]> m)
                | _ => (RBool false, m)
                end)
  | GetEx k t p =>
      match m !! k with
      | Some (v, exp) =>
          exp ← (if p then Returned None
                 else match t with Some _ => deadline t now | None => Returned exp end);
          Returned (RBulk (astring (Some (v, exp))), <[k := (v, exp)]> m)
      | None => Returned (RBulk None, m)
      end
  | MSetNx ps =>
      Returned (if forallb (fun p => bool_decide (astring (m !! p.1) = None)) ps
                then (RBool true, foldl (fun m p => <[p.1 := (inl p.2, None)]> m) m ps)
                else (RBool false, m))
  | Rename k k' =>
      Returned (match m !! k with
                | None => (RErr "ERR no such key", m)
                | Some e => if abound e.1 then (RErr RENAME_ENCRYPTED_ERR, m)
                            else (RUnit, <[k' := e]> (delete k m))
                end)
  | Sweep _ => Returned (RUnit, m)
  | FlushDb => Returned (RUnit, ∅)
  end.

Definition spec_exec (now : Z) (c : cmd) (m : keyspace) : outcome (reply * keyspace) :=
  spec_live now c (purge now m).

Fixpoint spec_run (cs : list (Z * cmd)) (m : keyspace) : outcome (list reply * keyspace) :=
  match cs with
  | [] => Returned ([], m)
  | (now, c) :: cs =>
      '(r, m) ← spec_exec now c m; '(rs, m) ← spec_run cs m; Returned (r :: rs, m)
  end.

(** The entry a reader at time [now] sees. *)
Definition sem_entry (e : Entry) : avalue * option Z := (abs_value (value e), expires_at e).
Definition sem (s : Store) (now : Z) (key : bytes) : option (avalue * option Z) :=
  sem_entry <$> live s now key.

(** The store holds the keyspace [m] at time [now]. *)
Definition holds (now : Z) (s : Store) (m : keyspace) : Prop := forall k, m !! k = sem s now k.

(** A store with no cold tier. *)
Definition hot (s : Store) : Prop := nonempty s /\ disk_shards s = None.

(** Two outcomes agree: both panic, or the replies are equal and the states related. *)
Definition agree {A : Type} (R : Store -> keyspace -> Prop) (x : outcome (A * Store))
    (y : outcome (A * keyspace)) : Prop :=
  match x, y with
  | Returned (r, s), Returned (r', m) => r = r' /\ R s m
  | Panicked, Panicked => True
  | _, _ => False
  end.

(** *** Lemmas: what a reader sees after an update *)

Lemma is_expired_alive now e : is_expired_at now e = negb (alive now (expires_at e)).
Proof. unfold is_expired_at, alive. destruct (expires_at e); [|done]. by rewrite Z.leb_antisym, negb_involutive, Z.gtb_ltb. Qed.

Lemma sem_find s now k :
  sem s now k = match find s k with
                | Some e => if is_expired_at now e then None else Some (sem_entry e)
                | None => None
                end.
Proof. unfold sem, live. destruct (find s k) as [e|]; [|done]. by destruct (is_expired_at now e). Qed.

Lemma holds_same now s s' m :
  holds now s m -> (forall k, find s' k = find s k) -> holds now s' m.
Proof. intros H E k. rewrite H, !sem_find, E. done. Qed.

Lemma holds_put now s s' m key e :
  holds now s m -> alive now (expires_at e) = true ->
  (forall k, find s' k = if decide (k = key) then Some e else find s k) ->
  holds now s' (<[key := sem_entry e]> m).
Proof.
  intros H Ha E k. rewrite sem_find, E. destruct (decide (k = key)) as [->|].
  - by rewrite lookup_insert_eq, is_expired_alive, Ha.
  - by rewrite lookup_insert_ne, H, sem_find.
Qed.

Lemma holds_drop now s s' m key :
  holds now s m -> (forall k, find s' k = if decide (k = key) then None else find s k) ->
  holds now s' (delete key m).
Proof.
  intros H E k. rewrite sem_find, E. destruct (decide (k = key)) as [->|].
  - by rewrite lookup_delete_eq.
  - by rewrite lookup_delete_ne, H, sem_find.
Qed.

(** What the map says about an entry found in the store. *)
Lemma holds_lookup now s m k :
  holds now s m ->
  match find s k with
  | Some e => m !! k = if is_expired_at now e then None else Some (sem_entry e)
  | None => m !! k = None
  end.
Proof. intros H. rewrite H, sem_find. by destruct (find s k). Qed.

Lemma holds_drop_dead now s s' m key :
  holds now s m -> m !! key = None ->
  (forall k, find s' k = if decide (k = key) then None else find s k) -> holds now s' m.
Proof. intros H Hm E. rewrite <-(delete_id m key) by done. by eapply holds_drop. Qed.

Lemma holds_purge now now' s m : now <= now' -> holds now s m -> holds now' s (purge now' m).
Proof.
  intros Hle H k. unfold purge. rewrite map_lookup_filter, H, !sem_find.
  destruct (find s k) as [e|]; [|done]. rewrite !is_expired_alive.
  destruct (alive now (expires_at e)) eqn:Ea; cbn [negb mbind option_bind].
  - destruct (alive now' (expires_at e)) eqn:Ea'; cbn [negb].
    + by rewrite option_guard_True.
    + by rewrite option_guard_False by (cbn; congruence).
  - destruct (alive now' (expires_at e)) eqn:Ea'; [|done]. exfalso. unfold alive in *.
    destruct (expires_at e); [|done]. zbool. lia.
Qed.

Lemma string_bytes_abs v :
  match string_bytes v with Some b => abs_value v = inl b | None => abs_value v = inr v end.
Proof. unfold abs_value. by destruct (string_bytes v). Qed.

Lemma alive_deadline t now exp :
  match t with Some d => 0 <= d | None => True end ->
  deadline t now = Returned exp -> alive now exp = true.
Proof.
  unfold deadline, instant_add. destruct t as [d|]; cbn; [|by intros _ [= <-]].
  destruct (_ <=? i64_max); cbn; [|done]. intros Hd [= <-]. cbn. zbool. lia.
Qed.

(** *** Lemmas: the cold tier is not there *)

Lemma hot_disk_at s key : disk_shards s = None -> disk_at s key = None.
Proof. unfold disk_at. by intros ->. Qed.

Lemma hot_promote hc clock key now s :
  disk_shards s = None -> try_promote hc clock key now s = (Ok false, s).
Proof. intros H. unfold try_promote. by rewrite hot_disk_at. Qed.

Lemma hot_remove_from_disk key s : disk_shards s = None -> remove_from_disk key s = s.
Proof. intros H. unfold remove_from_disk. by rewrite hot_disk_at. Qed.

Lemma hot_disk_contains key clock s : disk_shards s = None -> disk_contains key clock s = false.
Proof. intros H. unfold disk_contains. by rewrite hot_disk_at. Qed.

Lemma disk_insert_accounted key e s : disk_shards (insert_accounted key e s) = disk_shards s.
Proof. unfold insert_accounted, mem_replace. destruct (find s key); [destruct (_ >=? _)|]; done. Qed.

Lemma disk_remove_vector key d s : disk_shards (remove_vector_indexes key d s) = disk_shards s.
Proof. unfold remove_vector_indexes. by destruct (parse_table_vector_key key) as [[[]]|]. Qed.

Lemma nonempty_remove_vector key d s : nonempty (remove_vector_indexes key d s) <-> nonempty s.
Proof. unfold remove_vector_indexes. by destruct (parse_table_vector_key key) as [[[]]|]. Qed.

Lemma hot_bump key s : hot s -> hot (bump key s).
Proof. intros [? ?]. split; [by apply nonempty_bump|done]. Qed.
Lemma hot_put_data key e s : hot s -> hot (put_data key e s).
Proof. intros [? ?]. split; [by apply nonempty_put_data|done]. Qed.
Lemma hot_drop_data key s : hot s -> hot (drop_data key s).
Proof. intros [? ?]. split; [by apply nonempty_drop_data|done]. Qed.
Lemma hot_insert key e s : hot s -> hot (insert_accounted key e s).
Proof. intros [? ?]. split; [by apply nonempty_insert_accounted|by rewrite disk_insert_accounted]. Qed.
Lemma hot_remove key e s : hot s -> hot (remove_accounted key e s).
Proof. intros [? ?]. split; [by apply nonempty_remove_accounted|done]. Qed.
Lemma hot_remove_vector key d s : hot s -> hot (remove_vector_indexes key d s).
Proof. intros [? ?]. split; [by apply nonempty_remove_vector|by rewrite disk_remove_vector]. Qed.
Lemma hot_mem_add a s : hot s -> hot (mem_add a s).
Proof. done. Qed.

#[local] Hint Resolve hot_bump hot_put_data hot_drop_data hot_insert hot_remove hot_remove_vector
  hot_mem_add : lux.

(** *** Lemmas: the updates the commands are made of *)

Definition state_ok (now : Z) (s : Store) (m : keyspace) : Prop := hot s /\ holds now s m.

Lemma ok_bump now key s m : state_ok now s m -> state_ok now (bump key s) m.
Proof.
  intros [Hh Hm]. split; [by apply hot_bump|]. eapply holds_same; [done|]. intros k. apply find_bump.
Qed.

Lemma ok_insert now key e s m :
  state_ok now s m -> alive now (expires_at e) = true ->
  state_ok now (insert_accounted key e s) (<[key := sem_entry e]> m).
Proof.
  intros [Hh Hm] Ha. split; [by apply hot_insert|]. eapply holds_put; [done|done|].
  intros k. apply find_insert_accounted, Hh.
Qed.

Lemma ok_update now key e s m :
  state_ok now s m -> alive now (expires_at e) = true ->
  state_ok now (update_entry key e s) (<[key := sem_entry e]> m).
Proof.
  intros [Hh Hm] Ha. split; [by apply hot_put_data|]. eapply holds_put; [done|done|].
  intros k. apply find_put_data, Hh.
Qed.

Lemma ok_remove now key e s m :
  state_ok now s m -> state_ok now (remove_accounted key e s) (delete key m).
Proof.
  intros [Hh Hm]. split; [by apply hot_remove|]. eapply holds_drop; [done|].
  intros k. apply find_remove_accounted, Hh.
Qed.

Lemma ok_remove_dead now key e s m :
  state_ok now s m -> m !! key = None -> state_ok now (remove_accounted key e s) m.
Proof. intros H Hm. rewrite <-(delete_id m key) by done. by apply ok_remove. Qed.

Lemma ok_remove_vector now key d s m :
  state_ok now s m -> state_ok now (remove_vector_indexes key d s) m.
Proof.
  intros [Hh Hm]. split; [by apply hot_remove_vector|]. eapply holds_same; [done|].
  intros k. apply find_remove_vector.
Qed.

Lemma ok_remove_from_disk now key s m : state_ok now s m -> remove_from_disk key s = s.
Proof. intros [[_ Hd] _]. by apply hot_remove_from_disk. Qed.

(** A found entry, as the map describes it. *)
Lemma ok_live now s m k e :
  state_ok now s m -> find s k = Some e -> is_expired_at now e = false ->
  m !! k = Some (sem_entry e) /\ alive now (expires_at e) = true.
Proof.
  intros [_ Hm] Hf He. pose proof (holds_lookup _ _ _ k Hm) as H. rewrite Hf, He in H.
  split; [done|]. by rewrite is_expired_alive, negb_false_iff in He.
Qed.

Lemma ok_dead now s m k :
  state_ok now s m ->
  match find s k with Some e => is_expired_at now e = true | None => True end -> m !! k = None.
Proof.
  intros [_ Hm]. pose proof (holds_lookup _ _ _ k Hm) as H. destruct (find s k); [|done].
  intros E. by rewrite E in H.
Qed.

(** Case analysis on the entry of [k]: dead (missing or expired), or live. *)
Ltac entry_cases now s k Hok :=
  let e := fresh "e" in let Ef := fresh "Ef" in let Ee := fresh "Ee" in
  let Hl := fresh "Hl" in let Ha := fresh "Ha" in
  destruct (find s k) as [e|] eqn:Ef;
  [ destruct (is_expired_at now e) eqn:Ee;
    [ pose proof (ok_dead _ s _ k Hok ltac:(rewrite Ef; exact Ee)) as Hl
    | destruct (ok_live _ s _ k e Hok Ef Ee) as [Hl Ha] ]
  | pose proof (ok_dead _ s _ k Hok ltac:(rewrite Ef; exact I)) as Hl ];
  rewrite ?Hl; cbn [negb].

Lemma ok_get_from_shard now s m k : state_ok now s m -> get_from_shard k now s = astring (m !! k).
Proof.
  intros Hok. unfold get_from_shard. entry_cases now s k Hok; try done.
  unfold sem_entry, abs_value. by destruct (string_bytes (value e)).
Qed.

(** *** Lemmas: each command *)

Lemma get_ok now s m k :
  state_ok now s m -> get_checked hll_count now k now s = (Ok (astring (m !! k)), s).
Proof.
  intros Hok. unfold get_checked. rewrite (ok_get_from_shard _ _ _ _ Hok).
  destruct (astring (m !! k)); [done|]. rewrite hot_promote by apply Hok. done.
Qed.

Lemma type_ok now s m k :
  state_ok now s m ->
  get_entry_type hll_count now k now s = ((fun e => atype e.1) <$> m !! k, s).
Proof.
  intros Hok. unfold get_entry_type, entry_type_from_shard. rewrite hot_promote by apply Hok.
  entry_cases now s k Hok; try done. unfold sem_entry, abs_value. by destruct (value e).
Qed.

Lemma strlen_ok now s m k :
  state_ok now s m -> strlen k now s = match astring (m !! k) with Some b => zlen b | None => 0 end.
Proof.
  intros Hok. rewrite <-(ok_get_from_shard _ _ _ k Hok). unfold strlen, get_from_shard.
  by destruct (find s k) as [e|]; [destruct (is_expired_at now e)|].
Qed.

Lemma exists_ok now s m ks :
  state_ok now s m ->
  exists_ now now ks s = countb (fun k => bool_decide (is_Some (m !! k))) ks.
Proof.
  intros Hok. rewrite exists_count.
  assert (forall k, exists_key now now s k = bool_decide (is_Some (m !! k))) as E.
  { intros k. unfold exists_key, exists_in_mem. rewrite hot_disk_contains, andb_false_r by apply Hok.
    entry_cases now s k Hok; done. }
  induction ks as [|k ks IH]; [done|]. by rewrite !countb_cons, E, IH.
Qed.

Lemma ttl_ok now s m k : state_ok now s m -> ttl k now s = attl 1000000000 (m !! k) now.
Proof.
  intros Hok. unfold ttl. entry_cases now s k Hok; try done; unfold is_expired_at in Ee;
    cbn; destruct (expires_at e); try done; by rewrite Ee.
Qed.

Lemma pttl_ok now s m k : state_ok now s m -> pttl k now s = attl 1000000 (m !! k) now.
Proof.
  intros Hok. unfold pttl. entry_cases now s k Hok; try done; unfold is_expired_at in Ee;
    cbn; destruct (expires_at e); try done; by rewrite Ee.
Qed.

(** The commands whose durations are not negative (they are unsigned in the code). *)
Definition cmd_ok (c : cmd) : Prop :=
  match c with
  | SetKey _ _ (Some d) | GetEx _ (Some d) _ => 0 <= d
  | Pexpire _ ms => 0 <= ms
  | _ => True
  end.

Lemma set_ok now s m k v t :
  state_ok now s m -> match t with Some d => 0 <= d | None => True end ->
  match set k v t now s, deadline t now with
  | Returned s', Returned exp => state_ok now s' (<[k := (inl v, exp)]> m)
  | Panicked, Panicked => True
  | _, _ => False
  end.
Proof.
  intros Hok Ht. unfold set, set_on_shard. destruct (deadline t now) as [exp|] eqn:Ed; [|done].
  cbn [mbind outcome_bind]. pose proof (ok_insert now k
    (mkEntry (VStr v) exp (lru_clock (bump k s))) _ _ (ok_bump now k _ _ Hok)
    (alive_deadline _ _ _ Ht Ed)) as H.
  by rewrite (ok_remove_from_disk _ k _ _ H).
Qed.

Lemma set_nx_ok now s m k v :
  state_ok now s m ->
  let '(b, s') := set_nx k v now s in
  b = bool_decide (m !! k = None) /\
  state_ok now s' (if b then <[k := (inl v, None)]> m else m).
Proof.
  intros Hok. unfold set_nx. apply (ok_bump now k) in Hok. set (s1 := bump k s) in *.
  unfold set_nx_on_shard.
  pose proof (ok_insert now k (mkEntry (VStr v) None (lru_clock s1)) s1 m Hok eq_refl).
  entry_cases now s1 k Hok; done.
Qed.

Lemma append_ok now s m k v :
  state_ok now s m ->
  let '(n, s') := append k v now s in
  match m !! k with
  | Some (inl b, exp) => n = zlen (b ++ v) /\ state_ok now s' (<[k := (inl (b ++ v), exp)]> m)
  | _ => n = zlen v /\ state_ok now s' (<[k := (inl v, None)]> m)
  end.
Proof.
  intros Hok. unfold append. apply (ok_bump now k) in Hok. set (s1 := bump k s) in *.
  unfold append_on_shard.
  pose proof (ok_insert now k (mkEntry (VStr v) None (lru_clock s1)) s1 m Hok eq_refl) as Hi.
  assert (state_ok now (mem_add (zlen v) s1) m) as Hma by apply Hok.
  entry_cases now s1 k Hok; try done. unfold sem_entry, abs_value.
  pose proof (fun w => ok_update now k (mkEntry (VStrBuf w) (expires_at e) (lru_clock s1))
    (mem_add (zlen v) s1) m Hma Ha) as Hu.
  destruct (value e) as [b|b| | | | | | | |]; cbn [string_bytes]; split; try done; apply Hu.
Qed.

Lemma incr_ok now s m k d :
  state_ok now s m ->
  let '(r, s') := incr hll_count now k d now s in
  reply_of RInt r = (aincr k d m).1 /\ state_ok now s' (aincr k d m).2.
Proof.
  intros Hok. unfold incr, aincr. rewrite hot_promote by apply Hok.
  apply (ok_bump now k) in Hok. set (s1 := bump k s) in *.
  pose proof (fun n exp => ok_insert now k (mkEntry (VStr (fmt_i n)) exp (lru_clock s1)) s1 m Hok) as Hi.
  entry_cases now s1 k Hok.
  - destruct (i64_checked (0 + d)); [|done]. split; [done|]. by apply Hi.
  - unfold sem_entry, abs_value. destruct (string_bytes (value e)) as [b|]; [|done].
    destruct (is_utf8 b); cbn [negb]; [|done]. destruct (parse_i64 b) as [n|]; [|done].
    destruct (i64_checked (n + d)); [|done]. split; [done|]. by apply Hi.
  - destruct (i64_checked (0 + d)); [|done]. split; [done|]. by apply Hi.
Qed.

Lemma del_one_ok now s m k n vs :
  state_ok now s m ->
  let '(n', _, s') := del_one now (n, vs, s) k in
  n' = (adel (n, m) k).1 /\ state_ok now s' (adel (n, m) k).2.
Proof.
  intros Hok. unfold del_one, adel. cbn [fst snd]. apply (ok_bump now k) in Hok.
  set (s1 := bump k s) in *. rewrite hot_disk_contains by apply Hok.
  entry_cases now s1 k Hok; cbn [fst snd]; split; try done.
  - by apply ok_remove_dead.
  - by apply ok_remove.
Qed.

Lemma del_loop_ok now ks : forall s m n vs,
  state_ok now s m ->
  let '(n', _, s') := foldl (del_one now) (n, vs, s) ks in
  n' = (foldl adel (n, m) ks).1 /\ state_ok now s' (foldl adel (n, m) ks).2.
Proof.
  induction ks as [|k ks IH]; intros s m n vs Hok; cbn [foldl]; [done|].
  pose proof (del_one_ok now s m k n vs Hok) as H.
  destruct (del_one now (n, vs, s) k) as [[n1 vs1] s1], (adel (n, m) k) as [n2 m2].
  cbn [fst snd] in H. destruct H as [-> Hok1]. by apply IH.
Qed.

Lemma unindex_ok now vs : forall s m,
  state_ok now s m ->
  state_ok now (foldl (fun s (kd : bytes * Z) => remove_vector_indexes kd.1 kd.2 s) s vs) m.
Proof.
  induction vs as [|kd vs IH]; intros s m Hok; cbn [foldl]; [done|]. by apply IH, ok_remove_vector.
Qed.

Lemma del_ok now s m ks :
  state_ok now s m ->
  let '(n, s') := del now ks s in
  n = (foldl adel (0, m) ks).1 /\ state_ok now s' (foldl adel (0, m) ks).2.
Proof.
  intros Hok. unfold del. pose proof (del_loop_ok now ks s m 0 [] Hok) as H.
  destruct (foldl (del_one now) (0, [], s) ks) as [[n vs] s']. destruct H as [-> H].
  split; [done|]. by apply unindex_ok.
Qed.

Lemma delifeq_ok now s m k x :
  state_ok now s m ->
  let '(r, s') := delifeq k x now s in
  match m !! k with
  | None => r = Ok false /\ state_ok now s' m
  | Some (inr _, _) => r = Err WRONGTYPE /\ state_ok now s' m
  | Some (inl b, _) =>
      r = Ok (bytes_eqb b x) /\ state_ok now s' (if bytes_eqb b x then delete k m else m)
  end.
Proof.
  intros Hok. unfold delifeq. pose proof (ok_bump now k _ _ Hok) as Hb.
  pose proof (fun e => ok_remove now k e _ _ Hb) as Hr.
  entry_cases now s k Hok; try done.
  - split; [done|]. rewrite (ok_remove_from_disk _ k _ _ (Hr e)). by apply ok_remove_dead.
  - unfold sem_entry, abs_value. destruct (string_bytes (value e)) as [b|]; [|done].
    destruct (bytes_eqb b x) eqn:Eb; rewrite ?Eb; [|done]. split; [done|].
    by rewrite (ok_remove_from_disk _ k _ _ (Hr e)).
Qed.

Lemma getdel_ok now s m k :
  state_ok now s m ->
  let '(r, s') := getdel k now s in
  r = astring (m !! k) /\
  state_ok now s' (match astring (m !! k) with Some _ => delete k m | None => m end).
Proof.
  intros Hok. unfold getdel. apply (ok_bump now k) in Hok. set (s1 := bump k s) in *.
  entry_cases now s1 k Hok; try done. unfold sem_entry, abs_value.
  destruct (string_bytes (value e)) as [b|]; [|done]. split; [done|]. by apply ok_remove.
Qed.

Lemma alive_add now d exp : 0 <= d -> instant_add now d = Returned exp -> alive now (Some exp) = true.
Proof. unfold instant_add. destruct (_ <=? _); [|done]. intros ? [= <-]. cbn. zbool. lia. Qed.

Lemma pexpire_ok now s m k ms :
  state_ok now s m -> 0 <= ms ->
  match pexpire k ms now s with
  | Returned (b, s') =>
      b = bool_decide (is_Some (m !! k)) /\
      match m !! k with
      | Some (v, _) => exists exp, instant_add now (ms * 1000000) = Returned exp /\
          state_ok now s' (<[k := (v, Some exp)]> m)
      | None => state_ok now s' m
      end
  | Panicked => is_Some (m !! k) /\ instant_add now (ms * 1000000) = Panicked
  end.
Proof.
  intros Hok Hms. unfold pexpire. apply (ok_bump now k) in Hok. set (s1 := bump k s) in *.
  entry_cases now s1 k Hok; try done.
  destruct (instant_add now (ms * 1000000)) as [exp|] eqn:Ei; cbn [mbind outcome_bind]; [|by eauto].
  split; [done|]. exists exp. split; [done|].
  apply (ok_update now k (mkEntry (value e) (Some exp) (e_lru_clock e)) s1 m Hok).
  eapply alive_add; [|done]. lia.
Qed.

Lemma persist_ok now s m k :
  state_ok now s m ->
  let '(b, s') := persist k now s in
  match m !! k with
  | Some (v, Some _) => b = true /\ state_ok now s' (<[k := (v, None)]> m)
  | _ => b = false /\ state_ok now s' m
  end.
Proof.
  intros Hok. unfold persist. entry_cases now s k Hok; cbn [andb]; try done. unfold sem_entry.
  destruct (expires_at e) as [x|] eqn:Ex.
  - rewrite bool_decide_eq_true_2 by eauto. split; [done|]. apply ok_bump.
    by apply (ok_update now k (mkEntry (value e) None (e_lru_clock e)) s m Hok).
  - by rewrite bool_decide_eq_false_2 by (by intros [? ?]).
Qed.

Lemma getex_ok now s m k t p :
  state_ok now s m -> match t with Some d => 0 <= d | None => True end ->
  agree (state_ok now) ('(b, s) ← getex k t p now s; Returned (RBulk b, s))
    (spec_live now (GetEx k t p) m).
Proof.
  intros Hok Ht. unfold getex, spec_live, deadline. apply (ok_bump now k) in Hok.
  set (s1 := bump k s) in *. entry_cases now s1 k Hok; try done. unfold sem_entry.
  assert (forall exp, alive now exp = true ->
    agree (state_ok now) (Returned (RBulk (string_bytes (value e)),
        update_entry k (mkEntry (value e) exp (e_lru_clock e)) s1))
      (Returned (RBulk (astring (Some (abs_value (value e), exp))),
        <[k := (abs_value (value e), exp)]> m))) as H.
  { intros exp Hexp. split.
    - unfold abs_value. by destruct (string_bytes (value e)).
    - by apply (ok_update now k (mkEntry (value e) exp (e_lru_clock e)) s1 m Hok). }
  destruct p; [by apply H|]. destruct t as [d|]; [|by apply H].
  destruct (instant_add now d) as [exp|] eqn:Ei; [|done]. apply H. by eapply alive_add.
Qed.

Lemma would_set_ok now ps : forall s m,
  state_ok now s m ->
  msetnx_would_set hll_count now ps now s =
    (forallb (fun p => bool_decide (astring (m !! p.1) = None)) ps, s).
Proof.
  induction ps as [|[k v] ps IH]; intros s m Hok; cbn [msetnx_would_set forallb fst]; [done|].
  unfold get. rewrite (get_ok _ _ _ k Hok). destruct (astring (m !! k)) as [b|].
  - done.
  - rewrite (IH s m Hok). by rewrite bool_decide_eq_true_2.
Qed.

Lemma set_all_ok now ps : forall s m,
  state_ok now s m ->
  exists s', set_all ps now s = Returned s' /\
    state_ok now s' (foldl (fun m (p : bytes * bytes) => <[p.1 := (inl p.2, None)]> m) m ps).
Proof.
  induction ps as [|[k v] ps IH]; intros s m Hok; cbn [set_all foldl fst snd]; [by eauto|].
  pose proof (set_ok now s m k v None Hok I) as H. cbn [deadline] in H.
  destruct (set k v None now s) as [s1|]; [|done]. cbn [mbind outcome_bind]. by apply IH.
Qed.

Lemma msetnx_ok now s m ps :
  state_ok now s m ->
  agree (state_ok now) ('(b, s) ← msetnx hll_count now ps now s; Returned (RBool b, s))
    (spec_live now (MSetNx ps) m).
Proof.
  intros Hok. unfold msetnx, spec_live. rewrite (would_set_ok now ps s m Hok).
  destruct (forallb _ ps); cbn [negb]; [|done].
  destruct (set_all_ok now ps s m Hok) as (s' & -> & H'). done.
Qed.

Lemma bound_abs v :
  value_has_key_bound_encryption is_encrypted_value v = abound (abs_value v).
Proof. by destruct v. Qed.

Lemma rename_ok now s m k k' :
  state_ok now s m ->
  let '(r, s') := rename is_encrypted_value k k' now s in
  match m !! k with
  | None => r = Err "ERR no such key" /\ state_ok now s' m
  | Some e => if abound e.1 then r = Err RENAME_ENCRYPTED_ERR /\ state_ok now s' m
              else r = Ok tt /\ state_ok now s' (<[k' := e]> (delete k m))
  end.
Proof.
  intros Hok. pose proof (ok_bump now k _ _ Hok) as Hb. pose proof Hb as [[Hbn Hbd] Hbm].
  unfold rename. cbn zeta. set (s1 := bump k s) in *.
  assert (find s k = find s1 k) as Efs by (symmetry; apply find_bump). rewrite Efs.
  entry_cases now s1 k Hb; cbn [andb]; try done.
  - split; [done|]. split; [by apply hot_drop_data|]. eapply holds_drop_dead; [done|done|].
    intros x. by apply find_drop_data.
  - rewrite bound_abs. change (sem_entry e).1 with (abs_value (value e)).
    destruct (abound _); [done|]. split; [done|].
    set (s2 := bump k' (mem_sub _ (shard_mem_sub k _ (key_removed (drop_data k s1))))).
    assert (state_ok now s2 (delete k m)) as Hs2.
    { apply ok_bump. split; [by split; [apply nonempty_with_shard, nonempty_with_shard|]|].
      eapply holds_drop; [done|]. intros x. by find_simp. }
    pose proof (ok_update now k' e s2 _ Hs2 Ha) as [[Hn Hd] Hu]. split.
    + split; [|by destruct (bool_decide _)]. apply nonempty_mem_add, nonempty_shard_mem_add.
      by destruct (bool_decide _).
    + eapply holds_same; [exact Hu|]. intros x. autorewrite with lux.
      by destruct (bool_decide _); autorewrite with lux.
Qed.

Lemma sweep_key_ok now s m k : state_ok now s m -> state_ok now (sweep_key now s k) m.
Proof.
  intros Hok. unfold sweep_key. entry_cases now s k Hok; try done.
  pose proof (ok_bump now k _ _ (ok_remove_dead now k e s m Hok Hl)).
  destruct (vector_dims (value e)); [by apply ok_remove_vector|done].
Qed.

Lemma sweep_keys_ok now ks : forall s m,
  state_ok now s m -> state_ok now (foldl (sweep_key now) s ks) m.
Proof. induction ks as [|k ks IH]; intros s m Hok; cbn [foldl]; [done|]. by apply IH, sweep_key_ok. Qed.

Lemma sweep_ok now seed s m : state_ok now s m -> state_ok now (expire_sweep seed now s) m.
Proof.
  unfold expire_sweep. generalize (seq 0 (length (shards s))). intros l. revert s.
  induction l as [|i l IH]; intros s Hok; cbn [foldl]; [done|]. by apply IH, sweep_keys_ok.
Qed.

(** *** Lemmas: FLUSHDB *)

Lemma flush_loop l : forall s,
  length (shards (foldl flush_shard s l)) = length (shards s) /\
  disk_shards (foldl flush_shard s l) = disk_shards s /\
  forall i, (i < length (shards s))%nat ->
    data (shard_at (foldl flush_shard s l) i) =
      if decide (i ∈ l) then ∅ else data (shard_at s i).
Proof.
  induction l as [|j l IH]; intros s; cbn [foldl].
  - split; [done|]. split; [done|]. intros i _. by rewrite decide_False by set_solver.
  - destruct (IH (flush_shard s j)) as (Hl & Hd & Hf).
    assert (length (shards (flush_shard s j)) = length (shards s)) as Hlen
      by apply length_with_shard.
    split; [congruence|]. split; [done|]. intros i Hi. rewrite Hf by congruence.
    destruct (decide (i ∈ l)); [by rewrite decide_True by set_solver|].
    destruct (decide (j = i)) as [->|].
    + rewrite decide_True by set_solver. unfold flush_shard.
      change (shard_at (mem_sub ?a ?x) i) with (shard_at x i).
      by rewrite shard_at_with_shard_eq.
    + rewrite decide_False by set_solver. unfold flush_shard.
      change (shard_at (mem_sub ?a ?x) i) with (shard_at x i).
      by rewrite shard_at_with_shard_ne.
Qed.

Lemma find_flushdb s k : nonempty s -> find (flushdb s) k = None.
Proof.
  intros Hn. destruct (flush_loop (seq 0 (length (shards s))) s) as (Hl & _ & Hf).
  unfold find. set (i := shard_index (flushdb s) k).
  assert (i < length (shards s))%nat as Hi.
  { rewrite <-Hl. apply (shard_index_lt (foldl flush_shard s (seq 0 (length (shards s)))) k).
    unfold nonempty. by rewrite Hl. }
  change (shard_at (flushdb s) i) with (shard_at (foldl flush_shard s (seq 0 (length (shards s)))) i).
  rewrite Hf by done. rewrite decide_True by (apply elem_of_seq; lia). apply lookup_empty.
Qed.

Lemma flush_ok now s m : state_ok now s m -> state_ok now (flushdb s) ∅.
Proof.
  intros [[Hn Hd] _]. destruct (flush_loop (seq 0 (length (shards s))) s) as (Hl & Hd' & _).
  split; [split|].
  - unfold nonempty. cbn. by rewrite Hl.
  - unfold flushdb. cbn [disk_shards set_disk set_vectors set_keys]. by rewrite Hd', Hd.
  - intros k. by rewrite sem_find, find_flushdb.
Qed.

(** *** The machine implements its specification *)

Lemma exec_ok now c s m :
  cmd_ok c -> state_ok now s m -> agree (state_ok now) (exec now c s) (spec_live now c m).
Proof.
  intros Hc Hok. destruct c; cbn [exec].
  - rewrite (get_ok _ _ _ _ Hok). by split.
  - rewrite (type_ok _ _ _ _ Hok). by split.
  - split; [by rewrite (strlen_ok _ _ _ _ Hok)|done].
  - split; [by rewrite (exists_ok _ _ _ _ Hok)|done].
  - split; [by rewrite (ttl_ok _ _ _ _ Hok)|done].
  - split; [by rewrite (pttl_ok _ _ _ _ Hok)|done].
  - pose proof (set_ok now s m key val ttl0 Hok Hc) as H. cbn [spec_live].
    destruct (set key val ttl0 now s), (deadline ttl0 now); by try split.
  - pose proof (set_nx_ok now s m key val Hok) as H. cbn [spec_live].
    destruct (set_nx key val now s) as [b s']. destruct H as [-> H].
    by destruct (m !! key); (split; [done|]).
  - cbn [spec_live]. unfold get_set, get_set_on_shard.
    rewrite (ok_get_from_shard _ _ _ key (ok_bump now key _ _ Hok)). split; [done|].
    apply (ok_insert now key (mkEntry (VStr val) None _)); [by apply ok_bump|done].
  - pose proof (append_ok now s m key val Hok) as H. cbn [spec_live].
    destruct (append key val now s) as [n s'].
    destruct (m !! key) as [[[b|v] exp]|]; destruct H as [-> H]; by split.
  - pose proof (incr_ok now s m key delta Hok) as H. cbn [spec_live].
    destruct (incr hll_count now key delta now s) as [r s'], (aincr key delta m). done.
  - pose proof (del_ok now s m keys0 Hok) as H. cbn [spec_live].
    destruct (del now keys0 s) as [n s'], (foldl adel (0, m) keys0) as [n' m'].
    destruct H as [-> H]. by split.
  - pose proof (delifeq_ok now s m key expected Hok) as H. cbn [spec_live].
    destruct (delifeq key expected now s) as [r s'].
    destruct (m !! key) as [[[b|v] exp]|]; destruct H as [-> H]; [|by split|by split].
    destruct (bytes_eqb b expected); by split.
  - pose proof (getdel_ok now s m key Hok) as H. cbn [spec_live].
    destruct (getdel key now s) as [r s']. destruct H as [-> H].
    destruct (astring (m !! key)); by split.
  - pose proof (pexpire_ok now s m key millis Hok Hc) as H. cbn [spec_live].
    destruct (pexpire key millis now s) as [[b s']|], (m !! key) as [[v x]|]; cbn.
    + destruct H as (-> & exp & -> & H). by split.
    + destruct H as [-> H]. by split.
    + by destruct H as [_ ->].
    + by destruct H as [[? ?] _].
  - pose proof (persist_ok now s m key Hok) as H. cbn [spec_live].
    destruct (persist key now s) as [b s'].
    destruct (m !! key) as [[v [x|]]|]; destruct H as [-> H]; by split.
  - by apply getex_ok; [|destruct ttl0].
  - by apply msetnx_ok.
  - pose proof (rename_ok now s m key new_key Hok) as H. cbn [spec_live].
    destruct (rename is_encrypted_value key new_key now s) as [r s'].
    destruct (m !! key) as [e|]; [|destruct H as [-> H]; by split].
    destruct (abound e.1); destruct H as [-> H]; by split.
  - split; [done|]. by apply sweep_ok.
  - split; [done|]. by eapply flush_ok.
Qed.

(** Commands arrive in the order of their times, from [t] on. *)
Fixpoint timely (t : Z) (cs : list (Z * cmd)) : Prop :=
  match cs with
  | [] => True
  | (now, c) :: cs => t <= now /\ cmd_ok c /\ timely now cs
  end.

Definition last_time (t : Z) (cs : list (Z * cmd)) : Z := foldl (fun _ p => p.1) t cs.

Lemma run_ok cs : forall t s m,
  timely t cs -> state_ok t s m -> agree (state_ok (last_time t cs)) (run cs s) (spec_run cs m).
Proof.
  induction cs as [|[now c] cs IH]; intros t s m Ht Hok; cbn [run spec_run]; [by split|].
  destruct Ht as (Hle & Hc & Ht). destruct Hok as [Hh Hm].
  pose proof (exec_ok now c s (purge now m) Hc (conj Hh (holds_purge t now s m Hle Hm))) as H.
  unfold spec_exec. destruct (exec now c s) as [[r s']|], (spec_live now c (purge now m)) as [[r' m']|];
    try done. cbn [mbind outcome_bind]. destruct H as [-> Hok'].
  pose proof (IH now s' m' Ht Hok') as H. unfold last_time in *. cbn [foldl fst].
  destruct (run cs s') as [[rs sf]|], (spec_run cs m') as [[rs' mf]|]; try done.
  cbn. by destruct H as [-> H].
Qed.

End Machine.

(** C1. The string keyspace. Any sequence of GET, SET, SETNX, GETSET, APPEND, INCR, DEL, EXISTS,
    TTL, EXPIRE, PERSIST, GETEX, GETDEL, MSETNX, RENAME, expiry sweeps and FLUSHDB, at
    non-decreasing times on an empty memory-only store, gives the answers of a plain map from keys
    to values with expiry: sharding, lazy expiry, in-place buffers and the sweep cannot be observed.
    Both sides panic on the same commands, which are those whose deadline overflows the clock. *)
Theorem keyspace_refines (hll_count : bytes -> Z) (is_encrypted_value : bytes -> bool) (n : nat)
    (t : Z) (cs : list (Z * cmd)) :
  (0 < n)%nat -> timely t cs ->
  agree (state_ok (last_time t cs)) (run hll_count is_encrypted_value cs (new n))
    (spec_run is_encrypted_value cs ∅).
Proof.
  intros Hn Ht. apply run_ok; [done|]. split; [split; [|done]|].
  - unfold nonempty. cbn. rewrite length_replicate. lia.
  - intros k. rewrite lookup_empty, sem_find. unfold find, shard_at. cbn [shards new].
    set (i := shard_index _ k). destruct (replicate n empty_shard !! i) as [sh|] eqn:E; [|done].
    apply lookup_replicate in E as [-> _]. done.
Qed.

Lemma keyspace_refines_witness :
  let cs := [(0, SetKey (bs "a") (bs "41") (Some 5)); (1, Incr (bs "a") 1); (2, Get (bs "a"));
             (9, Get (bs "a")); (9, Append (bs "b") (bs "x")); (9, Rename (bs "b") (bs "c"));
             (10, Del [bs "c"; bs "a"])] in
  agree (state_ok (last_time 0 cs)) (run (fun _ => 0) (fun _ => false) cs (new 4))
    (spec_run (fun _ => false) cs ∅).
Proof.
  apply (keyspace_refines (fun _ => 0) (fun _ => false) 4 0).
  - lia.
  - cbn. lia.
Defined.

End Strings.
