(* ===== verification/Eviction.v ===== *)
(** * Memory pressure ([src/src/eviction.rs])

    [evict_if_needed] with the least-recently-used and random policies, on the sharded store of
    [Store]: which key a policy picks, what evicting it does in memory mode (a journaled delete) and
    in tiered mode (a move to the cold tier), and the loop that goes on until the memory estimate is
    within the limit.

    A hash map is visited in an order of its own: the order is a parameter, constrained to visit
    every entry once. What the system does at each round (the clock, the write to disk, whether the
    disk shard is due for compaction, whether the journal takes the record) is an argument. *)

From S2P Require Import Prelude.
From S2P Require Import Disk.
From S2P Require Import Values.
From S2P Require Import Store.
From S2P Require Import Strings.
Local Open Scope Z_scope.

Module Eviction.
Import Values.Values Store.Store.

(** ** Configuration *)

Inductive EvictionPolicy := NoEviction | AllKeysLru | VolatileLru | AllKeysRandom | VolatileRandom.

#[export] Instance EvictionPolicy_eq_dec : EqDecision EvictionPolicy.
Proof. solve_decision. Defined.

Record EvictionConfig := mkConfig { max_memory : Z; policy : EvictionPolicy; sample_size : Z }.

Definition OOM : string := "OOM command not allowed when used memory > 'maxmemory'".

(** One round as the system sees it. *)
Record Round := mkRound {
  clock : Z;                       (* [Instant::now()] *)
  disk_write : option (nat * bool);   (* what happens to the write of the record; [None]: it succeeds *)
  compacting : bool;               (* [disk.should_compact()] *)
  appended : bool                  (* the journal takes the record *)
}.

(** The store and the journal, as the list of its commands. *)
Record World := mkWorld { store : Store; journal : list (list bytes) }.

Section Eviction.

Context (hll_count : bytes -> Z).
(** The order in which a hash map yields its entries. *)
Context (order : gmap bytes Entry -> list (bytes * Entry)).
(** Whether the store keeps a journal. *)
Context (has_journal : bool).

(** ** Victims *)

(** The entries a policy passes over. *)
Definition skipped (protect_tables volatile_only : bool) (key : bytes) (e : Entry) : bool :=
  (volatile_only && bool_decide (expires_at e = None)) ||
  is_vector (value e) ||
  (protect_tables && starts_with key (bs "_t:")).

(** The inner loop of [evict_lru] on one shard: the number of entries sampled and the best so far. *)
Fixpoint sample_shard (size : Z) (protect volatile : bool) (entries : list (bytes * Entry))
    (sampled : Z) (best : option bytes * Z) : Z * (option bytes * Z) :=
  match entries with
  | [] => (sampled, best)
  | (key, e) :: entries =>
      if sampled >=? size then (sampled, best)
      else if skipped protect volatile key e
      then sample_shard size protect volatile entries sampled best
      else sample_shard size protect volatile entries (sampled + 1)
             (if e_lru_clock e <? best.2 then (Some key, e_lru_clock e) else best)
  end.

(** The shards in the order they are visited: [(seed % n + offset) % n]. *)
Definition shard_order (s : Store) : list nat :=
  let n := length (shards s) in
  (fun offset => (Z.to_nat (used_memory s mod Z.of_nat n) + offset) mod n)%nat <$> seq 0 n.

Fixpoint lru_shards (size : Z) (protect volatile : bool) (s : Store) (idxs : list nat)
    (best : option bytes * Z) : option bytes :=
  match idxs with
  | [] => best.1
  | i :: idxs =>
      let entries := order (data (shard_at s i)) in
      let '(sampled, best) := sample_shard size protect volatile entries 0 best in
      if sampled >? 0 then best.1 else lru_shards size protect volatile s idxs best
  end.

Definition lru_victim (size : Z) (volatile : bool) (s : Store) : option bytes :=
  lru_shards size (negb (is_tiered s)) volatile s (shard_order s) (None, u32_max).

Fixpoint random_shards (protect volatile : bool) (s : Store) (idxs : list nat) : option bytes :=
  match idxs with
  | [] => None
  | i :: idxs =>
      match List.find (fun p => negb (skipped protect volatile p.1 p.2)) (order (data (shard_at s i))) with
      | Some (key, _) => Some key
      | None => random_shards protect volatile s idxs
      end
  end.

Definition random_victim (volatile : bool) (s : Store) : option bytes :=
  random_shards (negb (is_tiered s)) volatile s (shard_order s).

(** ** One eviction *)

Definition evict_selected_key (r : Round) (key : bytes) (w : World) : result bool * World :=
  if is_tiered (store w)
  then let '(ok, s) := evict_key hll_count (disk_write r) (compacting r) (clock r) key (store w) in
       (Ok ok, mkWorld s (journal w))
  else if has_journal && negb (appended r) then (Err "ERR WAL append failed", w)
  else let j := if has_journal then journal w ++ [[bs "DEL"; key]] else journal w in
       let '(ok, s) := evict_key hll_count (disk_write r) (compacting r) (clock r) key (store w) in
       (Ok ok, mkWorld s j).

Definition evict_victim (r : Round) (victim : option bytes) (w : World) : result bool * World :=
  match victim with
  | Some key => evict_selected_key r key w
  | None => (Ok false, w)
  end.

Definition evict_lru (r : Round) (size : Z) (volatile : bool) (w : World) : result bool * World :=
  evict_victim r (lru_victim size volatile (store w)) w.

Definition evict_random (r : Round) (volatile : bool) (w : World) : result bool * World :=
  evict_victim r (random_victim volatile (store w)) w.

Definition evict_once (cfg : EvictionConfig) (r : Round) (w : World) : result bool * World :=
  match policy cfg with
  | AllKeysLru => evict_lru r (sample_size cfg) false w
  | VolatileLru => evict_lru r (sample_size cfg) true w
  | AllKeysRandom => evict_random r false w
  | VolatileRandom => evict_random r true w
  | NoEviction => (Ok false, w)
  end.

(** ** The loop *)

(** [i] rounds have run. *)
Fixpoint evict_loop (fuel : nat) (cfg : EvictionConfig) (rounds : nat -> Round) (i : nat) (w : World)
    : option (result unit * World) :=
  match fuel with
  | O => None
  | S fuel =>
      if used_memory (store w) <=? max_memory cfg then Some (Ok tt, w)
      else if negb (is_tiered (store w)) && (Nat.ltb 128 (S i)) then Some (Err OOM, w)
      else match evict_once cfg (rounds i) w with
           | (Err e, w) => Some (Err e, w)
           | (Ok false, w) => Some (if is_tiered (store w) then Ok tt else Err OOM, w)
           | (Ok true, w) => evict_loop fuel cfg rounds (S i) w
           end
  end.

Definition eviction_enabled (cfg : EvictionConfig) : bool := max_memory cfg >? 0.

(** [None] would be a loop that goes on; the fuel allows a round per entry and the bound of memory
    mode besides. *)
Definition evict_if_needed (cfg : EvictionConfig) (wal_replaying : bool) (rounds : nat -> Round) (w : World)
    : option (result unit * World) :=
  if negb (eviction_enabled cfg) then Some (Ok tt, w)
  else if wal_replaying then Some (Ok tt, w)
  else evict_loop (S (Z.to_nat (total_keys (store w)))) cfg rounds 0 w.

(** The key the policy of the configuration picks. *)
Definition victim_of (cfg : EvictionConfig) (s : Store) : option bytes :=
  match policy cfg with
  | AllKeysLru => lru_victim (sample_size cfg) false s
  | VolatileLru => lru_victim (sample_size cfg) true s
  | AllKeysRandom => random_victim false s
  | VolatileRandom => random_victim true s
  | NoEviction => None
  end.

Definition volatile_of (p : EvictionPolicy) : bool :=
  match p with VolatileLru | VolatileRandom => true | _ => false end.
Definition is_lru (p : EvictionPolicy) : bool :=
  match p with VolatileLru | AllKeysLru => true | _ => false end.

(** An entry that the configuration allows to evict. *)
Definition candidate (cfg : EvictionConfig) (s : Store) (k : bytes) (e : Entry) : Prop :=
  find s k = Some e /\ skipped (negb (is_tiered s)) (volatile_of (policy cfg)) k e = false.

Lemma evict_once_victim cfg r w : evict_once cfg r w = evict_victim r (victim_of cfg (store w)) w.
Proof. unfold evict_once, victim_of. by destruct (policy cfg). Qed.

(** ** The sample of a shard *)

Definition eligible (protect volatile : bool) (entries : list (bytes * Entry)) : list (bytes * Entry) :=
  List.filter (fun p => negb (skipped protect volatile p.1 p.2)) entries.

Definition pick (best : option bytes * Z) (p : bytes * Entry) : option bytes * Z :=
  if e_lru_clock p.2 <? best.2 then (Some p.1, e_lru_clock p.2) else best.

Lemma sample_shard_eq size protect volatile entries : forall sampled best,
  let taken := take (Z.to_nat (size - sampled)) (eligible protect volatile entries) in
  sample_shard size protect volatile entries sampled best =
    (sampled + zlen taken, foldl pick best taken).
Proof.
  induction entries as [|[k e] entries IH]; intros sampled best; cbn zeta.
  - cbn. rewrite take_nil. cbn. by rewrite Z.add_0_r.
  - cbn [sample_shard eligible List.filter fst snd].
    destruct (Z.geb_spec sampled size) as [Hge|Hlt].
    + replace (Z.to_nat (size - sampled)) with 0%nat by lia. cbn. by rewrite Z.add_0_r.
    + destruct (skipped protect volatile k e); cbn [negb]; [by rewrite IH|]. rewrite IH. cbn zeta.
      replace (Z.to_nat (size - sampled)) with (S (Z.to_nat (size - (sampled + 1)))) by lia.
      cbn [take foldl]. unfold zlen. cbn [length]. f_equal. fold (eligible protect volatile entries). lia.
Qed.

(** The pick of a list: the smallest clock, if it is smaller than the one to beat. *)
Lemma foldl_pick l : forall best,
  let '(b, c) := foldl pick best l in
  c <= best.2 /\ Forall (fun p => c <= e_lru_clock p.2) l /\
  ((b, c) = best \/ exists p, p ∈ l /\ b = Some p.1 /\ c = e_lru_clock p.2).
Proof.
  induction l as [|p l IH]; intros best.
  - destruct best as [b c]. split; [done|]. split; [apply Forall_nil_2|by left].
  - cbn [foldl]. specialize (IH (pick best p)). destruct (foldl pick (pick best p) l) as [b c].
    unfold pick in IH. destruct IH as (Hc & Hall & Hor).
    destruct (Z.ltb_spec (e_lru_clock p.2) best.2) as [Hlt|Hge]; cbn [snd] in *.
    + split; [lia|]. split; [by constructor|]. right. destruct Hor as [[= -> ->]|(q & Hq & ? & ?)].
      * exists p. split_and!; [set_solver|done..].
      * exists q. split_and!; [set_solver|done..].
    + split; [lia|]. split; [constructor; [lia|done]|]. destruct Hor as [Hb|(q & Hq & ? & ?)]; [by left|].
      right. exists q. split_and!; [set_solver|done..].
Qed.

(** ** Every shard is visited *)

Lemma shard_order_complete s i : (i < length (shards s))%nat -> i ∈ shard_order s.
Proof.
  intros Hi. unfold shard_order. set (n := length (shards s)) in *.
  set (a := Z.to_nat (used_memory s mod Z.of_nat n)).
  assert (a < n)%nat as Ha.
  { pose proof (Z.mod_pos_bound (used_memory s) (Z.of_nat n) ltac:(lia)). lia. }
  apply list_elem_of_fmap. exists ((i + n - a) mod n)%nat. split.
  - rewrite Nat.Div0.add_mod_idemp_r. replace (a + (i + n - a))%nat with (i + 1 * n)%nat by lia.
    by rewrite Nat.Div0.mod_add, Nat.mod_small.
  - apply elem_of_seq. pose proof (Nat.mod_upper_bound (i + n - a) n ltac:(lia)). lia.
Qed.

Lemma shard_order_bound s i : i ∈ shard_order s -> (i < length (shards s))%nat.
Proof.
  unfold shard_order. intros (o & -> & Ho%elem_of_seq)%list_elem_of_fmap.
  apply Nat.mod_upper_bound. lia.
Qed.

Section Victims.

Hypothesis order_perm : forall m, order m ≡ₚ map_to_list m.

Lemma entry_in_order s i k e :
  placed s -> (i < length (shards s))%nat ->
  (k, e) ∈ order (data (shard_at s i)) <-> find s k = Some e /\ shard_index s k = i.
Proof.
  intros Hp Hi. rewrite order_perm, elem_of_map_to_list. unfold find. split.
  - intros Hk. assert (shard_index s k = i) as E; [|by rewrite E].
    apply (Hp i (shard_at s i) k); [by apply shard_at_lookup|by rewrite Hk].
  - by intros [Hf <-].
Qed.

Lemma elem_of_eligible protect volatile l p :
  p ∈ eligible protect volatile l <-> p ∈ l /\ skipped protect volatile p.1 p.2 = false.
Proof.
  unfold eligible. rewrite list_elem_of_In, filter_In, list_elem_of_In. by rewrite negb_true_iff.
Qed.

Lemma lru_shards_spec size protect volatile s idxs :
  match lru_shards size protect volatile s idxs (None, u32_max) with
  | Some k => exists i e l1 l2, idxs = l1 ++ i :: l2 /\
      Forall (fun j => take (Z.to_nat size) (eligible protect volatile (order (data (shard_at s j)))) = []) l1 /\
      (k, e) ∈ take (Z.to_nat size) (eligible protect volatile (order (data (shard_at s i)))) /\
      Forall (fun p => e_lru_clock e <= e_lru_clock p.2)
        (take (Z.to_nat size) (eligible protect volatile (order (data (shard_at s i)))))
  | None =>
      0 < size ->
      (forall i, i ∈ idxs -> Forall (fun p => e_lru_clock p.2 < u32_max) (order (data (shard_at s i)))) ->
      forall i, i ∈ idxs -> eligible protect volatile (order (data (shard_at s i))) = []
  end.
Proof.
  induction idxs as [|i idxs IH]; [intros _ _ i Hi; set_solver|]. cbn [lru_shards].
  rewrite (sample_shard_eq size protect volatile (order (data (shard_at s i))) 0). cbn zeta.
  rewrite Z.sub_0_r, Z.add_0_l.
  set (taken := take (Z.to_nat size) (eligible protect volatile (order (data (shard_at s i))))) in *.
  destruct (Z.gtb_spec (zlen taken) 0) as [Hpos|Hz].
  - pose proof (foldl_pick taken (None, u32_max)) as Hf.
    destruct (foldl pick (None, u32_max) taken) as [b c]. destruct Hf as (Hc & Hall & Hor).
    cbn [fst snd] in *. destruct Hor as [[= -> ->]|([k e] & Hin & -> & ->)].
    + intros Hs Hclk. exfalso. destruct taken as [|p taken'] eqn:Et; [done|].
      assert (p ∈ order (data (shard_at s i))) as Hp.
      { apply elem_of_eligible with protect volatile.
        apply (subseteq_take (Z.to_nat size)). fold taken. rewrite Et. set_solver. }
      specialize (Hclk i ltac:(set_solver)). rewrite Forall_forall in Hclk. specialize (Hclk p Hp).
      apply Forall_cons in Hall as [? _]. lia.
    + exists i, e, [], idxs. split; [done|]. split; [apply Forall_nil_2|]. by split.
  - assert (taken = []) as Et by (apply nil_length_inv; unfold zlen in *; lia).
    rewrite Et. cbn [foldl].
    destruct (lru_shards size protect volatile s idxs (None, u32_max)) as [k|].
    + destruct IH as (i' & e & l1 & l2 & -> & Hl1 & H). exists i', e, (i :: l1), l2.
      split; [done|]. split; [by constructor|done].
    + intros Hs Hclk i' [->|Hi']%elem_of_cons; [|apply IH; [done|set_solver|done]].
      unfold taken in Et. destruct (eligible protect volatile _) as [|p l]; [done|].
      replace (Z.to_nat size) with (S (Z.to_nat (size - 1))) in Et by lia. done.
Qed.

Lemma random_shards_spec protect volatile s idxs :
  match random_shards protect volatile s idxs with
  | Some k => exists i e, i ∈ idxs /\ (k, e) ∈ eligible protect volatile (order (data (shard_at s i)))
  | None => forall i, i ∈ idxs -> eligible protect volatile (order (data (shard_at s i))) = []
  end.
Proof.
  induction idxs as [|i idxs IH]; [intros i Hi; set_solver|]. cbn [random_shards].
  destruct (List.find _ _) as [[k e]|] eqn:E.
  - apply List.find_some in E as [Hin Hs]. exists i, e. split; [set_solver|].
    apply elem_of_eligible. split; [by apply list_elem_of_In|]. by apply negb_true_iff.
  - destruct (random_shards protect volatile s idxs) as [k|].
    + destruct IH as (i' & e & Hi' & H). exists i', e. split; [set_solver|done].
    + intros i' [->|Hi']%elem_of_cons; [|by apply IH].
      destruct (eligible protect volatile _) as [|p l] eqn:Ee; [done|]. exfalso.
      assert (p ∈ eligible protect volatile (order (data (shard_at s i)))) as [Hp Hsk]%elem_of_eligible
        by (rewrite Ee; set_solver).
      apply list_elem_of_In in Hp. pose proof (find_none _ _ E p Hp) as Hn. cbn beta in Hn. by rewrite Hsk in Hn.
Qed.

(** A victim is a candidate. *)
Lemma victim_candidate cfg s k :
  placed s -> victim_of cfg s = Some k -> exists e, candidate cfg s k e.
Proof.
  intros Hp. unfold victim_of, candidate.
  assert (forall v i e, i ∈ shard_order s -> (k, e) ∈ eligible (negb (is_tiered s)) v (order (data (shard_at s i))) ->
    exists e, find s k = Some e /\ skipped (negb (is_tiered s)) v k e = false) as Hel.
  { intros v i e Hi%shard_order_bound [Hin Hs]%elem_of_eligible. exists e. split; [|done].
    by apply (entry_in_order s i) in Hin as [? _]. }
  assert (forall v, lru_victim (sample_size cfg) v s = Some k ->
    exists e, find s k = Some e /\ skipped (negb (is_tiered s)) v k e = false) as Hl.
  { intros v E. pose proof (lru_shards_spec (sample_size cfg) (negb (is_tiered s)) v s (shard_order s)) as H.
    unfold lru_victim in E. rewrite E in H. destruct H as (i & e & l1 & l2 & Ho & _ & Hin & _).
    eapply (Hel v i e); [rewrite Ho; set_solver|]. by eapply subseteq_take. }
  assert (forall v, random_victim v s = Some k ->
    exists e, find s k = Some e /\ skipped (negb (is_tiered s)) v k e = false) as Hr.
  { intros v E. pose proof (random_shards_spec (negb (is_tiered s)) v s (shard_order s)) as H.
    unfold random_victim in E. rewrite E in H. destruct H as (i & e & Hi & Hin). by eapply Hel. }
  destruct (policy cfg); cbn [volatile_of]; [done|auto..].
Qed.

(** When a policy has no victim there is no candidate: its order visits every shard, and a sample
    of at least one entry finds one, if clocks are below the value the search starts from. *)
Definition clocks_ok (s : Store) : Prop := forall k e, find s k = Some e -> e_lru_clock e < u32_max.

Lemma no_victim cfg s :
  placed s -> policy cfg <> NoEviction -> victim_of cfg s = None ->
  (is_lru (policy cfg) = true -> 0 < sample_size cfg /\ clocks_ok s) ->
  forall k e, nonempty s -> ~ candidate cfg s k e.
Proof.
  intros Hp Hpol Hv Hlru k e Hn [Hf Hs].
  assert (shard_index s k < length (shards s))%nat as Hi by (by apply shard_index_lt).
  assert ((k, e) ∈ order (data (shard_at s (shard_index s k)))) as Hin by (by apply entry_in_order).
  pose proof (shard_order_complete s _ Hi) as Ho.
  assert (eligible (negb (is_tiered s)) (volatile_of (policy cfg)) (order (data (shard_at s (shard_index s k)))) <> [])
    as Hne.
  { intros E. eapply not_elem_of_nil. rewrite <-E. by apply elem_of_eligible. }
  assert (forall v, is_lru (policy cfg) = true -> lru_victim (sample_size cfg) v s = None ->
    eligible (negb (is_tiered s)) v (order (data (shard_at s (shard_index s k)))) = []) as Hl.
  { intros v Hl E. destruct (Hlru Hl) as [Hsz Hc].
    pose proof (lru_shards_spec (sample_size cfg) (negb (is_tiered s)) v s (shard_order s)) as H.
    unfold lru_victim in E. rewrite E in H. apply H; [done| |done].
    intros i Hi'%shard_order_bound. apply Forall_forall. intros [k' e'] [Hk' _]%entry_in_order; [|done..].
    by apply (Hc k'). }
  assert (forall v, random_victim v s = None ->
    eligible (negb (is_tiered s)) v (order (data (shard_at s (shard_index s k)))) = []) as Hr.
  { intros v E. pose proof (random_shards_spec (negb (is_tiered s)) v s (shard_order s)) as H.
    unfold random_victim in E. rewrite E in H. by apply H. }
  unfold victim_of in Hv. destruct (policy cfg); cbn in *; naive_solver.
Qed.

(** ** Evictions in memory mode are deletes *)

Lemma bump_remove_accounted key e s :
  bump key (remove_accounted key e s) = remove_accounted key e (bump key s).
Proof.
  unfold remove_accounted, bump, shard_mem_sub, drop_data, key_removed, mem_sub.
  destruct s as [sh u k l d v t]. unfold with_shard, set_used, set_keys, set_shards, shard_index, zlen. cbn.
  rewrite !length_alter. f_equal. apply list_eq. intros j.
  rewrite !list_lookup_alter. set (i := Z.to_nat _). destruct (decide (i = j)) as [<-|]; [|done].
  rewrite !decide_True by done. by destruct (sh !! i) as [[]|].
Qed.

(** Replaying the journaled deletes. *)
Definition replay (now : Z) (victims : list bytes) (s : Store) : Store :=
  foldl (fun s k => (Strings.del now [k] s).2) s victims.

Lemma evict_is_del now r key e s :
  disk_shards s = None -> find s key = Some e -> is_vector (value e) = false ->
  evict_key hll_count (disk_write r) (compacting r) (clock r) key s = (true, (Strings.del now [key] s).2) /\
  (Strings.del now [key] s).2 = bump key (remove_accounted key e s).
Proof.
  intros Hd Hf Hv. unfold evict_key. rewrite Hf. unfold disk_at. rewrite Hd. cbn [mbind option_bind].
  unfold Strings.del. cbn [foldl]. unfold Strings.del_one. rewrite find_bump, Hf.
  destruct (is_expired_at now e); destruct (value e); try done; cbn; by rewrite bump_remove_accounted.
Qed.

Lemma disk_remove_bump key e s : disk_shards (bump key (remove_accounted key e s)) = disk_shards s.
Proof. done. Qed.

Lemma total_keys_touch i f s :
  (forall sh, data (f sh) = data sh) -> total_keys (with_shard i f s) = total_keys s.
Proof. intros Hf. by apply totals_same_data. Qed.

Lemma keys_after_evict key e s :
  nonempty s -> find s key = Some e ->
  total_keys (bump key (remove_accounted key e s)) = total_keys s - 1 /\ 0 < total_keys s.
Proof.
  intros Hn Hf. destruct (totals_drop key e s Hn Hf) as (Tk & _ & Hpos & _). split; [|done].
  rewrite <-Tk. unfold bump. rewrite total_keys_touch by done. unfold remove_accounted, shard_mem_sub.
  change (total_keys (mem_sub ?n ?s)) with (total_keys s). by rewrite total_keys_touch.
Qed.

Lemma candidate_not_vector cfg s k e : candidate cfg s k e -> is_vector (value e) = false.
Proof. intros [_ Hs]. unfold skipped in Hs. by apply orb_false_iff in Hs as [[_ ?]%orb_false_iff _]. Qed.

(** How a run in memory mode ends, after [n] evictions in all. *)
Definition memory_end (cfg : EvictionConfig) (n : nat) (r : result unit) (w : World) : Prop :=
  match r with
  | Ok _ => used_memory (store w) <= max_memory cfg
  | Err m => max_memory cfg < used_memory (store w) /\
      (m = "ERR WAL append failed"%string \/
       m = OOM /\ (n = 128%nat \/ victim_of cfg (store w) = None))
  end.

Definition del_records (victims : list bytes) : list (list bytes) :=
  if has_journal then (fun k => [bs "DEL"; k]) <$> victims else [].

Lemma del_records_cons k ks : del_records (k :: ks) = (if has_journal then [[bs "DEL"; k]] else []) ++ del_records ks.
Proof. unfold del_records. by destruct has_journal. Qed.

Lemma memory_loop now cfg rounds fuel : forall i w,
  accounted (store w) -> disk_shards (store w) = None -> (i <= 128)%nat ->
  total_keys (store w) < Z.of_nat fuel ->
  exists r w' victims,
    evict_loop fuel cfg rounds i w = Some (r, w') /\ store w' = replay now victims (store w) /\
    journal w' = journal w ++ del_records victims /\ (i + length victims <= 128)%nat /\
    NoDup victims /\ Forall (fun k => exists e, candidate cfg (store w) k e) victims /\
    (forall k, find (store w') k = if decide (k ∈ victims) then None else find (store w) k) /\
    accounted (store w') /\ disk_shards (store w') = None /\ memory_end cfg (i + length victims) r w'.
Proof.
  induction fuel as [|fuel IH]; intros i w Ha Hd Hi Hk.
  { pose proof (total_keys_nonneg (store w)). lia. }
  pose proof Ha as [Hn Hp _ _]. assert (is_tiered (store w) = false) as Ht.
  { unfold is_tiered. rewrite Hd. by apply bool_decide_eq_false_2; intros []. }
  assert (forall r, memory_end cfg i r w -> exists r' w' victims,
    Some (r, w) = Some (r', w') /\ store w' = replay now victims (store w) /\
    journal w' = journal w ++ del_records victims /\ (i + length victims <= 128)%nat /\
    NoDup victims /\ Forall (fun k => exists e, candidate cfg (store w) k e) victims /\
    (forall k, find (store w') k = if decide (k ∈ victims) then None else find (store w) k) /\
    accounted (store w') /\ disk_shards (store w') = None /\ memory_end cfg (i + length victims) r' w') as Hstop.
  { intros r Hr. exists r, w, []. unfold del_records. cbn [length]. rewrite Nat.add_0_r.
    split; [done|]. split; [done|]. split; [by destruct has_journal; rewrite app_nil_r|]. split; [done|].
    split; [apply NoDup_nil_2|]. split; [apply Forall_nil_2|]. by split. }
  cbn [evict_loop]. destruct (Z.leb_spec (used_memory (store w)) (max_memory cfg)) as [Hle|Hgt].
  { by apply Hstop. }
  rewrite Ht. cbn [negb andb]. destruct (Nat.ltb_spec 128 (S i)) as [H128|H128].
  { apply Hstop. split; [lia|]. right. split; [done|]. left. lia. }
  rewrite evict_once_victim. destruct (victim_of cfg (store w)) as [key|] eqn:Ev; cbn [evict_victim].
  2: { rewrite Ht. apply Hstop. split; [lia|]. right. split; [done|]. by right. }
  destruct (victim_candidate cfg (store w) key Hp Ev) as [e Hc]. pose proof Hc as [Hf _].
  pose proof (candidate_not_vector _ _ _ _ Hc) as Hv.
  unfold evict_selected_key. rewrite Ht. destruct (has_journal && negb (appended (rounds i))).
  { apply Hstop. split; [lia|]. by left. }
  destruct (evict_is_del now (rounds i) key e (store w) Hd Hf Hv) as [-> Edel].
  set (s1 := (Strings.del now [key] (store w)).2) in *.
  set (w1 := mkWorld s1 (if has_journal then journal w ++ [[bs "DEL"; key]] else journal w)).
  destruct (keys_after_evict key e (store w) Hn Hf) as [Hk1 _]. rewrite <-Edel in Hk1.
  assert (accounted s1) as Ha1 by (rewrite Edel; apply accounted_bump, accounted_remove; done).
  assert (disk_shards s1 = None) as Hd1 by (rewrite Edel; by rewrite disk_remove_bump).
  assert (forall k, find s1 k = if decide (k = key) then None else find (store w) k) as Hf1.
  { intros k. rewrite Edel, find_bump. by apply find_remove_accounted. }
  destruct (IH (S i) w1) as (r & w' & vs & E & Es & Ej & Hlen & Hnd & Hall & Hf' & Ha' & Hd' & Hend);
    [done|done|lia|cbn [store w1]; lia|].
  exists r, w', (key :: vs). cbn [store journal w1] in *.
  assert (key ∉ vs) as Hkey.
  { intros Hin. rewrite Forall_forall in Hall. destruct (Hall key Hin) as [e' [Hfe _]].
    by rewrite Hf1, decide_True in Hfe. }
  split; [done|]. split; [done|]. split.
  { rewrite Ej, del_records_cons. destruct has_journal; [by rewrite <-app_assoc|done]. }
  split; [cbn; lia|]. split; [by constructor|]. split.
  { constructor; [by exists e|]. eapply Forall_impl; [exact Hall|]. intros k [e' [Hfk Hsk]]. exists e'.
    split; [|unfold is_tiered in *; by rewrite Hd1 in Hsk; rewrite Hd].
    rewrite Hf1 in Hfk. by destruct (decide (k = key)). }
  split.
  { intros k. rewrite Hf', Hf1. destruct (decide (k ∈ vs)), (decide (k = key)), (decide (k ∈ key :: vs));
      try done; set_solver. }
  split; [done|]. split; [done|]. cbn [length]. by rewrite Nat.add_succ_r.
Qed.

(** ** Evictions in tiered mode are moves *)

(** The cold tier holds the maps [ms], shard by shard. *)
Definition cold_tier (s : Store) (ms : list (gmap bytes Disk.cold)) : Prop :=
  exists ds, disk_shards s = Some ds /\ ds <> [] /\ Forall2 (Disk.refines hll_count) ds ms.

(** The map that holds a key. *)
Definition cold_map (ms : list (gmap bytes Disk.cold)) (k : bytes) : gmap bytes Disk.cold :=
  default ∅ (ms !! Z.to_nat (fx_hash k mod zlen ms)).

Lemma cold_tier_at s ms k :
  cold_tier s ms -> exists d, disk_at s k = Some d /\ Disk.refines hll_count d (cold_map ms k).
Proof.
  intros (ds & Hd & Hne & Hr). pose proof (Forall2_length _ _ _ Hr) as Hlen.
  unfold disk_at, disk_shard_index, cold_map. rewrite Hd. cbn [mbind option_bind]. unfold zlen. rewrite Hlen.
  assert (Z.to_nat (fx_hash k mod Z.of_nat (length ms)) < length ds)%nat as Hi.
  { destruct ds; [done|]. cbn [length] in Hlen.
    pose proof (Z.mod_pos_bound (fx_hash k) (Z.of_nat (length ms)) ltac:(lia)). cbn [length]. lia. }
  destruct (lookup_lt_is_Some_2 _ _ Hi) as [d Ed]. exists d. split; [done|].
  eapply Forall2_lookup_l in Hr as (m & Em & Hm); [|exact Ed]. by rewrite Em.
Qed.

Definition set_cold (ms : list (gmap bytes Disk.cold)) (k : bytes) (c : Disk.cold) : list (gmap bytes Disk.cold) :=
  <[Z.to_nat (fx_hash k mod zlen ms) := <[k := c]> (cold_map ms k)]> ms.

Lemma cold_tier_evict s s1 ms k e c d' :
  cold_tier s ms -> s1 = bump k (remove_accounted k e (with_disk k d' s)) ->
  Disk.refines hll_count d' (<[k := c]> (cold_map ms k)) -> cold_tier s1 (set_cold ms k c).
Proof.
  intros (ds & Hd & Hne & Hr) -> Hd'. exists (<[disk_shard_index s k := d']> ds). split; [|split].
  - rewrite disk_remove_bump. unfold with_disk. by rewrite Hd.
  - intros E. apply Hne. apply nil_length_inv. by rewrite <-(length_insert ds (disk_shard_index s k) d'), E.
  - unfold set_cold, disk_shard_index. rewrite Hd. unfold zlen. rewrite (Forall2_length _ _ _ Hr).
    by apply Forall2_insert.
Qed.

Lemma cold_map_set ms k c k' :
  (Z.to_nat (fx_hash k mod zlen ms) < length ms)%nat ->
  cold_map (set_cold ms k c) k' !! k' = if decide (k' = k) then Some c else cold_map ms k' !! k'.
Proof.
  intros Hi. unfold cold_map at 1, set_cold. unfold zlen. rewrite length_insert.
  fold (zlen ms). destruct (decide (k' = k)) as [->|Hne].
  - by rewrite list_lookup_insert_eq; [cbn; rewrite lookup_insert_eq|].
  - destruct (decide (Z.to_nat (fx_hash k mod zlen ms) = Z.to_nat (fx_hash k' mod zlen ms))) as [E|E].
    + rewrite <-E, list_lookup_insert_eq by done. cbn. rewrite lookup_insert_ne by done.
      unfold cold_map. by rewrite E.
    + by rewrite list_lookup_insert_ne.
Qed.

(** Every candidate can be written to the cold tier at the clock of every round. *)
Definition all_evictable (rounds : nat -> Round) (s : Store) : Prop :=
  forall k e i, find s k = Some e -> is_vector (value e) = false ->
    is_utf8 k = true /\ evictable k e (clock (rounds i)).

(** How a run in tiered mode ends: within the limit, or with nothing left to move. *)
Definition tiered_end (cfg : EvictionConfig) (w : World) : Prop :=
  used_memory (store w) <= max_memory cfg \/ victim_of cfg (store w) = None.

(** A key that was hot is hot with the same entry, or cold with that entry's dump. *)
Definition moved_to_cold (rounds : nat -> Round) (s s' : Store) (ms : list (gmap bytes Disk.cold)) : Prop :=
  forall k, find s' k = find s k \/
    exists e i, find s k = Some e /\ find s' k = None /\
      cold_map ms k !! k = Some (cold_of hll_count e (clock (rounds i))).

Lemma tiered_loop cfg rounds fuel : forall i w ms,
  nonempty (store w) -> placed (store w) -> cold_tier (store w) ms ->
  (forall j, disk_write (rounds j) = None) -> all_evictable rounds (store w) ->
  total_keys (store w) < Z.of_nat fuel ->
  exists w' ms', evict_loop fuel cfg rounds i w = Some (Ok tt, w') /\ journal w' = journal w /\
    cold_tier (store w') ms' /\ nonempty (store w') /\ placed (store w') /\
    moved_to_cold rounds (store w) (store w') ms' /\
    (forall k, find (store w) k = None -> cold_map ms' k !! k = cold_map ms k !! k) /\
    tiered_end cfg w'.
Proof.
  induction fuel as [|fuel IH]; intros i w ms Hn Hp Hct Hw Hev Hk.
  { pose proof (total_keys_nonneg (store w)). lia. }
  assert (is_tiered (store w) = true) as Ht.
  { unfold is_tiered. destruct Hct as (ds & -> & _). by apply bool_decide_eq_true_2. }
  assert (tiered_end cfg w -> exists w' ms', Some (Ok tt, w) = Some (Ok tt, w') /\ journal w' = journal w /\
    cold_tier (store w') ms' /\ nonempty (store w') /\ placed (store w') /\
    moved_to_cold rounds (store w) (store w') ms' /\
    (forall k, find (store w) k = None -> cold_map ms' k !! k = cold_map ms k !! k) /\
    tiered_end cfg w') as Hstop.
  { intros He. exists w, ms. split_and!; try done. intros k. by left. }
  cbn [evict_loop]. destruct (Z.leb_spec (used_memory (store w)) (max_memory cfg)) as [Hle|Hgt].
  { apply Hstop. by left. }
  rewrite Ht. cbn [negb andb]. rewrite evict_once_victim.
  destruct (victim_of cfg (store w)) as [key|] eqn:Ev; cbn [evict_victim].
  2: { rewrite Ht. apply Hstop. by right. }
  destruct (victim_candidate cfg (store w) key Hp Ev) as [e Hc]. pose proof Hc as [Hf _].
  pose proof (candidate_not_vector _ _ _ _ Hc) as Hv. destruct (Hev key e i Hf Hv) as [Hu Hok].
  destruct (cold_tier_at (store w) ms key Hct) as (d & Hd & Hr).
  unfold evict_selected_key. rewrite Ht, Hw.
  destruct (evict_ok hll_count (store w) key e d (cold_map ms key) (compacting (rounds i)) (clock (rounds i))
    Hn Hf Hd Hr) as (d' & s1 & -> & _ & Hr1 & Hn1 & Es1 & Hf1); [by rewrite key_string_utf8|].
  rewrite key_string_utf8 in Hr1 by done.
  pose proof (cold_tier_evict _ _ _ _ _ _ _ Hct Es1 Hr1) as Hct1.
  assert (find (with_disk key d' (store w)) key = Some e) as Hfd by (by rewrite find_with_disk).
  destruct (keys_after_evict key e (with_disk key d' (store w)) ltac:(by autorewrite with lux) Hfd) as [Hk1 _].
  rewrite <-Es1 in Hk1. assert (total_keys (with_disk key d' (store w)) = total_keys (store w)) as Ekd.
  { unfold with_disk. by destruct (disk_shards (store w)). }
  assert (placed s1) as Hp1.
  { rewrite Es1. intros j sh k. revert j sh k. apply (placed_with_shard key); [auto|].
    apply (placed_with_shard key); [auto|]. apply (placed_drop key). unfold with_disk.
    by destruct (disk_shards (store w)). }
  destruct (IH (S i) (mkWorld s1 (journal w)) (set_cold ms key (cold_of hll_count e (clock (rounds i)))))
    as (w' & ms' & E & Ej & Hct' & Hn' & Hp' & Hmv & Hkeep & Hend); [done|done|done|done| |cbn [store]; lia|].
  { intros k e' j Hk'. cbn [store] in Hk'. rewrite Hf1 in Hk'. destruct (decide (k = key)); [done|]. by apply Hev. }
  exists w', ms'. cbn [store journal] in *. split; [done|]. split; [done|]. split; [done|]. split; [done|].
  split; [done|].
  assert (forall k, cold_map (set_cold ms key (cold_of hll_count e (clock (rounds i)))) k !! k =
    if decide (k = key) then Some (cold_of hll_count e (clock (rounds i))) else cold_map ms k !! k) as Hset.
  { intros k. apply cold_map_set. destruct Hct as (ds & _ & Hne & Hall%Forall2_length).
    destruct ds; [done|]. cbn [length] in Hall. unfold zlen.
    pose proof (Z.mod_pos_bound (fx_hash key) (Z.of_nat (length ms)) ltac:(lia)). lia. }
  split; [|split; [|done]].
  - intros k. destruct (decide (k = key)) as [->|Hne].
    + right. exists e, i. split; [done|]. assert (find s1 key = None) as Hnone by (by rewrite Hf1, decide_True).
      split; [|by rewrite Hkeep, Hset, decide_True].
      destruct (Hmv key) as [->|(e' & j & He' & _)]; [done|]. by rewrite Hnone in He'.
    + destruct (Hmv k) as [->|(e' & j & He' & Hn'' & Hcm)].
      * left. by rewrite Hf1, decide_False.
      * right. exists e', j. by rewrite Hf1, decide_False in He'.
  - intros k Hk'. rewrite Hkeep, Hset.
    + rewrite decide_False; [done|]. intros ->. by rewrite Hf in Hk'.
    + rewrite Hf1. by destruct (decide (k = key)).
Qed.

End Victims.

End Eviction.

(** ** Theorems *)

(** C10. Memory mode: eviction is a journaled sequence of deletes. [evict_if_needed] always returns.
    The keys it evicted are distinct, at most 128, each one that the policy allowed (an expiry for
    the volatile policies, no vector, no storage key of a table); the store is exactly what deleting
    them in order gives, so replaying the journal, which got one DEL per victim in that order, makes
    the same evictions; the metrics stay exact. When it succeeds memory is within the limit (or
    eviction is off, or the journal is being replayed); when it fails memory is still over the limit
    and either the journal refused a record, or it evicted 128 keys, or no candidate is left. *)
Theorem memory_eviction_exact (hll_count : bytes -> Z) (order : gmap bytes Entry -> list (bytes * Entry))
    (has_journal : bool) (cfg : EvictionConfig) (replaying : bool) (rounds : nat -> Round) (w : World)
    (now : Z) :
  (forall m, order m ≡ₚ map_to_list m) -> accounted (store w) -> disk_shards (store w) = None ->
  (is_lru (policy cfg) = true -> 0 < sample_size cfg /\ clocks_ok (store w)) ->
  exists r w' victims,
    evict_if_needed hll_count order has_journal cfg replaying rounds w = Some (r, w') /\
    store w' = replay now victims (store w) /\
    journal w' = journal w ++ (if has_journal then (fun k => [bs "DEL"; k]) <$> victims else []) /\
    NoDup victims /\ (length victims <= 128)%nat /\
    Forall (fun k => exists e, candidate cfg (store w) k e) victims /\ accounted (store w') /\
    match r with
    | Ok _ => eviction_enabled cfg = false \/ replaying = true \/ used_memory (store w') <= max_memory cfg
    | Err m => max_memory cfg < used_memory (store w') /\
        (m = "ERR WAL append failed"%string \/
         m = OOM /\ (length victims = 128%nat \/ policy cfg = NoEviction \/
                     forall k e, ~ candidate cfg (store w') k e))
    end.
Proof.
  intros Hord Ha Hd Hlru.
  destruct (decide (eviction_enabled cfg = false \/ replaying = true)) as [Hoff|Hon].
  { exists (Ok tt), w, []. split; [|split; [done|]].
    { unfold evict_if_needed. destruct Hoff as [->| ->]; [done|]. by destruct (eviction_enabled cfg). }
    split; [by destruct has_journal; rewrite app_nil_r|]. split; [apply NoDup_nil_2|].
    split; [cbn; lia|]. split; [apply Forall_nil_2|]. split; [done|]. destruct Hoff; auto. }
  assert (eviction_enabled cfg = true /\ replaying = false) as [Een ->]
    by (destruct (eviction_enabled cfg), replaying; naive_solver).
  unfold evict_if_needed. rewrite Een. cbn [negb].
  pose proof (total_keys_nonneg (store w)) as Hnn.
  destruct (memory_loop hll_count order has_journal Hord now cfg rounds (S (Z.to_nat (total_keys (store w)))) 0 w
    Ha Hd ltac:(lia) ltac:(lia))
    as (r & w' & vs & E & Es & Ej & Hlen & Hnd & Hall & Hf & Ha' & Hd' & Hend).
  exists r, w', vs. split; [done|]. split; [done|]. split; [done|]. split; [done|]. split; [done|].
  split; [done|]. split; [done|]. destruct r as [[]|m]; cbn [memory_end] in Hend; [auto|].
  destruct Hend as [Hgt [Hm|[-> Hor]]]; split; [done|by left|done|]. right. split; [done|].
  destruct Hor as [Hl|Hv]; [by left|]. right.
  destruct (decide (policy cfg = NoEviction)) as [|Hpol]; [by left|]. right. intros k e.
  apply (no_victim hll_count order Hord); try done; [apply Ha'| |apply Ha'].
  intros Hl. destruct (Hlru Hl) as [? Hc]. split; [done|]. intros k' e' Hk'. rewrite Hf in Hk'.
  destruct (decide (k' ∈ vs)); [done|]. by eapply Hc.
Qed.

(** Tiered mode: eviction loses nothing. When disk writes succeed and the entries can be
    written, [evict_if_needed] returns without an error and without touching the journal; every key
    is hot with the same entry as before, or was moved to the cold tier, which now holds that
    entry's dump; and it stops only within the limit or with nothing left to move. *)
Theorem tiered_eviction_keeps (hll_count : bytes -> Z) (order : gmap bytes Entry -> list (bytes * Entry))
    (has_journal : bool) (cfg : EvictionConfig) (rounds : nat -> Round) (w : World)
    (ms : list (gmap bytes Disk.cold)) :
  (forall m, order m ≡ₚ map_to_list m) -> nonempty (store w) -> placed (store w) ->
  cold_tier hll_count (store w) ms -> (forall j, disk_write (rounds j) = None) ->
  all_evictable rounds (store w) -> eviction_enabled cfg = true ->
  exists w' ms', evict_if_needed hll_count order has_journal cfg false rounds w = Some (Ok tt, w') /\
    journal w' = journal w /\ cold_tier hll_count (store w') ms' /\
    moved_to_cold hll_count rounds (store w) (store w') ms' /\ tiered_end order cfg w'.
Proof.
  intros Hord Hn Hp Hct Hw Hev Hen. unfold evict_if_needed. rewrite Hen. cbn [negb].
  pose proof (total_keys_nonneg (store w)) as Hnn.
  destruct (tiered_loop hll_count order has_journal Hord cfg rounds (S (Z.to_nat (total_keys (store w)))) 0 w ms
    Hn Hp Hct Hw Hev ltac:(lia)) as (w' & ms' & E & Ej & Hct' & _ & _ & Hmv & _ & Hend).
  exists w', ms'. by split_and!.
Qed.

(** The LRU policies evict the least recently used key of their sample: the victim is the first
    visited shard's, among the first [sample_size] eligible entries of which no other was used less
    recently, and the shards visited before it have no eligible entry. *)
Theorem lru_picks_least (order : gmap bytes Entry -> list (bytes * Entry)) (size : Z) (volatile : bool)
    (s : Store) (k : bytes) :
  (forall m, order m ≡ₚ map_to_list m) -> placed s -> lru_victim order size volatile s = Some k ->
  exists e l1 l2, find s k = Some e /\ shard_order s = l1 ++ shard_index s k :: l2 /\
    (forall k' e', find s k' = Some e' -> shard_index s k' ∈ l1 ->
       skipped (negb (is_tiered s)) volatile k' e' = true) /\
    Forall (fun p => e_lru_clock e <= e_lru_clock p.2)
      (take (Z.to_nat size) (eligible (negb (is_tiered s)) volatile (order (data (shard_at s (shard_index s k)))))).
Proof.
  intros Hord Hp E. unfold lru_victim in E.
  pose proof (lru_shards_spec order Hord size (negb (is_tiered s)) volatile s (shard_order s)) as H.
  rewrite E in H. destruct H as (i & e & l1 & l2 & Ho & Hl1 & Hin & Hmin).
  assert (Hsub := subseteq_take _ _ _ Hin). apply elem_of_eligible in Hsub as [Hk Hs].
  assert (i < length (shards s))%nat as Hi by (apply shard_order_bound; rewrite Ho; set_solver).
  apply (entry_in_order order Hord s i) in Hk as [Hf <-]; [|done..].
  exists e, l1, l2. split; [done|]. split; [done|]. split; [|done].
  intros k' e' Hf' Hi'. rewrite Forall_forall in Hl1. specialize (Hl1 _ Hi').
  destruct (skipped (negb (is_tiered s)) volatile k' e') eqn:Es; [done|]. exfalso.
  assert ((k', e') ∈ eligible (negb (is_tiered s)) volatile (order (data (shard_at s (shard_index s k'))))) as He.
  { apply elem_of_eligible. split; [|done]. apply (entry_in_order order Hord); [done| |done].
    apply shard_order_bound. rewrite Ho. set_solver. }
  destruct (eligible _ _ _) as [|p l]; [by apply not_elem_of_nil in He|].
  destruct (Z.to_nat size) eqn:Ez; [|done]. cbn in Hin. by apply not_elem_of_nil in Hin.
Qed.

(** ** Witnesses *)

(** A store of two shards with two strings, one of them with an expiry. *)
Definition sample_store : Store :=
  insert_accounted (bs "b") (mkEntry (VStr (bs "2")) (Some 5) 1)
    (insert_accounted (bs "a") (mkEntry (VStr (bs "1")) None 2) (new 2)).

Definition sample_round : nat -> Round := fun _ => mkRound 0 None false true.

Lemma sample_accounted : accounted sample_store.
Proof.
  assert (accounted (new 2)) as H0.
  { split; [vm_compute; lia| |reflexivity|reflexivity].
    intros i sh k Hi [e He]. cbn [shards new] in Hi. apply lookup_replicate in Hi as [-> _].
    cbn [data empty_shard] in He. by rewrite lookup_empty in He. }
  apply accounted_insert; [apply accounted_insert; [done|]|].
  all: split; vm_compute; discriminate.
Qed.

Lemma sample_find k e : find sample_store k = Some e -> k ∈ [bs "a"; bs "b"].
Proof.
  unfold sample_store. rewrite !find_insert_accounted by (autorewrite with lux; vm_compute; lia).
  destruct (decide (k = bs "b")), (decide (k = bs "a")); try set_solver. unfold find.
  assert (data (shard_at (new 2) (shard_index (new 2) k)) = ∅) as ->; [|by rewrite lookup_empty].
  unfold shard_at. cbn [shards new]. by destruct (replicate 2 empty_shard !! _) as [sh|] eqn:E;
    [apply lookup_replicate in E as [-> _]|].
Qed.

Lemma memory_eviction_exact_witness :
  exists r w' victims,
    evict_if_needed (fun _ => 0) map_to_list true (mkConfig 50 VolatileLru 5) false sample_round
      (mkWorld sample_store []) = Some (r, w') /\
    store w' = replay 0 victims sample_store /\
    journal w' = [] ++ ((fun k => [bs "DEL"; k]) <$> victims) /\
    NoDup victims /\ (length victims <= 128)%nat /\
    Forall (fun k => exists e, candidate (mkConfig 50 VolatileLru 5) sample_store k e) victims /\
    accounted (store w') /\
    match r with
    | Ok _ => eviction_enabled (mkConfig 50 VolatileLru 5) = false \/ false = true \/
              used_memory (store w') <= 50
    | Err m => 50 < used_memory (store w') /\
        (m = "ERR WAL append failed"%string \/
         m = OOM /\ (length victims = 128%nat \/ VolatileLru = NoEviction \/
                     forall k e, ~ candidate (mkConfig 50 VolatileLru 5) (store w') k e))
    end.
Proof.
  apply (memory_eviction_exact (fun _ => 0) map_to_list true (mkConfig 50 VolatileLru 5) false sample_round
    (mkWorld sample_store []) 0).
  - done.
  - exact sample_accounted.
  - reflexivity.
  - intros _. split; [reflexivity|]. intros k e Hk. pose proof (sample_find k e Hk) as Hin.
    apply elem_of_cons in Hin as [->|[->|[]%not_elem_of_nil]%elem_of_cons];
      vm_compute in Hk; injection Hk as <-; reflexivity.
Defined.

(** The run of the witness: it evicts the key with an expiry and then fails, for the other one may
    not be evicted. *)
Example memory_run :
  evict_if_needed (fun _ => 0) map_to_list true (mkConfig 50 VolatileLru 5) false sample_round
    (mkWorld sample_store []) =
  Some (Err OOM, mkWorld (replay 0 [bs "b"] sample_store) [[bs "DEL"; bs "b"]]).
Proof. vm_compute. reflexivity. Qed.

Definition tiered_sample : Store := sample (bs "k") (Some 50000000).

Lemma tiered_eviction_keeps_witness :
  exists w' ms', evict_if_needed (fun _ => 0) map_to_list true (mkConfig 1 AllKeysRandom 5) false sample_round
      (mkWorld (set_used 500 tiered_sample) []) = Some (Ok tt, w') /\
    journal w' = [] /\ cold_tier (fun _ => 0) (store w') ms' /\
    moved_to_cold (fun _ => 0) sample_round (set_used 500 tiered_sample) (store w') ms' /\
    tiered_end map_to_list (mkConfig 1 AllKeysRandom 5) w'.
Proof.
  apply (tiered_eviction_keeps (fun _ => 0) map_to_list true (mkConfig 1 AllKeysRandom 5) sample_round
    (mkWorld (set_used 500 tiered_sample) []) [∅]); try done.
  - vm_compute. lia.
  - intros i sh k Hi _. destruct i as [|i]; [|done]. unfold shard_index. cbn. by rewrite Z.mod_1_r.
  - exists [Disk.create]. split; [done|]. split; [done|]. constructor; [apply Disk.create_refines|constructor].
  - intros k e i Hk Hv. cbn [store] in Hk. change (find (set_used 500 tiered_sample) k) with (find tiered_sample k) in Hk.
    unfold tiered_sample, sample in Hk. rewrite find_put_data in Hk by (vm_compute; lia).
    destruct (decide (k = bs "k")) as [->|]; [|unfold find, shard_index in Hk; cbn in Hk;
      rewrite Z.mod_1_r in Hk; by vm_compute in Hk].
    injection Hk as <-. split; [reflexivity|].
    apply sample_evictable; [|reflexivity|reflexivity|vm_compute; discriminate].
    split; [split; reflexivity|]. split; [vm_compute; split; discriminate|reflexivity].
Defined.

Lemma lru_picks_least_witness :
  exists e l1 l2, find sample_store (bs "b") = Some e /\ shard_order sample_store = l1 ++ shard_index sample_store (bs "b") :: l2 /\
    (forall k' e', find sample_store k' = Some e' -> shard_index sample_store k' ∈ l1 ->
       skipped (negb (is_tiered sample_store)) true k' e' = true) /\
    Forall (fun p => e_lru_clock e <= e_lru_clock p.2)
      (take (Z.to_nat 5) (eligible (negb (is_tiered sample_store)) true
         (map_to_list (data (shard_at sample_store (shard_index sample_store (bs "b"))))))).
Proof.
  apply (lru_picks_least map_to_list 5 true sample_store (bs "b")).
  - done.
  - apply sample_accounted.
  - vm_compute. reflexivity.
Defined.

End Eviction.
