(* ===== verification/Keyspace.v ===== *)
(** * Metrics, versions and bounds of the string commands

    Theorems about the operations of [Strings] beyond their answers: the key and memory counters
    of the store, the shard versions that WATCH relies on, and the arithmetic of ranges and
    cursors at the ends of the integer types. *)

From S2P Require Import Prelude.
From S2P Require Import Glob.
From S2P Require Import Codec.
From S2P Require Import Disk.
From S2P Require Import Values.
From S2P Require Import Store.
From S2P Require Import Strings.
Local Open Scope Z_scope.

Module Keyspace.
Import Values.Values Store.Store Strings.Strings.

(** ** Versions *)

Definition shard_version (s : Store) (idx : nat) : Z := version (shard_at s idx).

(** Going from [s] to [s'], the version of every shard whose map changed has been advanced, by at
    most [n] steps; a shard whose version was not advanced has the map it had. *)
Definition tracked (n : Z) (s s' : Store) : Prop :=
  length (shards s') = length (shards s) /\
  forall i, (i < length (shards s))%nat ->
    (version (shard_at s' i) = version (shard_at s i) /\ data (shard_at s' i) = data (shard_at s i)) \/
    exists j, 1 <= j <= n /\ version (shard_at s' i) = as_u64 (version (shard_at s i) + j).

Lemma tracked_refl n s : tracked n s s.
Proof. split; [done|]. by left. Qed.

Lemma tracked_trans n m s s1 s2 : 0 <= n -> 0 <= m -> tracked n s s1 -> tracked m s1 s2 -> tracked (n + m) s s2.
Proof.
  intros Hn Hm [L1 T1] [L2 T2]. split; [congruence|]. intros i Hi.
  destruct (T1 i Hi) as [[V1 D1]|(j & Hj & V1)], (T2 i ltac:(congruence)) as [[V2 D2]|(j' & Hj' & V2)].
  - left. split; congruence.
  - right. exists j'. split; [lia|]. congruence.
  - right. exists j. split; [lia|]. congruence.
  - right. exists (j + j'). split; [lia|]. rewrite V2, V1. unfold as_u64.
    rewrite Zplus_mod_idemp_l. f_equal. lia.
Qed.

Lemma tracked_weaken n m s s' : n <= m -> tracked n s s' -> tracked m s s'.
Proof.
  intros Hle [L T]. split; [done|]. intros i Hi. destruct (T i Hi) as [?|(j & ? & ?)]; [by left|].
  right. exists j. split; [lia|done].
Qed.

(** The basis of WATCH: over fewer than 2^64 steps, an unchanged version means an unchanged shard. *)
Lemma tracked_find n s s' k :
  tracked n s s' -> n < u64_mod -> nonempty s ->
  0 <= shard_version s (shard_index s k) < u64_mod ->
  shard_version s' (shard_index s k) = shard_version s (shard_index s k) ->
  find s' k = find s k.
Proof.
  intros [L T] Hn Hne Hv Hsame. unfold find. rewrite (shard_index_length s s' k L).
  destruct (T _ (shard_index_lt s k Hne)) as [[_ D]|(j & Hj & V)]; [by rewrite D|].
  exfalso. unfold shard_version in *. rewrite Hsame in V. unfold as_u64 in V.
  destruct (Z.lt_ge_cases (version (shard_at s (shard_index s k)) + j) u64_mod).
  - rewrite Z.mod_small in V; lia.
  - rewrite <-(Z.mod_add _ (-1)) in V by done. rewrite Z.mod_small in V; lia.
Qed.

(** [s'] differs from [s] in nothing that [tracked] looks at. *)
Lemma tracked_shards n s s1 s2 : shards s2 = shards s1 -> tracked n s s1 -> tracked n s s2.
Proof. unfold tracked, shard_at. by intros ->. Qed.

(** A change of the shard of [key] that advances its version. *)
Lemma tracked_change key f s :
  nonempty s -> (forall sh, version (f sh) = as_u64 (version sh + 1)) ->
  tracked 1 s (with_shard (shard_index s key) f s).
Proof.
  intros Hn Hf. split; [apply length_with_shard|]. intros i Hi.
  destruct (decide (shard_index s key = i)) as [<-|].
  - right. exists 1. split; [lia|]. by rewrite shard_at_with_shard_eq, Hf.
  - left. by rewrite shard_at_with_shard_ne.
Qed.

(** Changes of the shard of [key] after (or before) its bump. *)
Definition same_shard (key : bytes) (s s' : Store) : Prop :=
  exists f, (forall sh, version (f sh) = version sh) /\
    shards s' = alter f (shard_index s key) (shards s).

Lemma same_shard_refl key s : same_shard key s s.
Proof. exists id. split; [done|]. symmetry. by apply list_alter_id. Qed.

Lemma alter_alter {A} (f g : A -> A) i (l : list A) : alter g i (alter f i l) = alter (g ∘ f) i l.
Proof. revert i. induction l as [|x l IH]; intros [|i]; cbn; [done..|]. f_equal. apply IH. Qed.

Lemma same_shard_trans key s s1 s2 : same_shard key s s1 -> same_shard key s1 s2 -> same_shard key s s2.
Proof.
  intros (f & Hf & E1) (g & Hg & E2). exists (g ∘ f). split; [intros; cbn; by rewrite Hg|].
  rewrite E2, (shard_index_length s s1) by (by rewrite E1, length_alter).
  by rewrite E1, alter_alter.
Qed.

Lemma same_shard_length key s s' : same_shard key s s' -> length (shards s') = length (shards s).
Proof. intros (f & _ & ->). apply length_alter. Qed.

Lemma tracked_bump_same key s s' :
  nonempty s -> same_shard key (bump key s) s' -> tracked 1 s s'.
Proof.
  intros Hn (f & Hf & E). eapply (tracked_shards _ _ (with_shard (shard_index s key)
    (fun sh => f (mkShard (data sh) (as_u64 (version sh + 1)) (shard_memory sh))) s)).
  - rewrite E. unfold bump. rewrite shard_index_with_shard. cbn. by rewrite alter_alter.
  - apply tracked_change; [done|]. intros sh. by rewrite Hf.
Qed.

Lemma tracked_same_bump key s s1 s' :
  nonempty s -> same_shard key s s1 -> shards s' = shards (bump key s1) -> tracked 1 s s'.
Proof.
  intros Hn (f & Hf & E) E'. eapply (tracked_shards _ _ (with_shard (shard_index s key)
    (fun sh => mkShard (data (f sh)) (as_u64 (version (f sh) + 1)) (shard_memory (f sh))) s)).
  - rewrite E'. unfold bump. cbn. rewrite E, (shard_index_length s s1) by (by rewrite E, length_alter).
    by rewrite alter_alter.
  - apply tracked_change; [done|]. intros sh. cbn. by rewrite Hf.
Qed.

Lemma same_put key e s : same_shard key s (put_data key e s).
Proof. eexists. split; [|reflexivity]. done. Qed.
Lemma same_drop key s : same_shard key s (drop_data key s).
Proof. eexists. split; [|reflexivity]. done. Qed.
Lemma same_insert key e s : same_shard key s (insert_accounted key e s).
Proof.
  unfold insert_accounted, mem_replace. destruct (find s key); [destruct (_ >=? _)|]; apply same_put.
Qed.
Lemma same_mem_sub key a s : same_shard key s (shard_mem_sub key a s).
Proof. eexists. split; [|reflexivity]. done. Qed.
Lemma same_remove key e s : same_shard key s (remove_accounted key e s).
Proof.
  eapply same_shard_trans; [apply (same_drop key)|].
  apply (same_mem_sub key (estimate_entry_memory key (value e)) (key_removed (drop_data key s))).
Qed.

#[export] Hint Resolve same_shard_refl same_put same_drop same_insert same_remove : lux.

Definition cost (s : Store) (c : cmd) : Z :=
  match c with
  | Del ks => zlen ks
  | MSetNx ps => zlen ps
  | Rename _ _ => 2
  | Sweep _ => 20 * zlen (shards s)
  | FlushDb => zlen (shards s)
  | _ => 1
  end.

Lemma tracked_nonempty n s s' : tracked n s s' -> nonempty s -> nonempty s'.
Proof. intros [L _]. unfold nonempty. by rewrite L. Qed.

(** A loop of tracked steps. *)
Lemma tracked_foldl {A B} (f : A -> B -> A) (st : A -> Store) (n : Z) l :
  0 <= n -> (forall a b, nonempty (st a) -> tracked n (st a) (st (f a b))) ->
  forall a, nonempty (st a) -> tracked (n * zlen l) (st a) (st (foldl f a l)).
Proof.
  intros Hn0 Hf. induction l as [|b l IH]; intros a Hn; cbn [foldl]; [apply tracked_refl|].
  rewrite zlen_cons. replace (n * (1 + zlen l)) with (n + n * zlen l) by lia.
  pose proof (zlen_nonneg l). eapply tracked_trans; [done|nia|by apply Hf|].
  apply IH. by eapply tracked_nonempty; [apply Hf|].
Qed.

Lemma tracked_remove_vector n s s' key d : tracked n s s' -> tracked n s (remove_vector_indexes key d s').
Proof.
  apply tracked_shards. unfold remove_vector_indexes.
  by destruct (parse_table_vector_key key) as [[[]]|].
Qed.

Lemma tracked_set k v t now s s' :
  hot s -> set k v t now s = Returned s' -> tracked 1 s s'.
Proof.
  intros [Hn Hd]. unfold set, set_on_shard. destruct (deadline t now); [|done].
  cbn [mbind outcome_bind]. intros [= <-].
  rewrite hot_remove_from_disk by (by rewrite disk_insert_accounted).
  eapply tracked_bump_same; [done|apply same_insert].
Qed.

Lemma hot_set k v t now s s' : hot s -> set k v t now s = Returned s' -> hot s'.
Proof.
  intros Hh. unfold set, set_on_shard. destruct (deadline t now); [|done].
  cbn [mbind outcome_bind]. intros [= <-].
  rewrite hot_remove_from_disk by (rewrite disk_insert_accounted; apply Hh).
  by apply hot_insert, hot_bump.
Qed.

Lemma tracked_set_all now ps : forall s s',
  hot s -> set_all ps now s = Returned s' -> tracked (zlen ps) s s'.
Proof.
  induction ps as [|[k v] ps IH]; intros s s' Hh; cbn [set_all]; [intros [= <-]; apply tracked_refl|].
  destruct (set k v None now s) as [s1|] eqn:E; [|done]. cbn [mbind outcome_bind]. intros H.
  rewrite zlen_cons. eapply tracked_trans; [lia|apply zlen_nonneg|by eapply tracked_set|].
  eapply IH; [by eapply hot_set|done].
Qed.

Lemma would_set_same hc now ps : forall s,
  hot s -> (msetnx_would_set hc now ps now s).2 = s.
Proof.
  induction ps as [|[k v] ps IH]; intros s Hh; cbn [msetnx_would_set]; [done|].
  unfold get, get_checked. destruct (get_from_shard k now s); [done|].
  rewrite hot_promote by apply Hh. by apply IH.
Qed.

Lemma tracked_sweep_key now s k : nonempty s -> tracked 1 s (sweep_key now s k).
Proof.
  intros Hn. unfold sweep_key. destruct (find s k) as [e|]; [|apply tracked_refl].
  destruct (is_expired_at now e); [|apply tracked_refl].
  assert (tracked 1 s (bump k (remove_accounted k e s))) as H
    by (eapply tracked_same_bump; [done|apply same_remove|done]).
  destruct (vector_dims (value e)); [by apply tracked_remove_vector|done].
Qed.

Lemma tracked_sweep seed now s : nonempty s -> tracked (20 * zlen (shards s)) s (expire_sweep seed now s).
Proof.
  intros Hn. unfold expire_sweep.
  replace (zlen (shards s)) with (zlen (seq 0 (length (shards s)))) by (unfold zlen; by rewrite length_seq).
  apply (tracked_foldl _ id 20); [lia| |done]. intros a i Ha. cbn [id].
  pose proof (tracked_foldl (sweep_key now) id 1 (sweep_sample seed i (shard_at a i)) ltac:(lia)
    (fun a b => tracked_sweep_key now a b) a Ha) as H.
  eapply tracked_weaken; [|exact H]. unfold sweep_sample, zlen. rewrite length_take. lia.
Qed.

Lemma tracked_flush s : nonempty s -> tracked (zlen (shards s)) s (flushdb s).
Proof.
  intros Hn. eapply (tracked_shards _ _ (foldl flush_shard s (seq 0 (length (shards s))))); [done|].
  replace (zlen (shards s)) with (1 * zlen (seq 0 (length (shards s))))
    by (unfold zlen; rewrite length_seq; lia).
  apply (tracked_foldl _ id 1); [lia| |done]. intros a i Ha. split; [apply length_with_shard|].
  intros j Hj. destruct (decide (i = j)) as [->|].
  - right. exists 1. split; [lia|]. cbn [id]. unfold flush_shard.
    change (shard_at (mem_sub ?x ?y) j) with (shard_at y j). by rewrite shard_at_with_shard_eq.
  - left. cbn [id]. unfold flush_shard.
    change (shard_at (mem_sub ?x ?y) j) with (shard_at y j). by rewrite shard_at_with_shard_ne.
Qed.

Lemma tracked_del clock ks s : hot s -> tracked (zlen ks) s (del clock ks s).2.
Proof.
  intros [Hn _]. unfold del.
  pose proof (tracked_foldl (del_one clock) snd 1 ks ltac:(lia)) as H.
  destruct (foldl (del_one clock) (0, [], s) ks) as [[n vs] s'] eqn:E. cbn [snd].
  specialize (fun Hf => H Hf (0, [], s) Hn). rewrite E in H. cbn [snd] in H.
  assert (tracked (zlen ks) s s') as Ht.
  { rewrite <-(Z.mul_1_l (zlen ks)). apply H. intros [[n0 vs0] s0] k Hn0. cbn [snd] in *. unfold del_one.
    destruct (find (bump k s0) k) as [e|]; cbn [snd].
    - eapply tracked_bump_same; [done|apply same_remove].
    - assert (tracked 1 s0 (bump k s0)) as Hb by (eapply tracked_bump_same; auto with lux).
      destruct (disk_contains _ _ _); [|done]. eapply tracked_shards; [|exact Hb].
      unfold remove_from_disk, with_disk. destruct (disk_at (bump k s0) k); [|done].
      by destruct (disk_shards (bump k s0)). }
  clear H E. revert s' Ht. induction vs as [|kd vs IH]; intros s' Ht; cbn [foldl]; [done|].
  apply IH. by apply tracked_remove_vector.
Qed.

Lemma tracked_rename enc k k' now s : nonempty s -> tracked 2 s (rename enc k k' now s).2.
Proof.
  intros Hn. unfold rename. cbn zeta. destruct (match find s k with Some _ => _ | None => _ end);
    [apply tracked_refl|]. cbn [snd].
  destruct (find (bump k s) k) as [e|]; cbn [snd].
  2:{ eapply (tracked_weaken 1); [lia|]. eapply tracked_bump_same; auto with lux. }
  destruct (is_expired_at now e); cbn [snd].
  { eapply (tracked_weaken 1); [lia|]. eapply tracked_bump_same; auto with lux. }
  match goal with |- context [bump k' ?x] => set (s1 := x) end.
  assert (tracked 1 s s1) as H1.
  { eapply tracked_bump_same; [done|]. eapply same_shard_trans; [apply same_drop|].
    apply (same_mem_sub k _ (key_removed _)). }
  replace 2 with (1 + 1) by lia. eapply tracked_trans; [lia|lia|exact H1|].
  pose proof (tracked_nonempty _ _ _ H1 Hn) as Hn1.
  eapply (tracked_bump_same k'); [done|].
  eapply same_shard_trans; [apply (same_put k' e)|]. eexists.
  split; [|by destruct (bool_decide _)]. done.
Qed.

Lemma disk_del clock ks s : disk_shards s = None -> disk_shards (del clock ks s).2 = None.
Proof.
  intros Hd. unfold del.
  assert (forall l a, disk_shards a.2 = None -> disk_shards (foldl (del_one clock) a l).2 = None) as H.
  { induction l as [|k l IH]; intros [[n vs] a] Ha; cbn [foldl]; [done|]. apply IH. unfold del_one.
    rewrite hot_disk_contains by done. by destruct (find (bump k a) k). }
  specialize (H ks (0, [], s) Hd). destruct (foldl _ _ ks) as [[n vs] s']. cbn [snd] in *. clear Hd.
  revert s' H. induction vs as [|kd vs IH]; intros s' H; cbn [foldl]; [done|]. apply IH.
  by rewrite disk_remove_vector.
Qed.

Lemma disk_foldl {B} (f : Store -> B -> Store) l :
  (forall s b, disk_shards (f s b) = disk_shards s) ->
  forall s, disk_shards (foldl f s l) = disk_shards s.
Proof. intros Hf. induction l as [|b l IH]; intros s; cbn [foldl]; [done|]. by rewrite IH, Hf. Qed.

Lemma disk_sweep seed now s : disk_shards (expire_sweep seed now s) = disk_shards s.
Proof.
  unfold expire_sweep. apply disk_foldl. intros s1 i. apply disk_foldl. intros s2 k. unfold sweep_key.
  destruct (find s2 k) as [e|]; [|done]. destruct (is_expired_at now e); [|done].
  destruct (vector_dims (value e)); [by rewrite disk_remove_vector|done].
Qed.

Lemma disk_set_all now ps : forall s s',
  hot s -> set_all ps now s = Returned s' -> disk_shards s' = None.
Proof.
  induction ps as [|[k v] ps IH]; intros s s' Hh; cbn [set_all]; [intros [= <-]; apply Hh|].
  destruct (set k v None now s) as [s1|] eqn:E; [|done]. cbn [mbind outcome_bind]. intros H.
  eapply IH; [by eapply hot_set|done].
Qed.

Lemma disk_rename enc k k' now s : disk_shards (rename enc k k' now s).2 = disk_shards s.
Proof.
  unfold rename. cbn zeta. destruct (match find s k with Some _ => _ | None => _ end); [done|].
  destruct (find (bump k s) k) as [e|]; [|done]. destruct (is_expired_at now e); [done|].
  by destruct (bool_decide _).
Qed.

Section Steps.

Context (hll_count : bytes -> Z) (is_encrypted_value : bytes -> bool).

Abbreviation exec := (exec hll_count is_encrypted_value).
Abbreviation run := (run hll_count is_encrypted_value).

(** A command that writes to the shard of [k] bumps it first. *)
Ltac bumped := (split; [eapply tracked_bump_same; [eassumption|solve [auto with lux]] |
                        rewrite ?disk_insert_accounted; done]).

Lemma exec_tracked now c s r s' :
  hot s -> exec now c s = Returned (r, s') -> tracked (cost s c) s s' /\ disk_shards s' = None.
Proof.
  intros Hh. pose proof Hh as [Hn Hd]. pose proof (tracked_refl 1 s) as Hrefl.
  destruct c; cbn [exec Strings.exec cost].
  - unfold get_checked. rewrite hot_promote by done. intros E.
    destruct (get_from_shard key now s); by simplify_eq/=.
  - unfold get_entry_type. rewrite hot_promote by done. intros E.
    destruct (entry_type_from_shard key now s); by simplify_eq/=.
  - intros [= <- <-]. done.
  - intros [= <- <-]. done.
  - intros [= <- <-]. done.
  - intros [= <- <-]. done.
  - destruct (set key val ttl0 now s) as [s1|] eqn:E; [|done]. intros [= <- <-].
    split; [by eapply tracked_set|]. by eapply hot_set.
  - unfold set_nx, set_nx_on_shard. destruct (find (bump key s) key) as [e|];
      [destruct (is_expired_at now e); cbn [negb]|]; intros [= <- <-]; bumped.
  - unfold get_set, get_set_on_shard. intros [= <- <-]. bumped.
  - unfold append, append_on_shard. destruct (find (bump key s) key) as [e|]; [|intros [= <- <-]; bumped].
    destruct (is_expired_at now e); cbn [negb]; [intros [= <- <-]; bumped|].
    destruct (value e); intros [= <- <-]; (split; [|rewrite ?disk_insert_accounted; done]);
      (eapply tracked_bump_same; [done|first [apply same_insert|apply (same_put key _ (mem_add _ _))]]).
  - unfold incr. rewrite hot_promote by done.
    destruct (match find (bump key s) key with Some _ => _ | None => _ end) as [[n x]|e];
      [destruct (i64_checked (n + delta))|]; intros [= <- <-]; bumped.
  - pose proof (tracked_del now keys0 s Hh) as H. pose proof (disk_del now keys0 s Hd) as H'.
    destruct (del now keys0 s). by intros [= <- <-].
  - unfold delifeq. destruct (find s key) as [e|]; [|by intros [= <- <-]].
    rewrite (hot_remove_from_disk key (remove_accounted key e (bump key s))) by done.
    destruct (is_expired_at now e); [intros [= <- <-]; bumped|].
    destruct (string_bytes (value e)); [|by intros [= <- <-]].
    destruct (bytes_eqb _ _); intros [= <- <-]; [bumped|done].
  - unfold getdel. destruct (find (bump key s) key) as [e|]; [|intros [= <- <-]; bumped].
    destruct (is_expired_at now e); [intros [= <- <-]; bumped|].
    destruct (string_bytes (value e)); intros [= <- <-]; bumped.
  - unfold pexpire. destruct (find (bump key s) key) as [e|]; [|intros [= <- <-]; bumped].
    destruct (is_expired_at now e); cbn [negb]; [intros [= <- <-]; bumped|].
    destruct (instant_add _ _); [|done]. intros [= <- <-]. bumped.
  - unfold persist. destruct (find s key) as [e|]; [|by intros [= <- <-]].
    destruct (_ && _); intros [= <- <-]; [|done]. split; [|done].
    by eapply tracked_same_bump; [|apply same_put|].
  - unfold getex. destruct (find (bump key s) key) as [e|]; [|intros [= <- <-]; bumped].
    destruct (is_expired_at now e); cbn [negb]; [intros [= <- <-]; bumped|].
    destruct (if persist0 then _ else _); [|done]. intros [= <- <-]. bumped.
  - unfold msetnx. pose proof (would_set_same hll_count now pairs s Hh) as Hs.
    destruct (msetnx_would_set hll_count now pairs now s) as [ok s1]. cbn [snd] in Hs. subst s1.
    destruct ok; cbn [negb]; [|intros [= <- <-]; split; [apply tracked_refl|done]].
    destruct (set_all pairs now s) as [s1|] eqn:E; [|done]. intros [= <- <-].
    split; [by eapply tracked_set_all|by eapply disk_set_all].
  - pose proof (tracked_rename is_encrypted_value key new_key now s Hn) as H.
    pose proof (disk_rename is_encrypted_value key new_key now s) as H'.
    destruct (rename is_encrypted_value key new_key now s). intros [= <- <-].
    split; [done|]. by rewrite <-Hd.
  - intros [= <- <-]. split; [by apply tracked_sweep|by rewrite disk_sweep].
  - intros [= <- <-]. split; [by apply tracked_flush|].
    destruct (flush_loop (seq 0 (length (shards s))) s) as (_ & Hd' & _).
    unfold flushdb. cbn [disk_shards set_disk set_vectors set_keys]. by rewrite Hd', Hd.
Qed.

Definition total_cost (s : Store) (cs : list (Z * cmd)) : Z := zsum ((fun p => cost s p.2) <$> cs).

Lemma cost_length s s' c : length (shards s') = length (shards s) -> cost s' c = cost s c.
Proof. intros E. unfold cost, zlen. by rewrite E. Qed.

Lemma cost_nonneg s c : 0 <= cost s c.
Proof. destruct c; cbn; unfold zlen; lia. Qed.

Lemma run_tracked cs : forall s rs s',
  hot s -> run cs s = Returned (rs, s') -> tracked (total_cost s cs) s s'.
Proof.
  induction cs as [|[now c] cs IH]; intros s rs s' Hh; cbn [Strings.run].
  - intros [= <- <-]. apply tracked_refl.
  - destruct (exec now c s) as [[r s1]|] eqn:E; [|done]. cbn [mbind outcome_bind].
    destruct (run cs s1) as [[rs1 s2]|] eqn:E1; [|done]. intros [= <- <-].
    destruct (exec_tracked now c s r s1 Hh E) as [T1 D1].
    assert (hot s1) as Hh1 by (split; [eapply tracked_nonempty; [done|apply Hh]|done]).
    pose proof (IH s1 rs1 s2 Hh1 E1) as T2.
    assert (total_cost s1 cs = total_cost s cs) as Ec.
    { unfold total_cost. f_equal. apply list_fmap_ext. intros i p _. apply cost_length, T1. }
    rewrite Ec in T2. unfold total_cost. rewrite fmap_cons. unfold zsum. cbn [foldr snd].
    eapply tracked_trans; [apply cost_nonneg| |done|done].
    apply zsum_nonneg. intros p. apply cost_nonneg.
Qed.

End Steps.



(** ** Metrics *)

Lemma accounted_update key e e' s :
  accounted s -> find s key = Some e ->
  estimate_entry_memory key (value e') = estimate_entry_memory key (value e) ->
  accounted (put_data key e' s).
Proof.
  intros [Hn Hp Hk Hm] E Hmem. destruct (totals_put key e' s Hn) as [Tk Tm]. rewrite E in Tk, Tm.
  split; [by apply nonempty_put_data|by apply placed_put| |].
  - change (key_count (put_data key e' s)) with (key_count s). lia.
  - change (used_memory (put_data key e' s)) with (used_memory s). unfold entry_cost in *. cbn [fst snd] in *. lia.
Qed.

Lemma fits_shards s s' : shards s' = shards s -> fits s -> fits s'.
Proof. unfold fits, total_keys, total_memory. by intros ->. Qed.

(** An entry that grows in place by [a] bytes, as APPEND does it. *)
Lemma accounted_grow key e e' a s :
  accounted s -> find s key = Some e -> 0 <= a ->
  estimate_entry_memory key (value e') = estimate_entry_memory key (value e) + a ->
  fits (put_data key e' s) -> accounted (put_data key e' (mem_add a s)).
Proof.
  intros Ha E Hpos Hmem Hf.
  assert (put_data key e' (mem_add a s) = insert_accounted key e' s) as ->.
  { unfold insert_accounted, mem_replace. rewrite E, Hmem.
    destruct (Z.geb_spec (estimate_entry_memory key (value e) + a) (estimate_entry_memory key (value e)));
      [|lia]. replace (estimate_entry_memory key (value e) + a - estimate_entry_memory key (value e)) with a by lia.
    reflexivity. }
  apply accounted_insert; [done|]. eapply fits_shards; [|exact Hf].
  unfold insert_accounted, mem_replace. rewrite E. by destruct (_ >=? _).
Qed.

Lemma accounted_new n : (0 < n)%nat -> accounted (new n).
Proof.
  intros Hn. assert (forall i sh, replicate n empty_shard !! i = Some sh -> sh = empty_shard) as He
    by (intros i sh H; by apply lookup_replicate in H as [-> _]).
  split.
  - unfold nonempty. cbn. rewrite length_replicate. lia.
  - intros i sh k H%He. subst. cbn. rewrite lookup_empty. by intros [? ?].
  - cbn. unfold total_keys. cbn. clear. induction n as [|n IH]; [done|].
    unfold zsum in *. cbn. unfold shard_keys at 1. cbn. rewrite <-IH. done.
  - cbn. unfold total_memory. cbn. clear. induction n as [|n IH]; [done|].
    unfold zsum in *. cbn. unfold shard_cost at 1. cbn [data empty_shard]. rewrite map_to_list_empty.
    cbn. rewrite <-IH. done.
Qed.

Lemma accounted_del clock ks s : accounted s -> disk_shards s = None -> accounted (del clock ks s).2.
Proof.
  intros Ha Hd. unfold del.
  assert (forall l a, accounted a.2 -> disk_shards a.2 = None ->
    accounted (foldl (del_one clock) a l).2) as H.
  { induction l as [|k l IH]; intros [[n vs] a] Ha0 Hd0; cbn [foldl]; [done|]. unfold del_one.
    rewrite hot_disk_contains by done. destruct (find (bump k a) k) eqn:E; (apply IH; [|done]); cbn [snd].
    - apply accounted_remove; [by apply accounted_bump|done].
    - by apply accounted_bump. }
  specialize (H ks (0, [], s) Ha Hd). destruct (foldl _ _ ks) as [[n vs] s']. cbn [snd] in *.
  clear Ha Hd. revert s' H. induction vs as [|kd vs IH]; intros s' H; cbn [foldl]; [done|].
  apply IH. by apply accounted_remove_vector.
Qed.

Lemma accounted_foldl {B} (f : Store -> B -> Store) l :
  (forall s b, accounted s -> accounted (f s b)) -> forall s, accounted s -> accounted (foldl f s l).
Proof. intros Hf. induction l as [|b l IH]; intros s Ha; cbn [foldl]; [done|]. by apply IH, Hf. Qed.

Lemma accounted_sweep seed now s : accounted s -> accounted (expire_sweep seed now s).
Proof.
  unfold expire_sweep. apply accounted_foldl. intros s1 i. apply accounted_foldl. intros s2 k Ha.
  unfold sweep_key. destruct (find s2 k) as [e|] eqn:E; [|done]. destruct (is_expired_at now e); [|done].
  pose proof (accounted_bump k _ (accounted_remove k e s2 Ha E)).
  destruct (vector_dims (value e)); [by apply accounted_remove_vector|done].
Qed.

(** The commands that keep the metrics exact on their own; MSETNX is a sequence of SETs. *)
Definition counted (c : cmd) : bool :=
  match c with Rename _ _ | FlushDb | MSetNx _ => false | _ => true end.

Section Metrics.

Context (hll_count : bytes -> Z) (is_encrypted_value : bytes -> bool).

Abbreviation exec := (exec hll_count is_encrypted_value).

(** The stores that counted commands reach from an empty one, while the counters fit a [usize]. *)
Inductive reachable (n : nat) : Store -> Prop :=
| reach_new : reachable n (new n)
| reach_step now c s r s' :
    reachable n s -> exec now c s = Returned (r, s') -> counted c = true -> fits s' -> reachable n s'.

Lemma exec_accounted now c s r s' :
  accounted s -> disk_shards s = None -> exec now c s = Returned (r, s') -> counted c = true ->
  fits s' -> accounted s'.
Proof.
  intros Ha Hd. pose proof (fun k => accounted_bump k s Ha) as Hb.
  destruct c; cbn [Strings.exec counted]; try done.
  - unfold get_checked. rewrite hot_promote by done. intros E.
    destruct (get_from_shard key now s); by simplify_eq/=.
  - unfold get_entry_type. rewrite hot_promote by done. intros E.
    destruct (entry_type_from_shard key now s); by simplify_eq/=.
  - by intros [= <- <-].
  - by intros [= <- <-].
  - by intros [= <- <-].
  - by intros [= <- <-].
  - unfold set, set_on_shard. destruct (deadline ttl0 now); [|done]. cbn [mbind outcome_bind].
    rewrite hot_remove_from_disk by (by rewrite disk_insert_accounted).
    intros [= <- <-] _ Hf. by apply accounted_insert.
  - unfold set_nx, set_nx_on_shard. destruct (find (bump key s) key) as [e|];
      [destruct (is_expired_at now e); cbn [negb]|]; intros [= <- <-] _ Hf;
      first [done|by apply accounted_insert].
  - unfold get_set, get_set_on_shard. intros [= <- <-] _ Hf. by apply accounted_insert.
  - unfold append, append_on_shard.
    destruct (find (bump key s) key) as [e|] eqn:E; [|intros [= <- <-] _ Hf; by apply accounted_insert].
    destruct (is_expired_at now e); cbn [negb]; [intros [= <- <-] _ Hf; by apply accounted_insert|].
    destruct (value e) as [b|b| | | | | | | |] eqn:Ev; intros [= <- <-] _ Hf;
      try (by apply accounted_insert); eapply accounted_grow; try done; try apply zlen_nonneg;
      rewrite Ev; unfold estimate_entry_memory; cbn [value value_memory]; rewrite zlen_app; lia.
  - unfold incr. rewrite hot_promote by done.
    destruct (match find (bump key s) key with Some _ => _ | None => _ end) as [[n x]|e];
      [destruct (i64_checked (n + delta))|]; intros [= <- <-] _ Hf; first [done|by apply accounted_insert].
  - pose proof (accounted_del now keys0 s Ha Hd). destruct (del now keys0 s). by intros [= <- <-].
  - unfold delifeq. destruct (find s key) as [e|] eqn:E; [|by intros [= <- <-]].
    rewrite (hot_remove_from_disk key (remove_accounted key e (bump key s))) by done.
    assert (accounted (remove_accounted key e (bump key s)))
      by (apply accounted_remove; [done|by rewrite find_bump]).
    destruct (is_expired_at now e); [by intros [= <- <-]|].
    destruct (string_bytes (value e)); [|by intros [= <- <-]].
    destruct (bytes_eqb _ _); by intros [= <- <-].
  - unfold getdel. destruct (find (bump key s) key) as [e|] eqn:E; [|by intros [= <- <-]].
    destruct (is_expired_at now e); [by intros [= <- <-]|].
    destruct (string_bytes (value e)); intros [= <- <-] _ _; [by apply accounted_remove|done].
  - unfold pexpire. destruct (find (bump key s) key) as [e|] eqn:E; [|by intros [= <- <-]].
    destruct (is_expired_at now e); cbn [negb]; [by intros [= <- <-]|].
    destruct (instant_add _ _); [|done]. intros [= <- <-] _ _. by eapply accounted_update.
  - unfold persist. destruct (find s key) as [e|] eqn:E; [|by intros [= <- <-]].
    destruct (_ && _); intros [= <- <-] _ _; [|done]. by eapply accounted_bump, accounted_update.
  - unfold getex. destruct (find (bump key s) key) as [e|] eqn:E; [|by intros [= <- <-]].
    destruct (is_expired_at now e); cbn [negb]; [by intros [= <- <-]|].
    destruct (if persist0 then _ else _); [|done]. intros [= <- <-] _ _. by eapply accounted_update.
  - intros [= <- <-] _ _. by apply accounted_sweep.
Qed.

Lemma reachable_accounted n s :
  (0 < n)%nat -> reachable n s -> accounted s /\ disk_shards s = None.
Proof.
  intros Hn. induction 1 as [|now c s r s' Hr [Ha Hd] He Hc Hf]; [by split; [apply accounted_new|]|].
  split; [by eapply exec_accounted|]. eapply exec_tracked; [|done]. split; [apply Ha|done].
Qed.

End Metrics.

(** C13. Exact metrics. In every state that string commands (those of the command machine but RENAME,
    FLUSHDB and MSETNX) reach from an empty store, the key counter is the number of entries and
    the memory counter the sum of the estimates of the entries, to the byte, as long as both fit
    a machine word. *)
Theorem metrics_exact (hll_count : bytes -> Z) (is_encrypted_value : bytes -> bool) (n : nat)
    (s : Store) :
  (0 < n)%nat -> reachable hll_count is_encrypted_value n s ->
  key_count s = total_keys s /\ used_memory s = total_memory s.
Proof.
  intros Hn Hr. destruct (reachable_accounted _ _ n s Hn Hr) as [[_ _ Hk Hm] _]. done.
Qed.

Lemma metrics_exact_witness :
  let s := insert_accounted (bs "k") (mkEntry (VStr (bs "v")) None 0) (bump (bs "k") (new 2)) in
  key_count s = total_keys s /\ used_memory s = total_memory s.
Proof.
  apply (metrics_exact (fun _ => 0) (fun _ => false) 2).
  - lia.
  - apply (reach_step _ _ 2 0 (SetKey (bs "k") (bs "v") None) (new 2) RUnit).
    + apply reach_new.
    + reflexivity.
    + reflexivity.
    + vm_compute. split; discriminate.
Defined.

(** ** Where the metrics drift *)

Lemma used_memory_put key e s : used_memory (put_data key e s) = used_memory s.
Proof. done. Qed.

Lemma drop_totals key e s :
  nonempty s -> find s key = Some e -> total_memory (drop_data key s) = total_memory s - entry_cost (key, e).
Proof. intros Hn E. by destruct (totals_drop key e s Hn E) as (_ & Tm & _). Qed.

Lemma total_memory_touch key f s :
  (forall sh, data (f sh) = data sh) -> total_memory (with_shard (shard_index s key) f s) = total_memory s.
Proof. intros Hf. by destruct (totals_same_data (shard_index s key) f s Hf). Qed.

Lemma total_memory_bump key s : total_memory (bump key s) = total_memory s.
Proof. by apply total_memory_touch. Qed.
Lemma total_memory_mem_sub key a s : total_memory (shard_mem_sub key a s) = total_memory s.
Proof. by apply total_memory_touch. Qed.
Lemma total_memory_mem_add key a s : total_memory (shard_mem_add key a s) = total_memory s.
Proof. by apply total_memory_touch. Qed.

(** How far the memory counter is above the entries. *)
Definition drift (s : Store) : Z := used_memory s - total_memory s.

(** RENAME onto an existing key loses memory: the entry it overwrites is never subtracted
    from the memory counter, which stays above the sum of the entries by that entry's size. *)
Theorem rename_overcounts (is_encrypted_value : bytes -> bool) (s : Store) (key new_key : bytes)
    (e old : Entry) (now : Z) :
  accounted s -> fits s -> used_memory s + estimate_entry_memory new_key (value e) <= usize_max ->
  key ≠ new_key -> is_utf8 key = true -> is_utf8 new_key = true ->
  find s key = Some e -> is_expired_at now e = false ->
  value_has_key_bound_encryption is_encrypted_value (value e) = false ->
  find s new_key = Some old ->
  exists s', rename is_encrypted_value key new_key now s = (Ok tt, s') /\
    drift s' = estimate_entry_memory new_key (value old).
Proof.
  unfold drift. intros [Hn Hp Hk Hm] _ Hmax Hne Hu Hu' Ef Ee Eb Eo. unfold rename. cbn zeta.
  rewrite find_bump, !Ef, Ee, Eb. cbn [negb andb]. rewrite (key_str_utf8 key Hu), (key_str_utf8 new_key Hu').
  set (s1 := drop_data key (bump key s)).
  assert (nonempty s1) as Hn1 by (apply nonempty_drop_data; by apply nonempty_bump).
  set (s2 := bump new_key (mem_sub _ (shard_mem_sub key _ (key_removed s1)))).
  assert (nonempty s2) as Hn2 by (by apply nonempty_bump, nonempty_mem_sub, nonempty_shard_mem_sub).
  assert (find s2 new_key = Some old) as Ef2.
  { unfold s2, s1. find_simp. rewrite decide_False by done. done. }
  rewrite bool_decide_eq_false_2 by (rewrite Ef2; done). eexists. split; [reflexivity|].
  destruct (totals_put new_key e s2 Hn2) as [_ Tm]. rewrite Ef2 in Tm.
  assert (total_memory s2 = total_memory s - entry_cost (key, e)) as T2.
  { unfold s2. rewrite total_memory_bump.
    change (total_memory (mem_sub ?a ?x)) with (total_memory x).
    rewrite total_memory_mem_sub.
    change (total_memory (key_removed s1)) with (total_memory s1). unfold s1.
    rewrite (drop_totals key e) by (try apply nonempty_bump; by rewrite ?find_bump).
    by rewrite total_memory_bump. }
  change (total_memory (mem_add ?a ?x)) with (total_memory x).
  rewrite total_memory_mem_add, Tm, T2.
  cbn [used_memory mem_add set_used shard_mem_add with_shard set_shards put_data].
  change (used_memory s2) with (sat_sub (used_memory s) (estimate_entry_memory key (value e))).
  pose proof (totals_drop key e s Hn Ef) as (_ & _ & _ & Hle). unfold entry_cost in *. cbn [fst snd] in *.
  pose proof (estimate_pos key (value e)). pose proof (estimate_pos new_key (value e)).
  rewrite sat_sub_small by lia. rewrite usize_add_small by lia. lia.
Qed.

Definition two_keys : Store :=
  insert_accounted (bs "b") (mkEntry (VStr (bs "old")) None 0)
    (insert_accounted (bs "a") (mkEntry (VStr (bs "new")) None 0) (new 2)).

Lemma two_keys_accounted : accounted two_keys.
Proof.
  apply accounted_insert; [|vm_compute; split; discriminate].
  apply accounted_insert; [|vm_compute; split; discriminate]. apply accounted_new. lia.
Qed.

Lemma rename_overcounts_witness :
  exists s', rename (fun _ => false) (bs "a") (bs "b") 0 two_keys = (Ok tt, s') /\
    drift s' = estimate_entry_memory (bs "b") (VStr (bs "old")).
Proof.
  apply (rename_overcounts (fun _ => false) two_keys (bs "a") (bs "b")
    (mkEntry (VStr (bs "new")) None 0) (mkEntry (VStr (bs "old")) None 0) 0); try (vm_compute; reflexivity).
  - exact two_keys_accounted.
  - vm_compute. split; discriminate.
  - vm_compute. discriminate.
  - vm_compute. discriminate.
Defined.

(** ** Ranges *)

(** The bytes from position [lo] to position [hi], both included. *)
Definition substring (b : bytes) (lo hi : Z) : bytes :=
  take (Z.to_nat (hi - lo + 1)) (drop (Z.to_nat lo) b).

Definition range_lo (len start : Z) : Z := if start <? 0 then Z.max 0 (len + start) else start.
Definition range_hi (len end_ : Z) : Z := if end_ <? 0 then len + end_ else Z.min end_ (len - 1).

(** GETRANGE. On a live string, GETRANGE with any 64-bit bounds but an end of [i64::MAX] gives
    exactly the bytes between the two positions, where a negative position counts from the end and
    positions outside the string are cut off; with an end of [i64::MAX] the wrapped bound is out of
    range of the string and the slice panics. *)
Theorem getrange_correct (s : Store) (key b : bytes) (e : Entry) (start end_ now : Z) :
  find s key = Some e -> is_expired_at now e = false -> string_bytes (value e) = Some b ->
  zlen b < i64_max -> i64_min <= start <= i64_max -> i64_min <= end_ <= i64_max ->
  getrange key start end_ now s =
    if end_ =? i64_max then Panicked
    else Returned (Ok (substring b (range_lo (zlen b) start) (range_hi (zlen b) end_))).
Proof.
  intros Ef Ee Es Hlen Hs Hend. unfold getrange. rewrite Ef, Ee, Es. cbn zeta.
  pose proof (zlen_nonneg b) as Hpos.
  assert (zlen b = Z.of_nat (length b)) as El by done.
  set (s_i := if start <? 0 then _ else _). 
  assert (s_i = Z.min (range_lo (zlen b) start) (zlen b)) as ->.
  { unfold s_i, range_lo, as_usize. destruct (Z.ltb_spec start 0).
    - rewrite as_i64_small by (unfold i64_min, i64_max in *; lia).
      rewrite as_u64_small by (unfold u64_mod, i64_min, i64_max in *; lia). lia.
    - rewrite as_u64_small by (unfold u64_mod, i64_min, i64_max in *; lia). lia. }
  assert (0 <= range_lo (zlen b) start) by (unfold range_lo; destruct (Z.ltb_spec start 0); lia).
  set (e_i := if end_ <? 0 then _ else _). destruct (Z.eqb_spec end_ i64_max) as [->|Hne].
  - assert (e_i = 9223372036854775808) as ->.
    { unfold e_i, as_usize. change (i64_max <? 0) with false. cbn [negb].
      change (as_i64 (i64_max + 1)) with i64_min.
      rewrite Z.min_l by (unfold i64_min; lia). reflexivity. }
    unfold i64_max in Hlen. destruct (Z.geb_spec (Z.min (range_lo (zlen b) start) (zlen b)) 9223372036854775808); [lia|].
    by destruct (Z.leb_spec 9223372036854775808 (zlen b)); [lia|].
  - assert (e_i = Z.max 0 (range_hi (zlen b) end_ + 1)) as ->.
    { unfold e_i, range_hi, as_usize. destruct (Z.ltb_spec end_ 0).
      - rewrite as_i64_small by (unfold i64_min, i64_max in *; lia).
        destruct (Z.eq_dec (Z.max (zlen b + end_) (-1)) (-1)) as [Em|].
        + rewrite Em. change (usize_add (as_u64 (-1)) 1) with 0. lia.
        + unfold usize_add. rewrite !as_u64_small; unfold u64_mod, i64_min, i64_max in *;
            rewrite ?as_u64_small; unfold u64_mod; lia.
      - rewrite as_i64_small by (unfold i64_min, i64_max in *; lia).
        rewrite as_u64_small by (unfold u64_mod, i64_min, i64_max in *; lia). lia. }
    unfold substring, slice. destruct (Z.geb_spec (Z.min (range_lo (zlen b) start) (zlen b))
      (Z.max 0 (range_hi (zlen b) end_ + 1))).
    + do 2 f_equal. symmetry. apply length_zero_iff_nil. rewrite length_take, length_drop. lia.
    + assert (range_hi (zlen b) end_ + 1 <= zlen b)
        by (unfold range_hi; destruct (Z.ltb_spec end_ 0); lia).
      destruct (Z.leb_spec (Z.max 0 (range_hi (zlen b) end_ + 1)) (zlen b)); [|lia].
      do 2 f_equal. rewrite Z.min_l by lia. f_equal. lia.
Qed.

Lemma getrange_correct_witness :
  getrange (bs "b") (-2) 9 0 two_keys =
    Returned (Ok (substring (bs "old") (range_lo 3 (-2)) (range_hi 3 9))).
Proof.
  apply (getrange_correct two_keys (bs "b") (bs "old") (mkEntry (VStr (bs "old")) None 0) (-2) 9 0);
    try (vm_compute; reflexivity); vm_compute; split; discriminate.
Defined.

(** ** Enumeration *)

(** The names of a tier that match a pattern, as [glob_spec] defines matching. *)
Definition text_matches (pattern name : bytes) : Prop :=
  exists p n, utf8_chars pattern = Some p /\ utf8_chars name = Some n /\
    Glob.glob_spec (Glob.new p) n = true.

Lemma glob_matches_spec pattern name : glob_matches pattern name = true <-> text_matches pattern name.
Proof.
  unfold glob_matches, text_matches.
  destruct (utf8_chars pattern) as [p|]; [|split; [done|by intros (? & ? & ? & _)]].
  destruct (utf8_chars name) as [n|]; [|split; [done|by intros (? & ? & _ & ? & _)]].
  rewrite Glob.matches_total. cbn [default from_option id]. split; [by eauto 6|].
  by intros (? & ? & [= <-] & [= <-] & ?).
Qed.

Lemma elem_add_disk pattern d l name :
  name ∈ add_disk_names pattern l d <->
  name ∈ l \/ (is_Some (Disk.index d !! name) /\ glob_matches pattern name = true).
Proof.
  unfold add_disk_names.
  assert (forall ks l, name ∈ foldl (fun result k => if glob_matches pattern k &&
      negb (bool_decide (k ∈ result)) then result ++ [k] else result) l ks <->
    name ∈ l \/ (name ∈ ks /\ glob_matches pattern name = true)) as H.
  { induction ks as [|k ks IH]; intros l0; cbn [foldl]; [set_solver|]. rewrite IH.
    destruct (glob_matches pattern k) eqn:Eg; cbn [andb].
    - case_bool_decide; cbn [negb]; rewrite ?elem_of_app, ?elem_of_cons, ?elem_of_nil;
        (destruct (decide (name = k)) as [->|]; [tauto|]); tauto.
    - rewrite elem_of_cons. destruct (decide (name = k)) as [->|]; [|tauto]. rewrite Eg. intuition congruence. }
  rewrite H. f_equiv. f_equiv. rewrite list_elem_of_fmap. split.
  - intros ([k de] & -> & Hin). apply elem_of_map_to_list in Hin. eauto.
  - intros [de Hde]. exists (name, de). split; [done|]. by apply elem_of_map_to_list.
Qed.

Lemma elem_shard_names pattern now sh name :
  name ∈ shard_key_names pattern now sh <->
  exists k e, data sh !! k = Some e /\ not_yet_expired now e = true /\ key_string k = name /\
    glob_matches pattern name = true.
Proof.
  unfold shard_key_names. rewrite list_elem_of_omap. split.
  - intros ([k e] & Hin & H). apply elem_of_map_to_list in Hin. cbn [fst snd] in H.
    destruct (not_yet_expired now e) eqn:E; [|done].
    destruct (glob_matches pattern (key_string k)) eqn:Eg; [|done]. injection H as <-. by eauto 6.
  - intros (k & e & Hin & He & <- & Hg). exists (k, e). split; [by apply elem_of_map_to_list|].
    cbn [fst snd]. by rewrite He, Hg.
Qed.

(** The entries of the shards are those that lookups find. *)
Lemma placed_find s k e :
  nonempty s -> placed s ->
  (exists sh, sh ∈ shards s /\ data sh !! k = Some e) <-> find s k = Some e.
Proof.
  intros Hn Hp. split.
  - intros (sh & Hin & E). apply list_elem_of_lookup in Hin as [i Hi].
    pose proof (Hp i sh k Hi ltac:(eauto)) as Hidx. unfold find, shard_at. by rewrite Hidx, Hi.
  - intros E. unfold find in E. eexists. split; [|exact E].
    apply list_elem_of_lookup. eexists. by apply shard_at_lookup, shard_index_lt.
Qed.

Lemma elem_concat {A} (x : A) ls : x ∈ concat ls <-> exists l, x ∈ l /\ l ∈ ls.
Proof.
  induction ls as [|l ls IH]; cbn [concat]; [set_solver|]. rewrite elem_of_app, IH.
  setoid_rewrite elem_of_cons. naive_solver.
Qed.

(** KEYS lists exactly the matching names: those of the entries in memory whose deadline has
    not come, and those of the records of the cold tier, with matching as the glob specification
    defines it. *)
Theorem keys_complete (s : Store) (pattern name : bytes) (now : Z) :
  nonempty s -> placed s ->
  name ∈ keys pattern now s <->
  text_matches (key_str pattern) name /\
  ((exists k e, find s k = Some e /\ not_yet_expired now e = true /\ key_string k = name) \/
   (exists ds d, disk_shards s = Some ds /\ d ∈ ds /\ is_Some (Disk.index d !! name))).
Proof.
  intros Hn Hp. unfold keys. rewrite <-glob_matches_spec.
  assert (forall ds l, name ∈ foldl (add_disk_names (key_str pattern)) l ds <->
    name ∈ l \/ ((exists d, d ∈ ds /\ is_Some (Disk.index d !! name)) /\
                 glob_matches (key_str pattern) name = true)) as Hds.
  { induction ds as [|d ds IH]; intros l; cbn [foldl]; [set_solver|].
    rewrite IH, elem_add_disk. setoid_rewrite elem_of_cons. naive_solver. }
  rewrite Hds, elem_concat.
  assert ((exists l, name ∈ l /\ l ∈ shard_key_names (key_str pattern) now <$> shards s) <->
    (exists k e, find s k = Some e /\ not_yet_expired now e = true /\ key_string k = name) /\
    glob_matches (key_str pattern) name = true) as ->.
  { setoid_rewrite list_elem_of_fmap. split.
    - intros (l & Hin & sh & -> & Hsh). apply elem_shard_names in Hin as (k & e & E & He & Hk & Hg).
      split; [|done]. exists k, e. split; [|done]. apply placed_find; eauto.
    - intros [(k & e & E & He & Hk) Hg]. apply placed_find in E as (sh & Hsh & E); [|done|done].
      eexists. split; [|by eexists]. apply elem_shard_names. eauto 6. }
  destruct (disk_shards s) as [ds|]; cbn [default from_option id]; [naive_solver|].
  split; [|naive_solver]. intros [[? ?]|[(d & Hd & _) _]]; [by eauto|by apply elem_of_nil in Hd].
Qed.

Lemma keys_complete_witness :
  bs "b" ∈ keys (bs "*") 0 two_keys <->
  text_matches (key_str (bs "*")) (bs "b") /\
  ((exists k e, find two_keys k = Some e /\ not_yet_expired 0 e = true /\ key_string k = bs "b") \/
   (exists ds d, disk_shards two_keys = Some ds /\ d ∈ ds /\ is_Some (Disk.index d !! bs "b"))).
Proof.
  apply (keys_complete two_keys (bs "*") (bs "b") 0).
  - apply two_keys_accounted.
  - apply two_keys_accounted.
Defined.

(** A client's scan: pages from [cursor] on, until the cursor comes back to zero. *)
Fixpoint scan_loop (fuel : nat) (cursor : Z) (pattern : bytes) (count now : Z) (s : Store)
    : option (list bytes) :=
  match fuel with
  | O => None
  | S fuel =>
      match scan cursor pattern count now s with
      | Returned (next, page) =>
          if next =? 0 then Some page
          else rest ← scan_loop fuel next pattern count now s; Some (page ++ rest)
      | Panicked => None
      end
  end.

Lemma scan_page cursor pattern count now s :
  let l := keys pattern now s in
  0 <= cursor -> 0 <= count -> zlen l + count <= usize_max ->
  scan cursor pattern count now s =
    Returned (if cursor + count >=? zlen l then 0 else cursor + count,
              take (Z.to_nat count) (drop (Z.to_nat cursor) l)).
Proof.
  intros l Hc Hn Hmax. unfold scan. fold l. pose proof (zlen_nonneg l) as Hl.
  assert (zlen l = Z.of_nat (length l)) as El by done.
  rewrite usize_add_small by lia.
  destruct (Z.leb_spec (Z.min cursor (zlen l)) (Z.min (Z.min cursor (zlen l) + count) (zlen l))); [|lia].
  do 2 f_equal.
  - destruct (Z.geb_spec (Z.min (Z.min cursor (zlen l) + count) (zlen l)) (zlen l)),
      (Z.geb_spec (cursor + count) (zlen l)); lia.
  - unfold slice. destruct (Z.le_gt_cases cursor (zlen l)).
    + rewrite (Z.min_l cursor) by done. destruct (Z.le_gt_cases (cursor + count) (zlen l)).
      * rewrite Z.min_l by done. f_equal. lia.
      * rewrite Z.min_r by lia. rewrite !take_ge by (rewrite length_drop; lia). done.
    + rewrite (drop_ge l (Z.to_nat cursor)) by lia. rewrite take_nil.
      apply length_zero_iff_nil. rewrite length_take, length_drop. lia.
Qed.

Lemma scan_loop_ok fuel : forall cursor pattern count now s,
  let l := keys pattern now s in
  0 <= cursor -> 0 < count -> zlen l + count <= usize_max ->
  (length (drop (Z.to_nat cursor) l) < fuel)%nat ->
  scan_loop fuel cursor pattern count now s = Some (drop (Z.to_nat cursor) l).
Proof.
  induction fuel as [|fuel IH]; intros cursor pattern count now s l Hc Hn Hmax Hf; [lia|].
  cbn [scan_loop]. rewrite scan_page by (try done; lia). fold l.
  assert (zlen l = Z.of_nat (length l)) as El by done.
  destruct (Z.geb_spec (cursor + count) (zlen l)) as [Hge|Hlt].
  - cbn. f_equal. apply take_ge. rewrite length_drop. lia.
  - destruct (Z.eqb_spec (cursor + count) 0); [lia|].
    rewrite IH; [|lia|done|done|].
    + cbn [mbind option_bind]. fold l. f_equal.
      replace (drop (Z.to_nat (cursor + count)) l)
        with (drop (Z.to_nat count) (drop (Z.to_nat cursor) l)) by (rewrite drop_drop; f_equal; lia).
      apply take_drop.
    + rewrite length_drop in *. fold l. lia.
Qed.

(** SCAN. On a store that does not change, following the cursor from zero ends after
    finitely many pages and the pages together are exactly the list KEYS gives, whatever the page
    size; but with a page size whose addition to the cursor overflows, the slice bounds are
    reversed and the call panics. *)
Theorem scan_pages (s : Store) (pattern : bytes) (count now : Z) :
  0 < count ->
  (zlen (keys pattern now s) + count <= usize_max ->
   scan_loop (S (length (keys pattern now s))) 0 pattern count now s = Some (keys pattern now s)) /\
  (forall cursor, 0 < cursor <= zlen (keys pattern now s) -> cursor <= usize_max -> count <= usize_max ->
   u64_mod <= cursor + count -> scan cursor pattern count now s = Panicked).
Proof.
  intros Hn. split.
  - intros Hmax. rewrite scan_loop_ok; [done|lia|done|done|]. rewrite length_drop. lia.
  - intros cursor Hc Hcm Hmax Hov. unfold scan. rewrite (Z.min_l cursor) by lia.
    rewrite usize_add_wraps by (unfold usize_max, u64_mod in *; lia).
    destruct (Z.leb_spec cursor (Z.min (cursor + count - u64_mod) (zlen (keys pattern now s)))) as [Hle|]; [|done].
    unfold usize_max, u64_mod in *. lia.
Qed.

Lemma scan_pages_witness :
  scan_loop 3 0 (bs "*") 1 0 two_keys = Some (keys (bs "*") 0 two_keys) /\
  scan 1 (bs "*") usize_max 0 two_keys = Panicked.
Proof.
  split.
  - apply (scan_pages two_keys (bs "*") 1 0); [lia|vm_compute; discriminate].
  - apply (scan_pages two_keys (bs "*") usize_max 0); [reflexivity| | | |]; vm_compute; try discriminate.
    split; [reflexivity|discriminate].
Defined.

(** ** Conditional SET *)

(** What SET with options means on the entry a reader sees: whether it writes, what it answers
    and the new entry. *)
Definition cond_spec (o : SetOptions) (now : Z) (cur : option (bytes * option Z))
    (plain : option bytes) : bool * option bytes * outcome (option Z) :=
  let writes := match o_ifeq o with
                | Some expected => bool_decide (plain = Some expected)
                | None => (negb (o_nx o) || bool_decide (cur = None)) && (negb (o_xx o) || bool_decide (is_Some cur))
                end in
  (writes, if o_get o then plain else None,
   if o_keep_ttl o then Returned (cur ≫= snd) else deadline (o_ttl o) now).

(** SET with options is atomic and does what its options say. On a store where the key holds
    nothing or an unencrypted string, preparing and applying a SET answers the old value exactly
    when GET is given; writes when IFEQ matches or, without IFEQ, when NX and XX allow it; stores
    the value with the old deadline under KEEPTTL and else the new one; and changes no other key.
    When it does not write, the store is untouched. *)
Theorem conditional_set_correct (is_encrypted_value : bytes -> bool)
    (encrypt decrypt : bytes -> bytes -> result bytes) (s : Store) (key val : bytes)
    (o : SetOptions) (now : Z) (cur : option (bytes * option Z)) :
  nonempty s ->
  (forall e, live s now key = Some e -> exists b, string_bytes (value e) = Some b /\
     is_encrypted_value b = false /\ cur = Some (b, expires_at e)) ->
  (live s now key = None -> cur = None) -> o_encrypted o = false ->
  let '(writes, answer, exp) := cond_spec o now cur (fst <$> cur) in
  match (if writes then exp else Returned None) with
  | Panicked => prepare_conditional_set is_encrypted_value encrypt decrypt key val o now s = Panicked
  | Returned exp => exists p s',
      prepare_conditional_set is_encrypted_value encrypt decrypt key val o now s = Returned (Ok p) /\
      apply_conditional_set key p s = Returned (writes, answer, s') /\
      (writes = false -> s' = s) /\
      (writes = true -> forall k, find s' k =
         if decide (k = key) then Some (mkEntry (VStr val) exp (lru_clock s)) else find s k)
  end.
Proof.
  intros Hn Hlive Hdead Henc. unfold cond_spec, prepare_conditional_set. rewrite Henc. cbn [orb].
  set (apply_ok := fun ans exp => exists s',
    apply_conditional_set key (mkPrepared true ans (Some val) exp) s = Returned (true, ans, s') /\
    forall k, find s' k = if decide (k = key) then Some (mkEntry (VStr val) exp (lru_clock s)) else find s k).
  assert (forall ans exp, apply_ok ans exp) as Happ.
  { intros ans exp. eexists. split; [reflexivity|]. intros k. find_simp.
    rewrite find_insert_accounted by (by apply nonempty_bump). by find_simp. }
  assert (live s now key = None \/ exists e b, live s now key = Some e /\
    string_bytes (value e) = Some b /\ is_encrypted_value b = false /\ cur = Some (b, expires_at e))
    as Hcase.
  { destruct (live s now key) as [e|]; [right|by left].
    destruct (Hlive e eq_refl) as (b & ? & ? & ?). by exists e, b. }
  destruct Hcase as [El|(e & b & El & Eb & Ee & ->)].
  - rewrite (Hdead El), El. cbn [mbind option_bind fmap option_fmap option_map fst].
    rewrite bool_decide_eq_true_2 by done. rewrite bool_decide_eq_false_2 by (by intros [? ?]).
    destruct (o_ifeq o) as [x|].
    + rewrite bool_decide_eq_false_2 by done. eexists _, s. by destruct (o_get o).
    + destruct ((_ || _) && _).
      * destruct (if o_keep_ttl o then _ else _) as [exp|]; [|done]. cbn [mbind outcome_bind].
        destruct (Happ None exp) as (s' & Ea & Ef). eexists _, s'. by destruct (o_get o).
      * eexists _, s. by destruct (o_get o).
  - rewrite El. unfold current_plain, decrypt_kv_string_value. rewrite Eb, Ee.
    cbn [mbind option_bind fmap option_fmap option_map fst snd negb result_fmap]. rewrite Eb, Ee.
    rewrite bool_decide_eq_false_2 by done. rewrite !bool_decide_eq_true_2 by eauto.
    assert (forall x, bytes_eqb b x = bool_decide (Some b = Some x)) as Ebx.
    { intros x. apply bool_decide_ext. split; [by intros ->|by intros [= ->]]. }
    rewrite ?orb_false_r, ?orb_true_r.
    destruct (o_ifeq o) as [x|]; [rewrite Ebx; destruct (bool_decide _)|destruct (_ && _)].
    all: destruct (o_get o); try (by eexists _, s);
      destruct (if o_keep_ttl o then _ else _) as [exp|]; try done; cbn [mbind outcome_bind];
      match goal with |- context [mkPrepared true ?a] => destruct (Happ a exp) as (s' & Ea & Ef) end;
      by eexists _, s'.
Qed.

Lemma conditional_set_correct_witness :
  let o := mkOptions None true false false (Some (bs "old")) true false in
  let s := two_keys in
  let '(writes, answer, exp) := cond_spec o 0 (Some (bs "old", None)) (Some (bs "old")) in
  match (if writes then exp else Returned None) with
  | Panicked => prepare_conditional_set (fun _ => false) (fun _ => Ok) (fun _ => Ok) (bs "b") (bs "n") o 0 s = Panicked
  | Returned exp => exists p s',
      prepare_conditional_set (fun _ => false) (fun _ => Ok) (fun _ => Ok) (bs "b") (bs "n") o 0 s = Returned (Ok p) /\
      apply_conditional_set (bs "b") p s = Returned (writes, answer, s') /\
      (writes = false -> s' = s) /\
      (writes = true -> forall k, find s' k =
         if decide (k = bs "b") then Some (mkEntry (VStr (bs "n")) exp (lru_clock s)) else find s k)
  end.
Proof.
  apply (conditional_set_correct (fun _ => false) (fun _ => Ok) (fun _ => Ok) two_keys (bs "b") (bs "n")
    (mkOptions None true false false (Some (bs "old")) true false) 0 (Some (bs "old", None))).
  - vm_compute. lia.
  - intros e. vm_compute. intros [= <-]. by exists (bs "old").
  - vm_compute. discriminate.
  - reflexivity.
Defined.

(** ** Deadlines and SETRANGE *)

(** The longest lifetime SETEX accepts, [Duration::from_secs(i64::MAX)], in nanoseconds. *)
Definition longest_lifetime : Z := i64_max * 1000000000.

(** A deadline past the end of the clock stops the process: a SET with a lifetime of
    [i64::MAX] seconds, which SETEX accepts, overflows the seconds of an [Instant] as soon as the
    machine has been up for a second, and the addition panics before the key is written. *)
Theorem setex_overflow_panics (s : Store) (key val : bytes) (now : Z) :
  1000000000 <= now -> set key val (Some longest_lifetime) now s = Panicked.
Proof.
  intros Hnow. unfold longest_lifetime, set, set_on_shard, deadline, instant_add.
  destruct (Z.leb_spec ((now + i64_max * 1000000000) / 1000000000) i64_max) as [Hle|]; [|done].
  exfalso. assert (i64_max + 1 <= (now + i64_max * 1000000000) / 1000000000).
  { apply Z.div_le_lower_bound; lia. }
  lia.
Qed.

Lemma setex_overflow_panics_witness :
  set (bs "k") (bs "v") (Some longest_lifetime) 5000000000 (new 1) = Panicked.
Proof. apply (setex_overflow_panics (new 1) (bs "k") (bs "v") 5000000000). lia. Defined.

(** The byte at position [i] of [old] overwritten with [val] from [offset] on, with zeros in the
    gap between the old end and [offset]. *)
Definition patched (old val : bytes) (offset i : nat) : option Z :=
  if decide (offset <= i < offset + length val)%nat then val !! (i - offset)%nat
  else if decide (i < length old)%nat then old !! i
  else if decide (i < offset)%nat then Some 0 else None.

Lemma overwrite_lookup old val offset i :
  (val ≠ [])%nat ->
  overwrite (old ++ replicate (offset + length val - length old) 0) offset val !! i =
    patched old val offset i.
Proof.
  intros Hv. assert (0 < length val)%nat by (destruct val; [done|cbn; lia]).
  unfold overwrite, patched. set (full := old ++ _).
  assert (length full = Nat.max (length old) (offset + length val)) as Hlen.
  { unfold full. rewrite length_app, length_replicate. lia. }
  assert (forall j, full !! j = if decide (j < length old)%nat then old !! j
                    else if decide (j < offset + length val)%nat then Some 0 else None) as Hfull.
  { intros j. unfold full. destruct (decide (j < length old)%nat).
    - by rewrite lookup_app_l.
    - rewrite lookup_app_r by lia. destruct (decide (j < offset + length val)%nat).
      + apply lookup_replicate. split; [done|lia].
      + apply lookup_ge_None. rewrite length_replicate. lia. }
  destruct (decide (i < offset)%nat) as [Hi|Hi].
  - rewrite lookup_app_l by (rewrite length_take; lia). rewrite lookup_take_lt by done.
    rewrite Hfull. rewrite (decide_False (P := (offset <= i < _)%nat)) by lia.
    destruct (decide (i < length old)%nat); [done|]. by rewrite decide_True by lia.
  - rewrite lookup_app_r by (rewrite length_take; lia). rewrite length_take, Nat.min_l by lia.
    destruct (decide (offset <= i < offset + length val)%nat).
    + by rewrite lookup_app_l by lia.
    + rewrite lookup_app_r by lia. rewrite lookup_drop, Hfull.
      replace (offset + length val + (i - offset - length val))%nat with i by lia.
      destruct (decide (i < length old)%nat); [done|]. by rewrite decide_False by lia.
Qed.

(** The string a reader sees under a key, as SETRANGE takes it: empty when there is none. *)
Definition base_string (s : Store) (now : Z) (key : bytes) : option (bytes * option Z) :=
  match live s now key with
  | Some e => b ← string_bytes (value e); Some (b, expires_at e)
  | None => Some ([], None)
  end.

Lemma drop_if_expired_ok key now s :
  nonempty s ->
  nonempty (drop_if_expired key now s) /\ lru_clock (drop_if_expired key now s) = lru_clock s /\
  forall k, find (drop_if_expired key now s) k = if decide (k = key) then live s now key else find s k.
Proof.
  intros Hn. unfold drop_if_expired, live. destruct (find s key) as [e|] eqn:E; [destruct (is_expired_at now e)|].
  - split; [by apply nonempty_key_removed, nonempty_drop_data|]. split; [done|]. intros k. by find_simp.
  - split; [done|]. split; [done|]. intros k. by destruct (decide (k = key)) as [->|].
  - split; [done|]. split; [done|]. intros k. by destruct (decide (k = key)) as [->|].
Qed.

(** The buffer of an existing string, grown to hold the patch. *)
Lemma patch_buffer b val offset :
  val ≠ [] -> 0 <= offset ->
  let buf := if zlen b <? offset + zlen val
             then b ++ replicate (Z.to_nat (offset + zlen val) - length b) 0 else b in
  zlen (overwrite buf (Z.to_nat offset) val) = Z.max (zlen b) (offset + zlen val) /\
  forall i, overwrite buf (Z.to_nat offset) val !! i = patched b val (Z.to_nat offset) i.
Proof.
  intros Hv Hoff. assert (zlen val = Z.of_nat (length val)) as Ezv by done. cbn zeta.
  set (buf := if _ <? _ then _ else b).
  assert (buf = b ++ replicate (Z.to_nat offset + length val - length b) 0) as ->.
  { unfold buf. destruct (Z.ltb_spec (zlen b) (offset + zlen val)).
    - do 2 f_equal. lia.
    - replace (Z.to_nat offset + length val - length b)%nat with 0%nat by (unfold zlen in *; lia).
      by rewrite app_nil_r. }
  split; [|intros i; by apply overwrite_lookup].
  unfold overwrite, zlen. rewrite !length_app, length_take, length_drop, length_app, length_replicate.
  unfold zlen in *. lia.
Qed.

(** SETRANGE. On a key that is missing, expired or a string, SETRANGE with a non-empty value
    answers the new length and stores the string patched byte by byte: the value from the offset
    on, the old bytes elsewhere, zeros in the gap; the deadline is kept and no other key changes.
    If the end of the patch overflows the machine word, it panics. *)
Theorem setrange_correct (max_alloc : Z) (s : Store) (key val b : bytes) (exp : option Z)
    (offset now : Z) :
  nonempty s -> val ≠ [] -> 0 <= offset <= usize_max -> max_alloc <= usize_max ->
  zlen val <= usize_max -> base_string s now key = Some (b, exp) ->
  (offset + zlen val <= max_alloc ->
   exists s' buf, setrange max_alloc key offset val now s =
       Returned (Ok (Z.max (zlen b) (offset + zlen val)), s') /\
     (forall i, buf !! i = patched b val (Z.to_nat offset) i) /\
     (forall k, find s' k = if decide (k = key)
        then Some (mkEntry (VStrBuf buf) exp (lru_clock s)) else find s k)) /\
  (usize_max < offset + zlen val -> setrange max_alloc key offset val now s = Panicked).
Proof.
  intros Hn Hv Hoff Hmax Hvl Hb.
  assert (0 < length val)%nat as Hvpos by (destruct val; [done|cbn; lia]).
  assert (zlen val = Z.of_nat (length val)) as Ezv by done.
  destruct (drop_if_expired_ok key now s Hn) as (Hn1 & Hc1 & Hf1).
  unfold setrange. cbn zeta. set (s1 := drop_if_expired key now s) in *.
  clearbody s1. rewrite !Hf1, !decide_True by done. rewrite bool_decide_eq_false_2 by done.
  unfold base_string in Hb. split.
  - intros Hle. rewrite usize_add_small by lia.
    destruct (Z.gtb_spec (offset + zlen val) max_alloc); [lia|].
    destruct (Z.ltb_spec (offset + zlen val) offset); [lia|]. cbn [orb].
    pose proof (fun i => overwrite_lookup b val (Z.to_nat offset) i Hv) as Hbuf.
    destruct (live s now key) as [e|] eqn:El.
    + destruct (string_bytes (value e)) as [b'|]; [|done]. injection Hb as -> <-.
      destruct (patch_buffer b val offset Hv ltac:(lia)) as [Elen Hpatch]. cbn zeta in Elen, Hpatch.
      set (buf := if zlen b <? offset + zlen val then _ else b) in *.
      rewrite Elen. eexists _, (overwrite buf (Z.to_nat offset) val). split; [reflexivity|].
      split; [done|]. intros k.
      destruct (_ >=? _); find_simp; rewrite Hf1, ?El;
        change (lru_clock (bump key s1)) with (lru_clock s1); rewrite Hc1;
        by destruct (decide (k = key)).
    + injection Hb as <- <-. eexists _, (overwrite (replicate (Z.to_nat (offset + zlen val)) 0) (Z.to_nat offset) val).
      split; [change (zlen (@nil Z)) with 0; rewrite Z.max_r by lia; reflexivity|].
      split.
      * intros i. rewrite <-Hbuf. cbn [app length]. rewrite Nat.sub_0_r.
        replace (Z.to_nat (offset + zlen val)) with (Z.to_nat offset + length val)%nat by lia. done.
      * intros k. find_simp. rewrite Hf1.
        change (lru_clock (bump key s1)) with (lru_clock s1). rewrite Hc1, ?El.
        by destruct (decide (k = key)).
  - intros Hov. rewrite usize_add_wraps by lia.
    destruct (Z.ltb_spec (offset + zlen val - u64_mod) offset); [|unfold u64_mod, usize_max in *; lia].
    rewrite orb_true_r.
    destruct (live s now key) as [e|]; [|done]. by destruct (string_bytes (value e)).
Qed.

Lemma setrange_correct_witness :
  exists s' buf, setrange 1000 (bs "b") 5 (bs "xy") 0 two_keys =
       Returned (Ok (Z.max 3 (5 + 2)), s') /\
     (forall i, buf !! i = patched (bs "old") (bs "xy") (Z.to_nat 5) i) /\
     (forall k, find s' k = if decide (k = bs "b")
        then Some (mkEntry (VStrBuf buf) None (lru_clock two_keys)) else find two_keys k).
Proof.
  apply (setrange_correct 1000 two_keys (bs "b") (bs "xy") (bs "old") None 5 0);
    try (vm_compute; (reflexivity || discriminate || (split; discriminate))).
  vm_compute. lia.
Defined.

End Keyspace.
