(* ===== verification/Lists.v ===== *)
(** * List commands ([src/src/store/mod.rs], lines 4959-5289 and 6507-6817)

    The operations behind LPUSH, RPUSH, LPUSHX, RPUSHX, LPOP, RPOP, LMPOP, LLEN, LRANGE, LINDEX,
    LSET, LINSERT, LREM, LTRIM and LMOVE, with the previews that the journal is written from. A
    list stays in the keyspace when its last element is popped, as in the code.

    The commands are steps of a machine, and each step is shown to be the corresponding list
    operation on the keyspace of [Strings]: pushes and pops at the ends, ranges with positions
    counted from either end, removal of the first or last occurrences. *)

From S2P Require Import Prelude.
From S2P Require Import Codec.
From S2P Require Import Disk.
From S2P Require Import Values.
From S2P Require Import Store.
From S2P Require Import Strings.
Local Open Scope Z_scope.

Module Lists.
Import Values.Values Store.Store Strings.Strings.

(** ** Entries holding lists *)

(** [added_mem] *)
Definition items_memory (items : list bytes) : Z := zsum ((fun v => zlen v + 32) <$> items).

(** The entry a push works on: the existing one, reset to an empty list if it has expired, or a
    new empty list. *)
Definition open_list (key : bytes) (now : Z) (s : Store) : Entry * Store :=
  match find s key with
  | Some e => if is_expired_at now e then (mkEntry (VList []) None (e_lru_clock e), s) else (e, s)
  | None => (mkEntry (VList []) None (lru_clock s), key_added s)
  end.

Definition set_list (key : bytes) (e : Entry) (l : list bytes) (s : Store) : Store :=
  put_data key (mkEntry (VList l) (expires_at e) (e_lru_clock e)) s.

(** [shard.used_memory += n; self.mem_add(n)] and the subtraction. *)
Definition charge (key : bytes) (n : Z) (s : Store) : Store := mem_add n (shard_mem_add key n s).
Definition refund (key : bytes) (n : Z) (s : Store) : Store := mem_sub n (shard_mem_sub key n s).

Definition push_front_all (items l : list bytes) : list bytes := foldl (fun l v => v :: l) l items.
Definition push_back_all (items l : list bytes) : list bytes := foldl (fun l v => l ++ [v]) l items.

(** ** Pushing *)

Definition lpush (key : bytes) (items : list bytes) (now : Z) (s : Store) : result Z * Store :=
  let '(e, s1) := open_list key now s in
  match value e with
  | VList l =>
      let l := push_front_all items l in
      (Ok (zlen l), charge key (items_memory items) (bump key (set_list key e l s1)))
  | _ => (Err WRONGTYPE, s)
  end.

Definition rpush (key : bytes) (items : list bytes) (now : Z) (s : Store) : result Z * Store :=
  let s := bump key s in
  let '(e, s1) := open_list key now s in
  match value e with
  | VList l =>
      let l := push_back_all items l in
      (Ok (zlen l), charge key (items_memory items) (set_list key e l s1))
  | _ => (Err WRONGTYPE, s)
  end.

(** [lpushx] and [rpushx]: only onto a live list. *)
Definition pushx (push : list bytes -> list bytes -> list bytes) (key : bytes) (items : list bytes)
    (now : Z) (s : Store) : Z * Store :=
  let s := bump key s in
  match find s key with
  | Some e =>
      if is_expired_at now e then (0, s)
      else match value e with
           | VList l =>
               let l := push items l in
               (zlen l, charge key (items_memory items) (set_list key e l s))
           | _ => (0, s)
           end
  | None => (0, s)
  end.

Definition lpushx := pushx push_front_all.
Definition rpushx := pushx push_back_all.

(** ** Popping *)

(** [pop_front] and [pop_back] *)
Definition take_front (l : list bytes) : option (bytes * list bytes) :=
  match l with [] => None | x :: l => Some (x, l) end.
Definition take_back (l : list bytes) : option (bytes * list bytes) :=
  match list.last l with Some x => Some (x, take (length l - 1) l) | None => None end.
Definition take_end (left : bool) (l : list bytes) : option (bytes * list bytes) :=
  if left then take_front l else take_back l.

(** [lpop_on_shard] and [rpop_on_shard] *)
Definition pop_on_shard (left : bool) (key : bytes) (now : Z) (s : Store) : option bytes * Store :=
  match find s key with
  | Some e =>
      if is_expired_at now e then (None, s)
      else match value e with
           | VList l =>
               match take_end left l with
               | Some (x, l) => (Some x, refund key (zlen x + 32) (set_list key e l s))
               | None => (None, s)
               end
           | _ => (None, s)
           end
  | None => (None, s)
  end.

(** [lpop] and [rpop]: a read-only look first, then the pop, then the version. *)
Definition pop (left : bool) (key : bytes) (now : Z) (s : Store) : option bytes * Store :=
  let can_pop := match find s key with
                 | Some e => if is_expired_at now e then false
                             else match value e with VList l => negb (bool_decide (l = [])) | _ => false end
                 | None => false
                 end in
  if negb can_pop then (None, s)
  else match pop_on_shard left key now s with
       | (Some x, s) => (Some x, bump key s)
       | (None, s) => (None, s)
       end.

(** Up to [count] pops from one list. *)
Fixpoint pop_many (count : nat) (left : bool) (key : bytes) (now : Z) (s : Store)
    : list bytes * Store :=
  match count with
  | O => ([], s)
  | S count =>
      match pop_on_shard left key now s with
      | (Some x, s) => let '(items, s) := pop_many count left key now s in (x :: items, s)
      | (None, s) => ([], s)
      end
  end.

(** [lmpop]; [clock] is the clock a promotion reads. *)
Fixpoint lmpop (hll_count : bytes -> Z) (clock : Z) (keys : list bytes) (left : bool) (count : nat)
    (now : Z) (s : Store) : result (option (bytes * list bytes)) * Store :=
  match keys with
  | [] => (Ok None, s)
  | key :: keys =>
      match try_promote hll_count clock key now s with
      | (Err e, s) => (Err e, s)
      | (Ok _, s) =>
          match live s now key with
          | None => lmpop hll_count clock keys left count now s
          | Some e =>
              match value e with
              | VList [] => lmpop hll_count clock keys left count now s
              | VList _ =>
                  let '(items, s) := pop_many count left key now s in
                  if bool_decide (items = []) then lmpop hll_count clock keys left count now s
                  else (Ok (Some (key, items)), remove_from_disk key (bump key s))
              | _ => (Err WRONGTYPE, s)
              end
          end
      end
  end.

(** [preview_lmpop]: what the journal records before the pop. *)
Fixpoint preview_lmpop (hll_count : bytes -> Z) (clock : Z) (keys : list bytes) (left : bool)
    (count : nat) (now : Z) (s : Store) : result (option (bytes * list bytes)) * Store :=
  match keys with
  | [] => (Ok None, s)
  | key :: keys =>
      match try_promote hll_count clock key now s with
      | (Err e, s) => (Err e, s)
      | (Ok _, s) =>
          match live s now key with
          | None => preview_lmpop hll_count clock keys left count now s
          | Some e =>
              match value e with
              | VList [] => preview_lmpop hll_count clock keys left count now s
              | VList l => (Ok (Some (key, take count (if left then l else reverse l))), s)
              | _ => (Err WRONGTYPE, s)
              end
          end
      end
  end.

(** ** Reading *)

Definition llen (key : bytes) (now : Z) (s : Store) : result Z :=
  match find s key with
  | Some e => if is_expired_at now e then Ok 0
              else match value e with VList l => Ok (zlen l) | _ => Err WRONGTYPE end
  | None => Ok 0
  end.

(** The two bounds of LRANGE and LTRIM, in [i64] and [usize] arithmetic that wraps. *)
Definition range_start (len start : Z) : Z :=
  if start <? 0 then as_usize (Z.max (as_i64 (len + start)) 0) else as_usize (Z.min start len).
Definition range_end (len stop : Z) : Z :=
  if stop <? 0 then as_usize (Z.max (as_i64 (as_i64 (len + stop) + 1)) 0)
  else as_usize (Z.min (as_i64 (stop + 1)) len).

(** The size of a [Bytes], for [Vec::with_capacity]; a capacity over [isize::MAX] bytes panics. *)
Definition sizeof_bytes : Z := 32.

Definition lrange (key : bytes) (start stop now : Z) (s : Store) : outcome (result (list bytes)) :=
  match find s key with
  | Some e =>
      if is_expired_at now e then Returned (Ok [])
      else match value e with
           | VList l =>
               let b := range_start (zlen l) start in
               let e := range_end (zlen l) stop in
               if b >=? e then Returned (Ok [])
               else if (e - b) * sizeof_bytes >? i64_max then Panicked
               else Returned (Ok (slice l (Z.to_nat b) (Z.to_nat e)))
           | _ => Returned (Err WRONGTYPE)
           end
  | None => Returned (Ok [])
  end.

(** The position an index means; a negative one counts from the end. *)
Definition list_index (len index : Z) : Z :=
  if index <? 0 then as_usize (as_i64 (len + index)) else as_usize index.

Definition get_at (l : list bytes) (i : Z) : option bytes := if i <? zlen l then l !! Z.to_nat i else None.

Definition lindex (key : bytes) (index now : Z) (s : Store) : option bytes :=
  match find s key with
  | Some e => if is_expired_at now e then None
              else match value e with VList l => get_at l (list_index (zlen l) index) | _ => None end
  | None => None
  end.

(** ** Updating *)

Definition lset (key : bytes) (index : Z) (val : bytes) (now : Z) (s : Store) : result unit * Store :=
  let s := bump key s in
  match find s key with
  | Some e =>
      if is_expired_at now e then (Err "ERR no such key", s)
      else match value e with
           | VList l =>
               let i := list_index (zlen l) index in
               match get_at l i with
               | None => (Err "ERR index out of range", s)
               | Some old =>
                   let delta := zlen val - zlen old in
                   let s := set_list key e (<[Z.to_nat i := val]> l) s in
                   (Ok tt, if delta >? 0 then charge key delta s
                           else if delta <? 0 then refund key (- delta) s else s)
               end
           | _ => (Err WRONGTYPE, s)
           end
  | None => (Err "ERR no such key", s)
  end.

(** [list.iter().position(|v| v == pivot)] *)
Fixpoint position (pivot : bytes) (l : list bytes) : option nat :=
  match l with
  | [] => None
  | x :: l => if bytes_eqb x pivot then Some 0%nat else S <$> position pivot l
  end.

Definition insert_at (i : nat) (x : bytes) (l : list bytes) : list bytes := take i l ++ x :: drop i l.

Definition linsert (key : bytes) (before : bool) (pivot val : bytes) (now : Z) (s : Store)
    : result Z * Store :=
  let s := bump key s in
  match find s key with
  | Some e =>
      if is_expired_at now e then (Ok 0, s)
      else match value e with
           | VList l =>
               match position pivot l with
               | Some pos =>
                   let l := insert_at (if before then pos else S pos) val l in
                   (Ok (zlen l), charge key (zlen val + 32) (set_list key e l s))
               | None => (Ok (-1), s)
               end
           | _ => (Err WRONGTYPE, s)
           end
  | None => (Ok 0, s)
  end.

(** [list.remove(i)] *)
Definition remove_at (i : nat) (l : list bytes) : list bytes := take i l ++ drop (S i) l.

(** The loop of LREM from the front: position and number removed. *)
Fixpoint lrem_front (fuel : nat) (val : bytes) (count : Z) (i : nat) (removed : Z) (l : list bytes)
    : Z * list bytes :=
  match fuel with
  | O => (removed, l)
  | S fuel =>
      match l !! i with
      | Some x =>
          if removed <? count then
            if bytes_eqb x val then lrem_front fuel val count i (removed + 1) (remove_at i l)
            else lrem_front fuel val count (S i) removed l
          else (removed, l)
      | None => (removed, l)
      end
  end.

(** The loop from the back, over the positions below [i]. *)
Fixpoint lrem_back (i : nat) (val : bytes) (limit : Z) (removed : Z) (l : list bytes) : Z * list bytes :=
  match i with
  | O => (removed, l)
  | S i =>
      if removed <? limit then
        match l !! i with
        | Some x => if bytes_eqb x val then lrem_back i val limit (removed + 1) (remove_at i l)
                    else lrem_back i val limit removed l
        | None => (removed, l)
        end
      else (removed, l)
  end.

(** [i64::abs] in a release build: the minimum is its own absolute value. *)
Definition i64_abs (z : Z) : Z := as_i64 (Z.abs z).

Definition lrem_list (count : Z) (val : bytes) (l : list bytes) : Z * list bytes :=
  if count >? 0 then lrem_front (length l) val count 0 0 l
  else if count <? 0 then lrem_back (length l) val (i64_abs count) 0 l
  else let kept := filter (fun x => x ≠ val) l in (zlen l - zlen kept, kept).

Definition lrem (key : bytes) (count : Z) (val : bytes) (now : Z) (s : Store) : result Z * Store :=
  let s := bump key s in
  match find s key with
  | Some e =>
      if is_expired_at now e then (Ok 0, s)
      else match value e with
           | VList l =>
               let '(removed, l) := lrem_list count val l in
               (Ok removed, refund key (removed * (zlen val + 32)) (set_list key e l s))
           | _ => (Err WRONGTYPE, s)
           end
  | None => (Ok 0, s)
  end.

(** [ltrim]: [drain(s..e)] panics when the range does not fit the list. *)
Definition ltrim (key : bytes) (start stop now : Z) (s : Store) : outcome (result unit * Store) :=
  let s := bump key s in
  match find s key with
  | Some e =>
      if is_expired_at now e then Returned (Ok tt, s)
      else match value e with
           | VList l =>
               let b := range_start (zlen l) start in
               let en := range_end (zlen l) stop in
               let finish l' :=
                 let freed := items_memory l - items_memory l' in
                 let s := set_list key e l' s in
                 Returned (Ok tt, if freed >? 0 then refund key freed s else s) in
               if b >=? en then finish []
               else if en <=? zlen l then finish (slice l (Z.to_nat b) (Z.to_nat en))
               else Panicked
           | _ => Returned (Err WRONGTYPE, s)
           end
  | None => Returned (Ok tt, s)
  end.

(** [lmove]: the pop, then the push onto the destination. *)
Definition lmove (src dst : bytes) (from_left to_left : bool) (now : Z) (s : Store)
    : option bytes * Store :=
  match pop_on_shard from_left src now (bump src s) with
  | (None, s) => (None, s)
  | (Some v, s) =>
      let s := bump dst s in
      let '(e, s1) := open_list dst now s in
      match value e with
      | VList l =>
          (Some v, charge dst (zlen v + 32) (set_list dst e (if to_left then v :: l else l ++ [v]) s1))
      | _ => (Some v, s)
      end
  end.

Definition preview_lmove (hll_count : bytes -> Z) (clock : Z) (src dst : bytes) (from_left : bool)
    (now : Z) (s : Store) : result (option bytes) * Store :=
  match try_promote hll_count clock src now s with
  | (Err e, s) => (Err e, s)
  | (Ok _, s) =>
      match try_promote hll_count clock dst now s with
      | (Err e, s) => (Err e, s)
      | (Ok _, s) =>
          let dst_ok := match live s now dst with
                        | Some e => match value e with VList _ => true | _ => false end
                        | None => true
                        end in
          if negb dst_ok then (Err WRONGTYPE, s)
          else match live s now src with
               | Some e => match value e with
                           | VList l => (Ok (fst <$> take_end from_left l), s)
                           | _ => (Err WRONGTYPE, s)
                           end
               | None => (Ok None, s)
               end
      end
  end.

(** ** The command machine and its specification *)

Abbreviation keyspace := (gmap bytes ((bytes + StoreValue) * option Z)).

Inductive lcmd :=
| LPush (key : bytes) (items : list bytes)
| RPush (key : bytes) (items : list bytes)
| LPushX (key : bytes) (items : list bytes)
| RPushX (key : bytes) (items : list bytes)
| LPop (key : bytes)
| RPop (key : bytes)
| LMPop (keys : list bytes) (left : bool) (count : nat)
| LLen (key : bytes)
| LRange (key : bytes) (start stop : Z)
| LIndex (key : bytes) (index : Z)
| LSet (key : bytes) (index : Z) (val : bytes)
| LInsert (key : bytes) (before : bool) (pivot val : bytes)
| LRem (key : bytes) (count : Z) (val : bytes)
| LTrim (key : bytes) (start stop : Z)
| LMove (src dst : bytes) (from_left to_left : bool).

Inductive lreply :=
| LUnit
| LInt (n : Z)
| LBulk (b : option bytes)
| LItems (l : list bytes)
| LPopped (p : option (bytes * list bytes))
| LErr (e : string).

Definition lreply_of {A : Type} (f : A -> lreply) (r : result A) : lreply :=
  match r with Ok a => f a | Err e => LErr e end.

Definition lexec (hll_count : bytes -> Z) (now : Z) (c : lcmd) (s : Store) : outcome (lreply * Store) :=
  match c with
  | LPush k vs => let '(r, s) := lpush k vs now s in Returned (lreply_of LInt r, s)
  | RPush k vs => let '(r, s) := rpush k vs now s in Returned (lreply_of LInt r, s)
  | LPushX k vs => let '(n, s) := lpushx k vs now s in Returned (LInt n, s)
  | RPushX k vs => let '(n, s) := rpushx k vs now s in Returned (LInt n, s)
  | LPop k => let '(b, s) := pop true k now s in Returned (LBulk b, s)
  | RPop k => let '(b, s) := pop false k now s in Returned (LBulk b, s)
  | LMPop ks lf n => let '(r, s) := lmpop hll_count now ks lf n now s in Returned (lreply_of LPopped r, s)
  | LLen k => Returned (lreply_of LInt (llen k now s), s)
  | LRange k a b => r ← lrange k a b now s; Returned (lreply_of LItems r, s)
  | LIndex k i => Returned (LBulk (lindex k i now s), s)
  | LSet k i v => let '(r, s) := lset k i v now s in Returned (lreply_of (fun _ => LUnit) r, s)
  | LInsert k b p v => let '(r, s) := linsert k b p v now s in Returned (lreply_of LInt r, s)
  | LRem k n v => let '(r, s) := lrem k n v now s in Returned (lreply_of LInt r, s)
  | LTrim k a b => '(r, s) ← ltrim k a b now s; Returned (lreply_of (fun _ => LUnit) r, s)
  | LMove a b fl tl => let '(r, s) := lmove a b fl tl now s in Returned (LBulk r, s)
  end.

(** What a key means to a list command: a list (empty when the key is not there) with its
    deadline, or a value of another type. *)
Inductive view :=
| Absent
| AList (l : list bytes) (exp : option Z)
| Other.

Definition view_of (o : option ((bytes + StoreValue) * option Z)) : view :=
  match o with
  | None => Absent
  | Some (inr (VList l), exp) => AList l exp
  | Some _ => Other
  end.

Definition aput (k : bytes) (l : list bytes) (exp : option Z) (m : keyspace) : keyspace :=
  <[k := (inr (VList l), exp)]> m.

(** The elements from position [lo] to position [hi], both included. *)
Definition sublist (lo hi : Z) (l : list bytes) : list bytes :=
  take (Z.to_nat (hi - lo + 1)) (drop (Z.to_nat lo) l).
Definition from_pos (len p : Z) : Z := if p <? 0 then Z.max 0 (len + p) else p.
Definition to_pos (len p : Z) : Z := if p <? 0 then len + p else p.

(** The element at a position counted from either end. *)
Definition nth_pos (l : list bytes) (i : Z) : option nat :=
  let i := if i <? 0 then zlen l + i else i in
  if (0 <=? i) && (i <? zlen l) then Some (Z.to_nat i) else None.

(** Removal of the first [n] occurrences of a value. *)
Fixpoint remove_first (n : nat) (x : bytes) (l : list bytes) : list bytes :=
  match n, l with
  | O, _ => l
  | _, [] => []
  | S n', y :: l => if decide (y = x) then remove_first n' x l else y :: remove_first n x l
  end.

(** LREM: the first or the last occurrences, or all of them. *)
Definition arem (count : Z) (x : bytes) (l : list bytes) : list bytes :=
  if count >? 0 then remove_first (Z.to_nat count) x l
  else if count <? 0 then reverse (remove_first (Z.to_nat (- count)) x (reverse l))
  else filter (fun y => y ≠ x) l.

Definition aends (left : bool) (n : nat) (l : list bytes) : list bytes * list bytes :=
  if left then (take n l, drop n l)
  else (take n (reverse l), reverse (drop n (reverse l))).

Fixpoint ampop (ks : list bytes) (left : bool) (n : nat) (m : keyspace) : lreply * keyspace :=
  match ks with
  | [] => (LPopped None, m)
  | k :: ks =>
      match view_of (m !! k) with
      | Absent => ampop ks left n m
      | Other => (LErr WRONGTYPE, m)
      | AList l exp =>
          let '(items, rest) := aends left n l in
          if decide (items = []) then ampop ks left n m
          else (LPopped (Some (k, items)), aput k rest exp m)
      end
  end.

Definition apush (front : bool) (k : bytes) (vs : list bytes) (v : view) (m : keyspace)
    : lreply * keyspace :=
  let put l exp := let l := if front then reverse vs ++ l else l ++ vs in
                   (LInt (zlen l), aput k l exp m) in
  match v with
  | Absent => put [] None
  | AList l exp => put l exp
  | Other => (LErr WRONGTYPE, m)
  end.

Definition apop (left : bool) (k : bytes) (m : keyspace) : option bytes * keyspace :=
  match view_of (m !! k) with
  | AList l exp => match aends left 1 l with
                   | ([x], rest) => (Some x, aput k rest exp m)
                   | _ => (None, m)
                   end
  | _ => (None, m)
  end.

Definition lspec (now : Z) (c : lcmd) (m : keyspace) : outcome (lreply * keyspace) :=
  match c with
  | LPush k vs => Returned (apush true k vs (view_of (m !! k)) m)
  | RPush k vs => Returned (apush false k vs (view_of (m !! k)) m)
  | LPushX k vs =>
      Returned (match view_of (m !! k) with
                | AList l exp => apush true k vs (AList l exp) m
                | _ => (LInt 0, m)
                end)
  | RPushX k vs =>
      Returned (match view_of (m !! k) with
                | AList l exp => apush false k vs (AList l exp) m
                | _ => (LInt 0, m)
                end)
  | LPop k => let '(r, m) := apop true k m in Returned (LBulk r, m)
  | RPop k => let '(r, m) := apop false k m in Returned (LBulk r, m)
  | LMPop ks lf n => Returned (ampop ks lf n m)
  | LLen k =>
      Returned (match view_of (m !! k) with
                | Absent => LInt 0 | AList l _ => LInt (zlen l) | Other => LErr WRONGTYPE
                end, m)
  | LRange k a b =>
      match view_of (m !! k) with
      | Absent => Returned (LItems [], m)
      | Other => Returned (LErr WRONGTYPE, m)
      | AList l _ => if b =? i64_max then Panicked
                     else Returned (LItems (sublist (from_pos (zlen l) a) (to_pos (zlen l) b) l), m)
      end
  | LIndex k i =>
      Returned (LBulk (match view_of (m !! k) with
                       | AList l _ => p ← nth_pos l i; l !! p
                       | _ => None
                       end), m)
  | LSet k i v =>
      Returned (match view_of (m !! k) with
                | Absent => (LErr "ERR no such key", m)
                | Other => (LErr WRONGTYPE, m)
                | AList l exp => match nth_pos l i with
                                 | Some p => (LUnit, aput k (<[p := v]> l) exp m)
                                 | None => (LErr "ERR index out of range", m)
                                 end
                end)
  | LInsert k before pivot v =>
      Returned (match view_of (m !! k) with
                | Absent => (LInt 0, m)
                | Other => (LErr WRONGTYPE, m)
                | AList l exp =>
                    match list_find (fun x => x = pivot) l with
                    | Some (p, _) =>
                        let p := if before then p else S p in
                        (LInt (zlen l + 1), aput k (take p l ++ [v] ++ drop p l) exp m)
                    | None => (LInt (-1), m)
                    end
                end)
  | LRem k n v =>
      Returned (match view_of (m !! k) with
                | Absent => (LInt 0, m)
                | Other => (LErr WRONGTYPE, m)
                | AList l exp => let l' := arem n v l in (LInt (zlen l - zlen l'), aput k l' exp m)
                end)
  | LTrim k a b =>
      match view_of (m !! k) with
      | Absent => Returned (LUnit, m)
      | Other => Returned (LErr WRONGTYPE, m)
      | AList l exp =>
          if b =? i64_max then Panicked
          else Returned (LUnit, aput k (sublist (from_pos (zlen l) a) (to_pos (zlen l) b) l) exp m)
      end
  | LMove a b fl tl =>
      match apop fl a m with
      | (None, m) => Returned (LBulk None, m)
      | (Some x, m) => Returned (LBulk (Some x), (apush tl b [x] (view_of (m !! b)) m).2)
      end
  end.

(** 64-bit arguments; LREM's count is not the smallest integer, whose absolute value does not
    exist; and lists that fit in memory. *)
Definition lcmd_ok (c : lcmd) : Prop :=
  match c with
  | LRange _ a b | LTrim _ a b => i64_min <= a <= i64_max /\ i64_min <= b <= i64_max
  | LIndex _ i | LSet _ i _ => i64_min <= i <= i64_max
  | LRem _ n _ => i64_min < n <= i64_max
  | _ => True
  end.

Definition short_lists (m : keyspace) : Prop :=
  forall k l exp, m !! k = Some (inr (VList l), exp) -> zlen l < 2 ^ 58.

(** ** Lemmas on lists *)

Lemma push_front_all_spec vs l : push_front_all vs l = reverse vs ++ l.
Proof.
  unfold push_front_all. revert l. induction vs as [|v vs IH]; intros l; cbn [foldl]; [done|].
  by rewrite IH, reverse_cons, <-(assoc_L (++)).
Qed.

Lemma push_back_all_spec vs l : push_back_all vs l = l ++ vs.
Proof.
  unfold push_back_all. revert l. induction vs as [|v vs IH]; intros l; cbn [foldl]; [by rewrite app_nil_r|].
  by rewrite IH, <-(assoc_L (++)).
Qed.

Lemma take_back_snoc l x : take_back (l ++ [x]) = Some (x, l).
Proof.
  unfold take_back. rewrite last_snoc, length_app. cbn. do 2 f_equal.
  rewrite take_app_le by lia. apply take_ge. lia.
Qed.

(** One pop, and the rest of the pops from the same end. *)
Lemma take_end_aends left n l :
  match take_end left l with
  | None => l = []
  | Some (x, l1) => aends left (S n) l = let '(items, rest) := aends left n l1 in (x :: items, rest)
  end.
Proof.
  destruct left; cbn [take_end].
  - by destruct l.
  - destruct l as [|x l _] using rev_ind; [done|]. rewrite take_back_snoc. unfold aends.
    rewrite reverse_snoc. done.
Qed.

Lemma aends_nil left n : aends left n [] = ([], []).
Proof. unfold aends. destruct left; by rewrite ?reverse_nil, ?take_nil, ?drop_nil. Qed.

Lemma aends_zero left l : aends left 0 l = ([], l).
Proof. destruct left; cbn; by rewrite ?drop_0, ?reverse_involutive. Qed.

Lemma aends_items_nil left n l : (aends left n l).1 = [] -> (aends left n l).2 = l.
Proof.
  destruct n as [|n]; [by rewrite aends_zero|]. pose proof (take_end_aends left n l) as H.
  destruct (take_end left l) as [[x l1]|]; [|subst; by rewrite aends_nil].
  rewrite H. by destruct (aends left n l1).
Qed.

(** The bounds of a range, when nothing wraps. *)
Lemma range_start_spec len start :
  0 <= len < 2 ^ 58 -> i64_min <= start <= i64_max ->
  range_start len start = Z.min (from_pos len start) len /\ 0 <= from_pos len start.
Proof.
  intros Hl Hs. unfold range_start, from_pos, as_usize. unfold i64_min, i64_max in *.
  destruct (Z.ltb_spec start 0).
  - rewrite as_i64_small by (unfold i64_min, i64_max; lia).
    rewrite as_u64_small by (unfold u64_mod; lia). lia.
  - rewrite as_u64_small by (unfold u64_mod; lia). lia.
Qed.

Lemma range_end_spec len stop :
  0 <= len < 2 ^ 58 -> i64_min <= stop <= i64_max -> stop ≠ i64_max ->
  range_end len stop = Z.max 0 (Z.min (to_pos len stop + 1) len).
Proof.
  intros Hl Hs Hne. unfold range_end, to_pos, as_usize. unfold i64_min, i64_max in *.
  destruct (Z.ltb_spec stop 0).
  - rewrite (as_i64_small (len + stop)) by (unfold i64_min, i64_max; lia).
    rewrite as_i64_small by (unfold i64_min, i64_max; lia).
    rewrite as_u64_small by (unfold u64_mod; lia). lia.
  - rewrite as_i64_small by (unfold i64_min, i64_max; lia).
    rewrite as_u64_small by (unfold u64_mod; lia). lia.
Qed.

Lemma range_end_max len : 0 <= len < 2 ^ 58 -> range_end len i64_max = 9223372036854775808.
Proof.
  intros Hl. unfold range_end, as_usize. change (i64_max <? 0) with false. cbn iota.
  change (as_i64 (i64_max + 1)) with i64_min. rewrite Z.min_l by (unfold i64_min; lia). done.
Qed.

(** What a range selects, from its two bounds. *)
Lemma slice_sublist (l : list bytes) a b :
  0 <= a ->
  let lo := Z.min a (zlen l) in
  let hi := Z.max 0 (Z.min (b + 1) (zlen l)) in
  sublist a b l = if lo >=? hi then [] else slice l (Z.to_nat lo) (Z.to_nat hi).
Proof.
  intros Ha lo hi. assert (zlen l = Z.of_nat (length l)) as El by done. unfold sublist, slice.
  destruct (Z.geb_spec lo hi).
  - apply length_zero_iff_nil. rewrite length_take, length_drop. lia.
  - unfold lo. rewrite Z.min_l by lia. destruct (Z.le_gt_cases (b + 1) (zlen l)).
    + f_equal. lia.
    + rewrite !take_ge; [done| |]; rewrite length_drop; lia.
Qed.

Lemma list_index_spec (l : list bytes) i :
  zlen l < 2 ^ 58 -> i64_min <= i <= i64_max ->
  nth_pos l i = if list_index (zlen l) i <? zlen l then Some (Z.to_nat (list_index (zlen l) i)) else None.
Proof.
  intros Hl Hi. pose proof (zlen_nonneg l). unfold nth_pos, list_index, as_usize.
  unfold i64_min, i64_max in *. destruct (Z.ltb_spec i 0).
  - rewrite as_i64_small by (unfold i64_min, i64_max; lia).
    destruct (Z.leb_spec 0 (zlen l + i)); cbn [andb].
    + rewrite as_u64_small by (unfold u64_mod; lia). by destruct (Z.ltb_spec (zlen l + i) (zlen l)).
    + assert (as_u64 (zlen l + i) = zlen l + i + u64_mod) as ->.
      { unfold as_u64. rewrite <-(Z.mod_add _ 1) by done. rewrite Z.mod_small; unfold u64_mod; lia. }
      destruct (Z.ltb_spec (zlen l + i + u64_mod) (zlen l)); [unfold u64_mod in *; lia|done].
  - rewrite as_u64_small by (unfold u64_mod; lia). destruct (Z.leb_spec 0 i); [|lia]. done.
Qed.

Lemma position_find pivot l :
  position pivot l = fst <$> list_find (fun x => x = pivot) l.
Proof.
  induction l as [|x l IH]; cbn; [done|]. unfold bytes_eqb. destruct (decide (x = pivot)) as [->|Hne].
  - by rewrite bool_decide_eq_true_2.
  - rewrite bool_decide_eq_false_2 by done. rewrite IH. by destruct (list_find _ l) as [[]|].
Qed.

Lemma remove_at_take i l : (i <= length l)%nat -> take i (remove_at i l) = take i l.
Proof. intros. unfold remove_at. rewrite take_app_le by (rewrite length_take; lia). rewrite take_take. f_equal. lia. Qed.

Lemma remove_at_drop i l : (i <= length l)%nat -> drop i (remove_at i l) = drop (S i) l.
Proof.
  intros. unfold remove_at. rewrite drop_app_ge by (rewrite length_take; lia).
  rewrite length_take, Nat.min_l, Nat.sub_diag by lia. by rewrite drop_0.
Qed.

Lemma remove_at_length i l : (i < length l)%nat -> length (remove_at i l) = (length l - 1)%nat.
Proof. intros. unfold remove_at. rewrite length_app, length_take, length_drop. lia. Qed.

Lemma remove_first_0 x l : remove_first 0 x l = l.
Proof. by destruct l. Qed.

Lemma lrem_front_spec fuel : forall val count i removed l,
  (i <= length l)%nat -> (length l - i <= fuel)%nat ->
  let r := remove_first (Z.to_nat (count - removed)) val (drop i l) in
  lrem_front fuel val count i removed l =
    (removed + (zlen (drop i l) - zlen r), take i l ++ r).
Proof.
  induction fuel as [|fuel IH]; intros val count i removed l Hi Hf r; cbn [lrem_front].
  - unfold r. rewrite drop_ge, take_ge by lia. destruct (Z.to_nat _); cbn; rewrite app_nil_r; f_equal; lia.
  - destruct (l !! i) as [x|] eqn:Ex.
    2:{ apply lookup_ge_None in Ex. unfold r. rewrite drop_ge, take_ge by lia.
        destruct (Z.to_nat _); cbn; rewrite app_nil_r; f_equal; lia. }
    pose proof (lookup_lt_Some _ _ _ Ex) as Hlt. pose proof (drop_S _ _ _ Ex) as Ed.
    destruct (Z.ltb_spec removed count) as [Hrc|Hrc].
    + unfold r. replace (Z.to_nat (count - removed)) with (S (Z.to_nat (count - (removed + 1)))) by lia.
      rewrite Ed. cbn [remove_first]. unfold bytes_eqb.
      destruct (decide (x = val)) as [->|Hne].
      * rewrite bool_decide_eq_true_2 by done.
        rewrite IH by (rewrite remove_at_length by done; lia).
        rewrite remove_at_take, remove_at_drop by lia. rewrite zlen_cons. f_equal. lia.
      * rewrite bool_decide_eq_false_2 by done. rewrite IH by lia.
        replace (S (Z.to_nat (count - (removed + 1)))) with (Z.to_nat (count - removed)) by lia.
        rewrite !zlen_cons, (take_S_r _ _ _ Ex), <-(assoc_L (++)). f_equal. lia.
    + unfold r. replace (Z.to_nat (count - removed)) with 0%nat by lia.
      rewrite remove_first_0, take_drop. f_equal. lia.
Qed.

Lemma lrem_back_spec i : forall val limit removed l,
  (i <= length l)%nat ->
  let r := reverse (remove_first (Z.to_nat (limit - removed)) val (reverse (take i l))) in
  lrem_back i val limit removed l = (removed + (zlen (take i l) - zlen r), r ++ drop i l).
Proof.
  induction i as [|i IH]; intros val limit removed l Hi r; cbn [lrem_back].
  - unfold r. rewrite take_0, drop_0. destruct (Z.to_nat _); cbn; f_equal; lia.
  - destruct (lookup_lt_is_Some_2 l i ltac:(lia)) as [x Ex]. rewrite Ex.
    unfold r. rewrite (take_S_r _ _ _ Ex), reverse_snoc. destruct (Z.ltb_spec removed limit) as [Hrc|Hrc].
    + replace (Z.to_nat (limit - removed)) with (S (Z.to_nat (limit - (removed + 1)))) by lia.
      cbn [remove_first]. unfold bytes_eqb. destruct (decide (x = val)) as [->|Hne].
      * rewrite bool_decide_eq_true_2 by done.
        rewrite IH by (rewrite remove_at_length by lia; lia).
        rewrite remove_at_take, remove_at_drop by lia.
        rewrite zlen_app, zlen_cons. f_equal. unfold zlen. cbn. lia.
      * rewrite bool_decide_eq_false_2 by done. rewrite IH by lia.
        replace (S (Z.to_nat (limit - (removed + 1)))) with (Z.to_nat (limit - removed)) by lia.
        rewrite reverse_cons, !zlen_app, (drop_S _ _ _ Ex), <-(assoc_L (++)). f_equal. unfold zlen. cbn. lia.
    + replace (Z.to_nat (limit - removed)) with 0%nat by lia.
      rewrite remove_first_0, reverse_cons, reverse_involutive. rewrite <-(take_S_r _ _ _ Ex), take_drop. f_equal. lia.
Qed.

Lemma lrem_list_spec count val l :
  i64_min < count <= i64_max ->
  lrem_list count val l = (zlen l - zlen (arem count val l), arem count val l).
Proof.
  intros Hc. unfold lrem_list, arem. destruct (Z.gtb_spec count 0).
  - rewrite lrem_front_spec by lia. rewrite Z.sub_0_r, drop_0. cbn [take app]. f_equal.
  - destruct (Z.ltb_spec count 0); [|done].
    assert (i64_abs count = - count) as ->.
    { unfold i64_abs. rewrite Z.abs_neq by lia. apply as_i64_small. unfold i64_min, i64_max in *. lia. }
    rewrite lrem_back_spec by lia. rewrite Z.sub_0_r, drop_all, take_ge, app_nil_r by lia. f_equal.
Qed.

(** ** Lemmas on the store *)

Lemma view_value v exp :
  view_of (Some (abs_value v, exp)) = match v with VList l => AList l exp | _ => Other end.
Proof. by destruct v. Qed.

(** What a list command finds under a key. *)
Lemma view_find now s m k :
  state_ok now s m ->
  view_of (m !! k) =
    match find s k with
    | Some e => if is_expired_at now e then Absent
                else match value e with VList l => AList l (expires_at e) | _ => Other end
    | None => Absent
    end.
Proof.
  intros Hok. destruct (find s k) as [e|] eqn:Ef; [destruct (is_expired_at now e) eqn:Ee|].
  - by rewrite (ok_dead _ s _ k Hok) by (by rewrite Ef).
  - destruct (ok_live _ s _ k e Hok Ef Ee) as [-> _]. apply view_value.
  - by rewrite (ok_dead _ s _ k Hok) by (by rewrite Ef).
Qed.

Lemma view_live now s m k :
  state_ok now s m ->
  view_of (m !! k) = match live s now k with
                     | Some e => match value e with VList l => AList l (expires_at e) | _ => Other end
                     | None => Absent
                     end.
Proof.
  intros Hok. rewrite (view_find _ _ _ _ Hok). unfold live. destruct (find s k) as [e|]; [|done].
  by destruct (is_expired_at now e).
Qed.

Lemma view_short m k l exp : short_lists m -> view_of (m !! k) = AList l exp -> zlen l < 2 ^ 58.
Proof.
  intros Hs. destruct (m !! k) as [[[b|v] x]|] eqn:E; [done| |done]. destruct v; try done.
  intros [= -> ->]. by eapply Hs.
Qed.

Lemma ok_charge now key n s m : state_ok now s m -> state_ok now (charge key n s) m.
Proof.
  intros [[Hn Hd] Hm]. split; [split; [by apply nonempty_shard_mem_add|done]|].
  eapply holds_same; [done|]. intros k. unfold charge. by autorewrite with lux.
Qed.

Lemma ok_refund now key n s m : state_ok now s m -> state_ok now (refund key n s) m.
Proof.
  intros [[Hn Hd] Hm]. split; [split; [by apply nonempty_shard_mem_sub|done]|].
  eapply holds_same; [done|]. intros k. unfold refund. by autorewrite with lux.
Qed.

Lemma ok_key_added now s m : state_ok now s m -> state_ok now (key_added s) m.
Proof. by intros [[Hn Hd] Hm]. Qed.

Lemma ok_set_list now key e l s m :
  state_ok now s m -> alive now (expires_at e) = true ->
  state_ok now (set_list key e l s) (aput key l (expires_at e) m).
Proof. intros Hok Ha. by apply (ok_update now key (mkEntry (VList l) (expires_at e) (e_lru_clock e))). Qed.

(** The entry a push works on. *)
Lemma open_list_ok now key s m :
  state_ok now s m ->
  let '(e, s1) := open_list key now s in
  state_ok now s1 m /\ alive now (expires_at e) = true /\
  match view_of (m !! key) with
  | Absent => value e = VList [] /\ expires_at e = None
  | AList l exp => value e = VList l /\ expires_at e = exp
  | Other => match value e with VList _ => False | _ => s1 = s end
  end.
Proof.
  intros Hok. rewrite (view_find _ _ _ key Hok). unfold open_list.
  destruct (find s key) as [e|] eqn:Ef; [destruct (is_expired_at now e) eqn:Ee|]; [done| |done].
  destruct (ok_live _ s _ key e Hok Ef Ee) as [_ Ha]. split; [done|]. split; [done|].
  by destruct (value e).
Qed.

(** A live list and the deadline of its entry. *)
Lemma view_alist now s m k l exp :
  state_ok now s m -> view_of (m !! k) = AList l exp ->
  exists e, find s k = Some e /\ is_expired_at now e = false /\ value e = VList l /\
    expires_at e = exp /\ alive now (expires_at e) = true.
Proof.
  intros Hok. rewrite (view_find _ _ _ k Hok). destruct (find s k) as [e|] eqn:Ef; [|done].
  destruct (is_expired_at now e) eqn:Ee; [done|]. destruct (ok_live _ s _ k e Hok Ef Ee) as [_ Ha].
  destruct (value e) eqn:Ev; try done. intros [= -> <-]. by exists e.
Qed.

Lemma pop_on_shard_ok now left key s m :
  state_ok now s m ->
  let '(r, s') := pop_on_shard left key now s in
  match view_of (m !! key) with
  | AList l exp => match take_end left l with
                   | Some (x, l) => r = Some x /\ state_ok now s' (aput key l exp m)
                   | None => r = None /\ state_ok now s' m
                   end
  | _ => r = None /\ state_ok now s' m
  end.
Proof.
  intros Hok. rewrite (view_find _ _ _ key Hok). unfold pop_on_shard.
  destruct (find s key) as [e|] eqn:Ef; [|done]. destruct (is_expired_at now e) eqn:Ee; [done|].
  destruct (ok_live _ s _ key e Hok Ef Ee) as [_ Ha]. destruct (value e); try done.
  destruct (take_end left l) as [[x l1]|]; [|done]. split; [done|]. by apply ok_refund, ok_set_list.
Qed.

Lemma aput_same k l exp m : view_of (m !! k) = AList l exp -> aput k l exp m = m.
Proof.
  intros E. apply insert_id. destruct (m !! k) as [[[b|v] x]|]; try done. destruct v; try done.
  by injection E as -> ->.
Qed.

Lemma aput_aput k l l' exp m : aput k l exp (aput k l' exp m) = aput k l exp m.
Proof. apply insert_insert_eq. Qed.

Lemma view_aput k l exp m : view_of (aput k l exp m !! k) = AList l exp.
Proof. unfold aput. by rewrite lookup_insert_eq. Qed.

Lemma pop_many_ok now left key n : forall s m l exp,
  state_ok now s m -> view_of (m !! key) = AList l exp ->
  let '(items, s') := pop_many n left key now s in
  items = (aends left n l).1 /\ state_ok now s' (aput key (aends left n l).2 exp m).
Proof.
  induction n as [|n IH]; intros s m l exp Hok Hv; cbn [pop_many].
  - rewrite aends_zero. cbn [fst snd]. by rewrite (aput_same _ _ _ _ Hv).
  - pose proof (pop_on_shard_ok now left key s m Hok) as Hp. rewrite Hv in Hp.
    pose proof (take_end_aends left n l) as Ht. destruct (pop_on_shard left key now s) as [r s1].
    destruct (take_end left l) as [[x l1]|].
    + destruct Hp as [-> Hok1]. rewrite Ht.
      pose proof (IH s1 (aput key l1 exp m) l1 exp Hok1 (view_aput _ _ _ _)) as H.
      destruct (pop_many n left key now s1) as [items s2], (aends left n l1) as [items' rest].
      destruct H as [-> H]. cbn [fst snd] in *. by rewrite aput_aput in H.
    + destruct Hp as [-> Hok1]. subst l. rewrite aends_nil. cbn [fst snd]. by rewrite (aput_same _ _ _ _ Hv).
Qed.

Lemma lmpop_ok hc now left n ks : forall s m,
  state_ok now s m ->
  let '(r, s') := lmpop hc now ks left n now s in
  lreply_of LPopped r = (ampop ks left n m).1 /\ state_ok now s' (ampop ks left n m).2.
Proof.
  induction ks as [|k ks IH]; intros s m Hok; cbn [lmpop ampop]; [done|].
  rewrite hot_promote by apply Hok. pose proof (view_live now s m k Hok) as Hv.
  destruct (live s now k) as [e|]; [|rewrite Hv; by apply IH].
  destruct (value e) as [| |l| | | | | | |] eqn:Ev; rewrite Hv; try (by split).
  destruct l as [|x l]; [rewrite aends_nil; cbn; by apply IH|]. set (l0 := x :: l) in *.
  pose proof (pop_many_ok now left k n s m l0 (expires_at e) Hok Hv) as Hp.
  pose proof (aends_items_nil left n l0) as Hnil.
  destruct (pop_many n left k now s) as [items s1], (aends left n l0) as [items' rest].
  cbn [fst snd] in *. destruct Hp as [-> Hok1]. destruct (decide (items' = [])) as [Hi|Hi].
  - rewrite bool_decide_eq_true_2 by done. rewrite (Hnil Hi), (aput_same _ _ _ _ Hv) in Hok1. by apply IH.
  - rewrite bool_decide_eq_false_2 by done. cbn [fst snd]. split; [done|].
    pose proof (ok_bump now k _ _ Hok1) as Hb. by rewrite (ok_remove_from_disk _ k _ _ Hb).
Qed.

Lemma lpush_ok now key items s m :
  state_ok now s m ->
  let '(r, s') := lpush key items now s in
  lreply_of LInt r = (apush true key items (view_of (m !! key)) m).1 /\
  state_ok now s' (apush true key items (view_of (m !! key)) m).2.
Proof.
  intros Hok. unfold lpush. pose proof (open_list_ok now key s m Hok) as H.
  destruct (open_list key now s) as [e s1]. destruct H as (Hok1 & Ha & Hv).
  pose proof (fun l => ok_charge now key (items_memory items) _ _
    (ok_bump now key _ _ (ok_set_list now key e l s1 m Hok1 Ha))) as Hp.
  unfold apush. destruct (view_of (m !! key)) as [|l exp|].
  - destruct Hv as [-> Hx]. rewrite push_front_all_spec. rewrite Hx in Hp. by split.
  - destruct Hv as [-> <-]. rewrite push_front_all_spec. by split.
  - by destruct (value e).
Qed.

Lemma rpush_ok now key items s m :
  state_ok now s m ->
  let '(r, s') := rpush key items now s in
  lreply_of LInt r = (apush false key items (view_of (m !! key)) m).1 /\
  state_ok now s' (apush false key items (view_of (m !! key)) m).2.
Proof.
  intros Hok. unfold rpush. apply (ok_bump now key) in Hok. set (s0 := bump key s) in *.
  pose proof (open_list_ok now key s0 m Hok) as H.
  destruct (open_list key now s0) as [e s1]. destruct H as (Hok1 & Ha & Hv).
  pose proof (fun l => ok_charge now key (items_memory items) _ _
    (ok_set_list now key e l s1 m Hok1 Ha)) as Hp.
  unfold apush. destruct (view_of (m !! key)) as [|l exp|].
  - destruct Hv as [-> Hx]. rewrite push_back_all_spec. rewrite Hx in Hp. by split.
  - destruct Hv as [-> <-]. rewrite push_back_all_spec. by split.
  - by destruct (value e).
Qed.

(** Opening a live list: the commands below bump the version, then work on the entry. *)
Ltac on_list now key s m Hok Hv Ha :=
  let Ef := fresh "Ef" in let Ee := fresh "Ee" in
  apply (ok_bump now key) in Hok; pose proof (view_find now (bump key s) m key Hok) as Hv; rewrite Hv;
  destruct (find (bump key s) key) as [e|] eqn:Ef; [|done];
  destruct (is_expired_at now e) eqn:Ee; [done|];
  destruct (ok_live _ (bump key s) _ key e Hok Ef Ee) as [_ Ha];
  destruct (value e) as [| |l| | | | | | |]; try done.

Lemma pushx_ok now front push key items s m :
  (forall l, push items l = if front : bool then reverse items ++ l else l ++ items) ->
  state_ok now s m ->
  let '(n, s') := pushx push key items now s in
  let '(r, m') := match view_of (m !! key) with
                  | AList l exp => apush front key items (AList l exp) m
                  | _ => (LInt 0, m)
                  end in
  LInt n = r /\ state_ok now s' m'.
Proof.
  intros Hp Hok. unfold pushx, apush. on_list now key s m Hok Hv Ha.
  rewrite Hp. split; [done|]. by apply ok_charge, ok_set_list.
Qed.

Lemma lset_ok now key i val s m :
  state_ok now s m -> short_lists m -> i64_min <= i <= i64_max ->
  let '(r, s') := lset key i val now s in
  agree (state_ok now) (Returned (lreply_of (fun _ => LUnit) r, s')) (lspec now (LSet key i val) m).
Proof.
  intros Hok Hs Hi. unfold lset, lspec. on_list now key s m Hok Hv Ha.
  pose proof (view_short m key l _ Hs Hv) as Hl. rewrite list_index_spec by done. unfold get_at.
  destruct (Z.ltb_spec (list_index (zlen l) i) (zlen l)); [|done].
  destruct (l !! Z.to_nat (list_index (zlen l) i)) as [old|] eqn:E.
  - split; [done|]. pose proof (ok_set_list now key e (<[Z.to_nat (list_index (zlen l) i) := val]> l) _ m Hok Ha).
    destruct (_ >? 0); [by apply ok_charge|]. destruct (_ <? 0); [by apply ok_refund|done].
  - exfalso. apply lookup_ge_None in E. unfold zlen in *. unfold list_index, as_usize in *. 
    pose proof (as_u64_range (as_i64 (Z.of_nat (length l) + i))). pose proof (as_u64_range i).
    destruct (i <? 0); lia.
Qed.

Lemma linsert_ok now key before pivot val s m :
  state_ok now s m ->
  let '(r, s') := linsert key before pivot val now s in
  agree (state_ok now) (Returned (lreply_of LInt r, s')) (lspec now (LInsert key before pivot val) m).
Proof.
  intros Hok. unfold linsert, lspec. on_list now key s m Hok Hv Ha. rewrite position_find.
  destruct (list_find (fun x => x = pivot) l) as [[p y]|] eqn:Ep; [|done]. cbn [fmap option_fmap option_map fst].
  split.
  - cbn. f_equal. unfold insert_at, zlen. apply list_find_Some in Ep as (Ep & _).
    apply lookup_lt_Some in Ep. rewrite length_app. cbn [length]. rewrite length_take, length_drop.
    destruct before; lia.
  - by apply ok_charge, ok_set_list.
Qed.

Lemma lrem_ok now key count val s m :
  state_ok now s m -> i64_min < count <= i64_max ->
  let '(r, s') := lrem key count val now s in
  agree (state_ok now) (Returned (lreply_of LInt r, s')) (lspec now (LRem key count val) m).
Proof.
  intros Hok Hc. unfold lrem, lspec. on_list now key s m Hok Hv Ha. rewrite lrem_list_spec by done.
  split; [done|]. by apply ok_refund, ok_set_list.
Qed.

Lemma pop_ok now left key s m :
  state_ok now s m ->
  let '(r, s') := pop left key now s in
  r = (apop left key m).1 /\ state_ok now s' (apop left key m).2.
Proof.
  intros Hok. unfold pop, apop. pose proof (pop_on_shard_ok now left key s m Hok) as Hp.
  pose proof (view_find now s m key Hok) as Hv. rewrite Hv in *.
  destruct (find s key) as [e|] eqn:Ef; [|done]. destruct (is_expired_at now e); [done|].
  destruct (value e) as [| |l| | | | | | |]; try done.
  pose proof (take_end_aends left 0 l) as Ht. destruct (take_end left l) as [[x l1]|] eqn:Et.
  - rewrite bool_decide_eq_false_2 by (intros ->; by destruct left). cbn [negb].
    rewrite Ht, aends_zero. destruct (pop_on_shard left key now s) as [r s1].
    destruct Hp as [-> Hp]. split; [done|]. by apply ok_bump.
  - subst l. by rewrite aends_nil.
Qed.

Lemma lrange_ok now key a b s m :
  state_ok now s m -> short_lists m ->
  i64_min <= a <= i64_max -> i64_min <= b <= i64_max ->
  (r ← lrange key a b now s; Returned (lreply_of LItems r, s)) =
  match view_of (m !! key) with
  | Absent => Returned (LItems [], s)
  | Other => Returned (LErr WRONGTYPE, s)
  | AList l _ => if b =? i64_max then Panicked
                 else Returned (LItems (sublist (from_pos (zlen l) a) (to_pos (zlen l) b) l), s)
  end.
Proof.
  intros Hok Hs Ha Hb. unfold lrange. pose proof (view_find now s m key Hok) as Hv. rewrite Hv.
  destruct (find s key) as [e|]; [|done]. destruct (is_expired_at now e); [done|].
  destruct (value e) as [| |l| | | | | | |]; try done.
  pose proof (view_short m key l _ Hs Hv) as Hl. pose proof (zlen_nonneg l).
  destruct (range_start_spec (zlen l) a ltac:(lia) Ha) as [-> Hf].
  destruct (Z.eqb_spec b i64_max) as [->|Hne].
  - rewrite range_end_max by lia. unfold sizeof_bytes, i64_max.
    destruct (Z.geb_spec (Z.min (from_pos (zlen l) a) (zlen l)) 9223372036854775808); [lia|].
    destruct (Z.gtb_spec ((9223372036854775808 - Z.min (from_pos (zlen l) a) (zlen l)) * 32)
      9223372036854775807); [done|lia].
  - rewrite range_end_spec by (done || lia). rewrite slice_sublist by done.
    destruct (Z.geb_spec (Z.min (from_pos (zlen l) a) (zlen l))
      (Z.max 0 (Z.min (to_pos (zlen l) b + 1) (zlen l)))); [done|].
    unfold sizeof_bytes, i64_max. destruct (Z.gtb_spec ((Z.max 0 (Z.min (to_pos (zlen l) b + 1) (zlen l)) -
      Z.min (from_pos (zlen l) a) (zlen l)) * 32) 9223372036854775807); [lia|done].
Qed.

Lemma ltrim_ok now key a b s m :
  state_ok now s m -> short_lists m ->
  i64_min <= a <= i64_max -> i64_min <= b <= i64_max ->
  agree (state_ok now) ('(r, s) ← ltrim key a b now s; Returned (lreply_of (fun _ => LUnit) r, s))
    (lspec now (LTrim key a b) m).
Proof.
  intros Hok Hs Ha Hb. unfold ltrim, lspec. apply (ok_bump now key) in Hok.
  set (s1 := bump key s) in *. pose proof (view_find now s1 m key Hok) as Hv. rewrite Hv.
  destruct (find s1 key) as [e|] eqn:Ef; [|done]. destruct (is_expired_at now e) eqn:Ee; [done|].
  destruct (ok_live _ s1 _ key e Hok Ef Ee) as [_ Hal].
  destruct (value e) as [| |l| | | | | | |]; try done.
  pose proof (view_short m key l _ Hs Hv) as Hl. pose proof (zlen_nonneg l).
  destruct (range_start_spec (zlen l) a ltac:(lia) Ha) as [-> Hf].
  assert (forall l' freed, agree (state_ok now)
    (Returned (LUnit, if freed >? 0 then refund key freed (set_list key e l' s1) else set_list key e l' s1))
    (Returned (LUnit, aput key l' (expires_at e) m))) as Hfin.
  { intros l' freed. split; [done|]. pose proof (ok_set_list now key e l' s1 m Hok Hal).
    destruct (freed >? 0); [by apply ok_refund|done]. }
  destruct (Z.eqb_spec b i64_max) as [->|Hne].
  - rewrite range_end_max by lia.
    destruct (Z.geb_spec (Z.min (from_pos (zlen l) a) (zlen l)) 9223372036854775808); [lia|].
    by destruct (Z.leb_spec 9223372036854775808 (zlen l)); [lia|].
  - rewrite range_end_spec by (done || lia). rewrite slice_sublist by done.
    destruct (Z.geb_spec (Z.min (from_pos (zlen l) a) (zlen l))
      (Z.max 0 (Z.min (to_pos (zlen l) b + 1) (zlen l)))); [by apply Hfin|].
    destruct (Z.leb_spec (Z.max 0 (Z.min (to_pos (zlen l) b + 1) (zlen l))) (zlen l)); [by apply Hfin|lia].
Qed.

Lemma lmove_ok now src dst fl tl s m :
  state_ok now s m ->
  agree (state_ok now) (let '(r, s) := lmove src dst fl tl now s in Returned (LBulk r, s))
    (lspec now (LMove src dst fl tl) m).
Proof.
  intros Hok. unfold lmove, lspec, apop. apply (ok_bump now src) in Hok.
  pose proof (pop_on_shard_ok now fl src (bump src s) m Hok) as Hp.
  destruct (pop_on_shard fl src now (bump src s)) as [r s1].
  destruct (view_of (m !! src)) as [|l exp|]; try (by destruct Hp as [-> Hp]).
  pose proof (take_end_aends fl 0 l) as Ht. destruct (take_end fl l) as [[x l1]|].
  2:{ destruct Hp as [-> Hp]. subst l. by rewrite aends_nil. }
  destruct Hp as [-> Hp]. rewrite Ht, aends_zero. set (m1 := aput src l1 exp m) in *.
  apply (ok_bump now dst) in Hp. set (s2 := bump dst s1) in *.
  pose proof (open_list_ok now dst s2 m1 Hp) as H.
  destruct (open_list dst now s2) as [e s3]. destruct H as (Hok3 & Ha & Hv).
  pose proof (fun l => ok_charge now dst (zlen x + 32) _ _ (ok_set_list now dst e l s3 m1 Hok3 Ha)) as Hpush.
  unfold apush. destruct (view_of (m1 !! dst)) as [|l2 exp2|].
  - destruct Hv as [-> Hx]. rewrite Hx in Hpush. split; [done|]. destruct tl; apply Hpush.
  - destruct Hv as [-> <-]. split; [done|]. destruct tl; apply Hpush.
  - by destruct (value e).
Qed.

(** ** The machine implements its specification *)

Lemma lexec_ok hc now c s m :
  lcmd_ok c -> short_lists m -> state_ok now s m ->
  agree (state_ok now) (lexec hc now c s) (lspec now c m).
Proof.
  intros Hc Hs Hok. destruct c; cbn [lexec lspec lcmd_ok] in *.
  - pose proof (lpush_ok now key items s m Hok) as H. destruct (lpush key items now s). by destruct (apush _ _ _ _ _).
  - pose proof (rpush_ok now key items s m Hok) as H. destruct (rpush key items now s). by destruct (apush _ _ _ _ _).
  - pose proof (pushx_ok now true push_front_all key items s m (push_front_all_spec items) Hok) as H.
    unfold lpushx. destruct (pushx _ key items now s). by destruct (view_of (m !! key)).
  - pose proof (pushx_ok now false push_back_all key items s m (push_back_all_spec items) Hok) as H.
    unfold rpushx. destruct (pushx _ key items now s). by destruct (view_of (m !! key)).
  - pose proof (pop_ok now true key s m Hok) as H. destruct (pop true key now s), (apop true key m).
    by destruct H as [-> H].
  - pose proof (pop_ok now false key s m Hok) as H. destruct (pop false key now s), (apop false key m).
    by destruct H as [-> H].
  - pose proof (lmpop_ok hc now left count keys0 s m Hok) as H.
    destruct (lmpop hc now keys0 left count now s). by destruct (ampop _ _ _ _).
  - split; [|done]. unfold llen. rewrite (view_find now s m key Hok).
    destruct (find s key) as [e|]; [|done]. destruct (is_expired_at now e); [done|]. by destruct (value e).
  - rewrite (lrange_ok now key start stop s m) by (done || apply Hc).
    destruct (view_of (m !! key)); try done. by destruct (stop =? i64_max).
  - split; [|done]. f_equal. unfold lindex. pose proof (view_find now s m key Hok) as Hv. rewrite Hv.
    destruct (find s key) as [e|]; [|done]. destruct (is_expired_at now e); [done|].
    destruct (value e); try done. pose proof (view_short m key l _ Hs Hv) as Hl.
    rewrite list_index_spec by done. unfold get_at. by destruct (_ <? zlen l).
  - pose proof (lset_ok now key index0 val s m Hok Hs Hc) as H. by destruct (lset key index0 val now s).
  - pose proof (linsert_ok now key before pivot val s m Hok) as H. by destruct (linsert key before pivot val now s).
  - pose proof (lrem_ok now key count val s m Hok Hc) as H. by destruct (lrem key count val now s).
  - by apply ltrim_ok; try apply Hc.
  - by apply lmove_ok.
Qed.


Definition sample_list : Store := (rpush (bs "l") [bs "a"; bs "b"; bs "a"] 0 (new 2)).2.
Definition sample_space : keyspace := aput (bs "l") [bs "a"; bs "b"; bs "a"] None ∅.

Lemma sample_list_ok : state_ok 0 sample_list sample_space.
Proof.
  assert (state_ok 0 (new 2) ∅) as H0.
  { split; [split; [vm_compute; lia|done]|]. intros k. rewrite lookup_empty, sem_find. unfold find, shard_at.
    cbn [shards new]. destruct (replicate 2 empty_shard !! _) as [sh|] eqn:E; [|done].
    apply lookup_replicate in E as [-> _]. done. }
  pose proof (rpush_ok 0 (bs "l") [bs "a"; bs "b"; bs "a"] (new 2) ∅ H0) as H.
  unfold sample_list. destruct (rpush _ _ _ _) as [r s']. apply H.
Qed.

Lemma sample_space_short : short_lists sample_space.
Proof.
  intros k l exp. unfold sample_space, aput. destruct (decide (k = bs "l")) as [->|].
  - rewrite lookup_insert_eq. intros [= <- <-]. reflexivity.
  - by rewrite lookup_insert_ne, lookup_empty.
Qed.


(** ** What the journal records *)

Lemma aends_preview left n l : (aends left n l).1 = take n (if left : bool then l else reverse l).
Proof. by destruct left. Qed.

Lemma pop_many_items now left k n : forall s e l,
  nonempty s -> find s k = Some e -> is_expired_at now e = false -> value e = VList l ->
  (pop_many n left k now s).1 = (aends left n l).1.
Proof.
  induction n as [|n IH]; intros s e l Hn Ef Ee Ev; cbn [pop_many]; [by rewrite aends_zero|].
  unfold pop_on_shard. rewrite Ef, Ee, Ev. pose proof (take_end_aends left n l) as Ht.
  destruct (take_end left l) as [[x l1]|]; [|subst; by rewrite aends_nil]. rewrite Ht.
  set (e1 := mkEntry (VList l1) (expires_at e) (e_lru_clock e)).
  specialize (IH (refund k (zlen x + 32) (set_list k e l1 s)) e1 l1).
  destruct (pop_many n left k now _) as [items s2], (aends left n l1) as [items' rest].
  cbn [fst] in *. f_equal. apply IH; [|  |done|done].
  - by apply nonempty_mem_sub, nonempty_shard_mem_sub, nonempty_put_data.
  - unfold refund, set_list. find_simp. by rewrite decide_True.
Qed.

Lemma live_find s now k e : live s now k = Some e -> find s k = Some e /\ is_expired_at now e = false.
Proof.
  unfold live. destruct (find s k) as [e'|]; [|done]. destruct (is_expired_at now e') eqn:E; [done|].
  by intros [= ->].
Qed.

(** The journal records what happens. The preview that LMPOP is journaled from gives, without
    changing the store, exactly the answer of the pop that follows: the same key and the same
    elements in the same order, or the same error. *)
Theorem preview_is_pop (hll_count : bytes -> Z) (now : Z) (ks : list bytes) (left : bool) (n : nat)
    (s : Store) :
  hot s -> (0 < n)%nat ->
  preview_lmpop hll_count now ks left n now s = ((lmpop hll_count now ks left n now s).1, s).
Proof.
  intros Hh Hn. induction ks as [|k ks IH]; cbn [preview_lmpop lmpop]; [done|].
  rewrite hot_promote by apply Hh. destruct (live s now k) as [e|] eqn:El; [|apply IH].
  destruct (value e) as [| |l| | | | | | |] eqn:Ev; try done.
  destruct l as [|x l]; [apply IH|]. set (l0 := x :: l) in *.
  destruct (live_find s now k e El) as [Ef Ee].
  pose proof (pop_many_items now left k n s e l0 (proj1 Hh) Ef Ee Ev) as Hi. rewrite aends_preview in Hi.
  destruct (pop_many n left k now s) as [items s1]. cbn [fst] in Hi. subst items.
  rewrite bool_decide_eq_false_2; [done|]. intros E%(f_equal length).
  rewrite length_take in E. destruct left; rewrite ?length_reverse in E; cbn in E; lia.
Qed.

Lemma preview_is_pop_witness :
  preview_lmpop (fun _ => 0) 0 [bs "x"; bs "l"] false 2 0 sample_list =
    ((lmpop (fun _ => 0) 0 [bs "x"; bs "l"] false 2 0 sample_list).1, sample_list).
Proof.
  apply (preview_is_pop (fun _ => 0) 0 [bs "x"; bs "l"] false 2).
  - apply sample_list_ok.
  - lia.
Defined.

End Lists.
