(* ===== verification/Sets.v ===== *)
(** * Set commands ([src/src/store/mod.rs], lines 5291-5628 and 6942-7243, and SPOP of
      [src/src/cmd/sets.rs])

    The operations behind SADD, SREM, SMEMBERS, SISMEMBER, SMISMEMBER, SCARD, SRANDMEMBER, SPOP,
    SMOVE, SUNION, SINTER, SDIFF and their STORE forms, on the sharded store. A set is a [SetData];
    its members are [String]s: what a client sends is made text on the way in ([key_string]) and
    looked up as text ([key_str]), and the two differ on bytes that are not UTF-8.

    Hash sets that collect results are visited in an order of their own, a parameter that yields
    every element once. *)

From S2P Require Import Prelude.
From S2P Require Import Values.
From S2P Require Import Store.
From S2P Require Import Strings.
From S2P Require Import Lists.
Local Open Scope Z_scope.

Module Sets.
Import Values.Values Store.Store Strings.Strings.
Import Lists.Lists(charge, refund).

Section Sets.

Context (hll_count : bytes -> Z) (clock : Z).
(** The order in which a hash set yields its elements. *)
Context (order : gset bytes -> list bytes).

(** ** Entries holding sets *)

(** The live set of a key: [Ok None] when there is none. *)
Definition view_set (key : bytes) (now : Z) (s : Store) : result (option (Entry * SetData)) :=
  match find s key with
  | Some e => if is_expired_at now e then Ok None
              else match value e with VSet d => Ok (Some (e, d)) | _ => Err WRONGTYPE end
  | None => Ok None
  end.

(** The entry an addition works on, as for lists. *)
Definition open_set (key : bytes) (now : Z) (s : Store) : Entry * Store :=
  match find s key with
  | Some e => if is_expired_at now e then (mkEntry (VSet set_new) None (e_lru_clock e), s) else (e, s)
  | None => (mkEntry (VSet set_new) None (lru_clock s), key_added s)
  end.

Definition put_set (key : bytes) (e : Entry) (d : SetData) (s : Store) : Store :=
  put_data key (mkEntry (VSet d) (expires_at e) (e_lru_clock e)) s.

(** [self.try_promote(key, now)?] *)
Definition promoted {A : Type} (key : bytes) (now : Z) (s : Store) (k : Store -> result A * Store)
    : result A * Store :=
  match try_promote hll_count clock key now s with
  | (Err e, s) => (Err e, s)
  | (Ok _, s) => k s
  end.

(** ** Adding and removing members *)

(** The loops over the members: how many, the bytes, the set. *)
Definition insert_one (acc : Z * Z * SetData) (m : bytes) : Z * Z * SetData :=
  let '(added, mem, d) := acc in
  let '(ok, d) := set_insert (key_string m) d in
  if ok then (added + 1, mem + (zlen m + 32), d) else (added, mem, d).

Definition remove_one (acc : Z * Z * SetData) (m : bytes) : Z * Z * SetData :=
  let '(removed, freed, d) := acc in
  let '(ok, d) := set_remove (key_str m) d in
  if ok then (removed + 1, freed + (zlen m + 32), d) else (removed, freed, d).

Definition sadd (key : bytes) (members : list bytes) (now : Z) (s : Store) : result Z * Store :=
  promoted key now s (fun s =>
  let s := bump key s in
  let '(e, s1) := open_set key now s in
  match value e with
  | VSet d =>
      let '(added, mem, d) := foldl insert_one (0, 0, d) members in
      (Ok added, charge key mem (put_set key e d s1))
  | _ => (Err WRONGTYPE, s)
  end).

Definition srem (key : bytes) (members : list bytes) (now : Z) (s : Store) : result Z * Store :=
  promoted key now s (fun s =>
  let s := bump key s in
  match view_set key now s with
  | Ok (Some (e, d)) =>
      let '(removed, freed, d) := foldl remove_one (0, 0, d) members in
      (Ok removed, refund key freed (put_set key e d s))
  | Ok None => (Ok 0, s)
  | Err x => (Err x, s)
  end).

(** ** Reading *)

Definition smembers_limited (key : bytes) (limit : Z) (now : Z) (s : Store) : result (list bytes) * Store :=
  promoted key now s (fun s =>
  (match view_set key now s with
   | Ok (Some (_, d)) => Ok (take (Z.to_nat limit) (members d))
   | Ok None => Ok []
   | Err x => Err x
   end, s)).

Definition smembers (key : bytes) (now : Z) (s : Store) : result (list bytes) * Store :=
  promoted key now s (fun s =>
  (match view_set key now s with
   | Ok (Some (_, d)) => Ok (members d)
   | Ok None => Ok []
   | Err x => Err x
   end, s)).

Definition preview_spop (key : bytes) (count : Z) (now : Z) (s : Store) : result (list bytes) :=
  match view_set key now s with
  | Ok (Some (_, d)) => Ok (take (Z.to_nat count) (reverse (members d)))
  | Ok None => Ok []
  | Err x => Err x
  end.

Definition sismember (key member : bytes) (now : Z) (s : Store) : result bool :=
  match view_set key now s with
  | Ok (Some (_, d)) => Ok (set_contains (key_str member) d)
  | Ok None => Ok false
  | Err x => Err x
  end.

Definition smismember (key : bytes) (ms : list bytes) (now : Z) (s : Store) : list bool :=
  match view_set key now s with
  | Ok (Some (_, d)) => (fun m => set_contains (key_str m) d) <$> ms
  | _ => (fun _ => false) <$> ms
  end.

Definition scard (key : bytes) (now : Z) (s : Store) : result Z :=
  match view_set key now s with
  | Ok (Some (_, d)) => Ok (set_len d)
  | Ok None => Ok 0
  | Err x => Err x
  end.

Definition srandmember (key : bytes) (count : Z) (now : Z) (s : Store) : result (list bytes) :=
  match view_set key now s with
  | Ok (Some (_, d)) =>
      if (count =? 0) || set_is_empty d then Ok []
      else Ok (take (Z.to_nat (Z.abs count)) (members d))
  | Ok None => Ok []
  | Err x => Err x
  end.

(** ** SPOP: the members are chosen, journaled as an SREM, and removed *)

Definition spop_on_shard_loop (count : nat) (d : SetData) : list bytes * Z * SetData :=
  Nat.iter count (fun acc =>
    let '(out, freed, d) := acc in
    match set_pop d with
    | (Some m, d) => (out ++ [m], freed + (zlen m + 32), d)
    | (None, d) => (out, freed, d)
    end) ([], 0, d).

(** [spop_on_shard]: the caller bumps the version. *)
Definition spop_on_shard (key : bytes) (count : Z) (now : Z) (s : Store) : result (list bytes) * Store :=
  match view_set key now s with
  | Ok (Some (e, d)) =>
      let '(out, freed, d) := spop_on_shard_loop (Z.to_nat count) d in
      (Ok out, refund key freed (put_set key e d s))
  | Ok None => (Ok [], s)
  | Err x => if count =? 1 then (Ok [], s) else (Err x, s)
  end.

Definition POP_CHANGED : string := "ERR set pop changed while committing".

(** The answer, the records journaled and the store; [appended] is whether the journal takes them. *)
Definition cmd_spop (key : bytes) (count : Z) (appended : bool) (now : Z) (s : Store)
    : result (list bytes) * list (list bytes) * Store :=
  match preview_spop key count now s with
  | Err x => (Err x, [], s)
  | Ok [] => (Ok [], [], s)
  | Ok ms =>
      if negb appended then (Err "ERR WAL append failed", [], s)
      else
        let journal := [bs "SREM" :: key :: ms] in
        match srem key ms now s with
        | (Ok removed, s) => if negb (removed =? zlen ms) then (Err POP_CHANGED, journal, s)
                             else (Ok ms, journal, s)
        | (Err x, s) => (Err x, journal, s)
        end
  end.

(** ** SMOVE *)

Definition smove_would_move (src dst member : bytes) (now : Z) (s : Store) : result bool * Store :=
  promoted src now s (fun s => promoted dst now s (fun s =>
  (match view_set dst now s with
   | Err x => Err x
   | Ok _ => match view_set src now s with
             | Err x => Err x
             | Ok (Some (_, d)) => Ok (set_contains (key_str member) d)
             | Ok None => Ok false
             end
   end, s))).

Definition smove (src dst member : bytes) (now : Z) (s : Store) : result bool * Store :=
  let mem := zlen member + 32 in
  match view_set dst now s with
  | Err x => (Err x, s)
  | Ok _ =>
      let s := bump src s in
      match view_set src now s with
      | Err x => (Err x, s)
      | Ok None => (Ok false, s)
      | Ok (Some (e, d)) =>
          let '(removed, d) := set_remove (key_str member) d in
          if negb removed then (Ok false, s)
          else
            let s := bump dst (refund src mem (put_set src e d s)) in
            let '(e, s1) := open_set dst now s in
            match value e with
            | VSet d =>
                let '(ok, d) := set_insert (key_string member) d in
                let s := put_set dst e d s1 in
                (Ok true, if ok then charge dst mem s else s)
            | _ => (Err WRONGTYPE, s)
            end
      end
  end.

(** ** Set algebra *)

(** [collect_set] *)
Definition collect_set (key : bytes) (now : Z) (s : Store) : result (gset bytes) :=
  match view_set key now s with
  | Ok (Some (_, d)) => Ok (list_to_set (members d))
  | Ok None => Ok ∅
  | Err x => Err x
  end.

(** The loops over the keys of SUNION, SINTER and SDIFF. *)
Fixpoint union_keys (ks : list bytes) (now : Z) (s : Store) (acc : gset bytes) : result (gset bytes) :=
  match ks with
  | [] => Ok acc
  | k :: ks => match view_set k now s with
               | Ok (Some (_, d)) => union_keys ks now s (acc ∪ list_to_set (members d))
               | Ok None => union_keys ks now s acc
               | Err x => Err x
               end
  end.

Fixpoint retain_keys (keep : SetData -> bytes -> bool) (missing : gset bytes -> gset bytes)
    (ks : list bytes) (now : Z) (s : Store) (acc : gset bytes) : result (gset bytes) :=
  match ks with
  | [] => Ok acc
  | k :: ks => match view_set k now s with
               | Ok (Some (_, d)) =>
                   retain_keys keep missing ks now s (filter (fun m => keep d m = true) acc)
               | Ok None => retain_keys keep missing ks now s (missing acc)
               | Err x => Err x
               end
  end.

Definition with_two_set_views {R : Type} (a b : bytes) (now : Z) (s : Store)
    (f : option SetData -> option SetData -> R) : result R :=
  match view_set a now s with
  | Err x => Err x
  | Ok l => match view_set b now s with
            | Err x => Err x
            | Ok r => Ok (f (snd <$> l) (snd <$> r))
            end
  end.

Definition sunion_two_keys (a b : bytes) (now : Z) (s : Store) : result (list bytes) :=
  with_two_set_views a b now s (fun l r =>
    let ms o : gset bytes := match o with Some d => list_to_set (members d) | None => ∅ end in
    order (ms l ∪ ms r)).

Definition sinter_two_keys (a b : bytes) (now : Z) (s : Store) : result (list bytes) :=
  with_two_set_views a b now s (fun l r =>
    match l, r with
    | Some l, Some r =>
        let '(small, large) := if set_len l <=? set_len r then (l, r) else (r, l) in
        List.filter (fun m => set_contains m large) (members small)
    | _, _ => []
    end).

Definition sdiff_two_keys (a b : bytes) (now : Z) (s : Store) : result (list bytes) :=
  with_two_set_views a b now s (fun l r =>
    match l, r with
    | None, _ => []
    | Some l, None => members l
    | Some l, Some r => List.filter (fun m => negb (set_contains m r)) (members l)
    end).

Definition result_map {A B : Type} (f : A -> B) (r : result A) : result B :=
  match r with Ok a => Ok (f a) | Err e => Err e end.

Definition sunion (ks : list bytes) (now : Z) (s : Store) : result (list bytes) :=
  match ks with
  | [a; b] => sunion_two_keys a b now s
  | _ => result_map order (union_keys ks now s ∅)
  end.

Definition sinter (ks : list bytes) (now : Z) (s : Store) : result (list bytes) :=
  match ks with
  | [] => Ok []
  | [a; b] => sinter_two_keys a b now s
  | k :: ks => match collect_set k now s with
               | Err x => Err x
               | Ok X => result_map order (retain_keys (fun d m => set_contains m d) (fun _ => ∅) ks now s X)
               end
  end.

Definition sdiff (ks : list bytes) (now : Z) (s : Store) : result (list bytes) :=
  match ks with
  | [] => Ok []
  | [a; b] => sdiff_two_keys a b now s
  | k :: ks => match collect_set k now s with
               | Err x => Err x
               | Ok X => result_map order (retain_keys (fun d m => negb (set_contains m d)) id ks now s X)
               end
  end.

(** [write_computed_set]: the resolved DEL and SADD are journaled, then applied. *)
Definition write_computed_set (dst : bytes) (ms : list bytes) (appended : bool) (now : Z) (s : Store)
    : result Z * list (list bytes) * Store :=
  let sadd_cmd := if bool_decide (ms = []) then [] else [bs "SADD" :: dst :: ms] in
  if negb appended then (Err "ERR WAL append failed", [], s)
  else
    let journal := [bs "DEL"; dst] :: sadd_cmd in
    let s := (del clock [dst] s).2 in
    if bool_decide (ms = []) then (Ok (zlen ms), journal, s)
    else match sadd dst ms now s with
         | (Ok _, s) => (Ok (zlen ms), journal, s)
         | (Err x, s) => (Err x, journal, s)
         end.

Definition store_result (dst : bytes) (r : result (list bytes)) (appended : bool) (now : Z) (s : Store)
    : result Z * list (list bytes) * Store :=
  match r with
  | Err x => (Err x, [], s)
  | Ok ms => write_computed_set dst ms appended now s
  end.

Definition sunionstore (dst : bytes) (ks : list bytes) (appended : bool) (now : Z) (s : Store) :=
  store_result dst (sunion ks now s) appended now s.
Definition sinterstore (dst : bytes) (ks : list bytes) (appended : bool) (now : Z) (s : Store) :=
  store_result dst (sinter ks now s) appended now s.
Definition sdiffstore (dst : bytes) (ks : list bytes) (appended : bool) (now : Z) (s : Store) :=
  store_result dst (sdiff ks now s) appended now s.

End Sets.

(** ** The contract *)

Inductive scmd :=
| SAdd (k : bytes) (ms : list bytes)
| SRem (k : bytes) (ms : list bytes)
| SMembers (k : bytes)
| SMembersN (k : bytes) (n : Z)
| SIsMember (k m : bytes)
| SMIsMember (k : bytes) (ms : list bytes)
| SCard (k : bytes)
| SRand (k : bytes) (n : Z)
| SPop (k : bytes) (n : Z) (appended : bool)
| SMove (src dst m : bytes)
| SUnion (ks : list bytes)
| SInter (ks : list bytes)
| SDiff (ks : list bytes)
| SUnionStore (dst : bytes) (ks : list bytes) (appended : bool)
| SInterStore (dst : bytes) (ks : list bytes) (appended : bool)
| SDiffStore (dst : bytes) (ks : list bytes) (appended : bool).

Inductive sreply := SInt (z : Z) | SBool (b : bool) | SBools (l : list bool) | SList (l : list bytes) | SErr (e : string).

Definition sreply_of {A : Type} (f : A -> sreply) (r : result A) : sreply :=
  match r with Ok a => f a | Err e => SErr e end.

(** A command on the store: the answer, the records it journals itself, the store. *)
Definition sexec (hll_count : bytes -> Z) (clock : Z) (order : gset bytes -> list bytes) (now : Z) (c : scmd)
    (s : Store) : sreply * list (list bytes) * Store :=
  match c with
  | SAdd k ms => let '(r, s) := sadd hll_count clock k ms now s in (sreply_of SInt r, [], s)
  | SRem k ms => let '(r, s) := srem hll_count clock k ms now s in (sreply_of SInt r, [], s)
  | SMembers k => let '(r, s) := smembers hll_count clock k now s in (sreply_of SList r, [], s)
  | SMembersN k n => let '(r, s) := smembers_limited hll_count clock k n now s in (sreply_of SList r, [], s)
  | SIsMember k m => (sreply_of SBool (sismember k m now s), [], s)
  | SMIsMember k ms => (SBools (smismember k ms now s), [], s)
  | SCard k => (sreply_of SInt (scard k now s), [], s)
  | SRand k n => (sreply_of SList (srandmember k n now s), [], s)
  | SPop k n appended =>
      let '(r, j, s) := cmd_spop hll_count clock k n appended now s in (sreply_of SList r, j, s)
  | SMove a b m => let '(r, s) := smove a b m now s in (sreply_of SBool r, [], s)
  | SUnion ks => (sreply_of SList (sunion order ks now s), [], s)
  | SInter ks => (sreply_of SList (sinter order ks now s), [], s)
  | SDiff ks => (sreply_of SList (sdiff order ks now s), [], s)
  | SUnionStore dst ks appended =>
      let '(r, j, s) := sunionstore hll_count clock order dst ks appended now s in (sreply_of SInt r, j, s)
  | SInterStore dst ks appended =>
      let '(r, j, s) := sinterstore hll_count clock order dst ks appended now s in (sreply_of SInt r, j, s)
  | SDiffStore dst ks appended =>
      let '(r, j, s) := sdiffstore hll_count clock order dst ks appended now s in (sreply_of SInt r, j, s)
  end.

(** What a key is to a set command. *)
Inductive slot :=
| SAbsent
| SSet (X : gset bytes) (exp : option Z)
| SOther (v : StoreValue) (exp : option Z).

Abbreviation space := (bytes -> slot).

Definition upd (k : bytes) (x : slot) (A : space) : space := fun k' => if decide (k' = k) then x else A k'.

Definition contents (x : slot) : gset bytes := match x with SSet X _ => X | _ => ∅ end.
Definition deadline_of (x : slot) : option Z := match x with SSet _ exp => exp | _ => None end.
Definition is_other (x : slot) : bool := match x with SOther _ _ => true | _ => false end.

Definition texts (ms : list bytes) : gset bytes := list_to_set (key_string <$> ms).
Definition names (ms : list bytes) : gset bytes := list_to_set (key_str <$> ms).

(** [l] lists [n] elements of [X], or all of them if there are fewer, each once. *)
Definition some_of (n : Z) (X : gset bytes) (l : list bytes) : Prop :=
  NoDup l /\ (forall m, m ∈ l -> m ∈ X) /\ zlen l = Z.min (Z.max 0 n) (Z.of_nat (size X)).

Definition all_of (X : gset bytes) (l : list bytes) : Prop := NoDup l /\ forall m, m ∈ l <-> m ∈ X.

Definition union_of (A : space) (ks : list bytes) : gset bytes := ⋃ ((fun k => contents (A k)) <$> ks).
Definition inter_of (A : space) (ks : list bytes) : gset bytes :=
  match ks with [] => ∅ | k :: ks => foldl (fun X k => X ∩ contents (A k)) (contents (A k)) ks end.
Definition diff_of (A : space) (ks : list bytes) : gset bytes :=
  match ks with [] => ∅ | k :: ks => foldl (fun X k => X ∖ contents (A k)) (contents (A k)) ks end.

Definition same (A' A : space) : Prop := forall k, A' k = A k.

(** A computed set is stored: [X] under [dst], or nothing when it is empty. *)
Definition stored (dst : bytes) (X : gset bytes) (appended : bool) (A : space) (r : sreply)
    (j : list (list bytes)) (A' : space) : Prop :=
  if appended
  then r = SInt (Z.of_nat (size X)) /\
       same A' (upd dst (if decide (X = ∅) then SAbsent else SSet X None) A) /\
       exists l, all_of X l /\ j = [bs "DEL"; dst] :: (if decide (X = ∅) then [] else [bs "SADD" :: dst :: l])
  else r = SErr "ERR WAL append failed" /\ j = [] /\ same A' A.

(** The commands on an abstract space: the answers they may give and what they leave. *)
Definition sspec (c : scmd) (A : space) (r : sreply) (j : list (list bytes)) (A' : space) : Prop :=
  let fails := r = SErr WRONGTYPE /\ j = [] /\ same A' A in
  let on k (P : Prop) := if is_other (A k) then fails else P in
  let over ks (P : Prop) := if existsb (fun k => is_other (A k)) ks then fails else P in
  let reads (P : Prop) := j = [] /\ same A' A /\ P in
  match c with
  | SAdd k ms => on k (r = SInt (Z.of_nat (size (texts ms ∖ contents (A k)))) /\ j = [] /\
      same A' (upd k (SSet (contents (A k) ∪ texts ms) (deadline_of (A k))) A))
  | SRem k ms => on k (r = SInt (Z.of_nat (size (contents (A k) ∩ names ms))) /\ j = [] /\
      same A' (match A k with SSet X exp => upd k (SSet (X ∖ names ms) exp) A | _ => A end))
  | SMembers k => on k (reads (exists l, r = SList l /\ all_of (contents (A k)) l))
  | SMembersN k n => on k (reads (exists l, r = SList l /\ some_of n (contents (A k)) l))
  | SIsMember k m => on k (reads (r = SBool (bool_decide (key_str m ∈ contents (A k)))))
  | SMIsMember k ms => reads (r = SBools ((fun m => bool_decide (key_str m ∈ contents (A k))) <$> ms))
  | SCard k => on k (reads (r = SInt (Z.of_nat (size (contents (A k))))))
  | SRand k n => on k (reads (exists l, r = SList l /\ some_of (Z.abs n) (contents (A k)) l))
  | SPop k n appended => on k (
      if (n <=? 0) || bool_decide (contents (A k) = ∅) then reads (r = SList [])
      else if appended
      then exists l, r = SList l /\ some_of n (contents (A k)) l /\ j = [bs "SREM" :: k :: l] /\
           same A' (upd k (SSet (contents (A k) ∖ list_to_set l) (deadline_of (A k))) A)
      else r = SErr "ERR WAL append failed" /\ j = [] /\ same A' A)
  | SMove a b m => on b (on a (
      if bool_decide (key_str m ∈ contents (A a))
      then r = SBool true /\ j = [] /\
           let A1 := upd a (SSet (contents (A a) ∖ {[key_str m]}) (deadline_of (A a))) A in
           same A' (upd b (SSet (contents (A1 b) ∪ {[key_string m]}) (deadline_of (A1 b))) A1)
      else reads (r = SBool false)))
  | SUnion ks => over ks (reads (exists l, r = SList l /\ all_of (union_of A ks) l))
  | SInter ks => over ks (reads (exists l, r = SList l /\ all_of (inter_of A ks) l))
  | SDiff ks => over ks (reads (exists l, r = SList l /\ all_of (diff_of A ks) l))
  | SUnionStore dst ks appended => over ks (stored dst (union_of A ks) appended A r j A')
  | SInterStore dst ks appended => over ks (stored dst (inter_of A ks) appended A r j A')
  | SDiffStore dst ks appended => over ks (stored dst (diff_of A ks) appended A r j A')
  end.

(** How the store holds a space. *)
Definition slot_at (now : Z) (o : option Entry) : slot :=
  match o with
  | Some e => if is_expired_at now e then SAbsent
              else match value e with VSet d => SSet (elems d) (expires_at e) | v => SOther v (expires_at e) end
  | None => SAbsent
  end.

Definition wf_set (d : SetData) : Prop := Values.set_ok d /\ Forall (fun m => is_utf8 m = true) (members d).
Definition wf_entry (e : Entry) : Prop := match value e with VSet d => wf_set d | _ => True end.

Record sets_ok (now : Z) (s : Store) (A : space) : Prop := {
  so_hot : hot s;
  so_slots : forall k, A k = slot_at now (find s k);
  so_wf : forall k e, find s k = Some e -> wf_entry e
}.

(** ** Lemmas: sets *)

Lemma wf_new : wf_set set_new.
Proof. split; [apply set_ok_new|by constructor]. Qed.

Lemma members_nodup d : Values.set_ok d -> NoDup (members d).
Proof. intros H. apply NoDup_alt. intros i j m Hi Hj. by eapply set_ok_inj. Qed.

Lemma elem_of_members d m : m ∈ elems d <-> m ∈ members d.
Proof. unfold elems. by rewrite elem_of_list_to_set. Qed.

Lemma size_elems d : Values.set_ok d -> Z.of_nat (size (elems d)) = set_len d.
Proof. intros H. unfold elems, set_len, zlen. by rewrite size_list_to_set by (by apply members_nodup). Qed.

Lemma all_of_members d : Values.set_ok d -> all_of (elems d) (members d).
Proof. intros H. split; [by apply members_nodup|]. intros m. by rewrite elem_of_members. Qed.

Lemma utf8_elems d m : wf_set d -> m ∈ elems d -> is_utf8 m = true.
Proof. intros [_ Hf] Hm%elem_of_members. rewrite Forall_forall in Hf. by apply Hf. Qed.

Lemma wf_set_elems d : Values.set_ok d -> (forall m, m ∈ elems d -> is_utf8 m = true) -> wf_set d.
Proof. intros H Hu. split; [done|]. apply Forall_forall. intros m Hm. by apply Hu, elem_of_members. Qed.

Lemma key_string_is_utf8 m : is_utf8 (key_string m) = true.
Proof. unfold key_string. destruct (is_utf8 m) eqn:E; [done|]. apply from_utf8_lossy_utf8. Qed.

Lemma size_add (x : bytes) (X : gset bytes) : x ∉ X -> size ({[x]} ∪ X) = S (size X).
Proof. intros H. rewrite size_union by set_solver. by rewrite size_singleton. Qed.

Lemma insert_loop ms : forall a mem d,
  wf_set d ->
  let '(a', _, d') := foldl insert_one (a, mem, d) ms in
  wf_set d' /\ elems d' = elems d ∪ texts ms /\ a' = a + Z.of_nat (size (texts ms ∖ elems d)).
Proof.
  induction ms as [|m ms IH]; intros a mem d Hd; cbn [foldl].
  - split; [done|]. unfold texts. cbn. split; [set_solver|]. replace (∅ ∖ elems d) with (∅ : gset bytes) by set_solver. rewrite size_empty. lia.
  - pose proof Hd as [Hok _]. pose proof (set_insert_ok (key_string m) d Hok) as Hi.
    unfold insert_one at 2. destruct (set_insert (key_string m) d) as [ok d1].
    destruct Hi as (Hok1 & -> & He1).
    assert (wf_set d1) as Hd1.
    { apply wf_set_elems; [done|]. intros x. rewrite He1, elem_of_union, elem_of_singleton.
      intros [->|Hx]; [apply key_string_is_utf8|by apply (utf8_elems d)]. }
    assert (texts (m :: ms) = {[key_string m]} ∪ texts ms) as Et by done.
    assert (forall a1 mem1, let '(a', _, d') := foldl insert_one (a1, mem1, d1) ms in
      wf_set d' /\ elems d' = elems d ∪ texts (m :: ms) /\
      a' = a1 + Z.of_nat (size (texts ms ∖ ({[key_string m]} ∪ elems d)))) as H.
    { intros a1 mem1. specialize (IH a1 mem1 d1 Hd1). destruct (foldl _ _ _) as [[a' mem'] d'].
      destruct IH as (? & E & ->). split; [done|]. rewrite E, He1, Et. split; [set_solver|done]. }
    destruct (bool_decide_reflect (key_string m ∉ elems d)) as [Hn|Hin].
    + specialize (H (a + 1) (mem + (zlen m + 32))). destruct (foldl _ _ _) as [[a' mem'] d'].
      destruct H as (? & ? & ->). split; [done|]. split; [done|]. rewrite Et.
      replace (({[key_string m]} ∪ texts ms) ∖ elems d)
        with ({[key_string m]} ∪ (texts ms ∖ ({[key_string m]} ∪ elems d))) by (apply set_eq; intros x; set_unfold; destruct (decide (x = key_string m)); naive_solver).
      rewrite size_add by set_solver. lia.
    + specialize (H a mem). destruct (foldl _ _ _) as [[a' mem'] d'].
      destruct H as (? & ? & ->). split; [done|]. split; [done|]. rewrite Et.
      apply dec_stable in Hin. do 3 f_equal. set_solver.
Qed.

Lemma remove_loop ms : forall a mem d,
  wf_set d ->
  let '(a', _, d') := foldl remove_one (a, mem, d) ms in
  wf_set d' /\ elems d' = elems d ∖ names ms /\ a' = a + Z.of_nat (size (elems d ∩ names ms)).
Proof.
  induction ms as [|m ms IH]; intros a mem d Hd; cbn [foldl].
  - split; [done|]. unfold names. cbn. split; [set_solver|]. replace (elems d ∩ ∅) with (∅ : gset bytes) by set_solver. rewrite size_empty. lia.
  - pose proof Hd as [Hok _]. pose proof (set_remove_ok (key_str m) d Hok) as Hi.
    unfold remove_one at 2. destruct (set_remove (key_str m) d) as [ok d1].
    destruct Hi as (Hok1 & -> & He1).
    assert (wf_set d1) as Hd1.
    { apply wf_set_elems; [done|]. intros x. rewrite He1, elem_of_difference.
      intros [Hx _]. by apply (utf8_elems d). }
    assert (names (m :: ms) = {[key_str m]} ∪ names ms) as Et by done.
    assert (forall a1 mem1, let '(a', _, d') := foldl remove_one (a1, mem1, d1) ms in
      wf_set d' /\ elems d' = elems d ∖ names (m :: ms) /\
      a' = a1 + Z.of_nat (size ((elems d ∖ {[key_str m]}) ∩ names ms))) as H.
    { intros a1 mem1. specialize (IH a1 mem1 d1 Hd1). destruct (foldl _ _ _) as [[a' mem'] d'].
      destruct IH as (? & E & ->). split; [done|]. rewrite E, He1, Et. split; [set_solver|done]. }
    destruct (bool_decide_reflect (key_str m ∈ elems d)) as [Hin|Hn].
    + specialize (H (a + 1) (mem + (zlen m + 32))). destruct (foldl _ _ _) as [[a' mem'] d'].
      destruct H as (? & ? & ->). split; [done|]. split; [done|]. rewrite Et.
      replace (elems d ∩ ({[key_str m]} ∪ names ms))
        with ({[key_str m]} ∪ ((elems d ∖ {[key_str m]}) ∩ names ms)) by (apply set_eq; intros x; set_unfold; destruct (decide (x = key_str m)); naive_solver).
      rewrite size_add by set_solver. lia.
    + specialize (H a mem). destruct (foldl _ _ _) as [[a' mem'] d'].
      destruct H as (? & ? & ->). split; [done|]. split; [done|]. rewrite Et. do 3 f_equal. set_solver.
Qed.

Lemma names_utf8 l : Forall (fun m => is_utf8 m = true) l -> names l = list_to_set l.
Proof.
  intros H. unfold names. f_equal. induction H as [|m l Hm _ IH]; [done|]. cbn. by rewrite IH, key_str_utf8.
Qed.

(** A prefix of a permutation of the members. *)
Lemma some_of_take n d l :
  Values.set_ok d -> l ≡ₚ members d -> some_of n (elems d) (take (Z.to_nat n) l).
Proof.
  intros Hd Hl. split; [|split].
  - eapply sublist_NoDup; [|apply sublist_take]. rewrite Hl. by apply members_nodup.
  - intros m Hm%subseteq_take. by rewrite elem_of_members, <-Hl.
  - rewrite size_elems by done. unfold set_len, zlen. rewrite length_take, <-Hl. lia.
Qed.

(** ** Lemmas: the store *)

Lemma sok_same now s s' A :
  sets_ok now s A -> hot s' -> (forall k, find s' k = find s k) -> sets_ok now s' A.
Proof.
  intros [Hh Hs Hw] Hh' E. split; [done|..].
  - intros k. by rewrite Hs, E.
  - intros k e. rewrite E. apply Hw.
Qed.

Lemma sok_bump now key s A : sets_ok now s A -> sets_ok now (bump key s) A.
Proof. intros H. eapply sok_same; [done|apply hot_bump, H|]. intros k. by rewrite find_bump. Qed.

Lemma sok_charge now key n s A : sets_ok now s A -> sets_ok now (charge key n s) A.
Proof.
  intros H. pose proof (so_hot _ _ _ H) as [Hn Hd]. eapply sok_same; [done| |].
  - split; [by apply nonempty_shard_mem_add|done].
  - intros k. unfold charge. by rewrite find_mem_add, find_shard_mem_add.
Qed.

Lemma sok_refund now key n s A : sets_ok now s A -> sets_ok now (refund key n s) A.
Proof.
  intros H. pose proof (so_hot _ _ _ H) as [Hn Hd]. eapply sok_same; [done| |].
  - split; [by apply nonempty_shard_mem_sub|done].
  - intros k. unfold refund. by rewrite find_mem_sub, find_shard_mem_sub.
Qed.

Lemma sok_put now key e d s A :
  sets_ok now s A -> is_expired_at now e = false -> wf_set d ->
  sets_ok now (put_set key e d s) (upd key (SSet (elems d) (expires_at e)) A).
Proof.
  intros [Hh Hs Hw] He Hd. unfold put_set. split; [by apply hot_put_data|..].
  - intros k. unfold upd. rewrite find_put_data by apply Hh. destruct (decide (k = key)); [|done].
    cbn [slot_at value expires_at]. unfold is_expired_at in *. cbn [expires_at]. by rewrite He.
  - intros k e'. rewrite find_put_data by apply Hh. destruct (decide (k = key)); [|apply Hw].
    by intros [= <-].
Qed.

(** What [view_set] finds. *)
Lemma view_cases now s A k :
  sets_ok now s A ->
  (view_set k now s = Ok None /\ A k = SAbsent) \/
  (exists e d, view_set k now s = Ok (Some (e, d)) /\ A k = SSet (elems d) (expires_at e) /\
     wf_set d /\ is_expired_at now e = false) \/
  (view_set k now s = Err WRONGTYPE /\ is_other (A k) = true).
Proof.
  intros [Hh Hs Hw]. rewrite (Hs k). unfold view_set, slot_at.
  destruct (find s k) as [e|] eqn:Ef; [|by left]. destruct (is_expired_at now e) eqn:Ee; [by left|].
  specialize (Hw k e Ef). unfold wf_entry in Hw. destruct (value e) eqn:Ev; try (by right; right).
  right; left. by exists e, s0.
Qed.

(** What [open_set] gives. *)
Lemma open_cases now s A k :
  sets_ok now s A ->
  let '(e, s1) := open_set k now s in
  sets_ok now s1 A /\ is_expired_at now e = false /\
  if is_other (A k) then match value e with VSet _ => False | _ => s1 = s end
  else exists d, value e = VSet d /\ wf_set d /\ elems d = contents (A k) /\ expires_at e = deadline_of (A k).
Proof.
  intros Hok. pose proof Hok as [Hh Hs Hw]. rewrite (Hs k). unfold open_set, slot_at.
  destruct (find s k) as [e|] eqn:Ef; [destruct (is_expired_at now e) eqn:Ee|].
  - split; [done|]. split; [done|]. cbn. exists set_new. split; [done|]. by split; [apply wf_new|].
  - split; [done|]. split; [done|]. specialize (Hw k e Ef). unfold wf_entry in Hw.
    destruct (value e) eqn:Ev; cbn [is_other]; try done. by exists s0.
  - split; [by apply (sok_same now s)|]. split; [done|]. cbn. exists set_new. split; [done|]. by split; [apply wf_new|].
Qed.

(** ** Lemmas: each command *)

Ltac views now s A k Hok :=
  destruct (view_cases now s A k Hok) as [(Hv & Ha)|[(e & d & Hv & Ha & Hd & He)|(Hv & Ha)]];
  rewrite ?Hv.

Lemma promote_id {R} hc clock key now s A (k : Store -> result R * Store) :
  sets_ok now s A -> promoted hc clock key now s k = k s.
Proof. intros H. unfold promoted. by rewrite hot_promote by apply H. Qed.

Lemma sadd_ok hc clock now key ms s A :
  sets_ok now s A ->
  let '(r, s') := sadd hc clock key ms now s in
  if is_other (A key) then r = Err WRONGTYPE /\ sets_ok now s' A
  else r = Ok (Z.of_nat (size (texts ms ∖ contents (A key)))) /\
       sets_ok now s' (upd key (SSet (contents (A key) ∪ texts ms) (deadline_of (A key))) A).
Proof.
  intros Hok. unfold sadd. erewrite promote_id by done. apply (sok_bump now key) in Hok.
  pose proof (open_cases now _ A key Hok) as H. destruct (open_set key now (bump key s)) as [e s1].
  destruct H as (Hok1 & He & H). destruct (is_other (A key)).
  - by destruct (value e).
  - destruct H as (d & -> & Hd & Hel & Hx). pose proof (insert_loop ms 0 0 d Hd) as Hi.
    destruct (foldl _ _ _) as [[a mem] d']. destruct Hi as (Hd' & Hel' & ->).
    rewrite <-Hel, <-Hx. split; [done|]. rewrite <-Hel'. by apply sok_charge, sok_put.
Qed.

Lemma srem_ok hc clock now key ms s A :
  sets_ok now s A ->
  let '(r, s') := srem hc clock key ms now s in
  if is_other (A key) then r = Err WRONGTYPE /\ sets_ok now s' A
  else r = Ok (Z.of_nat (size (contents (A key) ∩ names ms))) /\
       sets_ok now s' (match A key with SSet X exp => upd key (SSet (X ∖ names ms) exp) A | _ => A end).
Proof.
  intros Hok. unfold srem. erewrite promote_id by done. apply (sok_bump now key) in Hok.
  views now (bump key s) A key Hok; [rewrite Ha..|]; cbn [is_other].
  - split; [|done]. cbn [contents]. replace (∅ ∩ names ms) with (∅ : gset bytes) by set_solver. done.
  - pose proof (remove_loop ms 0 0 d Hd) as Hi. destruct (foldl _ _ _) as [[a mem] d'].
    destruct Hi as (Hd' & Hel' & ->). split; [done|]. rewrite <-Hel'. by apply sok_refund, sok_put.
  - by rewrite Ha.
Qed.

Lemma smove_ok now a b m s A :
  sets_ok now s A ->
  let '(r, s') := smove a b m now s in
  if is_other (A b) || is_other (A a) then r = Err WRONGTYPE /\ sets_ok now s' A
  else if bool_decide (key_str m ∈ contents (A a))
  then r = Ok true /\
       let A1 := upd a (SSet (contents (A a) ∖ {[key_str m]}) (deadline_of (A a))) A in
       sets_ok now s' (upd b (SSet (contents (A1 b) ∪ {[key_string m]}) (deadline_of (A1 b))) A1)
  else r = Ok false /\ sets_ok now s' A.
Proof.
  intros Hok. unfold smove.
  assert (match view_set b now s with Ok _ => is_other (A b) = false
          | Err x => x = WRONGTYPE /\ is_other (A b) = true end) as Hb.
  { views now s A b Hok; by rewrite ?Ha. }
  destruct (view_set b now s) as [o|x]; [rewrite Hb|by destruct Hb as [-> ->]].
  apply (sok_bump now a) in Hok. cbn [orb]. views now (bump a s) A a Hok; [rewrite Ha..|].
  - cbn. by rewrite bool_decide_eq_false_2 by set_solver.
  - cbn [is_other contents deadline_of]. pose proof Hd as [Hset _].
    pose proof (set_remove_ok (key_str m) d Hset) as Hr. destruct (set_remove (key_str m) d) as [ok d1].
    destruct Hr as (Hset1 & -> & Hel1). case_bool_decide as Hin; cbn [negb]; [|done].
    assert (wf_set d1) as Hd1.
    { apply wf_set_elems; [done|]. intros x. rewrite Hel1, elem_of_difference.
      intros [Hx _]. by apply (utf8_elems d). }
    pose proof (sok_bump now b _ _ (sok_refund now a (zlen m + 32) _ _
      (sok_put now a e d1 _ A Hok He Hd1))) as Hok1. rewrite <-Hel1.
    set (A1 := upd a _ A) in *. set (s1 := bump b _) in *.
    assert (is_other (A1 b) = false) as Hb1.
    { unfold A1, upd. by destruct (decide (b = a)). }
    pose proof (open_cases now s1 A1 b Hok1) as H. destruct (open_set b now s1) as [e2 s2].
    rewrite Hb1 in H. destruct H as (Hok2 & He2 & d2 & -> & Hd2 & Hel2 & Hx2).
    pose proof Hd2 as [Hset2 _]. pose proof (set_insert_ok (key_string m) d2 Hset2) as Hi.
    destruct (set_insert (key_string m) d2) as [ok d3]. destruct Hi as (Hset3 & _ & Hel3).
    assert (wf_set d3) as Hd3.
    { apply wf_set_elems; [done|]. intros x. rewrite Hel3, elem_of_union, elem_of_singleton.
      intros [->|Hx]; [apply key_string_is_utf8|by apply (utf8_elems d2)]. }
    split; [done|]. pose proof (sok_put now b e2 d3 s2 A1 Hok2 He2 Hd3) as Hok3.
    rewrite <-Hx2, <-Hel2. replace (elems d2 ∪ {[key_string m]}) with (elems d3) by (rewrite Hel3; set_solver).
    destruct ok; [by apply sok_charge|done].
  - by rewrite Ha.
Qed.

(** ** Lemmas: set algebra *)

Abbreviation others A ks := (existsb (fun k => is_other (A k)) ks).

Lemma contents_utf8 now s A k m : sets_ok now s A -> m ∈ contents (A k) -> is_utf8 m = true.
Proof.
  intros Hok. destruct (view_cases now s A k Hok) as [(_ & ->)|[(e & d & _ & -> & Hd & _)|(_ & Ho)]]; cbn.
  - set_solver.
  - by apply utf8_elems.
  - destruct (A k); cbn; try done; set_solver.
Qed.

Lemma union_keys_ok now s A ks : forall acc,
  sets_ok now s A ->
  union_keys ks now s acc = if others A ks then Err WRONGTYPE else Ok (acc ∪ union_of A ks).
Proof.
  induction ks as [|k ks IH]; intros acc Hok; cbn [union_keys existsb].
  - f_equal. unfold union_of. cbn. set_solver.
  - unfold union_of. cbn [fmap list_fmap union_list]. fold (union_of A ks).
    views now s A k Hok; rewrite ?IH, ?Ha by done; cbn [is_other orb contents]; [..|done];
      (destruct (others A ks); [done|]); f_equal; unfold elems; set_solver.
Qed.

Lemma collect_set_ok now s A k :
  sets_ok now s A -> collect_set k now s = if is_other (A k) then Err WRONGTYPE else Ok (contents (A k)).
Proof. intros Hok. unfold collect_set. views now s A k Hok; by rewrite Ha. Qed.

(** The loop that narrows a set, for an operation [op] that the filter computes. *)
Lemma retain_keys_ok (op : gset bytes -> gset bytes -> gset bytes) keep missing now s A ks :
  (forall d X, Values.set_ok d -> filter (fun m => keep d m = true) X = op X (elems d)) ->
  (forall X, missing X = op X ∅) ->
  sets_ok now s A -> forall acc,
  retain_keys keep missing ks now s acc =
    if others A ks then Err WRONGTYPE else Ok (foldl (fun X k => op X (contents (A k))) acc ks).
Proof.
  intros Hk Hm Hok. induction ks as [|k ks IH]; intros acc; cbn [retain_keys existsb foldl]; [done|].
  views now s A k Hok; rewrite ?IH, ?Ha; cbn [is_other orb contents]; [by rewrite Hm| |done].
  by rewrite Hk by apply Hd.
Qed.

Lemma keep_inter d X : Values.set_ok d -> filter (fun m => set_contains m d = true) X = X ∩ elems d.
Proof.
  intros Hd. apply set_eq. intros m. rewrite elem_of_filter, elem_of_intersection, set_contains_elems by done.
  rewrite bool_decide_eq_true. tauto.
Qed.

Lemma keep_diff d X : Values.set_ok d -> filter (fun m => negb (set_contains m d) = true) X = X ∖ elems d.
Proof.
  intros Hd. apply set_eq. intros m. rewrite elem_of_filter, elem_of_difference, set_contains_elems by done.
  rewrite negb_true_iff, bool_decide_eq_false. tauto.
Qed.

Lemma retain_inter now s A ks :
  sets_ok now s A -> forall acc,
  retain_keys (fun d m => set_contains m d) (fun _ => ∅) ks now s acc =
    if others A ks then Err WRONGTYPE else Ok (foldl (fun X k => X ∩ contents (A k)) acc ks).
Proof. apply (retain_keys_ok (∩)); [apply keep_inter|]. intros X. set_solver. Qed.

Lemma retain_diff now s A ks :
  sets_ok now s A -> forall acc,
  retain_keys (fun d m => negb (set_contains m d)) id ks now s acc =
    if others A ks then Err WRONGTYPE else Ok (foldl (fun X k => X ∖ contents (A k)) acc ks).
Proof. apply (retain_keys_ok (∖)); [apply keep_diff|]. intros X. cbn. set_solver. Qed.

(** The routes for two keys visit one set and test the other. *)
Lemma with_two_ok {R} now s A a b (f : option SetData -> option SetData -> R) (P : R -> Prop) :
  sets_ok now s A ->
  (forall l r, match l with Some d => wf_set d /\ contents (A a) = elems d | None => contents (A a) = ∅ end ->
               match r with Some d => wf_set d /\ contents (A b) = elems d | None => contents (A b) = ∅ end ->
               P (f l r)) ->
  if others A [a; b] then with_two_set_views a b now s f = Err WRONGTYPE
  else exists x, with_two_set_views a b now s f = Ok x /\ P x.
Proof.
  intros Hok HP. cbn [existsb]. unfold with_two_set_views.
  assert (forall k, if is_other (A k) then view_set k now s = Err WRONGTYPE
    else exists o, view_set k now s = Ok o /\
         match snd <$> o with Some d => wf_set d /\ contents (A k) = elems d | None => contents (A k) = ∅ end) as H.
  { intros k. views now s A k Hok; rewrite Ha; cbn; [by eexists..|done]. }
  pose proof (H a) as Ha. pose proof (H b) as Hb. destruct (is_other (A a)); cbn [orb]; [by rewrite Ha|].
  destruct Ha as (oa & -> & Ha). destruct (is_other (A b)); cbn [orb]; [by rewrite Hb|].
  destruct Hb as (ob & -> & Hb). eexists. split; [done|]. by apply HP.
Qed.

Lemma all_of_order (order : gset bytes -> list bytes) X :
  (forall X, order X ≡ₚ elements X) -> all_of X (order X).
Proof.
  intros H. split; [rewrite H; apply NoDup_elements|]. intros m. by rewrite H, elem_of_elements.
Qed.

Lemma all_of_filter (p : bytes -> bool) (Q X : gset bytes) d :
  Values.set_ok d -> X = elems d -> (forall m, m ∈ X -> p m = true <-> m ∈ Q) ->
  all_of (X ∩ Q) (List.filter p (members d)).
Proof.
  intros Hd -> Hp. split.
  - apply NoDup_ListNoDup, List.NoDup_filter, NoDup_ListNoDup. by apply members_nodup.
  - intros m. rewrite elem_of_intersection, !list_elem_of_In, filter_In, <-list_elem_of_In, <-elem_of_members.
    split; [intros [Hm Hf]; split; [done|by apply Hp]|intros [Hm Hf]; split; [done|by apply Hp]].
Qed.

(** A command that lists the elements of a computed set. *)
Definition lists_of (ks : list bytes) (A : space) (X : gset bytes) (r : result (list bytes)) : Prop :=
  if others A ks then r = Err WRONGTYPE else exists l, r = Ok l /\ all_of X l.

Section Algebra.
Context (order : gset bytes -> list bytes) (Horder : forall X, order X ≡ₚ elements X).
Context (now : Z) (s : Store) (A : space) (Hok : sets_ok now s A).

Lemma sunion_ok ks : lists_of ks A (union_of A ks) (sunion order ks now s).
Proof using Horder Hok.
  assert (lists_of ks A (union_of A ks) (result_map order (union_keys ks now s ∅))) as Hgen.
  { unfold lists_of. rewrite (union_keys_ok now s A ks ∅ Hok). destruct (others A ks); [done|].
    eexists. split; [done|]. rewrite (left_id_L ∅ (∪)). by apply all_of_order. }
  unfold sunion. destruct ks as [|a [|b [|c ks]]]; try done. clear Hgen.
  apply with_two_ok; [done|]. intros l r Hl Hr. unfold union_of. cbn [fmap list_fmap union_list foldr].
  rewrite (right_id_L ∅ (∪)).
  assert (forall k (o : option SetData), match o with Some d => wf_set d /\ contents (A k) = elems d
    | None => contents (A k) = ∅ end -> match o with Some d => list_to_set (members d) | None => ∅ end = contents (A k)) as E.
  { intros k [d|]; [by intros [_ ->]|done]. }
  rewrite (E a l Hl), (E b r Hr). by apply all_of_order.
Qed.

Lemma sinter_ok ks : lists_of ks A (inter_of A ks) (sinter order ks now s).
Proof using Horder Hok.
  assert (forall k ks, lists_of (k :: ks) A (inter_of A (k :: ks))
    match collect_set k now s with
    | Err x => Err x
    | Ok X => result_map order (retain_keys (fun d m => set_contains m d) (fun _ => ∅) ks now s X)
    end) as Hgen.
  { intros k ks'. unfold lists_of. rewrite (collect_set_ok now s A k Hok). cbn [existsb inter_of].
    destruct (is_other (A k)); cbn [orb]; [done|].
    rewrite (retain_inter now s A ks' Hok).
    destruct (others A ks'); [done|]. eexists. split; [done|]. by apply all_of_order. }
  unfold sinter. destruct ks as [|a [|b [|c ks]]]; [|apply Hgen| |apply Hgen].
  { exists []. split; [done|]. split; [by constructor|]. intros m. set_solver. }
  clear Hgen. apply with_two_ok; [done|]. intros l r Hl Hr. cbn [inter_of foldl].
  assert (forall X, X = ∅ -> all_of X []) as Hnil.
  { intros X ->. split; [by constructor|]. set_solver. }
  destruct l as [l|]; [|rewrite Hl; apply Hnil; set_solver].
  destruct r as [r|]; [|rewrite Hr; apply Hnil; set_solver]. destruct Hl as [[Hl _] ->], Hr as [[Hr _] ->].
  destruct (set_len l <=? set_len r); [|rewrite (comm_L (∩))]; apply all_of_filter; try done;
    intros m _; by rewrite set_contains_elems, bool_decide_eq_true.
Qed.

Lemma sdiff_ok ks : lists_of ks A (diff_of A ks) (sdiff order ks now s).
Proof using Horder Hok.
  assert (forall k ks, lists_of (k :: ks) A (diff_of A (k :: ks))
    match collect_set k now s with
    | Err x => Err x
    | Ok X => result_map order (retain_keys (fun d m => negb (set_contains m d)) id ks now s X)
    end) as Hgen.
  { intros k ks'. unfold lists_of. rewrite (collect_set_ok now s A k Hok). cbn [existsb diff_of].
    destruct (is_other (A k)); cbn [orb]; [done|].
    rewrite (retain_diff now s A ks' Hok).
    destruct (others A ks'); [done|]. eexists. split; [done|]. by apply all_of_order. }
  unfold sdiff. destruct ks as [|a [|b [|c ks]]]; [|apply Hgen| |apply Hgen].
  { exists []. split; [done|]. split; [by constructor|]. intros m. set_solver. }
  clear Hgen. apply with_two_ok; [done|]. intros l r Hl Hr. cbn [diff_of foldl].
  destruct l as [l|].
  2:{ rewrite Hl. split; [by constructor|]. set_solver. }
  destruct Hl as [[Hl _] ->]. destruct r as [r|].
  - destruct Hr as [[Hr _] ->]. replace (elems l ∖ elems r) with (elems l ∩ (elems l ∖ elems r)) by set_solver.
    apply all_of_filter; [done..|]. intros m Hm.
    rewrite set_contains_elems, negb_true_iff, bool_decide_eq_false by done. set_solver.
  - rewrite Hr. replace (elems l ∖ ∅) with (elems l) by set_solver. by apply all_of_members.
Qed.

End Algebra.

(** ** Lemmas: commands that journal what they do *)

Lemma all_of_size X l : all_of X l -> zlen l = Z.of_nat (size X).
Proof.
  intros [Hnd Hm]. replace X with (list_to_set l : gset bytes) by (apply set_eq; intros m; by rewrite elem_of_list_to_set).
  by rewrite size_list_to_set.
Qed.

Lemma some_of_size n X l : some_of n X l -> Z.of_nat (size (X ∩ list_to_set l)) = zlen l.
Proof.
  intros (Hnd & Hin & _). replace (X ∩ list_to_set l) with (list_to_set l : gset bytes).
  - by rewrite size_list_to_set.
  - apply set_eq. intros m. rewrite elem_of_intersection, elem_of_list_to_set. naive_solver.
Qed.

Lemma some_of_nil n X l : some_of n X l -> l = [] <-> (n <=? 0) || bool_decide (X = ∅) = true.
Proof.
  intros (_ & _ & Hl). assert (l = [] <-> zlen l = 0) as ->.
  { unfold zlen. destruct l; cbn; [done|]. split; [done|lia]. }
  rewrite Hl, orb_true_iff, Z.leb_le, bool_decide_eq_true.
  assert (X = ∅ <-> size X = 0%nat) as ->.
  { split; [intros ->; apply size_empty|]. intros H%size_empty_inv. by apply leibniz_equiv. }
  lia.
Qed.

Lemma cmd_spop_ok hc clock now k n appended s A :
  sets_ok now s A ->
  let '(r, j, s') := cmd_spop hc clock k n appended now s in
  exists A', sspec (SPop k n appended) A (sreply_of SList r) j A' /\ sets_ok now s' A'.
Proof.
  intros Hok. unfold cmd_spop, preview_spop, sspec. views now s A k Hok; [rewrite Ha..|]; cbn [is_other contents].
  - exists A. rewrite bool_decide_eq_true_2, orb_true_r by done. done.
  - pose proof (some_of_take n d (reverse (members d)) (proj1 Hd) (reverse_Permutation _)) as Hl.
    set (l := take _ _) in *. pose proof (some_of_nil _ _ _ Hl) as Hnil.
    assert (Forall (fun m => is_utf8 m = true) l) as Hu.
    { apply Forall_forall. intros m Hm. apply (utf8_elems d); [done|]. by apply Hl. }
    destruct ((n <=? 0) || _) eqn:Eb.
    + rewrite (proj2 Hnil eq_refl). by exists A.
    + assert (l <> []) as Hne. { intros H. apply Hnil in H. congruence. }
      clear Hnil Eb. destruct l as [|x l0] eqn:El; [done|]. rewrite <-El in *. clear El x l0 Hne.
      destruct appended; cbn [negb]; [|by exists A].
      pose proof (srem_ok hc clock now k l s A Hok) as Hr. destruct (srem hc clock k l now s) as [r s'].
      rewrite Ha in Hr. cbn [is_other contents] in Hr. destruct Hr as [-> Hok'].
      rewrite names_utf8, (some_of_size n), Z.eqb_refl in * by done. cbn [negb].
      eexists. split; [|done]. exists l. split; [done|]. split; [done|]. split; [done|]. by intros k'.
  - rewrite Ha. by exists A.
Qed.

Lemma del_one_sok clock now dst s A :
  sets_ok now s A -> sets_ok now (del clock [dst] s).2 (upd dst SAbsent A).
Proof.
  intros Hok. unfold del. cbn [foldl]. unfold del_one. apply (sok_bump now dst) in Hok.
  set (s1 := bump dst s) in *. pose proof Hok as [Hh Hs Hw]. rewrite hot_disk_contains by apply Hh.
  destruct (find s1 dst) as [e|] eqn:Ef.
  - assert (sets_ok now (remove_accounted dst e s1) (upd dst SAbsent A)) as H.
    { split; [by apply hot_remove|..].
      - intros k. unfold upd. rewrite find_remove_accounted by apply Hh. by destruct (decide (k = dst)).
      - intros k e'. rewrite find_remove_accounted by apply Hh. destruct (decide (k = dst)); [done|]. apply Hw. }
    destruct (vector_dims (value e)) as [dims|]; cbn [app foldl snd fst]; [|done].
    eapply sok_same; [done|apply hot_remove_vector, H|]. intros k. by rewrite find_remove_vector.
  - cbn [foldl snd]. split; [done| |done]. intros k. unfold upd. destruct (decide (k = dst)) as [->|]; [|done].
    by rewrite Ef.
Qed.

Lemma write_computed_ok hc clock now dst X ms appended s A :
  sets_ok now s A -> all_of X ms -> (forall m, m ∈ X -> is_utf8 m = true) ->
  let '(r, j, s') := write_computed_set hc clock dst ms appended now s in
  exists A', stored dst X appended A (sreply_of SInt r) j A' /\ sets_ok now s' A'.
Proof.
  intros Hok Hall Hu. unfold write_computed_set, stored. destruct appended; cbn [negb]; [|by exists A].
  pose proof (del_one_sok clock now dst s A Hok) as Hok1. set (s1 := (del clock [dst] s).2) in *.
  pose proof (all_of_size _ _ Hall) as Hsz.
  assert (ms = [] <-> X = ∅) as Hnil.
  { split.
    - intros ->. apply set_eq. intros m. rewrite <-(proj2 Hall). set_solver.
    - intros ->. apply elem_of_nil_inv. intros m Hm%(proj2 Hall). set_solver. }
  destruct (decide (X = ∅)) as [He|He].
  - rewrite bool_decide_eq_true_2 by (by apply Hnil). eexists. split; [|done].
    split; [cbn; by rewrite Hsz|]. split; [done|]. by exists ms.
  - rewrite bool_decide_eq_false_2 by (by rewrite Hnil).
    pose proof (sadd_ok hc clock now dst ms s1 _ Hok1) as Ha. destruct (sadd hc clock dst ms now s1) as [r s'].
    unfold upd at 1 2 3 in Ha. rewrite !decide_True in Ha by done. cbn [is_other contents deadline_of] in Ha.
    destruct Ha as [-> Ha]. eexists. split; [|done]. split; [cbn; by rewrite Hsz|]. split.
    + intros k. unfold upd. destruct (decide (k = dst)) as [->|]; [|done].
      rewrite decide_True by done. cbn [contents deadline_of]. f_equal. rewrite (left_id_L ∅ (∪)).
      unfold texts. replace (key_string <$> ms) with ms.
      * apply set_eq. intros m. rewrite elem_of_list_to_set. apply Hall.
      * symmetry. rewrite <-(list_fmap_id ms) at 2. apply list_fmap_ext. intros i m Hi.
        apply key_string_utf8, Hu, Hall. by eapply list_elem_of_lookup_2.
    + by exists ms.
Qed.

Lemma store_result_ok hc clock now dst ks X r appended s A :
  sets_ok now s A -> lists_of ks A X r -> (forall m, m ∈ X -> is_utf8 m = true) ->
  let '(r, j, s') := store_result hc clock dst r appended now s in
  exists A', (if others A ks then sreply_of SInt r = SErr WRONGTYPE /\ j = [] /\ same A' A
              else stored dst X appended A (sreply_of SInt r) j A') /\ sets_ok now s' A'.
Proof.
  intros Hok Hl Hu. unfold lists_of in Hl. destruct (others A ks).
  - subst r. cbn. by exists A.
  - destruct Hl as (l & -> & Hl). cbn [store_result]. by apply write_computed_ok.
Qed.

Lemma union_sub A ks m : m ∈ union_of A ks -> exists k, m ∈ contents (A k).
Proof.
  induction ks as [|k ks IH]; unfold union_of; cbn; [set_solver|]. fold (union_of A ks).
  rewrite elem_of_union. intros [H|H]; [by exists k|by apply IH].
Qed.

Lemma narrow_sub (op : gset bytes -> gset bytes -> gset bytes) (A : space) ks m :
  (forall X Y, op X Y ⊆ X) -> forall X, m ∈ foldl (fun X k => op X (contents (A k))) X ks -> m ∈ X.
Proof.
  intros Hop. induction ks as [|k ks IH]; intros X; cbn [foldl]; [done|]. intros H%IH. by apply Hop in H.
Qed.

Lemma algebra_utf8 now s A ks m :
  sets_ok now s A -> m ∈ union_of A ks \/ m ∈ inter_of A ks \/ m ∈ diff_of A ks -> is_utf8 m = true.
Proof.
  intros Hok H. assert (exists k, m ∈ contents (A k)) as [k Hk].
  { destruct H as [H|H]; [by apply union_sub in H|]. destruct ks as [|k ks]; [cbn in H; set_solver|].
    exists k. destruct H as [H|H].
    - apply (narrow_sub (∩)) in H; [done|set_solver].
    - apply (narrow_sub (∖)) in H; [done|set_solver]. }
  by apply (contents_utf8 now s A k).
Qed.

(** ** The contract holds *)

Lemma reads_ok now s A (P : Prop) : sets_ok now s A -> P -> exists A', (@nil (list bytes) = [] /\ same A' A /\ P) /\ sets_ok now s A'.
Proof. intros Hok HP. by exists A. Qed.

Lemma srand_some n d :
  Values.set_ok d ->
  some_of (Z.abs n) (elems d)
    (if (n =? 0) || set_is_empty d then [] else take (Z.to_nat (Z.abs n)) (members d)).
Proof.
  intros Hd. destruct ((n =? 0) || set_is_empty d) eqn:E; [|by apply some_of_take].
  split; [by constructor|]. split; [set_solver|]. rewrite size_elems by done.
  apply orb_true_iff in E as [E|E]; [zbool; subst|unfold set_is_empty in E; apply bool_decide_eq_true in E].
  - pose proof (zlen_nonneg (members d)). unfold set_len. change (zlen (@nil bytes)) with 0. lia.
  - unfold set_len. rewrite E. change (zlen (@nil bytes)) with 0. lia.
Qed.

(** The commands that only read one key. *)
Lemma reader_ok now s A k (c : scmd) (r : sreply) (P : Prop) :
  sets_ok now s A ->
  sspec c A r [] A = (if is_other (A k) then r = SErr WRONGTYPE /\ @nil (list bytes) = [] /\ same A A
                      else @nil (list bytes) = [] /\ same A A /\ P) ->
  (if is_other (A k) then r = SErr WRONGTYPE else P) ->
  exists A', sspec c A r [] A' /\ sets_ok now s A'.
Proof. intros Hok E H. exists A. split; [|done]. rewrite E. by destruct (is_other (A k)). Qed.


(** An empty store, and SADD then SPOP on it. *)
Lemma new_sets_ok now : sets_ok now (new 4) (fun _ => SAbsent).
Proof.
  assert (forall k, find (new 4) k = None) as H.
  { intros k. unfold find, shard_at, new. cbn [shards].
    destruct (replicate 4 empty_shard !! _) as [sh|] eqn:E; [|done].
    apply lookup_replicate in E as [-> _]. done. }
  split; [split; [unfold nonempty; cbn; lia|done]|..].
  - intros k. by rewrite H.
  - intros k e. by rewrite H.
Qed.


(** The pops of the direct route take the members from the end. *)
Lemma spop_loop_ok n d :
  Values.set_ok d ->
  let '(out, _, d') := spop_on_shard_loop n d in
  Values.set_ok d' /\ reverse out = drop (length (members d) - n) (members d) /\
  members d' = take (length (members d) - n) (members d).
Proof.
  intros Hd. unfold spop_on_shard_loop. induction n as [|n IH].
  - cbn. rewrite Nat.sub_0_r, drop_all, take_ge by lia. done.
  - rewrite Nat.iter_succ. destruct (Nat.iter n _ _) as [[out freed] d1]. destruct IH as (Hd1 & Ho & Hm).
    pose proof (set_pop_ok d1 Hd1) as Hp. cbv beta iota. unfold set_pop in *. destruct (list.last (members d1)) as [m|] eqn:El.
    + destruct Hp as [Hd2 _]. split; [done|]. cbn [members].
      assert (n < length (members d))%nat as Hlt.
      { destruct (decide (n < length (members d))%nat) as [|Hge]; [done|]. rewrite Hm in El.
        replace (length (members d) - n)%nat with 0%nat in El by lia. by rewrite take_0 in El. }
      replace (length (members d1) - 1)%nat with (length (members d) - S n)%nat
        by (rewrite Hm, length_take; lia).
      assert (members d !! (length (members d) - S n)%nat = Some m) as Hlk.
      { rewrite last_lookup, Hm, lookup_take_lt in El; rewrite length_take in *; [|lia].
        rewrite <-El. f_equal. lia. }
      split.
      * rewrite reverse_snoc, Ho, (drop_S _ _ _ Hlk). do 2 f_equal. lia.
      * rewrite Hm, take_take. f_equal. lia.
    + split; [done|]. apply last_None in El. rewrite El in Hm. symmetry in Hm. apply (f_equal length) in Hm as Hl.
      rewrite length_take in Hl. change (length (@nil bytes)) with 0%nat in Hl.
      assert (length (members d) - n = 0)%nat as E0 by lia. rewrite E0 in Ho.
      replace (length (members d) - S n)%nat with 0%nat by lia. by rewrite El.
Qed.

(** The two routes of SPOP choose the same members. On a set, the members that the route of a
    pipeline pops under the shard lock, with no journal record of its own, are the ones the preview
    of the ordinary route names, in the same order, and both leave the set without them and with its
    deadline. *)
Theorem spop_routes_agree (key : bytes) (n now : Z) (s : Store) (A : space) (X : gset bytes) (exp : option Z) :
  sets_ok now s A -> A key = SSet X exp ->
  let '(r, s') := spop_on_shard key n now s in
  exists l, preview_spop key n now s = Ok l /\ r = Ok l /\
    sets_ok now s' (upd key (SSet (X ∖ list_to_set l) exp) A).
Proof.
  intros Hok HA. unfold spop_on_shard, preview_spop.
  views now s A key Hok; [congruence| |rewrite HA in Ha; done].
  rewrite HA in Ha. injection Ha as -> ->. pose proof (spop_loop_ok (Z.to_nat n) d (proj1 Hd)) as Hp.
  destruct (spop_on_shard_loop _ d) as [[out freed] d']. destruct Hp as (Hd' & Ho & Hm).
  assert (take (Z.to_nat n) (reverse (members d)) = out) as ->.
  { rewrite take_reverse, <-Ho. apply reverse_involutive. }
  exists out. split; [done|]. split; [done|].
  assert (elems d' = elems d ∖ list_to_set out) as He'.
  { pose proof (members_nodup d (proj1 Hd)) as Hnd.
    rewrite <-(take_drop (length (members d) - Z.to_nat n) (members d)), <-Hm, <-Ho in Hnd.
    apply NoDup_app in Hnd as (_ & Hdis & _). apply set_eq. intros m.
    rewrite elem_of_difference, elem_of_list_to_set, !elem_of_members.
    rewrite <-(take_drop (length (members d) - Z.to_nat n) (members d)), <-Hm, <-Ho.
    rewrite elem_of_app, elem_of_reverse. split; [|tauto]. intros H. split; [by left|].
    intros Hin. apply (Hdis m H). by rewrite elem_of_reverse. }
  rewrite <-He'. apply sok_refund, sok_put; [done..|]. apply wf_set_elems; [done|].
  intros m. rewrite He', elem_of_difference. intros [Hm' _]. by apply (utf8_elems d).
Qed.

Lemma spop_routes_agree_witness :
  let s := (sadd (fun _ => 0) 7 (bs "k") [bs "a"; bs "b"; bs "c"] 7 (new 4)).2 in
  (spop_on_shard (bs "k") 2 7 s).1 = Ok [bs "c"; bs "b"] /\
  exists l, preview_spop (bs "k") 2 7 s = Ok l /\ (spop_on_shard (bs "k") 2 7 s).1 = Ok l.
Proof.
  cbv zeta. pose proof (sadd_ok (fun _ => 0) 7 7 (bs "k") [bs "a"; bs "b"; bs "c"] (new 4) _ (new_sets_ok 7)) as H.
  split; [vm_compute; reflexivity|]. destruct (sadd _ _ _ _ _ _) as [r s]. destruct H as [_ H].
  pose proof (fun X exp => spop_routes_agree (bs "k") 2 7 s _ X exp H) as H1. cbn [snd].
  specialize (H1 _ _ eq_refl). destruct (spop_on_shard (bs "k") 2 7 s) as [r' s'].
  destruct H1 as (l & Hl & -> & _). exists l. split; [exact Hl|reflexivity].
Defined.

Lemma lossy_nonempty b : is_utf8 b = false -> from_utf8_lossy b <> [].
Proof.
  unfold is_utf8, from_utf8_lossy. induction (utf8_chunks b) as [|[[c|] u] cs IH]; cbn; [done| |done].
  intros H%IH E. by apply app_eq_nil in E as [_ ?].
Qed.

(** A member that is not UTF-8 is stored as its replacement text, and SREM of the same bytes does not
    find it: it looks for the empty text. *)
Theorem binary_member_lost (b : bytes) (d : SetData) :
  is_utf8 b = false -> wf_set d -> [] ∉ elems d ->
  let '(added, _, d1) := foldl insert_one (0, 0, d) [b] in
  let '(removed, _, d2) := foldl remove_one (0, 0, d1) [b] in
  removed = 0 /\ set_contains (key_str b) d1 = false /\ key_string b ∈ elems d2.
Proof.
  intros Hb Hd Hn. pose proof (insert_loop [b] 0 0 d Hd) as Hi.
  destruct (foldl insert_one _ _) as [[a mem] d1]. destruct Hi as (Hd1 & He1 & _).
  pose proof (remove_loop [b] 0 0 d1 Hd1) as Hr.
  destruct (foldl remove_one _ _) as [[a2 mem2] d2]. destruct Hr as (_ & He2 & ->).
  assert (key_string b <> []) as Hne.
  { unfold key_string. rewrite Hb. by apply lossy_nonempty. }
  assert (key_str b = []) as Ek by (unfold key_str; by rewrite Hb).
  assert (texts [b] = {[key_string b]}) as Et by (unfold texts; cbn; set_solver).
  assert (names [b] = {[ [] ]}) as Em by (unfold names; cbn; rewrite Ek; set_solver).
  rewrite set_contains_elems by apply Hd1. rewrite Ek, He2, Em, He1, Et. repeat split.
  - replace ((elems d ∪ {[key_string b]}) ∩ {[ [] ]}) with (∅ : gset bytes) by set_solver. done.
  - apply bool_decide_eq_false_2. set_solver.
  - set_solver.
Qed.

End Sets.
