(* ===== verification/SortedSets.v ===== *)
(** * Sorted set commands ([src/src/store/sorted_sets.rs])

    The operations behind ZADD, ZINCRBY, ZREM, ZSCORE, ZMSCORE, ZRANK, ZCARD, ZCOUNT, ZRANGE,
    ZRANGEBYSCORE, ZRANGEBYLEX, ZPOPMIN, ZPOPMAX, ZRANDMEMBER, ZUNION, ZINTER, ZDIFF, their STORE forms,
    ZINTERCARD and ZRANGESTORE, on the sharded store. A sorted set is kept twice: as a tree ordered by
    score and member, and as a map from members to scores.

    Scores are bit patterns of doubles. Their order, equality and [next_up] are defined on the bits;
    addition, multiplication, minimum, maximum and the decimal text are parameters. A [BTreeMap] is the
    list of its keys in order, and [range] panics as the library does. The order in which a hash map
    yields its entries is a parameter that yields each of them once. *)

From S2P Require Import Prelude.
From S2P Require Import Values.
From S2P Require Import Store.
From S2P Require Import Strings.
From S2P Require Import Lists.
From S2P Require Import Sets.
Local Open Scope Z_scope.

Module SortedSets.
Import Values.Values Store.Store Strings.Strings.
Import Lists.Lists(charge, refund).
Import Sets.Sets(size_add).

Abbreviation zkey := (Z * bytes)%type.
Abbreviation tree := (list (Z * bytes)).
Abbreviation scores := (gmap bytes Z).

(** ** Doubles *)

Definition INFINITY : Z := 9218868437227405312.
Definition NEG_INFINITY : Z := 18442240474082181120.
Definition NAN : Z := 9221120237041090560.
Definition ONE : Z := 4607182418800017408.

Definition f64_lt (a b : Z) : bool := negb (f64_is_nan a) && negb (f64_is_nan b) && (f64_rank a <? f64_rank b).
Definition f64_eq (a b : Z) : bool := negb (f64_is_nan a) && negb (f64_is_nan b) && (f64_rank a =? f64_rank b).
Definition f64_le (a b : Z) : bool := f64_lt a b || f64_eq a b.

(** [f64::next_up] *)
Definition next_up (b : Z) : Z :=
  if f64_is_nan b || (b =? INFINITY) then b
  else if Z.land b 9223372036854775807 =? 0 then 1
  else if Z.testbit b 63 then b - 1 else b + 1.

(** ** Trees *)

Fixpoint tree_remove (x : zkey) (t : tree) : tree :=
  match t with
  | [] => []
  | y :: t => if zkey_eqb x y then t else y :: tree_remove x t
  end.

(** [tree.range((Included(lo), Excluded(hi)))] *)
Definition tree_range (lo hi : zkey) (t : tree) : outcome tree :=
  if zkey_ltb hi lo then Panicked else Returned (List.filter (fun x => negb (zkey_ltb x lo) && zkey_ltb x hi) t).

(** [iter.skip(off).take(cnt)] *)
Definition skip_take {A : Type} (off cnt : Z) (l : list A) : list A :=
  take (Z.to_nat (Z.min cnt (zlen l))) (drop (Z.to_nat (Z.min off (zlen l))) l).

(** The excluded upper bound of [score_upper_bound]. *)
Definition score_upper_bound (score : Z) (exclusive : bool) : zkey :=
  if exclusive then (score, [])
  else if f64_eq score INFINITY then (NAN, [])
  else (next_up score, []).

Definition pair_of (x : zkey) : bytes * Z := (x.2, x.1).

Section SortedSets.

Context (hll_count : bytes -> Z) (clock : Z).
Context (fadd fmul fmin fmax : Z -> Z -> Z) (fmt_score : Z -> bytes).
(** The order in which a hash map yields its entries. *)
Context (order : scores -> list (bytes * Z)).

(** ** Entries holding sorted sets *)

Definition view_zset (key : bytes) (now : Z) (s : Store) : result (option (Entry * tree * scores)) :=
  match find s key with
  | Some e => if is_expired_at now e then Ok None
              else match value e with VSortedSet t m => Ok (Some (e, t, m)) | _ => Err WRONGTYPE end
  | None => Ok None
  end.

Definition open_zset (key : bytes) (now : Z) (s : Store) : Entry * Store :=
  match find s key with
  | Some e => if is_expired_at now e then (mkEntry (VSortedSet [] ∅) None (e_lru_clock e), s) else (e, s)
  | None => (mkEntry (VSortedSet [] ∅) None (lru_clock s), key_added s)
  end.

Definition put_zset (key : bytes) (e : Entry) (t : tree) (m : scores) (s : Store) : Store :=
  put_data key (mkEntry (VSortedSet t m) (expires_at e) (e_lru_clock e)) s.

Definition promoted {A : Type} (key : bytes) (now : Z) (s : Store) (k : Store -> result A * Store) : result A * Store :=
  match try_promote hll_count clock key now s with
  | (Err e, s) => (Err e, s)
  | (Ok _, s) => k s
  end.

(** A read of the live sorted set of a key. *)
Definition reading {A : Type} (key : bytes) (now : Z) (s : Store) (none : A) (f : tree -> scores -> A) : result A :=
  match view_zset key now s with
  | Ok (Some (_, t, m)) => Ok (f t m)
  | Ok None => Ok none
  | Err x => Err x
  end.

(** ** Adding *)

Record flags := mkFlags { nx : bool; xx : bool; gt : bool; lt : bool; ch : bool }.

Definition updates (f : flags) (score previous : Z) : bool :=
  if gt f && lt f then negb (f64_eq score previous)
  else if gt f then f64_lt previous score
  else if lt f then f64_lt score previous
  else true.

(** The loop over the members: added, changed, bytes, and the set. *)
Definition add_one (f : flags) (acc : Z * Z * Z * tree * scores) (ms : bytes * Z) : Z * Z * Z * tree * scores :=
  let '(added, changed, mem, t, m) := acc in
  let '(member, score) := ms in
  let name := key_str member in
  match m !! name with
  | Some previous =>
      if nx f then acc
      else if updates f score previous && negb (f64_eq score previous)
      then (added, changed + 1, mem, tree_insert (score, name) (tree_remove (previous, name) t), <[name := score]> m)
      else acc
  | None =>
      if xx f then acc
      else (added + 1, changed, mem + (zlen member + 48), tree_insert (score, name) t, <[name := score]> m)
  end.

Definition zadd_on_shard (key : bytes) (members : list (bytes * Z)) (f : flags) (now : Z) (s : Store) : result Z * Store :=
  let run e s1 :=
    match value e with
    | VSortedSet t m =>
        let '(added, changed, mem, t, m) := foldl (add_one f) (0, 0, 0, t, m) members in
        (Ok (if ch f then added + changed else added), charge key mem (put_zset key e t m s1))
    | _ => (Err WRONGTYPE, s)
    end in
  match find s key with
  | None => if xx f then (Ok 0, s) else let '(e, s1) := open_zset key now s in run e s1
  | Some e => if xx f && is_expired_at now e then (Ok 0, s) else let '(e, s1) := open_zset key now s in run e s1
  end.

Definition zadd (key : bytes) (members : list (bytes * Z)) (f : flags) (now : Z) (s : Store) : result Z * Store :=
  promoted key now s (fun s => zadd_on_shard key members f now (bump key s)).

Definition zadd_single_default_on_shard (key member : bytes) (score : Z) (now : Z) (s : Store) : result Z * Store :=
  let '(e, s1) := open_zset key now s in
  match value e with
  | VSortedSet t m =>
      let name := key_str member in
      match m !! name with
      | Some previous =>
          if negb (f64_eq score previous)
          then (Ok 0, put_zset key e (tree_insert (score, name) (tree_remove (previous, name) t)) (<[name := score]> m) s1)
          else (Ok 0, put_zset key e t m s1)
      | None => (Ok 1, charge key (zlen member + 48) (put_zset key e (tree_insert (score, name) t) (<[name := score]> m) s1))
      end
  | _ => (Err WRONGTYPE, s)
  end.

Definition zincrby_on_shard (key member : bytes) (increment : Z) (now : Z) (s : Store) : result Z * Store :=
  let '(e, s1) := open_zset key now s in
  match value e with
  | VSortedSet t m =>
      let name := key_string member in
      let old := default 0 (m !! name) in
      let new_score := fadd old increment in
      let t := if negb (f64_eq old 0) || bool_decide (is_Some (m !! name)) then tree_remove (old, name) t else t in
      (Ok new_score, put_zset key e (tree_insert (new_score, name) t) (<[name := new_score]> m) s1)
  | _ => (Err WRONGTYPE, s)
  end.

Definition zincrby (key member : bytes) (increment : Z) (now : Z) (s : Store) : result Z * Store :=
  zincrby_on_shard key member increment now (bump key s).

(** ** Removing *)

Definition remove_one (acc : Z * Z * tree * scores) (member : bytes) : Z * Z * tree * scores :=
  let '(removed, freed, t, m) := acc in
  let name := key_str member in
  match m !! name with
  | Some score => (removed + 1, freed + (zlen member + 48), tree_remove (score, name) t, delete name m)
  | None => acc
  end.

Definition zrem (key : bytes) (members : list bytes) (now : Z) (s : Store) : result Z * Store :=
  promoted key now s (fun s =>
  let s := bump key s in
  match view_zset key now s with
  | Ok (Some (e, t, m)) =>
      let '(removed, freed, t, m) := foldl remove_one (0, 0, t, m) members in
      (Ok removed, refund key freed (put_zset key e t m s))
  | Ok None => (Ok 0, s)
  | Err x => (Err x, s)
  end).

(** The loop of ZPOPMIN over the tree, and of ZPOPMAX over the tree in reverse. *)
Fixpoint pop_loop (count : Z) (t : tree) (m : scores) (result : list (bytes * Z)) (freed : Z) : list (bytes * Z) * Z * tree * scores :=
  match t with
  | x :: t' => if count <=? 0 then (result, freed, t, m)
               else pop_loop (count - 1) t' (delete x.2 m) (result ++ [pair_of x]) (freed + (zlen x.2 + 48))
  | [] => (result, freed, [], m)
  end.

Definition zpop (reversed : bool) (key : bytes) (count : Z) (now : Z) (s : Store) : result (list (bytes * Z)) * Store :=
  let s := bump key s in
  match view_zset key now s with
  | Ok (Some (e, t, m)) =>
      let '(result, freed, t, m) := pop_loop count (if reversed then reverse t else t) m [] 0 in
      (Ok result, refund key freed (put_zset key e (if reversed then reverse t else t) m s))
  | Ok None => (Ok [], s)
  | Err x => (Err x, s)
  end.

Definition zpopmin := zpop false.
Definition zpopmax := zpop true.

Definition preview_zpop (key : bytes) (count : Z) (min : bool) (now : Z) (s : Store) : result (list (bytes * Z)) :=
  reading key now s [] (fun t _ => pair_of <$> skip_take 0 count (if min then t else reverse t)).

(** ** Reading *)

Definition zscore_from_shard (key member : bytes) (now : Z) (s : Store) : result (option Z) :=
  reading key now s None (fun _ m => m !! key_str member).
Definition zscore (key member : bytes) (now : Z) (s : Store) : result (option Z) * Store :=
  promoted key now s (fun s => (zscore_from_shard key member now s, s)).
Definition zscores (key : bytes) (members : list bytes) (now : Z) (s : Store) : result (list (option Z)) :=
  reading key now s ((fun _ => None) <$> members) (fun _ m => (fun member => m !! key_str member) <$> members).
Definition zmscore := zscores.
Definition zscore_with_key_state (key member : bytes) (now : Z) (s : Store) : result (option Z * bool) :=
  reading key now s (None, false) (fun _ m => (m !! key_str member, true)).
Definition zcard (key : bytes) (now : Z) (s : Store) : result Z * Store :=
  promoted key now s (fun s => (reading key now s 0 (fun _ m => Z.of_nat (size m)), s)).

Definition zrank (key member : bytes) (reversed : bool) (now : Z) (s : Store) : result (option Z) :=
  reading key now s None (fun t m =>
    match m !! key_str member with
    | Some score =>
        let forward_rank := zlen (List.filter (fun x => zkey_ltb x (score, key_str member)) t) in
        Some (if reversed then as_i64 (as_u64 (zlen t - 1 - forward_rank)) else forward_rank)
    | None => None
    end).

Definition zrange (key : bytes) (start stop : Z) (reversed : bool) (now : Z) (s : Store) : result (list (bytes * Z)) * Store :=
  promoted key now s (fun s =>
  (reading key now s [] (fun t _ =>
     let len := zlen t in
     let st := if start <? 0 then Z.max (len + start) 0 else Z.min start len in
     let en := as_u64 (if stop <? 0 then Z.max (len + stop + 1) 0 else Z.min (as_i64 (stop + 1)) len) in
     if st >=? en then [] else pair_of <$> skip_take st (en - st) (if reversed then reverse t else t)), s)).

Definition NOT_A_FLOAT : string := "ERR min or max is not a float".

(** [Bound]s of a score: the limit and whether it is excluded. *)
Definition above (min : Z) (exclusive : bool) (sv : Z) : bool := if exclusive then f64_lt min sv else f64_le min sv.
Definition below (max : Z) (exclusive : bool) (sv : Z) : bool := if exclusive then f64_lt sv max else f64_le sv max.

Definition zrangebyscore (key : bytes) (min max : Z) (min_exclusive max_exclusive reversed : bool) (offset count : option Z)
    (now : Z) (s : Store) : outcome (result (list (bytes * Z))) * Store :=
  if f64_is_nan min || f64_is_nan max then (Returned (Err NOT_A_FLOAT), s)
  else match try_promote hll_count clock key now s with
  | (Err e, s) => (Returned (Err e), s)
  | (Ok _, s) =>
      (match view_zset key now s with
       | Ok (Some (_, t, _)) =>
           if f64_lt max min || (f64_eq min max && (min_exclusive || max_exclusive)) then Returned (Ok [])
           else
             items ← tree_range (min, []) (score_upper_bound max false) t;
             let items := if reversed then reverse items else items in
             let items := List.filter (fun x => above min min_exclusive x.1 && below max max_exclusive x.1) items in
             Returned (Ok (pair_of <$> skip_take (default 0 offset) (default usize_max count) items))
       | Ok None => Returned (Ok [])
       | Err x => Returned (Err x)
       end, s)
  end.

Definition zcount (key : bytes) (min max : Z) (min_exclusive max_exclusive : bool) (now : Z) (s : Store) : outcome (result Z) :=
  if f64_is_nan min || f64_is_nan max then Returned (Err NOT_A_FLOAT)
  else if f64_lt max min then Returned (Ok 0)
  else if f64_eq min max && (min_exclusive || max_exclusive) then Returned (Ok 0)
  else match view_zset key now s with
       | Ok (Some (_, t, m)) =>
           if (min =? NEG_INFINITY) && (max =? INFINITY) && negb min_exclusive && negb max_exclusive
           then Returned (Ok (Z.of_nat (size m)))
           else
             items ← tree_range ((if min_exclusive then next_up min else min), []) (score_upper_bound max max_exclusive) t;
             Returned (Ok (zlen items))
       | Ok None => Returned (Ok 0)
       | Err x => Returned (Err x)
       end.

(** The visitors: what they visit, in order. *)
Definition zvisit_all_scores (key : bytes) (now : Z) (s : Store) : result (list (bytes * Z)) :=
  reading key now s [] (fun t _ => pair_of <$> t).

Definition zvisit_scores_inclusive (key : bytes) (min max : Z) (now : Z) (s : Store) : outcome (result (list (bytes * Z))) :=
  if f64_is_nan min || f64_is_nan max then Returned (Err NOT_A_FLOAT)
  else match view_zset key now s with
       | Ok (Some (_, t, _)) =>
           if f64_lt max min then Returned (Ok [])
           else items ← tree_range (min, []) (score_upper_bound max false) t; Returned (Ok (map pair_of items))
       | Ok None => Returned (Ok [])
       | Err x => Returned (Err x)
       end.

(** [l.cycle().take(n)] *)
Fixpoint cycle_take {A : Type} (n : nat) (l cur : list A) : list A :=
  match n with
  | O => []
  | S n => match cur with
           | a :: cur => a :: cycle_take n l cur
           | [] => match l with a :: cur => a :: cycle_take n l cur | [] => [] end
           end
  end.

Definition zrandmember (key : bytes) (count : Z) (now : Z) (s : Store) : result (list (bytes * Z)) :=
  reading key now s [] (fun t _ =>
    if (count =? 0) || bool_decide (t = []) then []
    else let members := pair_of <$> t in
         if count >? 0 then skip_take 0 (Z.abs count) members else cycle_take (Z.to_nat (Z.abs count)) members []).

(** The bounds of ZRANGEBYLEX. *)
Definition bytes_ltb (a b : bytes) : bool := bytes_leb a b && negb (bytes_eqb a b).
Definition lex_above (min m : bytes) : bool :=
  if bytes_eqb min (bs "-") then true
  else match min with
       | c :: rest => if c =? 40 then bytes_ltb rest m else if c =? 91 then bytes_leb rest m else bytes_leb min m
       | [] => bytes_leb min m
       end.
Definition lex_below (max m : bytes) : bool :=
  if bytes_eqb max (bs "+") then true
  else match max with
       | c :: rest => if c =? 40 then bytes_ltb m rest else if c =? 91 then bytes_leb m rest else bytes_leb m max
       | [] => bytes_leb m max
       end.

Definition zrangebylex (key min max : bytes) (offset count : option Z) (reversed : bool) (now : Z) (s : Store) : result (list bytes) * Store :=
  promoted key now s (fun s =>
  (reading key now s [] (fun t _ =>
     let all := snd <$> (if reversed then reverse t else t) in
     let filtered := List.filter (fun m => lex_above min m && lex_below max m) all in
     skip_take (default 0 offset) (default (zlen filtered) count) filtered), s)).

(** ** Combining sets *)

Definition collect_sorted_set (key : bytes) (now : Z) (s : Store) : result scores := reading key now s ∅ (fun _ m => m).

Definition combine (aggregate : bytes) (current weighted : Z) : Z :=
  if bytes_eqb aggregate (bs "MIN") then fmin current weighted
  else if bytes_eqb aggregate (bs "MAX") then fmax current weighted
  else fadd current weighted.

Definition weight (weights : list Z) (i : nat) : Z := default ONE (weights !! i).

Definition union_one (aggregate : bytes) (w : Z) (acc : scores) (ms : bytes * Z) : scores :=
  let weighted := fmul ms.2 w in
  match acc !! ms.1 with
  | Some current => <[ms.1 := combine aggregate current weighted]> acc
  | None => <[ms.1 := weighted]> acc
  end.

Fixpoint union_loop (keys : list bytes) (i : nat) (weights : list Z) (aggregate : bytes) (now : Z) (s : Store) (acc : scores) : result scores :=
  match keys with
  | [] => Ok acc
  | key :: keys =>
      set ← collect_sorted_set key now s;
      union_loop keys (S i) weights aggregate now s (foldl (union_one aggregate (weight weights i)) acc (order set))
  end.

Definition zunion_compute (keys : list bytes) (weights : list Z) (aggregate : bytes) (now : Z) (s : Store) : result scores :=
  union_loop keys 0 weights aggregate now s ∅.

Fixpoint inter_loop (keys : list bytes) (i : nat) (weights : list Z) (aggregate : bytes) (now : Z) (s : Store) (acc : scores) : result scores :=
  match keys with
  | [] => Ok acc
  | key :: keys =>
      set ← collect_sorted_set key now s;
      let w := weight weights i in
      inter_loop keys (S i) weights aggregate now s
        (map_imap (fun member current => match set !! member with
                                         | Some score => Some (combine aggregate current (fmul score w))
                                         | None => None
                                         end) acc)
  end.

Definition zinter_compute (keys : list bytes) (weights : list Z) (aggregate : bytes) (now : Z) (s : Store) : result scores :=
  match keys with
  | [] => Ok ∅
  | key :: keys =>
      first ← collect_sorted_set key now s;
      inter_loop keys 1 weights aggregate now s ((fun score => fmul score (weight weights 0)) <$> first)
  end.

Fixpoint diff_loop (keys : list bytes) (now : Z) (s : Store) (acc : scores) : result scores :=
  match keys with
  | [] => Ok acc
  | key :: keys => set ← collect_sorted_set key now s; diff_loop keys now s (filter (fun ms => set !! ms.1 = None) acc)
  end.

Definition zdiff_compute (keys : list bytes) (now : Z) (s : Store) : result scores :=
  match keys with
  | [] => Ok ∅
  | key :: keys => first ← collect_sorted_set key now s; diff_loop keys now s first
  end.

(** The comparison of [sorted_zset_result]: scores that cannot be compared count as equal. *)
Definition result_le (a b : bytes * Z) : Prop :=
  f64_lt a.2 b.2 = true \/ (f64_lt b.2 a.2 = false /\ bytes_leb a.1 b.1 = true).

#[export] Instance result_le_dec : RelDecision result_le.
Proof. intros a b. unfold result_le. apply _. Defined.

Definition sorted_zset_result (result : scores) : list (bytes * Z) := merge_sort result_le (order result).

Definition result_map {A B : Type} (f : A -> B) (r : result A) : result B := match r with Ok a => Ok (f a) | Err e => Err e end.

Definition zunion (keys : list bytes) (weights : list Z) (aggregate : bytes) (now : Z) (s : Store) : result (list (bytes * Z)) :=
  result_map sorted_zset_result (zunion_compute keys weights aggregate now s).
Definition zinter (keys : list bytes) (weights : list Z) (aggregate : bytes) (now : Z) (s : Store) : result (list (bytes * Z)) :=
  result_map sorted_zset_result (zinter_compute keys weights aggregate now s).
Definition zdiff (keys : list bytes) (now : Z) (s : Store) : result (list (bytes * Z)) :=
  result_map sorted_zset_result (zdiff_compute keys now s).
Definition zintercard (keys : list bytes) (limit : Z) (now : Z) (s : Store) : result Z :=
  result_map (fun m => let count := Z.of_nat (size m) in if limit =? 0 then count else Z.min count limit)
    (zinter_compute keys [] (bs "SUM") now s).

(** [write_computed_zset]: the resolved DEL and ZADD are journaled, then applied. *)
Definition write_computed_zset (dst : bytes) (result : scores) (appended : bool) (now : Z) (s : Store)
    : Prelude.result Z * list (list bytes) * Store :=
  let count := Z.of_nat (size result) in
  let entries := order result in
  let zadd_cmd := if bool_decide (entries = []) then []
                  else [bs "ZADD" :: dst :: concat (map (fun ms => [fmt_score ms.2; ms.1]) entries)] in
  if negb appended then (Err "ERR WAL append failed", [], s)
  else
    let journal := [bs "DEL"; dst] :: zadd_cmd in
    let s := (del clock [dst] s).2 in
    if bool_decide (entries = []) then (Ok count, journal, s)
    else
      let s := bump dst s in
      let t := foldl (fun t ms => tree_insert (ms.2, ms.1) t) [] entries in
      let m := foldl (fun m ms => <[ms.1 := ms.2]> m) ∅ entries in
      let mem := foldl (fun mem ms => mem + (zlen ms.1 + 48)) (zlen (key_str dst) + 64) entries in
      let old := find s dst in
      let s := put_data dst (mkEntry (VSortedSet t m) None (lru_clock s)) s in
      let s := match old with None => key_added s | Some _ => s end in
      (Ok count, journal, charge dst mem s).

Definition store_result (dst : bytes) (r : Prelude.result scores) (appended : bool) (now : Z) (s : Store)
    : Prelude.result Z * list (list bytes) * Store :=
  match r with
  | Err x => (Err x, [], s)
  | Ok m => write_computed_zset dst m appended now s
  end.

Definition zunionstore (dst : bytes) (keys : list bytes) (weights : list Z) (aggregate : bytes) (appended : bool) (now : Z) (s : Store) :=
  store_result dst (zunion_compute keys weights aggregate now s) appended now s.
Definition zinterstore (dst : bytes) (keys : list bytes) (weights : list Z) (aggregate : bytes) (appended : bool) (now : Z) (s : Store) :=
  store_result dst (zinter_compute keys weights aggregate now s) appended now s.
Definition zdiffstore (dst : bytes) (keys : list bytes) (appended : bool) (now : Z) (s : Store) :=
  store_result dst (zdiff_compute keys now s) appended now s.
Definition zrangestore (dst : bytes) (pairs : list (bytes * Z)) (appended : bool) (now : Z) (s : Store) :=
  write_computed_zset dst (foldl (fun m ms => <[ms.1 := ms.2]> m) ∅ pairs) appended now s.

End SortedSets.

(** ** The contract *)

(** The members in order of score, then name. *)
Definition zle (a b : zkey) : Prop := zkey_ltb b a = false.

#[export] Instance zle_dec : RelDecision zle.
Proof. intros a b. unfold zle. apply _. Defined.

Definition ranking (M : scores) : tree := merge_sort zle ((fun ms => (ms.2, ms.1)) <$> map_to_list M).

Inductive zcmd :=
| ZAdd (k : bytes) (ms : list (bytes * Z)) (f : flags)
| ZIncrBy (k m : bytes) (by_ : Z)
| ZRem (k : bytes) (ms : list bytes)
| ZPop (greatest : bool) (k : bytes) (n : Z)
| ZPeek (greatest : bool) (k : bytes) (n : Z)
| ZScore (k m : bytes)
| ZMScore (k : bytes) (ms : list bytes)
| ZScoreState (k m : bytes)
| ZCard (k : bytes)
| ZRank (k m : bytes) (reversed : bool)
| ZRange (k : bytes) (start stop : Z) (reversed : bool)
| ZRangeByScore (k : bytes) (min max : Z) (minx maxx reversed : bool) (off cnt : option Z)
| ZCount (k : bytes) (min max : Z) (minx maxx : bool)
| ZVisit (k : bytes)
| ZVisitBetween (k : bytes) (min max : Z)
| ZRand (k : bytes) (n : Z)
| ZRangeByLex (k min max : bytes) (off cnt : option Z) (reversed : bool)
| ZUnion (ks : list bytes) (ws : list Z) (agg : bytes)
| ZInter (ks : list bytes) (ws : list Z) (agg : bytes)
| ZDiff (ks : list bytes)
| ZInterCard (ks : list bytes) (limit : Z)
| ZUnionStore (dst : bytes) (ks : list bytes) (ws : list Z) (agg : bytes) (appended : bool)
| ZInterStore (dst : bytes) (ks : list bytes) (ws : list Z) (agg : bytes) (appended : bool)
| ZDiffStore (dst : bytes) (ks : list bytes) (appended : bool)
| ZRangeStore (dst : bytes) (pairs : list (bytes * Z)) (appended : bool).

Inductive zreply :=
| RInt (z : Z) | RScore (z : Z) | RMaybe (o : option Z) | RMaybes (l : list (option Z)) | RState (o : option Z) (present : bool)
| RPairs (l : list (bytes * Z)) | RNames (l : list bytes) | RErr (e : string).

Definition zreply_of {A : Type} (f : A -> zreply) (r : result A) : zreply := match r with Ok a => f a | Err e => RErr e end.

(** What a key is to a sorted-set command. *)
Inductive slot :=
| ZAbsent
| ZSet (M : scores) (exp : option Z)
| ZOther (v : StoreValue) (exp : option Z).

Abbreviation space := (bytes -> slot).

Definition upd (k : bytes) (x : slot) (A : space) : space := fun k' => if decide (k' = k) then x else A k'.
Definition contents (x : slot) : scores := match x with ZSet M _ => M | _ => ∅ end.
Definition deadline_of (x : slot) : option Z := match x with ZSet _ exp => exp | _ => None end.
Definition is_other (x : slot) : bool := match x with ZOther _ _ => true | _ => false end.
Definition is_absent (x : slot) : bool := match x with ZAbsent => true | _ => false end.

Section Contract.

Context (hll_count : bytes -> Z) (clock : Z).
Context (fadd fmul fmin fmax : Z -> Z -> Z) (fmt_score : Z -> bytes).
Context (order : scores -> list (bytes * Z)).

(** A command on the store: the answer, the records it journals itself, the store. *)
Definition zexec (now : Z) (c : zcmd) (s : Store) : outcome zreply * list (list bytes) * Store :=
  let ret {A} (f : A -> zreply) (r : result A * Store) := (Returned (zreply_of f r.1), @nil (list bytes), r.2) in
  let get {A} (f : A -> zreply) (r : result A) := (Returned (zreply_of f r), @nil (list bytes), s) in
  let wrote (r : result Z * list (list bytes) * Store) := (Returned (zreply_of RInt r.1.1), r.1.2, r.2) in
  let may {A} (f : A -> zreply) (o : outcome (result A)) := match o with Returned r => Returned (zreply_of f r) | Panicked => Panicked end in
  match c with
  | ZAdd k ms f => ret RInt (zadd hll_count clock k ms f now s)
  | ZIncrBy k m d => ret RScore (zincrby fadd k m d now s)
  | ZRem k ms => ret RInt (zrem hll_count clock k ms now s)
  | ZPop g k n => ret RPairs ((if g then zpopmax else zpopmin) k n now s)
  | ZPeek g k n => get RPairs (preview_zpop k n (negb g) now s)
  | ZScore k m => ret RMaybe (zscore hll_count clock k m now s)
  | ZMScore k ms => get RMaybes (zmscore k ms now s)
  | ZScoreState k m => get (fun p => RState p.1 p.2) (zscore_with_key_state k m now s)
  | ZCard k => ret RInt (zcard hll_count clock k now s)
  | ZRank k m r => get RMaybe (zrank k m r now s)
  | ZRange k a b r => ret RPairs (zrange hll_count clock k a b r now s)
  | ZRangeByScore k a b ax bx r off cnt =>
      let '(o, s') := zrangebyscore hll_count clock k a b ax bx r off cnt now s in (may RPairs o, [], s')
  | ZCount k a b ax bx => (may RInt (zcount k a b ax bx now s), [], s)
  | ZVisit k => get RPairs (zvisit_all_scores k now s)
  | ZVisitBetween k a b => (may RPairs (zvisit_scores_inclusive k a b now s), [], s)
  | ZRand k n => get RPairs (zrandmember k n now s)
  | ZRangeByLex k a b off cnt r => ret RNames (zrangebylex hll_count clock k a b off cnt r now s)
  | ZUnion ks ws agg => get RPairs (zunion fadd fmul fmin fmax order ks ws agg now s)
  | ZInter ks ws agg => get RPairs (zinter fadd fmul fmin fmax order ks ws agg now s)
  | ZDiff ks => get RPairs (zdiff order ks now s)
  | ZInterCard ks limit => get RInt (zintercard fadd fmul fmin fmax ks limit now s)
  | ZUnionStore dst ks ws agg ap => wrote (zunionstore clock fadd fmul fmin fmax fmt_score order dst ks ws agg ap now s)
  | ZInterStore dst ks ws agg ap => wrote (zinterstore clock fadd fmul fmin fmax fmt_score order dst ks ws agg ap now s)
  | ZDiffStore dst ks ap => wrote (zdiffstore clock fmt_score order dst ks ap now s)
  | ZRangeStore dst pairs ap => wrote (zrangestore clock fmt_score order dst pairs ap now s)
  end.

(** The effect of one member of ZADD on the scores: added, changed, scores. *)
Definition spec_add (f : flags) (acc : Z * Z * scores) (ms : bytes * Z) : Z * Z * scores :=
  let '(added, changed, M) := acc in
  let name := key_str ms.1 in
  match M !! name with
  | Some previous =>
      if negb (nx f) && updates f ms.2 previous && negb (f64_eq ms.2 previous)
      then (added, changed + 1, <[name := ms.2]> M) else acc
  | None => if xx f then acc else (added + 1, changed, <[name := ms.2]> M)
  end.

Definition names (ms : list bytes) : gset bytes := list_to_set (key_str <$> ms).

(** The entries from rank [start] to rank [stop], negative ranks counted from the end. *)
Definition between {A : Type} (start stop : Z) (l : list A) : list A :=
  let at_rank i := if i <? 0 then zlen l + i else i in
  let lo := Z.max 0 (at_rank start) in
  take (Z.to_nat (Z.min (zlen l) (at_rank stop + 1) - lo)) (drop (Z.to_nat lo) l).

Definition reversed_if {A : Type} (r : bool) (l : list A) : list A := if r then reverse l else l.

(** The members with a score in an interval. *)
Definition in_interval (min max : Z) (minx maxx : bool) (x : zkey) : bool := above min minx x.1 && below max maxx x.1.

(** The combinations of the sets of some keys, the first at position [i] of the weights. *)
Fixpoint union_from (A : space) (ws : list Z) (agg : bytes) (ks : list bytes) (i : nat) (acc : scores) : scores :=
  match ks with
  | [] => acc
  | k :: ks => union_from A ws agg ks (S i)
                 (union_with (fun cur w => Some (combine fadd fmin fmax agg cur w)) acc ((fun s => fmul s (weight ws i)) <$> contents (A k)))
  end.
Definition union_of (A : space) (ws : list Z) (agg : bytes) (ks : list bytes) : scores := union_from A ws agg ks 0 ∅.

Fixpoint inter_from (A : space) (ws : list Z) (agg : bytes) (ks : list bytes) (i : nat) (acc : scores) : scores :=
  match ks with
  | [] => acc
  | k :: ks => inter_from A ws agg ks (S i)
                 (intersection_with (fun cur s => Some (combine fadd fmin fmax agg cur (fmul s (weight ws i)))) acc (contents (A k)))
  end.
Definition inter_of (A : space) (ws : list Z) (agg : bytes) (ks : list bytes) : scores :=
  match ks with [] => ∅ | k :: ks => inter_from A ws agg ks 1 ((fun s => fmul s (weight ws 0)) <$> contents (A k)) end.
Definition diff_of (A : space) (ks : list bytes) : scores :=
  match ks with
  | [] => ∅
  | k :: ks => foldl (fun acc k => acc ∖ contents (A k)) (contents (A k)) ks
  end.

(** The entries of a combination: each once, in the order of the ranking unless a score is not a number. *)
Definition listed (M : scores) (l : list (bytes * Z)) : Prop :=
  l ≡ₚ map_to_list M /\ ((forall m s, M !! m = Some s -> f64_is_nan s = false) -> l = pair_of <$> ranking M).

Definition same (A' A : space) : Prop := forall k, A' k = A k.

(** A computed set is stored: [M] under [dst], or nothing when it is empty. *)
Definition stored (dst : bytes) (M : scores) (appended : bool) (A : space) (r : zreply) (j : list (list bytes)) (A' : space) : Prop :=
  if appended
  then r = RInt (Z.of_nat (size M)) /\ same A' (upd dst (if decide (M = ∅) then ZAbsent else ZSet M None) A) /\
       exists l, l ≡ₚ map_to_list M /\
         j = [bs "DEL"; dst] :: (if decide (M = ∅) then [] else [bs "ZADD" :: dst :: concat (map (fun ms => [fmt_score ms.2; ms.1]) l)])
  else r = RErr "ERR WAL append failed" /\ j = [] /\ same A' A.

(** The commands on an abstract space: the answers they may give and what they leave. None panics. *)
Definition zspec (c : zcmd) (A : space) (r : zreply) (j : list (list bytes)) (A' : space) : Prop :=
  let fails := r = RErr WRONGTYPE /\ j = [] /\ same A' A in
  let on k (P : Prop) := if is_other (A k) then fails else P in
  let over ks (P : Prop) := if existsb (fun k => is_other (A k)) ks then fails else P in
  let reads x := j = [] /\ same A' A /\ r = x in
  let becomes k M x := j = [] /\ same A' (upd k (ZSet M (deadline_of (A k))) A) /\ r = x in
  let L k := ranking (contents (A k)) in
  match c with
  | ZAdd k ms f => if xx f && is_absent (A k) then reads (RInt 0) else on k (
      let '(added, changed, M) := foldl (spec_add f) (0, 0, contents (A k)) ms in
      becomes k M (RInt (if ch f then added + changed else added)))
  | ZIncrBy k m d => on k (
      let score := fadd (default 0 (contents (A k) !! key_string m)) d in
      becomes k (<[key_string m := score]> (contents (A k))) (RScore score))
  | ZRem k ms => on k (if is_absent (A k) then reads (RInt 0) else
      becomes k (filter (fun p => p.1 ∉ names ms) (contents (A k))) (RInt (Z.of_nat (size (dom (contents (A k)) ∩ names ms)))))
  | ZPop g k n => on k (if is_absent (A k) then reads (RPairs []) else
      let out := skip_take 0 (Z.max 0 n) (reversed_if g (L k)) in
      becomes k (filter (fun p => p.1 ∉ out.*2) (contents (A k))) (RPairs (pair_of <$> out)))
  | ZPeek g k n => on k (reads (RPairs (pair_of <$> skip_take 0 n (reversed_if g (L k)))))
  | ZScore k m => on k (reads (RMaybe (contents (A k) !! key_str m)))
  | ZMScore k ms => on k (reads (RMaybes ((fun m => contents (A k) !! key_str m) <$> ms)))
  | ZScoreState k m => on k (reads (RState (contents (A k) !! key_str m) (negb (is_absent (A k)))))
  | ZCard k => on k (reads (RInt (Z.of_nat (size (contents (A k))))))
  | ZRank k m rv => on k (
      match contents (A k) !! key_str m with
      | None => reads (RMaybe None)
      | Some score => exists i, reversed_if rv (L k) !! i = Some (score, key_str m) /\ reads (RMaybe (Some (Z.of_nat i)))
      end)
  | ZRange k a b rv => on k (reads (RPairs (pair_of <$> between a b (reversed_if rv (L k)))))
  | ZRangeByScore k a b ax bx rv off cnt =>
      if f64_is_nan a || f64_is_nan b then reads (RErr NOT_A_FLOAT)
      else on k (reads (RPairs (pair_of <$> skip_take (default 0 off) (default usize_max cnt)
                                 (reversed_if rv (List.filter (in_interval a b ax bx) (L k))))))
  | ZCount k a b ax bx =>
      if f64_is_nan a || f64_is_nan b then reads (RErr NOT_A_FLOAT)
      else if f64_lt b a || (f64_eq a b && (ax || bx)) then reads (RInt 0)
      else on k (reads (RInt (if (a =? NEG_INFINITY) && (b =? INFINITY) && negb ax && negb bx then Z.of_nat (size (contents (A k)))
                              else zlen (List.filter (in_interval a b ax bx) (L k)))))
  | ZVisit k => on k (reads (RPairs (pair_of <$> L k)))
  | ZVisitBetween k a b =>
      if f64_is_nan a || f64_is_nan b then reads (RErr NOT_A_FLOAT)
      else on k (reads (RPairs (pair_of <$> List.filter (in_interval a b false false) (L k))))
  | ZRand k n => on k (exists l, reads (RPairs l) /\
      if n >=? 0 then l = skip_take 0 n (pair_of <$> L k)
      else zlen l = (if decide (contents (A k) = ∅) then 0 else - n) /\
           forall i x, l !! i = Some x -> (pair_of <$> L k) !! (i mod length (L k))%nat = Some x)
  | ZRangeByLex k a b off cnt rv => on k (
      let l := List.filter (fun m => lex_above a m && lex_below b m) (snd <$> reversed_if rv (L k)) in
      reads (RNames (skip_take (default 0 off) (default (zlen l) cnt) l)))
  | ZUnion ks ws agg => over ks (exists l, listed (union_of A ws agg ks) l /\ reads (RPairs l))
  | ZInter ks ws agg => over ks (exists l, listed (inter_of A ws agg ks) l /\ reads (RPairs l))
  | ZDiff ks => over ks (exists l, listed (diff_of A ks) l /\ reads (RPairs l))
  | ZInterCard ks limit => over ks (
      let n := Z.of_nat (size (inter_of A [] (bs "SUM") ks)) in reads (RInt (if limit =? 0 then n else Z.min n limit)))
  | ZUnionStore dst ks ws agg ap => over ks (stored dst (union_of A ws agg ks) ap A r j A')
  | ZInterStore dst ks ws agg ap => over ks (stored dst (inter_of A ws agg ks) ap A r j A')
  | ZDiffStore dst ks ap => over ks (stored dst (diff_of A ks) ap A r j A')
  | ZRangeStore dst pairs ap => stored dst (list_to_map (reverse pairs)) ap A r j A'
  end.

(** Arguments are doubles and machine integers. *)
Definition u64_ok (b : Z) : Prop := 0 <= b < u64_mod.
Definition i64_ok (i : Z) : Prop := i64_min <= i <= i64_max.

Definition zcmd_ok (c : zcmd) : Prop :=
  match c with
  | ZAdd _ ms _ => Forall (fun p => u64_ok p.2) ms
  | ZIncrBy _ _ d => u64_ok d
  | ZRange _ a b _ => i64_ok a /\ i64_ok b
  | ZRangeByScore _ a b _ _ _ _ _ | ZCount _ a b _ _ | ZVisitBetween _ a b => u64_ok a /\ u64_ok b
  | ZUnion _ ws _ | ZInter _ ws _ | ZUnionStore _ _ ws _ _ | ZInterStore _ _ ws _ _ => Forall u64_ok ws
  | ZRangeStore _ pairs _ => Forall (fun p => u64_ok p.2) pairs
  | _ => True
  end.

End Contract.

(** How the store holds a space. *)
Record zset_ok (t : tree) (m : scores) : Prop := {
  zo_sorted : StronglySorted (fun a b => zkey_ltb a b = true) t;
  zo_same : forall x, x ∈ t <-> m !! x.2 = Some x.1;
  zo_doubles : forall name b, m !! name = Some b -> u64_ok b
}.

Definition slot_at (now : Z) (o : option Entry) : slot :=
  match o with
  | Some e => if is_expired_at now e then ZAbsent
              else match value e with VSortedSet _ m => ZSet m (expires_at e) | v => ZOther v (expires_at e) end
  | None => ZAbsent
  end.

Definition wf_entry (e : Entry) : Prop := match value e with VSortedSet t m => zset_ok t m | _ => True end.

Record zsets_ok (now : Z) (s : Store) (A : space) : Prop := {
  zk_hot : hot s;
  zk_slots : forall k, A k = slot_at now (find s k);
  zk_wf : forall k e, find s k = Some e -> wf_entry e
}.

(** The lengths of collections are in the range of [i64]. *)
Definition fits (A : space) : Prop := forall k, Z.of_nat (size (contents (A k))) <= i64_max.

(** What is assumed of the arithmetic of doubles: its results are doubles. *)
Class Arithmetic (fadd fmul fmin fmax : Z -> Z -> Z) : Prop := {
  add_ok : forall a b, u64_ok a -> u64_ok b -> u64_ok (fadd a b);
  mul_ok : forall a b, u64_ok a -> u64_ok b -> u64_ok (fmul a b);
  min_ok : forall a b, u64_ok a -> u64_ok b -> u64_ok (fmin a b);
  max_ok : forall a b, u64_ok a -> u64_ok b -> u64_ok (fmax a b)
}.

(** ** Lemmas: orders *)

Lemma bytes_leb_refl a : bytes_leb a a = true.
Proof. induction a as [|x a IH]; [done|]. cbn. by rewrite Z.eqb_refl. Qed.

Lemma bytes_leb_trans a : forall b c, bytes_leb a b = true -> bytes_leb b c = true -> bytes_leb a c = true.
Proof.
  induction a as [|x a IH]; intros [|y b] [|z c]; cbn; try done.
  destruct (Z.eqb_spec x y) as [->|], (Z.eqb_spec y z) as [->|]; try (destruct (Z.eqb_spec x z); subst; zbool; try lia; try done); try done.
  apply IH.
Qed.

Lemma bytes_leb_antisym a : forall b, bytes_leb a b = true -> bytes_leb b a = true -> a = b.
Proof.
  induction a as [|x a IH]; intros [|y b]; cbn; try done. destruct (Z.eqb_spec x y) as [->|]; [rewrite Z.eqb_refl; intros; f_equal; by apply IH|].
  destruct (Z.eqb_spec y x); [done|]. zbool. lia.
Qed.

Lemma bytes_leb_total a : forall b, bytes_leb a b = true \/ bytes_leb b a = true.
Proof.
  induction a as [|x a IH]; intros [|y b]; cbn; try (by left); try (by right). destruct (Z.eqb_spec x y) as [->|]; [rewrite Z.eqb_refl; apply IH|].
  destruct (Z.eqb_spec y x); [done|]. zbool. lia.
Qed.

(** The order of keys, as propositions. *)
Lemma zkey_lt a b : zkey_ltb a b = true <-> f64_rank a.1 < f64_rank b.1 \/ (f64_rank a.1 = f64_rank b.1 /\ bytes_leb a.2 b.2 = true /\ a.2 <> b.2).
Proof.
  unfold zkey_ltb. rewrite orb_true_iff, !andb_true_iff, Z.ltb_lt, Z.eqb_eq, negb_true_iff, bytes_eqb_neq. tauto.
Qed.

Lemma zkey_eq a b : zkey_eqb a b = true <-> f64_rank a.1 = f64_rank b.1 /\ a.2 = b.2.
Proof. unfold zkey_eqb. by rewrite andb_true_iff, Z.eqb_eq, bytes_eqb_eq. Qed.

Lemma zkey_lt_irrefl a : zkey_ltb a a = false.
Proof. apply not_true_iff_false. rewrite zkey_lt. intros [?|(_ & _ & ?)]; [lia|done]. Qed.

Lemma zkey_lt_trans a b c : zkey_ltb a b = true -> zkey_ltb b c = true -> zkey_ltb a c = true.
Proof.
  rewrite !zkey_lt. intros [H1|(E1 & L1 & N1)] [H2|(E2 & L2 & N2)]; [left; lia..|]. right. split; [congruence|]. split; [by eapply bytes_leb_trans|].
  intros E. apply N1, bytes_leb_antisym; [done|]. by rewrite E.
Qed.

Lemma zkey_trichotomy a b : zkey_ltb a b = true \/ zkey_eqb a b = true \/ zkey_ltb b a = true.
Proof.
  rewrite !zkey_lt, zkey_eq. destruct (Z.lt_trichotomy (f64_rank a.1) (f64_rank b.1)) as [|[E|]]; [tauto| |tauto].
  destruct (decide (a.2 = b.2)) as [|N]; [tauto|]. destruct (bytes_leb_total a.2 b.2); [left; right|right; right; right]; by rewrite ?E.
Qed.

Lemma zkey_lt_asym a b : zkey_ltb a b = true -> zkey_ltb b a = false.
Proof. intros H. apply not_true_iff_false. intros H'. pose proof (zkey_lt_trans _ _ _ H H') as E. by rewrite zkey_lt_irrefl in E. Qed.

Lemma zkey_lt_eq a b c : zkey_eqb a b = true -> zkey_ltb a c = zkey_ltb b c /\ zkey_ltb c a = zkey_ltb c b.
Proof. intros [E1 E2]%zkey_eq. unfold zkey_ltb. by rewrite E1, E2. Qed.

#[export] Instance zle_total : Total zle.
Proof.
  intros a b. unfold zle. destruct (zkey_trichotomy a b) as [H|[H|H]].
  - left. by apply zkey_lt_asym.
  - left. rewrite (proj2 (zkey_lt_eq a b b H)). apply zkey_lt_irrefl.
  - right. by apply zkey_lt_asym.
Qed.

#[export] Instance zle_trans : Transitive zle.
Proof.
  intros a b c. unfold zle. intros H1 H2. apply not_true_iff_false. intros H. destruct (zkey_trichotomy a b) as [H'|[H'|H']]; [|rewrite (proj2 (zkey_lt_eq _ _ c H')) in H; congruence|congruence].
  by rewrite (zkey_lt_trans _ _ _ H H') in H2.
Qed.

Abbreviation zsorted := (StronglySorted (fun a b : zkey => zkey_ltb a b = true)).

(** A sorted list is determined by its elements. *)
Lemma sorted_unique t : forall k, zsorted t -> zsorted k -> (forall x, x ∈ t <-> x ∈ k) -> t = k.
Proof.
  induction t as [|x t IH]; intros [|y k] Ht Hk H.
  - done.
  - exfalso. apply (not_elem_of_nil y), H. by left.
  - exfalso. apply (not_elem_of_nil x), H. by left.
  - apply StronglySorted_inv in Ht as [Ht Hx]. apply StronglySorted_inv in Hk as [Hk Hy]. rewrite Forall_forall in Hx, Hy.
    assert (x = y) as ->.
    { pose proof (proj1 (H x) (list_elem_of_here _ _)) as [E|Hxk]%elem_of_cons; [done|]. pose proof (proj2 (H y) (list_elem_of_here _ _)) as [E|Hyt]%elem_of_cons; [done|].
      specialize (Hx y Hyt). specialize (Hy x Hxk). by rewrite (zkey_lt_asym _ _ Hx) in Hy. }
    f_equal. apply IH; [done|done|]. intros z. pose proof (H z) as Hz. rewrite !elem_of_cons in Hz. split; intros Hin.
    + destruct (proj1 Hz) as [->|]; [by right| |done]. specialize (Hx y Hin). by rewrite zkey_lt_irrefl in Hx.
    + destruct (proj2 Hz) as [->|]; [by right| |done]. specialize (Hy y Hin). by rewrite zkey_lt_irrefl in Hy.
Qed.

(** ** Lemmas: trees *)

Lemma zsorted_cons x t : zsorted t -> (forall y, y ∈ t -> zkey_ltb x y = true) -> zsorted (x :: t).
Proof. intros Ht H. constructor; [done|]. by apply Forall_forall. Qed.

Lemma elem_of_tree_insert x t : (forall y, y ∈ t -> zkey_eqb x y = false) -> forall z, z ∈ tree_insert x t <-> z = x \/ z ∈ t.
Proof.
  induction t as [|y t IH]; intros H z; cbn [tree_insert]; [by rewrite list_elem_of_singleton, elem_of_nil; tauto|].
  destruct (zkey_ltb x y); [by rewrite !elem_of_cons|]. rewrite H by (by left). rewrite !elem_of_cons, IH by (intros; apply H; by right). tauto.
Qed.

Lemma tree_insert_sorted x t : zsorted t -> (forall y, y ∈ t -> zkey_eqb x y = false) -> zsorted (tree_insert x t).
Proof.
  induction 1 as [|y t Ht IH Hy]; intros H; cbn [tree_insert]; [repeat constructor|]. rewrite Forall_forall in Hy. destruct (zkey_ltb x y) eqn:E.
  - apply zsorted_cons; [by apply zsorted_cons|]. intros z [->|Hz]%elem_of_cons; [done|]. eapply zkey_lt_trans; [done|by apply Hy].
  - rewrite H by (by left). apply zsorted_cons; [apply IH; intros; apply H; by right|]. intros z Hz.
    apply elem_of_tree_insert in Hz as [->|Hz]; [|by apply Hy|intros; apply H; by right].
    destruct (zkey_trichotomy x y) as [?|[?|?]]; [congruence|rewrite H in *; [done|by left]|done].
Qed.

Lemma elem_of_tree_remove x t : zsorted t -> forall z, z ∈ tree_remove x t <-> z ∈ t /\ zkey_eqb x z = false.
Proof.
  induction 1 as [|y t Ht IH Hy]; intros z; cbn [tree_remove]; [rewrite elem_of_nil; tauto|]. rewrite Forall_forall in Hy. destruct (zkey_eqb x y) eqn:E.
  - rewrite elem_of_cons. split.
    + intros Hz. split; [by right|]. apply not_true_iff_false. intros E2. specialize (Hy z Hz). rewrite <-(proj1 (zkey_lt_eq _ _ z E)), (proj1 (zkey_lt_eq _ _ z E2)) in Hy.
      by rewrite zkey_lt_irrefl in Hy.
    + intros [[->|Hz] E2]; [congruence|done].
  - rewrite !elem_of_cons, IH. split; [intros [->|[? ?]]; tauto|]. intros [[->|?] ?]; tauto.
Qed.

Lemma tree_remove_sorted x t : zsorted t -> zsorted (tree_remove x t).
Proof.
  intros H. pose proof (elem_of_tree_remove x t H) as He. revert He. induction H as [|y t Ht IH Hy]; cbn [tree_remove]; [constructor|]. intros He.
  destruct (zkey_eqb x y); [done|]. apply zsorted_cons; [apply IH; by apply elem_of_tree_remove|]. intros z Hz. rewrite Forall_forall in Hy.
  apply Hy. by apply (elem_of_tree_remove x t Ht) in Hz as [? _].
Qed.

(** ** Lemmas: the two forms of a set agree *)

Lemma zset_ok_nil : zset_ok [] ∅.
Proof. split; [constructor|..]; intros; rewrite ?lookup_empty in *; [by split; [intros ?%elem_of_nil|]|done]. Qed.

(** The tree without a member, and with it again. *)
Lemma zset_without t m name prev : zset_ok t m -> m !! name = Some prev -> zset_ok (tree_remove (prev, name) t) (delete name m).
Proof.
  intros [Hs Hm Hd] Hn. split; [by apply tree_remove_sorted|..].
  - intros [b x]. rewrite (elem_of_tree_remove _ _ Hs), Hm. cbn [fst snd]. destruct (decide (x = name)) as [->|Hne].
    + rewrite lookup_delete_eq, Hn. split; [|done]. intros [[= ->] E]. apply not_true_iff_false in E. exfalso. apply E. by apply zkey_eq.
    + rewrite lookup_delete_ne by done. split; [tauto|]. intros H. split; [done|]. apply not_true_iff_false. rewrite zkey_eq. cbn. intros [_ ?]. congruence.
  - intros x b. rewrite lookup_delete_Some. intros [_ ?]. by eapply Hd.
Qed.

Lemma zset_with t m name score : zset_ok t m -> m !! name = None -> u64_ok score -> zset_ok (tree_insert (score, name) t) (<[name := score]> m).
Proof.
  intros [Hs Hm Hd] Hn Hu. assert (forall y, y ∈ t -> zkey_eqb (score, name) y = false) as Hfresh.
  { intros [b x] Hin. apply not_true_iff_false. rewrite zkey_eq. cbn. intros [_ <-]. apply Hm in Hin. cbn in Hin. congruence. }
  split; [by apply tree_insert_sorted|..].
  - intros [b x]. rewrite elem_of_tree_insert, Hm by done. cbn [fst snd]. destruct (decide (x = name)) as [->|Hne].
    + rewrite lookup_insert_eq, Hn. split; [by intros [[= ->]|]|]. intros [= ->]. by left.
    + rewrite lookup_insert_ne by done. split; [by intros [[= -> ->]|]|by right].
  - intros x b. rewrite lookup_insert_Some. intros [[<- <-]|[_ ?]]; [done|by eapply Hd].
Qed.

Lemma zset_update t m name prev score : zset_ok t m -> m !! name = Some prev -> u64_ok score ->
  zset_ok (tree_insert (score, name) (tree_remove (prev, name) t)) (<[name := score]> m).
Proof.
  intros H Hn Hu. pose proof (zset_without t m name prev H Hn) as H'. rewrite <-(insert_delete_eq m name score). apply zset_with; [done|apply lookup_delete_eq|done].
Qed.

(** ** Lemmas: the ranking *)

Lemma elem_of_ranking M x : x ∈ ranking M <-> M !! x.2 = Some x.1.
Proof.
  unfold ranking. rewrite merge_sort_Permutation, list_elem_of_fmap. destruct x as [b n]. cbn. split.
  - intros ([n' b'] & [= -> ->] & H). by apply elem_of_map_to_list in H.
  - intros H. exists (n, b). split; [done|]. by apply elem_of_map_to_list.
Qed.

Lemma ranking_sorted M : zsorted (ranking M).
Proof.
  pose proof (StronglySorted_merge_sort zle ((fun ms => (ms.2, ms.1)) <$> map_to_list M)) as H. fold (ranking M) in H.
  assert (NoDup ((ranking M).*2)) as Hn.
  { unfold ranking. rewrite merge_sort_Permutation, <-list_fmap_compose. apply NoDup_fst_map_to_list. }
  revert Hn. induction H as [|x t Ht IH Hx]; [constructor|]. cbn. intros [Hnx Hnd]%NoDup_cons. apply zsorted_cons; [by apply IH|].
  intros y Hy. rewrite Forall_forall in Hx. specialize (Hx y Hy). unfold zle in Hx. destruct (zkey_trichotomy x y) as [?|[[_ E]%zkey_eq|?]]; [done| |congruence].
  exfalso. apply Hnx. rewrite E. apply list_elem_of_fmap. by exists y.
Qed.

Lemma tree_is_ranking t m : zset_ok t m -> t = ranking m.
Proof. intros [Hs Hm _]. apply sorted_unique; [done|apply ranking_sorted|]. intros x. by rewrite Hm, elem_of_ranking. Qed.

Lemma ranking_empty : ranking ∅ = [].
Proof. by rewrite <-(tree_is_ranking _ _ zset_ok_nil). Qed.

Lemma length_ranking M : length (ranking M) = size M.
Proof. unfold ranking. by rewrite merge_sort_Permutation, length_fmap, length_map_to_list. Qed.

Lemma zlen_ranking M : zlen (ranking M) = Z.of_nat (size M).
Proof. unfold zlen. by rewrite length_ranking. Qed.

(** ** Lemmas: loops over members *)

Lemma add_loop f ms : forall added changed mem t m,
  zset_ok t m -> Forall (fun p => u64_ok p.2) ms ->
  let '(a, c, _, t', m') := foldl (add_one f) (added, changed, mem, t, m) ms in
  zset_ok t' m' /\ foldl (spec_add f) (added, changed, m) ms = (a, c, m').
Proof.
  induction ms as [|[member score] ms IH]; intros added changed mem t m Hz Hu; cbn [foldl]; [done|]. apply Forall_cons in Hu as [Hs Hu]. cbn [snd] in Hs.
  unfold add_one at 2, spec_add at 2. cbn [fst snd]. destruct (m !! key_str member) as [prev|] eqn:E.
  - destruct (nx f); cbn [negb andb]; [by apply IH|]. destruct (updates f score prev && negb (f64_eq score prev)); [|by apply IH].
    apply IH; [by apply zset_update|done].
  - destruct (xx f); [by apply IH|]. apply IH; [by apply zset_with|done].
Qed.

Lemma zremove_loop ms : forall removed freed t m,
  zset_ok t m ->
  let '(r, _, t', m') := foldl remove_one (removed, freed, t, m) ms in
  zset_ok t' m' /\ m' = filter (fun p => p.1 ∉ names ms) m /\ r = removed + Z.of_nat (size (dom m ∩ names ms)).
Proof.
  induction ms as [|x ms IH]; intros removed freed t m Hz; cbn [foldl].
  - split; [done|]. split; [symmetry; apply map_filter_id; intros i b _; unfold names; set_solver|]. unfold names. cbn. rewrite (right_absorb_L ∅ (∩)), size_empty. lia.
  - unfold remove_one at 2. assert (names (x :: ms) = {[key_str x]} ∪ names ms) as En by done. destruct (m !! key_str x) as [score|] eqn:E.
    + specialize (IH (removed + 1) (freed + (zlen x + 48)) _ _ (zset_without _ _ _ _ Hz E)). destruct (foldl _ _ _) as [[[r fr] t'] m'].
      destruct IH as (Hz' & -> & ->). split; [done|]. split.
      * rewrite En. apply map_eq. intros i. apply option_eq. intros b. rewrite !map_lookup_filter_Some, lookup_delete_Some. cbn [fst]. set_solver.
      * rewrite En, dom_delete_L. assert (key_str x ∈ dom m) by (by apply elem_of_dom).
        replace (dom m ∩ ({[key_str x]} ∪ names ms)) with ({[key_str x]} ∪ ((dom m ∖ {[key_str x]}) ∩ names ms)) by (apply set_eq; intros y; set_unfold; destruct (decide (y = key_str x)); naive_solver).
        rewrite size_add by set_solver. lia.
    + specialize (IH removed freed t m Hz). destruct (foldl _ _ _) as [[[r fr] t'] m']. destruct IH as (Hz' & -> & ->). split; [done|].
      assert (key_str x ∉ dom m) by (by apply not_elem_of_dom). split.
      * rewrite En. apply map_filter_ext. intros i b Hi. cbn. assert (i <> key_str x) by congruence. set_solver.
      * rewrite En. do 3 f_equal. set_solver.
Qed.

(** Popping from one end of the tree. *)
Lemma pop_loop_spec l : forall count (m : scores) result freed,
  let out := skip_take 0 (Z.max 0 count) l in
  let '(r, _, rest, m') := pop_loop count l m result freed in
  r = result ++ (pair_of <$> out) /\ l = out ++ rest /\ m' = filter (fun p => p.1 ∉ out.*2) m.
Proof.
  unfold skip_take. assert (forall (m : scores), filter (fun p => p.1 ∉ (@nil zkey).*2) m = m) as Hnil by (intros m; apply map_filter_id; intros; apply not_elem_of_nil).
  induction l as [|x l IH]; intros count m result freed; cbv zeta; cbn [pop_loop].
  - rewrite drop_nil, take_nil, Hnil. cbn. by rewrite app_nil_r.
  - destruct (Z.leb_spec count 0).
    + replace (Z.to_nat (Z.min (Z.max 0 count) (zlen (x :: l)))) with 0%nat by (pose proof (zlen_nonneg (x :: l)); lia). cbn [take fmap list_fmap]. rewrite Hnil. by rewrite app_nil_r.
    + specialize (IH (count - 1) (delete x.2 m) (result ++ [pair_of x]) (freed + (zlen x.2 + 48))). cbv zeta in IH. destruct (pop_loop _ _ _ _ _) as [[[r fr] rest] m'].
      destruct IH as (-> & El & ->). pose proof (zlen_nonneg l).
      replace (Z.min 0 (zlen l)) with 0 in El |- * by lia. replace (Z.min 0 (zlen (x :: l))) with 0 by (rewrite zlen_cons; lia). change (drop (Z.to_nat 0) ?l) with l in *.
      replace (Z.to_nat (Z.min (Z.max 0 count) (zlen (x :: l)))) with (S (Z.to_nat (Z.min (Z.max 0 (count - 1)) (zlen l)))) by (rewrite zlen_cons; lia).
      cbn [take fmap list_fmap]. rewrite <-app_assoc. split; [done|]. split; [cbn; by rewrite <-El|].
      apply map_eq. intros i. apply option_eq. intros b. rewrite !map_lookup_filter_Some, lookup_delete_Some. cbn [fst]. rewrite not_elem_of_cons. naive_solver.
Qed.

Lemma zsorted_app l k : zsorted (l ++ k) -> zsorted l /\ zsorted k.
Proof.
  induction l as [|x l IH]; cbn; [by repeat constructor|]. intros [H1 H2]%StronglySorted_inv. apply IH in H1 as [H1 H3]. apply Forall_app in H2 as [H2 _].
  split; [by constructor|done].
Qed.

(** A set without the members of a list of its keys. *)
Lemma zset_split t m out rest : zset_ok t m -> (out ++ rest ≡ₚ t) -> zsorted rest -> NoDup (out ++ rest).*2 -> zset_ok rest (filter (fun p => p.1 ∉ out.*2) m).
Proof.
  intros [Hs Hm Hd] Hp Hr Hn. split; [done|..].
  - intros [b x]. rewrite map_lookup_filter_Some. cbn [fst snd]. rewrite <-(Hm (b, x)), <-Hp, elem_of_app. rewrite fmap_app, NoDup_app in Hn. destruct Hn as (_ & Hn & _).
    split.
    + intros Hx. split; [by right|]. intros Ho. apply (Hn x Ho). apply list_elem_of_fmap. by exists (b, x).
    + intros [[Ho|Hx] Hno]; [|done]. exfalso. apply Hno. apply list_elem_of_fmap. by exists (b, x).
  - intros x b. rewrite map_lookup_filter_Some. intros [? _]. by eapply Hd.
Qed.

Lemma zset_names t m : zset_ok t m -> NoDup t.*2.
Proof.
  intros H. rewrite (tree_is_ranking t m H). unfold ranking. rewrite merge_sort_Permutation, <-list_fmap_compose. apply NoDup_fst_map_to_list.
Qed.

(** ** Lemmas: scores in an interval *)

Lemma bits_cases b : u64_ok b ->
  (b < 9223372036854775808 /\ Z.testbit b 63 = false /\ Z.land b 9223372036854775807 = b) \/
  (9223372036854775808 <= b /\ Z.testbit b 63 = true /\ Z.land b 9223372036854775807 = b - 9223372036854775808).
Proof.
  intros [H1 H2]. unfold u64_mod in H2. change 9223372036854775807 with (Z.ones 63). rewrite Z.land_ones by lia. change (2 ^ 63) with 9223372036854775808.
  pose proof (Z.div_mod b 9223372036854775808 ltac:(lia)). pose proof (Z.mod_pos_bound b 9223372036854775808 ltac:(lia)).
  destruct (Z.lt_ge_cases b 9223372036854775808); [left|right]; (split; [done|]).
  - split; [|apply Z.mod_small; lia]. apply Z.testbit_false; [lia|]. change (2 ^ 63) with 9223372036854775808. by rewrite Z.div_small by lia.
  - assert (b / 9223372036854775808 = 1) as E by (symmetry; apply (Z.div_unique b _ 1 (b - 9223372036854775808)); lia).
    split; [|rewrite E in *; lia]. apply Z.testbit_true; [lia|]. change (2 ^ 63) with 9223372036854775808. by rewrite E.
Qed.

Lemma nan_bits b : f64_is_nan b = (INFINITY <? Z.land b 9223372036854775807).
Proof. unfold f64_is_nan. by rewrite Z.gtb_ltb. Qed.

Lemma rank_bound b : u64_ok b -> f64_is_nan b = false -> - INFINITY <= f64_rank b <= INFINITY.
Proof.
  intros Hb Hn. unfold f64_rank. rewrite Hn. rewrite nan_bits in Hn. unfold INFINITY in *. destruct (bits_cases b Hb) as [(? & -> & E)|(? & -> & E)]; rewrite E in Hn; zbool.
  - destruct Hb. lia.
  - lia.
Qed.

Lemma nan_rank b : f64_is_nan b = true -> f64_rank b = u64_mod.
Proof. intros H. unfold f64_rank. by rewrite H. Qed.

Lemma next_up_rank b : u64_ok b -> f64_is_nan b = false -> b <> INFINITY -> f64_rank (next_up b) = f64_rank b + 1.
Proof.
  intros Hb Hn Hi. unfold next_up, f64_rank at 2. rewrite Hn. destruct (Z.eqb_spec b INFINITY); [done|]. cbn [orb]. rewrite nan_bits in Hn. unfold INFINITY in *.
  assert (forall c, u64_ok c -> Z.land c 9223372036854775807 <= 9218868437227405312 -> f64_is_nan c = false) as Hc.
  { intros c Hc Hl. rewrite nan_bits. unfold INFINITY. zbool. lia. }
  destruct (bits_cases b Hb) as [(Hlt & E1 & E2)|(Hge & E1 & E2)]; rewrite E1, E2 in *; zbool.
  - destruct (Z.eqb_spec b 0) as [->|]; [done|]. assert (u64_ok (b + 1)) as Hs by (unfold u64_ok, u64_mod in *; lia).
    destruct (bits_cases (b + 1) Hs) as [(_ & E3 & E4)|(? & _)]; [|lia]. unfold f64_rank. rewrite Hc, E3 by (done || lia). done.
  - destruct (Z.eqb_spec (b - 9223372036854775808) 0) as [E0|]; [rewrite E0; done|]. assert (u64_ok (b - 1)) as Hs by (unfold u64_ok, u64_mod in *; lia).
    destruct (bits_cases (b - 1) Hs) as [(? & _)|(_ & E3 & E4)]; [lia|]. unfold f64_rank. rewrite Hc, E3 by (done || lia). lia.
Qed.

(** Keys below a score: the empty name is the least. *)
Lemma ltb_score x r : zkey_ltb x (r, []) = (f64_rank x.1 <? f64_rank r).
Proof.
  apply eq_true_iff_eq. rewrite zkey_lt, Z.ltb_lt. cbn [fst snd]. split; [|by left]. intros [?|(_ & H & N)]; [done|]. by destruct x.2.
Qed.

Lemma score_ltb x r : zkey_ltb (r, []) x = true -> f64_rank r <= f64_rank x.1.
Proof. rewrite zkey_lt. cbn. intros [?|[? _]]; lia. Qed.

Lemma infinity_score b : u64_ok b -> f64_eq b INFINITY = true <-> b = INFINITY.
Proof.
  intros Hb. split; [|by intros ->]. unfold f64_eq. intros [[Hn _]%andb_true_iff E%Z.eqb_eq]%andb_true_iff. apply negb_true_iff in Hn.
  unfold f64_rank in E. rewrite Hn in E. rewrite nan_bits in Hn. change (f64_is_nan INFINITY) with false in E. change (Z.testbit INFINITY 63) with false in E.
  destruct (bits_cases b Hb) as [(_ & H & _)|(? & H & _)]; rewrite H in E; [done|]. unfold INFINITY in *. lia.
Qed.

(** The bounds of a range pick the scores of the interval. *)
Lemma interval_lower a ax x : u64_ok a -> f64_is_nan a = false -> u64_ok x -> (ax = true -> a <> INFINITY) ->
  negb (f64_rank x <? f64_rank (if ax then next_up a else a)) = above a ax x || f64_is_nan x.
Proof.
  intros Ha Hn Hx Hi. unfold above, f64_le, f64_lt, f64_eq. rewrite Hn. cbn [negb andb]. destruct (f64_is_nan x) eqn:En; cbn [negb andb].
  - rewrite (nan_rank x En), orb_true_r. pose proof (rank_bound a Ha Hn). unfold INFINITY in *. assert (f64_rank (if ax then next_up a else a) <= f64_rank a + 1).
    { destruct ax; [rewrite next_up_rank by (done || by apply Hi)|]; lia. } apply negb_true_iff, Z.ltb_ge. unfold u64_mod. lia.
  - rewrite orb_false_r. destruct ax; [rewrite next_up_rank by (done || by apply Hi)|]; apply eq_true_iff_eq; rewrite ?orb_true_iff, negb_true_iff, ?Z.ltb_ge, ?Z.ltb_lt, ?Z.eqb_eq; lia.
Qed.

Lemma interval_upper b bx x : u64_ok b -> f64_is_nan b = false -> u64_ok x ->
  (f64_rank x <? f64_rank (score_upper_bound b bx).1) = below b bx x.
Proof.
  intros Hb Hn Hx. unfold score_upper_bound, below, f64_le, f64_lt. rewrite Hn. cbn [negb]. rewrite andb_true_r.
  pose proof (rank_bound b Hb Hn) as Hbb. destruct (f64_is_nan x) eqn:En; cbn [negb andb].
  - rewrite (nan_rank x En). assert (f64_rank (if bx then (b, []) else if f64_eq b INFINITY then (NAN, []) else (next_up b, [] : bytes)).1 <= u64_mod) as Hle.
    { destruct bx; cbn [fst]; [unfold INFINITY, u64_mod in *; lia|]. destruct (f64_eq b INFINITY) eqn:Ei; [done|]. cbn [fst]. rewrite next_up_rank; [unfold INFINITY, u64_mod in *; lia|done..|].
      intros E. apply infinity_score in E; [congruence|done]. }
    unfold f64_eq. rewrite En. cbn [negb andb orb]. destruct bx; apply Z.ltb_ge; done.
  - pose proof (rank_bound x Hx En). unfold f64_eq at 2. rewrite En, Hn. cbn [negb andb]. destruct bx; [done|]. destruct (f64_eq b INFINITY) eqn:Ei; cbn [fst].
    + apply infinity_score in Ei as ->; [|done]. change (f64_rank NAN) with u64_mod. change (f64_rank INFINITY) with INFINITY in *. unfold INFINITY, u64_mod in *.
      apply eq_true_iff_eq. rewrite orb_true_iff, !Z.ltb_lt, Z.eqb_eq. lia.
    + rewrite next_up_rank; [|done..|intros E; apply infinity_score in E; [congruence|done]]. apply eq_true_iff_eq. rewrite orb_true_iff, !Z.ltb_lt, Z.eqb_eq. lia.
Qed.

(** A range over the tree is the members in the interval, and does not panic. *)
Lemma range_interval t m a b ax bx : zset_ok t m -> u64_ok a -> u64_ok b -> f64_is_nan a = false -> f64_is_nan b = false ->
  f64_lt b a = false -> f64_eq a b && (ax || bx) = false ->
  tree_range ((if ax then next_up a else a), []) (score_upper_bound b bx) t = Returned (List.filter (in_interval a b ax bx) t).
Proof.
  intros Hz Ha Hb Hna Hnb Hle Hne. unfold f64_lt, f64_eq in Hle, Hne. rewrite Hna, Hnb in Hle, Hne. cbn [negb andb] in Hle, Hne. apply Z.ltb_ge in Hle.
  assert ((score_upper_bound b bx).2 = []) as Eu by (unfold score_upper_bound; by destruct bx; [|destruct (f64_eq b INFINITY)]).
  assert (ax = true -> a <> INFINITY) as Hai.
  { intros -> ->. cbn in Hne. rewrite andb_true_r in Hne. pose proof (rank_bound b Hb Hnb). change (f64_rank INFINITY) with INFINITY in *. apply Z.eqb_neq in Hne. lia. }
  unfold tree_range. destruct (score_upper_bound b bx) as [u n] eqn:Es. cbn [snd] in Eu. subst n.
  assert (f64_rank (if ax then next_up a else a) <= f64_rank u) as Hord.
  { replace u with (score_upper_bound b bx).1 by (by rewrite Es). unfold score_upper_bound. pose proof (rank_bound b Hb Hnb). pose proof (rank_bound a Ha Hna).
    assert (f64_rank (if ax then next_up a else a) <= f64_rank b + (if bx then 0 else 1)) as Hx.
    { destruct ax; [rewrite next_up_rank by (done || by apply Hai)|]; destruct bx; cbn in Hne; rewrite ?andb_true_r in Hne; zbool; lia. }
    destruct bx; cbn [fst]; [lia|]. destruct (f64_eq b INFINITY) eqn:Ei; cbn [fst].
    - change (f64_rank NAN) with u64_mod. unfold INFINITY, u64_mod in *. lia.
    - rewrite next_up_rank; [lia|done..|]. intros E. apply infinity_score in E; [congruence|done]. }
  destruct (zkey_ltb _ _) eqn:Ep; [rewrite ltb_score in Ep; cbn [fst] in Ep; zbool; lia|]. f_equal. apply filter_ext_in. intros x Hx%list_elem_of_In.
  apply (zo_same _ _ Hz), (zo_doubles _ _ Hz) in Hx as Hux. rewrite !ltb_score, (interval_lower a ax x.1) by done.
  replace u with (score_upper_bound b bx).1 by (by rewrite Es). rewrite interval_upper by done. unfold in_interval.
  destruct (f64_is_nan x.1) eqn:En; [|by rewrite orb_false_r]. assert (below b bx x.1 = false) as ->; [|by rewrite !andb_false_r].
  unfold below, f64_le, f64_lt, f64_eq. rewrite En. by destruct bx.
Qed.

Lemma interval_empty a b ax bx x : f64_is_nan a = false -> f64_is_nan b = false -> f64_lt b a || (f64_eq a b && (ax || bx)) = true -> in_interval a b ax bx x = false.
Proof.
  intros Hna Hnb H. unfold in_interval, above, below, f64_le, f64_lt, f64_eq in *. rewrite Hna, Hnb in *. destruct (f64_is_nan x.1); [by destruct ax, bx|]. cbn [negb andb] in *.
  apply not_true_iff_false. destruct ax, bx; cbn [orb] in H; rewrite ?andb_true_r, ?andb_false_r, ?orb_false_r in H; zbool; intros; zbool; lia.
Qed.

Lemma interval_wider a b ax bx x : in_interval a b ax bx x = true -> in_interval a b false false x = true.
Proof.
  unfold in_interval, above, below, f64_le. rewrite !andb_true_iff. intros [H1 H2]. destruct ax, bx; rewrite ?H1, ?H2, ?orb_true_iff in *; tauto.
Qed.

Lemma filter_filter_wider {A : Type} (f g : A -> bool) l : (forall x, f x = true -> g x = true) -> List.filter f (List.filter g l) = List.filter f l.
Proof.
  intros H. induction l as [|x l IH]; [done|]. cbn. destruct (g x) eqn:Eg; cbn; [by rewrite IH|]. destruct (f x) eqn:Ef; [|done]. apply H in Ef. congruence.
Qed.

Lemma filter_reverse {A : Type} (f : A -> bool) l : List.filter f (reverse l) = reverse (List.filter f l).
Proof.
  induction l as [|x l IH]; [done|]. rewrite reverse_cons, List.filter_app, IH. cbn [List.filter]. destruct (f x); [by rewrite reverse_cons|by rewrite app_nil_r].
Qed.

(** ** Lemmas: the store *)

Lemma zok_same now s s' A : zsets_ok now s A -> hot s' -> (forall k, find s' k = find s k) -> zsets_ok now s' A.
Proof.
  intros [Hh Hs Hw] Hh' E. split; [done|..].
  - intros k. by rewrite Hs, E.
  - intros k e. rewrite E. apply Hw.
Qed.

Lemma zok_bump now key s A : zsets_ok now s A -> zsets_ok now (bump key s) A.
Proof. intros H. eapply zok_same; [done|apply hot_bump, H|]. intros k. by rewrite find_bump. Qed.

Lemma zok_charge now key n s A : zsets_ok now s A -> zsets_ok now (charge key n s) A.
Proof.
  intros H. pose proof (zk_hot _ _ _ H) as [Hn Hd]. eapply zok_same; [done| |].
  - split; [by apply nonempty_shard_mem_add|done].
  - intros k. unfold charge. by rewrite find_mem_add, find_shard_mem_add.
Qed.

Lemma zok_refund now key n s A : zsets_ok now s A -> zsets_ok now (refund key n s) A.
Proof.
  intros H. pose proof (zk_hot _ _ _ H) as [Hn Hd]. eapply zok_same; [done| |].
  - split; [by apply nonempty_shard_mem_sub|done].
  - intros k. unfold refund. by rewrite find_mem_sub, find_shard_mem_sub.
Qed.

Lemma zok_put now key e t m s A : zsets_ok now s A -> is_expired_at now e = false -> zset_ok t m ->
  zsets_ok now (put_zset key e t m s) (upd key (ZSet m (expires_at e)) A).
Proof.
  intros [Hh Hs Hw] He Hz. unfold put_zset. split; [by apply hot_put_data|..].
  - intros k. unfold upd. rewrite find_put_data by apply Hh. destruct (decide (k = key)); [|done].
    cbn [slot_at value expires_at]. unfold is_expired_at in *. cbn [expires_at]. by rewrite He.
  - intros k e'. rewrite find_put_data by apply Hh. destruct (decide (k = key)); [|apply Hw]. by intros [= <-].
Qed.

Lemma zview_cases now s A k : zsets_ok now s A ->
  (view_zset k now s = Ok None /\ A k = ZAbsent) \/
  (exists e t m, view_zset k now s = Ok (Some (e, t, m)) /\ A k = ZSet m (expires_at e) /\ zset_ok t m /\ is_expired_at now e = false) \/
  (view_zset k now s = Err WRONGTYPE /\ is_other (A k) = true).
Proof.
  intros [Hh Hs Hw]. rewrite (Hs k). unfold view_zset, slot_at. destruct (find s k) as [e|] eqn:Ef; [|by left]. destruct (is_expired_at now e) eqn:Ee; [by left|].
  specialize (Hw k e Ef). unfold wf_entry in Hw. destruct (value e) eqn:Ev; try (by right; right). right; left. by eexists _, _, _.
Qed.

Lemma zopen_cases now s A k : zsets_ok now s A ->
  let '(e, s1) := open_zset k now s in
  zsets_ok now s1 A /\ is_expired_at now e = false /\
  if is_other (A k) then match value e with VSortedSet _ _ => False | _ => s1 = s end
  else exists t, value e = VSortedSet t (contents (A k)) /\ zset_ok t (contents (A k)) /\ expires_at e = deadline_of (A k).
Proof.
  intros Hok. pose proof Hok as [Hh Hs Hw]. rewrite (Hs k). unfold open_zset, slot_at. destruct (find s k) as [e|] eqn:Ef; [destruct (is_expired_at now e) eqn:Ee|].
  - split; [done|]. split; [done|]. exists []. split; [done|]. by split; [apply zset_ok_nil|].
  - split; [done|]. split; [done|]. specialize (Hw k e Ef). unfold wf_entry in Hw. destruct (value e) eqn:Ev; cbn [is_other]; try done. by eexists.
  - split; [by apply (zok_same now s)|]. split; [done|]. exists []. split; [done|]. by split; [apply zset_ok_nil|].
Qed.

Lemma zpromote_id {R} hc clock key now s A (k : Store -> result R * Store) : zsets_ok now s A -> promoted hc clock key now s k = k s.
Proof. intros H. unfold promoted. by rewrite hot_promote by apply H. Qed.

(** A read sees the ranking and the scores of its key. *)
Lemma reading_ok {R : Type} (now : Z) (s : Store) (A : space) (k : bytes) (none : R) (f : tree -> scores -> R) : zsets_ok now s A -> f [] ∅ = none ->
  reading k now s none f = if is_other (A k) then Err WRONGTYPE else Ok (f (ranking (contents (A k))) (contents (A k))).
Proof.
  intros Hok Hf. unfold reading. destruct (zview_cases now s A k Hok) as [[-> ->]|[(e & t & m & -> & -> & Hz & _)|[-> ->]]]; [..|done]; cbn [is_other contents].
  - by rewrite <-Hf.
  - by rewrite (tree_is_ranking t m Hz).
Qed.

(** ** Lemmas: each command *)

Lemma absent_slot now s A k : zsets_ok now s A ->
  is_absent (A k) = match find s k with Some e => is_expired_at now e | None => true end.
Proof. intros [_ Hs _]. rewrite (Hs k). unfold slot_at. destruct (find s k) as [e|]; [|done]. destruct (is_expired_at now e); [done|]. by destruct (value e). Qed.

Lemma zadd_shard_ok now key ms f s A : zsets_ok now s A -> Forall (fun p => u64_ok p.2) ms ->
  let '(r, s') := zadd_on_shard key ms f now s in
  if xx f && is_absent (A key) then r = Ok 0 /\ zsets_ok now s' A
  else if is_other (A key) then r = Err WRONGTYPE /\ zsets_ok now s' A
  else let '(a, c, M) := foldl (spec_add f) (0, 0, contents (A key)) ms in
       r = Ok (if ch f then a + c else a) /\ zsets_ok now s' (upd key (ZSet M (deadline_of (A key))) A).
Proof.
  intros Hok Hu. pose proof (absent_slot now s A key Hok) as Ha. pose proof (zopen_cases now s A key Hok) as Ho. unfold zadd_on_shard.
  assert (forall e s1, open_zset key now s = (e, s1) ->
    let '(r, s') := match value e with
      | VSortedSet t m => let '(added, changed, mem, t, m) := foldl (add_one f) (0, 0, 0, t, m) ms in
                          (Ok (if ch f then added + changed else added), charge key mem (put_zset key e t m s1))
      | _ => (Err WRONGTYPE, s) end in
    if is_other (A key) then r = Err WRONGTYPE /\ zsets_ok now s' A
    else let '(a, c, M) := foldl (spec_add f) (0, 0, contents (A key)) ms in
         r = Ok (if ch f then a + c else a) /\ zsets_ok now s' (upd key (ZSet M (deadline_of (A key))) A)) as Hrun.
  { intros e s1 E. rewrite E in Ho. destruct Ho as (Hok1 & He & Ho). destruct (is_other (A key)); [by destruct (value e)|].
    destruct Ho as (t & -> & Hz & Hx). pose proof (add_loop f ms 0 0 0 t (contents (A key)) Hz Hu) as Hl. destruct (foldl (add_one f) _ ms) as [[[[a c] mem] t'] m'].
    destruct Hl as [Hz' ->]. split; [done|]. rewrite <-Hx. by apply zok_charge, zok_put. }
  destruct (open_zset key now s) as [e' s1] eqn:Eo. specialize (Hrun e' s1 eq_refl).
  destruct (find s key) as [e|]; rewrite Ha.
  - destruct (xx f && is_expired_at now e); [done|]. exact Hrun.
  - rewrite andb_true_r. destruct (xx f); [done|]. exact Hrun.
Qed.

Lemma zadd_ok hc clock now key ms f s A : zsets_ok now s A -> Forall (fun p => u64_ok p.2) ms ->
  let '(r, s') := zadd hc clock key ms f now s in
  if xx f && is_absent (A key) then r = Ok 0 /\ zsets_ok now s' A
  else if is_other (A key) then r = Err WRONGTYPE /\ zsets_ok now s' A
  else let '(a, c, M) := foldl (spec_add f) (0, 0, contents (A key)) ms in
       r = Ok (if ch f then a + c else a) /\ zsets_ok now s' (upd key (ZSet M (deadline_of (A key))) A).
Proof. intros Hok Hu. unfold zadd. erewrite zpromote_id by done. by apply zadd_shard_ok; [apply zok_bump|]. Qed.

Lemma zincrby_ok fadd fmul fmin fmax `{!Arithmetic fadd fmul fmin fmax} now key m d s A : zsets_ok now s A -> u64_ok d ->
  let '(r, s') := zincrby fadd key m d now s in
  let score := fadd (default 0 (contents (A key) !! key_string m)) d in
  if is_other (A key) then r = Err WRONGTYPE /\ zsets_ok now s' A
  else r = Ok score /\ zsets_ok now s' (upd key (ZSet (<[key_string m := score]> (contents (A key))) (deadline_of (A key))) A).
Proof.
  intros Hok Hd. apply (zok_bump now key) in Hok. unfold zincrby, zincrby_on_shard. pose proof (zopen_cases now (bump key s) A key Hok) as Ho.
  destruct (open_zset key now (bump key s)) as [e s1]. destruct Ho as (Hok1 & He & Ho). destruct (is_other (A key)); [by destruct (value e)|].
  destruct Ho as (t & -> & Hz & Hx). cbv zeta. split; [done|]. rewrite <-Hx. apply zok_put; [done|done|].
  destruct (contents (A key) !! key_string m) as [old|] eqn:E; cbn [default id].
  - rewrite bool_decide_eq_true_2 by (by eexists). rewrite orb_true_r. apply zset_update; [done|done|]. apply (add_ok (fmul := fmul) (fmin := fmin) (fmax := fmax)); [|done]. by eapply zo_doubles.
  - rewrite bool_decide_eq_false_2 by (by intros []). change (f64_eq 0 0) with true. cbn [negb orb]. apply zset_with; [done|done|].
    by apply (add_ok (fmul := fmul) (fmin := fmin) (fmax := fmax)).
Qed.

Lemma zrem_ok hc clock now key ms s A : zsets_ok now s A ->
  let '(r, s') := zrem hc clock key ms now s in
  if is_other (A key) then r = Err WRONGTYPE /\ zsets_ok now s' A
  else if is_absent (A key) then r = Ok 0 /\ zsets_ok now s' A
  else r = Ok (Z.of_nat (size (dom (contents (A key)) ∩ names ms))) /\
       zsets_ok now s' (upd key (ZSet (filter (fun p => p.1 ∉ names ms) (contents (A key))) (deadline_of (A key))) A).
Proof.
  intros Hok. unfold zrem. erewrite zpromote_id by done. apply (zok_bump now key) in Hok.
  destruct (zview_cases now (bump key s) A key Hok) as [[-> ->]|[(e & t & m & -> & -> & Hz & He)|[-> ->]]]; cbn [is_other is_absent contents deadline_of]; [done| |done].
  pose proof (zremove_loop ms 0 0 t m Hz) as Hl. destruct (foldl remove_one _ ms) as [[[r fr] t'] m']. destruct Hl as (Hz' & -> & ->). split; [done|]. by apply zok_refund, zok_put.
Qed.

Lemma reverse_reversed_if {A : Type} (g : bool) (l : list A) : (if g then reverse (reversed_if g l) else reversed_if g l) = l.
Proof. destruct g; cbn; [apply reverse_involutive|done]. Qed.

Lemma zpop_ok now g key n s A : zsets_ok now s A ->
  let '(r, s') := zpop g key n now s in
  let out := skip_take 0 (Z.max 0 n) (reversed_if g (ranking (contents (A key)))) in
  if is_other (A key) then r = Err WRONGTYPE /\ zsets_ok now s' A
  else if is_absent (A key) then r = Ok [] /\ zsets_ok now s' A
  else r = Ok (pair_of <$> out) /\ zsets_ok now s' (upd key (ZSet (filter (fun p => p.1 ∉ out.*2) (contents (A key))) (deadline_of (A key))) A).
Proof.
  intros Hok. apply (zok_bump now key) in Hok. unfold zpop.
  destruct (zview_cases now (bump key s) A key Hok) as [[-> ->]|[(e & t & m & -> & -> & Hz & He)|[-> ->]]]; cbn [is_other is_absent contents deadline_of]; [done| |done].
  change (if g then reverse t else t) with (reversed_if g t). pose proof (pop_loop_spec (reversed_if g t) n m [] 0) as Hl. cbv zeta in Hl |- *.
  pose proof (tree_is_ranking t m Hz) as Et. rewrite <-Et. destruct (pop_loop n (reversed_if g t) m [] 0) as [[[r fr] rest] m'].
  destruct Hl as (-> & El & ->). set (out := skip_take 0 (Z.max 0 n) (reversed_if g t)) in *. split; [done|]. apply zok_refund, zok_put; [done|done|].
  assert (out ++ (if g then reverse rest else rest) ≡ₚ t) as Hp.
  { rewrite <-(reverse_reversed_if g t), El. destruct g; [by rewrite !reverse_Permutation|done]. }
  apply (zset_split t m); [done|done| |].
  - pose proof (zo_sorted _ _ Hz) as Hs. rewrite <-(reverse_reversed_if g t), El in Hs. destruct g; [|by apply zsorted_app in Hs as [_ ?]].
    rewrite reverse_app in Hs. by apply zsorted_app in Hs as [? _].
  - rewrite Hp. by eapply zset_names.
Qed.

(** ** Lemmas: ranks and ranges *)

Lemma rank_index L x : zsorted L -> x ∈ L -> L !! length (List.filter (fun y => zkey_ltb y x) L) = Some x.
Proof.
  induction 1 as [|y L HL IH Hy]; [by intros ?%elem_of_nil|]. rewrite Forall_forall in Hy. intros [->|Hx]%elem_of_cons; cbn [List.filter].
  - rewrite zkey_lt_irrefl. assert (List.filter (fun z => zkey_ltb z y) L = []) as ->; [|done].
    assert (forall z, z ∈ L -> zkey_ltb z y = false) as Hz by (intros z Hz; by apply zkey_lt_asym, Hy). clear -Hz. induction L as [|z L IH]; [done|]. cbn.
    rewrite Hz by (by left). apply IH. intros; apply Hz; by right.
  - rewrite (Hy x Hx). cbn [length lookup list_lookup]. by apply IH.
Qed.

Lemma reverse_index {A : Type} (l : list A) i x : l !! i = Some x -> reverse l !! (length l - 1 - i)%nat = Some x.
Proof. intros H. pose proof (lookup_lt_Some _ _ _ H). rewrite reverse_lookup by lia. rewrite <-H. f_equal. lia. Qed.

Lemma zrank_ok now key m rv s A : zsets_ok now s A -> fits A ->
  if is_other (A key) then zrank key m rv now s = Err WRONGTYPE
  else match contents (A key) !! key_str m with
       | None => zrank key m rv now s = Ok None
       | Some score => exists i, reversed_if rv (ranking (contents (A key))) !! i = Some (score, key_str m) /\ zrank key m rv now s = Ok (Some (Z.of_nat i))
       end.
Proof.
  intros Hok Hf. unfold zrank. erewrite reading_ok by (done || by rewrite lookup_empty). destruct (is_other (A key)); [done|].
  destruct (contents (A key) !! key_str m) as [score|] eqn:E; [|done]. set (M := contents (A key)) in *.
  pose proof (rank_index (ranking M) (score, key_str m) (ranking_sorted M) (proj2 (elem_of_ranking M (score, key_str m)) E)) as Hi.
  set (n := length _) in Hi. fold (zlen (List.filter (fun x => zkey_ltb x (score, key_str m)) (ranking M))). pose proof (lookup_lt_Some _ _ _ Hi) as Hlt.
  destruct rv; cbn [reversed_if].
  - exists (length (ranking M) - 1 - n)%nat. split; [by apply reverse_index|]. do 2 f_equal. unfold zlen. fold n. rewrite length_ranking in *.
    specialize (Hf key). fold M in Hf. unfold i64_max in Hf. rewrite as_u64_small by (unfold u64_mod; lia). rewrite as_i64_small by (unfold i64_min, i64_max; lia). lia.
  - by exists n.
Qed.

Lemma zrange_between {A : Type} (l : list A) start stop : i64_ok start -> i64_ok stop -> zlen l <= i64_max ->
  let len := zlen l in
  let st := if start <? 0 then Z.max (len + start) 0 else Z.min start len in
  let en := as_u64 (if stop <? 0 then Z.max (len + stop + 1) 0 else Z.min (as_i64 (stop + 1)) len) in
  (if st >=? en then [] else skip_take st (en - st) l) = between start stop l.
Proof.
  intros Ha Hb Hl. unfold i64_ok, i64_min, i64_max in *. pose proof (zlen_nonneg l) as H0. cbv zeta. unfold between, skip_take.
  set (st := if start <? 0 then _ else _). set (en := as_u64 _). set (hi := Z.min (zlen l) ((if stop <? 0 then zlen l + stop else stop) + 1)).
  assert (0 <= st <= zlen l) as Hst by (unfold st; destruct (Z.ltb_spec start 0); lia).
  assert (Z.max 0 (if start <? 0 then zlen l + start else start) = st \/ (zlen l <= Z.max 0 (if start <? 0 then zlen l + start else start) /\ st = zlen l)) as Hlo.
  { unfold st. destruct (Z.ltb_spec start 0); lia. }
  assert (0 <= en /\ Z.min (zlen l) en = Z.max 0 hi) as [Hen0 Hen].
  { unfold en, hi. destruct (Z.ltb_spec stop 0).
    - rewrite as_u64_small by (unfold u64_mod; lia). lia.
    - destruct (decide (stop = 9223372036854775807)) as [->|].
      + change (as_i64 (9223372036854775807 + 1)) with (-9223372036854775808). rewrite Z.min_l by lia. change (as_u64 (-9223372036854775808)) with 9223372036854775808. lia.
      + rewrite as_i64_small by (unfold i64_min, i64_max; lia). rewrite as_u64_small by (unfold u64_mod; lia). lia. }
  set (lo := Z.max 0 _) in *. rewrite Z.geb_leb. destruct (Z.leb_spec en st).
  - symmetry. destruct Hlo as [->|[Hlo _]]; [|rewrite drop_ge by (unfold zlen in *; lia); by rewrite take_nil]. replace (Z.to_nat (hi - st)) with 0%nat by lia. done.
  - replace (Z.min st (zlen l)) with st by lia. destruct Hlo as [->|[Hlo Est]].
    + assert (take (Z.to_nat (Z.min (en - st) (zlen l))) (drop (Z.to_nat st) l) = take (Z.to_nat (Z.min (en - st) (zlen l - st))) (drop (Z.to_nat st) l)) as ->.
      { destruct (Z.le_ge_cases (en - st) (zlen l - st)); [do 2 f_equal; lia|]. rewrite !take_ge by (rewrite length_drop; unfold zlen in *; lia). done. }
      f_equal. lia.
    + rewrite !drop_ge by (unfold zlen in *; lia). by rewrite !take_nil.
Qed.

Lemma skip_take_fmap {A B : Type} (f : A -> B) off cnt l : f <$> skip_take off cnt l = skip_take off cnt (f <$> l).
Proof. unfold skip_take, zlen. by rewrite fmap_take, fmap_drop, length_fmap. Qed.

Lemma cycle_take_spec {A : Type} (l : list A) n : forall cur k, l <> [] -> cur = drop k l -> (k <= length l)%nat ->
  length (cycle_take n l cur) = n /\ forall i x, cycle_take n l cur !! i = Some x -> l !! ((k + i) mod length l)%nat = Some x.
Proof.
  induction n as [|n IH]; intros cur k Hn Hc Hk; cbn [cycle_take]; [by split|]. assert (length l <> 0%nat) as H0 by (by destruct l).
  assert (forall a k' cur', l !! (k' mod length l)%nat = Some a -> cur' = drop (S k' mod length l) l \/ (S k' mod length l = 0)%nat /\ cur' = [] ->
    length (a :: cycle_take n l cur') = S n /\ forall i x, (a :: cycle_take n l cur') !! i = Some x -> l !! ((k' + i) mod length l)%nat = Some x) as Hstep.
  { intros a k' cur' Ha Hcur. assert (exists k'', cur' = drop k'' l /\ (k'' <= length l)%nat /\ (k'' mod length l = S k' mod length l)%nat) as (k'' & -> & Hk'' & Em).
    { pose proof (Nat.mod_upper_bound (S k') (length l) H0). destruct Hcur as [->|[E ->]].
      - exists (S k' mod length l)%nat. split; [done|]. split; [lia|]. by rewrite Nat.Div0.mod_mod.
      - exists (length l). rewrite drop_all, Nat.Div0.mod_same. done. }
    destruct (IH (drop k'' l) k'' Hn eq_refl Hk'') as [Hlen Hel]. split; [cbn; by rewrite Hlen|]. intros [|i] x; cbn [lookup list_lookup].
    - intros [= <-]. by rewrite Nat.add_0_r.
    - intros Hx%Hel. rewrite <-Hx. f_equal. rewrite <-(Nat.Div0.add_mod_idemp_l k'' i), Em, Nat.Div0.add_mod_idemp_l. f_equal. lia. }
  destruct cur as [|a cur].
  - assert (k = length l) as ->. { symmetry in Hc. apply (f_equal length) in Hc. rewrite length_drop in Hc. cbn in Hc. lia. }
    destruct l as [|a l]; [done|]. destruct (Hstep a 0%nat l) as [H1 H2].
    + by rewrite Nat.Div0.mod_0_l.
    + destruct l as [|b l]; [right; by rewrite Nat.mod_1_r|]. left. by rewrite Nat.mod_small by (cbn; lia).
    + split; [done|]. intros i x Hx%H2. rewrite <-Hx. f_equal. by rewrite <-(Nat.Div0.add_mod_idemp_l (length (a :: l)) i), Nat.Div0.mod_same.
  - assert (l !! k = Some a) as Ha. { rewrite <-(Nat.add_0_r k), <-lookup_drop, <-Hc. done. } pose proof (lookup_lt_Some _ _ _ Ha) as Hlt.
    apply Hstep; [by rewrite Nat.mod_small|]. assert (cur = drop (S k) l) as ->. { pose proof (drop_S _ _ _ Ha) as E. rewrite <-Hc in E. by injection E. }
    destruct (decide (S k = length l)) as [E|]; [right|left].
    + rewrite E, drop_all, Nat.Div0.mod_same. done.
    + by rewrite Nat.mod_small by lia.
Qed.

(** ** Lemmas: combining sets *)

Abbreviation others A ks := (existsb (fun k => is_other (A k)) ks).

Definition doubles (M : scores) : Prop := forall n b, M !! n = Some b -> u64_ok b.

Lemma contents_doubles now s A k : zsets_ok now s A -> doubles (contents (A k)).
Proof.
  intros Hok n b. destruct (zview_cases now s A k Hok) as [[_ ->]|[(e & t & m & _ & -> & Hz & _)|[_ Ho]]]; cbn [contents].
  - by rewrite lookup_empty.
  - by apply (zo_doubles _ _ Hz).
  - destruct (A k); cbn; by rewrite ?lookup_empty.
Qed.

Lemma collect_ok now s (A : space) (k : bytes) : zsets_ok now s A ->
  collect_sorted_set k now s = if is_other (A k) then Err WRONGTYPE else Ok (contents (A k)).
Proof. intros Hok. unfold collect_sorted_set. by erewrite reading_ok. Qed.

Section Combining.

Context (fadd fmul fmin fmax : Z -> Z -> Z) `{!Arithmetic fadd fmul fmin fmax}.
Context (order : scores -> list (bytes * Z)) (Horder : forall m, order m ≡ₚ map_to_list m).

Lemma order_names m : NoDup (order m).*1.
Proof. rewrite Horder. apply NoDup_fst_map_to_list. Qed.

Lemma order_map m : list_to_map (order m) = m.
Proof. rewrite (list_to_map_proper (order m) (map_to_list m)); [apply list_to_map_to_list|apply order_names|apply Horder]. Qed.

Lemma union_fold agg w l : NoDup l.*1 -> forall acc i, foldl (union_one fadd fmul fmin fmax agg w) acc l !! i =
  match (list_to_map l : scores) !! i with
  | Some sc => Some (match acc !! i with Some c => combine fadd fmin fmax agg c (fmul sc w) | None => fmul sc w end)
  | None => acc !! i
  end.
Proof.
  induction l as [|[n b] l IH]; intros Hn acc i; cbn [foldl]; [rewrite list_to_map_nil; by rewrite lookup_empty|]. cbn in Hn. apply NoDup_cons in Hn as [Hni Hn]. rewrite IH by done.
  rewrite list_to_map_cons. unfold union_one. cbn [fst snd]. destruct (decide (i = n)) as [->|Hne].
  - rewrite (not_elem_of_list_to_map_1 l n) by done. rewrite lookup_insert_eq. by destruct (acc !! n); rewrite lookup_insert_eq.
  - rewrite (lookup_insert_ne _ n i) by done. by destruct (acc !! n); rewrite lookup_insert_ne.
Qed.

Lemma union_loop_ok now s A ws agg ks : zsets_ok now s A -> forall i acc,
  union_loop fadd fmul fmin fmax order ks i ws agg now s acc =
  if others A ks then Err WRONGTYPE else Ok (union_from fadd fmul fmin fmax A ws agg ks i acc).
Proof.
  intros Hok. induction ks as [|k ks IH]; intros i acc; [done|]. cbn [union_loop existsb union_from]. rewrite (collect_ok now s A k Hok).
  destruct (is_other (A k)); [done|]. cbn [mbind result_bind orb]. rewrite IH. destruct (others A ks); [done|]. do 2 f_equal. apply map_eq. intros n.
  rewrite union_fold by apply order_names. rewrite order_map, lookup_union_with, lookup_fmap. by destruct (contents (A k) !! n), (acc !! n).
Qed.

Lemma inter_loop_ok now s A ws agg ks : zsets_ok now s A -> forall i acc,
  inter_loop fadd fmul fmin fmax ks i ws agg now s acc =
  if others A ks then Err WRONGTYPE else Ok (inter_from fadd fmul fmin fmax A ws agg ks i acc).
Proof.
  intros Hok. induction ks as [|k ks IH]; intros i acc; [done|]. cbn [inter_loop existsb inter_from]. rewrite (collect_ok now s A k Hok).
  destruct (is_other (A k)); [done|]. cbn [mbind result_bind orb]. rewrite IH. destruct (others A ks); [done|]. do 2 f_equal. apply map_eq. intros n.
  rewrite map_lookup_imap, lookup_intersection_with. by destruct (acc !! n), (contents (A k) !! n).
Qed.

Lemma diff_loop_ok now s A ks : zsets_ok now s A -> forall acc,
  diff_loop ks now s acc = if others A ks then Err WRONGTYPE else Ok (foldl (fun acc k => acc ∖ contents (A k)) acc ks).
Proof.
  intros Hok. induction ks as [|k ks IH]; intros acc; [done|]. cbn [diff_loop existsb foldl]. rewrite (collect_ok now s A k Hok).
  destruct (is_other (A k)); [done|]. cbn [mbind result_bind orb]. rewrite IH. destruct (others A ks); [done|]. do 2 f_equal. apply map_eq. intros n. apply option_eq. intros b.
  rewrite map_lookup_filter_Some, lookup_difference_Some. done.
Qed.

Lemma zunion_compute_ok now s A ws agg ks : zsets_ok now s A ->
  zunion_compute fadd fmul fmin fmax order ks ws agg now s = if others A ks then Err WRONGTYPE else Ok (union_of fadd fmul fmin fmax A ws agg ks).
Proof. intros Hok. by apply union_loop_ok. Qed.

Lemma zinter_compute_ok now s A ws agg ks : zsets_ok now s A ->
  zinter_compute fadd fmul fmin fmax ks ws agg now s = if others A ks then Err WRONGTYPE else Ok (inter_of fadd fmul fmin fmax A ws agg ks).
Proof.
  intros Hok. destruct ks as [|k ks]; [done|]. unfold zinter_compute. rewrite (collect_ok now s A k Hok). cbn [existsb]. destruct (is_other (A k)); [done|].
  cbn [mbind result_bind orb]. by apply inter_loop_ok.
Qed.

Lemma zdiff_compute_ok now s A ks : zsets_ok now s A ->
  zdiff_compute ks now s = if others A ks then Err WRONGTYPE else Ok (diff_of A ks).
Proof.
  intros Hok. destruct ks as [|k ks]; [done|]. unfold zdiff_compute. rewrite (collect_ok now s A k Hok). cbn [existsb]. destruct (is_other (A k)); [done|].
  cbn [mbind result_bind orb]. by apply diff_loop_ok.
Qed.

Lemma combine_ok agg a b : u64_ok a -> u64_ok b -> u64_ok (combine fadd fmin fmax agg a b).
Proof. intros Ha Hb. unfold combine. destruct (bytes_eqb agg (bs "MIN")); [|destruct (bytes_eqb agg (bs "MAX"))]; [by apply min_ok|by apply max_ok|by apply add_ok]. Qed.

Lemma weight_ok ws i : Forall u64_ok ws -> u64_ok (weight ws i).
Proof. intros H. unfold weight. destruct (ws !! i) as [w|] eqn:E; [|done]. cbn. by apply (Forall_lookup_1 _ _ _ _ H E). Qed.

Lemma weighted_doubles ws i M : Forall u64_ok ws -> doubles M -> doubles ((fun s => fmul s (weight ws i)) <$> M).
Proof. intros Hw HM n b. rewrite lookup_fmap_Some. intros (c & <- & Hc). apply mul_ok; [by eapply HM|by apply weight_ok]. Qed.

Lemma union_doubles (A : space) ws agg ks : (forall k, doubles (contents (A k))) -> Forall u64_ok ws -> forall i acc, doubles acc -> doubles (union_from fadd fmul fmin fmax A ws agg ks i acc).
Proof.
  intros HA Hw. induction ks as [|k ks IH]; intros i acc Hacc; [done|]. cbn [union_from]. apply IH. intros n b. rewrite lookup_union_with.
  pose proof (weighted_doubles ws i _ Hw (HA k) n) as Hk. specialize (Hacc n). destruct (acc !! n) as [a|], (_ !! n) as [c|]; cbn; intros [= <-]; [apply combine_ok|..]; naive_solver.
Qed.

Lemma inter_doubles (A : space) ws agg ks : (forall k, doubles (contents (A k))) -> Forall u64_ok ws -> forall i acc, doubles acc -> doubles (inter_from fadd fmul fmin fmax A ws agg ks i acc).
Proof.
  intros HA Hw. induction ks as [|k ks IH]; intros i acc Hacc; [done|]. cbn [inter_from]. apply IH. intros n b. rewrite lookup_intersection_with.
  specialize (Hacc n). pose proof (HA k n) as Hk. destruct (acc !! n) as [a|], (contents (A k) !! n) as [c|]; cbn; intros [= <-].
  apply combine_ok; [naive_solver|]. apply mul_ok; [naive_solver|by apply weight_ok].
Qed.

Lemma diff_doubles (A : space) ks : (forall k, doubles (contents (A k))) -> doubles (diff_of A ks).
Proof.
  intros HA. destruct ks as [|k ks]; cbn [diff_of]; [intros n b; by rewrite lookup_empty|]. generalize (HA k). generalize (contents (A k)) as acc.
  induction ks as [|k' ks IH]; intros acc Hacc; [done|]. cbn [foldl]. apply IH. intros n b. rewrite lookup_difference_Some. intros [? _]. by eapply Hacc.
Qed.

(** The listing of a combination. *)
#[local] Instance result_le_total : Total result_le.
Proof.
  intros a b. unfold result_le. destruct (f64_lt a.2 b.2) eqn:E1; [by left; left|]. destruct (f64_lt b.2 a.2) eqn:E2; [by right; left|].
  destruct (bytes_leb_total a.1 b.1); [left|right]; by right.
Qed.

Lemma result_le_zle a b : f64_is_nan a.2 = false -> f64_is_nan b.2 = false -> result_le a b -> zle (a.2, a.1) (b.2, b.1).
Proof.
  intros Ha Hb H. unfold zle. apply not_true_iff_false. rewrite zkey_lt. cbn [fst snd]. unfold result_le, f64_lt in H. rewrite Ha, Hb in H. cbn [negb andb] in H.
  intros [H'|(E & L & N)]; destruct H as [H|[H1 H2]]; zbool; try lia. by apply N, bytes_leb_antisym.
Qed.

Lemma sorted_result_listed M : listed M (sorted_zset_result order M).
Proof.
  assert (sorted_zset_result order M ≡ₚ map_to_list M) as Hp by (unfold sorted_zset_result; by rewrite merge_sort_Permutation).
  split; [done|]. intros Hnan. pose proof (Sorted_merge_sort result_le (order M)) as Hs. fold (sorted_zset_result order M) in Hs.
  set (l := sorted_zset_result order M) in *. set (swap := fun p : bytes * Z => (p.2, p.1)).
  assert (forall p, p ∈ l -> f64_is_nan p.2 = false) as Hn.
  { intros [n b] Hin. rewrite Hp in Hin. apply elem_of_map_to_list in Hin. by eapply Hnan. }
  assert (NoDup l.*1) as Hd by (rewrite Hp; apply NoDup_fst_map_to_list).
  assert (zsorted (swap <$> l)) as Hz.
  { apply Sorted_StronglySorted; [intros a b c; apply zkey_lt_trans|]. clear Hp. clearbody l. induction Hs as [|a l Hl IH Hh]; [constructor|].
    cbn in Hd. apply NoDup_cons in Hd as [Hni Hd]. cbn [fmap list_fmap]. constructor; [apply IH; [intros; apply Hn; by right|done]|].
    destruct Hh as [|b l Hab]; [constructor|]. constructor. assert (zle (swap a) (swap b)) as Hle by (apply result_le_zle; [apply Hn; by left|apply Hn; by right; left|done]).
    unfold zle in Hle. destruct (zkey_trichotomy (swap a) (swap b)) as [?|[[_ E]%zkey_eq|?]]; [done| |congruence]. exfalso. apply Hni. cbn in E. rewrite E. by left. }
  assert (swap <$> l = ranking M) as <-.
  { apply sorted_unique; [done|apply ranking_sorted|]. intros [b n]. rewrite elem_of_ranking, list_elem_of_fmap. cbn. split.
    - intros ([n' b'] & [= -> ->] & Hin). rewrite Hp in Hin. by apply elem_of_map_to_list in Hin.
    - intros H. exists (n, b). split; [done|]. rewrite Hp. by apply elem_of_map_to_list. }
  rewrite <-list_fmap_compose. symmetry. rewrite <-(list_fmap_id l) at 2. apply list_fmap_ext. by intros i [n b] _.
Qed.

(** Storing a combination. *)
Lemma build_tree l : forall t m, zset_ok t m -> NoDup l.*1 -> (forall n, n ∈ l.*1 -> m !! n = None) -> Forall (fun p => u64_ok p.2) l ->
  zset_ok (foldl (fun t ms => tree_insert (ms.2, ms.1) t) t l) (foldl (fun m ms => <[ms.1 := ms.2]> m) m l).
Proof.
  induction l as [|[n b] l IH]; intros t m Hz Hn Hm Hu; [done|]. cbn in Hn. apply NoDup_cons in Hn as [Hni Hn]. apply Forall_cons in Hu as [Hb Hu]. cbn [foldl fst snd].
  apply IH; [apply zset_with; [done|apply Hm; by left|done]|done| |done]. intros n' Hn'. rewrite lookup_insert_ne by (by intros ->). apply Hm. by right.
Qed.

Lemma fold_insert (l : list (bytes * Z)) : foldl (fun (m : scores) ms => <[ms.1 := ms.2]> m) ∅ l = list_to_map (reverse l).
Proof.
  induction l as [|x l IH] using rev_ind; [done|]. rewrite foldl_app, reverse_app. cbn. by rewrite IH.
Qed.

Lemma fold_order M : foldl (fun (m : scores) ms => <[ms.1 := ms.2]> m) ∅ (order M) = M.
Proof.
  rewrite fold_insert. rewrite (list_to_map_proper (reverse (order M)) (order M)); [apply order_map| |by rewrite reverse_Permutation].
  rewrite reverse_Permutation. apply order_names.
Qed.

End Combining.

Lemma zdel_ok clock now dst s A : zsets_ok now s A -> zsets_ok now (del clock [dst] s).2 (upd dst ZAbsent A).
Proof.
  intros Hok. unfold del. cbn [foldl]. unfold del_one. apply (zok_bump now dst) in Hok.
  set (s1 := bump dst s) in *. pose proof Hok as [Hh Hs Hw]. rewrite hot_disk_contains by apply Hh. destruct (find s1 dst) as [e|] eqn:Ef.
  - assert (zsets_ok now (remove_accounted dst e s1) (upd dst ZAbsent A)) as H.
    { split; [by apply hot_remove|..].
      - intros k. unfold upd. rewrite find_remove_accounted by apply Hh. by destruct (decide (k = dst)).
      - intros k e'. rewrite find_remove_accounted by apply Hh. destruct (decide (k = dst)); [done|]. apply Hw. }
    destruct (vector_dims (value e)) as [dims|]; cbn [app foldl snd fst]; [|done].
    eapply zok_same; [done|apply hot_remove_vector, H|]. intros k. by rewrite find_remove_vector.
  - cbn [foldl snd]. split; [done| |done]. intros k. unfold upd. destruct (decide (k = dst)) as [->|]; [|done]. by rewrite Ef.
Qed.

Lemma write_zset_ok clock fmt_score order now dst M appended s A : (forall m, order m ≡ₚ map_to_list m) -> zsets_ok now s A -> doubles M ->
  let '(r, j, s') := write_computed_zset clock fmt_score order dst M appended now s in
  exists A', stored fmt_score dst M appended A (zreply_of RInt r) j A' /\ zsets_ok now s' A'.
Proof.
  intros Ho Hok Hd. unfold write_computed_zset, stored. destruct appended; cbn [negb]; [|by exists A].
  pose proof (zdel_ok clock now dst s A Hok) as Hok1. set (s1 := (del clock [dst] s).2) in *.
  assert (order M = [] <-> M = ∅) as Hnil.
  { rewrite <-map_to_list_empty_iff. pose proof (Ho M) as H. split; intros E; rewrite E in H; [by apply Permutation_nil_l in H|by apply Permutation_nil_r in H]. }
  destruct (decide (M = ∅)) as [He|He].
  - rewrite bool_decide_eq_true_2 by (by apply Hnil). eexists. split; [|done]. split; [done|]. split; [done|]. by exists (order M).
  - rewrite bool_decide_eq_false_2 by (by rewrite Hnil). apply (zok_bump now dst) in Hok1. set (s2 := bump dst s1) in *.
    assert (zset_ok (foldl (fun t ms => tree_insert (ms.2, ms.1) t) [] (order M)) M) as Hz.
    { rewrite <-(fold_order order Ho M) at 2. apply build_tree; [apply zset_ok_nil|by apply order_names|intros; apply lookup_empty|].
      apply Forall_forall. intros [n b] Hin. rewrite Ho in Hin. apply elem_of_map_to_list in Hin. by eapply Hd. }
    rewrite (fold_order order Ho M). exists (upd dst (ZSet M None) (upd dst ZAbsent A)). split.
    + split; [done|]. split; [|by exists (order M)]. intros k. unfold upd. by destruct (decide (k = dst)).
    + apply zok_charge. pose proof (zok_put now dst (mkEntry (VSortedSet [] ∅) None (lru_clock s2)) _ M s2 _ Hok1 eq_refl Hz) as Hp. cbn [expires_at] in Hp.
      unfold put_zset in Hp. cbn [expires_at e_lru_clock] in Hp. destruct (find s2 dst); [done|]. eapply zok_same; [exact Hp|apply Hp|done].
Qed.

(** ** Lemmas: reads by score *)

Lemma skip_take_nil {A : Type} off cnt : skip_take off cnt (@nil A) = [].
Proof. unfold skip_take. by rewrite drop_nil, take_nil. Qed.

Lemma reversed_if_nil {A : Type} rv : reversed_if rv (@nil A) = [].
Proof. by destruct rv. Qed.

Lemma zrangebyscore_ok hc clock now k a b ax bx rv off cnt s A : zsets_ok now s A -> u64_ok a -> u64_ok b ->
  zrangebyscore hc clock k a b ax bx rv off cnt now s =
  (Returned (if f64_is_nan a || f64_is_nan b then Err NOT_A_FLOAT
             else if is_other (A k) then Err WRONGTYPE
             else Ok (pair_of <$> skip_take (default 0 off) (default usize_max cnt) (reversed_if rv (List.filter (in_interval a b ax bx) (ranking (contents (A k))))))), s).
Proof.
  intros Hok Ha Hb. unfold zrangebyscore. destruct (f64_is_nan a) eqn:Na; [done|]. destruct (f64_is_nan b) eqn:Nb; [done|]. cbn [orb].
  rewrite hot_promote by apply Hok. f_equal.
  destruct (zview_cases now s A k Hok) as [[-> ->]|[(e & t & m & -> & -> & Hz & _)|[-> ->]]]; cbn [is_other contents]; [|destruct (_ || _) eqn:Ee|done].
  - rewrite ranking_empty. cbn [List.filter]. by rewrite reversed_if_nil, skip_take_nil.
  - assert (List.filter (in_interval a b ax bx) (ranking m) = []) as ->; [|by rewrite reversed_if_nil, skip_take_nil].
    induction (ranking m) as [|x l IH]; [done|]. cbn [List.filter]. by rewrite interval_empty.
  - apply orb_false_iff in Ee as [E1 _]. rewrite (range_interval t m a b false false) by (done || by rewrite andb_false_r). cbn [mbind outcome_bind].
    rewrite <-(tree_is_ranking t m Hz). do 4 f_equal. change (fun x : zkey => above a ax x.1 && below b bx x.1) with (in_interval a b ax bx).
    destruct rv; cbn [reversed_if]; rewrite ?filter_reverse, filter_filter_wider; by eauto using interval_wider.
Qed.

Lemma zcount_ok now k a b ax bx s A : zsets_ok now s A -> u64_ok a -> u64_ok b ->
  zcount k a b ax bx now s =
  Returned (if f64_is_nan a || f64_is_nan b then Err NOT_A_FLOAT
            else if f64_lt b a || (f64_eq a b && (ax || bx)) then Ok 0
            else if is_other (A k) then Err WRONGTYPE
            else Ok (if (a =? NEG_INFINITY) && (b =? INFINITY) && negb ax && negb bx then Z.of_nat (size (contents (A k)))
                     else zlen (List.filter (in_interval a b ax bx) (ranking (contents (A k)))))).
Proof.
  intros Hok Ha Hb. unfold zcount. destruct (f64_is_nan a) eqn:Na; [done|]. destruct (f64_is_nan b) eqn:Nb; [done|]. cbn [orb].
  destruct (f64_lt b a) eqn:E1; [done|]. cbn [orb]. destruct (f64_eq a b && (ax || bx)) eqn:E2; [done|].
  destruct (zview_cases now s A k Hok) as [[-> ->]|[(e & t & m & -> & -> & Hz & _)|[-> ->]]]; cbn [is_other contents]; [| |done].
  - rewrite ranking_empty. by destruct (_ && negb bx).
  - destruct (_ && negb bx); [done|]. rewrite (range_interval t m a b ax bx) by done. cbn [mbind outcome_bind]. by rewrite <-(tree_is_ranking t m Hz).
Qed.

Lemma zvisit_between_ok now k a b s A : zsets_ok now s A -> u64_ok a -> u64_ok b ->
  zvisit_scores_inclusive k a b now s =
  Returned (if f64_is_nan a || f64_is_nan b then Err NOT_A_FLOAT
            else if is_other (A k) then Err WRONGTYPE
            else Ok (pair_of <$> List.filter (in_interval a b false false) (ranking (contents (A k))))).
Proof.
  intros Hok Ha Hb. unfold zvisit_scores_inclusive. destruct (f64_is_nan a) eqn:Na; [done|]. destruct (f64_is_nan b) eqn:Nb; [done|]. cbn [orb].
  destruct (zview_cases now s A k Hok) as [[-> ->]|[(e & t & m & -> & -> & Hz & _)|[-> ->]]]; cbn [is_other contents]; [|destruct (f64_lt b a) eqn:Ee|done].
  - rewrite ranking_empty. done.
  - assert (List.filter (in_interval a b false false) (ranking m) = []) as ->; [|done]. induction (ranking m) as [|x l IH]; [done|]. cbn [List.filter].
    by rewrite interval_empty by (done || by rewrite Ee).
  - rewrite (range_interval t m a b false false) by (done || by rewrite andb_false_r). cbn [mbind outcome_bind]. by rewrite <-(tree_is_ranking t m Hz).
Qed.

Lemma zrand_ok now k n s A : zsets_ok now s A ->
  if is_other (A k) then zrandmember k n now s = Err WRONGTYPE
  else exists l, zrandmember k n now s = Ok l /\
    if n >=? 0 then l = skip_take 0 n (pair_of <$> ranking (contents (A k)))
    else zlen l = (if decide (contents (A k) = ∅) then 0 else - n) /\
         forall i x, l !! i = Some x -> (pair_of <$> ranking (contents (A k))) !! (i mod length (ranking (contents (A k))))%nat = Some x.
Proof.
  intros Hok. unfold zrandmember. erewrite reading_ok by (done || by rewrite orb_true_r). destruct (is_other (A k)); [done|]. eexists. split; [done|]. cbv zeta.
  set (M := contents (A k)). assert (ranking M = [] <-> M = ∅) as Hnil.
  { rewrite <-length_zero_iff_nil, length_ranking. apply map_size_empty_iff. }
  destruct (Z.eqb_spec n 0) as [->|Hn]; cbn [orb]; [unfold skip_take; rewrite Z.min_l by apply zlen_nonneg; done|]. case_bool_decide as Ht.
  - apply Hnil in Ht as Em. rewrite decide_True by done. rewrite Ht. cbn [fmap list_fmap]. destruct (n >=? 0); [by rewrite skip_take_nil|]. split; [done|]. intros i x Hx. by rewrite lookup_nil in Hx.
  - rewrite decide_False by (by rewrite <-Hnil). rewrite Z.gtb_ltb, Z.geb_leb. destruct (Z.ltb_spec 0 n), (Z.leb_spec 0 n); try lia; [by rewrite Z.abs_eq|].
    assert ((pair_of <$> ranking M) <> []) as Hne by (by destruct (ranking M)).
    destruct (cycle_take_spec (pair_of <$> ranking M) (Z.to_nat (Z.abs n)) [] (length (pair_of <$> ranking M)) Hne) as [Hl He]; [by rewrite drop_all|done|].
    split; [unfold zlen; rewrite Hl; lia|]. intros i x Hx%He. rewrite <-Hx, length_fmap. f_equal. by rewrite <-Nat.Div0.add_mod_idemp_l, Nat.Div0.mod_same.
Qed.

Section Refinement.

Context (hll_count : bytes -> Z) (clock : Z).
Context (fadd fmul fmin fmax : Z -> Z -> Z) `{!Arithmetic fadd fmul fmin fmax} (fmt_score : Z -> bytes).
Context (order : scores -> list (bytes * Z)) (Horder : forall m, order m ≡ₚ map_to_list m).

Abbreviation run := (zexec hll_count clock fadd fmul fmin fmax fmt_score order).
Abbreviation allows := (zspec fadd fmul fmin fmax fmt_score).

(** A command does what its contract says. *)
Definition correct (now : Z) (c : zcmd) (s : Store) (A : space) : Prop :=
  let '(o, j, s') := run now c s in exists r A', o = Returned r /\ allows c A r j A' /\ zsets_ok now s' A'.

(** A command that only reads answers and leaves the store. *)
Lemma read_only now c s A r : zsets_ok now s A -> run now c s = (Returned r, [], s) -> allows c A r [] A -> correct now c s A.
Proof using Type. intros Hok E H. unfold correct. rewrite E. by exists r, A. Qed.

(** A command that reads one key. *)
Lemma read_key {R : Type} (reply : R -> zreply) (now : Z) (c : zcmd) (s : Store) (A : space) (k : bytes) (v : R) : zsets_ok now s A ->
  run now c s = (Returned (zreply_of reply (if is_other (A k) then Err WRONGTYPE else Ok v)), [], s) ->
  (is_other (A k) = true -> allows c A (RErr WRONGTYPE) [] A) -> (is_other (A k) = false -> allows c A (reply v) [] A) -> correct now c s A.
Proof using Type. intros Hok E H1 H2. eapply read_only; [done|exact E|]. destruct (is_other (A k)); [by apply H1|by apply H2]. Qed.

Ltac by_key := intros Ho; unfold zspec; rewrite Ho; done.

Lemma writes_correct now s A k : zsets_ok now s A ->
  (forall ms f, Forall (fun p => u64_ok p.2) ms -> correct now (ZAdd k ms f) s A) /\ (forall m d, u64_ok d -> correct now (ZIncrBy k m d) s A) /\
  (forall ms, correct now (ZRem k ms) s A) /\ (forall g n, correct now (ZPop g k n) s A).
Proof using Arithmetic0.
  intros Hok. unfold correct. split_and!.
  - intros ms f Hc. pose proof (zadd_ok hll_count clock now k ms f s A Hok Hc) as H. cbn. destruct (zadd hll_count clock k ms f now s) as [r s']. cbn.
    destruct (xx f && is_absent (A k)); [destruct H as [-> H]; by exists (RInt 0), A|]. destruct (is_other (A k)); [destruct H as [-> H]; by eexists _, A|].
    destruct (foldl (spec_add f) _ ms) as [[a c] M]. destruct H as [-> H]. by eexists _, _.
  - intros m d Hc. pose proof (zincrby_ok fadd fmul fmin fmax now k m d s A Hok Hc) as H. cbn. destruct (zincrby fadd k m d now s) as [r s']. cbv zeta in H. cbn.
    destruct (is_other (A k)); destruct H as [-> H]; by eexists _, _.
  - intros ms. pose proof (zrem_ok hll_count clock now k ms s A Hok) as H. cbn. destruct (zrem hll_count clock k ms now s) as [r s']. cbn.
    destruct (is_other (A k)); [destruct H as [-> H]; by eexists _, A|]. destruct (is_absent (A k)); destruct H as [-> H]; by eexists _, _.
  - intros g n. pose proof (zpop_ok now g k n s A Hok) as H. cbn -[skip_take zpopmax zpopmin].
    replace ((if g then zpopmax else zpopmin) k n now s) with (zpop g k n now s) by (by destruct g). destruct (zpop g k n now s) as [r s']. cbv zeta in H. cbn [fst snd].
    destruct (is_other (A k)); [destruct H as [-> H]; by eexists _, A|]. destruct (is_absent (A k)); destruct H as [-> H]; by eexists _, _.
Qed.

Lemma lookups_correct now s A k : zsets_ok now s A ->
  (forall m, correct now (ZScore k m) s A) /\ (forall ms, correct now (ZMScore k ms) s A) /\ (forall m, correct now (ZScoreState k m) s A) /\ correct now (ZCard k) s A.
Proof using Type.
  intros Hok. split_and!.
  - intros m. apply (read_key RMaybe now _ s A k (contents (A k) !! key_str m) Hok); [|by_key..]. cbn [zexec]. unfold zscore. erewrite zpromote_id by done.
    unfold zscore_from_shard. by erewrite reading_ok by (done || by rewrite lookup_empty).
  - intros ms. apply (read_key RMaybes now _ s A k ((fun m => contents (A k) !! key_str m) <$> ms) Hok); [|by_key..]. cbn [zexec]. unfold zmscore, zscores.
    erewrite reading_ok; [reflexivity|done|]. apply list_fmap_ext. intros. apply lookup_empty.
  - intros m. apply (read_key (fun p => RState p.1 p.2) now _ s A k (contents (A k) !! key_str m, negb (is_absent (A k))) Hok); [|by_key..]. cbn [zexec].
    unfold zscore_with_key_state, reading. destruct (zview_cases now s A k Hok) as [[-> ->]|[(e & t & m' & -> & -> & _ & _)|[-> ->]]]; [|done|done].
    cbn. by rewrite lookup_empty.
  - apply (read_key RInt now _ s A k (Z.of_nat (size (contents (A k)))) Hok); [|by_key..]. cbn [zexec]. unfold zcard. erewrite zpromote_id by done.
    by erewrite reading_ok.
Qed.

Lemma ranges_correct now s A k : zsets_ok now s A -> fits A ->
  (forall g n, correct now (ZPeek g k n) s A) /\ (forall m rv, correct now (ZRank k m rv) s A) /\ (forall a b rv, i64_ok a -> i64_ok b -> correct now (ZRange k a b rv) s A) /\
  correct now (ZVisit k) s A /\ (forall n, correct now (ZRand k n) s A) /\ (forall a b off cnt rv, correct now (ZRangeByLex k a b off cnt rv) s A).
Proof using Type.
  intros Hok Hfit. split_and!.
  - intros g n. apply (read_key RPairs now _ s A k (pair_of <$> skip_take 0 n (reversed_if g (ranking (contents (A k))))) Hok); [|by_key..]. cbn [zexec]. unfold preview_zpop.
    erewrite reading_ok; [by destruct g|done|]. destruct g; cbn [negb]; change (reverse (@nil zkey)) with (@nil zkey); by rewrite skip_take_nil.
  - intros m rv. pose proof (zrank_ok now k m rv s A Hok Hfit) as H. destruct (is_other (A k)) eqn:Ho.
    + eapply read_only; [done|cbn [zexec]; by rewrite H|]. unfold zspec. by rewrite Ho.
    + destruct (contents (A k) !! key_str m) as [score|] eqn:E.
      * destruct H as (i & Hi & H). eapply read_only; [done|cbn [zexec]; by rewrite H|]. unfold zspec. rewrite Ho, E. by exists i.
      * eapply read_only; [done|cbn [zexec]; by rewrite H|]. unfold zspec. by rewrite Ho, E.
  - intros a b rv Ha Hb. apply (read_key RPairs now _ s A k (pair_of <$> between a b (reversed_if rv (ranking (contents (A k))))) Hok); [|by_key..]. cbn [zexec].
    unfold zrange. erewrite zpromote_id by done. cbn [fst snd]. erewrite reading_ok; [|done|].
    + destruct (is_other (A k)); [done|]. do 4 f_equal. set (L := ranking (contents (A k))). replace (zlen L) with (zlen (reversed_if rv L)) by (unfold zlen; destruct rv; cbn; by rewrite ?length_reverse).
      assert (zlen (reversed_if rv L) <= i64_max) as Hl. { replace (zlen (reversed_if rv L)) with (zlen L) by (unfold zlen; destruct rv; cbn; by rewrite ?length_reverse). unfold L. rewrite zlen_ranking. apply Hfit. }
      rewrite <-(zrange_between _ a b Ha Hb Hl). change (if rv then reverse L else L) with (reversed_if rv L). cbv zeta. by destruct (_ >=? _).
    + change (if rv then reverse [] else []) with (reversed_if rv (@nil zkey)). cbv zeta. rewrite reversed_if_nil, skip_take_nil. by destruct (_ >=? _).
  - apply (read_key RPairs now _ s A k (pair_of <$> ranking (contents (A k))) Hok); [|by_key..]. cbn [zexec]. unfold zvisit_all_scores. by erewrite reading_ok.
  - intros n. pose proof (zrand_ok now k n s A Hok) as H. destruct (is_other (A k)) eqn:Ho.
    + eapply read_only; [done|cbn [zexec]; by rewrite H|]. unfold zspec. by rewrite Ho.
    + destruct H as (l & E & H). eapply read_only; [done|cbn [zexec]; by rewrite E|]. unfold zspec. rewrite Ho. by exists l.
  - intros a b off cnt rv. set (l := List.filter (fun m => lex_above a m && lex_below b m) (snd <$> reversed_if rv (ranking (contents (A k))))).
    apply (read_key RNames now _ s A k (skip_take (default 0 off) (default (zlen l) cnt) l) Hok); [|by_key..]. cbn [zexec]. unfold zrangebylex. erewrite zpromote_id by done.
    cbn [fst snd]. erewrite reading_ok; [reflexivity|done|]. change (if rv then reverse [] else []) with (reversed_if rv (@nil zkey)). rewrite reversed_if_nil. cbn. apply skip_take_nil.
Qed.

Lemma intervals_correct now s A k a b : zsets_ok now s A -> u64_ok a -> u64_ok b ->
  (forall ax bx rv off cnt, correct now (ZRangeByScore k a b ax bx rv off cnt) s A) /\ (forall ax bx, correct now (ZCount k a b ax bx) s A) /\ correct now (ZVisitBetween k a b) s A.
Proof using Type.
  intros Hok Ha Hb. split_and!.
  - intros ax bx rv off cnt. eapply read_only; [done|cbn [zexec]; by erewrite zrangebyscore_ok|]. unfold zspec. destruct (_ || _); [done|]. by destruct (is_other (A k)).
  - intros ax bx. eapply read_only; [done|cbn [zexec]; by erewrite zcount_ok|]. unfold zspec. destruct (f64_is_nan a || _); [done|]. destruct (f64_lt b a || _); [done|]. by destruct (is_other (A k)).
  - eapply read_only; [done|cbn [zexec]; by erewrite zvisit_between_ok|]. unfold zspec. destruct (_ || _); [done|]. by destruct (is_other (A k)).
Qed.

Lemma listings_correct now s A : zsets_ok now s A ->
  (forall ks ws agg, correct now (ZUnion ks ws agg) s A) /\ (forall ks ws agg, correct now (ZInter ks ws agg) s A) /\
  (forall ks, correct now (ZDiff ks) s A) /\ (forall ks limit, correct now (ZInterCard ks limit) s A).
Proof using Horder.
  intros Hok. split_and!.
  - intros ks ws agg. eapply read_only; [done|cbn [zexec]; unfold zunion; by erewrite zunion_compute_ok by done|]. unfold zspec. destruct (others A ks); [done|].
    eexists. split; [by apply sorted_result_listed|done].
  - intros ks ws agg. eapply read_only; [done|cbn [zexec]; unfold zinter; by erewrite zinter_compute_ok by done|]. unfold zspec. destruct (others A ks); [done|].
    eexists. split; [by apply sorted_result_listed|done].
  - intros ks. eapply read_only; [done|cbn [zexec]; unfold zdiff; by erewrite zdiff_compute_ok by done|]. unfold zspec. destruct (others A ks); [done|].
    eexists. split; [by apply sorted_result_listed|done].
  - intros ks limit. eapply read_only; [done|cbn [zexec]; unfold zintercard; by erewrite zinter_compute_ok by done|]. unfold zspec. by destruct (others A ks).
Qed.

(** A combination is stored. *)
Lemma stores_ok (now : Z) (dst : bytes) (ks : list bytes) (M : scores) (compute : result scores) (ap : bool) (s : Store) (A : space) (c : zcmd) :
  zsets_ok now s A -> doubles M -> compute = (if others A ks then Err WRONGTYPE else Ok M) ->
  run now c s = (let r := store_result clock fmt_score order dst compute ap now s in (Returned (zreply_of RInt r.1.1), r.1.2, r.2)) ->
  (forall r j A', (if others A ks then r = RErr WRONGTYPE /\ j = [] /\ same A' A else stored fmt_score dst M ap A r j A') -> allows c A r j A') -> correct now c s A.
Proof using Horder.
  intros Hok Hd Hcomp Hrun H. unfold correct. rewrite Hrun. subst compute. destruct (others A ks) eqn:Eo; cbn [store_result].
  - cbn. eexists _, A. split; [done|]. split; [|done]. by apply H.
  - pose proof (write_zset_ok clock fmt_score order now dst M ap s A Horder Hok Hd) as Hw. destruct (write_computed_zset _ _ _ _ _ _ _ _) as [[r j] s'].
    destruct Hw as (A' & Hst & Hok'). cbn. eexists _, A'. split; [done|]. split; [by apply H|done].
Qed.

Lemma stored_correct now s A dst ap : zsets_ok now s A ->
  (forall ks ws agg, Forall u64_ok ws -> correct now (ZUnionStore dst ks ws agg ap) s A) /\ (forall ks ws agg, Forall u64_ok ws -> correct now (ZInterStore dst ks ws agg ap) s A) /\
  (forall ks, correct now (ZDiffStore dst ks ap) s A) /\ (forall pairs, Forall (fun p => u64_ok p.2) pairs -> correct now (ZRangeStore dst pairs ap) s A).
Proof using Horder Arithmetic0.
  intros Hok. assert (forall k, doubles (contents (A k))) as HA by (intros k; by eapply contents_doubles).
  assert (doubles ∅) as H0 by (intros n b; by rewrite lookup_empty). split_and!.
  - intros ks ws agg Hw. eapply (stores_ok now dst ks _ _ ap); [done| |by apply zunion_compute_ok|reflexivity|]; [by apply (union_doubles fadd fmul fmin fmax)|].
    intros r j A' H. unfold zspec. by destruct (others A ks).
  - intros ks ws agg Hw. eapply (stores_ok now dst ks _ _ ap); [done| |by apply zinter_compute_ok|reflexivity|].
    + destruct ks as [|k ks]; [done|]. apply (inter_doubles fadd fmul fmin fmax); [done|done|]. by apply (weighted_doubles fadd fmul fmin fmax).
    + intros r j A' H. unfold zspec. by destruct (others A ks).
  - intros ks. eapply (stores_ok now dst ks _ _ ap); [done| |by apply zdiff_compute_ok|reflexivity|]; [by apply diff_doubles|].
    intros r j A' H. unfold zspec. by destruct (others A ks).
  - intros pairs Hp. eapply (stores_ok now dst [] (list_to_map (reverse pairs)) (Ok (list_to_map (reverse pairs))) ap); [done| |done| |].
    + intros n b Hn. apply elem_of_list_to_map_2 in Hn. rewrite Forall_forall in Hp. apply (Hp (n, b)). by apply elem_of_reverse.
    + cbn [zexec store_result]. unfold zrangestore. by rewrite fold_insert.
    + done.
Qed.


End Refinement.

(** ** The hot path *)

Definition NO_FLAGS : flags := mkFlags false false false false false.

(** The route for one member without options does what the general one does, which also adds nothing to
    the memory counters when the member is not new. *)
Lemma zadd_single_agrees key member score now s :
  let '(r, s1) := zadd_single_default_on_shard key member score now s in
  zadd_on_shard key [(member, score)] NO_FLAGS now s = (r, match r with Ok n => if n =? 0 then charge key 0 s1 else s1 | Err _ => s1 end).
Proof.
  unfold zadd_single_default_on_shard, zadd_on_shard. cbn [xx NO_FLAGS andb].
  assert (forall X : result Z * Store, match find s key with Some _ => X | None => X end = X) as HX by (intros X; by destruct (find s key)). rewrite HX. clear HX.
  destruct (open_zset key now s) as [e s1]. destruct (value e) as [| | | | |t m| | | |]; try done. cbn [foldl]. unfold add_one. cbn [nx xx NO_FLAGS].
  destruct (m !! key_str member) as [prev|]; [|done]. unfold updates. cbn [gt lt NO_FLAGS andb]. by destruct (negb (f64_eq score prev)).
Qed.

(** ** A concrete store *)

Definition wrapping (a b : Z) : Z := as_u64 (a + b).

#[export] Instance wrapping_arithmetic : Arithmetic wrapping wrapping wrapping wrapping.
Proof. by split; intros; apply as_u64_range. Qed.

Lemma new_zsets_ok now : zsets_ok now (new 4) (fun _ => ZAbsent).
Proof.
  assert (forall k, find (new 4) k = None) as H.
  { intros k. unfold find, shard_at, new. cbn [shards]. destruct (replicate 4 empty_shard !! _) as [sh|] eqn:E; [|done]. apply lookup_replicate in E as [-> _]. done. }
  split; [split; [unfold nonempty; cbn; lia|done]|..]; intros k; [by rewrite H|]. intros e. by rewrite H.
Qed.

Abbreviation demo := (zexec (fun _ => 0) 7 wrapping wrapping wrapping wrapping fmt_u map_to_list 7).

(** Scores 1, -1 and 2, the last of them a second time. *)
Definition three : zcmd := ZAdd (bs "k") [(bs "a", ONE); (bs "b", 13830554455654793216); (bs "c", 4611686018427387904); (bs "c", 4611686018427387904)] NO_FLAGS.


(** A score that is not a number is counted between the infinities, and not listed. *)
Example nan_counted_not_listed :
  let s1 := (demo (ZAdd (bs "k") [(bs "a", NAN)] NO_FLAGS) (new 4)).2 in
  (demo (ZCount (bs "k") NEG_INFINITY INFINITY false false) s1).1.1 = Returned (RInt 1) /\
  (demo (ZRangeByScore (bs "k") NEG_INFINITY INFINITY false false false None None) s1).1.1 = Returned (RPairs []).
Proof. split; vm_compute; reflexivity. Qed.

(** A member that ZINCRBY adds is not counted as memory, and ZREM of it gives memory back. *)
Example incremented_member_not_charged :
  let s1 := (demo (ZIncrBy (bs "k") (bs "a") ONE) (new 4)).2 in
  used_memory s1 = 0 /\
  let s2 := (demo (ZAdd (bs "k") [(bs "b", ONE)] NO_FLAGS) s1).2 in
  used_memory s2 = 49 /\ used_memory (demo (ZRem (bs "k") [bs "a"]) s2).2 = 0.
Proof. cbv zeta. split_and!; vm_compute; reflexivity. Qed.

End SortedSets.
