(* ===== verification/TableBatch.v ===== *)
(** * Publication of table mutations ([src/src/store/mod.rs], lines 907-1416: [TableEntryKind],
      [TableBatchOp] and [AtomicTableBatch])

    A change of a table touches several keys: the row, its indexes, its counters. It is collected as a
    batch of operations. Every operation that is added first checks that its key is a table key and
    holds a value of the kind the operation needs; after the journal record is durable the batch is
    applied to the shards of all its keys at once. The application has no way to fail, so each of its
    [unreachable!] arms is a promise about the checks. *)

From S2P Require Import Prelude.
From S2P Require Import Values.
From S2P Require Import Store.
From S2P Require Import Strings.
From S2P Require Import SortedSets.
Local Open Scope Z_scope.

Module TableBatch.
Import Values.Values Store.Store.
Import Strings.Strings(hot).
Import SortedSets.SortedSets(tree_remove, zset_ok, u64_ok, zset_ok_nil, zset_with, zset_update, zset_without).

(** ** Kinds of entries *)

Inductive TableEntryKind := KString | KHash | KSet | KSortedSet | KVector.

#[export] Instance TableEntryKind_eq_dec : EqDecision TableEntryKind.
Proof. solve_decision. Defined.

Definition kind_empty (k : TableEntryKind) : StoreValue :=
  match k with
  | KString => VStr []
  | KHash => VHash hash_empty
  | KSet => VSet set_new
  | KSortedSet => VSortedSet [] ∅
  | KVector => VVector (mkVector 0 [] None false)
  end.

Definition kind_matches (k : TableEntryKind) (v : StoreValue) : bool :=
  match k, v with
  | KString, (VStr _ | VStrBuf _) | KHash, VHash _ | KSet, VSet _ | KSortedSet, VSortedSet _ _ | KVector, VVector _ => true
  | _, _ => false
  end.

(** ** Batches *)

Inductive TableBatchOp :=
| SetString (key value : bytes)
| HashSet (key : bytes) (pairs : list (bytes * bytes))
| HashDelete (key : bytes) (fields_to_delete : list bytes)
| HashDeleteIfValue (key field expected : bytes)
| SetAdd (key member : bytes)
| SetRemove (key member : bytes)
| SortedSetAdd (key member : bytes) (score : Z)
| SortedSetRemove (key member : bytes)
| VectorSet (key : bytes) (data : list Z) (metadata : option bytes) (encrypted : bool)
| Delete (key : bytes).

Definition op_key (op : TableBatchOp) : bytes :=
  match op with
  | SetString k _ | HashSet k _ | HashDelete k _ | HashDeleteIfValue k _ _ | SetAdd k _ | SetRemove k _
  | SortedSetAdd k _ _ | SortedSetRemove k _ | VectorSet k _ _ _ | Delete k => k
  end.

Record AtomicTableBatch := mkBatch { kinds : gmap bytes TableEntryKind; operations : list TableBatchOp }.

Definition batch_new : AtomicTableBatch := mkBatch ∅ [].

Section Staging.

Context (hll_count : bytes -> Z) (clock now : Z).

Definition staging (A : Type) : Type := result A * AtomicTableBatch * Store.

Definition require_kind (key : bytes) (kind : TableEntryKind) (b : AtomicTableBatch) (s : Store) : staging unit :=
  if negb (is_table_storage_key key) then (Err "ERR table mutation attempted to stage a non-table key", b, s)
  else match kinds b !! key with
       | Some existing =>
           if bool_decide (existing = kind) then (Ok tt, b, s) else (Err "ERR table storage invariant: key requires two kinds of state", b, s)
       | None =>
           match try_promote hll_count clock key now s with
           | (Err e, s) => (Err e, b, s)
           | (Ok _, s) =>
               if match find s key with
                  | Some e => negb (is_expired_at now e) && negb (kind_matches kind (value e))
                  | None => false
                  end
               then (Err "ERR table storage invariant: unexpected kind", b, s)
               else (Ok tt, mkBatch (<[key := kind]> (kinds b)) (operations b), s)
           end
       end.

(** Every operation is added after the check of its key. *)
Definition push (kind : TableEntryKind) (op : TableBatchOp) (b : AtomicTableBatch) (s : Store) : staging unit :=
  match require_kind (op_key op) kind b s with
  | (Ok _, b, s) => (Ok tt, mkBatch (kinds b) (operations b ++ [op]), s)
  | r => r
  end.

Definition set_string (key value : bytes) := push KString (SetString key value).
Definition hash_set (key : bytes) (pairs : list (bytes * bytes)) := push KHash (HashSet key pairs).
Definition hash_delete (key : bytes) (fields_to_delete : list bytes) := push KHash (HashDelete key fields_to_delete).
Definition hash_delete_if_value (key field expected : bytes) := push KHash (HashDeleteIfValue key field expected).
Definition set_add (key member : bytes) := push KSet (SetAdd key member).
Definition set_remove_member (key member : bytes) := push KSet (SetRemove key member).
Definition sorted_set_add (key member : bytes) (score : Z) := push KSortedSet (SortedSetAdd key member score).
Definition sorted_set_remove (key member : bytes) := push KSortedSet (SortedSetRemove key member).
Definition vector_set (key : bytes) (data : list Z) (metadata : option bytes) (encrypted : bool) := push KVector (VectorSet key data metadata encrypted).
Definition delete_kind (key : bytes) (kind : TableEntryKind) := push kind (Delete key).
Definition delete_hash (key : bytes) := delete_kind key KHash.
Definition delete_vector (key : bytes) := delete_kind key KVector.

(** ** Publication *)

(** The shards that are written, the change of memory per shard, and the change of the number of keys. *)
Record Publication := mkPub { p_store : Store; memory_deltas : list Z; key_delta : Z }.

Definition add_delta (key : bytes) (amount : Z) (p : Publication) : Publication :=
  mkPub (p_store p) (alter (Z.add amount) (shard_index (p_store p) key) (memory_deltas p)) (key_delta p).
Definition add_keys (n : Z) (p : Publication) : Publication := mkPub (p_store p) (memory_deltas p) (key_delta p + n).
Definition put (key : bytes) (e : Entry) (p : Publication) : Publication :=
  mkPub (put_data key e (p_store p)) (memory_deltas p) (key_delta p).
Definition drop_key (key : bytes) (p : Publication) : Publication :=
  mkPub (drop_data key (p_store p)) (memory_deltas p) (key_delta p).

Definition drop_expired (p : Publication) (key : bytes) : Publication :=
  match find (p_store p) key with
  | Some e => if is_expired_at now e
              then add_keys (-1) (add_delta key (- estimate_entry_memory key (value e)) (drop_key key p))
              else p
  | None => p
  end.

(** [shard.data.entry(key).or_insert_with(..)]: the entry of a key, an empty one counted if there is none. *)
Definition entry_or_insert (kind : TableEntryKind) (key : bytes) (p : Publication) : Entry * Publication :=
  match find (p_store p) key with
  | Some e => (e, p)
  | None => (mkEntry (kind_empty kind) None (lru_clock (p_store p)), add_keys 1 (add_delta key (zlen key + 64) p))
  end.

Definition hash_insert (acc : HashData * Z) (pair : bytes * bytes) : HashData * Z :=
  let '(h, delta) := acc in
  let '(field, v) := pair in
  (mkHash (<[field := v]> (fields h)) (delete field (expiries h)),
   delta + match fields h !! field with Some previous => zlen v - zlen previous | None => zlen field + zlen v + 64 end).

Definition hash_remove (acc : HashData * Z) (field : bytes) : HashData * Z :=
  let '(h, delta) := acc in
  (mkHash (delete field (fields h)) (delete field (expiries h)),
   delta - match fields h !! field with Some v => zlen field + zlen v + 64 | None => 0 end).

(** The hash of a key after fields were removed; a hash without fields is removed. *)
Definition put_or_remove (key : bytes) (e : Entry) (h : HashData) (delta : Z) (p : Publication) : Publication :=
  let p := add_delta key delta (put key (mkEntry (VHash h) (expires_at e) (e_lru_clock e)) p) in
  if bool_decide (fields h = ∅) then add_keys (-1) (add_delta key (- (zlen key + 64)) (drop_key key p)) else p.

Definition vector_memory (data : list Z) (metadata : option bytes) : Z :=
  16 + zlen data * 4 + match metadata with Some m => zlen m | None => 0 end.

Definition apply_op (op : TableBatchOp) (p : Publication) : outcome Publication :=
  let lru := lru_clock (p_store p) in
  match op with
  | SetString key v =>
      let p' := put key (mkEntry (VStr v) None lru) p in
      match find (p_store p) key with
      | Some previous =>
          match value previous with
          | VStr old | VStrBuf old => Returned (add_delta key (zlen v - zlen old) p')
          | _ => Panicked
          end
      | None => Returned (add_keys 1 (add_delta key (zlen key + 64 + zlen v) p'))
      end
  | HashSet key pairs =>
      let '(e, p) := entry_or_insert KHash key p in
      match value e with
      | VHash h => let '(h, delta) := foldl hash_insert (h, 0) pairs in Returned (add_delta key delta (put key (mkEntry (VHash h) None lru) p))
      | _ => Panicked
      end
  | HashDelete key fs =>
      match find (p_store p) key with
      | Some e =>
          if is_expired_at now e then Returned p
          else match value e with
               | VHash h => let '(h, delta) := foldl hash_remove (h, 0) fs in Returned (put_or_remove key e h delta p)
               | _ => Panicked
               end
      | None => Returned p
      end
  | HashDeleteIfValue key field expected =>
      match find (p_store p) key with
      | Some e =>
          if is_expired_at now e then Returned p
          else match value e with
               | VHash h =>
                   if bool_decide (fields h !! field = Some expected)
                   then let '(h, delta) := hash_remove (h, 0) field in Returned (put_or_remove key e h delta p)
                   else Returned p
               | _ => Panicked
               end
      | None => Returned p
      end
  | SetAdd key member =>
      let '(e, p) := entry_or_insert KSet key p in
      match value e with
      | VSet m =>
          let '(added, m) := set_insert member m in
          Returned (add_delta key (if added then zlen member + 32 else 0) (put key (mkEntry (VSet m) None lru) p))
      | _ => Panicked
      end
  | SetRemove key member =>
      match find (p_store p) key with
      | Some e =>
          if is_expired_at now e then Returned p
          else match value e with
               | VSet m =>
                   let '(removed, m) := set_remove member m in
                   Returned (add_delta key (if removed then - (zlen member + 32) else 0) (put key (mkEntry (VSet m) (expires_at e) (e_lru_clock e)) p))
               | _ => Panicked
               end
      | None => Returned p
      end
  | SortedSetAdd key member score =>
      let '(e, p) := entry_or_insert KSortedSet key p in
      match value e with
      | VSortedSet t m =>
          let '(t, delta) := match m !! member with
                             | Some previous => (tree_remove (previous, member) t, 0)
                             | None => (t, zlen member + 48)
                             end in
          Returned (add_delta key delta (put key (mkEntry (VSortedSet (tree_insert (score, member) t) (<[member := score]> m)) None lru) p))
      | _ => Panicked
      end
  | SortedSetRemove key member =>
      match find (p_store p) key with
      | Some e =>
          if is_expired_at now e then Returned p
          else match value e with
               | VSortedSet t m =>
                   match m !! member with
                   | Some score =>
                       Returned (add_delta key (- (zlen member + 48))
                         (put key (mkEntry (VSortedSet (tree_remove (score, member) t) (delete member m)) (expires_at e) (e_lru_clock e)) p))
                   | None => Returned p
                   end
               | _ => Panicked
               end
      | None => Returned p
      end
  | VectorSet key data metadata encrypted =>
      let value_size := vector_memory data metadata in
      let p' := put key (mkEntry (VVector (mkVector (as_u32 (zlen data)) data metadata encrypted)) None lru) p in
      match find (p_store p) key with
      | Some previous =>
          match value previous with
          | VVector old => Returned (add_delta key (value_size - vector_memory (v_data old) (v_metadata old)) p')
          | _ => Panicked
          end
      | None => Returned (add_keys 1 (add_delta key (zlen key + 64 + value_size) p'))
      end
  | Delete key =>
      match find (p_store p) key with
      | Some previous => Returned (add_keys (-1) (add_delta key (- estimate_entry_memory key (value previous)) (drop_key key p)))
      | None => Returned p
      end
  end.

Fixpoint apply_ops (ops : list TableBatchOp) (p : Publication) : outcome Publication :=
  match ops with
  | [] => Returned p
  | op :: ops => p ← apply_op op p; apply_ops ops p
  end.

(** The keys with a vector, and its dimensions. *)
Definition vectors_at (keys : list bytes) (s : Store) : list (bytes * Z) :=
  omap (fun key => match find s key with
                   | Some e => match value e with VVector v => Some (key_string key, v_dims v) | _ => None end
                   | None => None
                   end) keys.

Definition settle_shard (deltas : list Z) (s : Store) (i : nat) : Store :=
  let delta := default 0 (deltas !! i) in
  let change f := with_shard i (fun sh => mkShard (data sh) (version sh) (f (shard_memory sh))) s in
  if 0 <=? delta then mem_add delta (change (fun m => usize_add m delta))
  else mem_sub (- delta) (change (fun m => sat_sub m (- delta))).

Definition settle_keys (n : Z) (s : Store) : Store :=
  if 0 <=? n then Nat.iter (Z.to_nat n) key_added s else Nat.iter (Z.to_nat (- n)) key_removed s.

Definition bump_shard (s : Store) (i : nat) : Store :=
  with_shard i (fun sh => mkShard (data sh) (as_u64 (version sh + 1)) (shard_memory sh)) s.

(** The shards of the keys, in increasing order. *)
Definition affected (keys : list bytes) (s : Store) : list nat :=
  filter (fun i => i ∈ (shard_index s <$> keys)) (seq 0 (length (shards s))).

Definition batch_keys (b : AtomicTableBatch) : list bytes := merge_sort bytes_le (elements (dom (kinds b))).

Definition apply (b : AtomicTableBatch) (s : Store) : outcome Store :=
  let keys := batch_keys b in
  let vector_before := vectors_at keys s in
  let p := foldl drop_expired (mkPub s (replicate (length (shards s)) 0) 0) keys in
  p ← apply_ops (operations b) p;
  let inserted_vectors := vectors_at keys (p_store p) in
  let s := foldl (settle_shard (memory_deltas p)) (p_store p) (affected keys s) in
  let s := settle_keys (key_delta p) s in
  let s := foldl bump_shard s (affected keys s) in
  let s := foldl (fun s v => remove_vector_indexes v.1 v.2 s) s vector_before in
  Returned (foldl (fun s v => insert_vector_indexes v.1 v.2 s) s inserted_vectors).

End Staging.

(** ** What a batch does to the value of a key *)

Inductive TableValue :=
| TvStr (s : bytes)
| TvHash (h : HashData)
| TvSet (m : gset bytes)
| TvZset (m : gmap bytes Z)
| TvVector (v : VectorData)
| TvOther (v : StoreValue).

Definition view_value (v : StoreValue) : TableValue :=
  match v with
  | VStr b | VStrBuf b => TvStr b
  | VHash h => TvHash h
  | VSet m => TvSet (elems m)
  | VSortedSet _ m => TvZset m
  | VVector v => TvVector v
  | v => TvOther v
  end.

Definition view (now : Z) (s : Store) (k : bytes) : option TableValue := (fun e => view_value (value e)) <$> live s now k.

Definition hash_or_empty (o : option TableValue) : HashData := match o with Some (TvHash h) => h | _ => hash_empty end.
Definition set_or_empty (o : option TableValue) : gset bytes := match o with Some (TvSet m) => m | _ => ∅ end.
Definition zset_or_empty (o : option TableValue) : gmap bytes Z := match o with Some (TvZset m) => m | _ => ∅ end.

Definition set_field (h : HashData) (p : bytes * bytes) : HashData := mkHash (<[p.1 := p.2]> (fields h)) (delete p.1 (expiries h)).
Definition del_field (h : HashData) (f : bytes) : HashData := mkHash (delete f (fields h)) (delete f (expiries h)).
Definition kept (h : HashData) : option TableValue := if bool_decide (fields h = ∅) then None else Some (TvHash h).

Definition op_effect (op : TableBatchOp) (o : option TableValue) : option TableValue :=
  match op with
  | SetString _ v => Some (TvStr v)
  | HashSet _ pairs => Some (TvHash (foldl set_field (hash_or_empty o) pairs))
  | HashDelete _ fs => match o with Some (TvHash h) => kept (foldl del_field h fs) | o => o end
  | HashDeleteIfValue _ f expected =>
      match o with Some (TvHash h) => if bool_decide (fields h !! f = Some expected) then kept (del_field h f) else o | o => o end
  | SetAdd _ m => Some (TvSet ({[m]} ∪ set_or_empty o))
  | SetRemove _ m => match o with Some (TvSet ms) => Some (TvSet (ms ∖ {[m]})) | o => o end
  | SortedSetAdd _ m score => Some (TvZset (<[m := score]> (zset_or_empty o)))
  | SortedSetRemove _ m => match o with Some (TvZset ms) => Some (TvZset (delete m ms)) | o => o end
  | VectorSet _ data metadata encrypted => Some (TvVector (mkVector (as_u32 (zlen data)) data metadata encrypted))
  | Delete _ => None
  end.

(** The operations on a key, in order. *)
Definition published (ops : list TableBatchOp) (k : bytes) (o : option TableValue) : option TableValue :=
  foldl (fun o op => if bool_decide (op_key op = k) then op_effect op o else o) o ops.

(** The kind of entry an operation is added with. *)
Definition well_kinded (kind : TableEntryKind) (op : TableBatchOp) : Prop :=
  match op with
  | SetString _ _ => kind = KString
  | HashSet _ _ | HashDelete _ _ | HashDeleteIfValue _ _ _ => kind = KHash
  | SetAdd _ _ | SetRemove _ _ => kind = KSet
  | SortedSetAdd _ _ score => kind = KSortedSet /\ u64_ok score
  | SortedSetRemove _ _ => kind = KSortedSet
  | VectorSet _ _ _ _ => kind = KVector
  | Delete _ => kind = KHash \/ kind = KVector
  end.

(** ** Lemmas: memory *)

Section Cost.

Context {V : Type} (f : bytes * V -> Z).

Definition map_cost (m : gmap bytes V) : Z := zsum (f <$> map_to_list m).

Lemma map_cost_delete m k : map_cost (delete k m) = map_cost m - match m !! k with Some v => f (k, v) | None => 0 end.
Proof.
  unfold map_cost. destruct (m !! k) as [v|] eqn:E; [|rewrite delete_id by done; lia].
  rewrite <-(map_to_list_delete m k v E), fmap_cons. unfold zsum. cbn [foldr]. lia.
Qed.

Lemma map_cost_insert m k v : map_cost (<[k := v]> m) = map_cost m + f (k, v) - match m !! k with Some o => f (k, o) | None => 0 end.
Proof.
  rewrite <-insert_delete_eq. unfold map_cost at 1. rewrite map_to_list_insert, fmap_cons by apply lookup_delete_eq.
  pose proof (map_cost_delete m k) as E. unfold map_cost in *. unfold zsum in *. cbn [foldr]. lia.
Qed.

End Cost.

Definition hash_cost (h : HashData) : Z := map_cost (fun p => zlen p.1 + zlen p.2 + 64) (fields h).

Lemma hash_insert_all pairs : forall h a,
  let '(h', a') := foldl hash_insert (h, a) pairs in h' = foldl set_field h pairs /\ a' - a = hash_cost h' - hash_cost h.
Proof.
  induction pairs as [|[f v] pairs IH]; intros h a; cbn [foldl]; [split; [done|lia]|]. cbn [hash_insert].
  match goal with |- context [foldl hash_insert (?h1, ?a1) pairs] => specialize (IH h1 a1); destruct (foldl hash_insert (h1, a1) pairs) as [h' a'] end.
  destruct IH as [-> IH]. split; [done|]. revert IH. unfold hash_cost at 2. cbn [fields]. rewrite map_cost_insert. fold (hash_cost h). cbn.
  destruct (fields h !! f); lia.
Qed.

Lemma hash_remove_one h a f : let '(h', a') := hash_remove (h, a) f in h' = del_field h f /\ a' - a = hash_cost h' - hash_cost h.
Proof. cbn. split; [done|]. unfold hash_cost at 1. cbn [fields]. rewrite map_cost_delete. fold (hash_cost h). cbn. lia. Qed.

Lemma hash_remove_all fs : forall h a,
  let '(h', a') := foldl hash_remove (h, a) fs in h' = foldl del_field h fs /\ a' - a = hash_cost h' - hash_cost h.
Proof.
  induction fs as [|f fs IH]; intros h a; cbn [foldl]; [split; [done|lia]|].
  pose proof (hash_remove_one h a f) as H1. destruct (hash_remove (h, a) f) as [h1 a1]. destruct H1 as [-> H1].
  specialize (IH (del_field h f) a1). destruct (foldl hash_remove (del_field h f, a1) fs) as [h' a']. destruct IH as [-> IH]. split; [done|lia].
Qed.

Lemma set_insert_memory m s : set_ok s -> let '(added, s') := set_insert m s in
  value_memory (VSet s') - value_memory (VSet s) = if added then zlen m + 32 else 0.
Proof.
  intros Hs. unfold set_insert. destruct (index s !! m); [lia|]. cbn. rewrite fmap_app. cbn. rewrite zsum_app. cbn. lia.
Qed.

Lemma zset_add_memory m member score : let m' := <[member := score]> m in
  map_cost (fun p : bytes * Z => zlen p.1 + 48) m' - map_cost (fun p : bytes * Z => zlen p.1 + 48) m =
  match m !! member with Some _ => 0 | None => zlen member + 48 end.
Proof. cbn. rewrite map_cost_insert. cbn. destruct (m !! member); lia. Qed.

Lemma set_ok_NoDup s : set_ok s -> NoDup (members s).
Proof. intros Hs. apply NoDup_alt. intros i j x Hi Hj. apply Hs in Hi, Hj. congruence. Qed.

Lemma zsum_perm {A : Type} (f : A -> Z) l k : l ≡ₚ k -> zsum (f <$> l) = zsum (f <$> k).
Proof. unfold zsum. induction 1; rewrite ?fmap_cons; cbn [foldr fmap list_fmap]; lia. Qed.

Lemma set_remove_memory m s : set_ok s -> let '(removed, s') := set_remove m s in
  value_memory (VSet s') - value_memory (VSet s) = if removed then - (zlen m + 32) else 0.
Proof.
  intros Hs. pose proof (set_remove_ok m s Hs) as Hr. destruct (set_remove m s) as [removed s'] eqn:E. destruct Hr as (Hs' & -> & He).
  case_bool_decide as Hm.
  - cbn [value_memory]. assert (members s ≡ₚ m :: members s') as Hp.
    { apply NoDup_Permutation; [by apply set_ok_NoDup|constructor; [|by apply set_ok_NoDup]|].
      - intros Hx. assert (m ∈ elems s') by (by apply elem_of_list_to_set). set_solver.
      - intros x. rewrite elem_of_cons. trans (x ∈ elems s); [symmetry; apply elem_of_list_to_set|].
        trans (x = m \/ x ∈ elems s'); [rewrite He; destruct (decide (x = m)); set_solver|]. by rewrite <-(elem_of_list_to_set (C := gset bytes)). }
    rewrite (zsum_perm _ _ _ Hp), fmap_cons. unfold zsum. cbn [foldr]. lia.
  - unfold set_remove in E. destruct (index s !! m) eqn:Ei; [|injection E as <-; lia]. exfalso. apply Hm, elem_of_elems; eauto.
Qed.

(** ** Lemmas: publications *)

Definition value_ok (v : StoreValue) : Prop :=
  match v with VSet m => set_ok m | VSortedSet t m => zset_ok t m | _ => True end.

(** The sets and sorted sets of a store are well formed. *)
Definition values_ok (s : Store) : Prop := forall k e, find s k = Some e -> value_ok (value e).

Lemma shard_at_put key e s i : nonempty s ->
  shard_at (put_data key e s) i =
  if decide (i = shard_index s key) then mkShard (<[key := e]> (data (shard_at s i))) (version (shard_at s i)) (shard_memory (shard_at s i))
  else shard_at s i.
Proof.
  intros Hn. unfold put_data. case_decide as Hi; [subst i|by rewrite shard_at_with_shard_ne]. rewrite shard_at_with_shard_eq; [done|].
  by apply shard_index_lt.
Qed.

Lemma shard_at_drop key s i : nonempty s ->
  shard_at (drop_data key s) i =
  if decide (i = shard_index s key) then mkShard (delete key (data (shard_at s i))) (version (shard_at s i)) (shard_memory (shard_at s i))
  else shard_at s i.
Proof.
  intros Hn. unfold drop_data. case_decide as Hi; [subst i|by rewrite shard_at_with_shard_ne]. rewrite shard_at_with_shard_eq; [done|].
  by apply shard_index_lt.
Qed.

Lemma index_put k e s key : shard_index (put_data k e s) key = shard_index s key.
Proof. apply shard_index_with_shard. Qed.

Lemma index_drop k s key : shard_index (drop_data k s) key = shard_index s key.
Proof. apply shard_index_with_shard. Qed.

(** The counters of a publication say how its shards differ from the ones it began with, [s0]; only
    the shards [idxs] do. *)
Record pub_ok (s0 : Store) (idxs : list nat) (p : Publication) : Prop := {
  pub_length : length (shards (p_store p)) = length (shards s0);
  pub_nonempty : nonempty (p_store p);
  pub_placed : placed s0 -> placed (p_store p);
  pub_used : used_memory (p_store p) = used_memory s0;
  pub_count : key_count (p_store p) = key_count s0;
  pub_version : forall i, version (shard_at (p_store p) i) = version (shard_at s0 i);
  pub_other : forall i, i ∉ idxs -> shard_at (p_store p) i = shard_at s0 i;
  pub_deltas : length (memory_deltas p) = length (shards s0);
  pub_cost : forall i, (i < length (shards s0))%nat -> shard_cost (shard_at (p_store p) i) = shard_cost (shard_at s0 i) + default 0 (memory_deltas p !! i);
  pub_keys : total_keys (p_store p) = total_keys s0 + key_delta p
}.

Lemma pub_start s : nonempty s -> forall idxs, pub_ok s idxs (mkPub s (replicate (length (shards s)) 0) 0).
Proof.
  intros Hn idxs. split; cbn; try done; [apply length_replicate| |lia]. intros i Hi. rewrite lookup_replicate_2 by done. cbn. lia.
Qed.

Lemma delta_at (l : list Z) i j d : (i < length l)%nat -> default 0 (alter (Z.add d) i l !! j) = default 0 (l !! j) + if decide (j = i) then d else 0.
Proof.
  intros Hi. case_decide as Hd; [subst j|rewrite list_lookup_alter_ne by done; lia]. rewrite list_lookup_alter_eq.
  destruct (lookup_lt_is_Some_2 l i Hi) as [x ->]. cbn. lia.
Qed.

Definition old_cost (key : bytes) (o : option Entry) : Z := match o with Some e => estimate_entry_memory key (value e) | None => 0 end.

Lemma pub_put s0 idxs p p' key e d n : pub_ok s0 idxs p -> shard_index s0 key ∈ idxs ->
  p_store p' = put_data key e (p_store p) -> memory_deltas p' = alter (Z.add d) (shard_index (p_store p) key) (memory_deltas p) -> key_delta p' = key_delta p + n ->
  d = estimate_entry_memory key (value e) - old_cost key (find (p_store p) key) -> n = (if find (p_store p) key then 0 else 1) ->
  pub_ok s0 idxs p'.
Proof.
  intros [Hl Hn Hp Hu Hc Hv Ho Hd Hm Hk] Hin Es Ed Ek -> ->. rewrite <-(shard_index_length s0 (p_store p)) in Hin by done.
  pose proof (shard_index_lt _ key Hn) as Hlt. split; rewrite ?Es, ?Ed, ?Ek; try done.
  - cbn. by rewrite length_alter.
  - by apply nonempty_put_data.
  - intros Hs. by apply placed_put, Hp.
  - intros i. rewrite shard_at_put by done. case_decide; cbn; [|done]. by subst; apply Hv.
  - intros i Hi. rewrite shard_at_put by done. case_decide; [by subst|]. by apply Ho.
  - by rewrite length_alter.
  - intros i Hi. rewrite shard_at_put, delta_at by (done || lia). case_decide as Hx; [|rewrite Hm by done; lia]. subst i.
    rewrite shard_cost_insert. specialize (Hm _ Hi). unfold find, entry_cost. cbn [fst snd].
    destruct (shard_at (p_store p) (shard_index (p_store p) key)) as [dt vr mm]. cbn [data version shard_memory] in *. destruct (dt !! key); cbn in *; lia.
  - destruct (totals_put key e (p_store p) Hn) as [-> _]. destruct (find (p_store p) key); lia.
Qed.

Lemma pub_drop s0 idxs p p' key e d : pub_ok s0 idxs p -> shard_index s0 key ∈ idxs -> find (p_store p) key = Some e ->
  p_store p' = drop_data key (p_store p) -> memory_deltas p' = alter (Z.add d) (shard_index (p_store p) key) (memory_deltas p) -> key_delta p' = key_delta p - 1 ->
  d = - estimate_entry_memory key (value e) -> pub_ok s0 idxs p'.
Proof.
  intros [Hl Hn Hp Hu Hc Hv Ho Hd Hm Hk] Hin Hf Es Ed Ek ->. rewrite <-(shard_index_length s0 (p_store p)) in Hin by done.
  pose proof (shard_index_lt _ key Hn) as Hlt. split; rewrite ?Es, ?Ed, ?Ek; try done.
  - cbn. by rewrite length_alter.
  - by apply nonempty_drop_data.
  - intros Hs. by apply placed_drop, Hp.
  - intros i. rewrite shard_at_drop by done. case_decide; cbn; [|done]. by subst; apply Hv.
  - intros i Hi. rewrite shard_at_drop by done. case_decide; [by subst|]. by apply Ho.
  - by rewrite length_alter.
  - intros i Hi. rewrite shard_at_drop, delta_at by (done || lia). case_decide as Hx; [|rewrite Hm by done; lia]. subst i.
    specialize (Hm _ Hi). unfold find in Hf. destruct (shard_at (p_store p) (shard_index (p_store p) key)) as [dt vr mm]. cbn [data version shard_memory] in *.
    rewrite (shard_cost_delete key dt vr mm e) by done. unfold entry_cost. cbn [fst snd]. lia.
  - destruct (totals_drop key e (p_store p) Hn Hf) as (-> & _). lia.
Qed.

(** ** Lemmas: operations *)

Lemma alter_add (a b : Z) i (l : list Z) : alter (Z.add a) i (alter (Z.add b) i l) = alter (Z.add (a + b)) i l.
Proof.
  apply list_eq. intros j. destruct (decide (i = j)) as [->|Hj]; [|by rewrite !list_lookup_alter_ne].
  rewrite !list_lookup_alter_eq. destruct (l !! j); [|done]. cbn. f_equal. lia.
Qed.

Section Operations.

Context (now : Z) (s0 : Store) (ks : gmap bytes TableEntryKind) (idxs : list nat).
Context (Hidxs : forall key kind, ks !! key = Some kind -> shard_index s0 key ∈ idxs).

Record inv (p : Publication) : Prop := {
  inv_pub : pub_ok s0 idxs p;
  inv_values : values_ok (p_store p);
  inv_typed : forall k kind e, ks !! k = Some kind -> find (p_store p) k = Some e -> is_expired_at now e = false /\ kind_matches kind (value e) = true }.

(** What the application of [op] to [p] has to give. *)
Definition performs (op : TableBatchOp) (p : Publication) (r : outcome Publication) : Prop :=
  exists p', r = Returned p' /\ inv p' /\
  forall k, view now (p_store p') k = if decide (k = op_key op) then op_effect op (view now (p_store p) k) else view now (p_store p) k.

Lemma view_some s k e : find s k = Some e -> is_expired_at now e = false -> view now s k = Some (view_value (value e)).
Proof. intros Hf He. unfold view, live. by rewrite Hf, He. Qed.

Lemma view_none s k : find s k = None -> view now s k = None.
Proof. intros Hf. unfold view, live. by rewrite Hf. Qed.

Lemma view_same_find s s' k : find s' k = find s k -> view now s' k = view now s k.
Proof. unfold view, live. by intros ->. Qed.

Lemma put_performs op p p' kind e : p_store p' = put_data (op_key op) e (p_store p) -> inv p -> ks !! op_key op = Some kind ->
  kind_matches kind (value e) = true -> value_ok (value e) -> is_expired_at now e = false ->
  memory_deltas p' = alter (Z.add (estimate_entry_memory (op_key op) (value e) - old_cost (op_key op) (find (p_store p) (op_key op))))
    (shard_index (p_store p) (op_key op)) (memory_deltas p) ->
  key_delta p' = key_delta p + (if find (p_store p) (op_key op) then 0 else 1) ->
  Some (view_value (value e)) = op_effect op (view now (p_store p) (op_key op)) ->
  performs op p (Returned p').
Proof.
  intros Es [Hp Hv Ht] Hk Hm Hw He Ed En Hop. exists p'. split; [done|].
  assert (forall k, find (p_store p') k = if decide (k = op_key op) then Some e else find (p_store p) k) as Hf.
  { intros k. rewrite Es. apply find_put_data. by apply Hp. }
  split.
  - split; [by eapply pub_put; eauto| |].
    + intros k e'. rewrite Hf. case_decide; [by intros [= <-]|]. by apply Hv.
    + intros k kind' e' Hk'. rewrite Hf. case_decide as Hd; [|by apply Ht]. subst k. intros [= <-]. rewrite Hk in Hk'. by injection Hk' as <-.
  - intros k. case_decide as Hd; [subst k|apply view_same_find; rewrite Hf; by case_decide].
    rewrite <-Hop. apply view_some; [|done]. rewrite Hf. by case_decide.
Qed.

Lemma drop_performs op p p' kind e : inv p -> ks !! op_key op = Some kind -> find (p_store p) (op_key op) = Some e ->
  p_store p' = drop_data (op_key op) (p_store p) ->
  memory_deltas p' = alter (Z.add (- estimate_entry_memory (op_key op) (value e))) (shard_index (p_store p) (op_key op)) (memory_deltas p) ->
  key_delta p' = key_delta p - 1 -> op_effect op (view now (p_store p) (op_key op)) = None ->
  performs op p (Returned p').
Proof.
  intros [Hp Hv Ht] Hk He Es Ed En Hop. exists p'. split; [done|].
  assert (forall k, find (p_store p') k = if decide (k = op_key op) then None else find (p_store p) k) as Hf.
  { intros k. rewrite Es. apply find_drop_data. by apply Hp. }
  split.
  - split; [by eapply pub_drop; eauto| |].
    + intros k e'. rewrite Hf. case_decide; [done|]. by apply Hv.
    + intros k kind' e' Hk'. rewrite Hf. case_decide as Hd; [done|by apply Ht].
  - intros k. case_decide as Hd; [subst k|apply view_same_find; rewrite Hf; by case_decide].
    rewrite Hop. apply view_none. rewrite Hf. by case_decide.
Qed.

Lemma none_performs op p : inv p -> op_effect op (view now (p_store p) (op_key op)) = view now (p_store p) (op_key op) -> performs op p (Returned p).
Proof. intros Hp Hop. exists p. split; [done|]. split; [done|]. intros k. by case_decide; [subst|]. Qed.

(** The value under a key of a batch, by its kind. *)
Lemma typed_entry p key kind e : inv p -> ks !! key = Some kind -> find (p_store p) key = Some e ->
  is_expired_at now e = false /\ kind_matches kind (value e) = true /\ value_ok (value e) /\ view now (p_store p) key = Some (view_value (value e)).
Proof.
  intros Hp Hk Hf. destruct (inv_typed p Hp key kind e Hk Hf) as [He Hm]. split_and!; [done|done|by eapply (inv_values p Hp)|by apply view_some].
Qed.

(** An operation that adds to a container starts from the one that is there or from an empty one. *)
Lemma entry_found kind key p : inv p -> ks !! key = Some kind -> kind <> KVector ->
  let '(e, p1) := entry_or_insert kind key p in
  kind_matches kind (value e) = true /\ value_ok (value e) /\ is_expired_at now e = false /\
  p_store p1 = p_store p /\
  memory_deltas p1 = alter (Z.add (if find (p_store p) key then 0 else zlen key + 64)) (shard_index (p_store p) key) (memory_deltas p) /\
  key_delta p1 = key_delta p + (if find (p_store p) key then 0 else 1) /\
  match find (p_store p) key with Some e0 => e = e0 | None => value e = kind_empty kind /\ value_memory (value e) = 0 end.
Proof.
  intros Hp Hk Hnv. unfold entry_or_insert. destruct (find (p_store p) key) as [e|] eqn:Hf.
  - destruct (typed_entry p key kind e Hp Hk Hf) as (He & Hm & Hv & _). split_and!; try done; [|lia].
    symmetry. apply list_eq. intros j. destruct (decide (shard_index (p_store p) key = j)) as [->|]; [|by rewrite list_lookup_alter_ne].
    rewrite list_lookup_alter_eq. by destruct (_ !! j).
  - cbn. split_and!; try done; [by destruct kind|destruct kind; try done; apply zset_ok_nil|by destruct kind].
Qed.

Ltac same_change := rewrite ?alter_add; f_equal; f_equal; unfold old_cost, estimate_entry_memory in *; cbn [value value_memory] in *; try lia.

Lemma set_string_performs key v p : inv p -> ks !! key = Some KString -> performs (SetString key v) p (apply_op now (SetString key v) p).
Proof.
  intros Hp Hk. cbn [apply_op]. destruct (find (p_store p) key) as [e|] eqn:Hf.
  - destruct (typed_entry p key KString e Hp Hk Hf) as (He & Hm & _ & Hw).
    assert (exists old, (value e = VStr old \/ value e = VStrBuf old)) as [old Hold] by (destruct (value e); try done; eauto).
    assert ((match value e with VStr old | VStrBuf old => Returned (add_delta key (zlen v - zlen old) (put key (mkEntry (VStr v) None (lru_clock (p_store p))) p)) | _ => Panicked end)
      = Returned (add_delta key (zlen v - zlen old) (put key (mkEntry (VStr v) None (lru_clock (p_store p))) p))) as -> by (by destruct Hold as [->| ->]).
    eapply (put_performs _ _ _ KString); try done; cbn [op_key]; rewrite ?Hf; cbn; try lia.
    rewrite ?index_drop, ?index_put. same_change. destruct Hold as [->| ->]; cbn; lia.
  - eapply (put_performs _ _ _ KString); try done; cbn [op_key]; rewrite ?Hf; cbn; try lia.
    rewrite ?index_drop, ?index_put. same_change.
Qed.

Lemma vector_set_performs key data metadata enc p : inv p -> ks !! key = Some KVector ->
  performs (VectorSet key data metadata enc) p (apply_op now (VectorSet key data metadata enc) p).
Proof.
  intros Hp Hk. cbn [apply_op]. destruct (find (p_store p) key) as [e|] eqn:Hf.
  - destruct (typed_entry p key KVector e Hp Hk Hf) as (He & Hm & _ & Hw). destruct (value e) as [| | | | | | |old| |] eqn:Hv; try done.
    eapply (put_performs _ _ _ KVector); try done; cbn [op_key]; rewrite ?Hf; cbn; try lia.
    rewrite ?index_drop, ?index_put. same_change. rewrite Hv. cbn. unfold vector_memory. lia.
  - eapply (put_performs _ _ _ KVector); try done; cbn [op_key]; rewrite ?Hf; cbn; try lia.
    rewrite ?index_drop, ?index_put. same_change. unfold vector_memory. cbn. lia.
Qed.

Lemma delete_performs key kind p : inv p -> ks !! key = Some kind -> performs (Delete key) p (apply_op now (Delete key) p).
Proof.
  intros Hp Hk. cbn [apply_op]. destruct (find (p_store p) key) as [e|] eqn:Hf.
  - eapply (drop_performs _ _ _ kind e); try done. cbn. rewrite ?index_drop, ?index_put. done.
  - apply none_performs; [done|]. cbn. by rewrite view_none.
Qed.

Lemma hash_set_performs key pairs p : inv p -> ks !! key = Some KHash -> performs (HashSet key pairs) p (apply_op now (HashSet key pairs) p).
Proof.
  intros Hp Hk. cbn [apply_op]. pose proof (entry_found KHash key p Hp Hk ltac:(done)) as Hx. destruct (entry_or_insert KHash key p) as [e p1].
  destruct Hx as (Hm & Hv & He & Es & Ed & En & Hold). destruct (value e) as [| | |h| | | | | |] eqn:Hval; try done.
  pose proof (hash_insert_all pairs h 0) as Hh. destruct (foldl hash_insert (h, 0) pairs) as [h' delta]. destruct Hh as [-> Hdelta].
  eapply (put_performs _ _ _ KHash (mkEntry (VHash (foldl set_field h pairs)) None (lru_clock (p_store p)))); try done; cbn [op_key]; cbn; rewrite ?Es, ?Ed, ?En; try done.
  - rewrite ?index_drop, ?index_put. same_change.
    unfold hash_cost, map_cost in *. destruct (find (p_store p) key); [subst|destruct Hold as [_ Hold]]; rewrite ?Hval in *; cbn in *; lia.
  - destruct (find (p_store p) key) as [e0|] eqn:Hf.
    + subst e0. rewrite (view_some _ _ e) by done. by rewrite Hval.
    + rewrite view_none by done. destruct Hold as [Hold _]. by injection Hold as ->.
Qed.

Lemma set_add_performs key m p : inv p -> ks !! key = Some KSet -> performs (SetAdd key m) p (apply_op now (SetAdd key m) p).
Proof.
  intros Hp Hk. cbn [apply_op]. pose proof (entry_found KSet key p Hp Hk ltac:(done)) as Hx. destruct (entry_or_insert KSet key p) as [e p1].
  destruct Hx as (Hm & Hv & He & Es & Ed & En & Hold). destruct (value e) as [| | | |ms| | | | |] eqn:Hval; try done. cbn in Hv.
  pose proof (set_insert_ok m ms Hv) as Hi. pose proof (set_insert_memory m ms Hv) as Hc. destruct (set_insert m ms) as [added ms']. destruct Hi as (Hok & _ & Hel).
  eapply (put_performs _ _ _ KSet (mkEntry (VSet ms') None (lru_clock (p_store p)))); try done; cbn [op_key]; cbn; rewrite ?Es, ?Ed, ?En; try done.
  - rewrite ?index_drop, ?index_put. same_change.
    destruct (find (p_store p) key); [subst|destruct Hold as [_ Hold]]; rewrite ?Hval in *; cbn in *; destruct added; lia.
  - rewrite Hel. destruct (find (p_store p) key) as [e0|] eqn:Hf.
    + subst e0. rewrite (view_some _ _ e) by done. by rewrite Hval.
    + rewrite view_none by done. destruct Hold as [Hold _]. by injection Hold as ->.
Qed.

Lemma sorted_set_add_performs key m score p : inv p -> ks !! key = Some KSortedSet -> u64_ok score ->
  performs (SortedSetAdd key m score) p (apply_op now (SortedSetAdd key m score) p).
Proof.
  intros Hp Hk Hs. cbn [apply_op]. pose proof (entry_found KSortedSet key p Hp Hk ltac:(done)) as Hx. destruct (entry_or_insert KSortedSet key p) as [e p1].
  destruct Hx as (Hm & Hv & He & Es & Ed & En & Hold). destruct (value e) as [| | | | |t ms| | | |] eqn:Hval; try done. cbn in Hv.
  pose proof (zset_add_memory ms m score) as Hc. cbn in Hc.
  assert (exists t1 delta, (match ms !! m with Some previous => (tree_remove (previous, m) t, 0) | None => (t, zlen m + 48) end) = (t1, delta) /\
    zset_ok (tree_insert (score, m) t1) (<[m := score]> ms) /\ delta = match ms !! m with Some _ => 0 | None => zlen m + 48 end) as (t1 & delta & Eq & Hz & Hdelta).
  { destruct (ms !! m) as [prev|] eqn:Em; do 2 eexists; split_and!; try done; [by eapply zset_update|by apply zset_with]. }
  rewrite Eq. eapply (put_performs _ _ _ KSortedSet (mkEntry (VSortedSet (tree_insert (score, m) t1) (<[m := score]> ms)) None (lru_clock (p_store p)))); try done; cbn [op_key]; cbn; rewrite ?Es, ?Ed, ?En; try done.
  - rewrite ?index_drop, ?index_put. same_change. unfold map_cost in Hc.
    destruct (find (p_store p) key); [subst|destruct Hold as [_ Hold]]; rewrite ?Hval in *; cbn in *; destruct (ms !! m); lia.
  - destruct (find (p_store p) key) as [e0|] eqn:Hf.
    + subst e0. rewrite (view_some _ _ e) by done. by rewrite Hval.
    + rewrite view_none by done. destruct Hold as [Hold _]. by injection Hold as -> ->.
Qed.

Lemma set_remove_performs key m p : inv p -> ks !! key = Some KSet -> performs (SetRemove key m) p (apply_op now (SetRemove key m) p).
Proof.
  intros Hp Hk. cbn [apply_op]. destruct (find (p_store p) key) as [e|] eqn:Hf; [|apply none_performs; [done|]; cbn; by rewrite view_none].
  destruct (typed_entry p key KSet e Hp Hk Hf) as (He & Hm & Hv & Hw). rewrite He. destruct (value e) as [| | | |ms| | | | |] eqn:Hval; try done. cbn in Hv.
  pose proof (set_remove_ok m ms Hv) as Hi. pose proof (set_remove_memory m ms Hv) as Hc. destruct (set_remove m ms) as [removed ms']. destruct Hi as (Hok & _ & Hel).
  eapply (put_performs _ _ _ KSet); try done; cbn [op_key]; rewrite ?Hf; cbn; try lia.
  - rewrite ?index_drop, ?index_put. same_change. rewrite Hval. cbn in *. destruct removed; lia.
  - rewrite Hw. cbn. by rewrite Hel.
Qed.

Lemma sorted_set_remove_performs key m p : inv p -> ks !! key = Some KSortedSet -> performs (SortedSetRemove key m) p (apply_op now (SortedSetRemove key m) p).
Proof.
  intros Hp Hk. cbn [apply_op]. destruct (find (p_store p) key) as [e|] eqn:Hf; [|apply none_performs; [done|]; cbn; by rewrite view_none].
  destruct (typed_entry p key KSortedSet e Hp Hk Hf) as (He & Hm & Hv & Hw). rewrite He. destruct (value e) as [| | | | |t ms| | | |] eqn:Hval; try done. cbn in Hv.
  destruct (ms !! m) as [score|] eqn:Em.
  - eapply (put_performs _ _ _ KSortedSet); try done; cbn [op_key]; rewrite ?Hf; cbn; try lia; [by apply zset_without| |].
    + rewrite ?index_drop, ?index_put. same_change. rewrite Hval. cbn.
      pose proof (map_cost_delete (fun p : bytes * Z => zlen p.1 + 48) ms m) as Hc. rewrite Em in Hc. unfold map_cost in Hc. cbn in Hc. lia.
    + by rewrite Hw.
  - apply none_performs; [done|]. cbn [op_key op_effect]. rewrite Hw. cbn. by rewrite delete_id.
Qed.

(** The removal of fields, which removes the key when no field is left. *)
Lemma fields_performs op key e h h' delta p : inv p -> op_key op = key -> ks !! key = Some KHash -> find (p_store p) key = Some e -> value e = VHash h ->
  delta = hash_cost h' - hash_cost h -> op_effect op (Some (TvHash h)) = kept h' -> performs op p (Returned (put_or_remove key e h' delta p)).
Proof.
  intros Hp Hkey Hk Hf Hval Hdelta Hop. destruct (typed_entry p key KHash e Hp Hk Hf) as (He & Hm & Hv & Hw). rewrite Hval in Hw. cbn in Hw.
  unfold put_or_remove. unfold kept in Hop. case_bool_decide as Hemp.
  - assert (op_effect op (view now (p_store p) key) = None) as Hop' by (by rewrite Hw).
    pose proof (inv_pub p Hp) as Hpub. assert (drop_data key (put_data key (mkEntry (VHash h') (expires_at e) (e_lru_clock e)) (p_store p)) = drop_data key (p_store p)) as Edrop.
    { unfold drop_data. rewrite ?index_drop, ?index_put. unfold put_data, with_shard, set_shards. cbn. f_equal.
      apply list_eq. intros j. destruct (decide (shard_index (p_store p) key = j)) as [->|Hj]; [|by rewrite !list_lookup_alter_ne].
      rewrite !list_lookup_alter_eq. destruct (shards (p_store p) !! j); [|done]. cbn. by rewrite delete_insert_eq. }
    subst key. eapply (drop_performs _ _ _ KHash e); try done; cbn.
    rewrite ?index_drop, ?index_put. same_change. rewrite Hval. cbn.
    unfold hash_cost, map_cost in Hdelta. rewrite Hemp, map_to_list_empty in Hdelta. cbn in Hdelta. lia.
  - subst key. eapply (put_performs _ _ _ KHash); try done; rewrite ?Hf; cbn; try lia.
    + rewrite ?index_drop, ?index_put. same_change. rewrite Hval. cbn. unfold hash_cost, map_cost in *. lia.
    + by rewrite Hw.
Qed.

Lemma hash_delete_performs key fs p : inv p -> ks !! key = Some KHash -> performs (HashDelete key fs) p (apply_op now (HashDelete key fs) p).
Proof.
  intros Hp Hk. cbn [apply_op]. destruct (find (p_store p) key) as [e|] eqn:Hf; [|apply none_performs; [done|]; cbn; by rewrite view_none].
  destruct (typed_entry p key KHash e Hp Hk Hf) as (He & Hm & Hv & Hw). rewrite He. destruct (value e) as [| | |h| | | | | |] eqn:Hval; try done.
  pose proof (hash_remove_all fs h 0) as Hh. destruct (foldl hash_remove (h, 0) fs) as [h' delta]. destruct Hh as [-> Hdelta].
  eapply (fields_performs _ key e h); try done. lia.
Qed.

Lemma hash_delete_if_performs key f x p : inv p -> ks !! key = Some KHash -> performs (HashDeleteIfValue key f x) p (apply_op now (HashDeleteIfValue key f x) p).
Proof.
  intros Hp Hk. cbn [apply_op]. destruct (find (p_store p) key) as [e|] eqn:Hf; [|apply none_performs; [done|]; cbn; by rewrite view_none].
  destruct (typed_entry p key KHash e Hp Hk Hf) as (He & Hm & Hv & Hw). rewrite He. destruct (value e) as [| | |h| | | | | |] eqn:Hval; try done.
  case_bool_decide as Hx.
  - pose proof (hash_remove_one h 0 f) as Hh. destruct (hash_remove (h, 0) f) as [h' delta]. destruct Hh as [-> Hdelta].
    eapply (fields_performs _ key e h); try done; [lia|]. cbn. by rewrite bool_decide_eq_true_2.
  - apply none_performs; [done|]. cbn [op_key op_effect]. rewrite Hw. cbn. by rewrite bool_decide_eq_false_2.
Qed.

Lemma op_performs op kind p : inv p -> ks !! op_key op = Some kind -> well_kinded kind op -> performs op p (apply_op now op p).
Proof.
  intros Hp Hk Hw. destruct op; cbn in Hw, Hk; try subst kind.
  - by apply set_string_performs.
  - by apply hash_set_performs.
  - by apply hash_delete_performs.
  - by apply hash_delete_if_performs.
  - by apply set_add_performs.
  - by apply set_remove_performs.
  - destruct Hw as [-> Hs]. by apply sorted_set_add_performs.
  - by apply sorted_set_remove_performs.
  - by apply vector_set_performs.
  - by eapply delete_performs.
Qed.

Lemma ops_perform ops : forall p, inv p -> Forall (fun op => exists kind, ks !! op_key op = Some kind /\ well_kinded kind op) ops ->
  exists p', apply_ops now ops p = Returned p' /\ inv p' /\ forall k, view now (p_store p') k = published ops k (view now (p_store p) k).
Proof.
  induction ops as [|op ops IH]; intros p Hp Hops; [by exists p|]. inversion_clear Hops as [|? ? (kind & Hk & Hw) Hops'].
  destruct (op_performs op kind p Hp Hk Hw) as (p1 & E1 & Hp1 & V1). destruct (IH p1 Hp1 Hops') as (p2 & E2 & Hp2 & V2).
  exists p2. cbn [apply_ops]. rewrite E1. cbn. split; [done|]. split; [done|]. intros k. rewrite V2, V1. unfold published. cbn [foldl]. f_equal.
  destruct (decide (k = op_key op)), (bool_decide_reflect (op_key op = k)); congruence.
Qed.

(** Expired entries are removed first; readers do not see them before or after. *)
Lemma drop_expired_ok p key : pub_ok s0 idxs p -> values_ok (p_store p) -> shard_index s0 key ∈ idxs ->
  let p' := drop_expired now p key in
  pub_ok s0 idxs p' /\ values_ok (p_store p') /\ (forall k, view now (p_store p') k = view now (p_store p) k) /\
  (forall k, find (p_store p') k = if decide (k = key) then live (p_store p) now k else find (p_store p) k).
Proof.
  intros Hp Hv Hin. unfold drop_expired. destruct (find (p_store p) key) as [e|] eqn:Hf; [destruct (is_expired_at now e) eqn:He|].
  - assert (forall k, find (drop_data key (p_store p)) k = if decide (k = key) then None else find (p_store p) k) as Hfind.
    { intros k. apply find_drop_data. by apply Hp. }
    cbn. split_and!.
    + eapply (pub_drop s0 idxs p _ key e); try done; cbn; by rewrite ?index_drop.
    + intros k e'. rewrite Hfind. case_decide; [done|]. apply Hv.
    + intros k. unfold view, live. rewrite Hfind. case_decide as Hd; [subst k; by rewrite Hf, He|done].
    + intros k. rewrite Hfind. case_decide as Hd; [subst k; unfold live; by rewrite Hf, He|done].
  - split_and!; try done. intros k. case_decide as Hd; [|done]. subst k. unfold live. by rewrite Hf, He.
  - split_and!; try done. intros k. case_decide as Hd; [|done]. subst k. unfold live. by rewrite Hf.
Qed.

Lemma drop_all_ok keys : forall p, pub_ok s0 idxs p -> values_ok (p_store p) -> Forall (fun k => shard_index s0 k ∈ idxs) keys ->
  let p' := foldl (drop_expired now) p keys in
  pub_ok s0 idxs p' /\ values_ok (p_store p') /\ (forall k, view now (p_store p') k = view now (p_store p) k) /\
  (forall k, find (p_store p') k = if decide (k ∈ keys) then live (p_store p) now k else find (p_store p) k).
Proof.
  induction keys as [|key keys IH]; intros p Hp Hv Hin; cbn [foldl].
  - by split_and!.
  - inversion_clear Hin as [|? ? Hk Hks]. destruct (drop_expired_ok p key Hp Hv Hk) as (Hp1 & Hv1 & Hw1 & Hf1).
    destruct (IH _ Hp1 Hv1 Hks) as (Hp2 & Hv2 & Hw2 & Hf2). split_and!; [done|done|intros k; by rewrite Hw2|].
    intros k. rewrite Hf2. unfold live. rewrite Hf1. unfold live.
    destruct (decide (k ∈ keys)) as [Hx|Hx].
    + rewrite (decide_True (P := k ∈ key :: keys)) by (by right). destruct (decide (k = key)) as [->|]; [|done].
      destruct (find (p_store p) key) as [e|]; [|done]. destruct (is_expired_at now e) eqn:He; [done|by rewrite He].
    + destruct (decide (k = key)) as [->|Hk']; [by rewrite decide_True by left|]. rewrite decide_False by (rewrite elem_of_cons; tauto). done.
Qed.

End Operations.

(** ** Lemmas: settling the counters *)

Definition same_data (s s' : Store) : Prop :=
  length (shards s') = length (shards s) /\ forall i, data (shard_at s' i) = data (shard_at s i).

Lemma same_data_refl s : same_data s s.
Proof. done. Qed.

Lemma same_data_trans s1 s2 s3 : same_data s1 s2 -> same_data s2 s3 -> same_data s1 s3.
Proof. intros [L1 D1] [L2 D2]. split; [congruence|]. intros i. by rewrite D2. Qed.

Lemma same_data_shards s s' : shards s' = shards s -> same_data s s'.
Proof. intros E. unfold same_data, shard_at. by rewrite E. Qed.

Lemma same_data_touch i f s : (forall sh, data (f sh) = data sh) -> same_data s (with_shard i f s).
Proof.
  intros Hf. split; [apply length_with_shard|]. intros j. destruct (decide (i = j)) as [->|]; [|by rewrite shard_at_with_shard_ne].
  destruct (decide (j < length (shards s))%nat) as [Hj|Hj]; [by rewrite shard_at_with_shard_eq, Hf|].
  unfold shard_at, with_shard. cbn. by rewrite list_lookup_alter_eq, (lookup_ge_None_2 (shards s) j) by lia.
Qed.

Lemma same_data_find s s' k : same_data s s' -> find s' k = find s k.
Proof. intros [L D]. unfold find. by rewrite D, (shard_index_length s s'). Qed.

Lemma shards_seq {A : Type} (f : Shard -> A) s : f <$> shards s = (fun i => f (shard_at s i)) <$> seq 0 (length (shards s)).
Proof.
  apply list_eq. intros i. rewrite !list_lookup_fmap. destruct (decide (i < length (shards s))%nat) as [Hi|Hi].
  - rewrite lookup_seq_lt, shard_at_lookup by done. done.
  - rewrite !lookup_ge_None_2; [done|rewrite length_seq; lia|lia].
Qed.

Lemma same_data_totals s s' : same_data s s' -> total_keys s' = total_keys s /\ total_memory s' = total_memory s.
Proof.
  intros [L D]. unfold total_keys, total_memory. rewrite !shards_seq, L.
  split; f_equal; apply list_fmap_ext; intros i j _; unfold shard_keys, shard_cost; by rewrite D.
Qed.

Lemma same_data_placed s s' : same_data s s' -> placed s -> placed s'.
Proof.
  intros [L D] Hp i sh k Hi Hk. assert (i < length (shards s))%nat as Hlt by (rewrite <-L; by eapply lookup_lt_Some).
  rewrite (shard_index_length s s') by done. eapply Hp; [by apply shard_at_lookup|]. rewrite <-D. unfold shard_at. by rewrite Hi.
Qed.

Lemma settle_shard_same deltas s i : let s' := settle_shard deltas s i in
  same_data s s' /\ key_count s' = key_count s /\ forall j, version (shard_at s' j) = version (shard_at s j).
Proof.
  assert (forall f j, version (shard_at (with_shard i (fun sh => mkShard (data sh) (version sh) (f (shard_memory sh))) s) j) = version (shard_at s j)) as Hv.
  { intros f j. destruct (decide (i = j)) as [->|]; [|by rewrite shard_at_with_shard_ne].
    unfold shard_at, with_shard. cbn. rewrite list_lookup_alter_eq. by destruct (shards s !! j). }
  unfold settle_shard. set (delta := default 0 (deltas !! i)).
  assert (forall f s', shards s' = shards (with_shard i (fun sh => mkShard (data sh) (version sh) (f (shard_memory sh))) s) -> same_data s s') as Hd.
  { intros f s' E. eapply same_data_trans; [|by apply same_data_shards]. by apply same_data_touch. }
  destruct (0 <=? delta); cbn; (split; [|split; [done|]]).
  - by apply (Hd (fun m => usize_add m delta)).
  - apply (Hv (fun m => usize_add m delta)).
  - by apply (Hd (fun m => sat_sub m (- delta))).
  - apply (Hv (fun m => sat_sub m (- delta))).
Qed.

Definition delta_sum (deltas : list Z) (ns : list nat) : Z := zsum ((fun i => default 0 (deltas !! i)) <$> ns).

Lemma delta_sum_cons deltas i ns : delta_sum deltas (i :: ns) = default 0 (deltas !! i) + delta_sum deltas ns.
Proof. done. Qed.

Lemma settle_used deltas ns : forall s, (forall pre, pre `prefix_of` ns -> 0 <= used_memory s + delta_sum deltas pre <= usize_max) ->
  used_memory (foldl (settle_shard deltas) s ns) = used_memory s + delta_sum deltas ns.
Proof.
  induction ns as [|i ns IH]; intros s Hpre; cbn [foldl]; [unfold delta_sum; cbn; lia|].
  pose proof (Hpre [] ltac:(apply prefix_nil)) as H0. pose proof (Hpre [i] ltac:(apply prefix_cons, prefix_nil)) as H1. unfold delta_sum in H0, H1. cbn in H0, H1.
  assert (used_memory (settle_shard deltas s i) = used_memory s + default 0 (deltas !! i)) as Hs.
  { unfold settle_shard. destruct (Z.leb_spec 0 (default 0 (deltas !! i))); cbn; [rewrite usize_add_small by lia|rewrite sat_sub_small by lia]; lia. }
  rewrite IH; [rewrite Hs, delta_sum_cons; lia|]. intros pre Hp. specialize (Hpre (i :: pre) ltac:(by apply prefix_cons)).
  rewrite Hs. rewrite delta_sum_cons in Hpre. lia.
Qed.

Lemma settle_same deltas ns : forall s, let s' := foldl (settle_shard deltas) s ns in
  same_data s s' /\ key_count s' = key_count s /\ forall j, version (shard_at s' j) = version (shard_at s j).
Proof.
  induction ns as [|i ns IH]; intros s; cbn [foldl]; [split_and!; try done; apply same_data_refl|].
  destruct (settle_shard_same deltas s i) as (D1 & K1 & V1). destruct (IH (settle_shard deltas s i)) as (D2 & K2 & V2).
  split_and!; [by eapply same_data_trans|congruence|intros j; by rewrite V2].
Qed.

Lemma settle_keys_ok n s : let s' := settle_keys n s in shards s' = shards s /\ used_memory s' = used_memory s /\
  (0 <= key_count s <= usize_max -> 0 <= key_count s + n <= usize_max -> key_count s' = key_count s + n).
Proof.
  assert (forall m, let s' := Nat.iter m key_added s in shards s' = shards s /\ used_memory s' = used_memory s /\
    (0 <= key_count s -> key_count s + Z.of_nat m <= usize_max -> key_count s' = key_count s + Z.of_nat m)) as Ha.
  { induction m as [|m (I1 & I2 & I3)]; [cbn; split_and!; try done; intros; lia|].
    change (Nat.iter (S m) key_added s) with (key_added (Nat.iter m key_added s)). cbn [key_added set_keys shards used_memory key_count].
    split_and!; [done|done|]. intros H1 H2. rewrite I3, usize_add_small by lia. lia. }
  assert (forall m, let s' := Nat.iter m key_removed s in shards s' = shards s /\ used_memory s' = used_memory s /\
    (Z.of_nat m <= key_count s -> key_count s' = key_count s - Z.of_nat m)) as Hr.
  { induction m as [|m (I1 & I2 & I3)]; [cbn; split_and!; try done; intros; lia|].
    change (Nat.iter (S m) key_removed s) with (key_removed (Nat.iter m key_removed s)). cbn [key_removed set_keys shards used_memory key_count].
    split_and!; [done|done|]. intros H1. rewrite I3, sat_sub_small by lia. lia. }
  unfold settle_keys. destruct (Z.leb_spec 0 n).
  - destruct (Ha (Z.to_nat n)) as (? & ? & Hk). split_and!; [done|done|]. intros. rewrite Hk by lia. lia.
  - destruct (Hr (Z.to_nat (- n))) as (? & ? & Hk). split_and!; [done|done|]. intros. rewrite Hk by lia. lia.
Qed.

Lemma bump_all_ok ns : forall s, NoDup ns -> Forall (fun i => i < length (shards s))%nat ns ->
  let s' := foldl bump_shard s ns in
  same_data s s' /\ key_count s' = key_count s /\ used_memory s' = used_memory s /\
  forall j, version (shard_at s' j) = if decide (j ∈ ns) then as_u64 (version (shard_at s j) + 1) else version (shard_at s j).
Proof.
  induction ns as [|i ns IH]; intros s Hnd Hlt; cbn [foldl]; [split_and!; try done; apply same_data_refl|].
  inversion_clear Hnd as [|? ? Hi Hnd']. inversion_clear Hlt as [|? ? Hlt0 Hlt'].
  assert (same_data s (bump_shard s i)) as D1 by (by apply same_data_touch).
  destruct (IH (bump_shard s i)) as (D2 & K2 & U2 & V2); [done|by destruct D1 as [-> _]|].
  split_and!; [by eapply same_data_trans|done|done|]. intros j. rewrite V2.
  destruct (decide (i = j)) as [->|Hij].
  - rewrite decide_False, decide_True by (done || left). unfold bump_shard. by rewrite shard_at_with_shard_eq.
  - unfold bump_shard. rewrite shard_at_with_shard_ne by done. destruct (decide (j ∈ ns)) as [Hj|Hj].
    + rewrite decide_True by (by right). done.
    + rewrite decide_False by (rewrite elem_of_cons; naive_solver). done.
Qed.

Lemma vectors_same (f : bytes -> Z -> Store -> Store) l : (forall k d s, shards (f k d s) = shards s /\ used_memory (f k d s) = used_memory s /\ key_count (f k d s) = key_count s) ->
  forall s, let s' := foldl (fun s (v : bytes * Z) => f v.1 v.2 s) s l in shards s' = shards s /\ used_memory s' = used_memory s /\ key_count s' = key_count s.
Proof.
  intros Hf. induction l as [|v l IH]; intros s; cbn [foldl]; [done|]. destruct (Hf v.1 v.2 s) as (H1 & H2 & H3).
  destruct (IH (f v.1 v.2 s)) as (I1 & I2 & I3). by rewrite I1, I2, I3.
Qed.

Lemma remove_vector_same k d s : shards (remove_vector_indexes k d s) = shards s /\
  used_memory (remove_vector_indexes k d s) = used_memory s /\ key_count (remove_vector_indexes k d s) = key_count s.
Proof. unfold remove_vector_indexes. by destruct (parse_table_vector_key k) as [[[? ?] ?]|]. Qed.

Lemma insert_vector_same k d s : shards (insert_vector_indexes k d s) = shards s /\
  used_memory (insert_vector_indexes k d s) = used_memory s /\ key_count (insert_vector_indexes k d s) = key_count s.
Proof. unfold insert_vector_indexes. by destruct (parse_table_vector_key k) as [[[? ?] ?]|]. Qed.

Lemma zsum_sublist {A : Type} (f : A -> Z) l k : l `sublist_of` k -> (forall x, 0 <= f x) -> 0 <= zsum (f <$> l) <= zsum (f <$> k).
Proof. intros Hs Hf. unfold zsum. induction Hs as [|x l k Hs IH|x l k Hs IH]; rewrite ?fmap_cons; cbn [foldr fmap list_fmap]; [lia| |]; specialize (Hf x); lia. Qed.

Lemma zsum_minus {A : Type} (f g : A -> Z) l : zsum ((fun x => f x - g x) <$> l) = zsum (f <$> l) - zsum (g <$> l).
Proof. unfold zsum. induction l as [|x l IH]; rewrite ?fmap_cons; cbn [foldr fmap list_fmap]; lia. Qed.

Lemma zsum_filter {A : Type} (P : A -> Prop) `{!forall x, Decision (P x)} (f : A -> Z) l : (forall x, x ∈ l -> ~ P x -> f x = 0) ->
  zsum (f <$> filter P l) = zsum (f <$> l).
Proof.
  unfold zsum. induction l as [|x l IH]; intros Hf; [done|]. rewrite filter_cons. case_decide as Hx; rewrite ?fmap_cons; cbn [foldr].
  - rewrite IH; [done|]. intros y Hy. apply Hf. by right.
  - rewrite IH, (Hf x); [lia|left|done|]. intros y Hy. apply Hf. by right.
Qed.

(** The partial sums of the changes stay between zero and the sum of the sizes before and after. *)
Lemma delta_sums s idxs p : pub_ok s idxs p -> forall ns, ns `sublist_of` seq 0 (length (shards s)) ->
  0 <= total_memory s + delta_sum (memory_deltas p) ns <= total_memory s + total_memory (p_store p).
Proof.
  intros Hp ns Hs. unfold delta_sum.
  assert (zsum ((fun i => default 0 (memory_deltas p !! i)) <$> ns) = zsum ((fun i => shard_cost (shard_at (p_store p) i)) <$> ns) - zsum ((fun i => shard_cost (shard_at s i)) <$> ns)) as ->.
  { rewrite <-zsum_minus. f_equal. apply list_fmap_ext. intros j i Hi. rewrite (pub_cost s idxs p Hp i); [lia|].
    apply list_elem_of_lookup_2 in Hi. eapply elem_of_submseteq in Hi; [|by apply sublist_submseteq]. apply elem_of_seq in Hi. lia. }
  pose proof (zsum_sublist (fun i => shard_cost (shard_at s i)) _ _ Hs ltac:(intros; apply shard_cost_nonneg)) as H1.
  pose proof (zsum_sublist (fun i => shard_cost (shard_at (p_store p) i)) _ _ Hs ltac:(intros; apply shard_cost_nonneg)) as H2.
  unfold total_memory. rewrite !shards_seq, (pub_length s idxs p Hp). lia.
Qed.

(** ** Batches that were checked *)

(** What the checks of the staging functions establish. *)
Record staged (now : Z) (b : AtomicTableBatch) (s : Store) : Prop := {
  staged_ops : Forall (fun op => exists kind, kinds b !! op_key op = Some kind /\ well_kinded kind op) (operations b);
  staged_keys : forall k kind e, kinds b !! k = Some kind -> find s k = Some e -> is_expired_at now e = false -> kind_matches kind (value e) = true }.

Lemma elem_of_batch_keys b k : k ∈ batch_keys b <-> is_Some (kinds b !! k).
Proof. unfold batch_keys. by rewrite merge_sort_Permutation, elem_of_elements, elem_of_dom. Qed.

Lemma affected_spec keys s i : nonempty s -> i ∈ affected keys s <-> exists k, k ∈ keys /\ shard_index s k = i.
Proof.
  intros Hn. unfold affected. rewrite list_elem_of_filter, list_elem_of_fmap, elem_of_seq. split.
  - intros [(k & -> & Hk) _]. eauto.
  - intros (k & Hk & <-). split; [eauto|]. pose proof (shard_index_lt s k Hn). lia.
Qed.

Lemma affected_NoDup keys s : NoDup (affected keys s).
Proof. apply NoDup_filter, NoDup_seq. Qed.

Lemma affected_length keys s s' : length (shards s') = length (shards s) -> affected keys s' = affected keys s.
Proof.
  intros L. unfold affected. rewrite L. apply list_filter_iff. intros i. rewrite !list_elem_of_fmap.
  split; intros (k & -> & Hk); exists k; (split; [|done]); [by apply shard_index_length|symmetry; by apply shard_index_length].
Qed.

(** The whole change of memory is the change of the shards that were written. *)
Lemma delta_total keys s p : nonempty s -> pub_ok s (affected keys s) p ->
  total_memory s + delta_sum (memory_deltas p) (affected keys s) = total_memory (p_store p).
Proof.
  intros Hn Hp. unfold delta_sum, affected. rewrite zsum_filter.
  - assert (zsum ((fun i => default 0 (memory_deltas p !! i)) <$> seq 0 (length (shards s))) =
      zsum ((fun i => shard_cost (shard_at (p_store p) i)) <$> seq 0 (length (shards s))) - zsum ((fun i => shard_cost (shard_at s i)) <$> seq 0 (length (shards s)))) as ->.
    { rewrite <-zsum_minus. f_equal. apply list_fmap_ext. intros j i Hi. apply lookup_seq in Hi. rewrite (pub_cost _ _ p Hp i); lia. }
    unfold total_memory. rewrite !shards_seq, (pub_length _ _ p Hp). lia.
  - intros i Hi Hx. apply elem_of_seq in Hi. pose proof (pub_cost _ _ p Hp i ltac:(lia)) as Hc. rewrite (pub_other _ _ p Hp) in Hc; [lia|].
    unfold affected. rewrite list_elem_of_filter. tauto.
Qed.

(** The state between the two parts of the publication. *)
Lemma apply_prepared now b s : nonempty s -> staged now b s -> values_ok s ->
  let idxs := affected (batch_keys b) s in
  exists p, apply_ops now (operations b) (foldl (drop_expired now) (mkPub s (replicate (length (shards s)) 0) 0) (batch_keys b)) = Returned p /\
  pub_ok s idxs p /\ values_ok (p_store p) /\ forall k, view now (p_store p) k = published (operations b) k (view now s k).
Proof.
  intros Hn [Hops Hkeys] Hv idxs.
  assert (forall k kind, kinds b !! k = Some kind -> shard_index s k ∈ idxs) as Hidx.
  { intros k kind Hk. apply affected_spec; [done|]. exists k. split; [|done]. apply elem_of_batch_keys. eauto. }
  destruct (drop_all_ok now s idxs (batch_keys b) _ (pub_start s Hn idxs) Hv) as (Hp0 & Hv0 & Hw0 & Hf0).
  { apply Forall_forall. intros k Hk. apply elem_of_batch_keys in Hk as [kind Hk]. by eapply Hidx. }
  destruct (ops_perform now s (kinds b) idxs Hidx (operations b) (foldl (drop_expired now) (mkPub s (replicate (length (shards s)) 0) 0) (batch_keys b))) as (p & E & [Hp1 Hv1 _] & Hw1).
  - split; [done|done|]. intros k kind e Hk. rewrite Hf0, decide_True by (apply elem_of_batch_keys; eauto). cbn [p_store]. unfold live.
    destruct (find s k) as [e'|] eqn:Hf; [|done]. destruct (is_expired_at now e') eqn:He; [done|]. intros [= <-]. split; [done|]. by eapply Hkeys.
  - done.
  - exists p. split_and!; try done. intros k. rewrite Hw1, Hw0. done.
Qed.

Lemma sublist_affected keys s pre : pre `prefix_of` affected keys s -> pre `sublist_of` seq 0 (length (shards s)).
Proof. intros [k Hk]. trans (affected keys s); [rewrite Hk; by apply sublist_inserts_r|apply sublist_filter]. Qed.

(** What the publication of a checked batch gives. *)
Record publication (now : Z) (b : AtomicTableBatch) (s s' : Store) : Prop := {
  pn_view : forall k, view now s' k = published (operations b) k (view now s k);
  pn_version : forall i, version (shard_at s' i) =
    if decide (i ∈ affected (batch_keys b) s) then as_u64 (version (shard_at s i) + 1) else version (shard_at s i);
  pn_values : values_ok s';
  pn_accounted : accounted s -> total_keys s <= usize_max -> total_keys s' <= usize_max -> total_memory s + total_memory s' <= usize_max -> accounted s' }.

Lemma apply_staged now b s : nonempty s -> staged now b s -> values_ok s -> exists s', apply now b s = Returned s' /\ publication now b s s'.
Proof.
  intros Hn Hb Hv. destruct (apply_prepared now b s Hn Hb Hv) as (p & E & Hp & Hv1 & Hw). unfold apply. rewrite E. cbn [mbind outcome_bind].
  set (idxs := affected (batch_keys b) s). set (s1 := foldl (settle_shard (memory_deltas p)) (p_store p) idxs).
  destruct (settle_same (memory_deltas p) idxs (p_store p)) as (D1 & K1 & V1). fold s1 in D1, K1, V1.
  destruct (settle_keys_ok (key_delta p) s1) as (S2 & U2 & K2). set (s2 := settle_keys (key_delta p) s1) in *.
  assert (length (shards s2) = length (shards s)) as L2 by (rewrite S2; destruct D1 as [-> _]; apply Hp).
  rewrite (affected_length _ s s2) by done. fold idxs.
  destruct (bump_all_ok idxs s2) as (D3 & K3 & U3 & V3); [apply affected_NoDup| |].
  { apply Forall_forall. intros i (k & _ & <-)%affected_spec; [|done]. rewrite L2. by apply shard_index_lt. }
  set (s3 := foldl bump_shard s2 idxs) in *.
  destruct (vectors_same remove_vector_indexes (vectors_at (batch_keys b) s) remove_vector_same s3) as (S4 & U4 & K4).
  set (s4 := foldl (fun s v => remove_vector_indexes v.1 v.2 s) s3 (vectors_at (batch_keys b) s)) in *.
  destruct (vectors_same insert_vector_indexes (vectors_at (batch_keys b) (p_store p)) insert_vector_same s4) as (S5 & U5 & K5).
  set (s5 := foldl (fun s v => insert_vector_indexes v.1 v.2 s) s4 (vectors_at (batch_keys b) (p_store p))) in *.
  assert (same_data (p_store p) s5) as D.
  { eapply same_data_trans; [exact D1|]. eapply same_data_trans; [by apply same_data_shards|]. eapply same_data_trans; [exact D3|]. apply same_data_shards. by rewrite S5. }
  exists s5. split; [done|]. split.
  - intros k. rewrite <-Hw. apply view_same_find. by apply same_data_find.
  - intros i. unfold shard_at. rewrite S5, S4. fold (shard_at s3 i) (shard_at s i). rewrite V3.
    unfold shard_at at 1 2. rewrite S2. fold (shard_at s1 i). rewrite V1, (pub_version _ _ p Hp). done.
  - intros k e. rewrite (same_data_find (p_store p)) by done. apply Hv1.
  - intros [_ Hpl Hc Hm] Hk1 Hk2 Hmem. destruct (same_data_totals _ _ D) as [Tk Tm]. split.
    + destruct D as [L _]. unfold nonempty. rewrite L. apply Hp.
    + eapply same_data_placed; [exact D|]. by apply Hp.
    + rewrite K5, K4, K3, K2; rewrite ?K1, ?(pub_count _ _ p Hp), ?Hc, ?Tk, ?(pub_keys _ _ p Hp); try done.
      * pose proof (total_keys_nonneg s). lia.
      * pose proof (total_keys_nonneg s5) as H0. rewrite Tk, (pub_keys _ _ p Hp) in *. lia.
    + rewrite U5, U4, U3, U2, Tm. unfold s1. rewrite settle_used; rewrite (pub_used _ _ p Hp), Hm.
      * by apply delta_total.
      * intros pre Hpre. pose proof (delta_sums s idxs p Hp pre) as Hb1. rewrite <-Tm in Hb1. specialize (Hb1 (sublist_affected _ _ _ Hpre)). lia.
Qed.

(** ** Staging *)

Section Stage.

Context (hll_count : bytes -> Z) (clock now : Z).

(** A sequence of calls of the staging functions, up to the first that fails. *)
Fixpoint stage_all (reqs : list (TableEntryKind * TableBatchOp)) (b : AtomicTableBatch) (s : Store) : staging unit :=
  match reqs with
  | [] => (Ok tt, b, s)
  | (kind, op) :: reqs => match push hll_count clock now kind op b s with
                          | (Ok _, b, s) => stage_all reqs b s
                          | r => r
                          end
  end.

Lemma require_kind_hot key kind b s r b' s' : hot s -> require_kind hll_count clock now key kind b s = (r, b', s') ->
  s' = s /\ operations b' = operations b /\
  (r = Ok tt -> kinds b' !! key = Some kind /\ (forall k kd, kinds b !! k = Some kd -> kinds b' !! k = Some kd) /\
    (forall k kd, kinds b' !! k = Some kd -> kinds b !! k = Some kd \/ (k = key /\ kd = kind /\ forall e, find s key = Some e -> is_expired_at now e = false -> kind_matches kind (value e) = true))).
Proof.
  intros [Hn Hd] E. unfold require_kind in E. destruct (negb _); [by injection E as <- <- <-|].
  destruct (kinds b !! key) as [existing|] eqn:Ek.
  { case_bool_decide as He; injection E as <- <- <-; [|done]. subst existing. split_and!; [done|done|]. intros _. split_and!; [done|done|]. eauto. }
  unfold try_promote, disk_at in E. rewrite Hd in E. cbn in E.
  destruct (match find s key with Some e => _ | None => _ end) eqn:Em; injection E as <- <- <-; [done|]. split_and!; [done|done|]. intros _. cbn. split_and!.
  - apply lookup_insert_eq.
  - intros k kd Hk. rewrite lookup_insert_ne; [done|]. congruence.
  - intros k kd. destruct (decide (k = key)) as [->|Hne]; [|rewrite lookup_insert_ne by done; eauto]. rewrite lookup_insert_eq. intros [= <-]. right.
    split_and!; try done. intros e He Hx. rewrite He, Hx in Em. cbn in Em. by apply negb_false_iff.
Qed.

Lemma push_staged kind op b s r b' s' : hot s -> well_kinded kind op -> staged now b s -> push hll_count clock now kind op b s = (r, b', s') ->
  s' = s /\ match r with Ok _ => staged now b' s /\ operations b' = operations b ++ [op] | Err _ => operations b' = operations b end.
Proof.
  intros Hh Hw [Hops Hkeys] E. unfold push in E. destruct (require_kind _ _ _ _ _ _ _) as [[r1 b1] s1] eqn:Er.
  destruct (require_kind_hot _ _ _ _ _ _ _ Hh Er) as (-> & Ho & Hok). destruct r1 as [[]|e]; injection E as <- <- <-; [|done].
  destruct (Hok eq_refl) as (H1 & H2 & H3). split; [done|]. cbn. split; [|by rewrite Ho]. split; cbn.
  - rewrite Ho. apply Forall_app. split; [|by repeat constructor; exists kind]. eapply Forall_impl; [exact Hops|]. intros o (kd & Hk & Ho'). eauto.
  - intros k kd e Hk Hf He. destruct (H3 k kd Hk) as [Hk'|(-> & -> & Hm)]; [by eapply Hkeys|by eapply Hm].
Qed.

Lemma stage_all_staged reqs : forall b s b' s', hot s -> Forall (fun r => well_kinded r.1 r.2) reqs -> staged now b s ->
  stage_all reqs b s = (Ok tt, b', s') -> s' = s /\ staged now b' s /\ operations b' = operations b ++ reqs.*2.
Proof.
  induction reqs as [|[kind op] reqs IH]; intros b s b' s' Hh Hw Hb; cbn [stage_all].
  { intros [= <- <-]. split_and!; [done|done|]. by rewrite app_nil_r. }
  inversion_clear Hw as [|? ? H1 H2]. destruct (push _ _ _ _ _ _ _) as [[r1 b1] s1] eqn:Ep.
  destruct (push_staged _ _ _ _ _ _ _ Hh H1 Hb Ep) as (-> & Hr). destruct r1 as [u|e]; [|done]. destruct Hr as [Hb1 Ho1]. intros E.
  destruct (IH b1 s b' s' Hh H2 Hb1 E) as (-> & Hs & Ho). split_and!; [done|done|]. rewrite Ho, Ho1, <-(assoc_L (++)). done.
Qed.

End Stage.

(** C16. A table mutation whose operations were all accepted is applied as a whole: the publication never
    reaches an [unreachable!] arm, the value of every key is the old one after the operations on it in
    order, every shard with a key of the batch gets one new version and no other shard changes its
    version, and the memory and key counters stay exact. Collecting the operations changes nothing. *)
Theorem table_batch_atomic (hll_count : bytes -> Z) (clock now : Z) (reqs : list (TableEntryKind * TableBatchOp)) (s : Store) (b : AtomicTableBatch) (s1 : Store) :
  hot s -> values_ok s -> Forall (fun r => well_kinded r.1 r.2) reqs -> stage_all hll_count clock now reqs batch_new s = (Ok tt, b, s1) ->
  s1 = s /\ operations b = reqs.*2 /\ exists s', apply now b s = Returned s' /\ publication now b s s'.
Proof.
  intros Hh Hv Hr E. destruct (stage_all_staged hll_count clock now reqs batch_new s b s1 Hh Hr) as (-> & Hs & Ho); [by split|done|].
  split_and!; [done|done|]. by apply apply_staged; [apply Hh| |].
Qed.

Lemma table_batch_atomic_witness :
  let reqs := [(KHash, HashSet (bs "_t:a:row:1") [(bs "n", bs "x")]); (KSortedSet, SortedSetAdd (bs "_t:a:ids") (bs "1") 4607182418800017408);
               (KHash, HashDeleteIfValue (bs "_t:a:row:1") (bs "n") (bs "x"))] in
  exists b s', stage_all (fun _ => 0) 0 0 reqs batch_new (new 4) = (Ok tt, b, new 4) /\ apply 0 b (new 4) = Returned s' /\
  view 0 s' (bs "_t:a:ids") = Some (TvZset {[bs "1" := 4607182418800017408]}) /\ view 0 s' (bs "_t:a:row:1") = None.
Proof.
  intros reqs. destruct (stage_all (fun _ => 0) 0 0 reqs batch_new (new 4)) as [[r b] s1] eqn:E.
  assert (r = Ok tt) as -> by (by vm_compute in E; injection E as <- _ _).
  destruct (table_batch_atomic (fun _ => 0) 0 0 reqs (new 4) b s1) as (-> & Ho & s' & Ha & [Hv _ _ _]); [split; [by apply Nat.ltb_lt|done]| | |done|].
  { intros k e Hf. unfold find, shard_at in Hf. cbn in Hf. exfalso. revert Hf. generalize (shard_index (new 4) k). intros n.
    do 4 (destruct n as [|n]; [done|]). done. }
  { repeat constructor; vm_compute; done. }
  exists b, s'. split_and!; [done|done| |]; rewrite Hv, Ho; vm_compute; reflexivity.
Defined.

End TableBatch.
