(* ===== verification/Hashes.v ===== *)
(** * Hash commands ([src/src/store/hashes.rs])

    The operations behind HSET, HGET, HMGET, HDEL, HGETALL, HKEYS, HVALS, HLEN, HEXISTS, HINCRBY and
    the commands on field deadlines (HEXPIRE, HTTL, HPERSIST, HGETDEL, HGETEX). A hash keeps its
    fields and, apart from them, the deadlines of some fields in milliseconds of wall-clock time;
    expired fields are dropped lazily, so an operation reads two clocks: [now] for the key and
    [now_ms] for its fields.

    The contract is stated on maps from field names to a value and a deadline, which is what the
    clients of a hash see. *)

From S2P Require Import Prelude.
From S2P Require Import Values.
From S2P Require Import Store.
From S2P Require Import Strings.
From S2P Require Import Lists.
From S2P Require Import Sets.
Local Open Scope Z_scope.

Module Hashes.
Import Values.Values Store.Store Strings.Strings.
Import Lists.Lists(charge, refund).
Import Sets.Sets(promoted, result_map, names, texts).

(** TTL mutation requested by HGETEX. *)
Inductive HGetexTtl := Keep | Persist | SetMs (ms : Z).

Section Hashes.

Context (hll_count : bytes -> Z) (clock : Z).
(** [EncryptionKeyring::is_encrypted_value], and [encrypt] and [decrypt] for the hash namespace, by
    key name and field name. *)
Context (is_encrypted_value : bytes -> bool).
Context (encrypt decrypt : bytes -> bytes -> bytes -> result bytes).

Definition decrypt_hash_field_value (key field val : bytes) : result bytes :=
  if is_table_storage_key key || negb (is_encrypted_value val) then Ok val
  else decrypt (key_string key) (key_string field) val.

Definition encrypt_hash_field_value (key field val : bytes) : result bytes :=
  encrypt (key_string key) (key_string field) val.

(** Collecting an iterator of results: the first error, or all the values. *)
Fixpoint collect {A B : Type} (f : A -> result B) (l : list A) : result (list B) :=
  match l with
  | [] => Ok []
  | x :: l => match f x with
              | Err e => Err e
              | Ok y => match collect f l with Err e => Err e | Ok ys => Ok (y :: ys) end
              end
  end.

(** [.ok()] *)
Definition ok {A : Type} (r : result A) : option A := match r with Ok a => Some a | Err _ => None end.

(** ** Entries holding hashes *)

(** The live hash of a key. *)
Definition view_hash (key : bytes) (now : Z) (s : Store) : result (option (Entry * HashData)) :=
  match find s key with
  | Some e => if is_expired_at now e then Ok None
              else match value e with VHash h => Ok (Some (e, h)) | _ => Err WRONGTYPE end
  | None => Ok None
  end.

Definition open_hash (key : bytes) (now : Z) (s : Store) : Entry * Store :=
  match find s key with
  | Some e => if is_expired_at now e then (mkEntry (VHash hash_empty) None (e_lru_clock e), s) else (e, s)
  | None => (mkEntry (VHash hash_empty) None (lru_clock s), key_added s)
  end.

Definition put_hash (key : bytes) (e : Entry) (h : HashData) (s : Store) : Store :=
  put_data key (mkEntry (VHash h) (expires_at e) (e_lru_clock e)) s.

(** [if drop_key && shard.data.remove(key).is_some() { self.key_removed(); }] *)
Definition drop_if (drop_key : bool) (key : bytes) (s : Store) : Store :=
  if drop_key then
    match find s key with Some _ => key_removed (drop_data key s) | None => s end
  else s.

(** ** HSET *)

Definition prepare_hset_kv (key : bytes) (pairs : list (bytes * bytes)) (encrypted : bool) (now : Z) (s : Store)
    : result (list (bytes * bytes)) :=
  match view_hash key now s with
  | Err e => Err e
  | Ok existing =>
      collect (fun '(field, val) =>
        let existing_encrypted :=
          match existing with
          | Some (_, h) => match fields h !! key_str field with Some raw => is_encrypted_value raw | None => false end
          | None => false
          end in
        let stored := if encrypted || existing_encrypted then encrypt_hash_field_value key field val else Ok val in
        result_map (fun stored => (field, stored)) stored) pairs
  end.

(** One field: how many are new, the change of memory, the hash. *)
Definition hset_one (acc : Z * Z * HashData) (p : bytes * bytes) : Z * Z * HashData :=
  let '(added, delta, h) := acc in
  let '(field, val) := p in
  let name := key_string field in
  let h' := mkHash (<[name := val]> (fields h)) (delete name (expiries h)) in
  match fields h !! name with
  | Some old => (added, delta + (zlen val - zlen old), h')
  | None => (added + 1, delta + (zlen field + zlen val + 64), h')
  end.

(** [if mem_delta > 0 { .. } else if mem_delta < 0 { .. }] *)
Definition adjust (key : bytes) (delta : Z) (s : Store) : Store :=
  if delta >? 0 then charge key delta s
  else if delta <? 0 then refund key (- delta) s
  else s.

Definition purged_hash (now_ms : Z) (h : HashData) : HashData := (purge_expired now_ms h).2.

Definition hset_on_shard (key : bytes) (pairs : list (bytes * bytes)) (now now_ms : Z) (s : Store)
    : result Z * Store :=
  let '(e, s1) := open_hash key now s in
  match value e with
  | VHash h =>
      let '(added, delta, h) := foldl hset_one (0, 0, purged_hash now_ms h) pairs in
      (Ok added, adjust key delta (put_hash key e h s1))
  | _ => (Err WRONGTYPE, s)
  end.

Definition hset (key : bytes) (pairs : list (bytes * bytes)) (now now_ms : Z) (s : Store) : result Z * Store :=
  promoted hll_count clock key now s (fun s => hset_on_shard key pairs now now_ms (bump key s)).

(** ** Reading *)

(** The answer, whether the journal was poisoned, and the store. *)
Definition hget_checked (key field : bytes) (now now_ms : Z) (s : Store) : result (option bytes) * bool * Store :=
  match try_promote hll_count clock key now s with
  | (Err e, s) => (Err e, false, s)
  | (Ok _, s) =>
      match view_hash key now s with
      | Ok (Some (_, h)) =>
          match get_live (key_str field) now_ms h with
          | None => (Ok None, false, s)
          | Some v => match decrypt_hash_field_value key field v with
                      | Ok v => (Ok (Some v), false, s)
                      | Err e => (Err e, true, s)
                      end
          end
      | _ => (Ok None, false, s)
      end
  end.

Definition hget_from_shard (key field : bytes) (now now_ms : Z) (s : Store) : option bytes :=
  match view_hash key now s with
  | Ok (Some (_, h)) => get_live (key_str field) now_ms h
  | _ => None
  end.

Definition hmget (key : bytes) (fs : list bytes) (now now_ms : Z) (s : Store) : list (option bytes) :=
  match view_hash key now s with
  | Ok (Some (_, h)) =>
      (fun f => get_live (key_str f) now_ms h ≫= (fun v => ok (decrypt_hash_field_value key f v))) <$> fs
  | _ => (fun _ => None) <$> fs
  end.

Definition hgetall (key : bytes) (now now_ms : Z) (s : Store) : result (list (bytes * bytes)) * Store :=
  promoted hll_count clock key now s (fun s =>
  (match view_hash key now s with
   | Ok (Some (_, h)) =>
       collect (fun '(k, v) => result_map (fun v => (k, v)) (decrypt_hash_field_value key k v)) (live_iter now_ms h)
   | Ok None => Ok []
   | Err e => Err e
   end, s)).

Definition hkeys (key : bytes) (now now_ms : Z) (s : Store) : result (list bytes) :=
  match view_hash key now s with
  | Ok (Some (_, h)) => Ok (fst <$> live_iter now_ms h)
  | Ok None => Ok []
  | Err e => Err e
  end.

Definition hvals (key : bytes) (now now_ms : Z) (s : Store) : result (list bytes) :=
  match view_hash key now s with
  | Ok (Some (_, h)) => collect (fun '(k, v) => decrypt_hash_field_value key k v) (live_iter now_ms h)
  | Ok None => Ok []
  | Err e => Err e
  end.

Definition hlen (key : bytes) (now now_ms : Z) (s : Store) : result Z :=
  match view_hash key now s with
  | Ok (Some (_, h)) => Ok (live_len now_ms h)
  | Ok None => Ok 0
  | Err e => Err e
  end.

Definition hexists (key field : bytes) (now now_ms : Z) (s : Store) : result bool :=
  match view_hash key now s with
  | Ok (Some (_, h)) => Ok (contains_live (key_str field) now_ms h)
  | Ok None => Ok false
  | Err e => Err e
  end.

(** ** HDEL *)

Definition hdel_one (now_ms : Z) (acc : Z * Z * HashData) (f : bytes) : Z * Z * HashData :=
  let '(removed, freed, h) := acc in
  let fname := key_str f in
  let expired := field_expired fname now_ms h in
  let h' := mkHash (delete fname (fields h)) (delete fname (expiries h)) in
  match fields h !! fname with
  | Some old => (if expired then removed else removed + 1, freed + (zlen f + zlen old + 64), h')
  | None => (removed, freed, h')
  end.

Definition hdel (key : bytes) (fs : list bytes) (now now_ms : Z) (s : Store) : result Z * Store :=
  promoted hll_count clock key now s (fun s =>
  let s := bump key s in
  match view_hash key now s with
  | Ok (Some (e, h)) =>
      let '(removed, freed, h) := foldl (hdel_one now_ms) (0, 0, h) fs in
      let s := refund key freed (put_hash key e h s) in
      (Ok removed, drop_if (bool_decide (fields h = ∅)) key s)
  | Ok None => (Ok 0, s)
  | Err x => (Err x, s)
  end).

(** ** HINCRBY *)

Definition NOT_AN_INTEGER : string := "ERR hash value is not an integer".

(** The sum wraps around. *)
Definition hincrby_on_shard (key field : bytes) (delta : Z) (now now_ms : Z) (s : Store) : result Z * Store :=
  let '(e, s1) := open_hash key now s in
  match value e with
  | VHash h =>
      let h := purged_hash now_ms h in
      let fs := key_str field in
      let h := mkHash (fields h) (delete fs (expiries h)) in
      match fields h !! fs with
      | Some old =>
          match (if is_utf8 old then parse_i64 old else None) with
          | None => (Err NOT_AN_INTEGER, put_hash key e h s1)
          | Some current =>
              let new_val := as_i64 (current + delta) in
              let val := fmt_i new_val in
              (Ok new_val,
               adjust key (zlen val - zlen old)
                 (put_hash key e (mkHash (<[fs := val]> (fields h)) (expiries h)) s1))
          end
      | None =>
          let val := fmt_i delta in
          (Ok delta,
           charge key (zlen field + zlen val + 64)
             (put_hash key e (mkHash (<[key_string field := val]> (fields h)) (expiries h)) s1))
      end
  | _ => (Err WRONGTYPE, s)
  end.

Definition hincrby (key field : bytes) (delta : Z) (now now_ms : Z) (s : Store) : result Z * Store :=
  hincrby_on_shard key field delta now now_ms (bump key s).

(** ** Field deadlines *)

Definition allowed (cond : HExpireCond) (deadline_ms : Z) (cur : option Z) : bool :=
  match cond with
  | CondNone => true
  | CondNx => bool_decide (cur = None)
  | CondXx => bool_decide (is_Some cur)
  | CondGt => match cur with Some c => deadline_ms >? c | None => false end
  | CondLt => match cur with Some c => deadline_ms <? c | None => true end
  end.

Definition hexpire_one (now_ms deadline_ms : Z) (cond : HExpireCond) (acc : list Z * Z * HashData) (f : bytes)
    : list Z * Z * HashData :=
  let '(results, freed, h) := acc in
  let fname := key_str f in
  match fields h !! fname with
  | None => (results ++ [-2], freed, h)
  | Some v =>
      if negb (allowed cond deadline_ms (expiries h !! fname)) then (results ++ [0], freed, h)
      else if deadline_ms <=? now_ms
      then (results ++ [2], freed + (zlen f + zlen v + 64),
            mkHash (delete fname (fields h)) (delete fname (expiries h)))
      else (results ++ [1], freed, mkHash (fields h) (<[fname := deadline_ms]> (expiries h)))
  end.

(** The commands that go through the fields of a purged hash, give back the memory of those they
    delete and drop the key with the last field. *)
Definition over_fields {R : Type} (step : list R * Z * HashData -> bytes -> list R * Z * HashData) (missing : R)
    (bumps : bool) (key : bytes) (fs : list bytes) (now now_ms : Z) (s : Store) : result (list R) * Store :=
  let s := if bumps then bump key s else s in
  match view_hash key now s with
  | Ok (Some (e, h)) =>
      let '(results, freed, h) := foldl step ([], 0, purged_hash now_ms h) fs in
      let s := refund key freed (put_hash key e h s) in
      (Ok results, drop_if (bool_decide (fields h = ∅)) key s)
  | Ok None => (Ok ((fun _ => missing) <$> fs), s)
  | Err x => (Err x, s)
  end.

Definition hexpire_fields (key : bytes) (fs : list bytes) (deadline_ms : Z) (cond : HExpireCond) (now now_ms : Z)
    (s : Store) : result (list Z) * Store :=
  over_fields (hexpire_one now_ms deadline_ms cond) (-2) true key fs now now_ms s.

Definition httl_fields (key : bytes) (fs : list bytes) (now now_ms : Z) (s : Store) : result (list HFieldTtl) :=
  match view_hash key now s with
  | Ok (Some (_, h)) =>
      Ok ((fun f => let fname := key_str f in
                    if negb (contains_live fname now_ms h) then TtlMissing
                    else match expiries h !! fname with
                         | Some ms => TtlExpiresAtMs ms
                         | None => TtlNone
                         end) <$> fs)
  | Ok None => Ok ((fun _ => TtlMissing) <$> fs)
  | Err e => Err e
  end.

Definition hpersist_one (acc : list Z * HashData) (f : bytes) : list Z * HashData :=
  let '(results, h) := acc in
  let fname := key_str f in
  match fields h !! fname with
  | None => (results ++ [-2], h)
  | Some _ =>
      (results ++ [if bool_decide (is_Some (expiries h !! fname)) then 1 else -1],
       mkHash (fields h) (delete fname (expiries h)))
  end.

Definition hpersist_fields (key : bytes) (fs : list bytes) (now now_ms : Z) (s : Store) : result (list Z) * Store :=
  let s := bump key s in
  match view_hash key now s with
  | Ok (Some (e, h)) =>
      let '(results, h) := foldl hpersist_one ([], purged_hash now_ms h) fs in
      (Ok results, put_hash key e h s)
  | Ok None => (Ok ((fun _ => -2) <$> fs), s)
  | Err x => (Err x, s)
  end.

Definition hgetdel_one (key : bytes) (acc : list (option bytes) * Z * HashData) (f : bytes)
    : list (option bytes) * Z * HashData :=
  let '(results, freed, h) := acc in
  let fname := key_str f in
  let h' := mkHash (delete fname (fields h)) (delete fname (expiries h)) in
  match fields h !! fname with
  | Some v => (results ++ [ok (decrypt_hash_field_value key f v)], freed + (zlen f + zlen v + 64), h')
  | None => (results ++ [None], freed, h')
  end.

Definition hgetdel_fields (key : bytes) (fs : list bytes) (now now_ms : Z) (s : Store)
    : result (list (option bytes)) * Store :=
  over_fields (hgetdel_one key) None true key fs now now_ms s.

Definition hgetex_one (key : bytes) (now_ms : Z) (ttl : HGetexTtl) (acc : list (option bytes) * Z * HashData) (f : bytes)
    : list (option bytes) * Z * HashData :=
  let '(results, freed, h) := acc in
  let fname := key_str f in
  let value := fields h !! fname ≫= (fun v => ok (decrypt_hash_field_value key f v)) in
  let '(freed, h) :=
    match value with
    | None => (freed, h)
    | Some _ =>
        match ttl with
        | Keep => (freed, h)
        | Persist => (freed, mkHash (fields h) (delete fname (expiries h)))
        | SetMs ms =>
            if ms <=? now_ms then
              (match fields h !! fname with Some v => freed + (zlen f + zlen v + 64) | None => freed end,
               mkHash (delete fname (fields h)) (delete fname (expiries h)))
            else (freed, mkHash (fields h) (<[fname := ms]> (expiries h)))
        end
    end in
  (results ++ [value], freed, h).

Definition hgetex_fields (key : bytes) (fs : list bytes) (ttl : HGetexTtl) (now now_ms : Z) (s : Store)
    : result (list (option bytes)) * Store :=
  over_fields (hgetex_one key now_ms ttl) None (match ttl with Keep => false | _ => true end)
    key fs now now_ms s.

(** ** Two commands that do not look at field deadlines *)

Definition hsetnx (key field val : bytes) (now : Z) (s : Store) : result bool * Store :=
  let s := bump key s in
  let '(e, s1) := open_hash key now s in
  match value e with
  | VHash h =>
      let fs := key_str field in
      if bool_decide (is_Some (fields h !! fs)) then (Ok false, put_hash key e h s1)
      else (Ok true, charge key (zlen field + zlen val + 64)
              (put_hash key e (mkHash (<[fs := val]> (fields h)) (expiries h)) s1))
  | _ => (Err WRONGTYPE, s)
  end.

Definition hstrlen (key field : bytes) (now : Z) (s : Store) : Z :=
  match view_hash key now s with
  | Ok (Some (_, h)) => match fields h !! key_str field with Some v => zlen v | None => 0 end
  | _ => 0
  end.

End Hashes.

(** ** The contract *)

Inductive hcmd :=
| HSet (k : bytes) (pairs : list (bytes * bytes))
| HGet (k f : bytes)
| HMGet (k : bytes) (fs : list bytes)
| HDel (k : bytes) (fs : list bytes)
| HGetAll (k : bytes)
| HKeys (k : bytes)
| HVals (k : bytes)
| HLen (k : bytes)
| HExists (k f : bytes)
| HIncrBy (k f : bytes) (delta : Z)
| HExpire (k : bytes) (fs : list bytes) (deadline_ms : Z) (cond : HExpireCond)
| HTtl (k : bytes) (fs : list bytes)
| HPersist (k : bytes) (fs : list bytes)
| HGetDel (k : bytes) (fs : list bytes)
| HGetEx (k : bytes) (fs : list bytes) (ttl : HGetexTtl).

Inductive hreply :=
| HInt (z : Z) | HBool (b : bool) | HBulk (o : option bytes) | HBulks (l : list (option bytes)) | HInts (l : list Z)
| HNames (l : list bytes) | HPairs (l : list (bytes * bytes)) | HTtls (l : list HFieldTtl) | HErr (e : string).

Definition hreply_of {A : Type} (f : A -> hreply) (r : result A) : hreply :=
  match r with Ok a => f a | Err e => HErr e end.

Section Contract.

Context (hll_count : bytes -> Z) (clock : Z).
Context (is_encrypted_value : bytes -> bool) (decrypt : bytes -> bytes -> bytes -> result bytes).

Abbreviation dec := (decrypt_hash_field_value is_encrypted_value decrypt).

(** The answer, whether the journal was poisoned, the store. *)
Definition hexec (now now_ms : Z) (c : hcmd) (s : Store) : hreply * bool * Store :=
  match c with
  | HSet k ps => let '(r, s) := hset hll_count clock k ps now now_ms s in (hreply_of HInt r, false, s)
  | HGet k f =>
      let '(r, poisoned, s) := hget_checked hll_count clock is_encrypted_value decrypt k f now now_ms s in
      (hreply_of HBulk r, poisoned, s)
  | HMGet k fs => (HBulks (hmget is_encrypted_value decrypt k fs now now_ms s), false, s)
  | HDel k fs => let '(r, s) := hdel hll_count clock k fs now now_ms s in (hreply_of HInt r, false, s)
  | HGetAll k =>
      let '(r, s) := hgetall hll_count clock is_encrypted_value decrypt k now now_ms s in (hreply_of HPairs r, false, s)
  | HKeys k => (hreply_of HNames (hkeys k now now_ms s), false, s)
  | HVals k => (hreply_of HNames (hvals is_encrypted_value decrypt k now now_ms s), false, s)
  | HLen k => (hreply_of HInt (hlen k now now_ms s), false, s)
  | HExists k f => (hreply_of HBool (hexists k f now now_ms s), false, s)
  | HIncrBy k f d => let '(r, s) := hincrby k f d now now_ms s in (hreply_of HInt r, false, s)
  | HExpire k fs d cond => let '(r, s) := hexpire_fields k fs d cond now now_ms s in (hreply_of HInts r, false, s)
  | HTtl k fs => (hreply_of HTtls (httl_fields k fs now now_ms s), false, s)
  | HPersist k fs => let '(r, s) := hpersist_fields k fs now now_ms s in (hreply_of HInts r, false, s)
  | HGetDel k fs =>
      let '(r, s) := hgetdel_fields is_encrypted_value decrypt k fs now now_ms s in (hreply_of HBulks r, false, s)
  | HGetEx k fs ttl =>
      let '(r, s) := hgetex_fields is_encrypted_value decrypt k fs ttl now now_ms s in (hreply_of HBulks r, false, s)
  end.

(** What a client sees of a hash: its live fields, each with a value and maybe a deadline. *)
Abbreviation table := (gmap bytes (bytes * option Z)).

Inductive hslot :=
| HAbsent
| HHash (m : table) (exp : option Z)
| HOther (v : StoreValue) (exp : option Z).

Abbreviation hspace := (bytes -> hslot).

Definition hupd (k : bytes) (x : hslot) (A : hspace) : hspace := fun k' => if decide (k' = k) then x else A k'.

Definition table_of (x : hslot) : table := match x with HHash m _ => m | _ => ∅ end.
Definition hdeadline (x : hslot) : option Z := match x with HHash _ exp => exp | _ => None end.
Definition hother (x : hslot) : bool := match x with HOther _ _ => true | _ => false end.

(** A hash whose last field is gone is gone. *)
Definition settle (m : table) (exp : option Z) : hslot := if decide (m = ∅) then HAbsent else HHash m exp.

(** The abstract steps over the fields. *)
Definition aset (m : table) (p : bytes * bytes) : table := <[key_string p.1 := (p.2, None)]> m.

Definition aexpire (now_ms d : Z) (cond : HExpireCond) (acc : list Z * table) (f : bytes) : list Z * table :=
  let '(out, m) := acc in
  match m !! key_str f with
  | None => (out ++ [-2], m)
  | Some (v, cur) =>
      if negb (allowed cond d cur) then (out ++ [0], m)
      else if d <=? now_ms then (out ++ [2], delete (key_str f) m)
      else (out ++ [1], <[key_str f := (v, Some d)]> m)
  end.

Definition apersist (acc : list Z * table) (f : bytes) : list Z * table :=
  let '(out, m) := acc in
  match m !! key_str f with
  | None => (out ++ [-2], m)
  | Some (v, cur) => (out ++ [if bool_decide (is_Some cur) then 1 else -1], <[key_str f := (v, None)]> m)
  end.

Definition reading (k : bytes) (m : table) (f : bytes) : option bytes :=
  m !! key_str f ≫= (fun p => ok (dec k f p.1)).

Definition agetdel (k : bytes) (acc : list (option bytes) * table) (f : bytes) : list (option bytes) * table :=
  let '(out, m) := acc in (out ++ [reading k m f], delete (key_str f) m).

Definition agetex (k : bytes) (now_ms : Z) (ttl : HGetexTtl) (acc : list (option bytes) * table) (f : bytes)
    : list (option bytes) * table :=
  let '(out, m) := acc in
  (out ++ [reading k m f],
   match m !! key_str f, reading k m f with
   | Some (v, _), Some _ =>
       match ttl with
       | Keep => m
       | Persist => <[key_str f := (v, None)]> m
       | SetMs ms => if ms <=? now_ms then delete (key_str f) m else <[key_str f := (v, Some ms)]> m
       end
   | _, _ => m
   end).

Definition attl (m : table) (f : bytes) : HFieldTtl :=
  match m !! key_str f with
  | None => TtlMissing
  | Some (_, Some ms) => TtlExpiresAtMs ms
  | Some (_, None) => TtlNone
  end.

(** HINCRBY: the answer and the table. The deadline of the field that is read is dropped, also when
    the value is not a number; a new field is stored under its text. *)
Definition aincrby (f : bytes) (d : Z) (m : table) : hreply * table :=
  match m !! key_str f with
  | Some (v, _) =>
      match (if is_utf8 v then parse_i64 v else None) with
      | Some n => (HInt (as_i64 (n + d)), <[key_str f := (fmt_i (as_i64 (n + d)), None)]> m)
      | None => (HErr NOT_AN_INTEGER, <[key_str f := (v, None)]> m)
      end
  | None => (HInt d, <[key_string f := (fmt_i d, m !! key_string f ≫= snd)]> m)
  end.

(** The pairs of a table in some order. *)
Definition listing (m : table) (l : list (bytes * bytes)) : Prop := l ≡ₚ map_to_list (fst <$> m).

Definition hspec (now_ms : Z) (c : hcmd) (A : hspace) (r : hreply) (poisoned : bool) (A' : hspace) : Prop :=
  let same (B : hspace) := forall k, A' k = B k in
  let reads (P : Prop) := poisoned = false /\ same A /\ P in
  let on k (P : table -> option Z -> Prop) :=
    if hother (A k) then r = HErr WRONGTYPE /\ poisoned = false /\ same A
    else P (table_of (A k)) (hdeadline (A k)) in
  let writes k x (P : Prop) := poisoned = false /\ same (hupd k x A) /\ P in
  match c with
  | HSet k ps => on k (fun m exp => writes k (HHash (foldl aset m ps) exp)
      (r = HInt (Z.of_nat (size (texts (fst <$> ps) ∖ dom m)))))
  | HGet k f =>
      same A /\
      match table_of (A k) !! key_str f with
      | None => r = HBulk None /\ poisoned = false
      | Some (v, _) => match dec k f v with
                       | Ok p => r = HBulk (Some p) /\ poisoned = false
                       | Err e => r = HErr e /\ poisoned = true
                       end
      end
  | HMGet k fs => reads (r = HBulks (reading k (table_of (A k)) <$> fs))
  | HDel k fs => on k (fun m exp =>
      let m' := filter (fun p => p.1 ∉ names fs) m in
      poisoned = false /\ r = HInt (Z.of_nat (size (dom m ∩ names fs))) /\
      match A k with
      | HHash _ _ => same (hupd k (HHash m' exp) A) \/ (m' = ∅ /\ same (hupd k HAbsent A))
      | _ => same A
      end)
  | HGetAll k => on k (fun m _ => reads (exists l, listing m l /\
      r = hreply_of HPairs (collect (fun '(f, v) => result_map (fun v => (f, v)) (dec k f v)) l)))
  | HKeys k => on k (fun m _ => reads (exists l, listing m l /\ r = HNames (fst <$> l)))
  | HVals k => on k (fun m _ => reads (exists l, listing m l /\
      r = hreply_of HNames (collect (fun '(f, v) => dec k f v) l)))
  | HLen k => on k (fun m _ => reads (r = HInt (Z.of_nat (size m))))
  | HExists k f => on k (fun m _ => reads (r = HBool (bool_decide (is_Some (m !! key_str f)))))
  | HIncrBy k f d => on k (fun m exp => let '(r', m') := aincrby f d m in writes k (HHash m' exp) (r = r'))
  | HTtl k fs => on k (fun m _ => reads (r = HTtls (attl m <$> fs)))
  | HPersist k fs => on k (fun m exp =>
      let '(out, m') := foldl apersist ([], m) fs in
      match A k with
      | HHash _ _ => writes k (HHash m' exp) (r = HInts out)
      | _ => reads (r = HInts out)
      end)
  | HExpire k fs d cond => on k (fun m exp =>
      let '(out, m') := foldl (aexpire now_ms d cond) ([], m) fs in
      writes k (settle m' exp) (r = HInts out))
  | HGetDel k fs => on k (fun m exp =>
      let '(out, m') := foldl (agetdel k) ([], m) fs in
      writes k (settle m' exp) (r = HBulks out))
  | HGetEx k fs ttl => on k (fun m exp =>
      let '(out, m') := foldl (agetex k now_ms ttl) ([], m) fs in
      writes k (settle m' exp) (r = HBulks out))
  end.

(** How a hash, and the store, hold this. *)
Definition hview (now_ms : Z) (h : HashData) : table :=
  map_imap (fun f v => if field_expired f now_ms h then None else Some (v, expiries h !! f)) (fields h).

(** Only fields have deadlines. *)
Definition hash_wf (h : HashData) : Prop := forall f, is_Some (expiries h !! f) -> is_Some (fields h !! f).

Definition hslot_at (now now_ms : Z) (o : option Entry) : hslot :=
  match o with
  | Some e => if is_expired_at now e then HAbsent
              else match value e with
                   | VHash h => HHash (hview now_ms h) (expires_at e)
                   | v => HOther v (expires_at e)
                   end
  | None => HAbsent
  end.

Record hashes_ok (now now_ms : Z) (s : Store) (A : hspace) : Prop := {
  ho_hot : hot s;
  ho_slots : forall k, A k = hslot_at now now_ms (find s k);
  ho_wf : forall k e h, find s k = Some e -> value e = VHash h -> hash_wf h
}.

(** ** Lemmas: the view of a hash *)

Lemma hview_lookup now_ms h f :
  hview now_ms h !! f =
    if field_expired f now_ms h then None else (fun v => (v, expiries h !! f)) <$> fields h !! f.
Proof.
  unfold hview. rewrite map_lookup_imap. destruct (fields h !! f) as [v|]; cbn; by destruct (field_expired f now_ms h).
Qed.

(** A hash without expired fields that shows the table [m]. *)
Record clean (now_ms : Z) (h : HashData) (m : table) : Prop := {
  cl_wf : hash_wf h;
  cl_fresh : forall f, field_expired f now_ms h = false;
  cl_view : forall f, m !! f = (fun v => (v, expiries h !! f)) <$> fields h !! f
}.

Lemma clean_hview now_ms h m : clean now_ms h m -> hview now_ms h = m.
Proof. intros [_ Hf Hv]. apply map_eq. intros f. by rewrite hview_lookup, Hf, Hv. Qed.

Lemma clean_lookup now_ms h m f : clean now_ms h m -> fields h !! f = fst <$> m !! f.
Proof. intros [_ _ Hv]. rewrite Hv. by destruct (fields h !! f). Qed.

Lemma clean_deadline_of now_ms h m f : clean now_ms h m -> expiries h !! f = m !! f ≫= snd.
Proof.
  intros [Hw _ Hv]. rewrite Hv. destruct (fields h !! f) eqn:E; [done|]. cbn.
  destruct (expiries h !! f) eqn:E'; [|done]. destruct (Hw f) as [v Hc]; [by eexists|]. congruence.
Qed.

Lemma clean_empty now_ms h m : clean now_ms h m -> fields h = ∅ <-> m = ∅.
Proof.
  intros H. split; intros E; apply map_eq; intros f; rewrite lookup_empty.
  - rewrite (cl_view _ _ _ H), E. done.
  - by rewrite (clean_lookup _ _ _ _ H), E, lookup_empty.
Qed.

Lemma purge_expiries now_ms h f :
  expiries (purged_hash now_ms h) !! f = if field_expired f now_ms h then None else expiries h !! f.
Proof.
  unfold purged_hash, purge_expired. case_bool_decide as Eb; cbn [snd].
  - unfold field_expired. rewrite Eb, lookup_empty. done.
  - pose proof (purge_fold (fst <$> filter (fun p => p.2 <= now_ms) (map_to_list (expiries h))) 0 h) as H.
    destruct (foldl purge_one _ _) as [freed h']. destruct H as (_ & He & _); cbn [snd].
    { apply NoDup_fmap_fst; [|apply NoDup_filter, NoDup_map_to_list].
      intros f0 e1 e2 [_ H1%elem_of_map_to_list]%list_elem_of_filter
        [_ H2%elem_of_map_to_list]%list_elem_of_filter. congruence. }
    rewrite He. pose proof (expired_list h now_ms f) as Hx. destruct (field_expired f now_ms h).
    + by rewrite decide_True by (by apply Hx).
    + rewrite decide_False; [done|]. rewrite Hx. done.
Qed.

Lemma purge_clean now_ms h : hash_wf h -> clean now_ms (purged_hash now_ms h) (hview now_ms h).
Proof.
  intros Hw. pose proof (purge_expired_correct now_ms h) as Hp. pose proof (purge_expiries now_ms h) as He.
  unfold purged_hash in *. destruct (purge_expired now_ms h) as [[freed empty] h']. cbn [snd] in *.
  destruct Hp as (Hf & _ & Hx & _ & _).
  assert (forall f, fields h' !! f = get_live f now_ms h) as Hl by (intros f; by rewrite Hf, live_fields_lookup).
  split; [|done|].
  - intros f. rewrite He, Hl. unfold get_live. destruct (field_expired f now_ms h); [by intros [? ?]|]. apply Hw.
  - intros f. rewrite hview_lookup, He, Hl. unfold get_live. by destruct (field_expired f now_ms h).
Qed.

(** Steps on a clean hash. *)
Ltac by_field f g :=
  destruct (decide (g = f)) as [->|]; cbn [fields expiries];
  rewrite ?lookup_insert_eq, ?lookup_delete_eq, ?lookup_insert_ne, ?lookup_delete_ne by done.

Lemma clean_put now_ms h m f v x :
  clean now_ms h m -> match x with Some d => now_ms < d | None => True end ->
  clean now_ms (mkHash (<[f := v]> (fields h)) (partial_alter (fun _ => x) f (expiries h))) (<[f := (v, x)]> m).
Proof.
  intros [Hw Hf Hv] Hx.
  assert (forall g, partial_alter (fun _ => x) f (expiries h) !! g = if decide (g = f) then x else expiries h !! g) as E.
  { intros g. destruct (decide (g = f)) as [->|]; [by rewrite lookup_partial_alter_eq|by rewrite lookup_partial_alter_ne]. }
  split.
  - intros g. cbn [fields expiries]. rewrite E. by_field f g; [by eexists|apply Hw].
  - intros g. unfold field_expired in *. cbn [expiries]. rewrite E. destruct (decide (g = f)); [|apply Hf].
    destruct x; [|done]. by apply Z.leb_gt.
  - intros g. cbn [fields expiries]. rewrite E. by_field f g; done.
Qed.

Lemma clean_set now_ms h m f v :
  clean now_ms h m -> clean now_ms (mkHash (<[f := v]> (fields h)) (delete f (expiries h))) (<[f := (v, None)]> m).
Proof. intros H. by apply (clean_put now_ms h m f v None). Qed.

Lemma clean_delete now_ms h m f :
  clean now_ms h m -> clean now_ms (mkHash (delete f (fields h)) (delete f (expiries h))) (delete f m).
Proof.
  intros [Hw Hf Hv]. split.
  - intros g. by_field f g; [by intros [? ?]|apply Hw].
  - intros g. specialize (Hf g). unfold field_expired in *. by_field f g; done.
  - intros g. by_field f g; done.
Qed.

Lemma clean_persist now_ms h m f v x :
  clean now_ms h m -> m !! f = Some (v, x) -> clean now_ms (mkHash (fields h) (delete f (expiries h))) (<[f := (v, None)]> m).
Proof.
  intros H E. assert (fields h !! f = Some v) as Ef by (by rewrite (clean_lookup _ _ _ _ H), E).
  rewrite <-(insert_id (fields h) f v) by done. by apply clean_set.
Qed.

Lemma clean_expire now_ms h m f v x d :
  clean now_ms h m -> m !! f = Some (v, x) -> now_ms < d ->
  clean now_ms (mkHash (fields h) (<[f := d]> (expiries h))) (<[f := (v, Some d)]> m).
Proof.
  intros H E Hd. assert (fields h !! f = Some v) as Ef by (by rewrite (clean_lookup _ _ _ _ H), E).
  rewrite <-(insert_id (fields h) f v) by done. by apply (clean_put now_ms h m f v (Some d)).
Qed.

(** A new value, the deadline as it was. *)
Lemma clean_value now_ms h m f v :
  clean now_ms h m -> clean now_ms (mkHash (<[f := v]> (fields h)) (expiries h)) (<[f := (v, m !! f ≫= snd)]> m).
Proof.
  intros H. rewrite <-(clean_deadline_of _ _ _ f H).
  replace (mkHash (<[f := v]> (fields h)) (expiries h))
    with (mkHash (<[f := v]> (fields h)) (partial_alter (fun _ => expiries h !! f) f (expiries h))).
  - apply clean_put; [done|]. pose proof (cl_fresh _ _ _ H f) as Hf. unfold field_expired in Hf.
    destruct (expiries h !! f); [|done]. by apply Z.leb_gt.
  - f_equal. apply partial_alter_self.
Qed.

Lemma clean_new now_ms : clean now_ms hash_empty ∅.
Proof. split; intros f; unfold field_expired; cbn; rewrite ?lookup_empty; [by intros [? ?]|done..]. Qed.

(** ** Lemmas: the loops *)

Lemma size_new_name (x : bytes) (X Y : gset bytes) :
  size (({[x]} ∪ X) ∖ Y) = ((if decide (x ∈ Y) then 0 else 1) + size (X ∖ ({[x]} ∪ Y)))%nat.
Proof.
  destruct (decide (x ∈ Y)).
  - replace (({[x]} ∪ X) ∖ Y) with (X ∖ ({[x]} ∪ Y)) by set_solver. done.
  - replace (({[x]} ∪ X) ∖ Y) with ({[x]} ∪ (X ∖ ({[x]} ∪ Y))).
    + by rewrite Sets.Sets.size_add by set_solver.
    + apply set_eq. intros y. destruct (decide (y = x)); set_solver.
Qed.

Lemma hset_loop now_ms ps : forall a mem h m,
  clean now_ms h m ->
  let '(a', _, h') := foldl hset_one (a, mem, h) ps in
  clean now_ms h' (foldl aset m ps) /\ a' = a + Z.of_nat (size (texts (fst <$> ps) ∖ dom m)).
Proof.
  induction ps as [|[f v] ps IH]; intros a mem h m Hc; cbn [foldl].
  - split; [done|]. unfold texts. cbn. replace (∅ ∖ dom m) with (∅ : gset bytes) by set_solver. rewrite size_empty. lia.
  - pose proof (clean_set now_ms h m (key_string f) v Hc) as Hc1.
    assert (forall a1 mem1, let '(a', _, h') := foldl hset_one
      (a1, mem1, mkHash (<[key_string f := v]> (fields h)) (delete (key_string f) (expiries h))) ps in
      clean now_ms h' (foldl aset (aset m (f, v)) ps) /\
      a' = a1 + Z.of_nat (size (texts (fst <$> ps) ∖ ({[key_string f]} ∪ dom m)))) as H.
    { intros a1 mem1. specialize (IH a1 mem1 _ _ Hc1). destruct (foldl hset_one _ ps) as [[a' mem'] h'].
      rewrite dom_insert_L in IH. exact IH. }
    change (texts (fst <$> (f, v) :: ps)) with ({[key_string f]} ∪ texts (fst <$> ps)).
    rewrite size_new_name. unfold hset_one at 2. rewrite (clean_lookup _ _ _ _ Hc).
    destruct (m !! key_string f) as [[old x]|] eqn:E; cbn [fmap option_fmap option_map].
    + rewrite decide_True by (apply elem_of_dom; by eexists).
      specialize (H a (mem + (zlen v - zlen old))). by destruct (foldl hset_one _ ps) as [[a' mem'] h'].
    + rewrite decide_False by (by apply not_elem_of_dom).
      specialize (H (a + 1) (mem + (zlen f + zlen v + 64))). destruct (foldl hset_one _ ps) as [[a' mem'] h'].
      destruct H as [? ->]. split; [done|lia].
Qed.

Lemma hash_wf_delete h f : hash_wf h -> hash_wf (mkHash (delete f (fields h)) (delete f (expiries h))).
Proof. intros Hw g. by_field f g; [by intros [? ?]|apply Hw]. Qed.

Lemma hview_delete now_ms h f :
  hview now_ms (mkHash (delete f (fields h)) (delete f (expiries h))) = delete f (hview now_ms h).
Proof.
  apply map_eq. intros g. rewrite hview_lookup. unfold field_expired. by_field f g; [done|].
  by rewrite hview_lookup.
Qed.

Lemma hdel_loop now_ms fs : forall a mem h,
  hash_wf h ->
  let '(a', _, h') := foldl (hdel_one now_ms) (a, mem, h) fs in
  hash_wf h' /\ hview now_ms h' = filter (fun p => p.1 ∉ names fs) (hview now_ms h) /\
  a' = a + Z.of_nat (size (dom (hview now_ms h) ∩ names fs)).
Proof.
  induction fs as [|f fs IH]; intros a mem h Hw; cbn [foldl].
  - split; [done|]. change (names []) with (∅ : gset bytes). split.
    + symmetry. apply map_filter_id. intros i x _. set_solver.
    + replace (dom (hview now_ms h) ∩ ∅) with (∅ : gset bytes) by set_solver. rewrite size_empty. lia.
  - pose proof (hash_wf_delete h (key_str f) Hw) as Hw1. set (h1 := mkHash _ _) in Hw1.
    change (names (f :: fs)) with ({[key_str f]} ∪ names fs).
    assert (forall a1 mem1, let '(a', _, h') := foldl (hdel_one now_ms) (a1, mem1, h1) fs in
      hash_wf h' /\ hview now_ms h' = filter (fun p => p.1 ∉ {[key_str f]} ∪ names fs) (hview now_ms h) /\
      a' = a1 + Z.of_nat (size ((dom (hview now_ms h) ∖ {[key_str f]}) ∩ names fs))) as H.
    { intros a1 mem1. specialize (IH a1 mem1 h1 Hw1). destruct (foldl _ _ fs) as [[a' mem'] h'].
      unfold h1 in IH. rewrite hview_delete, dom_delete_L in IH. destruct IH as (? & -> & ->). split; [done|].
      split; [|done]. apply map_eq. intros g. rewrite !map_lookup_filter.
      destruct (decide (g = key_str f)) as [->|Hne].
      - rewrite lookup_delete_eq. cbn. destruct (hview now_ms h !! key_str f); [|done]. cbn.
        rewrite option_guard_False by set_solver. done.
      - rewrite lookup_delete_ne by done. destruct (hview now_ms h !! g); [|done]. cbn.
        apply option_guard_iff. set_solver. }
    unfold hdel_one at 2.
    assert (key_str f ∈ dom (hview now_ms h) <-> is_Some (fields h !! key_str f) /\ field_expired (key_str f) now_ms h = false) as Hd.
    { rewrite elem_of_dom, hview_lookup. destruct (field_expired _ _ _).
      - split; [by intros [? ?]|]. by intros [_ ?].
      - rewrite fmap_is_Some. tauto. }
    assert (forall z, (if decide (key_str f ∈ dom (hview now_ms h)) then z = 1 else z = 0) -> forall n,
      n = a + z + Z.of_nat (size ((dom (hview now_ms h) ∖ {[key_str f]}) ∩ names fs)) ->
      n = a + Z.of_nat (size (dom (hview now_ms h) ∩ ({[key_str f]} ∪ names fs)))) as Hsz.
    { intros z Hz n ->. destruct (decide _) as [Hin|Hin]; subst z.
      - replace (dom (hview now_ms h) ∩ ({[key_str f]} ∪ names fs)) with
          ({[key_str f]} ∪ ((dom (hview now_ms h) ∖ {[key_str f]}) ∩ names fs)).
        + rewrite Sets.Sets.size_add by set_solver. lia.
        + apply set_eq. intros y. destruct (decide (y = key_str f)); set_solver.
      - replace (dom (hview now_ms h) ∩ ({[key_str f]} ∪ names fs)) with
          ((dom (hview now_ms h) ∖ {[key_str f]}) ∩ names fs); [lia|].
        apply set_eq. intros y. destruct (decide (y = key_str f)); set_solver. }
    destruct (fields h !! key_str f) as [old|] eqn:E.
    + pose proof (fun a1 => H a1 (mem + (zlen f + zlen old + 64))) as H1. fold h1.
      destruct (field_expired (key_str f) now_ms h) eqn:Ex.
      * specialize (H1 a). destruct (foldl _ _ fs) as [[a' mem'] h']. destruct H1 as (? & ? & ->).
        split; [done|]. split; [done|]. apply (Hsz 0); [|lia]. rewrite decide_False; [done|]. rewrite Hd. by intros [_ ?].
      * specialize (H1 (a + 1)). destruct (foldl _ _ fs) as [[a' mem'] h']. destruct H1 as (? & ? & ->).
        split; [done|]. split; [done|]. apply (Hsz 1); [|lia]. rewrite decide_True; [done|]. apply Hd. split; [by eexists|done].
    + specialize (H a mem). fold h1. destruct (foldl _ _ fs) as [[a' mem'] h']. destruct H as (? & ? & ->).
      split; [done|]. split; [done|]. apply (Hsz 0); [|lia]. rewrite decide_False; [done|]. rewrite Hd.
      by intros [[? ?] _].
Qed.

(** The loops that follow an abstract step. *)
Definition follows {R : Type} (now_ms : Z) (step : list R * Z * HashData -> bytes -> list R * Z * HashData)
    (astep : list R * table -> bytes -> list R * table) : Prop :=
  forall out mem h m f, clean now_ms h m ->
  let '(out', _, h') := step (out, mem, h) f in
  let '(aout, m') := astep (out, m) f in out' = aout /\ clean now_ms h' m'.

Lemma follows_loop {R : Type} (now_ms : Z) (step : list R * Z * HashData -> bytes -> list R * Z * HashData)
    (astep : list R * table -> bytes -> list R * table) (fs : list bytes) :
  follows now_ms step astep -> forall out mem h m, clean now_ms h m ->
  let '(out', _, h') := foldl step (out, mem, h) fs in
  let '(aout, m') := foldl astep (out, m) fs in out' = aout /\ clean now_ms h' m'.
Proof.
  intros Hs. induction fs as [|f fs IH]; intros out mem h m Hc; cbn [foldl]; [done|].
  specialize (Hs out mem h m f Hc). destruct (step (out, mem, h) f) as [[out1 mem1] h1].
  destruct (astep (out, m) f) as [aout m1]. destruct Hs as [-> Hc1]. by apply IH.
Qed.

Lemma hexpire_follows now_ms d cond : follows now_ms (hexpire_one now_ms d cond) (aexpire now_ms d cond).
Proof.
  intros out mem h m f Hc. unfold hexpire_one, aexpire. rewrite (clean_lookup _ _ _ _ Hc), (clean_deadline_of _ _ _ _ Hc).
  destruct (m !! key_str f) as [[v x]|] eqn:E; cbn; [|done]. destruct (allowed cond d x); cbn [negb]; [|done].
  destruct (Z.leb_spec d now_ms); (split; [done|]); [by apply clean_delete|by apply (clean_expire _ _ _ _ v x)].
Qed.

Lemma hgetdel_follows now_ms k : follows now_ms (hgetdel_one is_encrypted_value decrypt k) (agetdel k).
Proof.
  intros out mem h m f Hc. unfold hgetdel_one, agetdel, reading. rewrite (clean_lookup _ _ _ _ Hc).
  destruct (m !! key_str f) as [[v x]|] eqn:E; cbn; (split; [done|]); by apply clean_delete.
Qed.

Lemma hgetex_follows now_ms k ttl : follows now_ms (hgetex_one is_encrypted_value decrypt k now_ms ttl) (agetex k now_ms ttl).
Proof.
  intros out mem h m f Hc. unfold hgetex_one, agetex, reading. rewrite (clean_lookup _ _ _ _ Hc).
  destruct (m !! key_str f) as [[v x]|] eqn:E; cbn; [|done].
  destruct (dec k f v) as [p|e]; cbn; [|done]. destruct ttl as [| |ms]; [done| |].
  - split; [done|]. by apply (clean_persist _ _ _ _ v x).
  - destruct (Z.leb_spec ms now_ms); (split; [done|]); [by apply clean_delete|by apply (clean_expire _ _ _ _ v x)].
Qed.

Lemma hpersist_loop now_ms fs : forall out h m, clean now_ms h m ->
  let '(out', h') := foldl hpersist_one (out, h) fs in
  let '(aout, m') := foldl apersist (out, m) fs in out' = aout /\ clean now_ms h' m'.
Proof.
  induction fs as [|f fs IH]; intros out h m Hc; cbn [foldl]; [done|]. unfold hpersist_one at 2, apersist at 2.
  rewrite (clean_lookup _ _ _ _ Hc), (clean_deadline_of _ _ _ _ Hc).
  destruct (m !! key_str f) as [[v x]|] eqn:E; cbn; apply IH; [|done]. by apply (clean_persist _ _ _ _ v x).
Qed.

(** ** Lemmas: the store *)

Lemma hok_same now now_ms s s' A :
  hashes_ok now now_ms s A -> hot s' -> (forall k, find s' k = find s k) -> hashes_ok now now_ms s' A.
Proof.
  intros [Hh Hs Hw] Hh' E. split; [done|..].
  - intros k. by rewrite Hs, E.
  - intros k e h. rewrite E. apply Hw.
Qed.

Lemma hok_ext now now_ms s A B : hashes_ok now now_ms s A -> (forall k, B k = A k) -> hashes_ok now now_ms s B.
Proof. intros [Hh Hs Hw] E. split; [done| |done]. intros k. by rewrite E. Qed.

Lemma hok_bump now now_ms key s A : hashes_ok now now_ms s A -> hashes_ok now now_ms (bump key s) A.
Proof. intros H. eapply hok_same; [done|apply hot_bump, H|]. intros k. by rewrite find_bump. Qed.

Lemma hok_charge now now_ms key n s A : hashes_ok now now_ms s A -> hashes_ok now now_ms (charge key n s) A.
Proof.
  intros H. pose proof (ho_hot _ _ _ _ H) as [Hn Hd]. eapply hok_same; [done| |].
  - split; [by apply nonempty_shard_mem_add|done].
  - intros k. unfold charge. by rewrite find_mem_add, find_shard_mem_add.
Qed.

Lemma hok_refund now now_ms key n s A : hashes_ok now now_ms s A -> hashes_ok now now_ms (refund key n s) A.
Proof.
  intros H. pose proof (ho_hot _ _ _ _ H) as [Hn Hd]. eapply hok_same; [done| |].
  - split; [by apply nonempty_shard_mem_sub|done].
  - intros k. unfold refund. by rewrite find_mem_sub, find_shard_mem_sub.
Qed.

Lemma hok_adjust now now_ms key n s A : hashes_ok now now_ms s A -> hashes_ok now now_ms (adjust key n s) A.
Proof. intros H. unfold adjust. destruct (n >? 0); [by apply hok_charge|]. destruct (n <? 0); [by apply hok_refund|done]. Qed.

Lemma hok_put now now_ms key e h s A :
  hashes_ok now now_ms s A -> is_expired_at now e = false -> hash_wf h ->
  hashes_ok now now_ms (put_hash key e h s) (hupd key (HHash (hview now_ms h) (expires_at e)) A).
Proof.
  intros [Hh Hs Hw] He Hd. unfold put_hash. split; [by apply hot_put_data|..].
  - intros k. unfold hupd. rewrite find_put_data by apply Hh. destruct (decide (k = key)); [|done].
    cbn [hslot_at value expires_at]. unfold is_expired_at in *. cbn [expires_at]. by rewrite He.
  - intros k e' h'. rewrite find_put_data by apply Hh. destruct (decide (k = key)); [|apply Hw].
    by intros [= <-] [= <-].
Qed.

Lemma hupd_hupd k x y A k' : hupd k x (hupd k y A) k' = hupd k x A k'.
Proof. unfold hupd. by destruct (decide (k' = k)). Qed.

Lemma hupd_self k A k' : hupd k (A k) A k' = A k'.
Proof. unfold hupd. destruct (decide (k' = k)); by subst. Qed.

(** Dropping a key. *)
Lemma hok_drop now now_ms key s A (b : bool) :
  hashes_ok now now_ms s A ->
  hashes_ok now now_ms (drop_if b key s) (if b then hupd key HAbsent A else A).
Proof.
  intros Hok. unfold drop_if. destruct b; [|done]. pose proof Hok as [Hh Hs Hw].
  destruct (find s key) as [e|] eqn:Ef.
  - split; [by apply (hot_drop_data key)|..].
    + intros k. unfold hupd. rewrite find_key_removed, find_drop_data by apply Hh. by destruct (decide (k = key)).
    + intros k e' h. rewrite find_key_removed, find_drop_data by apply Hh. destruct (decide (k = key)); [done|]. apply Hw.
  - eapply hok_ext; [done|]. intros k. unfold hupd. destruct (decide (k = key)) as [->|]; [|done]. by rewrite Hs, Ef.
Qed.

Lemma hview_cases now now_ms s A k :
  hashes_ok now now_ms s A ->
  (view_hash k now s = Ok None /\ A k = HAbsent) \/
  (exists e h, view_hash k now s = Ok (Some (e, h)) /\ A k = HHash (hview now_ms h) (expires_at e) /\
     hash_wf h /\ is_expired_at now e = false) \/
  (view_hash k now s = Err WRONGTYPE /\ hother (A k) = true).
Proof.
  intros [Hh Hs Hw]. rewrite (Hs k). unfold view_hash, hslot_at.
  destruct (find s k) as [e|] eqn:Ef; [|by left]. destruct (is_expired_at now e) eqn:Ee; [by left|].
  specialize (Hw k e). destruct (value e) eqn:Ev; try (by right; right).
  right; left. exists e, h. split; [done|]. split; [done|]. split; [by apply Hw|done].
Qed.

Lemma hopen_cases now now_ms s A k :
  hashes_ok now now_ms s A ->
  let '(e, s1) := open_hash k now s in
  hashes_ok now now_ms s1 A /\ is_expired_at now e = false /\
  if hother (A k) then match value e with VHash _ => False | _ => s1 = s end
  else exists h, value e = VHash h /\ hash_wf h /\ hview now_ms h = table_of (A k) /\ expires_at e = hdeadline (A k).
Proof.
  intros Hok. pose proof Hok as [Hh Hs Hw]. rewrite (Hs k). unfold open_hash, hslot_at.
  assert (exists h, VHash hash_empty = VHash h /\ hash_wf h /\ hview now_ms h = ∅ /\ @None Z = None) as Hnew.
  { exists hash_empty. split; [done|]. pose proof (clean_new now_ms) as H. split; [apply H|]. split; [by apply clean_hview|done]. }
  destruct (find s k) as [e|] eqn:Ef; [destruct (is_expired_at now e) eqn:Ee|].
  - split; [done|]. split; [done|]. exact Hnew.
  - split; [done|]. split; [done|]. specialize (Hw k e). destruct (value e) eqn:Ev; cbn [hother]; try done.
    exists h. split; [done|]. split; [by apply Hw|done].
  - split; [by apply (hok_same now now_ms s)|]. split; [done|]. exact Hnew.
Qed.

Ltac hviews now now_ms s A k Hok :=
  destruct (hview_cases now now_ms s A k Hok) as [(Hv & Ha)|[(e & h & Hv & Ha & Hw & He)|(Hv & Ha)]];
  rewrite ?Hv.

(** ** Lemmas: listings *)

Lemma live_iter_listing now_ms h : listing (hview now_ms h) (live_iter now_ms h).
Proof.
  unfold listing, live_iter. apply NoDup_Permutation.
  - apply NoDup_filter, NoDup_map_to_list.
  - apply NoDup_map_to_list.
  - intros [f v]. rewrite list_elem_of_filter, !elem_of_map_to_list, lookup_fmap, hview_lookup. cbn.
    destruct (field_expired f now_ms h); cbn; [naive_solver|]. destruct (fields h !! f); cbn; naive_solver.
Qed.

Lemma live_len_size now_ms h : live_len now_ms h = Z.of_nat (size (hview now_ms h)).
Proof.
  unfold live_len, zlen. f_equal. pose proof (live_iter_listing now_ms h) as H. unfold listing in H.
  rewrite H. rewrite length_map_to_list. apply map_size_fmap.
Qed.

Lemma get_live_view now_ms h f : get_live f now_ms h = fst <$> hview now_ms h !! f.
Proof. unfold get_live. rewrite hview_lookup. destruct (field_expired f now_ms h); [done|]. by destruct (fields h !! f). Qed.

Lemma contains_live_view now_ms h f : contains_live f now_ms h = bool_decide (is_Some (hview now_ms h !! f)).
Proof.
  unfold contains_live. rewrite hview_lookup. destruct (field_expired f now_ms h); cbn [negb].
  - rewrite andb_false_r. symmetry. apply bool_decide_eq_false_2. by intros [? ?].
  - rewrite andb_true_r. apply bool_decide_ext. by rewrite fmap_is_Some.
Qed.

Lemma ttl_view now_ms h f :
  (if negb (contains_live f now_ms h) then TtlMissing
   else match expiries h !! f with Some ms => TtlExpiresAtMs ms | None => TtlNone end) =
  match hview now_ms h !! f with
  | None => TtlMissing
  | Some (_, Some ms) => TtlExpiresAtMs ms
  | Some (_, None) => TtlNone
  end.
Proof.
  rewrite contains_live_view, hview_lookup. destruct (field_expired f now_ms h); cbn; [done|].
  destruct (fields h !! f); cbn; [|done]. by destruct (expiries h !! f).
Qed.

(** ** Lemmas: the commands *)

Lemma hset_ok now now_ms k ps s A :
  hashes_ok now now_ms s A ->
  let '(r, s') := hset hll_count clock k ps now now_ms s in
  exists A', hspec now_ms (HSet k ps) A (hreply_of HInt r) false A' /\ hashes_ok now now_ms s' A'.
Proof.
  intros Hok. unfold hset. unfold promoted. rewrite hot_promote by apply Hok. apply (hok_bump now now_ms k) in Hok.
  unfold hset_on_shard. pose proof (hopen_cases now now_ms _ A k Hok) as H.
  destruct (open_hash k now (bump k s)) as [e s1]. destruct H as (Hok1 & He & H). cbn [hspec].
  destruct (hother (A k)).
  - destruct (value e); done || by exists A.
  - destruct H as (h & -> & Hw & Hv & Hx). pose proof (hset_loop now_ms ps 0 0 _ _ (purge_clean now_ms h Hw)) as Hl.
    destruct (foldl hset_one _ ps) as [[a d] h']. destruct Hl as [Hc ->]. rewrite Hv in Hc |- *.
    pose proof (hok_adjust now now_ms k d _ _ (hok_put now now_ms k e h' s1 A Hok1 He (cl_wf _ _ _ Hc))) as Hr.
    rewrite (clean_hview _ _ _ Hc), Hx in Hr. eexists. split; [|exact Hr]. done.
Qed.

Lemma hget_ok now now_ms k f s A :
  hashes_ok now now_ms s A ->
  let '(r, poisoned, s') := hget_checked hll_count clock is_encrypted_value decrypt k f now now_ms s in
  hspec now_ms (HGet k f) A (hreply_of HBulk r) poisoned A /\ s' = s.
Proof.
  intros Hok. unfold hget_checked. rewrite hot_promote by apply Hok. cbn [hspec].
  hviews now now_ms s A k Hok; [rewrite Ha..|].
  - done.
  - rewrite get_live_view. cbn [table_of]. destruct (hview now_ms h !! key_str f) as [[v x]|]; cbn; [|done].
    by destruct (dec k f v).
  - destruct (A k); try done.
Qed.

Lemma hdel_ok now now_ms k fs s A :
  hashes_ok now now_ms s A ->
  let '(r, s') := hdel hll_count clock k fs now now_ms s in
  exists A', hspec now_ms (HDel k fs) A (hreply_of HInt r) false A' /\ hashes_ok now now_ms s' A'.
Proof.
  intros Hok. unfold hdel, promoted. rewrite hot_promote by apply Hok. apply (hok_bump now now_ms k) in Hok.
  cbn [hspec]. hviews now now_ms (bump k s) A k Hok; rewrite ?Ha; cbn [hother table_of hdeadline].
  - exists A. split; [|done]. split; [done|]. split; [|done]. cbn. do 2 f_equal.
    replace (dom (∅ : table) ∩ names fs) with (∅ : gset bytes) by set_solver. done.
  - pose proof (hdel_loop now_ms fs 0 0 h Hw) as Hl. destruct (foldl _ _ fs) as [[a freed] h'].
    destruct Hl as (Hw' & Hv' & ->).
    pose proof (hok_refund now now_ms k freed _ _ (hok_put now now_ms k e h' _ A Hok He Hw')) as Hr.
    apply (hok_drop _ _ k _ _ (bool_decide (fields h' = ∅))) in Hr. rewrite Hv' in Hr.
    case_bool_decide as Hemp.
    + exists (hupd k HAbsent A). split.
      * split; [done|]. split; [done|]. right. split; [|done]. rewrite <-Hv'. apply map_eq. intros g.
        rewrite hview_lookup, Hemp, lookup_empty. by destruct (field_expired g now_ms h').
      * eapply hok_ext; [exact Hr|]. intros k'. by rewrite hupd_hupd.
    + eexists. split; [|exact Hr]. split; [done|]. split; [done|]. by left.
  - by exists A.
Qed.

Lemma hincrby_ok now now_ms k f d s A :
  hashes_ok now now_ms s A ->
  let '(r, s') := hincrby k f d now now_ms s in
  exists A', hspec now_ms (HIncrBy k f d) A (hreply_of HInt r) false A' /\ hashes_ok now now_ms s' A'.
Proof.
  intros Hok. unfold hincrby. apply (hok_bump now now_ms k) in Hok.
  unfold hincrby_on_shard. pose proof (hopen_cases now now_ms _ A k Hok) as H.
  destruct (open_hash k now (bump k s)) as [e s1]. destruct H as (Hok1 & He & H). cbn [hspec].
  destruct (hother (A k)).
  { destruct (value e); done || by exists A. }
  destruct H as (h & -> & Hw & Hv & Hx). pose proof (purge_clean now_ms h Hw) as Hc. rewrite Hv in Hc.
  set (h1 := purged_hash now_ms h) in *. set (m := table_of (A k)) in *. unfold aincrby. cbv zeta.
  cbn [fields expiries]. rewrite (clean_lookup _ _ _ _ Hc).
  destruct (m !! key_str f) as [[v x]|] eqn:E; cbn [fmap option_fmap option_map fst].
  - pose proof (clean_persist _ _ _ _ v x Hc E) as Hc1. set (h2 := mkHash (fields h1) _) in *.
    destruct (if is_utf8 v then parse_i64 v else None) as [n|].
    + pose proof (clean_value _ _ _ (key_str f) (fmt_i (as_i64 (n + d))) Hc1) as Hc2.
      rewrite lookup_insert_eq, insert_insert_eq in Hc2. cbn [mbind option_bind snd] in Hc2.
      pose proof (hok_adjust now now_ms k (zlen (fmt_i (as_i64 (n + d))) - zlen v) _ _
        (hok_put now now_ms k e _ s1 A Hok1 He (cl_wf _ _ _ Hc2))) as Hr.
      rewrite (clean_hview _ _ _ Hc2), Hx in Hr. eexists. split; [|exact Hr]. done.
    + pose proof (hok_put now now_ms k e h2 s1 A Hok1 He (cl_wf _ _ _ Hc1)) as Hr.
      rewrite (clean_hview _ _ _ Hc1), Hx in Hr. eexists. split; [|exact Hr]. done.
  - assert (delete (key_str f) (expiries h1) = expiries h1) as ->.
    { apply delete_id. by rewrite (clean_deadline_of _ _ _ _ Hc), E. }
    pose proof (clean_value _ _ _ (key_string f) (fmt_i d) Hc) as Hc2.
    pose proof (hok_charge now now_ms k (zlen f + zlen (fmt_i d) + 64) _ _
      (hok_put now now_ms k e _ s1 A Hok1 He (cl_wf _ _ _ Hc2))) as Hr.
    rewrite (clean_hview _ _ _ Hc2), Hx in Hr. eexists. split; [|exact Hr]. done.
Qed.

(** The three commands over the fields of a purged hash. *)
Lemma over_fields_ok {R : Type} (now now_ms : Z) (step : list R * Z * HashData -> bytes -> list R * Z * HashData)
    (astep : list R * table -> bytes -> list R * table) missing bumps k fs s A :
  follows now_ms step astep -> foldl astep ([], ∅) fs = ((fun _ => missing) <$> fs, ∅) ->
  hashes_ok now now_ms s A ->
  let '(r, s') := over_fields step missing bumps k fs now now_ms s in
  if hother (A k) then r = Err WRONGTYPE /\ hashes_ok now now_ms s' A
  else let '(out, m') := foldl astep ([], table_of (A k)) fs in
       r = Ok out /\ hashes_ok now now_ms s' (hupd k (settle m' (hdeadline (A k))) A).
Proof.
  intros Hf Hnil Hok. unfold over_fields.
  assert (hashes_ok now now_ms (if bumps then bump k s else s) A) as Hok1 by (destruct bumps; [by apply hok_bump|done]).
  set (s1 := if bumps then _ else _) in *. hviews now now_ms s1 A k Hok1; rewrite ?Ha; cbn [hother table_of hdeadline].
  - rewrite Hnil. split; [done|]. eapply hok_ext; [exact Hok1|]. intros k'. unfold settle. rewrite decide_True by done.
    rewrite <-Ha. apply hupd_self.
  - pose proof (follows_loop now_ms step astep fs Hf [] 0 _ _ (purge_clean now_ms h Hw)) as Hl.
    clear Hnil. destruct (foldl step _ fs) as [[out freed] h']. destruct (foldl astep _ fs) as [aout m']. destruct Hl as [-> Hc].
    split; [done|].
    pose proof (hok_refund now now_ms k freed _ _ (hok_put now now_ms k e h' _ A Hok1 He (cl_wf _ _ _ Hc))) as Hr.
    apply (hok_drop _ _ k _ _ (bool_decide (fields h' = ∅))) in Hr. rewrite (clean_hview _ _ _ Hc) in Hr.
    pose proof (clean_empty _ _ _ Hc) as Hemp. unfold settle. destruct (decide (m' = ∅)) as [Hm|Hm].
    + rewrite bool_decide_eq_true_2 in Hr |- * by (by apply Hemp). eapply hok_ext; [exact Hr|].
      intros k'. by rewrite hupd_hupd.
    + by rewrite bool_decide_eq_false_2 in Hr |- * by (by rewrite Hemp).
  - done.
Qed.

Lemma foldl_missing {R : Type} (astep : list R * table -> bytes -> list R * table) missing fs :
  (forall out f, astep (out, ∅) f = (out ++ [missing], ∅)) ->
  foldl astep ([], ∅) fs = ((fun _ => missing) <$> fs, ∅).
Proof.
  intros H. assert (forall out, foldl astep (out, ∅) fs = (out ++ ((fun _ => missing) <$> fs), ∅)) as G; [|apply G].
  induction fs as [|f fs IH]; intros out; cbn [foldl fmap list_fmap]; [by rewrite app_nil_r|].
  by rewrite H, IH, <-(assoc_L (++)).
Qed.

Lemma hpersist_ok now now_ms k fs s A :
  hashes_ok now now_ms s A ->
  let '(r, s') := hpersist_fields k fs now now_ms s in
  exists A', hspec now_ms (HPersist k fs) A (hreply_of HInts r) false A' /\ hashes_ok now now_ms s' A'.
Proof.
  intros Hok. unfold hpersist_fields. apply (hok_bump now now_ms k) in Hok. cbn [hspec].
  hviews now now_ms (bump k s) A k Hok; rewrite ?Ha; cbn [hother table_of hdeadline].
  - exists A. rewrite (foldl_missing apersist (-2)) by (intros; cbn; by rewrite lookup_empty). done.
  - pose proof (hpersist_loop now_ms fs [] _ _ (purge_clean now_ms h Hw)) as Hl.
    destruct (foldl hpersist_one _ fs) as [out h']. destruct (foldl apersist _ fs) as [aout m']. destruct Hl as [-> Hc].
    pose proof (hok_put now now_ms k e h' _ A Hok He (cl_wf _ _ _ Hc)) as Hr. rewrite (clean_hview _ _ _ Hc) in Hr.
    eexists. split; [|exact Hr]. done.
  - by exists A.
Qed.


End Contract.

Abbreviation hspace := (bytes -> hslot).

(** ** Encrypted fields *)

Section Keyring.

Context (hll_count : bytes -> Z) (clock : Z).
Context (is_encrypted_value : bytes -> bool) (encrypt decrypt : bytes -> bytes -> bytes -> result bytes).

Lemma aset_last m ps f v : foldl aset m (ps ++ [(f, v)]) !! key_string f = Some (v, None).
Proof. rewrite foldl_app. cbn [foldl]. unfold aset at 1. cbn [fst snd]. apply lookup_insert_eq. Qed.

Lemma collect_app {A B : Type} (g : A -> result B) l x r :
  collect g (l ++ [x]) = Ok r -> exists ys y, g x = Ok y /\ r = ys ++ [y].
Proof.
  revert r. induction l as [|a l IH]; intros r; cbn [app collect].
  - destruct (g x) as [y|]; [|done]. intros [= <-]. by exists [], y.
  - destruct (g a) as [b|]; [|done]. destruct (collect g (l ++ [x])) as [ys0|]; [|done].
    destruct (IH ys0 eq_refl) as (ys & y & ? & ->). intros [= <-]. by exists (b :: ys), y.
Qed.

(** What HGET gives for the last field an HSET wrote. *)
Lemma hget_after_hset now now_ms k ps f v s A :
  hashes_ok now now_ms s A -> hother (A k) = false -> is_utf8 f = true ->
  let s' := (hset hll_count clock k (ps ++ [(f, v)]) now now_ms s).2 in
  (hget_checked hll_count clock is_encrypted_value decrypt k f now now_ms s').1 =
    match decrypt_hash_field_value is_encrypted_value decrypt k f v with
    | Ok p => (Ok (Some p), false)
    | Err e => (Err e, true)
    end.
Proof.
  intros Hok Ho Hu s'. unfold s'. pose proof (hset_ok hll_count clock is_encrypted_value decrypt now now_ms k (ps ++ [(f, v)]) s A Hok) as H.
  destruct (hset _ _ _ _ _ _ _) as [r s1]. cbn [snd]. destruct H as (A' & Hs & Hok1). cbn [hspec] in Hs. rewrite Ho in Hs.
  destruct Hs as (_ & Hsame & _). pose proof (hget_ok hll_count clock is_encrypted_value decrypt now now_ms k f s1 A' Hok1) as H.
  destruct (hget_checked _ _ _ _ _ _ _ _ _) as [[r' po] s2]. destruct H as [[_ H] ->].
  rewrite Hsame in H. unfold hupd in H. rewrite decide_True in H by done. cbn [table_of fst] in *.
  assert (key_str f = key_string f) as E by (by rewrite key_str_utf8, key_string_utf8).
  rewrite E, aset_last in H.
  destruct (decrypt_hash_field_value _ _ k f v) as [p|e], r' as [[q|]|x]; cbn in H; destruct H as [H ->]; try done; congruence.
Qed.

(** What HSET stored is what HGET gives back, encrypted or not: for a field named by text, a key
    that is not table storage, and a plain value that does not itself look encrypted, preparing and
    applying an HSET (with the ENCRYPTED flag, or onto a field that is already encrypted, or neither)
    makes HGET of the last field written answer the plain value, without poisoning the journal. The
    hypothesis on the keyring is that what it encrypts is recognised and decrypts to the value. *)
Theorem hset_hget_roundtrip (now now_ms : Z) (k f v : bytes) (ps : list (bytes * bytes)) (encrypted : bool)
    (stored : list (bytes * bytes)) (s : Store) (A : hspace) :
  (forall k f v c, encrypt k f v = Ok c -> is_encrypted_value c = true /\ decrypt k f c = Ok v) ->
  hashes_ok now now_ms s A -> is_utf8 f = true -> is_table_storage_key k = false ->
  is_encrypted_value v = false ->
  prepare_hset_kv is_encrypted_value encrypt k (ps ++ [(f, v)]) encrypted now s = Ok stored ->
  let s' := (hset hll_count clock k stored now now_ms s).2 in
  (hget_checked hll_count clock is_encrypted_value decrypt k f now now_ms s').1 = (Ok (Some v), false).
Proof.
  intros Hk Hok Hu Ht Hp Hprep. unfold prepare_hset_kv in Hprep.
  assert (hother (A k) = false) as Ho.
  { destruct (hview_cases now now_ms s A k Hok) as [(Hv & ->)|[(e & h & Hv & -> & _)|(Hv & Ha)]]; try done.
    by rewrite Hv in Hprep. }
  destruct (view_hash k now s) as [ex|]; [|done]. apply collect_app in Hprep as (ys & [f' c] & Hc & ->).
  cbv beta iota zeta in Hc. set (b := encrypted || _) in Hc.
  assert (f' = f /\ decrypt_hash_field_value is_encrypted_value decrypt k f c = Ok v) as [-> Hd].
  { unfold decrypt_hash_field_value. rewrite Ht. cbn [orb]. destruct b.
    - unfold encrypt_hash_field_value in Hc. destruct (encrypt (key_string k) (key_string f) v) as [c'|] eqn:Ee; [|done].
      injection Hc as <- <-. destruct (Hk _ _ _ _ Ee) as [-> ->]. done.
    - injection Hc as <- <-. by rewrite Hp. }
  cbv zeta. rewrite (hget_after_hset now now_ms k ys f c s A Hok Ho Hu). by rewrite Hd.
Qed.

(** A client can plant a value that looks encrypted. HSET without the ENCRYPTED flag stores it as
    it is; if the keyring cannot decrypt it, the next HGET of the field, a read, fails and poisons
    the journal, after which the database refuses traffic until it is restarted. *)
Theorem planted_envelope_poisons (now now_ms : Z) (k f v : bytes) (e : string) (s : Store) (A : hspace) :
  hashes_ok now now_ms s A -> A k = HAbsent -> is_utf8 f = true -> is_table_storage_key k = false ->
  is_encrypted_value v = true -> decrypt (key_string k) (key_string f) v = Err e ->
  prepare_hset_kv is_encrypted_value encrypt k [(f, v)] false now s = Ok [(f, v)] /\
  let s' := (hset hll_count clock k [(f, v)] now now_ms s).2 in
  (hget_checked hll_count clock is_encrypted_value decrypt k f now now_ms s').1 = (Err e, true).
Proof.
  intros Hok Ha Hu Ht Hv Hd. split.
  - unfold prepare_hset_kv. destruct (hview_cases now now_ms s A k Hok) as [(-> & _)|[(e' & h & _ & Ha' & _)|(_ & Ha')]].
    + done.
    + congruence.
    + by rewrite Ha in Ha'.
  - pose proof (hget_after_hset now now_ms k [] f v s A Hok ltac:(by rewrite Ha) Hu) as H. cbn [app] in H. cbv zeta.
    rewrite H. unfold decrypt_hash_field_value. rewrite Ht, Hv. cbn [orb negb]. by rewrite Hd.
Qed.

End Keyring.

(** A field whose deadline has passed is gone for HEXISTS and HGET, but HSETNX refuses to write it
    and HSTRLEN still reports the length of the old value. *)
Theorem expired_field_blocks_hsetnx (now now_ms : Z) (k f v w : bytes) (e : Entry) (h : HashData) (s : Store) :
  find s k = Some e -> is_expired_at now e = false -> value e = VHash h ->
  fields h !! key_str f = Some v -> field_expired (key_str f) now_ms h = true ->
  hexists k f now now_ms s = Ok false /\ (hsetnx k f w now s).1 = Ok false /\ hstrlen k f now s = zlen v.
Proof.
  intros Hf He Hv Hx Hexp. unfold hexists, hsetnx, hstrlen, view_hash, open_hash. rewrite find_bump, Hf, He, Hv.
  unfold contains_live. rewrite Hexp, Hx, andb_false_r. done.
Qed.

(** ** Witnesses *)

Lemma new_hashes_ok now now_ms : hashes_ok now now_ms (new 4) (fun _ => HAbsent).
Proof.
  assert (forall k, find (new 4) k = None) as H.
  { intros k. unfold find, shard_at, new. cbn [shards].
    destruct (replicate 4 empty_shard !! _) as [sh|] eqn:E; [|done].
    apply lookup_replicate in E as [-> _]. done. }
  split; [split; [unfold nonempty; cbn; lia|done]|..].
  - intros k. by rewrite H.
  - intros k e h. by rewrite H.
Qed.

(** A keyring for the witnesses: an envelope is a marker byte in front of the value. *)
Definition toy_encrypted (v : bytes) : bool := match v with 7 :: _ => true | _ => false end.
Definition toy_encrypt (k f v : bytes) : result bytes := Ok (7 :: v).
Definition toy_decrypt (k f c : bytes) : result bytes :=
  match c with 7 :: v => Ok v | _ => Err "not an envelope" end.


Lemma hset_hget_roundtrip_witness :
  let s' := (hset (fun _ => 0) 7 (bs "k") [(bs "f", 7 :: bs "secret")] 7 70 (new 4)).2 in
  (hget_checked (fun _ => 0) 7 toy_encrypted toy_decrypt (bs "k") (bs "f") 7 70 s').1 = (Ok (Some (bs "secret")), false).
Proof.
  apply (hset_hget_roundtrip (fun _ => 0) 7 toy_encrypted toy_encrypt toy_decrypt 7 70 (bs "k") (bs "f") (bs "secret") []
    true [(bs "f", 7 :: bs "secret")] (new 4) (fun _ => HAbsent)).
  - intros k f v c [= <-]. split; reflexivity.
  - apply new_hashes_ok.
  - reflexivity.
  - reflexivity.
  - reflexivity.
  - vm_compute. reflexivity.
Defined.

Lemma planted_envelope_poisons_witness :
  let decrypt := fun _ _ _ => Err "unknown key id" in
  let s' := (hset (fun _ => 0) 7 (bs "k") [(bs "f", 7 :: bs "junk")] 7 70 (new 4)).2 in
  (hget_checked (fun _ => 0) 7 toy_encrypted decrypt (bs "k") (bs "f") 7 70 s').1 = (Err "unknown key id", true).
Proof.
  apply (planted_envelope_poisons (fun _ => 0) 7 toy_encrypted toy_encrypt (fun _ _ _ => Err "unknown key id") 7 70
    (bs "k") (bs "f") (7 :: bs "junk") "unknown key id" (new 4) (fun _ => HAbsent)).
  - apply new_hashes_ok.
  - reflexivity.
  - reflexivity.
  - reflexivity.
  - reflexivity.
  - reflexivity.
Defined.

End Hashes.
