(* ===== verification/Bits.v ===== *)
(** * Bit operations ([src/src/store/mod.rs], lines 109-176 and 6034-6441, and the argument parsers of
      [src/src/cmd/bitops.rs])

    SETBIT, GETBIT, BITFIELD, BITCOUNT, BITPOS and BITOP on strings, at the width of the integers the
    code uses. The contract reads a string as a sequence of bits, the first bit the most significant
    one of the first byte, followed by zeros; a field of [n] bits is the number its bits spell,
    signed or not. *)

From S2P Require Import Prelude.
From S2P Require Import Values.
From S2P Require Import Store.
From S2P Require Import Strings.
From S2P Require Import Lists.
Local Open Scope Z_scope.

Module Bits.
Import Values.Values Store.Store Strings.Strings.
Import Lists.Lists(charge).

(** ** Fields of bits *)

Inductive BitfieldOverflow := Wrap | Sat | FailOnOverflow.

Inductive BitfieldOp :=
| OpGet (signed : bool) (bits offset : Z)
| OpSet (signed : bool) (bits offset value : Z) (overflow : BitfieldOverflow)
| OpIncrBy (signed : bool) (bits offset incr : Z) (overflow : BitfieldOverflow).

Definition byte_at (buf : bytes) (i : Z) : Z := default 0 (buf !! Z.to_nat i).

(** [(buf[byte_index] >> shift) & 1], or 0 past the end. *)
Definition bit_of (buf : bytes) (bit_index : Z) : Z :=
  let byte_index := bit_index / 8 in
  let shift := 7 - bit_index mod 8 in
  if byte_index <? zlen buf then Z.land (Z.shiftr (byte_at buf byte_index) shift) 1 else 0.

(** [buf[byte_index] |= 1 << shift], or [&= !(1 << shift)]. *)
Definition set_bit (bit : Z) (bit_index : Z) (buf : bytes) : bytes :=
  let byte_index := bit_index / 8 in
  let mask := Z.shiftl 1 (7 - bit_index mod 8) in
  alter (fun b => if bit =? 1 then Z.lor b mask else Z.land b (Z.lxor 255 mask)) (Z.to_nat byte_index) buf.

(** [buf.resize(needed, 0)] when it is shorter. *)
Definition grow (needed : Z) (buf : bytes) : bytes :=
  if zlen buf <? needed then buf ++ replicate (Z.to_nat needed - length buf) 0 else buf.

Definition bf_read (buf : bytes) (offset bits : Z) (signed : bool) : Z :=
  let val := foldl (fun val i => Z.lor (as_u64 (Z.shiftl val 1)) (bit_of buf (offset + i))) 0 (seqZ 0 bits) in
  if signed && (bits <? 64) && (Z.land (Z.shiftr val (bits - 1)) 1 =? 1)
  then as_i64 (Z.lor val (as_u64 (Z.shiftl (u64_mod - 1) bits)))
  else as_i64 val.

Definition div_ceil (a b : Z) : Z := (a + b - 1) / b.

Definition bf_write (buf : bytes) (offset bits value : Z) : bytes :=
  let needed := div_ceil (offset + bits) 8 in
  foldl (fun buf i => set_bit (Z.land (Z.shiftr value (bits - 1 - i)) 1) (offset + i) buf)
    (grow needed buf) (seqZ 0 bits).

Definition bf_clamp (signed : bool) (bits val : Z) (mode : BitfieldOverflow) : option Z :=
  let '(min, max) := if signed then (- Z.shiftl 1 (bits - 1), Z.shiftl 1 (bits - 1) - 1)
                     else (0, Z.shiftl 1 bits - 1) in
  if (min <=? val) && (val <=? max) then Some (as_i64 val)
  else match mode with
       | FailOnOverflow => None
       | Sat => Some (if val <? min then as_i64 min else as_i64 max)
       | Wrap =>
           let range := Z.shiftl 1 bits in
           let w := val mod range in
           Some (as_i64 (if signed && (w >? max) then w - range else w))
       end.

(** One operation of BITFIELD: the results so far and the buffer. *)
Definition bf_op (acc : list (option Z) * bytes) (op : BitfieldOp) : list (option Z) * bytes :=
  let '(results, buf) := acc in
  match op with
  | OpGet signed bits offset => (results ++ [Some (bf_read buf offset bits signed)], buf)
  | OpSet signed bits offset value overflow =>
      let old := bf_read buf offset bits signed in
      match bf_clamp signed bits value overflow with
      | Some v => (results ++ [Some old], bf_write buf offset bits (as_u64 v))
      | None => (results ++ [None], buf)
      end
  | OpIncrBy signed bits offset incr overflow =>
      let old := bf_read buf offset bits signed in
      match bf_clamp signed bits (old + incr) overflow with
      | Some v => (results ++ [Some v], bf_write buf offset bits (as_u64 v))
      | None => (results ++ [None], buf)
      end
  end.

(** ** Arguments *)

Definition BITFIELD_TYPE_ERR : string :=
  "ERR Invalid bitfield type. Use something like i16 u8. Note that u64 is not supported but i64 is.".
Definition BITFIELD_OFFSET_ERR : string := "ERR bit offset is not an integer or out of range".

(** [.parse::<u32>()] *)
Definition parse_u32 (l : bytes) : option Z :=
  n ← parse_u64 l; if n <? u32_mod then Some n else None.

Definition parse_bitfield_type (arg : bytes) : result (bool * Z) :=
  match arg with
  | [] => Err BITFIELD_TYPE_ERR
  | c :: digits =>
      match (if (c =? 105) || (c =? 73) then Some true
             else if (c =? 117) || (c =? 85) then Some false else None) with
      | None => Err BITFIELD_TYPE_ERR
      | Some signed =>
          match (if is_utf8 digits then parse_u32 digits else None) with
          | None => Err BITFIELD_TYPE_ERR
          | Some bits =>
              let ok := if signed : bool then (1 <=? bits) && (bits <=? 64) else (1 <=? bits) && (bits <=? 63) in
              if negb ok then Err BITFIELD_TYPE_ERR else Ok (signed, bits)
          end
      end
  end.

Definition parse_bitfield_offset (arg : bytes) (bits max_bytes : Z) : result Z :=
  let '(mult, digits) := match arg with 35 :: digits => (true, digits) | _ => (false, arg) end in
  match (if is_utf8 digits then parse_u64 digits else None) with
  | None => Err BITFIELD_OFFSET_ERR
  | Some n =>
      match (if mult : bool then (if n * bits <=? usize_max then Some (n * bits) else None) else Some n) with
      | None => Err BITFIELD_OFFSET_ERR
      | Some offset =>
          let end_ := offset + bits in
          if end_ >? usize_max then Err BITFIELD_OFFSET_ERR
          else if end_ / 8 + 1 >? max_bytes then Err BITFIELD_OFFSET_ERR
          else Ok offset
      end
  end.

(** ** The commands *)

(** The live string of a key: [Ok None] when there is none. *)
Definition view_string (key : bytes) (now : Z) (s : Store) : result (option (Entry * bytes)) :=
  match find s key with
  | Some e => if is_expired_at now e then Ok None
              else match string_bytes (value e) with Some b => Ok (Some (e, b)) | None => Err WRONGTYPE end
  | None => Ok None
  end.

(** The entry a write works on: the existing one, an empty string in its place if it has expired, or
    a new empty string. *)
Definition open_string (key : bytes) (now : Z) (s : Store) : Entry * Store :=
  match find s key with
  | Some e => if is_expired_at now e then (mkEntry (VStr []) None (e_lru_clock e), s) else (e, s)
  | None => (mkEntry (VStr []) None (lru_clock s), key_added s)
  end.

(** The changed buffer goes back into the entry; only growth is accounted. *)
Definition put_string (key : bytes) (e : Entry) (old buf : bytes) (s : Store) : Store :=
  let s := put_data key (mkEntry (VStrBuf buf) (expires_at e) (e_lru_clock e)) s in
  if zlen buf >? zlen old then charge key (zlen buf - zlen old) s else s.

Definition setbit (key : bytes) (offset bit : Z) (now : Z) (s : Store) : result Z * Store :=
  let s := bump key s in
  let '(e, s1) := open_string key now s in
  match string_bytes (value e) with
  | Some b =>
      let buf := grow (offset / 8 + 1) b in
      let old := bit_of buf offset in
      (Ok old, put_string key e b (set_bit bit offset buf) s1)
  | None => (Err WRONGTYPE, s)
  end.

Definition getbit (key : bytes) (offset : Z) (now : Z) (s : Store) : result Z :=
  match view_string key now s with
  | Ok (Some (_, b)) => Ok (if offset / 8 >=? zlen b then 0 else bit_of b offset)
  | Ok None => Ok 0
  | Err e => Err e
  end.

Definition is_get (op : BitfieldOp) : bool := match op with OpGet _ _ _ => true | _ => false end.

Definition bitfield (key : bytes) (ops : list BitfieldOp) (now : Z) (s : Store)
    : result (list (option Z)) * Store :=
  if forallb is_get ops then
    match view_string key now s with
    | Err e => (Err e, s)
    | Ok o => (Ok (foldl bf_op ([], match o with Some (_, b) => b | None => [] end) ops).1, s)
    end
  else
    let s := bump key s in
    let '(e, s1) := open_string key now s in
    match string_bytes (value e) with
    | None => (Err WRONGTYPE, s)
    | Some b =>
        let '(results, buf) := foldl bf_op ([], b) ops in
        (Ok results, put_string key e b buf s1)
    end.

(** [u8::count_ones] *)
Definition count_ones (b : Z) : Z := zsum ((fun i => Z.land (Z.shiftr b i) 1) <$> seqZ 0 8).

(** The two modes of [bitcount] on the string. *)
Definition count_bits (b : bytes) (start stop : Z) : Z :=
  let bit_len := as_i64 (zlen b * 8) in
  let s_idx := if start <? 0 then as_u64 (Z.max (as_i64 (bit_len + start)) 0)
               else Z.min (as_u64 start) (as_u64 bit_len) in
  let e_idx := if stop <? 0 then as_u64 (Z.max (as_i64 (bit_len + stop)) 0)
               else Z.min (as_u64 stop) (as_u64 (as_u64 bit_len - 1)) in
  if s_idx >? e_idx then 0
  else zsum ((fun i => if i / 8 <? zlen b then bit_of b i else 0) <$> seqZ s_idx (e_idx - s_idx + 1)).

Definition count_bytes (b : bytes) (start stop : Z) : Z :=
  let len := zlen b in
  let s_resolved := if start <? 0 then as_i64 (len + start) else start in
  let e_resolved := if stop <? 0 then as_i64 (len + stop) else stop in
  if s_resolved >? e_resolved then 0
  else
    let s_idx := Z.max s_resolved 0 in
    let e_idx := Z.min (Z.max e_resolved 0) (if len >? 0 then len - 1 else 0) in
    if (s_idx >? e_idx) || bool_decide (b = []) then 0
    else zsum (count_ones <$> slice b (Z.to_nat s_idx) (Z.to_nat (e_idx + 1))).

Definition bitcount (key : bytes) (start stop : Z) (use_bit : bool) (now : Z) (s : Store) : result Z :=
  match view_string key now s with
  | Err e => Err e
  | Ok None => Ok 0
  | Ok (Some (_, b)) => Ok (if use_bit then count_bits b start stop else count_bytes b start stop)
  end.

Definition find_bit (bit : Z) (b : bytes) (l : list Z) : option Z :=
  snd <$> list_find (fun i => bit_of b i = bit) l.

(** The two modes of [bitpos] on a string that is not empty. *)
Definition pos_bits (b : bytes) (bit start : Z) (stop : option Z) : Z :=
  let bit_len := as_i64 (zlen b * 8) in
  let s_idx := if start <? 0 then as_u64 (Z.max (as_i64 (bit_len + start)) 0) else as_u64 start in
  let e_idx := match stop with
               | Some e => if e <? 0 then as_u64 (Z.max (as_i64 (bit_len + e)) 0)
                           else Z.min (as_u64 e) (as_u64 bit_len - 1)
               | None => as_u64 bit_len - 1
               end in
  if s_idx >? e_idx then -1
  else match find_bit bit b (filter (fun i => i / 8 < zlen b) (seqZ s_idx (e_idx - s_idx + 1))) with
       | Some i => as_i64 i
       | None => -1
       end.

Definition pos_bytes (b : bytes) (bit start : Z) (stop : option Z) (end_given : bool) : Z :=
  let len := zlen b in
  let s_byte := if start <? 0 then as_u64 (Z.max (as_i64 (len + start)) 0) else Z.min (as_u64 start) len in
  let e_byte := match stop with
                | Some e => if e <? 0 then as_u64 (Z.max (as_i64 (len + e)) 0)
                            else Z.min (as_u64 e) (len - 1)
                | None => len - 1
                end in
  if s_byte >? e_byte then -1
  else match find_bit bit b (i ← seqZ s_byte (e_byte - s_byte + 1); (fun j => i * 8 + j) <$> seqZ 0 8) with
       | Some i => as_i64 i
       | None => if (bit =? 0) && negb end_given then as_i64 ((e_byte + 1) * 8) else -1
       end.

Definition bitpos (key : bytes) (bit start : Z) (stop : option Z) (end_given use_bit : bool) (now : Z) (s : Store)
    : result Z :=
  match view_string key now s with
  | Err e => Err e
  | Ok None => Ok (if bit =? 0 then 0 else -1)
  | Ok (Some (_, b)) =>
      Ok (if bool_decide (b = []) then (if bit =? 1 then -1 else 0)
          else if use_bit then pos_bits b bit start stop
          else pos_bytes b bit start stop end_given)
  end.

(** ** BITOP *)

Inductive bop := BAnd | BOr | BXor | BNot | BUnknown (op : string).

Definition BITOP_ERR : string := "ERR BITOP requires AND, OR, XOR, or NOT, got '".

(** The sources, in order. *)
Fixpoint bitop_sources (keys : list bytes) (now : Z) (s : Store) : result (list bytes) :=
  match keys with
  | [] => Ok []
  | key :: keys =>
      match view_string key now s with
      | Err e => Err e
      | Ok o => match bitop_sources keys now s with
                | Err e => Err e
                | Ok srcs => Ok (match o with Some (_, b) => b | None => [] end :: srcs)
                end
      end
  end.

Definition max_len (srcs : list bytes) : Z := foldl (fun n b => Z.max n (zlen b)) 0 srcs.

(** [result[i] op= src[i]] for every position the source covers ([total] false) or every position
    with 0 past its end ([total] true). *)
Definition combine_src (f : Z -> Z -> Z) (total : bool) (res src : bytes) : bytes :=
  imap (fun i r => match src !! i with
                   | Some b => f r b
                   | None => if total then f r 0 else r
                   end) res.

Definition bitop_result (op : bop) (srcs : list bytes) (len : Z) : option bytes :=
  let zeros := replicate (Z.to_nat len) 0 in
  match op with
  | BAnd => Some (foldl (combine_src Z.land true) (replicate (Z.to_nat len) 255) srcs)
  | BOr => Some (foldl (combine_src Z.lor false) zeros srcs)
  | BXor => Some (foldl (combine_src Z.lxor false) zeros srcs)
  | BNot => match srcs with
            | src :: _ => Some (imap (fun i _ => match src !! i with Some b => Z.lxor 255 b | None => 255 end) zeros)
            | [] => None
            end
  | BUnknown _ => None
  end.

(** NOT of no source at all would panic. *)
Definition bitop (clock : Z) (op : bop) (dest : bytes) (keys : list bytes) (now : Z) (s : Store)
    : outcome (result Z * Store) :=
  match bitop_sources keys now s with
  | Err e => Returned (Err e, s)
  | Ok srcs =>
      let len := max_len srcs in
      if len =? 0 then Returned (Ok 0, (del clock [dest] s).2)
      else match op with
           | BUnknown name => Returned (Err (BITOP_ERR ++ name ++ "'")%string, s)
           | _ => match bitop_result op srcs len with
                  | None => Panicked
                  | Some res => s ← set dest res None now s; Returned (Ok (zlen res), s)
                  end
           end
  end.

(** ** Strings as sequences of bits *)

Abbreviation bitseq := (Z -> bool).
Abbreviation keyspace := (gmap bytes ((bytes + StoreValue) * option Z)).

Definition bits_of (b : bytes) : bitseq := fun j => Z.testbit (byte_at b (j / 8)) (7 - j mod 8).

(** [b] is [len] bytes long and spells [f]. *)
Definition spells (b : bytes) (len : Z) (f : bitseq) : Prop :=
  zlen b = len /\ forall j, 0 <= j -> bits_of b j = f j.

(** The number spelled by [n] bits from [off]. *)
Fixpoint unsigned_field (f : bitseq) (off : Z) (n : nat) : Z :=
  match n with
  | O => 0
  | S n => 2 * unsigned_field f off n + Z.b2z (f (off + Z.of_nat n))
  end.

Definition field (f : bitseq) (off bits : Z) (signed : bool) : Z :=
  unsigned_field f off (Z.to_nat bits) - (if signed && f off then 2 ^ bits else 0).

(** The bits with the low [bits] bits of [v] written at [off]. *)
Definition with_field (f : bitseq) (off bits v : Z) : bitseq :=
  fun j => if (off <=? j) && (j <? off + bits) then Z.testbit v (bits - 1 - (j - off)) else f j.

Definition lowest (signed : bool) (bits : Z) : Z := if signed then - 2 ^ (bits - 1) else 0.
Definition highest (signed : bool) (bits : Z) : Z := if signed then 2 ^ (bits - 1) - 1 else 2 ^ bits - 1.

(** A value made to fit a field: the closest one, the congruent one, or none. *)
Definition fit (signed : bool) (bits val : Z) (mode : BitfieldOverflow) : option Z :=
  let lo := lowest signed bits in
  let hi := highest signed bits in
  match mode with
  | Wrap => Some ((val - lo) mod 2 ^ bits + lo)
  | Sat => Some (Z.max lo (Z.min hi val))
  | FailOnOverflow => if (lo <=? val) && (val <=? hi) then Some val else None
  end.

(** The operations of BITFIELD on a sequence of bits and a length. *)
Definition afield_op (acc : list (option Z) * (Z * bitseq)) (op : BitfieldOp) : list (option Z) * (Z * bitseq) :=
  let '(out, (len, f)) := acc in
  let write off bits v := (Z.max len (div_ceil (off + bits) 8), with_field f off bits v) in
  match op with
  | OpGet signed bits off => (out ++ [Some (field f off bits signed)], (len, f))
  | OpSet signed bits off v mode =>
      match fit signed bits v mode with
      | Some v => (out ++ [Some (field f off bits signed)], write off bits v)
      | None => (out ++ [None], (len, f))
      end
  | OpIncrBy signed bits off d mode =>
      match fit signed bits (field f off bits signed + d) mode with
      | Some v => (out ++ [Some v], write off bits v)
      | None => (out ++ [None], (len, f))
      end
  end.

(** The widths the argument parser accepts. *)
Definition width_ok (signed : bool) (bits : Z) : Prop := 1 <= bits <= (if signed then 64 else 63).
Definition op_ok (op : BitfieldOp) : Prop :=
  match op with
  | OpGet signed bits off | OpSet signed bits off _ _ | OpIncrBy signed bits off _ _ => width_ok signed bits /\ 0 <= off
  end.

(** ** Lemmas: single bits *)

Lemma land_1_testbit x i : 0 <= i -> Z.land (Z.shiftr x i) 1 = Z.b2z (Z.testbit x i).
Proof.
  intros Hi. change 1 with (Z.ones 1) at 1. rewrite Z.land_ones by lia.
  rewrite Z.shiftr_div_pow2, Z.testbit_spec' by done. done.
Qed.

Lemma byte_at_past b i : zlen b <= i -> byte_at b i = 0.
Proof. intros H. unfold byte_at. rewrite lookup_ge_None_2; [done|]. unfold zlen in H. lia. Qed.

Lemma mod8 j : 0 <= 7 - j mod 8 <= 7.
Proof. pose proof (Z.mod_pos_bound j 8). lia. Qed.

Lemma bit_of_bits b j : 0 <= j -> bit_of b j = Z.b2z (bits_of b j).
Proof.
  intros Hj. unfold bit_of, bits_of. pose proof (mod8 j). destruct (Z.ltb_spec (j / 8) (zlen b)).
  - apply land_1_testbit. lia.
  - by rewrite byte_at_past, Z.bits_0.
Qed.

Lemma bits_past b j : 8 * zlen b <= j -> bits_of b j = false.
Proof. intros H. unfold bits_of. rewrite byte_at_past; [apply Z.bits_0|]. apply Z.div_le_lower_bound; lia. Qed.

Lemma byte_at_alter g i b j :
  0 <= i < zlen b -> 0 <= j -> byte_at (alter g (Z.to_nat i) b) j = if decide (j = i) then g (byte_at b i) else byte_at b j.
Proof.
  intros Hi Hj. unfold byte_at, zlen in *. destruct (decide (j = i)) as [->|].
  - destruct (lookup_lt_is_Some_2 b (Z.to_nat i)) as [x E]; [lia|]. by rewrite list_lookup_alter_eq, E.
  - by rewrite list_lookup_alter_ne by lia.
Qed.

Lemma zlen_set_bit v i b : zlen (set_bit v i b) = zlen b.
Proof. unfold set_bit, zlen. by rewrite length_alter. Qed.

Lemma testbit_mask a m i (v : bool) :
  0 <= m <= 7 -> 0 <= i <= 7 ->
  Z.testbit (if v then Z.lor a (Z.shiftl 1 m) else Z.land a (Z.lxor 255 (Z.shiftl 1 m))) i =
    if decide (i = m) then v else Z.testbit a i.
Proof.
  intros Hm Hi. assert (Z.testbit (Z.shiftl 1 m) i = bool_decide (i = m)) as E1.
  { rewrite Z.shiftl_1_l, Z.pow2_bits_eqb by lia. destruct (Z.eqb_spec m i); case_bool_decide; congruence. }
  assert (Z.testbit 255 i = true) as E2.
  { change 255 with (Z.ones 8). apply Z.ones_spec_low. lia. }
  destruct v; [rewrite Z.lor_spec, E1|rewrite Z.land_spec, Z.lxor_spec, E1, E2];
    case_bool_decide; destruct (decide (i = m)); try done; by rewrite ?orb_true_r, ?orb_false_r, ?andb_false_r, ?andb_true_r.
Qed.

Lemma bits_set_bit (v : bool) i b j :
  0 <= i -> i / 8 < zlen b -> 0 <= j ->
  bits_of (set_bit (Z.b2z v) i b) j = if decide (j = i) then v else bits_of b j.
Proof.
  intros Hi Hlt Hj. unfold bits_of, set_bit.
  assert (0 <= i / 8 /\ 0 <= j / 8) as [Hi8 Hj8] by (split; apply Z.div_pos; lia). rewrite byte_at_alter by lia.
  pose proof (mod8 i). pose proof (mod8 j). destruct (decide (j / 8 = i / 8)) as [E|E].
  - replace (Z.b2z v =? 1) with v by (by destruct v). rewrite testbit_mask by lia.
    destruct (decide (j = i)) as [->|Hne]; [by rewrite decide_True|].
    rewrite decide_False by (pose proof (Z.div_mod i 8); pose proof (Z.div_mod j 8); lia). by rewrite E.
  - rewrite decide_False; [done|]. congruence.
Qed.

Lemma zlen_grow n b : zlen (grow n b) = Z.max (zlen b) n.
Proof.
  unfold grow. destruct (Z.ltb_spec (zlen b) n); [|lia]. rewrite zlen_app. unfold zlen in *. rewrite length_replicate. lia.
Qed.

Lemma bits_grow n b j : 0 <= j -> bits_of (grow n b) j = bits_of b j.
Proof.
  intros Hj. unfold bits_of, grow. destruct (zlen b <? n); [|done]. f_equal. unfold byte_at.
  destruct (decide (Z.to_nat (j / 8) < length b)%nat).
  - by rewrite lookup_app_l.
  - rewrite lookup_app_r by lia. rewrite (lookup_ge_None_2 b) by lia. cbn [default].
    destruct (replicate _ 0 !! _) as [x|] eqn:E; [|done]. apply lookup_replicate in E as [-> _]. done.
Qed.

(** ** Lemmas: reading a field *)

Lemma unsigned_field_range f off n : 0 <= unsigned_field f off n < 2 ^ Z.of_nat n.
Proof.
  induction n as [|n IH]; cbn [unsigned_field]; [cbn; lia|]. rewrite Nat2Z.inj_succ, Z.pow_succ_r by lia.
  destruct (f _); cbn [Z.b2z]; lia.
Qed.

Lemma unsigned_field_ext f g off n :
  (forall j, off <= j < off + Z.of_nat n -> f j = g j) -> unsigned_field f off n = unsigned_field g off n.
Proof.
  induction n as [|n IH]; intros H; cbn [unsigned_field]; [done|]. rewrite IH by (intros; apply H; lia).
  by rewrite H by lia.
Qed.

Lemma unsigned_field_testbit f off n i :
  0 <= i < Z.of_nat n -> Z.testbit (unsigned_field f off n) i = f (off + Z.of_nat n - 1 - i).
Proof.
  revert i. induction n as [|n IH]; intros i Hi; [lia|]. cbn [unsigned_field].
  destruct (decide (i = 0)) as [->|].
  - rewrite Z.testbit_0_r. f_equal. lia.
  - replace i with (Z.succ (i - 1)) at 1 by lia. rewrite Z.testbit_succ_r by lia. rewrite IH by lia. f_equal. lia.
Qed.

Lemma lor_double v b : 0 <= v -> Z.lor (Z.shiftl v 1) (Z.b2z b) = 2 * v + Z.b2z b.
Proof. intros H. destruct v as [|p|p]; [by destruct b|by destruct b|lia]. Qed.

Lemma bf_read_loop buf off n :
  0 <= off -> (n <= 64)%nat ->
  foldl (fun val i => Z.lor (as_u64 (Z.shiftl val 1)) (bit_of buf (off + i))) 0 (seqZ 0 (Z.of_nat n)) =
    unsigned_field (bits_of buf) off n.
Proof.
  intros Hoff. induction n as [|n IH]; intros Hn; [done|].
  rewrite seqZ_S, foldl_app, IH by lia. cbn [foldl unsigned_field]. rewrite Z.add_0_l, bit_of_bits by lia.
  pose proof (unsigned_field_range (bits_of buf) off n) as Hr.
  assert (2 ^ Z.of_nat n <= 2 ^ 63) by (apply Z.pow_le_mono_r; lia).
  rewrite as_u64_small.
  - apply lor_double. lia.
  - rewrite Z.shiftl_mul_pow2 by lia. unfold u64_mod. lia.
Qed.

Lemma as_i64_minus z : i64_min <= z - u64_mod <= i64_max -> as_i64 z = z - u64_mod.
Proof.
  intros H. unfold as_i64. rewrite <-(Z.mod_add _ (-1)) by done.
  rewrite Z.mod_small; unfold i64_min, i64_max, u64_mod in *; lia.
Qed.

Lemma bf_read_ok buf off bits signed :
  0 <= off -> width_ok signed bits -> bf_read buf off bits signed = field (bits_of buf) off bits signed.
Proof.
  intros Hoff Hw. unfold bf_read, field, width_ok in *.
  assert (1 <= bits <= 64) as Hb by (destruct signed; lia).
  assert (exists n, n = Z.to_nat bits) as [n Hn] by (by eexists). rewrite <-Hn. assert (Z.of_nat n = bits) as En by lia. clear Hn.
  replace (seqZ 0 bits) with (seqZ 0 (Z.of_nat n)) by (by rewrite En). rewrite bf_read_loop by lia. cbv zeta.
  set (v := unsigned_field _ off n). pose proof (unsigned_field_range (bits_of buf) off n) as Hr. fold v in Hr. rewrite En in Hr.
  assert (Z.testbit v (bits - 1) = bits_of buf off) as Htop.
  { unfold v. rewrite unsigned_field_testbit by lia. f_equal. lia. }
  rewrite land_1_testbit, Htop by lia.
  assert (2 ^ bits = 2 * 2 ^ (bits - 1)) as Hp by (rewrite <-Z.pow_succ_r by lia; f_equal; lia).
  assert (2 ^ (bits - 1) <= 2 ^ 63) as Hp63 by (apply Z.pow_le_mono_r; lia).
  assert (bits_of buf off = true -> 2 ^ (bits - 1) <= v) as Hhigh.
  { intros Ht. rewrite Ht in Htop. apply Z.testbit_true in Htop; [|lia]. destruct (Z.lt_ge_cases v (2 ^ (bits - 1))); [|lia].
    rewrite Z.div_small in Htop by lia. done. }
  assert (bits_of buf off = false -> v < 2 ^ (bits - 1)) as Hlow.
  { intros Ht. rewrite Ht in Htop. apply Z.testbit_false in Htop; [|lia].
    destruct (Z.lt_ge_cases v (2 ^ (bits - 1))); [lia|]. exfalso.
    assert (v / 2 ^ (bits - 1) = 1) as E. { symmetry. apply (Z.div_unique _ _ _ (v - 2 ^ (bits - 1))); lia. }
    rewrite E in Htop. done. }
  destruct signed; cbn [andb].
  - destruct (bits_of buf off); cbn [Z.b2z Z.eqb Pos.eqb].
    + rewrite andb_true_r. specialize (Hhigh eq_refl). destruct (Z.ltb_spec bits 64).
      * assert (as_u64 (Z.shiftl (u64_mod - 1) bits) = u64_mod - 2 ^ bits) as ->.
        { unfold as_u64. rewrite Z.shiftl_mul_pow2 by lia.
          symmetry. apply (Z.mod_unique_pos _ _ (2 ^ bits - 1)); [|lia].
          assert (2 ^ bits <= 2 ^ 63) by (apply Z.pow_le_mono_r; lia). unfold u64_mod. lia. }
        assert (Z.land v (u64_mod - 2 ^ bits) = 0) as Hz.
        { apply Z.bits_inj'. intros i Hi. rewrite Z.land_spec, Z.bits_0. destruct (Z.lt_ge_cases i bits).
          - replace (u64_mod - 2 ^ bits) with ((2 ^ (64 - bits) - 1) * 2 ^ bits).
            + rewrite Z.mul_pow2_bits_low by lia. apply andb_false_r.
            + rewrite Z.mul_sub_distr_r, <-Z.pow_add_r by lia. replace (64 - bits + bits) with 64 by lia. change u64_mod with (2 ^ 64). lia.
          - rewrite <-(Z.mod_small v (2 ^ bits)) by lia. rewrite Z.mod_pow2_bits_high by lia. done. }
        rewrite <-Z.lxor_lor, <-Z.add_nocarry_lxor by done.
        rewrite as_i64_minus by (unfold i64_min, i64_max; lia). lia.
      * assert (bits = 64) as Eb by lia. rewrite Eb in *. change (2 ^ 64) with u64_mod in *. change (2 ^ (64 - 1)) with 9223372036854775808 in *.
        apply as_i64_minus. unfold i64_min, i64_max, u64_mod in *. lia.
    + rewrite andb_false_r, Z.sub_0_r. apply as_i64_small. specialize (Hlow eq_refl). unfold i64_min, i64_max. lia.
  - rewrite Z.sub_0_r. apply as_i64_small. assert (2 ^ bits <= 2 ^ 63) by (apply Z.pow_le_mono_r; lia). unfold i64_min, i64_max. lia.
Qed.

(** ** Lemmas: writing a field *)

Lemma bf_write_loop off bits v buf n :
  0 <= off -> Z.of_nat n <= bits -> off + bits <= 8 * zlen buf ->
  let buf' := foldl (fun buf i => set_bit (Z.land (Z.shiftr v (bits - 1 - i)) 1) (off + i) buf) buf (seqZ 0 (Z.of_nat n)) in
  zlen buf' = zlen buf /\
  forall j, 0 <= j -> bits_of buf' j =
    if (off <=? j) && (j <? off + Z.of_nat n) then Z.testbit v (bits - 1 - (j - off)) else bits_of buf j.
Proof.
  intros Hoff. induction n as [|n IH]; intros Hn Hlen; cbv zeta.
  - split; [done|]. intros j Hj. cbn [seqZ foldl]. destruct (Z.leb_spec off j), (Z.ltb_spec j (off + Z.of_nat 0)); cbn; done || lia.
  - rewrite seqZ_S, foldl_app. cbn [foldl]. specialize (IH ltac:(lia) Hlen). cbv zeta in IH.
    set (buf1 := foldl _ buf _) in *. destruct IH as [El IH]. rewrite Z.add_0_l, land_1_testbit by lia. split; [by rewrite zlen_set_bit|].
    intros j Hj. rewrite bits_set_bit by (try lia; rewrite El; apply Z.div_lt_upper_bound; lia).
    destruct (decide (j = off + Z.of_nat n)) as [->|Hne].
    + rewrite (proj2 (Z.leb_le _ _)), (proj2 (Z.ltb_lt _ _)) by lia. cbn [andb]. f_equal. lia.
    + rewrite IH by done. destruct (Z.leb_spec off j), (Z.ltb_spec j (off + Z.of_nat n)), (Z.ltb_spec j (off + Z.of_nat (S n)));
        cbn [andb]; done || lia.
Qed.

Lemma div_ceil_bound a : a <= 8 * div_ceil a 8.
Proof. unfold div_ceil. pose proof (Z.mod_pos_bound (a + 8 - 1) 8). pose proof (Z.div_mod (a + 8 - 1) 8). lia. Qed.

Lemma bf_write_ok buf len f off bits v :
  spells buf len f -> 0 <= off -> 0 <= bits ->
  spells (bf_write buf off bits v) (Z.max len (div_ceil (off + bits) 8)) (with_field f off bits v).
Proof.
  intros [El Hf] Hoff Hb. unfold bf_write. cbv zeta. replace (seqZ 0 bits) with (seqZ 0 (Z.of_nat (Z.to_nat bits))) by (by rewrite Z2Nat.id).
  pose proof (div_ceil_bound (off + bits)) as Hc. pose proof (zlen_grow (div_ceil (off + bits) 8) buf) as Eg.
  destruct (bf_write_loop off bits v (grow (div_ceil (off + bits) 8) buf) (Z.to_nat bits) Hoff) as [H1 H2]; [lia..|].
  split; [by rewrite H1, Eg, El|]. intros j Hj. rewrite H2 by done. unfold with_field.
  rewrite bits_grow, Hf, Z2Nat.id by done. done.
Qed.

Lemma with_field_ext f off bits v w j :
  bits <= 64 -> (forall i, 0 <= i < 64 -> Z.testbit v i = Z.testbit w i) -> with_field f off bits v j = with_field f off bits w j.
Proof.
  intros Hb H. unfold with_field. destruct (Z.leb_spec off j), (Z.ltb_spec j (off + bits)); cbn [andb]; try done. apply H. lia.
Qed.

Lemma as_u64_testbit v i : 0 <= i < 64 -> Z.testbit (as_u64 v) i = Z.testbit v i.
Proof. intros Hi. unfold as_u64. change u64_mod with (2 ^ 64). apply Z.mod_pow2_bits_low. lia. Qed.

(** ** Lemmas: overflow *)

Lemma pow_half bits : 1 <= bits -> 2 ^ bits = 2 * 2 ^ (bits - 1) /\ 0 < 2 ^ (bits - 1).
Proof. intros H. rewrite <-Z.pow_succ_r by lia. split; [f_equal; lia|]. apply Z.pow_pos_nonneg; lia. Qed.

Lemma bounds_i64 signed bits :
  width_ok signed bits -> i64_min <= lowest signed bits /\ highest signed bits <= i64_max /\
  highest signed bits - lowest signed bits = 2 ^ bits - 1.
Proof.
  intros Hw. unfold width_ok, lowest, highest in *. destruct signed.
  - destruct (pow_half bits ltac:(lia)). assert (2 ^ (bits - 1) <= 2 ^ 63) by (apply Z.pow_le_mono_r; lia).
    unfold i64_min, i64_max. lia.
  - assert (2 ^ bits <= 2 ^ 63) by (apply Z.pow_le_mono_r; lia). assert (0 < 2 ^ bits) by (apply Z.pow_pos_nonneg; lia).
    unfold i64_min, i64_max. lia.
Qed.

Lemma wrap_value signed bits val :
  width_ok signed bits ->
  (if signed && (val mod 2 ^ bits >? highest signed bits) then val mod 2 ^ bits - 2 ^ bits else val mod 2 ^ bits) =
  (val - lowest signed bits) mod 2 ^ bits + lowest signed bits.
Proof.
  intros Hw. destruct (bounds_i64 signed bits Hw) as (_ & _ & Hd).
  assert (0 < 2 ^ bits) by (apply Z.pow_pos_nonneg; unfold width_ok in Hw; destruct signed; lia).
  pose proof (Z.mod_pos_bound val (2 ^ bits) ltac:(lia)) as Hm. pose proof (Z.div_mod val (2 ^ bits) ltac:(lia)) as Hdm.
  set (w := val mod 2 ^ bits) in *. unfold lowest, highest in *. destruct signed; cbn [andb].
  - destruct (pow_half bits ltac:(unfold width_ok in Hw; lia)) as [Hp _].
    assert (forall q r, 0 <= r < 2 ^ bits -> val - - 2 ^ (bits - 1) = 2 ^ bits * q + r -> (val - - 2 ^ (bits - 1)) mod 2 ^ bits = r) as Hu.
    { intros q r Hr E. symmetry. by apply (Z.mod_unique_pos _ _ q). }
    destruct (Z.gtb_spec w (2 ^ (bits - 1) - 1)).
    + rewrite (Hu (val / 2 ^ bits + 1) (w - 2 ^ (bits - 1))) by lia. lia.
    + rewrite (Hu (val / 2 ^ bits) (w + 2 ^ (bits - 1))) by lia. lia.
  - rewrite Z.sub_0_r, Z.add_0_r. done.
Qed.

Lemma bf_clamp_ok signed bits val mode : width_ok signed bits -> bf_clamp signed bits val mode = fit signed bits val mode.
Proof.
  intros Hw. pose proof (bounds_i64 signed bits Hw) as (Hlo & Hhi & Hd).
  assert (0 < 2 ^ bits) by (apply Z.pow_pos_nonneg; unfold width_ok in Hw; destruct signed; lia).
  unfold bf_clamp. rewrite !Z.shiftl_1_l.
  assert ((if signed then (- 2 ^ (bits - 1), 2 ^ (bits - 1) - 1) else (0, 2 ^ bits - 1)) = (lowest signed bits, highest signed bits))
    as -> by (by destruct signed). cbv beta iota. unfold fit.
  pose proof (wrap_value signed bits val Hw) as Hwrap. set (lo := lowest signed bits) in *. set (hi := highest signed bits) in *.
  pose proof (Z.mod_pos_bound (val - lo) (2 ^ bits) ltac:(lia)) as Hm.
  destruct (Z.leb_spec lo val), (Z.leb_spec val hi); cbn [andb].
  - rewrite as_i64_small by lia. destruct mode; [|f_equal; lia|done]. f_equal. rewrite Z.mod_small by lia. lia.
  - destruct mode; [|by rewrite (proj2 (Z.ltb_ge _ _)), as_i64_small by lia; f_equal; lia|done].
    rewrite Hwrap, as_i64_small by lia. done.
  - destruct mode; [|by rewrite (proj2 (Z.ltb_lt _ _)), as_i64_small by lia; f_equal; lia|done].
    rewrite Hwrap, as_i64_small by lia. done.
  - destruct mode; [|by rewrite (proj2 (Z.ltb_lt _ _)), as_i64_small by lia; f_equal; lia|done].
    rewrite Hwrap, as_i64_small by lia. done.
Qed.

(** ** Lemmas: BITFIELD *)

Lemma field_ext f g off bits signed :
  0 <= off -> 0 < bits -> (forall j, 0 <= j -> f j = g j) -> field f off bits signed = field g off bits signed.
Proof.
  intros Hoff Hb H. unfold field. rewrite (unsigned_field_ext f g) by (intros; apply H; lia). by rewrite H.
Qed.

Lemma bf_op_ok out buf len f op :
  spells buf len f -> op_ok op ->
  let '(out1, buf1) := bf_op (out, buf) op in
  let '(aout, (len1, f1)) := afield_op (out, (len, f)) op in
  out1 = aout /\ spells buf1 len1 f1.
Proof.
  intros Hs Hop.
  assert (forall signed bits off, width_ok signed bits -> 0 <= off -> bf_read buf off bits signed = field f off bits signed) as Hread.
  { intros signed bits off Hw Hoff. rewrite bf_read_ok by done.
    apply field_ext; [done|unfold width_ok in Hw; lia|]. apply Hs. }
  assert (forall signed bits off v, width_ok signed bits -> 0 <= off ->
    spells (bf_write buf off bits (as_u64 v)) (Z.max len (div_ceil (off + bits) 8)) (with_field f off bits v)) as Hwrite.
  { intros signed bits off v Hw Hoff. unfold width_ok in Hw.
    destruct (bf_write_ok buf len f off bits (as_u64 v) Hs Hoff ltac:(lia)) as [H1 H2]. split; [done|].
    intros j Hj. rewrite H2 by done. apply with_field_ext; [destruct signed; lia|]. intros i Hi. by apply as_u64_testbit. }
  destruct op as [signed bits off|signed bits off v mode|signed bits off d mode]; destruct Hop as [Hw Hoff];
    cbn [bf_op afield_op]; rewrite Hread by done.
  - done.
  - rewrite bf_clamp_ok by done. destruct (fit signed bits v mode); [|done]. split; [done|]. by apply Hwrite with signed.
  - rewrite bf_clamp_ok by done. destruct (fit _ _ _ mode); [|done]. split; [done|]. by apply Hwrite with signed.
Qed.

Lemma bf_ops_ok ops : forall out buf len f,
  spells buf len f -> Forall op_ok ops ->
  let '(out1, buf1) := foldl bf_op (out, buf) ops in
  let '(aout, (len1, f1)) := foldl afield_op (out, (len, f)) ops in
  out1 = aout /\ spells buf1 len1 f1.
Proof.
  induction ops as [|op ops IH]; intros out buf len f Hs Hops; cbn [foldl]; [done|].
  apply Forall_cons in Hops as [Hop Hops]. pose proof (bf_op_ok out buf len f op Hs Hop) as H.
  destruct (bf_op (out, buf) op) as [out1 buf1], (afield_op (out, (len, f)) op) as [aout [len1 f1]].
  destruct H as [-> Hs1]. by apply IH.
Qed.

(** ** The contract *)

Inductive bcmd :=
| BSetBit (k : bytes) (off : Z) (bit : bool)
| BGetBit (k : bytes) (off : Z)
| BField (k : bytes) (ops : list BitfieldOp)
| BCount (k : bytes) (start stop : Z) (use_bit : bool)
| BPos (k : bytes) (bit : bool) (start : Z) (stop : option Z) (use_bit : bool)
| BOp (op : bop) (dest : bytes) (keys : list bytes).

Inductive breply := BInt (z : Z) | BInts (l : list (option Z)) | BErr (e : string).

Definition breply_of {A : Type} (f : A -> breply) (r : result A) : breply :=
  match r with Ok a => f a | Err e => BErr e end.

Definition bexec (clock now : Z) (c : bcmd) (s : Store) : outcome (breply * Store) :=
  match c with
  | BSetBit k off bit => let '(r, s) := setbit k off (Z.b2z bit) now s in Returned (breply_of BInt r, s)
  | BGetBit k off => Returned (breply_of BInt (getbit k off now s), s)
  | BField k ops => let '(r, s) := bitfield k ops now s in Returned (breply_of BInts r, s)
  | BCount k a b use_bit => Returned (breply_of BInt (bitcount k a b use_bit now s), s)
  | BPos k bit a stop use_bit =>
      Returned (breply_of BInt (bitpos k (Z.b2z bit) a stop (bool_decide (is_Some stop)) use_bit now s), s)
  | BOp op dest keys =>
      x ← bitop clock op dest keys now s; let '(r, s) := x in Returned (breply_of BInt r, s)
  end.

(** How many of the [n] bits from [lo] are set. *)
Definition popcount (f : bitseq) (lo n : Z) : Z := zsum ((fun j => Z.b2z (f j)) <$> seqZ lo n).

(** A position counted from the end when it is negative. *)
Definition resolve (len i : Z) : Z := if i <? 0 then len + i else i.
Definition position (len i : Z) : Z := Z.max 0 (resolve len i).

(** [r] is the first position of [lo..hi] that holds [v], or [none]. *)
Definition first_bit (f : bitseq) (v : bool) (lo hi none r : Z) : Prop :=
  (lo <= r <= hi /\ f r = v /\ forall j, lo <= j < r -> f j = negb v) \/
  (r = none /\ forall j, lo <= j <= hi -> f j = negb v).

(** What a key is to a bit command: a string (empty if the key is absent) with its deadline, or
    [None] for another type. *)
Definition string_at (m : keyspace) (k : bytes) : option (bytes * option Z) :=
  match m !! k with
  | None => Some ([], None)
  | Some (inl b, exp) => Some (b, exp)
  | Some (inr _, _) => None
  end.

Definition combined (op : bop) (srcs : list bytes) (j : Z) : bool :=
  let at_ b := bits_of b j in
  match op with
  | BAnd => forallb at_ srcs
  | BOr => existsb at_ srcs
  | BXor => foldl (fun x b => xorb x (at_ b)) false srcs
  | BNot => match srcs with b :: _ => negb (at_ b) | [] => false end
  | BUnknown _ => false
  end.

Definition bspec (c : bcmd) (m : keyspace) (r : breply) (m' : keyspace) : Prop :=
  let fails := r = BErr WRONGTYPE /\ m' = m in
  let on k (P : bytes -> option Z -> Prop) := match string_at m k with Some (b, exp) => P b exp | None => fails end in
  match c with
  | BSetBit k off bit => on k (fun b exp =>
      r = BInt (Z.b2z (bits_of b off)) /\
      exists b', spells b' (Z.max (zlen b) (off / 8 + 1)) (fun j => if decide (j = off) then bit else bits_of b j) /\
        m' = <[k := (inl b', exp)]> m)
  | BGetBit k off => on k (fun b _ => r = BInt (Z.b2z (bits_of b off)) /\ m' = m)
  | BField k ops => on k (fun b exp =>
      let '(out, (len, f)) := foldl afield_op ([], (zlen b, bits_of b)) ops in
      r = BInts out /\
      if forallb is_get ops then m' = m
      else exists b', spells b' len f /\ m' = <[k := (inl b', exp)]> m)
  | BCount k a z use_bit => on k (fun b _ =>
      let unit := if use_bit : bool then 1 else 8 in
      let len := if use_bit then 8 * zlen b else zlen b in
      m' = m /\
      r = BInt (if negb use_bit && (resolve len a >? resolve len z) then 0
                else popcount (bits_of b) (unit * position len a) (unit * (position len z - position len a + 1))))
  | BPos k bit a stop use_bit => on k (fun b _ =>
      m' = m /\
      exists p, r = BInt p /\
      if bool_decide (b = []) then p = if bit then -1 else 0
      else
        let unit := if use_bit : bool then 1 else 8 in
        let len := if use_bit then 8 * zlen b else zlen b in
        let last := match stop with Some z => Z.min (position len z) (len - 1) | None => len - 1 end in
        if position len a >? last then p = -1
        else first_bit (bits_of b) bit (unit * position len a) (unit * last + (unit - 1))
               (if negb bit && negb use_bit && bool_decide (stop = None) then 8 * zlen b else -1) p)
  | BOp op dest keys =>
      match mapM (string_at m) keys with
      | None => fails
      | Some l =>
          let srcs := fst <$> l in
          let len := max_len srcs in
          if len =? 0 then r = BInt 0 /\ m' = delete dest m
          else match op with
               | BUnknown name => r = BErr (BITOP_ERR ++ name ++ "'")%string /\ m' = m
               | _ => r = BInt len /\
                      exists b', spells b' len (fun j => (j <? 8 * len) && combined op srcs j) /\
                        m' = <[dest := (inl b', None)]> m
               end
      end
  end.

(** The arguments as the parsers give them, and strings that fit in memory. *)
Definition bcmd_ok (c : bcmd) : Prop :=
  match c with
  | BSetBit _ off _ | BGetBit _ off => 0 <= off
  | BField _ ops => Forall op_ok ops
  | BCount _ a z _ => in_i64 a = true /\ in_i64 z = true
  | BPos _ _ a stop _ => in_i64 a = true /\ match stop with Some z => in_i64 z = true | None => True end
  | BOp op _ keys => match op with BNot => length keys = 1%nat | _ => True end
  end.

Definition short_strings (m : keyspace) : Prop := forall k b exp, m !! k = Some (inl b, exp) -> zlen b < 2 ^ 58.

(** ** Lemmas: the store *)

Lemma found_cases now s m k :
  state_ok now s m ->
  match find s k with
  | Some e => if is_expired_at now e then m !! k = None
              else m !! k = Some (sem_entry e) /\ alive now (expires_at e) = true
  | None => m !! k = None
  end.
Proof.
  intros Hok. destruct (find s k) as [e|] eqn:Ef; [destruct (is_expired_at now e) eqn:Ee|].
  - apply (ok_dead now s m k Hok). by rewrite Ef.
  - by apply (ok_live now s m k).
  - apply (ok_dead now s m k Hok). by rewrite Ef.
Qed.

Lemma view_string_cases now s m k :
  state_ok now s m ->
  (view_string k now s = Ok None /\ m !! k = None /\ string_at m k = Some ([], None)) \/
  (exists e b, view_string k now s = Ok (Some (e, b)) /\ string_at m k = Some (b, expires_at e) /\
     m !! k = Some (inl b, expires_at e)) \/
  (view_string k now s = Err WRONGTYPE /\ string_at m k = None).
Proof.
  intros Hok. unfold view_string, string_at. pose proof (found_cases now s m k Hok) as H.
  destruct (find s k) as [e|]; [destruct (is_expired_at now e)|]; [rewrite H; by left| |rewrite H; by left].
  destruct H as [-> _]. unfold sem_entry, abs_value. destruct (string_bytes (value e)) as [b|]; [right; left|by right; right].
  by exists e, b.
Qed.

Lemma open_string_cases now s m k :
  state_ok now s m ->
  let '(e, s1) := open_string k now s in
  state_ok now s1 m /\ alive now (expires_at e) = true /\
  match string_at m k with
  | Some (b, exp) => string_bytes (value e) = Some b /\ expires_at e = exp
  | None => string_bytes (value e) = None /\ s1 = s
  end.
Proof.
  intros Hok. unfold open_string, string_at. pose proof (found_cases now s m k Hok) as H.
  destruct (find s k) as [e|]; [destruct (is_expired_at now e)|]; [rewrite H| |rewrite H].
  - done.
  - destruct H as [-> Ha]. split; [done|]. split; [done|]. unfold sem_entry, abs_value. by destruct (string_bytes (value e)).
  - split; [by apply Lists.Lists.ok_key_added|done].
Qed.

Lemma put_string_ok now k e b buf s m :
  state_ok now s m -> alive now (expires_at e) = true ->
  state_ok now (put_string k e b buf s) (<[k := (inl buf, expires_at e)]> m).
Proof.
  intros Hok Ha. pose proof (ok_update now k (mkEntry (VStrBuf buf) (expires_at e) (e_lru_clock e)) s m Hok Ha) as H.
  unfold put_string. destruct (zlen buf >? zlen b); [by apply Lists.Lists.ok_charge|done].
Qed.

Lemma spells_refl b : spells b (zlen b) (bits_of b).
Proof. done. Qed.

Lemma setbit_ok now k off bit s m :
  state_ok now s m -> 0 <= off ->
  let '(r, s') := setbit k off (Z.b2z bit) now s in
  exists m', bspec (BSetBit k off bit) m (breply_of BInt r) m' /\ state_ok now s' m'.
Proof.
  intros Hok Hoff. unfold setbit. apply (ok_bump now k) in Hok. pose proof (open_string_cases now _ m k Hok) as H.
  destruct (open_string k now (bump k s)) as [e s1]. destruct H as (Hok1 & Ha & H). cbn [bspec].
  destruct (string_at m k) as [[b exp]|]; [|destruct H as [-> _]; by exists m]. destruct H as [-> Hx].
  eexists. split; [|by apply put_string_ok]. pose proof (Z.div_pos off 8 Hoff ltac:(lia)) as H8.
  pose proof (zlen_nonneg b). rewrite bit_of_bits, bits_grow by done. split; [done|].
  eexists. split; [|by rewrite Hx]. split; [by rewrite zlen_set_bit, zlen_grow|].
  intros j Hj. rewrite bits_set_bit; [|done|rewrite zlen_grow; lia|done]. by rewrite bits_grow.
Qed.

Lemma bitfield_ok now k ops s m :
  state_ok now s m -> Forall op_ok ops ->
  let '(r, s') := bitfield k ops now s in
  exists m', bspec (BField k ops) m (breply_of BInts r) m' /\ state_ok now s' m'.
Proof.
  intros Hok Hops. unfold bitfield. cbn [bspec]. destruct (forallb is_get ops) eqn:Eg.
  - destruct (view_string_cases now s m k Hok) as [(-> & _ & ->)|[(e & b & -> & -> & _)|(-> & ->)]];
      exists m; (split; [|done]); [..|done].
    + pose proof (bf_ops_ok ops [] [] _ _ (spells_refl []) Hops) as H. destruct (foldl bf_op _ ops) as [out buf].
      destruct (foldl afield_op _ ops) as [aout [len f]]. destruct H as [-> _]. done.
    + pose proof (bf_ops_ok ops [] b _ _ (spells_refl b) Hops) as H. destruct (foldl bf_op _ ops) as [out buf].
      destruct (foldl afield_op _ ops) as [aout [len f]]. destruct H as [-> _]. done.
  - apply (ok_bump now k) in Hok. pose proof (open_string_cases now _ m k Hok) as H.
    destruct (open_string k now (bump k s)) as [e s1]. destruct H as (Hok1 & Ha & H).
    destruct (string_at m k) as [[b exp]|]; [|destruct H as [-> _]; by exists m]. destruct H as [-> Hx].
    pose proof (bf_ops_ok ops [] b _ _ (spells_refl b) Hops) as Hb. destruct (foldl bf_op _ ops) as [out buf].
    destruct (foldl afield_op _ ops) as [aout [len f]]. destruct Hb as [-> Hs].
    eexists. split; [|by apply put_string_ok]. split; [done|]. exists buf. by rewrite Hx.
Qed.

(** ** Lemmas: counting bits *)

Lemma zsum_cons x l : zsum (x :: l) = x + zsum l.
Proof. unfold zsum. cbn. lia. Qed.

Lemma popcount_app f lo a b : 0 <= a -> 0 <= b -> popcount f lo (a + b) = popcount f lo a + popcount f (lo + a) b.
Proof. intros Ha Hb. unfold popcount. by rewrite seqZ_app, fmap_app, zsum_app by lia. Qed.

Lemma popcount_none f lo n : n <= 0 -> popcount f lo n = 0.
Proof. intros H. unfold popcount. by rewrite seqZ_nil. Qed.

Lemma popcount_zero f lo n : (forall j, lo <= j -> f j = false) -> popcount f lo n = 0.
Proof.
  intros H. unfold popcount. assert (forall j, j ∈ seqZ lo n -> f j = false) as G.
  { intros j [Hj _]%elem_of_seqZ. by apply H. }
  induction (seqZ lo n) as [|j l IH]; cbn [fmap list_fmap]; [done|]. rewrite zsum_cons, G by set_solver.
  rewrite IH; [done|]. intros j' Hj'. apply G. set_solver.
Qed.

(** Bits past [bound] do not count. *)
Lemma popcount_clip f lo hi bound :
  (forall j, bound <= j -> f j = false) -> lo <= hi + 1 ->
  popcount f lo (hi - lo + 1) =
    if lo <? bound then popcount f lo (Z.min hi (bound - 1) - lo + 1) else 0.
Proof.
  intros Hf Hle. destruct (Z.ltb_spec lo bound).
  - destruct (Z.le_gt_cases hi (bound - 1)); [by rewrite Z.min_l|]. rewrite Z.min_r by lia.
    replace (hi - lo + 1) with (bound - 1 - lo + 1 + (hi + 1 - bound)) by lia. rewrite popcount_app by lia.
    rewrite (popcount_zero f (lo + _)) by (intros; apply Hf; lia). lia.
  - apply popcount_zero. intros j Hj. apply Hf. lia.
Qed.

Lemma bits_of_at b i k : 0 <= i -> 0 <= k < 8 -> bits_of b (8 * i + k) = Z.testbit (byte_at b i) (7 - k).
Proof.
  intros Hi Hk. unfold bits_of. rewrite (Z.mul_comm 8 i), Z.add_comm, Z.div_add, Z.mod_add by lia.
  by rewrite Z.div_small, Z.mod_small by lia.
Qed.

Lemma count_ones_bits b i : 0 <= i -> count_ones (byte_at b i) = popcount (bits_of b) (8 * i) 8.
Proof.
  intros Hi. unfold count_ones, popcount.
  replace (seqZ (8 * i) 8) with ((fun k => 8 * i + k) <$> seqZ 0 8).
  2:{ apply list_eq. intros n. rewrite list_lookup_fmap. destruct (decide (Z.of_nat n < 8)).
      - rewrite !lookup_seqZ_lt by lia. done.
      - by rewrite !lookup_seqZ_ge by lia. }
  rewrite <-list_fmap_compose. change (seqZ 0 8) with [0; 1; 2; 3; 4; 5; 6; 7]. cbn [fmap list_fmap compose].
  rewrite !land_1_testbit by lia. unfold compose. rewrite !bits_of_at by lia.
  rewrite !zsum_cons. change (zsum []) with 0.
  change (7 - 0) with 7. change (7 - 1) with 6. change (7 - 2) with 5. change (7 - 3) with 4. change (7 - 4) with 3. change (7 - 5) with 2. change (7 - 6) with 1. change (7 - 7) with 0. lia.
Qed.

Lemma popcount_bytes b i n :
  (i + n <= length b)%nat ->
  zsum (count_ones <$> slice b i (i + n)) = popcount (bits_of b) (8 * Z.of_nat i) (8 * Z.of_nat n).
Proof.
  induction n as [|n IH]; intros Hn.
  - unfold slice. rewrite Nat.add_0_r, Nat.sub_diag. cbn [take fmap list_fmap]. by rewrite popcount_none.
  - destruct (lookup_lt_is_Some_2 b (i + n)) as [x Hx]; [lia|].
    assert (slice b i (i + S n) = slice b i (i + n) ++ [x]) as ->.
    { unfold slice. replace (i + S n - i)%nat with (S n) by lia. replace (i + n - i)%nat with n by lia.
      apply take_S_r. by rewrite lookup_drop. }
    rewrite fmap_app, zsum_app, IH by lia. replace (8 * Z.of_nat (S n)) with (8 * Z.of_nat n + 8) by lia.
    rewrite popcount_app by lia. f_equal. cbn [fmap list_fmap]. rewrite zsum_cons.
    replace (8 * Z.of_nat i + 8 * Z.of_nat n) with (8 * Z.of_nat (i + n)) by lia. rewrite <-count_ones_bits by lia.
    unfold byte_at. rewrite Nat2Z.id, Hx. by rewrite Z.add_0_r.
Qed.

Lemma in_i64_bounds z : in_i64 z = true -> i64_min <= z <= i64_max.
Proof. unfold in_i64. intros H. zbool. lia. Qed.

(** The position a non-negative or negative argument names, at machine width. *)
Lemma from_end len i :
  0 <= len < 2 ^ 61 -> in_i64 i = true ->
  (if i <? 0 then as_u64 (Z.max (as_i64 (len + i)) 0) else as_u64 i) = position len i /\
  (if i <? 0 then as_i64 (len + i) else i) = resolve len i.
Proof.
  intros Hl Hi%in_i64_bounds. unfold position, resolve. unfold i64_min, i64_max in *. destruct (Z.ltb_spec i 0).
  - rewrite as_i64_small by (unfold i64_min, i64_max; lia). rewrite as_u64_small by (unfold u64_mod; lia). lia.
  - rewrite as_u64_small by (unfold u64_mod; lia). lia.
Qed.

Lemma position_small len i : 0 <= len -> i < 0 -> position len i <= Z.max 0 (len - 1).
Proof. intros. unfold position, resolve. destruct (Z.ltb_spec i 0); lia. Qed.

Lemma count_bits_ok b a z :
  zlen b < 2 ^ 58 -> in_i64 a = true -> in_i64 z = true ->
  let len := 8 * zlen b in
  count_bits b a z = popcount (bits_of b) (position len a) (position len z - position len a + 1).
Proof.
  intros Hb Ha Hz len. pose proof (zlen_nonneg b) as H0. unfold count_bits.
  destruct (from_end len a ltac:(lia) Ha) as [Ea _], (from_end len z ltac:(lia) Hz) as [Ez _].
  rewrite (as_i64_small (zlen b * 8)) by (unfold i64_min, i64_max; lia). rewrite (Z.mul_comm (zlen b)). fold len.
  rewrite (as_u64_small len) by (unfold u64_mod; lia). pose proof (position_small len a ltac:(lia)) as Hsa.
  pose proof (position_small len z ltac:(lia)) as Hsz. set (A := position len a) in *. set (E := position len z) in *.
  assert (0 <= A /\ 0 <= E) as [HA HE] by (unfold A, E, position; lia).
  replace (if a <? 0 then _ else Z.min (as_u64 a) len) with (Z.min A len)
    by (destruct (Z.ltb_spec a 0); rewrite <-Ea; [apply Z.min_l; rewrite Ea; lia|done]).
  assert (forall lo n, 0 <= lo ->
    zsum ((fun i => if i / 8 <? zlen b then bit_of b i else 0) <$> seqZ lo n) = popcount (bits_of b) lo n) as Hsum.
  { intros lo n Hlo. unfold popcount. f_equal. apply list_fmap_ext.
    intros i j [-> _]%lookup_seqZ. rewrite <-bit_of_bits by lia. unfold bit_of. by destruct (_ <? zlen b). }
  rewrite Hsum by lia. destruct (Z.eq_dec len 0) as [Hb0|Hb0].
  { rewrite !popcount_zero by (intros; apply bits_past; lia). by destruct (_ >? _). }
  rewrite (as_u64_small (len - 1)) by (unfold u64_mod; lia).
  replace (if z <? 0 then _ else Z.min (as_u64 z) (len - 1)) with (Z.min E (len - 1))
    by (destruct (Z.ltb_spec z 0); rewrite <-Ez; [apply Z.min_l; rewrite Ez; lia|done]).
  destruct (Z.le_gt_cases A (E + 1)).
  - rewrite (popcount_clip _ A E len) by (done || apply bits_past). destruct (Z.ltb_spec A len).
    + rewrite (Z.min_l A) by lia. destruct (Z.gtb_spec A (Z.min E (len - 1))); [|done]. by rewrite popcount_none by lia.
    + rewrite (Z.min_r A) by lia. by rewrite (proj2 (Z.gtb_lt _ _)) by lia.
  - destruct (Z.gtb_spec (Z.min A len) (Z.min E (len - 1))); by rewrite !popcount_none by lia.
Qed.

Lemma count_bytes_ok b a z :
  zlen b < 2 ^ 58 -> in_i64 a = true -> in_i64 z = true ->
  let len := zlen b in
  count_bytes b a z =
    if resolve len a >? resolve len z then 0
    else popcount (bits_of b) (8 * position len a) (8 * (position len z - position len a + 1)).
Proof.
  intros Hs Ha Hz len. pose proof (zlen_nonneg b) as H0. unfold count_bytes. fold len.
  destruct (from_end len a ltac:(lia) Ha) as [_ ->], (from_end len z ltac:(lia) Hz) as [_ ->].
  destruct (Z.gtb_spec (resolve len a) (resolve len z)) as [|Hle]; [done|]. unfold position.
  rewrite !(Z.max_comm 0). set (A := Z.max (resolve len a) 0). set (E := Z.max (resolve len z) 0).
  assert (0 <= A <= E) as HAE by lia. case_bool_decide as Hb.
  - rewrite orb_true_r, popcount_zero; [done|]. intros j Hj. apply bits_past. subst b. change (zlen []) with 0. lia.
  - assert (0 < len) as Hpos. { unfold len, zlen. destruct b; [done|]. cbn [length]. lia. }
    rewrite (proj2 (Z.gtb_lt len 0)) by lia. rewrite orb_false_r.
    replace (8 * (E - A + 1)) with (8 * E + 7 - 8 * A + 1) by lia.
    rewrite (popcount_clip _ _ (8 * E + 7) (8 * len)) by (apply bits_past || lia).
    destruct (Z.gtb_spec A (Z.min E (len - 1))) as [Hgt|Hgt].
    + rewrite (proj2 (Z.ltb_ge _ _)) by lia. done.
    + rewrite (proj2 (Z.ltb_lt _ _)) by lia.
      replace (Z.to_nat (Z.min E (len - 1) + 1)) with (Z.to_nat A + Z.to_nat (Z.min E (len - 1) - A + 1))%nat by lia.
      rewrite popcount_bytes by (unfold len, zlen in *; lia). f_equal; lia.
Qed.

Lemma bits_of_nil j : bits_of [] j = false.
Proof. unfold bits_of, byte_at. by rewrite lookup_nil, Z.bits_0. Qed.

Lemma bitcount_ok now k a z use_bit s m :
  state_ok now s m -> short_strings m -> in_i64 a = true -> in_i64 z = true ->
  bspec (BCount k a z use_bit) m (breply_of BInt (bitcount k a z use_bit now s)) m.
Proof.
  intros Hok Hs Ha Hz. unfold bitcount. cbn [bspec].
  destruct (view_string_cases now s m k Hok) as [(-> & _ & ->)|[(e & b & -> & -> & Hm)|(-> & ->)]]; [..|done];
    (split; [done|]); cbn [breply_of].
  - rewrite popcount_zero by (intros; apply bits_of_nil). by destruct (_ && _).
  - apply Hs in Hm. destruct use_bit; cbn [negb andb].
    + rewrite count_bits_ok by done. by rewrite !Z.mul_1_l.
    + by rewrite count_bytes_ok by done.
Qed.

(** ** Lemmas: finding bits *)

Lemma find_bit_ok b (v : bool) lo n :
  0 <= lo ->
  match find_bit (Z.b2z v) b (seqZ lo n) with
  | Some r => lo <= r < lo + n /\ bits_of b r = v /\ forall j, lo <= j < r -> bits_of b j = negb v
  | None => forall j, lo <= j < lo + n -> bits_of b j = negb v
  end.
Proof.
  intros Hlo. assert (forall j, lo <= j -> bit_of b j = Z.b2z v <-> bits_of b j = v) as Hb.
  { intros j Hj. rewrite bit_of_bits by lia. by destruct (bits_of b j), v. }
  assert (forall j, lo <= j -> bit_of b j <> Z.b2z v -> bits_of b j = negb v) as Hn.
  { intros j Hj H. rewrite (Hb j Hj) in H. by destruct (bits_of b j), v. }
  unfold find_bit. destruct (list_find _ (seqZ lo n)) as [[i r]|] eqn:E; cbn [fmap option_fmap option_map snd].
  - apply list_find_Some in E as (Hi & Hr & Hall). apply lookup_seqZ in Hi as [-> Hi].
    split; [lia|]. split; [by apply Hb; [lia|]|]. intros j Hj. apply Hn; [lia|].
    apply (Hall (Z.to_nat (j - lo))); [|lia]. apply lookup_seqZ. lia.
  - apply list_find_None in E. rewrite Forall_forall in E. intros j Hj. apply Hn; [lia|]. apply E. apply elem_of_seqZ. lia.
Qed.

Lemma first_bit_ok b v lo hi none none' n :
  0 <= lo -> hi < 2 ^ 62 -> n = hi - lo + 1 -> none = none' ->
  first_bit (bits_of b) v lo hi none' (match find_bit (Z.b2z v) b (seqZ lo n) with Some i => as_i64 i | None => none end).
Proof.
  intros Hlo Hhi -> ->. pose proof (find_bit_ok b v lo (hi - lo + 1) Hlo) as H. destruct (find_bit _ _ _) as [r|].
  - destruct H as (Hr & Hv & Hall). left. rewrite as_i64_small by (unfold i64_min, i64_max; lia). split; [lia|done].
  - right. split; [done|]. intros j Hj. apply H. lia.
Qed.

Lemma filter_forall {A : Type} (P : A -> Prop) `{!forall x, Decision (P x)} (l : list A) :
  Forall P l -> filter P l = l.
Proof. induction 1 as [|x l Hx _ IH]; [done|]. rewrite filter_cons_True by done. by rewrite IH. Qed.

Lemma bytes_then_bits lo n :
  0 <= n -> (i ← seqZ lo n; (fun j => i * 8 + j) <$> seqZ 0 8) = seqZ (8 * lo) (8 * n).
Proof.
  intros Hn. rewrite <-(Z2Nat.id n) by done. generalize (Z.to_nat n). clear n Hn. intros n.
  induction n as [|n IH]; [done|]. rewrite seqZ_S, bind_app, IH. replace (8 * Z.of_nat (S n)) with (8 * Z.of_nat n + 8) by lia.
  rewrite seqZ_app by lia. f_equal. cbn [mbind list_bind]. rewrite app_nil_r. apply list_eq. intros i.
  rewrite list_lookup_fmap. destruct (decide (Z.of_nat i < 8)).
  - rewrite !lookup_seqZ_lt by lia. cbn. f_equal. lia.
  - by rewrite !lookup_seqZ_ge by lia.
Qed.

(** The last position that BITPOS looks at. *)
Lemma last_position len stop :
  0 < len < 2 ^ 61 -> match stop with Some z => in_i64 z = true | None => True end ->
  match stop with
  | Some e => if e <? 0 then as_u64 (Z.max (as_i64 (len + e)) 0) else Z.min (as_u64 e) (len - 1)
  | None => len - 1
  end = match stop with Some z => Z.min (position len z) (len - 1) | None => len - 1 end.
Proof.
  intros Hl Hz. destruct stop as [z|]; [|done]. destruct (from_end len z ltac:(lia) Hz) as [E _].
  pose proof (position_small len z ltac:(lia)) as Hs. destruct (Z.ltb_spec z 0); rewrite E; [|done]. symmetry. apply Z.min_l. lia.
Qed.

Section Positions.
Context (b : bytes) (bit : bool) (a : Z) (stop : option Z).
Context (Hb : b <> []) (Hlen : zlen b < 2 ^ 58) (Ha : in_i64 a = true).
Context (Hstop : match stop with Some z => in_i64 z = true | None => True end).

Abbreviation last len := (match stop with Some z => Z.min (position len z) (len - 1) | None => len - 1 end).

Lemma last_lt len : 0 < len -> 0 <= last len <= len - 1.
Proof using Hstop. intros H. unfold position. destruct stop; lia. Qed.

Lemma nonempty_zlen : 0 < zlen b.
Proof using Hb Hlen. unfold zlen. destruct b; [done|]. cbn [length]. lia. Qed.

Lemma pos_bits_ok :
  let len := 8 * zlen b in
  let p := pos_bits b (Z.b2z bit) a stop in
  if position len a >? last len then p = -1 else first_bit (bits_of b) bit (position len a) (last len) (-1) p.
Proof using Hb Hlen Ha Hstop.
  intros len p. pose proof nonempty_zlen as Hpos. unfold p, pos_bits. cbv zeta.
  rewrite (as_i64_small (zlen b * 8)) by (unfold i64_min, i64_max; lia). rewrite (Z.mul_comm (zlen b)). fold len.
  rewrite (as_u64_small len) by (unfold u64_mod; lia). rewrite last_position by (done || lia).
  destruct (from_end len a ltac:(lia) Ha) as [-> _]. pose proof (last_lt len ltac:(lia)) as Hl. set (L := last len) in *.
  destruct (Z.gtb_spec (position len a) L) as [|Hle]; [done|].
  assert (0 <= position len a) by (unfold position; lia). rewrite filter_forall.
  - apply first_bit_ok; lia.
  - apply Forall_forall. intros j Hj%elem_of_seqZ. apply Z.div_lt_upper_bound; lia.
Qed.

Lemma pos_bytes_ok :
  let len := zlen b in
  let p := pos_bytes b (Z.b2z bit) a stop (bool_decide (is_Some stop)) in
  if position len a >? last len then p = -1
  else first_bit (bits_of b) bit (8 * position len a) (8 * last len + 7)
         (if negb bit && bool_decide (stop = None) then 8 * zlen b else -1) p.
Proof using Hb Hlen Ha Hstop.
  intros len p. pose proof nonempty_zlen as Hpos. unfold p, pos_bytes. cbv zeta. fold len.
  rewrite last_position by (done || lia). pose proof (last_lt len ltac:(lia)) as Hl.
  destruct (from_end len a ltac:(lia) Ha) as [Ea _]. assert (0 <= position len a) by (unfold position; lia).
  replace (if a <? 0 then _ else Z.min (as_u64 a) len) with (Z.min (position len a) len).
  2:{ pose proof (position_small len a ltac:(lia)). destruct (Z.ltb_spec a 0); rewrite <-Ea; [apply Z.min_l; rewrite Ea; lia|done]. }
  assert (negb bit && bool_decide (stop = None) = (Z.b2z bit =? 0) && negb (bool_decide (is_Some stop))) as ->.
  { destruct bit, stop; done. }
  assert (stop = None -> last len = len - 1) as Hnone by (intros ->; done).
  assert (bool_decide (is_Some stop) = false -> stop = None) as Hs by (by destruct stop).
  set (L := last len) in *. destruct (Z.gtb_spec (position len a) L).
  - by rewrite (proj2 (Z.gtb_lt _ _)) by lia.
  - rewrite (Z.min_l (position len a)) by lia. destruct (Z.gtb_spec (position len a) L); [lia|].
    rewrite bytes_then_bits by lia. apply first_bit_ok; [lia..|]. destruct (Z.b2z bit =? 0); [|done].
    destruct (bool_decide (is_Some stop)) eqn:Es; cbn [negb andb]; [done|].
    rewrite (Hnone (Hs eq_refl)), as_i64_small by (unfold i64_min, i64_max; lia). lia.
Qed.

End Positions.

Lemma bitpos_ok now k bit a stop use_bit s m :
  state_ok now s m -> short_strings m -> in_i64 a = true -> match stop with Some z => in_i64 z = true | None => True end ->
  bspec (BPos k bit a stop use_bit) m
    (breply_of BInt (bitpos k (Z.b2z bit) a stop (bool_decide (is_Some stop)) use_bit now s)) m.
Proof.
  intros Hok Hs Ha Hz. unfold bitpos. cbn [bspec].
  destruct (view_string_cases now s m k Hok) as [(-> & _ & ->)|[(e & b & -> & -> & Hm)|(-> & ->)]]; [..|done];
    (split; [done|]); cbn [breply_of]; eexists; (split; [done|]).
  - by destruct bit.
  - apply Hs in Hm. case_bool_decide as Hb; [by destruct bit|]. destruct use_bit; cbn [negb andb].
    + rewrite andb_false_r. cbn [andb]. rewrite !Z.mul_1_l, Z.add_0_r. by apply pos_bits_ok.
    + rewrite andb_true_r. by apply pos_bytes_ok.
Qed.

(** ** Lemmas: BITOP *)

Lemma byte_at_combine f total res src i :
  (total = false -> forall r, f r 0 = r) -> 0 <= i < zlen res ->
  byte_at (combine_src f total res src) i = f (byte_at res i) (byte_at src i).
Proof.
  intros Hf Hi. unfold byte_at, combine_src. rewrite list_lookup_imap.
  destruct (lookup_lt_is_Some_2 res (Z.to_nat i)) as [r Er]; [unfold zlen in Hi; lia|]. rewrite Er. cbn.
  destruct (src !! Z.to_nat i) as [x|]; cbn; [done|]. destruct total; [done|]. by rewrite Hf.
Qed.

Lemma zlen_combine f total res src : zlen (combine_src f total res src) = zlen res.
Proof. unfold zlen, combine_src. by rewrite length_imap. Qed.

Lemma combine_fold f total (g : bool -> bool -> bool) srcs : forall res,
  (total = false -> forall r, f r 0 = r) -> (forall x y i, Z.testbit (f x y) i = g (Z.testbit x i) (Z.testbit y i)) ->
  let res' := foldl (combine_src f total) res srcs in
  zlen res' = zlen res /\
  forall j, 0 <= j < 8 * zlen res -> bits_of res' j = foldl (fun x b => g x (bits_of b j)) (bits_of res j) srcs.
Proof.
  induction srcs as [|src srcs IH]; intros res Hf Hg; cbn [foldl]; [done|].
  destruct (IH (combine_src f total res src) Hf Hg) as [H1 H2]. rewrite zlen_combine in *. split; [done|].
  intros j Hj. rewrite H2 by done. f_equal. unfold bits_of. rewrite byte_at_combine; [apply Hg|done|].
  split; [apply Z.div_pos; lia|apply Z.div_lt_upper_bound; lia].
Qed.

Lemma bits_replicate n x j :
  0 <= j < 8 * Z.of_nat n -> bits_of (replicate n x) j = Z.testbit x (7 - j mod 8).
Proof.
  intros Hj. unfold bits_of, byte_at. rewrite lookup_replicate_2; [done|].
  assert (j / 8 < Z.of_nat n) by (apply Z.div_lt_upper_bound; lia). pose proof (Z.div_pos j 8). lia.
Qed.

Lemma foldl_andb (g : bytes -> bool) l : forall x, foldl (fun x b => x && g b) x l = x && forallb g l.
Proof. induction l as [|b l IH]; intros x; cbn [foldl forallb]; [by rewrite andb_true_r|]. by rewrite IH, andb_assoc. Qed.

Lemma foldl_orb (g : bytes -> bool) l : forall x, foldl (fun x b => x || g b) x l = x || existsb g l.
Proof. induction l as [|b l IH]; intros x; cbn [foldl existsb]; [by rewrite orb_false_r|]. by rewrite IH, orb_assoc. Qed.

Lemma bitop_result_ok op srcs n res :
  bitop_result op srcs (Z.of_nat n) = Some res ->
  spells res (Z.of_nat n) (fun j => (j <? 8 * Z.of_nat n) && combined op srcs j).
Proof.
  intros Hr.
  assert (zlen res = Z.of_nat n /\ forall j, 0 <= j < 8 * Z.of_nat n -> bits_of res j = combined op srcs j) as [Hl Hb].
  { assert (forall x : Z, zlen (replicate n x) = Z.of_nat n) as Hrep by (intros x; unfold zlen; by rewrite length_replicate).
    assert (forall j, Z.testbit 255 (7 - j mod 8) = true) as H255.
    { intros j. pose proof (mod8 j). change 255 with (Z.ones 8). apply Z.ones_spec_low. lia. }
    unfold bitop_result in Hr. rewrite Nat2Z.id in Hr. destruct op; try done.
    - injection Hr as <-. destruct (combine_fold Z.land true andb srcs (replicate n 255)) as [H1 H2]; [done|apply Z.land_spec|].
      rewrite Hrep in H1, H2. split; [done|]. intros j Hj. rewrite H2, bits_replicate, H255 by done. apply foldl_andb.
    - injection Hr as <-. destruct (combine_fold Z.lor false orb srcs (replicate n 0)) as [H1 H2];
        [intros; apply Z.lor_0_r|apply Z.lor_spec|].
      rewrite Hrep in H1, H2. split; [done|]. intros j Hj. rewrite H2, bits_replicate, Z.bits_0 by done. apply foldl_orb.
    - injection Hr as <-. destruct (combine_fold Z.lxor false xorb srcs (replicate n 0)) as [H1 H2];
        [intros; apply Z.lxor_0_r|apply Z.lxor_spec|].
      rewrite Hrep in H1, H2. split; [done|]. intros j Hj. by rewrite H2, bits_replicate, Z.bits_0 by done.
    - destruct srcs as [|src srcs]; [done|]. injection Hr as <-. split; [unfold zlen; by rewrite length_imap, length_replicate|].
      intros j Hj. cbn [combined]. unfold bits_of, byte_at. rewrite list_lookup_imap, lookup_replicate_2.
      + cbn. destruct (src !! Z.to_nat (j / 8)) as [x|]; cbn.
        * by rewrite Z.lxor_spec, H255.
        * by rewrite H255, Z.bits_0.
      + assert (j / 8 < Z.of_nat n) by (apply Z.div_lt_upper_bound; lia). pose proof (Z.div_pos j 8). lia. }
  split; [done|]. intros j Hj. destruct (Z.ltb_spec j (8 * Z.of_nat n)); cbn [andb]; [by apply Hb|]. apply bits_past. lia.
Qed.

Lemma max_len_nonneg srcs : 0 <= max_len srcs.
Proof.
  unfold max_len. assert (forall n, 0 <= n -> 0 <= foldl (fun n b => Z.max n (zlen b)) n srcs) as H; [|by apply H].
  induction srcs as [|b srcs IH]; intros n Hn; cbn [foldl]; [done|]. apply IH. lia.
Qed.

Lemma sources_ok now s m keys :
  state_ok now s m ->
  bitop_sources keys now s =
    match mapM (string_at m) keys with Some l => Ok (fst <$> l) | None => Err WRONGTYPE end.
Proof.
  intros Hok. induction keys as [|k keys IH]; [done|]. cbn [bitop_sources]. rewrite IH. cbn [mapM].
  destruct (view_string_cases now s m k Hok) as [(-> & _ & ->)|[(e & b & -> & -> & _)|(-> & ->)]]; cbn; [..|done];
    by destruct (mapM (string_at m) keys).
Qed.

Lemma bitop_ok now op dest keys s m :
  state_ok now s m -> match op with BNot => length keys = 1%nat | _ => True end ->
  match bitop now op dest keys now s with
  | Returned (r, s') => exists m', bspec (BOp op dest keys) m (breply_of BInt r) m' /\ state_ok now s' m'
  | Panicked => False
  end.
Proof.
  intros Hok Hn. unfold bitop. rewrite (sources_ok now s m keys Hok). cbn [bspec].
  destruct (mapM (string_at m) keys) as [l|] eqn:El; [|by exists m]. set (srcs := fst <$> l).
  pose proof (max_len_nonneg srcs) as Hlen. destruct (Z.eqb_spec (max_len srcs) 0) as [E0|E0].
  - pose proof (del_ok now s m [dest] Hok) as H. destruct (del now [dest] s) as [n s']. destruct H as [_ H].
    exists (delete dest m). split; [done|]. cbn [foldl snd] in *.
    replace (delete dest m) with (adel (0, m) dest).2; [done|]. unfold adel. cbn [fst snd]. destruct (m !! dest) eqn:Em; cbn [snd]; [done|].
    by rewrite delete_id.
  - assert (forall r, bitop_result op srcs (max_len srcs) = Some r ->
      match (s ← set dest r None now s; Returned (Ok (zlen r), s)) with
      | Returned (x, s') => x = Ok (max_len srcs) /\ state_ok now s' (<[dest := (inl r, None)]> m)
      | Panicked => False
      end /\ spells r (max_len srcs) (fun j => (j <? 8 * max_len srcs) && combined op srcs j)) as Hset.
    { intros r Hr. rewrite <-(Z2Nat.id (max_len srcs)) in Hr |- * by done. apply bitop_result_ok in Hr. split; [|done].
      pose proof (set_ok now s m dest r None Hok I) as H. change (deadline None now) with (Returned (@None Z)) in H.
      destruct (set dest r None now s) as [s'|]; [|done]. cbn [mbind outcome_bind]. split; [|done]. f_equal. apply Hr. }
    destruct op; try (by exists m);
      (destruct (bitop_result _ srcs (max_len srcs)) as [r|] eqn:Er;
       [destruct (Hset r eq_refl) as [H Hsp]; destruct (set dest r None now s) as [s'|]; [|done];
        cbn in H |- *; destruct H as [[= ->] H]; exists (<[dest := (inl r, None)]> m); (split; [|done]); (split; [done|]); by exists r|]);
      try (by unfold bitop_result in Er). exfalso. apply length_mapM in El. rewrite Hn in El.
    destruct l as [|x l]; [done|]. by unfold bitop_result in Er.
Qed.

(** ** The contract holds *)

(** C30. The bit commands do on machine integers what they promise on sequences of bits. For every
    command with arguments in the ranges the parsers accept, on a store without a cold tier whose
    strings fit in memory: SETBIT answers the old bit and changes that bit only, growing the string
    just enough; BITFIELD runs its operations in order on the current bits, a GET giving the number
    its bits spell (in two's complement when signed), SET and INCRBY storing the value that fits the
    field by wrapping, saturating or failing, and no bit outside the field changing; BITCOUNT counts
    the set bits of the range, by bits or by bytes from either end; BITPOS gives the first such bit
    of the range or the documented answer when there is none; BITOP stores the combination of its
    sources, short ones padded with zeros. A key of another type is refused and nothing changes. No
    command panics. *)
Theorem bit_commands_refine (now : Z) (c : bcmd) (s : Store) (m : keyspace) :
  state_ok now s m -> short_strings m -> bcmd_ok c ->
  match bexec now now c s with
  | Returned (r, s') => exists m', bspec c m r m' /\ state_ok now s' m'
  | Panicked => False
  end.
Proof.
  intros Hok Hs Hc. destruct c as [k off bit|k off|k ops|k a z ub|k bit a stop ub|op dest keys]; cbn [bexec].
  - pose proof (setbit_ok now k off bit s m Hok Hc) as H. by destruct (setbit _ _ _ _ _) as [r s'].
  - exists m. split; [|done]. unfold getbit. cbn [bspec].
    destruct (view_string_cases now s m k Hok) as [(-> & _ & ->)|[(e & b & -> & -> & _)|(-> & ->)]]; [..|done].
    + by rewrite bits_of_nil.
    + split; [|done]. cbn [breply_of]. rewrite bit_of_bits by done. destruct (Z.geb_spec (off / 8) (zlen b)); [|done].
      rewrite bits_past; [done|]. pose proof (Z.div_mod off 8). pose proof (Z.mod_pos_bound off 8). lia.
  - pose proof (bitfield_ok now k ops s m Hok Hc) as H. by destruct (bitfield _ _ _ _) as [r s'].
  - exists m. split; [|done]. destruct Hc. by apply bitcount_ok.
  - exists m. split; [|done]. destruct Hc. by apply bitpos_ok.
  - pose proof (bitop_ok now op dest keys s m Hok Hc) as H. by destruct (bitop _ _ _ _ _ _) as [[r s']|].
Qed.

(** The argument parsers of BITFIELD keep every operation in bounds: a type they accept is [i1] to
    [i64] or [u1] to [u63], and an offset they accept, multiplied or not, is such that writing the
    field makes the string at most [max_bytes] long (unless it was longer already), with no 64-bit
    overflow on the way. *)
Theorem bitfield_args_bounded (ty off : bytes) (signed : bool) (bits offset max_bytes v : Z) (buf : bytes) :
  parse_bitfield_type ty = Ok (signed, bits) ->
  parse_bitfield_offset off bits max_bytes = Ok offset ->
  width_ok signed bits /\ 0 <= offset /\ offset + bits <= usize_max /\
  zlen (bf_write buf offset bits v) <= Z.max (zlen buf) max_bytes.
Proof.
  intros Ht Ho.
  assert (width_ok signed bits) as Hw.
  { unfold parse_bitfield_type in Ht. destruct ty as [|c digits]; [done|].
    destruct (if _ || _ then _ else _) as [sg|]; [|done]. destruct (if is_utf8 digits then _ else _) as [n|]; [|done].
    unfold width_ok. destruct sg; destruct ((1 <=? n) && _) eqn:E; try done; injection Ht as <- <-; zbool; lia. }
  assert (1 <= bits) as Hb by (unfold width_ok in Hw; destruct signed; lia).
  unfold parse_bitfield_offset in Ho. destruct (match off with 35 :: _ => _ | _ => _ end) as [mult digits].
  destruct (if is_utf8 digits then parse_u64 digits else None) as [n|] eqn:En; [|done].
  assert (0 <= n) as Hn.
  { destruct (is_utf8 digits); [|done]. by apply parse_u64_nonneg in En. }
  destruct (if mult then _ else Some n) as [o|] eqn:Eo; [|done]. assert (0 <= o) as Hop.
  { destruct mult; [destruct (_ <=? _); [|done]|]; injection Eo as <-; nia. }
  destruct (Z.gtb_spec (o + bits) usize_max); [done|]. destruct (Z.gtb_spec ((o + bits) / 8 + 1) max_bytes); [done|].
  injection Ho as <-. split; [done|]. split; [done|]. split; [lia|].
  destruct (bf_write_ok buf _ _ o bits v (spells_refl buf) Hop ltac:(lia)) as [-> _].
  assert (div_ceil (o + bits) 8 <= (o + bits) / 8 + 1).
  { unfold div_ceil. apply Z.lt_succ_r, Z.div_lt_upper_bound; [lia|].
    pose proof (Z.div_mod (o + bits) 8). pose proof (Z.mod_pos_bound (o + bits) 8). lia. }
  lia.
Qed.

(** ** Witnesses *)

Lemma new_state_ok now : state_ok now (new 4) ∅.
Proof.
  split; [split; [unfold nonempty; cbn; lia|done]|]. intros k. rewrite lookup_empty. unfold sem, live, find, shard_at, new.
  cbn [shards]. destruct (replicate 4 empty_shard !! _) as [sh|] eqn:E; [|done].
  apply lookup_replicate in E as [-> _]. done.
Qed.

Lemma bit_commands_refine_witness :
  let c := BField (bs "k") [OpSet true 5 3 (-3) Wrap; OpGet false 8 0; OpIncrBy true 5 3 100 Sat] in
  match bexec 7 7 c (new 4) with
  | Returned (r, s') => r = BInts [Some 0; Some 29; Some 15] /\ exists m', bspec c ∅ r m' /\ state_ok 7 s' m'
  | Panicked => False
  end.
Proof.
  cbv zeta. set (c := BField _ _).
  pose proof (bit_commands_refine 7 c (new 4) ∅ (new_state_ok 7) ltac:(intros k b exp; by rewrite lookup_empty)
    ltac:(repeat constructor; cbn; lia)) as H.
  assert (match bexec 7 7 c (new 4) with Returned (r, _) => r = BInts [Some 0; Some 29; Some 15] | Panicked => False end)
    as E by (vm_compute; reflexivity).
  destruct (bexec 7 7 c (new 4)) as [[r s']|]; [split; [exact E|exact H]|exact E].
Defined.

Lemma bitfield_args_bounded_witness :
  zlen (bf_write [255] 1048 8 7) <= Z.max (zlen [255]) 512.
Proof.
  apply (bitfield_args_bounded (bs "u8") (bs "#131") false 8 1048 512 7 [255]); vm_compute; reflexivity.
Defined.

End Bits.
