(* ===== verification/Waiters.v ===== *)
(** * Blocked clients ([src/src/pubsub.rs], lines 72-85 and 279-500, with [commit_prepared] of
      [src/src/store/mod.rs])

    Clients of BLPOP, BRPOP and BLMOVE that found nothing wait in the broker, in a queue per key. After
    a push, [drain_list_waiters] hands elements to the first clients of the key's queue: it first
    reserves a place in the client's channel, so that an element is only popped when it can be
    delivered, then pops and journals, then sends. A move wakes the clients of its destination in
    turn, by a nested call.

    A channel is bounded and its receiver may have gone; a client that waits on several keys has the
    same channel in each queue. Clients of blocking stream reads are only woken. *)

From S2P Require Import Prelude.
From S2P Require Import Store.
From S2P Require Import Strings.
From S2P Require Import Lists.
Local Open Scope Z_scope.

Module Waiters.
Import Store.Store Strings.Strings Lists.Lists.

(** ** The broker *)

(** An [mpsc] channel: whether the receiver is gone, the capacity and the messages not yet received. *)
Record Channel := mkChannel { ch_closed : bool; ch_capacity : nat; ch_messages : list (bytes * bytes) }.

Record BlockedPopRequest := mkRequest {
  tx : nat; pop_left : bool; destination : option (bytes * bool); waiter_id : Z
}.

Record StreamWaiter := mkStreamWaiter { sw_tx : nat; sw_waiter_id : Z }.

Record Broker := mkBroker {
  list_waiters : gmap bytes (list BlockedPopRequest); list_waiter_count : Z;
  stream_waiters : gmap bytes (list StreamWaiter); stream_waiter_count : Z;
  waiter_counter : Z; channels : gmap nat Channel
}.

(** [fetch_add] and [fetch_sub] wrap around. *)
Definition fetch_add (a b : Z) : Z := as_u64 (a + b).
Definition fetch_sub (a b : Z) : Z := as_u64 (a - b).

Definition set_list_waiters (w : gmap bytes (list BlockedPopRequest)) (n : Z) (b : Broker) : Broker :=
  mkBroker w n (stream_waiters b) (stream_waiter_count b) (waiter_counter b) (channels b).
Definition set_stream_waiters (w : gmap bytes (list StreamWaiter)) (n : Z) (b : Broker) : Broker :=
  mkBroker (list_waiters b) (list_waiter_count b) w n (waiter_counter b) (channels b).
Definition set_channels (c : gmap nat Channel) (b : Broker) : Broker :=
  mkBroker (list_waiters b) (list_waiter_count b) (stream_waiters b) (stream_waiter_count b) (waiter_counter b) c.

Definition next_waiter_id (b : Broker) : Z * Broker :=
  (waiter_counter b,
   mkBroker (list_waiters b) (list_waiter_count b) (stream_waiters b) (stream_waiter_count b)
     (fetch_add (waiter_counter b) 1) (channels b)).

Definition has_list_waiters (b : Broker) : bool := list_waiter_count b >? 0.

(** [waiters.entry(key).or_default()] *)
Definition queue {W : Type} (w : gmap bytes (list W)) (key : bytes) : list W := default [] (w !! key).

Definition register_list_waiter (key : bytes) (r : BlockedPopRequest) (b : Broker) : Broker :=
  set_list_waiters (<[key := queue (list_waiters b) key ++ [r]]> (list_waiters b)) (fetch_add (list_waiter_count b) 1) b.

(** A request that was not served goes back to the front. *)
Definition requeue (key : bytes) (r : BlockedPopRequest) (b : Broker) : Broker :=
  set_list_waiters (<[key := r :: queue (list_waiters b) key]> (list_waiters b)) (fetch_add (list_waiter_count b) 1) b.

(** The queue of a key without an identifier: the registry and how many went. *)
Definition remove_by_id {W : Type} (id_of : W -> Z) (id : Z) (acc : gmap bytes (list W) * Z) (key : bytes)
    : gmap bytes (list W) * Z :=
  let '(w, count) := acc in
  match w !! key with
  | None => (w, count)
  | Some q =>
      let q' := List.filter (fun r => negb (id_of r =? id)) q in
      let removed := (length q - length q')%nat in
      let count := if (0 <? removed)%nat then fetch_sub count (Z.of_nat removed) else count in
      (if bool_decide (q' = []) then delete key w else <[key := q']> w, count)
  end.

Definition remove_list_waiters_by_id (keys : list bytes) (id : Z) (b : Broker) : Broker :=
  let '(w, n) := foldl (remove_by_id waiter_id id) (list_waiters b, list_waiter_count b) keys in
  set_list_waiters w n b.

Definition register_stream_waiter (key : bytes) (tx : nat) (id : Z) (b : Broker) : Broker :=
  set_stream_waiters (<[key := queue (stream_waiters b) key ++ [mkStreamWaiter tx id]]> (stream_waiters b))
    (fetch_add (stream_waiter_count b) 1) b.

Definition remove_stream_waiters_by_id (keys : list bytes) (id : Z) (b : Broker) : Broker :=
  let '(w, n) := foldl (remove_by_id sw_waiter_id id) (stream_waiters b, stream_waiter_count b) keys in
  set_stream_waiters w n b.

(** ** Channels *)

Inductive reservation := Reserved | Full | Closed.

(** [try_reserve_owned]. A permit is used or dropped before the next reservation. *)
Definition try_reserve (tx : nat) (b : Broker) : reservation :=
  match channels b !! tx with
  | None => Closed
  | Some c => if ch_closed c then Closed
              else if (length (ch_messages c) <? ch_capacity c)%nat then Reserved else Full
  end.

Definition send (tx : nat) (msg : bytes * bytes) (b : Broker) : Broker :=
  set_channels (alter (fun c => mkChannel (ch_closed c) (ch_capacity c) (ch_messages c ++ [msg])) tx (channels b)) b.

(** [try_send(())]: the message of a stream waiter carries nothing. *)
Definition try_send (tx : nat) (b : Broker) : Broker :=
  match try_reserve tx b with Reserved => send tx ([], []) b | _ => b end.

Definition wake_stream_waiters (key : bytes) (b : Broker) : Broker :=
  match stream_waiters b !! key with
  | None => b
  | Some senders =>
      let b := set_stream_waiters (delete key (stream_waiters b))
                 (fetch_sub (stream_waiter_count b) (Z.of_nat (length senders))) b in
      foldl (fun b w => try_send (sw_tx w) b) b senders
  end.

(** ** Draining *)

(** The server as a blocked pop sees it: the journal and whether it is poisoned. *)
Record Server := mkServer { broker : Broker; store : Store; journal : list (list bytes); poisoned : bool }.

Definition with_broker (f : Broker -> Broker) (s : Server) : Server :=
  mkServer (f (broker s)) (store s) (journal s) (poisoned s).

Section Drain.

Context (hll_count : bytes -> Z).
(** Whether the journal takes a batch, given what it holds (a batch that is refused leaves no record);
    [Store::decrypt_list_element]. *)
Context (accepts : list (list bytes) -> list (list bytes) -> bool).
Context (decrypt_list_element : bytes -> result bytes).

(** [commit_prepared]: prepare, journal the commands, apply. A change that was journaled and then not
    applied poisons the journal. [None] is any error, or that there is nothing to do. *)
Definition commit_prepared (prepare : Store -> result (option (list (list bytes) * bytes)) * Store)
    (apply : bytes -> Store -> option bytes * Store) (s : Server) : option bytes * Server :=
  if poisoned s then (None, s)
  else match prepare (store s) with
       | (Err _, st) | (Ok None, st) => (None, mkServer (broker s) st (journal s) (poisoned s))
       | (Ok (Some (commands, expected)), st) =>
           if negb (accepts (journal s) commands) then (None, mkServer (broker s) st (journal s) (poisoned s))
           else
             let '(got, st) := apply expected st in
             let j := journal s ++ commands in
             if bool_decide (got = Some expected) then (got, mkServer (broker s) st j (poisoned s))
             else (None, mkServer (broker s) st j true)
       end.

Definition pop_name (left : bool) : bytes := if left then bs "LPOP" else bs "RPOP".
Definition push_name (left : bool) : bytes := if left then bs "LPUSH" else bs "RPUSH".

(** The journaled pop or move of one request. *)
Definition take_blocked (key : bytes) (r : BlockedPopRequest) (now : Z) (s : Server) : option bytes * Server :=
  match destination r with
  | Some (dst, push_left) =>
      commit_prepared
        (fun st => match preview_lmove hll_count now key dst (pop_left r) now st with
                   | (Err e, st) => (Err e, st)
                   | (Ok None, st) => (Ok None, st)
                   | (Ok (Some v), st) =>
                       (Ok (Some ([[pop_name (pop_left r); key]; [push_name push_left; dst; v]], v)), st)
                   end)
        (fun _ st => lmove key dst (pop_left r) push_left now st) s
  | None =>
      commit_prepared
        (fun st => match preview_lmpop hll_count now [key] (pop_left r) 1 now st with
                   | (Err e, st) => (Err e, st)
                   | (Ok None, st) => (Ok None, st)
                   | (Ok (Some (_, vs)), st) =>
                       match list.last vs with
                       | Some v => (Ok (Some ([[pop_name (pop_left r); key]], v)), st)
                       | None => (Ok None, st)
                       end
                   end)
        (fun _ st => pop (pop_left r) key now st) s
  end.

(** The head of a queue, taken out. *)
Definition pop_waiter (key : bytes) (q : list BlockedPopRequest) (b : Broker) : Broker :=
  set_list_waiters (if bool_decide (q = []) then delete key (list_waiters b) else <[key := q]> (list_waiters b))
    (fetch_sub (list_waiter_count b) 1) b.

Fixpoint drain_list_waiters (fuel : nat) (key : bytes) (now : Z) (s : Server) : option Server :=
  match fuel with
  | O => None
  | S fuel =>
      match list_waiters (broker s) !! key with
      | None => Some s
      | Some [] => Some (with_broker (fun b => set_list_waiters (delete key (list_waiters b)) (list_waiter_count b) b) s)
      | Some (r :: q) =>
          let s := with_broker (pop_waiter key q) s in
          match try_reserve (tx r) (broker s) with
          | Closed => drain_list_waiters fuel key now s
          | Full => Some (with_broker (requeue key r) s)
          | Reserved =>
              match take_blocked key r now s with
              | (None, s) => Some (with_broker (requeue key r) s)
              | (Some raw, s) =>
                  let value := match decrypt_list_element raw with Ok v => v | Err _ => raw end in
                  let s := with_broker (send (tx r) (key, value)) s in
                  match destination r with
                  | Some (dst, _) =>
                      if negb (bytes_eqb dst key) && has_list_waiters (broker s)
                      then s ← drain_list_waiters fuel dst now s; drain_list_waiters fuel key now s
                      else drain_list_waiters fuel key now s
                  | None => drain_list_waiters fuel key now s
                  end
              end
          end
      end
  end.

(** ** What a drain does *)

(** An element handed to a client. *)
Record event := mkEvent { ev_key : bytes; ev_request : BlockedPopRequest; ev_value : bytes }.

Definition plain (raw : bytes) : bytes := match decrypt_list_element raw with Ok v => v | Err _ => raw end.

(** In the client's channel, in the journal, and in the keyspace. *)
Definition deliver (cs : gmap nat Channel) (e : event) : gmap nat Channel :=
  alter (fun c => mkChannel (ch_closed c) (ch_capacity c) (ch_messages c ++ [(ev_key e, plain (ev_value e))]))
    (tx (ev_request e)) cs.

Definition records (e : event) : list (list bytes) :=
  let r := ev_request e in
  match destination r with
  | None => [[pop_name (pop_left r); ev_key e]]
  | Some (dst, push_left) => [[pop_name (pop_left r); ev_key e]; [push_name push_left; dst; ev_value e]]
  end.

Definition effect (m : keyspace) (e : event) : keyspace :=
  let r := ev_request e in
  let m := (apop (pop_left r) (ev_key e) m).2 in
  match destination r with
  | None => m
  | Some (dst, push_left) => (apush push_left dst [ev_value e] (view_of (m !! dst)) m).2
  end.

(** Each element is at the end of the list it is taken from. *)
Fixpoint valid (m : keyspace) (evs : list event) : Prop :=
  match evs with
  | [] => True
  | e :: evs => (apop (pop_left (ev_request e)) (ev_key e) m).1 = Some (ev_value e) /\ valid (effect m e) evs
  end.

Definition requests_at (k : bytes) (evs : list event) : list BlockedPopRequest :=
  ev_request <$> filter (fun e => ev_key e = k) evs.

Definition waiting {W : Type} (w : gmap bytes (list W)) : nat := map_fold (fun _ q n => length q + n)%nat 0%nat w.

(** The counters count, and no empty queue is kept. *)
Definition counted {W : Type} (w : gmap bytes (list W)) (n : Z) : Prop :=
  n = as_u64 (Z.of_nat (waiting w)) /\ forall k, w !! k <> Some [].
Definition counts_ok (b : Broker) : Prop :=
  counted (list_waiters b) (list_waiter_count b) /\ counted (stream_waiters b) (stream_waiter_count b).

Definition queue_at (s : Server) (k : bytes) : list BlockedPopRequest := queue (list_waiters (broker s)) k.

Record progress (now : Z) (s s' : Server) (evs : list event) : Prop := {
  pg_channels : channels (broker s') = foldl deliver (channels (broker s)) evs;
  pg_journal : journal s' = journal s ++ concat (records <$> evs);
  pg_poisoned : poisoned s' = poisoned s;
  pg_space : forall m, state_ok now (store s) m -> state_ok now (store s') (foldl effect m evs) /\ valid m evs;
  pg_queue : forall k, exists n, queue_at s' k = drop n (queue_at s k) /\
                         requests_at k evs `sublist_of` take n (queue_at s k);
  pg_total : (waiting (list_waiters (broker s')) <= waiting (list_waiters (broker s)))%nat
}.

(** Why the first client of a queue is not served. *)
Definition blocked (m : keyspace) (key : bytes) (r : BlockedPopRequest) : Prop :=
  match view_of (m !! key) with
  | AList (_ :: _) _ => match destination r with Some (dst, _) => view_of (m !! dst) = Other | None => False end
  | _ => True
  end.

(** The journal does not take the records of the next element. *)
Definition refused (s : Server) (m : keyspace) (key : bytes) (r : BlockedPopRequest) : Prop :=
  exists v, (apop (pop_left r) key m).1 = Some v /\ accepts (journal s) (records (mkEvent key r v)) = false.

Definition settled (s : Server) (m : keyspace) (key : bytes) : Prop :=
  match queue_at s key with
  | [] => True
  | r :: _ => try_reserve (tx r) (broker s) = Full \/ poisoned s = true \/ blocked m key r \/ refused s m key r
  end.

(** ** Lemmas: counting *)

Lemma waiting_split {W : Type} (w : gmap bytes (list W)) k :
  waiting w = (length (queue w k) + waiting (delete k w))%nat.
Proof using.
  unfold waiting, queue. destruct (w !! k) as [q|] eqn:E; cbn.
  - rewrite (map_fold_delete_L _ _ k q w); [done| |done]. intros. lia.
  - by rewrite delete_id.
Qed.

Lemma waiting_insert {W : Type} (w : gmap bytes (list W)) k q :
  waiting (<[k := q]> w) = (length q + waiting (delete k w))%nat.
Proof using. rewrite (waiting_split _ k). unfold queue. by rewrite lookup_insert_eq, delete_insert_eq. Qed.

Lemma queue_insert {W : Type} (w : gmap bytes (list W)) k q k' :
  queue (<[k := q]> w) k' = if decide (k' = k) then q else queue w k'.
Proof using. unfold queue. destruct (decide (k' = k)) as [->|]; [by rewrite lookup_insert_eq|by rewrite lookup_insert_ne]. Qed.

Lemma queue_delete {W : Type} (w : gmap bytes (list W)) k k' :
  queue (delete k w) k' = if decide (k' = k) then [] else queue w k'.
Proof using. unfold queue. destruct (decide (k' = k)) as [->|]; [by rewrite lookup_delete_eq|by rewrite lookup_delete_ne]. Qed.

(** A queue set, or dropped when it is empty. *)
Definition put_queue {W : Type} (k : bytes) (q : list W) (w : gmap bytes (list W)) : gmap bytes (list W) :=
  if bool_decide (q = []) then delete k w else <[k := q]> w.

Lemma waiting_put {W : Type} k (q : list W) w : waiting (put_queue k q w) = (length q + waiting (delete k w))%nat.
Proof using.
  unfold put_queue. case_bool_decide as E; [subst q; done|]. apply waiting_insert.
Qed.

Lemma queue_put {W : Type} k (q : list W) w k' : queue (put_queue k q w) k' = if decide (k' = k) then q else queue w k'.
Proof using.
  unfold put_queue. case_bool_decide as E; [subst q; apply queue_delete|apply queue_insert].
Qed.

Lemma counted_put {W : Type} k (q : list W) w n d :
  counted w n -> Z.of_nat (length q) = Z.of_nat (length (queue w k)) + d ->
  counted (put_queue k q w) (as_u64 (n + d)).
Proof using.
  intros [-> He] Hd. split.
  - rewrite waiting_put. rewrite (waiting_split w k). unfold as_u64. rewrite Zplus_mod_idemp_l. f_equal. lia.
  - intros k'. unfold put_queue. case_bool_decide as E.
    + destruct (decide (k' = k)) as [->|]; [by rewrite lookup_delete_eq|by rewrite lookup_delete_ne].
    + destruct (decide (k' = k)) as [->|]; [rewrite lookup_insert_eq; congruence|by rewrite lookup_insert_ne].
Qed.

Lemma queue_some {W : Type} (w : gmap bytes (list W)) k q : w !! k = Some q -> queue w k = q.
Proof using. unfold queue. by intros ->. Qed.

(** ** Lemmas: one request *)

(** The element an end of a list gives. *)
Lemma apop_view left k m :
  (apop left k m).1 =
    match view_of (m !! k) with AList l _ => fst <$> take_end left l | _ => None end.
Proof using.
  unfold apop. destruct (view_of (m !! k)) as [|l exp|]; [done| |done].
  pose proof (take_end_aends left 0 l) as H. destruct (take_end left l) as [[x l1]|].
  - rewrite H, aends_zero. done.
  - subst l. by rewrite aends_nil.
Qed.

Lemma take_end_some left l : l <> [] -> is_Some (take_end left l).
Proof using.
  intros H. pose proof (take_end_aends left 0 l) as Ht. destruct (take_end left l); [by eexists|done].
Qed.

Lemma preview_one_ok now k left st m :
  state_ok now st m ->
  preview_lmpop hll_count now [k] left 1 now st =
    (match view_of (m !! k) with
     | Other => Err WRONGTYPE
     | AList (x :: l) exp => Ok ((fun v => (k, [v])) <$> (apop left k m).1)
     | _ => Ok None
     end, st).
Proof using.
  intros Hok. cbn [preview_lmpop]. rewrite hot_promote by apply Hok. rewrite apop_view.
  rewrite (view_live now st m k Hok). destruct (live st now k) as [e|]; [|done].
  destruct (Values.Values.value e) as [| |l| | | | | | |]; try done. destruct l as [|x l]; [done|].
  pose proof (take_end_aends left 0 (x :: l)) as Ht. pose proof (aends_preview left 1 (x :: l)) as Hp.
  destruct (take_end left (x :: l)) as [[y l1]|]; [|done]. rewrite Ht, aends_zero in Hp. cbn [fst] in Hp. by rewrite <-Hp.
Qed.

(** What prevents a pop from [key], or a move to [dst]. *)
Lemma preview_move_ok now k dst left st m :
  state_ok now st m ->
  let '(res, st') := preview_lmove hll_count now k dst left now st in
  st' = st /\
  match res with
  | Ok (Some v) => (apop left k m).1 = Some v
  | _ => match view_of (m !! k) with AList (_ :: _) _ => view_of (m !! dst) = Other | _ => True end
  end.
Proof using.
  intros Hok. unfold preview_lmove. rewrite !hot_promote by apply Hok. rewrite apop_view.
  rewrite (view_live now st m k Hok), (view_live now st m dst Hok).
  set (kv := live st now k). set (dv := live st now dst).
  assert (forall l exp, match fst <$> take_end left l with
    | Some v => fst <$> take_end left l = Some v
    | None => match AList l exp with AList (_ :: _) _ => False | _ => True end
    end) as Hl.
  { intros l exp. destruct (take_end left l) as [[v l1]|] eqn:E; [done|]. cbn. destruct l as [|x l]; [done|].
    by destruct (take_end_some left (x :: l)) as [y Hy]; [|congruence]. }
  destruct dv as [e|]; [destruct (Values.Values.value e)|]; cbn [negb];
    (destruct kv as [e'|]; [destruct (Values.Values.value e') as [| |l'| | | | | | |]|]);
    (split; [done|]); try done; try (by destruct l');
    specialize (Hl l' (Values.Values.expires_at e')); destruct (fst <$> take_end left l'); try done; by destruct l'.
Qed.

Lemma blocked_move_ok now key r dst pl s m :
  destination r = Some (dst, pl) -> state_ok now (store s) m ->
  let '(o, s') := take_blocked key r now s in
  broker s' = broker s /\ poisoned s' = poisoned s /\
  match o with
  | Some v => journal s' = journal s ++ records (mkEvent key r v) /\ (apop (pop_left r) key m).1 = Some v /\
              state_ok now (store s') (effect m (mkEvent key r v))
  | None => journal s' = journal s /\ store s' = store s /\
            (poisoned s = true \/ blocked m key r \/ refused s m key r)
  end.
Proof using.
  intros Hdst Hok. unfold take_blocked, blocked, refused, effect, records, commit_prepared. cbn [ev_request ev_key ev_value].
  rewrite Hdst. destruct (poisoned s) eqn:Ep; [by repeat (split; [done|]); left|].
  pose proof (preview_move_ok now key dst (pop_left r) (store s) m Hok) as Hp.
  destruct (preview_lmove _ _ _ _ _ _ _) as [res st]. destruct Hp as [-> Hp].
  destruct res as [[v|]|]; [|by repeat (split; [done|]); right; left..].
  destruct (accepts (journal s) _) eqn:Eacc; cbn [negb]; [|by repeat (split; [done|]); right; right; exists v].
  pose proof (lmove_ok now key dst (pop_left r) pl (store s) m Hok) as Hm.
  destruct (lmove key dst (pop_left r) pl now (store s)) as [got st]. cbn [lspec] in Hm.
  destruct (apop (pop_left r) key m) as [o m1]. cbn [fst snd] in *. subst o.
  destruct Hm as [[= ->] Hm]. by rewrite bool_decide_eq_true_2.
Qed.

Lemma blocked_pop_ok now key r s m :
  destination r = None -> state_ok now (store s) m ->
  let '(o, s') := take_blocked key r now s in
  broker s' = broker s /\ poisoned s' = poisoned s /\
  match o with
  | Some v => journal s' = journal s ++ records (mkEvent key r v) /\ (apop (pop_left r) key m).1 = Some v /\
              state_ok now (store s') (effect m (mkEvent key r v))
  | None => journal s' = journal s /\ store s' = store s /\
            (poisoned s = true \/ blocked m key r \/ refused s m key r)
  end.
Proof using.
  intros Hdst Hok. unfold take_blocked, blocked, refused, effect, records, commit_prepared. cbn [ev_request ev_key ev_value].
  rewrite Hdst. destruct (poisoned s) eqn:Ep; [by repeat (split; [done|]); left|].
  rewrite (preview_one_ok now key (pop_left r) (store s) m Hok). pose proof (apop_view (pop_left r) key m) as Hap.
  destruct (view_of (m !! key)) as [|[|x l] exp|] eqn:Ev; try (by repeat (split; [done|]); right; left).
  destruct (take_end_some (pop_left r) (x :: l)) as [[v l1] Ht]; [done|]. rewrite Ht in Hap. cbn in Hap. rewrite Hap. cbn.
  destruct (accepts (journal s) _) eqn:Eacc; cbn [negb]; [|by repeat (split; [done|]); right; right; exists v].
  pose proof (pop_ok now (pop_left r) key (store s) m Hok) as Hm.
  destruct (pop (pop_left r) key now (store s)) as [got st]. destruct Hm as [-> Hm]. rewrite Hap.
  by rewrite bool_decide_eq_true_2.
Qed.

Lemma take_blocked_ok now key r s m :
  state_ok now (store s) m ->
  let '(o, s') := take_blocked key r now s in
  broker s' = broker s /\ poisoned s' = poisoned s /\
  match o with
  | Some v => journal s' = journal s ++ records (mkEvent key r v) /\ (apop (pop_left r) key m).1 = Some v /\
              state_ok now (store s') (effect m (mkEvent key r v))
  | None => journal s' = journal s /\ store s' = store s /\
            (poisoned s = true \/ blocked m key r \/ refused s m key r)
  end.
Proof using.
  intros Hok. destruct (destination r) as [[dst pl]|] eqn:E; [by apply (blocked_move_ok now key r dst pl)|by apply blocked_pop_ok].
Qed.

(** ** Lemmas: progress *)

Lemma valid_app evs1 evs2 m : valid m (evs1 ++ evs2) <-> valid m evs1 /\ valid (foldl effect m evs1) evs2.
Proof using. revert m. induction evs1 as [|e evs1 IH]; intros m; cbn; [tauto|]. rewrite IH. tauto. Qed.

Lemma requests_app k evs1 evs2 : requests_at k (evs1 ++ evs2) = requests_at k evs1 ++ requests_at k evs2.
Proof using. unfold requests_at. by rewrite filter_app, fmap_app. Qed.

Lemma progress_trans now s1 s2 s3 evs1 evs2 :
  progress now s1 s2 evs1 -> progress now s2 s3 evs2 -> progress now s1 s3 (evs1 ++ evs2).
Proof using.
  intros [c1 j1 p1 m1 q1 t1] [c2 j2 p2 m2 q2 t2]. split.
  - by rewrite c2, c1, foldl_app.
  - by rewrite j2, j1, fmap_app, concat_app, app_assoc.
  - by rewrite p2.
  - intros m Hm. destruct (m1 m Hm) as [Hm1 V1]. destruct (m2 _ Hm1) as [Hm2 V2]. rewrite foldl_app, valid_app. done.
  - intros k. destruct (q1 k) as (n1 & e1 & r1), (q2 k) as (n2 & e2 & r2). exists (n1 + n2)%nat.
    rewrite e1 in e2, r2. rewrite drop_drop in e2. split; [done|]. rewrite requests_app, <-take_take_drop.
    by apply sublist_app.
  - lia.
Qed.

(** Nothing but the queues' representation changes. *)
Lemma progress_same now s s' :
  channels (broker s') = channels (broker s) -> journal s' = journal s -> poisoned s' = poisoned s ->
  store s' = store s -> list_waiters (broker s') = list_waiters (broker s) ->
  progress now s s' [].
Proof using.
  intros Hc Hj Hp Hs Hl. split; try done.
  - by rewrite Hj, app_nil_r.
  - intros m Hm. by rewrite Hs.
  - intros k. exists 0%nat. unfold queue_at. rewrite Hl, drop_0. split; [done|]. apply sublist_nil_l.
  - by rewrite Hl.
Qed.

Lemma pop_then_requeue {W : Type} (w : gmap bytes (list W)) key r q :
  w !! key = Some (r :: q) -> <[key := r :: queue (put_queue key q w) key]> (put_queue key q w) = w.
Proof using.
  intros E. rewrite queue_put, decide_True by done. unfold put_queue. case_bool_decide as Eq.
  - subst q. by rewrite insert_delete_eq, insert_id.
  - by rewrite insert_insert_eq, insert_id.
Qed.

(** The first client leaves its queue. *)
Lemma queue_popped s key r q k :
  list_waiters (broker s) !! key = Some (r :: q) ->
  queue (put_queue key q (list_waiters (broker s))) k = drop (if decide (k = key) then 1 else 0) (queue_at s k).
Proof using.
  intros E. rewrite queue_put. case_decide as Ek; [subst k|by rewrite drop_0]. unfold queue_at.
  by rewrite (queue_some _ _ _ E).
Qed.

Lemma waiting_popped s key r q :
  list_waiters (broker s) !! key = Some (r :: q) ->
  waiting (list_waiters (broker s)) = S (waiting (put_queue key q (list_waiters (broker s)))).
Proof using. intros E. rewrite waiting_put, (waiting_split _ key), (queue_some _ _ _ E). done. Qed.

(** A client that is gone is skipped. *)
Lemma closed_progress now key r q s :
  list_waiters (broker s) !! key = Some (r :: q) -> progress now s (with_broker (pop_waiter key q) s) [].
Proof using.
  intros E. split; try done.
  - by rewrite app_nil_r.
  - intros k. eexists. split; [by apply (queue_popped s key r q k)|]. apply sublist_nil_l.
  - cbn. rewrite (waiting_popped s key r q E). unfold put_queue. lia.
Qed.

(** A client that is served. *)
Lemma served_progress now key r q s s2 v m :
  list_waiters (broker s) !! key = Some (r :: q) -> state_ok now (store s) m ->
  take_blocked key r now (with_broker (pop_waiter key q) s) = (Some v, s2) ->
  progress now s (with_broker (send (tx r) (key, plain v)) s2) [mkEvent key r v] /\
  list_waiters (broker (with_broker (send (tx r) (key, plain v)) s2)) = put_queue key q (list_waiters (broker s)).
Proof using.
  intros E Hm Ht. set (s1 := with_broker (pop_waiter key q) s) in *.
  assert (forall m, state_ok now (store s) m ->
    broker s2 = broker s1 /\ poisoned s2 = poisoned s1 /\ journal s2 = journal s1 ++ records (mkEvent key r v) /\
    (apop (pop_left r) key m).1 = Some v /\ state_ok now (store s2) (effect m (mkEvent key r v))) as H.
  { intros m' Hm'. pose proof (take_blocked_ok now key r s1 m' Hm') as H. rewrite Ht in H. tauto. }
  destruct (H m Hm) as (Hb & Hp & Hj & _ & _). split.
  - split; cbn; rewrite ?Hb.
    + done.
    + by rewrite Hj, app_nil_r.
    + by rewrite Hp.
    + intros m' Hm'. destruct (H m' Hm') as (_ & _ & _ & Ha & Hs). done.
    + intros k. eexists. split; [unfold queue_at at 1; cbn; rewrite Hb; by apply (queue_popped s key r q k)|].
      unfold requests_at. cbn [ev_key filter list_filter]. unfold filter. cbn. case_decide as Ek; case_decide; try congruence.
      * subst. unfold queue_at. by rewrite (queue_some _ _ _ E).
      * apply sublist_nil_l.
    + rewrite (waiting_popped s key r q E). cbn. unfold put_queue. lia.
  - cbn. by rewrite Hb.
Qed.

(** ** Lemmas: counters *)

Lemma take_blocked_broker key r now s : broker (take_blocked key r now s).2 = broker s.
Proof using.
  assert (forall prepare apply, broker (commit_prepared prepare apply s).2 = broker s) as H.
  { intros prepare apply. unfold commit_prepared. destruct (poisoned s); [done|].
    destruct (prepare (store s)) as [[[[cs x]|]|] st]; [|done..]. destruct (negb _); [done|].
    destruct (apply x st) as [got st']. by case_bool_decide. }
  unfold take_blocked. destruct (destination r) as [[dst pl]|]; apply H.
Qed.

Lemma put_nonempty {W : Type} key (q : list W) w : q <> [] -> put_queue key q w = <[key := q]> w.
Proof using. intros. unfold put_queue. by rewrite bool_decide_eq_false_2. Qed.

Lemma counts_register key r b : counts_ok b -> counts_ok (register_list_waiter key r b).
Proof using.
  intros [Hl Hs]. split; [|done]. cbn. rewrite <-put_nonempty by (by destruct (queue _ _)).
  apply counted_put; [done|]. rewrite length_app. cbn. lia.
Qed.

Lemma counts_requeue key r b : counts_ok b -> counts_ok (requeue key r b).
Proof using. intros [Hl Hs]. split; [|done]. cbn. rewrite <-put_nonempty by done. apply counted_put; [done|]. cbn. lia. Qed.

Lemma counts_register_stream key t id b : counts_ok b -> counts_ok (register_stream_waiter key t id b).
Proof using.
  intros [Hl Hs]. split; [done|]. cbn. rewrite <-put_nonempty by (by destruct (queue _ _)).
  apply counted_put; [done|]. rewrite length_app. cbn. lia.
Qed.

Lemma counts_pop key r q b : list_waiters b !! key = Some (r :: q) -> counts_ok b -> counts_ok (pop_waiter key q b).
Proof using.
  intros E [Hl Hs]. split; [|done]. apply (counted_put key q _ _ (-1)); [done|]. rewrite (queue_some _ _ _ E). cbn. lia.
Qed.

Lemma counted_range {W : Type} (w : gmap bytes (list W)) n : counted w n -> as_u64 n = n.
Proof using. intros [-> _]. unfold as_u64. by rewrite Zmod_mod. Qed.

Lemma counted_remove {W : Type} (id_of : W -> Z) id w n key :
  counted w n -> let '(w', n') := remove_by_id id_of id (w, n) key in counted w' n'.
Proof using.
  intros H. unfold remove_by_id. destruct (w !! key) as [q|] eqn:E; [|done].
  set (q' := List.filter _ q). assert (length q' <= length q)%nat as Hle.
  { subst q'. clear. induction q as [|x q IH]; cbn; [lia|]. destruct (negb _); cbn; lia. }
  change (counted (put_queue key q' w)
    (if (0 <? length q - length q')%nat then fetch_sub n (Z.of_nat (length q - length q')) else n)).
  assert (counted (put_queue key q' w) (as_u64 (n + - Z.of_nat (length q - length q')))) as Hp.
  { apply counted_put; [done|]. rewrite (queue_some _ _ _ E). lia. }
  destruct (0 <? _)%nat eqn:Ez; [done|]. apply Nat.ltb_ge in Ez.
  replace (length q - length q')%nat with 0%nat in Hp by lia. by rewrite Z.add_0_r, (counted_range w n H) in Hp.
Qed.

Lemma counted_remove_all {W : Type} (id_of : W -> Z) id keys w n :
  counted w n -> let '(w', n') := foldl (remove_by_id id_of id) (w, n) keys in counted w' n'.
Proof using.
  revert w n. induction keys as [|k keys IH]; intros w n H; cbn [foldl]; [done|].
  pose proof (counted_remove id_of id w n k H) as H1. destruct (remove_by_id id_of id (w, n) k) as [w1 n1]. by apply IH.
Qed.

Lemma try_send_lists tx b :
  list_waiters (try_send tx b) = list_waiters b /\ list_waiter_count (try_send tx b) = list_waiter_count b /\
  stream_waiters (try_send tx b) = stream_waiters b /\ stream_waiter_count (try_send tx b) = stream_waiter_count b.
Proof using. unfold try_send. by destruct (try_reserve tx b). Qed.

Lemma counts_try_send tx b : counts_ok b -> counts_ok (try_send tx b).
Proof using. unfold counts_ok. by destruct (try_send_lists tx b) as (-> & -> & -> & ->). Qed.

Lemma counts_wake key b : counts_ok b -> counts_ok (wake_stream_waiters key b).
Proof using.
  intros H. unfold wake_stream_waiters. destruct (stream_waiters b !! key) as [q|] eqn:E; [|done].
  assert (counts_ok (set_stream_waiters (delete key (stream_waiters b))
    (fetch_sub (stream_waiter_count b) (Z.of_nat (length q))) b)) as H1.
  { destruct H as [Hl Hs]. split; [done|]. apply (counted_put key [] _ _ (- Z.of_nat (length q))); [done|].
    rewrite (queue_some _ _ _ E). cbn. lia. }
  revert H1. generalize (set_stream_waiters (delete key (stream_waiters b))
    (fetch_sub (stream_waiter_count b) (Z.of_nat (length q))) b). clear. induction q as [|x q IH]; intros b H; cbn; [done|].
  by apply IH, counts_try_send.
Qed.

Lemma counts_send tx msg b : counts_ok b -> counts_ok (send tx msg b).
Proof using. done. Qed.

Lemma drain_counts fuel key now s s' :
  counts_ok (broker s) -> drain_list_waiters fuel key now s = Some s' -> counts_ok (broker s').
Proof using.
  revert key s s'. induction fuel as [|fuel IH]; intros key s s' H; cbn [drain_list_waiters]; [done|].
  destruct (list_waiters (broker s) !! key) as [[|r q]|] eqn:E.
  - destruct H as [[_ He] _]. by destruct (He key).
  - set (s1 := with_broker (pop_waiter key q) s).
    assert (counts_ok (broker s1)) as H1 by (by apply (counts_pop key r)).
    destruct (try_reserve (tx r) (broker s1)).
    + pose proof (take_blocked_broker key r now s1) as Hb. destruct (take_blocked key r now s1) as [[raw|] s2]; cbn in Hb.
      * set (s3 := with_broker _ s2). assert (counts_ok (broker s3)) as H3 by (subst s3; cbn; by rewrite Hb).
        destruct (destination r) as [[dst pl]|]; [|by apply IH].
        destruct (negb _ && _); [|by apply IH].
        destruct (drain_list_waiters fuel dst now s3) as [s4|] eqn:E4; [|done]. cbn. apply IH. by eapply IH.
      * intros [= <-]. cbn. rewrite Hb. by apply counts_requeue.
    + intros [= <-]. by apply counts_requeue.
    + by apply IH.
  - by intros [= <-].
Qed.

(** Nobody waits when the counter is zero. *)
Lemma no_waiters b :
  counts_ok b -> Z.of_nat (waiting (list_waiters b)) < 2 ^ 64 -> has_list_waiters b = false ->
  forall key, list_waiters b !! key = None.
Proof using.
  intros [[Hn He] _] Hlt Hh key. unfold has_list_waiters in Hh. rewrite Hn in Hh. unfold as_u64 in Hh.
  rewrite Z.gtb_ltb, Z.mod_small in Hh by (unfold u64_mod; lia). apply Z.ltb_ge in Hh. destruct (list_waiters b !! key) as [q|] eqn:E; [|done]. exfalso.
  pose proof (waiting_split (list_waiters b) key) as Hw. rewrite (queue_some _ _ _ E) in Hw.
  destruct q; [by apply (He key)|]. cbn [length] in Hw. lia.
Qed.

(** ** Theorems *)

Lemma settled_requeued now key r q s s2 m :
  list_waiters (broker s) !! key = Some (r :: q) -> broker s2 = pop_waiter key q (broker s) ->
  poisoned s2 = poisoned s -> journal s2 = journal s -> store s2 = store s ->
  try_reserve (tx r) (broker s) = Full \/ poisoned s = true \/ blocked m key r \/ refused s m key r ->
  progress now s (with_broker (requeue key r) s2) [] /\ settled (with_broker (requeue key r) s2) m key.
Proof using.
  intros E Hb Hp Hj Hs Hwhy.
  assert (list_waiters (requeue key r (broker s2)) = list_waiters (broker s)) as Hl.
  { rewrite Hb. by apply (pop_then_requeue _ key r q). }
  split.
  - apply progress_same; cbn; try done; by rewrite Hb.
  - unfold settled, queue_at. cbn [broker with_broker]. rewrite Hl, (queue_some _ _ _ E).
    unfold refused, try_reserve in *. cbn. by rewrite Hb, Hp, Hj.
Qed.

Lemma drain_serves fuel now key s m :
  state_ok now (store s) m -> (waiting (list_waiters (broker s)) < fuel)%nat ->
  exists s' evs, drain_list_waiters fuel key now s = Some s' /\ progress now s s' evs /\
                 settled s' (foldl effect m evs) key.
Proof using.
  revert key s m. induction fuel as [|fuel IH]; intros key s m Hm Hf; [lia|]. cbn [drain_list_waiters].
  destruct (list_waiters (broker s) !! key) as [[|r q]|] eqn:E; cycle 2.
  { exists s, []. split; [done|]. split; [by apply progress_same|]. unfold settled, queue_at, queue. by rewrite E. }
  { eexists _, []. split; [done|]. split.
    - split; try done; cbn.
      + by rewrite app_nil_r.
      + intros k. exists 0%nat. unfold queue_at. cbn. rewrite queue_delete, drop_0. split; [|apply sublist_nil_l].
        case_decide as Ek; [subst k; by rewrite (queue_some _ _ _ E)|done].
      + rewrite (waiting_split (list_waiters (broker s)) key). lia.
    - unfold settled, queue_at. cbn. by rewrite queue_delete, decide_True. }
  set (s1 := with_broker (pop_waiter key q) s). rewrite (waiting_popped s key r q E) in Hf.
  destruct (try_reserve (tx r) (broker s1)) eqn:Er.
  - pose proof (take_blocked_ok now key r s1 m Hm) as Hok.
    destruct (take_blocked key r now s1) as [[v|] s2] eqn:Et; destruct Hok as (Hb & Hp & Hrest).
    + change (match decrypt_list_element v with Ok x => x | Err _ => v end) with (plain v).
      destruct (served_progress now key r q s s2 v m E Hm Et) as [Hprog Hl].
      set (s3 := with_broker (send (tx r) (key, plain v)) s2) in *. clearbody s3.
      destruct (pg_space _ _ _ _ Hprog m Hm) as [Hm3 _]. rewrite <-Hl in Hf.
      assert (forall s4 evs4, progress now s3 s4 evs4 -> exists s' evs,
        drain_list_waiters fuel key now s4 = Some s' /\ progress now s s' evs /\ settled s' (foldl effect m evs) key) as Hcont.
      { intros s4 evs4 Hp4. destruct (pg_space _ _ _ _ Hp4 _ Hm3) as [Hm4 _]. pose proof (pg_total _ _ _ _ Hp4).
        destruct (IH key s4 _ Hm4) as (s' & evs & Hd & Hpr & Hse); [lia|].
        exists s', ([mkEvent key r v] ++ evs4 ++ evs). split; [done|]. rewrite !foldl_app. split; [|done].
        by eapply progress_trans, progress_trans. }
      assert (exists s' evs, drain_list_waiters fuel key now s3 = Some s' /\ progress now s s' evs /\
        settled s' (foldl effect m evs) key) as Hdirect by (by apply (Hcont s3 []), progress_same).
      destruct (destination r) as [[dst pl]|]; [|done]. destruct (negb _ && _); [|done].
      destruct (IH dst s3 _ Hm3) as (s4 & evs4 & Hd4 & Hp4 & _); [lia|]. rewrite Hd4. cbn. by apply (Hcont s4 evs4).
    + eexists _, []. split; [done|]. destruct Hrest as (Hj & Hs & Hwhy).
      apply (settled_requeued now key r q s s2 m); try done. right. apply Hwhy.
  - eexists _, []. split; [done|]. apply (settled_requeued now key r q s s1 m); try done. by left.
  - destruct (IH key s1 m Hm) as (s' & evs & Hd & Hpr & Hse); [unfold put_queue in Hf; cbn; lia|].
    exists s', evs. split; [done|]. split; [|done].
    apply (progress_trans now s s1 s' [] evs); [by apply (closed_progress now key r q)|done].
Qed.

(** Operations of the broker between two pushes. *)
Inductive operation :=
  | RegisterList (key : bytes) (r : BlockedPopRequest)
  | RemoveList (ks : list bytes) (id : Z)
  | RegisterStream (key : bytes) (tx : nat) (id : Z)
  | RemoveStream (ks : list bytes) (id : Z)
  | WakeStream (key : bytes)
  | DrainList (key : bytes) (now : Z).

Definition perform (o : operation) (s : Server) : option Server :=
  match o with
  | RegisterList key r => Some (with_broker (register_list_waiter key r) s)
  | RemoveList ks id => Some (with_broker (remove_list_waiters_by_id ks id) s)
  | RegisterStream key tx id => Some (with_broker (register_stream_waiter key tx id) s)
  | RemoveStream ks id => Some (with_broker (remove_stream_waiters_by_id ks id) s)
  | WakeStream key => Some (with_broker (wake_stream_waiters key) s)
  | DrainList key now => drain_list_waiters (S (waiting (list_waiters (broker s)))) key now s
  end.

Inductive reachable (s : Server) : Server -> Prop :=
  | reach_start : reachable s s
  | reach_step s1 o s2 : reachable s s1 -> perform o s1 = Some s2 -> reachable s s2.

Lemma perform_counts o s s' : counts_ok (broker s) -> perform o s = Some s' -> counts_ok (broker s').
Proof using.
  intros H. destruct o; cbn [perform]; [intros [= <-]; cbn..|by apply drain_counts].
  - by apply counts_register.
  - unfold remove_list_waiters_by_id. destruct H as [Hl Hs].
    pose proof (counted_remove_all waiter_id id ks _ _ Hl) as Hr.
    destruct (foldl _ _ ks) as [w n]. done.
  - by apply counts_register_stream.
  - unfold remove_stream_waiters_by_id. destruct H as [Hl Hs].
    pose proof (counted_remove_all sw_waiter_id id ks _ _ Hs) as Hr.
    destruct (foldl _ _ ks) as [w n]. done.
  - by apply counts_wake.
Qed.


(** C35. The counters of blocked list and stream clients are the numbers of clients in the queues,
    modulo 2{^64}, and no empty queue is kept, after any sequence of registrations, removals, wake-ups
    and drains. So, below 2{^64} clients, when [has_list_waiters] says that nobody waits no key
    has a queue, and skipping a drain then changes nothing. *)
Theorem waiter_counts_exact s s' :
  counts_ok (broker s) -> reachable s s' ->
  counts_ok (broker s') /\
  (Z.of_nat (waiting (list_waiters (broker s'))) < 2 ^ 64 -> has_list_waiters (broker s') = false ->
   forall key now, perform (DrainList key now) s' = Some s').
Proof using.
  intros Hs Hr. assert (counts_ok (broker s')) as H'.
  { induction Hr as [|s1 o s2 _ IH Ho]; [done|]. by eapply perform_counts. }
  split; [done|]. intros Hlt Hh key now. cbn [perform drain_list_waiters]. by rewrite (no_waiters _ H' Hlt Hh key).
Qed.

End Drain.

(** ** A queue with two clients *)

(** The list [l] holds a, b, a. The first client left; the second moves to [d], the third pops. *)
Definition waiting_server (dest : Store -> Store) : Server :=
  let ask r s := with_broker (register_list_waiter (bs "l") r) s in
  let open := mkChannel false 1 [] in
  let channels := {[0%nat := mkChannel true 1 []; 1%nat := open; 2%nat := open]} in
  ask (mkRequest 2 false None 12) (ask (mkRequest 1 true (Some (bs "d", true)) 11) (ask (mkRequest 0 true None 10)
    (mkServer (mkBroker ∅ 0 ∅ 0 13 channels) (dest sample_list) [] false))).


(** Both clients are served, in order. *)
Example both_served :
  (fun s => (journal s, ch_messages <$> channels (broker s) !! 1%nat, ch_messages <$> channels (broker s) !! 2%nat)) <$>
    drain_list_waiters (fun _ => 0) (fun _ _ => true) Ok 4 (bs "l") 0 (waiting_server (fun st => st)) =
  Some ([[bs "LPOP"; bs "l"]; [bs "LPUSH"; bs "d"; bs "a"]; [bs "RPOP"; bs "l"]],
        Some [(bs "l", bs "a")], Some [(bs "l", bs "a")]).
Proof. vm_compute. reflexivity. Qed.

(** When the destination of the move holds a string, the client behind it is not served, although the
    list has elements for it. *)
Example wrong_destination_blocks_queue :
  (fun s => (journal s, ch_messages <$> channels (broker s) !! 2%nat, list_waiter_count (broker s))) <$>
    drain_list_waiters (fun _ => 0) (fun _ _ => true) Ok 4 (bs "l") 0
      (waiting_server (fun st => insert_accounted (bs "d") (Values.Values.mkEntry (Values.Values.VStr (bs "x")) None 0) st)) =
  Some ([], Some [], 2).
Proof. vm_compute. reflexivity. Qed.

Lemma waiting_server_reachable :
  reachable (fun _ => 0) (fun _ _ => true) Ok
    (mkServer (mkBroker ∅ 0 ∅ 0 13 {[1%nat := mkChannel false 1 []]}) sample_list [] false)
    (with_broker (register_list_waiter (bs "q") (mkRequest 1 true None 1))
      (mkServer (mkBroker ∅ 0 ∅ 0 13 {[1%nat := mkChannel false 1 []]}) sample_list [] false)).
Proof. eapply (reach_step _ _ _ _ _ (RegisterList (bs "q") (mkRequest 1 true None 1))); [apply reach_start|done]. Qed.

Lemma waiter_counts_exact_witness :
  let s := mkServer (mkBroker ∅ 0 ∅ 0 13 {[1%nat := mkChannel false 1 []]}) sample_list [] false in
  let s' := with_broker (register_list_waiter (bs "q") (mkRequest 1 true None 1)) s in
  counts_ok (broker s') /\
  (Z.of_nat (waiting (list_waiters (broker s'))) < 2 ^ 64 -> has_list_waiters (broker s') = false ->
   forall key now, perform (fun _ => 0) (fun _ _ => true) Ok (DrainList key now) s' = Some s').
Proof.
  intros s s'. apply (waiter_counts_exact (fun _ => 0) (fun _ _ => true) Ok s s').
  - split; (split; [reflexivity|]; intros k; cbn; rewrite lookup_empty; discriminate).
  - exact waiting_server_reachable.
Defined.

End Waiters.
