(* ===== verification/Durability.v ===== *)
(** * The journal boundary ([src/src/store/mod.rs]: [commit_journaled], [commit_journaled_checked],
      [commit_prepared], [replay_wal] and what they call)

    A mutation crosses one of three boundaries. A resolved batch is journaled and then applied. A
    prepared mutation first computes, from the state, its journal commands and what it will apply. A
    checked command is journaled, applied, and taken out of the journal again if the apply phase
    rejects it. A mutation that was journaled but not applied poisons the journal, which refuses every
    later mutation. After a restart [replay_wal] executes the commands of the journal.

    What the operating system does to writes, syncs and truncations is an argument, as in [Wal]. The
    database is any state on which journal commands execute (class [Machine]); the striped gates that
    serialise mutations of one key are not modelled: a commit is one step. An EXEC transaction
    buffers its commands and is modelled in [Session]. *)

From S2P Require Import Prelude.
From S2P Require Import Codec.
From S2P Require Import Wal.
From S2P Require Import Store.
From S2P Require Import Strings.
Local Open Scope Z_scope.

Module Durability.
Import Wal.Wal.

(** ** What recovery needs of the database *)

(** Executing a journal command: whether the reply was not an error, and the state. States are
    compared up to what a client can observe. *)
Class Machine (St : Type) `{Equiv St} := {
  execute : list bytes -> St -> bool * St;
  machine_equivalence :: Equivalence (≡@{St});
  execute_reply c s s' : s ≡ s' -> (execute c s).1 = (execute c s').1;
  execute_state c s s' : s ≡ s' -> (execute c s).2 ≡ (execute c s').2
}.

(** What the operating system does during one commit: the write, the sync, the truncation after a
    failed append, and the truncation after a rejected command. *)
Record Os := mkOs { os_write : write_outcome; os_sync : bool; os_rollback : bool; os_undo : bool }.

Definition ideal : Os := mkOs Written true true true.

Definition UNHEALTHY : string := "mutation journal is unavailable; restart required".
Definition SHUTTING_DOWN : string := "database is shutting down; mutations are no longer accepted".
Definition APPEND_FAILED : string := "ERR WAL append failed".
Definition UNDO_FAILED : string := "failed to remove rejected WAL command".

Section Boundary.

Context {St : Type} `{Machine St}.
(** [DurabilityPolicy::syncs_each_append]. *)
Context (syncs_each_append : bool).

Record Db := mkDb { state : St; wal : option Wal; journal_poisoned : bool; accepting_mutations : bool }.

Definition set_state (s : St) (d : Db) : Db := mkDb s (wal d) (journal_poisoned d) (accepting_mutations d).
Definition set_wal (w : Wal) (d : Db) : Db := mkDb (state d) (Some w) (journal_poisoned d) (accepting_mutations d).
Definition poison_journal (d : Db) : Db := mkDb (state d) (wal d) true (accepting_mutations d).

Definition ensure_journal_healthy (d : Db) : result unit :=
  if journal_poisoned d then Err UNHEALTHY else Ok tt.

Definition ensure_accepting_mutations (d : Db) : result unit :=
  if accepting_mutations d then Ok tt else Err SHUTTING_DOWN.

(** The journal without the bytes after [offset]; a truncation that fails poisons. *)
Definition truncate_or_poison (truncated : bool) (offset : nat) (w : Wal) (d : Db) : Db :=
  if truncated then set_wal (rollback_to offset w) d else poison_journal (set_wal w d).

(** The offset before the append. A mutation is a batch or a checked command. *)
Definition append_journal_commands_locked (os : Os) (m : mutation) (w : Wal) (d : Db) : result nat * Db :=
  match ensure_journal_healthy d with
  | Err e => (Err e, d)
  | Ok _ =>
      let append_offset := length (file w) in
      match append_mutation (os_write os) m w with
      | (IoOk true, w) =>
          if syncs_each_append && negb (os_sync os)
          then (Err APPEND_FAILED, truncate_or_poison (os_rollback os) append_offset w d)
          else (Ok append_offset, set_wal w d)
      | (_, w) => (Err APPEND_FAILED, truncate_or_poison (os_rollback os) append_offset w d)
      end
  end.

Definition append_journal_commands_physical (os : Os) (commands : list (list bytes)) (d : Db) : result unit * Db :=
  match wal d with
  | None => (Ok tt, d)
  | Some w => match append_journal_commands_locked os (MBatch commands) w d with
              | (Ok _, d) => (Ok tt, d)
              | (Err e, d) => (Err e, d)
              end
  end.

(** Whether journaling is bypassed. *)
Definition prepare_journaled_batch (commands : list (list bytes)) (d : Db) : result bool :=
  match ensure_accepting_mutations d with
  | Err e => Err e
  | Ok _ => match ensure_journal_healthy d with
            | Err e => Err e
            | Ok _ => Ok (bool_decide (wal d = None) || bool_decide (commands = []))
            end
  end.

(** Whether the guard is armed: dropping it then poisons the journal. *)
Definition commit_batch (bypassed : bool) (os : Os) (commands : list (list bytes)) (d : Db) : result bool * Db :=
  let armed := negb bypassed && negb (bool_decide (commands = [])) in
  if armed then
    match append_journal_commands_physical os commands d with
    | (Err e, d) => (Err e, d)
    | (Ok _, d) => (Ok true, d)
    end
  else (Ok false, d).

(** [complete] disarms the guard. *)
Definition complete (d : Db) : result unit * Db :=
  match ensure_journal_healthy d with
  | Ok _ => (Ok tt, d)
  | Err e => (Err e, poison_journal d)
  end.

Definition drop_guard (armed : bool) (d : Db) : Db := if armed then poison_journal d else d.

Section Commits.

Context {P T : Type}.

Definition commit_journaled_batch (os : Os) (commands : list (list bytes)) (apply : St -> T * St) (d : Db)
    : result T * Db :=
  match prepare_journaled_batch commands d with
  | Err e => (Err e, d)
  | Ok bypassed =>
      match commit_batch bypassed os commands d with
      | (Err e, d) => (Err e, d)
      | (Ok _, d) =>
          let '(result, s) := apply (state d) in
          match complete (set_state s d) with
          | (Ok _, d) => (Ok result, d)
          | (Err e, d) => (Err e, d)
          end
      end
  end.

Definition commit_prepared (os : Os) (route_args : list bytes)
    (prepare : St -> result (list (list bytes) * P) * St) (apply : P -> St -> result T * St) (d : Db)
    : result (result T) * Db :=
  match prepare_journaled_batch [route_args] d with
  | Err e => (Err e, d)
  | Ok bypassed =>
      match prepare (state d) with
      | (Err e, s) => (Ok (Err e), set_state s d)
      | (Ok (commands, prepared), s) =>
          match commit_batch bypassed os commands (set_state s d) with
          | (Err e, d) => (Err e, d)
          | (Ok armed, d) =>
              let '(result, s) := apply prepared (state d) in
              let d := set_state s d in
              match result with
              | Ok v => match complete d with
                        | (Ok _, d) => (Ok (Ok v), d)
                        | (Err e, d) => (Err e, d)
                        end
              | Err e => (Ok (Err e), drop_guard armed d)
              end
          end
      end
  end.

(** [apply] also says whether the command took effect. *)
Definition commit_journaled_checked (os : Os) (args : list bytes) (apply : St -> T * bool * St) (d : Db)
    : result T * Db :=
  match prepare_journaled_batch [args] d with
  | Err e => (Err e, d)
  | Ok bypassed =>
      match wal d with
      | Some w =>
          match append_journal_commands_locked os (MChecked args) w d with
          | (Err e, d) => (Err e, d)
          | (Ok append_offset, d) =>
              let '(result, committed, s) := apply (state d) in
              let d := set_state s d in
              if committed then
                match complete d with
                | (Ok _, d) => (Ok result, d)
                | (Err e, d) => (Err e, d)
                end
              else match wal d with
                   | Some w => if os_undo os then (Ok result, set_wal (rollback_to append_offset w) d)
                               else (Err UNDO_FAILED, poison_journal d)
                   | None => (Ok result, d)
                   end
          end
      | None => let '(result, _, s) := apply (state d) in (Ok result, set_state s d)
      end
  end.

(** ** Recovery *)

(** The loop over the replayed commands: whether recovery succeeds, the state and the journal. *)
Fixpoint replay_commands (commands : list (list bytes)) (tail : option nat) (w : Wal) (s : St) : bool * St * Wal :=
  match commands with
  | [] => (true, s, w)
  | c :: commands =>
      let '(ok, s) := execute c s in
      if ok then replay_commands commands tail w s
      else match commands, tail with
           | [], Some offset => (true, s, rollback_to offset w)
           | _, _ => (false, s, w)
           end
  end.

Definition replay_wal (w : Wal) (s : St) : bool * St * Wal :=
  match replay_from None w with
  | (IoOk replay, w) => replay_commands (replayed replay) (checked_tail_offset replay) w s
  | (IoErr _, w) => (false, s, w)
  end.

(** ** Requests and their contract *)

Inductive request :=
  | Journaled (commands : list (list bytes)) (apply : St -> T * St)
  | Prepared (route_args : list bytes) (prepare : St -> result (list (list bytes) * P) * St)
      (apply : P -> St -> result T * St)
  | Checked (args : list bytes) (apply : St -> T * bool * St).

(** Whether the request was refused, and the database. *)
Definition perform (os : Os) (r : request) (d : Db) : bool * Db :=
  match r with
  | Journaled cs apply => let '(o, d) := commit_journaled_batch os cs apply d in
                          (match o with Err _ => true | Ok _ => false end, d)
  | Prepared route prepare apply => let '(o, d) := commit_prepared os route prepare apply d in
                                    (match o with Err _ => true | Ok _ => false end, d)
  | Checked args apply => let '(o, d) := commit_journaled_checked os args apply d in
                          (match o with Err _ => true | Ok _ => false end, d)
  end.

Definition perform_all (l : list (Os * request)) (d : Db) : Db :=
  foldl (fun d p => (perform p.1 p.2 d).2) d l.

(** All commands execute without an error reply. *)
Fixpoint execute_all (cs : list (list bytes)) (s : St) : option St :=
  match cs with
  | [] => Some s
  | c :: cs => let '(ok, s) := execute c s in if ok then execute_all cs s else None
  end.

(** The state a sequence of commands leads to, if all of them succeed. *)
Definition leads (cs : list (list bytes)) (s s' : St) : Prop := exists t, execute_all cs s = Some t /\ t ≡ s'.

(** What a request journals in a state. *)
Definition mutation_of (r : request) (s : St) : option mutation :=
  match r with
  | Journaled [] _ => None
  | Journaled cs _ => Some (MBatch cs)
  | Prepared _ prepare _ => match (prepare s).1 with
                            | Ok ([], _) | Err _ => None
                            | Ok (cs, _) => Some (MBatch cs)
                            end
  | Checked args _ => Some (MChecked args)
  end.

(** The journal commands of a request do what its apply phase does, which only fails when nothing was
    journaled; a preparation changes nothing a
    client can observe, nor does a rejected checked command; and the commands fit the journal. *)
Definition sound_at (r : request) (s : St) : Prop :=
  (forall m, mutation_of r s = Some m -> mutation_ok m) /\
  match r with
  | Journaled cs apply => leads cs s (apply s).2
  | Prepared _ prepare apply =>
      let '(o, s1) := prepare s in
      s1 ≡ s /\
      match o with
      | Ok (cs, p) => match apply p s1 with
                      | (Ok _, s2) => leads cs s s2
                      | (Err _, s2) => cs = [] /\ s2 ≡ s
                      end
      | Err _ => True
      end
  | Checked args apply =>
      let '(_, committed, s1) := apply s in
      if committed : bool then leads [args] s s1
      else s1 ≡ s /\ (execute args s).1 = false /\ (execute args s).2 ≡ s
  end.

Fixpoint all_sound (l : list (Os * request)) (d : Db) : Prop :=
  match l with
  | [] => True
  | p :: l => sound_at p.2 (state d) /\ all_sound l (perform p.1 p.2 d).2
  end.

(** A database with a new journal. *)
Definition fresh_db (gen : bytes) (s : St) : Db := mkDb s (Some (journal gen [] [])) false true.

(** The bytes a crash during a request may leave: the journal, and the first bytes of its frame. *)
Definition crash_image (r : request) (k : nat) (d : Db) : bytes :=
  match wal d with
  | Some w => file w ++ match mutation_of r (state d) with
                        | Some m => take k (mutation_frame Guarded m)
                        | None => []
                        end
  | None => []
  end.

(** The journal holds exactly the mutations that lead from [s0] to the state. *)
Definition consistent (gen : bytes) (s0 : St) (d : Db) : Prop :=
  journal_poisoned d = false /\ accepting_mutations d = true /\
  exists ms, Forall mutation_ok ms /\ wal d = Some (journal gen ms []) /\
    leads (concat (commands_of <$> ms)) s0 (state d).

(** ** Lemmas: executing commands *)

Lemma execute_all_proper cs s s' t :
  s ≡ s' -> execute_all cs s = Some t -> exists t', execute_all cs s' = Some t' /\ t ≡ t'.
Proof using Type.
  revert s s'. induction cs as [|c cs IH]; intros s s' E; cbn; [intros [= <-]; by exists s'|].
  pose proof (execute_reply c s s' E) as Hr. pose proof (execute_state c s s' E) as Hs.
  destruct (execute c s) as [ok s1], (execute c s') as [ok' s1']. cbn in Hr, Hs. subst ok'.
  destruct ok; [|done]. by apply IH.
Qed.

Lemma execute_all_app cs1 cs2 s : execute_all (cs1 ++ cs2) s = (t ← execute_all cs1 s; execute_all cs2 t).
Proof using Type.
  revert s. induction cs1 as [|c cs1 IH]; intros s; cbn; [done|]. destruct (execute c s) as [[] s1]; [apply IH|done].
Qed.

Lemma leads_app cs1 cs2 s s1 s2 : leads cs1 s s1 -> leads cs2 s1 s2 -> leads (cs1 ++ cs2) s s2.
Proof using Type.
  intros (t1 & E1 & H1) (t2 & E2 & H2). destruct (execute_all_proper cs2 s1 t1 t2) as (t & E & Ht); [by symmetry|done|].
  exists t. rewrite execute_all_app, E1. cbn. split; [done|]. by rewrite <-Ht.
Qed.

Lemma leads_equiv cs s s1 s2 : leads cs s s1 -> s1 ≡ s2 -> leads cs s s2.
Proof using Type. intros (t & E & Ht) Hs. exists t. split; [done|]. by rewrite Ht. Qed.

Lemma leads_nil s : leads [] s s.
Proof using Type. by exists s. Qed.

Lemma replay_all cs tail w s t : execute_all cs s = Some t -> replay_commands cs tail w s = (true, t, w).
Proof using Type.
  revert s. induction cs as [|c cs IH]; intros s; cbn; [by intros [= <-]|].
  destruct (execute c s) as [[] s1]; [apply IH|done].
Qed.

(** A rejected command at the end is taken out. *)
Lemma replay_rejected cs c offset w s t :
  execute_all cs s = Some t -> (execute c t).1 = false ->
  replay_commands (cs ++ [c]) (Some offset) w s = (true, (execute c t).2, rollback_to offset w).
Proof using Type.
  revert s. induction cs as [|c' cs IH]; intros s; cbn.
  - intros [= <-] Hc. destruct (execute c s) as [ok s1]. cbn in Hc. by subst ok.
  - destruct (execute c' s) as [[] s1]; [apply IH|done].
Qed.

(** ** Lemmas: the journal *)

Lemma journal_torn gen ms m : journal gen (ms ++ [m]) [] = journal gen ms (mutation_frame Guarded m).
Proof using Type.
  unfold journal. f_equal. rewrite frames_app. cbn [fmap list_fmap concat]. by rewrite !app_nil_r.
Qed.

Lemma append_any os m gen ms :
  mutation_ok m ->
  exists torn o, append_mutation os m (journal gen ms []) = (o, journal gen ms torn) /\
    (o = IoOk true -> torn = mutation_frame Guarded m).
Proof using Type.
  intros Hm. destruct os as [|n b].
  - rewrite append_journal, journal_torn by done. eexists _, _. done.
  - assert (forall frame, exists torn, append_encoded_frames (WriteFailed n b) frame (journal gen ms []) =
      (false, journal gen ms torn)) as Hf.
    { intros frame. cbn. destruct b; [by exists []|]. exists (take n frame). unfold set_file, journal. cbn.
      by rewrite app_nil_r, <-(assoc_L (++)). }
    destruct Hm as (Hne & Hc & _). apply command_ok_vec in Hc.
    destruct m as [[|c cs]|c]; cbn [append_mutation commands_of] in *; [done| |].
    + unfold append_commands. destruct (batch_frame _ _) as [frame|e]; [|by exists [], (IoErr e)].
      destruct (Hf frame) as (torn & ->). by exists torn, (IoOk false).
    + unfold append_checked_command. rewrite encode_command_batch_ok by done.
      match goal with |- context [append_encoded_frames _ ?fr _] => destruct (Hf fr) as (torn & ->) end.
      by exists torn, (IoOk false).
Qed.

(** Appending, whatever the operating system does: the record is there, or nothing changed, or the
    journal is poisoned. *)
Lemma append_locked os m gen ms d :
  mutation_ok m -> journal_poisoned d = false -> wal d = Some (journal gen ms []) ->
  let '(o, d') := append_journal_commands_locked os m (journal gen ms []) d in
  match o with
  | Ok offset => offset = length (file (journal gen ms [])) /\ d' = set_wal (journal gen (ms ++ [m]) []) d
  | Err _ => d' = d \/ (journal_poisoned d' = true /\ state d' = state d)
  end.
Proof using Type.
  intros Hm Hp Hw. unfold append_journal_commands_locked, ensure_journal_healthy. rewrite Hp.
  assert (forall torn, let d' := truncate_or_poison (os_rollback os) (length (file (journal gen ms []))) (journal gen ms torn) d in
    d' = d \/ (journal_poisoned d' = true /\ state d' = state d)) as Hfail.
  { intros torn. unfold truncate_or_poison. destruct (os_rollback os); [left|by right].
    rewrite rollback_journal. destruct d. cbn in *. subst. done. }
  destruct (append_any (os_write os) m gen ms Hm) as (torn & o & -> & Ho).
  destruct o as [[]|]; [|apply Hfail..]. rewrite journal_torn, <-(Ho eq_refl).
  destruct (syncs_each_append && negb (os_sync os)); [apply Hfail|done].
Qed.

Lemma append_locked_ideal m gen ms d :
  mutation_ok m -> journal_poisoned d = false ->
  append_journal_commands_locked ideal m (journal gen ms []) d =
    (Ok (length (file (journal gen ms []))), set_wal (journal gen (ms ++ [m]) []) d).
Proof using Type.
  intros Hm Hp. unfold append_journal_commands_locked, ensure_journal_healthy. rewrite Hp. cbn.
  rewrite append_journal by done. by rewrite andb_false_r.
Qed.

Lemma commands_snoc ms m : concat (commands_of <$> ms ++ [m]) = concat (commands_of <$> ms) ++ commands_of m.
Proof using Type. rewrite fmap_app, concat_app. cbn. by rewrite app_nil_r. Qed.

Lemma checked_tail_snoc ms m pos tail :
  checked_tail Guarded pos tail (ms ++ [m]) =
    if is_checked m then Some (pos + length (concat (mutation_frame Guarded <$> ms)))%nat else None.
Proof using Type.
  revert pos tail. induction ms as [|m' ms IH]; intros pos tail; cbn [app checked_tail].
  - cbn. by rewrite Nat.add_0_r.
  - rewrite IH. cbn [fmap list_fmap concat]. rewrite length_app. destruct (is_checked m); [|done]. f_equal. lia.
Qed.

(** ** Lemmas: one commit *)

Lemma prepared cs gen s0 d :
  consistent gen s0 d -> prepare_journaled_batch cs d = Ok (bool_decide (cs = [])).
Proof using Type.
  intros (Hp & Ha & ms & _ & Hw & _). unfold prepare_journaled_batch, ensure_accepting_mutations, ensure_journal_healthy.
  by rewrite Ha, Hp, Hw.
Qed.

Lemma extend gen s0 d ms m s' :
  Forall mutation_ok ms -> mutation_ok m -> journal_poisoned d = false -> accepting_mutations d = true ->
  wal d = Some (journal gen (ms ++ [m]) []) -> state d = s' ->
  leads (concat (commands_of <$> ms ++ [m])) s0 s' -> consistent gen s0 d.
Proof using Type. intros Hms Hm Hp Ha Hw <- Hl. split; [done|]. split; [done|]. exists (ms ++ [m]). split; [by apply Forall_app; auto|done]. Qed.

Lemma consistent_state gen s0 d s :
  consistent gen s0 d -> s ≡ state d -> consistent gen s0 (set_state s d).
Proof using Type.
  intros (Hp & Ha & ms & Hms & Hw & Hl) E. split; [done|]. split; [done|]. exists ms.
  split; [done|]. split; [done|]. by apply (leads_equiv _ _ (state d)).
Qed.

(** A batch in the journal: its commands lead to the states it is applied to. *)
Lemma commit_batch_cases bypassed os cs gen s0 d :
  consistent gen s0 d -> (cs <> [] -> bypassed = false /\ mutation_ok (MBatch cs)) ->
  let '(o, d') := commit_batch bypassed os cs d in
  match o with
  | Ok armed => armed = negb (bool_decide (cs = [])) /\ state d' = state d /\ journal_poisoned d' = false /\
                forall s, leads cs (state d) s -> consistent gen s0 (set_state s d')
  | Err _ => d' = d \/ (journal_poisoned d' = true /\ state d' = state d)
  end.
Proof using Type.
  intros Hd Hcs. pose proof Hd as (Hp & Ha & ms & Hms & Hw & Hl). unfold commit_batch.
  case_bool_decide as Ec; cbn [negb].
  - rewrite andb_false_r. split; [done|]. split; [done|]. split; [done|]. intros s. subst cs. intros (t & [= <-] & Ht).
    apply consistent_state; [done|by symmetry].
  - destruct (Hcs Ec) as [-> Hm]. cbn [andb negb]. unfold append_journal_commands_physical. rewrite Hw.
    pose proof (append_locked os (MBatch cs) gen ms d Hm Hp Hw) as Ha'.
    destruct (append_journal_commands_locked os _ _ d) as [[off|e] d']; [|done]. destruct Ha' as [_ ->].
    split; [done|]. split; [done|]. split; [done|]. intros s Hs.
    apply (extend gen s0 _ ms (MBatch cs) s); try done. rewrite commands_snoc. by eapply leads_app.
Qed.

Lemma complete_healthy d : journal_poisoned d = false -> complete d = (Ok tt, d).
Proof using Type. intros Hp. unfold complete, ensure_journal_healthy. by rewrite Hp. Qed.

(** What one request does, whatever the operating system does. *)
Definition step_ok (gen : bytes) (s0 : St) (d : Db) (o : bool * Db) : Prop :=
  (journal_poisoned o.2 = false -> consistent gen s0 o.2) /\ (o.1 = true -> state o.2 ≡ state d).

Lemma unchanged_or_poisoned gen s0 d d' s :
  consistent gen s0 d -> s ≡ state d ->
  d' = set_state s d \/ (journal_poisoned d' = true /\ state d' = s) -> step_ok gen s0 d (true, d').
Proof using Type.
  intros Hd Hs [->|[Hp <-]]; (split; cbn; [|done]).
  - intros _. by apply consistent_state.
  - congruence.
Qed.

Lemma journaled_step os cs apply gen s0 d :
  consistent gen s0 d -> sound_at (Journaled cs apply) (state d) -> step_ok gen s0 d (perform os (Journaled cs apply) d).
Proof using Type.
  intros Hd [Hm Hs]. cbn [perform]. unfold commit_journaled_batch. rewrite (prepared cs gen s0 d Hd).
  pose proof (commit_batch_cases (bool_decide (cs = [])) os cs gen s0 d Hd) as Hb.
  destruct (commit_batch _ os cs d) as [[armed|e] d'].
  - destruct Hb as (_ & Hst & Hp & Hc).
    { intros Hne. split; [by apply bool_decide_eq_false_2|]. apply Hm. by destruct cs. }
    rewrite Hst. destruct (apply (state d)) as [res s]. rewrite complete_healthy by done. split; [|done]. intros _. by apply Hc.
  - destruct Hb as [->|Hb].
    { intros Hne. split; [by apply bool_decide_eq_false_2|]. apply Hm. by destruct cs. }
    + by split.
    + by apply (unchanged_or_poisoned gen s0 d d' (state d)); [done|done|right].
Qed.

Lemma prepared_step os route prepare apply gen s0 d :
  consistent gen s0 d -> sound_at (Prepared route prepare apply) (state d) ->
  step_ok gen s0 d (perform os (Prepared route prepare apply) d).
Proof using Type.
  intros Hd [Hm Hs]. cbn [perform]. unfold commit_prepared. rewrite (prepared [route] gen s0 d Hd).
  rewrite bool_decide_eq_false_2 by done. cbn [mutation_of] in Hm.
  destruct (prepare (state d)) as [[[cs p]|e] s1]; destruct Hs as [H1 Hs]; cbn [fst] in Hm; cycle 1.
  { split; [|done]. intros _. by apply consistent_state. }
  assert (consistent gen s0 (set_state s1 d)) as Hd1 by (by apply consistent_state).
  pose proof (commit_batch_cases false os cs gen s0 (set_state s1 d) Hd1) as Hb.
  destruct (commit_batch false os cs (set_state s1 d)) as [[armed|e] d'].
  - destruct Hb as (-> & Hst & Hp & Hc). { intros Hne. split; [done|]. apply Hm. by destruct cs. }
    rewrite Hst. cbn [state set_state]. destruct (apply p s1) as [[v|e] s2].
    + rewrite complete_healthy by done. split; [|done]. intros _. apply Hc. cbn.
      destruct Hs as (t & Et & Ht). destruct (execute_all_proper cs (state d) s1 t) as (t' & Et' & Htt); [by symmetry|done|].
      exists t'. split; [done|]. by rewrite <-Htt.
    + destruct Hs as [-> Hs]. rewrite bool_decide_eq_true_2 by done. cbn [negb drop_guard]. split; [|done]. intros _.
      apply Hc. eapply leads_equiv; [apply leads_nil|]. cbn. by rewrite Hs, H1.
  - destruct Hb as [->|Hb]; [intros Hne; split; [done|]; apply Hm; by destruct cs|..];
      (apply (unchanged_or_poisoned gen s0 d _ s1); [done|done|]); [by left|by right].
Qed.

Lemma checked_step os args apply gen s0 d :
  consistent gen s0 d -> sound_at (Checked args apply) (state d) -> step_ok gen s0 d (perform os (Checked args apply) d).
Proof using Type.
  intros Hd [Hm Hs]. cbn [perform]. unfold commit_journaled_checked. rewrite (prepared [args] gen s0 d Hd).
  pose proof Hd as (Hp & Ha & ms & Hms & Hw & Hl). rewrite Hw. specialize (Hm _ eq_refl).
  pose proof (append_locked os (MChecked args) gen ms d Hm Hp Hw) as Hl'.
  destruct (append_journal_commands_locked os _ _ d) as [[off|e] d']; cycle 1.
  { apply (unchanged_or_poisoned gen s0 d d' (state d)); [done|done|]. destruct Hl' as [->|?]; [left; by destruct d|by right]. }
  destruct Hl' as [-> ->]. cbn [state set_wal]. destruct (apply (state d)) as [[res committed] s1]. destruct committed.
  - rewrite complete_healthy by done. split; [|done]. intros _.
    apply (extend gen s0 _ ms (MChecked args) s1); try done. rewrite commands_snoc. by eapply leads_app.
  - destruct Hs as (Hs & _ & _). cbn [wal set_state set_wal]. rewrite journal_torn, rollback_journal.
    destruct (os_undo os); (split; cbn; [|done]).
    + intros _. split; [done|]. split; [done|]. exists ms. split; [done|]. split; [done|].
      by apply (leads_equiv _ _ (state d)).
    + done.
Qed.

Lemma perform_step os r gen s0 d :
  consistent gen s0 d -> sound_at r (state d) -> step_ok gen s0 d (perform os r d).
Proof using Type. intros Hd Hr. destruct r; [by apply journaled_step|by apply prepared_step|by apply checked_step]. Qed.

(** A poisoned journal refuses. *)
Lemma poisoned_refuses os r d : journal_poisoned d = true -> perform os r d = (true, d).
Proof using Type.
  intros Hp. assert (forall cs, exists e, prepare_journaled_batch cs d = Err e) as H'.
  { intros cs. unfold prepare_journaled_batch, ensure_accepting_mutations, ensure_journal_healthy. rewrite Hp.
    destruct (accepting_mutations d); by eexists. }
  destruct r as [cs apply|route prepare apply|args apply]; cbn [perform].
  - unfold commit_journaled_batch. by destruct (H' cs) as (e & ->).
  - unfold commit_prepared. by destruct (H' [route]) as (e & ->).
  - unfold commit_journaled_checked. by destruct (H' [args]) as (e & ->).
Qed.

Lemma poisoned_stays l d : journal_poisoned d = true -> perform_all l d = d.
Proof using Type.
  intros Hp. induction l as [|p l IH]; [done|]. unfold perform_all. cbn [foldl]. by rewrite poisoned_refuses.
Qed.

Lemma perform_all_consistent gen s0 l : forall d,
  consistent gen s0 d -> all_sound l d -> journal_poisoned (perform_all l d) = false ->
  consistent gen s0 (perform_all l d).
Proof using Type.
  induction l as [|p l IH]; intros d Hd Hs Hp; [done|]. destruct Hs as [Hs Hl].
  change (perform_all (p :: l) d) with (perform_all l (perform p.1 p.2 d).2) in *.
  destruct (journal_poisoned (perform p.1 p.2 d).2) eqn:E; [by rewrite poisoned_stays, E in Hp|].
  apply IH; [|done|done]. by apply (perform_step p.1 p.2 gen s0 d).
Qed.

(** ** Lemmas: a request that completes *)

Lemma commit_ideal cs gen s0 d :
  consistent gen s0 d -> cs <> [] -> mutation_ok (MBatch cs) ->
  exists d', commit_batch false ideal cs d = (Ok true, d') /\ state d' = state d /\ journal_poisoned d' = false.
Proof using Type.
  intros (Hp & Ha & ms & Hms & Hw & Hl) Hne Hm. unfold commit_batch. rewrite bool_decide_eq_false_2 by done.
  cbn [negb andb]. unfold append_journal_commands_physical. rewrite Hw, append_locked_ideal by done. by eexists.
Qed.

Lemma ideal_cases r m gen s0 d :
  consistent gen s0 d -> sound_at r (state d) -> mutation_of r (state d) = Some m ->
  leads (commands_of m) (state d) (state (perform ideal r d).2) \/
  exists args, m = MChecked args /\ state (perform ideal r d).2 ≡ state d /\
    (execute args (state d)).1 = false /\ (execute args (state d)).2 ≡ state d.
Proof using Type.
  intros Hd [Hok Hs] Em. specialize (Hok m Em). destruct r as [cs apply|route prepare apply|args apply]; cbn [perform].
  - left. assert (cs <> [] /\ m = MBatch cs) as [Hne ->] by (destruct cs; [done|by injection Em as <-]).
    unfold commit_journaled_batch. rewrite (prepared cs gen s0 d Hd), bool_decide_eq_false_2 by done.
    destruct (commit_ideal cs gen s0 d Hd Hne Hok) as (d' & -> & Hst & Hp'). rewrite Hst.
    destruct (apply (state d)) as [res s]. by rewrite complete_healthy.
  - left. cbn [mutation_of] in Em. unfold commit_prepared. rewrite (prepared [route] gen s0 d Hd), bool_decide_eq_false_2 by done.
    destruct (prepare (state d)) as [[[cs p]|e] s1]; [|done]. cbn [fst] in Em. destruct Hs as [H1 Hs].
    assert (cs <> [] /\ m = MBatch cs) as [Hne ->] by (destruct cs; [done|by injection Em as <-]).
    destruct (commit_ideal cs gen s0 (set_state s1 d)) as (d' & -> & Hst & Hp'); [by apply consistent_state|done|done|].
    rewrite Hst. cbn [state set_state]. destruct (apply p s1) as [[v|e] s2]; [|by destruct Hs as [-> _]].
    by rewrite complete_healthy.
  - injection Em as <-. unfold commit_journaled_checked. rewrite (prepared [args] gen s0 d Hd).
    pose proof Hd as (Hp & Ha & ms & Hms & Hw & Hl). rewrite Hw, append_locked_ideal by done. cbn [state set_wal].
    destruct (apply (state d)) as [[res []] s1].
    + left. by rewrite complete_healthy.
    + right. exists args. cbn. tauto.
Qed.

(** ** Lemmas: recovery *)

(** A database found with the journal file [f]: it opens and recovers to a consistent state. *)
Definition recovers (gen fresh : bytes) (s0 : St) (f : bytes) (target : St) : Prop :=
  exists w s w', open_in f true None fresh = IoOk w /\ replay_wal w s0 = (true, s, w') /\
    consistent gen s0 (mkDb s (Some w') false true) /\ s ≡ target.

Lemma consistent_intro gen s0 s ms :
  Forall mutation_ok ms -> leads (concat (commands_of <$> ms)) s0 s ->
  consistent gen s0 (mkDb s (Some (journal gen ms [])) false true).
Proof using Type. intros Hms Hl. split; [done|]. split; [done|]. by exists ms. Qed.

Lemma file_torn gen ms torn : file (journal gen ms []) ++ torn = file (journal gen ms torn).
Proof using Type. unfold journal. cbn. by rewrite app_nil_r, <-(assoc_L (++)). Qed.

Lemma recover_torn gen fresh s0 ms torn s :
  generation_ok gen -> Forall mutation_ok ms -> read_next_frame_payload Guarded torn = IoOk None ->
  leads (concat (commands_of <$> ms)) s0 s -> recovers gen fresh s0 (file (journal gen ms []) ++ torn) s.
Proof using Type.
  intros Hg Hms Htorn (t & Et & Ht). exists (journal gen ms torn), t, (journal gen ms []).
  rewrite file_torn, open_journal by done. split; [done|]. split; [|split; [|done]].
  - unfold replay_wal. rewrite replay_journal by done. by apply replay_all.
  - apply consistent_intro; [done|by exists t].
Qed.

Lemma torn_frame k m :
  mutation_ok m -> (k < length (mutation_frame Guarded m))%nat ->
  read_next_frame_payload Guarded (take k (mutation_frame Guarded m)) = IoOk None.
Proof using Type.
  intros (_ & _ & _ & Hpl & _) Hk. apply (read_torn _ _ Hpl). apply incomplete_take.
  change (mutation_frame Guarded m) with (encode_guarded_payload (command_payload (mutation_args m))) in Hk. lia.
Qed.

Lemma recover_rejected gen fresh s0 ms args s :
  generation_ok gen -> Forall mutation_ok ms -> mutation_ok (MChecked args) ->
  leads (concat (commands_of <$> ms)) s0 s -> (execute args s).1 = false -> (execute args s).2 ≡ s ->
  recovers gen fresh s0 (file (journal gen (ms ++ [MChecked args]) [])) s.
Proof using Type.
  intros Hg Hms Hm (t & Et & Ht) Hrej Hsame. rewrite <-(execute_reply args t s Ht) in Hrej.
  rewrite <-(execute_state args t s Ht) in Hsame.
  exists (journal gen (ms ++ [MChecked args]) []), (execute args t).2, (journal gen ms []).
  assert (Forall mutation_ok (ms ++ [MChecked args])) by (apply Forall_app; auto).
  rewrite open_journal by done. split; [done|]. split; [|split; [|done]].
  - unfold replay_wal. rewrite replay_journal by done. cbn [expected_replay replayed checked_tail_offset].
    rewrite commands_snoc, checked_tail_snoc. cbn [is_checked commands_of].
    rewrite (replay_rejected _ _ _ _ _ t Et Hrej). f_equal. rewrite journal_torn.
    rewrite <-(rollback_journal gen ms (mutation_frame Guarded (MChecked args))). f_equal.
    cbn [journal file]. by rewrite app_nil_r, length_app, header_length.
  - apply consistent_intro; [done|]. exists t. split; [done|]. by rewrite Hsame.
Qed.

(** ** Theorems *)

(** C3. Memory and journal agree. Mutations cross the journal boundary in any of its three ways, each
    of which does to the state what its journal commands do, while the operating system fails writes,
    syncs and truncations as it likes; the journal is not poisoned, and the process dies during one
    more mutation, after any number of bytes of its record. The journal that is found opens, recovery
    executes it without an error, and the recovered state is the state before the interrupted mutation
    or, if its record was complete, the state after it; the recovered database is again
    consistent with its journal, a rejected command having been taken out. *)
Theorem recovery_is_exact gen fresh s0 l r k :
  generation_ok gen -> all_sound l (fresh_db gen s0) ->
  let d := perform_all l (fresh_db gen s0) in
  journal_poisoned d = false -> sound_at r (state d) ->
  let complete := match mutation_of r (state d) with
                  | Some m => bool_decide (length (mutation_frame Guarded m) <= k)%nat
                  | None => false
                  end in
  recovers gen fresh s0 (crash_image r k d) (if complete then state (perform ideal r d).2 else state d).
Proof using Type.
  intros Hg Hl d Hp Hr. assert (consistent gen s0 d) as Hd.
  { apply perform_all_consistent; [|done|done]. apply (consistent_intro gen s0 s0 []); [done|apply leads_nil]. }
  pose proof Hd as (_ & _ & ms & Hms & Hw & Hlead). unfold crash_image. rewrite Hw.
  destruct (mutation_of r (state d)) as [m|] eqn:Em; [|by apply recover_torn]. cbv zeta.
  pose proof (proj1 Hr m Em) as Hm. case_bool_decide as Hk; [|apply recover_torn; [done..|apply torn_frame; [done|lia]|done]].
  rewrite take_ge, file_torn, <-journal_torn by lia.
  destruct (ideal_cases r m gen s0 d Hd Hr Em) as [Hn|(args & -> & Hst & Hrej & Hsame)].
  - rewrite <-(app_nil_r (file _)). apply recover_torn; [done| |done|].
    + apply Forall_app; auto.
    + rewrite commands_snoc. by eapply leads_app.
  - destruct (recover_rejected gen fresh s0 ms args (state d)) as (w & s & w' & ? & ? & ? & Hs); try done.
    exists w, s, w'. split; [done|]. split; [done|]. split; [done|]. by rewrite Hst.
Qed.


End Commits.
End Boundary.

(** ** String commands on the store *)

(** SET and DEL with their journal commands; any other command is an error. *)
Definition run_string (c : list bytes) (s : Store.Store.Store) : bool * Store.Store.Store :=
  match c with
  | [name; key; val] =>
      if bytes_eqb name (bs "SET") then
        match Strings.Strings.set key val None 0 s with Returned s => (true, s) | Panicked => (false, s) end
      else (false, s)
  | [name; key] => if bytes_eqb name (bs "DEL") then (true, (Strings.Strings.del 0 [key] s).2) else (false, s)
  | _ => (false, s)
  end.

#[local] Instance store_equiv : Equiv Store.Store.Store := eq.

#[local] Instance string_machine : Machine Store.Store.Store.
Proof.
  refine {| execute := run_string; machine_equivalence := eq_equivalence |}; intros c s s' E; by rewrite E.
Defined.

Definition set_request (key val : bytes) : request (St := Store.Store.Store) (P := unit) (T := unit) :=
  Journaled [[bs "SET"; key; val]] (fun s => (tt, (run_string [bs "SET"; key; val] s).2)).

(** RENAME of a key that does not exist is rejected. *)
Definition rejected_request : request (St := Store.Store.Store) (P := unit) (T := unit) :=
  Checked [bs "RENAME"; bs "a"; bs "c"] (fun s => (tt, false, s)).

Lemma set_request_sound key val s :
  mutation_ok (MBatch [[bs "SET"; key; val]]) ->
  is_Some (match Strings.Strings.set key val None 0 s with Returned s => Some s | Panicked => None end) ->
  sound_at (set_request key val) s.
Proof.
  intros Hm [s' Hs]. split; [by intros m [= <-]|]. unfold leads. cbn. destruct (Strings.Strings.set key val None 0 s); [|done].
  eexists. split; [done|]. reflexivity.
Qed.

Lemma rejected_request_sound s : sound_at rejected_request s.
Proof. split; [by intros m [= <-]; apply sample_checked_ok|]. split; [done|]. split; done. Qed.

Lemma recovery_is_exact_witness :
  let d := perform_all true [(ideal, set_request (bs "a") (bs "1")); (mkOs (WriteFailed 5 false) true true true, set_request (bs "b") (bs "2"))]
             (fresh_db sample_generation (Store.Store.new 2)) in
  recovers sample_generation [] (Store.Store.new 2) (crash_image rejected_request 1000 d)
    (state (perform true ideal rejected_request d).2).
Proof.
  apply (recovery_is_exact true sample_generation [] (Store.Store.new 2)
    [(ideal, set_request (bs "a") (bs "1")); (mkOs (WriteFailed 5 false) true true true, set_request (bs "b") (bs "2"))]
    rejected_request 1000).
  - exact sample_generation_ok.
  - split; [|split; [|done]]; (apply set_request_sound; [apply mutation_ok_intro; [done|vm_compute; reflexivity]|vm_compute; eexists; reflexivity]).
  - vm_compute. reflexivity.
  - apply rejected_request_sound.
Defined.


End Durability.
