(* ===== verification/Streams.v ===== *)
(** * Streams and consumer groups ([src/src/store/streams.rs], with the journal commands LXGROUPREAD and
      LXGROUPCLAIM of [src/src/cmd/mod.rs])

    A stream is a log of entries in the order of their identifiers. A consumer group has a position in
    the log and a list of pending entries: those delivered to a consumer and not acknowledged. The
    owner of a pending entry is kept twice, in the group's list and in the consumer's own set.

    Reads for a group, claims and automatic claims are prepared from the state, journaled as what they
    resolved to, and applied; [now] is the time of the command, [clock] the [Instant::now()] of a
    promotion or of the apply phase, [epoch_ms] the wall-clock time. *)

From S2P Require Import Prelude.
From S2P Require Import Values.
From S2P Require Import Store.
From S2P Require Import Strings.
From S2P Require Import Lists.
From S2P Require Import Sets.
From S2P Require Import Hashes.
From S2P Require Import Wal.
From S2P Require Import Durability.
Local Open Scope Z_scope.

Module Streams.
Import Values.Values Store.Store Strings.Strings.
Import Lists.Lists(charge, refund).
Import Hashes.Hashes(adjust).

Abbreviation fields_t := (list (bytes * bytes)).
Abbreviation StreamEntries := (list (StreamId * fields_t)).

(** ** Sorted maps by identifier *)

Fixpoint id_lookup {A : Type} (i : StreamId) (l : list (StreamId * A)) : option A :=
  match l with
  | [] => None
  | (j, a) :: l => if bool_decide (i = j) then Some a else id_lookup i l
  end.

(** [BTreeMap::remove]. *)
Fixpoint id_remove {A : Type} (i : StreamId) (l : list (StreamId * A)) : list (StreamId * A) :=
  match l with
  | [] => []
  | (j, a) :: l => if bool_decide (i = j) then l else (j, a) :: id_remove i l
  end.

Definition id_leb (a b : StreamId) : bool := negb (id_ltb b a).

(** [range(start..)] *)
Definition range_from {A : Type} (start : StreamId) (l : list (StreamId * A)) : list (StreamId * A) :=
  List.filter (fun e => id_leb start e.1) l.

(** [range(start..=end)], which panics when the start is greater than the end. *)
Definition range_between {A : Type} (start finish : StreamId) (l : list (StreamId * A))
    : outcome (list (StreamId * A)) :=
  if id_ltb finish start then Panicked
  else Returned (List.filter (fun e => id_leb start e.1 && id_leb e.1 finish) l).

(** [for x in iter { out.push(x); if out.len() >= count { break; } }] *)
Fixpoint read_loop {A : Type} (count : option Z) (out l : list A) : list A :=
  match l with
  | [] => out
  | x :: l =>
      let out := out ++ [x] in
      match count with
      | Some c => if zlen out >=? c then out else read_loop count out l
      | None => read_loop count out l
      end
  end.

(** The identifier after, in a release build. *)
Definition next_id (i : StreamId) : StreamId := mkId (ms i) (as_u64 (seqn i + 1)).

Definition empty_stream : StreamData := mkStream [] id_zero ∅.

(** ** Errors *)

Definition text (l : bytes) : string :=
  String.string_of_list_ascii ((fun b => Ascii.ascii_of_nat (Z.to_nat b)) <$> l).

Definition nogroup_err (group key : bytes) : string :=
  ("NOGROUP No such consumer group '" +:+ text group +:+ "' for key name '" +:+ text (key_str key) +:+ "'")%string.

Definition INVALID_ID : string := "ERR Invalid stream ID specified as stream command argument".
Definition SMALLER_ID : string := "ERR The ID specified in XADD is equal or smaller than the target stream top item".
Definition BUSYGROUP : string := "BUSYGROUP Consumer Group name already exists".
Definition REQUIRES_KEY : string :=
  "ERR The XGROUP subcommand requires the key to exist. Note that for CREATE you may want to use the MKSTREAM option to create an empty stream automatically.".
Definition NO_SUCH_KEY : string := "ERR no such key".
Definition disappeared (i : StreamId) : string :=
  ("ERR pending stream ID '" +:+ text (id_fmt i) +:+ "' disappeared during claim")%string.

(** ** Entries holding streams *)

Definition view_stream (key : bytes) (now : Z) (s : Store) : result (option (Entry * StreamData)) :=
  match find s key with
  | Some e => if is_expired_at now e then Ok None
              else match value e with VStream st => Ok (Some (e, st)) | _ => Err WRONGTYPE end
  | None => Ok None
  end.

Definition put_stream (key : bytes) (e : Entry) (st : StreamData) (s : Store) : Store :=
  put_data key (mkEntry (VStream st) (expires_at e) (e_lru_clock e)) s.

(** The entry of a key, made if there is none, emptied if it has expired. *)
Definition open_stream (key : bytes) (now : Z) (s : Store) : Entry * Store :=
  match find s key with
  | Some e =>
      if is_expired_at now e
      then let e := mkEntry (VStream empty_stream) None (e_lru_clock e) in (e, put_data key e s)
      else (e, s)
  | None => let e := mkEntry (VStream empty_stream) None (lru_clock s) in (e, put_data key e (key_added s))
  end.

(** The reading operations: the answer for a missing key, or from the stream. *)
Definition reading {R : Type} (key : bytes) (now : Z) (missing : result R) (f : StreamData -> result R) (s : Store)
    : result R :=
  match view_stream key now s with
  | Ok (Some (_, st)) => f st
  | Ok None => missing
  | Err e => Err e
  end.

(** [self.shards[idx].write(); shard.version += 1; match shard.data.get_mut(key) { .. }] *)
Definition writing {R : Type} (key : bytes) (now : Z) (missing : result R) (f : StreamData -> result R * StreamData)
    (s : Store) : result R * Store :=
  let s := bump key s in
  match view_stream key now s with
  | Ok (Some (e, st)) => let '(r, st) := f st in (r, put_stream key e st s)
  | Ok None => (missing, s)
  | Err e => (Err e, s)
  end.

Definition set_group (name : bytes) (g : ConsumerGroup) (st : StreamData) : StreamData :=
  mkStream (s_entries st) (s_last_id st) (<[name := g]> (s_groups st)).

(** An operation on a group that must exist. *)
Definition in_group {R : Type} (name key : bytes) (f : ConsumerGroup -> result R * ConsumerGroup) (st : StreamData)
    : result R * StreamData :=
  match s_groups st !! name with
  | None => (Err (nogroup_err name key), st)
  | Some g => let '(r, g) := f g in (r, set_group name g st)
  end.

(** ** XADD *)

(** [while stream.entries.len() > max { pop_first }]: the memory freed, and the entries. *)
Fixpoint trim (max : Z) (l : StreamEntries) : Z * StreamEntries :=
  match l with
  | [] => (0, [])
  | (i, fs) :: r =>
      if zlen l >? max then let '(freed, l) := trim max r in (stream_entry_memory fs + freed, l) else (0, l)
  end.

Section Adding.

(** The wall-clock milliseconds of [SystemTime::now()]. *)
Context (epoch_ms : Z).

Definition resolve_xadd_id (st : StreamData) (id_input : bytes) : result StreamId :=
  let last := s_last_id st in
  let id :=
    if bytes_eqb id_input (bs "*") then
      Ok (if epoch_ms >? ms last then mkId epoch_ms 0 else next_id last)
    else
      let '(head, tail) := split_dash id_input in
      match parse_u64 head with
      | None => Err INVALID_ID
      | Some m =>
          match tail with
          | None => Ok (mkId m 0)
          | Some q =>
              if bytes_eqb q (bs "*") then Ok (mkId m (if m =? ms last then as_u64 (seqn last + 1) else 0))
              else match parse_u64 q with Some q => Ok (mkId m q) | None => Err INVALID_ID end
          end
      end in
  match id with
  | Err e => Err e
  | Ok id =>
      if id_leb id last && negb (bool_decide (last = id_zero)) &&
         ((ms id <? ms last) || ((ms id =? ms last) && (seqn id <=? seqn last)))
      then Err SMALLER_ID
      else if bool_decide (id = id_zero) && negb (bool_decide (s_entries st = []))
      then Err SMALLER_ID
      else Ok id
  end.

Definition preview_xadd_id (key id_input : bytes) (now : Z) (s : Store) : result StreamId :=
  match view_stream key now s with
  | Ok (Some (_, st)) => resolve_xadd_id st id_input
  | Ok None => resolve_xadd_id empty_stream id_input
  | Err e => Err e
  end.

Definition xadd_on_shard (key id_input : bytes) (fields : fields_t) (maxlen : option Z) (now : Z) (s : Store)
    : result StreamId * Store :=
  let '(e, s) := open_stream key now s in
  match value e with
  | VStream st =>
      match resolve_xadd_id st id_input with
      | Err m => (Err m, s)
      | Ok id =>
          let added := stream_entry_memory fields in
          let entries := id_insert id fields (s_entries st) in
          let '(trimmed, entries) := match maxlen with Some max => trim max entries | None => (0, entries) end in
          (Ok id, adjust key (added - trimmed) (put_stream key e (mkStream entries id (s_groups st)) s))
      end
  | _ => (Err WRONGTYPE, s)
  end.

Definition xadd (key id_input : bytes) (fields : fields_t) (maxlen : option Z) (now : Z) (s : Store)
    : result StreamId * Store :=
  xadd_on_shard key id_input fields maxlen now (bump key s).

End Adding.

Definition xlen (key : bytes) (now : Z) (s : Store) : result Z :=
  reading key now (Ok 0) (fun st => Ok (zlen (s_entries st))) s.

Definition stream_last_id (key : bytes) (now : Z) (s : Store) : option StreamId :=
  match view_stream key now s with Ok (Some (_, st)) => Some (s_last_id st) | _ => None end.

(** ** Removing entries *)

(** One removal: how many went, the memory freed, the entries. *)
Definition xdel_one (acc : Z * Z * StreamEntries) (i : StreamId) : Z * Z * StreamEntries :=
  let '(removed, freed, l) := acc in
  match id_lookup i l with
  | Some fs => (removed + 1, freed + stream_entry_memory fs, id_remove i l)
  | None => acc
  end.

(** Entries removed from a stream, with the memory they held. *)
Definition removing (key : bytes) (now : Z) (f : StreamEntries -> Z * Z * StreamEntries) (s : Store)
    : result Z * Store :=
  let s := bump key s in
  match view_stream key now s with
  | Ok (Some (e, st)) =>
      let '(removed, freed, l) := f (s_entries st) in
      (Ok removed, refund key freed (put_stream key e (mkStream l (s_last_id st) (s_groups st)) s))
  | Ok None => (Ok 0, s)
  | Err e => (Err e, s)
  end.

Definition xdel (key : bytes) (ids : list StreamId) (now : Z) (s : Store) : result Z * Store :=
  removing key now (fun l => foldl xdel_one (0, 0, l) ids) s.

Definition xtrim (key : bytes) (maxlen now : Z) (s : Store) : result Z * Store :=
  removing key now (fun l => let '(freed, l') := trim maxlen l in (zlen l - zlen l', freed, l')) s.

(** ** Groups *)

(** The identifier of a group: the last one of the stream, or the one given. *)
Definition group_id (id : bytes) (st : StreamData) : option StreamId :=
  if bytes_eqb id (bs "$") then Some (s_last_id st) else id_parse id.

Definition xgroup_create (key group id : bytes) (mkstream : bool) (now : Z) (s : Store) : result unit * Store :=
  let s := bump key s in
  let s := if mkstream then (open_stream key now s).2 else s in
  match view_stream key now s with
  | Ok (Some (e, st)) =>
      if bool_decide (is_Some (s_groups st !! group)) then (Err BUSYGROUP, s)
      else (Ok tt, put_stream key e (set_group group (mkGroup (default id_zero (group_id id st)) ∅ []) st) s)
  | Ok None => (Err REQUIRES_KEY, s)
  | Err e => (Err e, s)
  end.

Definition xgroup_destroy (key group : bytes) (now : Z) : Store -> result bool * Store :=
  writing key now (Ok false) (fun st =>
    (Ok (bool_decide (is_Some (s_groups st !! group))),
     mkStream (s_entries st) (s_last_id st) (delete group (s_groups st)))).

Definition xgroup_setid (key group id : bytes) (now : Z) : Store -> result unit * Store :=
  writing key now (Err NO_SUCH_KEY) (fun st =>
    in_group group key (fun g =>
      match group_id id st with
      | Some i => (Ok tt, mkGroup i (g_consumers g) (g_pel g))
      | None => (Err "ERR Invalid stream ID", g)
      end) st).

Definition xgroup_createconsumer (key group consumer : bytes) (now : Z) : Store -> result bool * Store :=
  writing key now (Err (nogroup_err group key)) (fun st =>
    in_group group key (fun g =>
      if bool_decide (is_Some (g_consumers g !! consumer)) then (Ok false, g)
      else (Ok true, mkGroup (g_last_delivered g) (<[consumer := mkConsumer ∅ now]> (g_consumers g)) (g_pel g))) st).

Definition xgroup_delconsumer (key group consumer : bytes) (now : Z) : Store -> result Z * Store :=
  writing key now (Err (nogroup_err group key)) (fun st =>
    in_group group key (fun g =>
      match g_consumers g !! consumer with
      | Some c => (Ok (Z.of_nat (size (c_pel c))),
                   mkGroup (g_last_delivered g) (delete consumer (g_consumers g))
                     (foldl (fun l i => id_remove i l) (g_pel g) (elements (c_pel c))))
      | None => (Ok 0, g)
      end) st).

(** [consumer.pel.remove(id)], where the consumer exists. *)
Definition forget (i : StreamId) (owner : bytes) (cs : gmap bytes Consumer) : gmap bytes Consumer :=
  alter (fun c => mkConsumer (c_pel c ∖ {[i]}) (c_seen c)) owner cs.

Definition xack_one (acc : Z * ConsumerGroup) (i : StreamId) : Z * ConsumerGroup :=
  let '(acked, g) := acc in
  match id_lookup i (g_pel g) with
  | Some pe => (acked + 1, mkGroup (g_last_delivered g) (forget i (p_consumer pe) (g_consumers g)) (id_remove i (g_pel g)))
  | None => acc
  end.

Definition xack (key group : bytes) (ids : list StreamId) (now : Z) : Store -> result Z * Store :=
  writing key now (Ok 0) (fun st =>
    match s_groups st !! group with
    | None => (Ok 0, st)
    | Some g => let '(acked, g) := foldl xack_one (0, g) ids in (Ok acked, set_group group g st)
    end).

(** ** Pending entries *)

(** Milliseconds between two instants, zero if the second is later. *)
Definition elapsed_ms (later earlier : Z) : Z := Z.max 0 (later - earlier) / 1000000.

(** [*consumer_counts.entry(consumer).or_insert(0) += 1], over the pending entries. *)
Definition count_consumers (l : list (StreamId * PendingEntry)) : gmap bytes Z :=
  foldl (fun m p => <[p_consumer p.2 := default 0 (m !! p_consumer p.2) + 1]> m) ∅ l.

Definition xpending_summary (key group : bytes) (now : Z)
    : Store -> result (Z * option StreamId * option StreamId * list (bytes * Z)) :=
  reading key now (Err (nogroup_err group key)) (fun st =>
    match s_groups st !! group with
    | None => Err (nogroup_err group key)
    | Some g => Ok (zlen (g_pel g), head (g_pel g).*1, list.last (g_pel g).*1, map_to_list (count_consumers (g_pel g)))
    end).

(** The loop of [xpending_range] over a range. *)
Fixpoint pending_loop (inst_now count : Z) (filter : option bytes) (out : list (StreamId * bytes * Z * Z))
    (l : list (StreamId * PendingEntry)) : list (StreamId * bytes * Z * Z) :=
  match l with
  | [] => out
  | (i, pe) :: l =>
      if match filter with Some c => negb (bytes_eqb (p_consumer pe) c) | None => false end
      then pending_loop inst_now count filter out l
      else
        let out := out ++ [(i, p_consumer pe, as_u64 (elapsed_ms inst_now (p_time pe)), p_count pe)] in
        if zlen out >=? count then out else pending_loop inst_now count filter out l
  end.

Definition xpending_range (key group : bytes) (start finish : StreamId) (count : Z) (filter : option bytes)
    (inst_now now : Z) (s : Store) : outcome (result (list (StreamId * bytes * Z * Z))) :=
  match view_stream key now s with
  | Ok (Some (_, st)) =>
      match s_groups st !! group with
      | None => Returned (Err (nogroup_err group key))
      | Some g => l ← range_between start finish (g_pel g); Returned (Ok (pending_loop inst_now count filter [] l))
      end
  | Ok None => Returned (Err (nogroup_err group key))
  | Err e => Returned (Err e)
  end.

(** ** Information *)

Definition name_le (a b : bytes * Z * Z * Z) : Prop := bytes_le a.1.1.1 b.1.1.1.
#[export] Instance name_le_dec a b : Decision (name_le a b).
Proof. unfold name_le, bytes_le. apply _. Defined.

(** Name, pending, idle, inactive. *)
Definition xinfo_consumers (key group : bytes) (now : Z) : Store -> result (list (bytes * Z * Z * Z)) :=
  reading key now (Err (nogroup_err group key)) (fun st =>
    match s_groups st !! group with
    | None => Err (nogroup_err group key)
    | Some g =>
        Ok (merge_sort name_le
              ((fun p => let idle := as_i64 (elapsed_ms now (c_seen p.2)) in
                         (p.1, Z.of_nat (size (c_pel p.2)), idle, idle)) <$> map_to_list (g_consumers g)))
    end).

Definition xinfo_stream (key : bytes) (now : Z) : Store -> result (list (bytes * bytes)) :=
  reading key now (Err NO_SUCH_KEY) (fun st =>
    Ok ([(bs "length", fmt_u (zlen (s_entries st))); (bs "last-generated-id", id_fmt (s_last_id st));
         (bs "groups", fmt_u (Z.of_nat (size (s_groups st))))] ++
        match s_entries st with (i, _) :: _ => [(bs "first-entry-id", id_fmt i)] | [] => [] end ++
        match list.last (s_entries st) with Some (i, _) => [(bs "last-entry-id", id_fmt i)] | None => [] end)).

Definition xinfo_groups (key : bytes) (now : Z) : Store -> result (list (list (bytes * bytes))) :=
  reading key now (Err NO_SUCH_KEY) (fun st =>
    Ok ((fun p => [(bs "name", p.1); (bs "consumers", fmt_u (Z.of_nat (size (g_consumers p.2))));
                   (bs "pending", fmt_u (zlen (g_pel p.2)));
                   (bs "last-delivered-id", id_fmt (g_last_delivered p.2))]) <$> map_to_list (s_groups st))).

(** ** Journaled effects *)

(** One delivered entry: its former owner forgets it, and it is pending for the new one. *)
Definition deliver_one (consumer : bytes) (applied_at : Z) (g : ConsumerGroup) (i : StreamId) : ConsumerGroup :=
  mkGroup (g_last_delivered g)
    (match id_lookup i (g_pel g) with Some pe => forget i (p_consumer pe) (g_consumers g) | None => g_consumers g end)
    (id_insert i (mkPending consumer applied_at 1) (g_pel g)).

(** The consumer, made if it is new, gets the entries. *)
Definition receive (consumer : bytes) (ids : list StreamId) (applied_at : Z) (g : ConsumerGroup) : ConsumerGroup :=
  let c := default (mkConsumer ∅ applied_at) (g_consumers g !! consumer) in
  mkGroup (g_last_delivered g) (<[consumer := mkConsumer (c_pel c ∪ list_to_set ids) applied_at]> (g_consumers g)) (g_pel g).

Definition apply_lxgroupread (key group : bytes) (consumer : option bytes) (last : StreamId) (ids : list StreamId)
    (applied_at now : Z) : Store -> result unit * Store :=
  writing key now (Err (nogroup_err group key)) (fun st =>
    in_group group key (fun g =>
      let g := mkGroup last (g_consumers g) (g_pel g) in
      (Ok tt, match consumer with
              | None => g
              | Some c => receive c ids applied_at (foldl (deliver_one c applied_at) g ids)
              end)) st).

(** One claim; an entry that is not pending stops the loop. *)
Fixpoint claim_all (consumer : bytes) (applied_at : Z) (claims : list (StreamId * Z)) (g : ConsumerGroup)
    : result unit * ConsumerGroup :=
  match claims with
  | [] => (Ok tt, g)
  | (i, n) :: claims =>
      match id_lookup i (g_pel g) with
      | None => (Err (disappeared i), g)
      | Some pe =>
          claim_all consumer applied_at claims
            (mkGroup (g_last_delivered g) (forget i (p_consumer pe) (g_consumers g))
               (id_insert i (mkPending consumer applied_at n) (g_pel g)))
      end
  end.

Definition apply_lxgroupclaim (key group consumer : bytes) (claims : list (StreamId * Z)) (applied_at now : Z)
    (s : Store) : result unit * Store :=
  match claims with
  | [] => (Ok tt, s)
  | _ =>
      writing key now (Err (nogroup_err group key)) (fun st =>
        in_group group key (fun g =>
          match claim_all consumer applied_at claims g with
          | (Err e, g) => (Err e, g)
          | (Ok _, g) => (Ok tt, receive consumer claims.*1 applied_at g)
          end) st) s
  end.

Definition lxgroupclaim_command (key group consumer : bytes) (claims : list (StreamId * Z)) : list bytes :=
  [bs "LXGROUPCLAIM"; key; group; consumer] ++ concat ((fun p => [id_fmt p.1; fmt_u p.2]) <$> claims).

(** ** Reading *)

Section Reading.

Context (hll_count : bytes -> Z) (clock : Z).
(** [EncryptionKeyring::is_encrypted_value], and [decrypt] for the stream namespace, by field and key. *)
Context (is_encrypted_value : bytes -> bool) (decrypt : bytes -> bytes -> bytes -> result bytes).

Definition decrypt_stream_value (key field val : bytes) : result bytes :=
  if negb (is_encrypted_value val) then Ok val else decrypt (key_string field) (key_string key) val.

Definition decrypt_stream_fields (key : bytes) (fs : fields_t) : fields_t :=
  (fun p => (p.1, match decrypt_stream_value key p.1 p.2 with Ok v => v | Err _ => p.2 end)) <$> fs.

Definition shown (key : bytes) (e : StreamId * fields_t) : StreamId * fields_t := (e.1, decrypt_stream_fields key e.2).

Definition xrange (key : bytes) (start finish : StreamId) (count : option Z) (now : Z) (s : Store)
    : outcome (result StreamEntries) :=
  match view_stream key now s with
  | Ok (Some (_, st)) => l ← range_between start finish (s_entries st);
                         Returned (Ok (read_loop count [] (shown key <$> l)))
  | Ok None => Returned (Ok [])
  | Err e => Returned (Err e)
  end.

Definition xrevrange (key : bytes) (finish start : StreamId) (count : option Z) (now : Z) (s : Store)
    : outcome (result StreamEntries) :=
  match view_stream key now s with
  | Ok (Some (_, st)) => l ← range_between start finish (s_entries st);
                         Returned (Ok (read_loop count [] (shown key <$> rev l)))
  | Ok None => Returned (Ok [])
  | Err e => Returned (Err e)
  end.

(** The keys in turn: the answers so far, and the first error of a promotion. *)
Fixpoint xread_loop (keys : list (bytes * StreamId)) (count : option Z) (now : Z) (out : list (bytes * StreamEntries))
    (s : Store) : result (list (bytes * StreamEntries)) * Store :=
  match keys with
  | [] => (Ok out, s)
  | (key, after_id) :: keys =>
      match try_promote hll_count clock key now s with
      | (Err e, s) => (Err e, s)
      | (Ok _, s) =>
          let entries := match view_stream key now s with
                         | Ok (Some (_, st)) =>
                             read_loop count [] (shown key <$> range_from (next_id after_id) (s_entries st))
                         | _ => []
                         end in
          xread_loop keys count now (if bool_decide (entries = []) then out else out ++ [(key, entries)]) s
      end
  end.

Definition xread (keys : list bytes) (ids : list StreamId) (count : option Z) (now : Z) (s : Store)
    : result (list (bytes * StreamEntries)) * Store :=
  xread_loop (zip keys ids) count now [] s.

(** ** XREADGROUP *)

Inductive StreamGroupReadEffect :=
| Deliver (key group : bytes) (consumer : option bytes) (last_delivered_id : StreamId) (pending_ids : list StreamId)
| CreateConsumer (key group consumer : bytes).

Record StreamReadGroupPlan := mkReadPlan {
  rp_result : list (bytes * StreamEntries); rp_effects : list StreamGroupReadEffect
}.

Definition id_le (a b : StreamId) : Prop := id_leb a b = true.
#[export] Instance id_le_dec a b : Decision (id_le a b).
Proof. unfold id_le. apply _. Defined.

(** The pending entries of a consumer after an identifier that are still in the stream. *)
Definition history (key consumer : bytes) (after_id : StreamId) (count : option Z) (g : ConsumerGroup) (st : StreamData)
    : StreamEntries :=
  let ids := match g_consumers g !! consumer with
             | Some c => List.filter (fun i => id_ltb after_id i) (elements (c_pel c))
             | None => []
             end in
  read_loop count [] (omap (fun i => (fun fs => (i, decrypt_stream_fields key fs)) <$> id_lookup i (s_entries st))
    (merge_sort id_le ids)).

(** One key of the command, on its stream. *)
Definition read_group_one (group consumer key id_str : bytes) (count : option Z) (noack : bool) (g : ConsumerGroup)
    (st : StreamData) (plan : StreamReadGroupPlan) : StreamReadGroupPlan :=
  if bytes_eqb id_str (bs ">") then
    let entries := read_loop count [] (shown key <$> range_from (next_id (g_last_delivered g)) (s_entries st)) in
    match list.last entries with
    | Some (last, _) =>
        mkReadPlan (rp_result plan ++ [(key, entries)])
          (rp_effects plan ++
           [Deliver key group (if noack then None else Some consumer) last (if noack then [] else entries.*1)])
    | None => plan
    end
  else
    let after_id := default id_zero (id_parse id_str) in
    mkReadPlan (rp_result plan ++ [(key, history key consumer after_id count g st)])
      (rp_effects plan ++
       if bool_decide (is_Some (g_consumers g !! consumer)) then [] else [CreateConsumer key group consumer]).

Fixpoint preview_loop (group consumer : bytes) (keys : list (bytes * bytes)) (count : option Z) (noack : bool) (now : Z)
    (plan : StreamReadGroupPlan) (s : Store) : result StreamReadGroupPlan * Store :=
  match keys with
  | [] => (Ok plan, s)
  | (key, id_str) :: keys =>
      match try_promote hll_count clock key now s with
      | (Err e, s) => (Err e, s)
      | (Ok _, s) =>
          match view_stream key now s with
          | Ok (Some (_, st)) =>
              match s_groups st !! group with
              | None => (Err (nogroup_err group key), s)
              | Some g =>
                  preview_loop group consumer keys count noack now
                    (read_group_one group consumer key id_str count noack g st plan) s
              end
          | _ => preview_loop group consumer keys count noack now plan s
          end
      end
  end.

Definition preview_xreadgroup (group consumer : bytes) (keys ids : list bytes) (count : option Z) (noack : bool) (now : Z)
    (s : Store) : result StreamReadGroupPlan * Store :=
  preview_loop group consumer (zip keys ids) count noack now (mkReadPlan [] []) s.

Definition effect_command (e : StreamGroupReadEffect) : list bytes :=
  match e with
  | Deliver key group consumer last ids =>
      [bs "LXGROUPREAD"; key; group; id_fmt last; default [] consumer] ++ (id_fmt <$> ids)
  | CreateConsumer key group consumer => [bs "XGROUP"; bs "CREATECONSUMER"; key; group; consumer]
  end.

Definition apply_effect (applied_at now : Z) (e : StreamGroupReadEffect) (s : Store) : result unit * Store :=
  match e with
  | Deliver key group consumer last ids => apply_lxgroupread key group consumer last ids applied_at now s
  | CreateConsumer key group consumer =>
      match xgroup_createconsumer key group consumer now s with (Ok _, s) => (Ok tt, s) | (Err e, s) => (Err e, s) end
  end.

Fixpoint apply_effects (applied_at now : Z) (es : list StreamGroupReadEffect) (s : Store) : result unit * Store :=
  match es with
  | [] => (Ok tt, s)
  | e :: es => match apply_effect applied_at now e s with
               | (Ok _, s) => apply_effects applied_at now es s
               | (Err m, s) => (Err m, s)
               end
  end.

Definition read_prepare (group consumer : bytes) (keys ids : list bytes) (count : option Z) (noack : bool) (now : Z)
    (s : Store) : result (list (list bytes) * StreamReadGroupPlan) * Store :=
  match preview_xreadgroup group consumer keys ids count noack now s with
  | (Ok plan, s) => (Ok (effect_command <$> rp_effects plan, plan), s)
  | (Err e, s) => (Err e, s)
  end.

Definition read_apply (applied_at now : Z) (plan : StreamReadGroupPlan) (s : Store)
    : result (list (bytes * StreamEntries)) * Store :=
  match apply_effects applied_at now (rp_effects plan) s with
  | (Ok _, s) => (Ok (rp_result plan), s)
  | (Err e, s) => (Err e, s)
  end.

(** ** XCLAIM and XAUTOCLAIM *)

(** The claim of a pending entry that has been idle long enough. *)
Definition claimable (inst_now min_idle_ms : Z) (pe : PendingEntry) : bool :=
  as_u64 (elapsed_ms inst_now (p_time pe)) >=? min_idle_ms.

Definition saturating_succ (n : Z) : Z := Z.min usize_max (n + 1).

Record StreamClaimPlan := mkClaimPlan { cp_result : StreamEntries; cp_claims : list (StreamId * Z) }.

Definition claim_one (key : bytes) (inst_now min_idle_ms : Z) (g : ConsumerGroup) (st : StreamData)
    (plan : StreamClaimPlan) (i : StreamId) : StreamClaimPlan :=
  match id_lookup i (g_pel g) with
  | Some pe =>
      if claimable inst_now min_idle_ms pe then
        mkClaimPlan
          (match id_lookup i (s_entries st) with
           | Some fs => cp_result plan ++ [(i, decrypt_stream_fields key fs)]
           | None => cp_result plan
           end) (cp_claims plan ++ [(i, saturating_succ (p_count pe))])
      else plan
  | None => plan
  end.

Definition preview_xclaim (key group : bytes) (min_idle_ms : Z) (ids : list StreamId) (inst_now now : Z)
    : Store -> result StreamClaimPlan :=
  reading key now (Ok (mkClaimPlan [] [])) (fun st =>
    match s_groups st !! group with
    | None => Err (nogroup_err group key)
    | Some g => Ok (foldl (claim_one key inst_now min_idle_ms g st) (mkClaimPlan [] []) ids)
    end).

Definition claim_commands (key group consumer : bytes) (claims : list (StreamId * Z)) : list (list bytes) :=
  match claims with [] => [] | _ => [lxgroupclaim_command key group consumer claims] end.

Definition claim_prepare (key group consumer : bytes) (min_idle_ms : Z) (ids : list StreamId) (inst_now now : Z) (s : Store)
    : result (list (list bytes) * StreamClaimPlan) * Store :=
  match preview_xclaim key group min_idle_ms ids inst_now now s with
  | Ok plan => (Ok (claim_commands key group consumer (cp_claims plan), plan), s)
  | Err e => (Err e, s)
  end.

Definition claim_apply (key group consumer : bytes) (applied_at now : Z) (plan : StreamClaimPlan) (s : Store)
    : result StreamEntries * Store :=
  match apply_lxgroupclaim key group consumer (cp_claims plan) applied_at now s with
  | (Ok _, s) => (Ok (cp_result plan), s)
  | (Err e, s) => (Err e, s)
  end.

Record StreamAutoClaimPlan := mkAutoPlan {
  ap_next_start : StreamId; ap_result : StreamEntries; ap_deleted_ids : list StreamId; ap_claims : list (StreamId * Z)
}.

Fixpoint auto_loop (key : bytes) (inst_now min_idle_ms max : Z) (st : StreamData) (plan : StreamAutoClaimPlan)
    (l : list (StreamId * PendingEntry)) : StreamAutoClaimPlan :=
  match l with
  | [] => plan
  | (i, pe) :: l =>
      if zlen (ap_result plan) >=? max
      then mkAutoPlan i (ap_result plan) (ap_deleted_ids plan) (ap_claims plan)
      else
        auto_loop key inst_now min_idle_ms max st
          (if claimable inst_now min_idle_ms pe then
             let claims := ap_claims plan ++ [(i, saturating_succ (p_count pe))] in
             match id_lookup i (s_entries st) with
             | Some fs => mkAutoPlan (ap_next_start plan) (ap_result plan ++ [(i, decrypt_stream_fields key fs)])
                            (ap_deleted_ids plan) claims
             | None => mkAutoPlan (ap_next_start plan) (ap_result plan) (ap_deleted_ids plan ++ [i]) claims
             end
           else plan) l
  end.

Definition preview_xautoclaim (key group : bytes) (min_idle_ms : Z) (start : StreamId) (count : option Z) (inst_now now : Z)
    : Store -> result StreamAutoClaimPlan :=
  reading key now (Err (nogroup_err group key)) (fun st =>
    match s_groups st !! group with
    | None => Err (nogroup_err group key)
    | Some g => Ok (auto_loop key inst_now min_idle_ms (default 100 count) st (mkAutoPlan id_zero [] [] [])
                      (range_from start (g_pel g)))
    end).

Definition autoclaim_prepare (key group consumer : bytes) (min_idle_ms : Z) (start : StreamId) (count : option Z)
    (inst_now now : Z) (s : Store) : result (list (list bytes) * StreamAutoClaimPlan) * Store :=
  match preview_xautoclaim key group min_idle_ms start count inst_now now s with
  | Ok plan => (Ok (claim_commands key group consumer (ap_claims plan), plan), s)
  | Err e => (Err e, s)
  end.

Definition autoclaim_apply (key group consumer : bytes) (applied_at now : Z) (plan : StreamAutoClaimPlan) (s : Store)
    : result (StreamId * StreamEntries * list StreamId) * Store :=
  match apply_lxgroupclaim key group consumer (ap_claims plan) applied_at now s with
  | (Ok _, s) => (Ok (ap_next_start plan, ap_result plan, ap_deleted_ids plan), s)
  | (Err e, s) => (Err e, s)
  end.

End Reading.

(** ** What a client sees *)

(** A group without the sets of its consumers: who was seen when, and the pending entries with their
    owners. A stream: its entries in order, the top identifier and the groups. *)
Record agroup := mkAGroup { a_last : StreamId; a_seen : gmap bytes Z; a_pel : list (StreamId * PendingEntry) }.
Record astream := mkAStream { a_entries : StreamEntries; a_top : StreamId; a_groups : gmap bytes agroup }.

Definition abs_group (g : ConsumerGroup) : agroup := mkAGroup (g_last_delivered g) (c_seen <$> g_consumers g) (g_pel g).
Definition abs_stream (st : StreamData) : astream :=
  mkAStream (s_entries st) (s_last_id st) (abs_group <$> s_groups st).

Definition aempty : astream := mkAStream [] id_zero ∅.

(** At most [count] elements, but at least one. *)
Definition limit {A : Type} (count : option Z) (l : list A) : list A :=
  match count with Some c => take (Z.to_nat (Z.max 1 c)) l | None => l end.

(** ** Well-formed streams *)

Definition id_lt (a b : StreamId) : Prop := id_ltb a b = true.
Definition id_ok (i : StreamId) : Prop := 0 <= ms i <= usize_max /\ 0 <= seqn i <= usize_max.

Definition sorted {A : Type} (l : list (StreamId * A)) : Prop := StronglySorted id_lt l.*1.

(** Who owns a pending entry by the group's list, and whether a consumer holds it. *)
Definition owner (g : ConsumerGroup) (i : StreamId) : option bytes := p_consumer <$> id_lookup i (g_pel g).
Definition holds (g : ConsumerGroup) (c : bytes) (i : StreamId) : Prop :=
  exists con, g_consumers g !! c = Some con /\ i ∈ c_pel con.

Definition coherent (g : ConsumerGroup) : Prop := forall i c, owner g i = Some c <-> holds g c i.

Definition count_ok (n : Z) : Prop := 0 <= n <= usize_max.

Record group_ok (g : ConsumerGroup) : Prop := {
  go_sorted : sorted (g_pel g);
  go_ids : Forall id_ok (g_pel g).*1;
  go_counts : Forall count_ok (p_count <$> (g_pel g).*2);
  go_last : id_ok (g_last_delivered g);
  go_coherent : coherent g
}.

Record stream_ok (st : StreamData) : Prop := {
  so_sorted : sorted (s_entries st);
  so_ids : Forall id_ok (s_entries st).*1;
  so_last : id_ok (s_last_id st);
  so_below : Forall (fun i => id_le i (s_last_id st)) (s_entries st).*1;
  so_groups : forall name g, s_groups st !! name = Some g -> group_ok g
}.

(** ** Lemmas: identifiers *)

Lemma id_lt_spec a b : id_lt a b <-> ms a < ms b \/ (ms a = ms b /\ seqn a < seqn b).
Proof. unfold id_lt, id_ltb. rewrite orb_true_iff, andb_true_iff, !Z.ltb_lt, Z.eqb_eq. done. Qed.

Lemma id_le_spec a b : id_le a b <-> ms a < ms b \/ (ms a = ms b /\ seqn a <= seqn b).
Proof.
  unfold id_le, id_leb. rewrite negb_true_iff, <-not_true_iff_false. change (id_ltb b a = true) with (id_lt b a).
  rewrite id_lt_spec. lia.
Qed.

Lemma id_ltb_false a b : id_ltb a b = false <-> id_le b a.
Proof. unfold id_le, id_leb. by rewrite negb_true_iff. Qed.

Lemma id_eq a b : ms a = ms b -> seqn a = seqn b -> a = b.
Proof. destruct a, b; cbn; congruence. Qed.

Ltac id_order :=
  rewrite ?id_ltb_false in *; change (fun a b => id_ltb a b = true) with id_lt in *;
  repeat match goal with
         | H : id_ltb _ _ = true |- _ => apply id_lt_spec in H
         | H : id_lt _ _ |- _ => apply id_lt_spec in H
         | H : id_le _ _ |- _ => apply id_le_spec in H
         | |- id_lt _ _ => apply id_lt_spec
         | |- id_le _ _ => apply id_le_spec
         end;
  try lia.

Lemma id_lt_irrefl a : ~ id_lt a a.
Proof. intros H. id_order. Qed.

#[export] Instance id_lt_trans : Transitive id_lt.
Proof. intros a b c H1 H2. id_order. Qed.

#[export] Instance id_le_trans : Transitive id_le.
Proof. intros a b c H1 H2. id_order. Qed.

#[export] Instance id_le_antisym : AntiSymm (=) id_le.
Proof. intros a b H1 H2. apply id_eq; id_order. Qed.

#[export] Instance id_le_total : Total id_le.
Proof. intros a b. rewrite !id_le_spec. lia. Qed.

Lemma id_lt_le a b : id_lt a b -> id_le a b.
Proof. intros H. id_order. Qed.

Lemma id_lt_ne a b : id_lt a b -> a <> b.
Proof. intros H ->. by apply id_lt_irrefl in H. Qed.

Lemma id_neither a b : id_ltb a b = false -> a <> b -> id_lt b a.
Proof.
  intros H Hne. apply id_ltb_false, id_le_spec in H. apply id_lt_spec. destruct (decide (ms a = ms b)); [|lia].
  destruct (decide (seqn a = seqn b)); [|lia]. destruct Hne. by apply id_eq.
Qed.

Lemma id_zero_least i : id_ok i -> id_le id_zero i.
Proof. intros [H1 H2]. apply id_le_spec. cbn. lia. Qed.

Lemma id_parse_ok l i : id_parse l = Some i -> id_ok i.
Proof.
  unfold id_parse. destruct (split_dash l) as [h [t|]]; intros (m & Hm & H)%bind_Some.
  - apply bind_Some in H as (q & Hq & [= <-]). split; cbn; by eapply parse_u64_range.
  - injection H as <-. split; cbn; [by eapply parse_u64_range|unfold usize_max; lia].
Qed.

Lemma id_zero_ok : id_ok id_zero.
Proof. split; cbn; unfold usize_max; lia. Qed.

Lemma next_id_ok i : id_ok i -> id_ok (next_id i).
Proof. intros [H1 H2]. split; [done|]. cbn. pose proof (as_u64_range (seqn i + 1)). unfold usize_max, u64_mod in *. lia. Qed.

(** ** Lemmas: sorted maps *)

Section SortedMaps.

Context {A : Type}.
Implicit Types (l : list (StreamId * A)) (i j : StreamId) (a : A).

Lemma sorted_cons e l : sorted (e :: l) <-> Forall (id_lt e.1) l.*1 /\ sorted l.
Proof. unfold sorted. cbn. split; [intros H; by apply StronglySorted_inv in H as [? ?]|intros [? ?]; by constructor]. Qed.

Lemma lookup_insert_id i j a l : id_lookup j (id_insert i a l) = if decide (j = i) then Some a else id_lookup j l.
Proof.
  induction l as [|[k b] l IH]; cbn [id_insert id_lookup]; [repeat case_bool_decide; case_decide; congruence|].
  destruct (id_ltb i k) eqn:E; cbn [id_lookup].
  - repeat case_bool_decide; case_decide; congruence.
  - case_bool_decide as E1; cbn [id_lookup]; [subst k; repeat case_bool_decide; case_decide; congruence|].
    rewrite IH. repeat case_bool_decide; case_decide; congruence.
Qed.

Lemma lookup_elem i a l : id_lookup i l = Some a -> (i, a) ∈ l.
Proof.
  induction l as [|[k b] l IH]; cbn [id_lookup]; [done|]. case_bool_decide as E; [intros [= <-]; subst; by left|].
  intros H. right. by apply IH.
Qed.

Lemma lookup_None i l : id_lookup i l = None <-> i ∉ l.*1.
Proof.
  induction l as [|[k b] l IH]; cbn [id_lookup fmap list_fmap]; [split; [intros _; apply not_elem_of_nil|done]|].
  rewrite not_elem_of_cons. cbn. case_bool_decide as E; [split; [done|intros [? ?]; congruence]|]. rewrite IH. tauto.
Qed.

Lemma elem_lookup i a l : sorted l -> (i, a) ∈ l -> id_lookup i l = Some a.
Proof.
  induction l as [|[k b] l IH]; cbn [id_lookup]; [by intros _ ?%not_elem_of_nil|].
  intros [Hf Hs]%sorted_cons [[= -> ->]|H]%elem_of_cons; [by case_bool_decide|].
  case_bool_decide as E; [|by apply IH]. subst k. exfalso. rewrite Forall_forall in Hf.
  apply (id_lt_irrefl i), Hf. apply list_elem_of_fmap. by exists (i, a).
Qed.

Lemma insert_ids i a l j : j ∈ (id_insert i a l).*1 <-> j = i \/ j ∈ l.*1.
Proof.
  pose proof (lookup_None j (id_insert i a l)) as H1. pose proof (lookup_None j l) as H2. rewrite lookup_insert_id in H1.
  destruct (decide (j ∈ (id_insert i a l).*1)), (decide (j ∈ l.*1)), (decide (j = i)); intuition congruence.
Qed.

Lemma sorted_insert i a l : sorted l -> sorted (id_insert i a l).
Proof.
  induction l as [|[k b] l IH]; intros Hs; cbn [id_insert]; [apply sorted_cons; by split|].
  pose proof Hs as [Hf Hl]%sorted_cons. destruct (id_ltb i k) eqn:E.
  - apply sorted_cons. split; [|done]. cbn. constructor; [done|]. cbn in Hf. eapply Forall_impl; [done|].
    intros j Hj. by eapply id_lt_trans.
  - case_bool_decide as E1; apply sorted_cons; cbn [fst]; [by subst|]. split; [|by apply IH].
    apply Forall_forall. intros j [->|Hj]%insert_ids; [by apply id_neither|]. by eapply Forall_forall in Hf.
Qed.

Lemma insert_last i a l : Forall (fun j => id_lt j i) l.*1 -> id_insert i a l = l ++ [(i, a)].
Proof.
  induction l as [|[k b] l IH]; cbn [id_insert fmap list_fmap]; [done|]. intros [Hk Hl]%Forall_cons. cbn in Hk.
  destruct (id_ltb i k) eqn:E; [exfalso; id_order|]. case_bool_decide; [subst; exfalso; id_order|].
  cbn [app]. by rewrite IH.
Qed.

Lemma remove_filter i l : sorted l -> id_remove i l = List.filter (fun e => negb (bool_decide (e.1 = i))) l.
Proof.
  induction l as [|[k b] l IH]; cbn [id_remove List.filter fst]; [done|]. intros [Hf Hs]%sorted_cons.
  repeat case_bool_decide; try congruence; cbn [negb].
  - subst k. clear IH. cbn in Hf. induction l as [|[j c] l IHl]; [done|]. cbn in Hf. apply Forall_cons in Hf as [Hj Hf].
    cbn. case_bool_decide as E; [subst; by apply id_lt_irrefl in Hj|]. cbn. f_equal.
    apply sorted_cons in Hs as [_ Hs]. by apply IHl.
  - f_equal. by apply IH.
Qed.

Lemma filter_elem (p : StreamId * A -> bool) e l : e ∈ List.filter p l <-> p e = true /\ e ∈ l.
Proof. rewrite !list_elem_of_In, filter_In. tauto. Qed.

Lemma sorted_filter (p : StreamId * A -> bool) l : sorted l -> sorted (List.filter p l).
Proof.
  induction l as [|e l IH]; intros Hs; [done|]. apply sorted_cons in Hs as [Hf Hs]. cbn. destruct (p e); [|by apply IH].
  apply sorted_cons. split; [|by apply IH]. rewrite Forall_forall in *. intros j (x & -> & Hx)%list_elem_of_fmap.
  apply filter_elem in Hx as [_ Hx]. apply Hf, list_elem_of_fmap. by exists x.
Qed.

Lemma lookup_filter (p : StreamId * A -> bool) i l :
  sorted l -> id_lookup i (List.filter p l) = (a ← id_lookup i l; if p (i, a) then Some a else None).
Proof.
  intros Hs. destruct (id_lookup i l) as [a|] eqn:E; cbn.
  - apply lookup_elem in E. destruct (p (i, a)) eqn:Ep.
    + apply elem_lookup; [by apply sorted_filter|]. by apply filter_elem.
    + apply lookup_None. intros ((j & b) & Hj & Hb)%list_elem_of_fmap. cbn in Hj. subst j.
      apply filter_elem in Hb as [Hp Hb]. apply (elem_lookup _ _ _ Hs) in Hb. apply (elem_lookup _ _ _ Hs) in E. congruence.
  - apply lookup_None in E. apply lookup_None. intros (x & Hj & [_ Hb]%filter_elem)%list_elem_of_fmap. apply E.
    apply list_elem_of_fmap. by exists x.
Qed.

Lemma sorted_remove i l : sorted l -> sorted (id_remove i l).
Proof. intros H. rewrite remove_filter by done. by apply sorted_filter. Qed.

Lemma lookup_remove_id i j l : sorted l -> id_lookup j (id_remove i l) = if decide (j = i) then None else id_lookup j l.
Proof.
  intros Hs. rewrite remove_filter, lookup_filter by done. destruct (id_lookup j l); cbn; [|by case_decide].
  case_bool_decide; case_decide; done.
Qed.

Lemma sorted_NoDup l : sorted l -> NoDup l.*1.
Proof.
  induction l as [|e l IH]; intros Hs; [constructor|]. apply sorted_cons in Hs as [Hf Hs]. cbn. constructor; [|by apply IH].
  intros H. rewrite Forall_forall in Hf. by apply (id_lt_irrefl e.1), Hf.
Qed.

Lemma sorted_drop n l : sorted l -> sorted (drop n l).
Proof. revert l. induction n as [|n IH]; intros [|e l] Hs; try done. apply sorted_cons in Hs as [_ Hs]. by apply IH. Qed.

(** All identifiers of a list removed. *)
Lemma remove_all ids l :
  sorted l -> foldl (fun l i => id_remove i l) l ids = List.filter (fun e => negb (bool_decide (e.1 ∈ ids))) l.
Proof.
  revert l. induction ids as [|i ids IH]; intros l Hs; cbn [foldl].
  - clear Hs. induction l as [|e l IHl]; [done|]. cbn. rewrite bool_decide_eq_false_2 by apply not_elem_of_nil. cbn. by f_equal.
  - rewrite IH by (by apply sorted_remove). rewrite remove_filter by done. clear. induction l as [|e l IHl]; [done|]. cbn.
    destruct (decide (e.1 = i)) as [E|E].
    + rewrite (bool_decide_eq_true_2 (e.1 = i)) by done. rewrite (bool_decide_eq_true_2 (e.1 ∈ i :: ids)) by (rewrite E; by left). done.
    + rewrite (bool_decide_eq_false_2 (e.1 = i)) by done. cbn.
      rewrite (bool_decide_ext (e.1 ∈ i :: ids) (e.1 ∈ ids)) by (rewrite elem_of_cons; tauto).
      destruct (negb (bool_decide (e.1 ∈ ids))); [by f_equal|done].
Qed.

Lemma length_remove i l : id_lookup i l <> None -> S (length (id_remove i l)) = length l.
Proof.
  induction l as [|[k b] l IH]; cbn [id_lookup id_remove]; [done|]. case_bool_decide; [done|]. intros Hn. cbn. by rewrite <-IH.
Qed.

Lemma remove_absent i l : id_lookup i l = None -> id_remove i l = l.
Proof.
  induction l as [|[k b] l IH]; cbn [id_lookup id_remove]; [done|]. case_bool_decide; [done|]. intros Hn. by rewrite IH.
Qed.

End SortedMaps.

(** ** Lemmas: loops *)

Lemma read_loop_limit {A : Type} (count : option Z) (l : list A) : read_loop count [] l = limit count l.
Proof.
  assert (forall out, read_loop count out l =
    out ++ match count with Some c => take (Z.to_nat (Z.max 1 (c - zlen out))) l | None => l end) as H.
  { induction l as [|x l IH]; intros out; cbn [read_loop].
    - destruct count; by rewrite ?take_nil, app_nil_r.
    - destruct count as [c|]; [|by rewrite IH, <-(assoc_L (++))]. unfold zlen. rewrite length_app. cbn [length].
      rewrite Z.geb_leb. destruct (Z.leb_spec c (Z.of_nat (length out + 1))).
      + replace (Z.to_nat (Z.max 1 (c - Z.of_nat (length out)))) with 1%nat by lia. done.
      + rewrite IH. unfold zlen. rewrite length_app. cbn [length].
        replace (Z.to_nat (Z.max 1 (c - Z.of_nat (length out))))
          with (S (Z.to_nat (Z.max 1 (c - Z.of_nat (length out + 1))))) by lia.
        by rewrite <-(assoc_L (++)). }
  rewrite H. unfold limit, zlen. cbn. destruct count; [|done]. by rewrite Z.sub_0_r.
Qed.

Lemma trim_drop max l : 0 <= max -> (trim max l).2 = drop (length l - Z.to_nat max) l.
Proof.
  intros Hm. induction l as [|[i fs] l IH]; cbn [trim]; [by rewrite drop_nil|].
  rewrite Z.gtb_ltb. unfold zlen. destruct (Z.ltb_spec max (Z.of_nat (length ((i, fs) :: l)))); cbn [length] in *.
  - destruct (trim max l) as [freed l']. cbn [snd] in *. rewrite IH.
    replace (S (length l) - Z.to_nat max)%nat with (S (length l - Z.to_nat max)) by lia. done.
  - replace (S (length l) - Z.to_nat max)%nat with 0%nat by lia. done.
Qed.

(** What is left of a list without some identifiers. *)
Definition without {A : Type} (ids : list StreamId) (l : list (StreamId * A)) : list (StreamId * A) :=
  List.filter (fun e => negb (bool_decide (e.1 ∈ ids))) l.

Lemma xdel_loop ids l :
  sorted l ->
  let '(removed, _, l') := foldl xdel_one (0, 0, l) ids in l' = without ids l /\ removed = zlen l - zlen l'.
Proof.
  intros Hs. unfold without. rewrite <-remove_all by done.
  assert (forall n f, let '(removed, _, l') := foldl xdel_one (n, f, l) ids in
    l' = foldl (fun l i => id_remove i l) l ids /\ removed = n + zlen l - zlen l') as H.
  { revert l Hs. induction ids as [|i ids IH]; intros l Hs n f; cbn [foldl]; [split; [done|lia]|].
    unfold xdel_one at 2. destruct (id_lookup i l) as [fs|] eqn:E.
    - specialize (IH (id_remove i l) (sorted_remove i l Hs) (n + 1) (f + stream_entry_memory fs)).
      destruct (foldl xdel_one _ ids) as [[removed freed] l']. destruct IH as [-> ->]. split; [done|].
      pose proof (length_remove i l ltac:(congruence)) as Hl. unfold zlen. lia.
    - rewrite remove_absent by done. by apply IH. }
  specialize (H 0 0). destruct (foldl xdel_one _ ids) as [[removed freed] l']. destruct H as [-> ->]. split; [done|lia].
Qed.

(** ** Lemmas: owners of pending entries *)

(** An entry assigned to a consumer, its former owner forgetting it. *)
Definition reassign (consumer : bytes) (at_ n : Z) (g : ConsumerGroup) (i : StreamId) : ConsumerGroup :=
  mkGroup (g_last_delivered g)
    (match id_lookup i (g_pel g) with Some pe => forget i (p_consumer pe) (g_consumers g) | None => g_consumers g end)
    (id_insert i (mkPending consumer at_ n) (g_pel g)).

Lemma deliver_reassign c t g i : deliver_one c t g i = reassign c t 1 g i.
Proof. done. Qed.

Lemma claim_cons c t i n claims g :
  claim_all c t ((i, n) :: claims) g =
    if bool_decide (is_Some (id_lookup i (g_pel g))) then claim_all c t claims (reassign c t n g i)
    else (Err (disappeared i), g).
Proof.
  cbn [claim_all]. unfold reassign. destruct (id_lookup i (g_pel g)).
  - by rewrite bool_decide_eq_true_2 by (by eexists).
  - rewrite bool_decide_eq_false_2; [done|]. by intros [? ?].
Qed.

Lemma holds_forget i o g cs' c j :
  cs' = forget i o (g_consumers g) ->
  holds (mkGroup (g_last_delivered g) cs' (g_pel g)) c j <-> holds g c j /\ ~ (j = i /\ c = o).
Proof.
  intros ->. unfold holds, forget. cbn [g_consumers]. destruct (decide (c = o)) as [->|Hne].
  - rewrite lookup_alter_eq. split.
    + intros (con & (con0 & -> & Hc)%fmap_Some & Hj). subst con. cbn in Hj. apply elem_of_difference in Hj as [Hj Hn].
      rewrite elem_of_singleton in Hn. split; [by exists con0|tauto].
    + intros [(con & -> & Hj) Hn]. eexists. split; [done|]. cbn. apply elem_of_difference. rewrite elem_of_singleton. tauto.
  - rewrite lookup_alter_ne by done. split; [intros H; split; [done|tauto]|tauto].
Qed.

(** In the middle of handing over the entries [D]: they are the consumer's by the list, and nobody
    holds them. *)
Definition handing (D : StreamId -> Prop) (c : bytes) (g : ConsumerGroup) : Prop :=
  forall i, (D i -> owner g i = Some c /\ forall c', ~ holds g c' i) /\
            (~ D i -> forall c', owner g i = Some c' <-> holds g c' i).

Lemma handing_start c g : coherent g -> handing (fun _ => False) c g.
Proof. intros H i. split; [done|]. intros _ c'. apply H. Qed.

Lemma owner_insert c t n g cs i j :
  owner (mkGroup (g_last_delivered g) cs (id_insert i (mkPending c t n) (g_pel g))) j =
    if decide (j = i) then Some c else owner g j.
Proof. unfold owner. cbn [g_pel]. rewrite lookup_insert_id. by case_decide. Qed.

Lemma holds_pel g pel c i : holds (mkGroup (g_last_delivered g) (g_consumers g) pel) c i <-> holds g c i.
Proof. done. Qed.

Lemma handing_step (D : StreamId -> Prop) c t n g i :
  (forall j, D j \/ ~ D j) -> handing D c g -> handing (fun j => j = i \/ D j) c (reassign c t n g i).
Proof.
  intros Hdec H j. unfold reassign. rewrite owner_insert.
  set (cs := match id_lookup i (g_pel g) with Some pe => forget i (p_consumer pe) (g_consumers g) | None => g_consumers g end).
  assert (forall c', holds (mkGroup (g_last_delivered g) cs (id_insert i (mkPending c t n) (g_pel g))) c' j <->
    holds g c' j /\ j <> i) as Hh.
  { intros c'. change (holds (mkGroup (g_last_delivered g) cs (id_insert i (mkPending c t n) (g_pel g))) c' j)
      with (holds (mkGroup (g_last_delivered g) cs (g_pel g)) c' j).
    destruct (H i) as [H1 H2]. subst cs. unfold owner in *. destruct (id_lookup i (g_pel g)) as [pe|] eqn:E; cbn in H1, H2.
    - rewrite (holds_forget i (p_consumer pe) g _ c' j eq_refl). split; [|tauto].
      intros [Hj Hn]. split; [done|]. intros ->. destruct (Hdec i) as [Hd|Hd]; [by destruct (H1 Hd) as [_ Hx]; apply (Hx c')|].
      apply Hn. split; [done|]. apply (H2 Hd) in Hj. congruence.
    - change (holds (mkGroup (g_last_delivered g) (g_consumers g) (g_pel g)) c' j) with (holds g c' j).
      split; [|tauto]. intros Hj. split; [done|]. intros ->.
      destruct (Hdec i) as [Hd|Hd]; [by destruct (H1 Hd)|]. apply (H2 Hd) in Hj. done. }
  destruct (H j) as [H1 H2]. split.
  - intros [->|Hd]; [rewrite decide_True by done|].
    + split; [done|]. intros c' [_ ?]%Hh. done.
    + split; [case_decide; [done|by apply H1]|]. intros c' [Hx _]%Hh. by apply (proj2 (H1 Hd) c').
  - intros Hn c'. rewrite Hh. rewrite decide_False by tauto. rewrite (H2 ltac:(tauto) c'). tauto.
Qed.

Lemma receive_coherent (D : list StreamId) c t g :
  handing (fun j => j ∈ D) c g -> coherent (receive c D t g).
Proof.
  intros H i c'. unfold receive. change (owner (mkGroup _ _ (g_pel g)) i) with (owner g i).
  assert (holds (receive c D t g) c' i <-> holds g c' i \/ (c' = c /\ i ∈ D)) as Hh.
  { unfold holds, receive. cbn [g_consumers]. destruct (decide (c' = c)) as [->|Hne].
    - rewrite lookup_insert_eq. split.
      + intros (con & [= <-] & Hi). cbn in Hi. apply elem_of_union in Hi as [Hi|Hi%elem_of_list_to_set]; [|by right].
        left. destruct (g_consumers g !! c) as [con|] eqn:E; cbn in Hi; [by exists con|set_solver].
      + intros Hi. eexists. split; [done|]. cbn. rewrite elem_of_union, elem_of_list_to_set.
        destruct Hi as [(con & -> & Hi)|[_ Hi]]; [by left|by right].
    - rewrite lookup_insert_ne by done. split; [tauto|]. intros [Hi|[? _]]; [done|congruence]. }
  unfold receive in Hh. rewrite Hh. destruct (H i) as [H1 H2]. destruct (decide (i ∈ D)) as [Hd|Hd].
  - destruct (H1 Hd) as [-> Hx]. split; [intros [= <-]; by right|]. intros [Hy|[-> _]]; [by destruct (Hx c')|done].
  - rewrite (H2 Hd). split; [by left|]. intros [?|[_ ?]]; done.
Qed.

(** ** Lemmas: operations on a group *)

(** Entries assigned to a consumer, each with a delivery count. *)
Definition assigned (c : bytes) (t : Z) (l : list (StreamId * Z)) (pel : list (StreamId * PendingEntry))
    : list (StreamId * PendingEntry) :=
  foldl (fun pel p => id_insert p.1 (mkPending c t p.2) pel) pel l.

Definition reassign_all (c : bytes) (t : Z) (l : list (StreamId * Z)) (g : ConsumerGroup) : ConsumerGroup :=
  foldl (fun g p => reassign c t p.2 g p.1) g l.

Lemma deliver_all c t ids g : foldl (deliver_one c t) g ids = reassign_all c t ((fun i => (i, 1)) <$> ids) g.
Proof. revert g. induction ids as [|i ids IH]; intros g; [done|]. cbn [foldl]. apply IH. Qed.

Lemma seen_forget i o cs : c_seen <$> forget i o cs = c_seen <$> cs.
Proof.
  apply map_eq. intros c. unfold forget. rewrite !lookup_fmap. destruct (decide (c = o)) as [->|].
  - rewrite lookup_alter_eq. by destruct (cs !! o).
  - by rewrite lookup_alter_ne.
Qed.

Lemma abs_reassign c t n g i :
  abs_group (reassign c t n g i) =
    mkAGroup (g_last_delivered g) (c_seen <$> g_consumers g) (id_insert i (mkPending c t n) (g_pel g)).
Proof. unfold abs_group, reassign. cbn. f_equal. destruct (id_lookup i (g_pel g)); [apply seen_forget|done]. Qed.

Lemma abs_reassign_all c t l : forall g,
  abs_group (reassign_all c t l g) =
    mkAGroup (g_last_delivered g) (c_seen <$> g_consumers g) (assigned c t l (g_pel g)).
Proof.
  induction l as [|[i n] l IH]; intros g; [done|]. unfold reassign_all, assigned. cbn [foldl].
  change (foldl _ (reassign c t (i, n).2 g (i, n).1) l) with (reassign_all c t l (reassign c t n g i)).
  rewrite IH. change (c_seen <$> g_consumers ?x) with (a_seen (abs_group x)). by rewrite abs_reassign.
Qed.

Lemma assigned_sorted c t l : forall pel, sorted pel -> sorted (assigned c t l pel).
Proof. induction l as [|[i n] l IH]; intros pel H; [done|]. by apply IH, sorted_insert. Qed.

Lemma assigned_ids c t l : forall pel, Forall id_ok pel.*1 -> Forall id_ok l.*1 -> Forall id_ok (assigned c t l pel).*1.
Proof.
  induction l as [|[i n] l IH]; intros pel H Hl; [done|]. apply Forall_cons in Hl as [Hi Hl]. apply IH; [|done].
  apply Forall_forall. intros j [->|Hj]%insert_ids; [done|]. by eapply Forall_forall in H.
Qed.

Lemma handing_ext (D D' : StreamId -> Prop) c g : (forall j, D j <-> D' j) -> handing D c g -> handing D' c g.
Proof. intros E H i. destruct (H i) as [H1 H2]. rewrite <-(E i). done. Qed.

Lemma handing_all c t l : forall done g,
  handing (fun j => j ∈ done) c g -> handing (fun j => j ∈ done ++ l.*1) c (reassign_all c t l g).
Proof.
  induction l as [|[i n] l IH]; intros done g H; [cbn; by rewrite app_nil_r|]. unfold reassign_all. cbn [foldl fmap list_fmap fst snd].
  replace (done ++ i :: l.*1) with ((done ++ [i]) ++ l.*1) by (by rewrite <-(assoc_L (++))). apply IH.
  eapply handing_ext; [|apply (handing_step (fun j => j ∈ done)); [|done]].
  - intros j. cbn. rewrite elem_of_app, list_elem_of_singleton. tauto.
  - intros j. destruct (decide (j ∈ done)); [by left|by right].
Qed.

Lemma insert_counts i c t n (pel : list (StreamId * PendingEntry)) :
  count_ok n -> Forall count_ok (p_count <$> pel.*2) -> Forall count_ok (p_count <$> (id_insert i (mkPending c t n) pel).*2).
Proof.
  intros Hn. induction pel as [|[j pe] pel IH]; cbn [id_insert fmap list_fmap fst snd]; intros H; [by constructor|].
  destruct (id_ltb i j); [by constructor|]. apply Forall_cons in H as [Hp H]. case_bool_decide; cbn; constructor; auto.
Qed.

Lemma assigned_counts c t l : forall pel,
  Forall count_ok l.*2 -> Forall count_ok (p_count <$> pel.*2) -> Forall count_ok (p_count <$> (assigned c t l pel).*2).
Proof.
  induction l as [|[i n] l IH]; intros pel Hl H; [done|]. apply Forall_cons in Hl as [Hn Hl]. apply IH; [done|]. by apply insert_counts.
Qed.

Lemma filter_counts (p : StreamId * PendingEntry -> bool) pel :
  Forall count_ok (p_count <$> pel.*2) -> Forall count_ok (p_count <$> (List.filter p pel).*2).
Proof.
  induction pel as [|e pel IH]; [done|]. cbn. intros [He H]%Forall_cons. destruct (p e); cbn; [constructor; auto|auto].
Qed.

(** Entries handed to a consumer, by a delivery or a claim. *)
Lemma handed_over c t l g :
  group_ok g -> Forall id_ok l.*1 -> Forall count_ok l.*2 ->
  let g' := receive c l.*1 t (reassign_all c t l g) in
  group_ok g' /\ abs_group g' = mkAGroup (g_last_delivered g) (<[c := t]> (c_seen <$> g_consumers g)) (assigned c t l (g_pel g)).
Proof.
  intros [Hs Hi Hn Hl Hc] Hids Hcnt g'. pose proof (abs_reassign_all c t l g) as Ha.
  pose proof (f_equal a_last Ha) as H1. pose proof (f_equal a_seen Ha) as H2. pose proof (f_equal a_pel Ha) as H3. cbn in H1, H2, H3. clear Ha.
  assert (abs_group g' = mkAGroup (g_last_delivered g) (<[c := t]> (c_seen <$> g_consumers g)) (assigned c t l (g_pel g))) as Ha.
  { subst g'. unfold receive, abs_group. cbn [g_last_delivered g_consumers g_pel]. by rewrite fmap_insert, H1, H2, H3. }
  split; [|done]. split.
  - change (g_pel g') with (a_pel (abs_group g')). rewrite Ha. by apply assigned_sorted.
  - change (g_pel g') with (a_pel (abs_group g')). rewrite Ha. by apply assigned_ids.
  - change (g_pel g') with (a_pel (abs_group g')). rewrite Ha. by apply assigned_counts.
  - change (g_last_delivered g') with (a_last (abs_group g')). by rewrite Ha.
  - apply receive_coherent. apply (handing_all c t l []). eapply handing_ext; [|by apply handing_start].
    intros j. split; [done|by intros ?%not_elem_of_nil].
Qed.

Lemma group_ok_last g i : group_ok g -> id_ok i -> group_ok (mkGroup i (g_consumers g) (g_pel g)).
Proof. intros [Hs Hi Hn Hl Hc] H. by split. Qed.

Lemma claims_succeed c t l : forall g,
  Forall (fun i => i ∈ (g_pel g).*1) l.*1 -> claim_all c t l g = (Ok tt, reassign_all c t l g).
Proof.
  induction l as [|[i n] l IH]; intros g H; [done|]. cbn [fmap list_fmap fst] in H. apply Forall_cons in H as [Hi Hl].
  rewrite claim_cons, bool_decide_eq_true_2.
  - apply IH. eapply Forall_impl; [exact Hl|]. intros j Hj. unfold reassign. cbn [g_pel]. apply insert_ids. by right.
  - destruct (id_lookup i (g_pel g)) eqn:E; [by eexists|]. by apply lookup_None in E.
Qed.

(** Acknowledging. *)
Lemma xack_one_ok n g i :
  group_ok g ->
  let '(n', g') := xack_one (n, g) i in
  group_ok g' /\ abs_group g' = mkAGroup (g_last_delivered g) (c_seen <$> g_consumers g) (id_remove i (g_pel g)) /\
  n' = n + zlen (g_pel g) - zlen (g_pel g').
Proof.
  intros Hg. pose proof Hg as [Hs Hi Hn Hl Hc]. unfold xack_one. destruct (id_lookup i (g_pel g)) as [pe|] eqn:E.
  2: { split; [done|]. rewrite remove_absent by done. split; [done|lia]. }
  split; [|split].
  - split; cbn [g_pel g_last_delivered].
    + by apply sorted_remove.
    + rewrite remove_filter by done. rewrite Forall_forall in *. intros j (x & -> & [_ Hx]%filter_elem)%list_elem_of_fmap.
      apply Hi, list_elem_of_fmap. by exists x.
    + rewrite remove_filter by done. by apply filter_counts.
    + done.
    + intros j c. rewrite (holds_pel (mkGroup (g_last_delivered g) (forget i (p_consumer pe) (g_consumers g)) (g_pel g))
        (id_remove i (g_pel g)) c j).
      rewrite (holds_forget i (p_consumer pe) g _ c j eq_refl). rewrite <-(Hc j c). unfold owner. cbn [g_pel].
      rewrite lookup_remove_id by done. case_decide as Ej; [subst j; rewrite E; cbn; split; [done|]|tauto].
      intros [[= <-] Hno]. tauto.
  - unfold abs_group. cbn. f_equal. apply seen_forget.
  - cbn [g_pel]. pose proof (length_remove i (g_pel g) ltac:(congruence)). unfold zlen. lia.
Qed.

Lemma xack_loop ids : forall n g,
  group_ok g ->
  let '(n', g') := foldl xack_one (n, g) ids in
  group_ok g' /\
  abs_group g' = mkAGroup (g_last_delivered g) (c_seen <$> g_consumers g) (without ids (g_pel g)) /\
  n' = n + zlen (g_pel g) - zlen (g_pel g').
Proof.
  induction ids as [|i ids IH]; intros n g Hg; cbn [foldl].
  - split; [done|]. split; [|lia]. unfold without. by rewrite <-(remove_all [] (g_pel g)) by apply Hg.
  - pose proof (xack_one_ok n g i Hg) as H1. destruct (xack_one (n, g) i) as [n1 g1]. destruct H1 as (Hg1 & Ha & ->).
    specialize (IH (n + zlen (g_pel g) - zlen (g_pel g1)) g1 Hg1). destruct (foldl xack_one _ ids) as [n' g'].
    destruct IH as (Hg' & Ha' & ->). split; [done|]. split; [|lia].
    pose proof (f_equal a_last Ha) as H1. pose proof (f_equal a_seen Ha) as H2. pose proof (f_equal a_pel Ha) as H3. cbn in H1, H2, H3.
    rewrite Ha', H1, H2, H3. f_equal. unfold without. rewrite <-!remove_all; [done|apply Hg|apply sorted_remove, Hg].
Qed.

(** Removing a consumer. *)
Definition owned_by (c : bytes) (e : StreamId * PendingEntry) : bool := bytes_eqb (p_consumer e.2) c.

Lemma owner_elem g e : group_ok g -> e ∈ g_pel g -> owner g e.1 = Some (p_consumer e.2).
Proof. intros [Hs _ _ _ _] He. unfold owner. destruct e as [i pe]. cbn [fst]. by rewrite (elem_lookup i pe _ Hs He). Qed.

Lemma filter_ext_elem {A : Type} (p q : A -> bool) l : (forall x, x ∈ l -> p x = q x) -> List.filter p l = List.filter q l.
Proof. intros H. apply filter_ext_in. intros x Hx. apply H. by apply list_elem_of_In. Qed.

Lemma held_set g c con :
  group_ok g -> g_consumers g !! c = Some con ->
  c_pel con = list_to_set (List.filter (owned_by c) (g_pel g)).*1.
Proof.
  intros Hg E. pose proof (go_coherent g Hg) as Hc. apply set_eq. intros i. rewrite elem_of_list_to_set, list_elem_of_fmap. split.
  - intros Hi. assert (owner g i = Some c) as Ho by (apply Hc; by exists con). unfold owner in Ho.
    apply fmap_Some in Ho as (pe & Hl & ->). exists (i, pe). split; [done|]. apply filter_elem. split; [by apply bytes_eqb_refl|].
    by apply lookup_elem.
  - intros (e & -> & [Hp He]%filter_elem). apply bool_decide_eq_true in Hp.
    assert (holds g c e.1) as (con' & E' & Hi) by (apply Hc; rewrite (owner_elem g e Hg He); by f_equal). congruence.
Qed.

Lemma delconsumer_ok g c con :
  group_ok g -> g_consumers g !! c = Some con ->
  let g' := mkGroup (g_last_delivered g) (delete c (g_consumers g)) (foldl (fun l i => id_remove i l) (g_pel g) (elements (c_pel con))) in
  group_ok g' /\ g_pel g' = List.filter (fun e => negb (owned_by c e)) (g_pel g) /\
  Z.of_nat (size (c_pel con)) = zlen (List.filter (owned_by c) (g_pel g)).
Proof.
  intros Hg E g'. pose proof Hg as [Hs Hi Hn Hl Hc]. pose proof (held_set g c con Hg E) as Hset.
  assert (g_pel g' = List.filter (fun e => negb (owned_by c e)) (g_pel g)) as Hpel.
  { subst g'. cbn [g_pel]. rewrite remove_all by done. apply filter_ext_elem. intros e He. f_equal. unfold owned_by, bytes_eqb.
    apply bool_decide_ext. rewrite elem_of_elements. rewrite <-(inj_iff Some (p_consumer e.2) c), <-(owner_elem g e Hg He), (Hc e.1 c).
    unfold holds. rewrite E. split; [intros H; by exists con|]. by intros (con' & [= <-] & H). }
  split; [|split; [done|]].
  - split.
    + rewrite Hpel. by apply sorted_filter.
    + rewrite Hpel. rewrite Forall_forall in *. intros j (x & -> & [_ Hx]%filter_elem)%list_elem_of_fmap.
      apply Hi, list_elem_of_fmap. by exists x.
    + rewrite Hpel. by apply filter_counts.
    + done.
    + intros j c'. unfold owner. rewrite Hpel, lookup_filter by done.
      assert (holds g' c' j <-> holds g c' j /\ c' <> c) as ->.
      { unfold holds, g'. cbn [g_consumers]. destruct (decide (c' = c)) as [->|].
        - rewrite lookup_delete_eq. split; [by intros (? & ? & _)|tauto].
        - rewrite lookup_delete_ne by done. tauto. }
      rewrite <-(Hc j c'). unfold owner. destruct (id_lookup j (g_pel g)) as [pe|]; cbn; [|split; [done|by intros [? _]]].
      unfold owned_by, bytes_eqb. cbn. case_bool_decide; cbn; split; intros H'; try done; intuition congruence.
  - rewrite Hset. rewrite size_list_to_set by (apply sorted_NoDup, sorted_filter; done). by rewrite length_fmap.
Qed.

(** ** The commands and their contract *)

Inductive xcmd :=
| XAdd (k id : bytes) (fs : fields_t) (maxlen : option Z)
| XLen (k : bytes)
| XRange (k : bytes) (start finish : StreamId) (count : option Z)
| XRevRange (k : bytes) (finish start : StreamId) (count : option Z)
| XRead (ks : list bytes) (ids : list StreamId) (count : option Z)
| XDel (k : bytes) (ids : list StreamId)
| XTrim (k : bytes) (maxlen : Z)
| XGroupCreate (k g id : bytes) (mkstream : bool)
| XGroupDestroy (k g : bytes)
| XGroupSetId (k g id : bytes)
| XCreateConsumer (k g c : bytes)
| XDelConsumer (k g c : bytes)
| XReadGroup (g c : bytes) (ks ids : list bytes) (count : option Z) (noack : bool)
| XAck (k g : bytes) (ids : list StreamId)
| XClaim (k g c : bytes) (min_idle_ms : Z) (ids : list StreamId)
| XAutoClaim (k g c : bytes) (min_idle_ms : Z) (start : StreamId) (count : option Z).

Inductive xreply :=
| XErr (e : string)
| XNil
| XInt (z : Z)
| XBool (b : bool)
| XId (i : StreamId)
| XEntries (l : StreamEntries)
| XStreams (l : list (bytes * StreamEntries))
| XAuto (next : StreamId) (l : StreamEntries) (deleted : list StreamId)
| XPanic.

Definition xreply_of {R : Type} (f : R -> xreply) (r : result R) : xreply :=
  match r with Ok a => f a | Err e => XErr e end.

Section Contract.

Context (hll_count : bytes -> Z) (clock epoch_ms inst_now : Z).
Context (is_encrypted_value : bytes -> bool) (decrypt : bytes -> bytes -> bytes -> result bytes).

Local Abbreviation show := (shown is_encrypted_value decrypt).

(** A prepared command whose journal records are accepted. *)
Definition prepared_then {P T : Type} (o : result (list (list bytes) * P) * Store) (apply : P -> Store -> result T * Store)
    : result T * Store :=
  match o with (Ok (_, plan), s) => apply plan s | (Err e, s) => (Err e, s) end.

Definition outcome_reply (o : outcome (result StreamEntries)) : xreply :=
  match o with Returned r => xreply_of XEntries r | Panicked => XPanic end.

Definition xexec (now : Z) (c : xcmd) (s : Store) : xreply * Store :=
  match c with
  | XAdd k id fs maxlen => let '(r, s) := xadd epoch_ms k id fs maxlen now s in (xreply_of XId r, s)
  | XLen k => (xreply_of XInt (xlen k now s), s)
  | XRange k a b count => (outcome_reply (xrange is_encrypted_value decrypt k a b count now s), s)
  | XRevRange k b a count => (outcome_reply (xrevrange is_encrypted_value decrypt k b a count now s), s)
  | XRead ks ids count =>
      let '(r, s) := xread hll_count clock is_encrypted_value decrypt ks ids count now s in (xreply_of XStreams r, s)
  | XDel k ids => let '(r, s) := xdel k ids now s in (xreply_of XInt r, s)
  | XTrim k n => let '(r, s) := xtrim k n now s in (xreply_of XInt r, s)
  | XGroupCreate k g id mk => let '(r, s) := xgroup_create k g id mk now s in (xreply_of (fun _ => XNil) r, s)
  | XGroupDestroy k g => let '(r, s) := xgroup_destroy k g now s in (xreply_of XBool r, s)
  | XGroupSetId k g id => let '(r, s) := xgroup_setid k g id now s in (xreply_of (fun _ => XNil) r, s)
  | XCreateConsumer k g c => let '(r, s) := xgroup_createconsumer k g c now s in (xreply_of XBool r, s)
  | XDelConsumer k g c => let '(r, s) := xgroup_delconsumer k g c now s in (xreply_of XInt r, s)
  | XReadGroup g c ks ids count noack =>
      let '(r, s) := prepared_then (read_prepare hll_count clock is_encrypted_value decrypt g c ks ids count noack now s)
                       (read_apply inst_now now) in (xreply_of XStreams r, s)
  | XAck k g ids => let '(r, s) := xack k g ids now s in (xreply_of XInt r, s)
  | XClaim k g c idle ids =>
      let '(r, s) := prepared_then (claim_prepare is_encrypted_value decrypt k g c idle ids inst_now now s)
                       (claim_apply k g c inst_now now) in (xreply_of XEntries r, s)
  | XAutoClaim k g c idle start count =>
      let '(r, s) := prepared_then (autoclaim_prepare is_encrypted_value decrypt k g c idle start count inst_now now s)
                       (autoclaim_apply k g c inst_now now) in
      (xreply_of (fun p => XAuto p.1.1 p.1.2 p.2) r, s)
  end.

(** The keyspace as a client of streams sees it. *)
Inductive sslot :=
| SAbsent
| SStream (a : astream) (exp : option Z)
| SOther (v : StoreValue) (exp : option Z).

Local Abbreviation space := (bytes -> sslot).

Definition supd (k : bytes) (x : sslot) (A : space) : space := fun k' => if decide (k' = k) then x else A k'.

(** *** What the operations do *)

(** The identifier XADD asks for. *)
Definition requested (top : StreamId) (input : bytes) : result StreamId :=
  if bytes_eqb input (bs "*") then Ok (if epoch_ms >? ms top then mkId epoch_ms 0 else next_id top)
  else match split_dash input with
       | (m, None) => match parse_u64 m with Some m => Ok (mkId m 0) | None => Err INVALID_ID end
       | (m, Some q) =>
           match parse_u64 m with
           | None => Err INVALID_ID
           | Some m => if bytes_eqb q (bs "*") then Ok (if m =? ms top then next_id (mkId m (seqn top)) else mkId m 0)
                       else match parse_u64 q with Some q => Ok (mkId m q) | None => Err INVALID_ID end
           end
       end.

(** It must be above the top; an empty new stream also takes 0-0. *)
Definition admitted (a : astream) (i : StreamId) : bool :=
  id_ltb (a_top a) i || bool_decide (i = id_zero /\ a_top a = id_zero /\ a_entries a = []).

Definition keep_last (maxlen : option Z) (l : StreamEntries) : StreamEntries :=
  match maxlen with Some n => drop (length l - Z.to_nat n) l | None => l end.

Definition aset_group (name : bytes) (g : agroup) (a : astream) : astream :=
  mkAStream (a_entries a) (a_top a) (<[name := g]> (a_groups a)).

Definition agroup_id (id : bytes) (a : astream) : option StreamId :=
  if bytes_eqb id (bs "$") then Some (a_top a) else id_parse id.

(** Entries given to a consumer. *)
Definition agive (c : bytes) (l : list (StreamId * Z)) (g : agroup) : agroup :=
  mkAGroup (a_last g) (<[c := inst_now]> (a_seen g)) (assigned c inst_now l (a_pel g)).

Definition aeffect_group (now : Z) (e : StreamGroupReadEffect) (g : agroup) : agroup :=
  match e with
  | Deliver _ _ None last _ => mkAGroup last (a_seen g) (a_pel g)
  | Deliver _ _ (Some c) last ids => agive c ((fun i => (i, 1)) <$> ids) (mkAGroup last (a_seen g) (a_pel g))
  | CreateConsumer _ _ c => match a_seen g !! c with
                            | Some _ => g
                            | None => mkAGroup (a_last g) (<[c := now]> (a_seen g)) (a_pel g)
                            end
  end.

Definition effect_key (e : StreamGroupReadEffect) : bytes :=
  match e with Deliver k _ _ _ _ | CreateConsumer k _ _ => k end.
Definition effect_group (e : StreamGroupReadEffect) : bytes :=
  match e with Deliver _ g _ _ _ | CreateConsumer _ g _ => g end.

Definition aeffect (now : Z) (A : space) (e : StreamGroupReadEffect) : space :=
  match A (effect_key e) with
  | SStream a exp =>
      match a_groups a !! effect_group e with
      | Some g => supd (effect_key e) (SStream (aset_group (effect_group e) (aeffect_group now e g) a) exp) A
      | None => A
      end
  | _ => A
  end.

(** The pending entries of a consumer after an identifier that are still in the stream. *)
Definition ahistory (key c : bytes) (after_id : StreamId) (count : option Z) (g : agroup) (a : astream) : StreamEntries :=
  limit count (omap (fun e => (fun fs => show key (e.1, fs)) <$> id_lookup e.1 (a_entries a))
    (List.filter (fun e => owned_by c e && id_ltb after_id e.1) (a_pel g))).

(** XREADGROUP on one stream: the answer and the effects. *)
Definition aread (group c key id_str : bytes) (count : option Z) (noack : bool) (g : agroup) (a : astream)
    : list (bytes * StreamEntries) * list StreamGroupReadEffect :=
  if bytes_eqb id_str (bs ">") then
    let entries := limit count (show key <$> range_from (next_id (a_last g)) (a_entries a)) in
    match list.last entries with
    | Some (last, _) =>
        ([(key, entries)],
         [Deliver key group (if noack then None else Some c) last (if noack then [] else entries.*1)])
    | None => ([], [])
    end
  else
    ([(key, ahistory key c (default id_zero (id_parse id_str)) count g a)],
     if bool_decide (is_Some (a_seen g !! c)) then [] else [CreateConsumer key group c]).

Fixpoint areads (group c : bytes) (keys : list (bytes * bytes)) (count : option Z) (noack : bool) (A : space)
    : result (list (bytes * StreamEntries) * list StreamGroupReadEffect) :=
  match keys with
  | [] => Ok ([], [])
  | (key, id_str) :: keys =>
      match A key with
      | SStream a _ =>
          match a_groups a !! group with
          | None => Err (nogroup_err group key)
          | Some g => match areads group c keys count noack A with
                      | Err e => Err e
                      | Ok (res, effs) => let '(r, e) := aread group c key id_str count noack g a in Ok (r ++ res, e ++ effs)
                      end
          end
      | _ => areads group c keys count noack A
      end
  end.

(** Pending entries selected for a claim: the claims, the entries found and those that are gone. *)
Definition idle_enough (min_idle_ms : Z) (l : list (StreamId * PendingEntry)) : list (StreamId * PendingEntry) :=
  List.filter (fun e => claimable inst_now min_idle_ms e.2) l.
Definition claims_of (l : list (StreamId * PendingEntry)) : list (StreamId * Z) :=
  (fun e => (e.1, saturating_succ (p_count e.2))) <$> l.
Definition found (key : bytes) (a : astream) (l : list (StreamId * PendingEntry)) : StreamEntries :=
  omap (fun e => (fun fs => show key (e.1, fs)) <$> id_lookup e.1 (a_entries a)) l.
Definition gone (a : astream) (l : list (StreamId * PendingEntry)) : list StreamId :=
  (List.filter (fun e => bool_decide (id_lookup e.1 (a_entries a) = None)) l).*1.

Definition aclaim (k g c : bytes) (claims : list (StreamId * Z)) (ag : agroup) (a : astream) (exp : option Z) (A : space)
    : space :=
  match claims with [] => A | _ => supd k (SStream (aset_group g (agive c claims ag) a) exp) A end.

(** *** The contract *)

Definition xspec (now : Z) (c : xcmd) (A : space) (r : xreply) (A' : space) : Prop :=
  let same (B : space) := forall k, A' k = B k in
  let reads (P : Prop) := same A /\ P in
  let on k missing (P : astream -> option Z -> Prop) :=
    match A k with
    | SAbsent => same A /\ r = missing
    | SOther _ _ => same A /\ r = XErr WRONGTYPE
    | SStream a exp => P a exp
    end in
  let group k g missing (P : agroup -> astream -> option Z -> Prop) :=
    on k missing (fun a exp => match a_groups a !! g with
                               | None => same A /\ r = XErr (nogroup_err g k)
                               | Some ag => P ag a exp
                               end) in
  let writes k exp a := same (supd k (SStream a exp) A) in
  match c with
  | XAdd k id fs maxlen =>
      match A k with
      | SOther _ _ => same A /\ r = XErr WRONGTYPE
      | x =>
          let '(a, exp) := match x with SStream a exp => (a, exp) | _ => (aempty, None) end in
          match requested (a_top a) id with
          | Err e => writes k exp a /\ r = XErr e
          | Ok i =>
              if admitted a i
              then writes k exp (mkAStream (keep_last maxlen (a_entries a ++ [(i, fs)])) i (a_groups a)) /\ r = XId i
              else writes k exp a /\ r = XErr SMALLER_ID
          end
      end
  | XLen k => on k (XInt 0) (fun a _ => reads (r = XInt (zlen (a_entries a))))
  | XRange k lo hi count => on k (XEntries []) (fun a _ => reads (r =
      if id_ltb hi lo then XPanic
      else XEntries (limit count (show k <$> List.filter (fun e => id_leb lo e.1 && id_leb e.1 hi) (a_entries a)))))
  | XRevRange k hi lo count => on k (XEntries []) (fun a _ => reads (r =
      if id_ltb hi lo then XPanic
      else XEntries (limit count (show k <$> rev (List.filter (fun e => id_leb lo e.1 && id_leb e.1 hi) (a_entries a))))))
  | XRead ks ids count => reads (r = XStreams (omap (fun p =>
      match A p.1 with
      | SStream a _ => let l := limit count (show p.1 <$> range_from (next_id p.2) (a_entries a)) in
                       if bool_decide (l = []) then None else Some (p.1, l)
      | _ => None
      end) (zip ks ids)))
  | XDel k ids => on k (XInt 0) (fun a exp =>
      let l := without ids (a_entries a) in
      writes k exp (mkAStream l (a_top a) (a_groups a)) /\ r = XInt (zlen (a_entries a) - zlen l))
  | XTrim k n => on k (XInt 0) (fun a exp =>
      let l := keep_last (Some n) (a_entries a) in
      writes k exp (mkAStream l (a_top a) (a_groups a)) /\ r = XInt (zlen (a_entries a) - zlen l))
  | XGroupCreate k g id mk =>
      match A k with
      | SOther _ _ => same A /\ r = XErr WRONGTYPE
      | SAbsent =>
          if mk then writes k None (aset_group g (mkAGroup (default id_zero (agroup_id id aempty)) ∅ []) aempty) /\ r = XNil
          else same A /\ r = XErr REQUIRES_KEY
      | SStream a exp =>
          if bool_decide (is_Some (a_groups a !! g)) then same A /\ r = XErr BUSYGROUP
          else writes k exp (aset_group g (mkAGroup (default id_zero (agroup_id id a)) ∅ []) a) /\ r = XNil
      end
  | XGroupDestroy k g => on k (XBool false) (fun a exp =>
      writes k exp (mkAStream (a_entries a) (a_top a) (delete g (a_groups a))) /\
      r = XBool (bool_decide (is_Some (a_groups a !! g))))
  | XGroupSetId k g id => group k g (XErr NO_SUCH_KEY) (fun ag a exp =>
      match agroup_id id a with
      | Some i => writes k exp (aset_group g (mkAGroup i (a_seen ag) (a_pel ag)) a) /\ r = XNil
      | None => same A /\ r = XErr "ERR Invalid stream ID"
      end)
  | XCreateConsumer k g c => group k g (XErr (nogroup_err g k)) (fun ag a exp =>
      match a_seen ag !! c with
      | Some _ => same A /\ r = XBool false
      | None => writes k exp (aset_group g (mkAGroup (a_last ag) (<[c := now]> (a_seen ag)) (a_pel ag)) a) /\ r = XBool true
      end)
  | XDelConsumer k g c => group k g (XErr (nogroup_err g k)) (fun ag a exp =>
      writes k exp (aset_group g (mkAGroup (a_last ag) (delete c (a_seen ag))
                                   (List.filter (fun e => negb (owned_by c e)) (a_pel ag))) a) /\
      r = XInt (zlen (List.filter (owned_by c) (a_pel ag))))
  | XReadGroup g c ks ids count noack =>
      match areads g c (zip ks ids) count noack A with
      | Err e => same A /\ r = XErr e
      | Ok (res, effs) => same (foldl (aeffect now) A effs) /\ r = XStreams res
      end
  | XAck k g ids => on k (XInt 0) (fun a exp =>
      match a_groups a !! g with
      | None => same A /\ r = XInt 0
      | Some ag =>
          let l := without ids (a_pel ag) in
          writes k exp (aset_group g (mkAGroup (a_last ag) (a_seen ag) l) a) /\ r = XInt (zlen (a_pel ag) - zlen l)
      end)
  | XClaim k g c idle ids => group k g (XEntries []) (fun ag a exp =>
      let l := idle_enough idle (omap (fun i => pair i <$> id_lookup i (a_pel ag)) ids) in
      same (aclaim k g c (claims_of l) ag a exp A) /\ r = XEntries (found k a l))
  | XAutoClaim k g c idle start count => group k g (XErr (nogroup_err g k)) (fun ag a exp =>
      exists l1 l2, range_from start (a_pel ag) = l1 ++ l2 /\
        let l := idle_enough idle l1 in
        let max := default 100 count in
        (zlen (found k a l) <= Z.max 0 max) /\
        (l2 <> [] -> max <= zlen (found k a l)) /\
        same (aclaim k g c (claims_of l) ag a exp A) /\
        r = XAuto (match l2 with (i, _) :: _ => i | [] => id_zero end) (found k a l) (gone a l))
  end.

(** How the store holds this. *)
Definition slot_at (now : Z) (o : option Entry) : sslot :=
  match o with
  | Some e => if is_expired_at now e then SAbsent
              else match value e with
                   | VStream st => SStream (abs_stream st) (expires_at e)
                   | v => SOther v (expires_at e)
                   end
  | None => SAbsent
  end.

Record streams_ok (now : Z) (s : Store) (A : space) : Prop := {
  to_hot : hot s;
  to_slots : forall k, A k = slot_at now (find s k);
  to_wf : forall k e st, find s k = Some e -> value e = VStream st -> stream_ok st
}.

(** ** Lemmas: the keyspace of streams *)

Lemma tok_same now s s' A :
  streams_ok now s A -> hot s' -> (forall k, find s' k = find s k) -> streams_ok now s' A.
Proof using.
  intros [Hh Hs Hw] Hh' E. split; [done|..].
  - intros k. by rewrite Hs, E.
  - intros k e h. rewrite E. apply Hw.
Qed.

Lemma tok_ext now s A B : streams_ok now s A -> (forall k, B k = A k) -> streams_ok now s B.
Proof using. intros [Hh Hs Hw] E. split; [done| |done]. intros k. by rewrite E. Qed.

Lemma tok_bump now key s A : streams_ok now s A -> streams_ok now (bump key s) A.
Proof using. intros H. eapply tok_same; [done|apply hot_bump, H|]. intros k. by rewrite find_bump. Qed.

Lemma tok_charge now key n s A : streams_ok now s A -> streams_ok now (charge key n s) A.
Proof using.
  intros H. pose proof (to_hot _ _ _ H) as [Hn Hd]. eapply tok_same; [done| |].
  - split; [by apply nonempty_shard_mem_add|done].
  - intros k. unfold charge. by rewrite find_mem_add, find_shard_mem_add.
Qed.

Lemma tok_refund now key n s A : streams_ok now s A -> streams_ok now (refund key n s) A.
Proof using.
  intros H. pose proof (to_hot _ _ _ H) as [Hn Hd]. eapply tok_same; [done| |].
  - split; [by apply nonempty_shard_mem_sub|done].
  - intros k. unfold refund. by rewrite find_mem_sub, find_shard_mem_sub.
Qed.

Lemma tok_adjust now key n s A : streams_ok now s A -> streams_ok now (adjust key n s) A.
Proof using. intros H. unfold adjust. destruct (n >? 0); [by apply tok_charge|]. destruct (n <? 0); [by apply tok_refund|done]. Qed.

Lemma tok_key_added now s A : streams_ok now s A -> streams_ok now (key_added s) A.
Proof using. intros H. eapply tok_same; [done|exact (to_hot _ _ _ H)|]. intros k. apply find_key_added. Qed.

Lemma tok_put now key exp lru st s A :
  streams_ok now s A -> is_expired_at now (mkEntry (VStream st) exp lru) = false -> stream_ok st ->
  streams_ok now (put_data key (mkEntry (VStream st) exp lru) s) (supd key (SStream (abs_stream st) exp) A).
Proof using.
  intros [Hh Hs Hw] He Hst. split; [by apply hot_put_data|..].
  - intros k. unfold supd. rewrite find_put_data by apply Hh. destruct (decide (k = key)); [|done].
    cbn [slot_at]. by rewrite He.
  - intros k e' h'. rewrite find_put_data by apply Hh. destruct (decide (k = key)); [|apply Hw].
    by intros [= <-] [= <-].
Qed.

Lemma supd_self k x A k' : A k = x -> supd k x A k' = A k'.
Proof using. intros <-. unfold supd. by destruct (decide (k' = k)) as [->|]. Qed.

Lemma supd_supd k x y A k' : supd k x (supd k y A) k' = supd k x A k'.
Proof using. unfold supd. by destruct (decide (k' = k)). Qed.

Lemma supd_eq k x A : supd k x A k = x.
Proof using. unfold supd. by rewrite decide_True. Qed.

(** What a key holds. *)
Lemma stream_cases now s A k :
  streams_ok now s A ->
  (view_stream k now s = Ok None /\ A k = SAbsent) \/
  (exists e st, find s k = Some e /\ is_expired_at now e = false /\ value e = VStream st /\
     view_stream k now s = Ok (Some (e, st)) /\ A k = SStream (abs_stream st) (expires_at e) /\ stream_ok st) \/
  (exists v exp, view_stream k now s = Err WRONGTYPE /\ A k = SOther v exp).
Proof using.
  intros [Hh Hs Hw]. specialize (Hs k). unfold view_stream. destruct (find s k) as [e|] eqn:E; [|by left].
  cbn [slot_at] in Hs. destruct (is_expired_at now e) eqn:Ee; [by left|].
  destruct (value e) as [| | | | | |st| | |] eqn:Ev; try (right; right; by eexists _, _).
  right; left. exists e, st. split_and!; try done. by apply (Hw k e).
Qed.

Lemma put_ok now k e st' s A :
  streams_ok now s A -> is_expired_at now e = false -> stream_ok st' ->
  streams_ok now (put_stream k e st' s) (supd k (SStream (abs_stream st') (expires_at e)) A).
Proof using. intros Hok He Hst. unfold put_stream. by apply tok_put. Qed.

(** A change of one stream. *)
Lemma writing_at {R : Type} now key missing (f : StreamData -> result R * StreamData) s A :
  streams_ok now s A ->
  (forall st exp, A key = SStream (abs_stream st) exp -> stream_ok st -> stream_ok (f st).2) ->
  let '(r, s') := writing key now missing f s in
  match A key with
  | SAbsent => r = missing /\ streams_ok now s' A
  | SOther _ _ => r = Err WRONGTYPE /\ streams_ok now s' A
  | SStream a exp => exists st, a = abs_stream st /\ stream_ok st /\ r = (f st).1 /\
                       streams_ok now s' (supd key (SStream (abs_stream (f st).2) exp) A)
  end.
Proof using.
  intros Hok Hf. unfold writing. pose proof (tok_bump now key s A Hok) as Hb.
  destruct (stream_cases now _ A key Hb) as [(-> & ->)|[(e & st & Ef & Ee & Ev & -> & EA & Hst)|(v & exp & -> & ->)]];
    [done| |done].
  specialize (Hf st _ EA Hst). rewrite EA. destruct (f st) as [r st'] eqn:E. exists st. rewrite E. split_and!; try done. by apply put_ok.
Qed.

Lemma writing_ok {R : Type} now key missing (f : StreamData -> result R * StreamData) s A :
  streams_ok now s A -> (forall st, stream_ok st -> stream_ok (f st).2) ->
  let '(r, s') := writing key now missing f s in
  match A key with
  | SAbsent => r = missing /\ streams_ok now s' A
  | SOther _ _ => r = Err WRONGTYPE /\ streams_ok now s' A
  | SStream a exp => exists st, a = abs_stream st /\ stream_ok st /\ r = (f st).1 /\
                       streams_ok now s' (supd key (SStream (abs_stream (f st).2) exp) A)
  end.
Proof using. intros Hok Hf. apply writing_at; [done|]. intros st exp _. apply Hf. Qed.

Lemma stream_ok_group n g st : stream_ok st -> group_ok g -> stream_ok (set_group n g st).
Proof using.
  intros [H1 H2 H3 H4 H5] Hg. split; try done. intros n' g'. cbn. destruct (decide (n' = n)) as [->|].
  - rewrite lookup_insert_eq. by intros [= <-].
  - rewrite lookup_insert_ne by done. apply H5.
Qed.

Lemma abs_set_group n g st : abs_stream (set_group n g st) = aset_group n (abs_group g) (abs_stream st).
Proof using. unfold abs_stream, set_group, aset_group. cbn. by rewrite fmap_insert. Qed.

Lemma abs_group_lookup n st : a_groups (abs_stream st) !! n = abs_group <$> s_groups st !! n.
Proof using. cbn. apply lookup_fmap. Qed.

Lemma in_group_ok {R : Type} n key (f : ConsumerGroup -> result R * ConsumerGroup) st :
  stream_ok st -> (forall g, s_groups st !! n = Some g -> group_ok g -> group_ok (f g).2) -> stream_ok (in_group n key f st).2.
Proof using.
  intros Hst Hf. unfold in_group. destruct (s_groups st !! n) as [g|] eqn:E; [|done].
  pose proof (Hf g eq_refl (so_groups st Hst n g E)) as H. destruct (f g) as [r g']. by apply stream_ok_group.
Qed.

(** A change of one group. *)
Lemma in_group_at {R : Type} now key n missing (f : StreamData -> ConsumerGroup -> result R * ConsumerGroup) s A :
  streams_ok now s A -> 
  (forall st g exp, A key = SStream (abs_stream st) exp -> s_groups st !! n = Some g -> stream_ok st -> group_ok g ->
     group_ok (f st g).2) ->
  let '(r, s') := writing key now missing (fun st => in_group n key (f st) st) s in
  match A key with
  | SAbsent => r = missing /\ streams_ok now s' A
  | SOther _ _ => r = Err WRONGTYPE /\ streams_ok now s' A
  | SStream a exp =>
      match a_groups a !! n with
      | None => r = Err (nogroup_err n key) /\ streams_ok now s' A
      | Some ag => exists st g, a = abs_stream st /\ ag = abs_group g /\ stream_ok st /\ group_ok g /\ s_groups st !! n = Some g /\
          r = (f st g).1 /\ streams_ok now s' (supd key (SStream (aset_group n (abs_group (f st g).2) a) exp) A)
      end
  end.
Proof using.
  intros Hok Hf. pose proof (writing_at now key missing (fun st => in_group n key (f st) st) s A Hok) as H.
  destruct (writing key now missing _ s) as [r s'].
  assert (forall st exp, A key = SStream (abs_stream st) exp -> stream_ok st -> stream_ok (in_group n key (f st) st).2) as Hst.
  { intros st exp EA Hst. apply in_group_ok; [done|]. intros g Eg. by eapply Hf. }
  specialize (H Hst). destruct (A key) as [|a exp|] eqn:EA; [done| |done]. destruct H as (st & -> & Hs & -> & Hok').
  rewrite abs_group_lookup. unfold in_group in *. destruct (s_groups st !! n) as [g|] eqn:E; cbn.
  - exists st, g. pose proof (so_groups st Hs n g E) as Hg. destruct (f st g) as [r g'] eqn:Ef. cbn in *.
    rewrite abs_set_group in Hok'. by rewrite E.
  - split; [done|]. eapply tok_ext; [exact Hok'|]. intros k. symmetry. by apply supd_self.
Qed.

Lemma in_group_write {R : Type} now key n missing (f : StreamData -> ConsumerGroup -> result R * ConsumerGroup) s A :
  streams_ok now s A -> (forall st g, stream_ok st -> group_ok g -> group_ok (f st g).2) ->
  let '(r, s') := writing key now missing (fun st => in_group n key (f st) st) s in
  match A key with
  | SAbsent => r = missing /\ streams_ok now s' A
  | SOther _ _ => r = Err WRONGTYPE /\ streams_ok now s' A
  | SStream a exp =>
      match a_groups a !! n with
      | None => r = Err (nogroup_err n key) /\ streams_ok now s' A
      | Some ag => exists st g, a = abs_stream st /\ ag = abs_group g /\ stream_ok st /\ group_ok g /\ s_groups st !! n = Some g /\
          r = (f st g).1 /\ streams_ok now s' (supd key (SStream (aset_group n (abs_group (f st g).2) a) exp) A)
      end
  end.
Proof using. intros Hok Hf. apply in_group_at; [done|]. intros st g exp _ _. apply Hf. Qed.

(** ** Lemmas: XADD *)

Definition opened (x : sslot) : astream * option Z := match x with SStream a exp => (a, exp) | _ => (aempty, None) end.

Lemma stream_ok_empty : stream_ok empty_stream.
Proof using.
  split; cbn; [constructor|constructor|apply id_zero_ok|constructor|]. intros n g. by rewrite lookup_empty.
Qed.

Lemma abs_empty : abs_stream empty_stream = aempty.
Proof using. unfold abs_stream. cbn. by rewrite fmap_empty. Qed.

Lemma open_ok now k s A :
  streams_ok now s A ->
  let '(e, s') := open_stream k now s in
  match A k with
  | SOther _ _ => s' = s /\ match value e with VStream _ => False | _ => True end
  | x => exists st, value e = VStream st /\ stream_ok st /\ is_expired_at now e = false /\
           opened x = (abs_stream st, expires_at e) /\
           streams_ok now s' (supd k (SStream (abs_stream st) (expires_at e)) A)
  end.
Proof using.
  intros Hok. pose proof (to_slots _ _ _ Hok k) as Hk. unfold open_stream.
  assert (forall lru s1, streams_ok now s1 A -> A k = SAbsent -> let e := mkEntry (VStream empty_stream) None lru in
    exists st, value e = VStream st /\ stream_ok st /\ is_expired_at now e = false /\ opened SAbsent = (abs_stream st, expires_at e) /\
      streams_ok now (put_data k e s1) (supd k (SStream (abs_stream st) (expires_at e)) A)) as Hnew.
  { intros lru s1 Hok1 Ha e. exists empty_stream. rewrite abs_empty. split_and!; try done; [apply stream_ok_empty|].
    rewrite <-abs_empty. apply tok_put; [done|done|apply stream_ok_empty]. }
  destruct (find s k) as [e|] eqn:E; cbn [slot_at] in Hk; cycle 1.
  { rewrite Hk. apply Hnew; [by apply tok_key_added|done]. }
  destruct (is_expired_at now e) eqn:Ee; [rewrite Hk; by apply Hnew|].
  destruct (value e) as [| | | | | |st| | |] eqn:Ev; rewrite Hk; try done.
  exists st. split_and!; try done; [by apply (to_wf _ _ _ Hok k e)|].
  eapply tok_ext; [done|]. intros k'. by apply supd_self.
Qed.

Lemma requested_ok top input i :
  0 <= epoch_ms <= usize_max -> id_ok top -> requested top input = Ok i -> id_ok i.
Proof using.
  intros He Ht. unfold requested. destruct (bytes_eqb input (bs "*")).
  - intros [= <-]. destruct (epoch_ms >? ms top); [split; cbn; unfold usize_max in *; lia|by apply next_id_ok].
  - destruct (split_dash input) as [m [q|]]; destruct (parse_u64 m) as [m'|] eqn:Em; try done; apply parse_u64_range in Em.
    + destruct (bytes_eqb q (bs "*")).
      * intros [= <-]. destruct (m' =? ms top); [apply next_id_ok; split; cbn; [done|apply Ht]|split; cbn; unfold usize_max in *; lia].
      * destruct (parse_u64 q) as [q'|] eqn:Eq; [|done]. apply parse_u64_range in Eq. by intros [= <-].
    + intros [= <-]. split; cbn; unfold usize_max in *; lia.
Qed.

Lemma resolve_ok st input :
  0 <= epoch_ms <= usize_max -> stream_ok st ->
  resolve_xadd_id epoch_ms st input =
    match requested (s_last_id st) input with
    | Err e => Err e
    | Ok i => if admitted (abs_stream st) i then Ok i else Err SMALLER_ID
    end.
Proof.
  intros He Hst. pose proof (fun i => requested_ok (s_last_id st) input i He (so_last st Hst)) as Hr.
  unfold resolve_xadd_id.
  assert ((if bytes_eqb input (bs "*") then Ok (if epoch_ms >? ms (s_last_id st) then mkId epoch_ms 0 else next_id (s_last_id st))
    else let '(head, tail) := split_dash input in
      match parse_u64 head with
      | None => Err INVALID_ID
      | Some m => match tail with
                  | None => Ok (mkId m 0)
                  | Some q => if bytes_eqb q (bs "*") then Ok (mkId m (if m =? ms (s_last_id st) then as_u64 (seqn (s_last_id st) + 1) else 0))
                      else match parse_u64 q with Some q => Ok (mkId m q) | None => Err INVALID_ID end
                  end
      end) = requested (s_last_id st) input) as Heq.
  { unfold requested. destruct (bytes_eqb input (bs "*")); [done|]. destruct (split_dash input) as [m [q|]]; [|done].
    destruct (parse_u64 m); [|done]. destruct (bytes_eqb q (bs "*")); [|done]. by destruct (_ =? _). }
  rewrite Heq. clear Heq. destruct (requested (s_last_id st) input) as [i|e]; [|done]. specialize (Hr i eq_refl).
  unfold admitted. cbn [abs_stream a_top a_entries]. pose proof (so_last st Hst) as Hl.
  destruct (id_ltb (s_last_id st) i) eqn:Elt.
  - unfold id_leb. rewrite Elt. cbn [negb andb orb].
    rewrite (bool_decide_eq_false_2 (i = id_zero)); [done|]. intros ->. destruct Hl. apply id_lt_spec in Elt. cbn in Elt. lia.
  - unfold id_leb. rewrite Elt. cbn [negb andb orb]. apply id_ltb_false in Elt.
    assert (((ms i <? ms (s_last_id st)) || ((ms i =? ms (s_last_id st)) && (seqn i <=? seqn (s_last_id st)))) = true) as ->.
    { apply id_le_spec in Elt. rewrite orb_true_iff, andb_true_iff, Z.ltb_lt, Z.eqb_eq, Z.leb_le. done. }
    rewrite andb_true_r. destruct (decide (s_last_id st = id_zero)) as [Ez|Ez].
    + rewrite (bool_decide_eq_true_2 (s_last_id st = id_zero)) by done. cbn [negb]. rewrite Ez in Elt.
      assert (i = id_zero) as ->. { destruct Hr. apply id_le_spec in Elt. apply id_eq; cbn in *; lia. }
      rewrite (bool_decide_eq_true_2 (id_zero = id_zero)) by done. cbn [andb].
      destruct (decide (s_entries st = [])) as [En|En].
      * by rewrite (bool_decide_eq_true_2 (s_entries st = [])), bool_decide_eq_true_2 by done.
      * rewrite (bool_decide_eq_false_2 (s_entries st = [])) by done. rewrite bool_decide_eq_false_2 by tauto. done.
    + rewrite (bool_decide_eq_false_2 (s_last_id st = id_zero)) by done. cbn [negb].
      rewrite bool_decide_eq_false_2 by tauto. done.
Qed.

Lemma admitted_above st i : stream_ok st -> admitted (abs_stream st) i = true -> Forall (fun j => id_lt j i) (s_entries st).*1.
Proof using.
  intros Hst. unfold admitted. cbn [abs_stream a_top a_entries]. rewrite orb_true_iff, bool_decide_eq_true.
  intros [Hlt|(_ & _ & ->)]; [|constructor]. pose proof (so_below st Hst) as Hb. eapply Forall_impl; [exact Hb|].
  intros j Hj. cbn in Hj. id_order.
Qed.

Lemma keep_last_suffix maxlen l : exists n, keep_last maxlen l = drop n l.
Proof using. destruct maxlen; [by eexists|]. by exists 0%nat. Qed.

(** The entries of a stream cut short. *)
Lemma stream_ok_entries st l top :
  stream_ok st -> sorted l -> Forall id_ok l.*1 -> id_ok top -> Forall (fun i => id_le i top) l.*1 ->
  stream_ok (mkStream l top (s_groups st)).
Proof using. intros [H1 H2 H3 H4 H5] Hs Hi Ht Hb. by split. Qed.

Lemma Forall_drop_ids {A : Type} (P : StreamId -> Prop) n (l : list (StreamId * A)) : Forall P l.*1 -> Forall P (drop n l).*1.
Proof using. rewrite fmap_drop. apply Forall_drop. Qed.

Lemma xadd_stream_ok st i fs maxlen :
  stream_ok st -> id_ok i -> admitted (abs_stream st) i = true ->
  stream_ok (mkStream (keep_last maxlen (s_entries st ++ [(i, fs)])) i (s_groups st)).
Proof using.
  intros Hst Hi Ha. pose proof (admitted_above st i Hst Ha) as Hab. pose proof Hst as [H1 H2 H3 H4 H5].
  destruct (keep_last_suffix maxlen (s_entries st ++ [(i, fs)])) as [n ->].
  assert (sorted (s_entries st ++ [(i, fs)])) as Hs.
  { rewrite <-insert_last by done. by apply sorted_insert. }
  apply stream_ok_entries; [done|by apply sorted_drop| |done|]; apply Forall_drop_ids; rewrite fmap_app; apply Forall_app.
  - split; [done|]. by constructor.
  - split; [|constructor; [cbn; id_order|done]]. eapply Forall_impl; [exact Hab|]. intros j. apply id_lt_le.
Qed.

Lemma xadd_ok now k id fs maxlen s A :
  0 <= epoch_ms <= usize_max -> match maxlen with Some n => 0 <= n | None => True end -> streams_ok now s A ->
  let '(r, s') := xexec now (XAdd k id fs maxlen) s in exists A', xspec now (XAdd k id fs maxlen) A r A' /\ streams_ok now s' A'.
Proof.
  intros He Hmax Hok. cbn [xexec xspec]. unfold xadd, xadd_on_shard.
  pose proof (open_ok now k (bump k s) A (tok_bump now k s A Hok)) as Ho. destruct (open_stream k now (bump k s)) as [e s1].
  assert (forall a exp, (exists st, value e = VStream st /\ stream_ok st /\ is_expired_at now e = false /\
      (a, exp) = (abs_stream st, expires_at e) /\ streams_ok now s1 (supd k (SStream (abs_stream st) (expires_at e)) A)) ->
    let '(r, s') := match value e with
      | VStream st => match resolve_xadd_id epoch_ms st id with
          | Ok i => let '(trimmed, entries) := match maxlen with Some max => trim max (id_insert i fs (s_entries st)) | None => (0, id_insert i fs (s_entries st)) end in
                    (Ok i, adjust k (stream_entry_memory fs - trimmed) (put_stream k e (mkStream entries i (s_groups st)) s1))
          | Err m => (Err m, s1) end
      | _ => (Err WRONGTYPE, s1) end in
    exists A', match requested (a_top a) id with
      | Err e => (forall k', A' k' = supd k (SStream a exp) A k') /\ xreply_of XId r = XErr e
      | Ok i => if admitted a i
          then (forall k', A' k' = supd k (SStream (mkAStream (keep_last maxlen (a_entries a ++ [(i, fs)])) i (a_groups a)) exp) A k') /\ xreply_of XId r = XId i
          else (forall k', A' k' = supd k (SStream a exp) A k') /\ xreply_of XId r = XErr SMALLER_ID
      end /\ streams_ok now s' A') as Hmain.
  { intros a exp (st & Ev & Hst & Ee & [= -> ->] & Hs1). rewrite Ev, resolve_ok by done. cbn [abs_stream a_top].
    destruct (requested (s_last_id st) id) as [i|m] eqn:Er; [|by eexists]. destruct (admitted (abs_stream st) i) eqn:Ea; [|by eexists].
    rewrite insert_last by (by apply admitted_above). pose proof (requested_ok _ _ _ He (so_last st Hst) Er) as Hi.
    assert (forall trimmed, let st' := mkStream (keep_last maxlen (s_entries st ++ [(i, fs)])) i (s_groups st) in
      streams_ok now (adjust k (stream_entry_memory fs - trimmed) (put_stream k e st' s1)) (supd k (SStream (abs_stream st') (expires_at e)) A)) as Hput.
    { intros trimmed st'. apply tok_adjust. eapply tok_ext; [apply put_ok; [exact Hs1|done|by apply xadd_stream_ok]|].
      intros k'. by rewrite supd_supd. }
    destruct maxlen as [n|].
    - pose proof (trim_drop n (s_entries st ++ [(i, fs)]) Hmax) as Htr. destruct (trim n _) as [freed l]. cbn [snd] in Htr. subst l.
      eexists. split; [split; [done|done]|apply (Hput freed)].
    - eexists. split; [split; [done|done]|apply (Hput 0)]. }
  revert Ho. destruct (A k) as [|a exp|v exp]; intros Ho.
  - specialize (Hmain aempty None). destruct (match value e with VStream _ => _ | _ => _ end) as [r s'] eqn:E. apply Hmain.
    destruct Ho as (st & ? & ? & ? & Hop & ?). exists st. by split_and!.
  - specialize (Hmain a exp). destruct (match value e with VStream _ => _ | _ => _ end) as [r s'] eqn:E. apply Hmain.
    destruct Ho as (st & ? & ? & ? & Hop & ?). exists st. by split_and!.
  - destruct Ho as [-> Hv]. destruct (value e); try done; (exists A; split; [done|by apply tok_bump]).
Qed.

(** ** Lemmas: the other commands *)

Definition refines (now : Z) (c : xcmd) (s : Store) (A : space) : Prop :=
  let '(r, s') := xexec now c s in exists A', xspec now c A r A' /\ streams_ok now s' A'.

Lemma xlen_ok now k s A : streams_ok now s A -> refines now (XLen k) s A.
Proof.
  intros Hok. unfold refines. cbn [xexec xspec]. unfold xlen, reading. exists A.
  destruct (stream_cases now s A k Hok) as [(-> & ->)|[(e & st & _ & _ & _ & -> & -> & _)|(v & exp & -> & ->)]]; done.
Qed.

Lemma xrange_ok now k a b count s A : streams_ok now s A -> refines now (XRange k a b count) s A.
Proof.
  intros Hok. unfold refines. cbn [xexec xspec]. unfold xrange, range_between. exists A.
  destruct (stream_cases now s A k Hok) as [(-> & ->)|[(e & st & _ & _ & _ & -> & -> & _)|(v & exp & -> & ->)]]; [done| |done].
  destruct (id_ltb b a); [done|]. cbn. by rewrite read_loop_limit.
Qed.

Lemma xrevrange_ok now k a b count s A : streams_ok now s A -> refines now (XRevRange k b a count) s A.
Proof.
  intros Hok. unfold refines. cbn [xexec xspec]. unfold xrevrange, range_between. exists A.
  destruct (stream_cases now s A k Hok) as [(-> & ->)|[(e & st & _ & _ & _ & -> & -> & _)|(v & exp & -> & ->)]]; [done| |done].
  destruct (id_ltb b a); [done|]. cbn. by rewrite read_loop_limit.
Qed.

Lemma xread_ok now ks ids count s A : streams_ok now s A -> refines now (XRead ks ids count) s A.
Proof.
  intros Hok. unfold refines. cbn [xexec xspec]. unfold xread.
  assert (forall l out, xread_loop hll_count clock is_encrypted_value decrypt l count now out s =
    (Ok (out ++ omap (fun p => match A p.1 with
      | SStream a _ => let l := limit count (show p.1 <$> range_from (next_id p.2) (a_entries a)) in
                       if bool_decide (l = []) then None else Some (p.1, l)
      | _ => None end) l), s)) as H.
  { induction l as [|[k i] l IH]; intros out; cbn [xread_loop omap list_omap]; [by rewrite app_nil_r|].
    rewrite hot_promote by apply Hok. cbn [fst snd].
    destruct (stream_cases now s A k Hok) as [(-> & ->)|[(e & st & _ & _ & _ & -> & -> & _)|(v & exp & -> & ->)]].
    - by rewrite bool_decide_eq_true_2, IH.
    - rewrite read_loop_limit. cbn [abs_stream a_entries]. set (l0 := limit count _). cbv zeta.
      destruct (bool_decide (l0 = [])); rewrite IH; [done|]. by rewrite <-(assoc_L (++)).
    - by rewrite bool_decide_eq_true_2, IH. }
  rewrite H. by exists A.
Qed.

Lemma removing_ok now k f s A :
  streams_ok now s A ->
  (forall st, stream_ok st -> stream_ok (mkStream (f (s_entries st)).2 (s_last_id st) (s_groups st))) ->
  let '(r, s') := removing k now f s in
  match A k with
  | SAbsent => r = Ok 0 /\ streams_ok now s' A
  | SOther _ _ => r = Err WRONGTYPE /\ streams_ok now s' A
  | SStream a exp => exists st, a = abs_stream st /\ stream_ok st /\ r = Ok (f (s_entries st)).1.1 /\
      streams_ok now s' (supd k (SStream (mkAStream (f (s_entries st)).2 (a_top a) (a_groups a)) exp) A)
  end.
Proof.
  intros Hok Hf. unfold removing. pose proof (tok_bump now k s A Hok) as Hb.
  destruct (stream_cases now _ A k Hb) as [(-> & ->)|[(e & st & Ef & Ee & Ev & -> & -> & Hst)|(v & exp & -> & ->)]];
    [done| |done].
  specialize (Hf st Hst). destruct (f (s_entries st)) as [[removed freed] l] eqn:E. exists st. rewrite E. split_and!; try done.
  apply tok_refund. by apply (put_ok now k e).
Qed.

Lemma Forall_filter_ids {A : Type} (P : StreamId -> Prop) (p : StreamId * A -> bool) (l : list (StreamId * A)) :
  Forall P l.*1 -> Forall P (List.filter p l).*1.
Proof using.
  rewrite !Forall_forall. intros H j (x & -> & [_ Hx]%filter_elem)%list_elem_of_fmap. apply H, list_elem_of_fmap. by exists x.
Qed.

Lemma xdel_ok now k ids s A : streams_ok now s A -> refines now (XDel k ids) s A.
Proof.
  intros Hok. unfold refines. cbn [xexec xspec]. unfold xdel.
  pose proof (removing_ok now k (fun l => foldl xdel_one (0, 0, l) ids) s A Hok) as H.
  destruct (removing k now _ s) as [r s'].
  assert (forall st, stream_ok st ->
    (foldl xdel_one (0, 0, s_entries st) ids).2 = without ids (s_entries st) /\
    (foldl xdel_one (0, 0, s_entries st) ids).1.1 = zlen (s_entries st) - zlen (without ids (s_entries st))) as Hl.
  { intros st Hst. pose proof (xdel_loop ids (s_entries st) (so_sorted st Hst)) as Hx.
    destruct (foldl xdel_one _ ids) as [[removed freed] l]. by destruct Hx as [-> ->]. }
  assert (forall st, stream_ok st -> stream_ok (mkStream (foldl xdel_one (0, 0, s_entries st) ids).2 (s_last_id st) (s_groups st))) as Hst.
  { intros st Hst. destruct (Hl st Hst) as [-> _]. pose proof Hst as [H1 H2 H3 H4 H5]. unfold without.
    apply stream_ok_entries; [done|by apply sorted_filter|by apply Forall_filter_ids|done|by apply Forall_filter_ids]. }
  specialize (H Hst). destruct (A k) as [|a exp|v exp] eqn:EA.
  - destruct H as [-> H]. by exists A.
  - destruct H as (st & -> & Hs & -> & H). destruct (Hl st Hs) as [E1 E2]. rewrite E1 in H. rewrite E2. by eexists.
  - destruct H as [-> H]. by exists A.
Qed.

Lemma xtrim_ok now k n s A : 0 <= n -> streams_ok now s A -> refines now (XTrim k n) s A.
Proof.
  intros Hn Hok. unfold refines. cbn [xexec xspec]. unfold xtrim.
  pose proof (removing_ok now k (fun l => let '(freed, l') := trim n l in (zlen l - zlen l', freed, l')) s A Hok) as H.
  destruct (removing k now _ s) as [r s'].
  assert (forall l, let '(freed, l') := trim n l in l' = keep_last (Some n) l) as Hl.
  { intros l. pose proof (trim_drop n l Hn) as Hx. by destruct (trim n l). }
  assert (forall st, stream_ok st -> stream_ok (mkStream
    (let '(freed, l') := trim n (s_entries st) in (zlen (s_entries st) - zlen l', freed, l')).2 (s_last_id st) (s_groups st))) as Hst.
  { intros st Hst. pose proof (Hl (s_entries st)) as Hx. destruct (trim n (s_entries st)) as [freed l']. subst l'.
    pose proof Hst as [H1 H2 H3 H4 H5]. cbn [snd keep_last].
    apply stream_ok_entries; [done|by apply sorted_drop|by apply Forall_drop_ids|done|by apply Forall_drop_ids]. }
  specialize (H Hst). destruct (A k) as [|a exp|v exp] eqn:EA.
  - destruct H as [-> H]. by exists A.
  - destruct H as (st & -> & Hs & -> & H). pose proof (Hl (s_entries st)) as Hx. destruct (trim n (s_entries st)) as [freed l'].
    subst l'. by eexists.
  - destruct H as [-> H]. by exists A.
Qed.

Lemma group_id_ok id st i : stream_ok st -> group_id id st = Some i -> id_ok i.
Proof using.
  intros Hst. unfold group_id. destruct (bytes_eqb id (bs "$")); [intros [= <-]; apply Hst|apply id_parse_ok].
Qed.

Lemma new_group_ok id st : stream_ok st -> group_ok (mkGroup (default id_zero (group_id id st)) ∅ []).
Proof using.
  intros Hst. split; cbn; [constructor|constructor|constructor| |].
  - destruct (group_id id st) eqn:E; [by eapply group_id_ok|apply id_zero_ok].
  - intros i c. unfold owner, holds. cbn. split; [done|]. intros (con & H & _). by rewrite lookup_empty in H.
Qed.

Lemma xgroup_create_ok now k g id mk s A : streams_ok now s A -> refines now (XGroupCreate k g id mk) s A.
Proof.
  intros Hok. unfold refines. cbn [xexec xspec]. unfold xgroup_create.
  pose proof (tok_bump now k s A Hok) as Hb. pose proof (open_ok now k (bump k s) A Hb) as Ho.
  set (s1 := if mk then (open_stream k now (bump k s)).2 else bump k s).
  assert (forall e st B, view_stream k now s1 = Ok (Some (e, st)) -> is_expired_at now e = false -> streams_ok now s1 B -> stream_ok st ->
    let '(r, s') := if bool_decide (is_Some (s_groups st !! g)) then (Err BUSYGROUP, s1)
      else (Ok tt, put_stream k e (set_group g (mkGroup (default id_zero (group_id id st)) ∅ []) st) s1) in
    if bool_decide (is_Some (a_groups (abs_stream st) !! g)) then r = Err BUSYGROUP /\ streams_ok now s' B
    else r = Ok tt /\ streams_ok now s' (supd k (SStream (aset_group g (mkAGroup (default id_zero (agroup_id id (abs_stream st))) ∅ []) (abs_stream st)) (expires_at e)) B)) as Hmain.
  { intros e st B Ev Ee HB Hst.
    rewrite (bool_decide_ext (is_Some (a_groups (abs_stream st) !! g)) (is_Some (s_groups st !! g))) by (by rewrite abs_group_lookup, fmap_is_Some).
    case_bool_decide; [done|]. split; [done|].
    assert (mkAGroup (default id_zero (agroup_id id (abs_stream st))) ∅ [] = abs_group (mkGroup (default id_zero (group_id id st)) ∅ [])) as ->.
    { unfold abs_group. cbn. by rewrite fmap_empty. }
    rewrite <-abs_set_group. apply put_ok; [done|done|]. apply stream_ok_group; [done|]. by apply new_group_ok. }
  clear Ho. revert s1 Hmain. destruct mk; intros s1 Hmain.
  - pose proof (open_ok now k (bump k s) A Hb) as Ho. subst s1. destruct (open_stream k now (bump k s)) as [e0 s1]. cbn [snd] in *.
    assert (forall x, opened x = opened (A k) -> (match x with SOther _ _ => False | _ => True end) ->
      (exists st, value e0 = VStream st /\ stream_ok st /\ is_expired_at now e0 = false /\ opened x = (abs_stream st, expires_at e0) /\
        streams_ok now s1 (supd k (SStream (abs_stream st) (expires_at e0)) A)) ->
      exists e st, view_stream k now s1 = Ok (Some (e, st)) /\ is_expired_at now e = false /\ stream_ok st /\
        opened x = (abs_stream st, expires_at e) /\ streams_ok now s1 (supd k (SStream (abs_stream st) (expires_at e)) A)) as Hview.
    { intros x _ _ (st & _ & Hst & _ & Hop & HB).
      destruct (stream_cases now s1 _ k HB) as [(_ & Hx)|[(e & st' & Ef & Ee & Ev & Hv & Hx & Hst')|(v & exp & _ & Hx)]];
        rewrite supd_eq in Hx; try done.
      assert (abs_stream st' = abs_stream st /\ expires_at e = expires_at e0) as [E1 E2] by (split; congruence).
      exists e, st'. by rewrite E1, E2. }
    destruct (A k) as [|a exp|v exp] eqn:EA.
    + destruct (Hview SAbsent eq_refl I Ho) as (e & st & Hv & Ee & Hst & Hop & HB). rewrite Hv.
      assert (aempty = abs_stream st /\ None = expires_at e) as [E1 E2] by (split; unfold opened in Hop; congruence).
      specialize (Hmain e st _ Hv Ee HB Hst). destruct (if bool_decide _ then _ else _) as [r s']. rewrite <-E1, <-E2 in Hmain.
      cbn [aempty a_groups] in Hmain. rewrite lookup_empty, bool_decide_eq_false_2 in Hmain by (by intros [? ?]).
      destruct Hmain as [-> Hs']. eexists. split; [split; [|done]|exact Hs']. intros k'. by rewrite supd_supd.
    + destruct (Hview (SStream a exp) eq_refl I Ho) as (e & st & Hv & Ee & Hst & Hop & HB). rewrite Hv.
      assert (a = abs_stream st /\ exp = expires_at e) as [-> ->] by (split; unfold opened in Hop; congruence).
      specialize (Hmain e st _ Hv Ee HB Hst). destruct (if bool_decide _ then _ else _) as [r s'].
      case_bool_decide; destruct Hmain as [-> Hs'].
      * eexists. split; [split; [|done]|exact Hs']. intros k'. by apply supd_self.
      * eexists. split; [split; [|done]|exact Hs']. intros k'. by rewrite supd_supd.
    + destruct Ho as [-> _]. destruct (stream_cases now _ A k Hb) as [(_ & Hx)|[(e & st & _ & _ & _ & _ & Hx & _)|(v' & exp' & -> & _)]];
        [congruence..|]. by exists A.
  - subst s1. destruct (stream_cases now _ A k Hb) as [(-> & ->)|[(e & st & Ef & Ee & Ev & Hv & -> & Hst)|(v & exp & -> & ->)]];
      [by exists A| |by exists A].
    specialize (Hmain e st A Hv Ee Hb Hst). rewrite Hv. destruct (if bool_decide (is_Some (s_groups st !! g)) then _ else _) as [r s'].
    case_bool_decide; destruct Hmain as [-> Hs']; by eexists.
Qed.

Lemma xgroup_destroy_ok now k g s A : streams_ok now s A -> refines now (XGroupDestroy k g) s A.
Proof.
  intros Hok. unfold refines. cbn [xexec xspec]. unfold xgroup_destroy.
  match goal with |- context [writing k now ?m ?f s] => pose proof (writing_ok now k m f s A Hok) as H; destruct (writing k now m f s) as [r s'] end.
  assert (forall st, stream_ok st -> stream_ok (mkStream (s_entries st) (s_last_id st) (delete g (s_groups st)))) as Hst.
  { intros st [H1 H2 H3 H4 H5]. split; try done. intros n gr. cbn. intros [_ Hd]%lookup_delete_Some. by apply (H5 n). }
  specialize (H Hst). destruct (A k) as [|a exp|v exp].
  - destruct H as [-> H]. by exists A.
  - destruct H as (st & -> & Hs & -> & H). cbn [fst snd] in *. eexists. split; [split; [intros k'|]|exact H].
    + unfold abs_stream. cbn. by rewrite fmap_delete.
    + rewrite abs_group_lookup. cbn. f_equal. apply bool_decide_ext. by rewrite fmap_is_Some.
  - destruct H as [-> H]. by exists A.
Qed.

(** The store after an operation on a group; what is left is the case where the group exists. *)
Ltac by_group now key n A Hok f :=
  match goal with
  | |- context [writing key now ?m ?F ?s] =>
      let H := fresh "H" in
      pose proof (in_group_write now key n m f s A Hok) as H;
      change (writing key now m (fun st => in_group n key (f st) st) s) with (writing key now m F s) in H;
      destruct (writing key now m F s) as [r s']
  end.

Lemma tok_unchanged now s k a exp A : A k = SStream a exp -> streams_ok now s (supd k (SStream a exp) A) -> streams_ok now s A.
Proof using. intros E H. eapply tok_ext; [exact H|]. intros k'. symmetry. by apply supd_self. Qed.

Lemma aset_same n ag a : a_groups a !! n = Some ag -> aset_group n ag a = a.
Proof using. intros H. unfold aset_group. rewrite insert_id by done. by destruct a. Qed.

Lemma agroup_id_abs id st : agroup_id id (abs_stream st) = group_id id st.
Proof using. done. Qed.

Lemma xgroup_setid_ok now k g id s A : streams_ok now s A -> refines now (XGroupSetId k g id) s A.
Proof.
  intros Hok. unfold refines. cbn [xexec xspec]. unfold xgroup_setid.
  by_group now k g A Hok (fun st gr => match group_id id st with
    | Some i => (Ok tt, mkGroup i (g_consumers gr) (g_pel gr)) | None => (Err "ERR Invalid stream ID", gr) end).
  assert (forall st gr, stream_ok st -> group_ok gr -> group_ok (match group_id id st with
    | Some i => (Ok tt, mkGroup i (g_consumers gr) (g_pel gr)) | None => (Err (A := unit) "ERR Invalid stream ID", gr) end).2) as Hg.
  { intros st gr Hst Hgr. destruct (group_id id st) eqn:E; [|done]. apply group_ok_last; [done|by eapply group_id_ok]. }
  specialize (H Hg). destruct (A k) as [|a exp|v exp] eqn:EA; [destruct H as [-> H]; by exists A| |destruct H as [-> H]; by exists A].
  destruct (a_groups a !! g) as [ag|] eqn:Eg; [|destruct H as [-> H]; by exists A].
  destruct H as (st & gr & -> & -> & Hst & Hgr & Es & -> & H). rewrite agroup_id_abs. destruct (group_id id st); cbn [fst snd] in *.
  - by eexists.
  - exists A. split; [done|]. rewrite aset_same in H by done. by eapply tok_unchanged.
Qed.

Lemma seen_lookup g c : a_seen (abs_group g) !! c = c_seen <$> g_consumers g !! c.
Proof using. cbn. apply lookup_fmap. Qed.

Lemma createconsumer_group g c now :
  group_ok g -> g_consumers g !! c = None ->
  group_ok (mkGroup (g_last_delivered g) (<[c := mkConsumer ∅ now]> (g_consumers g)) (g_pel g)).
Proof using.
  intros [Hs Hi Hn Hl Hc] E. split; try done. intros i c'.
  change (owner (mkGroup (g_last_delivered g) (<[c := mkConsumer ∅ now]> (g_consumers g)) (g_pel g)) i) with (owner g i).
  rewrite (Hc i c'). unfold holds. cbn. destruct (decide (c' = c)) as [->|Hne].
  - rewrite lookup_insert_eq. split; [intros (con & ? & _); congruence|]. intros (con & [= <-] & Hin). cbn in Hin. set_solver.
  - by rewrite lookup_insert_ne.
Qed.

(** Making a consumer that may exist. *)
Definition new_consumer (c : bytes) (now : Z) (g : ConsumerGroup) : result bool * ConsumerGroup :=
  if bool_decide (is_Some (g_consumers g !! c)) then (Ok false, g)
  else (Ok true, mkGroup (g_last_delivered g) (<[c := mkConsumer ∅ now]> (g_consumers g)) (g_pel g)).

Lemma new_consumer_ok c now g :
  group_ok g ->
  group_ok (new_consumer c now g).2 /\
  match a_seen (abs_group g) !! c with
  | Some _ => new_consumer c now g = (Ok false, g)
  | None => (new_consumer c now g).1 = Ok true /\
            abs_group (new_consumer c now g).2 =
              mkAGroup (a_last (abs_group g)) (<[c := now]> (a_seen (abs_group g))) (a_pel (abs_group g))
  end.
Proof using.
  intros Hg. unfold new_consumer. rewrite seen_lookup. destruct (g_consumers g !! c) as [con|] eqn:E; cbn [fmap option_fmap option_map].
  - by rewrite bool_decide_eq_true_2 by (by eexists).
  - rewrite bool_decide_eq_false_2 by (by intros [? ?]). split; [by apply createconsumer_group|]. split; [done|].
    unfold abs_group. cbn. by rewrite fmap_insert.
Qed.

Lemma createconsumer_ok now k g c s A : streams_ok now s A -> refines now (XCreateConsumer k g c) s A.
Proof.
  intros Hok. unfold refines. cbn [xexec xspec]. unfold xgroup_createconsumer.
  by_group now k g A Hok (fun (_ : StreamData) gr => new_consumer c now gr).
  specialize (H (fun st gr _ Hgr => proj1 (new_consumer_ok c now gr Hgr))).
  destruct (A k) as [|a exp|v exp] eqn:EA; [destruct H as [-> H]; by exists A| |destruct H as [-> H]; by exists A].
  destruct (a_groups a !! g) as [ag|] eqn:Eg; [|destruct H as [-> H]; by exists A].
  destruct H as (st & gr & -> & -> & Hst & Hgr & Es & -> & H). destruct (new_consumer_ok c now gr Hgr) as [_ Hn].
  destruct (a_seen (abs_group gr) !! c).
  - rewrite Hn in H |- *. exists A. split; [done|]. cbn [snd] in H. rewrite aset_same in H by done. by eapply tok_unchanged.
  - destruct Hn as [-> Hn]. rewrite Hn in H. by eexists.
Qed.

(** A consumer that does not exist owns nothing. *)
Lemma not_owned g c : group_ok g -> g_consumers g !! c = None -> forall e, e ∈ g_pel g -> owned_by c e = false.
Proof using.
  intros Hg E e He. unfold owned_by, bytes_eqb. apply bool_decide_eq_false. intros Hc.
  pose proof (owner_elem g e Hg He) as Ho. rewrite Hc in Ho. apply (go_coherent g Hg) in Ho as (con & H & _). congruence.
Qed.

Definition drop_consumer (c : bytes) (g : ConsumerGroup) : result Z * ConsumerGroup :=
  match g_consumers g !! c with
  | Some con => (Ok (Z.of_nat (size (c_pel con))),
                 mkGroup (g_last_delivered g) (delete c (g_consumers g))
                   (foldl (fun l i => id_remove i l) (g_pel g) (elements (c_pel con))))
  | None => (Ok 0, g)
  end.

Lemma filter_all {A : Type} (p : A -> bool) l : (forall x, x ∈ l -> p x = true) -> List.filter p l = l.
Proof using.
  induction l as [|x l IH]; intros H; [done|]. cbn. rewrite (H x) by (by left). f_equal. apply IH. intros y Hy. apply H. by right.
Qed.

Lemma filter_none {A : Type} (p : A -> bool) l : (forall x, x ∈ l -> p x = false) -> List.filter p l = [].
Proof using.
  induction l as [|x l IH]; intros H; [done|]. cbn. rewrite (H x) by (by left). apply IH. intros y Hy. apply H. by right.
Qed.

Lemma drop_consumer_ok c g :
  group_ok g ->
  group_ok (drop_consumer c g).2 /\
  (drop_consumer c g).1 = Ok (zlen (List.filter (owned_by c) (g_pel g))) /\
  abs_group (drop_consumer c g).2 =
    mkAGroup (g_last_delivered g) (delete c (c_seen <$> g_consumers g)) (List.filter (fun e => negb (owned_by c e)) (g_pel g)).
Proof using.
  intros Hg. unfold drop_consumer. destruct (g_consumers g !! c) as [con|] eqn:E; cbn [fst snd].
  - destruct (delconsumer_ok g c con Hg E) as (H1 & H2 & H3). split; [done|]. split; [by rewrite H3|].
    unfold abs_group. cbn [g_last_delivered g_consumers]. rewrite H2, fmap_delete. done.
  - pose proof (not_owned g c Hg E) as Hn. split; [done|]. rewrite (filter_none (owned_by c)) by done. split; [done|].
    rewrite filter_all by (intros x Hx; by rewrite Hn). rewrite delete_id; [done|]. by rewrite lookup_fmap, E.
Qed.

Lemma delconsumer_refines now k g c s A : streams_ok now s A -> refines now (XDelConsumer k g c) s A.
Proof.
  intros Hok. unfold refines. cbn [xexec xspec]. unfold xgroup_delconsumer.
  by_group now k g A Hok (fun (_ : StreamData) gr => drop_consumer c gr).
  specialize (H (fun st gr _ Hgr => proj1 (drop_consumer_ok c gr Hgr))).
  destruct (A k) as [|a exp|v exp] eqn:EA; [destruct H as [-> H]; by exists A| |destruct H as [-> H]; by exists A].
  destruct (a_groups a !! g) as [ag|] eqn:Eg; [|destruct H as [-> H]; by exists A].
  destruct H as (st & gr & -> & -> & Hst & Hgr & Es & -> & H). destruct (drop_consumer_ok c gr Hgr) as (_ & -> & Ha).
  rewrite Ha in H. by eexists.
Qed.

Lemma xack_ok now k g ids s A : streams_ok now s A -> refines now (XAck k g ids) s A.
Proof.
  intros Hok. unfold refines. cbn [xexec xspec]. unfold xack.
  match goal with |- context [writing k now ?m ?f s] =>
    pose proof (writing_ok now k m f s A Hok) as H; destruct (writing k now m f s) as [r s'] end.
  assert (forall st, stream_ok st -> stream_ok (match s_groups st !! g with
    | Some g0 => let '(acked, g1) := foldl xack_one (0, g0) ids in (Ok acked, set_group g g1 st)
    | None => (Ok 0, st) end).2) as Hst.
  { intros st Hst. destruct (s_groups st !! g) as [gr|] eqn:E; [|done]. pose proof (xack_loop ids 0 gr (so_groups st Hst g gr E)) as Hx.
    destruct (foldl xack_one (0, gr) ids) as [n g1]. apply stream_ok_group; [done|]. apply Hx. }
  specialize (H Hst). destruct (A k) as [|a exp|v exp] eqn:EA; [destruct H as [-> H]; by exists A| |destruct H as [-> H]; by exists A].
  destruct H as (st & -> & Hs & -> & H). rewrite abs_group_lookup. destruct (s_groups st !! g) as [gr|] eqn:E; cbn [fmap option_fmap option_map].
  - pose proof (xack_loop ids 0 gr (so_groups st Hs g gr E)) as Hx. destruct (foldl xack_one (0, gr) ids) as [n g1].
    destruct Hx as (_ & Ha & ->). cbn [fst snd] in *. rewrite abs_set_group, Ha in H. pose proof (f_equal a_pel Ha) as Hp. cbn in Hp.
    rewrite Hp. by eexists.
  - exists A. split; [done|]. by eapply tok_unchanged.
Qed.

(** ** Lemmas: claims *)

Lemma claim_plan key idle g st ids : forall r0 c0,
  let l := idle_enough idle (omap (fun i => pair i <$> id_lookup i (g_pel g)) ids) in
  foldl (claim_one is_encrypted_value decrypt key inst_now idle g st) (mkClaimPlan r0 c0) ids =
    mkClaimPlan (r0 ++ found key (abs_stream st) l) (c0 ++ claims_of l).
Proof.
  induction ids as [|i ids IH]; intros r0 c0; cbn [foldl]; [cbn; by rewrite !app_nil_r|].
  unfold claim_one at 2. cbn [omap list_omap]. destruct (id_lookup i (g_pel g)) as [pe|]; cbn [fmap option_fmap option_map]; [|apply IH].
  unfold idle_enough. cbn [List.filter snd]. destruct (claimable inst_now idle pe); [|apply IH].
  rewrite IH. fold (idle_enough idle (omap (fun i => pair i <$> id_lookup i (g_pel g)) ids)). unfold found, claims_of. cbn [omap list_omap fst abs_stream a_entries].
  destruct (id_lookup i (s_entries st)) as [fs|]; cbn [fmap option_fmap option_map list_fmap cp_result cp_claims]; f_equal;
    by rewrite <-(assoc_L (++)).
Qed.

(** How far an automatic claim gets. *)
Lemma auto_plan key idle max st l : forall plan,
  zlen (ap_result plan) <= Z.max 0 max -> ap_next_start plan = id_zero ->
  exists l1 l2, l = l1 ++ l2 /\
    let p := auto_loop is_encrypted_value decrypt key inst_now idle max st plan l in
    let c := idle_enough idle l1 in
    ap_result p = ap_result plan ++ found key (abs_stream st) c /\
    ap_deleted_ids p = ap_deleted_ids plan ++ gone (abs_stream st) c /\
    ap_claims p = ap_claims plan ++ claims_of c /\
    zlen (ap_result p) <= Z.max 0 max /\ (l2 <> [] -> max <= zlen (ap_result p)) /\
    ap_next_start p = match l2 with (i, _) :: _ => i | [] => id_zero end.
Proof.
  induction l as [|[i pe] l IH]; intros plan Hlen Hnext; cbn [auto_loop].
  - exists [], []. cbn. rewrite !app_nil_r. done.
  - rewrite Z.geb_leb. destruct (Z.leb_spec max (zlen (ap_result plan))).
    + exists [], ((i, pe) :: l). cbn. rewrite !app_nil_r. done.
    + set (plan' := if claimable inst_now idle pe then _ else _).
      assert (zlen (ap_result plan') <= Z.max 0 max /\ ap_next_start plan' = id_zero) as [Hl' Hn'].
      { subst plan'. unfold zlen in *. destruct (claimable inst_now idle pe); [|done].
        destruct (id_lookup i (s_entries st)); cbn; [rewrite length_app; cbn; split; [lia|done]|done]. }
      destruct (IH plan' Hl' Hn') as (l1 & l2 & -> & Hr & Hd & Hc & Hz & Hm & Hx). exists ((i, pe) :: l1), l2. split; [done|].
      split_and!; try done; [rewrite Hr|rewrite Hd|rewrite Hc]; subst plan'; unfold idle_enough; cbn [List.filter snd];
        (destruct (claimable inst_now idle pe); [|done]); unfold found, gone, claims_of; cbn [omap list_omap List.filter fst abs_stream a_entries];
        destruct (id_lookup i (s_entries st)); cbn; by rewrite <-?(assoc_L (++)).
Qed.

Lemma claim_write now k g c claims s A a exp ag :
  streams_ok now s A -> A k = SStream a exp -> a_groups a !! g = Some ag -> Forall (fun i => i ∈ (a_pel ag).*1) claims.*1 ->
  Forall count_ok claims.*2 ->
  let '(r, s') := apply_lxgroupclaim k g c claims inst_now now s in
  r = Ok tt /\ streams_ok now s' (aclaim k g c claims ag a exp A).
Proof.
  intros Hok EA Eg Hin Hcnt. unfold apply_lxgroupclaim, aclaim. destruct claims as [|cl claims]; [done|]. set (cs := cl :: claims) in *. clearbody cs.
  assert (forall gr, group_ok gr -> Forall (fun i => i ∈ (g_pel gr).*1) cs.*1 ->
    claim_all c inst_now cs gr = (Ok tt, reassign_all c inst_now cs gr) /\
    group_ok (receive c cs.*1 inst_now (reassign_all c inst_now cs gr)) /\
    abs_group (receive c cs.*1 inst_now (reassign_all c inst_now cs gr)) = agive c cs (abs_group gr)) as Hf.
  { intros gr Hgr Hp. split; [by apply claims_succeed|]. apply handed_over; [done| |done]. eapply Forall_impl; [exact Hp|]. intros i Hi.
    cbn in Hi. pose proof (go_ids gr Hgr) as Hg. by eapply Forall_forall in Hg. }
  match goal with |- context [writing k now ?m ?F s] =>
    pose proof (in_group_at now k g m (fun (_ : StreamData) gr => match claim_all c inst_now cs gr with
      | (Err e, gr) => (Err e, gr) | (Ok _, gr) => (Ok tt, receive c cs.*1 inst_now gr) end) s A Hok) as H;
    set (w := writing k now m F s); match type of H with context [writing k now m ?G s] =>
      change (writing k now m G s) with w in H end; destruct w as [r s']
  end.
  rewrite EA, Eg in H.
  destruct H as (st & gr & -> & -> & Hst & Hgr & Es & -> & H).
  - intros st gr exp' EA' Es Hst Hgr. assert (a = abs_stream st) as -> by congruence. rewrite abs_group_lookup, Es in Eg.
    injection Eg as <-. destruct (Hf gr Hgr Hin) as (-> & ? & _). done.
  - destruct (Hf gr Hgr Hin) as (Hc & _ & Ha). rewrite Hc in H |- *. cbn [fst snd] in *. by rewrite Ha in H.
Qed.

Lemma claims_pending idle l (pel : list (StreamId * PendingEntry)) :
  (forall e, e ∈ l -> e ∈ pel) -> Forall (fun i => i ∈ pel.*1) (claims_of (idle_enough idle l)).*1.
Proof.
  intros H. apply Forall_forall. unfold claims_of, idle_enough. intros i Hi. rewrite <-list_fmap_compose in Hi.
  apply list_elem_of_fmap in Hi as (e & -> & [_ He]%filter_elem). apply list_elem_of_fmap. exists e. by auto.
Qed.

Lemma claims_counts idle l (pel : list (StreamId * PendingEntry)) :
  (forall e, e ∈ l -> e ∈ pel) -> Forall count_ok (p_count <$> pel.*2) -> Forall count_ok (claims_of (idle_enough idle l)).*2.
Proof.
  intros H Hp. rewrite Forall_forall in *. unfold claims_of, idle_enough. intros n Hn. rewrite <-list_fmap_compose in Hn.
  apply list_elem_of_fmap in Hn as (e & -> & [_ He]%filter_elem). cbn.
  assert (count_ok (p_count e.2)) as [H1 H2].
  { apply Hp. rewrite <-list_fmap_compose. apply list_elem_of_fmap. exists e. by auto. }
  unfold saturating_succ, count_ok, usize_max in *. lia.
Qed.

Lemma xclaim_ok now k g c idle ids s A : streams_ok now s A -> refines now (XClaim k g c idle ids) s A.
Proof.
  intros Hok. unfold refines. cbn [xexec xspec]. unfold claim_prepare, preview_xclaim, reading.
  destruct (stream_cases now s A k Hok) as [(-> & EA)|[(e & st & Ef & Ee & Ev & -> & EA & Hst)|(v & exp & -> & EA)]]; rewrite EA.
  - cbn. by exists A.
  - rewrite abs_group_lookup. destruct (s_groups st !! g) as [gr|] eqn:Eg; cbn [fmap option_fmap option_map]; [|by exists A].
    rewrite claim_plan. cbn [app prepared_then]. set (l := omap _ ids).
    assert (forall e, e ∈ l -> e ∈ g_pel gr) as Hin.
    { intros [i pe] (j & Hj & Hp)%list_elem_of_omap. apply fmap_Some in Hp as (pe' & Hl & [= -> ->]). by apply lookup_elem. }
    unfold claim_apply. cbn [cp_claims cp_result].
    pose proof (claim_write now k g c (claims_of (idle_enough idle l)) s A (abs_stream st) (expires_at e) (abs_group gr) Hok EA) as Hw.
    destruct (apply_lxgroupclaim k g c _ inst_now now s) as [r s']. destruct Hw as [-> Hs'].
    + by rewrite abs_group_lookup, Eg.
    + by apply claims_pending.
    + apply (claims_counts idle l (g_pel gr)); [done|]. apply (so_groups st Hst g gr Eg).
    + eexists. split; [split; [by intros k'|done]|exact Hs'].
  - by exists A.
Qed.

Lemma xautoclaim_ok now k g c idle start count s A : streams_ok now s A -> refines now (XAutoClaim k g c idle start count) s A.
Proof.
  intros Hok. unfold refines. cbn [xexec xspec]. unfold autoclaim_prepare, preview_xautoclaim, reading.
  destruct (stream_cases now s A k Hok) as [(-> & EA)|[(e & st & Ef & Ee & Ev & -> & EA & Hst)|(v & exp & -> & EA)]]; rewrite EA.
  - by exists A.
  - rewrite abs_group_lookup. destruct (s_groups st !! g) as [gr|] eqn:Eg; cbn [fmap option_fmap option_map]; [|by exists A].
    destruct (auto_plan k idle (default 100 count) st (range_from start (g_pel gr)) (mkAutoPlan id_zero [] [] [])) as
      (l1 & l2 & Hl & Hr & Hd & Hc & Hz & Hm & Hx); [unfold zlen; cbn; lia|done|].
    set (p := auto_loop _ _ k inst_now idle _ st _ _) in *. cbn [app ap_result ap_deleted_ids ap_claims] in Hr, Hd, Hc.
    assert (forall e, e ∈ l1 -> e ∈ g_pel gr) as Hin.
    { intros x Hx'. assert (x ∈ range_from start (g_pel gr)) as Hin by (rewrite Hl; apply elem_of_app; by left).
      unfold range_from in Hin. by apply filter_elem in Hin as [_ ?]. }
    cbn [prepared_then]. unfold autoclaim_apply.
    pose proof (claim_write now k g c (ap_claims p) s A (abs_stream st) (expires_at e) (abs_group gr) Hok EA) as Hw.
    destruct (apply_lxgroupclaim k g c _ inst_now now s) as [r s']. destruct Hw as [-> Hs'].
    + by rewrite abs_group_lookup, Eg.
    + rewrite Hc. by apply claims_pending.
    + rewrite Hc. apply (claims_counts idle l1 (g_pel gr)); [done|]. apply (so_groups st Hst g gr Eg).
    + rewrite Hc in Hs'. eexists. split; [|exact Hs']. exists l1, l2. cbn [a_pel abs_group xreply_of fst snd].
      rewrite Hr in Hz, Hm. rewrite Hr, Hd, Hx. by split_and!.
  - by exists A.
Qed.

(** ** Lemmas: XREADGROUP *)

Lemma held_sorted g c con after_id :
  group_ok g -> g_consumers g !! c = Some con ->
  merge_sort id_le (List.filter (fun i => id_ltb after_id i) (elements (c_pel con))) =
    (List.filter (fun e => owned_by c e && id_ltb after_id e.1) (g_pel g)).*1.
Proof using.
  intros Hg E. pose proof (sorted_filter (fun e => owned_by c e && id_ltb after_id e.1) _ (go_sorted g Hg)) as Hs.
  apply (StronglySorted_unique id_le).
  - apply StronglySorted_merge_sort; apply _.
  - unfold sorted in Hs. revert Hs. generalize (List.filter (fun e => owned_by c e && id_ltb after_id e.1) (g_pel g)).*1. intros l.
    induction 1 as [|x l H IH Hf]; constructor; [done|]. eapply Forall_impl; [exact Hf|]. intros y. apply id_lt_le.
  - rewrite merge_sort_Permutation. apply NoDup_Permutation.
    + apply NoDup_ListNoDup, List.NoDup_filter, NoDup_ListNoDup, NoDup_elements.
    + by apply sorted_NoDup.
    + intros i. rewrite list_elem_of_In, filter_In, <-list_elem_of_In, elem_of_elements, (held_set g c con Hg E), elem_of_list_to_set.
      rewrite !list_elem_of_fmap. split.
      * intros ((e & -> & [Ho He]%filter_elem) & Hlt). exists e. split; [done|]. apply filter_elem. by rewrite Ho, Hlt.
      * intros (e & -> & [Ho He]%filter_elem). apply andb_true_iff in Ho as [Ho Hlt]. split; [|done]. exists e. split; [done|].
        by apply filter_elem.
Qed.

Lemma history_ok key c after_id count g st :
  group_ok g -> history is_encrypted_value decrypt key c after_id count g st = ahistory key c after_id count (abs_group g) (abs_stream st).
Proof.
  intros Hg. unfold history, ahistory. rewrite read_loop_limit. f_equal. cbn [a_pel a_entries abs_group abs_stream].
  destruct (g_consumers g !! c) as [con|] eqn:E.
  - rewrite (held_sorted g c con after_id Hg E). generalize (List.filter (fun e => owned_by c e && id_ltb after_id e.1) (g_pel g)).
    induction l as [|x l IH]; [done|]. cbn [omap list_omap fmap list_fmap]. by destruct (id_lookup x.1 (s_entries st)); cbn; rewrite <-IH.
  - rewrite filter_none; [done|]. intros e He. by rewrite (not_owned g c Hg E e He).
Qed.

Lemma read_one_ok group c key id_str count noack g st plan :
  group_ok g ->
  read_group_one is_encrypted_value decrypt group c key id_str count noack g st plan =
    let '(r, e) := aread group c key id_str count noack (abs_group g) (abs_stream st) in
    mkReadPlan (rp_result plan ++ r) (rp_effects plan ++ e).
Proof.
  intros Hg. unfold read_group_one, aread. destruct (bytes_eqb id_str (bs ">")).
  - rewrite read_loop_limit. cbn [a_last a_entries abs_group abs_stream]. set (l := limit count _).
    destruct (list.last l) as [[i fs]|]; [done|]. rewrite !app_nil_r. by destruct plan.
  - rewrite history_ok by done. do 2 f_equal.
    rewrite (bool_decide_ext (is_Some (a_seen (abs_group g) !! c)) (is_Some (g_consumers g !! c))); [done|].
    by rewrite seen_lookup, fmap_is_Some.
Qed.

Lemma preview_ok now group c count noack s A l :
  streams_ok now s A ->
  forall plan, preview_loop hll_count clock is_encrypted_value decrypt group c l count noack now plan s =
    (match areads group c l count noack A with
     | Err e => Err e
     | Ok (r, e) => Ok (mkReadPlan (rp_result plan ++ r) (rp_effects plan ++ e))
     end, s).
Proof.
  intros Hok. induction l as [|[k id_str] l IH]; intros plan; cbn [preview_loop areads].
  - rewrite !app_nil_r. by destruct plan.
  - rewrite hot_promote by apply Hok.
    destruct (stream_cases now s A k Hok) as [(-> & ->)|[(e & st & _ & _ & _ & -> & -> & Hst)|(v & exp & -> & ->)]]; [apply IH| |apply IH].
    rewrite abs_group_lookup. destruct (s_groups st !! group) as [g|] eqn:Eg; cbn [fmap option_fmap option_map]; [|done].
    rewrite IH, read_one_ok by (by apply (so_groups st Hst group)). destruct (areads group c l count noack A) as [[res effs]|]; [|done].
    destruct (aread group c k id_str count noack (abs_group g) (abs_stream st)) as [r e']. cbn. by rewrite <-!(assoc_L (++)).
Qed.

(** The effects of a read can be applied. *)
Definition ready (A : space) (e : StreamGroupReadEffect) : Prop :=
  exists a exp ag, A (effect_key e) = SStream a exp /\ a_groups a !! effect_group e = Some ag.
Definition effect_ok (e : StreamGroupReadEffect) : Prop :=
  match e with Deliver _ _ _ last ids => id_ok last /\ Forall id_ok ids | CreateConsumer _ _ _ => True end.

Lemma ready_after now A e e' : ready A e -> ready (aeffect now A e') e.
Proof.
  intros (a & exp & ag & EA & Eg). unfold ready, aeffect. destruct (A (effect_key e')) as [|a' exp'|] eqn:EA'; [by repeat eexists| |by repeat eexists].
  destruct (a_groups a' !! effect_group e') as [ag'|] eqn:Eg'; [|by repeat eexists].
  unfold supd. destruct (decide (effect_key e = effect_key e')) as [Ek|]; [|by repeat eexists].
  rewrite Ek in EA. rewrite EA in EA'. injection EA' as <- <-.
  destruct (decide (effect_group e = effect_group e')) as [Egr|Egr]; eexists _, _, _; (split; [done|]); cbn [aset_group a_groups].
  - by rewrite Egr, lookup_insert_eq.
  - by rewrite lookup_insert_ne.
Qed.

Lemma limit_elem {B : Type} count (l : list B) x : x ∈ limit count l -> x ∈ l.
Proof using. unfold limit. destruct count; [|done]. intros H. by apply elem_of_take in H as (i & H & _); eapply list_elem_of_lookup_2. Qed.

Lemma areads_ready now group c count noack s A l :
  streams_ok now s A -> forall r effs, areads group c l count noack A = Ok (r, effs) -> Forall (fun e => ready A e /\ effect_ok e) effs.
Proof.
  intros Hok. induction l as [|[k id_str] l IH]; intros r effs; cbn [areads]; [intros [= <- <-]; constructor|].
  destruct (stream_cases now s A k Hok) as [(_ & ->)|[(e & st & _ & _ & _ & _ & EA & Hst)|(v & exp & _ & ->)]]; [apply IH| |apply IH].
  rewrite EA. destruct (a_groups (abs_stream st) !! group) as [ag|] eqn:Eg; [|done].
  destruct (areads group c l count noack A) as [[res effs']|]; [|done].
  destruct (aread group c k id_str count noack ag (abs_stream st)) as [r' e'] eqn:Er. intros [= <- <-].
  apply Forall_app. split; [|by eapply IH]. unfold aread in Er. destruct (bytes_eqb id_str (bs ">")).
  - set (l0 := limit count _) in Er.
    assert (Forall id_ok l0.*1) as Hids.
    { apply Forall_forall. intros i (x & -> & Hx%limit_elem)%list_elem_of_fmap. apply list_elem_of_fmap in Hx as (y & -> & Hy).
      unfold range_from in Hy. apply filter_elem in Hy as [_ Hy]. cbn. pose proof (so_ids st Hst) as Hi. rewrite Forall_forall in Hi.
      apply Hi, list_elem_of_fmap. by exists y. }
    destruct (list.last l0) as [[i fs]|] eqn:El; injection Er as <- <-; [|constructor]. constructor; [|constructor].
    split; [by exists (abs_stream st), (expires_at e), ag|]. split; [|by destruct noack].
    apply last_Some in El as (l' & ->). rewrite fmap_app in Hids. apply Forall_app in Hids as [_ Hi]. by apply Forall_cons in Hi as [Hi _].
  - injection Er as <- <-. case_bool_decide; [constructor|]. constructor; [|constructor].
    split; [by exists (abs_stream st), (expires_at e), ag|done].
Qed.

(** What a delivery does to a group. *)
Definition deliver_group (consumer : option bytes) (last : StreamId) (ids : list StreamId) (g : ConsumerGroup) : ConsumerGroup :=
  let g := mkGroup last (g_consumers g) (g_pel g) in
  match consumer with
  | None => g
  | Some c => receive c ids inst_now (foldl (deliver_one c inst_now) g ids)
  end.

Lemma deliver_group_ok now k n consumer last ids g :
  group_ok g -> id_ok last -> Forall id_ok ids ->
  group_ok (deliver_group consumer last ids g) /\
  abs_group (deliver_group consumer last ids g) = aeffect_group now (Deliver k n consumer last ids) (abs_group g).
Proof.
  intros Hg Hl Hi. unfold deliver_group, aeffect_group. pose proof (group_ok_last g last Hg Hl) as Hg'.
  destruct consumer as [c|]; [|done]. rewrite deliver_all.
  assert (((fun i => (i, 1)) <$> ids).*1 = ids) as Eids by (rewrite <-list_fmap_compose; apply list_fmap_id).
  pose proof (handed_over c inst_now ((fun i => (i, 1)) <$> ids) _ Hg') as H. cbv zeta in H. rewrite Eids in H.
  assert (Forall count_ok ((fun i => (i, 1)) <$> ids).*2) as Hcnt.
  { rewrite <-list_fmap_compose. apply Forall_fmap, Forall_true. intros i. unfold count_ok, usize_max. cbn. lia. }
  by destruct (H Hi Hcnt) as [H1 H2].
Qed.

Lemma apply_effect_ok now e s A :
  streams_ok now s A -> ready A e -> effect_ok e ->
  let '(r, s') := apply_effect inst_now now e s in r = Ok tt /\ streams_ok now s' (aeffect now A e).
Proof.
  intros Hok (a & exp & ag & EA & Eg) He. unfold aeffect. rewrite EA, Eg. destruct e as [k g consumer last ids|k g c]; cbn [apply_effect effect_key effect_group] in *.
  - destruct He as [Hl Hi]. unfold apply_lxgroupread.
    by_group now k g A Hok (fun (_ : StreamData) gr => (Ok tt, deliver_group consumer last ids gr)).
    rewrite EA, Eg in H. destruct H as (st & gr & -> & -> & Hst & Hgr & Es & -> & H).
    { intros st gr _ Hgr. by apply (deliver_group_ok now k g). }
    split; [done|]. cbn [fst snd] in H. by rewrite (proj2 (deliver_group_ok now k g consumer last ids gr Hgr Hl Hi)) in H.
  - unfold xgroup_createconsumer. by_group now k g A Hok (fun (_ : StreamData) gr => new_consumer c now gr).
    specialize (H (fun st gr _ Hgr => proj1 (new_consumer_ok c now gr Hgr))).
    rewrite EA, Eg in H. destruct H as (st & gr & -> & -> & Hst & Hgr & Es & -> & H).
    destruct (new_consumer_ok c now gr Hgr) as [_ Hn]. cbn [aeffect_group].
    destruct (a_seen (abs_group gr) !! c).
    + rewrite Hn in H |- *. by split.
    + destruct Hn as [-> Hn]. by rewrite Hn in H.
Qed.

Lemma apply_effects_ok now effs : forall s A,
  streams_ok now s A -> Forall (fun e => ready A e /\ effect_ok e) effs ->
  let '(r, s') := apply_effects inst_now now effs s in r = Ok tt /\ streams_ok now s' (foldl (aeffect now) A effs).
Proof.
  induction effs as [|e effs IH]; intros s A Hok He; cbn [apply_effects foldl]; [done|]. apply Forall_cons in He as [[Hr Hi] He].
  pose proof (apply_effect_ok now e s A Hok Hr Hi) as H. destruct (apply_effect inst_now now e s) as [r s']. destruct H as [-> Hok'].
  apply IH; [done|]. eapply Forall_impl; [exact He|]. intros e' [Hr' Hi']. split; [by apply ready_after|done].
Qed.

Lemma xreadgroup_ok now g c ks ids count noack s A : streams_ok now s A -> refines now (XReadGroup g c ks ids count noack) s A.
Proof.
  intros Hok. unfold refines. cbn [xexec xspec]. unfold read_prepare, preview_xreadgroup.
  rewrite (preview_ok now g c count noack s A (zip ks ids) Hok).
  pose proof (areads_ready now g c count noack s A (zip ks ids) Hok) as Hr.
  destruct (areads g c (zip ks ids) count noack A) as [[res effs]|e]; [|by exists A]. cbn [app prepared_then rp_result rp_effects]. unfold read_apply.
  cbn [rp_result rp_effects].
  pose proof (apply_effects_ok now effs s A Hok (Hr res effs eq_refl)) as H. destruct (apply_effects inst_now now effs s) as [r s'].
  destruct H as [-> H]. by eexists.
Qed.

(** Commands with sizes of their type. *)
Definition xcmd_ok (c : xcmd) : Prop :=
  match c with
  | XAdd _ _ _ (Some n) | XTrim _ n => 0 <= n
  | _ => True
  end.

(** C31. The stream commands refine logs with consumer groups. A client sees, for each key, a list of
    entries in increasing order, a top identifier and groups with one list of owned pending entries.
    XADD appends above every entry (or reports why not) and trims from the front, ranges and reads
    select and limit, XDEL and XTRIM count what they remove; a group read delivers what lies after the
    group's position, moves it, and makes the entries pending for the consumer, a history read lists the
    consumer's own pending entries; acknowledgements, claims and the removal of a consumer change the
    list as said, and nothing else changes. The invariant that makes this so is kept: the entries and
    pending lists are sorted, no entry is above the top, and the pending sets of the consumers are
    exactly what the group's list says they own. *)
Theorem streams_refine now c s A :
  0 <= epoch_ms <= usize_max -> xcmd_ok c -> streams_ok now s A ->
  let '(r, s') := xexec now c s in exists A', xspec now c A r A' /\ streams_ok now s' A'.
Proof.
  intros He Hc Hok. destruct c; cbn [xcmd_ok] in Hc.
  - by apply xadd_ok.
  - by apply xlen_ok.
  - by apply xrange_ok.
  - by apply xrevrange_ok.
  - by apply xread_ok.
  - by apply xdel_ok.
  - by apply xtrim_ok.
  - by apply xgroup_create_ok.
  - by apply xgroup_destroy_ok.
  - by apply xgroup_setid_ok.
  - by apply createconsumer_ok.
  - by apply delconsumer_refines.
  - by apply xreadgroup_ok.
  - by apply xack_ok.
  - by apply xclaim_ok.
  - by apply xautoclaim_ok.
Qed.

End Contract.

(** ** Witnesses *)

Lemma new_streams_ok now : streams_ok now (new 4) (fun _ => SAbsent).
Proof.
  assert (forall k, find (new 4) k = None) as H.
  { intros k. unfold find, shard_at, new. cbn [shards].
    destruct (replicate 4 empty_shard !! _) as [sh|] eqn:E; [|done].
    apply lookup_replicate in E as [-> _]. done. }
  split; [split; [unfold nonempty; cbn; lia|done]|..].
  - intros k. by rewrite H.
  - intros k e h. by rewrite H.
Qed.

Lemma streams_refine_witness :
  let run := xexec (fun _ => 0) 7 1000 7 (fun _ => false) (fun _ _ v => Ok v) 7 (XAdd (bs "log") (bs "5-1") [(bs "f", bs "v")] None) (new 4) in
  run.1 = XId (mkId 5 1) /\
  exists A', xspec 1000 7 (fun _ => false) (fun _ _ v => Ok v) 7 (XAdd (bs "log") (bs "5-1") [(bs "f", bs "v")] None) (fun _ => SAbsent) run.1 A' /\
    streams_ok 7 run.2 A'.
Proof.
  cbv zeta. set (c := XAdd _ _ _ _).
  pose proof (streams_refine (fun _ => 0) 7 1000 7 (fun _ => false) (fun _ _ v => Ok v) 7 c (new 4) _
    ltac:(unfold usize_max; lia) I (new_streams_ok 7)) as H.
  assert ((xexec (fun _ => 0) 7 1000 7 (fun _ => false) (fun _ _ v => Ok v) 7 c (new 4)).1 = XId (mkId 5 1)) as E by (vm_compute; reflexivity).
  destruct (xexec _ _ _ _ _ _ _ _ _) as [r s']. split; [exact E|exact H].
Defined.

End Streams.
