(* ===== verification/Commands.v ===== *)
(** * Command table and classification ([src/src/cmd/mod.rs], lines 104-1770, and
      [is_write_command] of [src/src/eviction.rs])

    The registered commands with their minimal number of arguments, the durability strategy of each
    command, and the classes that route a command of a pipeline: special, read or write on the fast
    path, or general. The tables are those of the source, in its order.

    The classifications are spread over seven hand-written lists that have to agree with each other
    for every spelling of a command; the theorems say that they do. *)

From S2P Require Import Prelude.
Local Open Scope Z_scope.

Module Commands.

(** ** Command names *)

Definition is_ascii_lowercase (b : Z) : bool := in_rng 97 122 b.
Definition is_ascii_uppercase (b : Z) : bool := in_rng 65 90 b.
Definition to_upper (b : Z) : Z := if is_ascii_lowercase b then b - 32 else b.
Definition to_lower (b : Z) : Z := if is_ascii_uppercase b then b + 32 else b.
Definition upper (cmd : bytes) : bytes := to_upper <$> cmd.

(** [cmd_eq]: the input in upper case is the expected name. *)
Definition cmd_eq (input expected : bytes) : bool :=
  bytes_eqb input expected ||
  ((zlen input =? zlen expected) && bytes_eqb (upper input) expected).

(** [eq_ignore_ascii_case] *)
Definition eq_ignore_ascii_case (a b : bytes) : bool :=
  (zlen a =? zlen b) && bytes_eqb (to_lower <$> a) (to_lower <$> b).

(** ** Tables *)

Record CommandSpec := mkSpec { name : bytes; min_arity : Z }.
Definition spec (p : string * Z) : CommandSpec := mkSpec (bs p.1) p.2.

Section Tables.
Local Open Scope string_scope.
Local Open Scope Z_scope.

Definition COMMAND_SPECS : list CommandSpec := spec <$> [
  ("SET", 3); ("GET", 2); ("DEL", 2); ("DELIFEQ", 3); ("PING", 1); ("ECHO", 2); ("QUIT", 1);
  ("SETNX", 3); ("SETEX", 4); ("PSETEX", 4); ("GETSET", 3); ("MGET", 2); ("MSET", 3);
  ("STRLEN", 2); ("EXISTS", 2); ("INCR", 2); ("DECR", 2); ("INCRBY", 3); ("DECRBY", 3);
  ("APPEND", 3); ("KEYS", 2); ("SCAN", 2); ("TTL", 2); ("PTTL", 2); ("EXPIRE", 3); ("PEXPIRE", 3);
  ("PERSIST", 2); ("TYPE", 2); ("RENAME", 3); ("DBSIZE", 1); ("FLUSHDB", 1); ("FLUSHALL", 1);
  ("LPUSH", 3); ("RPUSH", 3); ("LCS", 3); ("LPOP", 2); ("RPOP", 2); ("LLEN", 2); ("LRANGE", 3);
  ("LINDEX", 3); ("HSET", 4); ("HMSET", 4); ("HGET", 3); ("HMGET", 3); ("HDEL", 3);
  ("HGETALL", 2); ("HKEYS", 2); ("HVALS", 2); ("HLEN", 2); ("HEXISTS", 3); ("HINCRBY", 4);
  ("SADD", 3); ("SREM", 3); ("SMEMBERS", 2); ("SISMEMBER", 3); ("SCARD", 2); ("SUNION", 2);
  ("SINTER", 2); ("SDIFF", 2); ("SAVE", 1); ("INFO", 1); ("LUX", 2); ("CONFIG", 1); ("CLIENT", 2);
  ("SELECT", 2); ("COMMAND", 1); ("MULTI", 1); ("EXEC", 1); ("DISCARD", 1); ("WATCH", 2);
  ("UNWATCH", 1); ("GETDEL", 2); ("GETEX", 2); ("GETRANGE", 4); ("GEOADD", 5); ("GEODIST", 4);
  ("GEOPOS", 3); ("GEOHASH", 3); ("GEOSEARCH", 4); ("GEOSEARCH_RO", 4); ("GEOSEARCHSTORE", 5);
  ("GEORADIUS", 6); ("GEORADIUS_RO", 6); ("GEORADIUSBYMEMBER", 5); ("GEORADIUSBYMEMBER_RO", 5);
  ("SUBSTR", 4); ("SETRANGE", 4); ("MSETNX", 3); ("UNLINK", 2); ("EXPIREAT", 3); ("PEXPIREAT", 3);
  ("EXPIRETIME", 2); ("PEXPIRETIME", 2); ("LSET", 4); ("LINSERT", 5); ("LREM", 4); ("LTRIM", 4);
  ("LPUSHX", 3); ("RPUSHX", 3); ("LPOS", 3); ("LMOVE", 5); ("RPOPLPUSH", 3); ("LMPOP", 3);
  ("BLMPOP", 4); ("BRPOPLPUSH", 3); ("HSETNX", 4); ("HINCRBYFLOAT", 4); ("HSTRLEN", 3);
  ("SPOP", 2); ("SRANDMEMBER", 2); ("SMOVE", 4); ("SMISMEMBER", 3); ("SDIFFSTORE", 3);
  ("SINTERSTORE", 3); ("SUNIONSTORE", 3); ("SINTERCARD", 3); ("HRANDFIELD", 2); ("HEXPIRE", 6);
  ("HPEXPIRE", 6); ("HEXPIREAT", 6); ("HPEXPIREAT", 6); ("HTTL", 5); ("HPTTL", 5);
  ("HEXPIRETIME", 5); ("HPEXPIRETIME", 5); ("HPERSIST", 5); ("HGETEX", 5); ("HGETDEL", 5);
  ("HSCAN", 3); ("SSCAN", 3); ("INCRBYFLOAT", 3); ("TIME", 1); ("RENAMENX", 3); ("RANDOMKEY", 1);
  ("HELLO", 1); ("PSUBSCRIBE", 2); ("PUNSUBSCRIBE", 1); ("COPY", 3); ("FUNCTION", 1);
  ("DEBUG", 1); ("DUMP", 1); ("WAIT", 1); ("WAITAOF", 1); ("RESTORE", 1); ("TOUCH", 1);
  ("MIGRATE", 1); ("RESET", 1); ("LATENCY", 1); ("SWAPDB", 1); ("OBJECT", 1); ("MEMORY", 1);
  ("BGSAVE", 1); ("LASTSAVE", 1); ("PUBLISH", 3); ("PUBSUB", 2); ("SPUBLISH", 1);
  ("SSUBSCRIBE", 1); ("SUNSUBSCRIBE", 1); ("SUBSCRIBE", 2); ("UNSUBSCRIBE", 1); ("ZADD", 4);
  ("ZSCORE", 3); ("ZRANK", 3); ("ZREVRANK", 3); ("ZREVRANGE", 4); ("ZREM", 3); ("ZCARD", 2);
  ("ZRANGE", 4); ("ZRANGESTORE", 5); ("BZMPOP", 4); ("ZINCRBY", 4); ("ZCOUNT", 4); ("ZPOPMIN", 2);
  ("ZPOPMAX", 2); ("ZUNIONSTORE", 4); ("ZINTERSTORE", 4); ("ZDIFFSTORE", 4); ("ZUNION", 3);
  ("ZINTER", 3); ("ZDIFF", 3); ("ZINTERCARD", 3); ("ZMPOP", 4); ("ZRANDMEMBER", 2); ("ZSCAN", 3);
  ("ZMSCORE", 3); ("ZLEXCOUNT", 4); ("ZRANGEBYSCORE", 4); ("ZREVRANGEBYSCORE", 4);
  ("ZRANGEBYLEX", 4); ("ZREVRANGEBYLEX", 4); ("ZREMRANGEBYRANK", 4); ("ZREMRANGEBYSCORE", 4);
  ("ZREMRANGEBYLEX", 4); ("AUTH", 2); ("BLPOP", 3); ("BRPOP", 3); ("BLMOVE", 6); ("BZPOPMIN", 3);
  ("BZPOPMAX", 3); ("XADD", 5); ("XLEN", 2); ("XRANGE", 4); ("XREVRANGE", 4); ("XREAD", 2);
  ("XREADGROUP", 5); ("XGROUP", 2); ("XACK", 3); ("XPENDING", 3); ("XCLAIM", 6);
  ("XAUTOCLAIM", 6); ("XDEL", 3); ("XTRIM", 2); ("XINFO", 2); ("EVAL", 3); ("EVALSHA", 3);
  ("ENC", 2); ("SCRIPT", 2); ("VSET", 4); ("VGET", 2); ("VSEARCH", 4); ("VCARD", 2); ("PFADD", 2);
  ("PFCOUNT", 2); ("PFMERGE", 2); ("SORT", 2); ("SORT_RO", 2); ("TSADD", 4); ("TSMADD", 4);
  ("TSGET", 2); ("TSRANGE", 4); ("TSMRANGE", 5); ("TSINFO", 2); ("SETBIT", 4); ("GETBIT", 3);
  ("BITCOUNT", 2); ("BITPOS", 2); ("BITOP", 4); ("BITFIELD", 2); ("BITFIELD_RO", 2); ("KSUB", 2);
  ("KUNSUB", 1); ("TCREATE", 3); ("TINSERT", 2); ("TUPSERT", 2); ("TUPDATE", 7); ("TDELETE", 6);
  ("TDROP", 2); ("TINDEX", 4); ("TDROPINDEX", 3); ("GRANT", 4); ("REVOKE", 4); ("TCOUNT", 2);
  ("TSCHEMA", 2); ("TLIST", 1); ("TALTER", 4); ("TSELECT", 4); ("TSET", 5); ("TGET", 3)
]%string.

Definition GENERIC_JOURNAL_COMMANDS : list bytes := bs <$> [
  "DEL"; "DELIFEQ"; "SETNX"; "GETSET"; "APPEND"; "INCR"; "DECR"; "INCRBY"; "DECRBY";
  "INCRBYFLOAT"; "SETRANGE"; "LPOP"; "RPOP"; "LSET"; "LINSERT"; "LREM"; "LTRIM"; "LPUSHX";
  "RPUSHX"; "SADD"; "SREM"; "HSETNX"; "HDEL"; "HINCRBY"; "HINCRBYFLOAT"; "HPERSIST"; "HGETDEL";
  "ZADD"; "ZREM"; "ZINCRBY"; "ZPOPMIN"; "ZPOPMAX"; "ZREMRANGEBYRANK"; "ZREMRANGEBYSCORE";
  "ZREMRANGEBYLEX"; "GEOADD"; "GEOSEARCHSTORE"; "GEORADIUS"; "GEORADIUSBYMEMBER"; "XDEL"; "XTRIM";
  "XGROUP"; "XACK"; "RENAME"; "RENAMENX"; "UNLINK"; "GETDEL"; "FLUSHDB"; "FLUSHALL"; "PFADD";
  "PFMERGE"; "SETBIT"; "BITOP"; "BITFIELD"; "SORT"
]%string.

Definition RESOLVED_JOURNAL_COMMANDS : list bytes := bs <$> [
  "SET"; "SETEX"; "PSETEX"; "MSET"; "MSETNX"; "EXPIRE"; "PEXPIRE"; "EXPIREAT"; "PEXPIREAT";
  "PERSIST"; "GETEX"; "LMOVE"; "RPOPLPUSH"; "LMPOP"; "BLPOP"; "BRPOP"; "BLMOVE"; "BLMPOP";
  "BRPOPLPUSH"; "SPOP"; "SMOVE"; "SDIFFSTORE"; "SINTERSTORE"; "SUNIONSTORE"; "HSET"; "HMSET";
  "HEXPIRE"; "HPEXPIRE"; "HEXPIREAT"; "HPEXPIREAT"; "HGETEX"; "ZRANGESTORE"; "ZUNIONSTORE";
  "ZINTERSTORE"; "ZDIFFSTORE"; "ZMPOP"; "BZPOPMIN"; "BZPOPMAX"; "BZMPOP"; "COPY"; "RESTORE";
  "XADD"; "XREADGROUP"; "XCLAIM"; "XAUTOCLAIM"; "EVAL"; "EVALSHA"; "LUX"; "VSET"; "TSADD";
  "TSMADD"; "TCREATE"; "TINSERT"; "TUPSERT"; "TUPDATE"; "TDELETE"; "TDROP"; "TALTER"; "TINDEX";
  "TDROPINDEX"; "GRANT"; "REVOKE"; "TSET"
]%string.

Definition ARGUMENT_DEPENDENT_JOURNAL_COMMANDS : list bytes := bs <$> [
  "LPUSH"; "RPUSH"
]%string.

Definition NO_JOURNAL_COMMANDS : list bytes := bs <$> [
  "GET"; "PING"; "ECHO"; "QUIT"; "MGET"; "STRLEN"; "EXISTS"; "KEYS"; "SCAN"; "TTL"; "PTTL";
  "TYPE"; "DBSIZE"; "LCS"; "LLEN"; "LRANGE"; "LINDEX"; "HGET"; "HMGET"; "HGETALL"; "HKEYS";
  "HVALS"; "HLEN"; "HEXISTS"; "SMEMBERS"; "SISMEMBER"; "SCARD"; "SUNION"; "SINTER"; "SDIFF";
  "SAVE"; "INFO"; "CONFIG"; "CLIENT"; "SELECT"; "COMMAND"; "MULTI"; "EXEC"; "DISCARD"; "WATCH";
  "UNWATCH"; "GETRANGE"; "GEODIST"; "GEOPOS"; "GEOHASH"; "GEOSEARCH"; "GEOSEARCH_RO";
  "GEORADIUS_RO"; "GEORADIUSBYMEMBER_RO"; "SUBSTR"; "EXPIRETIME"; "PEXPIRETIME"; "LPOS";
  "HSTRLEN"; "SRANDMEMBER"; "SMISMEMBER"; "SINTERCARD"; "HRANDFIELD"; "HTTL"; "HPTTL";
  "HEXPIRETIME"; "HPEXPIRETIME"; "HSCAN"; "SSCAN"; "TIME"; "RANDOMKEY"; "HELLO"; "PSUBSCRIBE";
  "PUNSUBSCRIBE"; "FUNCTION"; "DEBUG"; "DUMP"; "WAIT"; "WAITAOF"; "TOUCH"; "MIGRATE"; "RESET";
  "LATENCY"; "SWAPDB"; "OBJECT"; "MEMORY"; "BGSAVE"; "LASTSAVE"; "PUBLISH"; "PUBSUB"; "SPUBLISH";
  "SSUBSCRIBE"; "SUNSUBSCRIBE"; "SUBSCRIBE"; "UNSUBSCRIBE"; "ZSCORE"; "ZRANK"; "ZREVRANK";
  "ZREVRANGE"; "ZCARD"; "ZRANGE"; "ZCOUNT"; "ZUNION"; "ZINTER"; "ZDIFF"; "ZINTERCARD";
  "ZRANDMEMBER"; "ZSCAN"; "ZMSCORE"; "ZLEXCOUNT"; "ZRANGEBYSCORE"; "ZREVRANGEBYSCORE";
  "ZRANGEBYLEX"; "ZREVRANGEBYLEX"; "AUTH"; "XLEN"; "XRANGE"; "XREVRANGE"; "XREAD"; "XPENDING";
  "XINFO"; "ENC"; "SCRIPT"; "VGET"; "VSEARCH"; "VCARD"; "PFCOUNT"; "SORT_RO"; "TSGET"; "TSRANGE";
  "TSMRANGE"; "TSINFO"; "GETBIT"; "BITCOUNT"; "BITPOS"; "BITFIELD_RO"; "KSUB"; "KUNSUB"; "TCOUNT";
  "TSCHEMA"; "TLIST"; "TSELECT"; "TGET"
]%string.

Definition WRITE_COMMANDS : list bytes := bs <$> [
  "SET"; "SETNX"; "SETEX"; "PSETEX"; "MSET"; "MSETNX"; "APPEND"; "INCR"; "DECR"; "INCRBY";
  "DECRBY"; "INCRBYFLOAT"; "GETSET"; "SETRANGE"; "LPUSH"; "RPUSH"; "LPOP"; "RPOP"; "LSET"; "LREM";
  "LMOVE"; "LMPOP"; "SADD"; "SREM"; "SPOP"; "SMOVE"; "SDIFFSTORE"; "SINTERSTORE"; "SUNIONSTORE";
  "HSET"; "HEXPIRE"; "HPEXPIRE"; "HEXPIREAT"; "HPEXPIREAT"; "HPERSIST"; "HGETDEL"; "HSETNX";
  "HDEL"; "HINCRBY"; "HINCRBYFLOAT"; "ZADD"; "ZREM"; "ZINCRBY"; "ZPOPMIN"; "ZPOPMAX"; "ZMPOP";
  "ZUNIONSTORE"; "ZINTERSTORE"; "ZDIFFSTORE"; "ZRANGESTORE"; "GEOADD"; "GEOSEARCHSTORE";
  "GEORADIUS"; "GEORADIUSBYMEMBER"; "XADD"; "XDEL"; "XTRIM"; "XGROUP"; "XACK"; "XREADGROUP";
  "XCLAIM"; "XAUTOCLAIM"; "RENAME"; "RENAMENX"; "RESTORE"; "DEL"; "UNLINK"; "EXPIRE"; "PEXPIRE";
  "EXPIREAT"; "PEXPIREAT"; "PERSIST"; "GETDEL"; "DELIFEQ"; "GETEX"; "FLUSHDB"; "FLUSHALL"; "COPY";
  "VSET"; "PFADD"; "PFMERGE"; "SETBIT"; "BITOP"; "BITFIELD"; "SORT"; "TSADD"; "TSMADD"; "TCREATE";
  "TINSERT"; "TUPSERT"; "TUPDATE"; "TDELETE"; "TDROP"; "TALTER"; "TINDEX"; "TDROPINDEX"; "TSET";
  "EVAL"; "EVALSHA"; "RPOPLPUSH"; "LINSERT"; "LPUSHX"; "RPUSHX"; "HMSET"; "LTRIM"; "ZRANGESTORE";
  "ZREMRANGEBYRANK"; "ZREMRANGEBYSCORE"; "ZREMRANGEBYLEX"
]%string.
End Tables.

Inductive JournalStrategy := NoJournal | Generic | Resolved | Unclassified.

#[export] Instance JournalStrategy_eq_dec : EqDecision JournalStrategy.
Proof. solve_decision. Defined.

Definition command_in (cmd : bytes) (commands : list bytes) : bool := existsb (cmd_eq cmd) commands.

Definition last_is_encrypted (args : list bytes) : bool :=
  match last args with Some arg => cmd_eq arg (bs "ENCRYPTED") | None => false end.

Definition journal_strategy_for_args (args : list bytes) : JournalStrategy :=
  match head args with
  | None => NoJournal
  | Some cmd =>
      if command_in cmd GENERIC_JOURNAL_COMMANDS then Generic
      else if command_in cmd RESOLVED_JOURNAL_COMMANDS then Resolved
      else if command_in cmd ARGUMENT_DEPENDENT_JOURNAL_COMMANDS
      then if last_is_encrypted args then Resolved else Generic
      else if command_in cmd NO_JOURNAL_COMMANDS then NoJournal
      else Unclassified
  end.

Definition command_spec (cmd : bytes) : option CommandSpec :=
  List.find (fun s => cmd_eq cmd (name s)) COMMAND_SPECS.
Definition command_count : Z := zlen COMMAND_SPECS.
Definition is_known_command (cmd : bytes) : bool :=
  match command_spec cmd with Some _ => true | None => false end.

(** The error of [validate_args]; the command in the second one is in lower case. *)
Inductive ArgError := NoCommand | WrongNumberOfArguments (cmd : bytes).

Definition validate_args (args : list bytes) : option ArgError :=
  match args with
  | [] => Some NoCommand
  | cmd :: _ =>
      match command_spec cmd with
      | None => None
      | Some s => if zlen args <? min_arity s then Some (WrongNumberOfArguments cmd) else None
      end
  end.

(** ** Classes of commands *)

Definition any_of (cmd : bytes) (names : list string) : bool := existsb (fun n => cmd_eq cmd (bs n)) names.

Definition is_public_without_auth_command (cmd : bytes) : bool :=
  is_known_command cmd && any_of cmd ["AUTH"; "HELLO"; "PING"; "QUIT"].

Definition is_blocking_command (cmd : bytes) : bool :=
  any_of cmd ["BLPOP"; "BRPOP"; "BLMOVE"; "BRPOPLPUSH"; "BLMPOP"; "BZPOPMIN"; "BZPOPMAX"; "BZMPOP"].

Definition is_script_command (cmd : bytes) : bool := any_of cmd ["EVAL"; "EVALSHA"; "SCRIPT"].

Definition is_pipeline_special_command (cmd : bytes) : bool :=
  any_of cmd ["SUBSCRIBE"; "UNSUBSCRIBE"; "PSUBSCRIBE"; "PUNSUBSCRIBE"; "KSUB"; "KUNSUB"; "PUBLISH";
              "AUTH"; "QUIT"; "MULTI"; "EXEC"; "DISCARD"; "WATCH"; "UNWATCH"] ||
  is_blocking_command cmd || is_script_command cmd || any_of cmd ["XREAD"; "XREADGROUP"].

Definition is_write_command (cmd : bytes) : bool := existsb (eq_ignore_ascii_case cmd) WRITE_COMMANDS.

Inductive PipelineAccess := General | Read | Write.

(** [cmd[0].to_ascii_uppercase()] is the letter; [cmd] is not empty. *)
Definition first_is (letter : string) (cmd : bytes) : bool :=
  bytes_eqb (upper (take 1 cmd)) (bs letter).

Definition access (cmd : bytes) (reads writes : list string) : PipelineAccess :=
  if any_of cmd reads then Read else if any_of cmd writes then Write else General.

Definition pipeline_access (cmd : bytes) : PipelineAccess :=
  if bool_decide (cmd = []) then General
  else if first_is "A" cmd then access cmd [] ["APPEND"]
  else if first_is "D" cmd then access cmd [] ["DECR"; "DECRBY"]
  else if first_is "E" cmd then access cmd ["EXISTS"] []
  else if first_is "G" cmd then access cmd ["GET"; "GEODIST"; "GEOPOS"] ["GETSET"; "GEOADD"]
  else if first_is "H" cmd
  then access cmd ["HGET"; "HLEN"; "HMGET"; "HEXISTS"; "HGETALL"] ["HSET"; "HINCRBY"; "HDEL"]
  else if first_is "I" cmd then access cmd [] ["INCR"; "INCRBY"]
  else if first_is "L" cmd then access cmd ["LLEN"; "LINDEX"; "LRANGE"] ["LPUSH"; "LPOP"]
  else if first_is "P" cmd then access cmd ["PTTL"] []
  else if first_is "R" cmd then access cmd [] ["RPOP"; "RPUSH"]
  else if first_is "S" cmd
  then access cmd ["STRLEN"; "SCARD"; "SMEMBERS"; "SISMEMBER"; "SRANDMEMBER"]
                  ["SET"; "SETNX"; "SETEX"; "SADD"; "SREM"; "SPOP"]
  else if first_is "T" cmd then access cmd ["TTL"; "TYPE"] []
  else if first_is "X" cmd then access cmd ["XLEN"; "XRANGE"] ["XADD"]
  else if first_is "Z" cmd
  then access cmd ["ZCARD"; "ZSCORE"; "ZCOUNT"] ["ZADD"; "ZINCRBY"; "ZREM"; "ZPOPMIN"; "ZPOPMAX"]
  else General.

(** [args[0]] *)
Definition cmd_of (args : list bytes) : bytes := match args with cmd :: _ => cmd | [] => [] end.

(** The arguments of a command on the fast path; [args[0]] is not empty. *)
Definition pipeline_fast_path_arity (args : list bytes) : bool :=
  let cmd := cmd_of args in
  let n := zlen args in
  let is_ c := cmd_eq cmd (bs c) in
  if first_is "A" cmd || first_is "D" cmd || first_is "I" cmd then false
  else if first_is "E" cmd then is_ "EXISTS" && (n =? 2)
  else if first_is "G" cmd
  then (is_ "GET" && (n =? 2)) || (is_ "GEODIST" && ((n =? 4) || (n =? 5))) ||
       (is_ "GEOPOS" && (n >=? 3)) || (is_ "GEOADD" && (n >=? 5))
  else if first_is "H" cmd
  then (is_ "HGET" && (n =? 3)) || (is_ "HLEN" && (n =? 2)) || (is_ "HMGET" && (n >=? 3)) ||
       (is_ "HEXISTS" && (n =? 3)) || (is_ "HGETALL" && (n =? 2)) || (is_ "HINCRBY" && (n =? 4)) ||
       (is_ "HDEL" && (n >=? 3))
  else if first_is "L" cmd
  then (is_ "LLEN" && (n =? 2)) || (is_ "LINDEX" && (n =? 3)) || (is_ "LRANGE" && (n =? 4)) ||
       (is_ "LPUSH" && (n >=? 3) && negb (last_is_encrypted args)) || (is_ "LPOP" && (n =? 2))
  else if first_is "P" cmd then is_ "PTTL" && (n =? 2)
  else if first_is "R" cmd
  then (is_ "RPOP" && (n =? 2)) || (is_ "RPUSH" && (n >=? 3) && negb (last_is_encrypted args))
  else if first_is "S" cmd
  then (is_ "STRLEN" && (n =? 2)) || (is_ "SCARD" && (n =? 2)) || (is_ "SMEMBERS" && (n =? 2)) ||
       (is_ "SISMEMBER" && (n =? 3)) || (is_ "SRANDMEMBER" && (n =? 2)) || (is_ "SET" && (n =? 3)) ||
       (is_ "SADD" && (n >=? 3)) || (is_ "SREM" && (n >=? 3))
  else if first_is "T" cmd then (is_ "TTL" || is_ "TYPE") && (n =? 2)
  else if first_is "X" cmd then is_ "XLEN" && (n =? 2)
  else if first_is "Z" cmd
  then (is_ "ZCARD" && (n =? 2)) || (is_ "ZSCORE" && (n =? 3)) || (is_ "ZCOUNT" && (n =? 4)) ||
       (is_ "ZADD" && (n >=? 4)) || (is_ "ZINCRBY" && (n =? 4)) || (is_ "ZREM" && (n >=? 3)) ||
       (is_ "ZPOPMIN" && (n =? 2)) || (is_ "ZPOPMAX" && (n =? 2))
  else false.

Definition pipeline_access_for_args (args : list bytes) : PipelineAccess :=
  let cmd := cmd_of args in
  let n := zlen args in
  let is_ c := cmd_eq cmd (bs c) in
  let rest := if negb (pipeline_fast_path_arity args) then General else pipeline_access cmd in
  if bool_decide (args = []) || bool_decide (cmd = []) then General
  else if (n =? 2) && is_ "GET" then Read
  else if first_is "Z" cmd
  then if is_ "ZCARD" then (if n =? 2 then Read else General)
       else if is_ "ZSCORE" then (if n =? 3 then Read else General)
       else if is_ "ZCOUNT" then (if n =? 4 then Read else General)
       else if any_of cmd ["ZADD"; "ZINCRBY"; "ZREM"; "ZPOPMIN"; "ZPOPMAX"]
       then (if pipeline_fast_path_arity args then Write else General)
       else rest
  else rest.

(** ** Statement terminators of table commands *)

Definition is_table_terminator_command (cmd : bytes) : bool :=
  any_of cmd ["TSELECT"; "TINSERT"; "TUPSERT"; "TUPDATE"; "TDELETE"; "TCREATE"; "TDROP"; "TINDEX";
              "TDROPINDEX"; "TCOUNT"; "TSCHEMA"; "TALTER"; "TLIST"; "GRANT"; "REVOKE"].

Definition strip_trailing_terminator (args : list bytes) : list bytes :=
  match last args with
  | Some arg =>
      let before := removelast args in
      if bytes_eqb arg [59] then before
      else if bool_decide (last arg = Some 59)
      then let trimmed := removelast arg in
           if bool_decide (trimmed = []) then before else before ++ [trimmed]
      else args
  | None => args
  end.

(** ** Classification depends on the upper-case name only *)

Lemma upper_idem cmd : upper (upper cmd) = upper cmd.
Proof.
  unfold upper. rewrite <-list_fmap_compose. apply list_fmap_ext. intros _ b _. cbn.
  unfold to_upper, is_ascii_lowercase, in_rng.
  destruct ((97 <=? b) && (b <=? 122)) eqn:E; [|by rewrite E].
  apply andb_true_iff in E as [?%Z.leb_le ?%Z.leb_le].
  destruct ((97 <=? b - 32) && (b - 32 <=? 122)) eqn:E'; [|done].
  apply andb_true_iff in E' as [?%Z.leb_le ?%Z.leb_le]. lia.
Qed.

Lemma length_upper cmd : length (upper cmd) = length cmd.
Proof. apply length_fmap. Qed.

Lemma upper_nil cmd : upper cmd = [] -> cmd = [].
Proof. intros H. apply nil_length_inv. by rewrite <-length_upper, H. Qed.

(** Against an expected name without lower-case letters, [cmd_eq] compares upper-case forms. *)
Definition is_upper (e : bytes) : bool := bytes_eqb (upper e) e.

Lemma cmd_eq_upper cmd e : is_upper e = true -> cmd_eq cmd e = bytes_eqb (upper cmd) e.
Proof.
  unfold is_upper, cmd_eq, bytes_eqb. intros He%bool_decide_eq_true.
  destruct (bool_decide_reflect (cmd = e)) as [->|Hne]; [by rewrite He, bool_decide_eq_true_2|]. cbn.
  destruct (bool_decide_reflect (upper cmd = e)) as [<-|]; [|by rewrite andb_false_r].
  unfold zlen. by rewrite length_upper, Z.eqb_refl.
Qed.

Lemma cmd_eq_spelling cmd e : is_upper e = true -> cmd_eq cmd e = cmd_eq (upper cmd) e.
Proof. intros He. by rewrite (cmd_eq_upper cmd), (cmd_eq_upper (upper cmd)), upper_idem by done. Qed.

Lemma existsb_spelling cmd l :
  forallb is_upper l = true -> existsb (cmd_eq cmd) l = existsb (cmd_eq (upper cmd)) l.
Proof.
  induction l as [|e l IH]; [done|]. cbn. intros [He Hl]%andb_true_iff. by rewrite cmd_eq_spelling, IH by done.
Qed.

Lemma any_of_spelling cmd l :
  forallb (fun n => is_upper (bs n)) l = true -> any_of cmd l = any_of (upper cmd) l.
Proof.
  unfold any_of. induction l as [|e l IH]; [done|]. cbn. intros [He Hl]%andb_true_iff.
  by rewrite cmd_eq_spelling, IH by done.
Qed.

Lemma first_is_spelling l cmd : first_is l cmd = first_is l (upper cmd).
Proof.
  unfold first_is. f_equal. destruct cmd as [|b cmd]; [done|]. cbn [take upper].
  change (upper [b] = upper (upper [b])). by rewrite upper_idem.
Qed.

Lemma access_spelling cmd r w :
  forallb (fun n => is_upper (bs n)) r = true -> forallb (fun n => is_upper (bs n)) w = true ->
  access cmd r w = access (upper cmd) r w.
Proof. intros ??. unfold access. by rewrite (any_of_spelling cmd r), (any_of_spelling cmd w). Qed.

Lemma bool_decide_upper_nil cmd : bool_decide (cmd = []) = bool_decide (upper cmd = []).
Proof. apply bool_decide_ext. split; [by intros ->|apply upper_nil]. Qed.

Lemma pipeline_access_spelling cmd : pipeline_access cmd = pipeline_access (upper cmd).
Proof.
  unfold pipeline_access. rewrite bool_decide_upper_nil.
  rewrite !(first_is_spelling _ cmd), !(access_spelling cmd) by reflexivity. reflexivity.
Qed.

Lemma to_lower_upper b : to_lower (to_upper b) = to_lower b.
Proof.
  unfold to_lower, to_upper, is_ascii_uppercase, is_ascii_lowercase, in_rng.
  destruct ((97 <=? b) && (b <=? 122)) eqn:E; [|done].
  apply andb_true_iff in E as [?%Z.leb_le ?%Z.leb_le].
  destruct (Z.leb_spec 65 (b - 32)), (Z.leb_spec (b - 32) 90), (Z.leb_spec 65 b), (Z.leb_spec b 90); cbn; lia.
Qed.

Lemma write_spelling cmd : is_write_command cmd = is_write_command (upper cmd).
Proof.
  unfold is_write_command. induction WRITE_COMMANDS as [|e l IH]; [done|]. cbn. rewrite IH. f_equal.
  unfold eq_ignore_ascii_case, upper. unfold zlen. rewrite length_fmap. do 2 f_equal.
  rewrite <-list_fmap_compose. apply list_fmap_ext. intros _ b _. cbn. by rewrite to_lower_upper.
Qed.

Lemma command_spec_spelling cmd : command_spec cmd = command_spec (upper cmd).
Proof.
  unfold command_spec.
  assert (forallb (fun s => is_upper (name s)) COMMAND_SPECS = true) as H by (vm_compute; reflexivity).
  revert H. induction COMMAND_SPECS as [|s l IH]; [done|]. cbn [forallb List.find]. intros [Hs Hl]%andb_true_iff.
  by rewrite cmd_eq_spelling, IH by done.
Qed.

Lemma special_spelling cmd : is_pipeline_special_command cmd = is_pipeline_special_command (upper cmd).
Proof.
  unfold is_pipeline_special_command, is_blocking_command, is_script_command.
  rewrite !(any_of_spelling cmd) by reflexivity. reflexivity.
Qed.

(** The parts of a command that classification looks at besides its name. *)
Lemma last_encrypted_cons c args :
  is_upper c = true ->
  last_is_encrypted (c :: args) = match args with [] => bytes_eqb c (bs "ENCRYPTED") | _ => last_is_encrypted args end.
Proof. intros Hc. destruct args; [|done]. cbn. rewrite cmd_eq_upper by reflexivity. unfold is_upper, bytes_eqb in *. by apply bool_decide_eq_true in Hc as ->. Qed.

Lemma last_encrypted_spelling cmd args :
  last_is_encrypted (cmd :: args) = last_is_encrypted (upper cmd :: args).
Proof. destruct args; [|done]. cbn. by rewrite cmd_eq_spelling by reflexivity. Qed.

Lemma strategy_spelling cmd args :
  journal_strategy_for_args (cmd :: args) = journal_strategy_for_args (upper cmd :: args).
Proof.
  unfold journal_strategy_for_args, command_in. cbn [head].
  rewrite !(existsb_spelling cmd) by (vm_compute; reflexivity). by rewrite last_encrypted_spelling.
Qed.

Lemma arity_spelling cmd args :
  pipeline_fast_path_arity (cmd :: args) = pipeline_fast_path_arity (upper cmd :: args).
Proof.
  unfold pipeline_fast_path_arity. cbn [cmd_of]. rewrite last_encrypted_spelling.
  rewrite !(first_is_spelling _ cmd), !(cmd_eq_spelling cmd) by reflexivity. reflexivity.
Qed.

Lemma access_for_args_spelling cmd args :
  pipeline_access_for_args (cmd :: args) = pipeline_access_for_args (upper cmd :: args).
Proof.
  unfold pipeline_access_for_args. cbn [cmd_of].
  rewrite bool_decide_upper_nil, arity_spelling, pipeline_access_spelling.
  rewrite !(first_is_spelling _ cmd), !(cmd_eq_spelling cmd), !(any_of_spelling cmd) by reflexivity.
  reflexivity.
Qed.

Lemma validate_spelling cmd args :
  validate_args (cmd :: args) = None <-> validate_args (upper cmd :: args) = None.
Proof.
  unfold validate_args. rewrite command_spec_spelling. destruct (command_spec (upper cmd)); [|done].
  change (zlen (cmd :: args)) with (zlen (upper cmd :: args)). by destruct (_ <? _).
Qed.

(** ** The fast path of a pipeline *)

Definition FAST_COMMANDS : list string :=
  ["APPEND"; "DECR"; "DECRBY"; "EXISTS"; "GET"; "GEODIST"; "GEOPOS"; "GETSET"; "GEOADD"; "HGET"; "HLEN";
   "HMGET"; "HEXISTS"; "HGETALL"; "HSET"; "HINCRBY"; "HDEL"; "INCR"; "INCRBY"; "LLEN"; "LINDEX"; "LRANGE";
   "LPUSH"; "LPOP"; "PTTL"; "RPOP"; "RPUSH"; "STRLEN"; "SCARD"; "SMEMBERS"; "SISMEMBER"; "SRANDMEMBER";
   "SET"; "SETNX"; "SETEX"; "SADD"; "SREM"; "SPOP"; "TTL"; "TYPE"; "XLEN"; "XRANGE"; "XADD"; "ZCARD";
   "ZSCORE"; "ZCOUNT"; "ZADD"; "ZINCRBY"; "ZREM"; "ZPOPMIN"; "ZPOPMAX"].

Lemma any_of_in u l : upper u = u -> any_of u l = true -> exists n, n ∈ l /\ u = bs n.
Proof.
  intros Hu. unfold any_of. intros (n & Hn%list_elem_of_In & He)%existsb_exists. exists n. split; [done|].
  unfold cmd_eq, bytes_eqb in He. rewrite Hu in He.
  apply orb_true_iff in He as [?%bool_decide_eq_true|[_ ?%bool_decide_eq_true]%andb_true_iff]; done.
Qed.

Lemma any_of_weaken u l l' :
  forallb (fun n => existsb (String.eqb n) l') l = true -> any_of u l = true -> any_of u l' = true.
Proof.
  rewrite forallb_forall. intros Hs (n & Hn & He)%existsb_exists.
  apply Hs, existsb_exists in Hn as (m & Hm & ->%String.eqb_eq). apply existsb_exists. by exists m.
Qed.

Lemma access_known u r w : access u r w <> General -> any_of u (r ++ w) = true.
Proof.
  unfold access, any_of. rewrite existsb_app. destruct (existsb _ r); [done|]. by destruct (existsb _ w).
Qed.

Lemma access_weaken u r w l :
  forallb (fun n => existsb (String.eqb n) l) (r ++ w) = true ->
  access u r w <> General -> any_of u l = true.
Proof. intros Hs Ha%access_known. by eapply any_of_weaken. Qed.

Lemma pipeline_access_fast u : pipeline_access u <> General -> any_of u FAST_COMMANDS = true.
Proof.
  unfold pipeline_access. destruct (bool_decide _); [done|].
  repeat (destruct (first_is _ u); [apply access_weaken; reflexivity|]). done.
Qed.

Lemma fast_access u rest :
  pipeline_access_for_args (u :: rest) <> General -> any_of u FAST_COMMANDS = true.
Proof.
  assert (forall n, existsb (String.eqb n) FAST_COMMANDS = true -> cmd_eq u (bs n) = true -> any_of u FAST_COMMANDS = true) as Hin.
  { intros n (m & Hm & ->%String.eqb_eq)%existsb_exists He. apply existsb_exists. by exists m. }
  unfold pipeline_access_for_args. cbv beta zeta. cbn [cmd_of].
  destruct (_ || _); [done|].
  destruct (cmd_eq u (bs "GET")) eqn:Eg; [intros _; by apply (Hin "GET")|].
  rewrite andb_false_r.
  destruct (first_is "Z" u).
  - destruct (cmd_eq u (bs "ZCARD")) eqn:E1; [intros _; by apply (Hin "ZCARD")|].
    destruct (cmd_eq u (bs "ZSCORE")) eqn:E2; [intros _; by apply (Hin "ZSCORE")|].
    destruct (cmd_eq u (bs "ZCOUNT")) eqn:E3; [intros _; by apply (Hin "ZCOUNT")|].
    destruct (any_of u ["ZADD"; "ZINCRBY"; "ZREM"; "ZPOPMIN"; "ZPOPMAX"]) eqn:E4.
    + intros _. eapply any_of_weaken; [|exact E4]. reflexivity.
    + destruct (negb _); [done|apply pipeline_access_fast].
  - destruct (negb _); [done|apply pipeline_access_fast].
Qed.

(** What routing a command with these arguments to the fast path relies on. *)
Definition fast_path_ok (args : list bytes) : Prop :=
  match pipeline_access_for_args args with
  | General => True
  | Read => journal_strategy_for_args args = NoJournal /\ is_write_command (cmd_of args) = false
  | Write => journal_strategy_for_args args <> NoJournal /\ journal_strategy_for_args args <> Unclassified /\
             is_write_command (cmd_of args) = true
  end /\
  (pipeline_access_for_args args <> General ->
     is_known_command (cmd_of args) = true /\ validate_args args = None /\
     is_pipeline_special_command (cmd_of args) = false /\ (zlen args >=? 2) = true).

(** One name: with the name fixed, everything depends on the number of arguments and on whether the
    last one asks for encryption; these become variables, and the rest is computed. *)
Ltac abstract_arguments :=
  repeat match goal with |- context [bool_decide (?c :: ?r = [])] =>
    change (bool_decide (c :: r = [])) with false end;
  try match goal with |- context [last_is_encrypted ?a] =>
    let e := fresh in generalize (last_is_encrypted a); intros e; revert e end;
  match goal with |- context [zlen ?a] =>
    let n := fresh "n" in
    generalize (zlen a); intros n;
    generalize (Z.eqb_spec n) (Z.geb_spec n) (Z.ltb_spec n);
    generalize (Z.eqb n) (Z.geb n) (Z.ltb n); intros ? ? ? ? ? ?
  end.

Ltac by_number_of_arguments :=
  repeat match goal with
  | Heq : forall y, reflect (?n = y) (?f y) |- context [?f ?k] => destruct (Heq k)
  | Hge : forall y, BoolSpec _ _ (?f y) |- context [?f ?k] => destruct (Hge k)
  end.

Lemma fast_path_named rest : Forall (fun c => fast_path_ok (bs c :: rest)) FAST_COMMANDS.
Proof.
  unfold fast_path_ok, pipeline_access_for_args, pipeline_fast_path_arity, journal_strategy_for_args,
    validate_args, FAST_COMMANDS. cbv beta zeta. cbn [cmd_of head].
  repeat apply Forall_cons_2; [..|apply Forall_nil_2].
  all: abstract_arguments; vm_compute; try intros []; by_number_of_arguments.
  all: repeat split; intros; first [reflexivity | discriminate | exfalso; lia | exfalso; congruence].
Qed.

(** ** Durability strategies *)

(** Every registered name, with any arguments: classified; and the groups it is in. *)
Definition groups : list (list bytes) :=
  [GENERIC_JOURNAL_COMMANDS; RESOLVED_JOURNAL_COMMANDS; ARGUMENT_DEPENDENT_JOURNAL_COMMANDS; NO_JOURNAL_COMMANDS].

Definition groups_of (cmd : bytes) : nat := length (List.filter (command_in cmd) groups).

Lemma groups_spelling cmd : groups_of cmd = groups_of (upper cmd).
Proof.
  unfold groups_of, command_in. cbn [groups List.filter].
  by rewrite !(existsb_spelling cmd) by (vm_compute; reflexivity).
Qed.

Lemma known_in_one_group : forallb (fun s => groups_of (name s) =? 1)%nat COMMAND_SPECS = true.
Proof. vm_compute. reflexivity. Qed.

Lemma grouped_are_known : forallb (forallb is_known_command) groups = true.
Proof. vm_compute. reflexivity. Qed.

Lemma spec_known n : is_known_command n = true -> exists s, s ∈ COMMAND_SPECS /\ name s = upper n.
Proof.
  unfold is_known_command. rewrite command_spec_spelling. unfold command_spec.
  destruct (List.find _ _) as [s|] eqn:E; [|done]. intros _.
  apply List.find_some in E as [Hin He]. exists s. split; [by apply list_elem_of_In|].
  unfold cmd_eq, bytes_eqb in He. rewrite upper_idem in He.
  apply orb_true_iff in He as [?%bool_decide_eq_true|[_ ?%bool_decide_eq_true]%andb_true_iff]; done.
Qed.

Lemma group_member_known cmd l : l ∈ groups -> command_in cmd l = true -> is_known_command cmd = true.
Proof.
  intros Hl (e & He & Hc)%existsb_exists.
  assert (is_upper e = true) as Hu.
  { assert (forallb (forallb is_upper) groups = true) as H by (vm_compute; reflexivity).
    rewrite forallb_forall in H. apply list_elem_of_In, H in Hl. rewrite forallb_forall in Hl. by apply Hl. }
  pose proof grouped_are_known as H. rewrite forallb_forall in H. apply list_elem_of_In, H in Hl.
  rewrite forallb_forall in Hl. apply Hl in He. unfold is_known_command in *.
  rewrite command_spec_spelling. rewrite cmd_eq_upper in Hc by done. unfold bytes_eqb in Hc.
  by apply bool_decide_eq_true in Hc as ->.
Qed.

(** A command that is in some group has a strategy, and the other way round. *)
Lemma strategy_groups cmd rest :
  journal_strategy_for_args (cmd :: rest) <> Unclassified <-> groups_of cmd <> 0%nat.
Proof.
  unfold journal_strategy_for_args, groups_of. cbn [head groups List.filter].
  destruct (command_in cmd GENERIC_JOURNAL_COMMANDS); [done|].
  destruct (command_in cmd RESOLVED_JOURNAL_COMMANDS); [done|].
  destruct (command_in cmd ARGUMENT_DEPENDENT_JOURNAL_COMMANDS); [by destruct (last_is_encrypted _)|].
  by destruct (command_in cmd NO_JOURNAL_COMMANDS).
Qed.

Lemma groups_known cmd : groups_of cmd <> 0%nat -> is_known_command cmd = true.
Proof.
  unfold groups_of. intros H. destruct (List.filter (command_in cmd) groups) as [|l ls] eqn:E; [done|].
  assert (In l (List.filter (command_in cmd) groups)) as Hl by (rewrite E; left; done).
  apply filter_In in Hl as [Hl Hc]. eapply group_member_known; [by apply list_elem_of_In|done].
Qed.

Lemma known_one_group cmd : is_known_command cmd = true -> groups_of cmd = 1%nat.
Proof.
  intros (s & Hs & En)%spec_known. pose proof known_in_one_group as H. rewrite forallb_forall in H.
  apply list_elem_of_In, H, Nat.eqb_eq in Hs. by rewrite groups_spelling, <-En.
Qed.

(** ** Writes *)

(** The journaled commands that [is_write_command] leaves out. *)
Definition UNLISTED_WRITES : list string :=
  ["BLPOP"; "BRPOP"; "BLMOVE"; "BLMPOP"; "BRPOPLPUSH"; "HGETEX"; "BZPOPMIN"; "BZPOPMAX"; "BZMPOP"; "LUX";
   "GRANT"; "REVOKE"].

Definition write_listed (n : bytes) : bool :=
  Bool.eqb (command_in n GENERIC_JOURNAL_COMMANDS || command_in n RESOLVED_JOURNAL_COMMANDS ||
            command_in n ARGUMENT_DEPENDENT_JOURNAL_COMMANDS)
           (is_write_command n || any_of n UNLISTED_WRITES).

Lemma writes_listed : forallb (fun s => write_listed (name s)) COMMAND_SPECS = true.
Proof. vm_compute. reflexivity. Qed.

Lemma write_listed_spelling cmd : write_listed cmd = write_listed (upper cmd).
Proof.
  unfold write_listed, command_in. rewrite write_spelling, any_of_spelling by reflexivity.
  by rewrite !(existsb_spelling cmd) by (vm_compute; reflexivity).
Qed.

(** The durability contract of the command table. For every command in every spelling and with
    any arguments: it is registered exactly when it has a durability strategy; a registered command
    is in exactly one of the four strategy groups, so the order in which the groups are tried does
    not matter; and it is journaled exactly when eviction and key events treat it as a write, the
    commands of [UNLISTED_WRITES] apart. *)
Theorem journal_contract (cmd : bytes) (rest : list bytes) :
  (is_known_command cmd = true <-> journal_strategy_for_args (cmd :: rest) <> Unclassified) /\
  (is_known_command cmd = true ->
     groups_of cmd = 1%nat /\
     (journal_strategy_for_args (cmd :: rest) <> NoJournal <->
      is_write_command cmd = true \/ any_of cmd UNLISTED_WRITES = true)).
Proof.
  split.
  - rewrite strategy_groups. split; [by intros ->%known_one_group|apply groups_known].
  - intros Hk. pose proof (known_one_group cmd Hk) as Hg. split; [done|].
    apply spec_known in Hk as (s & Hs & En). pose proof writes_listed as H. rewrite forallb_forall in H.
    apply list_elem_of_In, H in Hs. rewrite En, <-write_listed_spelling in Hs.
    unfold write_listed in Hs. apply eqb_prop in Hs. rewrite <-orb_true_iff, <-Hs.
    revert Hg. unfold journal_strategy_for_args, groups_of. cbn [head groups List.filter].
    destruct (command_in cmd GENERIC_JOURNAL_COMMANDS); [done|].
    destruct (command_in cmd RESOLVED_JOURNAL_COMMANDS); [done|].
    destruct (command_in cmd ARGUMENT_DEPENDENT_JOURNAL_COMMANDS); [by destruct (last_is_encrypted _)|].
    by destruct (command_in cmd NO_JOURNAL_COMMANDS).
Qed.

(** Pipelines take the fast path safely. Whatever the arguments, a command the router sends down
    the read path is registered, has enough arguments (a key among them), is not one of the special
    commands, is not journaled and is not a write; one sent down the write path is a registered write
    with enough arguments, and it is journaled. *)
Theorem fast_path_sound (args : list bytes) : fast_path_ok args.
Proof.
  destruct args as [|cmd rest]; [done|].
  assert (fast_path_ok (upper cmd :: rest)) as H.
  { destruct (any_of (upper cmd) FAST_COMMANDS) eqn:E.
    - destruct (any_of_in _ _ (upper_idem cmd) E) as (n & Hn & ->).
      exact (proj1 (Forall_forall _ _) (fast_path_named rest) n Hn).
    - assert (pipeline_access_for_args (upper cmd :: rest) = General) as Hg.
      { pose proof (fast_access (upper cmd) rest) as H. rewrite E in H.
        by destruct (pipeline_access_for_args _); [|discriminate H..]. }
      unfold fast_path_ok. by rewrite Hg. }
  unfold fast_path_ok in *. cbn [cmd_of] in *.
  rewrite access_for_args_spelling, strategy_spelling, write_spelling, validate_spelling, special_spelling.
  unfold is_known_command in *. rewrite command_spec_spelling.
  by change (zlen (cmd :: rest)) with (zlen (upper cmd :: rest)).
Qed.

End Commands.
