(* ===== verification/Groups.v ===== *)
(** * Consumer groups across restarts ([src/src/cmd/mod.rs], the replay of LXGROUPREAD and LXGROUPCLAIM,
      with [src/src/store/streams.rs])

    XREADGROUP, XCLAIM and XAUTOCLAIM are journaled as what they resolved to. This file models how the
    journal commands are executed by recovery, and shows that they do what the command did, so that the
    three commands meet the contract of the journal boundary ([Durability]). States are compared up to
    the times of deliveries, which recovery does not restore. *)

From S2P Require Import Prelude.
From S2P Require Import Values.
From S2P Require Import Store.
From S2P Require Import Strings.
From S2P Require Import Lists.
From S2P Require Import Wal.
From S2P Require Import Durability.
From S2P Require Import Streams.
From S2P Require Import Commands.
Local Open Scope Z_scope.

Module Groups.
Import Values.Values Store.Store Strings.Strings Streams.Streams.
Import Commands.Commands(cmd_eq).
Import Durability.Durability(Machine, execute, machine_equivalence, execute_reply, execute_state, sound_at, request, Prepared, Journaled, Checked, mutation_of, leads, execute_all).

(** ** Executing journal commands *)

Definition accepted (o : result unit * Store) : bool * Store :=
  match o with (Ok _, s) => (true, s) | (Err _, s) => (false, s) end.

(** [arg_str(args[4])] if the argument is not empty. *)
Definition named (arg : bytes) : option bytes := if bool_decide (arg = []) then None else Some (key_str arg).

Definition replay_lxgroupread (args : list bytes) (applied_at now : Z) (s : Store) : bool * Store :=
  match args with
  | _ :: key :: group :: last :: consumer :: ids =>
      match id_parse (key_str last) with
      | None => (false, s)
      | Some last =>
          let pending := omap (fun a => id_parse (key_str a)) ids in
          if negb (bool_decide (length pending = length ids)) then (false, s)
          else accepted (apply_lxgroupread key (key_str group) (named consumer) last pending applied_at now s)
      end
  | _ => (false, s)
  end.

(** [args[4..].chunks(2)], each an identifier and a count. *)
Fixpoint parse_claims (l : list bytes) : option (list (StreamId * Z)) :=
  match l with
  | [] => Some []
  | id :: n :: l => i ← id_parse (key_str id); n ← parse_u64 (key_str n); l ← parse_claims l; Some ((i, n) :: l)
  | [_] => None
  end.

Definition replay_lxgroupclaim (args : list bytes) (applied_at now : Z) (s : Store) : bool * Store :=
  match args with
  | _ :: key :: group :: consumer :: l =>
      if bool_decide (l = []) || negb (Nat.even (length l)) then (false, s)
      else match parse_claims l with
           | None => (false, s)
           | Some claims => accepted (apply_lxgroupclaim key (key_str group) (key_str consumer) claims applied_at now s)
           end
  | _ => (false, s)
  end.

(** The CREATECONSUMER branch of XGROUP, the one that group reads journal. *)
Definition replay_createconsumer (args : list bytes) (now : Z) (s : Store) : bool * Store :=
  match args with
  | _ :: sub :: key :: group :: consumer :: _ =>
      if negb (cmd_eq sub (bs "CREATECONSUMER")) then (false, s)
      else match xgroup_createconsumer key (key_str group) (key_str consumer) now s with
      | (Ok _, s) => (true, s)
      | (Err _, s) => (false, s)
      end
  | _ => (false, s)
  end.

Section Recovery.

(** The logical instant of recovery, and its [Instant::now()]. *)
Context (now clock : Z).

Definition replay_group_command (args : list bytes) (s : Store) : bool * Store :=
  match args with
  | name :: _ =>
      if cmd_eq name (bs "LXGROUPREAD") then replay_lxgroupread args clock now s
      else if cmd_eq name (bs "LXGROUPCLAIM") then replay_lxgroupclaim args clock now s
      else if cmd_eq name (bs "XGROUP") then replay_createconsumer args now s
      else (false, s)
  | [] => (false, s)
  end.

(** ** States up to delivery times *)

Definition timeless (e : StreamId * PendingEntry) : StreamId * PendingEntry := (e.1, mkPending (p_consumer e.2) 0 (p_count e.2)).
Definition tgroup (g : agroup) : agroup := mkAGroup (a_last g) ((fun _ => 0) <$> a_seen g) (timeless <$> a_pel g).
Definition tstream (a : astream) : astream := mkAStream (a_entries a) (a_top a) (tgroup <$> a_groups a).
Definition tslot (x : sslot) : sslot := match x with SStream a exp => SStream (tstream a) exp | _ => x end.

Definition alike (s s' : Store) : Prop :=
  hot s /\ hot s' /\ forall k, tslot (slot_at now (find s k)) = tslot (slot_at now (find s' k)).

#[local] Instance store_alike : Equiv Store := fun s s' => s = s' \/ alike s s'.

Lemma alike_sym s s' : alike s s' -> alike s' s.
Proof using. intros (H1 & H2 & H3). split_and!; try done. Qed.

Lemma alike_trans s1 s2 s3 : alike s1 s2 -> alike s2 s3 -> alike s1 s3.
Proof using. intros (H1 & _ & H3) (_ & H5 & H6). split_and!; try done. intros k. by rewrite H3. Qed.

#[local] Instance alike_equivalence : Equivalence (≡@{Store}).
Proof using.
  split.
  - intros s. by left.
  - intros s s' [->|H]; [by left|right; by apply alike_sym].
  - intros s1 s2 s3 [->|H] [->|H']; [by left|by right|by right|right; by eapply alike_trans].
Qed.

Lemma alike_refl s : hot s -> alike s s.
Proof using. done. Qed.

(** ** Lemmas: operations on alike states *)

Lemma timeless_insert i p pel : timeless <$> id_insert i p pel = id_insert i (timeless (i, p)).2 (timeless <$> pel).
Proof using.
  induction pel as [|[j q] pel IH]; cbn [id_insert fmap list_fmap]; [done|]. cbn [timeless fst snd].
  destruct (id_ltb i j); [done|]. case_bool_decide; cbn [fmap list_fmap]; [by subst|]. by rewrite IH.
Qed.

Lemma timeless_assigned c t l : forall pel, timeless <$> assigned c t l pel = assigned c 0 l (timeless <$> pel).
Proof using.
  induction l as [|[i n] l IH]; intros pel; [done|]. unfold assigned. cbn [foldl fst snd].
  change (timeless <$> assigned c t l (id_insert i (mkPending c t n) pel) = assigned c 0 l (id_insert i (mkPending c 0 n) (timeless <$> pel))).
  by rewrite IH, timeless_insert.
Qed.

Lemma timeless_lookup i pel : id_lookup i (timeless <$> pel) = (fun p => (timeless (i, p)).2) <$> id_lookup i pel.
Proof using.
  induction pel as [|[j q] pel IH]; cbn [id_lookup fmap list_fmap]; [done|]. cbn [timeless fst snd].
  case_bool_decide; [by subst|]. apply IH.
Qed.

Definition tabs (st : StreamData) : astream := tstream (abs_stream st).
Definition tabs_group (g : ConsumerGroup) : agroup := tgroup (abs_group g).

Lemma tabs_groups n st1 st2 :
  tabs st1 = tabs st2 -> tabs_group <$> s_groups st1 !! n = tabs_group <$> s_groups st2 !! n.
Proof using.
  intros E. pose proof (f_equal (fun a => a_groups a !! n) E) as H. cbn in H. rewrite !lookup_fmap in H.
  unfold tabs_group. destruct (s_groups st1 !! n), (s_groups st2 !! n); done.
Qed.

Lemma tabs_set n g1 g2 st1 st2 :
  tabs st1 = tabs st2 -> tabs_group g1 = tabs_group g2 -> tabs (set_group n g1 st1) = tabs (set_group n g2 st2).
Proof using.
  intros E Eg. unfold tabs in *. rewrite !abs_set_group.
  pose proof (f_equal a_entries E) as E1. pose proof (f_equal a_top E) as E2. pose proof (f_equal a_groups E) as E3.
  unfold tstream in *. cbn [aset_group a_entries a_top a_groups] in *. rewrite !fmap_insert. unfold tabs_group in Eg.
  by rewrite Eg, E1, E2, E3.
Qed.

Lemma slot_put k x s k' :
  hot s -> slot_at now (find (put_data k x s) k') = if decide (k' = k) then slot_at now (Some x) else slot_at now (find s k').
Proof using. intros [Hn _]. rewrite find_put_data by done. by destruct (decide (k' = k)). Qed.

(** Two writes that do the same, up to times, on alike states. *)
Lemma writing_alike {R : Type} key missing (f1 f2 : StreamData -> result R * StreamData) s1 s2 :
  alike s1 s2 ->
  (forall st1 st2, tabs st1 = tabs st2 -> (f1 st1).1 = (f2 st2).1 /\ tabs (f1 st1).2 = tabs (f2 st2).2) ->
  let '(r1, s1') := writing key now missing f1 s1 in
  let '(r2, s2') := writing key now missing f2 s2 in
  r1 = r2 /\ alike s1' s2'.
Proof using.
  intros (H1 & H2 & H) Hf. unfold writing.
  assert (alike (bump key s1) (bump key s2)) as Hb.
  { split; [by apply hot_bump|]. split; [by apply hot_bump|]. intros k. by rewrite !find_bump. }
  pose proof (H key) as Hk. unfold view_stream. rewrite !find_bump.
  destruct (find s1 key) as [e1|] eqn:E1, (find s2 key) as [e2|] eqn:E2; cbn [slot_at] in Hk;
    repeat match goal with |- context [is_expired_at now ?e] => destruct (is_expired_at now e) eqn:?; cbn [slot_at tslot] in * end;
    try done;
    try (destruct (value e1) as [| | | | | |st1| | |] eqn:Ev1; cbn [tslot] in Hk; try done);
    try (destruct (value e2) as [| | | | | |st2| | |] eqn:Ev2; cbn [tslot] in Hk; try done).
  assert (tabs st1 = tabs st2 /\ expires_at e1 = expires_at e2) as [Et Ex] by (unfold tabs; split; congruence).
  destruct (Hf st1 st2 Et) as [Hr Hs]. destruct (f1 st1) as [r1 st1'], (f2 st2) as [r2 st2']. cbn [fst snd] in *. split; [done|].
  destruct Hb as (B1 & B2 & B3). split; [by apply hot_put_data|]. split; [by apply hot_put_data|]. intros k.
  unfold put_stream. rewrite !slot_put by done. destruct (decide (k = key)); [|apply B3].
  cbn [slot_at]. unfold is_expired_at in *. cbn [expires_at value]. rewrite Ex in *. destruct (match expires_at e2 with Some _ => _ | None => _ end); [done|].
  cbn [tslot]. unfold tabs in Hs. by rewrite Hs.
Qed.

Lemma in_group_alike {R : Type} n key (f1 f2 : ConsumerGroup -> result R * ConsumerGroup) st1 st2 :
  (forall g1 g2, tabs_group g1 = tabs_group g2 -> (f1 g1).1 = (f2 g2).1 /\ tabs_group (f1 g1).2 = tabs_group (f2 g2).2) ->
  tabs st1 = tabs st2 ->
  (in_group n key f1 st1).1 = (in_group n key f2 st2).1 /\ tabs (in_group n key f1 st1).2 = tabs (in_group n key f2 st2).2.
Proof using.
  intros Hf E. pose proof (tabs_groups n st1 st2 E) as Hg. unfold in_group.
  destruct (s_groups st1 !! n) as [g1|], (s_groups st2 !! n) as [g2|]; try done.
  change (Some (tabs_group g1) = Some (tabs_group g2)) in Hg.
  assert (tabs_group g1 = tabs_group g2) as Eg by congruence. destruct (Hf g1 g2 Eg) as [Hr Ht].
  destruct (f1 g1) as [r1 g1'], (f2 g2) as [r2 g2']. cbn [fst snd] in *. split; [done|]. by apply tabs_set.
Qed.

(** The parts of a group that do not depend on times. *)
Lemma tabs_group_eq g1 g2 :
  tabs_group g1 = tabs_group g2 <->
  g_last_delivered g1 = g_last_delivered g2 /\ (fun _ => 0) <$> (c_seen <$> g_consumers g1) = (fun _ => 0) <$> (c_seen <$> g_consumers g2) /\
  timeless <$> g_pel g1 = timeless <$> g_pel g2.
Proof using.
  unfold tabs_group, tgroup, abs_group. cbn [a_last a_seen a_pel]. split.
  - intros E. pose proof (f_equal a_last E). pose proof (f_equal a_seen E). pose proof (f_equal a_pel E). done.
  - intros (-> & -> & ->). done.
Qed.

Lemma same_consumers g1 g2 c :
  tabs_group g1 = tabs_group g2 -> is_Some (g_consumers g1 !! c) <-> is_Some (g_consumers g2 !! c).
Proof using.
  intros (_ & E & _)%tabs_group_eq. pose proof (f_equal (fun m => m !! c) E) as H. cbn in H. rewrite !lookup_fmap in H.
  destruct (g_consumers g1 !! c), (g_consumers g2 !! c); cbn in H; try done; split; intros; by eexists.
Qed.

Lemma same_pending g1 g2 i :
  tabs_group g1 = tabs_group g2 -> is_Some (id_lookup i (g_pel g1)) <-> is_Some (id_lookup i (g_pel g2)).
Proof using.
  intros (_ & _ & E)%tabs_group_eq. pose proof (f_equal (id_lookup i) E) as H. rewrite !timeless_lookup in H.
  destruct (id_lookup i (g_pel g1)), (id_lookup i (g_pel g2)); cbn in H; try done; split; intros; by eexists.
Qed.

(** Handing over entries at different times. *)
Lemma handed_alike c t1 t2 l g1 g2 :
  tabs_group g1 = tabs_group g2 ->
  tabs_group (receive c l.*1 t1 (reassign_all c t1 l g1)) = tabs_group (receive c l.*1 t2 (reassign_all c t2 l g2)).
Proof using.
  intros (E1 & E2 & E3)%tabs_group_eq. apply tabs_group_eq.
  pose proof (abs_reassign_all c t1 l g1) as A1. pose proof (abs_reassign_all c t2 l g2) as A2.
  pose proof (f_equal a_last A1) as L1. pose proof (f_equal a_seen A1) as S1. pose proof (f_equal a_pel A1) as P1.
  pose proof (f_equal a_last A2) as L2. pose proof (f_equal a_seen A2) as S2. pose proof (f_equal a_pel A2) as P2.
  cbn in L1, S1, P1, L2, S2, P2. unfold receive. cbn [g_last_delivered g_consumers g_pel]. split_and!.
  - by rewrite L1, L2.
  - by rewrite !fmap_insert, S1, S2, E2.
  - by rewrite P1, P2, !timeless_assigned, E3.
Qed.

Lemma claim_all_alike c t1 t2 l : forall g1 g2,
  tabs_group g1 = tabs_group g2 ->
  (claim_all c t1 l g1).1 = (claim_all c t2 l g2).1 /\ tabs_group (claim_all c t1 l g1).2 = tabs_group (claim_all c t2 l g2).2 /\
  ((claim_all c t1 l g1).1 = Ok tt -> claim_all c t1 l g1 = (Ok tt, reassign_all c t1 l g1)).
Proof using.
  induction l as [|[i n] l IH]; intros g1 g2 E; [done|]. rewrite !claim_cons.
  rewrite (bool_decide_ext (is_Some (id_lookup i (g_pel g1))) (is_Some (id_lookup i (g_pel g2)))) by (by apply same_pending).
  case_bool_decide; [|done]. apply IH. apply tabs_group_eq in E as (E1 & E2 & E3). apply tabs_group_eq.
  pose proof (f_equal a_seen (abs_reassign c t1 n g1 i)) as S1. pose proof (f_equal a_seen (abs_reassign c t2 n g2 i)) as S2.
  cbn [abs_group a_seen] in S1, S2. rewrite S1, S2. split_and!; [done|done|].
  unfold reassign. cbn [g_pel]. by rewrite !timeless_insert, E3.
Qed.

(** The journal commands on alike states, at different times. *)
Lemma read_alike key g c last ids t1 t2 s1 s2 :
  alike s1 s2 ->
  let '(r1, s1') := apply_lxgroupread key g c last ids t1 now s1 in
  let '(r2, s2') := apply_lxgroupread key g c last ids t2 now s2 in r1 = r2 /\ alike s1' s2'.
Proof using.
  intros H. unfold apply_lxgroupread. apply writing_alike; [done|]. intros st1 st2. apply in_group_alike.
  intros g1 g2 E. split; [done|]. cbn [snd].
  assert (tabs_group (mkGroup last (g_consumers g1) (g_pel g1)) = tabs_group (mkGroup last (g_consumers g2) (g_pel g2))) as E'.
  { apply tabs_group_eq in E as (_ & E2 & E3). by apply tabs_group_eq. }
  destruct c as [c|]; [|done]. rewrite !deliver_all.
  assert (((fun i => (i, 1)) <$> ids).*1 = ids) as Eids by (rewrite <-list_fmap_compose; apply list_fmap_id).
  pose proof (handed_alike c t1 t2 ((fun i => (i, 1)) <$> ids) _ _ E') as Hh. by rewrite Eids in Hh.
Qed.

Lemma claim_alike key g c l t1 t2 s1 s2 :
  alike s1 s2 ->
  let '(r1, s1') := apply_lxgroupclaim key g c l t1 now s1 in
  let '(r2, s2') := apply_lxgroupclaim key g c l t2 now s2 in r1 = r2 /\ alike s1' s2'.
Proof using.
  intros H. unfold apply_lxgroupclaim. destruct l as [|x l]; [done|]. set (cs := x :: l). clearbody cs.
  apply writing_alike; [done|]. intros st1 st2. apply in_group_alike. intros g1 g2 E.
  destruct (claim_all_alike c t1 t2 cs g1 g2 E) as (Hr & Ht & Hok1).
  destruct (claim_all_alike c t2 t1 cs g2 g1 (eq_sym E)) as (_ & _ & Hok2).
  destruct (claim_all c t1 cs g1) as [r1 g1'], (claim_all c t2 cs g2) as [r2 g2']. cbn [fst snd] in *. subst r2.
  destruct r1 as [[]|e]; [|done]. specialize (Hok1 eq_refl). specialize (Hok2 eq_refl). injection Hok1 as ->. injection Hok2 as ->.
  split; [done|]. by apply handed_alike.
Qed.

Lemma createconsumer_alike key g c s1 s2 :
  alike s1 s2 ->
  let '(r1, s1') := xgroup_createconsumer key g c now s1 in
  let '(r2, s2') := xgroup_createconsumer key g c now s2 in r1 = r2 /\ alike s1' s2'.
Proof using.
  intros H. unfold xgroup_createconsumer. apply writing_alike; [done|]. intros st1 st2. apply in_group_alike. intros g1 g2 E.
  rewrite (bool_decide_ext (is_Some (g_consumers g1 !! c)) (is_Some (g_consumers g2 !! c))) by (by apply same_consumers).
  case_bool_decide; [done|]. split; [done|]. apply tabs_group_eq in E as (E1 & E2 & E3). apply tabs_group_eq. cbn. split_and!; try done.
  by rewrite !fmap_insert, E2.
Qed.

Definition same_outcome (o1 o2 : bool * Store) : Prop := o1.1 = o2.1 /\ alike o1.2 o2.2.

Lemma accepted_alike (o1 o2 : result unit * Store) : o1.1 = o2.1 -> alike o1.2 o2.2 -> same_outcome (accepted o1) (accepted o2).
Proof using. destruct o1 as [[]], o2 as [[]]; cbn; by intros [=]. Qed.

Lemma replay_alike args s1 s2 : alike s1 s2 -> same_outcome (replay_group_command args s1) (replay_group_command args s2).
Proof using.
  intros H. unfold replay_group_command. destruct args as [|name args]; [done|].
  destruct (cmd_eq name (bs "LXGROUPREAD")); [|destruct (cmd_eq name (bs "LXGROUPCLAIM")); [|destruct (cmd_eq name (bs "XGROUP")); [|done]]].
  - unfold replay_lxgroupread. destruct args as [|key [|g [|last [|c ids]]]]; try done. destruct (id_parse (key_str last)); [|done].
    destruct (negb _); [done|]. set (pending := omap _ ids). pose proof (read_alike key (key_str g) (named c) s pending clock clock s1 s2 H) as Hr.
    destruct (apply_lxgroupread key _ _ _ _ _ _ s1) as [r1 s1'], (apply_lxgroupread key _ _ _ _ _ _ s2) as [r2 s2'].
    destruct Hr as [-> Hr]. by apply accepted_alike.
  - unfold replay_lxgroupclaim. destruct args as [|key [|g [|c l]]]; try done. destruct (_ || _); [done|].
    destruct (parse_claims l) as [claims|]; [|done]. pose proof (claim_alike key (key_str g) (key_str c) claims clock clock s1 s2 H) as Hr.
    destruct (apply_lxgroupclaim key _ _ _ _ _ s1) as [r1 s1'], (apply_lxgroupclaim key _ _ _ _ _ s2) as [r2 s2'].
    destruct Hr as [-> Hr]. by apply accepted_alike.
  - unfold replay_createconsumer. destruct args as [|sub [|key [|g [|c args]]]]; try done. destruct (negb _); [done|].
    pose proof (createconsumer_alike key (key_str g) (key_str c) s1 s2 H) as Hr.
    destruct (xgroup_createconsumer key _ _ _ s1) as [r1 s1'], (xgroup_createconsumer key _ _ _ s2) as [r2 s2'].
    destruct Hr as [-> Hr]. by destruct r2.
Qed.

#[local] Instance group_machine : Machine Store.
Proof using now clock.
  refine {| execute := replay_group_command; machine_equivalence := alike_equivalence |}.
  - intros c s s' [->|H]; [done|]. apply (replay_alike c s s' H).
  - intros c s s' [->|H]; [by left|]. right. apply (replay_alike c s s' H).
Defined.

(** ** Lemmas: reading the journal commands back *)

Lemma ascii_utf8 l : Forall (fun b => b < 128) l -> is_utf8 l = true.
Proof using.
  intros H. assert (concat ((fun b => [b]) <$> l) = l) as <- by (clear; induction l as [|b l IH]; [done|]; cbn; by f_equal).
  apply is_utf8_concat, Forall_fmap. eapply Forall_impl; [exact H|]. intros b Hb. exists b, [], b. split; [done|].
  intros rest. unfold utf8_next. cbn. by rewrite (proj2 (Z.ltb_lt b 128) Hb).
Qed.

Lemma digits_ascii n : Forall (fun b => b < 128) (fmt_u n).
Proof using.
  eapply Forall_impl; [apply fmt_u_digits|]. intros b Hb. unfold is_ascii_digit in Hb. apply andb_true_iff in Hb as [_ Hb].
  apply Z.leb_le in Hb. lia.
Qed.

Lemma key_str_number n : key_str (fmt_u n) = fmt_u n.
Proof using. apply key_str_utf8, ascii_utf8, digits_ascii. Qed.

Lemma key_str_id i : key_str (id_fmt i) = id_fmt i.
Proof using.
  apply key_str_utf8, ascii_utf8. unfold id_fmt. apply Forall_app. split; [apply digits_ascii|]. apply Forall_app.
  split; [by repeat constructor|apply digits_ascii].
Qed.

Lemma id_read_back i : id_ok i -> id_parse (key_str (id_fmt i)) = Some i.
Proof using. intros [H1 H2]. rewrite key_str_id. by apply stream_id_roundtrip. Qed.

Lemma ids_read_back ids : Forall id_ok ids -> omap (fun a => id_parse (key_str a)) (id_fmt <$> ids) = ids.
Proof using. induction 1 as [|i ids Hi _ IH]; [done|]. cbn. by rewrite id_read_back, IH. Qed.

Lemma claims_read_back l :
  Forall id_ok l.*1 -> Forall count_ok l.*2 ->
  parse_claims (concat ((fun p => [id_fmt p.1; fmt_u p.2]) <$> l)) = Some l.
Proof using.
  induction l as [|[i n] l IH]; [done|]. cbn [fmap list_fmap fst snd]. intros [Hi Hl]%Forall_cons [Hn Hc]%Forall_cons.
  cbn [concat app parse_claims]. rewrite id_read_back, key_str_number by done. cbn. rewrite parse_u64_fmt_u by done. cbn. by rewrite IH.
Qed.

(** What a journaled read must look like: the names are text, and a consumer has a name. *)
Definition recordable (e : StreamGroupReadEffect) : Prop :=
  effect_ok e /\ is_utf8 (effect_group e) = true /\
  match e with
  | Deliver _ _ None _ ids => True
  | Deliver _ _ (Some c) _ _ | CreateConsumer _ _ c => is_utf8 c = true /\ c <> []
  end.

Lemma replay_effect e s : recordable e -> replay_group_command (effect_command e) s = accepted (apply_effect clock now e s).
Proof using.
  intros (He & Hg & Hc). destruct e as [key g c last ids|key g c]; cbn [effect_command effect_group app] in *.
  - destruct He as [Hl Hi]. unfold replay_group_command. cbn [app]. change (cmd_eq (bs "LXGROUPREAD") (bs "LXGROUPREAD")) with true. cbv iota.
    cbn [replay_lxgroupread]. rewrite id_read_back, ids_read_back by done. rewrite length_fmap, bool_decide_eq_true_2 by done. cbn [negb apply_effect].
    rewrite (key_str_utf8 g) by done. replace (named (default [] c)) with c; [done|].
    destruct c as [c|]; [|done]. destruct Hc as [Hc Hne]. unfold named. cbn [default]. rewrite bool_decide_eq_false_2 by done. by rewrite key_str_utf8.
  - destruct Hc as [Hc _]. unfold replay_group_command.
    change (cmd_eq (bs "XGROUP") (bs "LXGROUPREAD")) with false. change (cmd_eq (bs "XGROUP") (bs "LXGROUPCLAIM")) with false.
    change (cmd_eq (bs "XGROUP") (bs "XGROUP")) with true. cbv iota. cbn [replay_createconsumer apply_effect].
    change (negb (cmd_eq (bs "CREATECONSUMER") (bs "CREATECONSUMER"))) with false. cbv iota. rewrite !key_str_utf8 by done.
    by destruct (xgroup_createconsumer key g c now s) as [[b|e] s'].
Qed.

Lemma apply_effect_alike t1 t2 e s1 s2 :
  alike s1 s2 ->
  (apply_effect t1 now e s1).1 = (apply_effect t2 now e s2).1 /\ alike (apply_effect t1 now e s1).2 (apply_effect t2 now e s2).2.
Proof using.
  intros H. destruct e as [key g c last ids|key g c]; cbn [apply_effect].
  - pose proof (read_alike key g c last ids t1 t2 s1 s2 H) as Hr.
    destruct (apply_lxgroupread key g c last ids t1 now s1), (apply_lxgroupread key g c last ids t2 now s2). done.
  - pose proof (createconsumer_alike key g c s1 s2 H) as Hr.
    destruct (xgroup_createconsumer key g c now s1) as [r1 s1'], (xgroup_createconsumer key g c now s2) as [r2 s2']. destruct Hr as [-> Hr].
    by destruct r2.
Qed.

Lemma effects_replay t effs : forall s1 s2 s',
  alike s1 s2 -> Forall recordable effs -> apply_effects t now effs s1 = (Ok tt, s') ->
  exists s2', execute_all (effect_command <$> effs) s2 = Some s2' /\ alike s2' s'.
Proof using.
  induction effs as [|e effs IH]; intros s1 s2 s' H Hr; cbn [apply_effects fmap list_fmap execute_all].
  - intros [= <-]. exists s2. split; [done|]. by apply alike_sym.
  - apply Forall_cons in Hr as [He Hr]. cbn [execute group_machine]. rewrite replay_effect by done.
    destruct (apply_effect_alike t clock e s1 s2 H) as [E1 E2].
    destruct (apply_effect t now e s1) as [r1 s1'], (apply_effect clock now e s2) as [r2 s2']. cbn [fst snd] in *. subst r2.
    destruct r1 as [[]|]; [|done]. cbn [accepted]. by apply IH.
Qed.

(** ** The three commands at the journal boundary *)

Section Requests.

Context (hll_count : bytes -> Z) (promote_clock inst_now : Z).
Context (is_encrypted_value : bytes -> bool) (decrypt : bytes -> bytes -> bytes -> result bytes).

Definition replied {R : Type} (f : R -> xreply) (o : result R * Store) : result xreply * Store :=
  match o with (Ok a, s) => (Ok (f a), s) | (Err e, s) => (Err e, s) end.

(** A plan as its journal commands and what it will do. *)
Definition planned {P R : Type} (f : R -> xreply) (apply : P -> Store -> result R * Store)
    (o : result (list (list bytes) * P) * Store) : result (list (list bytes) * (Store -> result xreply * Store)) * Store :=
  match o with
  | (Ok (commands, plan), s) => (Ok (commands, fun s => replied f (apply plan s)), s)
  | (Err e, s) => (Err e, s)
  end.

Definition group_prepare (c : xcmd) (s : Store) : result (list (list bytes) * (Store -> result xreply * Store)) * Store :=
  match c with
  | XReadGroup g c ks ids count noack =>
      planned XStreams (read_apply inst_now now)
        (read_prepare hll_count promote_clock is_encrypted_value decrypt g c ks ids count noack now s)
  | XClaim k g c idle ids =>
      planned XEntries (claim_apply k g c inst_now now) (claim_prepare is_encrypted_value decrypt k g c idle ids inst_now now s)
  | XAutoClaim k g c idle start count =>
      planned (fun p => XAuto p.1.1 p.1.2 p.2) (autoclaim_apply k g c inst_now now)
        (autoclaim_prepare is_encrypted_value decrypt k g c idle start count inst_now now s)
  | _ => (Err "not a group command", s)
  end.

Definition route (c : xcmd) : list bytes :=
  match c with
  | XReadGroup _ _ _ _ _ _ => [bs "XREADGROUP"]
  | XClaim k _ _ _ _ => [bs "XCLAIM"; k]
  | XAutoClaim k _ _ _ _ _ => [bs "XAUTOCLAIM"; k]
  | _ => []
  end.

Definition group_request (c : xcmd) : request (St := Store) (P := Store -> result xreply * Store) (T := xreply) :=
  Prepared (route c) (group_prepare c) (fun p s => p s).

(** The names of a command are text, as the command parser makes them, and not empty. *)
Definition named_ok (c : xcmd) : Prop :=
  match c with
  | XReadGroup g c _ _ _ _ => is_utf8 g = true /\ is_utf8 c = true /\ c <> []
  | XClaim _ g c _ _ | XAutoClaim _ g c _ _ _ => is_utf8 g = true /\ is_utf8 c = true
  | _ => True
  end.

(** ** Lemmas: the plans *)

Local Abbreviation show := (shown is_encrypted_value decrypt).

Lemma areads_recordable g c count noack s A l :
  streams_ok now s A -> is_utf8 g = true -> is_utf8 c = true -> c <> [] ->
  forall r effs, areads is_encrypted_value decrypt g c l count noack A = Ok (r, effs) -> Forall recordable effs.
Proof using.
  intros Hok Hg Hc Hne r effs Ha. pose proof (areads_ready is_encrypted_value decrypt now g c count noack s A l Hok r effs Ha) as Hr.
  assert (Forall (fun e => effect_group e = g /\ match e with Deliver _ _ (Some c') _ _ | CreateConsumer _ _ c' => c' = c | _ => True end) effs) as Hn.
  { clear Hr. revert r effs Ha. induction l as [|[k id_str] l IH]; intros r effs; cbn [areads]; [intros [= <- <-]; constructor|].
    destruct (A k) as [|a exp|v exp]; [apply IH| |apply IH]. destruct (a_groups a !! g) as [ag|]; [|done].
    destruct (areads is_encrypted_value decrypt g c l count noack A) as [[res effs']|]; [|done].
    destruct (aread is_encrypted_value decrypt g c k id_str count noack ag a) as [r' e'] eqn:Er. intros [= <- <-].
    apply Forall_app. split; [|by eapply IH]. unfold aread in Er. destruct (bytes_eqb id_str (bs ">")).
    - destruct (list.last _) as [[i fs]|]; injection Er as <- <-; [|constructor]. constructor; [|constructor]. by destruct noack.
    - injection Er as <- <-. case_bool_decide; [constructor|]. constructor; [done|constructor]. }
  rewrite Forall_forall in *. intros e He. destruct (Hr e He) as [_ Hok']. destruct (Hn e He) as [Hg' Hc']. split; [done|].
  split; [by rewrite Hg'|]. destruct e as [k g' [c'|] last ids|k g' c']; try done; by subst c'.
Qed.

(** Claims that the journal holds lead where they were applied. *)
Lemma claims_replay k g c claims s s' :
  hot s -> is_utf8 g = true -> is_utf8 c = true -> Forall id_ok claims.*1 -> Forall count_ok claims.*2 ->
  apply_lxgroupclaim k g c claims inst_now now s = (Ok tt, s') ->
  leads (claim_commands k g c claims) s s'.
Proof using.
  intros Hh Hg Hc Hi Hn Ha. destruct claims as [|x claims].
  { injection Ha as <-. exists s. split; [done|]. by left. }
  assert (replay_group_command (lxgroupclaim_command k g c (x :: claims)) s = accepted (apply_lxgroupclaim k g c (x :: claims) clock now s)) as Hrep.
  { unfold replay_group_command, lxgroupclaim_command. cbn [app]. change (cmd_eq (bs "LXGROUPCLAIM") (bs "LXGROUPREAD")) with false.
    change (cmd_eq (bs "LXGROUPCLAIM") (bs "LXGROUPCLAIM")) with true. cbv iota. cbn [replay_lxgroupclaim].
    rewrite (claims_read_back (x :: claims)) by done.
    assert (Nat.even (length (concat ((fun p => [id_fmt p.1; fmt_u p.2]) <$> x :: claims))) = true) as ->.
    { generalize (x :: claims). induction l as [|y l IH]; [done|]. cbn. by rewrite <-IH. }
    rewrite bool_decide_eq_false_2 by (by destruct x). cbn [negb orb]. by rewrite !key_str_utf8. }
  unfold leads. cbn [claim_commands execute_all execute group_machine]. rewrite Hrep.
  pose proof (claim_alike k g c (x :: claims) inst_now clock s s (alike_refl s Hh)) as Hr. rewrite Ha in Hr.
  destruct (apply_lxgroupclaim k g c (x :: claims) clock now s) as [r2 s2]. destruct Hr as [<- Hr]. cbn [accepted].
  exists s2. split; [done|]. right. by apply alike_sym.
Qed.

Lemma pending_ids_ok st g gr (claims : list (StreamId * Z)) :
  stream_ok st -> s_groups st !! g = Some gr -> Forall (fun i => i ∈ (g_pel gr).*1) claims.*1 -> Forall id_ok claims.*1.
Proof using.
  intros Hst Eg H. pose proof (go_ids gr (so_groups st Hst g gr Eg)) as Hi. eapply Forall_impl; [exact H|]. intros i. cbn.
  by apply Forall_forall.
Qed.

(** Both claims: a plan whose claims are pending entries. *)
Lemma claim_sound k g c claims s A a exp ag :
  streams_ok now s A -> A k = SStream a exp -> a_groups a !! g = Some ag -> is_utf8 g = true -> is_utf8 c = true ->
  Forall (fun i => i ∈ (a_pel ag).*1) claims.*1 -> Forall count_ok claims.*2 ->
  exists s', apply_lxgroupclaim k g c claims inst_now now s = (Ok tt, s') /\ leads (claim_commands k g c claims) s s'.
Proof using.
  intros Hok EA Eg Hg Hc Hin Hcnt.
  pose proof (claim_write inst_now now k g c claims s A a exp ag Hok EA Eg Hin Hcnt) as Hw.
  destruct (apply_lxgroupclaim k g c claims inst_now now s) as [r s'] eqn:Ea. destruct Hw as [-> _]. exists s'. split; [done|].
  destruct (stream_cases now s A k Hok) as [(_ & Hx)|[(e & st & _ & _ & _ & _ & Hx & Hst)|(v & exp' & _ & Hx)]]; try congruence.
  assert (a = abs_stream st) as -> by congruence. rewrite abs_group_lookup in Eg. apply fmap_Some in Eg as (gr & Eg & ->).
  apply claims_replay; try done; [apply Hok|]. by apply (pending_ids_ok st g gr).
Qed.

(** C32. Group reads and claims survive a restart. XREADGROUP, XCLAIM and XAUTOCLAIM meet the contract of
    the journal boundary: preparing them changes nothing; the commands they journal (LXGROUPREAD, XGROUP
    CREATECONSUMER, LXGROUPCLAIM) are read back and executed without an error by recovery, and lead to
    the same entries, positions, consumers, owners and delivery counts as the command itself, up to the
    times of the deliveries. Group and consumer names are text and a reading consumer's name
    is not empty. *)
Theorem group_commands_durable c s A :
  streams_ok now s A -> named_ok c -> (forall m, mutation_of (group_request c) s = Some m -> Wal.Wal.mutation_ok m) ->
  sound_at (group_request c) s.
Proof using.
  intros Hok Hn Hm. split; [done|]. unfold group_request. clear Hm.
  destruct c as [| | | | | | | | | | | |g c ks ids count noack| |k g c idle ids|k g c idle start count];
    try (by split; [left|]); cbn [group_prepare named_ok] in *.
  - destruct Hn as (Hg & Hc & Hne). unfold read_prepare, preview_xreadgroup.
    rewrite (preview_ok hll_count promote_clock is_encrypted_value decrypt now g c count noack s A (zip ks ids) Hok).
    pose proof (areads_ready is_encrypted_value decrypt now g c count noack s A (zip ks ids) Hok) as Hr.
    pose proof (areads_recordable g c count noack s A (zip ks ids) Hok Hg Hc Hne) as Hrec.
    destruct (areads is_encrypted_value decrypt g c (zip ks ids) count noack A) as [[res effs]|e]; [|by split; [left|]].
    cbn [planned app rp_result rp_effects]. split; [by left|]. unfold read_apply. cbn [rp_result rp_effects].
    pose proof (apply_effects_ok inst_now now effs s A Hok (Hr res effs eq_refl)) as H.
    destruct (apply_effects inst_now now effs s) as [r s'] eqn:Ea. destruct H as [-> _]. cbn [replied].
    destruct (effects_replay inst_now effs s s s' (alike_refl s (to_hot _ _ _ Hok)) (Hrec res effs eq_refl) Ea) as (s2 & E2 & H2).
    exists s2. split; [done|by right].
  - destruct Hn as [Hg Hc]. unfold claim_prepare, preview_xclaim, reading.
    destruct (stream_cases now s A k Hok) as [(-> & EA)|[(e & st & Ef & Ee & Ev & -> & EA & Hst)|(v & exp & -> & EA)]].
    + cbn. split; [by left|]. exists s. split; [done|by left].
    + destruct (s_groups st !! g) as [gr|] eqn:Eg; [|by split; [left|]]. cbn [planned].
      rewrite (claim_plan inst_now is_encrypted_value decrypt). cbn [app cp_claims]. set (l := omap _ ids). split; [by left|].
      assert (forall e, e ∈ l -> e ∈ g_pel gr) as Hin.
      { intros [i pe] (j & Hj & Hp)%list_elem_of_omap. apply fmap_Some in Hp as (pe' & Hl & [= -> ->]). by apply lookup_elem. }
      destruct (claim_sound k g c (claims_of (idle_enough inst_now idle l)) s A (abs_stream st) (expires_at e) (abs_group gr)) as (s' & Ha & Hl);
        try done.
      * by rewrite abs_group_lookup, Eg.
      * by apply claims_pending.
      * apply (claims_counts inst_now idle l (g_pel gr)); [done|]. apply (so_groups st Hst g gr Eg).
      * unfold claim_apply. cbn [cp_claims]. by rewrite Ha.
    + by split; [left|].
  - destruct Hn as [Hg Hc]. unfold autoclaim_prepare, preview_xautoclaim, reading.
    destruct (stream_cases now s A k Hok) as [(-> & EA)|[(e & st & Ef & Ee & Ev & -> & EA & Hst)|(v & exp & -> & EA)]]; try (by split; [left|]).
    destruct (s_groups st !! g) as [gr|] eqn:Eg; [|by split; [left|]]. cbn [planned].
    destruct (auto_plan inst_now is_encrypted_value decrypt k idle (default 100 count) st (range_from start (g_pel gr)) (mkAutoPlan id_zero [] [] [])) as
      (l1 & l2 & Hl & _ & _ & Hcl & _); [unfold zlen; cbn; lia|done|].
    set (p := auto_loop _ _ k inst_now idle _ st _ _) in *. cbn [app ap_claims] in Hcl. split; [by left|].
    assert (forall e, e ∈ l1 -> e ∈ g_pel gr) as Hin.
    { intros x Hx'. assert (x ∈ range_from start (g_pel gr)) as Hin by (rewrite Hl; apply elem_of_app; by left).
      unfold range_from in Hin. by apply filter_elem in Hin as [_ ?]. }
    destruct (claim_sound k g c (ap_claims p) s A (abs_stream st) (expires_at e) (abs_group gr)) as (s' & Ha & Hle); try done.
    + by rewrite abs_group_lookup, Eg.
    + rewrite Hcl. by apply claims_pending.
    + rewrite Hcl. apply (claims_counts inst_now idle l1 (g_pel gr)); [done|]. apply (so_groups st Hst g gr Eg).
    + unfold autoclaim_apply. by rewrite Ha.
Qed.

End Requests.
End Recovery.

(** ** Witnesses *)

(** A stream with two entries and a group that has read none. *)
Definition sample_store : Store :=
  foldl (fun s c => (xexec (fun _ => 0) 7 1000 7 (fun _ => false) (fun _ _ v => Ok v) 7 c s).2) (new 4)
    [XAdd (bs "log") (bs "5-1") [(bs "f", bs "v")] None; XAdd (bs "log") (bs "5-2") [(bs "f", bs "w")] None;
     XGroupCreate (bs "log") (bs "g") (bs "0") false].

Lemma sample_store_ok : streams_ok 7 sample_store (fun k => slot_at 7 (find sample_store k)).
Proof.
  assert (exists A, streams_ok 7 sample_store A) as [A HA].
  { unfold sample_store. cbn [foldl].
    assert (forall k id fs s A, streams_ok 7 s A ->
      exists A', streams_ok 7 (xexec (fun _ => 0) 7 1000 7 (fun _ => false) (fun _ _ v => Ok v) 7 (XAdd k id fs None) s).2 A') as Hadd.
    { intros k id fs s A H.
      pose proof (xadd_ok (fun _ => 0) 7 1000 7 (fun _ => false) (fun _ _ v => Ok v) 7 k id fs None s A ltac:(unfold usize_max; lia) I H) as Ho.
      destruct (xexec _ _ _ _ _ _ _ _ s) as [r s']. destruct Ho as (A' & _ & H'). by exists A'. }
    destruct (Hadd (bs "log") (bs "5-1") [(bs "f", bs "v")] _ _ (new_streams_ok 7)) as [A1 H1].
    destruct (Hadd (bs "log") (bs "5-2") [(bs "f", bs "w")] _ _ H1) as [A2 H2].
    pose proof (xgroup_create_ok (fun _ => 0) 7 1000 7 (fun _ => false) (fun _ _ v => Ok v) 7 (bs "log") (bs "g") (bs "0") false _ _ H2) as Ho.
    unfold refines in Ho. destruct (xexec _ _ _ _ _ _ _ (XGroupCreate _ _ _ _) _) as [r s']. destruct Ho as (A' & _ & H'). by exists A'. }
  eapply tok_ext; [exact HA|]. intros k. by rewrite (to_slots _ _ _ HA).
Qed.

(** A group read of the sample, and recovery's group commands at a later instant. *)
Definition sample_read (consumer : bytes) : xcmd := XReadGroup (bs "g") consumer [bs "log"] [bs ">"] None false.

Lemma group_commands_durable_witness :
  sound_at (H := store_alike 7) (H0 := group_machine 7 9)
    (group_request 7 (fun _ => 0) 7 7 (fun _ => false) (fun _ _ v => Ok v) (sample_read (bs "alice"))) sample_store.
Proof.
  apply (group_commands_durable 7 9 (fun _ => 0) 7 7 (fun _ => false) (fun _ _ v => Ok v) (sample_read (bs "alice"))
    sample_store (fun k => slot_at 7 (find sample_store k))).
  - exact sample_store_ok.
  - split; [reflexivity|]. split; [reflexivity|discriminate].
  - intros m Hm. vm_compute in Hm. injection Hm as <-. apply Wal.Wal.mutation_ok_intro; [done|vm_compute; reflexivity].
Defined.

(** A consumer whose name is empty (as a name that is not text is read) is journaled as the absence of a
    consumer: the entries it read are pending before a restart and not after. *)
Example nameless_consumer_forgotten :
  let pending s := match view_stream (bs "log") 7 s with Ok (Some (_, st)) => length <$> (g_pel <$> s_groups st !! bs "g") | _ => None end in
  let before := match group_prepare 7 (fun _ => 0) 7 7 (fun _ => false) (fun _ _ v => Ok v) (sample_read []) sample_store with
                | (Ok (cs, p), s) => Some (cs, (p s).2)
                | _ => None
                end in
  match before with
  | Some ([c], s) => pending s = Some 2%nat /\ pending (replay_group_command 7 9 c sample_store).2 = Some 0%nat
  | _ => False
  end.
Proof. vm_compute. done. Qed.

End Groups.
