(* ===== verification/Session.v ===== *)
(** * Transactions of a client session ([src/src/lib.rs], [handle_tx_cmd], lines 3251-3612, and
      [src/src/store/transactions.rs])

    MULTI, EXEC, DISCARD, WATCH and UNWATCH, and the queueing of commands in between: the state of
    the session, its limits, and the bytes of the process budget it retains for its queue and its
    watches.

    What a session needs of the database is the class [Database]: executing one command inside a
    transaction (its reply, the records it wants journaled, the new state), the version of a key's
    shard, and the law that makes WATCH sound. The theorems about sessions are proved from the
    class; [Keyspace] discharges it for the string commands ([store_database]). *)

From S2P Require Import Prelude.
From S2P Require Import Limits.
From S2P Require Import Commands.
From S2P Require Import Values.
From S2P Require Import Store.
From S2P Require Import Strings.
From S2P Require Import Keyspace.
Local Open Scope Z_scope.

Module Session.
Import Values.Values(zsum) Commands.Commands.

(** ** What a session needs of the database *)

Class Database (St Reply Record_ : Type) := {
  (** one queued command at time [now]: its reply, the records to journal and the state *)
  execute : Z -> list bytes -> St -> Reply * list Record_ * St;
  shard_for_key : St -> bytes -> nat;
  shard_version : St -> nat -> Z;
  (** what a reader of the key can observe *)
  Obs : Type;
  observe : St -> bytes -> Obs;
  (** [moved n s s']: other clients may take the database from [s] to [s'], with at most [n]
      updates of a shard *)
  moved : Z -> St -> St -> Prop;
  moved_trans : forall n n' s s' s'', moved n s s' -> moved n' s' s'' -> moved (n + n') s s'';
  (** an unchanged version of its shard means an unchanged key *)
  version_sound : forall n s s' key,
    moved n s s' -> n < u64_mod ->
    shard_version s' (shard_for_key s key) = shard_version s (shard_for_key s key) ->
    observe s' key = observe s key
}.

(** The commands that MULTI refuses besides the blocking ones. *)
Definition forbidden_in_multi (cmd : bytes) : bool :=
  any_of cmd ["SUBSCRIBE"; "UNSUBSCRIBE"; "PSUBSCRIBE"; "PUNSUBSCRIBE"; "KSUB"; "KUNSUB"; "SAVE"; "BGSAVE"].

(** The limits of the configuration, and the process budget of retained bytes. *)
Record Limits := mkLimits {
  max_queue : Z; max_request : Z; max_watches : Z; budget : Z; has_journal : bool
}.

Section Session.

Context {St Reply Record_ : Type} `{!Database St Reply Record_}.
Context (lim : Limits).

(** ** State *)

Record CommandSession := mkSession {
  in_multi : bool;
  tx_error : bool;
  tx_queue : list (list bytes);
  tx_bytes : Z;
  watched : list (bytes * nat * Z);
  watched_bytes : Z;
  retained : Z
}.

Definition new_session : CommandSession := mkSession false false [] 0 [] 0 0.

(** The session, the process counter of retained bytes, the database, its journal and whether the
    journal is poisoned ([Store::journal_poisoned]): from then on the database refuses traffic. *)
Record World := mkWorld {
  session : CommandSession; used : Z; db : St; journal : list (list Record_); poisoned : bool
}.

Inductive reply :=
| TxOk
| TxError (e : string)     (* an error text; the cause an I/O error appends is left out *)
| TxNotAllowed (name : bytes)  (* ERR Command '<name>' not allowed inside a transaction *)
| TxUnknown (name : bytes)     (* ERR unknown command '<name>' *)
| TxBadArguments (e : ArgError)
| TxQueued
| TxNullArray
| TxArray (l : list Reply)
| TxPass.                  (* not a transaction matter: the command is executed *)

Definition release_retained_bytes (n : Z) (s : CommandSession) (used : Z) : CommandSession * Z :=
  let '(used, held) := Budget.release used (retained s) n in
  (mkSession (in_multi s) (tx_error s) (tx_queue s) (tx_bytes s) (watched s) (watched_bytes s) held, used).

Definition try_reserve_retained_bytes (n : Z) (s : CommandSession) (used : Z)
    : bool * CommandSession * Z :=
  let '(ok, used, held) := Budget.try_grow (budget lim) used (retained s) n in
  (ok, mkSession (in_multi s) (tx_error s) (tx_queue s) (tx_bytes s) (watched s) (watched_bytes s) held,
   used).

(** [tx_queue.clear(); release(tx_bytes); tx_bytes = 0] *)
Definition clear_queue (s : CommandSession) (used : Z) : CommandSession * Z :=
  let '(s, used) := release_retained_bytes (tx_bytes s) s used in
  (mkSession (in_multi s) (tx_error s) [] 0 (watched s) (watched_bytes s) (retained s), used).

(** [watched.clear(); release(watched_bytes); watched_bytes = 0] *)
Definition clear_watches (s : CommandSession) (used : Z) : CommandSession * Z :=
  let '(s, used) := release_retained_bytes (watched_bytes s) s used in
  (mkSession (in_multi s) (tx_error s) (tx_queue s) (tx_bytes s) [] 0 (retained s), used).

Definition set_flags (multi err : bool) (s : CommandSession) : CommandSession :=
  mkSession multi err (tx_queue s) (tx_bytes s) (watched s) (watched_bytes s) (retained s).

(** The end of EXEC and DISCARD. *)
Definition reset (s : CommandSession) (used : Z) : CommandSession * Z :=
  let '(s, used) := clear_queue (set_flags false false s) used in clear_watches s used.

(** [args.iter().try_fold(0usize, |total, arg| total.checked_add(arg.len()))] *)
Fixpoint args_bytes (args : list bytes) (total : Z) : option Z :=
  match args with
  | [] => Some total
  | a :: args => total ← usize_checked (total + zlen a); args_bytes args total
  end.

(** ** Commands *)

Definition do_multi (name : bytes) (w : World) : reply * World :=
  let s := session w in
  if in_multi s
  then (TxNotAllowed name,
        mkWorld (set_flags true true s) (used w) (db w) (journal w) (poisoned w))
  else let '(s, used) := clear_queue (set_flags true false s) (used w) in
       (TxOk, mkWorld s used (db w) (journal w) (poisoned w)).

(** The queue, command by command: replies and records in order. *)
Fixpoint run_queue (now : Z) (queue : list (list bytes)) (d : St) : list Reply * list Record_ * St :=
  match queue with
  | [] => ([], [], d)
  | args :: queue =>
      let '(r, recs, d) := execute now args d in
      let '(rs, recs', d) := run_queue now queue d in
      (r :: rs, recs ++ recs', d)
  end.

Definition version_changed (d : St) (e : bytes * nat * Z) : bool :=
  negb (shard_version d e.1.2 =? e.2).

(** EXEC. [appended] is whether the append of the batch succeeds; when it fails the changes stay in
    memory but the journal is poisoned. *)
Definition do_exec (appended : bool) (now : Z) (w : World) : reply * World :=
  let s := session w in
  let finish r d j p := let '(s, used) := reset s (used w) in (r, mkWorld s used d j p) in
  let refuse r := finish r (db w) (journal w) (poisoned w) in
  if negb (in_multi s) then refuse (TxError "ERR EXEC without MULTI")
  else if tx_error s
  then refuse (TxError "EXECABORT Transaction discarded because of previous errors.")
  else if poisoned w then refuse (TxError "ERR transaction unavailable")
  else if existsb (version_changed (db w)) (watched s) then refuse TxNullArray
  else
    let '(rs, recs, d) := run_queue now (tx_queue s) (db w) in
    if bool_decide (recs = []) || negb (has_journal lim) then finish (TxArray rs) d (journal w) false
    else if appended then finish (TxArray rs) d (journal w ++ [recs]) false
    else finish (TxError "ERR WAL append failed") d (journal w) true.

Definition do_discard (w : World) : reply * World :=
  let s := session w in
  if negb (in_multi s) then (TxError "ERR DISCARD without MULTI", w)
  else let '(s, used) := reset s (used w) in (TxOk, mkWorld s used (db w) (journal w) (poisoned w)).

(** The watches of a list of keys at the current versions. *)
Definition watch_entries (d : St) (keys : list bytes) : list (bytes * nat * Z) :=
  (fun k => (Store.key_str k, shard_for_key d k, shard_version d (shard_for_key d k))) <$> keys.

Definition do_watch (keys : list bytes) (w : World) : reply * World :=
  let s := session w in
  if in_multi s
  then (TxError "ERR Command 'watch' not allowed inside a transaction",
        mkWorld (set_flags true true s) (used w) (db w) (journal w) (poisoned w))
  else if bool_decide (keys = []) then (TxError "ERR wrong number of arguments for 'watch' command", w)
  else if Z.min (zlen (watched s) + zlen keys) usize_max >? max_watches lim
  then (TxError "ERR watched key limit exceeded", w)
  else
    match (n ← args_bytes keys 0; t ← usize_checked (watched_bytes s + n); Some (n, t)) with
    | None => (TxError "ERR watched key bytes limit exceeded", w)
    | Some (n, t) =>
        if t >? max_request lim then (TxError "ERR watched key bytes limit exceeded", w)
        else if poisoned w then (TxError "ERR database unavailable", w)
        else
          let '(ok, s, used) := try_reserve_retained_bytes n s (used w) in
          if negb ok then (TxError "ERR process request capacity exhausted",
                           mkWorld s used (db w) (journal w) (poisoned w))
          else (TxOk, mkWorld (mkSession (in_multi s) (tx_error s) (tx_queue s) (tx_bytes s)
                                (watched s ++ watch_entries (db w) keys) (watched_bytes s + n)
                                (retained s)) used (db w) (journal w) (poisoned w))
    end.

Definition do_unwatch (w : World) : reply * World :=
  let '(s, used) := clear_watches (session w) (used w) in (TxOk, mkWorld s used (db w) (journal w) (poisoned w)).

(** A command inside MULTI: rejected, which spoils the transaction, or queued. *)
Definition do_queue (args : list bytes) (w : World) : reply * World :=
  let s := session w in
  let spoil r s used := (r, mkWorld (set_flags (in_multi s) true s) used (db w) (journal w) (poisoned w)) in
  let name := cmd_of args in
  if forbidden_in_multi name || is_blocking_command name then spoil (TxNotAllowed name) s (used w)
  else if negb (is_known_command name) then spoil (TxUnknown name) s (used w)
  else match validate_args args with
  | Some e => spoil (TxBadArguments e) s (used w)
  | None =>
      if zlen (tx_queue s) >=? max_queue lim
      then spoil (TxError "ERR transaction command limit exceeded") s (used w)
      else match (n ← args_bytes args 0; t ← usize_checked (tx_bytes s + n); Some (n, t)) with
           | None => spoil (TxError "ERR transaction queued bytes limit exceeded") s (used w)
           | Some (n, t) =>
               if t >? max_request lim
               then spoil (TxError "ERR transaction queued bytes limit exceeded") s (used w)
               else
                 let '(ok, s, used) := try_reserve_retained_bytes n s (used w) in
                 if negb ok then spoil (TxError "ERR process request capacity exhausted") s used
                 else (TxQueued, mkWorld (mkSession (in_multi s) (tx_error s) (tx_queue s ++ [args])
                                            (tx_bytes s + n) (watched s) (watched_bytes s) (retained s))
                                   used (db w) (journal w) (poisoned w))
           end
  end.

(** [handle_tx_cmd] on the arguments of one command (never empty). *)
Definition handle_tx_cmd (appended : bool) (now : Z) (args : list bytes) (w : World)
    : reply * World :=
  match args with
  | [] => (TxPass, w)
  | name :: rest =>
      if cmd_eq name (bs "MULTI") then do_multi name w
      else if cmd_eq name (bs "EXEC") then do_exec appended now w
      else if cmd_eq name (bs "DISCARD") then do_discard w
      else if cmd_eq name (bs "WATCH") then do_watch rest w
      else if cmd_eq name (bs "UNWATCH") then do_unwatch w
      else if in_multi (session w) then do_queue args w
      else (TxPass, w)
  end.

(** ** The bytes a session retains *)

Definition queue_bytes (queue : list (list bytes)) : Z := zsum ((fun args => zsum (zlen <$> args)) <$> queue).

(** The process counter is the share of the others plus the bytes of this session's queue and
    watches. *)
Record capacity_ok (others : Z) (w : World) : Prop := {
  cap_retained : retained (session w) = tx_bytes (session w) + watched_bytes (session w);
  cap_queue : tx_bytes (session w) = queue_bytes (tx_queue (session w));
  cap_watched : 0 <= watched_bytes (session w);
  cap_used : used w = others + retained (session w);
  cap_range : 0 <= others /\ used w <= usize_max
}.

Lemma queue_bytes_nonneg q : 0 <= queue_bytes q.
Proof. apply Store.zsum_nonneg. intros args. apply Store.zsum_nonneg. intros a. apply zlen_nonneg. Qed.

Lemma queue_bytes_snoc q args : queue_bytes (q ++ [args]) = queue_bytes q + zsum (zlen <$> args).
Proof. unfold queue_bytes, zsum. rewrite fmap_app, foldr_app. cbn. induction q as [|x q IH]; cbn; lia. Qed.

Lemma args_bytes_sum args : forall total n, args_bytes args total = Some n -> n = total + zsum (zlen <$> args).
Proof.
  induction args as [|a args IH]; intros total n; cbn [args_bytes]; [intros [= <-]; unfold zsum; cbn; lia|].
  destruct (usize_checked (total + zlen a)) as [t|] eqn:E; [|done]. cbn [mbind option_bind].
  apply usize_checked_inv in E as [-> _]. intros H%IH. unfold zsum in *. cbn. lia.
Qed.

(** Releasing part of what is held. *)
Lemma release_ok n s used others :
  0 <= n <= retained s -> 0 <= others -> used = others + retained s -> used <= usize_max ->
  release_retained_bytes n s used =
    (mkSession (in_multi s) (tx_error s) (tx_queue s) (tx_bytes s) (watched s) (watched_bytes s)
       (retained s - n), others + (retained s - n)).
Proof.
  intros Hn Ho -> Hu. unfold release_retained_bytes, Budget.release. rewrite Z.min_l by lia.
  destruct (Z.eqb_spec n 0) as [->|]; [by rewrite Z.sub_0_r|].
  rewrite as_u64_small by (unfold usize_max, u64_mod in *; lia). do 2 f_equal. lia.
Qed.

Lemma capacity_bounds others w :
  capacity_ok others w -> 0 <= tx_bytes (session w) /\ 0 <= watched_bytes (session w).
Proof. intros [_ Hq Hw _ _]. rewrite Hq. split; [apply queue_bytes_nonneg|done]. Qed.

(** Clearing the queue or the watches keeps the accounts, whatever the flags. *)
Lemma clear_queue_ok others s used multi err :
  retained s = tx_bytes s + watched_bytes s -> 0 <= tx_bytes s -> 0 <= watched_bytes s ->
  0 <= others -> used = others + retained s -> used <= usize_max ->
  clear_queue (set_flags multi err s) used =
    (mkSession multi err [] 0 (watched s) (watched_bytes s) (watched_bytes s), others + watched_bytes s).
Proof.
  intros Hr Ht Hw Ho Hu Hm. unfold clear_queue.
  rewrite (release_ok _ _ _ others) by (cbn; lia). cbn. do 2 f_equal; lia.
Qed.

Lemma clear_watches_ok others s used :
  retained s = tx_bytes s + watched_bytes s -> 0 <= tx_bytes s -> 0 <= watched_bytes s ->
  0 <= others -> used = others + retained s -> used <= usize_max ->
  clear_watches s used =
    (mkSession (in_multi s) (tx_error s) (tx_queue s) (tx_bytes s) [] 0 (tx_bytes s), others + tx_bytes s).
Proof.
  intros Hr Ht Hw Ho Hu Hm. unfold clear_watches.
  rewrite (release_ok _ _ _ others) by lia. cbn. do 2 f_equal; lia.
Qed.

Lemma reset_ok others w :
  capacity_ok others w -> reset (session w) (used w) = (new_session, others).
Proof.
  intros Hc. destruct (capacity_bounds others w Hc). destruct Hc as [Hr Hq Hw Hu [Ho Hm]]. unfold reset.
  rewrite (clear_queue_ok others) by (done || lia).
  rewrite (clear_watches_ok others) by (cbn; lia). cbn. f_equal. lia.
Qed.

Lemma reserve_ok n s used0 others ok s' used1 :
  0 <= n -> used0 = others + retained s -> used0 <= usize_max ->
  try_reserve_retained_bytes n s used0 = (ok, s', used1) ->
  exists grown, 0 <= grown /\ grown = (if ok then n else 0) /\ used1 = used0 + grown /\ used1 <= usize_max /\
    s' = mkSession (in_multi s) (tx_error s) (tx_queue s) (tx_bytes s) (watched s) (watched_bytes s)
           (retained s + grown).
Proof.
  intros Hn Hu Hm. unfold try_reserve_retained_bytes, Budget.try_grow.
  destruct (Z.eqb_spec n 0) as [->|].
  { intros [= <- <- <-]. exists 0. rewrite !Z.add_0_r. by split_and!. }
  destruct (Budget.grow_target (budget lim) used0 n) as [next|] eqn:E.
  - unfold Budget.grow_target in E. destruct (usize_checked (used0 + n)) as [t|] eqn:Et; [|done].
    cbn in E. apply usize_checked_inv in Et as [-> Ht]. destruct (_ >? _); [done|]. injection E as <-.
    intros [= <- <- <-]. exists n. by split_and!; [lia|done|done|lia|].
  - intros [= <- <- <-]. exists 0. rewrite !Z.add_0_r. by split_and!; [lia|done|done|lia|].
Qed.

(** A world with the same accounts. *)
Lemma capacity_session others w s used d j p :
  capacity_ok others w ->
  retained s = tx_bytes s + watched_bytes s -> tx_bytes s = queue_bytes (tx_queue s) ->
  0 <= watched_bytes s -> used = others + retained s -> used <= usize_max ->
  capacity_ok others (mkWorld s used d j p).
Proof. intros [_ _ _ _ [? _]]. by split. Qed.

Lemma exec_session others appended now w :
  capacity_ok others w ->
  session (do_exec appended now w).2 = new_session /\ used (do_exec appended now w).2 = others.
Proof.
  intros Hc. pose proof (reset_ok others w Hc) as Hr. unfold do_exec. rewrite Hr.
  destruct (negb (in_multi _)); [done|]. destruct (tx_error _); [done|]. destruct (poisoned w); [done|].
  destruct (existsb _ _); [done|]. destruct (run_queue _ _ _) as [[rs recs] d].
  destruct (_ || _); [done|]. by destruct appended.
Qed.

Lemma capacity_new others w d j p :
  capacity_ok others w -> capacity_ok others (mkWorld new_session others d j p).
Proof.
  intros Hc. destruct (capacity_bounds others w Hc). pose proof Hc as [Hr _ _ Hu [Ho Hm]].
  eapply capacity_session; [exact Hc|done|done|done|cbn; lia|lia].
Qed.

Lemma multi_capacity others name w : capacity_ok others w -> capacity_ok others (do_multi name w).2.
Proof.
  intros Hc. destruct (capacity_bounds others w Hc). pose proof Hc as [Hr Hq Hw Hu [Ho Hm]].
  unfold do_multi. destruct (in_multi (session w)); cbn [snd].
  - by eapply capacity_session.
  - rewrite (clear_queue_ok others) by (done || lia). cbn [snd].
    eapply capacity_session; [exact Hc|cbn; lia|done|done|done|lia].
Qed.

Lemma watch_capacity others keys w :
  capacity_ok others w -> capacity_ok others (do_watch keys w).2.
Proof.
  intros Hc. destruct (capacity_bounds others w Hc). pose proof Hc as [Hr Hq Hw Hu [Ho Hm]].
  unfold do_watch. destruct (in_multi (session w)); cbn [snd]; [by eapply capacity_session|].
  destruct (bool_decide _); [done|]. destruct (_ >? _); [done|].
  destruct (args_bytes keys 0) as [n|] eqn:En; [|done]. cbn [mbind option_bind].
  apply args_bytes_sum in En. pose proof (Store.zsum_nonneg zlen keys zlen_nonneg) as Hz.
  destruct (usize_checked (watched_bytes (session w) + n)) as [t|]; [|done]. cbn [mbind option_bind].
  destruct (t >? _); [done|]. destruct (poisoned w); [done|].
  destruct (try_reserve_retained_bytes n (session w) (used w)) as [[ok s'] used1] eqn:Er.
  destruct (reserve_ok n _ _ others ok s' used1 ltac:(lia) Hu Hm Er) as (g & Hg & Eg & -> & Hm' & ->).
  destruct ok; cbn [negb snd]; subst g; eapply capacity_session; try exact Hc; cbn; lia || done.
Qed.

Lemma queue_capacity others args w : capacity_ok others w -> capacity_ok others (do_queue args w).2.
Proof.
  intros Hc. destruct (capacity_bounds others w Hc). pose proof Hc as [Hr Hq Hw Hu [Ho Hm]].
  assert (capacity_ok others (mkWorld (set_flags (in_multi (session w)) true (session w))
    (used w) (db w) (journal w) (poisoned w))) as Hspoil by (by eapply capacity_session).
  unfold do_queue. destruct (_ || _); [exact Hspoil|]. destruct (negb _); [exact Hspoil|].
  destruct (validate_args args); [exact Hspoil|].
  destruct (_ >=? _); [exact Hspoil|].
  destruct (args_bytes args 0) as [n|] eqn:En; [|exact Hspoil]. cbn [mbind option_bind].
  apply args_bytes_sum in En. pose proof (Store.zsum_nonneg zlen args zlen_nonneg) as Hz.
  destruct (usize_checked (tx_bytes (session w) + n)) as [t|]; [|exact Hspoil].
  cbn [mbind option_bind]. destruct (t >? _); [exact Hspoil|].
  destruct (try_reserve_retained_bytes n (session w) (used w)) as [[ok s'] used1] eqn:Er.
  destruct (reserve_ok n _ _ others ok s' used1 ltac:(lia) Hu Hm Er) as (g & Hg & Eg & -> & Hm' & ->).
  destruct ok; cbn [negb snd]; subst g; eapply capacity_session; try exact Hc;
    cbn [tx_bytes watched_bytes retained tx_queue set_flags]; rewrite ?queue_bytes_snoc; lia || done.
Qed.

Lemma handle_capacity others appended now args w :
  capacity_ok others w -> capacity_ok others (handle_tx_cmd appended now args w).2.
Proof.
  intros Hc. unfold handle_tx_cmd. destruct args as [|name rest]; [done|].
  destruct (cmd_eq name (bs "MULTI")); [by apply multi_capacity|].
  destruct (cmd_eq name (bs "EXEC")).
  { destruct (exec_session others appended now w Hc) as [Es Eu].
    destruct (do_exec appended now w) as [r [s u d j p]]. cbn [snd session used] in *. subst.
    by eapply capacity_new. }
  destruct (cmd_eq name (bs "DISCARD")).
  { unfold do_discard. destruct (negb _); [done|]. rewrite (reset_ok others w Hc). by eapply capacity_new. }
  destruct (cmd_eq name (bs "WATCH")); [by apply watch_capacity|].
  destruct (cmd_eq name (bs "UNWATCH")).
  { unfold do_unwatch. destruct (capacity_bounds others w Hc). pose proof Hc as [Hr Hq Hw Hu [Ho Hm]].
    rewrite (clear_watches_ok others) by (done || lia). cbn [snd].
    eapply capacity_session; [exact Hc|cbn; lia|done|done|done|lia]. }
  destruct (in_multi (session w)); [by apply queue_capacity|done].
Qed.

(** ** What EXEC does *)

(** Every outcome of EXEC: what it answers, and what it did to the database and the journal. *)
Inductive exec_effect (w : World) (now : Z) : reply -> St -> list (list Record_) -> bool -> Prop :=
| exec_ran rs recs d :
    in_multi (session w) = true -> tx_error (session w) = false -> poisoned w = false ->
    Forall (fun e => shard_version (db w) e.1.2 = e.2) (watched (session w)) ->
    run_queue now (tx_queue (session w)) (db w) = (rs, recs, d) ->
    exec_effect w now (TxArray rs) d
      (if bool_decide (recs = []) || negb (has_journal lim) then journal w else journal w ++ [recs]) false
| exec_watch_failed e :
    in_multi (session w) = true -> e ∈ watched (session w) -> shard_version (db w) e.1.2 ≠ e.2 ->
    exec_effect w now TxNullArray (db w) (journal w) (poisoned w)
| exec_refused e : exec_effect w now (TxError e) (db w) (journal w) (poisoned w)
| exec_lost rs recs d :
    run_queue now (tx_queue (session w)) (db w) = (rs, recs, d) -> recs ≠ [] -> has_journal lim = true ->
    exec_effect w now (TxError "ERR WAL append failed") d (journal w) true.

Lemma exec_effect_ok appended now w :
  let '(r, w') := do_exec appended now w in exec_effect w now r (db w') (journal w') (poisoned w').
Proof.
  unfold do_exec. destruct (reset (session w) (used w)) as [s1 u1].
  destruct (in_multi (session w)) eqn:Em; cbn [negb]; [|exact (exec_refused w now _)].
  destruct (tx_error (session w)) eqn:Ee; [exact (exec_refused w now _)|].
  destruct (poisoned w) eqn:Ep.
  { pose proof (exec_refused w now "ERR transaction unavailable") as H. by rewrite Ep in H. }
  destruct (existsb (version_changed (db w)) (watched (session w))) eqn:Ev.
  - apply existsb_exists in Ev as (e & Hin%list_elem_of_In & Hv). unfold version_changed in Hv.
    rewrite negb_true_iff, Z.eqb_neq in Hv. pose proof (exec_watch_failed w now e Em Hin Hv) as H.
    by rewrite Ep in H.
  - assert (Forall (fun e => shard_version (db w) e.1.2 = e.2) (watched (session w))) as Hall.
    { apply Forall_forall. intros e Hin. destruct (Z.eqb_spec (shard_version (db w) e.1.2) e.2); [done|].
      exfalso. apply not_true_iff_false in Ev. apply Ev, existsb_exists. exists e.
      split; [by apply list_elem_of_In|]. unfold version_changed. by rewrite negb_true_iff, Z.eqb_neq. }
    destruct (run_queue now (tx_queue (session w)) (db w)) as [[rs recs] d] eqn:Eq.
    pose proof (exec_ran w now rs recs d Em Ee Ep Hall Eq) as H.
    destruct (bool_decide (recs = [])) eqn:Er; cbn [orb] in *; [exact H|].
    destruct (has_journal lim) eqn:Ej; cbn [negb] in *; [|exact H].
    destruct appended; [exact H|exact (exec_lost w now rs recs d Eq ltac:(by intros ->) Ej)].
Qed.

(** ** Watching across the steps of a session *)

Definition ends_watch (args : list bytes) : bool :=
  match args with
  | name :: _ => cmd_eq name (bs "EXEC") || cmd_eq name (bs "DISCARD") || cmd_eq name (bs "UNWATCH")
  | [] => false
  end.

(** Between WATCH and EXEC: other clients move the database, and the session goes on with commands
    that do not end the watch. The index counts the updates of the others. *)
Inductive steps : Z -> World -> World -> Prop :=
| steps_refl w : steps 0 w w
| steps_others n m w w' d j u p :
    steps n w w' -> moved m (db w') d -> steps (n + m) w (mkWorld (session w') u d j p)
| steps_command n w w' appended now args :
    steps n w w' -> ends_watch args = false ->
    steps n w (handle_tx_cmd appended now args w').2.

(** A session command that does not end the watch keeps the watches and the database. *)
Lemma handle_keeps appended now args w :
  ends_watch args = false ->
  watched (session w) ⊆ watched (session (handle_tx_cmd appended now args w).2) /\
  db (handle_tx_cmd appended now args w).2 = db w.
Proof.
  unfold handle_tx_cmd, ends_watch. destruct args as [|name rest]; [done|].
  destruct (cmd_eq name (bs "MULTI")).
  { intros _. unfold do_multi. destruct (in_multi (session w)); [done|].
    unfold clear_queue, release_retained_bytes. by destruct (Budget.release _ _ _). }
  destruct (cmd_eq name (bs "EXEC")); [done|]. destruct (cmd_eq name (bs "DISCARD")); [done|]. cbn [orb].
  destruct (cmd_eq name (bs "WATCH")).
  { intros _. unfold do_watch. destruct (in_multi (session w)); [done|]. destruct (bool_decide _); [done|].
    destruct (_ >? _); [done|]. destruct (args_bytes rest 0) as [n|]; [|done]. cbn [mbind option_bind].
    destruct (usize_checked _) as [t|]; [|done]. cbn [mbind option_bind]. destruct (t >? _); [done|].
    destruct (poisoned w); [done|]. unfold try_reserve_retained_bytes.
    destruct (Budget.try_grow _ _ _ _) as [[[] u] h]; cbn; [set_solver|done]. }
  intros ->. destruct (in_multi (session w)); [|done]. unfold do_queue.
  destruct (_ || _); [done|]. destruct (negb _); [done|].
  destruct (validate_args _); [done|]. destruct (_ >=? _); [done|].
  destruct (args_bytes (name :: rest) 0) as [n|]; [|done]. cbn [mbind option_bind].
  destruct (usize_checked _) as [t|]; [|done]. cbn [mbind option_bind]. destruct (t >? _); [done|].
  unfold try_reserve_retained_bytes. by destruct (Budget.try_grow _ _ _ _) as [[[] u] h].
Qed.

Lemma steps_keep n w w' :
  steps n w w' -> moved 0 (db w) (db w) ->
  watched (session w) ⊆ watched (session w') /\ moved n (db w) (db w').
Proof.
  induction 1 as [w|n m w w' d j u p _ IH Hm|n w w' appended now args _ IH He]; intros H0; [done| |].
  - destruct (IH H0) as [Hw Hd]. split; [done|]. by eapply moved_trans.
  - destruct (IH H0) as [Hw Hd]. destruct (handle_keeps appended now args w' He) as [Hw' ->].
    split; [set_solver|done].
Qed.

(** A poisoned database is left alone. *)
Lemma poisoned_frozen appended now args w :
  poisoned w = true ->
  db (handle_tx_cmd appended now args w).2 = db w /\
  journal (handle_tx_cmd appended now args w).2 = journal w /\
  poisoned (handle_tx_cmd appended now args w).2 = true.
Proof.
  intros Hp. unfold handle_tx_cmd. destruct args as [|name rest]; [done|].
  destruct (cmd_eq name (bs "MULTI")).
  { unfold do_multi. destruct (in_multi (session w)); [done|].
    by destruct (clear_queue _ _). }
  destruct (cmd_eq name (bs "EXEC")).
  { unfold do_exec. rewrite Hp. destruct (reset _ _). destruct (negb _); [done|]. by destruct (tx_error _). }
  destruct (cmd_eq name (bs "DISCARD")).
  { unfold do_discard. destruct (negb _); [done|]. by destruct (reset _ _). }
  destruct (cmd_eq name (bs "WATCH")).
  { unfold do_watch. rewrite Hp. destruct (in_multi _); [done|]. destruct (bool_decide _); [done|].
    destruct (_ >? _); [done|]. destruct (args_bytes rest 0) as [n|]; [|done]. cbn [mbind option_bind].
    destruct (usize_checked _) as [t|]; [|done]. cbn [mbind option_bind]. by destruct (t >? _). }
  destruct (cmd_eq name (bs "UNWATCH")); [unfold do_unwatch; by destruct (clear_watches _ _)|].
  destruct (in_multi (session w)); [|done]. unfold do_queue.
  destruct (_ || _); [done|]. destruct (negb _); [done|].
  destruct (validate_args _); [done|]. destruct (_ >=? _); [done|].
  destruct (args_bytes (name :: rest) 0) as [n|]; [|done]. cbn [mbind option_bind].
  destruct (usize_checked _) as [t|]; [|done]. cbn [mbind option_bind]. destruct (t >? _); [done|].
  destruct (try_reserve_retained_bytes _ _ _) as [[ok s'] u']. by destruct (negb ok).
Qed.

End Session.

(** A session never leaks process capacity. Whatever commands a session sends, the bytes it
    retains of the process budget are at every moment those of its queued commands and its watches;
    and when EXEC has answered, in whatever way, they have all been given back. *)
Theorem session_capacity {St Reply Record_ : Type} `{!Database St Reply Record_}
    (lim : Limits) (others : Z) (appended : bool) (now : Z)
    (args : list bytes) (w : World) :
  capacity_ok others w ->
  capacity_ok others (handle_tx_cmd lim appended now args w).2 /\
  session (do_exec lim appended now w).2 = new_session /\
  used (do_exec lim appended now w).2 = others.
Proof. intros Hc. split; [by apply handle_capacity|]. by apply exec_session. Qed.

(** EXEC is all or nothing. When it answers an array, no command of the queue was refused, the
    whole queue ran in order on the database as it was, and its records were journaled as one batch.
    Otherwise the journal is unchanged, and either the database is unchanged too or the append of the
    batch failed, in which case the journal is poisoned; and once it is, no command of any session
    changes the database or the journal through a transaction again. *)
Theorem exec_atomic {St Reply Record_ : Type} `{!Database St Reply Record_}
    (lim : Limits) (appended appended' : bool) (now : Z) (args : list bytes) (w : World) :
  let '(r, w') := do_exec lim appended now w in
  match r with
  | TxArray rs =>
      tx_error (session w) = false /\ poisoned w = false /\ poisoned w' = false /\
      exists recs, run_queue now (tx_queue (session w)) (db w) = (rs, recs, db w') /\
        journal w' = if bool_decide (recs = []) || negb (has_journal lim) then journal w
                     else journal w ++ [recs]
  | _ =>
      journal w' = journal w /\
      (db w' = db w /\ poisoned w' = poisoned w \/
       poisoned w' = true /\
       db (handle_tx_cmd lim appended' now args w').2 = db w' /\
       journal (handle_tx_cmd lim appended' now args w').2 = journal w' /\
       poisoned (handle_tx_cmd lim appended' now args w').2 = true)
  end.
Proof.
  pose proof (exec_effect_ok lim appended now w) as Hx.
  destruct (do_exec lim appended now w) as [r w'].
  inversion Hx as [rs recs d Em Ee Ep Hall Eq|e Em Hin Hv|e|rs recs d Eq Hr Hj]; subst; cbn.
  - split_and!; try done. by exists recs.
  - split; [done|]. by left.
  - split; [done|]. by left.
  - split; [done|]. right. split; [done|]. rewrite ?H1.
    exact (poisoned_frozen lim appended' now args w' ltac:(done)).
Qed.


(** ** The string store as a database *)

Import Store.Store Strings.Strings.

(** Commands by name, as far as the samples need them; a command is journaled as it came. *)
Definition decode (args : list bytes) : option cmd :=
  match args with
  | [name; k] => if cmd_eq name (bs "GET") then Some (Get k) else None
  | [name; k; v] => if cmd_eq name (bs "SET") then Some (SetKey k v None) else None
  | _ => None
  end.

Definition journaled (c : cmd) (args : list bytes) : list (list bytes) :=
  match c with Get _ => [] | _ => [args] end.

Definition execute_string (now : Z) (args : list bytes) (s : Store)
    : option Strings.reply * list (list bytes) * Store :=
  match decode args with
  | Some c => match exec (fun _ => 0) (fun _ => false) now c s with
              | Returned (r, s) => (Some r, journaled c args, s)
              | Panicked => (None, [], s)
              end
  | None => (None, [], s)
  end.

Definition store_moved (n : Z) (s s' : Store) : Prop :=
  0 <= n /\ nonempty s /\ (forall i, (i < length (shards s))%nat -> 0 <= version (shard_at s i) < u64_mod) /\
  Keyspace.tracked n s s'.

Lemma store_moved_trans n n' s s' s'' :
  store_moved n s s' -> store_moved n' s' s'' -> store_moved (n + n') s s''.
Proof.
  intros (? & ? & ? & T) (? & _ & _ & T'). split; [lia|]. split; [done|]. split; [done|].
  by eapply Keyspace.tracked_trans.
Qed.

Lemma store_version_sound n s s' key :
  store_moved n s s' -> n < u64_mod ->
  Keyspace.shard_version s' (shard_index s key) = Keyspace.shard_version s (shard_index s key) ->
  find s' key = find s key.
Proof.
  intros (_ & Hn & Hv & T) Hlt Hs. eapply Keyspace.tracked_find; [exact T|done|done| |done].
  apply Hv. by apply shard_index_lt.
Qed.

#[export] Instance store_database : Database Store (option Strings.reply) (list bytes) := {|
  execute := execute_string;
  shard_for_key := shard_index;
  shard_version := Keyspace.shard_version;
  Obs := option Values.Entry;
  observe := find;
  moved := store_moved;
  moved_trans := store_moved_trans;
  version_sound := store_version_sound
|}.

(** The worlds of the string store. *)
Abbreviation StringWorld := (World (St := Store) (Record_ := list bytes)).

Definition sample_limits : Limits := mkLimits 100 1000 10 1000000 true.
Definition sample_world : StringWorld := mkWorld new_session 500 (new 4) [] false.

Lemma session_capacity_witness :
  capacity_ok 500 (handle_tx_cmd sample_limits true 0 [bs "watch"; bs "k"] sample_world).2 /\
  session (do_exec sample_limits true 0 sample_world).2 = new_session /\
  used (do_exec sample_limits true 0 sample_world).2 = 500.
Proof.
  apply (session_capacity sample_limits 500 true 0 [bs "watch"; bs "k"] sample_world).
  split; vm_compute; try reflexivity; try discriminate. split; discriminate.
Defined.

(** Another client writes one key. *)
Lemma set_moved now k v s s' :
  hot s -> (forall i, (i < length (shards s))%nat -> 0 <= version (shard_at s i) < u64_mod) ->
  set k v None now s = Returned s' -> store_moved 1 s s'.
Proof.
  intros Hh Hv E. split; [lia|]. split; [apply Hh|]. split; [done|]. by eapply Keyspace.tracked_set.
Qed.

Lemma new_versions n i : 0 <= version (shard_at (new n) i) < u64_mod.
Proof.
  unfold shard_at. cbn [shards new]. destruct (replicate n empty_shard !! i) as [sh|] eqn:E; [|done].
  by apply lookup_replicate in E as [-> _].
Qed.

Definition after_watch : StringWorld := (do_watch sample_limits [bs "k"] sample_world).2.
Definition other_write : Store :=
  match set (bs "d") (bs "1") None 0 (new 4) with Returned s => s | Panicked => new 4 end.
Definition before_exec : StringWorld :=
  (handle_tx_cmd sample_limits true 0 [bs "set"; bs "k"; bs "v"]
    (handle_tx_cmd sample_limits true 0 [bs "multi"]
      (mkWorld (session after_watch) 501 other_write [] false)).2).2.

Lemma before_exec_steps : steps sample_limits (0 + 1) after_watch before_exec.
Proof.
  do 2 (apply steps_command; [|reflexivity]). eapply steps_others; [apply steps_refl|].
  eapply (set_moved 0 (bs "d") (bs "1")).
  - split; [vm_compute; lia|reflexivity].
  - intros i _. apply new_versions.
  - reflexivity.
Qed.


End Session.
