(* ===== verification/Where.v ===== *)
(** * Conditions of table queries ([src/src/tables/mod.rs], lines 270-340, 2500-2518 and 4270-4476, the
      clause loop of [parse_select] and [sql_like_matches] in [src/src/tables/select.rs], and
      [combine_where] and the WHERE handling of UPDATE and DELETE in [src/src/http.rs])

    A WHERE text is cut into tokens, with quoted values kept whole, and the tokens are parsed into a
    list of conditions, each a comparison or a group of alternatives. A row filter of the access rules
    is a text that is appended to the one of the client before it is cut.

    A [&str] is the list of its [char]s. Error messages are kept without the words of the request that
    they quote. Single-precision numbers are a parameter. *)

From S2P Require Import Prelude.
From S2P Require Import Glob.
From S2P Require Import Commands.
Local Open Scope Z_scope.

Module Where.
Import Commands.Commands(eq_ignore_ascii_case, is_ascii_lowercase).

(** ** Characters *)

Abbreviation str := (list Z).

Definition QUOTE : Z := 39.
Definition BACKSLASH : Z := 92.
Definition EQUALS : Z := 61.
Definition BANG : Z := 33.
Definition COMMA : Z := 44.

(** [char::is_whitespace]: the property White_Space of Unicode. *)
Definition is_whitespace (c : Z) : bool :=
  in_rng 9 13 c || (c =? 32) || (c =? 133) || (c =? 160) || (c =? 5760) || in_rng 8192 8202 c ||
  (c =? 8232) || (c =? 8233) || (c =? 8239) || (c =? 8287) || (c =? 12288).

Fixpoint trim_start_by (f : Z -> bool) (s : str) : str :=
  match s with
  | c :: s' => if f c then trim_start_by f s' else s
  | [] => []
  end.
Definition trim_end_by (f : Z -> bool) (s : str) : str := reverse (trim_start_by f (reverse s)).
Definition trim (s : str) : str := trim_end_by is_whitespace (trim_start_by is_whitespace s).
Definition trim_end_matches (c : Z) (s : str) : str := trim_end_by (Z.eqb c) s.

(** [str::split] at the characters that satisfy [f]. *)
Fixpoint split_by (f : Z -> bool) (s : str) (current : str) : list str :=
  match s with
  | [] => [current]
  | c :: s => if f c then current :: split_by f s [] else split_by f s (current ++ [c])
  end.

(** [str::to_uppercase], exact for results in ASCII: besides the ASCII letters, these are the only
    characters whose upper case is in ASCII (dotless i, long s, sharp s and the Latin ligatures). *)
Definition char_upper (c : Z) : str :=
  if is_ascii_lowercase c then [c - 32]
  else if c =? 305 then bs "I"
  else if c =? 383 then bs "S"
  else if c =? 223 then bs "SS"
  else if c =? 64256 then bs "FF"
  else if c =? 64257 then bs "FI"
  else if c =? 64258 then bs "FL"
  else if c =? 64259 then bs "FFI"
  else if c =? 64260 then bs "FFL"
  else if (c =? 64261) || (c =? 64262) then bs "ST"
  else [c].
Definition to_uppercase (s : str) : str := concat (char_upper <$> s).

(** ** Tokens *)

(** The loop of [tokenize_where]: the tokens so far, the token being built, whether one is being built,
    and whether it is inside quotes. *)
Fixpoint tokenize_loop (s : str) (tokens : list str) (current : str) (building in_quote : bool) : result (list str) :=
  match s with
  | [] => if in_quote then Err "unterminated quote in where value"
          else Ok (if building then tokens ++ [current] else tokens)
  | c :: s =>
      if in_quote then
        if c =? BACKSLASH then
          match s with
          | [] => Err "unterminated escape in where value"
          | d :: s => if (d =? QUOTE) || (d =? BACKSLASH) then tokenize_loop s tokens (current ++ [d]) building true
                      else tokenize_loop s tokens (current ++ [BACKSLASH; d]) building true
          end
        else if c =? QUOTE then tokenize_loop s tokens current building false
        else tokenize_loop s tokens (current ++ [c]) building true
      else if (c =? QUOTE) && negb building then tokenize_loop s tokens current true true
      else
        let peek_equals := match s with d :: _ => d =? EQUALS | [] => false end in
        if (c =? EQUALS) || (c =? 60) || (c =? 62) || ((c =? BANG) && peek_equals) then
          let '(tokens, current) := if building then (tokens ++ [current], []) else (tokens, current) in
          if negb (c =? EQUALS) && peek_equals
          then match s with _ :: s => tokenize_loop s (tokens ++ [[c; EQUALS]]) current false false | [] => Ok tokens end
          else tokenize_loop s (tokens ++ [[c]]) current false false
        else if is_whitespace c then
          if building then tokenize_loop s (tokens ++ [current]) [] false false
          else tokenize_loop s tokens current building false
        else tokenize_loop s tokens (current ++ [c]) true false
  end.

Definition tokenize_where (s : str) : result (list str) := tokenize_loop s [] [] false false.

(** ** Conditions *)

Inductive CmpOp :=
| Eq_ | Ne | Gt_ | Lt_ | Ge | Le | Like | ILike | In_ | NotIn | IsValid | IsNotValid | IsNull | IsNotNull | Contains | Or_.

#[export] Instance CmpOp_eq_dec : EqDecision CmpOp.
Proof. solve_decision. Defined.

Inductive WhereClause :=
| mkWhere (field : str) (op : CmpOp) (value : str) (values : list str) (or_clauses : list WhereClause).

Definition single (field : str) (op : CmpOp) (value : str) : WhereClause := mkWhere field op value [] [].
Definition in_list (field : str) (op : CmpOp) (values : list str) : WhereClause := mkWhere field op [] values [].
Definition or_group (or_clauses : list WhereClause) : WhereClause := mkWhere [] Or_ [] [] or_clauses.

Definition parse_cmp_op (s : str) : result CmpOp :=
  if bytes_eqb s (bs "=") then Ok Eq_
  else if bytes_eqb s (bs "!=") then Ok Ne
  else if bytes_eqb s (bs ">") then Ok Gt_
  else if bytes_eqb s (bs "<") then Ok Lt_
  else if bytes_eqb s (bs ">=") then Ok Ge
  else if bytes_eqb s (bs "<=") then Ok Le
  else if eq_ignore_ascii_case s (bs "LIKE") then Ok Like
  else if eq_ignore_ascii_case s (bs "ILIKE") then Ok ILike
  else Err "ERR unknown operator".

(** The values up to the closing parenthesis, and what follows it. *)
Fixpoint list_values (args : list str) (values : list str) : option (list str * list str) :=
  match args with
  | [] => None
  | a :: args => if bytes_eqb a (bs ")") then Some (values, args) else list_values args (values ++ [a])
  end.

(** A parser takes the tokens from its position on and gives the ones after what it read. *)
Definition parse_in_list (args : list str) : result (list str * list str) :=
  match args with
  | a :: args =>
      if negb (bytes_eqb a (bs "(")) then Err "ERR IN operator requires a parenthesized list, e.g. IN ( a b c )"
      else if match args with b :: _ => eq_ignore_ascii_case b (bs "SELECT") | [] => false end
      then Err "ERR subqueries (IN ( SELECT ... )) are only supported in grant predicates, not in a query WHERE"
      else match list_values args [] with
           | None => Err "ERR unterminated IN list: missing ')'"
           | Some ([], _) => Err "ERR IN list must contain at least one value"
           | Some (values, rest) => Ok (values, rest)
           end
  | [] => Err "ERR IN operator requires a parenthesized list, e.g. IN ( a b c )"
  end.

Definition next_is (k : string) (args : list str) : bool :=
  match args with a :: _ => eq_ignore_ascii_case a (bs k) | [] => false end.

Definition parse_where_condition (args : list str) : result (WhereClause * list str) :=
  match args with
  | [] => Err "ERR incomplete WHERE clause: expected field"
  | [_] => Err "ERR incomplete WHERE clause: missing operator"
  | field :: op_str :: args =>
      let op_upper := to_uppercase op_str in
      if bytes_eqb op_upper (bs "IN") then
        '(values, rest) ← parse_in_list args; Ok (in_list field In_ values, rest)
      else if bytes_eqb op_upper (bs "NOT") then
        if next_is "IN" args then '(values, rest) ← parse_in_list (drop 1 args); Ok (in_list field NotIn values, rest)
        else Err "ERR expected 'IN' after 'NOT' in WHERE clause"
      else if bytes_eqb op_upper (bs "IS") then
        if next_is "VALID" args then Ok (single field IsValid [], drop 1 args)
        else if next_is "NULL" args then Ok (single field IsNull [], drop 1 args)
        else if next_is "NOT" args && next_is "VALID" (drop 1 args) then Ok (single field IsNotValid [], drop 2 args)
        else if next_is "NOT" args && next_is "NULL" (drop 1 args) then Ok (single field IsNotNull [], drop 2 args)
        else Err "ERR expected 'VALID', 'NOT VALID', 'NULL' or 'NOT NULL' after 'IS'"
      else if bytes_eqb op_upper (bs "CONTAINS") then
        match args with
        | [] => Err "ERR missing value after CONTAINS"
        | value :: args => Ok (single field Contains value, args)
        end
      else match args with
           | [] => Err "ERR incomplete WHERE clause: missing value"
           | value :: args => op ← parse_cmp_op op_str; Ok (single field op value, args)
           end
  end.

(** The loop over OR; every round reads a condition, so the number of tokens is enough fuel. *)
Fixpoint or_loop (fuel : nat) (args : list str) (clauses : list WhereClause) : result (list WhereClause * list str) :=
  match fuel with
  | O => Ok (clauses, args)
  | S fuel =>
      if next_is "OR" args then
        '(clause, args) ← parse_where_condition (drop 1 args); or_loop fuel args (clauses ++ [clause])
      else Ok (clauses, args)
  end.

Definition parse_where_or_group (args : list str) : result (WhereClause * list str) :=
  '(clause, args) ← parse_where_condition args;
  '(clauses, args) ← or_loop (length args) args [clause];
  Ok (match clauses with [clause] => clause | _ => or_group clauses end, args).

(** The loop of [parse_where_conditions]. *)
Fixpoint conditions_loop (fuel : nat) (args : list str) (conditions : list WhereClause) : result (list WhereClause) :=
  match fuel, args with
  | S fuel, _ :: _ =>
      '(clause, args) ← parse_where_or_group args;
      conditions_loop fuel (if next_is "AND" args then drop 1 args else args) (conditions ++ [clause])
  | _, _ => Ok conditions
  end.

Definition parse_where_conditions (args : list str) : result (list WhereClause) := conditions_loop (length args) args [].

(** ** Clauses of a query *)

Record JoinClause := mkJoin { j_left : bool; j_table : str; j_alias : str; left_col : str; right_col : str }.

Definition upper_is (k : string) (s : str) : bool := bytes_eqb (to_uppercase s) (bs k).

Definition is_select_clause_keyword (token : str) : bool :=
  existsb (fun k => upper_is k token) ["JOIN"; "LEFT"; "WHERE"; "GROUP"; "HAVING"; "NEAR"; "ORDER"; "LIMIT"; "OFFSET"]%string.

(** The part of a JOIN after the keyword. [rest[i]] after the equals sign is not checked. *)
Definition parse_join (left : bool) (args : list str) : outcome (result (JoinClause * list str)) :=
  match args with
  | table :: alias :: on :: l :: args =>
      if negb (upper_is "ON" on) then Returned (Err "ERR expected ON after JOIN <table> <alias>")
      else match args with
           | e :: args =>
               if bytes_eqb e (bs "=") then
                 match args with
                 | r :: args => Returned (Ok (mkJoin left table alias l r, args))
                 | [] => Panicked
                 end
               else Returned (Err "ERR expected = in JOIN ON condition")
           | [] => Returned (Err "ERR expected = in JOIN ON condition")
           end
  | _ => Returned (Err "ERR JOIN syntax: JOIN <table> <alias> ON <left> = <right>")
  end.

(** The loop of WHERE: conditions joined by AND. *)
Fixpoint and_loop (fuel : nat) (args : list str) (conditions : list WhereClause) : result (list WhereClause * list str) :=
  match fuel with
  | O => Err "ERR incomplete WHERE clause: expected field"
  | S fuel =>
      '(clause, args) ← parse_where_or_group args;
      if next_is "AND" args then and_loop fuel (drop 1 args) (conditions ++ [clause]) else Ok (conditions ++ [clause], args)
  end.

Fixpoint group_loop (args : list str) (group_by : list str) : list str * list str :=
  match args with
  | [] => (group_by, [])
  | a :: args' => if is_select_clause_keyword a then (group_by, args)
                  else group_loop args' (group_by ++ List.filter (fun c => negb (bool_decide (c = []))) (trim <$> split_by (Z.eqb COMMA) a []))
  end.

Fixpoint having_loop (fuel : nat) (args : list str) (having : list WhereClause) : result (list WhereClause * list str) :=
  match fuel, args with
  | S fuel, a :: args =>
      if is_select_clause_keyword a then Err "ERR incomplete HAVING clause: expected field op value"
      else match args with
           | op_str :: value :: args =>
               op ← parse_cmp_op op_str;
               let having := having ++ [single (trim_end_matches COMMA a) op (trim_end_matches COMMA value)] in
               if match args with b :: _ => upper_is "AND" b | [] => false end then having_loop fuel (drop 1 args) having
               else Ok (having, args)
           | [_] => Err "ERR incomplete HAVING clause: missing value"
           | [] => Err "ERR incomplete HAVING clause: missing operator"
           end
  | _, _ => Err "ERR incomplete HAVING clause: expected field op value"
  end.

Definition parse_order (args : list str) : result (str * bool * list str) :=
  match args with
  | by_ :: args =>
      if negb (upper_is "BY" by_) then Err "ERR expected BY after ORDER"
      else match args with
           | [] => Err "ERR ORDER BY requires a column name"
           | col :: args =>
               Ok match args with
                  | a :: args' => if upper_is "ASC" a then (col, true, args')
                                  else if upper_is "DESC" a then (col, false, args')
                                  else (col, true, args)
                  | [] => (col, true, [])
                  end
           end
  | [] => Err "ERR expected BY after ORDER"
  end.

Definition parse_count (args : list str) : result (Z * list str) :=
  match args with
  | [] => Err "ERR clause requires a number"
  | a :: args => match parse_u64 a with Some n => Ok (n, args) | None => Err "ERR must be a positive integer" end
  end.

Section Select.

(** [str::parse::<f32>]. *)
Context {F32 : Type} (parse_f32 : str -> option F32).

Record NearClause := mkNear { n_field : str; n_vector : list F32; n_k : Z; n_threshold : option F32 }.

Fixpoint vector_values (parts : list str) (vector : list F32) : result (list F32) :=
  match parts with
  | [] => Ok vector
  | part :: parts =>
      if bool_decide (trim part = []) then vector_values parts vector
      else match parse_f32 (trim part) with Some v => vector_values parts (vector ++ [v]) | None => Err "ERR invalid vector value" end
  end.

Definition parse_vector_literal (value : str) : result (list F32) :=
  let trimmed := trim_end_matches 93 (trim_start_by (Z.eqb 91) (trim value)) in
  if bool_decide (trimmed = []) then Err "ERR vector requires at least one float value"
  else vector_values (split_by (fun c => (c =? COMMA) || (c =? 32)) trimmed []) [].

Definition parse_near (args : list str) : result (NearClause * list str) :=
  match args with
  | field :: vector_token :: k :: n :: args =>
      if negb (eq_ignore_ascii_case k (bs "K")) then Err "ERR NEAR requires K <n>"
      else match parse_u64 n with
           | None => Err "ERR NEAR K must be a positive integer"
           | Some n =>
               if n =? 0 then Err "ERR NEAR K must be greater than zero"
               else
                 '(threshold, args) ← (if next_is "THRESHOLD" args then
                                         match drop 1 args with
                                         | [] => Err "ERR NEAR THRESHOLD requires a value"
                                         | t :: args => match parse_f32 t with
                                                        | Some t => Ok (Some t, args)
                                                        | None => Err "ERR NEAR THRESHOLD must be a float"
                                                        end
                                         end
                                       else Ok (None, args));
                 vector ← parse_vector_literal vector_token;
                 Ok (mkNear field vector n threshold, args)
           end
  | _ => Err "ERR NEAR syntax: NEAR <field> <vector> K <n> [THRESHOLD <score>]"
  end.

(** What the clauses of a query add up to. *)
Record Clauses := mkClauses {
  joins : list JoinClause; conditions : list WhereClause; group_by : list str; having : list WhereClause;
  near : option NearClause; order_by : option (str * bool); limit : option Z; offset : option Z }.

Definition no_clauses : Clauses := mkClauses [] [] [] [] None None None None.

(** One clause, by its keyword: the new clauses and the tokens after it. *)
Definition parse_clause (kw : str) (args : list str) (c : Clauses) : outcome (result (Clauses * list str)) :=
  let '(mkClauses js ws gs hs ne od li off) := c in
  let joined '(r : result (JoinClause * list str)) := '(j, args) ← r; Ok (mkClauses (js ++ [j]) ws gs hs ne od li off, args) in
  if upper_is "JOIN" kw then r ← parse_join false args; Returned (joined r)
  else if upper_is "LEFT" kw then
    if next_is "JOIN" args then r ← parse_join true (drop 1 args); Returned (joined r)
    else Returned (Err "ERR expected JOIN after LEFT")
  else if upper_is "WHERE" kw then
    Returned ('(ws', args) ← and_loop (S (length args)) args []; Ok (mkClauses js (ws ++ ws') gs hs ne od li off, args))
  else if upper_is "GROUP" kw then
    Returned match args with
             | by_ :: args =>
                 if negb (upper_is "BY" by_) then Err "ERR expected BY after GROUP"
                 else if match args with a :: _ => is_select_clause_keyword a | [] => true end
                 then Err "ERR GROUP BY requires at least one column"
                 else let '(gs', args) := group_loop args [] in Ok (mkClauses js ws (gs ++ gs') hs ne od li off, args)
             | [] => Err "ERR expected BY after GROUP"
             end
  else if upper_is "HAVING" kw then
    Returned ('(hs', args) ← having_loop (length args) args []; Ok (mkClauses js ws gs (hs ++ hs') ne od li off, args))
  else if upper_is "NEAR" kw then Returned ('(n, args) ← parse_near args; Ok (mkClauses js ws gs hs (Some n) od li off, args))
  else if upper_is "ORDER" kw then Returned ('(o, args) ← parse_order args; Ok (mkClauses js ws gs hs ne (Some o) li off, args))
  else if upper_is "LIMIT" kw then Returned ('(n, args) ← parse_count args; Ok (mkClauses js ws gs hs ne od (Some n) off, args))
  else if upper_is "OFFSET" kw then Returned ('(n, args) ← parse_count args; Ok (mkClauses js ws gs hs ne od li (Some n), args))
  else Returned (Err "ERR unexpected keyword in TSELECT").

(** The loop of [parse_select] over the clauses after the table. *)
Fixpoint select_loop (fuel : nat) (args : list str) (c : Clauses) : outcome (result Clauses) :=
  match fuel, args with
  | S fuel, kw :: args =>
      r ← parse_clause kw args c;
      match r with Ok (c, args) => select_loop fuel args c | Err e => Returned (Err e) end
  | _, _ => Returned (Ok c)
  end.

Definition parse_select_clauses (args : list str) : outcome (result Clauses) := select_loop (length args) args no_clauses.

(** ** Access filters *)

Definition combine_where (user grant : str) : str :=
  if bool_decide (trim user = []) then trim grant
  else if bool_decide (trim grant = []) then trim user
  else trim user ++ bs " AND " ++ trim grant.

Definition parse_http_where_tokens (where_clause : str) : result (list str) :=
  tokens ← tokenize_where where_clause;
  if bool_decide (tokens = []) then Err "invalid where parameter" else Ok tokens.

(** The conditions of an UPDATE or DELETE of a client whose access is limited by a filter. *)
Definition write_conditions (user grant : str) : result (list WhereClause) :=
  tokens ← parse_http_where_tokens (combine_where user grant); parse_where_conditions tokens.

(** The clauses of a table query: its WHERE, then those of its other parameters. *)
Definition parse_http_table_query (where_ : option str) (others : list str) : outcome (result Clauses) :=
  match where_ with
  | None => parse_select_clauses others
  | Some w => match parse_http_where_tokens w with
              | Err e => Returned (Err e)
              | Ok tokens => parse_select_clauses (bs "WHERE" :: tokens ++ others)
              end
  end.

(** A read with a filter: the query is parsed as the client sent it, and again with the filter. *)
Definition scoped_query (user : option str) (grant : str) (others : list str) : outcome (result Clauses) :=
  r ← parse_http_table_query user others;
  match r with
  | Err e => Returned (Err e)
  | Ok _ => if bool_decide (trim grant = []) then parse_http_table_query user others
            else parse_http_table_query (Some (combine_where (default [] user) grant)) others
  end.

End Select.

(** ** LIKE *)

Definition PERCENT : Z := 37.
Definition UNDERSCORE : Z := 95.

Definition pat_is (pat : str) (pos : nat) (c : Z) : bool := match pat !! pos with Some x => x =? c | None => false end.

Fixpoint skip_percents (fuel : nat) (pat : str) (pos : nat) : nat :=
  match fuel with
  | O => pos
  | S fuel => if pat_is pat pos PERCENT then skip_percents fuel pat (S pos) else pos
  end.

(** The loop of [sql_like_matches]; [None] when the fuel runs out. *)
Fixpoint like_loop (fuel : nat) (text pat : str) (text_pos pattern_pos : nat) (percent_pos : option nat) (percent_match : nat)
    : option bool :=
  match fuel with
  | O => None
  | S fuel =>
      match text !! text_pos with
      | Some t =>
          if pat_is pat pattern_pos UNDERSCORE || pat_is pat pattern_pos t then
            like_loop fuel text pat (S text_pos) (S pattern_pos) percent_pos percent_match
          else if pat_is pat pattern_pos PERCENT then
            like_loop fuel text pat text_pos (S pattern_pos) (Some pattern_pos) text_pos
          else match percent_pos with
               | Some percent => like_loop fuel text pat (S percent_match) (S percent) percent_pos (S percent_match)
               | None => Some false
               end
      | None => Some (skip_percents (length pat) pat pattern_pos =? length pat)%nat
      end
  end.

Definition like_fuel (text pat : str) : nat := S ((length text + 2) * (length text + length pat + 2)).

(** [to_lowercase] is the one of Unicode, for ILIKE. *)
Definition sql_like_matches (to_lowercase : str -> str) (actual pattern : str) (case_insensitive : bool) : option bool :=
  let '(text, pat) := if case_insensitive then (to_lowercase actual, to_lowercase pattern) else (actual, pattern) in
  like_loop (like_fuel text pat) text pat 0 0 None 0.

(** ** Lemmas: tokens *)

(** Nothing is kept of a token that is not being built. *)
Definition lexing (current : str) (building in_quote : bool) : Prop := building = false -> current = [] /\ in_quote = false.

Lemma tokenize_acc s : forall acc tokens current b q,
  tokenize_loop s (acc ++ tokens) current b q = app acc <$> tokenize_loop s tokens current b q.
Proof.
  assert (forall n s, (length s <= n)%nat -> forall acc tokens current b q,
    tokenize_loop s (acc ++ tokens) current b q = app acc <$> tokenize_loop s tokens current b q) as H; [|intros; by eapply H].
  induction n as [|n IH]; intros [|c t] Hn acc tokens current b q; cbn [length] in Hn; try lia.
  - cbn. destruct q; [done|]. destruct b; cbn; by rewrite ?app_assoc.
  - cbn. destruct q; [done|]. destruct b; cbn; by rewrite ?app_assoc.
  - cbn [tokenize_loop]. destruct q.
    + destruct (c =? BACKSLASH); [destruct t as [|d t]; [done|]; destruct (_ || _)|destruct (c =? QUOTE)]; apply IH; cbn in *; lia.
    + destruct ((c =? QUOTE) && negb b); [apply IH; lia|]. cbv zeta.
      destruct (_ || _).
      * destruct b; [rewrite <-(app_assoc acc)|]; (destruct (_ && _); [destruct t as [|d t]; [done|]|];
          rewrite <-(app_assoc acc); apply IH; cbn in *; lia).
      * destruct (is_whitespace c); [destruct b|]; rewrite <-?(app_assoc acc); apply IH; lia.
Qed.

Lemma whitespace_plain w :
  is_whitespace w = true ->
  (w =? QUOTE) = false /\ (w =? EQUALS) = false /\ (w =? 60) = false /\ (w =? 62) = false /\ (w =? BANG) = false.
Proof.
  intros H. split_and!; apply Z.eqb_neq; intros ->; discriminate.
Qed.

(** White space ends the token being built. *)
Lemma tokenize_white w s tokens current b :
  is_whitespace w = true -> lexing current b false ->
  tokenize_loop (w :: s) tokens current b false = tokenize_loop s (if b then tokens ++ [current] else tokens) [] false false.
Proof.
  intros Hw Hl. destruct (whitespace_plain w Hw) as (H1 & H2 & H3 & H4 & H5). cbn [tokenize_loop].
  rewrite H1, H2, H3, H4, H5. cbn [andb orb]. cbv zeta. rewrite Hw. destruct b; [done|]. by destruct (Hl eq_refl) as [-> _].
Qed.

(** A text that can be cut by itself is cut the same way in front of white space. *)
Lemma tokenize_space w u : is_whitespace w = true -> forall tokens current b q k s,
  lexing current b q -> tokenize_loop u tokens current b q = Ok k ->
  tokenize_loop (u ++ w :: s) tokens current b q = tokenize_loop s k [] false false.
Proof.
  intros Hw. assert (forall n u, (length u <= n)%nat -> forall tokens current b q k s,
    lexing current b q -> tokenize_loop u tokens current b q = Ok k ->
    tokenize_loop (u ++ w :: s) tokens current b q = tokenize_loop s k [] false false) as H; [|intros; by eapply H].
  assert (forall tokens current b q k s, lexing current b q -> tokenize_loop [] tokens current b q = Ok k ->
    tokenize_loop (w :: s) tokens current b q = tokenize_loop s k [] false false) as H0.
  { intros tokens current b q k s Hl. cbn [tokenize_loop]. destruct q; [done|]. intros [= <-]. by apply tokenize_white. }
  induction n as [|n IH]; intros [|c t] Hn tokens current b q k s Hl; cbn [length] in Hn; try lia; try apply H0; try done.
  cbn [app]. cbn [tokenize_loop]. destruct q.
  - assert (b = true) as -> by (destruct b; [done|]; by destruct Hl). destruct (c =? BACKSLASH).
    + destruct t as [|d t]; [done|]. cbn [app]. destruct (_ || _); apply IH; cbn in *; try lia; done.
    + destruct (c =? QUOTE); apply IH; try lia; done.
  - destruct ((c =? QUOTE) && negb b); [apply IH; [lia|done]|]. cbv zeta.
    assert (match t ++ w :: s with d :: _ => d =? EQUALS | [] => false end = match t with d :: _ => d =? EQUALS | [] => false end) as Hp
      by (destruct t; [by apply whitespace_plain|done]).
    rewrite Hp. destruct (_ || _).
    + destruct t as [|d t].
      * rewrite andb_false_r. destruct b; (apply IH; [cbn in *; lia|]); intros _; try done. by destruct (Hl eq_refl) as [-> _].
      * cbn [app]. destruct b, (_ && _); (first [apply (IH t)|apply (IH (d :: t))]; [cbn in *; lia|]); intros _; try done; by destruct (Hl eq_refl) as [-> _].
    + destruct (is_whitespace c); [destruct b|]; (apply IH; [lia|]); try done; intros ?; try done; by apply Hl.
Qed.

Lemma lex_join u v k1 k2 : tokenize_where u = Ok k1 -> tokenize_where v = Ok k2 -> tokenize_where (u ++ 32 :: v) = Ok (k1 ++ k2).
Proof.
  intros H1 H2. unfold tokenize_where in *. rewrite (tokenize_space 32 u eq_refl [] [] false false k1 v); [|done|done].
  rewrite <-(app_nil_r k1) at 1. by rewrite tokenize_acc, H2.
Qed.

(** White space at the ends does not matter. *)
Lemma trim_start_app f s : exists a, s = a ++ trim_start_by f s /\ Forall (fun c => f c = true) a.
Proof.
  induction s as [|c s (a & E & Ha)]; [by exists []|]. cbn [trim_start_by]. destruct (f c) eqn:Hc; [|by exists []].
  exists (c :: a). split; [cbn; by f_equal|by constructor].
Qed.

Lemma trim_end_app f s : exists b, s = trim_end_by f s ++ b /\ Forall (fun c => f c = true) b.
Proof.
  destruct (trim_start_app f (reverse s)) as (a & E & Ha). exists (reverse a). unfold trim_end_by. split; [|by apply Forall_reverse].
  rewrite <-reverse_app, <-E. by rewrite reverse_involutive.
Qed.

Lemma lex_trim s k : tokenize_where (trim s) = Ok k -> tokenize_where s = Ok k.
Proof.
  unfold trim. destruct (trim_start_app is_whitespace s) as (a & Ea & Ha). destruct (trim_end_app is_whitespace (trim_start_by is_whitespace s)) as (b & Eb & Hb).
  set (u := trim_end_by _ _) in *. clearbody u. rewrite Ea, Eb. clear Ea Eb s. unfold tokenize_where. intros H.
  induction Ha as [|w a Hw _ IH]; [|cbn [app]; rewrite tokenize_white by done; exact IH]. cbn [app].
  destruct Hb as [|w b Hw Hb]; [by rewrite app_nil_r|]. rewrite (tokenize_space w u Hw [] [] false false k b) by done. clear H Hw.
  revert k. induction Hb as [|w' b Hw' _ IH]; intros k; [done|]. rewrite tokenize_white by done. apply IH.
Qed.

(** A word: what is neither space nor operator nor quote. *)
Definition word_char (c : Z) : Prop := is_whitespace c = false /\ c ∉ [QUOTE; EQUALS; 60; 62; BANG].
Definition word (s : str) : Prop := s <> [] /\ Forall word_char s.

Lemma tokenize_word w : Forall word_char w -> forall current b,
  w <> [] -> tokenize_loop w [] current b false = Ok [current ++ w].
Proof.
  induction 1 as [|c w [Hs Hc] Hw IH]; intros current b; [done|]. intros _. cbn [tokenize_loop].
  rewrite !not_elem_of_cons in Hc. destruct Hc as (H1 & H2 & H3 & H4 & H5 & _).
  rewrite (proj2 (Z.eqb_neq c _) H1), (proj2 (Z.eqb_neq c _) H2), (proj2 (Z.eqb_neq c _) H3), (proj2 (Z.eqb_neq c _) H4),
    (proj2 (Z.eqb_neq c _) H5). cbn [andb orb]. cbv zeta. rewrite Hs. destruct w as [|d w]; [done|].
  rewrite IH by done. by rewrite <-app_assoc.
Qed.

Lemma lex_word w : word w -> tokenize_where w = Ok [w].
Proof. intros [H1 H2]. unfold tokenize_where. by rewrite tokenize_word. Qed.

(** Quoting a value. *)
Definition escape (v : str) : str := concat ((fun c => if (c =? QUOTE) || (c =? BACKSLASH) then [BACKSLASH; c] else [c]) <$> v).
Definition quote (v : str) : str := QUOTE :: escape v ++ [QUOTE].

Lemma tokenize_escape v : forall current, tokenize_loop (escape v ++ [QUOTE]) [] current true true = Ok [current ++ v].
Proof.
  induction v as [|c v IH]; intros current; [cbn; by rewrite app_nil_r|]. cbn [escape fmap list_fmap concat].
  change (concat _) with (escape v). rewrite <-app_assoc. destruct (c =? QUOTE) eqn:Hq; [|destruct (c =? BACKSLASH) eqn:Hb].
  - apply Z.eqb_eq in Hq as ->. cbn. by rewrite IH, <-app_assoc.
  - apply Z.eqb_eq in Hb as ->. cbn. by rewrite IH, <-app_assoc.
  - cbn [orb app tokenize_loop]. rewrite Hb, Hq. by rewrite IH, <-app_assoc.
Qed.

Lemma lex_quote v : tokenize_where (quote v) = Ok [v].
Proof. unfold tokenize_where, quote. cbn. by rewrite tokenize_escape. Qed.

(** ** Lemmas: parsing is local *)

Lemma list_values_local args : forall acc vs rest more,
  list_values args acc = Some (vs, rest) -> list_values (args ++ more) acc = Some (vs, rest ++ more).
Proof.
  induction args as [|a args IH]; intros acc vs rest more; cbn [list_values app]; [done|]. destruct (bytes_eqb a (bs ")")); [by intros [= <- <-]|]. apply IH.
Qed.

Lemma list_values_suffix args : forall acc vs rest, list_values args acc = Some (vs, rest) -> exists pre, args = pre ++ rest /\ pre <> [].
Proof.
  induction args as [|a args IH]; intros acc vs rest; cbn [list_values app]; [done|]. destruct (bytes_eqb a (bs ")")).
  - intros [= <- <-]. by exists [a].
  - intros (pre & -> & _)%IH. by exists (a :: pre).
Qed.

Lemma next_is_local k args more : args <> [] -> next_is k (args ++ more) = next_is k args.
Proof. by destruct args. Qed.

Lemma next_is_cons k args : next_is k args = true -> exists a args', args = a :: args' /\ eq_ignore_ascii_case a (bs k) = true.
Proof. destruct args as [|a args]; [done|]. intros. by exists a, args. Qed.

Lemma in_list_local args vs rest more :
  parse_in_list args = Ok (vs, rest) -> parse_in_list (args ++ more) = Ok (vs, rest ++ more) /\ exists pre, args = pre ++ rest /\ pre <> [].
Proof.
  destruct args as [|a args]; [done|]. cbn [parse_in_list app]. destruct (negb _); [done|].
  destruct args as [|b args]; [done|]. cbn [app]. destruct (eq_ignore_ascii_case b _); [done|].
  destruct (list_values (b :: args) []) as [[vs' rest']|] eqn:E; [|done]. destruct vs' as [|v vs']; [done|]. intros [= <- <-].
  apply (list_values_local _ _ _ _ more) in E as E'. cbn [app] in E'. split; [by rewrite E'|]. destruct (list_values_suffix _ _ _ _ E) as (pre & -> & _). by exists (a :: pre).
Qed.

Definition local_step {A : Type} (parse : list str -> result (A * list str)) (args : list str) (a : A) (rest more : list str) : Prop :=
  parse (args ++ more) = Ok (a, rest ++ more) /\ exists pre, args = pre ++ rest /\ pre <> [].

Lemma condition_local args c rest more :
  parse_where_condition args = Ok (c, rest) -> local_step parse_where_condition args c rest more.
Proof.
  unfold local_step. destruct args as [|field [|op args]]; [done|done|]. cbn [parse_where_condition app].
  destruct (bytes_eqb _ (bs "IN")).
  { destruct (parse_in_list args) as [[vs r]|] eqn:E; [|done]. intros [= <- <-].
    destruct (in_list_local _ _ _ more E) as [-> (pre & -> & _)]. split; [done|]. by exists (field :: op :: pre). }
  destruct (bytes_eqb _ (bs "NOT")).
  { destruct (next_is "IN" args) eqn:Hn; [|done]. destruct args as [|a args]; [done|]. cbn [app drop]. rewrite !drop_0.
    change (next_is "IN" (a :: args ++ more)) with (next_is "IN" (a :: args)). rewrite Hn.
    destruct (parse_in_list args) as [[vs r]|] eqn:E; [|done]. intros [= <- <-].
    destruct (in_list_local _ _ _ more E) as [-> (pre & -> & _)]. split; [done|]. by exists (field :: op :: a :: pre). }
  destruct (bytes_eqb _ (bs "IS")).
  { destruct args as [|a args]; [done|]. cbn [next_is drop app]. rewrite !drop_0. destruct (eq_ignore_ascii_case a (bs "VALID")).
    { intros [= <- <-]. split; [done|]. by exists [field; op; a]. }
    destruct (eq_ignore_ascii_case a (bs "NULL")).
    { intros [= <- <-]. split; [done|]. by exists [field; op; a]. }
    destruct (eq_ignore_ascii_case a (bs "NOT")); [|done]. cbn [andb]. destruct args as [|b args]; [done|]. cbn [next_is app drop]. rewrite ?drop_0.
    destruct (eq_ignore_ascii_case b (bs "VALID")); [|destruct (eq_ignore_ascii_case b (bs "NULL")); [|done]];
      (intros [= <- <-]; split; [done|]; by exists [field; op; a; b]). }
  destruct args as [|v args]; [by destruct (bytes_eqb _ (bs "CONTAINS"))|]. cbn [app].
  destruct (bytes_eqb _ (bs "CONTAINS")).
  { intros [= <- <-]. split; [done|]. by exists [field; op; v]. }
  destruct (parse_cmp_op op); [|done]. intros [= <- <-]. split; [done|]. by exists [field; op; v].
Qed.

(** More tokens do not change a group, unless they continue it. *)
Lemma or_local fuel : forall args cs cs' rest more fuel',
  or_loop fuel args cs = Ok (cs', rest) -> (length args <= fuel)%nat -> (length (args ++ more) <= fuel')%nat ->
  (rest = [] -> next_is "OR" more = false) ->
  or_loop fuel' (args ++ more) cs = Ok (cs', rest ++ more) /\ exists pre, args = pre ++ rest.
Proof.
  induction fuel as [|fuel IH]; intros args cs cs' rest more fuel' E Hf Hf' Hn.
  - destruct args; [|cbn in Hf; lia]. injection E as <- <-. split; [|by exists []]. destruct fuel'; [done|]. cbn. by rewrite Hn.
  - cbn [or_loop] in E. destruct (next_is "OR" args) eqn:Ho.
    + destruct args as [|a args]; [done|]. cbn [drop] in E. rewrite drop_0 in E. destruct (parse_where_condition args) as [[c r]|] eqn:Ec; [|done].
      change (or_loop fuel r (cs ++ [c]) = Ok (cs', rest)) in E. destruct (condition_local _ _ _ more Ec) as [E' (pre & -> & Hp)].
      destruct fuel' as [|fuel']; [cbn in Hf'; lia|]. cbn [or_loop app]. cbn [next_is] in Ho |- *. rewrite Ho. cbn [drop]. rewrite drop_0.
      rewrite <-app_assoc in E'. rewrite <-app_assoc. rewrite E'.
      change (or_loop fuel' (r ++ more) (cs ++ [c]) = Ok (cs', rest ++ more) /\ exists pre0, a :: pre ++ r = pre0 ++ rest).
      destruct (IH r (cs ++ [c]) cs' rest more fuel' E) as [-> (pre' & ->)]; cbn in *; rewrite ?length_app in *; try lia; try done.
      split; [done|]. exists (a :: pre ++ pre'). cbn [app]. by rewrite app_assoc.
    + injection E as <- <-. split; [|by exists []]. destruct fuel' as [|fuel']; [done|]. cbn [or_loop].
      destruct args as [|a args]; [cbn [app]; by rewrite Hn|]. by rewrite next_is_local, Ho.
Qed.

Lemma group_local args c rest more :
  parse_where_or_group args = Ok (c, rest) -> (rest = [] -> next_is "OR" more = false) ->
  local_step parse_where_or_group args c rest more.
Proof.
  unfold local_step, parse_where_or_group. destruct (parse_where_condition args) as [[c0 r]|] eqn:Ec; [|done]. intros E Hn.
  change ((match or_loop (length r) r [c0] with
           | Ok (cs, args) => Ok (match cs with [clause] => clause | _ => or_group cs end, args)
           | Err e => Err e end) = Ok (c, rest)) in E.
  destruct (or_loop (length r) r [c0]) as [[cs r']|] eqn:Eo; [|done]. injection E as E <-.
  destruct (condition_local _ _ _ more Ec) as [-> (pre & -> & Hp)].
  destruct (or_local _ _ _ _ _ more (length (r ++ more)) Eo) as [Eo' (pre' & ->)]; [done|done|done|].
  split.
  - cbn [mbind result_bind]. rewrite Eo'. cbn [mbind result_bind]. by rewrite E.
  - exists (pre ++ pre'). rewrite app_assoc. split; [done|]. by destruct pre.
Qed.

Lemma conditions_acc fuel : forall args cs, conditions_loop fuel args cs = app cs <$> conditions_loop fuel args [].
Proof.
  induction fuel as [|fuel IH]; intros args cs; [cbn; by rewrite app_nil_r|]. destruct args as [|a args]; [cbn; by rewrite app_nil_r|].
  cbn [conditions_loop]. destruct (parse_where_or_group (a :: args)) as [[c r]|]; [|done]. cbn [mbind result_bind].
  rewrite (IH _ (cs ++ [c])), (IH _ ([] ++ [c])). destruct (conditions_loop fuel _ []); [|done]. cbn. by rewrite <-app_assoc.
Qed.

(** The number of tokens is enough fuel. *)
Lemma conditions_fuel fuel : forall fuel' args cs,
  (length args <= fuel)%nat -> (length args <= fuel')%nat -> conditions_loop fuel args cs = conditions_loop fuel' args cs.
Proof.
  induction fuel as [|fuel IH]; intros fuel' args cs H1 H2.
  - destruct args; [|cbn in H1; lia]. by destruct fuel'.
  - destruct args as [|a args]; [by destruct fuel'|]. destruct fuel' as [|fuel']; [cbn in H2; lia|]. cbn [conditions_loop].
    destruct (parse_where_or_group (a :: args)) as [[c r]|] eqn:E; [|done]. cbn [mbind result_bind].
    destruct (group_local _ _ _ [] E (fun _ => eq_refl)) as [_ (pre & Hr & Hp)].
    assert (length r <= length args)%nat.
    { pose proof (f_equal length Hr) as Hl. rewrite length_app in Hl. cbn in Hl. destruct pre; [done|]. cbn in Hl. lia. }
    cbn in H1, H2. destruct (next_is "AND" r); apply IH; rewrite ?length_drop; lia.
Qed.

Lemma suffix_last (pre rest : list str) x : rest <> [] -> list.last (pre ++ rest) = x -> list.last rest = x.
Proof.
  intros H <-. symmetry. induction pre as [|a pre IH]; [done|]. rewrite <-app_comm_cons, last_cons, IH.
  destruct (list.last rest) eqn:E; [done|]. by apply last_None in E.
Qed.

(** The last token is not AND. *)
Definition complete (tokens : list str) : Prop :=
  tokens <> [] /\ forall t, list.last tokens = Some t -> eq_ignore_ascii_case t (bs "AND") = false.

Lemma complete_suffix pre rest : complete (pre ++ rest) -> rest <> [] -> complete rest.
Proof. intros [_ H] Hr. split; [done|]. intros t Ht. apply H. rewrite <-Ht. symmetry. by apply (suffix_last pre). Qed.

(** Conditions followed by AND and more conditions are the conditions of both. *)
Lemma conditions_app fuel : forall ut gt uc,
  (length ut <= fuel)%nat -> complete ut -> conditions_loop fuel ut [] = Ok uc ->
  parse_where_conditions (ut ++ bs "AND" :: gt) = app uc <$> parse_where_conditions gt.
Proof.
  induction fuel as [|fuel IH]; intros ut gt uc Hf Hc E; destruct ut as [|a ut]; try (cbn in Hf; lia); try (by destruct Hc).
  unfold parse_where_conditions. cbn [conditions_loop] in E. cbn [app length]. cbn [conditions_loop].
  destruct (parse_where_or_group (a :: ut)) as [[c r]|] eqn:Eg; [|done]. cbn [mbind result_bind] in E.
  rewrite conditions_acc in E. destruct (conditions_loop fuel _ []) as [us|] eqn:Eu; [|done]. injection E as <-.
  destruct (group_local _ _ _ (bs "AND" :: gt) Eg (fun _ => eq_refl)) as [Eg' (pre & Hr & Hp)].
  rewrite <-app_comm_cons in Eg'. rewrite Eg'. cbn [mbind result_bind]. rewrite conditions_acc.
  assert (length r <= length ut)%nat.
  { pose proof (f_equal length Hr) as Hl. rewrite length_app in Hl. cbn in Hl. destruct pre; [done|]. cbn in Hl. lia. }
  set (args' := if next_is "AND" (r ++ _) then _ else _).
  assert (conditions_loop (length (ut ++ bs "AND" :: gt)) args' [] = app us <$> parse_where_conditions gt) as ->.
  { destruct r as [|b r].
    - unfold args'. change (next_is "AND" ([] ++ bs "AND" :: gt)) with true. cbn [app drop]. rewrite drop_0. cbn [next_is] in Eu.
      assert (us = []) as -> by (destruct fuel; by injection Eu as <-).
      rewrite (conditions_fuel _ (length gt)) by (rewrite ?length_app; cbn; lia). unfold parse_where_conditions.
      by destruct (conditions_loop (length gt) gt []).
    - unfold args'. rewrite next_is_local by done. rewrite Hr in Hc.
      destruct (next_is "AND" (b :: r)) eqn:Hb.
      + cbn [drop app] in Eu |- *. rewrite drop_0 in *. assert (r <> []) as Hrn.
        { intros ->. apply complete_suffix in Hc; [|done]. destruct Hc as [_ Hc]. specialize (Hc b eq_refl). cbn [next_is] in Hb. congruence. }
        rewrite (conditions_fuel _ (length (r ++ bs "AND" :: gt))) by (rewrite ?length_app in *; cbn in *; lia).
        apply IH; [cbn in *; lia| |done]. apply (complete_suffix (pre ++ [b])); [|done]. by rewrite <-app_assoc.
      + rewrite (conditions_fuel _ (length ((b :: r) ++ bs "AND" :: gt))) by (rewrite ?length_app in *; cbn in *; lia).
        apply IH; [cbn in *; lia| |done]. by apply (complete_suffix pre). }
  fold (parse_where_conditions gt). by destruct (parse_where_conditions gt).
Qed.

(** The WHERE clause of a query: its conditions, up to what follows them. *)
Lemma and_acc fuel : forall args cs,
  and_loop fuel args cs = (fun p => (cs ++ p.1, p.2)) <$> and_loop fuel args [].
Proof.
  induction fuel as [|fuel IH]; intros args cs; [done|]. cbn [and_loop].
  destruct (parse_where_or_group args) as [[c r]|]; [|done]. cbn [mbind result_bind]. destruct (next_is "AND" r); [|done].
  rewrite (IH _ (cs ++ [c])), (IH _ ([] ++ [c])). destruct (and_loop fuel _ []) as [[ws r']|]; [|done]. cbn. by rewrite <-app_assoc.
Qed.

Lemma and_app fuel : forall ut uc args fuel',
  and_loop fuel ut [] = Ok (uc, []) -> (length ut <= fuel')%nat ->
  and_loop (S fuel') (ut ++ bs "AND" :: args) [] =
    (fun p => (uc ++ p.1, p.2)) <$> and_loop (S fuel' - length uc) args [] /\ (1 <= length uc <= length ut)%nat.
Proof.
  induction fuel as [|fuel IH]; intros ut uc args fuel' E Hf; [done|]. cbn [and_loop] in E.
  destruct (parse_where_or_group ut) as [[c r]|] eqn:Eg; [|done]. cbn [mbind result_bind] in E.
  destruct (group_local _ _ _ (bs "AND" :: args) Eg (fun _ => eq_refl)) as [Eg' (pre & -> & Hp)].
  cbn [and_loop]. rewrite Eg'. cbn [mbind result_bind].
  assert (1 <= length pre)%nat by (destruct pre; cbn; [done|lia]). rewrite length_app in *.
  destruct r as [|b r].
  - change (next_is "AND" ([] ++ bs "AND" :: args)) with true. cbn [next_is] in E. injection E as <-. cbn [app drop length]. rewrite drop_0.
    rewrite and_acc. replace (S fuel' - 1)%nat with fuel' by lia. split; [|lia]. by destruct (and_loop fuel' args []) as [[]|].
  - rewrite next_is_local by done. destruct (next_is "AND" (b :: r)); [|by injection E as]. cbn [app drop] in *. rewrite drop_0 in *.
    rewrite and_acc in E. destruct (and_loop fuel r []) as [[us r']|] eqn:Eu; [|done]. injection E as <- ->.
    destruct fuel' as [|fuel']; [cbn in Hf; lia|].
    destruct (IH r us args fuel' Eu ltac:(cbn in *; lia)) as [Ha Hl]. rewrite and_acc, Ha. split; [|cbn in *; lia].
    change (length (([] ++ [c]) ++ us)) with (S (length us)). change (S (S fuel') - S (length us))%nat with (S fuel' - length us)%nat.
    by destruct (and_loop _ args []) as [[]|].
Qed.

(** Fuel: what is enough gives the same. *)
Lemma and_fuel fuel : forall fuel' args cs r,
  and_loop fuel args cs = Ok r -> (length args < fuel')%nat -> and_loop fuel' args cs = Ok r.
Proof.
  induction fuel as [|fuel IH]; intros [|fuel'] args cs r E Hf; [done|done|lia|]. cbn [and_loop] in *.
  destruct (parse_where_or_group args) as [[c rest]|] eqn:Eg; [|done]. cbn [mbind result_bind] in *.
  destruct (group_local _ _ _ [] Eg (fun _ => eq_refl)) as [_ (pre & -> & Hp)].
  destruct (next_is "AND" rest); [|done]. apply IH; [done|]. rewrite length_app, length_drop in *. destruct pre; [done|]. cbn in *. lia.
Qed.

Lemma and_tail fuel : forall ut uc more,
  and_loop fuel ut [] = Ok (uc, []) -> next_is "AND" more = false -> next_is "OR" more = false ->
  and_loop fuel (ut ++ more) [] = Ok (uc, more).
Proof.
  induction fuel as [|fuel IH]; intros ut uc more E Ha Ho; [done|]. cbn [and_loop] in *.
  destruct (parse_where_or_group ut) as [[c r]|] eqn:Eg; [|done]. cbn [mbind result_bind] in E.
  destruct (group_local _ _ _ more Eg (fun _ => Ho)) as [-> _]. cbn [mbind result_bind].
  destruct r as [|b r].
  - injection E as <-. cbn [app]. by rewrite Ha.
  - rewrite next_is_local by done. destruct (next_is "AND" (b :: r)); [|by injection E as]. cbn [app drop] in *. rewrite drop_0 in *.
    rewrite and_acc in E. destruct (and_loop fuel r []) as [[us r']|] eqn:Eu; [|done]. injection E as <- ->.
    by rewrite and_acc, (IH r us more Eu).
Qed.

(** Keywords in either reading of letter case. *)
Lemma ignore_case_upper a k :
  Forall (fun d => Commands.Commands.is_ascii_uppercase d = true) k -> eq_ignore_ascii_case a k = true -> to_uppercase a = k.
Proof.
  unfold eq_ignore_ascii_case. rewrite andb_true_iff. intros Hk [_ E%bytes_eqb_eq]. revert a E.
  induction Hk as [|d k Hd Hk IH]; intros [|c a] E; try done. injection E as E1 E2. unfold to_uppercase. cbn [fmap list_fmap concat].
  change (concat (char_upper <$> a)) with (to_uppercase a). rewrite (IH a E2).
  enough (char_upper c = [d]) as -> by done. revert E1. unfold Commands.Commands.to_lower, char_upper. rewrite Hd.
  unfold Commands.Commands.is_ascii_uppercase, is_ascii_lowercase, in_rng in *. apply andb_true_iff in Hd as [H1%Z.leb_le H2%Z.leb_le].
  destruct ((65 <=? c) && (c <=? 90)) eqn:Ec; intros E.
  - assert (c = d) as -> by lia. rewrite (proj2 (Z.leb_gt 97 d)) by lia. cbn [andb].
    repeat match goal with |- context [d =? ?n] => rewrite (proj2 (Z.eqb_neq d n)) by lia end. done.
  - subst c. rewrite (proj2 (Z.leb_le 97 (d + 32))), (proj2 (Z.leb_le (d + 32) 122)) by lia. cbn [andb]. f_equal. lia.
Qed.

Section Queries.

Context {F32 : Type} (parse_f32 : str -> option F32).

Definition returned_map {A B : Type} (f : A -> B) (o : outcome (result A)) : outcome (result B) :=
  match o with Returned (Ok a) => Returned (Ok (f a)) | Returned (Err e) => Returned (Err e) | Panicked => Panicked end.

(** Further conditions in front of those of a query. *)
Definition with_where (ws : list WhereClause) (c : Clauses (F32 := F32)) : Clauses :=
  mkClauses (joins c) (ws ++ conditions c) (group_by c) (having c) (near c) (order_by c) (limit c) (offset c).

Lemma clause_where ws kw args c :
  parse_clause parse_f32 kw args (with_where ws c) =
  returned_map (fun p => (with_where ws p.1, p.2)) (parse_clause parse_f32 kw args c).
Proof.
  destruct c as [js cs gs hs ne od li off]. unfold parse_clause, with_where. cbn [joins conditions group_by having near order_by limit offset].
  destruct (upper_is "JOIN" kw); [by destruct (parse_join false args) as [[[]|]|]|].
  destruct (upper_is "LEFT" kw); [destruct (next_is "JOIN" args); [by destruct (parse_join true (drop 1 args)) as [[[]|]|]|done]|].
  destruct (upper_is "WHERE" kw); [destruct (and_loop (S (length args)) args []) as [[]|]; [cbn; by rewrite app_assoc|done]|].
  destruct (upper_is "GROUP" kw).
  { destruct args as [|by_ args]; [done|]. destruct (negb _); [done|]. destruct (match args with a :: _ => _ | [] => _ end); [done|].
    by destruct (group_loop args []). }
  destruct (upper_is "HAVING" kw); [by destruct (having_loop (length args) args []) as [[]|]|].
  destruct (upper_is "NEAR" kw); [by destruct (parse_near parse_f32 args) as [[]|]|].
  destruct (upper_is "ORDER" kw); [by destruct (parse_order args) as [[]|]|].
  destruct (upper_is "LIMIT" kw); [by destruct (parse_count args) as [[]|]|].
  destruct (upper_is "OFFSET" kw); [by destruct (parse_count args) as [[]|]|]. done.
Qed.

Lemma select_where ws fuel : forall args c,
  select_loop parse_f32 fuel args (with_where ws c) = returned_map (with_where ws) (select_loop parse_f32 fuel args c).
Proof.
  induction fuel as [|fuel IH]; intros [|kw args] c; try done. cbn [select_loop]. rewrite clause_where.
  destruct (parse_clause parse_f32 kw args c) as [[[c' args']|]|]; [|done|done]. apply IH.
Qed.

(** A query that parses starts with the keyword of a clause. *)
Lemma clause_keyword kw args c r :
  parse_clause parse_f32 kw args c = Returned (Ok r) -> is_select_clause_keyword kw = true.
Proof.
  destruct c as [js cs gs hs ne od li off]. unfold parse_clause, is_select_clause_keyword, existsb.
  destruct (upper_is "JOIN" kw), (upper_is "LEFT" kw), (upper_is "WHERE" kw), (upper_is "GROUP" kw), (upper_is "HAVING" kw),
    (upper_is "NEAR" kw), (upper_is "ORDER" kw), (upper_is "LIMIT" kw), (upper_is "OFFSET" kw); done.
Qed.

Lemma keyword_no_connective kw k :
  is_select_clause_keyword kw = true -> k = "AND"%string \/ k = "OR"%string -> eq_ignore_ascii_case kw (bs k) = false.
Proof.
  intros (k' & Hin & Hk)%existsb_exists Hc. destruct (eq_ignore_ascii_case kw (bs k)) eqn:E; [|done].
  apply ignore_case_upper in E; [|by destruct Hc as [->| ->]; repeat constructor].
  unfold upper_is in Hk. apply bytes_eqb_eq in Hk. rewrite E in Hk. exfalso.
  cbn in Hin. destruct Hc as [->| ->]; repeat destruct Hin as [<-|Hin]; done.
Qed.

Lemma no_connective others c k :
  parse_select_clauses parse_f32 others = Returned (Ok c) -> k = "AND"%string \/ k = "OR"%string -> next_is k others = false.
Proof.
  destruct others as [|kw others]; [done|]. unfold parse_select_clauses. cbn [length select_loop next_is]. intros E.
  apply keyword_no_connective. destruct (parse_clause parse_f32 kw others no_clauses) as [[r|]|] eqn:Ec; [|done|done].
  by eapply clause_keyword.
Qed.

(** A clause never gives tokens back, so their number is enough fuel. *)
Lemma and_shorter fuel : forall args ws r, and_loop fuel args [] = Ok (ws, r) -> (length r <= length args)%nat.
Proof.
  induction fuel as [|fuel IH]; intros args ws r E; [done|]. cbn [and_loop] in E.
  destruct (parse_where_or_group args) as [[c rest]|] eqn:Eg; [|done]. cbn [mbind result_bind] in E.
  destruct (group_local _ _ _ [] Eg (fun _ => eq_refl)) as [_ (pre & -> & _)]. rewrite length_app.
  destruct (next_is "AND" rest); [|injection E as _ <-; lia]. rewrite and_acc in E.
  destruct (and_loop fuel (drop 1 rest) []) as [[ws' r']|] eqn:Ea; [|done]. injection E as _ <-. apply IH in Ea. rewrite length_drop in Ea. lia.
Qed.

Lemma group_shorter args : forall gs, (length (group_loop args gs).2 <= length args)%nat.
Proof. induction args as [|a args IH]; intros gs; cbn [group_loop]; [done|]. destruct (is_select_clause_keyword a); cbn; [lia|]. etrans; [apply IH|lia]. Qed.

Lemma having_shorter fuel : forall args hs hs' r, having_loop fuel args hs = Ok (hs', r) -> (length r <= length args)%nat.
Proof.
  induction fuel as [|fuel IH]; intros [|a [|op [|v args]]] hs hs' r E; try done; cbn [having_loop] in E;
    try (by destruct (is_select_clause_keyword a)).
  destruct (is_select_clause_keyword a); [done|]. destruct (parse_cmp_op op) as [o|]; [|done]. cbn [mbind result_bind] in E.
  destruct (match args with b :: _ => _ | [] => _ end); [|injection E as _ <-; cbn; lia]. apply IH in E. rewrite length_drop in E. cbn. lia.
Qed.

Lemma join_shorter left args j r : parse_join left args = Returned (Ok (j, r)) -> (length r <= length args)%nat.
Proof.
  destruct args as [|a [|b [|on [|l [|e [|x args]]]]]]; try done; cbn [parse_join]; destruct (negb _); try done;
    destruct (bytes_eqb e _); try done. intros [= _ <-]. cbn. lia.
Qed.

Lemma near_shorter args n r : parse_near parse_f32 args = Ok (n, r) -> (length r <= length args)%nat.
Proof.
  destruct args as [|f [|v [|k [|n' args]]]]; try done. cbn [parse_near]. destruct (negb _); [done|]. destruct (parse_u64 n') as [m|]; [|done].
  destruct (m =? 0); [done|]. destruct (next_is "THRESHOLD" args).
  - destruct args as [|t [|t2 args]]; try done. cbn [drop]. destruct (parse_f32 t2); [|done]. cbn [mbind result_bind].
    destruct (parse_vector_literal parse_f32 v); [|done]. intros [= _ <-]. cbn. lia.
  - cbn [mbind result_bind]. destruct (parse_vector_literal parse_f32 v); [|done]. intros [= _ <-]. cbn. lia.
Qed.

Lemma clause_shorter kw args c c' r : parse_clause parse_f32 kw args c = Returned (Ok (c', r)) -> (length r <= length args)%nat.
Proof.
  destruct c as [js cs gs hs ne od li off]. unfold parse_clause.
  destruct (upper_is "JOIN" kw).
  { destruct (parse_join false args) as [[[j x]|]|] eqn:E; [|done|done]. intros [= _ <-]. by eapply join_shorter. }
  destruct (upper_is "LEFT" kw).
  { destruct (next_is "JOIN" args); [|done]. destruct (parse_join true (drop 1 args)) as [[[j x]|]|] eqn:E; [|done|done]. intros [= _ <-].
    apply join_shorter in E. rewrite length_drop in E. lia. }
  destruct (upper_is "WHERE" kw).
  { destruct (and_loop (S (length args)) args []) as [[]|] eqn:E; [|done]. intros [= _ <-]. by eapply and_shorter. }
  destruct (upper_is "GROUP" kw).
  { destruct args as [|by_ args]; [done|]. destruct (negb _); [done|]. destruct (match args with a :: _ => _ | [] => _ end); [done|].
    pose proof (group_shorter args []). destruct (group_loop args []). intros [= _ <-]. cbn in *. lia. }
  destruct (upper_is "HAVING" kw).
  { destruct (having_loop (length args) args []) as [[]|] eqn:E; [|done]. intros [= _ <-]. by eapply having_shorter. }
  destruct (upper_is "NEAR" kw).
  { destruct (parse_near parse_f32 args) as [[]|] eqn:E; [|done]. intros [= _ <-]. by eapply near_shorter. }
  destruct (upper_is "ORDER" kw).
  { destruct args as [|by_ [|col args]]; cbn [parse_order]; try done; destruct (negb _); try done.
    destruct args as [|a args]; [intros [= _ <-]; cbn; lia|]. destruct (upper_is "ASC" a), (upper_is "DESC" a); intros [= _ <-]; cbn; lia. }
  destruct (upper_is "LIMIT" kw), (upper_is "OFFSET" kw); try done;
    (destruct args as [|a args]; [done|]; cbn [parse_count]; destruct (parse_u64 a); [|done]; intros [= _ <-]; cbn; lia).
Qed.

Lemma select_fuel fuel : forall fuel' args c,
  (length args <= fuel)%nat -> (length args <= fuel')%nat -> select_loop parse_f32 fuel args c = select_loop parse_f32 fuel' args c.
Proof.
  induction fuel as [|fuel IH]; intros [|fuel'] [|kw args] c H1 H2; try done; try (cbn in *; lia). cbn [select_loop].
  destruct (parse_clause parse_f32 kw args c) as [[[c' r]|]|] eqn:E; [|done|done]. apply clause_shorter in E. cbn in H1, H2.
  cbn [mbind outcome_bind]. apply IH; lia.
Qed.

(** A query whose WHERE has conditions only. *)
Lemma where_then_others args ws others c :
  and_loop (S (length args)) args [] = Ok (ws, others) -> parse_select_clauses parse_f32 others = Returned (Ok c) ->
  parse_select_clauses parse_f32 (bs "WHERE" :: args) = Returned (Ok (with_where ws c)).
Proof.
  intros Ha Ho. unfold parse_select_clauses. cbn [length select_loop]. unfold parse_clause at 1. cbn [no_clauses].
  change (upper_is "JOIN" (bs "WHERE")) with false. change (upper_is "LEFT" (bs "WHERE")) with false.
  change (upper_is "WHERE" (bs "WHERE")) with true. cbv iota. rewrite Ha. cbn [mbind result_bind outcome_bind app].
  replace (mkClauses [] ws [] [] None None None None) with (with_where ws no_clauses) by (unfold with_where; cbn; by rewrite app_nil_r).
  rewrite select_where, (select_fuel _ (length others)); [|by eapply and_shorter|done].
  unfold parse_select_clauses in Ho. by rewrite Ho.
Qed.

End Queries.

(** ** Filters *)

(** A text that is conditions joined by AND, and nothing else. *)
Definition conditions_text (s : str) (ws : list WhereClause) : Prop :=
  exists tokens, tokenize_where (trim s) = Ok tokens /\ and_loop (S (length tokens)) tokens [] = Ok (ws, []).

Lemma trim_nonempty s tokens : tokenize_where (trim s) = Ok tokens -> tokens <> [] -> trim s <> [].
Proof. intros H Hn E. rewrite E in H. by injection H as <-. Qed.

Lemma and_nonempty fuel args r : and_loop fuel args [] = Ok r -> args <> [].
Proof. destruct fuel; [done|]. intros E ->. done. Qed.

(** The tokens of a combined text. *)
Lemma combine_tokens user grant ut gt :
  tokenize_where (trim user) = Ok ut -> ut <> [] -> tokenize_where (trim grant) = Ok gt -> gt <> [] ->
  parse_http_where_tokens (combine_where user grant) = Ok (ut ++ bs "AND" :: gt).
Proof.
  intros Hu Hun Hg Hgn. unfold combine_where. rewrite (bool_decide_eq_false_2 (trim user = [])) by (by eapply trim_nonempty).
  rewrite (bool_decide_eq_false_2 (trim grant = [])) by (by eapply trim_nonempty). unfold parse_http_where_tokens.
  change (bs " AND ") with (32 :: bs "AND" ++ [32]). rewrite <-(app_comm_cons (bs "AND" ++ [32])), <-app_assoc. cbn [app].
  rewrite (lex_join (trim user) _ ut (bs "AND" :: gt) Hu). { cbn [mbind result_bind]. by rewrite bool_decide_eq_false_2 by (by destruct ut). }
  change (65 :: 78 :: 68 :: 32 :: trim grant) with (bs "AND" ++ 32 :: trim grant). by apply (lex_join (bs "AND") _ [bs "AND"]).
Qed.

(** Filters narrow writes. If the WHERE of a client can be cut into tokens and parsed by itself (and
    does not end with AND), then an UPDATE or DELETE with an access filter runs under exactly the
    client's conditions followed by the filter's, whatever values the two texts quote. *)
Lemma write_filter_narrows user grant ut uc gt gc :
  tokenize_where (trim user) = Ok ut -> complete ut -> parse_where_conditions ut = Ok uc ->
  tokenize_where (trim grant) = Ok gt -> gt <> [] -> parse_where_conditions gt = Ok gc ->
  write_conditions user grant = Ok (uc ++ gc).
Proof.
  intros Hu Hc Hp Hg Hgn Hgp. unfold write_conditions. rewrite (combine_tokens user grant ut gt); [|done|apply Hc|done|done].
  cbn [mbind result_bind]. by rewrite (conditions_app (length ut) ut gt uc), Hgp.
Qed.

(** A query whose WHERE is conditions only. *)
Lemma table_query_conditions {F32 : Type} (parse_f32 : str -> option F32) user uc others c :
  conditions_text user uc -> parse_select_clauses parse_f32 others = Returned (Ok c) ->
  parse_http_table_query parse_f32 (Some user) others = Returned (Ok (with_where uc c)).
Proof.
  intros (ut & Hu & Hut) Ho. pose proof (and_nonempty _ _ _ Hut) as Hun.
  pose proof (no_connective parse_f32 others c "AND" Ho ltac:(by left)) as HA. pose proof (no_connective parse_f32 others c "OR" Ho ltac:(by right)) as HO.
  unfold parse_http_table_query, parse_http_where_tokens. rewrite (lex_trim _ _ Hu). cbn [mbind result_bind]. rewrite bool_decide_eq_false_2 by done.
  apply (where_then_others _ _ _ others); [|done]. apply (and_fuel (S (length ut))); [by apply and_tail|lia].
Qed.

(** Filters narrow reads: the query with a filter is the client's query with the filter's conditions added to its own. *)
Lemma read_filter_narrows {F32 : Type} (parse_f32 : str -> option F32) user grant uc gc others c :
  conditions_text user uc -> conditions_text grant gc -> parse_select_clauses parse_f32 others = Returned (Ok c) ->
  scoped_query parse_f32 (Some user) grant others = Returned (Ok (with_where (uc ++ gc) c)).
Proof.
  intros Hut' (gt & Hg & Hgt) Ho. pose proof (table_query_conditions parse_f32 user uc others c Hut' Ho) as H1. destruct Hut' as (ut & Hu & Hut).
  pose proof (and_nonempty _ _ _ Hut) as Hun. pose proof (and_nonempty _ _ _ Hgt) as Hgn.
  pose proof (no_connective parse_f32 others c "AND" Ho ltac:(by left)) as HA. pose proof (no_connective parse_f32 others c "OR" Ho ltac:(by right)) as HO.
  unfold scoped_query. rewrite H1. cbn [mbind outcome_bind]. change (default [] (Some user)) with user.
  rewrite bool_decide_eq_false_2 by (by eapply trim_nonempty). unfold parse_http_table_query.
  rewrite (combine_tokens user grant ut gt) by done. apply (where_then_others _ _ _ others); [|done].
  rewrite <-app_assoc. cbn [app].
  destruct (and_app _ ut uc (gt ++ others) (length (ut ++ bs "AND" :: gt ++ others)) Hut) as [-> [_ Hl]]; [rewrite length_app; lia|].
  rewrite (and_fuel (S (length gt)) _ (gt ++ others) [] (gc, others)); [done|by apply and_tail|].
  rewrite !length_app in *. cbn. rewrite length_app. lia.
Qed.

(** Conditions joined by AND are read the same way by both parsers. *)
Lemma and_conditions fuel : forall args ws, and_loop fuel args [] = Ok (ws, []) -> parse_where_conditions args = Ok ws.
Proof.
  induction fuel as [|fuel IH]; intros args ws E; [done|]. cbn [and_loop] in E. destruct args as [|a args]; [done|]. unfold parse_where_conditions.
  cbn [length conditions_loop]. destruct (parse_where_or_group (a :: args)) as [[c r]|] eqn:Eg; [|done]. cbn [mbind result_bind] in *.
  destruct (group_local _ _ _ [] Eg (fun _ => eq_refl)) as [_ (pre & Hr & Hp)]. rewrite conditions_acc.
  assert (length r <= length args)%nat.
  { pose proof (f_equal length Hr) as Hl. rewrite length_app in Hl. cbn in Hl. destruct pre; [done|]. cbn in Hl. lia. }
  destruct (next_is "AND" r).
  - rewrite and_acc in E. destruct (and_loop fuel (drop 1 r) []) as [[us r']|] eqn:Ea; [|done]. injection E as <- ->.
    rewrite (conditions_fuel _ (length (drop 1 r))) by (rewrite ?length_drop; lia). apply IH in Ea. unfold parse_where_conditions in Ea. by rewrite Ea.
  - injection E as <- ->. by destruct (length args).
Qed.

(** A filter on a query without conditions of its own. *)
Lemma filter_alone {F32 : Type} (parse_f32 : str -> option F32) grant gc others c :
  conditions_text grant gc -> parse_select_clauses parse_f32 others = Returned (Ok c) ->
  scoped_query parse_f32 None grant others = Returned (Ok (with_where gc c)).
Proof.
  intros (gt & Hg & Hgt) Ho. pose proof (and_nonempty _ _ _ Hgt) as Hgn.
  pose proof (no_connective parse_f32 others c "AND" Ho ltac:(by left)) as HA. pose proof (no_connective parse_f32 others c "OR" Ho ltac:(by right)) as HO.
  unfold scoped_query. cbn [parse_http_table_query]. rewrite Ho. cbn [mbind outcome_bind].
  rewrite bool_decide_eq_false_2 by (by eapply trim_nonempty). cbn [parse_http_table_query]. change (default [] None) with (@nil Z).
  unfold combine_where, parse_http_where_tokens. rewrite bool_decide_eq_true_2 by done. rewrite Hg. cbn [mbind result_bind]. rewrite bool_decide_eq_false_2 by done.
  apply (where_then_others _ _ _ others); [|done]. apply (and_fuel (S (length gt))); [by apply and_tail|lia].
Qed.

(** An empty filter changes nothing. *)
Lemma no_filter user : combine_where user [] = trim user.
Proof. unfold combine_where. change (trim []) with (@nil Z). rewrite (bool_decide_eq_true_2 ([] = [])) by done. by case_bool_decide. Qed.

(** ** LIKE *)

(** The reference: percent is any sequence, underscore any character. *)
Definition like_token (c : Z) : Glob.Glob.Token :=
  if c =? PERCENT then Glob.Glob.AnySequence else if c =? UNDERSCORE then Glob.Glob.AnyCharacter else Glob.Glob.Literal c.
Definition like_spec (pat text : str) : bool := Glob.Glob.glob_spec (like_token <$> pat) text.

Lemma like_seq pat pos : Glob.Glob.seq_at (like_token <$> pat) pos = pat_is pat pos PERCENT.
Proof.
  unfold Glob.Glob.seq_at, pat_is. rewrite list_lookup_fmap. destruct (pat !! pos) as [c|]; [|done]. cbn. unfold like_token.
  destruct (c =? PERCENT); [done|]. by destruct (c =? UNDERSCORE).
Qed.

Lemma like_match pat text pos tp t :
  text !! tp = Some t -> t <> PERCENT ->
  Glob.Glob.match_at (like_token <$> pat) text pos tp = pat_is pat pos UNDERSCORE || pat_is pat pos t.
Proof.
  intros Ht Hp. unfold Glob.Glob.match_at, pat_is. rewrite list_lookup_fmap, Ht. destruct (pat !! pos) as [c|]; [|done]. cbn. unfold like_token.
  destruct (c =? PERCENT) eqn:E.
  - apply Z.eqb_eq in E as ->. rewrite (proj2 (Z.eqb_neq PERCENT t)) by congruence. done.
  - destruct (c =? UNDERSCORE); done.
Qed.

Lemma like_skip pat fuel : forall pos, skip_percents fuel pat pos = Glob.Glob.skip_seqs fuel (like_token <$> pat) pos.
Proof. induction fuel as [|fuel IH]; intros pos; [done|]. cbn. rewrite like_seq. destruct (pat_is pat pos PERCENT); [apply IH|done]. Qed.

Lemma like_loop_glob text pat : PERCENT ∉ text -> forall fuel tp pp per pm,
  like_loop fuel text pat tp pp per pm = Glob.Glob.match_loop fuel (like_token <$> pat) text tp pp per pm.
Proof.
  intros Hp. induction fuel as [|fuel IH]; intros tp pp per pm; [done|]. cbn [like_loop Glob.Glob.match_loop].
  destruct (text !! tp) as [t|] eqn:Et.
  - rewrite (proj2 (Nat.ltb_lt _ _)) by (by eapply lookup_lt_Some).
    rewrite (like_match pat text pp tp t Et), like_seq by (intros ->; by eapply Hp, list_elem_of_lookup_2).
    destruct (_ || _); [apply IH|]. destruct (pat_is pat pp PERCENT); [apply IH|]. destruct per; [apply IH|done].
  - apply lookup_ge_None in Et. rewrite (proj2 (Nat.ltb_ge _ _)) by done. by rewrite like_skip, length_fmap.
Qed.

(** LIKE terminates and is correct on texts without a percent sign: the loop that remembers only the
    last percent sign of the pattern returns what the recursive reading of the wildcards says, for every
    pattern, with either treatment of letter case. *)
Theorem like_correct to_lowercase actual pattern (ci : bool) :
  let text := if ci then to_lowercase actual else actual in
  let pat := if ci then to_lowercase pattern else pattern in
  PERCENT ∉ text -> sql_like_matches to_lowercase actual pattern ci = Some (like_spec pat text).
Proof.
  intros text pat Hp. unfold sql_like_matches.
  assert ((if ci then (to_lowercase actual, to_lowercase pattern) else (actual, pattern)) = (text, pat)) as -> by (by destruct ci).
  rewrite like_loop_glob by done. unfold like_spec. rewrite <-Glob.Glob.match_loop_start. unfold like_fuel, Glob.Glob.match_fuel.
  by rewrite length_fmap.
Qed.

(** On a text that has a percent sign the loop takes the sign of the pattern for the sign of the text:
    the pattern that matches everything does not match this text. *)
Example like_percent_text : sql_like_matches id (bs "%a") (bs "%") false = Some false /\ like_spec (bs "%") (bs "%a") = true.
Proof. vm_compute. done. Qed.

(** ** What the hypotheses exclude *)

(** An open quote in the WHERE of an UPDATE or DELETE takes in the filter: the statement runs under one
    condition of the client's and no condition of the filter. *)
Example open_quote_drops_filter :
  write_conditions (bs "id != 'x") (bs "owner = 'me'") = Ok [single (bs "id") Ne (bs "x AND owner = me'")].
Proof. vm_compute. reflexivity. Qed.

(** GROUP BY in the WHERE of a read takes the filter for columns. *)
Example group_by_drops_filter :
  exists c, scoped_query (F32 := unit) (fun _ => None) (Some (bs "id != 0 GROUP BY email")) (bs "owner = 'me'") [] = Returned (Ok c) /\
    conditions c = [single (bs "id") Ne (bs "0")] /\ group_by c = [bs "email"; bs "AND"; bs "owner"; bs "="; bs "me"].
Proof. eexists. vm_compute. done. Qed.

(** A join that ends at the equals sign. *)
Example open_join_panics :
  parse_select_clauses (F32 := unit) (fun _ => None) [bs "JOIN"; bs "u"; bs "a"; bs "ON"; bs "x"; bs "="] = Panicked.
Proof. vm_compute. reflexivity. Qed.

(** ** Witnesses *)

Lemma like_correct_witness : sql_like_matches id (bs "banana") (bs "b%n_") false = Some (like_spec (bs "b%n_") (bs "banana")).
Proof. apply (like_correct id (bs "banana") (bs "b%n_") false). intros H. vm_compute in H. repeat (apply elem_of_cons in H as [H|H]; [discriminate|]). by apply elem_of_nil in H. Defined.

End Where.
