(* ===== verification/Grants.v ===== *)
(** * The GRANT language ([src/src/grants.rs])

    A grant is an enforced row filter: alternatives of conjunctions of conditions on the columns of a
    table, where a condition compares with a literal or with a claim of the caller, or asks for
    membership in the result of a subquery. Grants are parsed from the words of a command, kept as text,
    and parsed again from the text when they are enforced; the claims of the caller are then put in,
    subqueries are executed, and rows are tested.

    Words are lists of [char]s as in [Where]; error messages are kept without the words they quote.
    Double-precision numbers (comparisons are numeric when both sides are numbers) are a parameter. *)

From S2P Require Import Prelude.
From S2P Require Import Commands.
From S2P Require Import Where.
Local Open Scope Z_scope.

Module Grants.
Import Commands.Commands(eq_ignore_ascii_case, to_lower).
Import Where.Where.

(** ** Data *)

Inductive Scope := Read | Write_.

#[export] Instance Scope_eq_dec : EqDecision Scope.
Proof. solve_decision. Defined.

Definition as_str (s : Scope) : str := match s with Read => bs "read" | Write_ => bs "write" end.

Definition to_ascii_lowercase (s : str) : str := to_lower <$> s.

Definition scope_parse (s : str) : option Scope :=
  if bytes_eqb (to_ascii_lowercase s) (bs "read") then Some Read
  else if bytes_eqb (to_ascii_lowercase s) (bs "write") then Some Write_
  else None.

Inductive Operand :=
| AuthUid
| AuthClaim (name : str)
| Literal (value : str).

Inductive Condition :=
| Cmp (column op : str) (operand : Operand)
| InSubquery (column : str) (negated : bool) (subquery : Subquery)
with Subquery := mkSub (projected table : str) (inner : Predicate)
with Predicate := mkPred (conditions : list Condition) (alternatives : list (list Condition)).

Definition clauses (p : Predicate) : list (list Condition) :=
  match p with mkPred conditions alternatives => conditions :: alternatives end.

Definition append_alternatives (p other : Predicate) : Predicate :=
  match p, other with
  | mkPred [] _, _ | _, mkPred [] _ => mkPred [] []
  | mkPred conditions alternatives, mkPred conditions' alternatives' =>
      mkPred conditions (alternatives ++ conditions' :: alternatives')
  end.

Record Grant := mkGrant { g_table : str; g_scopes : list Scope; g_predicate : Predicate }.

(** ** Parsing *)

Definition VALID_OPS : list str := [bs "="; bs "!="; bs ">"; bs "<"; bs ">="; bs "<="].

Definition strip_prefix (p s : str) : option str := if starts_with s p then Some (drop (length p) s) else None.

Definition parse_operand (tok : str) : Operand :=
  if eq_ignore_ascii_case tok (bs "auth.uid()") then AuthUid
  else match strip_prefix (bs "auth.") tok with
       | Some claim => AuthClaim claim
       | None => match strip_prefix (bs "AUTH.") tok with
                 | Some claim => AuthClaim claim
                 | None => Literal tok
                 end
       end.

(** The parts between separators outside parentheses. *)
Fixpoint split_loop (sep : str) (tokens current : list str) (depth : nat) : list (list str) :=
  match tokens with
  | [] => [current]
  | t :: tokens =>
      if bytes_eqb t (bs "(") then split_loop sep tokens (current ++ [t]) (S depth)
      else if bytes_eqb t (bs ")") then split_loop sep tokens (current ++ [t]) (pred depth)
      else if (depth =? 0)%nat && eq_ignore_ascii_case t sep then current :: split_loop sep tokens [] depth
      else split_loop sep tokens (current ++ [t]) depth
  end.

Definition split_top_level (tokens : list str) (sep : str) : list (list str) := split_loop sep tokens [] 0.

(** The words of an inner WHERE, up to the closing parenthesis. *)
Fixpoint inner_loop (tokens : list str) (depth : nat) (inner : list str) : list str * list str :=
  match tokens with
  | [] => (inner, [])
  | t :: tokens' =>
      if bytes_eqb t (bs ")") then
        match depth with
        | O => (inner, tokens)
        | S depth => inner_loop tokens' depth (inner ++ [t])
        end
      else inner_loop tokens' (if bytes_eqb t (bs "(") then S depth else depth) (inner ++ [t])
  end.

(** A keyword of a subquery, and the words after it. *)
Definition expect (want : string) (tokens : list str) : result (list str) :=
  match tokens with
  | t :: tokens => if eq_ignore_ascii_case t (bs want) then Ok tokens else Err "ERR unexpected word in grant subquery"
  | [] => Err "ERR grant subquery ended early"
  end.

Definition reserved_prefix (table : str) : bool := starts_with table (bs "auth.") || starts_with table (bs "push.").

Section Parser.

(** [parse_predicate] for the inner WHERE of subqueries. *)
Context (parse_inner : list str -> result Predicate).

Definition parse_subquery (tokens : list str) : result (Subquery * list str) :=
  tokens ← expect "(" tokens;
  tokens ← expect "SELECT" tokens;
  match tokens with
  | [] => Err "ERR grant subquery expects a column after SELECT"
  | projected :: tokens =>
      if bytes_eqb projected (bs ")") || eq_ignore_ascii_case projected (bs "FROM")
      then Err "ERR grant subquery expects a single column after SELECT"
      else
        tokens ← expect "FROM" tokens;
        match tokens with
        | [] => Err "ERR grant subquery expects a table after FROM"
        | table :: tokens =>
            if reserved_prefix (to_ascii_lowercase table) then Err "ERR grant subquery may not read reserved system tables"
            else
              let '(inner_tokens, tokens) := if next_is "WHERE" tokens then inner_loop (drop 1 tokens) 0 [] else ([], tokens) in
              tokens ← expect ")" tokens;
              inner ← parse_inner inner_tokens;
              Ok (mkSub projected table inner, tokens)
        end
  end.

Definition parse_one_condition (tokens : list str) : result (Condition * list str) :=
  match tokens with
  | [] => Err "ERR incomplete grant predicate (expected column)"
  | [_] => Err "ERR incomplete grant condition"
  | column :: op :: tokens =>
      if eq_ignore_ascii_case op (bs "IN") then
        '(subquery, tokens) ← parse_subquery tokens; Ok (InSubquery column false subquery, tokens)
      else if eq_ignore_ascii_case op (bs "NOT") then
        match tokens with
        | [] => Err "ERR expected 'IN' after 'NOT'"
        | in_tok :: tokens =>
            if negb (eq_ignore_ascii_case in_tok (bs "IN")) then Err "ERR expected 'IN' after 'NOT'"
            else '(subquery, tokens) ← parse_subquery tokens; Ok (InSubquery column true subquery, tokens)
        end
      else if negb (bool_decide (op ∈ VALID_OPS)) then Err "ERR unsupported operator in grant"
      else match tokens with
           | [] => Err "ERR grant condition is missing its value"
           | operand :: tokens => Ok (Cmp column op (parse_operand operand), tokens)
           end
  end.

(** The loop of [parse_predicate_inner]: every round reads a condition. *)
Fixpoint inner_conditions (fuel : nat) (tokens : list str) (conditions : list Condition) : result (list Condition) :=
  match fuel, tokens with
  | S fuel, _ :: _ =>
      '(cond, tokens) ← parse_one_condition tokens;
      let conditions := conditions ++ [cond] in
      match tokens with
      | [] => Ok conditions
      | t :: tokens =>
          if eq_ignore_ascii_case t (bs "AND") then
            match tokens with
            | [] => Err "ERR trailing 'AND' in grant predicate"
            | _ :: _ => inner_conditions fuel tokens conditions
            end
          else Err "ERR expected 'AND' or 'OR' between grant conditions"
      end
  | _, _ => Ok conditions
  end.

Definition parse_predicate_inner (tokens : list str) : result (list Condition) := inner_conditions (length tokens) tokens [].

Fixpoint parse_clauses (ranges : list (list str)) (clauses : list (list Condition)) : result (list (list Condition)) :=
  match ranges with
  | [] => Ok clauses
  | r :: ranges => c ← parse_predicate_inner r; parse_clauses ranges (clauses ++ [c])
  end.

Definition predicate_body (tokens : list str) : result Predicate :=
  clauses ← parse_clauses (split_top_level tokens (bs "OR")) [];
  Ok match clauses with [] => mkPred [] [] | conditions :: alternatives => mkPred conditions alternatives end.

End Parser.

(** An inner WHERE has fewer words than the predicate around it. *)
Fixpoint parse_predicate_at (fuel : nat) (tokens : list str) : result Predicate :=
  match fuel with
  | O => Err "ERR incomplete grant predicate (expected column)"
  | S fuel => predicate_body (parse_predicate_at fuel) tokens
  end.

Definition parse_predicate (tokens : list str) : result Predicate := parse_predicate_at (S (length tokens)) tokens.

(** [iter().position(|t| t.eq_ignore_ascii_case(k))]: the words before and after. *)
Fixpoint split_at_word (k : string) (tokens before : list str) : option (list str * list str) :=
  match tokens with
  | [] => None
  | t :: tokens => if eq_ignore_ascii_case t (bs k) then Some (before, tokens) else split_at_word k tokens (before ++ [t])
  end.

Fixpoint parse_scopes (dedup : bool) (tokens : list str) (scopes : list Scope) : result (list Scope) :=
  match tokens with
  | [] => Ok scopes
  | t :: tokens =>
      let s := trim_end_matches COMMA t in
      if bool_decide (s = []) then parse_scopes dedup tokens scopes
      else match scope_parse s with
           | None => Err "ERR invalid scope"
           | Some scope => parse_scopes dedup tokens (if dedup && bool_decide (scope ∈ scopes) then scopes else scopes ++ [scope])
           end
  end.

Definition parse_grant (tokens : list str) : result Grant :=
  match split_at_word "ON" tokens [] with
  | None => Err "ERR usage: GRANT <read[, write]> ON <table> [WHERE <predicate>]"
  | Some ([], _) => Err "ERR GRANT requires at least one scope"
  | Some (before, after) =>
      scopes ← parse_scopes true before [];
      if bool_decide (scopes = []) then Err "ERR GRANT requires at least one scope"
      else match after with
           | [] => Err "ERR GRANT requires a table name after ON"
           | table :: _ =>
               predicate ← match split_at_word "WHERE" tokens [] with
                           | Some (_, rest) => parse_predicate rest
                           | None => Ok (mkPred [] [])
                           end;
               Ok (mkGrant table scopes predicate)
           end
  end.

Definition parse_revoke (tokens : list str) : result (str * list Scope) :=
  match split_at_word "ON" tokens [] with
  | None => Err "ERR usage: REVOKE <read[, write]> ON <table>"
  | Some (before, after) =>
      scopes ← parse_scopes false before [];
      match after with
      | [] => Err "ERR REVOKE requires a table name after ON"
      | table :: _ => if bool_decide (scopes = []) then Err "ERR REVOKE requires at least one scope" else Ok (table, scopes)
      end
  end.

(** ** Text *)

Fixpoint join (sep : str) (l : list str) : str :=
  match l with
  | [] => []
  | [s] => s
  | s :: l => s ++ sep ++ join sep l
  end.

(** [replace('\\', "\\\\").replace('\'', "\\'")] *)
Definition replace (c : Z) (by_ s : str) : str := concat ((fun d => if d =? c then by_ else [d]) <$> s).
Definition quoted (value : str) : str :=
  [QUOTE] ++ replace QUOTE [BACKSLASH; QUOTE] (replace BACKSLASH [BACKSLASH; BACKSLASH] value) ++ [QUOTE].

Definition operand_to_string (operand : Operand) : str :=
  match operand with
  | AuthUid => bs "auth.uid()"
  | AuthClaim name => bs "auth." ++ name
  | Literal value => quoted value
  end.

Definition clauses_to_string (f : Condition -> str) (l : list (list Condition)) : str :=
  join (bs " OR ") (map (fun conditions => join (bs " AND ") (map f conditions)) l).

Fixpoint condition_to_string (c : Condition) : str :=
  match c with
  | Cmp column op operand => column ++ [32] ++ op ++ [32] ++ operand_to_string operand
  | InSubquery column negated (mkSub projected table (mkPred conditions alternatives)) =>
      let kw := if negated then bs "NOT IN" else bs "IN" in
      let inner := clauses_to_string condition_to_string (conditions :: alternatives) in
      if bool_decide (inner = [])
      then column ++ [32] ++ kw ++ bs " ( SELECT " ++ projected ++ bs " FROM " ++ table ++ bs " )"
      else column ++ [32] ++ kw ++ bs " ( SELECT " ++ projected ++ bs " FROM " ++ table ++ bs " WHERE " ++ inner ++ bs " )"
  end.

Definition predicate_to_string (p : Predicate) : str := clauses_to_string condition_to_string (clauses p).

(** ** Resolution *)

Record ResolvedCond := mkResolved { r_column : str; r_op : str; r_value : str }.

Inductive ResolvedCondition :=
| RCmp (rc : ResolvedCond)
| InSubqueryResolved (column : str) (negated : bool) (inner_table inner_projected : str) (inner_conds : list ResolvedCondition).

Inductive EnforcedCondition :=
| ECmp (rc : ResolvedCond)
| InSet (column : str) (negated : bool) (values : list str).

Section Resolve.

Context (uid : str) (claim : str -> option str).

Definition resolve_operand (operand : Operand) : result str :=
  match operand with
  | AuthUid => Ok uid
  | AuthClaim name => match claim name with Some v => Ok v | None => Err "ERR grant references a claim that is not present" end
  | Literal v => Ok v
  end.

Fixpoint collect {A B : Type} (f : A -> result B) (l : list A) : result (list B) :=
  match l with
  | [] => Ok []
  | a :: l => b ← f a; bs ← collect f l; Ok (b :: bs)
  end.

Fixpoint resolve_condition (c : Condition) : result ResolvedCondition :=
  match c with
  | Cmp column op operand => v ← resolve_operand operand; Ok (RCmp (mkResolved column op v))
  | InSubquery column negated (mkSub projected table (mkPred conditions alternatives)) =>
      if negb (bool_decide (length alternatives = 0%nat)) then Err "ERR OR inside grant subquery is not supported"
      else inner ← collect resolve_condition conditions; Ok (InSubqueryResolved column negated table projected inner)
  end.

Definition resolve_predicate (conditions : list Condition) : result (list ResolvedCondition) := collect resolve_condition conditions.
Definition resolve_clauses (p : Predicate) : result (list (list ResolvedCondition)) := collect resolve_predicate (clauses p).

End Resolve.

(** ** Testing rows *)

Section Rows.

(** [str::parse::<f64>] and the order of numbers; a NaN is not ordered. *)
Context {F64 : Type} (parse_f64 : str -> option F64) (partial_cmp : F64 -> F64 -> option comparison).

Definition cmp_order (op : str) (o : option comparison) : bool :=
  if bytes_eqb op (bs "=") then match o with Some Eq => true | _ => false end
  else if bytes_eqb op (bs "!=") then match o with Some Eq => false | _ => true end
  else if bytes_eqb op (bs ">") then match o with Some Gt => true | _ => false end
  else if bytes_eqb op (bs "<") then match o with Some Lt => true | _ => false end
  else if bytes_eqb op (bs ">=") then match o with Some (Gt | Eq) => true | _ => false end
  else if bytes_eqb op (bs "<=") then match o with Some (Lt | Eq) => true | _ => false end
  else false.

(** The order of [str]. *)
Definition str_cmp (a b : str) : comparison :=
  if bytes_eqb a b then Eq else if bytes_leb a b then Lt else Gt.

Definition cmp (actual op target : str) : bool :=
  match parse_f64 actual, parse_f64 target with
  | Some a, Some t => cmp_order op (partial_cmp a t)
  | _, _ => cmp_order op (Some (str_cmp actual target))
  end.

Definition in_set (value : str) (negated : bool) (values : list str) : bool :=
  negb (Bool.eqb (existsb (fun v => bytes_eqb v value) values) negated).

Definition condition_column (c : EnforcedCondition) : str := match c with ECmp rc => r_column rc | InSet column _ _ => column end.

(** A value against the condition on its column. *)
Definition value_satisfies (c : EnforcedCondition) (v : str) : bool :=
  match c with
  | ECmp rc => cmp v (r_op rc) (r_value rc)
  | InSet _ negated values => in_set v negated values
  end.

Definition enforced_row_satisfies (conds : list EnforcedCondition) (value : str -> option str) : bool :=
  forallb (fun c => match value (condition_column c) with Some v => value_satisfies c v | None => false end) conds.

Definition enforced_set_satisfies (conds : list EnforcedCondition) (set_fields : list (str * str)) : bool :=
  forallb (fun c => match List.find (fun p => bytes_eqb p.1 (condition_column c)) set_fields with
                    | None => true
                    | Some (_, new_val) => value_satisfies c new_val
                    end) conds.

End Rows.

(** ** The words of a predicate *)

Definition operand_word (operand : Operand) : str :=
  match operand with
  | AuthUid => bs "auth.uid()"
  | AuthClaim name => bs "auth." ++ name
  | Literal value => value
  end.

(** Lists of words with a word in between. *)
Fixpoint join_words (sep : str) (l : list (list str)) : list str :=
  match l with
  | [] => []
  | [w] => w
  | w :: l => w ++ sep :: join_words sep l
  end.

Definition clauses_words (f : Condition -> list str) (l : list (list Condition)) : list str :=
  join_words (bs "OR") (map (fun conditions => join_words (bs "AND") (map f conditions)) l).

Fixpoint condition_words (c : Condition) : list str :=
  match c with
  | Cmp column op operand => [column; op; operand_word operand]
  | InSubquery column negated (mkSub projected table (mkPred conditions alternatives)) =>
      let inner := clauses_words condition_words (conditions :: alternatives) in
      column :: (if negated then [bs "NOT"; bs "IN"] else [bs "IN"]) ++ [bs "("; bs "SELECT"; projected; bs "FROM"; table] ++
      match conditions, alternatives with [], [] => [] | _, _ => bs "WHERE" :: inner end ++ [bs ")"]
  end.

Definition clause_words (conditions : list Condition) : list str := join_words (bs "AND") (map condition_words conditions).
Definition predicate_words (p : Predicate) : list str := join_words (bs "OR") (map clause_words (clauses p)).

(** ** Predicates whose text says what they are *)

Definition wordb (s : str) : bool :=
  negb (bool_decide (s = [])) && forallb (fun c => negb (is_whitespace c) && negb (bool_decide (c ∈ [QUOTE; EQUALS; 60; 62; BANG]))) s.

(** A word that the parser does not take for syntax. *)
Definition inert (s : str) : bool :=
  negb (bytes_eqb s (bs "(")) && negb (bytes_eqb s (bs ")")) && negb (eq_ignore_ascii_case s (bs "OR")).

Definition plain (s : str) : bool := wordb s && inert s.

Definition plain_operand (operand : Operand) : bool :=
  match operand with
  | AuthUid => true
  | AuthClaim name => wordb (bs "auth." ++ name) && negb (eq_ignore_ascii_case name (bs "uid()"))
  | Literal value =>
      inert value && negb (eq_ignore_ascii_case value (bs "auth.uid()")) &&
      negb (starts_with value (bs "auth.")) && negb (starts_with value (bs "AUTH."))
  end.

Fixpoint plain_condition (c : Condition) : bool :=
  match c with
  | Cmp column op operand => plain column && bool_decide (op ∈ VALID_OPS) && plain_operand operand
  | InSubquery column _ (mkSub projected table (mkPred conditions alternatives)) =>
      plain column && plain projected && negb (eq_ignore_ascii_case projected (bs "FROM")) &&
      plain table && negb (reserved_prefix (to_ascii_lowercase table)) &&
      forallb plain_condition conditions && forallb (forallb plain_condition) alternatives
  end.

Definition plain_predicate (p : Predicate) : bool := forallb (forallb plain_condition) (clauses p).

(** ** Lemmas: text and words *)

Lemma wordb_word s : wordb s = true -> word s.
Proof.
  intros [H1 H2]%andb_true_iff. apply negb_true_iff, bool_decide_eq_false in H1. split; [done|].
  rewrite forallb_forall in H2. apply Forall_forall. intros c Hc%list_elem_of_In. apply H2, andb_true_iff in Hc as [Hw Hq].
  split; [by apply negb_true_iff in Hw|]. by apply negb_true_iff, bool_decide_eq_false in Hq.
Qed.

Lemma quoted_quote v : quoted v = quote v.
Proof.
  unfold quoted, quote. cbn [app]. f_equal. f_equal. unfold replace, escape. induction v as [|c v IH]; [done|].
  cbn [fmap list_fmap concat] in *. rewrite fmap_app, concat_app, IH. f_equal.
  destruct (c =? BACKSLASH) eqn:Eb; [apply Z.eqb_eq in Eb as ->; done|]. cbn. destruct (c =? QUOTE) eqn:Eq; [apply Z.eqb_eq in Eq as ->; done|done].
Qed.

Lemma lex_operand o : plain_operand o = true -> tokenize_where (operand_to_string o) = Ok [operand_word o].
Proof.
  destruct o as [|name|v]; cbn [plain_operand operand_to_string operand_word].
  - done.
  - intros [H _]%andb_true_iff. by apply lex_word, wordb_word.
  - intros _. rewrite quoted_quote. apply lex_quote.
Qed.

Lemma lex_op op : op ∈ VALID_OPS -> tokenize_where op = Ok [op].
Proof. unfold VALID_OPS. rewrite !elem_of_cons, elem_of_nil. intros [->|[->|[->|[->|[->|[->|[]]]]]]]; done. Qed.

Lemma lex_plain s : plain s = true -> tokenize_where s = Ok [s].
Proof. intros [H _]%andb_true_iff. by apply lex_word, wordb_word. Qed.

(** Texts joined by a keyword between spaces. *)
Lemma lex_keyword_join k (kw := bs k) (l : list str) (ws : list (list str)) :
  tokenize_where kw = Ok [kw] ->
  Forall2 (fun s w => tokenize_where s = Ok w) l ws -> tokenize_where (join ([32] ++ kw ++ [32]) l) = Ok (join_words kw ws).
Proof.
  intros Hk H. induction H as [|s w l ws Hs Hl IH]; [done|]. destruct Hl as [|s' w' l ws Hs' Hl]; [done|].
  change (tokenize_where (s ++ ([32] ++ kw ++ [32]) ++ join ([32] ++ kw ++ [32]) (s' :: l)) = Ok (w ++ [kw] ++ join_words kw (w' :: ws))).
  rewrite <-!app_assoc. cbn [app]. apply lex_join; [done|].
  by apply (lex_join kw _ [kw]).
Qed.

Lemma lex_clauses (f : Condition -> str) (g : Condition -> list str) (l : list (list Condition)) :
  Forall (Forall (fun c => tokenize_where (f c) = Ok (g c))) l ->
  tokenize_where (clauses_to_string f l) = Ok (clauses_words g l).
Proof.
  intros H. unfold clauses_to_string, clauses_words. apply (lex_keyword_join "OR"); [done|].
  apply Forall2_fmap, Forall_Forall2_diag. eapply Forall_impl; [exact H|]. intros cl Hcl. cbn.
  apply (lex_keyword_join "AND"); [done|]. by apply Forall2_fmap, Forall_Forall2_diag.
Qed.

Lemma join_empty sep l : sep <> [] -> join sep l = [] -> l = [] \/ l = [[]].
Proof.
  intros Hs. destruct l as [|s [|s' l]]; [by left|intros E; cbn in E; subst; by right|].
  change (join sep (s :: s' :: l)) with (s ++ sep ++ join sep (s' :: l)). intros [_ [E _]%app_nil]%app_nil. done.
Qed.

Lemma condition_text_nonempty c : condition_to_string c <> [].
Proof.
  destruct c as [col op o|col n [pr tb [cs alts]]]; cbn [condition_to_string].
  - by intros [_ ?]%app_nil.
  - destruct (bool_decide _); by intros [_ ?]%app_nil.
Qed.

(** Only the predicate without conditions has an empty text. *)
Lemma empty_text cs alts : clauses_to_string condition_to_string (cs :: alts) = [] <-> cs = [] /\ alts = [].
Proof.
  split; [|by intros [-> ->]]. intros [E|E]%join_empty; [done| |done]. cbn in E. injection E as E Ea. apply map_eq_nil in Ea as ->. split; [|done].
  apply join_empty in E as [E|E]; [by apply map_eq_nil in E| |done]. destruct cs as [|c [|]]; [done| |done]. injection E as E.
  by destruct (condition_text_nonempty c).
Qed.

Lemma forallb_Forall {A : Type} (f : A -> bool) l : forallb f l = true <-> Forall (fun x => f x = true) l.
Proof. rewrite forallb_forall, Forall_forall. by setoid_rewrite list_elem_of_In. Qed.

(** Conditions are nested in conditions. *)
Section Induction.
Context (P : Condition -> Prop).
Hypothesis HCmp : forall column op operand, P (Cmp column op operand).
Hypothesis HIn : forall column negated projected table conditions alternatives,
  Forall P conditions -> Forall (Forall P) alternatives -> P (InSubquery column negated (mkSub projected table (mkPred conditions alternatives))).

Fixpoint condition_nested (c : Condition) : P c :=
  let fix each (l : list Condition) : Forall P l :=
    match l with [] => Forall_nil_2 P | c :: l => Forall_cons_2 P c l (condition_nested c) (each l) end in
  let fix all (l : list (list Condition)) : Forall (Forall P) l :=
    match l with [] => Forall_nil_2 _ | cs :: l => Forall_cons_2 _ cs l (each cs) (all l) end in
  match c with
  | Cmp column op operand => HCmp column op operand
  | InSubquery column negated (mkSub projected table (mkPred conditions alternatives)) =>
      HIn column negated projected table conditions alternatives (each conditions) (all alternatives)
  end.
End Induction.

(** The parts of a plain subquery condition. *)
Lemma plain_subquery column negated projected table cs alts :
  plain_condition (InSubquery column negated (mkSub projected table (mkPred cs alts))) = true ->
  plain column = true /\ plain projected = true /\ eq_ignore_ascii_case projected (bs "FROM") = false /\ plain table = true /\
  reserved_prefix (to_ascii_lowercase table) = false /\ plain_predicate (mkPred cs alts) = true.
Proof.
  cbn [plain_condition]. rewrite !andb_true_iff, !negb_true_iff. intros ((((((H1 & H2) & H3) & H4) & H5) & H6) & H7).
  split_and!; try done. unfold plain_predicate. cbn. by rewrite H6, H7.
Qed.

Lemma lex_condition c : plain_condition c = true -> tokenize_where (condition_to_string c) = Ok (condition_words c).
Proof.
  induction c as [column op o|column negated projected table cs alts IH1 IH2] using condition_nested.
  - cbn [plain_condition condition_to_string condition_words]. rewrite !andb_true_iff. intros ((H1 & H2%bool_decide_eq_true) & H3). cbn [app].
    apply (lex_join column _ [column]); [by apply lex_plain|]. apply (lex_join op _ [op]); [by apply lex_op|by apply lex_operand].
  - intros (H1 & H2 & _ & H4 & _ & H6)%plain_subquery. cbn [condition_to_string condition_words].
    assert (tokenize_where (clauses_to_string condition_to_string (cs :: alts)) = Ok (clauses_words condition_words (cs :: alts))) as Hin.
    { apply lex_clauses. unfold plain_predicate in H6. cbn [clauses] in H6. apply forallb_Forall in H6.
      assert (Forall (Forall (fun c => plain_condition c = true -> tokenize_where (condition_to_string c) = Ok (condition_words c))) (cs :: alts)) as IH
        by (by constructor).
      eapply Forall_impl; [apply Forall_and; split; [exact H6|exact IH]|]. intros cl [Hp Hc]. apply forallb_Forall in Hp.
      eapply Forall_impl; [apply Forall_and; split; [exact Hp|exact Hc]|]. cbn. intros c [Hpc Hcc]. by apply Hcc. }
    set (inner := clauses_to_string _ _) in *. set (words := clauses_words _ _) in *.
    set (tail := match cs, alts with [], [] => _ | _, _ => _ end).
    assert (forall s w, tokenize_where s = Ok w ->
      tokenize_where (column ++ [32] ++ (if negated then bs "NOT IN" else bs "IN") ++ bs " ( SELECT " ++ projected ++ bs " FROM " ++ table ++ [32] ++ s) =
      Ok (column :: (if negated then [bs "NOT"; bs "IN"] else [bs "IN"]) ++ [bs "("; bs "SELECT"; projected; bs "FROM"; table] ++ w)) as Hgo.
    { intros s w Hs. cbn [app]. apply (lex_join column _ [column]); [by apply lex_plain|].
      change (bs " ( SELECT ") with ([32] ++ bs "( SELECT" ++ [32]). change (bs " FROM ") with ([32] ++ bs "FROM" ++ [32]). rewrite <-!app_assoc. cbn [app].
      apply (lex_join _ _ (if negated then [bs "NOT"; bs "IN"] else [bs "IN"])); [by destruct negated|].
      apply (lex_join (bs "( SELECT") _ [bs "("; bs "SELECT"]); [done|]. apply (lex_join projected _ [projected]); [by apply lex_plain|].
      apply (lex_join (bs "FROM") _ [bs "FROM"]); [done|]. apply (lex_join table _ [table]); [by apply lex_plain|done]. }
    destruct (decide (cs = [] /\ alts = [])) as [[-> ->]|Hne].
    + rewrite bool_decide_eq_true_2 by (by apply empty_text). apply (Hgo (bs ")") [bs ")"] eq_refl).
    + rewrite bool_decide_eq_false_2 by (intros E; by apply Hne, empty_text).
      assert (tail = bs "WHERE" :: words) as -> by (unfold tail; destruct cs, alts; try done; by destruct Hne).
      change (bs " WHERE ") with ([32] ++ bs "WHERE" ++ [32]). change (bs " )") with ([32] ++ bs ")"). rewrite <-!app_assoc.
      apply (Hgo (bs "WHERE" ++ 32 :: inner ++ 32 :: bs ")") ((bs "WHERE" :: words) ++ [bs ")"])).
      apply (lex_join (bs "WHERE") _ [bs "WHERE"]); [done|]. by apply lex_join.
Qed.

Lemma lex_predicate p : plain_predicate p = true -> tokenize_where (predicate_to_string p) = Ok (predicate_words p).
Proof.
  intros H. unfold predicate_to_string. apply (lex_clauses _ condition_words). apply forallb_Forall in H.
  eapply Forall_impl; [exact H|]. intros cl Hcl%forallb_Forall. eapply Forall_impl; [exact Hcl|]. intros c. apply lex_condition.
Qed.

(** ** Lemmas: parentheses *)

Definition not_paren (t : str) : bool := negb (bytes_eqb t (bs "(")) && negb (bytes_eqb t (bs ")")).

(** Words with balanced parentheses; and those that have no OR outside parentheses. *)
Inductive balanced : list str -> Prop :=
| balanced_nil : balanced []
| balanced_word t l : not_paren t = true -> balanced l -> balanced (t :: l)
| balanced_paren l k : balanced l -> balanced k -> balanced (bs "(" :: l ++ bs ")" :: k).

Inductive conjunctive : list str -> Prop :=
| conjunctive_nil : conjunctive []
| conjunctive_word t l : inert t = true -> conjunctive l -> conjunctive (t :: l)
| conjunctive_paren l k : balanced l -> conjunctive k -> conjunctive (bs "(" :: l ++ bs ")" :: k).

Lemma conjunctive_balanced l : conjunctive l -> balanced l.
Proof.
  induction 1 as [|t l Ht _ IH|l k Hl _ IH]; [constructor| |by constructor]. constructor; [|done].
  unfold inert in Ht. by apply andb_true_iff in Ht as [Ht _].
Qed.

Lemma balanced_app l k : balanced l -> balanced k -> balanced (l ++ k).
Proof. intros H Hk. induction H as [|t l Ht _ IH|l k' Hl _ _ IH]; [done|by constructor|]. cbn [app]. rewrite <-app_assoc. by constructor. Qed.

Lemma conjunctive_app l k : conjunctive l -> conjunctive k -> conjunctive (l ++ k).
Proof. intros H Hk. induction H as [|t l Ht _ IH|l k' Hl _ IH]; [done|by constructor|]. cbn [app]. rewrite <-app_assoc. by constructor. Qed.

Lemma balanced_passes sep l : balanced l -> forall rest current d,
  split_loop sep (l ++ rest) current (S d) = split_loop sep rest (current ++ l) (S d).
Proof.
  induction 1 as [|t l Ht _ IH|l k _ IHl _ IHk]; intros rest current d; cbn [app].
  - by rewrite app_nil_r.
  - unfold not_paren in Ht. apply andb_true_iff in Ht as [H1%negb_true_iff H2%negb_true_iff]. cbn [split_loop]. rewrite H1, H2. cbn [Nat.eqb andb].
    by rewrite IH, <-app_assoc.
  - rewrite <-app_assoc. cbn [split_loop app]. change (bytes_eqb (bs "(") (bs "(")) with true. cbv iota. rewrite IHl. cbn [split_loop app].
    change (bytes_eqb (bs ")") (bs "(")) with false. change (bytes_eqb (bs ")") (bs ")")) with true. cbv iota. cbn [pred].
    rewrite IHk. f_equal. by rewrite <-!app_assoc.
Qed.

Lemma conjunctive_passes l : conjunctive l -> forall rest current d,
  split_loop (bs "OR") (l ++ rest) current d = split_loop (bs "OR") rest (current ++ l) d.
Proof.
  induction 1 as [|t l Ht _ IH|l k Hl _ IHk]; intros rest current d; cbn [app].
  - by rewrite app_nil_r.
  - unfold inert in Ht. rewrite !andb_true_iff, !negb_true_iff in Ht. destruct Ht as ((H1 & H2) & H3). cbn [split_loop]. rewrite H1, H2, H3, andb_false_r.
    by rewrite IH, <-app_assoc.
  - rewrite <-app_assoc. cbn [split_loop app]. change (bytes_eqb (bs "(") (bs "(")) with true. cbv iota. rewrite balanced_passes by done. cbn [split_loop app].
    change (bytes_eqb (bs ")") (bs "(")) with false. change (bytes_eqb (bs ")") (bs ")")) with true. cbv iota. cbn [pred].
    rewrite IHk. f_equal. by rewrite <-!app_assoc.
Qed.

Lemma balanced_gathers l : balanced l -> forall rest d inner, inner_loop (l ++ rest) d inner = inner_loop rest d (inner ++ l).
Proof.
  induction 1 as [|t l Ht _ IH|l k _ IHl _ IHk]; intros rest d inner; cbn [app].
  - by rewrite app_nil_r.
  - unfold not_paren in Ht. apply andb_true_iff in Ht as [H1%negb_true_iff H2%negb_true_iff]. cbn [inner_loop]. rewrite H1, H2.
    by rewrite IH, <-app_assoc.
  - rewrite <-app_assoc. cbn [inner_loop app]. change (bytes_eqb (bs "(") (bs ")")) with false. change (bytes_eqb (bs "(") (bs "(")) with true. cbv iota.
    rewrite IHl. cbn [inner_loop app]. change (bytes_eqb (bs ")") (bs ")")) with true. cbv iota.
    rewrite IHk. f_equal. by rewrite <-!app_assoc.
Qed.

(** ** Lemmas: reading the words back *)

Lemma inert_operand o : plain_operand o = true -> inert (operand_word o) = true.
Proof.
  destruct o as [|name|v]; cbn [plain_operand operand_word]; [done| |rewrite !andb_true_iff; tauto]. intros _.
  unfold inert. rewrite !andb_true_iff, !negb_true_iff. split_and!; try (by apply bytes_eqb_neq).
  unfold eq_ignore_ascii_case. rewrite (proj2 (Z.eqb_neq _ _)); [done|]. unfold zlen. rewrite length_app. cbn. lia.
Qed.

Lemma inert_op op : op ∈ VALID_OPS -> inert op = true.
Proof. unfold VALID_OPS. rewrite !elem_of_cons, elem_of_nil. intros [->|[->|[->|[->|[->|[->|[]]]]]]]; done. Qed.

Lemma plain_inert s : plain s = true -> inert s = true.
Proof. by intros [_ H]%andb_true_iff. Qed.

Lemma join_conjunctive sep l : inert sep = true -> Forall conjunctive l -> conjunctive (join_words sep l).
Proof.
  intros Hs. induction 1 as [|w l Hw Hl IH]; [constructor|]. destruct Hl as [|w' l Hw' Hl]; [done|].
  apply conjunctive_app; [done|]. by constructor.
Qed.

Lemma join_balanced sep l : not_paren sep = true -> Forall balanced l -> balanced (join_words sep l).
Proof.
  intros Hs. induction 1 as [|w l Hw Hl IH]; [constructor|]. destruct Hl as [|w' l Hw' Hl]; [done|].
  apply balanced_app; [done|]. by constructor.
Qed.

Lemma condition_conjunctive c : plain_condition c = true -> conjunctive (condition_words c).
Proof.
  induction c as [column op o|column negated projected table cs alts IH1 IH2] using condition_nested.
  - cbn [plain_condition condition_words]. rewrite !andb_true_iff. intros ((H1%plain_inert & H2%bool_decide_eq_true) & H3).
    repeat constructor; [done|by apply inert_op|by apply inert_operand].
  - intros (H1%plain_inert & H2%plain_inert & _ & H4%plain_inert & _ & H6)%plain_subquery. cbn [condition_words]. constructor; [done|].
    apply conjunctive_app; [destruct negated; repeat constructor|].
    assert (balanced (clauses_words condition_words (cs :: alts))) as Hin.
    { unfold clauses_words. apply join_balanced; [done|]. apply Forall_fmap. unfold plain_predicate in H6. cbn [clauses] in H6. apply forallb_Forall in H6.
      assert (Forall (Forall (fun c => plain_condition c = true -> conjunctive (condition_words c))) (cs :: alts)) as IH by (by constructor).
      eapply Forall_impl; [apply Forall_and; split; [exact H6|exact IH]|]. intros cl [Hp Hc]. cbn. apply forallb_Forall in Hp.
      apply conjunctive_balanced, join_conjunctive; [done|]. apply Forall_fmap.
      eapply Forall_impl; [apply Forall_and; split; [exact Hp|exact Hc]|]. cbn. intros c [Hpc Hcc]. by apply Hcc. }
    set (words := clauses_words _ _) in *. cbn [app].
    apply (conjunctive_paren (bs "SELECT" :: projected :: bs "FROM" :: table :: _) []); [|constructor].
    assert (forall t, inert t = true -> not_paren t = true) as Hi by (intros t Ht; by apply andb_true_iff in Ht as [Ht _]).
    repeat (constructor; [first [done|by apply Hi]|]). destruct cs, alts; try constructor; done.
Qed.

Lemma clause_conjunctive cs : Forall (fun c => plain_condition c = true) cs -> conjunctive (clause_words cs).
Proof. intros H. apply join_conjunctive; [done|]. apply Forall_fmap. eapply Forall_impl; [exact H|]. apply condition_conjunctive. Qed.

Lemma predicate_balanced p : plain_predicate p = true -> balanced (predicate_words p).
Proof.
  intros H%forallb_Forall. apply join_balanced; [done|]. apply Forall_fmap. eapply Forall_impl; [exact H|].
  intros cl Hcl%forallb_Forall. by apply conjunctive_balanced, clause_conjunctive.
Qed.

(** The clauses of a predicate are found again. *)
Lemma split_words (l : list (list str)) : l <> [] -> Forall conjunctive l -> split_top_level (join_words (bs "OR") l) (bs "OR") = l.
Proof.
  intros Hne H. unfold split_top_level. destruct H as [|w l Hw Hl]; [done|]. clear Hne. revert w Hw.
  induction Hl as [|w' l Hw' Hl IH]; intros w Hw; cbn [join_words].
  - rewrite <-(app_nil_r w) at 1. by rewrite conjunctive_passes.
  - change (split_loop (bs "OR") (w ++ bs "OR" :: join_words (bs "OR") (w' :: l)) [] 0 = w :: w' :: l).
    rewrite conjunctive_passes by done. cbn [split_loop app]. change (bytes_eqb (bs "OR") (bs "(")) with false.
    change (bytes_eqb (bs "OR") (bs ")")) with false. change (eq_ignore_ascii_case (bs "OR") (bs "OR")) with true. cbn [Nat.eqb andb]. cbv iota.
    f_equal. by apply IH.
Qed.

Lemma operand_back o : plain_operand o = true -> parse_operand (operand_word o) = o.
Proof.
  destruct o as [|name|v]; cbn [plain_operand operand_word]; unfold parse_operand, strip_prefix.
  - done.
  - intros [_ H%negb_true_iff]%andb_true_iff.
    assert (eq_ignore_ascii_case (bs "auth." ++ name) (bs "auth.uid()") = false) as ->.
    { revert H. unfold eq_ignore_ascii_case, zlen. rewrite length_app. change (bs "auth.uid()") with (bs "auth." ++ bs "uid()").
      rewrite length_app, fmap_app, fmap_app. intros H. apply andb_false_iff in H as [H|H].
      - apply andb_false_iff. left. apply Z.eqb_neq in H. apply Z.eqb_neq. lia.
      - apply andb_false_iff. right. apply bytes_eqb_neq in H. apply bytes_eqb_neq. intros E. by apply app_inv_head in E. }
    assert (starts_with (bs "auth." ++ name) (bs "auth.") = true) as ->.
    { unfold starts_with. rewrite take_app_length. apply bytes_eqb_refl. }
    by rewrite drop_app_length.
  - rewrite !andb_true_iff, !negb_true_iff. intros (((_ & ->) & ->) & ->). done.
Qed.

Section Back.

Context (parse_inner : list str -> result Predicate).

(** The inner predicate of a condition is read back. *)
Definition inner_back (c : Condition) : Prop :=
  match c with
  | Cmp _ _ _ => True
  | InSubquery _ _ (mkSub _ _ p) => parse_inner (predicate_words p) = Ok p
  end.

Lemma subquery_back projected table p rest :
  plain projected = true -> eq_ignore_ascii_case projected (bs "FROM") = false -> reserved_prefix (to_ascii_lowercase table) = false ->
  plain_predicate p = true -> parse_inner (predicate_words p) = Ok p ->
  parse_subquery parse_inner (bs "(" :: bs "SELECT" :: projected :: bs "FROM" :: table ::
    (match p with mkPred [] [] => [] | _ => bs "WHERE" :: predicate_words p end ++ bs ")" :: rest)) = Ok (mkSub projected table p, rest).
Proof.
  intros H1 H2 H3 Hp Hb. unfold parse_subquery. cbn [expect]. change (eq_ignore_ascii_case (bs "(") (bs "(")) with true. cbn [mbind result_bind expect].
  change (eq_ignore_ascii_case (bs "SELECT") (bs "SELECT")) with true. cbn [mbind result_bind].
  assert (bytes_eqb projected (bs ")") = false) as ->.
  { apply plain_inert in H1. unfold inert in H1. rewrite !andb_true_iff, !negb_true_iff in H1. tauto. }
  rewrite H2. cbn [orb expect]. change (eq_ignore_ascii_case (bs "FROM") (bs "FROM")) with true. cbn [mbind result_bind]. rewrite H3.
  set (inner := match p with mkPred [] [] => _ | _ => _ end).
  assert ((if next_is "WHERE" (inner ++ bs ")" :: rest) then inner_loop (drop 1 (inner ++ bs ")" :: rest)) 0 [] else ([], inner ++ bs ")" :: rest)) =
    (predicate_words p, bs ")" :: rest)) as ->.
  { assert (p = mkPred [] [] \/ inner = bs "WHERE" :: predicate_words p) as [->| ->]; [unfold inner; destruct p as [[] []]; first [by left|by right]|done|].
    change (next_is "WHERE" ((bs "WHERE" :: predicate_words p) ++ bs ")" :: rest)) with true. cbv iota.
    cbn [drop app]. rewrite drop_0, balanced_gathers by (by apply predicate_balanced). done. }
  cbn [expect]. change (eq_ignore_ascii_case (bs ")") (bs ")")) with true. cbn [mbind result_bind]. rewrite Hb. done.
Qed.

Lemma condition_back c rest :
  plain_condition c = true -> inner_back c -> parse_one_condition parse_inner (condition_words c ++ rest) = Ok (c, rest).
Proof.
  destruct c as [column op o|column negated [projected table [cs alts]]].
  - cbn [plain_condition condition_words]. rewrite !andb_true_iff. intros ((_ & H2) & H3) _. cbn [app parse_one_condition].
    rewrite H2. apply bool_decide_eq_true in H2. cbn [negb]. rewrite operand_back by done.
    unfold VALID_OPS in H2. rewrite !elem_of_cons, elem_of_nil in H2. destruct H2 as [->|[->|[->|[->|[->|[->|[]]]]]]]; done.
  - intros (_ & H2 & H3 & _ & H5 & H6)%plain_subquery Hb.
    pose proof (subquery_back projected table (mkPred cs alts) rest H2 H3 H5 H6 Hb) as Hs.
    assert (condition_words (InSubquery column negated (mkSub projected table (mkPred cs alts))) ++ rest =
      column :: (if negated then [bs "NOT"; bs "IN"] else [bs "IN"]) ++ bs "(" :: bs "SELECT" :: projected :: bs "FROM" :: table ::
      (match mkPred cs alts with mkPred [] [] => [] | _ => bs "WHERE" :: predicate_words (mkPred cs alts) end ++ bs ")" :: rest)) as ->.
    { cbn [condition_words]. cbn [app]. f_equal. rewrite <-app_assoc. f_equal. cbn [app]. do 5 f_equal. rewrite <-app_assoc. by destruct cs, alts. }
    destruct negated; cbn [app parse_one_condition].
    + change (eq_ignore_ascii_case (bs "NOT") (bs "IN")) with false. change (eq_ignore_ascii_case (bs "NOT") (bs "NOT")) with true.
      change (negb (eq_ignore_ascii_case (bs "IN") (bs "IN"))) with false. cbv iota. by rewrite Hs.
    + change (eq_ignore_ascii_case (bs "IN") (bs "IN")) with true. cbv iota. by rewrite Hs.
Qed.

Lemma condition_words_cons c : exists t l, condition_words c = t :: l.
Proof. destruct c as [? ? ?|? ? [? ? [? ?]]]; by eexists _, _. Qed.

Lemma clause_back cs : forall fuel acc,
  Forall (fun c => plain_condition c = true /\ inner_back c) cs -> (length (clause_words cs) <= fuel)%nat ->
  inner_conditions parse_inner fuel (clause_words cs) acc = Ok (acc ++ cs).
Proof.
  induction cs as [|c cs IH]; intros fuel acc H Hf; [destruct fuel; cbn; by rewrite app_nil_r|].
  apply Forall_cons in H as [[Hp Hb] H]. destruct (condition_words_cons c) as (t & l & Ec).
  destruct cs as [|c' cs].
  - change (clause_words [c]) with (condition_words c) in *. rewrite Ec in *. destruct fuel as [|fuel]; [cbn in Hf; lia|]. cbn [inner_conditions].
    rewrite <-Ec, <-(app_nil_r (condition_words c)), condition_back by done. done.
  - change (clause_words (c :: c' :: cs)) with (condition_words c ++ bs "AND" :: clause_words (c' :: cs)) in *. rewrite length_app in Hf. cbn [length] in Hf.
    destruct fuel as [|fuel]; [lia|].
    assert (inner_conditions parse_inner (S fuel) (condition_words c ++ bs "AND" :: clause_words (c' :: cs)) acc =
      match parse_one_condition parse_inner (condition_words c ++ bs "AND" :: clause_words (c' :: cs)) with
      | Ok (cond, tokens) =>
          let conditions := acc ++ [cond] in
          match tokens with
          | [] => Ok conditions
          | t :: tokens => if eq_ignore_ascii_case t (bs "AND") then
                             match tokens with [] => Err "ERR trailing 'AND' in grant predicate" | _ :: _ => inner_conditions parse_inner fuel tokens conditions end
                           else Err "ERR expected 'AND' or 'OR' between grant conditions"
          end
      | Err e => Err e end) as -> by (rewrite Ec; done).
    rewrite condition_back by done. cbv zeta. change (eq_ignore_ascii_case (bs "AND") (bs "AND")) with true. cbv iota.
    assert (exists t' l', clause_words (c' :: cs) = t' :: l') as (t' & l' & Ew).
    { destruct (condition_words_cons c') as (t' & l' & Ec'). unfold clause_words. cbn [map join_words]. rewrite Ec'. destruct (map _ cs); by eexists _, _. }
    rewrite Ew at 1. rewrite IH by (done || lia). by rewrite <-app_assoc.
Qed.

Lemma clauses_back l : forall acc,
  Forall (Forall (fun c => plain_condition c = true /\ inner_back c)) l -> parse_clauses parse_inner (map clause_words l) acc = Ok (acc ++ l).
Proof.
  induction l as [|cs l IH]; intros acc H; [cbn; by rewrite app_nil_r|]. apply Forall_cons in H as [Hc H]. cbn [map parse_clauses].
  unfold parse_predicate_inner. rewrite clause_back by done. cbn [mbind result_bind app]. rewrite IH by done. by rewrite <-app_assoc.
Qed.

Lemma body_back p :
  plain_predicate p = true -> Forall (Forall inner_back) (clauses p) -> predicate_body parse_inner (predicate_words p) = Ok p.
Proof.
  intros H%forallb_Forall Hb. unfold predicate_body, predicate_words.
  assert (Forall (Forall (fun c => plain_condition c = true /\ inner_back c)) (clauses p)) as Hpb.
  { eapply Forall_impl; [apply Forall_and; split; [exact H|exact Hb]|]. intros cl [Hp%forallb_Forall Hc]. by apply Forall_and. }
  rewrite split_words.
  - rewrite clauses_back by done. destruct p as [cs alts]. done.
  - by destruct p.
  - apply Forall_fmap. eapply Forall_impl; [exact H|]. intros cl Hcl%forallb_Forall. by apply clause_conjunctive.
Qed.

End Back.

(** An inner predicate has fewer words than what it is in. *)
Lemma join_length sep w l : w ∈ l -> (length w <= length (join_words sep l))%nat.
Proof.
  induction l as [|x l IH]; [by intros ?%elem_of_nil|]. destruct l as [|y l]; [by intros ->%list_elem_of_singleton|].
  change (join_words sep (x :: y :: l)) with (x ++ sep :: join_words sep (y :: l)). rewrite length_app. cbn [length].
  intros [->|Hin]%elem_of_cons; [lia|]. specialize (IH Hin). lia.
Qed.

Lemma inner_shorter column negated projected table p :
  (length (predicate_words p) < length (condition_words (InSubquery column negated (mkSub projected table p))))%nat.
Proof.
  destruct p as [cs alts]. cbn [condition_words]. change (clauses_words condition_words (cs :: alts)) with (predicate_words (mkPred cs alts)).
  cbn [length]. rewrite !length_app. destruct cs as [|c cs], alts as [|a alts]; [cbn; lia|..]; cbn [length]; lia.
Qed.

Lemma words_back n : forall p, (length (predicate_words p) < n)%nat -> plain_predicate p = true -> parse_predicate_at n (predicate_words p) = Ok p.
Proof.
  induction n as [|n IH]; intros p Hn Hp; [lia|]. cbn [parse_predicate_at]. apply body_back; [done|].
  apply Forall_forall. intros cl Hcl. apply Forall_forall. intros c Hc.
  assert (plain_condition c = true) as Hpc.
  { apply forallb_Forall in Hp. rewrite Forall_forall in Hp. specialize (Hp cl Hcl). apply forallb_Forall in Hp. rewrite Forall_forall in Hp. by apply Hp. }
  destruct c as [|column negated [projected table p']]; [done|]. cbn [inner_back]. apply IH.
  - pose proof (inner_shorter column negated projected table p') as H1.
    assert (length (condition_words (InSubquery column negated (mkSub projected table p'))) <= length (clause_words cl))%nat as H2
      by (apply join_length, list_elem_of_fmap; by eexists).
    assert (length (clause_words cl) <= length (predicate_words p))%nat as H3 by (apply join_length, list_elem_of_fmap; by eexists).
    lia.
  - destruct p'. apply plain_subquery in Hpc. tauto.
Qed.

(** C36. The text of a grant says what the grant is. For every predicate whose columns and tables are plain
    words and whose literals are not taken for syntax, cutting and parsing the stored text gives the
    predicate back: quotes, backslashes, spaces, operators and keywords inside literals stay data, and
    subqueries of any depth are preserved. *)
Theorem grant_text_roundtrip p :
  plain_predicate p = true -> (tokens ← tokenize_where (predicate_to_string p); parse_predicate tokens) = Ok p.
Proof. intros H. rewrite lex_predicate by done. cbn [mbind result_bind]. apply words_back; [lia|done]. Qed.

(** ** Lemmas: nesting is bounded by the number of words *)

Lemma inner_loop_length tokens : forall d inner i r, inner_loop tokens d inner = (i, r) -> (length i + length r = length inner + length tokens)%nat.
Proof.
  induction tokens as [|t tokens IH]; intros d inner i r; cbn [inner_loop]; [intros [= <- <-]; cbn; lia|].
  destruct (bytes_eqb t (bs ")")); [destruct d as [|d]; [intros [= <- <-]; cbn; lia|]|]; intros E%IH; rewrite length_app in E; cbn in *; lia.
Qed.

Lemma expect_shorter k tokens r : expect k tokens = Ok r -> length tokens = S (length r).
Proof. destruct tokens as [|t tokens]; [done|]. cbn. destruct (eq_ignore_ascii_case t _); [by intros [= <-]|done]. Qed.

Definition agree (n : nat) (f g : list str -> result Predicate) : Prop := forall l, (length l < n)%nat -> f l = g l.

Lemma subquery_ext f g tokens : agree (length tokens) f g ->
  parse_subquery f tokens = parse_subquery g tokens /\
  forall q r, parse_subquery f tokens = Ok (q, r) -> (length r < length tokens)%nat.
Proof.
  intros H. unfold parse_subquery. destruct (expect "(" tokens) as [t1|] eqn:E1; [|done]. cbn [mbind result_bind]. apply expect_shorter in E1.
  destruct (expect "SELECT" t1) as [t2|] eqn:E2; [|done]. cbn [mbind result_bind]. apply expect_shorter in E2.
  destruct t2 as [|pr t2]; [done|]. destruct (_ || _); [done|]. destruct (expect "FROM" t2) as [t3|] eqn:E3; [|done]. cbn [mbind result_bind].
  apply expect_shorter in E3. destruct t3 as [|tb t3]; [done|]. destruct (reserved_prefix _); [done|].
  destruct (if next_is "WHERE" t3 then inner_loop (drop 1 t3) 0 [] else ([], t3)) as [i t4] eqn:Ei.
  assert (length i + length t4 <= length t3)%nat as Hl.
  { destruct (next_is "WHERE" t3); [|injection Ei as <- <-; done]. apply inner_loop_length in Ei. rewrite length_drop in Ei. cbn in Ei. lia. }
  destruct (expect ")" t4) as [t5|] eqn:E5; [|done]. cbn [mbind result_bind]. apply expect_shorter in E5. cbn in *.
  rewrite (H i) by lia. split; [done|]. intros q r. destruct (g i); [|done]. intros [= _ <-]. lia.
Qed.

Lemma one_condition_ext f g tokens : agree (length tokens) f g ->
  parse_one_condition f tokens = parse_one_condition g tokens /\
  forall c r, parse_one_condition f tokens = Ok (c, r) -> (length r < length tokens)%nat.
Proof.
  intros H. destruct tokens as [|column [|op tokens]]; [done|done|]. cbn [parse_one_condition].
  assert (forall l : list str, (length l <= length tokens)%nat -> agree (length l) f g) as Hl by (intros l Hl l' Hl'; apply H; cbn; lia).
  destruct (eq_ignore_ascii_case op (bs "IN")).
  { destruct (subquery_ext f g tokens (Hl tokens ltac:(lia))) as [E Hr]. rewrite <-E. split; [done|]. intros c r.
    destruct (parse_subquery f tokens) as [[q r']|]; [|done]. cbn [mbind result_bind]. intros [= _ <-]. specialize (Hr q r' eq_refl). cbn. lia. }
  destruct (eq_ignore_ascii_case op (bs "NOT")).
  { destruct tokens as [|t tokens]; [done|]. destruct (negb _); [done|].
    destruct (subquery_ext f g tokens (Hl tokens ltac:(cbn; lia))) as [E Hr]. rewrite <-E. split; [done|]. intros c r.
    destruct (parse_subquery f tokens) as [[q r']|]; [|done]. cbn [mbind result_bind]. intros [= _ <-]. specialize (Hr q r' eq_refl). cbn. lia. }
  split; [done|]. intros c r. destruct (negb _); [done|]. destruct tokens as [|v tokens]; [done|]. intros [= _ <-]. cbn. lia.
Qed.

Lemma inner_conditions_ext f g fuel : forall tokens acc, agree (length tokens) f g ->
  inner_conditions f fuel tokens acc = inner_conditions g fuel tokens acc.
Proof.
  induction fuel as [|fuel IH]; intros tokens acc H; [done|]. destruct tokens as [|t tokens]; [done|]. cbn [inner_conditions].
  destruct (one_condition_ext f g (t :: tokens) H) as [E Hr]. rewrite <-E. destruct (parse_one_condition f (t :: tokens)) as [[c r]|]; [|done].
  cbn [mbind result_bind]. specialize (Hr c r eq_refl). destruct r as [|a [|b r]]; try done. destruct (eq_ignore_ascii_case a _); [|done].
  apply IH. intros l Hl. apply H. cbn in *. lia.
Qed.

Lemma split_length sep tokens : forall current d w, w ∈ split_loop sep tokens current d -> (length w <= length current + length tokens)%nat.
Proof.
  induction tokens as [|t tokens IH]; intros current d w; cbn [split_loop]; [intros ->%list_elem_of_singleton; cbn; lia|].
  destruct (bytes_eqb t (bs "(")); [|destruct (bytes_eqb t (bs ")")); [|destruct (_ && _)]]; try (intros E%IH; rewrite length_app in E; cbn in *; lia).
  intros [->|E%IH]%elem_of_cons; cbn in *; lia.
Qed.

Lemma body_ext f g tokens : agree (length tokens) f g -> predicate_body f tokens = predicate_body g tokens.
Proof.
  intros H. unfold predicate_body. enough (parse_clauses f (split_top_level tokens (bs "OR")) [] = parse_clauses g (split_top_level tokens (bs "OR")) []) as -> by done.
  assert (Forall (fun w => (length w <= length tokens)%nat) (split_top_level tokens (bs "OR"))) as Hs.
  { apply Forall_forall. intros w Hw%split_length. cbn in Hw. lia. }
  generalize (@nil (list Condition)). induction Hs as [|w l Hw _ IH]; intros acc; [done|]. cbn [parse_clauses]. unfold parse_predicate_inner.
  rewrite (inner_conditions_ext f g) by (intros l' Hl'; apply H; lia). destruct (inner_conditions g _ w []); [|done]. apply IH.
Qed.

Lemma predicate_fuel n : forall m tokens, (length tokens < n)%nat -> (length tokens < m)%nat -> parse_predicate_at n tokens = parse_predicate_at m tokens.
Proof.
  induction n as [|n IH]; intros [|m] tokens Hn Hm; try lia. cbn [parse_predicate_at]. apply body_ext. intros l Hl. apply IH; lia.
Qed.

(** [parse_predicate] is the recursive function of the source: the bound on nesting is never met. *)
Lemma parse_predicate_rec tokens : parse_predicate tokens = predicate_body parse_predicate tokens.
Proof. unfold parse_predicate at 1. cbn [parse_predicate_at]. apply body_ext. intros l Hl. apply predicate_fuel; lia. Qed.

(** ** Updates *)

(** A row after an UPDATE that sets some columns. *)
Definition updated (set_fields : list (str * str)) (row : str -> option str) : str -> option str :=
  fun c => match List.find (fun p => bytes_eqb p.1 c) set_fields with Some (_, v) => Some v | None => row c end.

Section Updates.

Context {F64 : Type} (parse_f64 : str -> option F64) (partial_cmp : F64 -> F64 -> option comparison).

(** A row stays inside the clause it was in. If a row satisfies the conditions of one clause and the new
    values satisfy those of them whose column they set, the updated row satisfies the clause; and a row
    and values for which some condition of the clause would fail are refused. *)
Theorem update_stays_in_clause conds set_fields row :
  enforced_row_satisfies parse_f64 partial_cmp conds row = true ->
  enforced_set_satisfies parse_f64 partial_cmp conds set_fields = enforced_row_satisfies parse_f64 partial_cmp conds (updated set_fields row).
Proof.
  unfold enforced_row_satisfies, enforced_set_satisfies, updated. induction conds as [|c conds IH]; [done|]. cbn [forallb].
  intros [H1 H2]%andb_true_iff. rewrite (IH H2). destruct (List.find _ set_fields) as [[k v]|]; [done|]. destruct (row (condition_column c)); [|done].
  by rewrite H1.
Qed.

End Updates.

(** ** What the hypotheses exclude *)

(** A row that two alternatives could allow: setting the column of one of them is checked against the
    other, which says nothing of it, and the row leaves both. *)
Example update_leaves_alternatives :
  let owner := [ECmp (mkResolved (bs "owner") (bs "=") (bs "me"))] in
  let team := [ECmp (mkResolved (bs "team") (bs "=") (bs "mine"))] in
  let sat := enforced_row_satisfies (F64 := unit) (fun _ => None) (fun _ _ => None) in
  let row c := if bytes_eqb c (bs "owner") then Some (bs "me") else Some (bs "other") in
  let set_fields := [(bs "owner", bs "victim")] in
  existsb (fun cl => sat cl row) [owner; team] = true /\
  existsb (fun cl => enforced_set_satisfies (F64 := unit) (fun _ => None) (fun _ _ => None) cl set_fields) [owner; team] = true /\
  existsb (fun cl => sat cl (updated set_fields row)) [owner; team] = false.
Proof. vm_compute. done. Qed.

(** A trailing OR is an alternative without conditions, which every row satisfies; a trailing AND is refused. *)
Example trailing_or :
  parse_predicate [bs "a"; bs "="; bs "b"; bs "OR"] = Ok (mkPred [Cmp (bs "a") (bs "=") (Literal (bs "b"))] [[]]) /\
  is_ok (parse_predicate [bs "a"; bs "="; bs "b"; bs "AND"]) = false.
Proof. vm_compute. done. Qed.

(** A misspelt WHERE grants every row. *)
Example misspelt_where :
  parse_grant [bs "read"; bs "ON"; bs "messages"; bs "WHER"; bs "owner"; bs "="; bs "auth.uid()"] =
    Ok (mkGrant (bs "messages") [Read] (mkPred [] [])).
Proof. vm_compute. reflexivity. Qed.

(** A literal parenthesis hides the OR after it when the stored text is parsed again. *)
Example stored_parenthesis :
  let p := mkPred [Cmp (bs "a") (bs "=") (Literal (bs "("))] [[Cmp (bs "b") (bs "=") (Literal (bs "c"))]] in
  is_ok (tokens ← tokenize_where (predicate_to_string p); parse_predicate tokens) = false.
Proof. vm_compute. reflexivity. Qed.

(** ** Witnesses *)

Definition sample_predicate : Predicate :=
  mkPred [Cmp (bs "status") (bs "!=") (Literal (bs "it's OR \ 'done' = 1"));
          InSubquery (bs "team_id") true
            (mkSub (bs "team") (bs "members") (mkPred [Cmp (bs "user") (bs "=") AuthUid] [[Cmp (bs "role") (bs "=") (AuthClaim (bs "role"))]]))]
         [[Cmp (bs "owner") (bs "=") AuthUid]].

Lemma grant_text_roundtrip_witness :
  (tokens ← tokenize_where (predicate_to_string sample_predicate); parse_predicate tokens) = Ok sample_predicate.
Proof. apply (grant_text_roundtrip sample_predicate). vm_compute. reflexivity. Defined.

Lemma update_stays_in_clause_witness :
  let conds := [ECmp (mkResolved (bs "owner") (bs "=") (bs "me"))] in
  enforced_set_satisfies (F64 := unit) (fun _ => None) (fun _ _ => None) conds [(bs "owner", bs "victim")] =
  enforced_row_satisfies (F64 := unit) (fun _ => None) (fun _ _ => None) conds (updated [(bs "owner", bs "victim")] (fun _ => Some (bs "me"))).
Proof. intros conds. apply (update_stays_in_clause (fun _ => None) (fun _ _ => None) conds [(bs "owner", bs "victim")] (fun _ => Some (bs "me"))). vm_compute. reflexivity. Defined.

End Grants.
