(* ===== verification/Access.v ===== *)
(** * Storage and enforcement of grants ([src/src/auth.rs], lines 5188-5995)

    Grants are rows of a system table, one for each table and scope, that hold the text of a predicate. A
    new grant for the same table and scope adds alternatives. When a caller reads or writes, the text is
    parsed, the claims of the caller are put in, subqueries are executed, and the result is either tested
    on a row, or rendered as a WHERE text that is combined with the caller's.

    The system table is a finite map from row identifiers to texts. What enforcement needs of the other
    tables is the class [Tables]: schemas, and the scan that executes a subquery, which never returns a
    value that could be taken for syntax. *)

From S2P Require Import Prelude.
From S2P Require Import Where.
From S2P Require Import Grants.
Local Open Scope Z_scope.

Module Access.
Import Where.Where Grants.Grants.

(** ** Tables *)

Record FieldDef := mkField { f_name : str; encrypted : bool; searchable : bool }.

Definition is_token_safe (v : str) : bool :=
  negb (bool_decide (v = [])) && negb (existsb (fun c => is_whitespace c || (c =? 40) || (c =? 41) || (c =? QUOTE)) v).

(** [load_schema] and [scan_projected_column]. *)
Class Tables := {
  load_schema : str -> option (list FieldDef);
  scan_projected_column : str -> list WhereClause -> str -> result (list str);
  scan_safe : forall table conds projected values,
    scan_projected_column table conds projected = Ok values -> Forall (fun v => is_token_safe v = true) values
}.

Definition reserved_table_error : string := "ERR reserved system table".

Definition reserved_table_access_error (table : str) : option string :=
  if reserved_prefix table then Some reserved_table_error else None.

(** ** Validation *)

(** Every table a predicate reads, in the order of the check. *)
Fixpoint subquery_tables (c : Condition) : list str :=
  match c with
  | Cmp _ _ _ => []
  | InSubquery _ _ (mkSub _ table (mkPred conditions alternatives)) =>
      table :: concat (map (fun cl => concat (map subquery_tables cl)) (conditions :: alternatives))
  end.

Fixpoint first_reserved (tables : list str) : result unit :=
  match tables with
  | [] => Ok tt
  | t :: tables => match reserved_table_access_error t with Some e => Err e | None => first_reserved tables end
  end.

Definition validate_grant_reserved_tables (table : str) (p : Predicate) : result unit :=
  first_reserved (table :: concat (map (fun cl => concat (map subquery_tables cl)) (clauses p))).

Fixpoint split_once (c : Z) (s before : str) : option (str * str) :=
  match s with
  | [] => None
  | d :: s => if d =? c then Some (before, s) else split_once c s (before ++ [d])
  end.

Definition DOT : Z := 46.

Definition validate_grant_column_filter (schema : list FieldDef) (column op : str) : result unit :=
  if match split_once DOT column [] with
     | Some (root, rest) => negb (bool_decide (rest = [])) && existsb (fun f => bytes_eqb (f_name f) root && encrypted f) schema
     | None => false
     end
  then Err "ERR encrypted column in grant does not support JSON path filters"
  else
    let bare := match split_once DOT column [] with Some (root, _) => root | None => column end in
    match List.find (fun f => bytes_eqb (f_name f) bare) schema with
    | None => Ok tt
    | Some field =>
        if negb (encrypted field) then Ok tt
        else if bytes_eqb op (bs "=") && searchable field then Ok tt
        else if bytes_eqb op (bs "=") then Err "ERR encrypted column in grant must be SEARCHABLE for equality filters"
        else Err "ERR encrypted column in grant only supports equality filters when SEARCHABLE"
    end.

Fixpoint each {A : Type} (f : A -> result unit) (l : list A) : result unit :=
  match l with
  | [] => Ok tt
  | a :: l => _ ← f a; each f l
  end.

(** ** Claims *)

Record AuthPrincipal := mkPrincipal { user_id : str; role : str; email : str }.

Definition claim_of (principal : AuthPrincipal) (claim : str) : option str :=
  if bytes_eqb claim (bs "role") then Some (role principal)
  else if bytes_eqb claim (bs "email") then Some (email principal)
  else if bytes_eqb claim (bs "sub") || bytes_eqb claim (bs "uid") then Some (user_id principal)
  else None.

Definition resolve_for_principal (p : Predicate) (principal : AuthPrincipal) : result (list (list ResolvedCondition)) :=
  resolve_clauses (user_id principal) (claim_of principal) p.

(** ** Subqueries *)

Fixpoint inner_conds_to_where (conds : list EnforcedCondition) : result (list WhereClause) :=
  match conds with
  | [] => Ok []
  | ECmp rc :: conds => op ← parse_cmp_op (r_op rc); rest ← inner_conds_to_where conds; Ok (single (r_column rc) op (r_value rc) :: rest)
  | InSet column negated values :: conds =>
      rest ← inner_conds_to_where conds;
      Ok (match values with
          | [] => if negated then rest else single column IsNull [] :: single column IsNotNull [] :: rest
          | _ => in_list column (if negated then NotIn else In_) values :: rest
          end)
  end.

(** The tables that subqueries read, each once. *)
Fixpoint collect_condition_tables (c : ResolvedCondition) (tables : list str) : list str :=
  match c with
  | RCmp _ => tables
  | InSubqueryResolved _ _ inner_table _ inner_conds =>
      foldl (fun ts c => collect_condition_tables c ts) (if bool_decide (inner_table ∈ tables) then tables else tables ++ [inner_table]) inner_conds
  end.

Definition collect_resolved_subquery_tables (clauses : list (list ResolvedCondition)) (tables : list str) : list str :=
  foldl (fun ts conds => foldl (fun ts c => collect_condition_tables c ts) ts conds) tables clauses.

(** ** Rendering *)

Definition quote_where_value (value : str) : str := quoted value.

Definition qualified_grant_column (column : str) (qualifier : option str) : str :=
  match qualifier with Some q => q ++ [DOT] ++ column | None => column end.

(** [col IS NULL AND col IS NOT NULL] *)
Definition never (column : str) : str := column ++ bs " IS NULL AND " ++ column ++ bs " IS NOT NULL".

Definition render_cmp (rc : ResolvedCond) (qualifier : option str) : str :=
  qualified_grant_column (r_column rc) qualifier ++ [32] ++ r_op rc ++ [32] ++ quote_where_value (r_value rc).

Definition render_set (column : str) (negated : bool) (values : list str) (qualifier : option str) : str :=
  qualified_grant_column column qualifier ++ [32] ++ (if negated then bs "NOT IN" else bs "IN") ++ bs " ( " ++
  join [32] (map quote_where_value values) ++ bs " )".

Definition render_part (qualifier : option str) (c : EnforcedCondition) : list str :=
  match c with
  | ECmp rc => [render_cmp rc qualifier]
  | InSet column negated [] => if negated then [] else [never (qualified_grant_column column qualifier)]
  | InSet column negated values => [render_set column negated values qualifier]
  end.

Definition render_enforced_clause (conds : list EnforcedCondition) (qualifier : option str) : str :=
  join (bs " AND ") (concat (map (render_part qualifier) conds)).

(** The parts of a branch, or that it cannot hold. *)
Fixpoint branch_parts (clause : list EnforcedCondition) (qualifier : option str) (parts : list str) : option (list str) :=
  match clause with
  | [] => Some parts
  | ECmp rc :: clause => branch_parts clause qualifier (parts ++ [render_cmp rc qualifier])
  | InSet _ negated [] :: clause => if negated then branch_parts clause qualifier parts else None
  | InSet column negated values :: clause => branch_parts clause qualifier (parts ++ [render_set column negated values qualifier])
  end.

(** The alternatives that can hold; [Ok None] when one of them always holds. *)
Fixpoint render_branches (clauses : list (list EnforcedCondition)) (qualifier : option str) (branches : list str) : result (option (list str)) :=
  match clauses with
  | [] => Ok (Some branches)
  | clause :: clauses =>
      match clause with
      | [] => Ok None
      | _ :: _ =>
          match branch_parts clause qualifier [] with
          | None => render_branches clauses qualifier branches
          | Some [] => Ok None
          | Some [part] => render_branches clauses qualifier (branches ++ [part])
          | Some _ => Err "OR grants with multi-condition branches are not supported yet"
          end
      end
  end.

Definition insert_new (values : list str) (v : str) : list str := if bool_decide (v ∈ values) then values else values ++ [v].

(** Alternatives that are all equalities or memberships of one column, as one membership. *)
Fixpoint collapse_loop (clauses : list (list EnforcedCondition)) (column : option str) (values : list str) : option (option str * list str) :=
  match clauses with
  | [] => Some (column, values)
  | [ECmp rc] :: clauses =>
      if negb (bytes_eqb (r_op rc) (bs "=")) then None
      else if match column with Some c => negb (bytes_eqb c (r_column rc)) | None => false end then None
      else collapse_loop clauses (Some (default (r_column rc) column)) (insert_new values (r_value rc))
  | [InSet c negated set] :: clauses =>
      if negated then None
      else if match column with Some c' => negb (bytes_eqb c' c) | None => false end then None
      else collapse_loop clauses (Some (default c column)) (foldl insert_new values set)
  | _ => None
  end.

Definition collapse_same_column_or_clauses (clauses : list (list EnforcedCondition)) : option EnforcedCondition :=
  match collapse_loop clauses None [] with
  | Some (Some column, values) => Some (InSet column false values)
  | _ => None
  end.

Definition render_enforced_or_clauses (clauses : list (list EnforcedCondition)) (qualifier : option str) : result str :=
  match collapse_same_column_or_clauses clauses with
  | Some cond => Ok (render_enforced_clause [cond] qualifier)
  | None =>
      branches ← render_branches clauses qualifier [];
      Ok match branches with
         | None => []
         | Some [] => match concat clauses with
                      | [] => []
                      | c :: _ => never (qualified_grant_column (condition_column c) qualifier)
                      end
         | Some branches => join (bs " OR ") branches
         end
  end.

Definition render_enforced_clauses (clauses : list (list EnforcedCondition)) (qualifier : option str) : result str :=
  match clauses with
  | [clause] => Ok (render_enforced_clause clause qualifier)
  | _ => render_enforced_or_clauses clauses qualifier
  end.

(** ** Enforcement *)

Abbreviation grants_table := (gmap str str).

Definition grant_id (table : str) (scope : Scope) : str := table ++ [58] ++ as_str scope.

Definition load_grant_predicate (grants : grants_table) (table : str) (scope : Scope) : result (option Predicate) :=
  match grants !! grant_id table scope with
  | None => Ok None
  | Some text =>
      tokens ← tokenize_where text;
      p ← parse_predicate tokens;
      _ ← validate_grant_reserved_tables table p;
      Ok (Some p)
  end.

Definition delete_grant (table : str) (scope : Scope) (grants : grants_table) : bool * grants_table :=
  (bool_decide (is_Some (grants !! grant_id table scope)), delete (grant_id table scope) grants).

Section Enforcement.

Context `{Tables}.
Context {F64 : Type} (parse_f64 : str -> option F64) (partial_cmp : F64 -> F64 -> option comparison).

Fixpoint validate_grant_condition_columns (schema : list FieldDef) (c : Condition) : result unit :=
  match c with
  | Cmp column op _ => validate_grant_column_filter schema column op
  | InSubquery column negated (mkSub _ table (mkPred conditions alternatives)) =>
      _ ← validate_grant_column_filter schema column (if negated then bs "NOT IN" else bs "IN");
      match load_schema table with
      | Some inner_schema => each (each (validate_grant_condition_columns inner_schema)) (conditions :: alternatives)
      | None => Ok tt
      end
  end.

Definition validate_grant_predicate_for_schema (table : str) (p : Predicate) : result unit :=
  match load_schema table with
  | None => Ok tt
  | Some schema => each (each (validate_grant_condition_columns schema)) (clauses p)
  end.

(** The loop of [put_grant] over the scopes; a failure leaves the scopes before it in place. *)
Fixpoint put_scopes (table : str) (p : Predicate) (scopes : list Scope) (grants : grants_table) : result unit * grants_table :=
  match scopes with
  | [] => (Ok tt, grants)
  | scope :: scopes =>
      match load_grant_predicate grants table scope with
      | Err e => (Err e, grants)
      | Ok old =>
          let predicate := match old with Some q => append_alternatives q p | None => p end in
          match validate_grant_predicate_for_schema table predicate with
          | Err e => (Err e, grants)
          | Ok _ => put_scopes table p scopes (<[grant_id table scope := predicate_to_string predicate]> grants)
          end
      end
  end.

Definition put_grant (grant : Grant) (grants : grants_table) : result unit * grants_table :=
  match validate_grant_reserved_tables (g_table grant) (g_predicate grant) with
  | Err e => (Err e, grants)
  | Ok _ => put_scopes (g_table grant) (g_predicate grant) (g_scopes grant) grants
  end.

Fixpoint execute_condition (c : ResolvedCondition) : result EnforcedCondition :=
  match c with
  | RCmp rc => Ok (ECmp rc)
  | InSubqueryResolved column negated inner_table inner_projected inner_conds =>
      match reserved_table_access_error inner_table with
      | Some e => Err e
      | None =>
          inner_enforced ← collect execute_condition inner_conds;
          where_clauses ← inner_conds_to_where inner_enforced;
          values ← scan_projected_column inner_table where_clauses inner_projected;
          Ok (InSet column negated values)
      end
  end.

Definition execute_resolved (conds : list ResolvedCondition) : result (list EnforcedCondition) := collect execute_condition conds.
Definition execute_resolved_clauses (clauses : list (list ResolvedCondition)) : result (list (list EnforcedCondition)) :=
  collect execute_resolved clauses.

Definition enforced_conds (grants : grants_table) (principal : AuthPrincipal) (table : str) (scope : Scope)
    : result (option (list (list EnforcedCondition))) :=
  p ← load_grant_predicate grants table scope;
  match p with
  | None => Ok None
  | Some p => resolved ← resolve_for_principal p principal; clauses ← execute_resolved_clauses resolved; Ok (Some clauses)
  end.

Definition access_filter (scope : Scope) (grants : grants_table) (principal : AuthPrincipal) (table : str) (qualifier : option str)
    : result str :=
  conds ← enforced_conds grants principal table scope;
  match conds with
  | None => Err (match scope with Read => "no read access" | Write_ => "no write access" end)
  | Some conds => render_enforced_clauses conds qualifier
  end.

Definition read_filter (grants : grants_table) (principal : AuthPrincipal) (table : str) : result str :=
  access_filter Read grants principal table None.
Definition read_filter_qualified (grants : grants_table) (principal : AuthPrincipal) (table qualifier : str) : result str :=
  access_filter Read grants principal table (Some qualifier).
Definition write_filter (grants : grants_table) (principal : AuthPrincipal) (table : str) : result str :=
  access_filter Write_ grants principal table None.

Definition read_filter_dependencies (grants : grants_table) (principal : AuthPrincipal) (table : str) : result (list str) :=
  p ← load_grant_predicate grants table Read;
  match p with
  | None => Err "no read access"
  | Some p => resolved ← resolve_for_principal p principal; Ok (collect_resolved_subquery_tables resolved [])
  end.

(** The tables a query reads, with the names that qualify their columns: none for a single table. *)
Definition sources (table : str) (js : list JoinClause) : list (str * option str) :=
  (table, if bool_decide (js = []) then None else Some table) :: map (fun j => (j_table j, Some (j_alias j))) js.

(** The filters of a query, those of unconditional grants left out. *)
Definition read_filters (grants : grants_table) (principal : AuthPrincipal) (table : str) (js : list JoinClause) : result (list str) :=
  filters ← collect (fun '(t, q) => access_filter Read grants principal t q) (sources table js);
  Ok (filter (fun f => trim f <> []) filters).

Definition reserved_plan_access_error (table : str) (js : list JoinClause) : option string :=
  match first_reserved (table :: map j_table js) with Err e => Some e | Ok _ => None end.

(** [scope_table_query_read] for a user, and the query that the route parses with the WHERE it returns. *)
Definition scope_table_query_read {F32 : Type} (parse_f32 : str -> option F32) (grants : grants_table) (principal : AuthPrincipal)
    (table : str) (user : option str) (others : list str) : outcome (result Clauses) :=
  match reserved_table_access_error table with
  | Some e => Returned (Err e)
  | None =>
      r ← parse_http_table_query parse_f32 user others;
      match r with
      | Err e => Returned (Err e)
      | Ok plan =>
          match reserved_plan_access_error table (joins plan) with
          | Some e => Returned (Err e)
          | None => match read_filters grants principal table (joins plan) with
                    | Err e => Returned (Err e)
                    | Ok filters => scoped_query parse_f32 user (join (bs " AND ") filters) others
                    end
          end
      end
  end.

(** [WriteGrant::resolve] and [check]. *)
Definition check_write_row (grants : grants_table) (principal : AuthPrincipal) (table : str) (row : str -> option str) : result unit :=
  conds ← enforced_conds grants principal table Write_;
  match conds with
  | None => Err "no write access"
  | Some clauses => if existsb (fun clause => enforced_row_satisfies parse_f64 partial_cmp clause row) clauses then Ok tt
                    else Err "row not permitted by write grant"
  end.

Definition check_update_set (grants : grants_table) (principal : AuthPrincipal) (table : str) (set_fields : list (str * str)) : result unit :=
  conds ← enforced_conds grants principal table Write_;
  match conds with
  | None => Err "no write access"
  | Some clauses => if existsb (fun clause => enforced_set_satisfies parse_f64 partial_cmp clause set_fields) clauses then Ok tt
                    else Err "update would move a row outside the write grant"
  end.

End Enforcement.

(** ** What conditions mean *)

(** A row is seen through the answers to single conditions: field, operator, value and values. *)
Fixpoint matches (sat : str -> CmpOp -> str -> list str -> bool) (w : WhereClause) : bool :=
  match w with
  | mkWhere field op value values or_clauses =>
      if bool_decide (op = Or_) then existsb (matches sat) or_clauses else sat field op value values
  end.

Class RowSemantics (sat : str -> CmpOp -> str -> list str -> bool) : Prop := {
  null_or_not : forall f, sat f IsNull [] [] && sat f IsNotNull [] [] = false;
  in_some : forall f values, values <> [] -> sat f In_ [] values = existsb (fun v => sat f Eq_ v []) values
}.

Definition holds (sat : str -> CmpOp -> str -> list str -> bool) (qualifier : option str) (c : EnforcedCondition) : bool :=
  match c with
  | ECmp rc => match parse_cmp_op (r_op rc) with
               | Ok op => sat (qualified_grant_column (r_column rc) qualifier) op (r_value rc) []
               | Err _ => false
               end
  | InSet _ negated [] => negated
  | InSet column negated values => sat (qualified_grant_column column qualifier) (if negated then NotIn else In_) [] values
  end.

Definition allowed (sat : str -> CmpOp -> str -> list str -> bool) (qualifier : option str) (clauses : list (list EnforcedCondition)) : bool :=
  existsb (forallb (holds sat qualifier)) clauses.

(** A list of values that is not taken for syntax. *)
Definition listable (values : list str) : Prop :=
  Forall (fun v => bytes_eqb v (bs ")") = false) values /\ next_is "SELECT" values = false.

Definition renderable (qualifier : option str) (c : EnforcedCondition) : Prop :=
  word (qualified_grant_column (condition_column c) qualifier) /\
  match c with ECmp rc => r_op rc ∈ VALID_OPS | InSet _ _ values => listable values end.

(** ** Lemmas: ends of texts *)

Definition solid (s : str) : Prop :=
  (exists c s', s = c :: s' /\ is_whitespace c = false) /\ (exists c s', s = s' ++ [c] /\ is_whitespace c = false).

Lemma solid_join a x b : solid a -> solid b -> solid (a ++ x ++ b).
Proof.
  intros [(c & a' & -> & Hc) _] [_ (d & b' & -> & Hd)]. split.
  - by eexists _, _.
  - eexists d, _. split; [|done]. by rewrite !app_assoc.
Qed.

Lemma solid_trim s : solid s -> trim s = s.
Proof.
  intros [(c & s' & E & Hc) (d & s'' & E' & Hd)]. unfold trim. assert (trim_start_by is_whitespace s = s) as -> by (rewrite E; cbn; by rewrite Hc).
  unfold trim_end_by. rewrite E', reverse_app. cbn [trim_start_by reverse app]. change (reverse [d] ++ reverse s'') with (d :: reverse s'').
  cbn [trim_start_by]. rewrite Hd. rewrite <-(reverse_involutive s'') at 2. by rewrite reverse_cons, !reverse_involutive.
Qed.

Lemma solid_word w : word w -> solid w.
Proof.
  intros [Hn H]. split.
  - destruct w as [|c w]; [done|]. apply Forall_cons in H as [[Hc _] _]. by exists c, w.
  - destruct (exists_last Hn) as (w' & c & ->). apply Forall_app in H as [_ H]. apply Forall_cons in H as [[Hc _] _]. by exists c, w'.
Qed.

Lemma solid_joined sep l : Forall solid l -> l <> [] -> solid (join sep l).
Proof.
  induction 1 as [|s l Hs Hl IH]; [done|]. intros _. destruct Hl as [|s' l Hs' Hl]; [done|].
  apply (solid_join s sep (join sep (s' :: l))); [done|by apply IH].
Qed.

(** ** Lemmas: words of conditions *)

Definition condition_as (w : list str) (c : WhereClause) : Prop := forall rest, parse_where_condition (w ++ rest) = Ok (c, rest).
Definition conditions_as (w : list str) (ws : list WhereClause) : Prop := and_loop (S (length w)) w [] = Ok (ws, []).

Lemma conditions_as_app w1 w2 ws1 ws2 : conditions_as w1 ws1 -> conditions_as w2 ws2 -> conditions_as (w1 ++ bs "AND" :: w2) (ws1 ++ ws2).
Proof.
  intros H1 H2. unfold conditions_as. destruct (and_app _ w1 ws1 w2 (length (w1 ++ bs "AND" :: w2)) H1) as [-> [_ Hl]]; [rewrite length_app; lia|].
  rewrite (and_fuel (S (length w2)) _ w2 [] (ws2, [])); [done|done|]. rewrite length_app. cbn. lia.
Qed.

Lemma conditions_as_join l wss : Forall2 conditions_as l wss -> l <> [] -> conditions_as (join_words (bs "AND") l) (concat wss).
Proof.
  induction 1 as [|w ws l wss Hw Hl IH]; [done|]. intros _. destruct Hl as [|w' ws' l wss Hw' Hl]; [cbn; by rewrite app_nil_r|].
  cbn [concat]. apply (conditions_as_app w); [done|by apply IH].
Qed.

(** Alternatives after the first. *)
Fixpoint or_tail (ws : list (list str)) : list str := match ws with [] => [] | w :: ws => bs "OR" :: w ++ or_tail ws end.

Lemma or_words ws cs : Forall2 condition_as ws cs -> forall fuel acc,
  (length (or_tail ws) <= fuel)%nat -> or_loop fuel (or_tail ws) acc = Ok (acc ++ cs, []).
Proof.
  induction 1 as [|w c ws cs Hw Hl IH]; intros fuel acc Hf; cbn [or_tail] in *.
  - destruct fuel; cbn; by rewrite app_nil_r.
  - destruct fuel as [|fuel]; [cbn in Hf; lia|]. cbn [app or_loop]. change (next_is "OR" (bs "OR" :: w ++ _)) with true. cbv iota. cbn [drop]. rewrite drop_0.
    rewrite Hw. cbn [mbind result_bind]. cbn [length] in Hf. rewrite length_app in Hf. rewrite IH by lia. by rewrite <-app_assoc.
Qed.

Lemma or_join w ws : join_words (bs "OR") (w :: ws) = w ++ or_tail ws.
Proof.
  revert w. induction ws as [|w' ws IH]; intros w; [cbn; by rewrite app_nil_r|].
  change (join_words (bs "OR") (w :: w' :: ws)) with (w ++ bs "OR" :: join_words (bs "OR") (w' :: ws)). by rewrite IH.
Qed.

Definition grouped (cs : list WhereClause) : WhereClause := match cs with [c] => c | _ => or_group cs end.

Lemma conditions_as_or w ws c cs : condition_as w c -> Forall2 condition_as ws cs -> conditions_as (join_words (bs "OR") (w :: ws)) [grouped (c :: cs)].
Proof.
  intros Hw H. unfold conditions_as. cbn [and_loop]. rewrite or_join. unfold parse_where_or_group. rewrite Hw. cbn [mbind result_bind].
  rewrite (or_words ws cs H _ [c]) by done. done.
Qed.

Lemma conditions_as_single w c : condition_as w c -> conditions_as w [c].
Proof. intros H. apply (conditions_as_or w [] c []); [done|constructor]. Qed.

(** ** Lemmas: rendered conditions *)

Definition cmp_words (rc : ResolvedCond) (q : option str) : list str := [qualified_grant_column (r_column rc) q; r_op rc; r_value rc].
Definition set_words (column : str) (negated : bool) (values : list str) (q : option str) : list str :=
  qualified_grant_column column q :: (if negated then [bs "NOT"; bs "IN"] else [bs "IN"]) ++ bs "(" :: values ++ [bs ")"].

Lemma valid_op_parses op : op ∈ VALID_OPS -> exists o, parse_cmp_op op = Ok o /\ o <> Or_.
Proof. unfold VALID_OPS. rewrite !elem_of_cons, elem_of_nil. intros [->|[->|[->|[->|[->|[->|[]]]]]]]; by eexists. Qed.

Lemma cmp_condition rc q o : r_op rc ∈ VALID_OPS -> parse_cmp_op (r_op rc) = Ok o ->
  condition_as (cmp_words rc q) (single (qualified_grant_column (r_column rc) q) o (r_value rc)).
Proof.
  intros H Ho rest. unfold cmp_words. cbn [app parse_where_condition]. revert Ho. unfold VALID_OPS in H.
  rewrite !elem_of_cons, elem_of_nil in H. destruct H as [->|[->|[->|[->|[->|[->|[]]]]]]]; by intros [= <-].
Qed.

Lemma list_values_all values : forall acc rest,
  Forall (fun v => bytes_eqb v (bs ")") = false) values -> list_values (values ++ bs ")" :: rest) acc = Some (acc ++ values, rest).
Proof.
  induction values as [|v values IH]; intros acc rest H; [cbn; by rewrite app_nil_r|]. apply Forall_cons in H as [Hv H].
  cbn [app list_values]. rewrite Hv, IH by done. by rewrite <-app_assoc.
Qed.

Lemma in_list_reads values rest : values <> [] -> listable values -> parse_in_list (bs "(" :: values ++ bs ")" :: rest) = Ok (values, rest).
Proof.
  intros Hn [H Hs]. destruct values as [|v values]; [done|]. cbn [parse_in_list app]. change (negb (bytes_eqb (bs "(") (bs "("))) with false. cbv iota.
  cbn [next_is] in Hs. rewrite Hs. pose proof (list_values_all (v :: values) [] rest H) as Hl. cbn [app] in Hl. by rewrite Hl.
Qed.

Lemma set_condition column negated values q : values <> [] -> listable values ->
  condition_as (set_words column negated values q) (in_list (qualified_grant_column column q) (if negated then NotIn else In_) values).
Proof.
  intros Hn Hl rest. unfold set_words. destruct negated; cbn [app parse_where_condition]; rewrite <-app_assoc; cbn [app].
  - change (bytes_eqb (to_uppercase (bs "NOT")) (bs "IN")) with false. change (bytes_eqb (to_uppercase (bs "NOT")) (bs "NOT")) with true.
    change (next_is "IN" (bs "IN" :: _)) with true. cbv iota. cbn [drop]. rewrite ?drop_0. by rewrite in_list_reads.
  - change (bytes_eqb (to_uppercase (bs "IN")) (bs "IN")) with true. cbv iota. by rewrite in_list_reads.
Qed.

Lemma lex_cmp rc q : word (qualified_grant_column (r_column rc) q) -> r_op rc ∈ VALID_OPS ->
  tokenize_where (render_cmp rc q) = Ok (cmp_words rc q) /\ solid (render_cmp rc q).
Proof.
  intros Hw Ho. unfold render_cmp, quote_where_value. rewrite quoted_quote. split.
  - cbn [app]. apply (lex_join _ _ [_]); [by apply lex_word|]. apply (lex_join _ _ [_]); [by apply lex_op|apply lex_quote].
  - rewrite (app_assoc [32]), (app_assoc _ [32]). apply solid_join; [by apply solid_word|]. split; [by eexists _, _|].
    unfold quote. eexists QUOTE, (QUOTE :: escape (r_value rc)). done.
Qed.

Lemma lex_values values : values <> [] -> tokenize_where (join [32] (map quote_where_value values)) = Ok values.
Proof.
  induction values as [|v values IH]; [done|]. intros _. unfold quote_where_value in *. destruct values as [|v' values].
  - cbn [map join]. rewrite quoted_quote. apply lex_quote.
  - change (tokenize_where (quoted v ++ [32] ++ join [32] (map quoted (v' :: values))) = Ok ([v] ++ v' :: values)). cbn [app]. apply (lex_join _ _ [v]).
    + rewrite quoted_quote. apply lex_quote.
    + by apply IH.
Qed.

Lemma lex_set column negated values q : word (qualified_grant_column column q) -> values <> [] ->
  tokenize_where (render_set column negated values q) = Ok (set_words column negated values q) /\ solid (render_set column negated values q).
Proof.
  intros Hw Hn. unfold render_set, set_words. split.
  - cbn [app]. apply (lex_join _ _ [_]); [by apply lex_word|].
    change (bs " ( ") with ([32] ++ bs "(" ++ [32]). change (bs " )") with ([32] ++ bs ")"). rewrite <-!app_assoc. cbn [app].
    apply (lex_join _ _ (if negated then [bs "NOT"; bs "IN"] else [bs "IN"])); [by destruct negated|].
    apply (lex_join (bs "(") _ [bs "("]); [done|]. apply lex_join; [by apply lex_values|done].
  - change (bs " )") with ([32] ++ bs ")"). rewrite !(app_assoc _ _ ([32] ++ _)), !app_assoc, <-(app_assoc _ [32]).
    split.
    + destruct (solid_word _ Hw) as [(c & s & -> & Hc) _]. by eexists _, _.
    + eexists 41, _. split; [|done]. by rewrite app_assoc.
Qed.

Lemma lex_never column q : word (qualified_grant_column column q) ->
  let f := qualified_grant_column column q in
  solid (never f) /\ exists w, tokenize_where (never f) = Ok w /\ conditions_as w [single f IsNull []; single f IsNotNull []].
Proof.
  intros Hw f. fold f in Hw. clearbody f. split.
  - unfold never. split; [destruct (solid_word f Hw) as [(c & s & -> & Hc) _]; by eexists _, _|].
    change (bs " IS NOT NULL") with (bs " IS NOT NUL" ++ [76]). exists 76, (f ++ bs " IS NULL AND " ++ f ++ bs " IS NOT NUL"). by rewrite !app_assoc.
  - exists ([f; bs "IS"; bs "NULL"] ++ bs "AND" :: [f; bs "IS"; bs "NOT"; bs "NULL"]). split.
    + unfold never. change (bs " IS NULL AND ") with ([32] ++ bs "IS NULL AND" ++ [32]). change (bs " IS NOT NULL") with ([32] ++ bs "IS NOT NULL").
      rewrite <-!app_assoc. cbn [app]. apply (lex_join _ _ [f]); [by apply lex_word|]. apply (lex_join (bs "IS NULL AND") _ [bs "IS"; bs "NULL"; bs "AND"]); [done|].
      apply (lex_join _ _ [f]); [by apply lex_word|done].
    + apply (conditions_as_app _ _ [_] [_]); apply conditions_as_single; intros rest; done.
Qed.

(** ** Lemmas: what rendered texts mean *)

Abbreviation row_sat := (str -> CmpOp -> str -> list str -> bool).

(** A text, its words and the one condition they are. *)
Definition reads_one (q : option str) (part : str) (f : row_sat -> bool) : Prop :=
  solid part /\ exists w c, tokenize_where part = Ok w /\ condition_as w c /\ forall sat, matches sat c = f sat.

(** A text, its words and the conditions they are. *)
Definition reads_all (part : str) (f : row_sat -> bool) : Prop :=
  solid part /\ exists w ws, tokenize_where part = Ok w /\ conditions_as w ws /\
    forall sat, RowSemantics sat -> forallb (matches sat) ws = f sat.

Lemma reads_one_all q part f : reads_one q part f -> reads_all part f.
Proof.
  intros [Hs (w & c & Hw & Hc & Hm)]. split; [done|]. exists w, [c]. split_and!; [done|by apply conditions_as_single|].
  intros sat _. cbn. by rewrite Hm, andb_true_r.
Qed.

Lemma single_not_or sat f o v : o <> Or_ -> matches sat (single f o v) = sat f o v [].
Proof. intros H. cbn. by rewrite bool_decide_eq_false_2. Qed.

Lemma cmp_reads q rc : renderable q (ECmp rc) -> reads_one q (render_cmp rc q) (fun sat => holds sat q (ECmp rc)).
Proof.
  intros [Hw Ho]. cbn [condition_column] in Hw. destruct (lex_cmp rc q Hw Ho) as [Hl Hs]. split; [done|].
  destruct (valid_op_parses _ Ho) as (o & Hp & Hn). exists (cmp_words rc q), (single (qualified_grant_column (r_column rc) q) o (r_value rc)).
  split_and!; [done|by apply cmp_condition|]. intros sat. cbn [holds]. by rewrite Hp, single_not_or.
Qed.

Lemma set_reads q column negated values : values <> [] -> renderable q (InSet column negated values) ->
  reads_one q (render_set column negated values q) (fun sat => holds sat q (InSet column negated values)).
Proof.
  intros Hn [Hw Hl]. cbn [condition_column] in Hw. destruct (lex_set column negated values q Hw Hn) as [Hlex Hs]. split; [done|].
  eexists _, _. split_and!; [exact Hlex|by apply set_condition|]. intros sat. destruct values; [done|]. by destruct negated.
Qed.

Lemma part_reads q c : renderable q c ->
  (render_part q c = [] /\ forall sat, holds sat q c = true) \/
  (exists part, render_part q c = [part] /\ reads_all part (fun sat => holds sat q c)).
Proof.
  intros H. destruct c as [rc|column negated [|v values]]; cbn [render_part].
  - right. eexists. split; [done|]. by eapply reads_one_all, cmp_reads.
  - destruct negated; [by left|]. right. eexists. split; [done|]. destruct H as [Hw _]. cbn [condition_column] in Hw.
    destruct (lex_never column q Hw) as [Hs (w & Hlex & Hc)]. split; [done|]. eexists _, _. split_and!; [done|exact Hc|].
    intros sat Hsat. cbn [forallb]. rewrite !single_not_or, andb_true_r by done. apply null_or_not.
  - right. eexists. split; [done|]. by eapply reads_one_all, set_reads.
Qed.

(** A conjunction: no text when it always holds, and otherwise a text that says it. *)
Lemma clause_reads q cl : Forall (renderable q) cl ->
  let text := render_enforced_clause cl q in
  (text = [] /\ forall sat, forallb (holds sat q) cl = true) \/ reads_all text (fun sat => forallb (holds sat q) cl).
Proof.
  intros H. unfold render_enforced_clause. cbv zeta.
  enough (let parts := concat (map (render_part q) cl) in
    (parts = [] /\ forall sat, forallb (holds sat q) cl = true) \/
    (parts <> [] /\ Forall solid parts /\ exists words wss, Forall2 (fun s w => tokenize_where s = Ok w) parts words /\
      Forall2 conditions_as words wss /\ forall sat, RowSemantics sat -> forallb (matches sat) (concat wss) = forallb (holds sat q) cl)) as Hp.
  { destruct Hp as [[-> Ht]|(Hn & Hs & words & wss & Hw & Hc & Hm)]; [by left|]. right. split; [by apply solid_joined|].
    exists (join_words (bs "AND") words), (concat wss). split_and!; [by apply (lex_keyword_join "AND")| |done].
    apply conditions_as_join; [done|]. intros ->. apply Forall2_nil_inv_r in Hw. done. }
  induction H as [|c cl Hc Hcl IH]; [by left|]. cbn [map concat forallb].
  destruct (part_reads q c Hc) as [[-> Ht]|(part & -> & Hps & w & ws & Hw & Hws & Hm)]; cbn [app].
  - destruct IH as [[-> Ht']|IH]; [left; split; [done|]; intros sat; by rewrite Ht, Ht'|]. right.
    destruct IH as (Hn & Hs & words & wss & Hwords & Hwss & Hm). split_and!; [done|done|]. exists words, wss. split_and!; [done|done|].
    intros sat Hsat. by rewrite Ht, Hm.
  - right. split; [done|]. destruct IH as [[-> Ht']|(_ & Hs & words & wss & Hwords & Hwss & Hm')].
    + split; [constructor; [done|constructor]|]. exists [w], [ws]. split_and!; [constructor; [done|constructor]|constructor; [done|constructor]|].
      intros sat Hsat. cbn. by rewrite app_nil_r, Hm, Ht', andb_true_r.
    + split; [by constructor|]. exists (w :: words), (ws :: wss). split_and!; [by constructor|by constructor|].
      intros sat Hsat. cbn. by rewrite forallb_app, Hm, Hm'.
Qed.

(** The parts of a branch. *)
Lemma branch_reads q cl : Forall (renderable q) cl -> forall parts,
  match branch_parts cl q parts with
  | None => forall sat, forallb (holds sat q) cl = false
  | Some l => exists new (fs : list (row_sat -> bool)), l = parts ++ new /\ Forall2 (reads_one q) new fs /\
                forall sat, forallb (holds sat q) cl = forallb (fun f => f sat) fs
  end.
Proof.
  assert (forall c part cl parts, reads_one q part (fun sat => holds sat q c) ->
    match branch_parts cl q (parts ++ [part]) with
    | None => forall sat, forallb (holds sat q) cl = false
    | Some l => exists new fs, l = (parts ++ [part]) ++ new /\ Forall2 (reads_one q) new fs /\ forall sat, forallb (holds sat q) cl = forallb (fun f => f sat) fs
    end ->
    match branch_parts cl q (parts ++ [part]) with
    | None => forall sat, forallb (holds sat q) (c :: cl) = false
    | Some l => exists new fs, l = parts ++ new /\ Forall2 (reads_one q) new fs /\ forall sat, forallb (holds sat q) (c :: cl) = forallb (fun f => f sat) fs
    end) as Hstep.
  { intros c part cl' parts Hp. destruct (branch_parts cl' q (parts ++ [part])) as [l|].
    - intros (new & fs & -> & Hnew & Hm). exists (part :: new), ((fun sat => holds sat q c) :: fs). rewrite <-app_assoc.
      split_and!; [done|by constructor|]. intros sat. cbn [forallb]. by rewrite Hm.
    - intros Hf sat. cbn [forallb]. by rewrite Hf, andb_false_r. }
  induction 1 as [|c cl Hc Hcl IH]; intros parts.
  - exists [], []. rewrite app_nil_r. split_and!; [done|constructor|done].
  - destruct c as [rc|column negated [|v values]]; cbn [branch_parts].
    + apply Hstep; [by apply cmp_reads|apply IH].
    + destruct negated; [|done]. specialize (IH parts). destruct (branch_parts cl q parts) as [l|]; [|done]. done.
    + apply Hstep; [by apply set_reads|apply IH].
Qed.

Lemma branches_read q cs : Forall (Forall (renderable q)) cs -> forall branches r,
  render_branches cs q branches = Ok r ->
  match r with
  | None => forall sat, allowed sat q cs = true
  | Some l => exists new (fs : list (row_sat -> bool)), l = branches ++ new /\ Forall2 (reads_one q) new fs /\
                forall sat, allowed sat q cs = existsb (fun f => f sat) fs
  end.
Proof.
  induction 1 as [|cl cs Hcl Hcs IH]; intros branches r; cbn [render_branches].
  { intros [= <-]. exists [], []. rewrite app_nil_r. split_and!; [done|constructor|done]. }
  destruct cl as [|c cl]; [by intros [= <-]|]. pose proof (branch_reads q (c :: cl) Hcl []) as Hb.
  destruct (branch_parts (c :: cl) q []) as [parts|].
  - destruct Hb as (new & fs & -> & Hnew & Hm). cbn [app]. destruct Hnew as [|p f new fs Hp Hnew].
    + intros [= <-] sat. unfold allowed. cbn [existsb]. rewrite Hm. done.
    + destruct Hnew as [|? ? ? ? _ _]; [|done]. intros E. apply IH in E. destruct r as [l|].
      * destruct E as (new' & fs' & -> & Hn' & Hm'). exists (p :: new'), (f :: fs'). rewrite <-app_assoc. split_and!; [done|by constructor|].
        intros sat. unfold allowed in *. cbn [existsb]. by rewrite Hm, Hm'; cbn; rewrite andb_true_r.
      * intros sat. unfold allowed in *. cbn [existsb]. by rewrite E, orb_true_r.
  - intros E. apply IH in E. destruct r as [l|].
    + destruct E as (new' & fs' & -> & Hn' & Hm'). exists new', fs'. split_and!; [done|done|]. intros sat. unfold allowed in *. cbn [existsb]. by rewrite Hb, Hm'.
    + intros sat. unfold allowed in *. cbn [existsb]. by rewrite E, orb_true_r.
Qed.

(** Alternatives that can be read one by one are read as a group. *)
Lemma group_reads q parts fs : Forall2 (reads_one q) parts fs -> parts <> [] -> reads_all (join (bs " OR ") parts) (fun sat => existsb (fun f => f sat) fs).
Proof.
  intros H Hn. assert (exists words cs, Forall2 (fun s w => tokenize_where s = Ok w) parts words /\ Forall2 condition_as words cs /\
    Forall solid parts /\ Forall2 (fun c f => forall sat, matches sat c = f sat) cs fs) as (words & cs & Hw & Hc & Hs & Hm).
  { clear Hn. induction H as [|p f parts fs [Hs (w & c & Hw & Hc & Hm)] _ (words & cs & IH1 & IH2 & IH3 & IH4)]; [exists [], []; repeat split; constructor|].
    exists (w :: words), (c :: cs). repeat split; by constructor. }
  split; [by apply solid_joined|]. destruct Hc as [|w c words cs Hwc Hc]; [apply Forall2_nil_inv_r in Hw; done|].
  exists (join_words (bs "OR") (w :: words)), [grouped (c :: cs)]. split_and!; [by apply (lex_keyword_join "OR")|by apply conditions_as_or|].
  intros sat _. cbn [forallb]. rewrite andb_true_r.
  assert (existsb (matches sat) (c :: cs) = existsb (fun f => f sat) fs) as <-.
  { clear -Hm. induction Hm as [|x f l fs Hx _ IH]; [done|]. cbn [existsb]. by rewrite Hx, IH. }
  destruct cs; cbn [grouped]; [cbn [existsb]; by rewrite orb_false_r|done].
Qed.

(** Some value of a list equals the field. *)
Definition some_equal (sat : row_sat) (f : str) (values : list str) : bool := existsb (fun v => sat f Eq_ v []) values.

Lemma some_equal_insert sat f values v : some_equal sat f (insert_new values v) = some_equal sat f values || sat f Eq_ v [].
Proof.
  unfold insert_new, some_equal. case_bool_decide as Hin; [|rewrite existsb_app; cbn; by rewrite orb_false_r].
  destruct (sat f Eq_ v []) eqn:E; [|by rewrite orb_false_r]. rewrite orb_true_r. apply existsb_exists. exists v. by rewrite <-list_elem_of_In.
Qed.

Lemma some_equal_fold sat f set : forall values, some_equal sat f (foldl insert_new values set) = some_equal sat f values || some_equal sat f set.
Proof.
  induction set as [|v set IH]; intros values; [cbn; by rewrite orb_false_r|]. cbn [foldl]. rewrite IH, some_equal_insert. unfold some_equal. cbn [existsb].
  by rewrite orb_assoc.
Qed.

Lemma in_holds sat q column values : RowSemantics sat ->
  holds sat q (InSet column false values) = some_equal sat (qualified_grant_column column q) values.
Proof. intros Hs. destruct values as [|v values]; [done|]. by apply in_some. Qed.

Lemma collapse_reads q sat : RowSemantics sat -> forall cs column values column' values',
  collapse_loop cs column values = Some (Some column', values') -> (forall c, column = Some c -> c = column') ->
  some_equal sat (qualified_grant_column column' q) values' = some_equal sat (qualified_grant_column column' q) values || allowed sat q cs.
Proof.
  intros Hs. induction cs as [|cl cs IH]; intros column values column' values'; cbn [collapse_loop].
  { intros [= -> ->] _. cbn. by rewrite orb_false_r. }
  destruct cl as [|[rc|c negated set] [|? ?]]; try done.
  - destruct (bytes_eqb (r_op rc) (bs "=")) eqn:Eo; [|done]. apply bytes_eqb_eq in Eo. cbn [negb].
    destruct (match column with Some c => _ | None => _ end) eqn:Ec; [done|]. intros E Hcol.
    assert (default (r_column rc) column = r_column rc) as Hd.
    { destruct column as [c|]; [|done]. apply negb_false_iff, bytes_eqb_eq in Ec. cbn. done. }
    rewrite Hd in E. assert (r_column rc = column') as Hc'.
    { clear -E. revert E. generalize (insert_new values (r_value rc)). induction cs as [|cl cs IH]; intros vs E; cbn [collapse_loop] in E; [by injection E|].
      destruct cl as [|[rc'|c negated set] [|? ?]]; try done.
      - destruct (negb _); [done|]. destruct (negb _); [done|]. by apply IH in E.
      - destruct negated; [done|]. destruct (negb _); [done|]. by apply IH in E. }
    rewrite (IH _ _ _ _ E) by (intros c [= <-]; done). rewrite some_equal_insert. unfold allowed. cbn [existsb forallb holds].
    rewrite Eo. change (parse_cmp_op (bs "=")) with (Ok Eq_). cbv iota. by rewrite andb_true_r, orb_assoc, Hc'.
  - destruct negated; [done|]. destruct (match column with Some c => _ | None => _ end) eqn:Ec; [done|]. intros E Hcol.
    assert (default c column = c) as Hd.
    { destruct column as [c'|]; [|done]. apply negb_false_iff, bytes_eqb_eq in Ec. cbn. done. }
    rewrite Hd in E. assert (c = column') as Hc'.
    { clear -E. revert E. generalize (foldl insert_new values set). induction cs as [|cl cs IH]; intros vs E; cbn [collapse_loop] in E; [by injection E|].
      destruct cl as [|[rc'|c' negated set'] [|? ?]]; try done.
      - destruct (negb _); [done|]. destruct (negb _); [done|]. by apply IH in E.
      - destruct negated; [done|]. destruct (negb _); [done|]. by apply IH in E. }
    rewrite (IH _ _ _ _ E) by (intros c' [= <-]; done). rewrite some_equal_fold. unfold allowed. cbn [existsb forallb].
    rewrite in_holds, andb_true_r, orb_assoc, Hc' by done. done.
Qed.

(** The alternatives of a grant can be written as a text. *)
Definition expressible (q : option str) (cs : list (list EnforcedCondition)) : Prop :=
  cs <> [] /\ Forall (Forall (renderable q)) cs /\
  (forall column values, collapse_same_column_or_clauses cs = Some (InSet column false values) -> renderable q (InSet column false values)).

(** The text of a filter says what the grant allows. *)
Lemma rendered_reads q cs text : expressible q cs -> render_enforced_clauses cs q = Ok text ->
  (text = [] /\ forall sat, RowSemantics sat -> allowed sat q cs = true) \/ reads_all text (fun sat => allowed sat q cs).
Proof.
  intros (Hn & Hr & Hcol) E.
  assert (forall cl, Forall (renderable q) cl -> (forall sat, RowSemantics sat -> forallb (holds sat q) cl = allowed sat q cs) ->
    text = render_enforced_clause cl q -> (text = [] /\ forall sat, RowSemantics sat -> allowed sat q cs = true) \/ reads_all text (fun sat => allowed sat q cs)) as Hone.
  { intros cl Hcl Hal ->. destruct (clause_reads q cl Hcl) as [[-> Ht]|[Hs (w & ws & Hw & Hws & Hm)]].
    - left. split; [done|]. intros sat Hsat. by rewrite <-Hal, Ht.
    - right. split; [done|]. exists w, ws. split_and!; [done|done|]. intros sat Hsat. by rewrite Hm, Hal. }
  unfold render_enforced_clauses in E. destruct cs as [|cl [|cl' cs]]; [done| |].
  { injection E as <-. apply (Hone cl); [by apply Forall_cons in Hr as [? _]| |done]. intros sat _. unfold allowed. cbn. by rewrite orb_false_r. }
  set (l := cl :: cl' :: cs) in *. unfold render_enforced_or_clauses in E. destruct (collapse_same_column_or_clauses l) as [c|] eqn:Ec.
  - injection E as <-. pose proof Ec as Ec'. unfold collapse_same_column_or_clauses in Ec. destruct (collapse_loop l None []) as [[[column|] values]|] eqn:El; try done.
    injection Ec as <-. apply (Hone [InSet column false values]); [|intros sat Hsat|done].
    + constructor; [|constructor]. by apply Hcol.
    + cbn [forallb]. rewrite andb_true_r, in_holds by done. by rewrite (collapse_reads q sat Hsat l None [] column values El).
  - destruct (render_branches l q []) as [r|] eqn:Er; [|done]. pose proof (branches_read q l Hr [] r Er) as Hb. cbn [mbind result_bind] in E. injection E as <-.
    destruct r as [parts|]; [|left; split; [done|]; intros; apply Hb]. destruct Hb as (new & fs & -> & Hnew & Hm). cbn [app].
    destruct Hnew as [|p f parts fs Hp Hps].
    + right. destruct (concat l) as [|c rest] eqn:Econ.
      * exfalso. assert (cl = []) as -> by (by destruct cl). done.
      * assert (word (qualified_grant_column (condition_column c) q)) as Hw.
        { assert (Forall (renderable q) (concat l)) as Hf by (by apply Forall_concat). rewrite Econ in Hf. by apply Forall_cons in Hf as [[? _] _]. }
        change (cl ++ cl' ++ concat cs) with (concat l). rewrite Econ.
        destruct (lex_never (condition_column c) q Hw) as [Hs (w & Hlex & Hc)]. split; [done|]. eexists _, _. split_and!; [done|exact Hc|].
        intros sat Hsat. rewrite Hm. cbn [forallb existsb]. rewrite !single_not_or, andb_true_r by done. apply null_or_not.
    + right. destruct (group_reads q (p :: parts) (f :: fs)) as [Hs (w & ws & Hw & Hws & Hmm)]; [by constructor|done|].
      split; [done|]. exists w, ws. split_and!; [done|done|]. intros sat Hsat. by rewrite Hmm, Hm.
Qed.

(** ** Queries under a grant *)

Definition query_text (user : option str) (uc : list WhereClause) : Prop := match user with None => uc = [] | Some u => conditions_text u uc end.

Lemma reads_conditions text f : reads_all text f -> exists ws, conditions_text text ws /\ trim text <> [] /\ (forall sat, RowSemantics sat -> forallb (matches sat) ws = f sat).
Proof.
  intros [Hs (w & ws & Hw & Hc & Hm)]. exists ws. rewrite (solid_trim _ Hs). split_and!; [|by destruct Hs as [(? & ? & -> & _) _]|done].
  exists w. by rewrite (solid_trim _ Hs).
Qed.

Lemma with_where_nil {F32 : Type} (c : Clauses (F32 := F32)) : with_where [] c = c.
Proof. by destruct c. Qed.

Lemma collect_Ok {A B : Type} (f : A -> result B) l r : collect f l = Ok r <-> Forall2 (fun a b => f a = Ok b) l r.
Proof.
  revert r. induction l as [|a l IH]; intros r; cbn [collect].
  - split; [intros [= <-]; constructor|by intros ->%Forall2_nil_inv_l].
  - destruct (f a) as [b|] eqn:E; cbn [mbind result_bind].
    + destruct (collect f l) as [bs|] eqn:El; cbn [mbind result_bind].
      * split; [intros [= <-]; constructor; [done|by apply IH]|]. intros H. apply Forall2_cons_inv_l in H as (b' & l' & Hb & Hl & ->). rewrite E in Hb. injection Hb as <-.
        apply IH in Hl. by injection Hl as <-.
      * split; [done|]. intros H. apply Forall2_cons_inv_l in H as (b' & l' & _ & Hl & ->). by apply IH in Hl.
    + split; [done|]. intros H. apply Forall2_cons_inv_l in H as (b' & l' & Hb & _ & ->). congruence.
Qed.

Section Limits.

Context `{Tables}.

(** A caller may read a row of joined tables: each table has a read grant, and some alternative of it holds. *)
Definition readable (sat : row_sat) (srcs : list (str * option str)) (css : list (list (list EnforcedCondition))) : bool :=
  forallb (fun '((_, q), cs) => allowed sat q cs) (zip srcs css).

Lemma access_not_reserved scope grants principal table q text : access_filter scope grants principal table q = Ok text -> reserved_table_access_error table = None.
Proof using Type.
  unfold access_filter, enforced_conds, load_grant_predicate. destruct (grants !! _) as [t|]; [|done]. cbn [mbind result_bind].
  destruct (tokenize_where t) as [tokens|]; [|done]. cbn [mbind result_bind]. destruct (parse_predicate tokens) as [p|]; [|done]. cbn [mbind result_bind].
  unfold validate_grant_reserved_tables. cbn [first_reserved]. by destruct (reserved_table_access_error table).
Qed.

(** The filters of a query say what its tables' grants allow. *)
Lemma filters_read grants principal srcs css texts :
  Forall2 (fun '(t, q) text => access_filter Read grants principal t q = Ok text) srcs texts ->
  Forall2 (fun '(t, q) cs => enforced_conds grants principal t Read = Ok (Some cs) /\ expressible q cs) srcs css ->
  let filters := filter (fun f => trim f <> []) texts in
  (filters = [] /\ forall sat, RowSemantics sat -> readable sat srcs css = true) \/
  (filters <> [] /\ reads_all (join (bs " AND ") filters) (fun sat => readable sat srcs css)).
Proof using Type.
  intros Ht Hc. cbv zeta.
  enough (let filters := filter (fun f => trim f <> []) texts in
    Forall solid filters /\ exists words wss, Forall2 (fun s w => tokenize_where s = Ok w) filters words /\ Forall2 conditions_as words wss /\
      forall sat, RowSemantics sat -> forallb (matches sat) (concat wss) = readable sat srcs css) as (Hs & words & wss & Hw & Hws & Hm).
  { destruct (filter _ texts) as [|f fs] eqn:E.
    - left. split; [done|]. apply Forall2_nil_inv_l in Hw as ->. apply Forall2_nil_inv_l in Hws as ->. intros sat Hsat. by rewrite <-Hm.
    - right. split; [done|]. split; [by apply solid_joined|]. exists (join_words (bs "AND") words), (concat wss).
      split_and!; [by apply (lex_keyword_join "AND")| |done]. apply conditions_as_join; [done|]. intros ->. by apply Forall2_nil_inv_r in Hw. }
  revert css Hc. induction Ht as [|[t q] text srcs texts Hx Ht IH]; intros css Hc.
  { apply Forall2_nil_inv_l in Hc as ->. split; [constructor|]. exists [], []. split_and!; [constructor|constructor|done]. }
  apply Forall2_cons_inv_l in Hc as (cs & css' & [He Hex] & Hc & ->). destruct (IH _ Hc) as (Hs & words & wss & Hw & Hws & Hm).
  unfold access_filter in Hx. rewrite He in Hx. cbn [mbind result_bind] in Hx. unfold readable in *. cbn [zip zip_with forallb].
  destruct (rendered_reads q cs text Hex Hx) as [[-> Hal]|[Hsol (w & ws & Hlw & Hlc & Hlm)]].
  - rewrite filter_cons_False by (intros Hf; by apply Hf). split; [done|]. exists words, wss. split_and!; [done|done|]. intros sat Hsat. by rewrite Hal, Hm.
  - rewrite filter_cons_True by (rewrite (solid_trim _ Hsol); by destruct Hsol as [(? & ? & -> & _) _]).
    split; [by constructor|]. exists (w :: words), (ws :: wss). split_and!; [by constructor|by constructor|]. intros sat Hsat. cbn [concat]. by rewrite forallb_app, Hlm, Hm.
Qed.

(** C23. A caller reads only the rows of its grants. Take a query on a table and any tables it joins, each
    with a read grant whose alternatives, for this caller, can be written as a text, and a WHERE that is
    conditions joined by AND (or none). Then the query runs with the same joins, groups, order and limits
    under conditions that a row matches exactly if it matches the caller's and, for every table of the
    query, some alternative of its grant, however the conditions on single columns are answered and
    whatever the quoted values contain. *)
Theorem grant_limits_reads {F32 : Type} (parse_f32 : str -> option F32) grants principal table user uc others c css filters :
  query_text user uc -> parse_select_clauses parse_f32 others = Returned (Ok c) ->
  Forall2 (fun '(t, q) cs => enforced_conds grants principal t Read = Ok (Some cs) /\ expressible q cs) (sources table (joins c)) css ->
  read_filters grants principal table (joins c) = Ok filters ->
  exists ws, scope_table_query_read parse_f32 grants principal table user others = Returned (Ok (with_where ws c)) /\
    forall sat, RowSemantics sat -> forallb (matches sat) ws = forallb (matches sat) uc && readable sat (sources table (joins c)) css.
Proof.
  intros Hu Ho Hc Hf. unfold scope_table_query_read.
  assert (parse_http_table_query parse_f32 user others = Returned (Ok (with_where uc c))) as Hq.
  { destruct user as [u|]; cbn [query_text] in Hu; [|subst; by rewrite with_where_nil]. by apply (table_query_conditions parse_f32 u uc others c). }
  pose proof Hf as Hf'. unfold read_filters in Hf'. destruct (collect _ (sources table (joins c))) as [texts|] eqn:Et; [|done].
  injection Hf' as Hfil. apply collect_Ok in Et. rewrite Hq. cbn [mbind outcome_bind]. change (joins (with_where uc c)) with (joins c).
  assert (reserved_plan_access_error table (joins c) = None /\ reserved_table_access_error table = None) as [-> ->].
  { unfold sources in Et. apply Forall2_cons_inv_l in Et as (x & xs & Hx & Hxs & _). apply access_not_reserved in Hx. split; [|done].
    unfold reserved_plan_access_error. cbn [first_reserved]. rewrite Hx. clear -Hxs. revert xs Hxs. induction (joins c) as [|j js IH]; intros xs Hxs; [done|].
    cbn [map first_reserved] in *. apply Forall2_cons_inv_l in Hxs as (x & xs' & Hx & Hxs & _). apply access_not_reserved in Hx. rewrite Hx. by eapply IH. }
  rewrite Hf. destruct (filters_read grants principal (sources table (joins c)) css texts) as [[E Ht]|[Hn (gc & Hg & Hgn & Hm)%reads_conditions]].
  { eapply Forall2_impl; [exact Et|]. by intros [? ?] ?. }
  { exact Hc. }
  - rewrite E in Hfil. subst filters. exists uc. split; [|intros sat Hsat; by rewrite Ht, andb_true_r].
    unfold scoped_query. rewrite Hq. done.
  - rewrite Hfil in *. destruct user as [u|]; cbn [query_text] in Hu.
    + exists (uc ++ gc). split; [by apply read_filter_narrows|]. intros sat Hsat. by rewrite forallb_app, Hm.
    + subst uc. exists gc. split; [by apply filter_alone|]. intros sat Hsat. by rewrite Hm.
Qed.

(** C24. A caller writes only the rows of its grant. With a write grant whose alternatives can be written as
    a text, an UPDATE or DELETE of the caller, with any WHERE that can be cut and parsed by itself and
    does not end with AND, runs under conditions that a row matches exactly if it matches the caller's
    and some alternative of the grant. *)
Theorem grant_limits_writes grants principal table cs text user ut uc :
  enforced_conds grants principal table Write_ = Ok (Some cs) -> expressible None cs -> write_filter grants principal table = Ok text ->
  tokenize_where (trim user) = Ok ut -> complete ut -> parse_where_conditions ut = Ok uc ->
  exists ws, write_conditions user text = Ok ws /\
    forall sat, RowSemantics sat -> forallb (matches sat) ws = forallb (matches sat) uc && allowed sat None cs.
Proof.
  intros He Hx Hf Hu Hc Hp. unfold write_filter, access_filter in Hf. rewrite He in Hf. cbn [mbind result_bind] in Hf.
  destruct (rendered_reads None cs text Hx Hf) as [[-> Ht]|(gc & (gt & Hg & Hgt) & Hn & Hm)%reads_conditions].
  - exists uc. split; [|intros sat Hsat; by rewrite Ht, andb_true_r]. unfold write_conditions, parse_http_where_tokens. rewrite no_filter, Hu.
    cbn [mbind result_bind]. rewrite bool_decide_eq_false_2 by apply Hc. done.
  - exists (uc ++ gc). split; [|intros sat Hsat; by rewrite forallb_app, Hm].
    apply (write_filter_narrows user text ut uc gt gc); try done; [by eapply and_nonempty|by eapply and_conditions].
Qed.

End Limits.

(** ** The policy that grants and revocations make *)

Lemma grant_id_inj t s t' s' : grant_id t s = grant_id t' s' -> t = t' /\ s = s'.
Proof.
  unfold grant_id. intros E. apply (f_equal reverse) in E. rewrite !reverse_app in E.
  destruct s, s'; cbn in E; try done; apply (app_inj_1 _ _ _ _) in E as [_ E] || idtac.
  all: by injection E as E%(inj reverse).
Qed.

Lemma clauses_append p q :
  clauses (append_alternatives p q) = clauses p ++ clauses q \/
  (([] ∈ clauses p \/ [] ∈ clauses q) /\ clauses (append_alternatives p q) = [[]]).
Proof.
  destruct p as [[|c cs] alts], q as [[|c' cs'] alts']; cbn [append_alternatives clauses]; try (right; split; [|done]; first [left; by left|right; by left]).
  left. by rewrite app_comm_cons.
Qed.

Lemma first_reserved_app l k : first_reserved (l ++ k) = Ok tt <-> first_reserved l = Ok tt /\ first_reserved k = Ok tt.
Proof.
  induction l as [|t l IH]; cbn [app first_reserved]; [tauto|]. destruct (reserved_table_access_error t); [|done]. split; [done|by intros [? _]].
Qed.

Lemma each_Ok {A : Type} (f : A -> result unit) l : each f l = Ok tt <-> Forall (fun a => f a = Ok tt) l.
Proof.
  induction l as [|a l IH]; cbn [each]; [split; [constructor|done]|]. rewrite Forall_cons. destruct (f a) as [[]|]; cbn [mbind result_bind]; [tauto|].
  split; [done|by intros [? _]].
Qed.

Section Policy.

Context `{Tables}.

(** What a stored predicate has been checked for. *)
Record checked (table : str) (p : Predicate) : Prop := {
  ck_plain : plain_predicate p = true;
  ck_reserved : validate_grant_reserved_tables table p = Ok tt
}.

Lemma checked_append table p q : checked table p -> checked table q -> checked table (append_alternatives p q).
Proof using.
  intros [P1 R1] [P2 R2].
  assert (validate_grant_reserved_tables table (mkPred [] []) = Ok tt) as R0.
  { unfold validate_grant_reserved_tables in *. cbn [first_reserved map concat clauses] in *. by destruct (reserved_table_access_error table). }
  destruct (clauses_append p q) as [E|[_ E]].
  - split; unfold plain_predicate, validate_grant_reserved_tables in *; rewrite E.
    + by rewrite forallb_app, P1, P2.
    + rewrite map_app, concat_app. cbn [first_reserved] in *. destruct (reserved_table_access_error table); [done|]. by apply first_reserved_app.
  - assert (append_alternatives p q = mkPred [] []) as -> by (destruct (append_alternatives p q); by injection E as -> ->). by split.
Qed.

(** The predicates granted since the last revocation. *)
Definition policy : Type := str -> Scope -> list Predicate.

Definition merged (p : Predicate) (ps : list Predicate) : Predicate := foldl append_alternatives p ps.

Definition represents (grants : grants_table) (A : policy) : Prop :=
  forall t s, match A t s with
              | [] => grants !! grant_id t s = None
              | p :: ps => Forall (checked t) (p :: ps) /\ grants !! grant_id t s = Some (predicate_to_string (merged p ps))
              end.

Lemma merged_checked t p ps : Forall (checked t) (p :: ps) -> checked t (merged p ps).
Proof using.
  intros [Hp Hps]%Forall_cons. revert p Hp. induction Hps as [|q ps Hq _ IH]; intros p Hp; [done|]. cbn [merged foldl]. apply IH. by apply checked_append.
Qed.

Lemma load_represented grants A t s : represents grants A ->
  load_grant_predicate grants t s = Ok (match A t s with [] => None | p :: ps => Some (merged p ps) end).
Proof using.
  intros HA. specialize (HA t s). unfold load_grant_predicate. destruct (A t s) as [|p ps]; [by rewrite HA|].
  destruct HA as [Hc ->]. apply merged_checked in Hc as [Hp Hr]. rewrite lex_predicate by done. cbn [mbind result_bind].
  unfold parse_predicate. rewrite words_back by (done || lia). cbn [mbind result_bind]. by rewrite Hr.
Qed.

(** The policy after a grant for some scopes, and after a revocation. *)
Definition granted (t : str) (p : Predicate) (scopes : list Scope) (A : policy) : policy :=
  fun t' s' => if bytes_eqb t' t && bool_decide (s' ∈ scopes) then A t' s' ++ [p] else A t' s'.
Definition revoked (t : str) (s : Scope) (A : policy) : policy :=
  fun t' s' => if bytes_eqb t' t && bool_decide (s' = s) then [] else A t' s'.

Lemma represents_ext grants A B : represents grants A -> (forall t s, B t s = A t s) -> represents grants B.
Proof using. intros HA E t s. rewrite E. apply HA. Qed.

Lemma represents_insert grants A t s p :
  represents grants A -> checked t p ->
  represents (<[grant_id t s := predicate_to_string (match A t s with [] => p | q :: qs => append_alternatives (merged q qs) p end)]> grants)
    (granted t p [s] A).
Proof using.
  intros HA Hc t' s'. unfold granted. destruct (bytes_eqb t' t && bool_decide (s' ∈ [s])) eqn:E.
  - apply andb_true_iff in E as [->%bytes_eqb_eq Hs%bool_decide_eq_true]. apply list_elem_of_singleton in Hs as ->. specialize (HA t s).
    destruct (A t s) as [|q qs]; cbn [app].
    + rewrite lookup_insert_eq. split; [by constructor|done].
    + destruct HA as [Hq _]. rewrite lookup_insert_eq. split; [rewrite app_comm_cons; apply Forall_app; split; [done|by constructor]|].
      unfold merged. by rewrite foldl_snoc.
  - specialize (HA t' s'). rewrite lookup_insert_ne; [done|]. intros [-> ->]%grant_id_inj.
    rewrite bytes_eqb_refl, bool_decide_eq_true_2 in E; [done|by left].
Qed.

Lemma put_represents t p scopes : checked t p -> NoDup scopes -> forall grants A,
  represents grants A ->
  let '(r, grants') := put_scopes t p scopes grants in
  exists done rest, scopes = done ++ rest /\ (r = Ok tt -> rest = []) /\ represents grants' (granted t p done A).
Proof using.
  intros Hc Hnd. induction Hnd as [|s scopes Hs Hnd IH]; intros grants A HA; cbn [put_scopes].
  - exists [], []. split_and!; [done|done|]. eapply represents_ext; [exact HA|]. intros t' s'. unfold granted.
    by rewrite (bool_decide_eq_false_2 (s' ∈ [])), andb_false_r by apply not_elem_of_nil.
  - rewrite (load_represented grants A t s HA).
    set (new := match match A t s with [] => None | q :: qs => Some (merged q qs) end with Some q => append_alternatives q p | None => p end).
    assert (new = match A t s with [] => p | q :: qs => append_alternatives (merged q qs) p end) as -> by (unfold new; by destruct (A t s)).
    destruct (validate_grant_predicate_for_schema t _) as [[]|e].
    + pose proof (represents_insert grants A t s p HA Hc) as Hi. specialize (IH _ _ Hi). destruct (put_scopes t p scopes _) as [r grants'].
      destruct IH as (dn & rest & -> & Hr & Hg). exists (s :: dn), rest. split_and!; [done|done|]. eapply represents_ext; [exact Hg|].
      intros t' s'. unfold granted. destruct (bytes_eqb t' t); [|done]. cbn [andb].
      apply not_elem_of_app in Hs as [Hs _]. case_bool_decide as H1; case_bool_decide as H2; case_bool_decide as H3; subst; try done; set_solver.
    + exists [], (s :: scopes). split_and!; [done|done|]. eapply represents_ext; [exact HA|]. intros t' s'. unfold granted.
      by rewrite (bool_decide_eq_false_2 (s' ∈ [])), andb_false_r by apply not_elem_of_nil.
Qed.

Lemma delete_represents t s grants A : represents grants A -> represents (delete (grant_id t s) grants) (revoked t s A).
Proof using.
  intros HA t' s'. unfold revoked. destruct (bytes_eqb t' t && bool_decide (s' = s)) eqn:E.
  - apply andb_true_iff in E as [->%bytes_eqb_eq ->%bool_decide_eq_true]. apply lookup_delete_eq.
  - specialize (HA t' s'). rewrite lookup_delete_ne; [done|]. intros [-> ->]%grant_id_inj. by rewrite bytes_eqb_refl, bool_decide_eq_true_2 in E.
Qed.

(** ** What a policy permits *)

(** A predicate for a caller. *)
Definition enforce (principal : AuthPrincipal) (p : Predicate) : result (list (list EnforcedCondition)) :=
  resolved ← resolve_for_principal p principal; execute_resolved_clauses resolved.

Definition enforce_clause (principal : AuthPrincipal) (cl : list Condition) (cs : list EnforcedCondition) : Prop :=
  exists r, resolve_predicate (user_id principal) (claim_of principal) cl = Ok r /\ execute_resolved r = Ok cs.

Lemma enforce_Ok principal p css : enforce principal p = Ok css <-> Forall2 (enforce_clause principal) (clauses p) css.
Proof using.
  unfold enforce, resolve_for_principal, resolve_clauses. split.
  - destruct (collect _ (clauses p)) as [rs|] eqn:E; [|done]. cbn [mbind result_bind]. intros E2.
    apply collect_Ok in E. apply collect_Ok in E2. revert css E2. induction E as [|cl r l rs Hr _ IH]; intros css E2.
    + apply Forall2_nil_inv_l in E2 as ->. constructor.
    + apply Forall2_cons_inv_l in E2 as (cs & css' & Hcs & Hrest & ->). constructor; [by exists r|by apply IH].
  - intros Hf. assert (exists rs, Forall2 (fun cl r => resolve_predicate (user_id principal) (claim_of principal) cl = Ok r) (clauses p) rs /\
      Forall2 (fun r cs => execute_resolved r = Ok cs) rs css) as (rs & H1 & H2).
    { induction Hf as [|cl cs l css (r & Hr & He) _ (rs & IH1 & IH2)]; [exists []; by split; constructor|]. exists (r :: rs). by split; constructor. }
    apply collect_Ok in H1. rewrite H1. cbn [mbind result_bind]. by apply collect_Ok.
Qed.

Context {F64 : Type} (parse_f64 : str -> option F64) (partial_cmp : F64 -> F64 -> option comparison).

Abbreviation row_ok := (fun row clause => enforced_row_satisfies parse_f64 partial_cmp clause row).

(** Adding alternatives permits what either permitted. *)
Lemma append_permits principal p q cs1 cs2 : enforce principal p = Ok cs1 -> enforce principal q = Ok cs2 ->
  exists cs, enforce principal (append_alternatives p q) = Ok cs /\ forall row, existsb (row_ok row) cs = existsb (row_ok row) cs1 || existsb (row_ok row) cs2.
Proof using Type.
  intros H1 H2. apply enforce_Ok in H1, H2.
  assert (forall l css, Forall2 (enforce_clause principal) l css -> [] ∈ l -> forall row, existsb (row_ok row) css = true) as Hun.
  { intros l css Hf. induction Hf as [|cl cs l css (r & Hr & He) _ IH]; [by intros ?%elem_of_nil|]. intros [<-|Hin]%elem_of_cons row; cbn [existsb].
    - injection Hr as <-. by injection He as <-.
    - by rewrite IH, orb_true_r. }
  destruct (clauses_append p q) as [E|[Hin E]].
  - exists (cs1 ++ cs2). split; [apply enforce_Ok; rewrite E; by apply Forall2_app|]. intros row. apply existsb_app.
  - exists [[]]. split; [apply enforce_Ok; rewrite E; repeat constructor; by exists []|]. intros row.
    destruct Hin as [Hin|Hin]; [rewrite (Hun _ _ H1 Hin)|rewrite (Hun _ _ H2 Hin), orb_true_r]; done.
Qed.

Lemma merged_permits principal ps : forall p cs css,
  enforce principal p = Ok cs -> Forall2 (fun q cs => enforce principal q = Ok cs) ps css ->
  exists cs', enforce principal (merged p ps) = Ok cs' /\ forall row, existsb (row_ok row) cs' = existsb (existsb (row_ok row)) (cs :: css).
Proof using Type.
  induction ps as [|q ps IH]; intros p cs css Hp Hps.
  - apply Forall2_nil_inv_l in Hps as ->. exists cs. split; [done|]. intros row. cbn. by rewrite orb_false_r.
  - apply Forall2_cons_inv_l in Hps as (cs2 & css' & Hq & Hps & ->). destruct (append_permits principal p q cs cs2 Hp Hq) as (cs3 & H3 & Hm).
    cbn [merged foldl]. destruct (IH _ _ _ H3 Hps) as (cs' & Hc & Hm'). exists cs'. split; [done|]. intros row. rewrite Hm'. cbn [existsb]. by rewrite Hm, orb_assoc.
Qed.

(** Operations on grants, each with its success. *)
Inductive grant_op := Grant_ (g : Grant) | Revoke (table : str) (scope : Scope).

Definition run_op (o : grant_op) (grants : grants_table) : bool * grants_table :=
  match o with
  | Grant_ g => let '(r, grants) := put_grant g grants in (is_ok r, grants)
  | Revoke t s => delete_grant t s grants
  end.

Definition op_ok (o : grant_op) : Prop :=
  match o with Grant_ g => plain_predicate (g_predicate g) = true /\ NoDup (g_scopes g) | Revoke _ _ => True end.

(** The policy after an operation: a grant that fails may have been recorded for its first scopes. *)
Definition policy_step (o : grant_op) (ok : bool) (A A' : policy) : Prop :=
  match o with
  | Grant_ g => exists dn rest, g_scopes g = dn ++ rest /\ (ok = true -> rest = []) /\ forall t s, A' t s = granted (g_table g) (g_predicate g) dn A t s
  | Revoke t s => ok = bool_decide (A t s <> []) /\ forall t' s', A' t' s' = revoked t s A t' s'
  end.


End Policy.

(** ** A concrete service: notes *)

(** No table has a declared schema, and the members of a team are stored in a table of two rows. *)
#[export] Program Instance team_tables : Tables := {
  load_schema := fun _ => None;
  scan_projected_column := fun table _ _ => Ok (if bytes_eqb table (bs "teams") then [bs "red"; bs "blue"] else [])
}.
Next Obligation. intros table conds projected values [= <-]. destruct (bytes_eqb table _); repeat constructor. Qed.

Definition notes_grants : grants_table :=
  <[grant_id (bs "notes") Read := bs "owner = auth.uid() OR kind = 'shared note'"]>
  (<[grant_id (bs "notes") Write_ := bs "owner = auth.uid() AND team IN ( SELECT team FROM teams WHERE member = auth.uid() )"]>
  (<[grant_id (bs "tags") Read := []]> ∅)).

Definition ann : AuthPrincipal := mkPrincipal (bs "o'ann' AND") (bs "user") (bs "ann@x").

Definition row_sat_of (row : str -> option str) : str -> CmpOp -> str -> list str -> bool :=
  fun f op v vs =>
    match op, row f with
    | Eq_, Some x => bytes_eqb x v
    | In_, Some x => existsb (bytes_eqb x) vs
    | IsNull, None => true
    | IsNotNull, Some _ => true
    | _, _ => false
    end.

#[export] Instance row_sat_semantics row : RowSemantics (row_sat_of row).
Proof.
  split; [intros f; cbn; by destruct (row f)|]. intros f values _. cbn. destruct (row f); [done|]. by induction values.
Qed.

Definition notes_alternatives : list (list EnforcedCondition) :=
  [[ECmp (mkResolved (bs "owner") (bs "=") (bs "o'ann' AND"))]; [ECmp (mkResolved (bs "kind") (bs "=") (bs "shared note"))]].
Definition notes_conditions : list (list EnforcedCondition) :=
  [[ECmp (mkResolved (bs "owner") (bs "=") (bs "o'ann' AND")); InSet (bs "team") false [bs "red"; bs "blue"]]].
Definition notes_join : list str := bs <$> ["LEFT"; "JOIN"; "tags"; "t"; "ON"; "id"; "="; "note"; "LIMIT"; "10"]%string.
Definition notes_words : list str := [bs "name"; bs "="; bs "it's"; bs "OR"; bs "size"; bs ">"; bs "3"].
Definition notes_user : list WhereClause := [or_group [single (bs "name") Eq_ (bs "it's"); single (bs "size") Gt_ (bs "3")]].

Lemma words_by_evaluation s : s <> [] -> forallb (fun c => bool_decide (word_char c)) s = true -> word s.
Proof. intros Hn H. split; [done|]. apply Forall_forall. intros c Hc. apply forallb_forall with (x := c) in H; [by apply bool_decide_eq_true in H|by apply list_elem_of_In]. Qed.

Lemma grant_limits_reads_witness :
  let c := mkClauses (F32 := unit) [mkJoin true (bs "tags") (bs "t") (bs "id") (bs "note")] [] [] [] None None (Some 10) None in
  let srcs := [(bs "notes", Some (bs "notes")); (bs "tags", Some (bs "t"))] in
  exists ws, scope_table_query_read (F32 := unit) (fun _ => None) notes_grants ann (bs "notes") (Some (bs "size > 3")) notes_join = Returned (Ok (with_where ws c)) /\
    forall row, forallb (matches (row_sat_of row)) ws =
      forallb (matches (row_sat_of row)) [single (bs "size") Gt_ (bs "3")] && readable (row_sat_of row) srcs [notes_alternatives; [[]]].
Proof.
  destruct (grant_limits_reads (F32 := unit) (fun _ => None) notes_grants ann (bs "notes") (Some (bs "size > 3")) [single (bs "size") Gt_ (bs "3")] notes_join
    (mkClauses (F32 := unit) [mkJoin true (bs "tags") (bs "t") (bs "id") (bs "note")] [] [] [] None None (Some 10) None)
    [notes_alternatives; [[]]] [bs "notes.owner = 'o\'ann\' AND' OR notes.kind = 'shared note'"]) as (ws & Hq & Hm).
  - eexists. split; vm_compute; reflexivity.
  - vm_compute. reflexivity.
  - constructor; [|constructor; [|constructor]]; (split; [vm_compute; reflexivity|]).
    + split_and!; [done| |intros ? ? H; vm_compute in H; discriminate].
      repeat constructor; cbn; try (apply words_by_evaluation; vm_compute; done); apply (bool_decide_unpack _); vm_compute; exact I.
    + split_and!; [done| |intros ? ? H; vm_compute in H; discriminate]. repeat constructor.
  - vm_compute. reflexivity.
  - exists ws. split; [exact Hq|]. intros row. apply Hm, row_sat_semantics.
Defined.

(** A quote that the caller closes leaves the filter outside. *)
Lemma grant_limits_writes_witness :
  let text := bs "owner = 'o\'ann\' AND' AND team IN ( 'red' 'blue' )" in
  exists ws, write_conditions (bs "name = 'it\'s' OR size > 3") text = Ok ws /\
    forall row, forallb (matches (row_sat_of row)) ws =
      forallb (matches (row_sat_of row)) notes_user && allowed (row_sat_of row) None notes_conditions.
Proof.
  destruct (grant_limits_writes notes_grants ann (bs "notes") notes_conditions
    (bs "owner = 'o\'ann\' AND' AND team IN ( 'red' 'blue' )") (bs "name = 'it\'s' OR size > 3") notes_words notes_user) as (ws & Hq & Hm).
  - vm_compute. reflexivity.
  - split_and!; [done| |intros ? ? H; vm_compute in H; discriminate].
    repeat constructor; cbn; try (apply words_by_evaluation; vm_compute; done); apply (bool_decide_unpack _); vm_compute; exact I.
  - vm_compute. reflexivity.
  - vm_compute. reflexivity.
  - split; [done|]. intros t [= <-]. vm_compute. reflexivity.
  - vm_compute. reflexivity.
  - exists ws. split; [exact Hq|]. intros row. apply Hm, row_sat_semantics.
Defined.


End Access.
