(* ===== verification/Jsonb.v ===== *)
(** * Binary JSON ([src/src/jsonb.rs])

    Values of the column types JSON and ARRAY are encoded once, when they are written, into a flat
    binary with length prefixes. Reads walk the bytes by position: to follow a path, to search an array,
    or to render the value as text.

    A double is its bit pattern; its decimal text, its parsing, the conversion from an integer and the
    comparison up to an epsilon are parameters. Positions are integers ([usize]); every index is checked,
    as [slice::get] does. Walks take fuel, and with one more than the number of bytes they never meet it. *)

From S2P Require Import Prelude.
From S2P Require Import Where.
Local Open Scope Z_scope.

Module Jsonb.
Import Where.Where(split_by).

(** ** Values *)

(** [serde_json::Value]. A number that is an integer is in the range of [i64] or [u64]. *)
Inductive Value :=
| Null
| Bool (b : bool)
| Int (i : Z)
| Float (f : Z)
| String (s : bytes)
| Array (arr : list Value)
| Object (map : list (bytes * Value)).

Definition T_NULL : Z := 0.
Definition T_FALSE : Z := 1.
Definition T_TRUE : Z := 2.
Definition T_I64 : Z := 3.
Definition T_F64 : Z := 4.
Definition T_STR : Z := 5.
Definition T_ARRAY : Z := 6.
Definition T_OBJECT : Z := 7.

Section Doubles.

(** [as f64], [Number::from_f64] with [Display], [str::parse::<f64>], and [(n - f).abs() < EPSILON]. *)
Context (as_f64 : Z -> Z) (fmt_f64 : Z -> option bytes) (parse_f64 : bytes -> option Z) (near : Z -> Z -> bool).

(** ** Encoding *)

Definition u32_bytes (n : Z) : bytes := le_bytes 4 (as_u32 n).

Fixpoint encode (v : Value) : bytes :=
  match v with
  | Null => [T_NULL]
  | Bool false => [T_FALSE]
  | Bool true => [T_TRUE]
  | Int i => if in_i64 i then T_I64 :: le_bytes 8 i else T_F64 :: le_bytes 8 (as_f64 i)
  | Float f => T_F64 :: le_bytes 8 f
  | String s => T_STR :: u32_bytes (zlen s) ++ s
  | Array arr => T_ARRAY :: u32_bytes (zlen arr) ++ concat (map encode arr)
  | Object m => T_OBJECT :: u32_bytes (zlen m) ++ concat (map (fun kv => u32_bytes (zlen kv.1) ++ kv.1 ++ encode kv.2) m)
  end.

(** ** Reading *)

(** [b.get(pos)] and [b.get(s..e)]. *)
Definition get (b : bytes) (pos : Z) : option Z := if pos <? zlen b then b !! Z.to_nat pos else None.
Definition get_range (b : bytes) (s e : Z) : option bytes :=
  if (s <=? e) && (e <=? zlen b) then Some (slice b (Z.to_nat s) (Z.to_nat e)) else None.

Definition read_u32 (b : bytes) (pos : Z) : option (Z * Z) := s ← get_range b pos (pos + 4); Some (le_decode s, pos + 4).
Definition read_i64 (b : bytes) (pos : Z) : option (Z * Z) := s ← get_range b pos (pos + 8); Some (as_i64 (le_decode s), pos + 8).
Definition read_f64 (b : bytes) (pos : Z) : option (Z * Z) := s ← get_range b pos (pos + 8); Some (le_decode s, pos + 8).

(** [for _ in 0..count { p = f(p)?; }] *)
Fixpoint for_count (fuel : nat) (count : Z) (f : Z -> option Z) (p : Z) : option Z :=
  if count <=? 0 then Some p
  else match fuel with O => None | S fuel => p ← f p; for_count fuel (count - 1) f p end.

Fixpoint skip_at (fuel : nat) (b : bytes) (pos : Z) : option Z :=
  match fuel with
  | O => None
  | S fuel =>
      tag ← get b pos;
      let p := pos + 1 in
      if (tag =? T_NULL) || (tag =? T_FALSE) || (tag =? T_TRUE) then Some p
      else if (tag =? T_I64) || (tag =? T_F64) then Some (p + 8)
      else if tag =? T_STR then '(len, p) ← read_u32 b p; Some (p + len)
      else if tag =? T_ARRAY then '(count, p) ← read_u32 b p; for_count fuel count (skip_at fuel b) p
      else if tag =? T_OBJECT then
        '(count, p) ← read_u32 b p;
        for_count fuel count (fun p => '(klen, kp) ← read_u32 b p; skip_at fuel b (kp + klen)) p
      else None
  end.

Definition skip_value (b : bytes) (pos : Z) : option Z := skip_at (S (length b)) b pos.

Inductive JsonbRef :=
| RNull | RBool (b : bool) | RI64 (i : Z) | RF64 (f : Z) | RStr (s : bytes) | RArray (value : bytes) | RObject.

Inductive Resolve := Found (v : JsonbRef) | Absent | Invalid.

Definition from_utf8 (s : bytes) : option bytes := if is_utf8 s then Some s else None.

Definition value_at (b : bytes) (pos : Z) : option JsonbRef :=
  tag ← get b pos;
  let p := pos + 1 in
  if tag =? T_NULL then Some RNull
  else if tag =? T_FALSE then Some (RBool false)
  else if tag =? T_TRUE then Some (RBool true)
  else if tag =? T_I64 then '(i, _) ← read_i64 b p; Some (RI64 i)
  else if tag =? T_F64 then '(f, _) ← read_f64 b p; Some (RF64 f)
  else if tag =? T_STR then '(len, p) ← read_u32 b p; s ← get_range b p (p + len); s ← from_utf8 s; Some (RStr s)
  else if tag =? T_ARRAY then e ← skip_value b pos; s ← get_range b pos e; Some (RArray s)
  else if tag =? T_OBJECT then Some RObject
  else None.

(** The loops of [find_child]: [None] is [Err(())], [Some None] is [Ok(None)]. *)
Fixpoint find_key (fuel : nat) (count : Z) (b : bytes) (p : Z) (seg : bytes) : option (option Z) :=
  if count <=? 0 then Some None
  else match fuel with
       | O => None
       | S fuel =>
           '(klen, kp) ← read_u32 b p;
           key ← get_range b kp (kp + klen);
           let vpos := kp + klen in
           if bytes_eqb key seg then Some (Some vpos)
           else p ← skip_value b vpos; find_key fuel (count - 1) b p seg
       end.

Fixpoint find_index (fuel : nat) (i count : Z) (b : bytes) (p idx : Z) : option (option Z) :=
  if count <=? i then Some None
  else match fuel with
       | O => None
       | S fuel => if i =? idx then Some (Some p) else p ← skip_value b p; find_index fuel (i + 1) count b p idx
       end.

Definition find_child (b : bytes) (pos : Z) (seg : bytes) : option (option Z) :=
  tag ← get b pos;
  let p := pos + 1 in
  if tag =? T_OBJECT then '(count, p) ← read_u32 b p; find_key (S (length b)) count b p seg
  else if tag =? T_ARRAY then
    idx ← parse_u64 seg;
    '(count, p) ← read_u32 b p; find_index (S (length b)) 0 count b p idx
  else None.

(** The loop of [get_path] over the segments. *)
Fixpoint walk (b : bytes) (pos : Z) (segs : list bytes) : Resolve :=
  match segs with
  | [] => match value_at b pos with Some v => Found v | None => Invalid end
  | seg :: segs =>
      match find_child b pos seg with
      | Some (Some child) => walk b child segs
      | Some None => Absent
      | None => Invalid
      end
  end.

Definition get_path (b path : bytes) : Resolve := walk b 0 (split_by (Z.eqb 46) path []).

Definition scalar_eq_str (v : JsonbRef) (needle : bytes) : bool :=
  match v with
  | RStr s => bytes_eqb s needle
  | RI64 i => match parse_i64 needle with Some n => n =? i | None => false end
  | RF64 f => match parse_f64 needle with Some n => near n f | None => false end
  | RBool bl => bytes_eqb needle (if bl then bs "true" else bs "false")
  | _ => false
  end.

Definition is_null (v : JsonbRef) : bool := match v with RNull => true | _ => false end.

Fixpoint contains_loop (fuel : nat) (count : Z) (b : bytes) (p : Z) (needle : bytes) : bool :=
  if count <=? 0 then false
  else match fuel with
       | O => false
       | S fuel =>
           if match value_at b p with Some v => scalar_eq_str v needle | None => false end then true
           else match skip_value b p with Some np => contains_loop fuel (count - 1) b np needle | None => false end
       end.

Definition array_contains_at (b : bytes) (pos : Z) (needle : bytes) : bool :=
  if negb (bool_decide (get b pos = Some T_ARRAY)) then false
  else match read_u32 b (pos + 1) with
       | None => false
       | Some (count, p) => contains_loop (S (length b)) count b p needle
       end.

Definition array_contains (b needle : bytes) : bool := array_contains_at b 0 needle.

(** ** Rendering *)

Definition hex_digit (d : Z) : Z := if d <? 10 then 48 + d else 87 + d.

(** The escape of a byte, [None] when it is copied. *)
Definition escape (c : Z) : option bytes :=
  if c =? 34 then Some [92; 34]
  else if c =? 92 then Some [92; 92]
  else if c =? 10 then Some [92; 110]
  else if c =? 13 then Some [92; 114]
  else if c =? 9 then Some [92; 116]
  else if (0 <=? c) && (c <=? 31) then Some [92; 117; 48; 48; hex_digit (c / 16); hex_digit (c mod 16)]
  else None.

(** The loop of [write_json_str]: bytes from [start] on have not been copied yet. *)
Fixpoint str_loop (s : bytes) (rest : bytes) (i start : nat) (out : bytes) : bytes :=
  match rest with
  | [] => out ++ drop start s
  | c :: rest =>
      match escape c with
      | Some e => str_loop s rest (S i) (S i) (out ++ slice s start i ++ e)
      | None => str_loop s rest (S i) start out
      end
  end.

Definition write_json_str (s out : bytes) : bytes := str_loop s s 0 0 (out ++ [34]) ++ [34].

(** [for i in 0..count] with the text written so far; a failure leaves what was written. *)
Fixpoint write_items (fuel : nat) (i count : Z) (f : Z -> bytes -> option Z * bytes) (p : Z) (out : bytes) : option Z * bytes :=
  if count <=? i then (Some p, out)
  else match fuel with
       | O => (None, out)
       | S fuel =>
           match f p (if 0 <? i then out ++ bs "," else out) with
           | (Some p, out) => write_items fuel (i + 1) count f p out
           | (None, out) => (None, out)
           end
       end.

Definition write_close (close : string) (r : option Z * bytes) : option Z * bytes :=
  match r with (Some p, out) => (Some p, out ++ bs close) | r => r end.

Definition or_fail {A : Type} (o : option A) (out : bytes) (f : A -> option Z * bytes) : option Z * bytes :=
  match o with Some a => f a | None => (None, out) end.

Fixpoint write_at (fuel : nat) (b : bytes) (pos : Z) (out : bytes) : option Z * bytes :=
  match fuel with
  | O => (None, out)
  | S fuel =>
      or_fail (get b pos) out (fun tag =>
      let p := pos + 1 in
      if tag =? T_NULL then (Some p, out ++ bs "null")
      else if tag =? T_FALSE then (Some p, out ++ bs "false")
      else if tag =? T_TRUE then (Some p, out ++ bs "true")
      else if tag =? T_I64 then or_fail (read_i64 b p) out (fun '(i, p) => (Some p, out ++ fmt_i i))
      else if tag =? T_F64 then or_fail (read_f64 b p) out (fun '(f, p) => (Some p, out ++ default (bs "null") (fmt_f64 f)))
      else if tag =? T_STR then
        or_fail (read_u32 b p) out (fun '(len, p) =>
        or_fail (get_range b p (p + len) ≫= from_utf8) out (fun s => (Some (p + len), write_json_str s out)))
      else if tag =? T_ARRAY then
        or_fail (read_u32 b p) out (fun '(count, p) =>
        write_close "]" (write_items fuel 0 count (write_at fuel b) p (out ++ bs "[")))
      else if tag =? T_OBJECT then
        or_fail (read_u32 b p) out (fun '(count, p) =>
        write_close "}" (write_items fuel 0 count (fun p out =>
          or_fail (read_u32 b p) out (fun '(klen, kp) =>
          or_fail (get_range b kp (kp + klen) ≫= from_utf8) out (fun key =>
          write_at fuel b (kp + klen) (write_json_str key out ++ bs ":")))) p (out ++ bs "{")))
      else (None, out))
  end.

Definition to_json_string (b : bytes) : bytes := (write_at (S (length b)) b 0 []).2.

(** ** What the walks should give *)

Definition double_ok (f : Z) : bool := (0 <=? f) && (f <? u64_mod) && bool_decide (is_Some (fmt_f64 f)).
Definition text_ok (s : bytes) : bool := forallb (in_rng 0 255) s && is_utf8 s && (zlen s <? u32_mod).

(** A value of the program: integers in the range of [i64] or [u64], finite doubles, texts in UTF-8,
    lengths that fit their prefix. *)
Fixpoint valid (v : Value) : bool :=
  match v with
  | Null | Bool _ => true
  | Int i => in_i64 i || ((0 <=? i) && (i <? u64_mod) && double_ok (as_f64 i))
  | Float f => double_ok f
  | String s => text_ok s
  | Array arr => (zlen arr <? u32_mod) && forallb valid arr
  | Object m => (zlen m <? u32_mod) && forallb (fun kv => text_ok kv.1 && valid kv.2) m
  end.

(** An integer above [i64::MAX] is stored as a double. *)
Fixpoint stored (v : Value) : Value :=
  match v with
  | Int i => if in_i64 i then Int i else Float (as_f64 i)
  | Array arr => Array (map stored arr)
  | Object m => Object (map (fun kv => (kv.1, stored kv.2)) m)
  | v => v
  end.

(** The value that a path leads to. *)
Definition child (v : Value) (seg : bytes) : option (option Value) :=
  match v with
  | Object m => Some (snd <$> find (fun kv => bytes_eqb kv.1 seg) m)
  | Array arr => idx ← parse_u64 seg; Some (if idx <? zlen arr then arr !! Z.to_nat idx else None)
  | _ => None
  end.

Definition ref_of (v : Value) : JsonbRef :=
  match stored v with
  | Null => RNull
  | Bool b => RBool b
  | Int i => RI64 i
  | Float f => RF64 f
  | String s => RStr s
  | Array _ => RArray (encode v)
  | Object _ => RObject
  end.

Fixpoint resolve (v : Value) (segs : list bytes) : Resolve :=
  match segs with
  | [] => Found (ref_of v)
  | seg :: segs =>
      match child v seg with
      | Some (Some v) => resolve v segs
      | Some None => Absent
      | None => Invalid
      end
  end.

(** The text of a value. *)
Definition quote (s : bytes) : bytes := [34] ++ concat (map (fun c => default [c] (escape c)) s) ++ [34].

Fixpoint intersperse (l : list bytes) : bytes :=
  match l with
  | [] => []
  | [x] => x
  | x :: l => x ++ bs "," ++ intersperse l
  end.

Fixpoint print (v : Value) : bytes :=
  match v with
  | Null => bs "null"
  | Bool b => if b then bs "true" else bs "false"
  | Int i => fmt_i i
  | Float f => default (bs "null") (fmt_f64 f)
  | String s => quote s
  | Array arr => bs "[" ++ intersperse (map print arr) ++ bs "]"
  | Object m => bs "{" ++ intersperse (map (fun kv => quote kv.1 ++ bs ":" ++ print kv.2) m) ++ bs "}"
  end.

(** ** Induction on values *)

Lemma Value_induction (P : Value -> Prop) :
  P Null -> (forall b, P (Bool b)) -> (forall i, P (Int i)) -> (forall f, P (Float f)) -> (forall s, P (String s)) ->
  (forall arr, Forall P arr -> P (Array arr)) -> (forall m, Forall (fun kv => P kv.2) m -> P (Object m)) -> forall v, P v.
Proof.
  intros HN HB HI HF HS HA HO. fix go 1. intros [|b|i|f|s|arr|m]; [done|apply HB|apply HI|apply HF|apply HS|apply HA|apply HO].
  - induction arr as [|v arr IH]; [constructor|]. constructor; [apply go|exact IH].
  - induction m as [|[k v] m IH]; [constructor|]. constructor; [apply go|exact IH].
Qed.

(** ** Lemmas: bytes at a position *)

(** The bytes [w] stand at [pos]. *)
Definition at_pos (b : bytes) (pos : Z) (w : bytes) : Prop := exists pre post, b = pre ++ w ++ post /\ pos = zlen pre.

Lemma at_pos_app b pos w1 w2 : at_pos b pos (w1 ++ w2) -> at_pos b pos w1 /\ at_pos b (pos + zlen w1) w2.
Proof.
  intros (pre & post & -> & ->). split.
  - exists pre, (w2 ++ post). by rewrite <-!app_assoc.
  - exists (pre ++ w1), post. by rewrite <-!app_assoc, zlen_app.
Qed.

Lemma at_pos_cons b pos c w : at_pos b pos (c :: w) -> get b pos = Some c /\ at_pos b (pos + 1) w.
Proof.
  intros H. pose proof (at_pos_app b pos [c] w H) as [_ H2]. split; [|done]. destruct H as (pre & post & -> & ->). unfold get, zlen.
  rewrite Nat2Z.id, lookup_app_r, Nat.sub_diag by done. cbn [app lookup]. rewrite !length_app. cbn [length].
  match goal with |- context [?a <? ?b] => destruct (Z.ltb_spec a b) end; [done|lia].
Qed.

Lemma at_pos_range b pos w : at_pos b pos w -> get_range b pos (pos + zlen w) = Some w.
Proof.
  intros (pre & post & -> & ->). unfold get_range, zlen. rewrite !length_app.
  destruct (Z.leb_spec (Z.of_nat (length pre)) (Z.of_nat (length pre) + Z.of_nat (length w))); [|lia].
  destruct (Z.leb_spec (Z.of_nat (length pre) + Z.of_nat (length w)) (Z.of_nat (length pre + (length w + length post)))); [|lia]. cbn [andb].
  unfold slice. f_equal. rewrite Nat2Z.id, drop_app_length. replace (_ - _)%nat with (length w) by lia. apply take_app_length.
Qed.

Lemma at_pos_range_n b pos w n : at_pos b pos w -> zlen w = n -> get_range b pos (pos + n) = Some w.
Proof. intros H <-. by apply at_pos_range. Qed.

Lemma zlen_le_bytes n z : zlen (le_bytes n z) = Z.of_nat n.
Proof. unfold zlen. by rewrite length_le_bytes. Qed.

Lemma read_u32_at b pos n : at_pos b pos (u32_bytes n) -> 0 <= n < u32_mod -> read_u32 b pos = Some (n, pos + 4).
Proof.
  intros H Hn. unfold read_u32, u32_bytes in *. rewrite (at_pos_range_n b pos _ 4 H) by (by rewrite zlen_le_bytes). cbn [mbind option_bind].
  rewrite le_decode_le_bytes, as_u32_small by done. do 2 f_equal. apply Z.mod_small. exact Hn.
Qed.

Lemma double_range f : double_ok f = true -> 0 <= f < u64_mod.
Proof. intros [[? ?]%andb_true_iff _]%andb_true_iff. lia. Qed.

Lemma wide_double i : valid (Int i) = true -> in_i64 i = false -> double_ok (as_f64 i) = true.
Proof. cbn [valid]. intros H Hi. rewrite Hi in H. by apply andb_true_iff in H as [_ H]. Qed.

Lemma text_utf8 s : text_ok s = true -> is_utf8 s = true /\ zlen s < u32_mod.
Proof. intros [[_ ?]%andb_true_iff ?%Z.ltb_lt]%andb_true_iff. done. Qed.

Lemma read_f64_at b pos f : at_pos b pos (le_bytes 8 f) -> double_ok f = true -> read_f64 b pos = Some (f, pos + 8).
Proof.
  intros H Hf. unfold read_f64. rewrite (at_pos_range_n b pos _ 8 H) by (by rewrite zlen_le_bytes). cbn [mbind option_bind].
  by rewrite le_u64_roundtrip by (by apply double_range).
Qed.

Lemma read_i64_at b pos i : at_pos b pos (le_bytes 8 i) -> in_i64 i = true -> read_i64 b pos = Some (i, pos + 8).
Proof.
  intros H Hi. unfold read_i64. rewrite (at_pos_range_n b pos _ 8 H) by (by rewrite zlen_le_bytes). cbn [mbind option_bind].
  rewrite le_decode_le_bytes. do 2 f_equal. apply in_i64_spec in Hi. rewrite <-(as_i64_small i Hi) at 2. unfold as_i64.
  change (256 ^ Z.of_nat 8) with u64_mod. by rewrite Zminus_mod_idemp_l.
Qed.

(** ** Lemmas: walks over encoded values *)

Definition item (kv : bytes * Value) : bytes := u32_bytes (zlen kv.1) ++ kv.1 ++ encode kv.2.

Lemma encode_cons v : exists t w, encode v = t :: w.
Proof. destruct v as [|[]|i|f|s|arr|m]; cbn [encode]; try by eexists _, _. destruct (in_i64 i); by eexists _, _. Qed.

Lemma zlen_u32 n : zlen (u32_bytes n) = 4.
Proof. apply zlen_le_bytes. Qed.

(** A loop over the parts of a container, when every part is passed. *)
Lemma for_count_parts b (f : Z -> option Z) parts : forall fuel p,
  Forall (fun w => forall q, at_pos b q w -> f q = Some (q + zlen w)) parts -> at_pos b p (concat parts) -> (length parts <= fuel)%nat ->
  for_count fuel (zlen parts) f p = Some (p + zlen (concat parts)).
Proof.
  induction parts as [|w parts IH]; intros fuel p Hf Hp Hl.
  - destruct fuel; cbn; f_equal; unfold zlen; cbn; lia.
  - apply Forall_cons in Hf as [Hw Hf]. cbn [concat] in *. apply at_pos_app in Hp as [H1 H2]. destruct fuel as [|fuel]; [cbn in Hl; lia|].
    cbn [for_count]. rewrite zlen_cons. destruct (Z.leb_spec (1 + zlen parts) 0); [pose proof (zlen_nonneg parts); lia|].
    rewrite (Hw _ H1). cbn [mbind option_bind]. replace (1 + zlen parts - 1) with (zlen parts) by lia. rewrite IH; [|done|done|cbn in Hl; lia].
    f_equal. rewrite zlen_app. lia.
Qed.

Lemma parts_short {A : Type} (f : A -> bytes) (l : list A) : (forall a, f a <> []) -> (length l <= length (concat (map f l)))%nat.
Proof.
  intros Hf. induction l as [|a l IH]; cbn; [lia|]. rewrite length_app. specialize (Hf a). destruct (f a); [done|]. cbn. lia.
Qed.

Lemma encode_nonempty v : encode v <> [].
Proof. destruct (encode_cons v) as (t & w & ->). done. Qed.

Lemma item_nonempty kv : item kv <> [].
Proof. unfold item, u32_bytes. by cbn. Qed.

Lemma part_length (w : bytes) parts : w ∈ parts -> (length w <= length (concat parts))%nat.
Proof. induction 1 as [|w' parts H IH]; cbn; rewrite length_app; lia. Qed.

(** The walk over a value ends after it. *)
Definition skips (b : bytes) (v : Value) : Prop :=
  valid v = true -> forall fuel pos, (length (encode v) <= fuel)%nat -> at_pos b pos (encode v) -> skip_at fuel b pos = Some (pos + zlen (encode v)).

Lemma skip_array b arr : Forall (skips b) arr -> skips b (Array arr).
Proof.
  unfold skips at 2. cbn [valid encode]. intros IH Hv fuel pos Hl Hp. apply andb_true_iff in Hv as [Hn%Z.ltb_lt Hv]. destruct fuel; [cbn in Hl; lia|]. apply at_pos_cons in Hp as [Hg Hp].
  apply at_pos_app in Hp as [Hp Hq]. rewrite zlen_u32 in Hq. cbn [skip_at]. rewrite Hg, zlen_cons, zlen_app, zlen_u32. pose proof (zlen_nonneg arr).
  cbn [mbind option_bind]. change (T_ARRAY =? _) with false at 1. cbn. rewrite (read_u32_at b (pos + 1) (zlen arr)) by (done || lia). cbn [mbind option_bind].
  cbn [length] in Hl. rewrite length_app in Hl. pose proof (parts_short encode arr encode_nonempty).
  replace (zlen arr) with (zlen (map encode arr)) by (unfold zlen; by rewrite length_map). rewrite (for_count_parts b); [f_equal; lia| |done|rewrite length_map; lia].
  apply Forall_forall. intros w Hw q Hat. apply list_elem_of_fmap in Hw as Hw'. destruct Hw' as (v & -> & Hin). pose proof (part_length _ _ Hw).
  apply (proj1 (Forall_forall _ _) IH v Hin); [|lia|done]. apply forallb_forall with (x := v) in Hv; [done|by apply list_elem_of_In].
Qed.

Lemma skip_object b m : Forall (fun kv => skips b kv.2) m -> skips b (Object m).
Proof.
  unfold skips at 2. cbn [valid encode]. intros IH Hv fuel pos Hl Hp. apply andb_true_iff in Hv as [Hn%Z.ltb_lt Hv]. destruct fuel; [cbn in Hl; lia|]. apply at_pos_cons in Hp as [Hg Hp].
  apply at_pos_app in Hp as [Hp Hq]. rewrite zlen_u32 in Hq. cbn [skip_at]. rewrite Hg, zlen_cons, zlen_app, zlen_u32. pose proof (zlen_nonneg m).
  cbn. rewrite (read_u32_at b (pos + 1) (zlen m)) by (done || lia). cbn [mbind option_bind].
  cbn [length] in Hl. rewrite length_app in Hl. repeat match goal with |- context [map ?f m] => progress change f with item | H : context [map ?f m] |- _ => progress change f with item in H end.
  pose proof (parts_short item m item_nonempty).
  replace (zlen m) with (zlen (map item m)) by (unfold zlen; by rewrite length_map). rewrite (for_count_parts b); [f_equal; lia| |done|rewrite length_map; lia].
  apply Forall_forall. intros w Hw q Hat. apply list_elem_of_fmap in Hw as Hw'. destruct Hw' as (kv & -> & Hin). pose proof (part_length _ _ Hw) as Hpl.
  apply forallb_forall with (x := kv) in Hv; [|by apply list_elem_of_In]. apply andb_true_iff in Hv as [[_ Hk]%text_utf8 Hv].
  assert (length (encode kv.2) <= length (item kv))%nat by (unfold item; rewrite !length_app; lia). unfold item in Hat. apply at_pos_app in Hat as [Hk1 Hat]. apply at_pos_app in Hat as [_ Hat]. rewrite zlen_u32 in Hat. pose proof (zlen_nonneg kv.1).
  rewrite (read_u32_at b q (zlen kv.1)) by (done || lia). cbn [mbind option_bind].
  rewrite (proj1 (Forall_forall _ _) IH kv Hin Hv fuel); [f_equal; unfold item; rewrite !zlen_app, zlen_u32; lia|lia|done].
Qed.

Lemma skip_encoded b v : skips b v.
Proof.
  revert v. refine (Value_induction _ _ _ _ _ _ _ _); [..|intros arr; apply skip_array|intros m; apply skip_object]; unfold skips; cbn [valid encode].
  - intros _ fuel pos Hl Hp. destruct fuel; [cbn in Hl; lia|]. apply at_pos_cons in Hp as [Hg _]. cbn [skip_at]. by rewrite Hg.
  - intros [] _ fuel pos Hl Hp; (destruct fuel; [cbn in Hl; lia|]); apply at_pos_cons in Hp as [Hg _]; cbn [skip_at]; by rewrite Hg.
  - intros i _ fuel pos Hl Hp. destruct fuel; [destruct (in_i64 i); cbn in Hl; lia|]. destruct (in_i64 i); apply at_pos_cons in Hp as [Hg _]; cbn [skip_at];
      rewrite Hg, zlen_cons, zlen_le_bytes; cbn; f_equal; lia.
  - intros f _ fuel pos Hl Hp. destruct fuel; [cbn in Hl; lia|]. apply at_pos_cons in Hp as [Hg _]. cbn [skip_at]. rewrite Hg, zlen_cons, zlen_le_bytes; cbn; f_equal; lia.
  - intros s Hv fuel pos Hl Hp. apply text_utf8 in Hv as [_ Hs]. destruct fuel; [cbn in Hl; lia|]. apply at_pos_cons in Hp as [Hg Hp].
    apply at_pos_app in Hp as [Hp _]. cbn [skip_at]. rewrite Hg, zlen_cons, zlen_app, zlen_u32. cbn. pose proof (zlen_nonneg s).
    rewrite (read_u32_at b (pos + 1) (zlen s)) by (done || lia). cbn. f_equal. lia.
Qed.

Lemma at_pos_length b pos w : at_pos b pos w -> (length w <= length b)%nat.
Proof. intros (pre & post & -> & _). rewrite !length_app. lia. Qed.

Lemma skip_value_encoded b v pos : valid v = true -> at_pos b pos (encode v) -> skip_value b pos = Some (pos + zlen (encode v)).
Proof. intros Hv Hp. apply skip_encoded; [done| |done]. apply at_pos_length in Hp. lia. Qed.

Lemma value_at_encoded b v pos : valid v = true -> at_pos b pos (encode v) -> value_at b pos = Some (ref_of v).
Proof.
  intros Hv Hp. pose proof (skip_value_encoded b v pos Hv Hp) as Hs. pose proof (at_pos_range b pos _ Hp) as Hr. unfold value_at.
  destruct v as [|[]|i|f|s|arr|m]; cbn [encode valid] in *.
  - by apply at_pos_cons in Hp as [-> _].
  - by apply at_pos_cons in Hp as [-> _].
  - by apply at_pos_cons in Hp as [-> _].
  - destruct (in_i64 i) eqn:Ei; apply at_pos_cons in Hp as [-> Hp]; cbn; unfold ref_of; cbn [stored]; rewrite Ei.
    + by rewrite (read_i64_at b _ i).
    + apply andb_true_iff in Hv as [_ Hv]. by rewrite (read_f64_at b _ (as_f64 i)).
  - apply at_pos_cons in Hp as [-> Hp]. cbn. by rewrite (read_f64_at b _ f).
  - apply at_pos_cons in Hp as [-> Hp]. apply text_utf8 in Hv as [Hu Hl]. apply at_pos_app in Hp as [Hp Hq]. rewrite zlen_u32 in Hq. cbn.
    pose proof (zlen_nonneg s). rewrite (read_u32_at b _ (zlen s)) by (done || lia). cbn. rewrite (at_pos_range b _ s Hq). cbn. unfold from_utf8. by rewrite Hu.
  - apply at_pos_cons in Hp as [-> _]. cbn [mbind option_bind]. cbn -[skip_value]. rewrite Hs. cbn [mbind option_bind]. by rewrite Hr.
  - by apply at_pos_cons in Hp as [-> _].
Qed.

(** ** Paths *)

Lemma find_key_encoded b seg : forall m fuel p,
  forallb (fun kv => text_ok kv.1 && valid kv.2) m = true -> at_pos b p (concat (map item m)) -> (length m <= fuel)%nat ->
  match find (fun kv => bytes_eqb kv.1 seg) m with
  | None => find_key fuel (zlen m) b p seg = Some None
  | Some kv => exists pos, find_key fuel (zlen m) b p seg = Some (Some pos) /\ at_pos b pos (encode kv.2)
  end.
Proof.
  induction m as [|[k v] m IH]; intros fuel p Hv Hp Hl; [by destruct fuel|]. cbn [forallb fst snd] in Hv. apply andb_true_iff in Hv as [[[_ Hk]%text_utf8 Hv]%andb_true_iff Hm].
  cbn [map concat] in Hp. apply at_pos_app in Hp as [Hp Hrest]. assert (zlen (item (k, v)) = 4 + zlen k + zlen (encode v)) as Hil.
  { unfold item. cbn [fst snd]. rewrite !zlen_app, zlen_u32. lia. }
  unfold item in Hp. cbn [fst snd] in Hp. apply at_pos_app in Hp as [H1 Hp].
  apply at_pos_app in Hp as [H2 H3]. rewrite zlen_u32 in *. destruct fuel as [|fuel]; [cbn in Hl; lia|]. cbn [find find_key fst]. rewrite zlen_cons.
  pose proof (zlen_nonneg m). pose proof (zlen_nonneg k). destruct (Z.leb_spec (1 + zlen m) 0); [lia|].
  rewrite (read_u32_at b p (zlen k)) by (done || lia). cbn [mbind option_bind]. rewrite (at_pos_range b _ k H2). cbn [mbind option_bind].
  destruct (bytes_eqb k seg); [by eexists|]. rewrite (skip_value_encoded b v _ Hv H3). cbn [mbind option_bind].
  replace (1 + zlen m - 1) with (zlen m) by lia. replace (p + 4 + zlen k + zlen (encode v)) with (p + zlen (item (k, v))) by lia.
  apply IH; [done|done|cbn in Hl; lia].
Qed.

Lemma find_index_encoded b idx : forall arr fuel i p,
  0 <= i <= idx -> forallb valid arr = true -> at_pos b p (concat (map encode arr)) -> (length arr <= fuel)%nat ->
  match arr !! Z.to_nat (idx - i) with
  | None => find_index fuel i (i + zlen arr) b p idx = Some None
  | Some v => exists pos, find_index fuel i (i + zlen arr) b p idx = Some (Some pos) /\ at_pos b pos (encode v)
  end.
Proof.
  induction arr as [|v arr IH]; intros fuel i p Hi Hv Hp Hl.
  { rewrite lookup_nil. destruct fuel; cbn [find_index]; (destruct (Z.leb_spec (i + zlen (@nil Value)) i); [done|unfold zlen in *; cbn in *; lia]). }
  cbn [forallb] in Hv. apply andb_true_iff in Hv as [Hv Ha]. cbn [map concat] in Hp. apply at_pos_app in Hp as [H1 H2]. destruct fuel as [|fuel]; [cbn in Hl; lia|].
  cbn [find_index]. rewrite zlen_cons. pose proof (zlen_nonneg arr). destruct (Z.leb_spec (i + (1 + zlen arr)) i); [lia|].
  destruct (Z.eqb_spec i idx) as [->|Hne]; [rewrite Z.sub_diag; by eexists|]. rewrite (skip_value_encoded b v _ Hv H1). cbn [mbind option_bind].
  replace (Z.to_nat (idx - i)) with (S (Z.to_nat (idx - (i + 1)))) by lia. cbn [lookup list_lookup]. replace (i + (1 + zlen arr)) with ((i + 1) + zlen arr) by lia.
  apply IH; [lia|done|done|cbn in Hl; lia].
Qed.

Lemma find_child_encoded b v pos seg : valid v = true -> at_pos b pos (encode v) ->
  match child v seg with
  | None => find_child b pos seg = None
  | Some None => find_child b pos seg = Some None
  | Some (Some w) => valid w = true /\ exists p, find_child b pos seg = Some (Some p) /\ at_pos b p (encode w)
  end.
Proof.
  intros Hv Hp. pose proof (at_pos_length _ _ _ Hp) as Hb. unfold find_child. destruct v as [|[]|i|f|s|arr|m]; cbn [encode valid child] in *.
  1-3, 5-6: by apply at_pos_cons in Hp as [-> _].
  - destruct (in_i64 i); by apply at_pos_cons in Hp as [-> _].
  - apply at_pos_cons in Hp as [-> Hp]. apply at_pos_app in Hp as [H1 H2]. rewrite zlen_u32 in H2. apply andb_true_iff in Hv as [Hn%Z.ltb_lt Hv]. cbn [mbind option_bind].
    change (T_ARRAY =? T_OBJECT) with false. cbv iota. change (T_ARRAY =? T_ARRAY) with true. cbv iota. destruct (parse_u64 seg) as [idx|] eqn:Ei; [|done]. cbn [mbind option_bind].
    pose proof (zlen_nonneg arr). rewrite (read_u32_at b _ (zlen arr)) by (done || lia). cbn [mbind option_bind].
    pose proof (parts_short encode arr encode_nonempty). cbn [length] in Hb. rewrite length_app in Hb.
    assert (0 <= idx) as Hidx.
    { by eapply parse_u64_nonneg. }
    pose proof (find_index_encoded b idx arr (S (length b)) 0 (pos + 1 + 4) ltac:(lia) Hv H2 ltac:(lia)) as Hf. rewrite Z.sub_0_r in Hf.
    destruct (Z.ltb_spec idx (zlen arr)).
    + destruct (arr !! Z.to_nat idx) as [w|] eqn:El; [|apply lookup_ge_None in El; unfold zlen in *; lia]. split; [|exact Hf].
      apply forallb_forall with (x := w) in Hv; [done|]. apply list_elem_of_In. by eapply list_elem_of_lookup_2.
    + rewrite lookup_ge_None_2 in Hf by (unfold zlen in *; lia). exact Hf.
  - apply at_pos_cons in Hp as [-> Hp]. apply at_pos_app in Hp as [H1 H2]. rewrite zlen_u32 in H2. apply andb_true_iff in Hv as [Hn%Z.ltb_lt Hv]. cbn [mbind option_bind].
    change (T_OBJECT =? T_OBJECT) with true. cbv iota. pose proof (zlen_nonneg m). rewrite (read_u32_at b _ (zlen m)) by (done || lia). cbn [mbind option_bind].
    cbn [length] in Hb. rewrite length_app in Hb. match type of H2 with context [map ?f m] => change f with item in H2; change f with item in Hb end.
    pose proof (parts_short item m item_nonempty).
    pose proof (find_key_encoded b seg m (S (length b)) (pos + 1 + 4) Hv H2 ltac:(lia)) as Hf. destruct (find _ m) as [kv|] eqn:Ef; [|done]. cbn [fmap option_fmap option_map].
    split; [|exact Hf]. apply find_some in Ef as [Hin _]. apply forallb_forall with (x := kv) in Hv; [|done]. by apply andb_true_iff in Hv as [_ Hv].
Qed.

Lemma walk_encoded b segs : forall v pos, valid v = true -> at_pos b pos (encode v) -> walk b pos segs = resolve v segs.
Proof.
  induction segs as [|seg segs IH]; intros v pos Hv Hp; cbn [walk resolve].
  - by rewrite (value_at_encoded b v pos).
  - pose proof (find_child_encoded b v pos seg Hv Hp) as Hc. destruct (child v seg) as [[w|]|]; [|by rewrite Hc..].
    destruct Hc as (Hw & p & -> & Hat). by apply IH.
Qed.

Lemma at_pos_whole w : at_pos w 0 w.
Proof. exists [], []. by rewrite app_nil_r. Qed.

(** C37. A path into a stored value. Following a dotted path through the bytes that encode a value gives
    what following it through the value gives: the scalar at its end, the bytes of an array at its end,
    that it ends at an object, that a key or an index is missing, or that it goes through a scalar or
    through an array with a segment that is not a number. An integer above [i64::MAX] is seen as a double. *)
Theorem get_path_correct v path : valid v = true -> get_path (encode v) path = resolve v (split_by (Z.eqb 46) path []).
Proof using fmt_f64. intros Hv. apply walk_encoded; [done|apply at_pos_whole]. Qed.

(** ** Arrays *)

Lemma contains_encoded b needle : forall arr fuel p,
  forallb valid arr = true -> at_pos b p (concat (map encode arr)) -> (length arr <= fuel)%nat ->
  contains_loop fuel (zlen arr) b p needle = existsb (fun w => scalar_eq_str (ref_of w) needle) arr.
Proof.
  induction arr as [|v arr IH]; intros fuel p Hv Hp Hl; [by destruct fuel|]. cbn [forallb] in Hv. apply andb_true_iff in Hv as [Hv Ha].
  cbn [map concat] in Hp. apply at_pos_app in Hp as [H1 H2]. destruct fuel as [|fuel]; [cbn in Hl; lia|]. cbn [contains_loop existsb]. rewrite zlen_cons.
  pose proof (zlen_nonneg arr). destruct (Z.leb_spec (1 + zlen arr) 0); [lia|]. rewrite (value_at_encoded b v p Hv H1).
  destruct (scalar_eq_str (ref_of v) needle); [done|]. rewrite (skip_value_encoded b v p Hv H1). replace (1 + zlen arr - 1) with (zlen arr) by lia.
  apply IH; [done|done|cbn in Hl; lia].
Qed.

Lemma array_contains_at_encoded b v pos needle : valid v = true -> at_pos b pos (encode v) ->
  array_contains_at b pos needle = match v with Array arr => existsb (fun w => scalar_eq_str (ref_of w) needle) arr | _ => false end.
Proof.
  intros Hv Hp. pose proof (at_pos_length _ _ _ Hp) as Hb. unfold array_contains_at. destruct v as [|[]|i|f|s|arr|m]; cbn [encode valid] in *.
  1-3, 5-6, 8: apply at_pos_cons in Hp as [-> _]; by rewrite bool_decide_eq_false_2.
  - destruct (in_i64 i); apply at_pos_cons in Hp as [-> _]; by rewrite bool_decide_eq_false_2.
  - apply at_pos_cons in Hp as [-> Hp]. rewrite bool_decide_eq_true_2 by done. cbn [negb]. apply at_pos_app in Hp as [H1 H2]. rewrite zlen_u32 in H2.
    apply andb_true_iff in Hv as [Hn%Z.ltb_lt Hv]. pose proof (zlen_nonneg arr). rewrite (read_u32_at b _ (zlen arr)) by (done || lia).
    apply contains_encoded; [done|done|]. pose proof (parts_short encode arr encode_nonempty). cbn [length] in Hb. rewrite length_app in Hb. lia.
Qed.

(** Searching a stored array. The scan of the bytes finds a text exactly if the value is an array
    with an element, a scalar, that equals the text as the queries compare them. *)
Theorem array_contains_correct v needle : valid v = true ->
  array_contains (encode v) needle = match v with Array arr => existsb (fun w => scalar_eq_str (ref_of w) needle) arr | _ => false end.
Proof. intros Hv. apply array_contains_at_encoded; [done|apply at_pos_whole]. Qed.

(** ** Text *)

Lemma slice_prefix {A : Type} (p r : list A) start : (start <= length p)%nat -> slice (p ++ r) start (length p) = drop start p.
Proof. intros H. unfold slice. rewrite drop_app_le by done. apply take_app_length'. by rewrite length_drop. Qed.

Lemma str_loop_spec s : forall rest pre start out, s = pre ++ rest -> (start <= length pre)%nat ->
  str_loop s rest (length pre) start out = out ++ drop start pre ++ concat (map (fun c => default [c] (escape c)) rest).
Proof.
  induction rest as [|c rest IH]; intros pre start out Hs Hl; cbn [str_loop].
  - cbn. by rewrite Hs, !app_nil_r.
  - cbn [map concat]. assert (s = (pre ++ [c]) ++ rest) as E by (by rewrite <-app_assoc). assert (S (length pre) = length (pre ++ [c])) as El by (rewrite length_app; cbn; lia).
    destruct (escape c) as [e|] eqn:Ee; cbn [default]; rewrite El, (IH (pre ++ [c])) by (done || lia).
    + rewrite drop_all. rewrite Hs at 1. rewrite slice_prefix by done. by rewrite <-!app_assoc.
    + rewrite drop_app_le by done. by rewrite <-!app_assoc.
Qed.

Lemma write_json_str_spec s out : write_json_str s out = out ++ quote s.
Proof. unfold write_json_str, quote. rewrite (str_loop_spec s s [] 0) by done. by rewrite <-!app_assoc. Qed.

(** The loop over the parts of a container, when every part is written. *)
Lemma write_items_parts b (f : Z -> bytes -> option Z * bytes) (l : list (bytes * bytes)) : forall fuel i p out,
  0 <= i -> Forall (fun wt => forall q o, at_pos b q wt.1 -> f q o = (Some (q + zlen wt.1), o ++ wt.2)) l -> at_pos b p (concat (map fst l)) -> (length l <= fuel)%nat ->
  write_items fuel i (i + zlen l) f p out =
  (Some (p + zlen (concat (map fst l))), out ++ (if (0 <? i) && negb (bool_decide (l = [])) then bs "," else []) ++ intersperse (map snd l)).
Proof.
  induction l as [|[w t] l IH]; intros fuel i p out Hi Hf Hp Hl.
  - rewrite bool_decide_eq_true_2 by done. destruct fuel; cbn [write_items]; (destruct (Z.leb_spec (i + zlen (@nil (bytes * bytes))) i); [|unfold zlen in *; cbn in *; lia]);
      rewrite andb_false_r; cbn; rewrite !app_nil_r; f_equal; f_equal; unfold zlen; cbn; lia.
  - apply Forall_cons in Hf as [Hw Hf]. cbn [map concat fst snd] in *. apply at_pos_app in Hp as [H1 H2]. destruct fuel as [|fuel]; [cbn in Hl; lia|].
    cbn [write_items]. rewrite zlen_cons. pose proof (zlen_nonneg l). destruct (Z.leb_spec (i + (1 + zlen l)) i); [lia|]. rewrite (Hw _ _ H1).
    replace (i + (1 + zlen l)) with ((i + 1) + zlen l) by lia. rewrite IH; [|lia|done|done|cbn in Hl; lia]. rewrite zlen_app, Z.add_assoc. f_equal.
    rewrite (bool_decide_eq_false_2 (_ :: _ = [])) by done. rewrite andb_true_r. destruct (Z.ltb_spec 0 (i + 1)); [|lia].
    destruct l as [|[w' t'] l]; [rewrite bool_decide_eq_true_2 by done|rewrite bool_decide_eq_false_2 by done]; cbn [map snd intersperse negb andb].
    + destruct (0 <? i); cbn; rewrite ?app_nil_r, <-?app_assoc; done.
    + destruct (0 <? i); rewrite <-!app_assoc; done.
Qed.

(** A value is written as its text. *)
Definition writes (b : bytes) (v : Value) : Prop :=
  valid v = true -> forall fuel pos out, (length (encode v) <= fuel)%nat -> at_pos b pos (encode v) ->
  write_at fuel b pos out = (Some (pos + zlen (encode v)), out ++ print (stored v)).

Lemma write_array b arr : Forall (writes b) arr -> writes b (Array arr).
Proof.
  unfold writes at 2. intros IH Hv fuel pos out Hl Hp. cbn [encode valid stored print] in *. apply andb_true_iff in Hv as [Hn%Z.ltb_lt Hv]. destruct fuel; [cbn in Hl; lia|].
  apply at_pos_cons in Hp as [Hg Hp]. apply at_pos_app in Hp as [Hp Hq]. rewrite zlen_u32 in Hq. cbn [write_at]. rewrite Hg, zlen_cons, zlen_app, zlen_u32. pose proof (zlen_nonneg arr).
  cbn [or_fail]. change (T_ARRAY =? T_ARRAY) with true. cbn -[write_items]. rewrite (read_u32_at b (pos + 1) (zlen arr)) by (done || lia). cbn [or_fail].
  cbn [length] in Hl. rewrite length_app in Hl. pose proof (parts_short encode arr encode_nonempty).
  set (l := map (fun v => (encode v, print (stored v))) arr). assert (map fst l = map encode arr) as E1 by (unfold l; by rewrite map_map).
  assert (map snd l = map print (map stored arr)) as E2 by (unfold l; by rewrite !map_map).
  replace (zlen arr) with (0 + zlen l) by (unfold zlen, l; by rewrite length_map). rewrite (write_items_parts b); [|lia| |by rewrite E1|unfold l; rewrite length_map; lia].
  { cbn [write_close]. rewrite E1, E2. cbn. rewrite <-!app_assoc. do 2 f_equal. lia. }
  apply Forall_forall. intros wt Hw q o Hat. apply list_elem_of_fmap in Hw as (v & -> & Hin). cbn [fst snd] in *.
  assert (length (encode v) <= length (concat (map encode arr)))%nat by (apply part_length, list_elem_of_fmap; by exists v).
  apply (proj1 (Forall_forall _ _) IH v Hin); [|lia|done]. apply forallb_forall with (x := v) in Hv; [done|by apply list_elem_of_In].
Qed.

Lemma write_object b m : Forall (fun kv => writes b kv.2) m -> writes b (Object m).
Proof.
  unfold writes at 2. intros IH Hv fuel pos out Hl Hp. cbn [encode valid stored print] in *. apply andb_true_iff in Hv as [Hn%Z.ltb_lt Hv]. destruct fuel; [cbn in Hl; lia|].
  apply at_pos_cons in Hp as [Hg Hp]. apply at_pos_app in Hp as [Hp Hq]. rewrite zlen_u32 in Hq. cbn [write_at]. rewrite Hg, zlen_cons, zlen_app, zlen_u32. pose proof (zlen_nonneg m).
  cbn [or_fail]. change (T_OBJECT =? T_OBJECT) with true. cbn -[write_items]. rewrite (read_u32_at b (pos + 1) (zlen m)) by (done || lia). cbn [or_fail].
  cbn [length] in Hl. rewrite length_app in Hl.
  repeat match goal with |- context [zlen (concat (map ?f m))] => progress change f with item | H : context [concat (map ?f m)] |- _ => progress change f with item in H end.
  pose proof (parts_short item m item_nonempty).
  set (l := map (fun kv => (item kv, quote kv.1 ++ bs ":" ++ print (stored kv.2))) m). assert (map fst l = map item m) as E1 by (unfold l; by rewrite map_map).
  assert (map snd l = map (fun kv => quote kv.1 ++ bs ":" ++ print kv.2) (map (fun kv => (kv.1, stored kv.2)) m)) as E2 by (unfold l; by rewrite !map_map).
  replace (zlen m) with (0 + zlen l) by (unfold zlen, l; by rewrite length_map). rewrite (write_items_parts b); [|lia| |by rewrite E1|unfold l; rewrite length_map; lia].
  { cbn [write_close]. rewrite E1, E2. cbn. rewrite <-!app_assoc. do 2 f_equal. lia. }
  apply Forall_forall. intros wt Hw q o Hat. apply list_elem_of_fmap in Hw as (kv & -> & Hin). cbn [fst snd] in *.
  assert (length (item kv) <= length (concat (map item m)))%nat by (apply part_length, list_elem_of_fmap; by exists kv).
  apply forallb_forall with (x := kv) in Hv; [|by apply list_elem_of_In]. apply andb_true_iff in Hv as [[Hu Hk]%text_utf8 Hv].
  assert (length (encode kv.2) <= length (item kv))%nat by (unfold item; rewrite !length_app; lia).
  assert (zlen (item kv) = 4 + zlen kv.1 + zlen (encode kv.2)) as -> by (unfold item; rewrite !zlen_app, zlen_u32; lia).
  unfold item in Hat. apply at_pos_app in Hat as [Hat1 Hat]. apply at_pos_app in Hat as [Hat2 Hat]. rewrite zlen_u32 in *. pose proof (zlen_nonneg kv.1).
  rewrite (read_u32_at b q (zlen kv.1)) by (done || lia). cbn [or_fail]. rewrite (at_pos_range b _ kv.1 Hat2). cbn [mbind option_bind].
  unfold from_utf8. rewrite Hu. cbn [or_fail]. rewrite write_json_str_spec, (proj1 (Forall_forall _ _) IH kv Hin Hv fuel) by (done || lia).
  rewrite <-!app_assoc. do 2 f_equal. lia.
Qed.

Lemma write_encoded b v : writes b v.
Proof.
  revert v. refine (Value_induction _ _ _ _ _ _ _ _).
  - intros _ fuel pos out Hl Hp. destruct fuel; [cbn in Hl; lia|]. apply at_pos_cons in Hp as [Hg _]. cbn [write_at]. by rewrite Hg.
  - intros [] _ fuel pos out Hl Hp; (destruct fuel; [cbn in Hl; lia|]); apply at_pos_cons in Hp as [Hg _]; cbn [write_at]; by rewrite Hg.
  - intros i Hv fuel pos out Hl Hp. cbn [encode stored] in *. destruct fuel; [destruct (in_i64 i); cbn in Hl; lia|].
    destruct (in_i64 i) eqn:Ei; apply at_pos_cons in Hp as [Hg Hp]; cbn [write_at]; rewrite Hg, zlen_cons, zlen_le_bytes; cbn.
    + rewrite (read_i64_at b _ i) by done. cbn. do 2 f_equal. lia.
    + rewrite (read_f64_at b _ (as_f64 i)) by (done || by apply wide_double). cbn. do 2 f_equal. lia.
  - intros f Hv fuel pos out Hl Hp. cbn [encode stored] in *. destruct fuel; [cbn in Hl; lia|].
    apply at_pos_cons in Hp as [Hg Hp]; cbn [write_at]; rewrite Hg, zlen_cons, zlen_le_bytes; cbn. rewrite (read_f64_at b _ f) by done. cbn. do 2 f_equal. lia.
  - intros s Hv fuel pos out Hl Hp. cbn [encode valid stored print] in *. apply text_utf8 in Hv as [Hu Hs]. destruct fuel; [cbn in Hl; lia|].
    apply at_pos_cons in Hp as [Hg Hp]. apply at_pos_app in Hp as [Hp Hq]. rewrite zlen_u32 in Hq. cbn [write_at]. rewrite Hg, zlen_cons, zlen_app, zlen_u32. cbn.
    pose proof (zlen_nonneg s). rewrite (read_u32_at b (pos + 1) (zlen s)) by (done || lia). cbn [or_fail]. rewrite (at_pos_range b _ s Hq). cbn [mbind option_bind].
    unfold from_utf8. rewrite Hu. cbn [or_fail]. rewrite write_json_str_spec. do 2 f_equal. lia.
  - intros arr. apply write_array.
  - intros m. apply write_object.
Qed.

Lemma to_json_string_encoded v : valid v = true -> to_json_string (encode v) = print (stored v).
Proof. intros Hv. unfold to_json_string. rewrite (write_encoded _ v) by (done || lia || apply at_pos_whole). done. Qed.

(** ** A reader of JSON text *)

(** The contents of a text up to its closing quote. *)
Definition unhex (c : Z) : option Z :=
  if is_ascii_digit c then Some (c - 48) else if in_rng 97 102 c then Some (c - 87) else None.

Fixpoint read_str (s : bytes) : option (bytes * bytes) :=
  match s with
  | [] => None
  | c :: s =>
      if c =? 34 then Some ([], s)
      else if c =? 92 then
        match s with
        | e :: s =>
            if e =? 117 then
              match s with
              | h1 :: h2 :: h3 :: h4 :: s =>
                  d1 ← unhex h1; d2 ← unhex h2; d3 ← unhex h3; d4 ← unhex h4;
                  let code := ((d1 * 16 + d2) * 16 + d3) * 16 + d4 in
                  if code <? 128 then '(t, s) ← read_str s; Some (code :: t, s) else None
              | _ => None
              end
            else
              d ← (if e =? 34 then Some 34 else if e =? 92 then Some 92 else if e =? 110 then Some 10
                   else if e =? 114 then Some 13 else if e =? 116 then Some 9 else None);
              '(t, s) ← read_str s; Some (d :: t, s)
        | [] => None
        end
      else if c <? 32 then None
      else '(t, s) ← read_str s; Some (c :: t, s)
  end.

Definition integer_char (c : Z) : bool := is_ascii_digit c || (c =? 45).
Definition number_char (c : Z) : bool := integer_char c || (c =? 43) || (c =? 46) || (c =? 69) || (c =? 101).

Fixpoint span (f : Z -> bool) (s : bytes) : bytes * bytes :=
  match s with
  | c :: r => if f c then let '(t, r) := span f r in (c :: t, r) else ([], s)
  | [] => ([], [])
  end.

Definition read_number (s : bytes) : option (Value * bytes) :=
  let '(t, rest) := span number_char s in
  v ← (if forallb integer_char t then Int <$> parse_i64 t else Float <$> parse_f64 t); Some (v, rest).

(** One or more items, separated by commas, up to [close]. *)
Fixpoint read_list {A : Type} (fuel : nat) (close : Z) (f : bytes -> option (A * bytes)) (s : bytes) : option (list A * bytes) :=
  match fuel with
  | O => None
  | S fuel =>
      '(a, s) ← f s;
      match s with
      | c :: s => if c =? 44 then '(l, s) ← read_list fuel close f s; Some (a :: l, s) else if c =? close then Some ([a], s) else None
      | [] => None
      end
  end.

Definition read_items {A : Type} (fuel : nat) (close : Z) (f : bytes -> option (A * bytes)) (s : bytes) : option (list A * bytes) :=
  match s with
  | c :: r => if c =? close then Some ([], r) else read_list fuel close f s
  | [] => None
  end.

Definition read_member (f : bytes -> option (Value * bytes)) (s : bytes) : option (bytes * Value * bytes) :=
  match s with
  | c :: s => if c =? 34 then
                '(k, s) ← read_str s;
                match s with c :: s => if c =? 58 then '(v, s) ← f s; Some ((k, v), s) else None | [] => None end
              else None
  | [] => None
  end.

Fixpoint read_json (fuel : nat) (s : bytes) : option (Value * bytes) :=
  match fuel, s with
  | S fuel, c :: r =>
      if starts_with s (bs "null") then Some (Null, drop 4 s)
      else if starts_with s (bs "true") then Some (Bool true, drop 4 s)
      else if starts_with s (bs "false") then Some (Bool false, drop 5 s)
      else if c =? 34 then '(t, r) ← read_str r; Some (String t, r)
      else if c =? 91 then '(l, r) ← read_items fuel 93 (read_json fuel) r; Some (Array l, r)
      else if c =? 123 then '(l, r) ← read_items fuel 125 (read_member (read_json fuel)) r; Some (Object l, r)
      else read_number s
  | _, _ => None
  end.

(** What the decimal text of a double promises: it is a number with a point or an exponent, and parsing
    it gives the double back. *)
Class DoubleText : Prop := {
  double_text : forall f t, fmt_f64 f = Some t ->
    Forall (fun c => number_char c = true) t /\ forallb integer_char t = false /\ parse_f64 t = Some f
}.

(** ** Lemmas: reading what was written *)

Lemma read_str_quoted s : forall rest, forallb (in_rng 0 255) s = true -> read_str (concat (map (fun c => default [c] (escape c)) s) ++ 34 :: rest) = Some (s, rest).
Proof.
  induction s as [|c s IH]; intros rest H; [done|]. cbn [forallb] in H. apply andb_true_iff in H as [Hc H]. specialize (IH rest H). cbn [map concat]. rewrite <-app_assoc.
  revert IH. generalize (concat (map (fun c => default [c] (escape c)) s) ++ 34 :: rest). intros tail IH.
  assert (0 <= c <= 255) as Hr by (unfold in_rng in Hc; lia). unfold escape.
  destruct (Z.eqb_spec c 34) as [->|H34]; [cbn; by rewrite IH|]. destruct (Z.eqb_spec c 92) as [->|H92]; [cbn; by rewrite IH|].
  destruct (Z.eqb_spec c 10) as [->|H10]; [cbn; by rewrite IH|]. destruct (Z.eqb_spec c 13) as [->|H13]; [cbn; by rewrite IH|].
  destruct (Z.eqb_spec c 9) as [->|H9]; [cbn; by rewrite IH|]. destruct ((0 <=? c) && (c <=? 31)) eqn:E31.
  - apply andb_true_iff in E31 as [_ Hle%Z.leb_le]. cbn [default id app].
    assert (unhex (hex_digit (c / 16)) = Some (c / 16) /\ unhex (hex_digit (c mod 16)) = Some (c mod 16)) as [E1 E2].
    { pose proof (Z.mod_pos_bound c 16 ltac:(lia)). assert (0 <= c / 16 <= 1) by (split; [apply Z.div_pos; lia|apply Z.lt_succ_r, Z.div_lt_upper_bound; lia]).
      assert (forall d, 0 <= d < 16 -> unhex (hex_digit d) = Some d) as Hd; [|split; apply Hd; lia]. intros d Hd. unfold unhex, hex_digit, is_ascii_digit, in_rng.
      destruct (Z.ltb_spec d 10); case_tests; zbool; f_equal; lia. }
    cbn [read_str]. change (92 =? 34) with false. change (92 =? 92) with true. change (117 =? 117) with true. cbv iota. change (unhex 48) with (Some 0). cbn [mbind option_bind].
    rewrite E1. cbn [mbind option_bind]. rewrite E2. cbn [mbind option_bind]. replace (((0 * 16 + 0) * 16 + c / 16) * 16 + c mod 16) with c by (pose proof (Z.div_mod c 16); lia).
    destruct (Z.ltb_spec c 128); [|lia]. by rewrite IH.
  - cbn [default id app read_str]. destruct (Z.eqb_spec c 34); [done|]. destruct (Z.eqb_spec c 92); [done|]. destruct (Z.ltb_spec c 32); [|by rewrite IH].
    apply andb_false_iff in E31. zbool. lia.
Qed.

Lemma quote_app s rest : quote s ++ rest = 34 :: concat (map (fun c => default [c] (escape c)) s) ++ 34 :: rest.
Proof. unfold quote. by rewrite <-!app_assoc. Qed.

Lemma span_app f t rest : Forall (fun c => f c = true) t -> match rest with c :: _ => f c = false | [] => True end -> span f (t ++ rest) = (t, rest).
Proof.
  intros Ht Hr. induction Ht as [|c t Hc _ IH]; cbn [app].
  - destruct rest as [|c rest]; [done|]. cbn. by rewrite Hr.
  - cbn. by rewrite Hc, IH.
Qed.

Definition ends_number (rest : bytes) : Prop := match rest with c :: _ => number_char c = false | [] => True end.

(** A text that does not begin with a word. *)
Lemma read_json_head fuel c r : c <> 110 -> c <> 116 -> c <> 102 ->
  read_json (S fuel) (c :: r) =
  if c =? 34 then '(t, r) ← read_str r; Some (String t, r)
  else if c =? 91 then '(l, r) ← read_items fuel 93 (read_json fuel) r; Some (Array l, r)
  else if c =? 123 then '(l, r) ← read_items fuel 125 (read_member (read_json fuel)) r; Some (Object l, r)
  else read_number (c :: r).
Proof.
  intros H1 H2 H3. assert (forall k w, c <> k -> starts_with (c :: r) (k :: w) = false) as Hs.
  { intros k w Hk. unfold starts_with. cbn [length take]. apply bytes_eqb_neq. by intros [= -> _]. }
  cbn [read_json]. rewrite (Hs 110 (bs "ull") H1 : starts_with (c :: r) (bs "null") = false).
  by rewrite (Hs 116 (bs "rue") H2 : starts_with (c :: r) (bs "true") = false), (Hs 102 (bs "alse") H3 : starts_with (c :: r) (bs "false") = false).
Qed.

Lemma read_json_number fuel c r : number_char c = true -> read_json (S fuel) (c :: r) = read_number (c :: r).
Proof.
  intros Hc. assert (forall k, number_char k = false -> c <> k) as Hk by (intros k Hk ->; congruence).
  rewrite read_json_head by (by apply Hk). by rewrite !(proj2 (Z.eqb_neq c _)) by (by apply Hk).
Qed.

Lemma fmt_i_integer i : fmt_i i <> [] /\ Forall (fun c => integer_char c = true) (fmt_i i).
Proof.
  assert (forall n, Forall (fun c => integer_char c = true) (fmt_u n)) as Hu.
  { intros n. eapply Forall_impl; [apply fmt_u_digits|]. intros c Hc. unfold integer_char. by rewrite Hc. }
  unfold fmt_i. destruct (Z.ltb_spec i 0); [split; [done|by constructor]|]. split; [apply fmt_u_nonempty; lia|done].
Qed.

Lemma integer_number c : integer_char c = true -> number_char c = true.
Proof. unfold number_char. by intros ->. Qed.

(** Numbers are read back. *)
Lemma read_number_text fuel t rest v :
  t <> [] -> Forall (fun c => number_char c = true) t -> ends_number rest ->
  (if forallb integer_char t then Int <$> parse_i64 t else Float <$> parse_f64 t) = Some v -> read_json (S fuel) (t ++ rest) = Some (v, rest).
Proof.
  intros Hn Ht Hr Hv. destruct t as [|c t]; [done|]. change ((c :: t) ++ rest) with (c :: (t ++ rest)). rewrite read_json_number by (by apply Forall_cons in Ht as [? _]).
  unfold read_number. change (c :: t ++ rest) with ((c :: t) ++ rest). rewrite span_app by done. by rewrite Hv.
Qed.

(** Items are read back. *)
Lemma read_list_back {A : Type} (f : bytes -> option (A * bytes)) (show : A -> bytes) close l : number_char close = false -> close <> 44 -> forall fuel rest,
  Forall (fun a => forall rest, ends_number rest -> f (show a ++ rest) = Some (a, rest)) l -> l <> [] -> (length l <= fuel)%nat ->
  read_list fuel close f (intersperse (map show l) ++ close :: rest) = Some (l, rest).
Proof.
  intros Hclose Hcomma. induction l as [|a l IH]; intros fuel rest Hf Hn Hl; [done|]. apply Forall_cons in Hf as [Ha Hf]. destruct fuel as [|fuel]; [cbn in Hl; lia|].
  cbn [read_list]. destruct l as [|a' l].
  - cbn [map intersperse]. rewrite Ha by done. cbn [mbind option_bind]. destruct (Z.eqb_spec close 44); [done|]. by rewrite Z.eqb_refl.
  - change (intersperse (map show (a :: a' :: l))) with (show a ++ bs "," ++ intersperse (map show (a' :: l))). rewrite <-!app_assoc. rewrite Ha by done.
    cbn [mbind option_bind]. change (bs "," ++ ?x) with (44 :: x). cbv iota. change (44 =? 44) with true. cbv iota. rewrite (IH fuel rest Hf) by (done || (cbn in *; lia)). done.
Qed.

Lemma read_items_back {A : Type} (f : bytes -> option (A * bytes)) (show : A -> bytes) close l fuel rest : number_char close = false -> close <> 44 ->
  Forall (fun a => (exists c w, show a = c :: w /\ c <> close) /\ forall rest, ends_number rest -> f (show a ++ rest) = Some (a, rest)) l -> (length l <= fuel)%nat ->
  read_items fuel close f (intersperse (map show l) ++ close :: rest) = Some (l, rest).
Proof.
  intros Hclose Hcomma Hf Hl. destruct l as [|a l]; [cbn; by rewrite Z.eqb_refl|].
  pose proof (read_list_back f show close (a :: l) Hclose Hcomma fuel rest ltac:(by eapply Forall_impl; [exact Hf|intros ? [_ ?]]) ltac:(done) Hl) as E.
  apply Forall_cons in Hf as [[(c & w & Hs & Hc) _] _]. revert E. unfold read_items.
  assert (exists r, intersperse (map show (a :: l)) ++ close :: rest = c :: r) as [r ->].
  { destruct l as [|a' l]; cbn [map intersperse]; rewrite Hs; by eexists. }
  intros ->. by destruct (Z.eqb_spec c close).
Qed.

Lemma intersperse_part w l : w ∈ l -> (length w <= length (intersperse l))%nat.
Proof.
  induction 1 as [w l|w x l H IH]; destruct l as [|y l]; cbn [intersperse]; rewrite ?length_app; try lia; [by apply not_elem_of_nil in H|].
  cbn [intersperse] in IH. lia.
Qed.

Lemma intersperse_short l : Forall (fun w : bytes => w <> []) l -> (length l <= length (intersperse l))%nat.
Proof.
  induction 1 as [|w l Hw Hl IH]; [done|]. destruct w as [|c w]; [done|]. destruct l as [|y l]; cbn [intersperse length] in *; rewrite ?length_app; cbn in *; lia.
Qed.

(** All integers are in the range of [i64]. *)
Fixpoint narrow (v : Value) : bool :=
  match v with
  | Int i => in_i64 i
  | Array arr => forallb narrow arr
  | Object m => forallb (fun kv => narrow kv.2) m
  | _ => true
  end.

Lemma stored_narrow v : valid v = true -> valid (stored v) = true /\ narrow (stored v) = true.
Proof.
  revert v. refine (Value_induction _ _ _ _ _ _ _ _); try done.
  - intros i Hv. cbn [stored]. destruct (in_i64 i) eqn:E; [done|]. split; [|done]. by apply wide_double.
  - intros arr IH Hv. cbn [stored valid narrow] in *. apply andb_true_iff in Hv as [Hn Hv]. unfold zlen in *. rewrite length_map, Hn. cbn [andb].
    clear Hn. induction IH as [|v arr Hx IHx IH]; [done|]. cbn [map forallb] in *. apply andb_true_iff in Hv as [Hv Hvs]. destruct (Hx Hv) as [-> ->]. by apply IH.
  - intros m IH Hv. cbn [stored valid narrow] in *. apply andb_true_iff in Hv as [Hn Hv]. unfold zlen in *. rewrite length_map, Hn. cbn [andb].
    clear Hn. induction IH as [|[k v] m Hx IHx IH]; [done|]. cbn [map forallb fst snd] in *. apply andb_true_iff in Hv as [[Hk Hv]%andb_true_iff Hvs].
    destruct (Hx Hv) as [-> ->]. rewrite Hk. by apply IH.
Qed.

Lemma stored_same v : narrow v = true -> stored v = v.
Proof.
  revert v. refine (Value_induction _ _ _ _ _ _ _ _); try done.
  - intros i Hv. cbn in *. by rewrite Hv.
  - intros arr IH Hv. cbn [stored narrow] in *. f_equal. induction IH as [|v arr Hx IHx IH]; [done|]. cbn [map forallb] in *. apply andb_true_iff in Hv as [Hv Hvs].
    by rewrite Hx, IH.
  - intros m IH Hv. cbn [stored narrow] in *. f_equal. induction IH as [|[k v] m Hx IHx IH]; [done|]. cbn [map forallb fst snd] in *. apply andb_true_iff in Hv as [Hv Hvs].
    by rewrite Hx, IH.
Qed.

Section Texts.

Context `{!DoubleText}.

Definition reads (v : Value) : Prop := valid v = true -> narrow v = true -> forall fuel rest, (length (print v) <= fuel)%nat -> ends_number rest ->
  read_json fuel (print v ++ rest) = Some (v, rest).

Lemma float_text f : double_ok f = true -> exists t, fmt_f64 f = Some t /\ t <> [] /\ Forall (fun c => number_char c = true) t /\ forallb integer_char t = false /\ parse_f64 t = Some f.
Proof.
  intros [_ [t Ht]%bool_decide_eq_true]%andb_true_iff. destruct (double_text f t Ht) as (H1 & H2 & H3). exists t. split_and!; try done. by intros ->.
Qed.

Lemma print_head v : valid v = true -> exists c w, print v = c :: w /\ c <> 93 /\ c <> 125.
Proof.
  assert (forall t, t <> [] -> Forall (fun c => number_char c = true) t -> exists c w, t = c :: w /\ c <> 93 /\ c <> 125) as Hnum.
  { intros [|c t] Hn Ht; [done|]. apply Forall_cons in Ht as [Hc _]. exists c, t. split_and!; [done|by intros ->|by intros ->]. }
  destruct v as [|[]|i|f|s|arr|m]; intros Hv; cbn [print]; try by eexists _, _.
  - destruct (fmt_i_integer i) as [Hn Hi]. apply Hnum; [done|]. eapply Forall_impl; [exact Hi|]. intros c. apply integer_number.
  - destruct (float_text f Hv) as (t & -> & Hn & Ht & _). cbn. by apply Hnum.
Qed.

Lemma reads_array arr : Forall reads arr -> reads (Array arr).
Proof.
  intros IH Hv Hw fuel rest Hl Hr. cbn [print valid narrow] in *. apply andb_true_iff in Hv as [_ Hv]. destruct fuel as [|fuel]; [cbn in Hl; lia|].
  rewrite <-!app_assoc. change (bs "[" ++ ?x) with (91 :: x). rewrite read_json_head by done. change (91 =? 34) with false. change (91 =? 91) with true. cbv iota.
  rewrite !length_app in Hl. cbn [length bs] in Hl. change (bs "]" ++ rest) with (93 :: rest).
  rewrite (read_items_back _ print 93 arr fuel rest); [done|done|done| |].
  - apply Forall_forall. intros v Hin. apply forallb_forall with (x := v) in Hv; [|by apply list_elem_of_In]. apply forallb_forall with (x := v) in Hw; [|by apply list_elem_of_In].
    split; [destruct (print_head v Hv) as (c & w & ? & ? & _); by exists c, w|]. intros rest' Hr'. apply (proj1 (Forall_forall _ _) IH v Hin); [done|done| |done].
    assert (length (print v) <= length (intersperse (map print arr)))%nat by (apply intersperse_part, list_elem_of_fmap; by exists v). cbn in Hl. lia.
  - pose proof (intersperse_short (map print arr)) as Hs. rewrite length_map in Hs. cbn in Hl. enough (length arr <= length (intersperse (map print arr)))%nat by lia.
    apply Hs, Forall_fmap, Forall_forall. intros v Hin. apply forallb_forall with (x := v) in Hv; [|by apply list_elem_of_In].
    cbn. by destruct (print_head v Hv) as (c & w & -> & _).
Qed.

Lemma reads_object m : Forall (fun kv => reads kv.2) m -> reads (Object m).
Proof.
  intros IH Hv Hw fuel rest Hl Hr. cbn [print valid narrow] in *. apply andb_true_iff in Hv as [_ Hv]. destruct fuel as [|fuel]; [cbn in Hl; lia|].
  set (show := fun kv : bytes * Value => quote kv.1 ++ bs ":" ++ print kv.2) in *.
  rewrite <-!app_assoc. change (bs "{" ++ ?x) with (123 :: x). rewrite read_json_head by done. change (123 =? 34) with false. change (123 =? 91) with false. change (123 =? 123) with true. cbv iota.
  rewrite !length_app in Hl. change (bs "}" ++ rest) with (125 :: rest). change (length (bs "{")) with 1%nat in Hl.
  rewrite (read_items_back _ show 125 m fuel rest); [done|done|done| |].
  - apply Forall_forall. intros [k v] Hin. apply forallb_forall with (x := (k, v)) in Hv; [|by apply list_elem_of_In]. apply forallb_forall with (x := (k, v)) in Hw; [|by apply list_elem_of_In].
    cbn [fst snd] in *. apply andb_true_iff in Hv as [[[Hk _]%andb_true_iff _]%andb_true_iff Hv]. split; [by eexists _, _|]. intros rest' Hr'. unfold show. cbn [fst snd].
    rewrite <-!app_assoc, quote_app. cbn [read_member]. change (34 =? 34) with true. cbv iota. rewrite read_str_quoted by done. cbn [mbind option_bind].
    change (bs ":" ++ ?x) with (58 :: x). cbv iota. change (58 =? 58) with true. cbv iota.
    rewrite (proj1 (Forall_forall _ _) IH (k, v) Hin Hv Hw); [done| |done].
    assert (length (show (k, v)) <= length (intersperse (map show m)))%nat as Hp by (apply intersperse_part, list_elem_of_fmap; by exists (k, v)).
    unfold show at 1 in Hp. rewrite !length_app in Hp. cbn [fst snd] in *. lia.
  - pose proof (intersperse_short (map show m)) as Hs. rewrite length_map in Hs. enough (length m <= length (intersperse (map show m)))%nat by lia.
    apply Hs, Forall_fmap, Forall_forall. by intros kv Hin.
Qed.

Lemma read_back v : reads v.
Proof.
  revert v. refine (Value_induction _ _ _ _ _ _ reads_array reads_object); unfold reads; cbn [print]; intros.
  all: destruct fuel as [|fuel]; [try (cbn in *; lia)|].
  - by cbn; rewrite ?drop_0.
  - destruct b; cbn in *; lia.
  - by destruct b; cbn; rewrite ?drop_0.
  - destruct (fmt_i_integer i) as [Hn _]. destruct (fmt_i i); [done|]. cbn in *. lia.
  - destruct (fmt_i_integer i) as [Hn Hi]. apply read_number_text; [done| |done|].
    + eapply Forall_impl; [exact Hi|]. intros c. apply integer_number.
    + assert (forallb integer_char (fmt_i i) = true) as -> by (apply forallb_forall; intros c Hc%list_elem_of_In; by apply (proj1 (Forall_forall _ _) Hi)).
      rewrite parse_i64_fmt_i; [done|]. by apply in_i64_spec.
  - destruct (float_text f) as (t & E & Hn & _); [done|]. rewrite E in *. destruct t; [done|]. cbn in *. lia.
  - destruct (float_text f) as (t & -> & Hn & Ht & Hi & Hp); [done|]. cbn [default id]. apply read_number_text; try done. by rewrite Hi, Hp.
  - rewrite quote_app, read_json_head by done. change (34 =? 34) with true. cbv iota.
    rewrite read_str_quoted; [done|]. match goal with H : valid (String s) = true |- _ => cbn [valid] in H; by apply andb_true_iff in H as [[? _]%andb_true_iff _] end.
Qed.

(** A stored value is read back. Rendering the bytes that encode a value gives a JSON text that a reader
    reads as the value, with its strings, keys, order and nesting, to the last character; an integer above
    [i64::MAX] comes back as the double that is nearest to it. *)
Theorem json_roundtrip v : valid v = true ->
  let text := to_json_string (encode v) in read_json (length text) text = Some (stored v, []) /\ (narrow v = true -> stored v = v).
Proof.
  intros Hv. cbv zeta. split; [|apply stored_same]. rewrite to_json_string_encoded by done. destruct (stored_narrow v Hv) as [Hv' Hn].
  pose proof (read_back (stored v) Hv' Hn (length (print (stored v))) [] (Nat.le_refl _) I) as E. by rewrite app_nil_r in E.
Qed.

End Texts.

(** ** Walks over any bytes end *)

Section Any.

Context (b : bytes) (Hb : Forall byte_ok b).

Lemma get_inside pos c : get b pos = Some c -> pos < zlen b.
Proof. unfold get. destruct (Z.ltb_spec pos (zlen b)); [done|done]. Qed.

Lemma read_u32_forward pos n p : read_u32 b pos = Some (n, p) -> 0 <= n /\ p = pos + 4 /\ pos < zlen b.
Proof.
  unfold read_u32, get_range. destruct (_ && _) eqn:E; [|done]. cbn [mbind option_bind]. intros [= <- <-]. zbool.
  split_and!; [|done|lia]. apply le_decode_range. unfold slice. by apply Forall_take, Forall_drop.
Qed.

(** Two loops whose bodies agree, and move forward inside the bytes, give the same. *)
Lemma for_count_agree (f g : Z -> option Z) : forall n m count p,
  0 <= p -> (forall q, p <= q -> f q = g q) -> (forall q q', 0 <= q -> f q = Some q' -> q < zlen b /\ q < q') ->
  zlen b - p < Z.of_nat n -> zlen b - p < Z.of_nat m -> for_count n count f p = for_count m count g p.
Proof using b.
  induction n as [|n IH]; intros m count p Hp Hfg Hf Hn Hm.
  - destruct m as [|m]; [done|]. cbn [for_count]. destruct (count <=? 0); [done|]. rewrite <-Hfg by lia. destruct (f p) as [q|] eqn:E; [|done].
    apply Hf in E; [lia|done].
  - destruct m as [|m]; cbn [for_count]; (destruct (count <=? 0); [done|]); rewrite <-?Hfg by lia.
    + destruct (f p) as [q|] eqn:E; [|done]. apply Hf in E; [lia|done].
    + destruct (f p) as [q|] eqn:E; [|done]. cbn [mbind option_bind]. apply Hf in E as [? ?]; [|done]. apply IH; [lia|intros q' ?; apply Hfg; lia|done|lia|lia].
Qed.

Lemma for_count_forward (f : Z -> option Z) : (forall q q', 0 <= q -> f q = Some q' -> q < zlen b /\ q < q') -> forall n count p p',
  0 <= p -> for_count n count f p = Some p' -> p <= p'.
Proof using b.
  intros Hf. induction n as [|n IH]; intros count p p' Hp; cbn [for_count]; (destruct (count <=? 0); [intros [= <-]; lia|]); [done|].
  destruct (f p) as [q|] eqn:E; [|done]. cbn [mbind option_bind]. apply Hf in E as [? ?]; [|done]. intros E'. apply IH in E'; lia.
Qed.

Lemma skip_forward : forall n pos p, 0 <= pos -> skip_at n b pos = Some p -> pos < zlen b /\ pos < p.
Proof using Hb.
  induction n as [|n IH]; intros pos p Hpos; [done|]. cbn [skip_at]. destruct (get b pos) as [tag|] eqn:Eg; [|done]. apply get_inside in Eg.
  cbn [mbind option_bind]. intros E. split; [done|]. repeat (case_match; try done); simplify_eq; try lia.
  - destruct (read_u32 b (pos + 1)) as [[len q]|] eqn:Er; [|done]. injection E as <-. apply read_u32_forward in Er. lia.
  - destruct (read_u32 b (pos + 1)) as [[len q]|] eqn:Er; [|done]. cbn in E. apply read_u32_forward in Er. apply for_count_forward in E; [lia|done|lia].
  - destruct (read_u32 b (pos + 1)) as [[len q]|] eqn:Er; [|done]. cbn in E. apply read_u32_forward in Er. apply for_count_forward in E; [lia| |lia].
    intros q1 q2 Hq. destruct (read_u32 b q1) as [[klen kp]|] eqn:Ek; [|done]. cbn. apply read_u32_forward in Ek. intros [? ?]%IH; lia.
Qed.

Lemma skip_fuel : forall n m pos, 0 <= pos -> zlen b - pos < Z.of_nat n -> zlen b - pos < Z.of_nat m -> skip_at n b pos = skip_at m b pos.
Proof using Hb.
  assert (forall k pos, zlen b - pos < 0 -> skip_at k b pos = None) as Hout.
  { intros [|k] pos Hp; [done|]. cbn [skip_at]. unfold get. destruct (Z.ltb_spec pos (zlen b)); [lia|done]. }
  induction n as [|n IH]; intros [|m] pos Hp Hn Hm; [done|by rewrite !Hout by lia|by rewrite !Hout by lia|]. cbn [skip_at].
  destruct (get b pos) as [tag|] eqn:Eg; [|done]. apply get_inside in Eg. cbn [mbind option_bind]. repeat (case_match; try done).
  - destruct (read_u32 b (pos + 1)) as [[len q]|] eqn:Er; [|done]. cbn. apply read_u32_forward in Er.
    apply for_count_agree; [lia|intros q' ?; apply IH; lia|intros ? ? ?; by apply skip_forward|lia|lia].
  - destruct (read_u32 b (pos + 1)) as [[len q]|] eqn:Er; [|done]. cbn. apply read_u32_forward in Er. apply for_count_agree; [lia| | |lia|lia].
    + intros q' Hq'. destruct (read_u32 b q') as [[klen kp]|] eqn:Ek; [|done]. cbn. apply read_u32_forward in Ek. apply IH; lia.
    + intros q1 q2 Hq1. destruct (read_u32 b q1) as [[klen kp]|] eqn:Ek; [|done]. cbn. apply read_u32_forward in Ek. intros [? ?]%skip_forward; lia.
Qed.

Lemma write_items_agree (f g : Z -> bytes -> option Z * bytes) : forall n m i count p out,
  0 <= p -> (forall q o, p <= q -> f q o = g q o) -> (forall q o q' o', 0 <= q -> f q o = (Some q', o') -> q < zlen b /\ q < q') ->
  zlen b - p < Z.of_nat n -> zlen b - p < Z.of_nat m -> (0 < n)%nat -> (0 < m)%nat -> write_items n i count f p out = write_items m i count g p out.
Proof using b.
  induction n as [|n IH]; intros m i count p out Hp Hfg Hf Hn Hm Hn0 Hm0; [lia|]. destruct m as [|m]; [lia|].
  cbn [write_items]. destruct (count <=? i); [done|]. rewrite <-Hfg by lia. destruct (f p _) as [[q|] o] eqn:E; [|done]. apply Hf in E as [? ?]; [|done].
  apply IH; [lia|intros; apply Hfg; lia|done|lia..].
Qed.

Lemma write_items_forward (f : Z -> bytes -> option Z * bytes) : (forall q o q' o', 0 <= q -> f q o = (Some q', o') -> q < zlen b /\ q < q') ->
  forall n i count p out p' out', 0 <= p -> write_items n i count f p out = (Some p', out') -> p <= p'.
Proof using b.
  intros Hf. induction n as [|n IH]; intros i count p out p' out' Hp; cbn [write_items]; (destruct (count <=? i); [intros [= <- _]; lia|]); [done|].
  destruct (f p _) as [[q|] o] eqn:E; [|done]. apply Hf in E as [? ?]; [|done]. intros E'. apply IH in E'; lia.
Qed.

Lemma write_close_forward close r p out : write_close close r = (Some p, out) -> exists out', r = (Some p, out').
Proof using Type. destruct r as [[q|] o]; cbn; [intros [= -> _]; by eexists|done]. Qed.

(** The writer of one member. *)
Lemma member_forward (f : Z -> bytes -> option Z * bytes) : (forall q o q' o', 0 <= q -> f q o = (Some q', o') -> q < zlen b /\ q < q') ->
  forall q o q' o', 0 <= q ->
  or_fail (read_u32 b q) o (fun '(klen, kp) => or_fail (get_range b kp (kp + klen) ≫= from_utf8) o (fun key => f (kp + klen) (write_json_str key o ++ bs ":"))) = (Some q', o') ->
  q < zlen b /\ q < q'.
Proof using Hb.
  intros Hf q o q' o' Hq. destruct (read_u32 b q) as [[klen kp]|] eqn:Ek; [|done]. cbn [or_fail]. apply read_u32_forward in Ek.
  destruct (get_range _ _ _ ≫= _) as [key|]; [|done]. cbn [or_fail]. intros [? ?]%Hf; lia.
Qed.

Lemma range_inside s e w : get_range b s e = Some w -> e <= zlen b.
Proof using Type. unfold get_range. destruct (_ && _) eqn:E; [|done]. zbool. lia. Qed.

Lemma write_forward : forall n pos out p out', 0 <= pos -> write_at n b pos out = (Some p, out') -> pos < zlen b /\ pos < p.
Proof using Hb.
  induction n as [|n IH]; intros pos out p out' Hpos; [done|]. cbn [write_at]. destruct (get b pos) as [tag|] eqn:Eg; [|done]. apply get_inside in Eg.
  cbn [or_fail]. intros E. split; [done|].
  repeat match type of E with (if ?c then _ else _) = _ => destruct c; [try (injection E; lia)|] end; try done.
  - unfold read_i64 in E. destruct (get_range _ _ _); [|done]. cbn in E. injection E. lia.
  - unfold read_f64 in E. destruct (get_range _ _ _); [|done]. cbn in E. injection E. lia.
  - destruct (read_u32 b (pos + 1)) as [[len q]|] eqn:Er; [|done]. apply read_u32_forward in Er. cbn [or_fail] in E. destruct (_ ≫= _); [|done]. cbn in E. injection E. lia.
  - destruct (read_u32 b (pos + 1)) as [[len q]|] eqn:Er; [|done]. apply read_u32_forward in Er. cbn [or_fail] in E. apply write_close_forward in E as [o E].
    apply write_items_forward in E; [lia|done|lia].
  - destruct (read_u32 b (pos + 1)) as [[len q]|] eqn:Er; [|done]. apply read_u32_forward in Er. cbn [or_fail] in E. apply write_close_forward in E as [o E].
    apply write_items_forward in E; [lia|by apply member_forward|lia].
Qed.

Lemma write_fuel : forall n m pos out, 0 <= pos -> zlen b - pos < Z.of_nat n -> zlen b - pos < Z.of_nat m -> write_at n b pos out = write_at m b pos out.
Proof using Hb.
  assert (forall k pos out, zlen b - pos < 0 -> write_at k b pos out = (None, out)) as Hout.
  { intros [|k] pos out Hp; [done|]. cbn [write_at]. unfold get. destruct (Z.ltb_spec pos (zlen b)); [lia|done]. }
  induction n as [|n IH]; intros [|m] pos out Hp Hn Hm; [done|by rewrite !Hout by lia|by rewrite !Hout by lia|]. cbn [write_at].
  destruct (get b pos) as [tag|] eqn:Eg; [|done]. apply get_inside in Eg. cbn [or_fail].
  repeat match goal with |- (if ?c then _ else _) = _ => destruct c; [try done|] end; try done.
  - destruct (read_u32 b (pos + 1)) as [[len q]|] eqn:Er; [|done]. apply read_u32_forward in Er. cbn [or_fail]. f_equal.
    apply write_items_agree; [lia|intros; apply IH; lia|intros ? ? ? ? ?; by apply write_forward|lia..].
  - destruct (read_u32 b (pos + 1)) as [[len q]|] eqn:Er; [|done]. apply read_u32_forward in Er. cbn [or_fail]. f_equal.
    apply write_items_agree; [lia| |apply member_forward; intros ? ? ? ? ?; by apply write_forward|lia..].
    intros q' o Hq'. destruct (read_u32 b q') as [[klen kp]|] eqn:Ek; [|done]. apply read_u32_forward in Ek. cbn [or_fail].
    destruct (_ ≫= _); [|done]. cbn [or_fail]. apply IH; lia.
Qed.

End Any.

(** Walks over any bytes end. On bytes that encode no value as well, skipping and rendering end within
    as many nested steps as there are bytes: the bound of the definitions is never met, whatever the
    lengths and counts in the bytes claim. *)
Theorem walks_terminate b fuel pos out : Forall byte_ok b -> 0 <= pos -> (length b < fuel)%nat ->
  skip_at fuel b pos = skip_value b pos /\ write_at fuel b pos out = write_at (S (length b)) b pos out.
Proof.
  intros Hb Hp Hf. split; [apply skip_fuel|apply write_fuel]; try done; unfold zlen; lia.
Qed.

End Doubles.

(** ** A concrete value *)

(** Doubles by their bit patterns: the text of pattern [n] is [1.n]. *)
Definition pattern_text (f : Z) : option bytes := if in_usize f then Some (bs "1." ++ fmt_u f) else None.
Definition text_pattern (t : bytes) : option Z := if starts_with t (bs "1.") then parse_u64 (drop 2 t) else None.

#[export] Instance pattern_doubles : DoubleText pattern_text text_pattern.
Proof.
  split. intros f t. unfold pattern_text. destruct (in_usize f) eqn:E; [|done]. apply in_usize_spec in E. intros [= <-]. split_and!.
  - repeat constructor. eapply Forall_impl; [apply fmt_u_digits|]. intros c Hc. unfold number_char, integer_char. by rewrite Hc.
  - done.
  - unfold text_pattern. change (starts_with (bs "1." ++ fmt_u f) (bs "1.")) with true. cbv iota. change (drop 2 (bs "1." ++ fmt_u f)) with (fmt_u f). by apply parse_u64_fmt_u.
Qed.

Definition sample : Value :=
  Object [(bs "name", String [97; 34; 10; 195; 169; 1]); (bs "tags", Array [String (bs "a.b"); Int (-7); Bool true; Null; Float 12; Array []]);
          (bs "", Object [(bs "n", Int 9223372036854775807)]); (bs "big", Int 18446744073709551615)].

Lemma get_path_correct_witness :
  get_path (encode id sample) (bs "tags.1") = Found (RI64 (-7)) /\ get_path (encode id sample) (bs ".n") = Found (RI64 9223372036854775807) /\
  get_path (encode id sample) (bs "tags.9") = Absent /\ get_path (encode id sample) (bs "name.x") = Invalid.
Proof. split_and!; rewrite (get_path_correct id pattern_text sample) by (vm_compute; reflexivity); vm_compute; reflexivity. Defined.

Lemma array_contains_correct_witness :
  array_contains text_pattern Z.eqb (encode id (Array [String (bs "x"); Int 5])) (bs "5") = true /\
  array_contains text_pattern Z.eqb (encode id sample) (bs "5") = false.
Proof.
  split; rewrite (array_contains_correct id pattern_text) by (vm_compute; reflexivity); vm_compute; reflexivity.
Defined.

Lemma json_roundtrip_witness :
  let text := to_json_string pattern_text (encode id sample) in
  read_json text_pattern (length text) text = Some (stored id sample, []) /\ (narrow sample = true -> stored id sample = sample).
Proof. apply (json_roundtrip id pattern_text text_pattern sample). vm_compute. reflexivity. Defined.

(** An array that claims more elements than there are bytes. *)
Lemma walks_terminate_witness : let b := [T_ARRAY; 255; 255; 255; 255; T_NULL; T_TRUE] in
  skip_at 9 b 0 = skip_value b 0 /\ write_at pattern_text 9 b 0 [] = write_at pattern_text (S (length b)) b 0 [].
Proof. apply (walks_terminate pattern_text [T_ARRAY; 255; 255; 255; 255; T_NULL; T_TRUE] 9 0 []); [unfold byte_ok; apply (bool_decide_unpack _); vm_compute; exact I|lia|cbn; lia]. Defined.

End Jsonb.
