(* ===== verification/Schema.v ===== *)
(** * Table schemas ([src/src/tables/mod.rs], lines 85-267, 438-545, 1184-1237, 1686-2140, 2185-2226 and
      2415-2526)

    The columns of a table are declared in a text, kept in memory as field definitions, and stored in a
    hash of the key space, one short text per column. A cell holds the bytes of a value; the type of
    its column says how a text becomes bytes and back.

    A [&str] is the list of its [char]s, and [as_bytes] is its UTF-8 text. Error messages are kept
    without the words of the request that they quote. The classification of letters, the texts of
    floating-point numbers and the JSON reader are parameters; a double is its 64 bits. *)

From S2P Require Import Prelude.
From S2P Require Import Commands.
From S2P Require Import Where.
From S2P Require Import Grants.
From S2P Require Import Jsonb.
Local Open Scope Z_scope.

Local Ltac Zify.zify_post_hook ::= Z.to_euclidean_division_equations.

Module Schema.
Import Commands.Commands(eq_ignore_ascii_case).
Import Where.Where.
Import Grants.Grants(join, replace, to_ascii_lowercase, strip_prefix).

(** ** UTF-8 *)

(** The bytes of a [char]. *)
Definition utf8_char (c : Z) : bytes :=
  if c <? 128 then [c]
  else if c <? 2048 then [192 + c / 64; 128 + c mod 64]
  else if c <? 65536 then [224 + c / 4096; 128 + c / 64 mod 64; 128 + c mod 64]
  else [240 + c / 262144; 128 + c / 4096 mod 64; 128 + c / 64 mod 64; 128 + c mod 64].

Definition as_bytes (s : str) : bytes := concat (utf8_char <$> s).

(** [String::from_utf8_lossy], as a text. *)
Definition lossy (b : bytes) : str := (fun c => default 65533 c.1) <$> utf8_chunks b.

(** ** Types of columns *)

Inductive FieldType := TStr | TInt | TFloat | TBool | TTimestamp | TUuid | TVector (dims : Z) | TJson | TArray | TRef (table : str).

#[export] Instance FieldType_eq_dec : EqDecision FieldType.
Proof. solve_decision. Defined.

Inductive OnDelete := Restrict | Cascade | SetNull.

#[export] Instance OnDelete_eq_dec : EqDecision OnDelete.
Proof. solve_decision. Defined.

Record ForeignKey := mkFk { fk_table : str; fk_column : str; on_delete : OnDelete }.

#[export] Instance ForeignKey_eq_dec : EqDecision ForeignKey.
Proof. solve_decision. Defined.

Record FieldDef := mkDef {
  f_name : str; field_type : FieldType; primary_key : bool; unique : bool; nullable : bool;
  default_value : option str; sequence_partition : option str; references : option ForeignKey;
  encrypted : bool; searchable : bool }.

#[export] Instance FieldDef_eq_dec : EqDecision FieldDef.
Proof. solve_decision. Defined.

Record PathIndex := mkPath { p_path : str; p_type : FieldType }.

Definition set_pk (d : FieldDef) : FieldDef :=
  mkDef (f_name d) (field_type d) true true false (default_value d) (sequence_partition d) (references d) (encrypted d) (searchable d).
Definition set_unique (d : FieldDef) : FieldDef :=
  mkDef (f_name d) (field_type d) (primary_key d) true (nullable d) (default_value d) (sequence_partition d) (references d) (encrypted d) (searchable d).
Definition set_nullable (b : bool) (d : FieldDef) : FieldDef :=
  mkDef (f_name d) (field_type d) (primary_key d) (unique d) b (default_value d) (sequence_partition d) (references d) (encrypted d) (searchable d).
Definition set_default (v : str) (d : FieldDef) : FieldDef :=
  mkDef (f_name d) (field_type d) (primary_key d) (unique d) (nullable d) (Some v) (sequence_partition d) (references d) (encrypted d) (searchable d).
Definition set_partition (v : str) (d : FieldDef) : FieldDef :=
  mkDef (f_name d) (field_type d) (primary_key d) (unique d) (nullable d) (default_value d) (Some v) (references d) (encrypted d) (searchable d).
Definition set_references (v : ForeignKey) (d : FieldDef) : FieldDef :=
  mkDef (f_name d) (field_type d) (primary_key d) (unique d) (nullable d) (default_value d) (sequence_partition d) (Some v) (encrypted d) (searchable d).
Definition set_encrypted (d : FieldDef) : FieldDef :=
  mkDef (f_name d) (field_type d) (primary_key d) (unique d) (nullable d) (default_value d) (sequence_partition d) (references d) true (searchable d).
Definition set_searchable (d : FieldDef) : FieldDef :=
  mkDef (f_name d) (field_type d) (primary_key d) (unique d) (nullable d) (default_value d) (sequence_partition d) (references d) (encrypted d) true.

(** A column of which only the name and the type are set. *)
Definition bare (name : str) (t : FieldType) : FieldDef := mkDef name t false false true None None None false false.

(** ** Keys of the storage of tables *)

Definition schema_key (table : str) : str := bs "_t:" ++ table ++ bs ":schema".
Definition seq_key (table : str) : str := bs "_t:" ++ table ++ bs ":seq".
Definition scoped_seq_key (table field partition_col partition_val : str) : str :=
  bs "_t:" ++ table ++ bs ":seq:" ++ field ++ bs ":" ++ partition_col ++ bs ":" ++ partition_val.
Definition idx_sorted_key (table field : str) : str := bs "_t:" ++ table ++ bs ":idx:" ++ field.
Definition path_indexes_key (table : str) : str := bs "_t:" ++ table ++ bs ":path_indexes".
Definition idx_str_key (table field value : str) : str := bs "_t:" ++ table ++ bs ":idx:" ++ field ++ bs ":" ++ value.
Definition table_vector_key (table field pk : str) : str := bs "_t:" ++ table ++ bs ":vec:" ++ field ++ bs ":" ++ pk.
Definition uniq_key (table field : str) : str := bs "_t:" ++ table ++ bs ":uniq:" ++ field.
Definition ids_key (table : str) : str := bs "_t:" ++ table ++ bs ":ids".
Definition table_list_key : str := bs "_t:__tables".
Definition pk_key (table : str) : str := bs "_t:" ++ table ++ bs ":pk".
Definition row_key_for_pk (table pk_value : str) : str := bs "_t:" ++ table ++ bs ":row:" ++ pk_value.
Definition HIDDEN_TTL_FIELD : str := 0 :: bs "ttl".
Definition HIDDEN_DEFAULT_TTL_FIELD : str := 0 :: bs "default_ttl".
Definition ttl_index_key : str := bs "_t:_ttl".
Definition ttl_member (table pk : str) : str := table ++ [0] ++ pk.

(** A trailing [WITH TTL <seconds>] of a column list. *)
Definition split_with_ttl (col_args : list str) : list str * option Z :=
  let n := length col_args in
  match drop (n - 3) col_args with
  | [w; t; secs] =>
      if eq_ignore_ascii_case w (bs "WITH") && eq_ignore_ascii_case t (bs "TTL")
      then match parse_u64 secs with Some secs => (take (n - 3) col_args, Some secs) | None => (col_args, None) end
      else (col_args, None)
  | _ => (col_args, None)
  end.

Definition pk_column_name (schema : list FieldDef) : str :=
  match List.find primary_key schema with Some f => f_name f | None => bs "id" end.

(** ** Declarations of columns *)

Definition is_json_type (t : FieldType) : bool := match t with TJson | TArray => true | _ => false end.
Definition is_vector_type (t : FieldType) : bool := match t with TVector _ => true | _ => false end.
Definition is_ref_type (t : FieldType) : bool := match t with TRef _ => true | _ => false end.
Definition is_some {A : Type} (o : option A) : bool := match o with Some _ => true | None => false end.

Definition field_supports_encryption (field : FieldDef) : result unit :=
  if searchable field && negb (encrypted field) then Err "ERR SEARCHABLE column must also be ENCRYPTED"
  else if negb (encrypted field) then Ok tt
  else if primary_key field then Err "ERR encrypted column cannot be a PRIMARY KEY"
  else if is_some (references field) || is_ref_type (field_type field) then Err "ERR encrypted column cannot be a foreign key"
  else if is_some (sequence_partition field) then Err "ERR encrypted column cannot be a SEQUENCE column"
  else if searchable field && is_vector_type (field_type field) then Err "ERR encrypted VECTOR column cannot be SEARCHABLE"
  else if is_some (default_value field) then Err "ERR encrypted column cannot use DEFAULT"
  else if searchable field && is_json_type (field_type field) then Err "ERR encrypted column cannot be SEARCHABLE with JSON or ARRAY type"
  else if unique field && encrypted field && negb (searchable field) then Err "ERR UNIQUE encrypted column must be SEARCHABLE"
  else Ok tt.

(** The loop of [tokenize_field_def]: the tokens so far, the one being built, the open quote, and
    whether the next character is escaped. *)
Fixpoint tokenize_def_loop (s : str) (tokens : list str) (current : str) (quote : option Z) (escaped : bool) : result (list str) :=
  match s with
  | [] =>
      if is_some quote then Err "ERR unterminated quoted literal"
      else Ok (if bool_decide (current = []) then tokens else tokens ++ [current])
  | ch :: s =>
      match quote with
      | Some q =>
          let current := current ++ [ch] in
          if escaped then tokenize_def_loop s tokens current quote false
          else if ch =? BACKSLASH then tokenize_def_loop s tokens current quote true
          else if ch =? q then tokenize_def_loop s tokens current None false
          else tokenize_def_loop s tokens current quote false
      | None =>
          if (ch =? QUOTE) || (ch =? 34) then tokenize_def_loop s tokens (current ++ [ch]) (Some ch) escaped
          else if is_whitespace ch
          then if bool_decide (current = []) then tokenize_def_loop s tokens current None escaped
               else tokenize_def_loop s (tokens ++ [current]) [] None escaped
          else tokenize_def_loop s tokens (current ++ [ch]) None escaped
      end
  end.

Definition tokenize_field_def (spec : str) : result (list str) := tokenize_def_loop spec [] [] None false.

Definition any_of (ks : list string) (s : str) : bool := existsb (fun k => bytes_eqb s (bs k)) ks.
Definition ends_with (s : str) (c : Z) : bool := match list.last s with Some d => d =? c | None => false end.

Definition parse_type (token : str) : result FieldType :=
  let t := to_uppercase token in
  if any_of ["STR"; "TEXT"; "VARCHAR"; "STRING"]%string t then Ok TStr
  else if any_of ["INT"; "INTEGER"; "BIGINT"]%string t then Ok TInt
  else if any_of ["FLOAT"; "REAL"; "DOUBLE"]%string t then Ok TFloat
  else if any_of ["BOOL"; "BOOLEAN"]%string t then Ok TBool
  else if any_of ["TIMESTAMP"; "DATETIME"]%string t then Ok TTimestamp
  else if any_of ["UUID"]%string t then Ok TUuid
  else if any_of ["JSON"; "JSONB"]%string t then Ok TJson
  else if any_of ["ARRAY"]%string t then Ok TArray
  else if starts_with t (bs "VECTOR(") && ends_with t 41 then
    match parse_u64 (slice t 7 (length t - 1)) with
    | None => Err "ERR invalid vector type"
    | Some dims => if dims =? 0 then Err "ERR VECTOR dimension must be greater than zero" else Ok (TVector dims)
    end
  else Err "ERR unknown field type".

Definition upper_eq (k : string) (token : str) : bool := bytes_eqb (to_uppercase token) (bs k).

(** [ON DELETE <action>] at the head of [tokens], and the tokens after it. *)
Definition parse_on_delete (tokens : list str) : result (OnDelete * list str) :=
  match tokens with
  | on :: delete :: rest =>
      if upper_eq "ON" on && upper_eq "DELETE" delete then
        match rest with
        | [] => Err "ERR ON DELETE requires an action (CASCADE, RESTRICT, SET NULL)"
        | action :: rest =>
            if upper_eq "CASCADE" action then Ok (Cascade, rest)
            else if upper_eq "RESTRICT" action then Ok (Restrict, rest)
            else if upper_eq "SET" action then
              match rest with
              | null :: rest => if upper_eq "NULL" null then Ok (SetNull, rest) else Err "ERR expected NULL after SET"
              | [] => Err "ERR expected NULL after SET"
              end
            else Err "ERR unknown ON DELETE action"
        end
      else Ok (Restrict, tokens)
  | _ => Ok (Restrict, tokens)
  end.

Definition is_ascii_alphanumeric (c : Z) : bool := in_rng 48 57 c || in_rng 65 90 c || in_rng 97 122 c.

(** [char::is_alphanumeric]: letters and digits of Unicode, the usual ones among the first 128. *)
Class Letters := {
  is_alphanumeric : Z -> bool;
  alphanumeric_ascii : forall c, 0 <= c < 128 -> is_alphanumeric c = is_ascii_alphanumeric c }.

Section Columns.

Context `{Letters}.

Definition is_valid_name (name : str) : bool :=
  negb (bool_decide (name = [])) && forallb (fun c => is_alphanumeric c || (c =? 95)) name.

Fixpoint has_double_dot (s : str) : bool :=
  match s with
  | a :: s' => match s' with b :: _ => ((a =? 46) && (b =? 46)) || has_double_dot s' | [] => false end
  | [] => false
  end.

Definition is_valid_table_name (name : str) : bool :=
  negb (bool_decide (name = [])) && forallb (fun c => is_alphanumeric c || (c =? 95) || (c =? 46)) name &&
  negb (starts_with name [46]) && negb (ends_with name 46) && negb (has_double_dot name).

(** [spec.find('(')]: the text before the parenthesis and the one after it. *)
Fixpoint split_paren (s before : str) : option (str * str) :=
  match s with
  | [] => None
  | c :: s => if c =? 40 then Some (before, s) else split_paren s (before ++ [c])
  end.

Definition parse_ref_spec (spec : str) : result (str * str) :=
  let spec := trim spec in
  match split_paren spec [] with
  | None => Err "ERR REFERENCES expects 'table(column)'"
  | Some (before, after) =>
      if negb (ends_with spec 41) then Err "ERR REFERENCES expects 'table(column)'"
      else
        let table := trim before in
        let column := trim (take (length after - 1) after) in
        if negb (is_valid_table_name table) then Err "ERR invalid referenced table name"
        else if negb (is_valid_name column) then Err "ERR invalid referenced column name"
        else Ok (table, column)
  end.

(** The loop over the constraints of a column. *)
Fixpoint constraints_loop (fuel : nat) (tokens : list str) (d : FieldDef) : result FieldDef :=
  match fuel, tokens with
  | _, [] => Ok d
  | O, _ => Err "out of fuel"
  | S fuel, t :: rest =>
      let word k := upper_eq k t in
      if word "ENCRYPTED"%string then constraints_loop fuel rest (set_encrypted d)
      else if word "SEARCHABLE"%string then constraints_loop fuel rest (set_searchable d)
      else if word "DEFAULT"%string then
        match rest with
        | v :: rest => constraints_loop fuel rest (set_default v d)
        | [] => Err "ERR DEFAULT requires a value"
        end
      else if word "SEQUENCE"%string then
        match rest with
        | a :: b :: partition :: rest =>
            if eq_ignore_ascii_case a (bs "PARTITION") && eq_ignore_ascii_case b (bs "BY") then
              if is_valid_name partition then constraints_loop fuel rest (set_partition partition d)
              else Err "ERR invalid sequence partition"
            else Err "ERR SEQUENCE requires PARTITION BY <column>"
        | _ => Err "ERR SEQUENCE requires PARTITION BY <column>"
        end
      else if word "PRIMARY"%string then
        let rest := match rest with k :: rest' => if eq_ignore_ascii_case k (bs "KEY") then rest' else rest | [] => rest end in
        constraints_loop fuel rest (set_pk d)
      else if word "UNIQUE"%string then constraints_loop fuel rest (set_unique d)
      else if word "NOT"%string then
        match rest with
        | k :: rest => if upper_eq "NULL" k then constraints_loop fuel rest (set_nullable false d) else Err "ERR expected NULL after NOT"
        | [] => Err "ERR expected NULL after NOT"
        end
      else if word "NULL"%string then constraints_loop fuel rest (set_nullable true d)
      else if word "REFERENCES"%string then
        match rest with
        | [] => Err "ERR REFERENCES requires a table(column) argument"
        | spec :: rest =>
            '(table, column) ← parse_ref_spec spec;
            '(action, rest) ← parse_on_delete rest;
            constraints_loop fuel rest (set_references (mkFk table column action) d)
        end
      else Err "ERR unknown constraint in field definition"
  end.

Definition parse_field_def (spec : str) : result FieldDef :=
  tokens ← tokenize_field_def spec;
  match tokens with
  | name :: ty :: rest =>
      if negb (is_valid_name name) then Err "ERR invalid field name"
      else
        field_type ← parse_type ty;
        field ← constraints_loop (length rest) rest (bare name field_type);
        _ ← field_supports_encryption field;
        Ok field
  | _ => Err "ERR invalid field definition, expected: <name> <type> [constraints...]"
  end.

Fixpoint columns_loop (specs : list str) (fields : list FieldDef) (names_seen : list str) (pk_seen : bool) : result (list FieldDef) :=
  match specs with
  | [] => if bool_decide (fields = []) then Err "ERR at least one column is required" else Ok fields
  | col_spec :: specs =>
      let col_spec := trim col_spec in
      if bool_decide (col_spec = []) then columns_loop specs fields names_seen pk_seen
      else
        field ← parse_field_def col_spec;
        if bool_decide (f_name field ∈ names_seen) then Err "ERR duplicate column name"
        else if primary_key field && pk_seen then Err "ERR only one PRIMARY KEY column is allowed"
        else columns_loop specs (fields ++ [field]) (f_name field :: names_seen) (pk_seen || primary_key field)
  end.

Definition strip_last (c : Z) (s : str) : str := if ends_with s c then take (length s - 1) s else s.

Definition parse_column_list (args : list str) : result (list FieldDef) :=
  let raw := trim (strip_last 59 (trim (join [32] args))) in
  let inner := if starts_with raw [40] && ends_with raw 41 then slice raw 1 (length raw - 1) else raw in
  columns_loop (split_by (Z.eqb 44) inner []) [] [] false.

End Columns.

(** ** Stored declarations *)

Definition BAR : Z := 124.
Definition COLON : Z := 58.

Definition on_delete_text (a : OnDelete) : str :=
  match a with Restrict => bs "restrict" | Cascade => bs "cascade" | SetNull => bs "setnull" end.

Definition encode_field_def (def : FieldDef) : str :=
  let parts (type_str : str) : str :=
    join [BAR] (
      [type_str] ++
      (if primary_key def then [bs "pk"] else []) ++
      (if unique def then [bs "unique"] else []) ++
      (if nullable def then [] else [bs "notnull"]) ++
      match references def with
      | Some fk => [bs "ref:" ++ fk_table fk ++ bs ":" ++ fk_column fk ++ bs ":" ++ on_delete_text (on_delete fk)]
      | None => []
      end ++
      match default_value def with
      | Some v => [bs "default:" ++ replace BAR [BACKSLASH; BAR] (replace BACKSLASH [BACKSLASH; BACKSLASH] v)]
      | None => []
      end ++
      match sequence_partition def with Some p => [bs "seqpart:" ++ p] | None => [] end ++
      (if encrypted def then [bs "encrypted"] else []) ++
      (if searchable def then [bs "searchable"] else [])) in
  match field_type def with
  | TStr => parts (bs "str")
  | TInt => parts (bs "int")
  | TFloat => parts (bs "float")
  | TBool => parts (bs "bool")
  | TTimestamp => parts (bs "timestamp")
  | TUuid => parts (bs "uuid")
  | TVector dims => parts (bs "vector:" ++ fmt_u dims)
  | TJson => parts (bs "json")
  | TArray => parts (bs "array")
  | TRef t => bs "ref|" ++ t
  end.

(** [s.replace(pattern, by)] for the pattern of the two characters [a] and [b]. *)
Fixpoint replace_pair (a b : Z) (by_ s : str) : str :=
  match s with
  | c :: s' => match s' with
               | d :: s'' => if (c =? a) && (d =? b) then by_ ++ replace_pair a b by_ s'' else c :: replace_pair a b by_ s'
               | [] => [c]
               end
  | [] => []
  end.

Fixpoint splitn (n : nat) (c : Z) (s current : str) : list str :=
  match n with
  | O => []
  | 1%nat => [current ++ s]
  | S n' => match s with
            | [] => [current]
            | d :: s => if d =? c then current :: splitn n' c s [] else splitn n c s (current ++ [d])
            end
  end.

Definition decode_type (type_str : str) (parts : list str) : FieldType :=
  if bytes_eqb type_str (bs "str") then TStr
  else if bytes_eqb type_str (bs "int") then TInt
  else if bytes_eqb type_str (bs "float") then TFloat
  else if bytes_eqb type_str (bs "bool") then TBool
  else if bytes_eqb type_str (bs "timestamp") then TTimestamp
  else if bytes_eqb type_str (bs "uuid") then TUuid
  else if bytes_eqb type_str (bs "json") then TJson
  else if bytes_eqb type_str (bs "array") then TArray
  else if starts_with type_str (bs "vector:") then TVector (default 0 (parse_u64 (drop 7 type_str)))
  else if bytes_eqb type_str (bs "ref") then TRef (default [] (head parts))
  else TStr.

Definition decode_flag (d : FieldDef) (flag : str) : FieldDef :=
  if bytes_eqb flag (bs "pk") then set_pk d
  else if bytes_eqb flag (bs "unique") then set_unique d
  else if bytes_eqb flag (bs "notnull") then set_nullable false d
  else if starts_with flag (bs "ref:") then
    match splitn 3 COLON (drop 4 flag) [] with
    | [table; column; action] =>
        set_references (mkFk table column (if bytes_eqb action (bs "cascade") then Cascade
                                           else if bytes_eqb action (bs "setnull") then SetNull else Restrict)) d
    | _ => d
    end
  else if starts_with flag (bs "default:") then
    set_default (replace_pair BACKSLASH BACKSLASH [BACKSLASH] (replace_pair BACKSLASH BAR [BAR] (drop 8 flag))) d
  else if starts_with flag (bs "seqpart:") then set_partition (drop 8 flag) d
  else if bytes_eqb flag (bs "encrypted") then set_encrypted d
  else if bytes_eqb flag (bs "searchable") then set_searchable d
  else d.

Definition decode_field_def (name encoded : str) : FieldDef :=
  match split_by (Z.eqb BAR) encoded [] with
  | type_str :: flags => foldl decode_flag (bare name (decode_type type_str flags)) flags
  | [] => bare name TStr
  end.

(** Indexes on paths into JSON columns. *)
Definition index_type_token (ft : FieldType) : option str :=
  match ft with
  | TInt => Some (bs "int")
  | TFloat => Some (bs "float")
  | TBool => Some (bs "bool")
  | TTimestamp => Some (bs "timestamp")
  | TStr => Some (bs "str")
  | _ => None
  end.

Definition parse_index_type (tok : str) : option FieldType :=
  let t := to_uppercase tok in
  if any_of ["INT"; "INTEGER"; "BIGINT"]%string t then Some TInt
  else if any_of ["FLOAT"; "REAL"; "DOUBLE"]%string t then Some TFloat
  else if any_of ["BOOL"; "BOOLEAN"]%string t then Some TBool
  else if any_of ["TIMESTAMP"; "DATETIME"]%string t then Some TTimestamp
  else if any_of ["STR"; "TEXT"; "STRING"]%string t then Some TStr
  else None.

Definition synthetic_path_fielddef (pi : PathIndex) : FieldDef := bare (p_path pi) (p_type pi).

(** ** Cells *)

Definition is_ascii_hexdigit (c : Z) : bool := in_rng 48 57 c || in_rng 65 70 c || in_rng 97 102 c.
Definition hex_value (c : Z) : Z := if in_rng 48 57 c then c - 48 else if in_rng 65 70 c then c - 55 else c - 87.

(** The bytes of the pairs of hexadecimal digits. *)
Fixpoint hex_bytes (hex : str) : bytes :=
  match hex with
  | a :: b :: hex => (16 * hex_value a + hex_value b) :: hex_bytes hex
  | _ => []
  end.

(** [{:02x}] *)
Definition hex2 (b : Z) : str := [Jsonb.Jsonb.hex_digit (b / 16); Jsonb.Jsonb.hex_digit (b mod 16)].
Definition hex_text (l : bytes) : str := concat (hex2 <$> l).
Definition uuid_text (b : bytes) : str :=
  hex_text (take 4 b) ++ bs "-" ++ hex_text (slice b 4 6) ++ bs "-" ++ hex_text (slice b 6 8) ++ bs "-" ++
  hex_text (slice b 8 10) ++ bs "-" ++ hex_text (drop 10 b).

Definition bool_texts (b : bool) : list string := if b then ["true"; "1"]%string else ["false"; "0"]%string.

Section Cells.

(** The texts of doubles and of single-precision numbers, the JSON reader, the rounding of wide
    integers and the text of doubles in JSON, and the time in milliseconds. *)
Context (parse_f64 : str -> option Z) (fmt_f64 : Z -> str).
Context {F32 : Type} (parse_f32 : str -> option F32) (fmt_f32 : F32 -> str).
Context (from_str : str -> option Jsonb.Jsonb.Value) (as_f64 : Z -> Z) (json_f64 : Z -> option bytes).
Context (now_ms : Z).

Definition parse_vector_value (value : str) (dims : Z) : result (list F32) :=
  vector ← parse_vector_literal parse_f32 value;
  if zlen vector =? dims then Ok vector else Err "ERR VECTOR(n) expected n values".

Definition format_vector_value (vector : list F32) : str := join [44] (fmt_f32 <$> vector).

Definition or_err {A : Type} (message : string) (o : option A) : result A := match o with Some a => Ok a | None => Err message end.

Definition is_array (v : Jsonb.Jsonb.Value) : bool := match v with Jsonb.Jsonb.Array _ => true | _ => false end.

Definition encode_value (t : FieldType) (value : str) : result bytes :=
  match t with
  | TStr => Ok (as_bytes value)
  | TInt => n ← or_err "ERR invalid int" (parse_i64 value); Ok (le_bytes 8 n)
  | TFloat => f ← or_err "ERR invalid float" (parse_f64 value); Ok (le_bytes 8 f)
  | TBool =>
      if any_of (bool_texts true) value then Ok [1]
      else if any_of (bool_texts false) value then Ok [0]
      else Err "ERR invalid bool"
  | TTimestamp =>
      n ← if bytes_eqb value (bs "*") then Ok (as_i64 now_ms) else or_err "ERR invalid timestamp" (parse_i64 value);
      Ok (le_bytes 8 n)
  | TUuid =>
      let hex := filter is_ascii_hexdigit value in
      if negb (zlen hex =? 32) then Err "ERR invalid UUID" else Ok (hex_bytes hex)
  | TVector dims => vector ← parse_vector_value value dims; Ok (as_bytes (format_vector_value vector))
  | TJson => parsed ← or_err "ERR invalid JSON" (from_str value); Ok (Jsonb.Jsonb.encode as_f64 parsed)
  | TArray =>
      parsed ← or_err "ERR invalid JSON array" (from_str value);
      if is_array parsed then Ok (Jsonb.Jsonb.encode as_f64 parsed) else Err "ERR expected JSON array"
  | TRef _ => n ← or_err "ERR invalid ref" (parse_i64 value); Ok (le_bytes 8 n)
  end.

Definition decode_value (t : FieldType) (b : bytes) : str :=
  let eight (f : Z -> str) : str := if (length b =? 8)%nat then f (le_decode b) else lossy b in
  match t with
  | TStr | TVector _ => lossy b
  | TUuid => if (length b =? 16)%nat then uuid_text b else lossy b
  | TInt | TRef _ | TTimestamp => eight (fun n => fmt_i (as_i64 n))
  | TFloat => eight fmt_f64
  | TBool => if bool_decide (head b = Some 1) then bs "true" else bs "false"
  | TJson | TArray => lossy (Jsonb.Jsonb.to_json_string json_f64 b)
  end.

Definition validate_value (field : FieldDef) (value : str) : result unit :=
  match field_type field with
  | TStr => Ok tt
  | TInt | TRef _ => _ ← or_err "ERR column expects INT" (parse_i64 value); Ok tt
  | TFloat => _ ← or_err "ERR column expects FLOAT" (parse_f64 value); Ok tt
  | TBool => if any_of ["true"; "false"; "1"; "0"]%string value then Ok tt else Err "ERR column expects BOOL (true/false/1/0)"
  | TTimestamp =>
      if bytes_eqb value (bs "*") then Ok tt
      else _ ← or_err "ERR column expects TIMESTAMP (epoch ms or *)" (parse_i64 value); Ok tt
  | TUuid => if negb (zlen (filter is_ascii_hexdigit value) =? 32) then Err "ERR column expects UUID" else Ok tt
  | TVector dims => _ ← parse_vector_value value dims; Ok tt
  | TJson => _ ← or_err "ERR column expects JSON" (from_str value); Ok tt
  | TArray =>
      parsed ← or_err "ERR column expects a JSON array" (from_str value);
      if is_array parsed then Ok tt else Err "ERR column expects a JSON array"
  end.

End Cells.

(** ** Lemmas on texts *)

Definition scalar_value (c : Z) : Prop := 0 <= c < 55296 \/ 57344 <= c < 1114112.

Lemma in_rng_yes lo hi x : lo <= x <= hi -> in_rng lo hi x = true.
Proof. unfold in_rng. zbool. lia. Qed.

Lemma in_rng_no lo hi x : x < lo \/ hi < x -> in_rng lo hi x = false.
Proof. unfold in_rng. zbool. lia. Qed.

(** Decides the comparisons of a goal whose truth follows from the hypotheses. *)
Ltac decide_tests :=
  repeat match goal with
  | |- context [in_rng ?a ?b ?x] => first [rewrite (in_rng_yes a b x) by lia | rewrite (in_rng_no a b x) by lia]
  | |- context [?x =? ?y] => first [rewrite (proj2 (Z.eqb_eq x y)) by lia | rewrite (proj2 (Z.eqb_neq x y)) by lia]
  | |- context [?x <? ?y] => first [rewrite (proj2 (Z.ltb_lt x y)) by lia | rewrite (proj2 (Z.ltb_ge x y)) by lia]
  end.

Lemma utf8_next_two q r rest : 2 <= q < 32 -> 0 <= r < 64 ->
  utf8_next (192 + q) ([128 + r] ++ rest) = (Some (64 * q + r), [192 + q; 128 + r], rest).
Proof. intros Hq Hr. unfold utf8_next, utf8_lead. decide_tests. cbn. decide_tests. do 3 f_equal. lia. Qed.

Lemma utf8_next_three p q r rest : 0 <= p < 16 -> 0 <= q < 64 -> 0 <= r < 64 -> (p = 0 -> 32 <= q) -> (p = 13 -> q < 32) ->
  utf8_next (224 + p) ([128 + q; 128 + r] ++ rest) = (Some (4096 * p + 64 * q + r), [224 + p; 128 + q; 128 + r], rest).
Proof.
  intros Hp Hq Hr H0 H13. unfold utf8_next, utf8_lead.
  assert (p = 0 \/ 1 <= p <= 12 \/ p = 13 \/ 14 <= p <= 15) as [?|[?|[?|?]]] by lia;
    decide_tests; cbn; decide_tests; cbn; do 3 f_equal; lia.
Qed.

Lemma utf8_next_four p o q r rest : 0 <= p < 5 -> 0 <= o < 64 -> 0 <= q < 64 -> 0 <= r < 64 -> (p = 0 -> 16 <= o) -> (p = 4 -> o < 16) ->
  utf8_next (240 + p) ([128 + o; 128 + q; 128 + r] ++ rest) =
  (Some (262144 * p + 4096 * o + 64 * q + r), [240 + p; 128 + o; 128 + q; 128 + r], rest).
Proof.
  intros Hp Ho Hq Hr H0 H4. unfold utf8_next, utf8_lead.
  assert (p = 0 \/ 1 <= p <= 3 \/ p = 4) as [?|[?|?]] by lia; decide_tests; cbn; decide_tests; cbn; do 3 f_equal; lia.
Qed.

Lemma utf8_char_next c : scalar_value c ->
  exists b mid, utf8_char c = b :: mid /\ forall rest, utf8_next b (mid ++ rest) = (Some c, utf8_char c, rest).
Proof.
  unfold scalar_value, utf8_char. intros Hc.
  destruct (c <? 128) eqn:E1; zbool; [|destruct (c <? 2048) eqn:E2; zbool; [|destruct (c <? 65536) eqn:E3; zbool]].
  - exists c, []. split; [done|]. intros rest. unfold utf8_next. by decide_tests.
  - exists (192 + c / 64), [128 + c mod 64]. split; [done|]. intros rest. rewrite utf8_next_two by lia. do 3 f_equal. lia.
  - exists (224 + c / 4096), [128 + c / 64 mod 64; 128 + c mod 64]. split; [done|]. intros rest.
    rewrite utf8_next_three by lia. do 3 f_equal. lia.
  - exists (240 + c / 262144), [128 + c / 4096 mod 64; 128 + c / 64 mod 64; 128 + c mod 64]. split; [done|]. intros rest.
    rewrite utf8_next_four by lia. do 3 f_equal. lia.
Qed.

(** A text is read back from its bytes. *)
Lemma lossy_as_bytes s : Forall scalar_value s -> lossy (as_bytes s) = s.
Proof.
  intros Hs. unfold lossy, utf8_chunks.
  assert (forall fuel, (length (as_bytes s) <= fuel)%nat -> (fun c : option Z * bytes => default 65533 c.1) <$> utf8_chunks_go fuel (as_bytes s) = s) as G;
    [|by apply G].
  induction Hs as [|c s Hc Hs IH]; intros fuel Hf; [by destruct fuel|].
  unfold as_bytes in *. cbn [fmap list_fmap concat] in *.
  destruct (utf8_char_next c Hc) as (b & mid & E & Hn). rewrite E in *. cbn [app length] in *. rewrite length_app in Hf.
  destruct fuel as [|fuel]; [lia|]. cbn [utf8_chunks_go]. rewrite Hn. cbn. f_equal. apply IH. lia.
Qed.

(** ** Stored declarations are read back *)

Lemma split_by_skip f a : forall b cur, Forall (fun c => f c = false) a -> split_by f (a ++ b) cur = split_by f b (cur ++ a).
Proof.
  induction a as [|c a IH]; intros b cur Ha; [by rewrite app_nil_r|]. inversion_clear Ha as [|? ? Hc Ht]. cbn. rewrite Hc, IH by done.
  by rewrite <-(assoc_L (++)).
Qed.

Lemma split_join c parts : parts <> [] -> Forall (fun p => c ∉ p) parts -> split_by (Z.eqb c) (join [c] parts) [] = parts.
Proof.
  intros Hne Hp. assert (forall p, c ∉ p -> Forall (fun x => (c =? x) = false) p) as Hf.
  { intros p Hc. apply Forall_forall. intros x Hx. apply Z.eqb_neq. set_solver. }
  induction Hp as [|p parts Hc Hp IH]; [done|]. destruct parts as [|p' parts].
  - cbn. rewrite <-(app_nil_r p) at 1. rewrite split_by_skip by auto. done.
  - change (join [c] (p :: p' :: parts)) with (p ++ c :: join [c] (p' :: parts)). rewrite split_by_skip by auto.
    cbn [app split_by]. rewrite Z.eqb_refl. f_equal. by apply IH.
Qed.

Lemma replace_absent c by_ s : c ∉ s -> replace c by_ s = s.
Proof.
  unfold replace. induction s as [|d s IH]; intros Hc; [done|]. cbn. rewrite not_elem_of_cons in Hc. destruct Hc as [Hd Hs].
  rewrite (proj2 (Z.eqb_neq d c)) by done. cbn. f_equal. by apply IH.
Qed.

Lemma replace_pair_absent a b by_ s : b ∉ s -> replace_pair a b by_ s = s.
Proof.
  induction s as [|c s IH]; intros Hb; [done|]. cbn. apply not_elem_of_cons in Hb as [Hc Hs].
  destruct s as [|d s]; [done|]. rewrite not_elem_of_cons in Hs. destruct Hs as [Hd Hs].
  rewrite (proj2 (Z.eqb_neq d b)), andb_false_r by done. f_equal. apply IH. set_solver.
Qed.

Lemma replace_pair_doubled b s : replace_pair b b [b] (replace b [b; b] s) = s.
Proof.
  unfold replace. induction s as [|d s IH]; [done|]. cbn. destruct (d =? b) eqn:E.
  - apply Z.eqb_eq in E as ->. cbn. by rewrite Z.eqb_refl, IH.
  - cbn. rewrite E. destruct (concat _) eqn:Ec; cbn in *; [by rewrite <-IH|]. by rewrite IH.
Qed.

Lemma elem_of_replace x c by_ s : x ∈ replace c by_ s -> x ∈ by_ \/ x ∈ s.
Proof.
  unfold replace. intros Hx. apply list_elem_of_In, in_concat in Hx as (l & Hl & Hxl). apply in_map_iff in Hl as (d & <- & Hd).
  destruct (d =? c); [left; by apply list_elem_of_In|]. right. apply list_elem_of_In in Hxl. apply list_elem_of_singleton in Hxl as ->.
  by apply list_elem_of_In.
Qed.

Lemma splitn_skip c a : forall n b cur, (1 < n)%nat -> c ∉ a -> splitn n c (a ++ c :: b) cur = (cur ++ a) :: splitn (n - 1) c b [].
Proof.
  induction a as [|d a IH]; intros n b cur Hn Ha; (destruct n as [|[|n]]; [lia..|]); cbn [app splitn].
  - rewrite Z.eqb_refl, app_nil_r. cbn [Nat.sub]. reflexivity.
  - rewrite not_elem_of_cons in Ha. destruct Ha as [Hd Ha]. rewrite (proj2 (Z.eqb_neq d c)) by done.
    rewrite IH by done. by rewrite <-(assoc_L (++)).
Qed.

(** ** What the parser guarantees *)

Section Declared.

Context `{Letters}.

(** What holds of a column that was declared in a text. *)
Record declared (d : FieldDef) : Prop := {
  declared_name : is_valid_name (f_name d) = true;
  declared_type : match field_type d with TVector dims => 0 < dims <= usize_max | TRef _ => False | _ => True end;
  declared_fk : forall fk, references d = Some fk -> is_valid_table_name (fk_table fk) = true /\ is_valid_name (fk_column fk) = true;
  declared_partition : forall p, sequence_partition d = Some p -> is_valid_name p = true;
  declared_pk : primary_key d = true -> unique d = true }.

Lemma punctuation_not_alphanumeric c : 0 <= c < 128 -> is_ascii_alphanumeric c = false -> is_alphanumeric c = false.
Proof. intros Hc Ha. by rewrite alphanumeric_ascii. Qed.

Lemma name_without c name : is_valid_name name = true -> 0 <= c < 128 -> is_ascii_alphanumeric c = false -> c <> 95 -> c ∉ name.
Proof.
  unfold is_valid_name. intros [_ Hn]%andb_true_iff Hc Ha H95 Hin. rewrite forallb_forall in Hn.
  specialize (Hn c (proj1 (list_elem_of_In _ _) Hin)). rewrite punctuation_not_alphanumeric in Hn by done. cbn in Hn. lia.
Qed.

Lemma table_without c name : is_valid_table_name name = true -> 0 <= c < 128 -> is_ascii_alphanumeric c = false -> c <> 95 -> c <> 46 -> c ∉ name.
Proof.
  unfold is_valid_table_name. intros [[[[_ Hn]%andb_true_iff _]%andb_true_iff _]%andb_true_iff _]%andb_true_iff Hc Ha H95 H46 Hin.
  rewrite forallb_forall in Hn. specialize (Hn c (proj1 (list_elem_of_In _ _) Hin)).
  rewrite punctuation_not_alphanumeric in Hn by done. cbn in Hn. lia.
Qed.

Lemma parse_ref_spec_valid spec t c : parse_ref_spec spec = Ok (t, c) -> is_valid_table_name t = true /\ is_valid_name c = true.
Proof.
  unfold parse_ref_spec. destruct (split_paren _ _) as [[before after]|]; [|done]. case_tests; try done. intros [= <- <-].
  by split; apply negb_false_iff.
Qed.

Lemma constraints_declared fuel : forall tokens d d', constraints_loop fuel tokens d = Ok d' -> declared d -> declared d' /\ f_name d' = f_name d.
Proof.
  induction fuel as [|fuel IH]; intros tokens d d' E Hd; destruct tokens as [|t rest]; cbn [constraints_loop] in E; try done; [by injection E as <-..|].
  assert (forall rest d1, constraints_loop fuel rest d1 = Ok d' -> declared d1 -> f_name d1 = f_name d -> declared d' /\ f_name d' = f_name d) as go.
  { intros rest1 d1 E1 Hd1 Hn1. destruct (IH _ _ _ E1 Hd1) as [? ?]. split; [done|congruence]. }
  destruct Hd as [Hn Ht Hf Hp Hk].
  repeat match type of E with (if ?b then _ else _) = _ => destruct b eqn:?; [|] end; try done.
  - eapply go; [exact E| |done]. by constructor.
  - eapply go; [exact E| |done]. by constructor.
  - destruct rest as [|v rest]; [done|]. eapply go; [exact E| |done]. by constructor.
  - destruct rest as [|a [|b [|p rest]]]; try done. destruct (_ && _); [|done]. destruct (is_valid_name p) eqn:Ep; [|done].
    eapply go; [exact E| |done]. constructor; try done. by intros ? [= <-].
  - eapply go; [exact E| |done]. by constructor.
  - eapply go; [exact E| |done]. by constructor.
  - destruct rest as [|k rest]; [done|]. destruct (upper_eq _ k); [|done]. eapply go; [exact E| |done]. by constructor.
  - eapply go; [exact E| |done]. by constructor.
  - destruct rest as [|spec rest]; [done|]. destruct (parse_ref_spec spec) as [[tb cl]|] eqn:Er; [|done]. cbn in E.
    destruct (parse_on_delete rest) as [[act rest']|]; [|done]. cbn in E. eapply go; [exact E| |done].
    constructor; try done. intros fk [= <-]. by apply (parse_ref_spec_valid spec).
Qed.

Lemma parse_type_declared ty t : parse_type ty = Ok t -> match t with TVector dims => 0 < dims <= usize_max | TRef _ => False | _ => True end.
Proof.
  unfold parse_type. intros E.
  repeat match type of E with (if ?b then _ else _) = _ => destruct b eqn:?; [by injection E as <-|] end.
  destruct (_ && _); [|done]. destruct (parse_u64 _) as [dims|] eqn:Ed; [|done].
  destruct (dims =? 0) eqn:E0; [done|]. injection E as <-. apply Z.eqb_neq in E0.
  apply parse_u64_range in Ed. lia.
Qed.

Lemma parse_declared spec d : parse_field_def spec = Ok d -> declared d.
Proof.
  unfold parse_field_def. destruct (tokenize_field_def spec) as [tokens|]; [|done]. cbn.
  destruct tokens as [|name [|ty rest]]; try done. destruct (is_valid_name name) eqn:En; [|done]. cbn.
  destruct (parse_type ty) as [t|] eqn:Et; [|done]. cbn. destruct (constraints_loop _ _ _) as [f|] eqn:Ec; [|done]. cbn.
  destruct (field_supports_encryption f); [|done]. intros [= <-]. apply constraints_declared in Ec as [? _]; [done|].
  constructor; cbn; try done. by apply parse_type_declared with ty.
Qed.

End Declared.

Lemma decode_ref d t c a : COLON ∉ t -> COLON ∉ c ->
  decode_flag d (bs "ref:" ++ t ++ bs ":" ++ c ++ bs ":" ++ on_delete_text a) = set_references (mkFk t c a) d.
Proof.
  intros Ht Hc. change (decode_flag d (bs "ref:" ++ t ++ bs ":" ++ c ++ bs ":" ++ on_delete_text a)) with
    (match splitn 3 COLON (t ++ COLON :: c ++ COLON :: on_delete_text a) [] with
     | [table; column; action] =>
         set_references (mkFk table column (if bytes_eqb action (bs "cascade") then Cascade
                                            else if bytes_eqb action (bs "setnull") then SetNull else Restrict)) d
     | _ => d
     end).
  rewrite splitn_skip by (done || lia). cbn [Nat.sub]. rewrite splitn_skip by (done || lia). cbn [Nat.sub splitn app].
  by destruct a.
Qed.

Lemma decode_default d v : BAR ∉ v ->
  decode_flag d (bs "default:" ++ replace BAR [BACKSLASH; BAR] (replace BACKSLASH [BACKSLASH; BACKSLASH] v)) = set_default v d.
Proof.
  intros Hv. assert (BAR ∉ replace BACKSLASH [BACKSLASH; BACKSLASH] v) as Hr.
  { intros [Hx|Hx]%elem_of_replace; [|done]. by repeat (apply elem_of_cons in Hx as [Hx|Hx]; [done|]); apply elem_of_nil in Hx. }
  rewrite replace_absent by done.
  change (set_default (replace_pair BACKSLASH BACKSLASH [BACKSLASH] (replace_pair BACKSLASH BAR [BAR] (replace BACKSLASH [BACKSLASH; BACKSLASH] v))) d = set_default v d).
  rewrite (replace_pair_absent BACKSLASH BAR) by done. by rewrite replace_pair_doubled.
Qed.

(** The flags that follow the type in the text of a declaration. *)
Definition flags_of (d : FieldDef) : list str :=
  (if primary_key d then [bs "pk"] else []) ++
  (if unique d then [bs "unique"] else []) ++
  (if nullable d then [] else [bs "notnull"]) ++
  match references d with
  | Some fk => [bs "ref:" ++ fk_table fk ++ bs ":" ++ fk_column fk ++ bs ":" ++ on_delete_text (on_delete fk)]
  | None => []
  end ++
  match default_value d with
  | Some v => [bs "default:" ++ replace BAR [BACKSLASH; BAR] (replace BACKSLASH [BACKSLASH; BACKSLASH] v)]
  | None => []
  end ++
  match sequence_partition d with Some p => [bs "seqpart:" ++ p] | None => [] end ++
  (if encrypted d then [bs "encrypted"] else []) ++
  (if searchable d then [bs "searchable"] else []).

(** The type word of a declaration. *)
Definition type_word (t : FieldType) : str :=
  match t with
  | TStr => bs "str" | TInt => bs "int" | TFloat => bs "float" | TBool => bs "bool" | TTimestamp => bs "timestamp"
  | TUuid => bs "uuid" | TVector dims => bs "vector:" ++ fmt_u dims | TJson => bs "json" | TArray => bs "array" | TRef _ => bs "ref"
  end.

Lemma encode_parts d : is_ref_type (field_type d) = false -> encode_field_def d = join [BAR] (type_word (field_type d) :: flags_of d).
Proof. unfold encode_field_def. by destruct (field_type d). Qed.

(** A declaration as it is after a restart: a primary key is never nullable. *)
Definition reloaded (d : FieldDef) : FieldDef := set_nullable (nullable d && negb (primary_key d)) d.

Lemma decode_flags d : (forall v, default_value d = Some v -> BAR ∉ v) ->
  (forall fk, references d = Some fk -> COLON ∉ fk_table fk /\ COLON ∉ fk_column fk) -> (primary_key d = true -> unique d = true) ->
  foldl decode_flag (bare (f_name d) (field_type d)) (flags_of d) = reloaded d.
Proof.
  intros Hv Hf Hk. unfold flags_of. rewrite !foldl_app. destruct d as [n t pk un nl df sp rf en se].
  cbn [f_name field_type primary_key unique nullable default_value sequence_partition references encrypted searchable] in *.
  destruct rf as [[tb cl act]|]; cbn [foldl fk_table fk_column on_delete];
    [destruct (Hf _ eq_refl) as [? ?]; rewrite decode_ref by done|];
    (destruct df as [v|]; cbn [foldl]; [rewrite decode_default by (by apply Hv)|]);
    destruct pk, un, nl, sp, en, se; try reflexivity; by specialize (Hk eq_refl).
Qed.

Lemma decode_type_word t flags : match t with TVector dims => 0 < dims <= usize_max | TRef _ => False | _ => True end ->
  decode_type (type_word t) flags = t.
Proof.
  destruct t as [| | | | | |dims| | |]; try done. intros Hd. cbn [type_word].
  change (TVector (default 0 (parse_u64 (fmt_u dims))) = TVector dims). by rewrite parse_u64_fmt_u by lia.
Qed.

Section Stored.

Context `{Letters}.

Lemma bar_free d : declared d -> (forall v, default_value d = Some v -> BAR ∉ v) -> Forall (fun p => BAR ∉ p) (type_word (field_type d) :: flags_of d).
Proof.
  intros [Hn Ht Hf Hp _] Hv. assert (forall s, is_valid_name s = true -> BAR ∉ s) as Hname by (intros s Hs; by apply (name_without BAR s)).
  assert (forall s, is_valid_table_name s = true -> BAR ∉ s) as Htable by (intros s Hs; by apply (table_without BAR s)).
  assert (forall k, bool_decide (BAR ∈ bs k) = false -> BAR ∉ bs k) as Hbs by (intros k Hk; by apply bool_decide_eq_false in Hk).
  constructor.
  { destruct (field_type d); try (by apply Hbs). cbn [type_word]. rewrite elem_of_app. intros [Hx|Hx]; [by revert Hx; apply Hbs|].
    pose proof (fmt_u_digits dims) as Hd. rewrite Forall_forall in Hd. by specialize (Hd _ Hx). }
  unfold flags_of. rewrite !Forall_app. repeat split.
  - destruct (primary_key d); repeat constructor. by apply Hbs.
  - destruct (unique d); repeat constructor. by apply Hbs.
  - destruct (nullable d); repeat constructor. by apply Hbs.
  - destruct (references d) as [[tb cl act]|]; repeat constructor. destruct (Hf _ eq_refl) as [H1 H2]. cbn in H1, H2.
    cbn [fk_table fk_column on_delete]. rewrite !not_elem_of_app. repeat split; try (by apply Hbs); auto.
    destruct act; by apply Hbs.
  - destruct (default_value d) as [v|]; repeat constructor. rewrite not_elem_of_app. split; [by apply Hbs|].
    assert (BAR ∉ replace BACKSLASH [BACKSLASH; BACKSLASH] v) as Hr.
    { intros [Hx|Hx]%elem_of_replace; [by repeat (apply elem_of_cons in Hx as [Hx|Hx]; [done|]); apply elem_of_nil in Hx|by apply (Hv v eq_refl)]. }
    by rewrite replace_absent.
  - destruct (sequence_partition d) as [p|]; repeat constructor. rewrite not_elem_of_app. split; [by apply Hbs|]. by apply Hname, Hp.
  - destruct (encrypted d); repeat constructor. by apply Hbs.
  - destruct (searchable d); repeat constructor. by apply Hbs.
Qed.

Lemma stored_declaration d : declared d -> (forall v, default_value d = Some v -> BAR ∉ v) ->
  decode_field_def (f_name d) (encode_field_def d) = reloaded d.
Proof.
  intros Hd Hv. pose proof (bar_free d Hd Hv) as Hb. destruct Hd as [Hn Ht Hf Hp Hk].
  rewrite encode_parts by (by destruct (field_type d)). unfold decode_field_def. rewrite split_join by done.
  rewrite decode_type_word by done. apply decode_flags; [done| |done].
  intros fk Hfk. destruct (Hf fk Hfk) as [H1 H2]. split; [by apply (table_without COLON)|by apply (name_without COLON)].
Qed.

(** A column that was declared in a text is read back from the text that is stored for it, with the
    same name, type, flags, foreign key, default and partition, if its default has no bar; a primary key
    is read back as not nullable. *)
Theorem column_roundtrip spec d : parse_field_def spec = Ok d -> (forall v, default_value d = Some v -> BAR ∉ v) ->
  decode_field_def (f_name d) (encode_field_def d) = reloaded d.
Proof. intros Hp. apply stored_declaration. by apply parse_declared with spec. Qed.

End Stored.

(** ** Cells are read back *)

Lemma hex_digit_ok d : 0 <= d < 16 -> is_ascii_hexdigit (Jsonb.Jsonb.hex_digit d) = true /\ hex_value (Jsonb.Jsonb.hex_digit d) = d.
Proof. intros Hd. unfold Jsonb.Jsonb.hex_digit, is_ascii_hexdigit, hex_value. destruct (d <? 10) eqn:E; zbool; decide_tests; cbn; lia. Qed.

Lemma hex2_bytes b rest : byte_ok b -> hex_bytes (hex2 b ++ rest) = b :: hex_bytes rest.
Proof.
  unfold byte_ok. intros Hb. cbn. destruct (hex_digit_ok (b / 16)) as [_ ->]; [lia|]. destruct (hex_digit_ok (b mod 16)) as [_ ->]; [lia|]. f_equal. lia.
Qed.

Lemma hex_text_bytes l rest : Forall byte_ok l -> hex_bytes (hex_text l ++ rest) = l ++ hex_bytes rest.
Proof.
  unfold hex_text. induction 1 as [|b l Hb Hl IH]; [done|]. cbn [fmap list_fmap concat]. rewrite <-(assoc_L (++)), hex2_bytes by done.
  cbn. by rewrite IH.
Qed.

Lemma filter_hex_text l : Forall byte_ok l -> filter is_ascii_hexdigit (hex_text l) = hex_text l.
Proof.
  unfold hex_text, byte_ok. induction 1 as [|b l Hb Hl IH]; [done|]. cbn [fmap list_fmap concat]. rewrite filter_app, IH. f_equal.
  unfold hex2. rewrite !filter_cons_True by (apply Is_true_true; apply hex_digit_ok; lia). done.
Qed.

Lemma length_hex_text l : length (hex_text l) = (2 * length l)%nat.
Proof. unfold hex_text. induction l as [|b l IH]; [done|]. cbn in *. lia. Qed.

Lemma hex_value_range c : is_ascii_hexdigit c = true -> 0 <= hex_value c < 16.
Proof.
  unfold is_ascii_hexdigit, hex_value, in_rng. destruct ((48 <=? c) && (c <=? 57)) eqn:E1; [zbool; lia|].
  destruct ((65 <=? c) && (c <=? 70)) eqn:E2; [zbool; lia|]. cbn. intros E. zbool. lia.
Qed.

Lemma hex_bytes_ok : forall n hex, length hex = (2 * n)%nat -> forallb is_ascii_hexdigit hex = true ->
  Forall byte_ok (hex_bytes hex) /\ length (hex_bytes hex) = n.
Proof.
  induction n as [|n IH]; intros hex Hl Hh; [by destruct hex|]. destruct hex as [|a [|b hex]]; cbn in Hl; try lia.
  cbn in Hh. apply andb_true_iff in Hh as [Ha Hh]. apply andb_true_iff in Hh as [Hb Hh]. destruct (IH hex) as [Hf Hn]; [lia|done|].
  cbn. split; [|by rewrite Hn]. constructor; [|done]. apply hex_value_range in Ha, Hb. unfold byte_ok. lia.
Qed.

Lemma forallb_filter (f : Z -> bool) s : forallb f (filter f s) = true.
Proof. apply forallb_forall. intros x Hx. apply list_elem_of_In, list_elem_of_filter in Hx as [Hx _]. by apply Is_true_true. Qed.

Lemma uuid_digits b : length b = 16%nat -> Forall byte_ok b -> filter is_ascii_hexdigit (uuid_text b) = hex_text b.
Proof.
  intros Hl Hb. unfold uuid_text. rewrite !filter_app, !filter_hex_text by (unfold slice; auto using Forall_take, Forall_drop).
  cbn [filter]. change (filter is_ascii_hexdigit (bs "-")) with ([] : str). rewrite !app_nil_l. unfold hex_text, slice.
  rewrite <-!concat_app, <-!fmap_app. do 2 f_equal. do 16 (destruct b as [|? b]; [done|]). by destruct b.
Qed.

Lemma parse_i64_range l n : parse_i64 l = Some n -> i64_min <= n <= i64_max.
Proof.
  assert (forall (o : option Z) f, (v ← o; i64_checked (f v)) = Some n -> i64_min <= n <= i64_max) as G.
  { intros [v|] f; [|done]. cbn. intros (-> & Hv)%i64_checked_inv. exact Hv. }
  unfold parse_i64. intros Hp. destruct l as [|c l]; [done|]. repeat (case_match; try done); (by apply (G _ Z.opp) in Hp) || (by apply (G _ id) in Hp).
Qed.

Lemma i64_bytes_back n : i64_min <= n <= i64_max -> as_i64 (le_decode (le_bytes 8 n)) = n.
Proof.
  intros Hn. rewrite le_decode_le_bytes. change (256 ^ Z.of_nat 8) with u64_mod. unfold as_i64.
  rewrite Zminus_mod_idemp_l. apply (as_i64_small n Hn).
Qed.

Section Cells_back.

Context (parse_f64 : str -> option Z) (fmt_f64 : Z -> str).
Context {F32 : Type} (parse_f32 : str -> option F32) (fmt_f32 : F32 -> str).
Context (from_str : str -> option Jsonb.Jsonb.Value) (as_f64 : Z -> Z) (json_f64 : Z -> option bytes).
Context (now_ms : Z).

(** A parsed double is 64 bits, and the shortest text of a double is read as that double. *)
Class DoubleTexts : Prop := {
  double_bits : forall s f, parse_f64 s = Some f -> 0 <= f < u64_mod;
  double_text : forall s f, parse_f64 s = Some f -> parse_f64 (fmt_f64 f) = Some f }.

#[local] Notation encode := (encode_value parse_f64 parse_f32 fmt_f32 from_str as_f64 now_ms).
#[local] Notation decode := (decode_value fmt_f64 json_f64).
#[local] Notation validate := (validate_value parse_f64 parse_f32 from_str).

Definition scalar_type (t : FieldType) : bool := negb (is_json_type t) && negb (is_vector_type t).

Lemma validate_encode field v : is_ok (validate field v) = is_ok (encode (field_type field) v).
Proof.
  unfold validate_value, encode_value. destruct (field_type field) as [| | | | | |dims| | |]; try done.
  - by destruct (parse_i64 v).
  - by destruct (parse_f64 v).
  - unfold any_of, bool_texts. cbn [existsb]. by destruct (bytes_eqb v _), (bytes_eqb v _), (bytes_eqb v _), (bytes_eqb v _).
  - destruct (bytes_eqb v _); [done|]. by destruct (parse_i64 v).
  - by destruct (negb _).
  - by destruct (parse_vector_value _ v dims).
  - by destruct (from_str v).
  - destruct (from_str v) as [j|]; [|done]. cbn. by destruct (is_array j).
  - by destruct (parse_i64 v).
Qed.

Lemma fmt_i_not_star n : bytes_eqb (fmt_i n) (bs "*") = false.
Proof.
  apply bytes_eqb_neq. unfold fmt_i. destruct (n <? 0); [done|]. pose proof (fmt_u_digits n) as Hd. intros E. rewrite E in Hd.
  by inversion Hd.
Qed.

Lemma integer_back b n : i64_min <= n <= i64_max -> b = le_bytes 8 n ->
  parse_i64 (if (length b =? 8)%nat then fmt_i (as_i64 (le_decode b)) else lossy b) = Some n.
Proof. intros Hn ->. rewrite length_le_bytes, Nat.eqb_refl, i64_bytes_back by done. by apply parse_i64_fmt_i. Qed.

Lemma uuid_back v : length (filter is_ascii_hexdigit v) = 32%nat -> let b := hex_bytes (filter is_ascii_hexdigit v) in
  encode TUuid (decode TUuid b) = Ok b.
Proof.
  intros Hl b. destruct (hex_bytes_ok 16 (filter is_ascii_hexdigit v)) as [Hb Hn]; [done|apply forallb_filter|]. fold b in Hb, Hn.
  cbn [decode_value encode_value]. rewrite Hn, Nat.eqb_refl, uuid_digits by done. unfold zlen. rewrite length_hex_text, Hn. cbn [Z.eqb negb Z.of_nat].
  change (Z.of_nat (2 * 16) =? 32) with true. cbn [negb]. pose proof (hex_text_bytes b [] Hb) as E. by rewrite !app_nil_r in E; rewrite E.
Qed.

Lemma cell_reencoded `{!DoubleTexts} t v b : scalar_type t = true -> Forall scalar_value v -> encode t v = Ok b -> encode t (decode t b) = Ok b.
Proof.
  destruct t as [| | | | | |dims| | |]; cbn [scalar_type]; try done; intros _ Hv; unfold or_err.
  - cbn. intros [= <-]. by rewrite lossy_as_bytes.
  - cbn [encode_value decode_value]. destruct (parse_i64 v) as [n|] eqn:E; [|done]. intros [= <-]. apply parse_i64_range in E.
    by rewrite (integer_back _ n).
  - cbn [encode_value decode_value]. destruct (parse_f64 v) as [f|] eqn:E; [|done]. intros Hb. assert (b = le_bytes 8 f) as -> by (by injection Hb as <-).
    rewrite length_le_bytes, Nat.eqb_refl, le_u64_roundtrip by (by eapply double_bits). by rewrite (double_text v).
  - unfold encode_value. destruct (any_of _ v); [by intros [= <-]|]. destruct (any_of _ v); [|done]. by intros [= <-].
  - cbn [encode_value decode_value]. intros E.
    assert (exists n, i64_min <= n <= i64_max /\ b = le_bytes 8 n) as (n & Hn & ->).
    { destruct (bytes_eqb v (bs "*")); [injection E as <-; exists (as_i64 now_ms); split; [apply as_i64_range|done]|].
      destruct (parse_i64 v) as [n|] eqn:E'; [|done]. injection E as <-. exists n. split; [by eapply parse_i64_range|done]. }
    rewrite length_le_bytes, Nat.eqb_refl, i64_bytes_back, fmt_i_not_star by done. by rewrite parse_i64_fmt_i.
  - cbn [encode_value]. destruct (zlen _ =? 32) eqn:E; [|done]. cbn. intros [= <-]. apply uuid_back. zbool. unfold zlen in E. lia.
  - cbn [encode_value decode_value]. destruct (parse_i64 v) as [n|] eqn:E; [|done]. intros [= <-]. apply parse_i64_range in E. by rewrite (integer_back _ n).
Qed.

End Cells_back.

(** A value is accepted for a column exactly when it can be encoded, and the text that an accepted
    value is shown as is encoded as the same bytes, for every type but vectors and JSON: what is stored
    is fixed by what is shown. A text is shown as it was given. *)
Theorem cell_roundtrip (parse_f64 : str -> option Z) (fmt_f64 : Z -> str) {F32 : Type} (parse_f32 : str -> option F32) (fmt_f32 : F32 -> str)
    (from_str : str -> option Jsonb.Jsonb.Value) (as_f64 : Z -> Z) (json_f64 : Z -> option bytes) (now_ms : Z) (field : FieldDef) (v : str) :
  DoubleTexts parse_f64 fmt_f64 -> Forall scalar_value v ->
  let encode := encode_value parse_f64 parse_f32 fmt_f32 from_str as_f64 now_ms (field_type field) in
  let decode := decode_value fmt_f64 json_f64 (field_type field) in
  is_ok (validate_value parse_f64 parse_f32 from_str field v) = is_ok (encode v) /\
  (scalar_type (field_type field) = true -> forall b, encode v = Ok b -> encode (decode b) = Ok b) /\
  (field_type field = TStr -> forall b, encode v = Ok b -> decode b = v).
Proof.
  intros Hd Hv encode decode. split_and!; [apply validate_encode|intros; by eapply cell_reencoded|].
  subst encode decode. intros ->. cbn. intros b [= <-]. by apply lossy_as_bytes.
Qed.

(** ** Examples *)

Definition ascii_letters : Letters := {| is_alphanumeric := is_ascii_alphanumeric; alphanumeric_ascii := fun c _ => eq_refl |}.
#[local] Existing Instance ascii_letters.

Lemma column_roundtrip_witness :
  let d := mkDef (bs "team") TInt false true false (Some (bs "'a\\b c'")) None (Some (mkFk (bs "app.teams") (bs "id") Cascade)) false false in
  parse_field_def (bs "team BIGINT UNIQUE NOT NULL DEFAULT 'a\\b c' REFERENCES app.teams(id) ON DELETE CASCADE") = Ok d /\
  decode_field_def (bs "team") (encode_field_def d) = d.
Proof.
  intros d. assert (parse_field_def (bs "team BIGINT UNIQUE NOT NULL DEFAULT 'a\\b c' REFERENCES app.teams(id) ON DELETE CASCADE") = Ok d) as Hp by (vm_compute; reflexivity).
  split; [exact Hp|]. apply (column_roundtrip _ d Hp). intros v [= <-]. by apply (bool_decide_eq_false_1 (BAR ∈ _)).
Defined.

(** A bar in a default is escaped when it is stored and ends the default when it is read back; the rest
    of the default is then read as a flag of the column. *)
Example bar_in_default :
  exists d, parse_field_def (bs "note STR DEFAULT x|pk") = Ok d /\ primary_key d = false /\ default_value d = Some (bs "x|pk") /\
  let d' := decode_field_def (bs "note") (encode_field_def d) in primary_key d' = true /\ default_value d' = Some (bs "x\").
Proof. eexists. split; [vm_compute; reflexivity|]. by vm_compute. Qed.

(** The list of columns is cut at the commas inside quotes too. *)
Example comma_in_default : parse_field_def (bs "note STR DEFAULT 'a,b'") = Ok (set_default (bs "'a,b'") (bare (bs "note") TStr)) /\
  parse_column_list [bs "note STR DEFAULT 'a,b'"] = Err "ERR unterminated quoted literal".
Proof. split; vm_compute; reflexivity. Qed.

Lemma cell_roundtrip_witness :
  let encode := encode_value (fun _ => None) (fun _ => None) (fun _ : unit => []) (fun _ => None) id 0 TUuid in
  let decode := decode_value (fun _ => []) (fun _ => None) TUuid in
  let v := bs "{0190ABCD-0000-7000-8000-0123456789EF}" in
  decode (match encode v with Ok b => b | Err _ => [] end) = bs "0190abcd-0000-7000-8000-0123456789ef" /\
  forall b, encode v = Ok b -> encode (decode b) = Ok b.
Proof.
  intros encode decode v. split; [vm_compute; reflexivity|].
  apply (cell_roundtrip (fun _ => None) (fun _ => []) (fun _ => None) (fun _ : unit => []) (fun _ => None) id (fun _ => None) 0 (bare (bs "id") TUuid) v);
    [by split| |done].
  repeat constructor; unfold scalar_value; lia.
Defined.

End Schema.
