(* ===== verification/Tables.v ===== *)
(** * Rows of tables ([src/src/tables/mod.rs], lines 546-1180, 1239-1684, 2142-2284, 2528-2731, 2887-4270 and
      4506-4707, and [get_row] of [src/src/tables/select.rs])

    A row is a hash of the key space; its primary key is a member of the sorted set of the table, and
    its cells are entered in indexes. An insert, update or delete is first staged in a [TableMutation]:
    it reads the store, checks the constraints and collects the operations of a batch together with the
    final image of every row it touches. Then the images are written to the journal and the batch is
    published. Recovery builds the rows and the indexes again from the images.

    In this file a text is its UTF-8 bytes. The store is what readers see of it: the value under each
    key. Error messages are kept without the words of the request that they quote. Clocks are read once
    per operation. The numbers of floating point, JSON texts, the keyring and random identifiers are
    parameters. *)

From S2P Require Import Prelude.
From S2P Require Import Values.
From S2P Require Import Store.
From S2P Require Import Strings.
From S2P Require Import SortedSets.
From S2P Require Import TableBatch.
From S2P Require Import Commands.
From S2P Require Import Where.
From S2P Require Import Grants.
From S2P Require Import Jsonb.
From S2P Require Import Schema.
Local Open Scope Z_scope.

Module Tables.
Import Values.Values(HashData, mkHash, fields, live_fields).
Import Strings.Strings(WRONGTYPE).
Import SortedSets.SortedSets(ranking, f64_eq).
Import Store.Store(f64_is_nan, is_table_storage_key).
Import TableBatch.TableBatch.
Import Schema.Schema.

(** ** Parameters *)

(** Texts and conversions of doubles (bit patterns) and single-precision numbers; the JSON reader; the
    order in which a set is listed; the metadata text of a vector; the keyring; the time in
    milliseconds. *)
Class Env := {
  parse_f64 : bytes -> option Z;
  fmt_f64 : Z -> bytes;
  parse_f32 : bytes -> option Z;
  fmt_f32 : Z -> bytes;
  i64_as_f64 : Z -> Z;
  u64_as_f64 : Z -> Z;
  f64_as_i64 : Z -> Z;
  from_str : list Z -> option Jsonb.Jsonb.Value;
  json_f64 : Z -> option bytes;
  listed : gset bytes -> list bytes;
  vector_metadata : bytes -> bytes -> bytes -> bytes;
  encrypt : bytes -> bytes -> bytes -> bytes -> result bytes;
  decrypt : bytes -> bytes -> bytes -> bytes -> result bytes;
  blind_indexes : bytes -> bytes -> bytes -> result (list bytes);
  now_ms : Z
}.

(** ** Reads of the store *)

Definition Db : Type := bytes -> option TableValue.

(** A table and a primary key. The image of a row that is written to the journal: its cells, or its removal. *)
Notation identity := (bytes * bytes)%type.
Notation image := (option (list (bytes * bytes))).

Inductive TtlOp := TtlSet (secs : Z) | TtlClear.

Section Tables.

Context `{Env}.

Definition hgetall (d : Db) (key : bytes) : result (gmap bytes bytes) :=
  match d key with
  | None => Ok ∅
  | Some (TvHash h) => Ok (live_fields now_ms h)
  | Some _ => Err WRONGTYPE
  end.

Definition hget_checked (d : Db) (key field : bytes) : result (option bytes) := m ← hgetall d key; Ok (m !! field).

Definition get_checked (d : Db) (key : bytes) : result (option bytes) :=
  match d key with None => Ok None | Some (TvStr v) => Ok (Some v) | Some _ => Err WRONGTYPE end.

Definition zset_at (d : Db) (key : bytes) : result (gmap bytes Z) :=
  match d key with None => Ok ∅ | Some (TvZset m) => Ok m | Some _ => Err WRONGTYPE end.

Definition smembers (d : Db) (key : bytes) : result (list bytes) :=
  match d key with None => Ok [] | Some (TvSet m) => Ok (listed m) | Some _ => Err WRONGTYPE end.

(** [zrangebyscore] with equal inclusive bounds. *)
Definition members_with_score (score : Z) (m : gmap bytes Z) : list bytes :=
  snd <$> List.filter (fun x => f64_eq x.1 score) (ranking m).

(** The members of a sorted set between the infinities, in order. *)
Definition get_all_row_ids (d : Db) (table : bytes) : result (list bytes) :=
  m ← zset_at d (ids_key table);
  Ok (snd <$> List.filter (fun x => negb (f64_is_nan x.1)) (ranking m)).

(** ** Cells *)

Definition encode_cell (t : FieldType) (v : bytes) : result bytes :=
  encode_value parse_f64 parse_f32 fmt_f32 from_str i64_as_f64 now_ms t (lossy v).
Definition decode_cell (t : FieldType) (b : bytes) : bytes := as_bytes (decode_value fmt_f64 json_f64 t b).
Definition validate_cell (field : FieldDef) (v : bytes) : result unit := validate_value parse_f64 parse_f32 from_str field (lossy v).

Definition encode_stored_value (table : bytes) (field : FieldDef) (pk value : bytes) : result bytes :=
  encoded ← encode_cell (field_type field) value;
  if encrypted field then encrypt table (f_name field) pk encoded else Ok encoded.

Definition stored_plain_bytes (table : bytes) (field : FieldDef) (pk raw : bytes) : result bytes :=
  if encrypted field then decrypt table (f_name field) pk raw else Ok raw.

Definition decode_stored_value (table : bytes) (field : FieldDef) (pk raw : bytes) : result bytes :=
  b ← stored_plain_bytes table field pk raw;
  Ok (decode_cell (field_type field) b).

Definition searchable_index_values (table : bytes) (field : FieldDef) (value : bytes) : result (list bytes) :=
  if encrypted field then
    if negb (searchable field) then Err "ERR encrypted column is not SEARCHABLE"
    else encoded ← encode_cell (field_type field) value; blind_indexes table (f_name field) encoded
  else Ok [value].

(** ** Schemas *)

(** A stored declaration, with its texts as bytes. *)
Definition bytes_def (name : bytes) (d : FieldDef) : FieldDef :=
  mkDef name (match field_type d with TRef t => TRef (as_bytes t) | t => t end) (primary_key d) (unique d) (nullable d)
    (as_bytes <$> default_value d) (as_bytes <$> sequence_partition d)
    ((fun fk => mkFk (as_bytes (fk_table fk)) (as_bytes (fk_column fk)) (on_delete fk)) <$> references d) (encrypted d) (searchable d).

Definition name_le (a b : FieldDef) : Prop := bytes_le (f_name a) (f_name b).

#[export] Instance name_le_dec (a b : FieldDef) : Decision (name_le a b).
Proof. unfold name_le, bytes_le. apply _. Defined.

(** The cache of schemas, path indexes and default deadlines. *)
Record SchemaCache := mkCache {
  c_schemas : gmap bytes (list FieldDef);
  c_path_indexes : gmap bytes (list PathIndex);
  c_default_ttls : gmap bytes (option Z) }.

Definition stored_fields (pairs : gmap bytes bytes) : list FieldDef :=
  merge_sort name_le ((fun p => bytes_def p.1 (decode_field_def p.1 (lossy p.2))) <$> map_to_list (delete HIDDEN_DEFAULT_TTL_FIELD pairs)).

Definition load_schema (d : Db) (c : SchemaCache) (table : bytes) : result (list FieldDef) :=
  match c_schemas c !! table with
  | Some fields => Ok fields
  | None =>
      pairs ← hgetall d (schema_key table);
      if bool_decide (pairs = ∅) then Err "ERR table does not exist" else Ok (stored_fields pairs)
  end.

Definition table_default_ttl (d : Db) (c : SchemaCache) (table : bytes) : option Z :=
  match c_schemas c !! table with
  | Some _ => default None (c_default_ttls c !! table)
  | None => match hgetall d (schema_key table) with
            | Ok pairs => pairs !! HIDDEN_DEFAULT_TTL_FIELD ≫= parse_u64
            | Err _ => None
            end
  end.

Definition load_path_indexes (d : Db) (c : SchemaCache) (table : bytes) : result (list PathIndex) :=
  match c_path_indexes c !! table with
  | Some pis => Ok pis
  | None =>
      pairs ← hgetall d (path_indexes_key table);
      Ok (omap (fun p => mkPath p.1 <$> parse_index_type (lossy p.2)) (map_to_list pairs))
  end.

Definition find_field (name : bytes) (schema : list FieldDef) : option FieldDef := List.find (fun f => bytes_eqb (f_name f) name) schema.
Definition has_pk (schema : list FieldDef) : bool := existsb primary_key schema.

(** ** Rows *)

Fixpoint decode_fields (table : bytes) (schema : list FieldDef) (pk : bytes) (pairs : list (bytes * bytes)) : result (list (bytes * bytes)) :=
  match pairs with
  | [] => Ok []
  | (k, v) :: pairs =>
      if bytes_eqb k HIDDEN_TTL_FIELD then decode_fields table schema pk pairs
      else
        decoded ← match find_field k schema with
                  | Some field => decode_stored_value table field pk v
                  | None => Ok (as_bytes (lossy v))
                  end;
        rest ← decode_fields table schema pk pairs;
        Ok ((k, decoded) :: rest)
  end.

(** Whether the deadline of a row has passed; a read looks at it before it decodes the cells. *)
Definition row_expired (pairs : gmap bytes bytes) : bool :=
  match pairs !! HIDDEN_TTL_FIELD ≫= parse_u64 with Some deadline => deadline <=? now_ms | None => false end.

Definition get_row_impl (include_expired : bool) (d : Db) (table : bytes) (schema : list FieldDef) (pk : bytes) : result (option (gmap bytes bytes)) :=
  pairs ← hgetall d (row_key_for_pk table pk);
  if bool_decide (pairs = ∅) then Ok None
  else if negb include_expired && row_expired pairs then Ok None
  else l ← decode_fields table schema pk (map_to_list pairs); Ok (Some (list_to_map l)).

Definition get_row := get_row_impl false.
Definition get_row_including_expired := get_row_impl true.

Fixpoint find_row_loop (d : Db) (table : bytes) (schema : list FieldDef) (fs : list (bytes * bytes)) (pks : list bytes) : result (option bytes) :=
  match pks with
  | [] => Ok None
  | pk :: pks =>
      row ← get_row d table schema pk;
      match row with
      | Some row => if forallb (fun p => bool_decide (row !! p.1 = Some p.2)) fs then Ok (Some pk) else find_row_loop d table schema fs pks
      | None => find_row_loop d table schema fs pks
      end
  end.

Definition find_row_by_fields (d : Db) (table : bytes) (schema : list FieldDef) (fs : list (bytes * bytes)) : result (option bytes) :=
  pks ← get_all_row_ids d table; find_row_loop d table schema fs pks.

(** ** JSON paths *)

Fixpoint json_path_get (v : Jsonb.Jsonb.Value) (segs : list bytes) : option Jsonb.Jsonb.Value :=
  match segs with
  | [] => Some v
  | seg :: segs =>
      match v with
      | Jsonb.Jsonb.Object m => match List.find (fun kv => bytes_eqb kv.1 seg) m with Some kv => json_path_get kv.2 segs | None => None end
      | Jsonb.Jsonb.Array arr => match parse_u64 seg with
                                 | Some idx => if idx <? zlen arr then match arr !! Z.to_nat idx with Some v => json_path_get v segs | None => None end else None
                                 | None => None
                                 end
      | _ => None
      end
  end.

Definition json_scalar_string (v : Jsonb.Jsonb.Value) : option bytes :=
  match v with
  | Jsonb.Jsonb.String s => Some s
  | Jsonb.Jsonb.Int i => Some (fmt_i i)
  | Jsonb.Jsonb.Float f => json_f64 f
  | Jsonb.Jsonb.Bool b => Some (if b then bs "true" else bs "false")
  | _ => None
  end.

Definition extract_json_scalar (raw rest : bytes) : option bytes :=
  parsed ← from_str (lossy raw);
  v ← json_path_get parsed (Where.Where.split_by (Z.eqb 46) rest []);
  json_scalar_string v.

(** [split_once('.')] *)
Definition split_path (path : bytes) : option (bytes * bytes) := Store.Store.split_once [46] path.

(** ** Mutations *)

Record TableMutation := mkMutation {
  batch : AtomicTableBatch;
  sequence_values : gmap bytes Z;
  inserted_rows : gset (bytes * bytes);
  deleted_rows : gset (bytes * bytes);
  planned_deletes : gset (bytes * bytes);
  unique_claims : gmap (bytes * bytes * bytes) bytes;
  unique_releases : gset (bytes * bytes * bytes * bytes);
  partition_claims : gmap (bytes * bytes * bytes * bytes) bytes;
  partition_releases : gset (bytes * bytes * bytes * bytes * bytes);
  upsert_targets : gset bytes;
  resolved_rows : gmap (bytes * bytes) image;
  uuids : list bytes }.

Definition mutation_new (uuids : list bytes) : TableMutation := mkMutation batch_new ∅ ∅ ∅ ∅ ∅ ∅ ∅ ∅ ∅ ∅ uuids.

Definition set_batch (b : AtomicTableBatch) (m : TableMutation) : TableMutation :=
  mkMutation b (sequence_values m) (inserted_rows m) (deleted_rows m) (planned_deletes m) (unique_claims m) (unique_releases m)
    (partition_claims m) (partition_releases m) (upsert_targets m) (resolved_rows m) (uuids m).
Definition set_sequence (key : bytes) (v : Z) (m : TableMutation) : TableMutation :=
  mkMutation (batch m) (<[key := v]> (sequence_values m)) (inserted_rows m) (deleted_rows m) (planned_deletes m) (unique_claims m) (unique_releases m)
    (partition_claims m) (partition_releases m) (upsert_targets m) (resolved_rows m) (uuids m).
Definition add_inserted (row : bytes * bytes) (m : TableMutation) : TableMutation :=
  mkMutation (batch m) (sequence_values m) ({[row]} ∪ inserted_rows m) (deleted_rows m) (planned_deletes m) (unique_claims m) (unique_releases m)
    (partition_claims m) (partition_releases m) (upsert_targets m) (resolved_rows m) (uuids m).
Definition add_deleted (row : bytes * bytes) (m : TableMutation) : TableMutation :=
  mkMutation (batch m) (sequence_values m) (inserted_rows m) ({[row]} ∪ deleted_rows m) (planned_deletes m) (unique_claims m) (unique_releases m)
    (partition_claims m) (partition_releases m) (upsert_targets m) (resolved_rows m) (uuids m).
Definition add_planned (rows : gset (bytes * bytes)) (m : TableMutation) : TableMutation :=
  mkMutation (batch m) (sequence_values m) (inserted_rows m) (deleted_rows m) (rows ∪ planned_deletes m) (unique_claims m) (unique_releases m)
    (partition_claims m) (partition_releases m) (upsert_targets m) (resolved_rows m) (uuids m).
Definition add_claim (claim : bytes * bytes * bytes) (pk : bytes) (m : TableMutation) : TableMutation :=
  mkMutation (batch m) (sequence_values m) (inserted_rows m) (deleted_rows m) (planned_deletes m) (<[claim := pk]> (unique_claims m)) (unique_releases m)
    (partition_claims m) (partition_releases m) (upsert_targets m) (resolved_rows m) (uuids m).
Definition add_release (release : bytes * bytes * bytes * bytes) (m : TableMutation) : TableMutation :=
  mkMutation (batch m) (sequence_values m) (inserted_rows m) (deleted_rows m) (planned_deletes m) (unique_claims m) ({[release]} ∪ unique_releases m)
    (partition_claims m) (partition_releases m) (upsert_targets m) (resolved_rows m) (uuids m).
Definition add_partition_claim (claim : bytes * bytes * bytes * bytes) (pk : bytes) (m : TableMutation) : TableMutation :=
  mkMutation (batch m) (sequence_values m) (inserted_rows m) (deleted_rows m) (planned_deletes m) (unique_claims m) (unique_releases m)
    (<[claim := pk]> (partition_claims m)) (partition_releases m) (upsert_targets m) (resolved_rows m) (uuids m).
Definition add_partition_release (release : bytes * bytes * bytes * bytes * bytes) (m : TableMutation) : TableMutation :=
  mkMutation (batch m) (sequence_values m) (inserted_rows m) (deleted_rows m) (planned_deletes m) (unique_claims m) (unique_releases m)
    (partition_claims m) ({[release]} ∪ partition_releases m) (upsert_targets m) (resolved_rows m) (uuids m).
Definition add_target (target : bytes) (m : TableMutation) : TableMutation :=
  mkMutation (batch m) (sequence_values m) (inserted_rows m) (deleted_rows m) (planned_deletes m) (unique_claims m) (unique_releases m)
    (partition_claims m) (partition_releases m) ({[target]} ∪ upsert_targets m) (resolved_rows m) (uuids m).
Definition record_image (row : bytes * bytes) (i : image) (m : TableMutation) : TableMutation :=
  mkMutation (batch m) (sequence_values m) (inserted_rows m) (deleted_rows m) (planned_deletes m) (unique_claims m) (unique_releases m)
    (partition_claims m) (partition_releases m) (upsert_targets m) (<[row := i]> (resolved_rows m)) (uuids m).
Definition set_uuids (l : list bytes) (m : TableMutation) : TableMutation :=
  mkMutation (batch m) (sequence_values m) (inserted_rows m) (deleted_rows m) (planned_deletes m) (unique_claims m) (unique_releases m)
    (partition_claims m) (partition_releases m) (upsert_targets m) (resolved_rows m) l.

(** ** The batch of a mutation *)

Definition view_kind_matches (kind : TableEntryKind) (v : TableValue) : bool :=
  match kind, v with
  | KString, TvStr _ | KHash, TvHash _ | KSet, TvSet _ | KSortedSet, TvZset _ | KVector, TvVector _ => true
  | _, _ => false
  end.

(** [AtomicTableBatch::require_kind], as far as readers see the store. *)
Definition require (d : Db) (key : bytes) (kind : TableEntryKind) (b : AtomicTableBatch) : result AtomicTableBatch :=
  if negb (is_table_storage_key key) then Err "ERR table mutation attempted to stage a non-table key"
  else match kinds b !! key with
       | Some existing => if bool_decide (existing = kind) then Ok b else Err "ERR table storage invariant: key requires two kinds of state"
       | None =>
           if match d key with Some v => negb (view_kind_matches kind v) | None => false end
           then Err "ERR table storage invariant: unexpected kind"
           else Ok (mkBatch (<[key := kind]> (kinds b)) (operations b))
       end.

Definition stage (d : Db) (kind : TableEntryKind) (op : TableBatchOp) (m : TableMutation) : result TableMutation :=
  b ← require d (op_key op) kind (batch m);
  Ok (set_batch (mkBatch (kinds b) (operations b ++ [op])) m).

(** ** Sequences *)

Definition stored_sequence (d : Db) (key : bytes) : result Z :=
  v ← get_checked d key;
  match v with
  | None => Ok 0
  | Some v => if is_utf8 v then match parse_i64 v with Some n => Ok n | None => Err "ERR table sequence is corrupt" end
              else Err "ERR table sequence is not UTF-8"
  end.

Definition current_sequence (d : Db) (key : bytes) (m : TableMutation) : result (Z * TableMutation) :=
  match sequence_values m !! key with
  | Some v => Ok (v, m)
  | None => v ← stored_sequence d key; Ok (v, set_sequence key v m)
  end.

Definition i64_sat_add (a b : Z) : Z := Z.max i64_min (Z.min i64_max (a + b)).

Definition allocate_sequence (d : Db) (key : bytes) (m : TableMutation) : result (Z * TableMutation) :=
  '(current, m) ← current_sequence d key m;
  let next := i64_sat_add current 1 in
  m ← stage d KString (SetString key (fmt_i next)) (set_sequence key next m);
  Ok (next, m).

Definition bump_sequence (d : Db) (key : bytes) (v : Z) (m : TableMutation) : result TableMutation :=
  '(current, m) ← current_sequence d key m;
  if current <? v then stage d KString (SetString key (fmt_i v)) (set_sequence key v m) else Ok m.

(** ** Indexes *)

Fixpoint stage_each (d : Db) (kind : TableEntryKind) (f : bytes -> TableBatchOp) (l : list bytes) (m : TableMutation) : result TableMutation :=
  match l with
  | [] => Ok m
  | x :: l => m ← stage d kind (f x) m; stage_each d kind f l m
  end.

Definition is_auth_secret_storage_field (table field : bytes) : bool :=
  (bytes_eqb table (bs "auth.signing_keys") && bytes_eqb field (bs "private_key_encrypted")) ||
  (bytes_eqb table (bs "auth.providers") && bytes_eqb field (bs "client_secret")) ||
  (bytes_eqb table (bs "auth.providers") && bytes_eqb field (bs "apple_private_key")) ||
  (bytes_eqb table (bs "auth.settings") && bytes_eqb field (bs "value")).

Definition F64_ONE : Z := 4607182418800017408.

Definition index_score (t : FieldType) (value : bytes) : result Z :=
  match t with
  | TBool => if any_of (bool_texts true) value then Ok F64_ONE
             else if any_of (bool_texts false) value then Ok 0
             else Err "ERR invalid boolean index value"
  | _ => match parse_f64 value with Some f => Ok f | None => Err "ERR invalid numeric index value" end
  end.

Definition stage_add_to_index (d : Db) (table : bytes) (field : FieldDef) (value pk : bytes) (m : TableMutation) : result TableMutation :=
  if is_auth_secret_storage_field table (f_name field) then Ok m
  else if encrypted field then
    if searchable field then
      values ← searchable_index_values table field value;
      stage_each d KSet (fun v => SetAdd (idx_str_key table (f_name field) v) pk) values m
    else Ok m
  else match field_type field with
       | TInt | TFloat | TBool | TTimestamp | TRef _ =>
           score ← index_score (field_type field) value;
           stage d KSortedSet (SortedSetAdd (idx_sorted_key table (f_name field)) pk score) m
       | TStr | TUuid => stage d KSet (SetAdd (idx_str_key table (f_name field) value) pk) m
       | TVector dims =>
           vector ← parse_vector_value parse_f32 (lossy value) dims;
           stage d KVector (VectorSet (table_vector_key table (f_name field) pk) vector (Some (vector_metadata table (f_name field) pk)) (encrypted field)) m
       | TJson | TArray => Ok m
       end.

Definition stage_remove_from_index (d : Db) (table : bytes) (field : FieldDef) (value pk : bytes) (m : TableMutation) : result TableMutation :=
  if encrypted field then
    if searchable field then
      values ← searchable_index_values table field value;
      stage_each d KSet (fun v => SetRemove (idx_str_key table (f_name field) v) pk) values m
    else Ok m
  else match field_type field with
       | TInt | TFloat | TBool | TTimestamp | TRef _ => stage d KSortedSet (SortedSetRemove (idx_sorted_key table (f_name field)) pk) m
       | TStr | TUuid => stage d KSet (SetRemove (idx_str_key table (f_name field) value) pk) m
       | TVector _ => stage d KVector (Delete (table_vector_key table (f_name field) pk)) m
       | TJson | TArray => Ok m
       end.

Definition stage_set_unique (d : Db) (table : bytes) (field : FieldDef) (value pk : bytes) (m : TableMutation) : result TableMutation :=
  values ← searchable_index_values table field value;
  stage d KHash (HashSet (uniq_key table (f_name field)) ((fun v => (v, pk)) <$> values)) m.

Definition stage_remove_unique (d : Db) (table : bytes) (field : FieldDef) (value pk : bytes) (m : TableMutation) : result TableMutation :=
  values ← searchable_index_values table field value;
  stage_each d KHash (fun v => HashDeleteIfValue (uniq_key table (f_name field)) v pk) values m.

(** What a function does for every declared path index whose root is not encrypted. *)
Fixpoint for_paths (schema : list FieldDef) (f : FieldDef -> bytes -> bytes -> TableMutation -> result TableMutation) (pis : list PathIndex) (m : TableMutation)
    : result TableMutation :=
  match pis with
  | [] => Ok m
  | pi :: pis =>
      match split_path (p_path pi) with
      | Some (root, rest) =>
          if existsb (fun fd => bytes_eqb (f_name fd) root && encrypted fd) schema then for_paths schema f pis m
          else m ← f (synthetic_path_fielddef pi) root rest m; for_paths schema f pis m
      | None => for_paths schema f pis m
      end
  end.

(** ** Images *)

Definition pair_le (a b : bytes * bytes) : Prop := bytes_le a.1 b.1.

#[export] Instance pair_le_dec (a b : bytes * bytes) : Decision (pair_le a b).
Proof. unfold pair_le, bytes_le. apply _. Defined.

Definition record_row (table pk : bytes) (row : list (bytes * bytes)) (m : TableMutation) : TableMutation :=
  record_image (table, pk) (Some (merge_sort pair_le row)) m.
Definition record_delete (table pk : bytes) (m : TableMutation) : TableMutation := record_image (table, pk) None m.

Definition record_field_removal (d : Db) (table pk field : bytes) (m : TableMutation) : result TableMutation :=
  match resolved_rows m !! (table, pk) with
  | Some None => Ok m
  | Some (Some row) => Ok (record_row table pk (List.filter (fun p => negb (bytes_eqb p.1 field)) row) m)
  | None =>
      row ← hgetall d (row_key_for_pk table pk);
      Ok (record_row table pk (List.filter (fun p => negb (bytes_eqb p.1 field)) (map_to_list row)) m)
  end.

(** ** Deletes *)

Definition CASCADE_DEPTH_LIMIT : nat := 16.

(** Rows that the mutation removes anyway. *)
Definition in_play (i : identity) (visited : gset identity) (m : TableMutation) : bool :=
  bool_decide (i ∈ visited) || bool_decide (i ∈ deleted_rows m) || bool_decide (i ∈ planned_deletes m).

Definition holds_text (d : Db) (table : bytes) (schema : list FieldDef) (pk field value : bytes) : result bool :=
  row ← get_row d table schema pk;
  Ok (match row with Some row => bool_decide (row !! field = Some value) | None => false end).

(** Rows with a column of the legacy reference type forbid the removal. *)
Fixpoint check_refs (d : Db) (other_table : bytes) (other_schema : list FieldDef) (field : FieldDef) (pk : bytes) (visited : gset identity)
    (m : TableMutation) (ids : list bytes) : result unit :=
  match ids with
  | [] => Ok tt
  | id :: ids =>
      if in_play (other_table, id) visited m then check_refs d other_table other_schema field pk visited m ids
      else
        holds ← holds_text d other_table other_schema id (f_name field) pk;
        if (holds : bool) then Err "ERR cannot delete: row is referenced" else check_refs d other_table other_schema field pk visited m ids
  end.

Fixpoint scan_references (d : Db) (other_table : bytes) (other_schema : list FieldDef) (field : FieldDef) (value : bytes) (pks : list bytes) : result (list bytes) :=
  match pks with
  | [] => Ok []
  | pk :: pks =>
      holds ← holds_text d other_table other_schema pk (f_name field) value;
      rest ← scan_references d other_table other_schema field value pks;
      Ok (if (holds : bool) then pk :: rest else rest)
  end.

(** The rows of [other_table] whose foreign key holds the value. *)
Definition referencing_ids (d : Db) (other_table : bytes) (other_schema : list FieldDef) (field : FieldDef) (value : bytes) : result (list bytes) :=
  if unique field then
    holder ← hget_checked d (uniq_key other_table (f_name field)) value;
    match holder with
    | Some raw =>
        let ref_id := as_bytes (lossy raw) in
        holds ← holds_text d other_table other_schema ref_id (f_name field) value;
        Ok (if (holds : bool) then [ref_id] else [])
    | None => Ok []
    end
  else
    pks ← get_all_row_ids d other_table;
    scan_references d other_table other_schema field value pks.

Fixpoint set_null_each (d : Db) (other_table : bytes) (field : FieldDef) (value : bytes) (ids : list bytes) (m : TableMutation) : result TableMutation :=
  match ids with
  | [] => Ok m
  | id :: ids =>
      m ← stage d KHash (HashDelete (row_key_for_pk other_table id) [f_name field]) m;
      m ← (if unique field then stage_remove_unique d other_table field value id m else Ok m);
      m ← stage_remove_from_index d other_table field value id m;
      m ← record_field_removal d other_table id (f_name field) m;
      set_null_each d other_table field value ids m
  end.

Section Cascade.

(** The removal of a referencing row. *)
Context (cascade : bytes -> bytes -> gset identity -> TableMutation -> result (gset identity * TableMutation)).

Fixpoint cascade_each (other_table : bytes) (ids : list bytes) (visited : gset identity) (m : TableMutation) : result (gset identity * TableMutation) :=
  match ids with
  | [] => Ok (visited, m)
  | id :: ids => '(visited, m) ← cascade other_table id visited m; cascade_each other_table ids visited m
  end.

Definition release_field (d : Db) (table pk : bytes) (row_map : gmap bytes bytes) (other_table : bytes) (other_schema : list FieldDef) (field : FieldDef)
    (visited : gset identity) (m : TableMutation) : result (gset identity * TableMutation) :=
  _ ← match field_type field with
      | TRef ref_table =>
          if bytes_eqb ref_table table then
            let id_f := default 0 (parse_f64 pk) in
            if f64_is_nan id_f then Err "ERR min or max is not a float"
            else refs ← zset_at d (idx_sorted_key other_table (f_name field));
                 check_refs d other_table other_schema field pk visited m (members_with_score id_f refs)
          else Ok tt
      | _ => Ok tt
      end;
  match references field with
  | None => Ok (visited, m)
  | Some fk =>
      if negb (bytes_eqb (fk_table fk) table) then Ok (visited, m)
      else match row_map !! fk_column fk with
           | None => Ok (visited, m)
           | Some value =>
               ids ← referencing_ids d other_table other_schema field value;
               let ids := List.filter (fun id => negb (in_play (other_table, id) visited m)) ids in
               if bool_decide (ids = []) then Ok (visited, m)
               else match on_delete fk with
                    | Restrict => Err "ERR cannot delete: row is referenced (ON DELETE RESTRICT)"
                    | Cascade => cascade_each other_table ids visited m
                    | SetNull =>
                        if negb (nullable field) then Err "ERR cannot set column to NULL because it is NOT NULL"
                        else m ← set_null_each d other_table field value ids m; Ok (visited, m)
                    end
           end
  end.

Fixpoint release_fields (d : Db) (table pk : bytes) (row_map : gmap bytes bytes) (other_table : bytes) (other_schema fs : list FieldDef)
    (visited : gset identity) (m : TableMutation) : result (gset identity * TableMutation) :=
  match fs with
  | [] => Ok (visited, m)
  | field :: fs =>
      '(visited, m) ← release_field d table pk row_map other_table other_schema field visited m;
      release_fields d table pk row_map other_table other_schema fs visited m
  end.

Fixpoint release_tables (d : Db) (c : SchemaCache) (table pk : bytes) (row_map : gmap bytes bytes) (tables : list bytes)
    (visited : gset identity) (m : TableMutation) : result (gset identity * TableMutation) :=
  match tables with
  | [] => Ok (visited, m)
  | other_table :: tables =>
      other_schema ← load_schema d c other_table;
      '(visited, m) ← release_fields d table pk row_map other_table other_schema other_schema visited m;
      release_tables d c table pk row_map tables visited m
  end.

Definition unindex_field (d : Db) (table pk : bytes) (row_map : gmap bytes bytes) (field : FieldDef) (m : TableMutation) : result TableMutation :=
  match row_map !! f_name field with
  | Some val =>
      m ← stage_remove_from_index d table field val pk m;
      if unique field then stage_remove_unique d table field val pk m else Ok m
  | None => if is_vector_type (field_type field) then stage d KVector (Delete (table_vector_key table (f_name field) pk)) m else Ok m
  end.

Fixpoint unindex_fields (d : Db) (table pk : bytes) (row_map : gmap bytes bytes) (fs : list FieldDef) (m : TableMutation) : result TableMutation :=
  match fs with
  | [] => Ok m
  | field :: fs => m ← unindex_field d table pk row_map field m; unindex_fields d table pk row_map fs m
  end.

Definition unindex_path (d : Db) (table pk : bytes) (row_map : gmap bytes bytes) (synthetic : FieldDef) (root rest : bytes) (m : TableMutation) : result TableMutation :=
  match row_map !! root ≫= fun raw => extract_json_scalar raw rest with
  | Some scalar => stage_remove_from_index d table synthetic scalar pk m
  | None => Ok m
  end.

Definition delete_body (d : Db) (c : SchemaCache) (table pk : bytes) (visited : gset identity) (m : TableMutation) : result (gset identity * TableMutation) :=
  let id := (table, pk) in
  if bool_decide (id ∈ deleted_rows m) || bool_decide (id ∈ visited) then Ok (visited, m)
  else
    let visited := {[id]} ∪ visited in
    let m := add_deleted id m in
    schema ← load_schema d c table;
    row ← get_row_including_expired d table schema pk;
    match row with
    | None => Err "ERR row not found"
    | Some row_map =>
        tables ← smembers d table_list_key;
        '(visited, m) ← release_tables d c table pk row_map tables visited m;
        m ← unindex_fields d table pk row_map schema m;
        pis ← load_path_indexes d c table;
        m ← for_paths schema (unindex_path d table pk row_map) pis m;
        m ← stage d KSortedSet (SortedSetRemove (ids_key table) pk) m;
        m ← stage d KSortedSet (SortedSetRemove ttl_index_key (ttl_member table pk)) m;
        m ← stage d KHash (Delete (row_key_for_pk table pk)) m;
        Ok (visited, record_delete table pk m)
    end.

End Cascade.

(** The removal of a row at depth [17 - fuel]. *)
Fixpoint stage_delete_inner (fuel : nat) (d : Db) (c : SchemaCache) (table pk : bytes) (visited : gset identity) (m : TableMutation)
    : result (gset identity * TableMutation) :=
  match fuel with
  | O => Err "ERR cascade depth limit exceeded - possible circular FK reference"
  | S fuel => delete_body (stage_delete_inner fuel d c) d c table pk visited m
  end.

Definition stage_delete (d : Db) (c : SchemaCache) (table pk : bytes) (visited : gset identity) (m : TableMutation) :=
  stage_delete_inner (S CASCADE_DEPTH_LIMIT) d c table pk visited m.

Definition stage_purge_if_expired (d : Db) (c : SchemaCache) (table pk : bytes) (m : TableMutation) : result (bool * TableMutation) :=
  if bool_decide ((table, pk) ∈ deleted_rows m) then Ok (true, m)
  else
    pairs ← hgetall d (row_key_for_pk table pk);
    if bool_decide (pairs = ∅) then Ok (true, m)
    else if negb (row_expired pairs) then Ok (false, m)
    else '(_, m) ← stage_delete d c table pk ∅ m; Ok (true, m).

(** ** Constraints *)

Definition uniq_holder_holds_value (d : Db) (table : bytes) (field : FieldDef) (holder_pk value : bytes) : result bool :=
  raw ← hget_checked d (row_key_for_pk table holder_pk) (f_name field);
  match raw with
  | Some raw => stored ← decode_stored_value table field holder_pk raw; Ok (bytes_eqb stored value)
  | None => Ok false
  end.

Fixpoint first_holder (d : Db) (table : bytes) (field : FieldDef) (values : list bytes) : result (option bytes) :=
  match values with
  | [] => Ok None
  | v :: values =>
      holder ← hget_checked d (uniq_key table (f_name field)) v;
      match holder with Some h => Ok (Some (as_bytes (lossy h))) | None => first_holder d table field values end
  end.

Definition unique_holder_for_value (d : Db) (table : bytes) (field : FieldDef) (value : bytes) : result (option bytes) :=
  if negb (unique field) then Ok None
  else values ← searchable_index_values table field value; first_holder d table field values.

Definition UNIQUE_VIOLATION : string := "ERR unique constraint violation: value already exists".

Definition claim_one (d : Db) (c : SchemaCache) (table : bytes) (field : FieldDef) (value pk index_value : bytes) (m : TableMutation) : result TableMutation :=
  let claim := (table, f_name field, index_value) in
  match unique_claims m !! claim with
  | Some existing => if bytes_eqb existing pk then Ok m else Err UNIQUE_VIOLATION
  | None =>
      holder ← hget_checked d (uniq_key table (f_name field)) index_value;
      m ← match holder with
          | Some raw =>
              let holder := as_bytes (lossy raw) in
              if bytes_eqb holder pk then Ok m
              else
                '(absent, m) ← (if bool_decide ((table, holder) ∈ deleted_rows m) || bool_decide ((table, f_name field, index_value, holder) ∈ unique_releases m)
                                then Ok (true, m) else stage_purge_if_expired d c table holder m);
                if (absent : bool) then Ok m
                else holds ← uniq_holder_holds_value d table field holder value; if (holds : bool) then Err UNIQUE_VIOLATION else Ok m
          | None => Ok m
          end;
      Ok (add_claim claim pk m)
  end.

Fixpoint claim_each (d : Db) (c : SchemaCache) (table : bytes) (field : FieldDef) (value pk : bytes) (l : list bytes) (m : TableMutation) : result TableMutation :=
  match l with
  | [] => Ok m
  | x :: l => m ← claim_one d c table field value pk x m; claim_each d c table field value pk l m
  end.

Definition claim_unique_value (d : Db) (c : SchemaCache) (table : bytes) (field : FieldDef) (value pk : bytes) (m : TableMutation) : result TableMutation :=
  if negb (unique field) then Ok m
  else values ← searchable_index_values table field value; claim_each d c table field value pk values m.

Definition row_present (d : Db) (table : bytes) (schema : list FieldDef) (pk : bytes) : result bool :=
  row ← get_row d table schema pk; Ok (is_some row).

Definition referenced_value_exists (d : Db) (c : SchemaCache) (reference : ForeignKey) (value : bytes) : result bool :=
  schema ← load_schema d c (fk_table reference);
  if bytes_eqb (fk_column reference) (pk_column_name schema) then row_present d (fk_table reference) schema value
  else match find_field (fk_column reference) schema with
       | None => Err "ERR referenced column does not exist"
       | Some field =>
           holder ← unique_holder_for_value d (fk_table reference) field value;
           match holder with
           | None => Ok false
           | Some holder =>
               present ← row_present d (fk_table reference) schema holder;
               if (present : bool) then uniq_holder_holds_value d (fk_table reference) field holder value else Ok false
           end
       end.

Definition staged_row_holds_value (table : bytes) (field : FieldDef) (pk value : bytes) (m : TableMutation) : result (option bool) :=
  match resolved_rows m !! (table, pk) with
  | None => Ok None
  | Some None => Ok (Some false)
  | Some (Some row) =>
      match List.find (fun p => bytes_eqb p.1 (f_name field)) row with
      | None => Ok (Some false)
      | Some (_, raw) => stored ← decode_stored_value table field pk raw; Ok (Some (bytes_eqb stored value))
      end
  end.

Fixpoint first_claim (m : TableMutation) (table column : bytes) (l : list bytes) : option bytes :=
  match l with
  | [] => None
  | x :: l => match unique_claims m !! (table, column, x) with Some h => Some h | None => first_claim m table column l end
  end.

Definition staged_reference_exists (d : Db) (c : SchemaCache) (reference : ForeignKey) (value : bytes) (m : TableMutation) : result bool :=
  let table := fk_table reference in
  schema ← load_schema d c table;
  if bytes_eqb (fk_column reference) (pk_column_name schema) then
    match resolved_rows m !! (table, value) with
    | Some row => Ok (is_some row)
    | None => referenced_value_exists d c reference value
    end
  else match find_field (fk_column reference) schema with
       | None => Err "ERR referenced column does not exist"
       | Some field =>
           values ← searchable_index_values table field value;
           match first_claim m table (fk_column reference) values with
           | Some holder => held ← staged_row_holds_value table field holder value m; Ok (default true held)
           | None =>
               holder ← unique_holder_for_value d table field value;
               match holder with
               | None => Ok false
               | Some holder =>
                   held ← staged_row_holds_value table field holder value m;
                   match held with
                   | Some b => Ok b
                   | None => if existsb (fun v => bool_decide ((table, fk_column reference, v, holder) ∈ unique_releases m)) values then Ok false
                             else referenced_value_exists d c reference value
                   end
               end
           end
       end.

Definition staged_primary_key_exists (d : Db) (c : SchemaCache) (table value : bytes) (m : TableMutation) : result bool :=
  match resolved_rows m !! (table, value) with
  | Some row => Ok (is_some row)
  | None => schema ← load_schema d c table; row_present d table schema value
  end.

(** ** Inserts *)

Definition fresh_uuid (m : TableMutation) : bytes * TableMutation := (default [] (head (uuids m)), set_uuids (tail (uuids m)) m).

Definition is_quote (ch : Z) : bool := (ch =? 39) || (ch =? 34).

Definition resolve_default (token : bytes) (m : TableMutation) : bytes * TableMutation :=
  let trimmed := Where.Where.trim (lossy token) in
  let lower := Grants.Grants.to_ascii_lowercase trimmed in
  if any_of ["uuid()"; "gen_random_uuid()"]%string lower then fresh_uuid m
  else if any_of ["now()"]%string lower then (fmt_u now_ms, m)
  else (as_bytes (Where.Where.trim_end_by is_quote (Where.Where.trim_start_by is_quote trimmed)), m).

Fixpoint collect_provided (schema : list FieldDef) (fvs : list (bytes * bytes)) (provided : gmap bytes bytes) : result (gmap bytes bytes) :=
  match fvs with
  | [] => Ok provided
  | (k, v) :: fvs =>
      if existsb (fun f => bytes_eqb (f_name f) k) schema || (negb (has_pk schema) && bytes_eqb k (bs "id"))
      then collect_provided schema fvs (<[k := v]> provided)
      else Err "ERR unknown column"
  end.

(** Defaults of the columns that were not given: [given] is what was, [provided] grows. *)
Fixpoint fill_defaults (given : gmap bytes bytes) (fs : list FieldDef) (provided : gmap bytes bytes) (m : TableMutation) : gmap bytes bytes * TableMutation :=
  match fs with
  | [] => (provided, m)
  | f :: fs =>
      if primary_key f || is_some (given !! f_name f) then fill_defaults given fs provided m
      else match default_value f with
           | Some token => let '(v, m) := resolve_default token m in fill_defaults given fs (<[f_name f := v]> provided) m
           | None => fill_defaults given fs provided m
           end
  end.

Fixpoint fill_sequences (d : Db) (table : bytes) (given : gmap bytes bytes) (fs : list FieldDef) (provided : gmap bytes bytes) (m : TableMutation)
    : result (gmap bytes bytes * TableMutation) :=
  match fs with
  | [] => Ok (provided, m)
  | field :: fs =>
      match sequence_partition field with
      | None => fill_sequences d table given fs provided m
      | Some partition_col =>
          if negb (bool_decide (field_type field = TInt)) then Err "ERR SEQUENCE column must use INT type"
          else match given !! partition_col with
               | None => Err "ERR SEQUENCE column requires partition column"
               | Some partition_val =>
                   match given !! f_name field with
                   | Some v => match parse_i64 v with Some _ => fill_sequences d table given fs provided m | None => Err "ERR invalid int" end
                   | None =>
                       '(next, m) ← allocate_sequence d (scoped_seq_key table (f_name field) partition_col partition_val) m;
                       fill_sequences d table given fs (<[f_name field := fmt_i next]> provided) m
                   end
               end
      end
  end.

Definition choose_pk (d : Db) (table : bytes) (schema : list FieldDef) (provided : gmap bytes bytes) (m : TableMutation) : result (bytes * TableMutation) :=
  match List.find primary_key schema with
  | Some pk =>
      match provided !! f_name pk with
      | Some v => Ok (v, m)
      | None =>
          if bool_decide (field_type pk = TInt) then '(n, m) ← allocate_sequence d (seq_key table) m; Ok (fmt_i n, m)
          else if bool_decide (field_type pk = TUuid) then Ok (fresh_uuid m)
          else match default_value pk with
               | Some token => Ok (resolve_default token m)
               | None => Err "ERR primary key column must be provided"
               end
      end
  | None =>
      match provided !! bs "id" with
      | Some v => Ok (v, m)
      | None => '(n, m) ← allocate_sequence d (seq_key table) m; Ok (fmt_i n, m)
      end
  end.

Definition check_fk (d : Db) (c : SchemaCache) (field : FieldDef) (value : bytes) (m : TableMutation) : result unit :=
  match references field with
  | Some fk => found ← staged_reference_exists d c fk value m; if (found : bool) then Ok tt else Err "ERR foreign key violation"
  | None => Ok tt
  end.

(** The legacy reference type; an insert looks the number up, an update the text. *)
Definition check_ref (d : Db) (c : SchemaCache) (normalize : bool) (field : FieldDef) (value : bytes) (m : TableMutation) : result unit :=
  match field_type field with
  | TRef ref_table =>
      id ← (if normalize then match parse_i64 value with Some n => Ok (fmt_i n) | None => Err "ERR column expects int ref" end else Ok value);
      found ← staged_primary_key_exists d c ref_table id m;
      if (found : bool) then Ok tt else Err "ERR foreign key violation"
  | _ => Ok tt
  end.

Definition PARTITION_VIOLATION : string := "ERR unique constraint violation on columns".

Definition claim_partition (d : Db) (c : SchemaCache) (table : bytes) (schema : list FieldDef) (field : FieldDef) (provided : gmap bytes bytes) (value pk : bytes)
    (m : TableMutation) : result TableMutation :=
  match sequence_partition field with
  | None => Ok m
  | Some partition_col =>
      match provided !! partition_col with
      | None => Ok m
      | Some partition_val =>
          let claim := (table, f_name field, partition_val, value) in
          m ← match partition_claims m !! claim with
              | Some existing => if bytes_eqb existing pk then Ok m else Err PARTITION_VIOLATION
              | None =>
                  existing ← find_row_by_fields d table schema [(partition_col, partition_val); (f_name field, value)];
                  match existing with
                  | None => Ok m
                  | Some existing_pk =>
                      if bool_decide ((table, existing_pk) ∈ deleted_rows m) then Ok m
                      else '(gone, m) ← stage_purge_if_expired d c table existing_pk m;
                           if (gone : bool) then Ok m else Err PARTITION_VIOLATION
                  end
              end;
          Ok (add_partition_claim claim pk m)
      end
  end.

Definition pk_autogen (field : FieldDef) : bool :=
  primary_key field && (bool_decide (field_type field = TInt) || bool_decide (field_type field = TUuid) || is_some (default_value field)).

Fixpoint validate_insert (d : Db) (c : SchemaCache) (table : bytes) (schema : list FieldDef) (provided : gmap bytes bytes) (pk : bytes) (fs : list FieldDef)
    (m : TableMutation) : result TableMutation :=
  match fs with
  | [] => Ok m
  | field :: fs =>
      match provided !! f_name field with
      | None =>
          if negb (nullable field) && negb (pk_autogen field) then Err "ERR column is NOT NULL but no value was provided"
          else validate_insert d c table schema provided pk fs m
      | Some value =>
          _ ← validate_cell field value;
          _ ← check_ref d c true field value m;
          _ ← check_fk d c field value m;
          m ← claim_unique_value d c table field value pk m;
          m ← claim_partition d c table schema field provided value pk m;
          validate_insert d c table schema provided pk fs m
      end
  end.

Fixpoint encode_row (table : bytes) (provided : gmap bytes bytes) (pk : bytes) (fs : list FieldDef) : result (list (bytes * bytes)) :=
  match fs with
  | [] => Ok []
  | field :: fs =>
      match match provided !! f_name field with Some v => Some v | None => if primary_key field then Some pk else None end with
      | Some value =>
          encoded ← encode_stored_value table field pk value;
          rest ← encode_row table provided pk fs;
          Ok ((f_name field, encoded) :: rest)
      | None => encode_row table provided pk fs
      end
  end.

Definition u64_sat_add (a b : Z) : Z := Z.min usize_max (a + b).
Definition u64_sat_mul (a b : Z) : Z := Z.min usize_max (a * b).
Definition deadline_of (secs : Z) : Z := u64_sat_add now_ms (u64_sat_mul secs 1000).

Fixpoint bump_partitions (d : Db) (table : bytes) (provided : gmap bytes bytes) (fs : list FieldDef) (m : TableMutation) : result TableMutation :=
  match fs with
  | [] => Ok m
  | field :: fs =>
      m ← match sequence_partition field with
          | Some partition_col =>
              match provided !! f_name field, provided !! partition_col with
              | Some value, Some partition =>
                  match parse_i64 value with
                  | Some n => bump_sequence d (scoped_seq_key table (f_name field) partition_col partition) n m
                  | None => Ok m
                  end
              | _, _ => Ok m
              end
          | None => Ok m
          end;
      bump_partitions d table provided fs m
  end.

(** The counters of the table: the score of a row whose key is not a number is the next of a counter. *)
Definition number_row (d : Db) (table pk : bytes) (m : TableMutation) : result (Z * TableMutation) :=
  let order_key := seq_key (table ++ bs "__order") in
  '(score, m) ← match parse_f64 pk with
                | Some score => Ok (score, m)
                | None => '(n, m) ← allocate_sequence d order_key m; Ok (i64_as_f64 n, m)
                end;
  m ← match parse_i64 pk with Some id => bump_sequence d (seq_key table) id m | None => Ok m end;
  m ← match parse_f64 pk with None => bump_sequence d order_key (f64_as_i64 score) m | Some _ => Ok m end;
  Ok (score, m).

Fixpoint index_row (d : Db) (table : bytes) (provided : gmap bytes bytes) (pk : bytes) (fs : list FieldDef) (m : TableMutation) : result TableMutation :=
  match fs with
  | [] => Ok m
  | field :: fs =>
      m ← match match provided !! f_name field with Some v => Some v | None => if primary_key field then Some pk else None end with
          | Some value =>
              m ← stage_add_to_index d table field value pk m;
              if unique field then stage_set_unique d table field value pk m else Ok m
          | None => Ok m
          end;
      index_row d table provided pk fs m
  end.

Definition index_path (d : Db) (table pk : bytes) (provided : gmap bytes bytes) (synthetic : FieldDef) (root rest : bytes) (m : TableMutation) : result TableMutation :=
  match provided !! root ≫= fun raw => extract_json_scalar raw rest with
  | Some scalar => stage_add_to_index d table synthetic scalar pk m
  | None => Ok m
  end.

Record StagedTableRow := mkStagedRow { s_pk : bytes; s_row : list (bytes * bytes) }.

(** The row that an insert answers with. *)
Definition inserted_row (schema : list FieldDef) (provided : gmap bytes bytes) (pk : bytes) : list (bytes * bytes) :=
  merge_sort pair_le ((if has_pk schema then [] else [(bs "id", pk)]) ++
    omap (fun f => match provided !! f_name f with
                   | Some v => Some (f_name f, v)
                   | None => if primary_key f then Some (f_name f, pk) else None
                   end) schema).

Definition stage_table_insert (d : Db) (c : SchemaCache) (table : bytes) (field_values : list (bytes * bytes)) (ttl : option TtlOp) (m : TableMutation)
    : result (StagedTableRow * TableMutation) :=
  schema ← load_schema d c table;
  given ← collect_provided schema field_values ∅;
  let '(provided, m) := fill_defaults given schema given m in
  '(provided, m) ← fill_sequences d table provided schema provided m;
  '(pk, m) ← choose_pk d table schema provided m;
  m ← validate_insert d c table schema provided pk schema m;
  '(free, m) ← (if bool_decide ((table, pk) ∈ inserted_rows m) then Ok (false, m) else stage_purge_if_expired d c table pk m);
  if negb (free : bool) then Err "ERR primary key violation: already exists"
  else
    let m := add_inserted (table, pk) m in
    cells ← encode_row table provided pk schema;
    let effective_ttl := match ttl with Some op => Some op | None => TtlSet <$> table_default_ttl d c table end in
    let deadline := match effective_ttl with Some (TtlSet secs) => Some (deadline_of secs) | _ => None end in
    let pairs := (if has_pk schema then [] else [(bs "id", pk)]) ++ cells ++
                 match deadline with Some t => [(HIDDEN_TTL_FIELD, fmt_u t)] | None => [] end in
    '(score, m) ← number_row d table pk m;
    m ← bump_partitions d table provided schema m;
    m ← stage d KSortedSet (SortedSetAdd (ids_key table) pk score) m;
    m ← index_row d table provided pk schema m;
    pis ← load_path_indexes d c table;
    m ← for_paths schema (index_path d table pk provided) pis m;
    m ← match deadline with
        | Some t => stage d KSortedSet (SortedSetAdd ttl_index_key (ttl_member table pk) (u64_as_f64 t)) m
        | None => Ok m
        end;
    m ← stage d KHash (HashSet (row_key_for_pk table pk) pairs) m;
    Ok (mkStagedRow pk (inserted_row schema provided pk), record_row table pk pairs m).

(** ** Updates *)

(** [normalized_field_values]: the last value of every column, in the order of the columns. *)
Definition normalized_field_values (fvs : list (bytes * bytes)) : list (bytes * bytes) :=
  merge_sort pair_le (map_to_list (list_to_map (reverse fvs) : gmap bytes bytes)).

Fixpoint validate_update (d : Db) (c : SchemaCache) (table : bytes) (schema : list FieldDef) (pk : bytes) (fvs : list (bytes * bytes)) (m : TableMutation)
    : result TableMutation :=
  match fvs with
  | [] => Ok m
  | (fname, fval) :: fvs =>
      match find_field fname schema with
      | None => Err "ERR unknown field"
      | Some field =>
          if primary_key field || (bytes_eqb fname (bs "id") && negb (has_pk schema)) then Err "ERR primary key column cannot be updated"
          else
            _ ← validate_cell field fval;
            _ ← check_ref d c false field fval m;
            _ ← check_fk d c field fval m;
            m ← claim_unique_value d c table field fval pk m;
            validate_update d c table schema pk fvs m
      end
  end.

(** Another row that holds the pair of partition and number, and was not released. *)
Fixpoint partition_taken (d : Db) (table : bytes) (schema : list FieldDef) (partition_col seq_col partition value pk : bytes) (m : TableMutation) (pks : list bytes)
    : result bool :=
  match pks with
  | [] => Ok false
  | cand :: pks =>
      if bytes_eqb cand pk then partition_taken d table schema partition_col seq_col partition value pk m pks
      else
        row ← get_row d table schema cand;
        if match row with
           | Some row => bool_decide (row !! partition_col = Some partition) && bool_decide (row !! seq_col = Some value)
           | None => false
           end && negb (bool_decide ((table, seq_col, partition, value, cand) ∈ partition_releases m))
        then Ok true
        else partition_taken d table schema partition_col seq_col partition value pk m pks
  end.

Fixpoint update_partitions (d : Db) (table : bytes) (schema : list FieldDef) (pk : bytes) (fvs : list (bytes * bytes)) (final_values : gmap bytes bytes)
    (fs : list FieldDef) (m : TableMutation) : result TableMutation :=
  match fs with
  | [] => Ok m
  | field :: fs =>
      match sequence_partition field with
      | None => update_partitions d table schema pk fvs final_values fs m
      | Some partition_col =>
          if negb (existsb (fun p => bytes_eqb p.1 (f_name field) || bytes_eqb p.1 partition_col) fvs)
          then update_partitions d table schema pk fvs final_values fs m
          else match final_values !! f_name field, final_values !! partition_col with
               | None, _ => Err "ERR SEQUENCE column has no value"
               | Some _, None => Err "ERR SEQUENCE column requires partition column"
               | Some value, Some partition =>
                   let claim := (table, f_name field, partition, value) in
                   _ ← match partition_claims m !! claim with
                       | Some existing => if bytes_eqb existing pk then Ok tt else Err PARTITION_VIOLATION
                       | None =>
                           pks ← get_all_row_ids d table;
                           taken ← partition_taken d table schema partition_col (f_name field) partition value pk m pks;
                           if (taken : bool) then Err PARTITION_VIOLATION else Ok tt
                       end;
                   let m := add_partition_claim claim pk m in
                   match parse_i64 value with
                   | None => Err "ERR invalid int"
                   | Some n =>
                       m ← bump_sequence d (scoped_seq_key table (f_name field) partition_col partition) n m;
                       update_partitions d table schema pk fvs final_values fs m
                   end
               end
      end
  end.

Fixpoint encode_updates (table : bytes) (schema : list FieldDef) (pk : bytes) (fvs : list (bytes * bytes)) : result (list (bytes * bytes)) :=
  match fvs with
  | [] => Ok []
  | (fname, fval) :: fvs =>
      match find_field fname schema with
      | None => Err "ERR unknown field"
      | Some field => encoded ← encode_stored_value table field pk fval; rest ← encode_updates table schema pk fvs; Ok ((fname, encoded) :: rest)
      end
  end.

Fixpoint reindex (d : Db) (table : bytes) (schema : list FieldDef) (pk : bytes) (old_map : gmap bytes bytes) (fvs : list (bytes * bytes)) (m : TableMutation)
    : result TableMutation :=
  match fvs with
  | [] => Ok m
  | (fname, fval) :: fvs =>
      match find_field fname schema with
      | None => Err "ERR unknown field"
      | Some field =>
          m ← match old_map !! fname with
              | Some old_val =>
                  m ← stage_remove_from_index d table field old_val pk m;
                  if unique field then stage_remove_unique d table field old_val pk m else Ok m
              | None => Ok m
              end;
          m ← stage_add_to_index d table field fval pk m;
          m ← (if unique field then stage_set_unique d table field fval pk m else Ok m);
          reindex d table schema pk old_map fvs m
      end
  end.

Definition reindex_path (d : Db) (table pk : bytes) (old_map : gmap bytes bytes) (fvs : list (bytes * bytes)) (synthetic : FieldDef) (root rest : bytes)
    (m : TableMutation) : result TableMutation :=
  match List.find (fun p => bytes_eqb p.1 root) fvs with
  | None => Ok m
  | Some (_, new_raw) =>
      m ← match old_map !! root ≫= fun raw => extract_json_scalar raw rest with
          | Some scalar => stage_remove_from_index d table synthetic scalar pk m
          | None => Ok m
          end;
      match extract_json_scalar new_raw rest with
      | Some scalar => stage_add_to_index d table synthetic scalar pk m
      | None => Ok m
      end
  end.

Definition stage_table_update (d : Db) (c : SchemaCache) (table pk : bytes) (field_values : list (bytes * bytes)) (ttl : option TtlOp) (m : TableMutation)
    : result (StagedTableRow * TableMutation) :=
  let fvs := normalized_field_values field_values in
  schema ← load_schema d c table;
  old ← get_row d table schema pk;
  match old with
  | None => Err "ERR row not found"
  | Some old_map =>
      raw_row ← hgetall d (row_key_for_pk table pk);
      m ← validate_update d c table schema pk fvs m;
      let final_values := list_to_map fvs ∪ old_map in
      m ← update_partitions d table schema pk fvs final_values schema m;
      pairs ← encode_updates table schema pk fvs;
      let final_raw := list_to_map pairs ∪ raw_row in
      let final_raw := match ttl with
                       | Some (TtlSet secs) => <[HIDDEN_TTL_FIELD := fmt_u (deadline_of secs)]> final_raw
                       | Some TtlClear => delete HIDDEN_TTL_FIELD final_raw
                       | None => final_raw
                       end in
      let final_raw := merge_sort pair_le (map_to_list final_raw) in
      m ← reindex d table schema pk old_map fvs m;
      pis ← load_path_indexes d c table;
      m ← for_paths schema (reindex_path d table pk old_map fvs) pis m;
      m ← stage d KHash (HashSet (row_key_for_pk table pk) final_raw) m;
      let m := record_row table pk final_raw m in
      m ← match ttl with
          | Some (TtlSet secs) => stage d KSortedSet (SortedSetAdd ttl_index_key (ttl_member table pk) (u64_as_f64 (deadline_of secs))) m
          | Some TtlClear =>
              m ← stage d KHash (HashDelete (row_key_for_pk table pk) [HIDDEN_TTL_FIELD]) m;
              stage d KSortedSet (SortedSetRemove ttl_index_key (ttl_member table pk)) m
          | None => Ok m
          end;
      Ok (mkStagedRow pk (merge_sort pair_le (map_to_list final_values)), m)
  end.

(** ** Upserts *)

Definition parse_conflict_columns (conflict_col pk_name : option bytes) : list bytes :=
  let raw := match conflict_col with Some col => col | None => default (bs "id") pk_name end in
  as_bytes <$> List.filter (fun col => negb (bool_decide (col = []))) (Where.Where.trim <$> Where.Where.split_by (Z.eqb 44) (lossy raw) []).

Fixpoint conflict_values (conflicts : list bytes) (fvs : list (bytes * bytes)) : option (list (bytes * bytes)) :=
  match conflicts with
  | [] => Some []
  | col :: conflicts =>
      match List.find (fun p => bytes_eqb p.1 col) fvs, conflict_values conflicts fvs with
      | Some (_, v), Some rest => Some ((col, v) :: rest)
      | _, _ => None
      end
  end.

Definition target_of (table : bytes) (cvs : list (bytes * bytes)) : bytes :=
  Grants.Grants.join [0] (table :: concat ((fun p => [p.1; p.2]) <$> cvs)).

Definition matched_row (d : Db) (c : SchemaCache) (table : bytes) (schema : list FieldDef) (cvs : list (bytes * bytes)) (m : TableMutation)
    : result (option bytes * TableMutation) :=
  match cvs with
  | [(conflict, cval)] =>
      if existsb (fun f => primary_key f && bytes_eqb (f_name f) conflict) schema || (negb (has_pk schema) && bytes_eqb conflict (bs "id")) then
        '(gone, m) ← stage_purge_if_expired d c table cval m;
        Ok (if (gone : bool) then None else Some cval, m)
      else
        holder ← match find_field conflict schema with
                 | Some field => if unique field then unique_holder_for_value d table field cval else Ok None
                 | None => Ok None
                 end;
        match holder with
        | Some pk =>
            '(gone, m) ← stage_purge_if_expired d c table pk m;
            if (gone : bool) then found ← find_row_by_fields d table schema cvs; Ok (found, m) else Ok (Some pk, m)
        | None => found ← find_row_by_fields d table schema cvs; Ok (found, m)
        end
  | _ => found ← find_row_by_fields d table schema cvs; Ok (found, m)
  end.

Definition stage_table_upsert (d : Db) (c : SchemaCache) (table : bytes) (field_values : list (bytes * bytes)) (conflict_col : option bytes) (ttl : option TtlOp)
    (existing_guard : option (gmap bytes bytes -> result unit)) (m : TableMutation) : result (StagedTableRow * TableMutation) :=
  let fvs := normalized_field_values field_values in
  schema ← load_schema d c table;
  let conflicts := parse_conflict_columns conflict_col (f_name <$> List.find primary_key schema) in
  match conflict_values conflicts fvs with
  | None => stage_table_insert d c table fvs ttl m
  | Some cvs =>
      if existsb (fun p => match find_field p.1 schema with Some f => encrypted f && negb (searchable f) | None => false end) cvs
      then Err "ERR encrypted column must be SEARCHABLE for upsert conflict matching"
      else
        let target := target_of table cvs in
        if bool_decide (target ∈ upsert_targets m) then Err "ERR duplicate upsert target in one bulk operation"
        else
          let m := add_target target m in
          '(existing, m) ← matched_row d c table schema cvs m;
          match existing with
          | None => stage_table_insert d c table fvs ttl m
          | Some pk =>
              _ ← match existing_guard with
                  | None => Ok tt
                  | Some guard =>
                      row ← get_row d table schema pk;
                      match row with Some row => guard row | None => Err "ERR upserted row not found" end
                  end;
              let updates := List.filter (fun p => negb (existsb (fun col => bytes_eqb col p.1) conflicts)) fvs in
              if negb (bool_decide (updates = [])) || is_some ttl then stage_table_update d c table pk updates ttl m
              else
                row ← get_row d table schema pk;
                match row with
                | Some row => Ok (mkStagedRow pk (merge_sort pair_le (map_to_list row)), m)
                | None => Err "ERR upserted row not found"
                end
          end
  end.

(** ** Requests with several rows *)

Fixpoint stage_inserts (d : Db) (c : SchemaCache) (table : bytes) (rows : list (list (bytes * bytes))) (ttl : option TtlOp) (m : TableMutation) : result TableMutation :=
  match rows with
  | [] => Ok m
  | row :: rows => '(_, m) ← stage_table_insert d c table row ttl m; stage_inserts d c table rows ttl m
  end.

Fixpoint stage_upserts (d : Db) (c : SchemaCache) (table : bytes) (rows : list (list (bytes * bytes))) (conflict_col : option bytes) (ttl : option TtlOp)
    (existing_guard : option (gmap bytes bytes -> result unit)) (m : TableMutation) : result TableMutation :=
  match rows with
  | [] => Ok m
  | row :: rows =>
      '(_, m) ← stage_table_upsert d c table row conflict_col ttl existing_guard m;
      stage_upserts d c table rows conflict_col ttl existing_guard m
  end.

(** The values that an update of the rows releases. *)
Fixpoint release_unique (table : bytes) (schema : list FieldDef) (pk : bytes) (old : gmap bytes bytes) (fvs : list (bytes * bytes)) (m : TableMutation) : result TableMutation :=
  match fvs with
  | [] => Ok m
  | (name, new_value) :: fvs =>
      m ← match find_field name schema, old !! name with
          | Some field, Some old_value =>
              if unique field && negb (bytes_eqb old_value new_value) then
                values ← searchable_index_values table field old_value;
                Ok (foldl (fun m v => add_release (table, f_name field, v, pk) m) m values)
              else Ok m
          | _, _ => Ok m
          end;
      release_unique table schema pk old fvs m
  end.

Definition release_partition (table pk : bytes) (old : gmap bytes bytes) (fvs : list (bytes * bytes)) (m : TableMutation) (field : FieldDef) : TableMutation :=
  match sequence_partition field with
  | None => m
  | Some partition_col =>
      if existsb (fun p => bytes_eqb p.1 (f_name field) || bytes_eqb p.1 partition_col) fvs then
        match old !! partition_col, old !! f_name field with
        | Some partition, Some v => add_partition_release (table, f_name field, partition, v, pk) m
        | _, _ => m
        end
      else m
  end.

Fixpoint predeclare (d : Db) (table : bytes) (schema : list FieldDef) (fvs : list (bytes * bytes)) (matched : list bytes) (m : TableMutation) : result TableMutation :=
  match matched with
  | [] => Ok m
  | pk :: matched =>
      old ← get_row d table schema pk;
      match old with
      | None => Err "ERR row not found"
      | Some old => m ← release_unique table schema pk old fvs m; predeclare d table schema fvs matched (foldl (release_partition table pk old fvs) m schema)
      end
  end.

Fixpoint stage_updates (d : Db) (c : SchemaCache) (table : bytes) (fvs : list (bytes * bytes)) (ttl : option TtlOp) (matched : list bytes) (m : TableMutation) : result TableMutation :=
  match matched with
  | [] => Ok m
  | pk :: matched => '(_, m) ← stage_table_update d c table pk fvs ttl m; stage_updates d c table fvs ttl matched m
  end.

(** [table_update_where_rows] after the rows that match were found. *)
Definition stage_update_rows (d : Db) (c : SchemaCache) (table : bytes) (field_values : list (bytes * bytes)) (ttl : option TtlOp) (matched : list bytes) (m : TableMutation)
    : result TableMutation :=
  schema ← load_schema d c table;
  let fvs := normalized_field_values field_values in
  if negb (forallb (fun p => is_some (find_field p.1 schema)) fvs) then Err "ERR unknown field"
  else m ← predeclare d table schema fvs matched m; stage_updates d c table fvs ttl matched m.

Fixpoint stage_deletes (d : Db) (c : SchemaCache) (table : bytes) (matched : list bytes) (visited : gset identity) (m : TableMutation) : result TableMutation :=
  match matched with
  | [] => Ok m
  | pk :: matched =>
      if bool_decide ((table, pk) ∈ deleted_rows m) then stage_deletes d c table matched visited m
      else '(visited, m) ← stage_delete d c table pk visited m; stage_deletes d c table matched visited m
  end.

(** [table_delete_where_rows] after the rows that match were found. *)
Definition stage_delete_rows (d : Db) (c : SchemaCache) (table : bytes) (matched : list bytes) (m : TableMutation) : result TableMutation :=
  stage_deletes d c table matched ∅ (add_planned (list_to_set ((fun pk => (table, pk)) <$> matched)) m).

(** ** Publication and recovery *)

Definition raw_row_journal_command (table pk : bytes) (row : list (bytes * bytes)) : list bytes :=
  [bs "TROWSET"; table; pk] ++ concat ((fun p => [p.1; p.2]) <$> row).

Definition journal_command (r : identity * image) : list bytes :=
  let '((table, pk), i) := r in
  match i with Some row => raw_row_journal_command table pk row | None => [bs "TROWDEL"; table; pk] end.

(** [publish_resolved]: the records of the journal. The rows are in the order of a [BTreeMap]. *)
Definition identity_le (a b : identity * image) : Prop :=
  if bytes_eqb a.1.1 b.1.1 then bytes_le a.1.2 b.1.2 else bytes_le a.1.1 b.1.1.

#[export] Instance identity_le_dec (a b : identity * image) : Decision (identity_le a b).
Proof. unfold identity_le, bytes_le. destruct (bytes_eqb _ _); apply _. Defined.

Definition resolved (m : TableMutation) : list (identity * image) := merge_sort identity_le (map_to_list (resolved_rows m)).
Definition journal (m : TableMutation) : list (list bytes) := journal_command <$> resolved m.

(** The store after the batch was applied. *)
Definition publish (m : TableMutation) (d : Db) : Db := fun k => published (operations (batch m)) k (d k).

End Tables.

End Tables.
