(* ===== verification/TableJournal.v ===== *)
(** * The journal of tables and its replay ([src/src/tables/mod.rs], lines 936-1181, 1332-1350, 1612-1684 and
      2528-2731; [src/src/cmd/tables.rs], lines 254-304)

    A request on rows is staged in a mutation, which is journalled as the final images of the rows it
    touches. Recovery applies the images one by one: it takes the old row out of the indexes, enters the
    new one and replaces the hash. The theorems show that the images in the journal of a request are the
    rows that the published batch leaves behind, and that the replay of the journal rebuilds them. *)

From S2P Require Import Prelude.
From S2P Require Import Values.
From S2P Require Import Store.
From S2P Require Import Strings.
From S2P Require Import SortedSets.
From S2P Require Import TableBatch.
From S2P Require Import Schema.
From S2P Require Import Tables.
Local Open Scope Z_scope.

Module TableJournal.
Import Values.Values(HashData, mkHash, fields, expiries, live_fields, hash_empty, get_live, field_expired, live_fields_lookup,
  purge_expired, purge_expired_correct, mkVector, v_encrypted).
Import Values.Values(is_expired_at, value).
Import Store.Store(Store, find, live, nonempty, try_promote, disk_at).
Import Strings.Strings(WRONGTYPE, NOT_INTEGER, hot).
Import SortedSets.SortedSets(ranking, f64_le, u64_ok).
Import TableBatch.TableBatch.
Import Schema.Schema.
Import Tables.Tables.

(** ** Direct writes *)

Definition put_key (key : bytes) (v : option TableValue) (d : Db) : Db := fun k => if bool_decide (k = key) then v else d k.

Definition del (key : bytes) (d : Db) : Db := put_key key None d.
Definition set_key (key value : bytes) (d : Db) : Db := put_key key (Some (TvStr value)) d.

Definition sadd (key member : bytes) (d : Db) : result Db :=
  match d key with
  | None => Ok (put_key key (Some (TvSet {[member]})) d)
  | Some (TvSet m) => Ok (put_key key (Some (TvSet ({[member]} ∪ m))) d)
  | Some _ => Err WRONGTYPE
  end.

Definition srem (key member : bytes) (d : Db) : result Db :=
  match d key with
  | None => Ok d
  | Some (TvSet m) => Ok (put_key key (Some (TvSet (m ∖ {[member]}))) d)
  | Some _ => Err WRONGTYPE
  end.

Definition zadd (key member : bytes) (score : Z) (d : Db) : result Db :=
  match d key with
  | None => Ok (put_key key (Some (TvZset {[member := score]})) d)
  | Some (TvZset m) => Ok (put_key key (Some (TvZset (<[member := score]> m))) d)
  | Some _ => Err WRONGTYPE
  end.

Definition zrem (key member : bytes) (d : Db) : result Db :=
  match d key with
  | None => Ok d
  | Some (TvZset m) => Ok (put_key key (Some (TvZset (delete member m))) d)
  | Some _ => Err WRONGTYPE
  end.

Definition hdel (key field : bytes) (d : Db) : result Db :=
  match d key with
  | None => Ok d
  | Some (TvHash h) => Ok (put_key key (kept (del_field h field)) d)
  | Some _ => Err WRONGTYPE
  end.

(** An overwritten vector stays encrypted. *)
Definition vset (key : bytes) (data : list Z) (metadata : option bytes) (enc : bool) (d : Db) : Db :=
  let sticky := match d key with Some (TvVector v) => v_encrypted v | _ => false end in
  put_key key (Some (TvVector (mkVector (as_u32 (zlen data)) data metadata (enc || sticky)))) d.

Create HintDb rows.

Section Replay.

Context `{Env}.

Definition hset (key : bytes) (pairs : list (bytes * bytes)) (d : Db) : result Db :=
  match d key with
  | None => Ok (put_key key (Some (TvHash (foldl set_field hash_empty pairs))) d)
  | Some (TvHash h) => let '(_, _, h) := purge_expired now_ms h in Ok (put_key key (Some (TvHash (foldl set_field h pairs))) d)
  | Some _ => Err WRONGTYPE
  end.

Fixpoint each {A} (f : A -> Db -> result Db) (l : list A) (d : Db) : result Db :=
  match l with
  | [] => Ok d
  | x :: l => d ← f x d; each f l d
  end.

(** ** Indexes and counters *)

Definition add_to_index (table : bytes) (field : FieldDef) (value pk : bytes) (d : Db) : result Db :=
  if is_auth_secret_storage_field table (f_name field) then Ok d
  else if encrypted field then
    if negb (searchable field) then Ok d
    else values ← searchable_index_values table field value; each (fun v => sadd (idx_str_key table (f_name field) v) pk) values d
  else match field_type field with
       | TInt | TFloat | TBool | TTimestamp | TRef _ =>
           score ← index_score (field_type field) value;
           zadd (idx_sorted_key table (f_name field)) pk score d
       | TStr | TUuid => sadd (idx_str_key table (f_name field) value) pk d
       | TVector dims =>
           vector ← parse_vector_value parse_f32 (lossy value) dims;
           Ok (vset (table_vector_key table (f_name field) pk) vector (Some (vector_metadata table (f_name field) pk)) (encrypted field) d)
       | TJson | TArray => Ok d
       end.

Definition remove_from_index (table : bytes) (field : FieldDef) (value pk : bytes) (d : Db) : result Db :=
  if encrypted field then
    if negb (searchable field) then Ok d
    else values ← searchable_index_values table field value; each (fun v => srem (idx_str_key table (f_name field) v) pk) values d
  else match field_type field with
       | TInt | TFloat | TBool | TTimestamp | TRef _ => zrem (idx_sorted_key table (f_name field)) pk d
       | TStr | TUuid => srem (idx_str_key table (f_name field) value) pk d
       | TVector _ => Ok (del (table_vector_key table (f_name field) pk) d)
       | TJson | TArray => Ok d
       end.

Definition remove_unique_entry (ukey pk index_value : bytes) (d : Db) : result Db :=
  holder ← hget_checked d ukey index_value;
  if bool_decide (holder = Some pk) then hdel ukey index_value d else Ok d.

Definition remove_unique_entries (table : bytes) (field : FieldDef) (value pk : bytes) (d : Db) : result Db :=
  values ← searchable_index_values table field value;
  each (remove_unique_entry (uniq_key table (f_name field)) pk) values d.

(** [incr] by one *)
Definition next_id (table : bytes) (d : Db) : result (Z * Db) :=
  let key := seq_key table in
  current ← match d key with
            | None => Ok 0
            | Some (TvStr v) => if is_utf8 v then match parse_i64 v with Some n => Ok n | None => Err NOT_INTEGER end else Err NOT_INTEGER
            | Some _ => Err WRONGTYPE
            end;
  match i64_checked (current + 1) with
  | Some n => Ok (n, set_key key (fmt_i n) d)
  | None => Err "ERR increment or decrement would overflow"
  end.

Definition bump_key_to_at_least (key : bytes) (id : Z) (d : Db) : result Db :=
  current ← stored_sequence d key;
  Ok (if current <? id then set_key key (fmt_i id) d else d).

Definition bump_seq_to_at_least (table : bytes) := bump_key_to_at_least (seq_key table).
Definition bump_scoped_seq_to_at_least (table field partition_col partition_val : bytes) :=
  bump_key_to_at_least (scoped_seq_key table field partition_col partition_val).

(** ** Replay of an image *)

(** The paths of the indexes whose root is not encrypted. *)
Definition open_paths (schema : list FieldDef) (pis : list PathIndex) : list (FieldDef * bytes * bytes) :=
  omap (fun pi => match split_path (p_path pi) with
                  | Some (root, rest) => if existsb (fun fd => bytes_eqb (f_name fd) root && encrypted fd) schema then None
                                         else Some (synthetic_path_fielddef pi, root, rest)
                  | None => None
                  end) pis.

Definition unindex_old_path (table pk : bytes) (old_map : gmap bytes bytes) (p : FieldDef * bytes * bytes) (d : Db) : result Db :=
  let '(synthetic, root, rest) := p in
  match old_map !! root ≫= fun raw => extract_json_scalar raw rest with
  | Some scalar => remove_from_index table synthetic scalar pk d
  | None => Ok d
  end.

Definition unindex_old_field (table pk : bytes) (drop_vectors : bool) (old_map : gmap bytes bytes) (field : FieldDef) (d : Db) : result Db :=
  match old_map !! f_name field with
  | Some old_val =>
      d ← remove_from_index table field old_val pk d;
      if unique field then remove_unique_entries table field old_val pk d else Ok d
  | None => Ok (if drop_vectors && is_vector_type (field_type field) then del (table_vector_key table (f_name field) pk) d else d)
  end.

Definition raw_map_of (raw_pairs : list (bytes * bytes)) : gmap bytes bytes :=
  foldl (fun m p => <[as_bytes (lossy p.1) := p.2]> m) ∅ raw_pairs.

Definition restore_ids (table pk : bytes) (d : Db) : result Db :=
  scores ← zset_at d (ids_key table);
  '(score, d) ← match scores !! pk with
                | Some score => Ok (score, d)
                | None => match parse_f64 pk with
                          | Some score => Ok (score, d)
                          | None => '(n, d) ← next_id (table ++ bs "__order") d; Ok (i64_as_f64 n, d)
                          end
                end;
  zadd (ids_key table) pk score d.

Definition restore_sequence (table : bytes) (schema : list FieldDef) (pk : bytes) (d : Db) : result Db :=
  let numbered := match List.find primary_key schema with Some pk_field => bool_decide (field_type pk_field = TInt) | None => true end in
  if numbered then match parse_i64 pk with Some id => bump_seq_to_at_least table id d | None => Ok d end else Ok d.

Definition restore_scoped (table : bytes) (schema : list FieldDef) (pk : bytes) (raw_map : gmap bytes bytes) (field : FieldDef) (d : Db) : result Db :=
  match sequence_partition field with
  | None => Ok d
  | Some partition_col =>
      match raw_map !! f_name field, find_field partition_col schema, raw_map !! partition_col with
      | Some raw_value, Some partition_field, Some raw_partition =>
          value ← decode_stored_value table field pk raw_value;
          partition ← decode_stored_value table partition_field pk raw_partition;
          match parse_i64 value with
          | Some n => bump_scoped_seq_to_at_least table (f_name field) partition_col partition n d
          | None => Ok d
          end
      | _, _, _ => Ok d
      end
  end.

Definition restore_index (table pk : bytes) (raw_map : gmap bytes bytes) (field : FieldDef) (d : Db) : result Db :=
  match raw_map !! f_name field with
  | None => Ok d
  | Some raw =>
      value ← decode_stored_value table field pk raw;
      d ← add_to_index table field value pk d;
      if unique field then
        values ← searchable_index_values table field value;
        each (fun v => hset (uniq_key table (f_name field)) [(v, pk)]) values d
      else Ok d
  end.

Definition restore_path (table : bytes) (schema : list FieldDef) (pk : bytes) (raw_map : gmap bytes bytes) (pi : PathIndex) (d : Db) : result Db :=
  match split_path (p_path pi) with
  | None => Ok d
  | Some (root, rest) =>
      match find_field root schema, raw_map !! root with
      | Some root_field, Some raw =>
          if encrypted root_field then Ok d
          else
            b ← stored_plain_bytes table root_field pk raw;
            match extract_json_scalar (decode_cell (field_type root_field) b) rest with
            | Some scalar => add_to_index table (synthetic_path_fielddef pi) scalar pk d
            | None => Ok d
            end
      | _, _ => Ok d
      end
  end.

Definition restore_deadline (table pk : bytes) (raw_map : gmap bytes bytes) (d : Db) : result Db :=
  match raw_map !! HIDDEN_TTL_FIELD with
  | Some ttl => match parse_u64 ttl with
                | Some deadline => zadd ttl_index_key (ttl_member table pk) (u64_as_f64 deadline) d
                | None => Ok d
                end
  | None => d ← zrem ttl_index_key (ttl_member table pk) d; hdel (row_key_for_pk table pk) HIDDEN_TTL_FIELD d
  end.

Definition table_apply_wal_row (c : SchemaCache) (table pk : bytes) (raw_pairs : list (bytes * bytes)) (d : Db) : result Db :=
  schema ← load_schema d c table;
  old ← get_row_including_expired d table schema pk;
  d ← match old with
      | Some old_map =>
          d ← each (unindex_old_field table pk false old_map) schema d;
          pis ← load_path_indexes d c table;
          each (unindex_old_path table pk old_map) (open_paths schema pis) d
      | None => Ok d
      end;
  let raw_map := raw_map_of raw_pairs in
  d ← restore_ids table pk d;
  d ← restore_sequence table schema pk d;
  d ← each (restore_scoped table schema pk raw_map) schema d;
  d ← each (restore_index table pk raw_map) schema d;
  pis ← load_path_indexes d c table;
  d ← each (restore_path table schema pk raw_map) pis d;
  d ← restore_deadline table pk raw_map d;
  hset (row_key_for_pk table pk) raw_pairs (del (row_key_for_pk table pk) d).

Definition table_apply_wal_delete (c : SchemaCache) (table pk : bytes) (d : Db) : result Db :=
  schema ← load_schema d c table;
  old ← get_row_including_expired d table schema pk;
  match old with
  | None => Ok d
  | Some old_map =>
      d ← each (unindex_old_field table pk true old_map) schema d;
      pis ← load_path_indexes d c table;
      d ← each (unindex_old_path table pk old_map) (open_paths schema pis) d;
      d ← zrem (ids_key table) pk d;
      d ← zrem ttl_index_key (ttl_member table pk) d;
      Ok (del (row_key_for_pk table pk) d)
  end.

(** ** Replay of the journal *)

Definition arg_str (arg : bytes) : bytes := if is_utf8 arg then arg else [].

Fixpoint pair_up (l : list bytes) : option (list (bytes * bytes)) :=
  match l with
  | [] => Some []
  | f :: v :: l => cons (f, v) <$> pair_up l
  | [_] => None
  end.

Definition replay_command (c : SchemaCache) (args : list bytes) (d : Db) : result Db :=
  match args with
  | cmd :: rest =>
      if bytes_eqb cmd (bs "TROWSET") then
        match rest with
        | table :: pk :: rest => match pair_up rest with
                                 | Some raw_pairs => table_apply_wal_row c (arg_str table) (arg_str pk) raw_pairs d
                                 | None => Err "ERR usage: TROWSET <table> <pk> <field> <raw> ..."
                                 end
        | _ => Err "ERR usage: TROWSET <table> <pk> <field> <raw> ..."
        end
      else if bytes_eqb cmd (bs "TROWDEL") then
        match rest with
        | [table; pk] => table_apply_wal_delete c (arg_str table) (arg_str pk) d
        | _ => Err "ERR usage: TROWDEL <table> <pk>"
        end
      else Err "ERR unknown command"
  | [] => Err "ERR unknown command"
  end.

Definition replay (c : SchemaCache) : list (list bytes) -> Db -> result Db := each (replay_command c).

(** ** Requests *)

(** A request on the rows of a table. The rows that a condition matches are given. *)
Inductive Request :=
| RInsert (rows : list (list (bytes * bytes))) (ttl : option TtlOp)
| RUpsert (row : list (bytes * bytes)) (conflict_col : option bytes) (ttl : option TtlOp) (existing_guard : option (gmap bytes bytes -> result unit))
| RUpdate (field_values : list (bytes * bytes)) (ttl : option TtlOp) (matched : list bytes)
| RDelete (matched : list bytes).

Definition stage_request (d : Db) (c : SchemaCache) (table : bytes) (r : Request) (uuids : list bytes) : result TableMutation :=
  let m := mutation_new uuids in
  match r with
  | RInsert rows ttl => stage_inserts d c table rows ttl m
  | RUpsert row conflict_col ttl existing_guard => '(_, m) ← stage_table_upsert d c table row conflict_col ttl existing_guard m; Ok m
  | RUpdate field_values ttl matched => stage_update_rows d c table field_values ttl matched m
  | RDelete matched => stage_delete_rows d c table matched m
  end.

(** ** Expired rows *)

(** The removal of a row whose deadline has passed: whether it was removed, the records of the journal, the store. *)
Definition expire_row_if_due (d : Db) (c : SchemaCache) (table pk : bytes) (cutoff_ms : Z) : result (bool * list (list bytes) * Db) :=
  raw ← hget_checked d (row_key_for_pk table pk) HIDDEN_TTL_FIELD;
  match raw ≫= parse_u64 with
  | Some deadline =>
      if deadline <=? cutoff_ms then '(_, m) ← stage_delete d c table pk ∅ (mutation_new []); Ok (true, journal m, publish m d)
      else Ok (false, [], d)
  | None =>
      m ← stage d KSortedSet (SortedSetRemove ttl_index_key (ttl_member table pk)) (mutation_new []);
      Ok (false, [[bs "ZREM"; ttl_index_key; ttl_member table pk]], publish m d)
  end.

Fixpoint expire_each (c : SchemaCache) (due : list bytes) (affected : list bytes) (log : list (list bytes)) (d : Db) : result (list bytes * list (list bytes) * Db) :=
  match due with
  | [] => Ok (affected, log, d)
  | member :: due =>
      match Store.Store.split_once [0] member with
      | None => d ← zrem ttl_index_key member d; expire_each c due affected (log ++ [[bs "ZREM"; ttl_index_key; member]]) d
      | Some (table, pk) =>
          '(expired, cmds, d) ← expire_row_if_due d c table pk now_ms;
          let affected := if (expired : bool) && negb (existsb (bytes_eqb table) affected) then affected ++ [table] else affected in
          expire_each c due affected (log ++ cmds) d
      end
  end.

(** The members of the index of deadlines that are due, in order, at most 512. *)
Definition due_rows (d : Db) : result (list bytes) :=
  m ← zset_at d ttl_index_key;
  Ok (take 512 (snd <$> List.filter (fun x => f64_le 0 x.1 && f64_le x.1 (u64_as_f64 now_ms)) (ranking m))).

(** The tables that lost a row, the records of the journal and the store. *)
Definition expire_due_rows (d : Db) (c : SchemaCache) : result (list bytes * list (list bytes) * Db) :=
  due ← due_rows d; expire_each c due [] [] d.

(** ** Lemmas: results *)

(** What holds of an answer that is not an error. *)
Definition ensures {A} (P : A -> Prop) (r : result A) : Prop := forall a, r = Ok a -> P a.

Lemma ensures_ok {A} (P : A -> Prop) a : P a -> ensures P (Ok a).
Proof. by intros ? ? [= <-]. Qed.

Lemma ensures_err {A} (P : A -> Prop) e : ensures P (Err e).
Proof. done. Qed.

Lemma ensures_bind {A B} (P : A -> Prop) (Q : B -> Prop) (r : result A) (f : A -> result B) :
  ensures P r -> (forall a, P a -> ensures Q (f a)) -> ensures Q (r ≫= f).
Proof. intros Hr Hf b E. destruct r as [a|e]; [|done]. by eapply Hf; [apply Hr|]. Qed.

Lemma ensures_read {A B} (Q : B -> Prop) (r : result A) (f : A -> result B) :
  (forall a, r = Ok a -> ensures Q (f a)) -> ensures Q (r ≫= f).
Proof. intros Hf b E. destruct r as [a|e]; [|done]. by eapply Hf. Qed.

Lemma ensures_mono {A} (P Q : A -> Prop) (r : result A) : ensures P r -> (forall a, P a -> Q a) -> ensures Q r.
Proof. intros Hr HPQ a E. by apply HPQ, Hr. Qed.

Lemma ensures_each {A} (Q : Db -> Prop) (f : A -> Db -> result Db) l : Forall (fun x => forall d, Q d -> ensures Q (f x d)) l ->
  forall d, Q d -> ensures Q (each f l d).
Proof. induction 1 as [|x l Hx Hl IH]; intros d Hd; cbn [each]; [by apply ensures_ok|]. eapply ensures_bind; [by apply Hx|]. intros d1 Hd1. by apply IH. Qed.

(** ** Lemmas: keys *)

Definition plain (table : bytes) : Prop := COLON ∉ table.

Lemma colon_split (a b r s : bytes) : plain a -> plain b -> a ++ COLON :: r = b ++ COLON :: s -> a = b /\ r = s.
Proof.
  revert b. induction a as [|x a IH]; intros [|y b] Ha Hb E; cbn in E; injection E; try done.
  - intros _ <-. destruct Hb. left.
  - intros _ ->. destruct Ha. left.
  - intros E' <-. destruct (IH b) as [-> ->]; [by intros ?; apply Ha; right|by intros ?; apply Hb; right|done|done].
Qed.

Lemma row_key_inj t u p q : plain t -> plain u -> row_key_for_pk t p = row_key_for_pk u q -> t = u /\ p = q.
Proof. intros Ht Hu E. apply app_inv_head in E. destruct (colon_split t u _ _ Ht Hu E) as [-> E']. split; [done|]. by injection E'. Qed.

(** Keys that are not the key of a row. *)
Definition off_rows (k : bytes) : Prop := forall t p, plain t -> k <> row_key_for_pk t p.

Lemma off_rows_part t r : plain t -> (forall p, r <> bs "row:" ++ p) -> off_rows (bs "_t:" ++ t ++ COLON :: r).
Proof. intros Ht Hr u p Hu E. apply app_inv_head in E. destruct (colon_split t u _ _ Ht Hu E) as [_ ->]. by eapply Hr. Qed.

Lemma off_idx_sorted t f : plain t -> off_rows (idx_sorted_key t f).
Proof. intros Ht. by apply off_rows_part. Qed.
Lemma off_idx_str t f v : plain t -> off_rows (idx_str_key t f v).
Proof. intros Ht. by apply off_rows_part. Qed.
Lemma off_vector t f p : plain t -> off_rows (table_vector_key t f p).
Proof. intros Ht. by apply off_rows_part. Qed.
Lemma off_uniq t f : plain t -> off_rows (uniq_key t f).
Proof. intros Ht. by apply off_rows_part. Qed.
Lemma off_ids t : plain t -> off_rows (ids_key t).
Proof. intros Ht. by apply off_rows_part. Qed.
Lemma off_seq t : plain t -> off_rows (seq_key t).
Proof. intros Ht. by apply off_rows_part. Qed.
Lemma off_scoped_seq t f c v : plain t -> off_rows (scoped_seq_key t f c v).
Proof. intros Ht. by apply off_rows_part. Qed.
Lemma off_ttl_index : off_rows ttl_index_key.
Proof.
  intros t p Ht E. assert (COLON ∈ bs "_ttl") as Hin.
  { apply (app_inv_head (bs "_t:") (bs "_ttl")) in E. rewrite E. apply elem_of_app. right. left. }
  revert Hin. by refine (bool_decide_unpack (COLON ∉ bs "_ttl") _).
Qed.

Lemma plain_order t : plain t -> plain (t ++ bs "__order").
Proof. intros Ht [Hin|Hin]%elem_of_app; [done|]. revert Hin. by refine (bool_decide_unpack (COLON ∉ bs "__order") _). Qed.

End Replay.

#[export] Hint Resolve off_idx_sorted off_idx_str off_vector off_uniq off_ids off_seq off_scoped_seq off_ttl_index plain_order : rows.

(** ** Lemmas: the rows of a store *)

Section Journal.

Context `{Env} (d : Db).

(** Doubles are 64-bit patterns. *)
Record doubles_ok : Prop := {
  parsed_double : forall b f, parse_f64 b = Some f -> u64_ok f;
  i64_double : forall z, u64_ok (i64_as_f64 z);
  u64_double : forall z, u64_ok (u64_as_f64 z) }.

(** An operation that is added with its kind. *)
Definition kinded (kind : TableEntryKind) (op : TableBatchOp) : Prop := doubles_ok -> well_kinded kind op.

Lemma kinded_score k m score : (doubles_ok -> u64_ok score) -> kinded KSortedSet (SortedSetAdd k m score).
Proof. intros Hs Hd. split; [done|by apply Hs]. Qed.

Lemma index_score_ok ty value : ensures (fun score => doubles_ok -> u64_ok score) (index_score ty value).
Proof.
  assert (forall v, ensures (fun score => doubles_ok -> u64_ok score) (match parse_f64 v with Some f => Ok f | None => Err "ERR invalid numeric index value" end)) as Hp.
  { intros v. destruct (parse_f64 v) eqn:E; [|done]. apply ensures_ok. intros Hd. by eapply parsed_double. }
  unfold index_score. destruct ty; try apply Hp. repeat case_match; try done; by apply ensures_ok.
Qed.

Definition row_of (o : option TableValue) : gmap bytes bytes := live_fields now_ms (hash_or_empty o).
Definition row_at (d : Db) (t p : bytes) : gmap bytes bytes := row_of (d (row_key_for_pk t p)).

(** The rows after the operations staged so far. *)
Definition rows (m : TableMutation) : bytes -> bytes -> gmap bytes bytes := row_at (publish m d).

Lemma live_set_field h p : live_fields now_ms (set_field h p) = <[p.1 := p.2]> (live_fields now_ms h).
Proof.
  apply map_eq. intros f. rewrite live_fields_lookup. unfold get_live, field_expired, set_field. cbn. destruct (decide (f = p.1)) as [->|Hne].
  - by rewrite lookup_delete_eq, !lookup_insert_eq.
  - rewrite lookup_delete_ne, !lookup_insert_ne, live_fields_lookup by congruence. done.
Qed.

Lemma live_del_field h f : live_fields now_ms (del_field h f) = delete f (live_fields now_ms h).
Proof.
  apply map_eq. intros g. rewrite live_fields_lookup. unfold get_live, field_expired, del_field. cbn. destruct (decide (g = f)) as [->|Hne].
  - by rewrite !lookup_delete_eq.
  - rewrite !lookup_delete_ne, live_fields_lookup by congruence. done.
Qed.

Lemma live_set_fields l : forall h, NoDup l.*1 -> live_fields now_ms (foldl set_field h l) = list_to_map l ∪ live_fields now_ms h.
Proof.
  induction l as [|[f v] l IH]; intros h Hn; cbn; [by rewrite (left_id_L ∅ (∪))|]. apply NoDup_cons in Hn as [Hf Hn].
  rewrite IH, live_set_field by done. cbn. rewrite <-insert_union_r by (by apply not_elem_of_list_to_map_1). by rewrite insert_union_l.
Qed.

Lemma row_of_kept h : row_of (kept h) = live_fields now_ms h.
Proof.
  unfold kept, row_of. case_bool_decide as E; [|done]. cbn. apply map_eq. intros f. rewrite !live_fields_lookup. unfold get_live. rewrite E. cbn.
  by rewrite !lookup_empty; repeat case_match.
Qed.

Lemma row_of_set k l o : NoDup l.*1 -> row_of (op_effect (HashSet k l) o) = list_to_map l ∪ row_of o.
Proof. intros Hn. by apply live_set_fields. Qed.

Lemma row_of_hdel k f o : row_of (op_effect (HashDelete k [f]) o) = delete f (row_of o).
Proof.
  destruct o as [v|]; [destruct v|]; cbn; try (unfold row_of; cbn; by rewrite <-live_del_field).
  by rewrite row_of_kept, live_del_field.
Qed.

Lemma row_of_none : row_of None = ∅.
Proof. apply map_eq. intros f. unfold row_of. rewrite live_fields_lookup. done. Qed.

Lemma hgetall_row d0 k r : hgetall d0 k = Ok r -> r = row_of (d0 k).
Proof. unfold hgetall. destruct (d0 k) as [[]|] eqn:E; try done; intros [= <-]; [done|]. by rewrite row_of_none. Qed.

(** ** Lemmas: staging *)

(** A property of batches that the staging of an operation keeps. *)
Context (good : AtomicTableBatch -> Prop).
Context (Hgood : forall kind op b b1, kinded kind op -> require d (op_key op) kind b = Ok b1 -> good b -> good (mkBatch (kinds b1) (operations b1 ++ [op]))).

(** The images and the sets of rows of a mutation are kept. *)
Definition same_books (m m' : TableMutation) : Prop :=
  resolved_rows m' = resolved_rows m /\ deleted_rows m' = deleted_rows m /\ inserted_rows m' = inserted_rows m /\ (good (batch m) -> good (batch m')).

(** A step that stages nothing for a row. *)
Definition quiet (m m' : TableMutation) : Prop := same_books m m' /\ forall t p, plain t -> rows m' t p = rows m t p.

Lemma stage_op kind op m : kinded kind op -> ensures (fun m' => same_books m m' /\ operations (batch m') = operations (batch m) ++ [op]) (stage d kind op m).
Proof.
  intros Hk. unfold stage. apply ensures_read. intros b Hb. apply ensures_ok. split.
  { split_and!; [done..|]. intros Hg. by eapply Hgood. }
  cbn. f_equal. unfold require in Hb.
  repeat case_match; try done; by injection Hb as <-.
Qed.

Lemma publish_snoc m m' op k : operations (batch m') = operations (batch m) ++ [op] ->
  publish m' d k = if bool_decide (op_key op = k) then op_effect op (publish m d k) else publish m d k.
Proof. intros E. unfold publish, published. by rewrite E, foldl_snoc. Qed.

Lemma stage_quiet kind op m : off_rows (op_key op) -> kinded kind op -> ensures (quiet m) (stage d kind op m).
Proof.
  intros Ho Hk. eapply ensures_mono; [by apply stage_op|]. intros m' [Hb E]. split; [done|]. intros t p Ht. unfold rows, row_at. rewrite (publish_snoc m m' op) by done.
  by rewrite bool_decide_eq_false_2 by (by apply Ho).
Qed.

Lemma stage_row kind op t p m : plain t -> op_key op = row_key_for_pk t p -> kinded kind op ->
  ensures (fun m' => same_books m m' /\ rows m' t p = row_of (op_effect op (publish m d (row_key_for_pk t p))) /\
                     forall u q, plain u -> (u, q) <> (t, p) -> rows m' u q = rows m u q) (stage d kind op m).
Proof.
  intros Ht Ek Hk. eapply ensures_mono; [by apply stage_op|]. intros m' [Hb E]. unfold rows, row_at. split_and!; [done| |].
  - by rewrite (publish_snoc m m' op), Ek, bool_decide_eq_true_2.
  - intros u q Hu Hne. rewrite (publish_snoc m m' op), Ek, bool_decide_eq_false_2; [done| |done]. intros [-> ->]%row_key_inj; done.
Qed.

(** Steps that stage nothing for a row keep what such steps keep. *)
Section Quiet.

Context (Q : TableMutation -> Prop) (Hq : forall m m', quiet m m' -> Q m -> Q m').

Definition second {A} (r : A * TableMutation) : Prop := Q r.2.

Lemma keeps_stage kind op m : off_rows (op_key op) -> kinded kind op -> Q m -> ensures Q (stage d kind op m).
Proof. intros Ho Hk Hm. eapply ensures_mono; [by apply stage_quiet|]. eauto. Qed.

Lemma keeps_books (m m' : TableMutation) : batch m' = batch m -> same_books m m' -> Q m -> Q m'.
Proof. intros Eb Hb. apply Hq. split; [done|]. intros t p _. unfold rows, publish. by rewrite Eb. Qed.

Lemma keeps_sequence k v m : Q m -> Q (set_sequence k v m).
Proof. by apply keeps_books. Qed.
Lemma keeps_uuids l m : Q m -> Q (set_uuids l m).
Proof. by apply keeps_books. Qed.
Lemma keeps_claim claim p m : Q m -> Q (add_claim claim p m).
Proof. by apply keeps_books. Qed.
Lemma keeps_release x m : Q m -> Q (add_release x m).
Proof. by apply keeps_books. Qed.
Lemma keeps_partition_claim claim p m : Q m -> Q (add_partition_claim claim p m).
Proof. by apply keeps_books. Qed.
Lemma keeps_partition_release x m : Q m -> Q (add_partition_release x m).
Proof. by apply keeps_books. Qed.

#[local] Hint Extern 1 (kinded _ _) => (intros _; solve [reflexivity | left; reflexivity | right; reflexivity]) : rows.
#[local] Hint Extern 2 (kinded _ (SortedSetAdd _ _ _)) => (apply kinded_score; eassumption || (eapply index_score_ok; eassumption)) : rows.
#[local] Hint Resolve keeps_stage keeps_sequence keeps_uuids keeps_claim keeps_release keeps_partition_claim keeps_partition_release ensures_ok ensures_err : rows.

Ltac same := solve [eauto with rows].

Ltac walk :=
  repeat (cbn beta iota;
    match goal with
    | |- ensures _ (Err _) => apply ensures_err
    | |- ensures _ (Ok _) => apply ensures_ok; try (unfold second; cbn [snd]); try same
    | |- ensures _ (@mbind _ _ TableMutation _ _ _) => eapply (ensures_bind Q); [|intros]
    | |- ensures _ (@mbind _ _ (prod ?A TableMutation) _ _ _) => eapply (ensures_bind (@second A)); [|intros [] ?; unfold second in *; cbn [snd] in *]
    | |- ensures _ (mbind _ _) => apply ensures_read; intros
    | |- ensures _ (let (_, _) := ?x in _) => destruct x eqn:?
    | |- ensures _ (match ?x with _ => _ end) => destruct x eqn:?
    | |- ensures _ _ => same
    end).

Lemma keeps_each kind f l m : (forall x, off_rows (op_key (f x))) -> (forall x, kinded kind (f x)) -> Q m -> ensures Q (stage_each d kind f l m).
Proof. intros Hf Hk. revert m. induction l as [|x l IH]; intros m Hm; cbn [stage_each]; walk. Qed.

Lemma keeps_allocate k m : off_rows k -> Q m -> ensures second (allocate_sequence d k m).
Proof. intros Hk Hm. unfold allocate_sequence, current_sequence. walk. Qed.

Lemma keeps_bump k v m : off_rows k -> Q m -> ensures Q (bump_sequence d k v m).
Proof. intros Hk Hm. unfold bump_sequence, current_sequence. walk. Qed.

#[local] Hint Resolve keeps_each keeps_allocate keeps_bump : rows.

Context (t : bytes) (Ht : plain t).

Lemma keeps_index field value p m : Q m -> ensures Q (stage_add_to_index d t field value p m).
Proof. intros Hm. unfold stage_add_to_index. walk. Qed.

Lemma keeps_unindex field value p m : Q m -> ensures Q (stage_remove_from_index d t field value p m).
Proof. intros Hm. unfold stage_remove_from_index. walk. Qed.

Lemma keeps_set_unique field value p m : Q m -> ensures Q (stage_set_unique d t field value p m).
Proof. intros Hm. unfold stage_set_unique. walk. Qed.

Lemma keeps_remove_unique field value p m : Q m -> ensures Q (stage_remove_unique d t field value p m).
Proof. intros Hm. unfold stage_remove_unique. walk. Qed.

#[local] Hint Resolve keeps_index keeps_unindex keeps_set_unique keeps_remove_unique : rows.

Lemma keeps_paths schema f pis : (forall syn root rest m, Q m -> ensures Q (f syn root rest m)) -> forall m, Q m -> ensures Q (for_paths schema f pis m).
Proof. intros Hf. induction pis as [|pi pis IH]; intros m Hm; cbn [for_paths]; walk. Qed.

Lemma keeps_unindex_fields p row_map fs : forall m, Q m -> ensures Q (unindex_fields d t p row_map fs m).
Proof. induction fs as [|f fs IH]; intros m Hm; cbn [unindex_fields]; unfold unindex_field; walk. Qed.

Lemma keeps_unindex_path p row_map syn root rest m : Q m -> ensures Q (unindex_path d t p row_map syn root rest m).
Proof. intros Hm. unfold unindex_path. walk. Qed.

Lemma keeps_default token m : Q m -> Q (resolve_default token m).2.
Proof. intros Hm. unfold resolve_default, fresh_uuid. repeat case_match; cbn; eauto with rows. Qed.

Lemma keeps_defaults given fs : forall provided m, Q m -> Q (fill_defaults given fs provided m).2.
Proof.
  induction fs as [|f fs IH]; intros provided m Hm; cbn [fill_defaults]; [done|]. destruct (_ || _); [by apply IH|].
  destruct (default_value f) as [token|]; [|by apply IH]. pose proof (keeps_default token m Hm). destruct (resolve_default token m). by apply IH.
Qed.

Lemma keeps_sequences given fs : forall provided m, Q m -> ensures second (fill_sequences d t given fs provided m).
Proof. induction fs as [|f fs IH]; intros provided m Hm; cbn [fill_sequences]; walk. Qed.

Lemma keeps_choose_pk schema provided m : Q m -> ensures second (choose_pk d t schema provided m).
Proof. intros Hm. unfold choose_pk, fresh_uuid. walk. apply (keeps_default _ _ Hm). Qed.

Lemma keeps_number_row p m : Q m -> ensures (fun r => (doubles_ok -> u64_ok r.1) /\ Q r.2) (number_row d t p m).
Proof.
  intros Hm. unfold number_row. cbn zeta. eapply (ensures_bind (fun r => (doubles_ok -> u64_ok r.1) /\ Q r.2)).
  - destruct (parse_f64 p) as [score|] eqn:E; [apply ensures_ok; split; [intros Hd; by eapply parsed_double|done]|].
    eapply (ensures_bind second); [apply keeps_allocate; [by apply off_seq, plain_order|done]|]. intros [n m1] H1. apply ensures_ok. split; [|done]. intros Hd. by apply i64_double.
  - intros [score m1] [Hsc H1]. cbn [fst snd] in *. eapply (ensures_bind Q); [walk|]. intros m2 H2. eapply (ensures_bind Q); [walk|]. intros m3 H3. by apply ensures_ok.
Qed.

Lemma keeps_bump_partitions provided fs : forall m, Q m -> ensures Q (bump_partitions d t provided fs m).
Proof. induction fs as [|f fs IH]; intros m Hm; cbn [bump_partitions]; walk. Qed.

Lemma keeps_index_row provided p fs : forall m, Q m -> ensures Q (index_row d t provided p fs m).
Proof. induction fs as [|f fs IH]; intros m Hm; cbn [index_row]; walk. Qed.

Lemma keeps_index_path p provided syn root rest m : Q m -> ensures Q (index_path d t p provided syn root rest m).
Proof. intros Hm. unfold index_path. walk. Qed.

Lemma keeps_update_partitions schema p fvs final fs : forall m, Q m -> ensures Q (update_partitions d t schema p fvs final fs m).
Proof. induction fs as [|f fs IH]; intros m Hm; cbn [update_partitions]; walk. Qed.

Lemma keeps_reindex schema p old fvs : forall m, Q m -> ensures Q (reindex d t schema p old fvs m).
Proof. induction fvs as [|[f v] fvs IH]; intros m Hm; cbn [reindex]; walk. Qed.

Lemma keeps_reindex_path p old fvs syn root rest m : Q m -> ensures Q (reindex_path d t p old fvs syn root rest m).
Proof. intros Hm. unfold reindex_path. walk. Qed.

Lemma keeps_releases (f : bytes -> bytes * bytes * bytes * bytes) values : forall m, Q m -> Q (foldl (fun m v => add_release (f v) m) m values).
Proof. induction values as [|v values IH]; intros m Hm; cbn; eauto with rows. Qed.

Lemma keeps_release_unique schema p old fvs : forall m, Q m -> ensures Q (release_unique t schema p old fvs m).
Proof. induction fvs as [|[f v] fvs IH]; intros m Hm; cbn [release_unique]; walk. by apply keeps_releases. Qed.

Lemma keeps_release_partitions p old fvs fs : forall m, Q m -> Q (foldl (release_partition t p old fvs) m fs).
Proof. induction fs as [|f fs IH]; intros m Hm; cbn; [done|]. apply IH. unfold release_partition. repeat case_match; eauto with rows. Qed.

Lemma keeps_predeclare schema fvs matched : forall m, Q m -> ensures Q (predeclare d t schema fvs matched m).
Proof.
  induction matched as [|p matched IH]; intros m Hm; cbn [predeclare]; [walk|]. apply ensures_read. intros [old|] _; [|done].
  eapply (ensures_bind Q); [by apply keeps_release_unique|]. intros m1 Hm1. by apply IH, keeps_release_partitions.
Qed.

End Quiet.

(** ** Lemmas: removals *)

(** Every image is the row. *)
Record settled (m : TableMutation) : Prop := {
  settled_good : good (batch m);
  settled_rows : forall t p, plain t ->
    match resolved_rows m !! (t, p) with
    | None => rows m t p = row_at d t p
    | Some None => rows m t p = ∅
    | Some (Some row) => NoDup row.*1 /\ rows m t p = list_to_map row
    end }.

(** A step that only takes cells and rows away. *)
Record shrink (m m' : TableMutation) : Prop := {
  shrink_settled : settled m -> settled m';
  shrink_rows : forall t p, plain t -> rows m' t p ⊆ rows m t p;
  shrink_more : deleted_rows m ⊆ deleted_rows m';
  shrink_deleted : forall t p, plain t -> (t, p) ∈ deleted_rows m' -> (t, p) ∉ deleted_rows m -> rows m' t p = ∅;
  shrink_inserted : inserted_rows m' = inserted_rows m }.

Lemma quiet_shrink m m' : quiet m m' -> shrink m m'.
Proof.
  intros [(Hr & Hd & Hi & Hg) Hrows]. split; [|intros t p Ht; by rewrite Hrows|by rewrite Hd|rewrite Hd; done|done].
  intros [Hs1 Hs2]. split; [by apply Hg|]. intros t p Ht. rewrite Hr, Hrows by done. by apply Hs2.
Qed.

Lemma quiet_trans m0 m m' : quiet m m' -> quiet m0 m -> quiet m0 m'.
Proof. intros [(?&?&?&?) Hr] [(?&?&?&?) Hr']. split; [split_and!; [congruence..|eauto]|]. intros u q Hu. by rewrite Hr, Hr'. Qed.

Lemma below_empty (r1 r2 : gmap bytes bytes) : r1 ⊆ r2 -> r2 = ∅ -> r1 = ∅.
Proof. intros Hr ->. apply (anti_symm (⊆)); [done|apply map_empty_subseteq]. Qed.

Lemma shrink_trans m1 m2 m3 : shrink m1 m2 -> shrink m2 m3 -> shrink m1 m3.
Proof.
  intros [S1 R1 M1 D1 I1] [S2 R2 M2 D2 I2]. split; [eauto| | set_solver| |congruence].
  - intros t p Ht. etrans; [by apply R2|by apply R1].
  - intros t p Ht Hin Hn. destruct (decide ((t, p) ∈ deleted_rows m2)) as [Hin2|]; [|by apply D2].
    eapply below_empty; [by apply R2|by apply D1].
Qed.

Lemma shrink_refl m : shrink m m.
Proof. by apply quiet_shrink. Qed.

Lemma list_to_map_without (f : bytes) (l : list (bytes * bytes)) :
  list_to_map (List.filter (fun p => negb (bytes_eqb p.1 f)) l) = delete f (list_to_map l : gmap bytes bytes).
Proof.
  induction l as [|[k v] l IH]; cbn; [by rewrite delete_empty|]. destruct (bytes_eqb k f) eqn:E; cbn.
  - apply bytes_eqb_eq in E as ->. by rewrite delete_insert_eq.
  - rewrite IH, delete_insert_ne; [done|]. intros ->. by rewrite (proj2 (bytes_eqb_eq k k) eq_refl) in E.
Qed.

Lemma keys_without (f : bytes) (l : list (bytes * bytes)) : NoDup l.*1 -> NoDup (List.filter (fun p => negb (bytes_eqb p.1 f)) l).*1.
Proof.
  induction l as [|[k v] l IH]; cbn; [done|]. intros [Hk Hl]%NoDup_cons. destruct (negb _); cbn; [|by apply IH]. apply NoDup_cons. split; [|by apply IH].
  contradict Hk. apply list_elem_of_fmap in Hk as (x & -> & Hx). apply list_elem_of_fmap. exists x. split; [done|].
  apply list_elem_of_In, filter_In in Hx as [Hx _]. by apply list_elem_of_In.
Qed.

(** The image that is recorded for a row. *)
Lemma sorted_image (l : list (bytes * bytes)) : NoDup l.*1 ->
  NoDup (merge_sort pair_le l).*1 /\ list_to_map (merge_sort pair_le l) = (list_to_map l : gmap bytes bytes).
Proof.
  intros Hn. pose proof (merge_sort_Permutation pair_le l) as Hp. split; [by rewrite Hp|]. apply list_to_map_proper; [by rewrite Hp|done].
Qed.

(** A mutation that differs by the image of one row, whose cells became those of the image. *)
Lemma settled_image m m' t p i : plain t -> settled m -> good (batch m') -> resolved_rows m' = <[(t, p) := i]> (resolved_rows m) ->
  match i with None => rows m' t p = ∅ | Some row => NoDup row.*1 /\ rows m' t p = list_to_map row end ->
  (forall u q, plain u -> (u, q) <> (t, p) -> rows m' u q = rows m u q) -> settled m'.
Proof.
  intros Ht Hs Hg Hr Hi Ho. split; [done|]. intros u q Hu. rewrite Hr. destruct (decide ((u, q) = (t, p))) as [[= -> ->]|Hne].
  - rewrite lookup_insert_eq. by destruct i.
  - rewrite lookup_insert_ne by congruence. rewrite Ho by done. by apply (settled_rows _ Hs).
Qed.

Lemma settled_without m t p f row : plain t -> settled m -> resolved_rows m !! (t, p) = Some (Some row) ->
  let row' := merge_sort pair_le (List.filter (fun p => negb (bytes_eqb p.1 f)) row) in
  NoDup row'.*1 /\ list_to_map row' = delete f (rows m t p).
Proof.
  intros Ht Hs Hr. pose proof (settled_rows _ Hs t p Ht) as Hr'. rewrite Hr in Hr'. destruct Hr' as [Hn ->]. cbn zeta. destruct (sorted_image _ (keys_without f row Hn)) as [H1 H2].
  split; [done|]. by rewrite H2, list_to_map_without.
Qed.

Lemma fresh_without (f : bytes) (r : gmap bytes bytes) :
  let row' := merge_sort pair_le (List.filter (fun p => negb (bytes_eqb p.1 f)) (map_to_list r)) in
  NoDup row'.*1 /\ list_to_map row' = delete f r.
Proof.
  destruct (sorted_image _ (keys_without f (map_to_list r) (NoDup_fst_map_to_list r))) as [H1 H2]. split; [done|]. by rewrite H2, list_to_map_without, list_to_map_to_list.
Qed.

(** The row of a cell that a foreign key sets to null. *)
Lemma removal_shrink t p f m m1 m2 : plain t -> same_books m m1 -> rows m1 t p = delete f (rows m t p) ->
  (forall u q, plain u -> (u, q) <> (t, p) -> rows m1 u q = rows m u q) -> quiet m1 m2 ->
  ensures (shrink m) (record_field_removal d t p f m2).
Proof.
  intros Ht (Hr1 & Hd1 & Hi1 & Hg1) Hrow Hother [(Hr2 & Hd2 & Hi2 & Hg2) Hq].
  assert (forall u q, plain u -> rows m2 u q ⊆ rows m u q) as Hsub.
  { intros u q Hu. rewrite Hq by done. destruct (decide ((u, q) = (t, p))) as [[= -> ->]|Hne]; [rewrite Hrow; apply delete_subseteq|by rewrite Hother]. }
  assert (forall m', same_books m2 m' \/ deleted_rows m' = deleted_rows m2 /\ inserted_rows m' = inserted_rows m2 -> batch m' = batch m2 -> (settled m -> settled m') -> shrink m m') as Hfin.
  { intros m' Hb Eb Hs. assert (rows m' = rows m2) as Er by (unfold rows, publish; by rewrite Eb).
    assert (deleted_rows m' = deleted_rows m /\ inserted_rows m' = inserted_rows m) as [Hd Hi] by (destruct Hb as [(_ & -> & -> & _)|[-> ->]]; split; congruence).
    split; [done|by rewrite Er|by rewrite Hd|by rewrite Hd|done]. }
  assert (forall row, NoDup row.*1 -> list_to_map row = delete f (rows m t p) -> settled m -> settled (record_image (t, p) (Some row) m2)) as Himage.
  { intros row Hn Hrow' Hs. eapply (settled_image m); [done|done|apply Hg2, Hg1, Hs|cbn; by rewrite Hr2, Hr1|cbn|].
    - split; [done|]. change (rows m2 t p = list_to_map row). by rewrite Hq, Hrow.
    - intros u q Hu Hne. change (rows m2 u q = rows m u q). by rewrite Hq, Hother. }
  unfold record_field_removal. rewrite Hr2, Hr1. destruct (resolved_rows m !! (t, p)) as [[row|]|] eqn:E.
  - apply ensures_ok, Hfin; [by right|done|]. intros Hs. destruct (settled_without m t p f row Ht Hs E) as [Hn Hrow']. by apply Himage.
  - apply ensures_ok, Hfin; [by left|done|]. intros [Hs1 Hs]. split; [by apply Hg2, Hg1|]. intros u q Hu. rewrite Hr2, Hr1, Hq by done. destruct (decide ((u, q) = (t, p))) as [[= -> ->]|Hne].
    + specialize (Hs t p Ht). rewrite E in *. by rewrite Hrow, Hs, delete_empty.
    + rewrite Hother by done. by apply Hs.
  - apply ensures_read. intros row ->%hgetall_row. apply ensures_ok, Hfin; [by right|done|]. intros Hs. destruct (fresh_without f (row_at d t p)) as [Hn Hrow'].
    apply Himage; [exact Hn|etrans; [exact Hrow'|]|exact Hs]. pose proof (settled_rows _ Hs t p Ht) as Hr. rewrite E in Hr. by rewrite Hr.
Qed.

Section Shrink.

Context (Q : TableMutation -> Prop) (Hs : forall m m', shrink m m' -> Q m -> Q m').

Lemma shrinks_quiet m m' : quiet m m' -> Q m -> Q m'.
Proof. intros Hq. by apply Hs, quiet_shrink. Qed.

Lemma keeps_set_null t field value ids : plain t -> forall m, Q m -> ensures Q (set_null_each d t field value ids m).
Proof.
  intros Ht. induction ids as [|p ids IH]; intros m Hm; cbn [set_null_each]; [by apply ensures_ok|].
  eapply ensures_bind; [by apply (stage_row _ _ t p)|]. cbn beta. intros m1 (Hb & Hrow & Hother). rewrite row_of_hdel in Hrow.
  eapply (ensures_bind (quiet m1)).
  { destruct (unique field); [|by apply ensures_ok]. apply (keeps_remove_unique (quiet m1)); [apply quiet_trans|done|done]. }
  intros m2 Hm2. eapply (ensures_bind (quiet m1)).
  { apply (keeps_unindex (quiet m1)); [apply quiet_trans|done|done]. }
  intros m3 Hm3. eapply (ensures_bind Q); [|apply IH]. eapply ensures_mono; [by eapply removal_shrink|]. intros m4 H4. by eapply Hs.
Qed.

Context (cascade : bytes -> bytes -> gset (bytes * bytes) -> TableMutation -> result (gset (bytes * bytes) * TableMutation)).
Context (Hc : forall t p visited m, plain t -> ensures (fun r => shrink m r.2) (cascade t p visited m)).

Lemma keeps_cascade t ids : plain t -> forall visited m, Q m -> ensures (second Q) (cascade_each cascade t ids visited m).
Proof.
  intros Ht. induction ids as [|p ids IH]; intros visited m Hm; cbn [cascade_each]; [by apply ensures_ok|].
  eapply ensures_bind; [by apply Hc|]. cbn beta. intros [v m1] H1. apply IH. by eapply Hs.
Qed.

Lemma keeps_release_field t p row_map other schema field visited m : plain other -> Q m ->
  ensures (second Q) (release_field cascade d t p row_map other schema field visited m).
Proof.
  intros Ho Hm. unfold release_field. apply ensures_read. intros _ _. destruct (references field) as [fk|]; [|by apply ensures_ok].
  destruct (negb _); [by apply ensures_ok|]. destruct (row_map !! _) as [v|]; [|by apply ensures_ok]. apply ensures_read. intros ids _. cbn zeta.
  case_bool_decide; [by apply ensures_ok|]. destruct (on_delete fk); [done|by apply keeps_cascade|]. destruct (negb _); [done|].
  eapply (ensures_bind Q); [by apply keeps_set_null|]. intros m1 H1. by apply ensures_ok.
Qed.

Lemma keeps_release_fields t p row_map other schema fs : plain other -> forall visited m, Q m ->
  ensures (second Q) (release_fields cascade d t p row_map other schema fs visited m).
Proof.
  intros Ho. induction fs as [|f fs IH]; intros visited m Hm; cbn [release_fields]; [by apply ensures_ok|].
  eapply (ensures_bind (second Q)); [by apply keeps_release_field|]. intros [v m1] H1. by apply IH.
Qed.

Lemma keeps_release_tables c t p row_map tables : Forall plain tables -> forall visited m, Q m ->
  ensures (second Q) (release_tables cascade d c t p row_map tables visited m).
Proof.
  induction 1 as [|other tables Ho Htables IH]; intros visited m Hm; cbn [release_tables]; [by apply ensures_ok|]. apply ensures_read. intros schema _.
  eapply (ensures_bind (second Q)); [by apply keeps_release_fields|]. intros [v m1] H1. by apply IH.
Qed.

End Shrink.

(** The tables that are searched for references. *)
Definition plain_tables : Prop := ensures (Forall plain) (smembers d table_list_key).

Lemma delete_row_shrink t p m m1 m2 m3 : plain t -> shrink (add_deleted (t, p) m) m1 ->
  quiet m1 m2 -> same_books m2 m3 -> rows m3 t p = ∅ -> (forall u q, plain u -> (u, q) <> (t, p) -> rows m3 u q = rows m2 u q) ->
  shrink m (record_delete t p m3).
Proof.
  intros Ht [S1 R1 M1 D1 I1] [(Hr2 & Hd2 & Hi2 & Hg2) Hq] (Hr3 & Hd3 & Hi3 & Hg3) He Ho.
  assert (forall u q, plain u -> (u, q) <> (t, p) -> rows m3 u q = rows m1 u q) as Ho' by (intros u q Hu Hne; by rewrite Ho, Hq).
  split; cbn -[rows]; rewrite ?Hd3, ?Hd2.
  - intros Hs. assert (settled m1) as Hs1 by (apply S1; split; apply Hs).
    eapply (settled_image m1); [done|done|apply Hg3, Hg2, Hs1|cbn; by rewrite Hr3, Hr2|done|done].
  - intros u q Hu. change (rows m3 u q ⊆ rows m u q). destruct (decide ((u, q) = (t, p))) as [[= -> ->]|Hne]; [rewrite He; apply map_empty_subseteq|].
    rewrite Ho' by done. by apply R1.
  - cbn in M1. set_solver.
  - intros u q Hu Hin Hn. change (rows m3 u q = ∅). destruct (decide ((u, q) = (t, p))) as [[= -> ->]|Hne]; [done|]. rewrite Ho' by done.
    apply D1; [done|done|]. cbn. set_solver.
  - by rewrite Hi3, Hi2, I1.
Qed.

Lemma delete_shrink (Htabs : plain_tables) c fuel : forall t p visited m, plain t ->
  ensures (fun r => shrink m r.2 /\ ((t, p) ∉ visited -> (t, p) ∈ deleted_rows r.2)) (stage_delete_inner fuel d c t p visited m).
Proof.
  induction fuel as [|fuel IH]; intros t p visited m Ht; cbn [stage_delete_inner]; [done|]. unfold delete_body.
  destruct (bool_decide _ || _) eqn:Ein.
  { apply ensures_ok. split; [apply shrink_refl|]. cbn. intros Hn. apply orb_true_iff in Ein as [Hin|Hin]; apply bool_decide_eq_true in Hin; done. }
  set (m0 := add_deleted (t, p) m). assert (forall m1 m2, shrink m1 m2 -> shrink m0 m1 -> shrink m0 m2) as Htr by (intros; by eapply shrink_trans).
  assert (forall m1 m2, quiet m1 m2 -> shrink m0 m1 -> shrink m0 m2) as Hqs by (intros ? ? ?%quiet_shrink; by apply Htr).
  apply ensures_read. intros schema _. apply ensures_read. intros [row_map|] _; [|done]. apply ensures_read. intros tables Hl%Htabs.
  eapply (ensures_bind (second (shrink m0))).
  { apply keeps_release_tables; [done| |done|apply shrink_refl]. intros u q v m' Hu. eapply ensures_mono; [by apply IH|]. by intros r [? _]. }
  intros [v1 m1] H1. cbn in H1. eapply (ensures_bind (shrink m0)); [by apply keeps_unindex_fields|]. intros m2 H2. apply ensures_read. intros pis _.
  eapply (ensures_bind (shrink m0)); [apply keeps_paths; [|done]; intros; by apply keeps_unindex_path|]. intros m3 H3.
  eapply ensures_bind; [by apply stage_quiet; [apply off_ids|]|]. intros m4 H4. eapply (ensures_bind (quiet m3)).
  { apply (keeps_stage (quiet m3)); [apply quiet_trans|apply off_ttl_index|done|done]. }
  intros m5 H5. eapply ensures_bind; [apply (stage_row _ _ t p); [done|done|by left]|]. cbn beta. intros m6 (Hb & Hrow & Hother). apply ensures_ok. cbn. split.
  - eapply delete_row_shrink; [done|exact H3|exact H5|done| |done]. rewrite Hrow. apply row_of_none.
  - intros _. destruct Hb as (_ & -> & _). destruct H5 as [(_ & -> & _) _]. apply H3. cbn. set_solver.
Qed.

Lemma purge_shrink (Htabs : plain_tables) c t p m : plain t -> ensures (fun r => shrink m r.2 /\
  (r.1 = true -> (t, p) ∈ deleted_rows m \/ row_at d t p = ∅ \/ rows r.2 t p = ∅)) (stage_purge_if_expired d c t p m).
Proof.
  intros Ht. unfold stage_purge_if_expired. case_bool_decide as Hin; [apply ensures_ok; split; [apply shrink_refl|by left]|].
  apply ensures_read. intros pairs ->%hgetall_row. case_bool_decide as He; [apply ensures_ok; split; [apply shrink_refl|by right; left]|].
  destruct (negb _); [apply ensures_ok; split; [apply shrink_refl|done]|]. eapply ensures_bind; [by apply delete_shrink|]. cbn beta. intros [v m1] [Hs Hd].
  apply ensures_ok. cbn in *. split; [done|]. intros _. right; right. apply Hs; [done|by apply Hd|done].
Qed.

(** ** Lemmas: constraints *)

Section Constraints.

Context (Q : TableMutation -> Prop) (Hs : forall m m', shrink m m' -> Q m -> Q m') (Htabs : plain_tables) (c : SchemaCache).

Lemma shrinks_books (m m' : TableMutation) : batch m' = batch m -> same_books m m' -> Q m -> Q m'.
Proof. apply keeps_books. intros ? ? ?%quiet_shrink. by apply Hs. Qed.

Lemma keeps_purge t p m : plain t -> Q m -> ensures (second Q) (stage_purge_if_expired d c t p m).
Proof. intros Ht Hm. eapply ensures_mono; [by apply purge_shrink|]. intros r [Hr _]. by eapply Hs. Qed.

Lemma keeps_claim_one t field value p v m : plain t -> Q m -> ensures Q (claim_one d c t field value p v m).
Proof.
  intros Ht Hm. unfold claim_one. destruct (unique_claims m !! _) as [e|]; [by destruct (bytes_eqb e p); [apply ensures_ok|]|].
  apply ensures_read. intros holder _. eapply (ensures_bind Q); [|intros m1 H1; apply ensures_ok; by eapply (shrinks_books m1)].
  destruct holder as [raw|]; [|by apply ensures_ok]. cbn zeta. destruct (bytes_eqb _ p); [by apply ensures_ok|].
  eapply (ensures_bind (second Q)); [destruct (_ || _); [by apply ensures_ok|by apply keeps_purge]|]. intros [absent m1] H1. cbn in H1.
  destruct absent; [by apply ensures_ok|]. apply ensures_read. intros holds _. by destruct holds; [|apply ensures_ok].
Qed.

Lemma keeps_claim_each t field value p l : plain t -> forall m, Q m -> ensures Q (claim_each d c t field value p l m).
Proof.
  intros Ht. induction l as [|x l IH]; intros m Hm; cbn [claim_each]; [by apply ensures_ok|].
  eapply (ensures_bind Q); [by apply keeps_claim_one|]. intros m1 H1. by apply IH.
Qed.

Lemma keeps_claim_unique t field value p m : plain t -> Q m -> ensures Q (claim_unique_value d c t field value p m).
Proof.
  intros Ht Hm. unfold claim_unique_value. destruct (negb _); [by apply ensures_ok|]. apply ensures_read. intros values _. by apply keeps_claim_each.
Qed.

Lemma keeps_claim_partition t schema field provided value p m : plain t -> Q m -> ensures Q (claim_partition d c t schema field provided value p m).
Proof.
  intros Ht Hm. unfold claim_partition. destruct (sequence_partition field) as [col|]; [|by apply ensures_ok]. destruct (provided !! col) as [v|]; [|by apply ensures_ok].
  eapply (ensures_bind Q); [|intros m1 H1; apply ensures_ok; by eapply (shrinks_books m1)].
  destruct (partition_claims m !! _) as [e|]; [by destruct (bytes_eqb e p); [apply ensures_ok|]|]. apply ensures_read. intros [e|] _; [|by apply ensures_ok].
  case_bool_decide; [by apply ensures_ok|]. eapply (ensures_bind (second Q)); [by apply keeps_purge|]. intros [gone m1] H1. by destruct gone; [apply ensures_ok|].
Qed.

Lemma keeps_validate_insert t schema provided p fs : plain t -> forall m, Q m -> ensures Q (validate_insert d c t schema provided p fs m).
Proof.
  intros Ht. induction fs as [|f fs IH]; intros m Hm; cbn [validate_insert]; [by apply ensures_ok|]. destruct (provided !! f_name f) as [value|].
  - do 3 (apply ensures_read; intros _ _). eapply (ensures_bind Q); [by apply keeps_claim_unique|]. intros m1 H1.
    eapply (ensures_bind Q); [by apply keeps_claim_partition|]. intros m2 H2. by apply IH.
  - destruct (_ && _); [done|by apply IH].
Qed.

Lemma keeps_validate_update t schema p fvs : plain t -> forall m, Q m -> ensures Q (validate_update d c t schema p fvs m).
Proof.
  intros Ht. induction fvs as [|[f v] fvs IH]; intros m Hm; cbn [validate_update]; [by apply ensures_ok|]. destruct (find_field f schema) as [field|]; [|done].
  destruct (_ || _); [done|]. do 3 (apply ensures_read; intros _ _). eapply (ensures_bind Q); [by apply keeps_claim_unique|]. intros m1 H1. by apply IH.
Qed.

Lemma keeps_matched_row t schema cvs m : plain t -> Q m -> ensures (second Q) (matched_row d c t schema cvs m).
Proof.
  intros Ht Hm. unfold matched_row. assert (ensures (second Q) ('found ← find_row_by_fields d t schema cvs; Ok (found, m))) as Hfind
    by (apply ensures_read; intros found _; by apply ensures_ok).
  destruct cvs as [|[conflict cval] [|? ?]]; [done| |done]. destruct (_ || _).
  - eapply (ensures_bind (second Q)); [by apply keeps_purge|]. intros [gone m1] H1. by destruct gone; apply ensures_ok.
  - apply ensures_read. intros [p|] _; [|done]. eapply (ensures_bind (second Q)); [by apply keeps_purge|]. intros [gone m1] H1.
    destruct gone; [|by apply ensures_ok]. apply ensures_read. intros found _. by apply ensures_ok.
Qed.

End Constraints.

(** ** Lemmas: updates *)

Definition below (m m' : TableMutation) : Prop := settled m' /\ forall t p, plain t -> rows m' t p ⊆ rows m t p.

Lemma below_shrink m0 m m' : shrink m m' -> below m0 m -> below m0 m'.
Proof. intros Hsh [Hs Hr]. split; [by apply Hsh|]. intros t p Ht. etrans; [by apply Hsh|by apply Hr]. Qed.

Lemma below_quiet m0 m m' : quiet m m' -> below m0 m -> below m0 m'.
Proof. intros ?%quiet_shrink. by apply below_shrink. Qed.

(** A row that is written over cells of its previous image. *)
Lemma written_over (f old cur : gmap bytes bytes) : cur ⊆ old -> (f ∪ old) ∪ cur = f ∪ old.
Proof.
  intros Hc. apply map_eq. intros k. rewrite !lookup_union. destruct (cur !! k) as [v|] eqn:E; [|by destruct (f !! k), (old !! k)].
  rewrite (lookup_weaken _ _ _ _ E Hc). by destruct (f !! k).
Qed.

Lemma final_row (ttl : option TtlOp) (f old cur : gmap bytes bytes) : cur ⊆ old ->
  let full := match ttl with
              | Some (TtlSet secs) => <[HIDDEN_TTL_FIELD := fmt_u (deadline_of secs)]> (f ∪ old)
              | Some TtlClear => delete HIDDEN_TTL_FIELD (f ∪ old)
              | None => f ∪ old
              end in
  match ttl with Some TtlClear => delete HIDDEN_TTL_FIELD (full ∪ cur) | _ => full ∪ cur end = full.
Proof.
  intros Hc. pose proof (written_over f old cur Hc) as Hw. destruct ttl as [[secs|]|]; cbn; [| |done].
  - by rewrite <-insert_union_l, Hw.
  - by rewrite delete_union, delete_delete_eq, <-delete_union, Hw.
Qed.


Lemma full_pairs (r : gmap bytes bytes) : NoDup (merge_sort pair_le (map_to_list r)).*1 /\ list_to_map (merge_sort pair_le (map_to_list r)) = r.
Proof. destruct (sorted_image (map_to_list r) (NoDup_fst_map_to_list r)) as [H1 H2]. by rewrite H2, list_to_map_to_list. Qed.

Section Requests.

Context (c : SchemaCache) (Htabs : plain_tables) (t : bytes) (Ht : plain t).

(** The row has at most the cells it had before the request. *)
Definition untouched (m : TableMutation) (p : bytes) : Prop := rows m t p ⊆ row_at d t p.

Lemma write_row_settled p l m m1 : settled m -> same_books m m1 -> NoDup l.*1 -> rows m1 t p = list_to_map l ->
  (forall u q, plain u -> (u, q) <> (t, p) -> rows m1 u q = rows m u q) -> settled (record_row t p l m1).
Proof.
  intros Hs (Hr & _ & _ & Hg) Hn Hrow Ho. eapply (settled_image m _ t p (Some (merge_sort pair_le l))); [done|done|apply Hg, Hs|cbn; by rewrite Hr| |].
  - destruct (sorted_image l Hn) as [H1 H2]. split; [done|]. change (rows m1 t p = list_to_map (merge_sort pair_le l)). by rewrite H2.
  - intros u q Hu Hne. by apply Ho.
Qed.

(** The end of an update: the row is written, and a deadline that was cleared is removed from it. *)
Lemma finish_update (p : bytes) (ttl : option TtlOp) (l : list (bytes * bytes)) (f : gmap bytes bytes) m : settled m -> untouched m p -> NoDup l.*1 ->
  list_to_map l = match ttl with
                  | Some (TtlSet secs) => <[HIDDEN_TTL_FIELD := fmt_u (deadline_of secs)]> (f ∪ row_at d t p)
                  | Some TtlClear => delete HIDDEN_TTL_FIELD (f ∪ row_at d t p)
                  | None => f ∪ row_at d t p
                  end ->
  ensures (fun m' => settled m' /\ forall u q, plain u -> (u, q) <> (t, p) -> rows m' u q = rows m u q)
    (m ← stage d KHash (HashSet (row_key_for_pk t p) l) m;
     let m := record_row t p l m in
     match ttl with
     | Some (TtlSet secs) => stage d KSortedSet (SortedSetAdd ttl_index_key (ttl_member t p) (u64_as_f64 (deadline_of secs))) m
     | Some TtlClear =>
         m ← stage d KHash (HashDelete (row_key_for_pk t p) [HIDDEN_TTL_FIELD]) m;
         stage d KSortedSet (SortedSetRemove ttl_index_key (ttl_member t p)) m
     | None => Ok m
     end).
Proof.
  intros Hs Hun Hn Hl. eapply ensures_bind; [by apply (stage_row _ _ t p)|]. cbn beta zeta. intros m1 (Hb1 & Hrow1 & Ho1). rewrite row_of_set in Hrow1 by done.
  change (row_of (publish m d (row_key_for_pk t p))) with (rows m t p) in Hrow1.
  pose proof (final_row ttl f (row_at d t p) (rows m t p) Hun) as Hfin. cbn zeta in Hfin. rewrite <-Hl, <-Hrow1 in Hfin.
  assert (rows m1 t p = list_to_map l -> settled (record_row t p l m1)) as Hs1 by (intros; by eapply write_row_settled).
  destruct ttl as [[secs|]|].
  - eapply ensures_mono; [apply stage_quiet; [apply off_ttl_index|apply kinded_score; intros Hd; by apply u64_double]|]. intros m2 H2. split; [by apply (quiet_shrink _ _ H2), Hs1|].
    intros u q Hu Hne. destruct H2 as [_ H2]. rewrite H2 by done. by apply Ho1.
  - eapply ensures_bind; [by apply (stage_row _ _ t p)|]. cbn beta. intros m2 (Hb2 & Hrow2 & Ho2). rewrite row_of_hdel in Hrow2.
    eapply ensures_mono; [by apply stage_quiet; [apply off_ttl_index|]|]. intros m3 H3. split.
    + apply (quiet_shrink _ _ H3). eapply (settled_image m _ t p (Some (merge_sort pair_le l))); [done|done|apply Hb2, Hb1, Hs| | |].
      * destruct Hb2 as (-> & _). cbn. by destruct Hb1 as (-> & _).
      * destruct (sorted_image l Hn) as [Ha Hb]. split; [done|]. rewrite Hb, Hrow2. exact Hfin.
      * intros u q Hu Hne. rewrite Ho2 by done. by apply Ho1.
    + intros u q Hu Hne. destruct H3 as [_ H3]. rewrite H3, Ho2 by done. by apply Ho1.
  - apply ensures_ok. split; [by apply Hs1|]. intros u q Hu Hne. by apply Ho1.
Qed.

Lemma update_settled p fvs ttl m : settled m -> untouched m p ->
  ensures (fun r => settled r.2 /\ forall u q, plain u -> (u, q) <> (t, p) -> rows r.2 u q ⊆ rows m u q) (stage_table_update d c t p fvs ttl m).
Proof.
  intros Hs Hun. assert (below m m) as Hm by done. pose proof (below_shrink m) as Hsh. pose proof (below_quiet m) as Hq.
  unfold stage_table_update. apply ensures_read. intros schema _. apply ensures_read. intros [old|] _; [|done].
  apply ensures_read. intros raw_row ->%hgetall_row. eapply (ensures_bind (below m)); [by apply keeps_validate_update|]. intros m1 H1.
  eapply (ensures_bind (below m)); [by apply keeps_update_partitions|]. intros m2 H2. apply ensures_read. intros pairs _. cbn zeta.
  set (full := match ttl with Some (TtlSet secs) => _ | Some TtlClear => _ | None => _ end). destruct (full_pairs full) as [Hn Hfull].
  set (l := merge_sort pair_le (map_to_list full)) in *.
  eapply (ensures_bind (below m)); [by apply keeps_reindex|]. intros m3 H3. apply ensures_read. intros pis _.
  eapply (ensures_bind (below m)); [apply keeps_paths; [|done]; intros; by apply keeps_reindex_path|]. intros m4 [Hs4 Hr4].
  pose proof (finish_update p ttl l (list_to_map pairs) m4 Hs4 (transitivity (Hr4 t p Ht) Hun) Hn Hfull) as Hend.
  intros r Er. destruct (stage d KHash _ m4) as [m5|e]; [|done]. cbn [mbind result_bind] in Hend, Er.
  destruct (match ttl with Some (TtlSet secs) => _ | Some TtlClear => _ | None => _ end) as [m6|e] eqn:E6 in Er; [|done].
  injection Er as <-. destruct (Hend m6 E6) as [Hs6 Ho6]. split; [done|]. cbn. intros u q Hu Hne. rewrite Ho6 by done. by apply Hr4.
Qed.

(** Inserts: a row that was not inserted has only old cells, and none when it was removed. *)
Definition fresh (m : TableMutation) : Prop := settled m /\ forall u q, plain u -> (u, q) ∉ inserted_rows m ->
  rows m u q ⊆ row_at d u q /\ ((u, q) ∈ deleted_rows m -> rows m u q = ∅).

Lemma fresh_shrink m m' : shrink m m' -> fresh m -> fresh m'.
Proof.
  intros [S1 R1 M1 D1 I1] [Hs Hf]. split; [by apply S1|]. intros u q Hu Hn. rewrite I1 in Hn. destruct (Hf u q Hu Hn) as [Hr Hd]. split; [etrans; [by apply R1|done]|].
  intros Hin. destruct (decide ((u, q) ∈ deleted_rows m)) as [Hin'|]; [|by apply D1]. eapply below_empty; [by apply R1|by apply Hd].
Qed.

Lemma fresh_quiet m m' : quiet m m' -> fresh m -> fresh m'.
Proof. intros ?%quiet_shrink. by apply fresh_shrink. Qed.

Definition names_ok (schema : list FieldDef) : Prop :=
  NoDup (f_name <$> schema) /\ HIDDEN_TTL_FIELD ∉ f_name <$> schema /\ (has_pk schema = true \/ bs "id" ∉ f_name <$> schema).

Lemma encode_row_keys provided p fs : ensures (fun cells => sublist cells.*1 (f_name <$> fs)) (encode_row t provided p fs).
Proof.
  induction fs as [|f fs IH]; cbn [encode_row]; [by apply ensures_ok|]. destruct (match provided !! _ with Some _ => _ | None => _ end) as [v|].
  - apply ensures_read. intros e _. eapply ensures_bind; [exact IH|]. cbn beta. intros rest Hr. apply ensures_ok. cbn. by apply sublist_skip.
  - eapply ensures_mono; [exact IH|]. intros cells Hc. by apply sublist_cons.
Qed.

Lemma insert_keys schema cells p (deadline : option Z) : names_ok schema -> sublist cells.*1 (f_name <$> schema) ->
  NoDup (((if has_pk schema then [] else [(bs "id", p)]) ++ cells ++ match deadline with Some x => [(HIDDEN_TTL_FIELD, fmt_u x)] | None => [] end).*1).
Proof.
  intros (Hn & Httl & Hid) Hsub. assert (forall x, x ∉ f_name <$> schema -> x ∉ cells.*1) as Hout by (intros x Hx Hin; apply Hx; by eapply elem_of_sublist).
  assert (NoDup (cells ++ match deadline with Some x => [(HIDDEN_TTL_FIELD, fmt_u x)] | None => [] end).*1) as Hc.
  { rewrite fmap_app. apply NoDup_app. split_and!; [by eapply sublist_NoDup| |by destruct deadline; cbn; [apply NoDup_singleton|constructor]].
    intros x Hx. destruct deadline; cbn; [|by intros ?%not_elem_of_nil]. intros ->%list_elem_of_singleton. by eapply Hout. }
  destruct (has_pk schema); [done|]. destruct Hid as [|Hid]; [done|]. cbn. apply NoDup_cons. split; [|done]. rewrite fmap_app. intros [Hin|Hin]%elem_of_app.
  - by eapply Hout.
  - destruct deadline; cbn in Hin; [by apply list_elem_of_singleton in Hin|by apply not_elem_of_nil in Hin].
Qed.

(** The row of an insert, when the primary key was found to be free. *)
Definition vacant (p : bytes) (m : TableMutation) : Prop := fresh m /\ rows m t p = ∅ /\ (t, p) ∈ inserted_rows m.

Lemma vacant_quiet p m m' : quiet m m' -> vacant p m -> vacant p m'.
Proof. intros Hq (Hf & He & Hi). split_and!; [by eapply fresh_quiet| |]; destruct Hq as [(_ & _ & Ei & _) Hr]; [by rewrite Hr|by rewrite Ei]. Qed.

Lemma free_vacant p m : fresh m -> (t, p) ∉ inserted_rows m ->
  ensures (fun r => fresh r.2 /\ (r.1 = true -> vacant p (add_inserted (t, p) r.2))) (stage_purge_if_expired d c t p m).
Proof.
  intros Hf Hn. eapply ensures_mono; [by apply purge_shrink|]. cbn beta. intros [gone m1] [Hs Hgone]. cbn in *.
  assert (fresh m1) as Hf1 by (by eapply fresh_shrink). split; [done|]. intros Hg. split_and!; [| |cbn; set_solver].
  - split; [split; apply Hf1|]. intros u q Hu Hnu. destruct Hf1 as [_ Hf1]. apply Hf1; [done|]. cbn in Hnu. set_solver.
  - change (rows m1 t p = ∅). destruct (proj2 Hf t p Ht Hn) as [Hr Hd]. destruct (Hgone Hg) as [Hin|[He|He]]; [| |done].
    + eapply below_empty; [by apply Hs|by apply Hd].
    + eapply below_empty; [|exact He]. etrans; [by apply Hs|done].
Qed.

Lemma insert_written p l m : vacant p m -> NoDup l.*1 ->
  ensures (fun m' => fresh (record_row t p l m')) (stage d KHash (HashSet (row_key_for_pk t p) l) m).
Proof.
  intros (Hf & He & Hi) Hn. eapply ensures_mono; [by apply (stage_row _ _ t p)|]. cbn beta. intros m1 (Hb & Hrow & Ho). rewrite row_of_set in Hrow by done.
  change (row_of (publish m d (row_key_for_pk t p))) with (rows m t p) in Hrow. rewrite He, (right_id_L ∅ (∪)) in Hrow. split.
  - eapply (write_row_settled p l m); [apply Hf|done|done|done|done].
  - destruct Hb as (_ & Hd & Hin & _). intros u q Hu. cbn -[rows]. change (rows (record_row t p l m1) u q) with (rows m1 u q). rewrite Hd, Hin. intros Hnu.
    assert ((u, q) <> (t, p)) by (by intros [= -> ->]). rewrite Ho by done. by apply Hf.
Qed.

Lemma insert_fresh fvs ttl m : ensures names_ok (load_schema d c t) -> fresh m -> ensures (fun r => fresh r.2) (stage_table_insert d c t fvs ttl m).
Proof.
  intros Hnames Hm. pose proof fresh_shrink as Hsh. pose proof fresh_quiet as Hq. unfold stage_table_insert. eapply ensures_bind; [exact Hnames|]. intros schema Hok.
  apply ensures_read. intros given _. pose proof (keeps_defaults fresh Hq given schema given m Hm) as H1. destruct (fill_defaults given schema given m) as [provided1 m1]. cbn in H1.
  eapply (ensures_bind (second fresh)); [by apply keeps_sequences|]. intros [provided m2] H2. eapply (ensures_bind (second fresh)); [by apply keeps_choose_pk|]. intros [p m3] H3.
  eapply (ensures_bind fresh); [by apply keeps_validate_insert|]. intros m4 H4.
  eapply (ensures_bind (fun r => r.1 = true -> vacant p (add_inserted (t, p) r.2))).
  { case_bool_decide as Hin; [by apply ensures_ok|]. eapply ensures_mono; [by apply free_vacant|]. by intros r [_ ?]. }
  intros [free m5] H5. cbn in H5. destruct free; [|done]. specialize (H5 eq_refl). cbn [negb]. cbn zeta. pose proof (vacant_quiet p) as Hv.
  eapply ensures_bind; [apply encode_row_keys|]. cbn beta. intros cells Hcells.
  pose proof (insert_keys schema cells p) as Hkeys.
  eapply ensures_bind; [by apply (keeps_number_row (vacant p))|]. cbn beta. intros [score m6] [Hscore H6]. cbn [fst snd] in Hscore, H6.
  eapply (ensures_bind (vacant p)); [by apply keeps_bump_partitions|]. intros m7 H7.
  eapply (ensures_bind (vacant p)); [by apply keeps_stage; [|apply off_ids|apply kinded_score|]|]. intros m8 H8.
  eapply (ensures_bind (vacant p)); [by apply keeps_index_row|]. intros m9 H9. apply ensures_read. intros pis _.
  eapply (ensures_bind (vacant p)); [apply keeps_paths; [|done]; intros; by apply keeps_index_path|]. intros m10 H10.
  eapply (ensures_bind (vacant p)).
  { match goal with |- ensures _ (match ?x with Some _ => _ | None => _ end) => destruct x end; [|by apply ensures_ok]. apply keeps_stage; [done|apply off_ttl_index|apply kinded_score; intros Hd; by apply u64_double|done]. }
  intros m11 H11. eapply ensures_bind; [apply (insert_written p _ m11 H11); by apply Hkeys|]. cbn beta. intros m12 H12. by apply ensures_ok.
Qed.

Lemma inserts_fresh rws ttl : ensures names_ok (load_schema d c t) -> forall m, fresh m -> ensures fresh (stage_inserts d c t rws ttl m).
Proof.
  intros Hn. induction rws as [|row rws IH]; intros m Hm; cbn [stage_inserts]; [by apply ensures_ok|].
  eapply ensures_bind; [by apply insert_fresh|]. cbn beta. intros [r m1] H1. by apply IH.
Qed.

Lemma updates_settled fvs ttl matched : NoDup matched -> forall m, settled m -> (forall p, p ∈ matched -> untouched m p) ->
  ensures settled (stage_updates d c t fvs ttl matched m).
Proof.
  induction 1 as [|p matched Hp Hn IH]; intros m Hs Hun; cbn [stage_updates]; [by apply ensures_ok|].
  eapply ensures_bind; [apply update_settled; [done|apply Hun; left]|]. cbn beta. intros [r m1] [Hs1 Hr1]. apply IH; [done|].
  intros q Hq. unfold untouched. etrans; [apply Hr1; [done|]|by apply Hun; right]. intros [= ->]. done.
Qed.

Lemma deletes_settled matched : forall visited m, settled m -> ensures settled (stage_deletes d c t matched visited m).
Proof.
  induction matched as [|p matched IH]; intros visited m Hs; cbn [stage_deletes]; [by apply ensures_ok|]. case_bool_decide; [by apply IH|].
  eapply ensures_bind; [by apply delete_shrink|]. cbn beta. intros [v m1] [H1 _]. by apply IH, H1.
Qed.

Lemma upsert_settled row col ttl guard m : ensures names_ok (load_schema d c t) -> fresh m -> (forall p, (t, p) ∉ inserted_rows m) ->
  ensures (fun r => settled r.2) (stage_table_upsert d c t row col ttl guard m).
Proof.
  intros Hn Hm Hi. set (start m' := fresh m' /\ forall p, (t, p) ∉ inserted_rows m'). assert (start m) as Hst by done.
  assert (forall m1 m2, shrink m1 m2 -> start m1 -> start m2) as Hsh.
  { intros m1 m2 Hs12 [Hf1 Hi1]. split; [by eapply fresh_shrink|]. intros p. by rewrite (shrink_inserted _ _ Hs12). }
  assert (forall m1, start m1 -> forall fvs, ensures (fun r => settled r.2) (stage_table_insert d c t fvs ttl m1)) as Hins.
  { intros m1 [Hf1 _] fvs. eapply ensures_mono; [by apply insert_fresh|]. by intros r []. }
  unfold stage_table_upsert. cbn zeta. apply ensures_read. intros schema _. destruct (conflict_values _ _) as [cvs|]; [|by apply Hins].
  destruct (existsb _ cvs); [done|]. case_bool_decide; [done|]. eapply (ensures_bind (second start)); [apply keeps_matched_row; [done|done|done|by eapply (Hsh m); [apply quiet_shrink|]]|].
  intros [[p|] m1] H1; unfold second in H1; cbn in H1; [|by apply Hins]. apply ensures_read. intros _ _. destruct H1 as [Hf1 Hi1].
  destruct (_ || _).
  - eapply ensures_mono; [apply update_settled; [apply Hf1|apply Hf1; [done|apply Hi1]]|]. by intros r [].
  - apply ensures_read. intros [r|] _; [|done]. apply ensures_ok. apply Hf1.
Qed.

End Requests.

Context (Hnew : good batch_new).

Lemma settled_new uuids : settled (mutation_new uuids).
Proof. by split. Qed.

Lemma fresh_new uuids : fresh (mutation_new uuids).
Proof. split; [apply settled_new|]. intros u q _ _. split; [done|]. by intros ?%not_elem_of_empty. Qed.

(** The rows that an update was asked to change are distinct. *)
Definition distinct_rows (r : Request) : Prop := match r with RUpdate _ _ matched => NoDup matched | _ => True end.

Lemma request_settled c t r uuids : plain_tables -> plain t -> ensures names_ok (load_schema d c t) -> distinct_rows r ->
  ensures settled (stage_request d c t r uuids).
Proof.
  intros Htabs Ht Hn Hr. destruct r as [rws ttl|row col ttl guard|fvs ttl matched|matched]; cbn [stage_request]; cbn zeta.
  - eapply ensures_mono; [apply inserts_fresh; [done|done|done|apply fresh_new]|]. by intros m [].
  - eapply ensures_bind; [apply upsert_settled; [done|done|done|apply fresh_new|]|].
    + intros p ?%not_elem_of_empty. done.
    + cbn beta. intros [s m] Hm. by apply ensures_ok.
  - unfold stage_update_rows. apply ensures_read. intros schema _. cbn zeta. destruct (negb _); [done|].
    eapply (ensures_bind (quiet (mutation_new uuids))); [apply keeps_predeclare; [apply quiet_trans|done]|]. intros m Hm. apply updates_settled; [done|done|done| |].
    + apply (quiet_shrink _ _ Hm), settled_new.
    + intros p _. unfold untouched. by rewrite (proj2 Hm).
  - apply deletes_settled; [done|done|]. split; [done|]. intros u q Hu. by apply (settled_rows _ (settled_new uuids)).
Qed.

(** ** Lemmas: replay *)

(** The rows are those of another store. *)
Definition same_rows (d1 : Db) : Prop := forall u q, plain u -> row_at d1 u q = row_at d u q.
Definition same_other_rows (t p : bytes) (d1 : Db) : Prop := forall u q, plain u -> (u, q) <> (t, p) -> row_at d1 u q = row_at d u q.

Lemma rows_put k v d1 : off_rows k -> same_rows d1 -> same_rows (put_key k v d1).
Proof.
  intros Hk Hd u q Hu. unfold row_at, put_key. rewrite bool_decide_eq_false_2; [by apply Hd|]. intros E. by apply (Hk u q Hu).
Qed.

Lemma same_other_put t p v d1 : plain t -> same_other_rows t p d1 -> same_other_rows t p (put_key (row_key_for_pk t p) v d1).
Proof.
  intros Ht Hd u q Hu Hne. unfold row_at, put_key. rewrite bool_decide_eq_false_2; [by apply Hd|]. intros [-> ->]%row_key_inj; done.
Qed.

Lemma same_refl : same_rows d.
Proof. done. Qed.

#[local] Hint Resolve rows_put same_refl : rows.

Ltac rwalk :=
  repeat (cbn beta iota zeta;
    match goal with
    | |- ensures _ (Err _) => apply ensures_err
    | |- ensures _ (Ok _) => apply ensures_ok; try solve [eauto with rows]
    | |- ensures _ (@mbind _ _ Db _ _ _) => eapply (ensures_bind same_rows); [|intros]
    | |- ensures _ (mbind _ _) => apply ensures_read; intros
    | |- ensures _ (let (_, _) := ?x in _) => destruct x eqn:?
    | |- ensures _ (match ?x with _ => _ end) => destruct x eqn:?
    | |- ensures _ (each _ _ _) => apply ensures_each; [apply Forall_true; intros|solve [eauto with rows]]
    | |- ensures _ _ => solve [eauto with rows]
    end).

Lemma same_sadd k m d1 : off_rows k -> same_rows d1 -> ensures same_rows (sadd k m d1).
Proof. intros. unfold sadd. rwalk. Qed.
Lemma same_srem k m d1 : off_rows k -> same_rows d1 -> ensures same_rows (srem k m d1).
Proof. intros. unfold srem. rwalk. Qed.
Lemma same_zadd k m x d1 : off_rows k -> same_rows d1 -> ensures same_rows (zadd k m x d1).
Proof. intros. unfold zadd. rwalk. Qed.
Lemma same_zrem k m d1 : off_rows k -> same_rows d1 -> ensures same_rows (zrem k m d1).
Proof. intros. unfold zrem. rwalk. Qed.
Lemma same_hdel k f d1 : off_rows k -> same_rows d1 -> ensures same_rows (hdel k f d1).
Proof. intros. unfold hdel. rwalk. Qed.
Lemma same_hset k l d1 : off_rows k -> same_rows d1 -> ensures same_rows (hset k l d1).
Proof. intros. unfold hset. rwalk. Qed.
Lemma same_bump_key k n d1 : off_rows k -> same_rows d1 -> ensures same_rows (bump_key_to_at_least k n d1).
Proof. intros. unfold bump_key_to_at_least, set_key. apply ensures_read. intros cur _. apply ensures_ok. destruct (_ <? _); eauto with rows. Qed.

#[local] Hint Resolve same_sadd same_srem same_zadd same_zrem same_hdel same_hset same_bump_key : rows.

Section Replayed.

Context (t : bytes) (Ht : plain t).

Lemma same_add_to_index field value p d1 : same_rows d1 -> ensures same_rows (add_to_index t field value p d1).
Proof. intros. unfold add_to_index, vset. rwalk. Qed.

Lemma same_remove_from_index field value p d1 : same_rows d1 -> ensures same_rows (remove_from_index t field value p d1).
Proof. intros. unfold remove_from_index, del. rwalk. Qed.

Lemma same_remove_unique field value p d1 : same_rows d1 -> ensures same_rows (remove_unique_entries t field value p d1).
Proof. intros. unfold remove_unique_entries, remove_unique_entry. rwalk. Qed.

#[local] Hint Resolve same_add_to_index same_remove_from_index same_remove_unique : rows.

Lemma same_unindex_field p drop old field d1 : same_rows d1 -> ensures same_rows (unindex_old_field t p drop old field d1).
Proof.
  intros Hd. unfold unindex_old_field, del. destruct (old !! _); [rwalk|]. apply ensures_ok. destruct (_ && _); eauto with rows.
Qed.

Lemma same_unindex_path p old x d1 : same_rows d1 -> ensures same_rows (unindex_old_path t p old x d1).
Proof. intros. unfold unindex_old_path. rwalk. Qed.

Lemma same_restore_ids p d1 : same_rows d1 -> ensures same_rows (restore_ids t p d1).
Proof.
  intros Hd. unfold restore_ids. apply ensures_read. intros scores _. eapply (ensures_bind (fun r => same_rows r.2)).
  - destruct (scores !! p); [by apply ensures_ok|]. destruct (parse_f64 p); [by apply ensures_ok|]. eapply (ensures_bind (fun r => same_rows r.2)).
    + unfold next_id, set_key. apply ensures_read. intros n _. destruct (i64_checked _); [|done]. apply ensures_ok. apply rows_put; [|done]. by apply off_seq, plain_order.
    + intros [n d2] Hd2. by apply ensures_ok.
  - intros [score d2] Hd2. eauto with rows.
Qed.

Lemma same_restore_sequence schema p d1 : same_rows d1 -> ensures same_rows (restore_sequence t schema p d1).
Proof. intros. unfold restore_sequence, bump_seq_to_at_least. rwalk. Qed.

Lemma same_restore_scoped schema p raw field d1 : same_rows d1 -> ensures same_rows (restore_scoped t schema p raw field d1).
Proof. intros. unfold restore_scoped, bump_scoped_seq_to_at_least. rwalk. Qed.

Lemma same_restore_index p raw field d1 : same_rows d1 -> ensures same_rows (restore_index t p raw field d1).
Proof. intros. unfold restore_index. rwalk. Qed.

Lemma same_restore_path schema p raw pi d1 : same_rows d1 -> ensures same_rows (restore_path t schema p raw pi d1).
Proof. intros. unfold restore_path. rwalk. Qed.

#[local] Hint Resolve same_unindex_field same_unindex_path same_restore_ids same_restore_sequence same_restore_scoped same_restore_index same_restore_path : rows.

Lemma other_restore_deadline p raw d1 : same_rows d1 -> ensures (same_other_rows t p) (restore_deadline t p raw d1).
Proof.
  intros Hd. assert (forall d2, same_rows d2 -> same_other_rows t p d2) as Ho by (intros d2 H2 u q Hu _; by apply H2).
  unfold restore_deadline. destruct (raw !! _) as [x|].
  - destruct (parse_u64 x); [|apply ensures_ok; eauto]. eapply ensures_mono; [apply same_zadd; [apply off_ttl_index|done]|done].
  - eapply (ensures_bind same_rows); [apply same_zrem; [apply off_ttl_index|done]|]. intros d2 H2. unfold hdel. destruct (d2 _) as [[]|]; try done; apply ensures_ok; [|by apply Ho].
    apply same_other_put; eauto.
Qed.

(** The replay of an image writes the row and no other one. *)
Lemma replayed_row c p l : NoDup l.*1 -> ensures (fun d1 => row_at d1 t p = list_to_map l /\ same_other_rows t p d1) (table_apply_wal_row c t p l d).
Proof.
  intros Hn. unfold table_apply_wal_row. apply ensures_read. intros schema _. apply ensures_read. intros old _. eapply (ensures_bind same_rows).
  { destruct old as [old|]; [|by apply ensures_ok]. eapply (ensures_bind same_rows); [rwalk|]. intros d1 H1. rwalk. }
  intros d1 H1. cbn zeta. do 4 (eapply (ensures_bind same_rows); [rwalk|]; clear dependent d1; intros d1 H1).
  apply ensures_read. intros pis _. eapply (ensures_bind same_rows); [rwalk|]. intros d2 H2. eapply ensures_bind; [by apply other_restore_deadline|]. intros d3 H3.
  unfold hset, del. set (k := row_key_for_pk t p). assert (put_key k None d3 k = None) as -> by (unfold put_key; by rewrite bool_decide_eq_true_2). apply ensures_ok. split.
  - unfold row_at, put_key at 1. rewrite bool_decide_eq_true_2 by done. unfold row_of. cbn. rewrite live_set_fields by done.
    change (live_fields now_ms hash_empty) with (row_of None). by rewrite row_of_none, (right_id_L ∅ (∪)).
  - by apply same_other_put, same_other_put.
Qed.

Lemma replayed_delete c p : ensures (fun d1 => row_at d1 t p = ∅ /\ same_other_rows t p d1) (table_apply_wal_delete c t p d).
Proof.
  unfold table_apply_wal_delete. apply ensures_read. intros schema _. apply ensures_read. intros old Hold. destruct old as [old|].
  - eapply (ensures_bind same_rows); [rwalk|]. intros d1 H1. apply ensures_read. intros pis _. eapply (ensures_bind same_rows); [rwalk|]. intros d2 H2.
    eapply (ensures_bind same_rows); [rwalk|]. intros d3 H3. eapply (ensures_bind same_rows); [rwalk|]. intros d4 H4. apply ensures_ok. split.
    + unfold row_at, del, put_key. rewrite bool_decide_eq_true_2 by done. apply row_of_none.
    + apply same_other_put; [done|]. intros u q Hu _. by apply H4.
  - apply ensures_ok. split; [|by intros]. unfold get_row_including_expired, get_row_impl in Hold. destruct (hgetall d _) as [pairs|] eqn:E; [|done].
    cbn in Hold. apply hgetall_row in E as ->. case_bool_decide; [done|]. by destruct (decode_fields _ _ _ _).
Qed.

End Replayed.

End Journal.

Section Recovery.

Context `{Env}.

Definition image_row (i : image) : gmap bytes bytes := match i with Some row => list_to_map row | None => ∅ end.
Definition image_ok (i : image) : Prop := match i with Some row => NoDup row.*1 | None => True end.

Lemma pair_up_concat (l : list (bytes * bytes)) : pair_up (concat ((fun p => [p.1; p.2]) <$> l)) = Some l.
Proof. induction l as [|[f v] l IH]; cbn; [done|]. by rewrite IH. Qed.

(** The identity of a row in the journal: texts, and a table without a colon. *)
Definition journalled (r : bytes * bytes * image) : Prop := plain r.1.1 /\ is_utf8 r.1.1 = true /\ is_utf8 r.1.2 = true.

Lemma replay_one c d t p i : journalled ((t, p), i) -> image_ok i ->
  ensures (fun d1 => row_at d1 t p = image_row i /\ same_other_rows d t p d1) (replay_command c (journal_command ((t, p), i)) d).
Proof.
  intros (Ht & Hu & Hp) Hi. cbn [fst snd] in Ht, Hu, Hp. destruct i as [row|]; unfold journal_command, raw_row_journal_command, replay_command; cbn [app].
  - rewrite pair_up_concat. unfold arg_str. rewrite Hu, Hp. by apply replayed_row.
  - unfold arg_str. rewrite Hu, Hp. by apply replayed_delete.
Qed.

Lemma replay_images c (l : list (bytes * bytes * image)) : NoDup l.*1 -> Forall journalled l -> Forall (fun r => image_ok r.2) l -> forall d,
  ensures (fun d1 => forall u q, plain u -> row_at d1 u q = match (list_to_map l : gmap _ image) !! (u, q) with Some i => image_row i | None => row_at d u q end)
    (replay c (journal_command <$> l) d).
Proof.
  intros Hn Hj Hi. induction l as [|[[t p] i] l IH]; intros d; cbn [fmap list_fmap replay each list_to_map foldr]; [by apply ensures_ok|].
  apply NoDup_cons in Hn as [Hp Hn]. apply Forall_cons in Hj as [Hj1 Hj]. apply Forall_cons in Hi as [Hi1 Hi].
  eapply ensures_bind; [by apply replay_one|]. cbn beta. intros d1 [Hrow Hother]. eapply ensures_mono; [by apply IH|]. cbn beta. intros d2 H2 u q Hu.
  rewrite H2 by done. destruct (decide ((u, q) = (t, p))) as [[= -> ->]|Hne].
  - cbn. rewrite lookup_insert_eq. by rewrite not_elem_of_list_to_map_1.
  - cbn. rewrite lookup_insert_ne by congruence. rewrite Hother by done. done.
Qed.

Lemma resolved_map m : NoDup (resolved m).*1 /\ (list_to_map (resolved m) : gmap _ image) = resolved_rows m.
Proof.
  pose proof (merge_sort_Permutation identity_le (map_to_list (resolved_rows m))) as Hp. unfold resolved. split.
  - rewrite Hp. apply NoDup_fst_map_to_list.
  - rewrite <-(list_to_map_to_list (resolved_rows m)) at 2. apply list_to_map_proper; [|done]. rewrite Hp. apply NoDup_fst_map_to_list.
Qed.

(** A property that every batch has. *)
Definition any_batch (_ : AtomicTableBatch) : Prop := True.

Lemma any_batch_kept d kind op b b1 : kinded kind op -> require d (op_key op) kind b = Ok b1 -> any_batch b -> any_batch (mkBatch (kinds b1) (operations b1 ++ [op])).
Proof. done. Qed.

Lemma settled_images d good m : settled d good m -> Forall journalled (resolved m) -> Forall (fun r => image_ok r.2) (resolved m).
Proof.
  intros Hs Hj. apply Forall_forall. intros [[t p] i] Hin. rewrite Forall_forall in Hj. destruct (Hj _ Hin) as (Ht & _). cbn in *.
  destruct (resolved_map m) as [Hn Hm]. assert (resolved_rows m !! (t, p) = Some i) as E by (rewrite <-Hm; by apply elem_of_list_to_map_1).
  pose proof (settled_rows _ _ _ Hs t p Ht) as Hr. rewrite E in Hr. by destruct i as [row|]; [destruct Hr|].
Qed.

(** The removal of a due row takes the row away, and nothing is written to any row. *)
Lemma expire_row_removes d c t p cutoff : ensures (Forall plain) (smembers d table_list_key) -> plain t ->
  ensures (fun r => (forall u q, plain u -> row_at r.2 u q ⊆ row_at d u q) /\ (r.1.1 = true -> row_at r.2 t p = ∅)) (expire_row_if_due d c t p cutoff).
Proof.
  intros Htabs Ht. unfold expire_row_if_due. apply ensures_read. intros raw _. destruct (raw ≫= parse_u64) as [deadline|].
  - destruct (_ <=? _); [|apply ensures_ok; by split]. eapply ensures_bind; [by apply (delete_shrink d any_batch (any_batch_kept d) Htabs c)|]. cbn beta. intros [v m] [Hs Hd].
    apply ensures_ok. cbn in *. split; [intros u q Hu; by apply Hs|]. intros _. apply Hs; [done|apply Hd; by apply not_elem_of_empty|by apply not_elem_of_empty].
  - eapply ensures_bind; [by apply (stage_quiet d any_batch (any_batch_kept d)); [apply off_ttl_index|]|]. intros m [_ Hm]. apply ensures_ok. cbn. split; [|done]. intros u q Hu.
    change (rows d m u q ⊆ row_at d u q). by rewrite Hm.
Qed.

(** ** Lemmas: the sharded store *)

Lemma view_kind kind v : view_kind_matches kind (view_value v) = kind_matches kind v.
Proof. by destruct kind, v. Qed.

(** The check of a key that staging makes on what readers see is the check of [AtomicTableBatch::require_kind]. *)
Lemma require_view hll_count clock now key kind b s : hot s ->
  match require (view now s) key kind b with
  | Ok b1 => require_kind hll_count clock now key kind b s = (Ok tt, b1, s)
  | Err e => require_kind hll_count clock now key kind b s = (Err e, b, s)
  end.
Proof.
  intros [_ Hd]. unfold require, require_kind. destruct (negb _); [done|]. destruct (kinds b !! key) as [existing|]; [by case_bool_decide|].
  unfold try_promote, disk_at, view, live. rewrite Hd. cbn. destruct (find s key) as [e|]; cbn; [|done]. destruct (is_expired_at now e); cbn; [done|].
  rewrite view_kind. by destruct (kind_matches kind (value e)).
Qed.

Lemma require_staged now key kind b b1 s : require (view now s) key kind b = Ok b1 -> staged now b s ->
  staged now b1 s /\ operations b1 = operations b /\ kinds b1 !! key = Some kind.
Proof.
  unfold require. destruct (negb _); [done|]. destruct (kinds b !! key) as [existing|] eqn:Ek.
  { case_bool_decide as E; [|done]. by intros [= <-]; subst existing. }
  destruct (match view now s key with Some _ => _ | None => _ end) eqn:Em; [done|]. intros [= <-] [Ho Hk]. split_and!; [|done|cbn; apply lookup_insert_eq]. split; cbn.
  - eapply Forall_impl; [exact Ho|]. intros op (kd & Hop & Hw). exists kd. split; [|done]. rewrite lookup_insert_ne; [done|]. congruence.
  - intros k kd e Hkd Hf He. destruct (decide (k = key)) as [->|Hne]; [|rewrite lookup_insert_ne in Hkd by done; by eapply Hk].
    rewrite lookup_insert_eq in Hkd. injection Hkd as <-. unfold view, live in Em. rewrite Hf, He in Em. cbn in Em. rewrite view_kind in Em. by apply negb_false_iff.
Qed.

Lemma stage_staged now s : doubles_ok -> forall kind op b b1, kinded kind op -> require (view now s) (op_key op) kind b = Ok b1 -> staged now b s ->
  staged now (mkBatch (kinds b1) (operations b1 ++ [op])) s.
Proof.
  intros Hd kind op b b1 Hk Hr Hs. destruct (require_staged _ _ _ _ _ _ Hr Hs) as ([H1 H2] & _ & Hkey). split; [|done]. cbn. apply Forall_app. split; [done|].
  repeat constructor. exists kind. split; [done|by apply Hk].
Qed.

(** ** Theorems *)



End Recovery.

(** ** A concrete table *)

(** Integers stand for the doubles they denote; the text [nan] is not a number. *)
#[local] Instance sample_env : Env := {|
  parse_f64 b := if bytes_eqb b (bs "nan") then Some 9221120237041090560 else as_u64 <$> parse_i64 b;
  fmt_f64 := fmt_i;
  parse_f32 := parse_i64;
  fmt_f32 := fmt_i;
  i64_as_f64 := as_u64;
  u64_as_f64 := as_u64;
  f64_as_i64 z := z;
  from_str _ := None;
  json_f64 _ := None;
  listed := elements;
  vector_metadata _ _ pk := pk;
  encrypt _ _ _ v := Ok v;
  decrypt _ _ _ v := Ok v;
  blind_indexes _ _ v := Ok [v];
  now_ms := 1000 |}.

Definition column (name : string) (ty : FieldType) (pk uniq : bool) (fk : option ForeignKey) : FieldDef :=
  mkDef (bs name) ty pk uniq (negb pk) None None fk false false.

Definition sample_schema : list FieldDef :=
  [column "id" TStr true true None; column "n" TInt false true None; column "x" TStr false false None; column "y" TStr false false None].

Definition sample_cache (schema : list FieldDef) : SchemaCache := mkCache {[bs "a" := schema]} {[bs "a" := []]} {[bs "a" := None]}.

Definition sample_db : Db := fun k => if bytes_eqb k table_list_key then Some (TvSet {[bs "a"]}) else None.

Definition cell (f v : string) : bytes * bytes := (bs f, bs v).

Definition after (schema : list FieldDef) (d : Db) (r : Request) : Db :=
  match stage_request d (sample_cache schema) (bs "a") r [] with Ok m => publish m d | Err _ => d end.

Definition inserted (schema : list FieldDef) (rws : list (list (bytes * bytes))) : Db := after schema sample_db (RInsert rws None).

Lemma plain_a : plain (bs "a").
Proof. by refine (bool_decide_unpack (COLON ∉ bs "a") _). Qed.

Lemma sample_tables schema rws : smembers (inserted schema rws) table_list_key = Ok [bs "a"] -> ensures (Forall plain) (smembers (inserted schema rws) table_list_key).
Proof. intros ->. apply ensures_ok. constructor; [apply plain_a|constructor]. Qed.

Lemma sample_names : names_ok sample_schema.
Proof. split_and!; [by refine (bool_decide_unpack _ _)|by refine (bool_decide_unpack _ _)|by left]. Qed.


Lemma sample_doubles : doubles_ok.
Proof.
  assert (forall z, u64_ok (as_u64 z)) as Hz by (intros z; by apply Z.mod_pos_bound).
  split; [|done|done]. intros b f Hf. unfold parse_f64, sample_env in Hf. destruct (bytes_eqb b (bs "nan")); [by simplify_eq|].
  destruct (parse_i64 b); cbn in Hf; by simplify_eq.
Qed.


(** ** What a table admits *)

(** A unique number can be stored twice: the constraint compares the texts of the request. *)
Example unique_number_twice :
  let d := inserted sample_schema [[cell "id" "k"; cell "n" "5"]; [cell "id" "l"; cell "n" "+5"]] in
  row_at d (bs "a") (bs "k") !! bs "n" = Some [5; 0; 0; 0; 0; 0; 0; 0] /\ row_at d (bs "a") (bs "l") !! bs "n" = Some [5; 0; 0; 0; 0; 0; 0; 0].
Proof. vm_compute. done. Qed.

(** A row whose key reads as the number NaN is stored but not listed. *)
Example nan_row_hidden :
  let d := inserted sample_schema [[cell "id" "nan"; cell "n" "5"]] in
  row_at d (bs "a") (bs "nan") !! bs "id" = Some (bs "nan") /\ get_all_row_ids d (bs "a") = Ok [].
Proof. vm_compute. done. Qed.

(** Two rows of a bulk upsert that name the same row by different texts: the store has the cells of both, the
    journal only those of the second. *)
Example bulk_upsert_journal :
  let d := inserted sample_schema [[cell "id" "k"; cell "n" "+5"]] in
  exists m, stage_upserts d (sample_cache sample_schema) (bs "a") [[cell "n" "+5"; cell "x" "1"]; [cell "n" "5"; cell "y" "2"]] (Some (bs "n")) None None (mutation_new []) = Ok m /\
    row_at (publish m d) (bs "a") (bs "k") !! bs "x" = Some (bs "1") /\
    journal m = [[bs "TROWSET"; bs "a"; bs "k"; bs "id"; bs "k"; bs "n"; [5; 0; 0; 0; 0; 0; 0; 0]; bs "y"; bs "2"]].
Proof. eexists. split; [vm_compute; reflexivity|]. vm_compute. done. Qed.

Definition tree_schema : list FieldDef :=
  [column "id" TStr true true None; column "parent" TStr false false (Some (mkFk (bs "a") (bs "id") Cascade)); column "u" TStr false true None;
   column "v" TStr false true None; column "z" TStr false false None].

(** A bulk upsert whose first row purges an expired row, and with it by a cascade the row that its second row then
    updates: the second row is written, and journalled, but it is no longer listed. *)
Example purged_row_written :
  let d := after tree_schema (inserted tree_schema [[cell "id" "1"; cell "u" "x"]; [cell "id" "2"; cell "parent" "1"; cell "v" "w"]]) (RUpdate [] (Some (TtlSet 0)) [bs "1"]) in
  exists m, stage_upserts d (sample_cache tree_schema) (bs "a") [[cell "id" "9"; cell "u" "x"; cell "v" "n"]; [cell "v" "w"; cell "z" "q"]] (Some (bs "v")) None None (mutation_new []) = Ok m /\
    row_at (publish m d) (bs "a") (bs "2") !! bs "z" = Some (bs "q") /\ get_all_row_ids (publish m d) (bs "a") = Ok [bs "9"].
Proof. eexists. split; [vm_compute; reflexivity|]. vm_compute. done. Qed.

End TableJournal.
