(* ===== verification/Snapshot.v ===== *)
(** * Snapshots ([src/src/snapshot.rs], and its callers in [src/src/store/mod.rs])

    The file [lux.dat]: its six formats, the writer of the current one, the bounded readers, the
    loader with its two modes (live and recovery), the validation of a restore payload, the
    single-key blobs of DUMP and LXRESTORE, and the save that ends with the rotation of the journal.

    A reader is a function of the bytes left to read. SHA-256 and the keyring's encryption of vectors
    are parameters. The wall clock and the monotonic clock are read once per entry: they are
    functions of the number of the entry. A loader changes the store entry by entry, so it returns
    the store together with its result: after an error the entries before it are there. *)

From S2P Require Import Prelude.
From S2P Require Import Hll.
From S2P Require Import Codec.
From S2P Require Import Wal.
From S2P Require Import Disk.
From S2P Require Import Values.
From S2P Require Import Store.
From S2P Require Import Strings.
From S2P Require Import Eviction.
From S2P Require Import Keyspace.
Local Open Scope Z_scope.

Module Snapshot.
Import Codec.Codec Values.Values Store.Store.

(** ** Formats *)

Definition HEADER_V1 : bytes := bs "LUX" ++ [1].
Definition HEADER_V2 : bytes := bs "LUX" ++ [2].
Definition HEADER : bytes := bs "LUX" ++ [3].
Definition HEADER_V4 : bytes := bs "LUX" ++ [4].
Definition HEADER_V5 : bytes := bs "LUX" ++ [5].
Definition HEADER_V6 : bytes := bs "LUX" ++ [6].
Definition DUMP_HEADER : bytes := bs "LXD" ++ [1].
Definition SNAPSHOT_DIGEST_LEN : nat := 32.
Definition MAX_WAL_CHECKPOINTS : Z := 1024.
Definition MAX_SNAPSHOT_BYTES : Z := 512 * 1024 * 1024.
Definition MAX_SNAPSHOT_ITEMS : Z := 64 * 1024 * 1024.

Inductive SnapshotFormat := V1 | V2 | V3 | V4 | V5 | V6.

Definition format_version (f : SnapshotFormat) : Z :=
  match f with V1 => 1 | V2 => 2 | V3 => 3 | V4 => 4 | V5 => 5 | V6 => 6 end.

Definition from_version (version : Z) : io SnapshotFormat :=
  match version with
  | 1 => IoOk V1 | 2 => IoOk V2 | 3 => IoOk V3 | 4 => IoOk V4 | 5 => IoOk V5 | 6 => IoOk V6
  | _ => IoErr (InvalidData "unsupported Lux snapshot format version")
  end.

(** ** Bounded readers *)

Definition write_u64 (v : Z) : bytes := le_bytes 8 v.
Definition read_u64 : reader Z := b ← read_exact 8; mret (le_decode b).

Definition read_bytes : reader bytes :=
  len ← read_u32;
  if len >? MAX_SNAPSHOT_BYTES then fail (InvalidData "snapshot byte string length exceeds maximum")
  else read_exact (Z.to_nat len).

Definition read_string : reader bytes :=
  raw ← read_bytes;
  if is_utf8 raw then mret raw else fail (InvalidData "invalid utf-8").

Definition read_count (label : string) : reader Z :=
  count ← read_u32;
  if count >? MAX_SNAPSHOT_ITEMS
  then fail (InvalidData ("snapshot " +:+ label +:+ " count exceeds maximum"))
  else mret count.

(** [saturating_mul] cannot reach its limit on counts that passed [read_count]. *)
Definition read_sized_count (label : string) (item_size : Z) : reader Z :=
  count ← read_count label;
  if count * item_size >? MAX_SNAPSHOT_BYTES
  then fail (InvalidData ("snapshot " +:+ label +:+ " byte size exceeds maximum"))
  else mret count.

(** [let len = read_count(r, label)?; for _ in 0..len { .. }] *)
Definition read_items {A} (label : string) (read : reader A) : reader (list A) :=
  n ← read_count label; read_n (Z.to_nat n) read.
Definition read_sized_items {A} (label : string) (item_size : Z) (read : reader A) : reader (list A) :=
  n ← read_sized_count label item_size; read_n (Z.to_nat n) read.

(** ** Values *)

Definition read_kv : reader (bytes * bytes) := read_pair read_string read_bytes.
Definition read_label : reader (bytes * bytes) := read_pair read_string read_string.
Definition read_expiry : reader (bytes * Z) := read_pair read_string read_i64.
Definition read_scored : reader (bytes * Z) := read_pair read_string read_f64.

Definition read_stream_entry : reader StreamDumpEntry :=
  read_pair read_string (read_items "stream field" read_kv).

Definition read_consumer : reader StreamConsumerDump :=
  read_pair read_string (read_items "stream consumer pending" read_string).

Definition read_pending : reader StreamPendingDump :=
  id ← read_string; consumer ← read_string; delivery_count ← read_u32;
  mret (id, consumer, delivery_count).

Definition read_group : reader StreamGroupDump :=
  name ← read_string; last_delivered_id ← read_string;
  consumers ← read_items "stream consumer" read_consumer;
  pending ← read_items "stream group pending" read_pending;
  mret (name, last_delivered_id, consumers, pending).

Definition write_metadata (metadata : option bytes) : bytes :=
  match metadata with Some m => 1 :: write_bytes m | None => [0] end.

Definition read_metadata : reader (option bytes) :=
  flag ← read_u8;
  if flag =? 1 then m ← read_string; mret (Some m) else mret None.

Section Format.

(** [Sha256::digest], the estimate of [hll.rs], and the keyring's sealing of a vector under its key. *)
Context (sha256 : bytes -> bytes) (hll_count : bytes -> Z).
Context (encrypt_vector : bytes -> list Z -> result bytes)
        (decrypt_vector : bytes -> bytes -> result (list Z)).

(** [.map_err(io::Error::other)?] *)
Definition or_other {A} (r : result A) : io A :=
  match r with Ok a => IoOk a | Err e => IoErr (Other e) end.

Definition save_type_byte (v : DumpValue) : Z :=
  match v with
  | DStr _ => 83
  | DList _ => 76
  | DHash _ (_ :: _) => 104
  | DHash _ [] => 72
  | DSet _ => 84
  | DSortedSet _ => 90
  | DStream _ _ _ => 88
  | DVector _ _ true => 87
  | DVector _ _ false => 86
  | DHyperLogLog _ _ => 80
  | DTimeSeries _ _ _ => 73
  end.

Definition save_value (key : bytes) (v : DumpValue) : io bytes :=
  match v with
  | DStr v => IoOk (write_bytes v)
  | DList items => IoOk (write_vec write_bytes items)
  | DHash pairs expiries =>
      IoOk (write_vec write_kv pairs ++
            match expiries with [] => [] | _ => write_vec write_expiry expiries end)
  | DSet members => IoOk (write_vec write_bytes members)
  | DSortedSet members => IoOk (write_vec write_scored members)
  | DStream entries last_id groups =>
      IoOk (write_bytes last_id ++ write_vec write_stream_entry entries ++
            write_vec write_group groups)
  | DVector data metadata true =>
      sealed ← or_other (encrypt_vector key data);
      IoOk (write_bytes sealed ++ write_metadata metadata)
  | DVector data metadata false => IoOk (write_vec write_f32 data ++ write_metadata metadata)
  | DHyperLogLog regs _ => IoOk (write_u32 (as_u32 (zlen regs)) ++ regs)
  | DTimeSeries samples retention labels =>
      IoOk (write_vec write_sample samples ++ write_i64 (as_i64 retention) ++
            write_vec write_kv labels)
  end.

(** [now_epoch_ms().saturating_add(ttl_ms as u64) as i64], or [-1]. *)
Definition save_deadline (epoch ttl_ms : Z) : Z :=
  if ttl_ms >? 0 then as_i64 (Z.min (epoch + ttl_ms) (u64_mod - 1)) else -1.

Definition save_entry (epoch : Z) (e : DumpEntry) : io bytes :=
  body ← save_value (d_key e) (d_value e);
  IoOk (save_type_byte (d_value e) :: write_bytes (d_key e) ++
        write_i64 (save_deadline epoch (d_ttl_ms e)) ++ body).

(** The loop over the entries; [epoch i] is the wall clock at entry [i], in milliseconds. *)
Fixpoint save_binary_entries (epoch : nat -> Z) (i : nat) (entries : list DumpEntry) : io bytes :=
  match entries with
  | [] => IoOk []
  | e :: entries =>
      b ← save_entry (epoch i) e;
      rest ← save_binary_entries epoch (S i) entries;
      IoOk (b ++ rest)
  end.

Definition save_binary (epoch : nat -> Z) (entries : list DumpEntry) : io bytes :=
  body ← save_binary_entries epoch 0 entries; IoOk (HEADER ++ body).

Definition read_dump_value (key : bytes) (stream_groups : bool) (type : Z) : reader DumpValue :=
  if type =? 83 then v ← read_bytes; mret (DStr v)
  else if type =? 76 then items ← read_items "list item" read_bytes; mret (DList items)
  else if (type =? 72) || (type =? 104) then
    pairs ← read_items "hash field" read_kv;
    expiries ← (if type =? 104 then read_items "hash field ttl" read_expiry else mret []);
    mret (DHash pairs expiries)
  else if type =? 84 then members ← read_items "set member" read_string; mret (DSet members)
  else if type =? 90 then
    members ← read_items "sorted set member" read_scored; mret (DSortedSet members)
  else if type =? 88 then
    last_id ← read_string;
    entries ← read_items "stream entry" read_stream_entry;
    groups ← (if stream_groups then read_items "stream group" read_group else mret []);
    mret (DStream entries last_id groups)
  else if type =? 86 then
    data ← read_sized_items "vector dimension" 4 read_f32;
    metadata ← read_metadata;
    mret (DVector data metadata false)
  else if type =? 87 then
    sealed ← read_bytes;
    metadata ← read_metadata;
    match or_other (decrypt_vector key sealed) with
    | IoOk data => mret (DVector data metadata true)
    | IoErr e => fail e
    end
  else if type =? 80 then
    len ← read_sized_count "hyperloglog register" 1;
    regs ← read_registers len;
    mret (DHyperLogLog regs (hll_count regs))
  else if type =? 73 then
    samples ← read_sized_items "timeseries sample" 16 read_sample;
    retention ← read_i64;
    labels ← read_items "timeseries label" read_label;
    mret (DTimeSeries samples (as_u64 retention) labels)
  else fail (InvalidData "unknown type byte").

(** The TTL of an entry that is read, in nanoseconds, and whether it expired in the meantime. *)
Definition read_ttl (absolute_ttl : bool) (epoch ttl_ms : Z) : option Z * bool :=
  if ttl_ms <=? 0 then (None, false)
  else if absolute_ttl then
    let remaining := Z.max i64_min (Z.min i64_max (ttl_ms - as_i64 epoch)) in
    if remaining <=? 0 then (None, true) else (Some (remaining * 1000000), false)
  else (Some (ttl_ms * 1000000), false).

(** ** Loading *)

(** [stage_expired_recovery_entry]: the entry is loaded, and its deadline is the sentinel that
    [begin_recovery] chose. *)
Definition stage_expired_recovery_entry (sentinel clock : Z) (key : bytes) (v : DumpValue) (s : Store)
    : Store :=
  let s := load_entry clock key v None s in
  match find s key with
  | Some e => put_data key (mkEntry (value e) (Some sentinel) (e_lru_clock e)) s
  | None => s
  end.

(** One entry of the stream. *)
Definition read_entry (stream_groups : bool) (type : Z) : reader (bytes * Z * DumpValue) :=
  key ← read_string;
  ttl_ms ← read_i64;
  value ← read_dump_value key stream_groups type;
  mret (key, ttl_ms, value).

(** What the loop does with an entry, and by how much it counts. *)
Definition apply_entry (absolute_ttl preserve_expired apply : bool) (sentinel epoch clock : Z)
    (key : bytes) (ttl_ms : Z) (v : DumpValue) (s : Store) : Z * Store :=
  let '(ttl, expired) := read_ttl absolute_ttl epoch ttl_ms in
  if negb apply then (1, s)
  else if expired && preserve_expired
  then (1, stage_expired_recovery_entry sentinel clock key v s)
  else if negb expired then (1, load_entry clock key v ttl s)
  else (0, s).

(** The loop of [parse_binary]: the end of the input at a type byte ends it. Every turn consumes a
    byte at least. [epoch i] and [clock i] are the wall clock and the monotonic clock at entry [i]. *)
Fixpoint parse_loop (fuel : nat) (stream_groups absolute_ttl preserve_expired apply : bool)
    (sentinel : Z) (epoch clock : nat -> Z) (i : nat) (count : Z) (input : bytes) (s : Store)
    : io Z * Store :=
  match input with
  | [] => (IoOk count, s)
  | type :: input =>
      match fuel with
      | O => (IoErr (InvalidData "out of fuel"), s)
      | S fuel =>
          match read_entry stream_groups type input with
          | IoErr e => (IoErr e, s)
          | IoOk ((key, ttl_ms, v), rest) =>
              let '(n, s) := apply_entry absolute_ttl preserve_expired apply sentinel (epoch i)
                               (clock i) key ttl_ms v s in
              parse_loop fuel stream_groups absolute_ttl preserve_expired apply sentinel epoch clock
                (S i) (count + n) rest s
          end
      end
  end.

Definition parse_binary (stream_groups absolute_ttl preserve_expired apply : bool) (sentinel : Z)
    (epoch clock : nat -> Z) (input : bytes) (s : Store) : io Z * Store :=
  parse_loop (length input) stream_groups absolute_ttl preserve_expired apply sentinel epoch clock
    0 0 input s.

(** ** The body of V5 and V6: an exact length and a digest *)

(** [body_start] is the position in the file: the header, the length and the digest. *)
Definition body_start : Z := 4 + 8 + Z.of_nat SNAPSHOT_DIGEST_LEN.

Definition verify_snapshot_body (body_len : Z) (expected_digest rest : bytes) : io unit :=
  if body_start + body_len >? u64_mod - 1
  then IoErr (InvalidData "snapshot body length overflow")
  else if negb (body_len =? zlen rest)
  then IoErr (InvalidData "snapshot body length does not match the file")
  else if negb (bytes_eqb (sha256 rest) expected_digest)
  then IoErr (InvalidData "snapshot SHA-256 mismatch")
  else IoOk tt.

(** [read_u64], the digest, [verify_snapshot_body] and [file.take(body_len)]. *)
Definition read_body (input : bytes) : io bytes :=
  '(body_len, input) ← read_u64 input;
  '(digest, rest) ← read_exact SNAPSHOT_DIGEST_LEN input;
  _ ← verify_snapshot_body body_len digest rest;
  IoOk (take (Z.to_nat body_len) rest).

(** [SnapshotDigestWriter]: what was written, its length and its digest. *)
Definition digest_writer (body : bytes) : io (Z * bytes) :=
  if zlen body >? u64_mod - 1 then IoErr (InvalidData "snapshot length overflow")
  else IoOk (zlen body, sha256 body).

(** ** Journal checkpoints *)

Definition read_successor (current_generation : bytes) : reader (option bytes) :=
  successor ← read_exact Wal.WAL_GENERATION_LEN;
  if bytes_eqb successor (replicate 16 0)
  then fail (InvalidData "snapshot contains a zero successor WAL generation")
  else if bytes_eqb successor current_generation
  then fail (InvalidData "snapshot successor WAL generation repeats its current generation")
  else mret (Some successor).

Definition read_checkpoint (has_successor : bool) : reader (bytes * Wal.WalCheckpoint) :=
  name ← read_string;
  if bool_decide (name = []) || negb (forallb Wal.is_wal_name_byte name)
  then fail (InvalidData "snapshot contains an invalid WAL checkpoint name")
  else
    current_generation ← read_exact Wal.WAL_GENERATION_LEN;
    offset ← read_u64;
    successor ← (if has_successor then read_successor current_generation else mret None);
    mret (name, Wal.mkCheckpoint current_generation (Z.to_nat offset) successor).

Fixpoint checkpoints_loop (n : nat) (has_successor : bool) (m : gmap bytes Wal.WalCheckpoint)
    : reader (gmap bytes Wal.WalCheckpoint) :=
  match n with
  | O => mret m
  | S n =>
      p ← read_checkpoint has_successor;
      if bool_decide (is_Some (m !! p.1))
      then fail (InvalidData "snapshot contains duplicate WAL checkpoints")
      else checkpoints_loop n has_successor (<[p.1 := p.2]> m)
  end.

Definition read_wal_checkpoints (has_successor : bool) : reader (gmap bytes Wal.WalCheckpoint) :=
  count ← read_u32;
  if count >? MAX_WAL_CHECKPOINTS
  then fail (InvalidData "snapshot WAL checkpoint count exceeds maximum")
  else
    m ← checkpoints_loop (Z.to_nat count) has_successor ∅;
    if has_successor && bool_decide (m !! bs "global" = None)
    then fail (InvalidData "journal-bound snapshot is missing the global WAL checkpoint")
    else mret m.

Definition save_checkpoint (p : bytes * Wal.WalCheckpoint) : io bytes :=
  match Wal.cp_successor p.2 with
  | Some successor =>
      IoOk (write_bytes p.1 ++ Wal.cp_generation p.2 ++ write_u64 (Z.of_nat (Wal.cp_offset p.2)) ++
            successor)
  | None => IoErr (InvalidInput "new snapshots require an authorized successor WAL generation")
  end.

Fixpoint save_checkpoints (l : list (bytes * Wal.WalCheckpoint)) : io bytes :=
  match l with
  | [] => IoOk []
  | p :: l => b ← save_checkpoint p; rest ← save_checkpoints l; IoOk (b ++ rest)
  end.

Definition save_snapshot_binary (epoch : nat -> Z) (entries : list DumpEntry)
    (checkpoints : list (bytes * Wal.WalCheckpoint)) : io bytes :=
  if zlen checkpoints >? u32_max then IoErr (InvalidInput "too many WAL checkpoints")
  else
    cps ← save_checkpoints checkpoints;
    es ← save_binary_entries epoch 0 entries;
    let body := write_u32 (zlen checkpoints) ++ cps ++ es in
    '(body_len, digest) ← digest_writer body;
    IoOk (HEADER_V6 ++ write_u64 body_len ++ digest ++ body).

(** ** Loading a file *)

(** The store and [recovery_wal_checkpoints]. *)
Record Loading := mkLoading { l_store : Store; l_checkpoints : gmap bytes Wal.WalCheckpoint }.

Definition snapshot_format (input : bytes) : io (SnapshotFormat * bytes) :=
  match read_exact 4 input with
  | IoErr _ =>
      IoErr (InvalidData "restore payload has an incomplete Lux snapshot header")
  | IoOk (header, rest) =>
      if bytes_eqb header HEADER_V1 then IoOk (V1, rest)
      else if bytes_eqb header HEADER_V2 then IoOk (V2, rest)
      else if bytes_eqb header HEADER then IoOk (V3, rest)
      else if bytes_eqb header HEADER_V4 then IoOk (V4, rest)
      else if bytes_eqb header HEADER_V5 then IoOk (V5, rest)
      else if bytes_eqb header HEADER_V6 then IoOk (V6, rest)
      else IoErr (InvalidData "restore payload is not a supported Lux snapshot")
  end.

Section Clocks.

Context (sentinel : Z) (epoch clock : nat -> Z).

Definition load_binary (stream_groups absolute_ttl preserve_expired : bool) (input : bytes) (s : Store)
    : io Z * Store :=
  parse_binary stream_groups absolute_ttl preserve_expired true sentinel epoch clock input s.

(** The entry stream of a format whose checkpoints have been read. *)
Definition load_after (cps : io (gmap bytes Wal.WalCheckpoint * bytes)) (preserve_expired : bool)
    (l : Loading) : io Z * Loading :=
  match cps with
  | IoErr e => (IoErr e, l)
  | IoOk (m, rest) =>
      let '(r, s) := load_binary true true preserve_expired rest (l_store l) in (r, mkLoading s m)
  end.

Definition load_unbound (stream_groups absolute_ttl preserve_expired : bool) (rest : bytes) (l : Loading)
    : io Z * Loading :=
  let '(r, s) := load_binary stream_groups absolute_ttl preserve_expired rest (l_store l) in
  (r, mkLoading s ∅).

(** ** The text format of before V1 *)

(** [str::splitn], [n] pieces at most. *)
Fixpoint splitn (n : nat) (sep : Z) (l : bytes) : list bytes :=
  match n with
  | O => []
  | S O => [l]
  | S n =>
      match split_once [sep] l with
      | Some (a, r) => a :: splitn n sep r
      | None => [l]
      end
  end.

(** [str::split] *)
Definition split_all (sep : Z) (l : bytes) : list bytes := splitn (S (length l)) sep l.

(** [BufRead::lines]: without the line feed, and a carriage return before it. *)
Definition strip_cr (l : bytes) : bytes :=
  match last l with Some 13 => take (length l - 1) l | _ => l end.

Fixpoint lines_of (fuel : nat) (l : bytes) : list bytes :=
  match fuel, l with
  | _, [] => []
  | O, _ => []
  | S fuel, _ =>
      match split_once [10] l with
      | Some (a, r) => strip_cr a :: lines_of fuel r
      | None => [l]
      end
  end.

(** [str::parse::<f64>] *)
Context (parse_f64 : bytes -> option Z).

(** [.map(f).collect::<io::Result<_>>()?] *)
Fixpoint collect {A B} (f : A -> io B) (l : list A) : io (list B) :=
  match l with
  | [] => IoOk []
  | a :: l => b ← f a; r ← collect f l; IoOk (b :: r)
  end.

Definition legacy_field (pair : bytes) : io (bytes * bytes) :=
  match splitn 2 30 pair with
  | [k; v] => IoOk (k, v)
  | _ => IoErr (InvalidData "malformed legacy hash field")
  end.

Definition legacy_member (pair : bytes) : io (bytes * Z) :=
  match splitn 2 30 pair with
  | [m; score] =>
      match parse_f64 score with
      | Some score => IoOk (m, score)
      | None => IoErr (InvalidData "invalid legacy sorted-set score")
      end
  | _ => IoErr (InvalidData "malformed legacy sorted-set member")
  end.

Fixpoint legacy_fields (parts : list bytes) : list (bytes * bytes) :=
  match parts with
  | k :: v :: parts => (k, v) :: legacy_fields parts
  | _ => []
  end.

Definition legacy_entry (entry_str : bytes) : io StreamDumpEntry :=
  match split_all 29 entry_str with
  | [] | [] :: _ => IoErr (InvalidData "malformed legacy stream entry")
  | id :: parts =>
      if Nat.odd (length parts) then IoErr (InvalidData "malformed legacy stream entry")
      else IoOk (id, legacy_fields parts)
  end.

Definition pieces (sep : Z) (raw : bytes) : list bytes :=
  match raw with [] => [] | _ => split_all sep raw end.

Definition legacy_value (type raw_value : bytes) : io DumpValue :=
  if bytes_eqb type (bs "S") then IoOk (DStr raw_value)
  else if bytes_eqb type (bs "L") then IoOk (DList (pieces 31 raw_value))
  else if bytes_eqb type (bs "H") then
    pairs ← collect legacy_field (pieces 31 raw_value); IoOk (DHash pairs [])
  else if bytes_eqb type (bs "T") then IoOk (DSet (pieces 31 raw_value))
  else if bytes_eqb type (bs "Z") then
    members ← collect legacy_member (pieces 31 raw_value); IoOk (DSortedSet members)
  else if bytes_eqb type (bs "X") then
    match splitn 2 28 raw_value with
    | [last_id; entries_raw] =>
        entries ← collect legacy_entry (pieces 31 entries_raw); IoOk (DStream entries last_id [])
    | [last_id] => IoOk (DStream [] last_id [])
    | _ => IoOk (DStream [] (bs "0-0") [])
    end
  else IoErr (InvalidData "unknown legacy snapshot type").

Definition legacy_ttl (text : bytes) : io (option Z) :=
  match parse_i64 text with
  | Some ttl_ms => IoOk (if ttl_ms >? 0 then Some (ttl_ms * 1000000) else None)
  | None => IoErr (InvalidData "invalid legacy snapshot TTL")
  end.

(** A row whose first character is a type and whose second is a tab. *)
Definition is_typed_row (line : bytes) : bool :=
  match line with
  | c :: 9 :: _ => bool_decide (c ∈ bs "SLHTZX")
  | _ => false
  end.

Definition legacy_row (line : bytes) : io (bytes * DumpValue * option Z) :=
  if negb (is_typed_row line) then
    match splitn 3 9 line with
    | [key; value; ttl] => ttl ← legacy_ttl ttl; IoOk (key, DStr value, ttl)
    | _ => IoErr (InvalidData "malformed legacy snapshot row")
    end
  else
    match splitn 4 9 line with
    | [type; key; raw_value; ttl] =>
        ttl ← legacy_ttl ttl; v ← legacy_value type raw_value; IoOk (key, v, ttl)
    | _ => IoErr (InvalidData "malformed typed legacy snapshot row")
    end.

Fixpoint load_rows (i : nat) (count : Z) (lines : list bytes) (s : Store) : io Z * Store :=
  match lines with
  | [] => (IoOk count, s)
  | line :: lines =>
      if negb (is_utf8 line) then (IoErr (InvalidData "stream did not contain valid UTF-8"), s)
      else match line with
           | [] => load_rows (S i) count lines s
           | _ =>
               match legacy_row line with
               | IoErr e => (IoErr e, s)
               | IoOk (key, v, ttl) => load_rows (S i) (count + 1) lines (load_entry (clock i) key v ttl s)
               end
           end
  end.

Definition load_legacy (input : bytes) (s : Store) : io Z * Store :=
  load_rows 0 0 (lines_of (length input) input) s.

Definition load_from_reader (preserve_expired : bool) (input : bytes) (l : Loading) : io Z * Loading :=
  match read_exact 4 input with
  | IoErr _ => (IoErr (InvalidData "snapshot is truncated before its header"), l)
  | IoOk (header, rest) =>
      if bytes_eqb header HEADER_V6
      then load_after (body ← read_body rest; read_wal_checkpoints true body) preserve_expired l
      else if bytes_eqb header HEADER_V5
      then load_after (body ← read_body rest; read_wal_checkpoints false body) preserve_expired l
      else if bytes_eqb header HEADER_V4
      then load_after (read_wal_checkpoints false rest) preserve_expired l
      else if bytes_eqb header HEADER then load_unbound true true preserve_expired rest l
      else if bytes_eqb header HEADER_V2 then load_unbound true false preserve_expired rest l
      else if bytes_eqb header HEADER_V1 then load_unbound false false preserve_expired rest l
      else let '(r, s) := load_legacy input (l_store l) in (r, mkLoading s ∅)
  end.

(** [load_with_mode]: [file] is the content of [lux.dat], if it exists. *)
Definition load_with_mode (preserve_expired : bool) (file : option bytes) (l : Loading) : io Z * Loading :=
  match file with
  | None => (IoOk 0, l)
  | Some input => load_from_reader preserve_expired input l
  end.

(** [validate_restore_reader]: the entries are parsed and counted, the store is not touched. *)
Definition validate_entries (stream_groups absolute_ttl : bool) (rest : bytes) (s : Store) : io Z :=
  (parse_binary stream_groups absolute_ttl false false sentinel epoch clock rest s).1.

Definition validate_restore_reader (input : bytes) (s : Store) : io (SnapshotFormat * Z) :=
  '(format, rest) ← snapshot_format input;
  n ← (match format with
       | V6 | V5 =>
           body ← read_body rest;
           '(_, rest) ← read_wal_checkpoints (match format with V6 => true | _ => false end) body;
           validate_entries true true rest s
       | V4 => '(_, rest) ← read_wal_checkpoints false rest; validate_entries true true rest s
       | V3 => validate_entries true true rest s
       | V2 => validate_entries true false rest s
       | V1 => validate_entries false false rest s
       end);
  IoOk (format, n).

(** ** The startup questions about the installed snapshot *)

Definition required_existing_journals (file : option bytes) : io (gset bytes) :=
  match file with
  | None => IoOk ∅
  | Some input =>
      match read_exact 4 input with
      | IoErr _ => IoErr (InvalidData "snapshot is truncated before its header")
      | IoOk (header, rest) =>
          if bytes_eqb header HEADER_V6 || bytes_eqb header HEADER_V5 then
            body ← read_body rest;
            '(m, _) ← read_wal_checkpoints (bytes_eqb header HEADER_V6) body;
            IoOk (dom m)
          else if bytes_eqb header HEADER_V4 then
            '(m, _) ← read_wal_checkpoints false rest; IoOk (dom m)
          else IoOk ∅
      end
  end.

Definition authorized_global_successor (input : bytes) : io (option bytes) :=
  '(header, rest) ← read_exact 4 input;
  if negb (bytes_eqb header HEADER_V6) then IoOk None
  else
    body ← read_body rest;
    '(m, _) ← read_wal_checkpoints true body;
    IoOk (m !! bs "global" ≫= Wal.cp_successor).

(** ** Single-key blobs *)

Definition verified_dump_payload (blob : bytes) : io bytes :=
  if negb (starts_with blob DUMP_HEADER) then IoOk blob
  else if zlen blob <? body_start then IoErr (InvalidData "truncated DUMP integrity envelope")
  else
    let payload_len := le_decode (take 8 (drop 4 blob)) in
    if body_start + payload_len >? usize_max
    then IoErr (InvalidData "DUMP payload length overflow")
    else if negb (zlen blob =? body_start + payload_len)
    then IoErr (InvalidData "DUMP payload length mismatch")
    else
      let expected_digest := take SNAPSHOT_DIGEST_LEN (drop 12 blob) in
      let payload := drop (Z.to_nat body_start) blob in
      if negb (bytes_eqb (sha256 payload) expected_digest)
      then IoErr (InvalidData "DUMP payload SHA-256 mismatch")
      else IoOk payload.

Definition decode_dump_blob (blob : bytes) (s : Store) : io Z * Store :=
  match (payload ← verified_dump_payload blob; read_exact 4 payload) with
  | IoErr e => (IoErr e, s)
  | IoOk (header, rest) =>
      if bytes_eqb header HEADER then load_binary true true false rest s
      else if bytes_eqb header HEADER_V2 then load_binary true false false rest s
      else if bytes_eqb header HEADER_V1 then load_binary false false false rest s
      else (IoErr (InvalidData "LXRESTORE payload is not a lux snapshot"), s)
  end.

End Clocks.

Definition encode_dump_blob (epoch : nat -> Z) (entry : DumpEntry) : io bytes :=
  payload ← save_binary epoch [entry];
  IoOk (DUMP_HEADER ++ write_u64 (zlen payload) ++ sha256 payload ++ payload).

Definition decode_dump_blob_value (blob : bytes) : io (DumpValue * Z) :=
  payload ← verified_dump_payload blob;
  '(header, rest) ← read_exact 4 payload;
  stream_groups ← (if bytes_eqb header HEADER || bytes_eqb header HEADER_V2 then IoOk true
                   else if bytes_eqb header HEADER_V1 then IoOk false
                   else IoErr (InvalidData "RESTORE payload is not a lux dump"));
  '(type, rest) ← read_u8 rest;
  '((_, ttl_ms, v), _) ← read_entry stream_groups type rest;
  IoOk (v, ttl_ms).

(** ** Dumping the store *)

(** The entries of a shard that have not expired, with their remaining milliseconds. *)
Definition dump_hot (now : Z) (p : bytes * Entry) : option DumpEntry :=
  let '(key, e) := p in
  if is_expired_at now e then None
  else
    let ttl_ms := match expires_at e with Some exp => millis_until exp now | None => 0 end in
    Some (entry_to_dump (key_string key) (value e) ttl_ms).

Definition dump_shards (now : Z) (s : Store) : list DumpEntry :=
  concat ((fun sh => omap (dump_hot now) (map_to_list (data sh))) <$> shards s).

(** [dump_disk_entries]: the first failure ends it. Reading may drop expired entries. *)
Fixpoint dump_disks (now : Z) (ds : list Disk.DiskShard) : io (list DumpEntry) * list Disk.DiskShard :=
  match ds with
  | [] => (IoOk [], [])
  | d :: ds =>
      match Disk.dump_all hll_count now d with
      | (IoErr e, d) => (IoErr e, d :: ds)
      | (IoOk entries, d) =>
          let '(r, ds) := dump_disks now ds in
          (match r with IoOk rest => IoOk (entries ++ rest) | IoErr e => IoErr e end, d :: ds)
      end
  end.

Definition dump_all_from_locked_shards (now : Z) (s : Store) : io (list DumpEntry) * Store :=
  match disk_shards s with
  | None => (IoOk (dump_shards now s), s)
  | Some ds =>
      let '(r, ds) := dump_disks now ds in
      (match r with IoOk cold => IoOk (dump_shards now s ++ cold) | IoErr e => IoErr e end,
       set_disk (Some ds) s)
  end.

(** [canonicalize_restore]: a payload of any format is loaded into a store of its own, prepared, and
    written in the current format with a detached checkpoint ([fresh], [fresh'] are random). *)
Definition canonicalize_restore (parse_f64 : bytes -> option Z) (prepare : Store -> io unit * Store)
    (epoch clock epoch' : nat -> Z) (now : Z) (fresh fresh' : bytes) (source : bytes) (s : Store)
    : io (SnapshotFormat * Z * bytes) :=
  '(source_format, _) ← snapshot_format source;
  match load_from_reader 0 epoch clock parse_f64 false source (mkLoading s ∅) with
  | (IoErr e, _) => IoErr e
  | (IoOk _, l) =>
      match prepare (l_store l) with
      | (IoErr e, _) => IoErr e
      | (IoOk _, s) =>
          entries ← (dump_all_from_locked_shards now s).1;
          canonical ← save_snapshot_binary epoch' entries [(bs "global", Wal.detached fresh fresh')];
          IoOk (source_format, zlen entries, canonical)
      end
  end.

(** ** Saving *)

(** The data directory: [lux.dat], the journals in the order they are replayed (those of the shards
    of before the global journal, then ["global"]) and whether the journal is poisoned. *)
Record Installation := mkInstallation {
  lux_dat : option bytes;
  wals : list (bytes * Wal.Wal);
  poisoned : bool
}.

(** The positions of the journals; [fresh i] is the random successor of journal [i]. *)
Definition wal_checkpoints (fresh : nat -> bytes) (ws : list (bytes * Wal.Wal))
    : list (bytes * Wal.WalCheckpoint) :=
  imap (fun i w => (w.1, Wal.checkpoint (fresh i) w.2)) ws.

Definition rotate_one (cps : list (bytes * Wal.WalCheckpoint)) (w : bytes * Wal.Wal) : io Wal.Wal :=
  match list_find (fun c => c.1 = w.1) cps with
  | Some (_, (_, cp)) => Wal.rotate_after cp w.2
  | None => IoErr (InvalidData "snapshot is missing a WAL checkpoint")
  end.

(** [truncate_wal]: every journal is rotated, the first error is kept. *)
Fixpoint truncate_wals (cps : list (bytes * Wal.WalCheckpoint)) (ws : list (bytes * Wal.Wal))
    : option io_error * list (bytes * Wal.Wal) :=
  match ws with
  | [] => (None, [])
  | w :: ws =>
      let '(err, ws) := truncate_wals cps ws in
      match rotate_one cps w with
      | IoOk w' => (err, (w.1, w') :: ws)
      | IoErr e => (Some e, w :: ws)
      end
  end.

Definition truncate_wal (cps : list (bytes * Wal.WalCheckpoint)) (inst : Installation)
    : io unit * Installation :=
  match truncate_wals cps (wals inst) with
  | (Some e, ws) => (IoErr e, mkInstallation (lux_dat inst) ws true)
  | (None, ws) => (IoOk tt, mkInstallation (lux_dat inst) ws (poisoned inst))
  end.

Definition ensure_journal_healthy (inst : Installation) : io unit :=
  if poisoned inst then IoErr (Other "mutation journal is unavailable; restart required") else IoOk tt.

(** The critical section of [save_and_truncate_wal_observed]: no mutation is between its journal
    frame and its change of the store. [d], [d'] are the generations of a detached checkpoint. *)
Definition capture (fresh : nat -> bytes) (d d' : bytes) (now : Z) (s : Store) (inst : Installation)
    : io (list DumpEntry * list (bytes * Wal.WalCheckpoint)) * Store :=
  let checkpoints := match wal_checkpoints fresh (wals inst) with
                     | [] => [(bs "global", Wal.detached d d')]
                     | cps => cps
                     end in
  let '(r, s) := dump_all_from_locked_shards now s in
  ((entries ← r; _ ← ensure_journal_healthy inst; IoOk (entries, checkpoints)), s).

(** [save_entries_observed]: the temporary file is complete and synced before the rename. *)
Definition save_entries (epoch : nat -> Z) (entries : list DumpEntry)
    (cps : list (bytes * Wal.WalCheckpoint)) (inst : Installation) : io Z * Installation :=
  match save_snapshot_binary epoch entries cps with
  | IoErr e => (IoErr e, inst)
  | IoOk file => (IoOk (zlen entries), mkInstallation (Some file) (wals inst) (poisoned inst))
  end.

(** What follows the capture; the journals of [inst] may have grown in the meantime. *)
Definition finish_save (epoch : nat -> Z) (entries : list DumpEntry)
    (cps : list (bytes * Wal.WalCheckpoint)) (inst : Installation) : io Z * Installation :=
  match save_entries epoch entries cps inst with
  | (IoErr e, inst) => (IoErr e, inst)
  | (IoOk saved, inst) =>
      match ensure_journal_healthy inst with
      | IoErr e => (IoErr e, inst)
      | IoOk _ =>
          match truncate_wal cps inst with
          | (IoErr e, inst) => (IoErr e, inst)
          | (IoOk _, inst) => (IoOk saved, inst)
          end
      end
  end.

(** Startup: [load_for_recovery], and the commands that [replay_wal] executes, journal by journal. *)
Fixpoint replay_wals (m : gmap bytes Wal.WalCheckpoint) (ws : list (bytes * Wal.Wal))
    : io (list (list bytes)) :=
  match ws with
  | [] => IoOk []
  | w :: ws =>
      r ← (Wal.replay_from (m !! w.1) w.2).1;
      rest ← replay_wals m ws;
      IoOk (Wal.replayed r ++ rest)
  end.

Definition recover (sentinel : Z) (epoch clock : nat -> Z) (parse_f64 : bytes -> option Z)
    (inst : Installation) (s : Store) : io Z * Loading * io (list (list bytes)) :=
  let '(r, l) := load_with_mode sentinel epoch clock parse_f64 true (lux_dat inst) (mkLoading s ∅) in
  (r, l, replay_wals (l_checkpoints l) (wals inst)).

(** [finish_recovery]: the entries whose deadline is still the sentinel are deleted. *)
Definition staged_keys (sentinel : Z) (s : Store) : list bytes :=
  concat ((fun sh => fst <$> filter (fun p => expires_at p.2 = Some sentinel) (map_to_list (data sh)))
            <$> shards s).

Definition finish_recovery (clock sentinel : Z) (s : Store) : Store :=
  foldl (fun s key => (Strings.Strings.del clock [key] s).2) s (staged_keys sentinel s).

End Format.

(** ** Specifications *)

(** What the readers of a snapshot accept; the writer checks none of it. *)
Definition short (b : bytes) : Prop := zlen b <= MAX_SNAPSHOT_BYTES.
Definition text (b : bytes) : Prop := short b /\ is_utf8 b = true.
Definition few {A} (P : A -> Prop) (l : list A) : Prop := zlen l <= MAX_SNAPSHOT_ITEMS /\ Forall P l.

Definition pending_fits (p : StreamPendingDump) : Prop := text p.1.1 /\ text p.1.2 /\ 0 <= p.2.

Definition group_fits (g : StreamGroupDump) : Prop :=
  let '(name, last_delivered_id, consumers, pending) := g in
  text name /\ text last_delivered_id /\ few (pair_ok text (few text)) consumers /\
  few pending_fits pending.

Definition metadata_fits (metadata : option bytes) : Prop :=
  match metadata with Some m => text m | None => True end.

(** What a snapshot keeps of a value: the estimate of a HyperLogLog is recomputed, delivery counts
    stop at [u32::MAX]. *)
Definition kept_value (hll_count : bytes -> Z) (v : DumpValue) : DumpValue :=
  match v with
  | DHyperLogLog regs _ => DHyperLogLog regs (hll_count regs)
  | DStream entries last_id groups => DStream entries last_id (stored_group <$> groups)
  | v => v
  end.

(** ** Lemmas: bounded readers invert the writers *)

Lemma short_u32 b : short b -> zlen b < u32_mod.
Proof. unfold short, MAX_SNAPSHOT_BYTES, u32_mod. lia. Qed.

Lemma few_u32 {A} (P : A -> Prop) l : few P l -> zlen l < u32_mod.
Proof. unfold few, MAX_SNAPSHOT_ITEMS, u32_mod. lia. Qed.

#[export] Instance snap_rt_u64 : RoundTrip write_u64 read_u64 u64_ok := rt_f64.

#[export] Instance snap_rt_bytes : RoundTrip write_bytes read_bytes short.
Proof.
  intros b rest Hb. pose proof (short_u32 b Hb) as Hu. unfold read_bytes, write_bytes.
  rewrite as_u32_len, <-(assoc_L (++)) by done.
  rewrite (bind_ok _ _ _ _ _ (rt_u32 (zlen b) (b ++ rest) (len_u32_ok b Hu))).
  destruct (Z.gtb_spec (zlen b) MAX_SNAPSHOT_BYTES) as [H|_]; [unfold short in Hb; lia|].
  apply read_exact_app. unfold zlen. lia.
Qed.

#[export] Instance snap_rt_string : RoundTrip write_bytes read_string text.
Proof.
  intros b rest [Hb Hu]. unfold read_string.
  rewrite (bind_ok _ _ _ _ _ (snap_rt_bytes b rest Hb)). by rewrite Hu.
Qed.

Lemma read_count_ok {A} (P : A -> Prop) label l rest :
  few P l -> read_count label (write_u32 (as_u32 (zlen l)) ++ rest) = IoOk (zlen l, rest).
Proof.
  intros Hl. pose proof (few_u32 P l Hl) as Hu. unfold read_count. rewrite as_u32_len by done.
  rewrite (bind_ok _ _ _ _ _ (rt_u32 (zlen l) _ (len_u32_ok l Hu))).
  destruct Hl as [Hl _]. destruct (Z.gtb_spec (zlen l) MAX_SNAPSHOT_ITEMS); [lia|done].
Qed.

Lemma read_items_map {A} (w : A -> bytes) (norm : A -> A) r (P : A -> Prop) label l rest :
  (forall a rest, P a -> r (w a ++ rest) = IoOk (norm a, rest)) ->
  few P l -> read_items label r (write_vec w l ++ rest) = IoOk (norm <$> l, rest).
Proof.
  intros RT Hl. unfold read_items, write_vec. rewrite <-(assoc_L (++)).
  rewrite (bind_ok _ _ _ _ _ (read_count_ok P label l _ Hl)).
  unfold zlen. rewrite Nat2Z.id. apply (read_n_map w norm r P); [done|apply Hl].
Qed.

#[export] Instance snap_rt_items {A} (w : A -> bytes) r P label :
  RoundTrip w r P -> RoundTrip (write_vec w) (read_items label r) (few P).
Proof.
  intros RT l rest Hl. rewrite <-(list_fmap_id l) at 2. by apply (read_items_map w id r P).
Qed.

(** A sized collection is within both bounds. *)
Definition sized {A} (item_size : Z) (P : A -> Prop) (l : list A) : Prop :=
  few P l /\ zlen l * item_size <= MAX_SNAPSHOT_BYTES.

Lemma read_sized_count_ok {A} (P : A -> Prop) label size l rest :
  sized size P l -> read_sized_count label size (write_u32 (as_u32 (zlen l)) ++ rest) = IoOk (zlen l, rest).
Proof.
  intros [Hl Hs]. unfold read_sized_count.
  rewrite (bind_ok _ _ _ _ _ (read_count_ok P label l _ Hl)).
  destruct (Z.gtb_spec (zlen l * size) MAX_SNAPSHOT_BYTES); [lia|done].
Qed.

#[export] Instance snap_rt_sized {A} (w : A -> bytes) r P label size :
  RoundTrip w r P -> RoundTrip (write_vec w) (read_sized_items label size r) (sized size P).
Proof.
  intros RT l rest Hl. unfold read_sized_items, write_vec. rewrite <-(assoc_L (++)).
  rewrite (bind_ok _ _ _ _ _ (read_sized_count_ok P label size l _ Hl)).
  unfold zlen. rewrite Nat2Z.id. apply (read_n_ok w r P); [done|apply Hl].
Qed.

#[export] Instance snap_rt_kv : RoundTrip write_kv read_kv (pair_ok text short) :=
  rt_pair _ _ _ _ _ _ snap_rt_string snap_rt_bytes.
#[export] Instance snap_rt_label : RoundTrip write_kv read_label (pair_ok text text) :=
  rt_pair _ _ _ _ _ _ snap_rt_string snap_rt_string.
#[export] Instance snap_rt_expiry : RoundTrip write_expiry read_expiry (pair_ok text i64_ok) :=
  rt_pair _ _ _ _ _ _ snap_rt_string rt_i64.
#[export] Instance snap_rt_scored : RoundTrip write_scored read_scored (pair_ok text u64_ok) :=
  rt_pair _ _ _ _ _ _ snap_rt_string rt_f64.
#[export] Instance snap_rt_stream_entry : RoundTrip write_stream_entry read_stream_entry
    (pair_ok text (few (pair_ok text short))) :=
  rt_pair _ _ _ _ _ _ snap_rt_string (snap_rt_items _ _ _ _ snap_rt_kv).
#[export] Instance snap_rt_consumer : RoundTrip write_consumer read_consumer
    (pair_ok text (few text)) :=
  rt_pair _ _ _ _ _ _ snap_rt_string (snap_rt_items _ _ _ _ snap_rt_string).

Lemma snap_rt_pending p rest :
  pending_fits p -> read_pending (write_pending p ++ rest) = IoOk (stored_pending p, rest).
Proof.
  destruct p as [[id consumer] n]. intros (Hi & Hc & Hn). cbn [fst snd] in *.
  unfold read_pending, write_pending. cbn [fst snd].
  pose proof (min_u32_ok n Hn). do 3 read_step. done.
Qed.

Lemma snap_rt_group g rest :
  group_fits g -> read_group (write_group g ++ rest) = IoOk (stored_group g, rest).
Proof.
  destruct g as [[[name last] consumers] pending]. intros (Hn & Hl & Hc & Hp).
  unfold read_group, write_group. do 3 read_step.
  by rewrite (bind_ok _ _ _ _ _ (read_items_map _ _ _ _ _ _ rest snap_rt_pending Hp)).
Qed.

Lemma snap_rt_metadata m rest :
  metadata_fits m -> read_metadata (write_metadata m ++ rest) = IoOk (m, rest).
Proof.
  intros Hm. unfold read_metadata, write_metadata.
  destruct m as [m|]; cbn [app]; rewrite (bind_ok _ _ _ _ _ (read_u8_cons _ _));
    cbn [Z.eqb Pos.eqb]; [|done]. cbn [metadata_fits] in Hm. read_step. done.
Qed.

Lemma snap_rt_registers regs rest :
  Hll.regs_ok regs ->
  (len ← read_sized_count "hyperloglog register" 1; read_registers len : reader bytes)
    (write_u32 (as_u32 (zlen regs)) ++ regs ++ rest) = IoOk (regs, rest).
Proof.
  intros Hr. assert (zlen regs = 16384) as Hz.
  { unfold zlen. rewrite (proj1 Hr). unfold Hll.HLL_REGISTERS. lia. }
  assert (sized 1 (fun _ => True) regs) as Hs.
  { unfold sized, few. rewrite Hz. split; [split; [done|by apply Forall_true]|done]. }
  rewrite (bind_ok _ _ _ _ _ (read_sized_count_ok _ _ 1 regs _ Hs)).
  pose proof (rt_registers regs rest Hr) as E. rewrite as_u32_len in E by (rewrite Hz; done).
  by rewrite (bind_ok _ _ _ _ _ (rt_u32 (zlen regs) _ (len_u32_ok regs ltac:(rewrite Hz; done)))) in E.
Qed.

Section RoundTrips.

Context (sha256 : bytes -> bytes) (hll_count : bytes -> Z).
Context (encrypt_vector : bytes -> list Z -> result bytes)
        (decrypt_vector : bytes -> bytes -> result (list Z)).

(** What the format and the limits of its readers allow. *)
Definition value_fits (key : bytes) (v : DumpValue) : Prop :=
  match v with
  | DStr v => short v
  | DList items => few short items
  | DHash pairs expiries => few (pair_ok text short) pairs /\ few (pair_ok text i64_ok) expiries
  | DSet members => few text members
  | DSortedSet members => few (pair_ok text u64_ok) members
  | DStream entries last_id groups =>
      few (pair_ok text (few (pair_ok text short))) entries /\ text last_id /\ few group_fits groups
  | DVector data metadata true =>
      (exists sealed, encrypt_vector key data = Ok sealed /\ short sealed) /\ metadata_fits metadata
  | DVector data metadata false => sized 4 u32_ok data /\ metadata_fits metadata
  | DHyperLogLog regs _ => Hll.regs_ok regs
  | DTimeSeries samples retention labels =>
      sized 16 (pair_ok i64_ok u64_ok) samples /\ u64_ok retention /\ few (pair_ok text text) labels
  end.

Definition entry_fits (e : DumpEntry) : Prop :=
  text (d_key e) /\ i64_ok (d_ttl_ms e) /\ value_fits (d_key e) (d_value e).

(** The keyring opens what it sealed. *)
Hypothesis seal_opens : forall key data sealed,
  encrypt_vector key data = Ok sealed -> decrypt_vector key sealed = Ok data.

Lemma snap_rt_value key v :
  value_fits key v ->
  exists b, save_value encrypt_vector key v = IoOk b /\
    forall rest, read_dump_value hll_count decrypt_vector key true (save_type_byte v) (b ++ rest) =
      IoOk (kept_value hll_count v, rest).
Proof.
  destruct v as [v|items|pairs expiries|members|members|entries last groups|data meta enc|regs cached
                |samples retention labels]; intros Hv; cbn [value_fits] in Hv.
  - eexists; split; [reflexivity|]; intros rest. unfold read_dump_value.
    cbn [save_type_byte Z.eqb Pos.eqb orb]. read_step. done.
  - eexists; split; [reflexivity|]; intros rest. unfold read_dump_value.
    cbn [save_type_byte Z.eqb Pos.eqb orb]. read_step. done.
  - destruct Hv as [Hp He]. eexists; split; [reflexivity|]; intros rest.
    destruct expiries as [|e expiries]; unfold read_dump_value; cbn [save_type_byte Z.eqb Pos.eqb orb].
    + rewrite app_nil_r. read_step. done.
    + read_step. read_step. done.
  - eexists; split; [reflexivity|]; intros rest. unfold read_dump_value.
    cbn [save_type_byte Z.eqb Pos.eqb orb]. read_step. done.
  - eexists; split; [reflexivity|]; intros rest. unfold read_dump_value.
    cbn [save_type_byte Z.eqb Pos.eqb orb]. read_step. done.
  - destruct Hv as (He & Hl & Hg). eexists; split; [reflexivity|]; intros rest. unfold read_dump_value.
    cbn [save_type_byte Z.eqb Pos.eqb orb]. read_step. read_step.
    by rewrite (bind_ok _ _ _ _ _ (read_items_map _ _ _ _ _ groups rest snap_rt_group Hg)).
  - destruct enc.
    + destruct Hv as [(sealed & Hs & Hss) Hm]. cbn [save_value]. rewrite Hs.
      cbn [or_other mbind io_bind]. eexists; split; [reflexivity|]; intros rest. unfold read_dump_value.
      cbn [save_type_byte Z.eqb Pos.eqb orb]. read_step.
      rewrite (bind_ok _ _ _ _ _ (snap_rt_metadata meta rest Hm)). by rewrite (seal_opens _ _ _ Hs).
    + destruct Hv as [Hd Hm]. eexists; split; [reflexivity|]; intros rest. unfold read_dump_value.
      cbn [save_type_byte Z.eqb Pos.eqb orb]. read_step.
      by rewrite (bind_ok _ _ _ _ _ (snap_rt_metadata meta rest Hm)).
  - eexists; split; [reflexivity|]; intros rest. unfold read_dump_value.
    cbn [save_type_byte Z.eqb Pos.eqb orb]. rewrite <-(assoc_L (++)).
    pose proof (snap_rt_registers regs rest Hv) as E. unfold mbind, reader_bind in *.
    destruct (read_sized_count _ _ _) as [[n r]|]; [|done]. by rewrite E.
  - destruct Hv as (Hs & Hr & Hl). eexists; split; [reflexivity|]; intros rest. unfold read_dump_value.
    cbn [save_type_byte Z.eqb Pos.eqb orb]. destruct (as_i64_u64 retention Hr) as [Hri Hru].
    do 3 read_step. unfold mret, reader_ret. by rewrite Hru.
Qed.

Lemma save_deadline_ok epoch ttl : i64_ok (save_deadline epoch ttl).
Proof.
  unfold save_deadline. destruct (ttl >? 0); [apply as_i64_range|unfold i64_ok, i64_min, i64_max; lia].
Qed.

Lemma snap_rt_entry epoch e :
  entry_fits e ->
  exists b, save_entry encrypt_vector epoch e = IoOk (save_type_byte (d_value e) :: b) /\
    forall rest, read_entry hll_count decrypt_vector true (save_type_byte (d_value e)) (b ++ rest) =
      IoOk ((d_key e, save_deadline epoch (d_ttl_ms e), kept_value hll_count (d_value e)), rest).
Proof.
  intros (Hk & Ht & Hv). destruct (snap_rt_value _ _ Hv) as (b & Hb & Hr).
  unfold save_entry. rewrite Hb. cbn [mbind io_bind]. eexists; split; [reflexivity|]. intros rest.
  pose proof (save_deadline_ok epoch (d_ttl_ms e)). unfold read_entry. do 2 read_step.
  by rewrite (bind_ok _ _ _ _ _ (Hr rest)).
Qed.

(** What loading does with the entries of a snapshot, in their order. *)
Fixpoint load_saved (preserve_expired : bool) (sentinel : Z) (saved epoch clock : nat -> Z) (i : nat)
    (count : Z) (entries : list DumpEntry) (s : Store) : Z * Store :=
  match entries with
  | [] => (count, s)
  | e :: entries =>
      let '(n, s) := apply_entry true preserve_expired true sentinel (epoch i) (clock i) (d_key e)
                       (save_deadline (saved i) (d_ttl_ms e)) (kept_value hll_count (d_value e)) s in
      load_saved preserve_expired sentinel saved epoch clock (S i) (count + n) entries s
  end.

Lemma parse_saved preserve sentinel saved epoch clock entries :
  Forall entry_fits entries -> forall i,
  exists b, save_binary_entries encrypt_vector saved i entries = IoOk b /\
    forall fuel count s, (length b <= fuel)%nat ->
    parse_loop hll_count decrypt_vector fuel true true preserve true sentinel epoch clock i count b s =
      let '(n, s') := load_saved preserve sentinel saved epoch clock i count entries s in (IoOk n, s').
Proof.
  induction 1 as [|e entries He _ IH]; intros i.
  - exists []. split; [done|]. intros [|fuel] count s _; done.
  - destruct (snap_rt_entry (saved i) e He) as (b & Hb & Hr).
    destruct (IH (S i)) as (b' & Hb' & Hl). cbn [save_binary_entries]. rewrite Hb.
    cbn [mbind io_bind]. rewrite Hb'. eexists; split; [reflexivity|]. intros fuel count s Hf.
    rewrite <-app_comm_cons in *. destruct fuel as [|fuel]; [cbn [length] in Hf; lia|].
    cbn [parse_loop load_saved]. rewrite Hr. destruct (apply_entry _ _ _ _ _ _ _ _ _ _) as [n s'].
    apply Hl. cbn [length] in Hf. rewrite length_app in Hf. lia.
Qed.

(** ** Lemmas: checkpoints *)

Lemma io_step {A B} (m : io A) (f : A -> io B) a : m = IoOk a -> (m ≫= f) = f a.
Proof. by intros ->. Qed.

Definition checkpoint_fits (p : bytes * Wal.WalCheckpoint) : Prop :=
  short p.1 /\ is_utf8 p.1 = true /\ Wal.wal_name_ok p.1 = true /\
  length (Wal.cp_generation p.2) = 16%nat /\ u64_ok (Z.of_nat (Wal.cp_offset p.2)) /\
  match Wal.cp_successor p.2 with
  | Some successor =>
      length successor = 16%nat /\ successor ≠ replicate 16 0 /\ successor ≠ Wal.cp_generation p.2
  | None => False
  end.

Definition checkpoints_fit (cps : list (bytes * Wal.WalCheckpoint)) : Prop :=
  zlen cps <= MAX_WAL_CHECKPOINTS /\ Forall checkpoint_fits cps /\ NoDup cps.*1 /\
  bs "global" ∈ cps.*1.

Lemma snap_rt_checkpoint p :
  checkpoint_fits p ->
  exists b, save_checkpoint p = IoOk b /\
    forall rest, read_checkpoint true (b ++ rest) = IoOk (p, rest).
Proof.
  destruct p as [name [gen off succ]]. unfold checkpoint_fits.
  cbn [fst snd Wal.cp_generation Wal.cp_offset Wal.cp_successor].
  intros (Hn & Hu & Hw & Hg & Ho & Hs). destruct succ as [succ|]; [|done].
  destruct Hs as (Hl & Hz & Hne). eexists; split; [reflexivity|]. intros rest.
  cbn [fst snd Wal.cp_generation Wal.cp_offset Wal.cp_successor]. unfold read_checkpoint.
  assert (text name) by done. read_step. unfold Wal.wal_name_ok in Hw. apply andb_true_iff in Hw as [Hw1 Hw2].
  apply negb_true_iff in Hw1. rewrite Hw1, Hw2. cbn [negb orb].
  rewrite (bind_ok _ _ _ _ _ (read_exact_app _ gen _ Hg)). read_step.
  rewrite (bind_ok _ _ _ (Some succ) rest).
  - unfold mret, reader_ret. by rewrite Nat2Z.id.
  - unfold read_successor. rewrite (bind_ok _ _ _ _ _ (read_exact_app _ succ _ Hl)).
    rewrite (proj2 (bytes_eqb_neq succ _)) by done. by rewrite (proj2 (bytes_eqb_neq succ _)).
Qed.

Lemma checkpoints_loop_ok cps :
  Forall checkpoint_fits cps -> NoDup cps.*1 ->
  exists b, save_checkpoints cps = IoOk b /\
    forall (m : gmap bytes Wal.WalCheckpoint) rest, (forall k, k ∈ cps.*1 -> m !! k = None) ->
    checkpoints_loop (length cps) true m (b ++ rest) = IoOk (list_to_map cps ∪ m, rest).
Proof.
  induction 1 as [|p cps Hp _ IH]; intros Hnd.
  - exists []. split; [done|]. intros m rest _. cbn [length checkpoints_loop app].
    unfold mret, reader_ret. cbn [list_to_map foldr]. by rewrite (left_id_L ∅ (∪)).
  - apply NoDup_cons in Hnd as [Hni Hnd]. destruct (snap_rt_checkpoint p Hp) as (b & Hb & Hr).
    destruct (IH Hnd) as (b' & Hb' & Hl). cbn [save_checkpoints]. rewrite Hb. cbn [mbind io_bind].
    rewrite Hb'. eexists; split; [reflexivity|]. intros m rest Hm.
    rewrite <-(assoc_L (++)). cbn [length checkpoints_loop].
    rewrite (bind_ok _ _ _ _ _ (Hr (b' ++ rest))).
    rewrite bool_decide_eq_false_2.
    + rewrite Hl. * f_equal. f_equal. destruct p as [k v]. cbn [list_to_map foldr uncurry fst snd].
        rewrite <-insert_union_l. apply map_eq. intros k'.
        destruct (decide (k' = k)) as [->|]. { rewrite lookup_insert_eq, lookup_union_r; [by rewrite lookup_insert_eq|].
          by apply not_elem_of_list_to_map_1. }
        rewrite lookup_insert_ne by done. rewrite !lookup_union, lookup_insert_ne by done. done.
      * intros k Hk. rewrite lookup_insert_ne; [apply Hm; by right|].
        intros <-. by apply Hni.
    + rewrite Hm; [by intros []|]. cbn [fmap list_fmap]. by left.
Qed.

Lemma read_checkpoints_ok cps :
  checkpoints_fit cps ->
  exists b, save_checkpoints cps = IoOk b /\
    forall rest, read_wal_checkpoints true (write_u32 (zlen cps) ++ b ++ rest) =
      IoOk (list_to_map cps, rest).
Proof.
  intros (Hn & Hf & Hnd & Hg). destruct (checkpoints_loop_ok cps Hf Hnd) as (b & Hb & Hl).
  exists b. split; [done|]. intros rest. unfold read_wal_checkpoints, MAX_WAL_CHECKPOINTS in *.
  assert (u32_ok (zlen cps)) by (apply len_u32_ok; unfold u32_mod; lia). read_step.
  destruct (Z.gtb_spec (zlen cps) 1024); [lia|]. unfold zlen at 1. rewrite Nat2Z.id.
  rewrite (bind_ok _ _ _ _ _ (Hl ∅ rest ltac:(done))). rewrite (right_id_L ∅ (∪)).
  rewrite bool_decide_eq_false_2; [done|]. intros E. by apply not_elem_of_list_to_map_2 in E.
Qed.

(** ** Lemmas: the file *)

(** SHA-256 gives thirty-two bytes. *)
Hypothesis digest_length : forall b, length (sha256 b) = SNAPSHOT_DIGEST_LEN.

Definition file_of (body : bytes) : bytes :=
  HEADER_V6 ++ write_u64 (zlen body) ++ sha256 body ++ body.

Definition body_fits (body : bytes) : Prop := body_start + zlen body < u64_mod.

Lemma read_body_ok body :
  body_fits body -> read_body sha256 (write_u64 (zlen body) ++ sha256 body ++ body) = IoOk body.
Proof.
  intros Hb. unfold body_fits, body_start in Hb. pose proof (zlen_nonneg body) as Hn.
  assert (u64_ok (zlen body)) as Hu by (unfold u64_ok; lia).
  unfold read_body. rewrite (snap_rt_u64 _ _ Hu). cbn [mbind io_bind].
  rewrite (read_exact_app _ (sha256 body) body (digest_length _)). cbn [mbind io_bind].
  unfold verify_snapshot_body, body_start.
  destruct (Z.gtb_spec (4 + 8 + Z.of_nat SNAPSHOT_DIGEST_LEN + zlen body) (u64_mod - 1)); [lia|].
  rewrite Z.eqb_refl. cbn [negb]. rewrite bytes_eqb_refl. cbn [negb mbind io_bind].
  unfold zlen. rewrite Nat2Z.id. by rewrite firstn_all.
Qed.

Lemma digest_writer_ok body : body_fits body -> digest_writer sha256 body = IoOk (zlen body, sha256 body).
Proof.
  unfold body_fits, body_start, digest_writer. intros Hb.
  destruct (Z.gtb_spec (zlen body) (u64_mod - 1)); [lia|done].
Qed.

Lemma save_file cps entries saved :
  checkpoints_fit cps -> Forall entry_fits entries ->
  exists cb eb, save_checkpoints cps = IoOk cb /\
    save_binary_entries encrypt_vector saved 0 entries = IoOk eb /\
    (body_fits (write_u32 (zlen cps) ++ cb ++ eb) ->
     save_snapshot_binary sha256 encrypt_vector saved entries cps =
       IoOk (file_of (write_u32 (zlen cps) ++ cb ++ eb))).
Proof.
  intros Hc He. destruct (read_checkpoints_ok cps Hc) as (cb & Hcb & _).
  destruct (parse_saved false 0 saved saved saved entries He 0%nat) as (eb & Heb & _).
  exists cb, eb. split; [done|]. split; [done|]. intros Hb. unfold save_snapshot_binary.
  destruct Hc as [Hn _]. unfold MAX_WAL_CHECKPOINTS in Hn.
  destruct (Z.gtb_spec (zlen cps) u32_max) as [H|_]; [unfold u32_max in H; lia|].
  rewrite (io_step _ _ _ Hcb), (io_step _ _ _ Heb). cbv beta zeta.
  by rewrite (io_step _ _ _ (digest_writer_ok _ Hb)).
Qed.

Lemma header_split h rest : length h = 4%nat -> read_exact 4 (h ++ rest) = IoOk (h, rest).
Proof. apply read_exact_app. Qed.

(** The saved size is within what a 64-bit length can hold. *)
Definition saves (cps : list (bytes * Wal.WalCheckpoint)) (entries : list DumpEntry)
    (saved : nat -> Z) : Prop :=
  forall cb eb, save_checkpoints cps = IoOk cb ->
    save_binary_entries encrypt_vector saved 0 entries = IoOk eb ->
    body_fits (write_u32 (zlen cps) ++ cb ++ eb).

Lemma load_file cps entries saved :
  checkpoints_fit cps -> Forall entry_fits entries -> saves cps entries saved ->
  exists file, save_snapshot_binary sha256 encrypt_vector saved entries cps = IoOk file /\
    forall sentinel epoch clock parse_f64 preserve l,
    load_from_reader sha256 hll_count decrypt_vector sentinel epoch clock parse_f64 preserve file l =
      let '(n, s) := load_saved preserve sentinel saved epoch clock 0 0 entries (l_store l) in
      (IoOk n, mkLoading s (list_to_map cps)).
Proof.
  intros Hc He Hs. destruct (save_file cps entries saved Hc He) as (cb & eb & Hcb & Heb & Hf).
  exists (file_of (write_u32 (zlen cps) ++ cb ++ eb)).
  split; [by apply Hf, Hs|]. intros sentinel epoch clock parse_f64 preserve l.
  unfold load_from_reader, file_of. rewrite header_split by done.
  rewrite bytes_eqb_refl. rewrite (read_body_ok _ (Hs _ _ Hcb Heb)). cbn [mbind io_bind].
  destruct (read_checkpoints_ok cps Hc) as (cb' & Hcb' & Hr). rewrite Hcb in Hcb'. simplify_eq.
  rewrite Hr. unfold load_after, load_binary, parse_binary.
  destruct (parse_saved preserve sentinel saved epoch clock entries He 0%nat) as (eb' & Heb' & Hl).
  rewrite Heb in Heb'. simplify_eq. rewrite Hl by done.
  by destruct (load_saved _ _ _ _ _ _ _ _ _) as [n s].
Qed.

(** ** Lemmas: what loading leaves in the store *)

Lemma lru_load_entry c key v ttl s : lru_clock (load_entry c key v ttl s) = lru_clock s.
Proof.
  unfold load_entry. destruct (load_value c v), (bool_decide _); cbn; try done;
    unfold insert_vector_indexes; by destruct (parse_table_vector_key key) as [[[??]?]|].
Qed.

Lemma nonempty_load_entry c key v ttl s : nonempty s -> nonempty (load_entry c key v ttl s).
Proof.
  intros Hn. unfold load_entry. destruct (load_value c v), (bool_decide _); cbn;
    unfold insert_vector_indexes; try (destruct (parse_table_vector_key key) as [[[??]?]|]);
    unfold nonempty in *; cbn; by rewrite ?length_alter.
Qed.

(** The entry a snapshot gives back for a value and its remaining milliseconds: saved at wall clock
    [saved], loaded at wall clock [epoch] and monotonic clock [c]. *)
Definition restored (preserve_expired : bool) (sentinel saved epoch c lru : Z) (v : DumpValue) (ttl : Z)
    : option Entry :=
  if ttl <=? 0 then Some (mkEntry (load_value c (kept_value hll_count v)) None lru)
  else if saved + ttl <=? epoch then
    if preserve_expired then Some (mkEntry (load_value c (kept_value hll_count v)) (Some sentinel) lru)
    else None
  else Some (mkEntry (load_value c (kept_value hll_count v)) (Some (c + (saved + ttl - epoch) * 1000000)) lru).

(** The clocks are within range: no sum of milliseconds passes [i64::MAX]. *)
Definition in_range (saved epoch ttl : Z) : Prop :=
  0 <= saved /\ 0 <= epoch <= i64_max /\ saved + Z.max 0 ttl <= i64_max.

Lemma read_saved_ttl saved epoch ttl :
  in_range saved epoch ttl ->
  read_ttl true epoch (save_deadline saved ttl) =
    if ttl <=? 0 then (None, false)
    else if saved + ttl <=? epoch then (None, true)
    else (Some ((saved + ttl - epoch) * 1000000), false).
Proof.
  unfold in_range, read_ttl, save_deadline, i64_max. intros (Hs & He & Ht).
  destruct (Z.leb_spec ttl 0) as [H0|H0], (Z.gtb_spec ttl 0) as [H1|H1]; try lia; [done|].
  rewrite Z.min_l by (unfold u64_mod; lia).
  rewrite !as_i64_small by (unfold i64_min, i64_max; lia).
  destruct (Z.leb_spec (saved + ttl) 0); [lia|].
  rewrite Z.min_r by (unfold i64_max; lia). rewrite Z.max_r by (unfold i64_min; lia).
  destruct (Z.leb_spec (saved + ttl) epoch), (Z.leb_spec (saved + ttl - epoch) 0); try lia; done.
Qed.

Lemma apply_entry_ok preserve sentinel saved epoch c key ttl v s :
  nonempty s -> find s key = None -> in_range saved epoch ttl ->
  let s' := (apply_entry true preserve true sentinel epoch c key (save_deadline saved ttl)
               (kept_value hll_count v) s).2 in
  nonempty s' /\ lru_clock s' = lru_clock s /\
  forall k, find s' k =
    if decide (k = key) then restored preserve sentinel saved epoch c (lru_clock s) v ttl else find s k.
Proof.
  intros Hn Hf Hr. unfold apply_entry, restored. rewrite (read_saved_ttl _ _ _ Hr).
  destruct (ttl <=? 0).
  { split; [by apply nonempty_load_entry|]. split; [apply lru_load_entry|]. intros k.
    by apply find_load_entry. }
  destruct (saved + ttl <=? epoch); cbn [negb andb].
  - destruct preserve; cbn [snd].
    + unfold stage_expired_recovery_entry. rewrite (find_load_entry _ key) by done.
      rewrite decide_True by done. cbn [value e_lru_clock].
      pose proof (nonempty_load_entry c key (kept_value hll_count v) None s Hn) as Hn'.
      split; [by apply nonempty_put_data|]. split; [by apply lru_load_entry|]. intros k.
      rewrite find_put_data by done. destruct (decide (k = key)); [done|].
      rewrite find_load_entry by done. by rewrite decide_False.
    + split; [done|]. split; [done|]. intros k. by destruct (decide (k = key)) as [->|].
  - split; [by apply nonempty_load_entry|]. split; [apply lru_load_entry|]. intros k. cbn [snd].
    by apply find_load_entry.
Qed.

Definition clocks_in_range (saved epoch : nat -> Z) (entries : list DumpEntry) : Prop :=
  forall i e, e ∈ entries -> in_range (saved i) (epoch i) (d_ttl_ms e).

Lemma load_saved_ok preserve sentinel saved epoch c entries :
  NoDup (d_key <$> entries) -> clocks_in_range saved epoch entries -> forall j count s,
  nonempty s -> (forall k, k ∈ d_key <$> entries -> find s k = None) ->
  let s' := (load_saved preserve sentinel saved epoch c j count entries s).2 in
  (forall i e, entries !! i = Some e ->
     find s' (d_key e) = restored preserve sentinel (saved (j + i)%nat) (epoch (j + i)%nat) (c (j + i)%nat)
                           (lru_clock s) (d_value e) (d_ttl_ms e)) /\
  (forall k, k ∉ d_key <$> entries -> find s' k = find s k).
Proof.
  induction entries as [|e entries IH]; intros Hnd Hcl j count s Hn Hf; [done|].
  cbn [fmap list_fmap] in Hnd, Hf. apply NoDup_cons in Hnd as [Hni Hnd]. cbn [load_saved].
  pose proof (apply_entry_ok preserve sentinel (saved j) (epoch j) (c j) (d_key e) (d_ttl_ms e)
    (d_value e) s Hn ltac:(apply Hf; by left) ltac:(apply Hcl; by left)) as Ha.
  destruct (apply_entry _ _ _ _ _ _ _ _ _ _) as [n s1]. cbn [snd] in Ha.
  destruct Ha as (Hn1 & Hl1 & Hf1).
  destruct (IH Hnd ltac:(intros i x Hx; apply Hcl; by right) (S j) (count + n) s1 Hn1) as [H1 H2].
  { intros k Hk. rewrite Hf1, decide_False by (by intros ->). apply Hf. by right. }
  split.
  - intros [|i] x Hx; cbn in Hx.
    + injection Hx as <-. rewrite H2, Hf1, decide_True by done. by rewrite Nat.add_0_r.
    + rewrite (H1 i x Hx), Hl1. by replace (S j + i)%nat with (j + S i)%nat by lia.
  - intros k Hk. cbn [fmap list_fmap] in Hk. apply not_elem_of_cons in Hk as [Hk1 Hk2].
    by rewrite H2, Hf1, decide_False.
Qed.

(** ** Lemmas: what a dump holds *)

Lemma fmap_concat {A B} (f : A -> B) (ls : list (list A)) :
  (f <$> concat ls : list B) = concat ((fun l : list A => (f <$> l : list B)) <$> ls).
Proof. induction ls as [|l ls IH]; [done|]. cbn [concat]. rewrite fmap_app, IH. done. Qed.

Lemma NoDup_concat {A} (ls : list (list A)) :
  (forall i l, ls !! i = Some l -> NoDup l) ->
  (forall i j l l' x, ls !! i = Some l -> ls !! j = Some l' -> x ∈ l -> x ∈ l' -> i = j) ->
  NoDup (concat ls).
Proof.
  induction ls as [|l ls IH]; intros Hl Hd; [apply NoDup_nil_2|]. cbn [concat]. apply NoDup_app.
  split; [by apply (Hl 0%nat)|]. split.
  - intros x Hx Hin. apply Keyspace.Keyspace.elem_concat in Hin as (l' & Hx' & Hl').
    apply list_elem_of_lookup in Hl' as [j Hj]. by specialize (Hd 0%nat (S j) l l' x eq_refl Hj Hx Hx').
  - apply IH; [intros i l' Hi; by apply (Hl (S i))|].
    intros i j l1 l2 x Hi Hj H1 H2. by specialize (Hd (S i) (S j) l1 l2 x Hi Hj H1 H2); injection Hd.
Qed.

(** What the cold tier tells of an entry: [-1] when it does not expire. *)
Definition cold_remaining (c : Disk.cold) (now : Z) : Z :=
  if Disk.c_ttl c <=? 0 then -1
  else Z.max 0 (Disk.c_ttl c - Z.max 0 (now - Disk.c_created c) / 1000000).

Definition dump_cold (now : Z) (m : gmap bytes Disk.cold) (e : DumpEntry) : Prop :=
  exists c, m !! d_key e = Some c /\ Disk.cold_expired c now = false /\
    e = mkDumpEntry (d_key e) (Disk.c_value c) (cold_remaining c now).

Lemma dump_keys_ok now keys d m :
  NoDup keys -> Disk.refines hll_count d m ->
  exists entries d', Disk.dump_keys hll_count keys now d = (IoOk entries, d') /\
    NoDup (d_key <$> entries) /\ forall e, e ∈ entries <-> d_key e ∈ keys /\ dump_cold now m e.
Proof using hll_count.
  clear seal_opens digest_length sha256 encrypt_vector decrypt_vector.
  intros Hnd. revert d m. induction Hnd as [|key keys Hni Hnd IH]; intros d m Hr.
  { exists [], d. split; [done|]. split; [apply NoDup_nil_2|]. intros e. split; [by intros ?%not_elem_of_nil|by intros [?%not_elem_of_nil _]]. }
  cbn [Disk.dump_keys]. pose proof (Disk.get_refines hll_count d m key now Hr) as Hg.
  destruct (m !! key) as [c|] eqn:Em; [destruct (Disk.cold_expired c now) eqn:Ee|].
  - destruct Hg as (d1 & -> & Hr1). destruct (IH d1 _ Hr1) as (es & d' & -> & Hes & He).
    exists es, d'. split; [done|]. split; [done|]. intros e. rewrite He. unfold dump_cold.
    split.
    + intros (Hk & c' & Hc & H). rewrite lookup_delete_ne in Hc by (intros E; apply Hni; by rewrite E). set_solver.
    + intros (Hk & c' & Hc & Hx & H). destruct (decide (d_key e = key)) as [E|Hne].
      { rewrite E, Em in Hc. injection Hc as <-. by rewrite Ee in Hx. }
      rewrite lookup_delete_ne by done. set_solver.
  - rewrite Hg. unfold Disk.cold_get. pose proof (Disk.refines_lookup _ _ _ key Hr) as Hl. rewrite Em in Hl.
    destruct (Disk.index d !! key) as [de|]; [|done]. destruct Hl as (e0 & _ & _ & Ht & Hcr).
    destruct (IH d m Hr) as (es & d' & -> & Hes & He). eexists _, d'. split; [reflexivity|].
    assert (Disk.remaining_ttl_ms de now = cold_remaining c now) as Erem.
    { unfold Disk.remaining_ttl_ms, cold_remaining, Disk.elapsed_ms. rewrite Ht, Hcr.
      destruct (Disk.ttl_ms de <=? 0); [done|].
      match goal with |- context [if ?x <=? 0 then _ else _] => destruct (Z.leb_spec x 0) end; lia. }
    rewrite Erem. split.
    + cbn [fmap list_fmap]. apply NoDup_cons. split; [|done].
      intros (e & Hk & Hin)%list_elem_of_fmap. apply He in Hin as [Hin _]. cbn [d_key] in Hk.
      by rewrite <-Hk in Hin.
    + intros e. rewrite elem_of_cons, He. unfold dump_cold. split.
      * intros [->|[Hk Hc]]; [|by split; [right|]]. cbn [d_key]. split; [by left|]. by exists c.
      * intros [Hk (c' & Hc & Hx & He')]. apply elem_of_cons in Hk as [Hk|Hk].
        { left. rewrite Hk, Em in Hc. injection Hc as <-. by rewrite <-Hk. }
        right. split; [done|]. by exists c'.
  - rewrite Hg. destruct (IH d m Hr) as (es & d' & -> & Hes & He). exists es, d'. split; [done|].
    split; [done|]. intros e. rewrite He. split; intros [Hk Hc]; (split; [|done]); [by right|].
    apply elem_of_cons in Hk as [Hk|Hk]; [|done].
    destruct Hc as (c' & Hc & _). by rewrite Hk, Em in Hc.
Qed.

Lemma dump_disk_ok now d m :
  Disk.refines hll_count d m ->
  exists entries d', Disk.dump_all hll_count now d = (IoOk entries, d') /\
    NoDup (d_key <$> entries) /\ forall e, e ∈ entries <-> dump_cold now m e.
Proof using hll_count.
  clear seal_opens digest_length sha256 encrypt_vector decrypt_vector.
  intros Hr. destruct (dump_keys_ok now _ d m (NoDup_fst_map_to_list (Disk.index d)) Hr)
    as (es & d' & E & Hes & He).
  exists es, d'. split; [done|]. split; [done|]. intros e. rewrite He. split; [by intros [_ H]|].
  intros Hc. split; [|done]. destruct Hc as (c & Hc & _).
  pose proof (Disk.refines_lookup _ _ _ (d_key e) Hr) as Hl. rewrite Hc in Hl.
  destruct (Disk.index d !! d_key e) as [de|] eqn:Ei; [|done].
  apply list_elem_of_fmap. exists (d_key e, de). split; [done|]. by apply elem_of_map_to_list.
Qed.

(** What the snapshot captures of a key at time [now]: the value it shows and its remaining
    milliseconds, from memory or from the cold tier [ms]. *)
Definition captured (now : Z) (s : Store) (ms : list (gmap bytes Disk.cold)) (k : bytes)
    : option (DumpValue * Z) :=
  match live s now k with
  | Some e => Some (store_value_to_dump_value (value e),
                    match expires_at e with Some exp => millis_until exp now | None => 0 end)
  | None =>
      match Eviction.Eviction.cold_map ms k !! k with
      | Some c => if Disk.cold_expired c now then None else Some (Disk.c_value c, cold_remaining c now)
      | None => None
      end
  end.

(** The cold tier holds the maps [ms] (none without tiering), every key in the map its hash selects,
    and no key that is in memory. *)
Definition tiers (s : Store) (ms : list (gmap bytes Disk.cold)) : Prop :=
  match disk_shards s with
  | None => ms = []
  | Some _ =>
      Eviction.Eviction.cold_tier hll_count s ms /\
      (forall j m k, ms !! j = Some m -> is_Some (m !! k) -> j = Z.to_nat (fx_hash k mod zlen ms)) /\
      (forall k e, find s k = Some e -> Eviction.Eviction.cold_map ms k !! k = None)
  end.

Definition text_keys (s : Store) : Prop := forall k e, find s k = Some e -> is_utf8 k = true.

Lemma find_shard s i sh k :
  placed s -> shards s !! i = Some sh -> is_Some (data sh !! k) -> find s k = data sh !! k.
Proof.
  intros Hp Hi Hk. unfold find. rewrite (Hp i sh k Hi Hk). unfold shard_at. by rewrite Hi.
Qed.

Lemma find_in_shard s k e :
  find s k = Some e -> exists i sh, shards s !! i = Some sh /\ data sh !! k = Some e.
Proof.
  unfold find, shard_at. destruct (shards s !! shard_index s k) as [sh|] eqn:E; [by eauto|done].
Qed.

Lemma dump_hot_key now s k e d :
  text_keys s -> find s k = Some e -> dump_hot now (k, e) = Some d ->
  d_key d = k /\ live s now k = Some e /\
  d = mkDumpEntry k (store_value_to_dump_value (value e))
        (match expires_at e with Some exp => millis_until exp now | None => 0 end).
Proof.
  intros Hu Hf Hd. cbn [dump_hot] in Hd. unfold live. rewrite Hf.
  destruct (is_expired_at now e); [done|]. injection Hd as <-.
  unfold entry_to_dump. rewrite (key_string_utf8 k) by (by eapply Hu). done.
Qed.

Lemma dump_shard_elem now s i sh d :
  text_keys s -> placed s -> shards s !! i = Some sh ->
  d ∈ omap (dump_hot now) (map_to_list (data sh)) ->
  exists e, data sh !! d_key d = Some e /\ live s now (d_key d) = Some e /\
    d = mkDumpEntry (d_key d) (store_value_to_dump_value (value e))
          (match expires_at e with Some exp => millis_until exp now | None => 0 end).
Proof.
  intros Hu Hp Hi Hd. apply list_elem_of_omap in Hd as ([k e] & Hk & Hd).
  apply elem_of_map_to_list in Hk.
  assert (find s k = Some e) as Hf by (rewrite (find_shard s i sh k Hp Hi); [done|by eexists]).
  destruct (dump_hot_key now s k e d Hu Hf Hd) as (-> & Hl & ->). by exists e.
Qed.

Lemma dump_shards_elem now s d :
  text_keys s -> placed s ->
  d ∈ dump_shards now s <->
  exists e, live s now (d_key d) = Some e /\
    d = mkDumpEntry (d_key d) (store_value_to_dump_value (value e))
          (match expires_at e with Some exp => millis_until exp now | None => 0 end).
Proof.
  intros Hu Hp. unfold dump_shards. rewrite Keyspace.Keyspace.elem_concat. split.
  - intros (l & Hd & Hl). apply list_elem_of_fmap in Hl as (sh & -> & Hsh).
    apply list_elem_of_lookup in Hsh as [i Hi].
    destruct (dump_shard_elem now s i sh d Hu Hp Hi Hd) as (e & _ & Hl & Hd'). by exists e.
  - intros (e & Hl & ->). cbn [d_key] in Hl. assert (find s (d_key d) = Some e) as Hf.
    { unfold live in Hl. destruct (find s (d_key d)) as [e'|]; [|done]. by destruct (is_expired_at now e'). }
    destruct (find_in_shard _ _ _ Hf) as (i & sh & Hi & Hk).
    exists (omap (dump_hot now) (map_to_list (data sh))). split.
    + apply list_elem_of_omap. exists (d_key d, e). split; [by apply elem_of_map_to_list|].
      cbn [dump_hot]. unfold live in Hl. rewrite Hf in Hl. destruct (is_expired_at now e); [done|].
      unfold entry_to_dump. by rewrite (key_string_utf8 (d_key d)) by (by eapply Hu).
    + apply list_elem_of_fmap. exists sh. split; [done|]. by apply list_elem_of_lookup_2 with i.
Qed.

Lemma dump_shard_nodup now (l : list (bytes * Entry)) :
  (forall k e, (k, e) ∈ l -> is_utf8 k = true) -> NoDup l.*1 ->
  NoDup (d_key <$> omap (dump_hot now) l).
Proof.
  intros Hu Hnd. induction l as [|[k e] l IH]; [apply NoDup_nil_2|].
  cbn [fmap list_fmap fst] in Hnd. apply NoDup_cons in Hnd as [Hni Hnd].
  assert (NoDup (d_key <$> omap (dump_hot now) l)) as IH'.
  { apply IH; [|done]. intros k' e' H. apply (Hu k' e'). by right. }
  cbn [omap list_omap dump_hot]. destruct (is_expired_at now e); [done|].
  cbn [fmap list_fmap d_key entry_to_dump]. rewrite (key_string_utf8 k) by (apply (Hu k e); by left).
  apply NoDup_cons. split; [|done]. intros (d & -> & Hd)%list_elem_of_fmap. apply Hni.
  apply list_elem_of_omap in Hd as ([k' e'] & Hin & Hd). cbn [dump_hot] in Hd.
  destruct (is_expired_at now e'); [done|]. injection Hd as <-. cbn [d_key entry_to_dump].
  rewrite (key_string_utf8 k') by (apply (Hu k' e'); by right).
  apply list_elem_of_fmap. by exists (k', e').
Qed.

Lemma dump_shards_nodup now s :
  text_keys s -> placed s -> NoDup (d_key <$> dump_shards now s).
Proof.
  intros Hu Hp. unfold dump_shards. rewrite fmap_concat, <-list_fmap_compose. apply NoDup_concat.
  - intros i l Hl. apply list_lookup_fmap_Some in Hl as (sh & -> & Hi). cbn [compose].
    apply dump_shard_nodup; [|apply NoDup_fst_map_to_list]. intros k e Hk%elem_of_map_to_list.
    apply (Hu k e). rewrite (find_shard s i sh k Hp Hi); [done|by eexists].
  - intros i j l l' k Hl Hl' Hk Hk'.
    apply list_lookup_fmap_Some in Hl as (sh & -> & Hi), Hl' as (sh' & -> & Hj). cbn [compose] in *.
    apply list_elem_of_fmap in Hk as (d & -> & Hd), Hk' as (d' & E & Hd').
    destruct (dump_shard_elem now s i sh d Hu Hp Hi Hd) as (e & He & _).
    destruct (dump_shard_elem now s j sh' d' Hu Hp Hj Hd') as (e' & He' & _).
    rewrite <-E in He'. rewrite <-(Hp i sh _ Hi ltac:(by eexists)). by apply (Hp j sh' _ Hj); eexists.
Qed.

Lemma dump_disks_ok now ds ms :
  Forall2 (Disk.refines hll_count) ds ms ->
  exists es ds', dump_disks hll_count now ds = (IoOk (concat es), ds') /\
    Forall2 (fun l m => NoDup (d_key <$> l) /\ forall e, e ∈ l <-> dump_cold now m e) es ms.
Proof using hll_count.
  clear seal_opens digest_length sha256 encrypt_vector decrypt_vector.
  induction 1 as [|d m ds ms Hr _ IH]; [by exists [], []|]. cbn [dump_disks].
  destruct (dump_disk_ok now d m Hr) as (l & d' & -> & Hn & Hl). destruct IH as (es & ds' & -> & Hes).
  exists (l :: es), (d' :: ds'). split; [done|]. by constructor.
Qed.

Lemma cold_map_at ms j m k :
  (forall j m k, ms !! j = Some m -> is_Some (m !! k) -> j = Z.to_nat (fx_hash k mod zlen ms)) ->
  ms !! j = Some m -> is_Some (m !! k) -> Eviction.Eviction.cold_map ms k = m.
Proof. intros Hp Hj Hk. unfold Eviction.Eviction.cold_map. by rewrite <-(Hp j m k Hj Hk), Hj. Qed.

(** A dump holds exactly what the keys show, once each. *)
Lemma dump_captures now s ms :
  placed s -> text_keys s -> tiers s ms ->
  exists entries s', dump_all_from_locked_shards hll_count now s = (IoOk entries, s') /\
    NoDup (d_key <$> entries) /\
    forall e, e ∈ entries <-> captured now s ms (d_key e) = Some (d_value e, d_ttl_ms e).
Proof using hll_count.
  clear seal_opens digest_length sha256 encrypt_vector decrypt_vector.
  intros Hp Hu Ht. unfold dump_all_from_locked_shards, tiers in *.
  pose proof (dump_shards_nodup now s Hu Hp) as Hnd.
  assert (forall e, e ∈ dump_shards now s <-> exists x, live s now (d_key e) = Some x /\
            captured now s ms (d_key e) = Some (d_value e, d_ttl_ms e)) as Hhot.
  { intros e. rewrite dump_shards_elem by done. unfold captured. split.
    - intros (x & Hx & ->). exists x. cbn [d_key d_value d_ttl_ms]. by rewrite Hx.
    - intros (x & Hx & He). exists x. split; [done|]. rewrite Hx in He. injection He as Hv Hm.
      destruct e as [k v t]. cbn [d_key d_value d_ttl_ms] in *. by rewrite Hv, Hm. }
  destruct (disk_shards s) as [ds|] eqn:Ed.
  - destruct Ht as ((ds' & Eds & Hne & Hr) & Hpl & Hdis). rewrite Ed in Eds. injection Eds as <-.
    destruct (dump_disks_ok now ds ms Hr) as (es & ds' & -> & Hes). eexists _, _. split; [reflexivity|].
    assert (forall e, e ∈ concat es <-> dump_cold now (Eviction.Eviction.cold_map ms (d_key e)) e) as Hcold.
    { intros e. rewrite Keyspace.Keyspace.elem_concat. split.
      - intros (l & He & [j Hj]%list_elem_of_lookup).
        destruct (Forall2_lookup_l _ _ _ _ _ Hes Hj) as (m & Hm & _ & Hl). apply Hl in He.
        pose proof He as (c & Hc & _). by rewrite (cold_map_at ms j m _ Hpl Hm ltac:(by eexists)).
      - intros He. pose proof He as (c & Hc & _). unfold Eviction.Eviction.cold_map in *.
        destruct (ms !! Z.to_nat (fx_hash (d_key e) mod zlen ms)) as [m|] eqn:Em; [|done].
        destruct (Forall2_lookup_r _ _ _ _ _ Hes Em) as (l & Hj & _ & Hl). exists l.
        split; [by apply Hl|]. by eapply list_elem_of_lookup_2. }
    split.
    + rewrite fmap_app. apply NoDup_app. split; [done|]. split.
      * intros k (e & -> & He)%list_elem_of_fmap (e' & E & He')%list_elem_of_fmap.
        apply Hhot in He as (x & Hx & _). apply Hcold in He' as (c & Hc & _). rewrite <-E in Hc.
        unfold live in Hx. destruct (find s (d_key e)) as [y|] eqn:Ey; [|done].
        by rewrite (Hdis _ _ Ey) in Hc.
      * rewrite fmap_concat. apply NoDup_concat.
        -- intros j l (l' & -> & Hj)%list_lookup_fmap_Some.
           by destruct (Forall2_lookup_l _ _ _ _ _ Hes Hj) as (m & _ & Hn & _).
        -- intros i j l l' k (l1 & -> & Hi)%list_lookup_fmap_Some (l2 & -> & Hj)%list_lookup_fmap_Some.
           intros (e & -> & He)%list_elem_of_fmap (e' & E & He')%list_elem_of_fmap.
           destruct (Forall2_lookup_l _ _ _ _ _ Hes Hi) as (m1 & Hm1 & _ & Hl1).
           destruct (Forall2_lookup_l _ _ _ _ _ Hes Hj) as (m2 & Hm2 & _ & Hl2).
           apply Hl1 in He as (c & Hc & _). apply Hl2 in He' as (c' & Hc' & _). rewrite <-E in Hc'.
           rewrite (Hpl i m1 _ Hm1 ltac:(by eexists)). by rewrite <-(Hpl j m2 _ Hm2 ltac:(by eexists)).
    + intros e. rewrite elem_of_app, Hhot, Hcold. unfold dump_cold, captured.
      destruct (live s now (d_key e)) as [x|] eqn:Ex.
      * assert (Eviction.Eviction.cold_map ms (d_key e) !! d_key e = None) as Hc.
        { unfold live in Ex. destruct (find s (d_key e)) as [y|] eqn:Ey; [|done]. by eapply Hdis. }
        rewrite Hc. split; [intros [(y & _ & H)|(c & ? & _)]; done|]. intros H. left. by exists x.
      * destruct (_ !! d_key e) as [c|]; [|split; [intros [(y & ? & _)|(c & ? & _)]; done|done]].
        split.
        -- intros [(y & ? & _)|(c' & [= <-] & Hx & He)]; [done|]. rewrite Hx. by rewrite He.
        -- destruct (Disk.cold_expired c now) eqn:Hx; [done|]. intros [= Hv Ht]. right. exists c.
           split; [done|]. split; [done|]. destruct e as [k v t]. cbn [d_key d_value d_ttl_ms] in *.
           by rewrite Hv, Ht.
  - subst ms. exists (dump_shards now s), s. split; [done|]. split; [done|]. intros e. rewrite Hhot.
    split; [by intros (x & _ & H)|]. intros H. unfold captured in *.
    destruct (live s now (d_key e)) as [x|] eqn:Ex; [by exists x|]. unfold Eviction.Eviction.cold_map in H.
    by rewrite lookup_nil in H.
Qed.

(** The store a snapshot of [s] loads into. *)
Definition restores (preserve_expired : bool) (sentinel : Z) (saved epoch c : nat -> Z)
    (now : Z) (s : Store) (ms : list (gmap bytes Disk.cold)) (s' : Store) : Prop :=
  forall k, exists i, find s' k =
    match captured now s ms k with
    | Some (v, t) => restored preserve_expired sentinel (saved i) (epoch i) (c i) 0 v t
    | None => None
    end.

Definition capture_fits (now : Z) (s : Store) (ms : list (gmap bytes Disk.cold)) : Prop :=
  forall k v t, captured now s ms k = Some (v, t) -> entry_fits (mkDumpEntry k v t).

Definition capture_in_range (saved epoch : nat -> Z) (now : Z) (s : Store)
    (ms : list (gmap bytes Disk.cold)) : Prop :=
  forall i k v t, captured now s ms k = Some (v, t) -> in_range (saved i) (epoch i) t.

Lemma find_new n k : find (new n) k = None.
Proof.
  unfold find, shard_at, new. cbn [shards].
  destruct (replicate n empty_shard !! _) as [sh|] eqn:E; [|done].
  apply lookup_replicate in E as [-> _]. done.
Qed.

Lemma load_restores preserve sentinel saved epoch c now s ms entries n :
  (0 < n)%nat -> NoDup (d_key <$> entries) ->
  (forall e, e ∈ entries <-> captured now s ms (d_key e) = Some (d_value e, d_ttl_ms e)) ->
  capture_in_range saved epoch now s ms ->
  restores preserve sentinel saved epoch c now s ms
    (load_saved preserve sentinel saved epoch c 0 0 entries (new n)).2.
Proof.
  intros Hn Hnd He Hr k.
  assert (nonempty (new n)) as Hne by (unfold nonempty, new; cbn; by rewrite length_replicate).
  assert (clocks_in_range saved epoch entries) as Hcl.
  { intros i e Hin. by eapply Hr, He. }
  destruct (load_saved_ok preserve sentinel saved epoch c entries Hnd Hcl 0%nat 0 (new n) Hne
    ltac:(intros; apply find_new)) as [H1 H2].
  destruct (captured now s ms k) as [[v t]|] eqn:Ec.
  - assert (mkDumpEntry k v t ∈ entries) as Hin by (by apply He).
    apply list_elem_of_lookup in Hin as [i Hi]. exists i.
    specialize (H1 i _ Hi). cbn [d_key d_value d_ttl_ms] in H1. by rewrite H1.
  - exists 0%nat. rewrite H2, find_new; [done|]. intros (e & -> & Hin)%list_elem_of_fmap.
    apply He in Hin. by rewrite Ec in Hin.
Qed.

Lemma captured_fit now s ms entries :
  (forall e, e ∈ entries <-> captured now s ms (d_key e) = Some (d_value e, d_ttl_ms e)) ->
  capture_fits now s ms -> Forall entry_fits entries.
Proof.
  intros He Hf. apply Forall_forall. intros e Hin. apply He, Hf in Hin. by destruct e.
Qed.

(** ** Lemmas: the end of recovery *)

Lemma find_del clock key s k :
  nonempty s -> find (Strings.Strings.del clock [key] s).2 k = if decide (k = key) then None else find s k.
Proof.
  intros Hn. unfold Strings.Strings.del. cbn [foldl Strings.Strings.del_one].
  assert (forall vs s0, find (foldl (fun s kd => remove_vector_indexes kd.1 kd.2 s) s0 vs) k = find s0 k) as Hv.
  { induction vs as [|kd vs IH]; intros s0; [done|]. cbn [foldl]. by rewrite IH, find_remove_vector. }
  rewrite find_bump. destruct (find s key) as [e|] eqn:E.
  - cbn [snd]. rewrite Hv, find_remove_accounted by (by apply nonempty_bump). by rewrite find_bump.
  - destruct (Store.disk_contains key clock (bump key s)); cbn [snd]; rewrite Hv;
      rewrite ?find_remove_from_disk, find_bump; by destruct (decide (k = key)) as [->|].
Qed.

Lemma nonempty_del clock key s : nonempty s -> nonempty (Strings.Strings.del clock [key] s).2.
Proof.
  intros Hn. unfold Strings.Strings.del. cbn [foldl Strings.Strings.del_one].
  assert (forall vs s0, nonempty s0 -> nonempty (foldl (fun s kd => remove_vector_indexes kd.1 kd.2 s) s0 vs)) as Hv.
  { induction vs as [|kd vs IH]; intros s0 H0; [done|]. cbn [foldl]. apply IH.
    unfold remove_vector_indexes. by destruct (parse_table_vector_key kd.1) as [[[??]?]|]. }
  destruct (find (bump key s) key) as [e|]; [|destruct (Store.disk_contains key clock (bump key s))];
    cbn [snd]; apply Hv; by rewrite ?nonempty_remove_accounted, ?nonempty_remove_from_disk, nonempty_bump.
Qed.

Lemma staged_elem sentinel s k :
  placed s -> k ∈ staged_keys sentinel s <-> exists e, find s k = Some e /\ expires_at e = Some sentinel.
Proof.
  intros Hp. unfold staged_keys. rewrite Keyspace.Keyspace.elem_concat. split.
  - intros (l & Hk & (sh & -> & [i Hi]%list_elem_of_lookup)%list_elem_of_fmap).
    apply list_elem_of_fmap in Hk as ([k' e] & -> & [He Hk]%list_elem_of_filter).
    apply elem_of_map_to_list in Hk. exists e. cbn [fst snd] in *. split; [|done].
    rewrite (find_shard s i sh k' Hp Hi); [done|by eexists].
  - intros (e & Hf & He). destruct (find_in_shard _ _ _ Hf) as (i & sh & Hi & Hk).
    exists (fst <$> filter (fun p => expires_at p.2 = Some sentinel) (map_to_list (data sh))). split.
    + apply list_elem_of_fmap. exists (k, e). split; [done|]. apply list_elem_of_filter.
      split; [done|]. by apply elem_of_map_to_list.
    + apply list_elem_of_fmap. exists sh. split; [done|]. by apply list_elem_of_lookup_2 with i.
Qed.

(** Exactly the staged entries are gone when recovery ends. *)
Lemma finish_recovery_ok clock sentinel s k :
  nonempty s -> placed s ->
  find (finish_recovery clock sentinel s) k =
    match find s k with
    | Some e => if decide (expires_at e = Some sentinel) then None else Some e
    | None => None
    end.
Proof.
  intros Hn Hp. unfold finish_recovery. pose proof (staged_elem sentinel s k Hp) as Hel.
  assert (forall ks s0, nonempty s0 ->
    find (foldl (fun s key => (Strings.Strings.del clock [key] s).2) s0 ks) k =
      if decide (k ∈ ks) then None else find s0 k) as Hfold.
  { induction ks as [|key ks IH]; intros s0 H0.
    - rewrite decide_False by apply not_elem_of_nil. done.
    - cbn [foldl]. rewrite IH by (by apply nonempty_del). rewrite find_del by done.
      destruct (decide (k ∈ ks)), (decide (k = key)), (decide (k ∈ key :: ks)); set_solver. }
  rewrite Hfold by done. destruct (decide (k ∈ staged_keys sentinel s)) as [H|H].
  - apply Hel in H as (e & -> & He). by rewrite decide_True.
  - destruct (find s k) as [e|] eqn:E; [|done]. rewrite decide_False; [done|].
    intros He. apply H, Hel. by exists e.
Qed.

(** ** Lemmas: damage *)

Lemma length_file body : length (file_of body) = (44 + length body)%nat.
Proof.
  unfold file_of, write_u64. rewrite !length_app, length_le_bytes, digest_length. cbn. lia.
Qed.

Lemma take_header n body :
  (4 <= n)%nat ->
  take n (file_of body) = HEADER_V6 ++ take (n - 4) (write_u64 (zlen body) ++ sha256 body ++ body).
Proof. intros Hn. unfold file_of. rewrite take_app, take_ge by (cbn; lia). done. Qed.

Lemma read_exact_length n input b rest :
  read_exact n input = IoOk (b, rest) -> length rest = (length input - n)%nat /\ input = b ++ rest.
Proof.
  unfold read_exact. destruct (bool_decide _); [done|]. intros [= <- <-].
  rewrite length_drop. by rewrite take_drop.
Qed.

(** A body that is not as long as the file says is refused. *)
Lemma read_body_length input b d rest :
  input = b ++ d ++ rest -> length b = 8%nat -> length d = 32%nat -> le_decode b ≠ zlen rest ->
  exists e, read_body sha256 input = IoErr e.
Proof.
  intros -> Hb Hd Hne. unfold read_body, read_u64.
  rewrite (bind_ok _ _ _ _ _ (read_exact_app 8 b (d ++ rest) Hb)). unfold mret, reader_ret.
  cbn [mbind io_bind]. rewrite (read_exact_app _ d rest) by done. cbn [mbind io_bind].
  unfold verify_snapshot_body. destruct (_ >? _); [by eexists|].
  rewrite (proj2 (Z.eqb_neq _ _) Hne). by eexists.
Qed.

Lemma read_body_short input :
  (length input < 40)%nat -> exists e, read_body sha256 input = IoErr e.
Proof.
  intros Hl. unfold read_body. destruct (read_u64 input) as [[len r]|e] eqn:E; [|by eexists].
  cbn [mbind io_bind]. unfold read_u64, mbind, reader_bind, mret, reader_ret in E.
  destruct (read_exact 8 input) as [[b r']|e] eqn:E8; [|done]. injection E as _ <-.
  apply read_exact_length in E8 as [E8 Ei]. rewrite (read_exact_short 32); [by eexists|].
  assert (length b <= length input)%nat by (rewrite Ei, length_app; lia).
  unfold read_exact in *. lia.
Qed.

Lemma load_v6 sentinel epoch c pf preserve rest l e :
  read_body sha256 rest = IoErr e ->
  load_from_reader sha256 hll_count decrypt_vector sentinel epoch c pf preserve (HEADER_V6 ++ rest) l =
    (IoErr e, l).
Proof.
  intros E. unfold load_from_reader. rewrite header_split by done. rewrite bytes_eqb_refl, E. done.
Qed.

(** ** Lemmas: validation *)

Lemma apply_count absolute sentinel epoch c key ttl v s :
  let '(n, _) := apply_entry absolute false true sentinel epoch c key ttl v s in 0 <= n <= 1.
Proof.
  unfold apply_entry. destruct (read_ttl absolute epoch ttl) as [d [|]]; cbn; lia.
Qed.

(** A stream that parses loads, and loads no more entries than it has. *)
Lemma validated_entries fuel groups absolute sentinel epoch c i s0 s0' :
  forall i0 count count' input s n,
  parse_loop hll_count decrypt_vector fuel groups absolute false false sentinel epoch c i0 count input s0
    = (IoOk n, s0') -> count' <= count -> i0 = i ->
  exists m s', parse_loop hll_count decrypt_vector fuel groups absolute false true sentinel epoch c i0 count'
    input s = (IoOk m, s') /\ m <= n /\ s0' = s0.
Proof.
  revert i. induction fuel as [|fuel IH]; intros i i0 count count' input s n; destruct input as [|type input];
    cbn [parse_loop]; [intros [= <- <-]; eauto|done|intros [= <- <-]; eauto|].
  intros Hv Hc ->. destruct (read_entry _ _ _ _ _) as [[[[key ttl] v] rest]|e]; [|done].
  pose proof (apply_count absolute sentinel (epoch i) (c i) key ttl v s) as Ha.
  destruct (apply_entry absolute false true _ _ _ _ _ _ s) as [k s1].
  assert (apply_entry absolute false false sentinel (epoch i) (c i) key ttl v s0 = (1, s0)) as E.
  { unfold apply_entry. by destruct (read_ttl absolute (epoch i) ttl). }
  rewrite E in Hv. eapply (IH (S i)); [exact Hv|lia|done].
Qed.

Lemma validate_loads groups absolute sentinel epoch c input s0 s n :
  validate_entries hll_count decrypt_vector sentinel epoch c groups absolute input s0 = IoOk n ->
  exists m s', load_binary hll_count decrypt_vector sentinel epoch c groups absolute false input s
    = (IoOk m, s') /\ m <= n.
Proof.
  unfold validate_entries, load_binary, parse_binary. destruct (parse_loop _ _ _ _ _ _ _ _ _ _ _ _ _ _) as [r s0'] eqn:E.
  cbn [fst]. intros ->. edestruct (validated_entries (length input) groups absolute sentinel epoch c 0%nat s0 s0' 0%nat 0 0 input s n)
    as (m & s' & E' & Hm & _); [exact E|lia|done|]. by exists m, s'.
Qed.

Lemma io_bind_inv {A B} (m : io A) (f : A -> io B) b :
  (m ≫= f) = IoOk b -> exists a, m = IoOk a /\ f a = IoOk b.
Proof. destruct m as [a|e]; [intros H; by exists a|done]. Qed.

Lemma validate_load_after (cps : io (gmap bytes Wal.WalCheckpoint * bytes)) sentinel epoch c s0 l n m rest :
  cps = IoOk (m, rest) ->
  validate_entries hll_count decrypt_vector sentinel epoch c true true rest s0 = IoOk n ->
  exists k l', load_after hll_count decrypt_vector sentinel epoch c cps false l = (IoOk k, l') /\ k <= n.
Proof.
  intros -> Hv. destruct (validate_loads _ _ _ _ _ _ _ (l_store l) _ Hv) as (k & s' & E & Hk).
  unfold load_after. rewrite E. eauto.
Qed.

Lemma validate_load_unbound groups absolute sentinel epoch c rest s0 l n :
  validate_entries hll_count decrypt_vector sentinel epoch c groups absolute rest s0 = IoOk n ->
  exists k l', load_unbound hll_count decrypt_vector sentinel epoch c groups absolute false rest l
    = (IoOk k, l') /\ k <= n.
Proof.
  intros Hv. destruct (validate_loads _ _ _ _ _ _ _ (l_store l) _ Hv) as (k & s' & E & Hk).
  unfold load_unbound. rewrite E. eauto.
Qed.

Lemma snapshot_format_inv input format rest :
  snapshot_format input = IoOk (format, rest) ->
  read_exact 4 input = IoOk (bs "LUX" ++ [format_version format], rest).
Proof.
  unfold snapshot_format. destruct (read_exact 4 input) as [[h r]|e]; [|done]. intros H.
  repeat match type of H with
  | (if bytes_eqb ?a ?b then _ else _) = _ => destruct (bytes_eqb a b) eqn:?E
  end; try done; injection H as <- <-;
  match goal with E : bytes_eqb h _ = true |- _ => apply bytes_eqb_eq in E; by rewrite E end.
Qed.

Lemma validated_file sentinel epoch c pf input s0 l format n :
  validate_restore_reader sha256 hll_count decrypt_vector sentinel epoch c input s0 = IoOk (format, n) ->
  exists k l', load_from_reader sha256 hll_count decrypt_vector sentinel epoch c pf false input l
    = (IoOk k, l') /\ k <= n.
Proof.
  unfold validate_restore_reader. intros ([f rest] & Hf & H)%io_bind_inv.
  apply io_bind_inv in H as (n' & H & [= <- <-]). apply snapshot_format_inv in Hf.
  unfold load_from_reader. rewrite Hf. destruct f;
    repeat match goal with |- context [bytes_eqb (bs "LUX" ++ ?a) ?b] =>
      let v := eval vm_compute in (bytes_eqb (bs "LUX" ++ a) b) in
      change (bytes_eqb (bs "LUX" ++ a) b) with v; cbn match end.
  - by eapply validate_load_unbound.
  - by eapply validate_load_unbound.
  - by eapply validate_load_unbound.
  - apply io_bind_inv in H as ([m r] & Hm & H). by eapply validate_load_after.
  - apply io_bind_inv in H as (body & Hb & H). apply io_bind_inv in H as ([m r] & Hm & H).
    eapply validate_load_after; [rewrite Hb; exact Hm|exact H].
  - apply io_bind_inv in H as (body & Hb & H). apply io_bind_inv in H as ([m r] & Hm & H).
    eapply validate_load_after; [rewrite Hb; exact Hm|exact H].
Qed.

(** ** Lemmas: single-key blobs *)

Lemma encode_blob epoch e :
  entry_fits e ->
  exists b, save_binary_entries encrypt_vector epoch 0 [e] = IoOk (save_type_byte (d_value e) :: b) /\
    let payload := HEADER ++ save_type_byte (d_value e) :: b in
    encode_dump_blob sha256 encrypt_vector epoch e =
      IoOk (DUMP_HEADER ++ write_u64 (zlen payload) ++ sha256 payload ++ payload) /\
    forall rest, read_entry hll_count decrypt_vector true (save_type_byte (d_value e)) (b ++ rest) =
      IoOk ((d_key e, save_deadline (epoch 0%nat) (d_ttl_ms e), kept_value hll_count (d_value e)), rest).
Proof.
  intros He. destruct (snap_rt_entry (epoch 0%nat) e He) as (b & Hb & Hr). exists b.
  assert (save_binary_entries encrypt_vector epoch 0 [e] = IoOk (save_type_byte (d_value e) :: b)) as E.
  { cbn [save_binary_entries]. rewrite Hb. cbn [mbind io_bind]. by rewrite app_nil_r. }
  split; [done|]. cbv zeta. split; [|done]. unfold encode_dump_blob, save_binary. rewrite E. done.
Qed.

Lemma verified_blob payload :
  body_fits payload ->
  verified_dump_payload sha256 (DUMP_HEADER ++ write_u64 (zlen payload) ++ sha256 payload ++ payload) =
    IoOk payload.
Proof.
  intros Hb. unfold body_fits in Hb. pose proof (zlen_nonneg payload) as Hn.
  assert (u64_ok (zlen payload)) as Hu by (unfold u64_ok, body_start in *; lia).
  unfold verified_dump_payload, starts_with.
  rewrite take_app_length, bytes_eqb_refl. cbn [negb].
  assert (zlen (DUMP_HEADER ++ write_u64 (zlen payload) ++ sha256 payload ++ payload) =
    body_start + zlen payload) as El.
  { unfold zlen. rewrite !length_app. unfold write_u64. rewrite length_le_bytes, digest_length.
    unfold body_start. change (length DUMP_HEADER) with 4%nat. lia. }
  rewrite El. destruct (Z.ltb_spec (body_start + zlen payload) body_start); [lia|].
  rewrite (drop_app_length' DUMP_HEADER _ 4) by done.
  assert (take 8 (write_u64 (zlen payload) ++ sha256 payload ++ payload) = write_u64 (zlen payload)) as ->.
  { apply take_app_length'. unfold write_u64. by rewrite length_le_bytes. }
  assert (le_decode (write_u64 (zlen payload)) = zlen payload) as -> by (by apply le_u64_roundtrip).
  cbv zeta.
  destruct (Z.gtb_spec (body_start + zlen payload) usize_max) as [Hx|_]; [unfold usize_max, u64_mod in *; lia|].
  rewrite Z.eqb_refl. cbn [negb].
  rewrite (app_assoc DUMP_HEADER).
  assert (length (DUMP_HEADER ++ write_u64 (zlen payload)) = 12%nat) as E12.
  { rewrite length_app. unfold write_u64. by rewrite length_le_bytes. }
  rewrite (drop_app_length' (DUMP_HEADER ++ _) _ 12) by done.
  rewrite (take_app_length' (sha256 payload) _ SNAPSHOT_DIGEST_LEN) by done.
  assert (length ((DUMP_HEADER ++ write_u64 (zlen payload)) ++ sha256 payload) = Z.to_nat body_start) as E44.
  { rewrite length_app, E12, digest_length. done. }
  rewrite (app_assoc (DUMP_HEADER ++ _)), <-E44, drop_app_length, bytes_eqb_refl. done.
Qed.

(** ** Lemmas: saving and the journal *)

Lemma global_checkpoint_fits gen successor ms1 w1 :
  Wal.generation_ok gen -> Wal.generation_ok successor -> successor ≠ gen ->
  w1 = Wal.journal gen ms1 [] -> u64_ok (zlen (Wal.file w1)) ->
  checkpoints_fit [(bs "global", Wal.checkpoint successor w1)].
Proof.
  intros (Hg & _ & _) (Hs & _ & Hz) Hne -> Ho. split; [vm_compute; discriminate|].
  split; [|split; [apply NoDup_singleton|by left]]. apply Forall_singleton.
  split; [vm_compute; discriminate|]. split; [reflexivity|]. split; [reflexivity|].
  split; [done|]. split; [done|]. by split_and!.
Qed.

(** One journal: what is replayed from the checkpoint does not depend on the rotation. *)
Lemma rotated_replay gen successor ms1 ms2 :
  Wal.generation_ok gen -> Wal.generation_ok successor -> successor ≠ gen ->
  Forall Wal.mutation_ok ms1 -> Forall Wal.mutation_ok ms2 ->
  let cp := Wal.checkpoint successor (Wal.journal gen ms1 []) in
  let w2 := Wal.journal gen (ms1 ++ ms2) [] in
  exists w3, rotate_one [(bs "global", cp)] (bs "global", w2) = IoOk w3 /\
    forall m : gmap bytes Wal.WalCheckpoint, m !! bs "global" = Some cp ->
    replay_wals m [(bs "global", w2)] = IoOk (concat (Wal.commands_of <$> ms2)) /\
    replay_wals m [(bs "global", w3)] = IoOk (concat (Wal.commands_of <$> ms2)).
Proof.
  intros Hg Hs Hne H1 H2. cbv zeta.
  destruct (Wal.rotation_preserves_recovery gen successor ms1 ms2 _ Hg Hs Hne H1 H2
    ltac:(by rewrite Wal.append_all_journal)) as (w2 & w3 & r2 & r3 & Ha & Hr2 & E2 & Hrot & _ & Hr3 & E3).
  rewrite Wal.append_all_journal in Ha by done. injection Ha as <-. cbn [app] in *.
  exists w3. split; [exact Hrot|]. intros m Hm. cbn [replay_wals fst snd].
  rewrite Hm, Hr2, Hr3. cbn [fst mbind io_bind]. rewrite E3, E2, app_nil_r. done.
Qed.

End RoundTrips.

(** ** Theorems *)

Section Laws.

Context (sha256 : bytes -> bytes) (hll_count : bytes -> Z).
Context (encrypt_vector : bytes -> list Z -> result bytes)
        (decrypt_vector : bytes -> bytes -> result (list Z)).

(** SHA-256 gives thirty-two bytes, and the keyring opens what it sealed. *)
Definition crypto_laws : Prop :=
  (forall b, length (sha256 b) = SNAPSHOT_DIGEST_LEN) /\
  forall key data sealed, encrypt_vector key data = Ok sealed -> decrypt_vector key sealed = Ok data.

End Laws.



(** A damaged snapshot is refused and changes nothing. A file of the current format that lost its
    end, at any byte, or that bytes were added to, or whose body does not have the digest of its
    header, is rejected by [load_from_reader] with an error, before any entry is loaded or any
    checkpoint set. *)
Theorem damaged_snapshot_refused (sha256 : bytes -> bytes) (hll_count : bytes -> Z)
    (decrypt_vector : bytes -> bytes -> result (list Z)) (sentinel : Z) (epoch clock : nat -> Z)
    (parse_f64 : bytes -> option Z) (preserve : bool) (body file : bytes) (l : Loading) :
  (forall b, length (sha256 b) = SNAPSHOT_DIGEST_LEN) -> body_fits body ->
  (exists n, (n < length (file_of sha256 body))%nat /\ file = take n (file_of sha256 body)) \/
  (exists extra, extra ≠ [] /\ file = file_of sha256 body ++ extra) \/
  (exists body', sha256 body' ≠ sha256 body /\
     file = HEADER_V6 ++ write_u64 (zlen body) ++ sha256 body ++ body') ->
  exists e, load_from_reader sha256 hll_count decrypt_vector sentinel epoch clock parse_f64 preserve file l
    = (IoErr e, l).
Proof.
  intros Hd Hb Hfile.
  assert (u64_ok (zlen body)) as Hu.
  { unfold body_fits, body_start in Hb. split; [apply zlen_nonneg|lia]. }
  assert (forall r, zlen r ≠ zlen body ->
    exists e, read_body sha256 (write_u64 (zlen body) ++ sha256 body ++ r) = IoErr e) as Hlen.
  { intros r Hr. eapply (read_body_length sha256 _ (write_u64 (zlen body)) (sha256 body) r); [done|..].
    - unfold write_u64. apply length_le_bytes.
    - apply Hd.
    - unfold write_u64. rewrite le_u64_roundtrip by done. done. }
  destruct Hfile as [(n & Hn & ->)|[(extra & Hne & ->)|(body' & Hne & ->)]].
  - destruct (decide (n < 4)%nat) as [Hlt|Hge].
    { unfold load_from_reader. rewrite read_exact_short; [by eexists|]. rewrite length_take. lia. }
    rewrite take_header by lia. rewrite length_file in Hn by done.
    assert (exists e, read_body sha256 (take (n - 4) (write_u64 (zlen body) ++ sha256 body ++ body)) = IoErr e)
      as [e He]; [|exists e; by apply load_v6].
    destruct (decide (n < 44)%nat) as [H44|H44].
    + apply read_body_short. rewrite length_take. lia.
    + rewrite app_assoc, take_app, take_ge, <-app_assoc.
      2: { rewrite length_app, Hd. unfold write_u64. rewrite length_le_bytes. unfold SNAPSHOT_DIGEST_LEN. lia. }
      apply Hlen. rewrite length_app, Hd. unfold write_u64. rewrite length_le_bytes. unfold zlen.
      rewrite length_take. unfold SNAPSHOT_DIGEST_LEN. lia.
  - destruct (Hlen (body ++ extra)) as [e He].
    { rewrite zlen_app. destruct extra; [done|]. unfold zlen at 2. cbn [length]. lia. }
    exists e. unfold file_of. rewrite <-!app_assoc. by apply load_v6.
  - destruct (decide (zlen body' = zlen body)) as [El|El].
    + eexists. apply load_v6. unfold read_body. rewrite (snap_rt_u64 _ _ Hu). cbn [mbind io_bind].
      rewrite (read_exact_app _ (sha256 body) body' (Hd _)). cbn [mbind io_bind].
      unfold verify_snapshot_body. unfold body_fits in Hb.
      destruct (Z.gtb_spec (body_start + zlen body) (u64_mod - 1)); [lia|]. rewrite El, Z.eqb_refl. cbn [negb].
      rewrite (proj2 (bytes_eqb_neq _ _) Hne). cbn [negb]. reflexivity.
    + destruct (Hlen body' El) as [e He]. exists e. by apply load_v6.
Qed.

(** What validates loads. If [validate_restore_reader] accepts a payload of any of the six formats,
    without touching a store, then [load_from_reader] loads it into any store without an error,
    and the number of entries it reports is at most the number validated (those that expired are
    not loaded). *)
Theorem validated_payload_loads (sha256 : bytes -> bytes) (hll_count : bytes -> Z)
    (decrypt_vector : bytes -> bytes -> result (list Z)) (sentinel : Z) (epoch clock : nat -> Z)
    (parse_f64 : bytes -> option Z) (input : bytes) (s0 : Store) (l : Loading) (format : SnapshotFormat)
    (n : Z) :
  validate_restore_reader sha256 hll_count decrypt_vector sentinel epoch clock input s0 = IoOk (format, n) ->
  exists k l', load_from_reader sha256 hll_count decrypt_vector sentinel epoch clock parse_f64 false input l
    = (IoOk k, l') /\ k <= n.
Proof. apply validated_file. Qed.

(** A blob of one key round-trips. [encode_dump_blob] of an entry that fits the format gives a blob
    from which [decode_dump_blob_value] reads the value and the deadline, and which [decode_dump_blob]
    (the replay of LXRESTORE) loads into any store under the key of the entry, like a snapshot of
    that one entry. *)
Theorem dump_blob_roundtrip (sha256 : bytes -> bytes) (hll_count : bytes -> Z)
    (encrypt_vector : bytes -> list Z -> result bytes)
    (decrypt_vector : bytes -> bytes -> result (list Z)) (saved epoch clock : nat -> Z) (sentinel : Z)
    (e : DumpEntry) (s : Store) :
  crypto_laws sha256 encrypt_vector decrypt_vector -> entry_fits encrypt_vector e ->
  (forall b, save_binary encrypt_vector saved [e] = IoOk b -> body_fits b) ->
  exists blob, encode_dump_blob sha256 encrypt_vector saved e = IoOk blob /\
    decode_dump_blob_value sha256 hll_count decrypt_vector blob =
      IoOk (kept_value hll_count (d_value e), save_deadline (saved 0%nat) (d_ttl_ms e)) /\
    decode_dump_blob sha256 hll_count decrypt_vector sentinel epoch clock blob s =
      let '(n, s') := apply_entry true false true sentinel (epoch 0%nat) (clock 0%nat) (d_key e)
        (save_deadline (saved 0%nat) (d_ttl_ms e)) (kept_value hll_count (d_value e)) s in (IoOk n, s').
Proof.
  intros [Hd Hseal] He Hfit.
  destruct (encode_blob sha256 hll_count encrypt_vector decrypt_vector Hseal saved e He) as (b & Hb & Henc & Hr).
  assert (body_fits (HEADER ++ save_type_byte (d_value e) :: b)) as Hbf.
  { apply Hfit. unfold save_binary. by rewrite Hb. }
  eexists. split; [exact Henc|].
  assert (read_exact 4 (HEADER ++ save_type_byte (d_value e) :: b) = IoOk (HEADER, save_type_byte (d_value e) :: b))
    as Hh by (by apply header_split).
  specialize (Hr []). rewrite app_nil_r in Hr. split.
  - unfold decode_dump_blob_value. rewrite (verified_blob sha256 Hd _ Hbf). cbn [mbind io_bind].
    rewrite Hh. cbn [mbind io_bind]. rewrite bytes_eqb_refl. cbn [orb mbind io_bind].
    rewrite read_u8_cons. cbn [mbind io_bind]. by rewrite Hr.
  - unfold decode_dump_blob. rewrite (verified_blob sha256 Hd _ Hbf). cbn [mbind io_bind].
    rewrite Hh, bytes_eqb_refl. unfold load_binary, parse_binary. cbn [length parse_loop]. rewrite Hr.
    destruct (apply_entry _ _ _ _ _ _ _ _ _ _) as [n s']. by destruct (length b).
Qed.

(** ** Sample states *)

(** A digest and a keyring that meet the laws. *)
Definition sample_digest (b : bytes) : bytes := le_bytes 32 (zlen b).
Definition sample_seal (_ : bytes) (data : list Z) : result bytes := Ok data.
Definition sample_open (_ sealed : bytes) : result (list Z) := Ok sealed.

Lemma sample_laws : crypto_laws sample_digest sample_seal sample_open.
Proof. split; [intros b; apply length_le_bytes|]. intros key data sealed [= <-]. done. Qed.

(** One shard with one key, which expires at [exp]. *)
Definition one_key (key : bytes) (exp : option Z) : Store := put_data key (mkEntry (VStr (bs "v")) exp 0) (new 1).

Lemma find_one_key key exp k :
  find (one_key key exp) k = if decide (k = key) then Some (mkEntry (VStr (bs "v")) exp 0) else None.
Proof.
  unfold one_key. rewrite find_put_data by (unfold nonempty; cbn; lia). by rewrite find_new.
Qed.

Lemma placed_one_key key exp : placed (one_key key exp).
Proof.
  intros i sh k Hi _. apply lookup_lt_Some in Hi.
  assert (length (shards (one_key key exp)) = 1%nat) as E by (apply length_alter).
  unfold shard_index, zlen. rewrite E in *. change (Z.of_nat 1) with 1. rewrite Z.mod_1_r. cbn. lia.
Qed.

Lemma captured_one_key now key exp k :
  captured now (one_key key (Some exp)) [] k =
    if decide (k = key) then
      if now >? exp then None else Some (DStr (bs "v"), millis_until exp now)
    else None.
Proof.
  unfold captured, live. rewrite find_one_key. destruct (decide (k = key)); [|done].
  cbn [is_expired_at expires_at]. by destruct (now >? exp).
Qed.

Lemma one_key_text key exp : is_utf8 key = true -> text_keys (one_key key exp).
Proof. intros Hu k e. rewrite find_one_key. by destruct (decide (k = key)) as [->|]. Qed.

(** The key ["k"] saved at time zero with three seconds left. *)
Abbreviation three_seconds := (one_key (bs "k") (Some 3000000000)).

Lemma three_seconds_fits : capture_fits sample_seal 0 three_seconds [].
Proof.
  intros k v t. rewrite captured_one_key. destruct (decide (k = bs "k")) as [->|]; [|done].
  change (0 >? 3000000000) with false. intros [= <- <-].
  split; [split; [vm_compute; discriminate|reflexivity]|].
  split; [vm_compute; split; discriminate|vm_compute; discriminate].
Qed.

Lemma three_seconds_in_range : capture_in_range (fun _ => 1000) (fun _ => 2500) 0 three_seconds [].
Proof.
  intros i k v t. rewrite captured_one_key. destruct (decide (k = bs "k")) as [->|]; [|done].
  change (0 >? 3000000000) with false. intros [= <- <-]. vm_compute. split_and!; discriminate.
Qed.

Definition sample_checkpoints : list (bytes * Wal.WalCheckpoint) :=
  [(bs "global", Wal.mkCheckpoint (replicate 16 7) 24 (Some (replicate 16 9)))].

Lemma sample_checkpoints_fit : checkpoints_fit sample_checkpoints.
Proof.
  split; [vm_compute; discriminate|]. split; [|split; [apply NoDup_singleton|by left]].
  apply Forall_singleton. split; [vm_compute; discriminate|]. split; [reflexivity|].
  split; [reflexivity|]. split; [reflexivity|]. split; [vm_compute; split; [discriminate|reflexivity]|].
  split; [reflexivity|]. split; discriminate.
Qed.

Lemma three_seconds_entries :
  (dump_all_from_locked_shards (fun _ => 0) 0 three_seconds).1 =
    IoOk [mkDumpEntry (bs "k") (DStr (bs "v")) 3000].
Proof. vm_compute. reflexivity. Qed.

Definition value_of (r : io bytes) : bytes := match r with IoOk b => b | IoErr _ => [] end.

Lemma io_value r b : r = IoOk b -> b = value_of r.
Proof. by intros ->. Qed.

Lemma three_seconds_saves cps entries :
  save_checkpoints cps = save_checkpoints sample_checkpoints -> zlen cps = 1 ->
  entries = [mkDumpEntry (bs "k") (DStr (bs "v")) 3000] ->
  saves sample_seal cps entries (fun _ => 1000).
Proof.
  intros Hc Hz -> cb eb. rewrite Hc, Hz. intros Ec Ee. apply io_value in Ec, Ee. rewrite Ec, Ee.
  vm_compute. reflexivity.
Qed.



Lemma damaged_snapshot_refused_witness :
  exists e, load_from_reader sample_digest (fun _ => 0) sample_open 0 (fun _ => 0) (fun _ => 0) (fun _ => None)
    true (take 50 (file_of sample_digest (bs "0123456789"))) (mkLoading (new 1) ∅) = (IoErr e, mkLoading (new 1) ∅).
Proof.
  apply (damaged_snapshot_refused sample_digest (fun _ => 0) sample_open 0 (fun _ => 0) (fun _ => 0)
    (fun _ => None) true (bs "0123456789")).
  - intros b. apply length_le_bytes.
  - vm_compute. reflexivity.
  - left. exists 50%nat. split; [vm_compute; lia|reflexivity].
Defined.

(** A V1 payload with one string under ["k"]. *)
Definition sample_v1 : bytes := HEADER_V1 ++ 83 :: write_bytes (bs "k") ++ write_i64 (-1) ++ write_bytes (bs "v").

Lemma validated_payload_loads_witness :
  exists k l', load_from_reader sample_digest (fun _ => 0) sample_open 0 (fun _ => 0) (fun _ => 0) (fun _ => None)
    false sample_v1 (mkLoading (new 1) ∅) = (IoOk k, l') /\ k <= 1.
Proof.
  apply (validated_payload_loads sample_digest (fun _ => 0) sample_open 0 (fun _ => 0) (fun _ => 0)
    (fun _ => None) sample_v1 (new 1) (mkLoading (new 1) ∅) V1 1). vm_compute. reflexivity.
Defined.

Lemma dump_blob_roundtrip_witness :
  exists blob, encode_dump_blob sample_digest sample_seal (fun _ => 1000)
      (mkDumpEntry (bs "k") (DVector [1; 2] (Some (bs "m")) true) 0) = IoOk blob /\
    decode_dump_blob_value sample_digest (fun _ => 0) sample_open blob =
      IoOk (DVector [1; 2] (Some (bs "m")) true, -1).
Proof.
  destruct (dump_blob_roundtrip sample_digest (fun _ => 0) sample_seal sample_open (fun _ => 1000)
    (fun _ => 0) (fun _ => 0) 0 (mkDumpEntry (bs "k") (DVector [1; 2] (Some (bs "m")) true) 0) (new 1)
    sample_laws) as (blob & He & Hd & _).
  - split; [split; [vm_compute; discriminate|reflexivity]|]. split; [vm_compute; split; discriminate|].
    split; [exists [1; 2]; split; [reflexivity|vm_compute; discriminate]|].
    split; [vm_compute; discriminate|reflexivity].
  - intros b Eb. apply io_value in Eb. rewrite Eb. vm_compute. reflexivity.
  - exists blob. split; [exact He|exact Hd].
Defined.

(** ** What the code does otherwise than it means to *)

(** Half a millisecond before its deadline a key is saved as one without a deadline: it is back, for
    ever, however long after the deadline the snapshot is loaded. *)
Example last_millisecond_kept_forever :
  exists file l,
    (entries ← (dump_all_from_locked_shards (fun _ => 0) 0 (one_key (bs "k") (Some 500000))).1;
     save_snapshot_binary sample_digest sample_seal (fun _ => 1000) entries sample_checkpoints) = IoOk file /\
    load_from_reader sample_digest (fun _ => 0) sample_open 0 (fun _ => 99999) (fun _ => 0) (fun _ => None)
      false file (mkLoading (new 1) ∅) = (IoOk 1, l) /\
    find (l_store l) (bs "k") = Some (mkEntry (VStr (bs "v")) None 0).
Proof. do 2 eexists. split; [vm_compute; reflexivity|]. split; vm_compute; reflexivity. Qed.

(** A key that is not text comes back under another name. *)
Example binary_key_renamed :
  exists file l,
    (entries ← (dump_all_from_locked_shards (fun _ => 0) 0 (one_key [255] None)).1;
     save_snapshot_binary sample_digest sample_seal (fun _ => 1000) entries sample_checkpoints) = IoOk file /\
    load_from_reader sample_digest (fun _ => 0) sample_open 0 (fun _ => 1000) (fun _ => 0) (fun _ => None)
      false file (mkLoading (new 1) ∅) = (IoOk 1, l) /\
    find (l_store l) [255] = None /\ is_Some (find (l_store l) [239; 191; 189]).
Proof.
  do 2 eexists. split; [vm_compute; reflexivity|]. split; [vm_compute; reflexivity|].
  split; [vm_compute; reflexivity|]. vm_compute. by eexists.
Qed.

(** A list with more items than the readers accept is written, with a valid digest, and the snapshot
    cannot be loaded. *)
Theorem crowded_list_unloadable (sha256 : bytes -> bytes) (hll_count : bytes -> Z)
    (encrypt_vector : bytes -> list Z -> result bytes)
    (decrypt_vector : bytes -> bytes -> result (list Z)) (sentinel : Z) (saved epoch clock : nat -> Z)
    (parse_f64 : bytes -> option Z) (items : list bytes) (cps : list (bytes * Wal.WalCheckpoint))
    (l : Loading) :
  (forall b, length (sha256 b) = SNAPSHOT_DIGEST_LEN) ->
  checkpoints_fit cps -> MAX_SNAPSHOT_ITEMS < zlen items < u32_mod ->
  let e := mkDumpEntry (bs "k") (DList items) 0 in
  saves encrypt_vector cps [e] saved ->
  exists file m, save_snapshot_binary sha256 encrypt_vector saved [e] cps = IoOk file /\
    load_from_reader sha256 hll_count decrypt_vector sentinel epoch clock parse_f64 true file l =
      (IoErr (InvalidData "snapshot list item count exceeds maximum"), mkLoading (l_store l) m).
Proof.
  intros Hd Hc Hi e Hs. destruct (read_checkpoints_ok cps Hc) as (cb & Hcb & Hr).
  set (b := write_bytes (bs "k") ++ write_i64 (-1) ++ write_vec write_bytes items).
  assert (save_binary_entries encrypt_vector saved 0 [e] = IoOk (76 :: b)) as Heb.
  { assert (save_entry encrypt_vector (saved 0%nat) e = IoOk (76 :: b)) as E by reflexivity.
    cbn [save_binary_entries]. rewrite (io_step _ _ _ E). cbv beta. cbn [mbind io_bind].
    by rewrite app_nil_r. }
  pose proof (Hs _ _ Hcb Heb) as Hb. exists (file_of sha256 (write_u32 (zlen cps) ++ cb ++ 76 :: b)).
  eexists. split.
  { unfold save_snapshot_binary. destruct Hc as [Hn _]. unfold MAX_WAL_CHECKPOINTS in Hn.
    destruct (Z.gtb_spec (zlen cps) u32_max) as [H|_]; [unfold u32_max in H; lia|].
    rewrite (io_step _ _ _ Hcb), (io_step _ _ _ Heb). cbv beta zeta.
    by rewrite (io_step _ _ _ (digest_writer_ok sha256 _ Hb)). }
  unfold load_from_reader, file_of. rewrite header_split by done. rewrite bytes_eqb_refl.
  rewrite (read_body_ok sha256 Hd _ Hb). cbn [mbind io_bind]. rewrite Hr. unfold load_after, load_binary, parse_binary.
  cbn [length parse_loop].
  assert (read_entry hll_count decrypt_vector true 76 b =
    IoErr (InvalidData "snapshot list item count exceeds maximum")) as ->; [|done].
  unfold read_entry, b. assert (text (bs "k")) by (split; [vm_compute; discriminate|done]).
  assert (i64_ok (-1)) by (vm_compute; split; discriminate). do 2 read_step.
  unfold read_dump_value. cbn [Z.eqb Pos.eqb]. unfold read_items, read_count, write_vec.
  rewrite as_u32_len by lia. unfold mbind, reader_bind.
  rewrite <-(app_nil_r (write_u32 _ ++ _)), <-app_assoc, (rt_u32 (zlen items)) by (apply len_u32_ok; lia).
  destruct (Z.gtb_spec (zlen items) MAX_SNAPSHOT_ITEMS); [done|lia].
Qed.

End Snapshot.
