(* ===== verification/SaveWorker.v ===== *)
(** * The background saver ([src/src/snapshot.rs], [src/src/store/mod.rs])

    The thread that saves snapshots, the one-slot queue that wakes it, the status that INFO reports
    and that makes saves single-flight, and its shutdown. Clients, the timer and the thread
    interleave: a state is what they share, and a step is one critical section of one of them (a
    section of the status lock, a queue operation or a store to a flag). *)

From S2P Require Import Prelude.
From S2P Require Import Codec.
Local Open Scope Z_scope.

Module SaveWorker.

Inductive BackgroundSavePhase := Idle | Queued | Capturing | Writing | Committing | Rotating.

#[export] Instance BackgroundSavePhase_eq_dec : EqDecision BackgroundSavePhase.
Proof. solve_decision. Defined.

Definition in_progress (p : BackgroundSavePhase) : bool := negb (bool_decide (p = Idle)).

Inductive last_outcome := LastNone | LastOk | LastErr (msg : bytes).

Record SnapshotStatus := mkStatus {
  phase : BackgroundSavePhase;
  started_at : option Z;
  last_duration_ms : Z;
  last_keys : Z;
  last_status : last_outcome
}.

Definition default_status : SnapshotStatus := mkStatus Idle None 0 0 LastNone.

(** [sanitize_info_value] *)
Definition sanitize_info_value (value : bytes) : bytes :=
  (fun b => if (b =? 13) || (b =? 10) then 32 else b) <$> value.

Inductive SnapshotWorkerMessage := Save | Wake.

#[export] Instance SnapshotWorkerMessage_eq_dec : EqDecision SnapshotWorkerMessage.
Proof. solve_decision. Defined.

Inductive BackgroundSaveRequestError := Busy | Unavailable.

(** Where the thread is: before it receives, in its timeout before [begin_scheduled_background_save],
    with a message, in a save, or gone. *)
Inductive Thread :=
| Receiving
| TimedOut
| Handling (m : SnapshotWorkerMessage)
| Saving
| Exited.

Record State := mkState {
  status : SnapshotStatus;
  sender : bool;                              (* [background_save_tx] is set *)
  background_save_stopping : bool;
  stopping : bool;                            (* the flag of the [SnapshotWorker] *)
  queue : option SnapshotWorkerMessage;       (* a channel of one slot *)
  thread : Thread
}.

Definition with_status (st : SnapshotStatus) (s : State) : State :=
  mkState st (sender s) (background_save_stopping s) (stopping s) (queue s) (thread s).
Definition with_queue (q : option SnapshotWorkerMessage) (s : State) : State :=
  mkState (status s) (sender s) (background_save_stopping s) (stopping s) q (thread s).
Definition with_thread (t : Thread) (s : State) : State :=
  mkState (status s) (sender s) (background_save_stopping s) (stopping s) (queue s) t.

(** ** Operations of the store *)

Definition install_background_save_sender (s : State) : bool * State :=
  if sender s then (false, s)
  else (true, mkState (status s) true (background_save_stopping s) (stopping s) (queue s) (thread s)).

Definition set_phase (p : BackgroundSavePhase) (started : option Z) (st : SnapshotStatus) : SnapshotStatus :=
  mkStatus p started (last_duration_ms st) (last_keys st) (last_status st).

(** [sender.try_send]: the channel is disconnected once the thread has gone. *)
Inductive try_send_result := Sent | Full | Disconnected.

Definition try_send (m : SnapshotWorkerMessage) (s : State) : try_send_result * State :=
  match thread s with
  | Exited => (Disconnected, s)
  | _ =>
      match queue s with
      | Some _ => (Full, s)
      | None => (Sent, with_queue (Some m) s)
      end
  end.

(** [request_background_save], inside the lock of the status; [now] is its [Instant::now()]. *)
Definition request_background_save (now : Z) (s : State) : option BackgroundSaveRequestError * State :=
  if background_save_stopping s then (Some Unavailable, s)
  else if negb (sender s) then (Some Unavailable, s)
  else if in_progress (phase (status s)) then (Some Busy, s)
  else
    let s := with_status (set_phase Queued (Some now) (status s)) s in
    match try_send Save s with
    | (Sent, s) => (None, s)
    | (Full, s) => (Some Busy, with_status (set_phase Idle None (status s)) s)
    | (Disconnected, s) => (Some Unavailable, with_status (set_phase Idle None (status s)) s)
    end.

Definition begin_scheduled_background_save (now : Z) (s : State) : bool * State :=
  if background_save_stopping s || in_progress (phase (status s)) then (false, s)
  else (true, with_status (set_phase Queued (Some now) (status s)) s).

Definition set_background_save_phase (p : BackgroundSavePhase) (s : State) : State :=
  with_status (set_phase p (if bool_decide (p = Idle) then None else started_at (status s)) (status s)) s.

Definition finish_background_save (result : io Z) (error_text : bytes) (duration : Z) (s : State) : State :=
  with_status
    (match result with
     | IoOk keys => mkStatus Idle None (Z.min duration (u64_mod - 1)) keys LastOk
     | IoErr _ => mkStatus Idle None (Z.min duration (u64_mod - 1)) (last_keys (status s))
                    (LastErr (sanitize_info_value error_text))
     end) s.

Definition stop_background_saves (s : State) : State :=
  mkState (status s) (sender s) true (stopping s) (queue s) (thread s).

(** ** The worker *)

(** The flag and the wake-up of [request_shutdown]; a full queue needs none. (Dropping the worker raises
    the flag too; the steps below are those of a server that shuts down in order.) *)
Definition raise_stopping (s : State) : State :=
  mkState (status s) (sender s) (background_save_stopping s) true (queue s) (thread s).

Definition send_wake (s : State) : State := (try_send Wake s).2.

Definition request_shutdown (s : State) : State := send_wake (raise_stopping (stop_background_saves s)).

(** One turn of [background_save_worker], a critical section at a time. [scheduled] is whether the
    timer is on; a turn that would block is no step. *)
Inductive worker_step (scheduled : bool) : State -> State -> Prop :=
| w_receive s m :
    thread s = Receiving -> queue s = Some m ->
    worker_step scheduled s (with_thread (Handling m) (with_queue None s))
| w_drained s :
    thread s = Receiving -> stopping s = true -> queue s = None ->
    worker_step scheduled s (with_thread Exited (set_background_save_phase Idle s))
| w_timeout s :
    scheduled = true -> thread s = Receiving -> stopping s = false -> queue s = None ->
    worker_step scheduled s (with_thread TimedOut s)
| w_scheduled s now r s' :
    thread s = TimedOut -> begin_scheduled_background_save now s = (r, s') ->
    worker_step scheduled s (with_thread (Handling (if r then Save else Wake)) s')
| w_wake s :
    thread s = Handling Wake ->
    worker_step scheduled s
      (if stopping s then with_thread Exited (set_background_save_phase Idle s)
       else with_thread Receiving s)
| w_save s :
    thread s = Handling Save ->
    worker_step scheduled s (with_thread Saving s)
| w_phase s p :
    thread s = Saving -> p ≠ Idle -> p ≠ Queued ->
    worker_step scheduled s (set_background_save_phase p s)
| w_finish s result error_text duration :
    thread s = Saving ->
    worker_step scheduled s (with_thread Receiving (finish_background_save result error_text duration s)).

(** Everyone: the thread, clients that ask for a save, and the shutdown in its order. *)
Inductive step (scheduled : bool) : State -> State -> Prop :=
| s_worker s s' : worker_step scheduled s s' -> step scheduled s s'
| s_request s now r s' : request_background_save now s = (r, s') -> step scheduled s s'
| s_install s r s' : install_background_save_sender s = (r, s') -> step scheduled s s'
| s_stop s : step scheduled s (stop_background_saves s)
| s_raise s : background_save_stopping s = true -> step scheduled s (raise_stopping s)
| s_wake s : stopping s = true -> step scheduled s (send_wake s).

Definition initial : State := mkState default_status false false false None Receiving.

(** ** Invariant *)

(** The saves that were accepted and are not finished: in the queue, or with the thread. *)
Definition queued_saves (s : State) : nat := match queue s with Some Save => 1 | _ => 0 end.
Definition running_saves (s : State) : nat :=
  match thread s with Handling Save | Saving => 1 | _ => 0 end.

(** Until the thread has gone the status is busy exactly while a save is pending, and there is one at
    most; the thread is told to stop, and woken for it, after new saves are refused. *)
Record worker_ok (s : State) : Prop := {
  ok_pending : thread s ≠ Exited ->
    (queued_saves s + running_saves s = if in_progress (phase (status s)) then 1 else 0)%nat;
  ok_gone : thread s = Exited -> phase (status s) = Idle;
  ok_stopping : stopping s = true -> background_save_stopping s = true;
  ok_wake : queue s = Some Wake -> stopping s = true
}.

Definition reachable (scheduled : bool) : State -> Prop := rtc (step scheduled) initial.

(** ** Lemmas *)

(** The cases of a step: the fields, the queue and the phase, whose consequences compute. *)
Ltac by_cases :=
  repeat match goal with
  | q : option SnapshotWorkerMessage |- _ => destruct q as [[|]|]
  | m : SnapshotWorkerMessage |- _ => destruct m
  | p : BackgroundSavePhase |- _ => destruct p
  end; cbn in *; (done || lia || intuition congruence || idtac).

Ltac open_state s := destruct s as [[ph sa ld lk ls] sd bs st q th]; cbn in *; subst.

Lemma busy_phase p : in_progress p = true <-> p ≠ Idle.
Proof. unfold in_progress. by destruct p. Qed.

Lemma worker_step_ok scheduled s s' : worker_ok s -> worker_step scheduled s s' -> worker_ok s'.
Proof.
  intros [Hp Hg Hst Hw] H. destruct H as [s m Ht Hq|s Ht Hs Hq|s _ Ht Hs Hq|s now r s' Ht Hb|s Ht|s Ht|s p Ht H1 H2
    |s result text duration Ht].
  - open_state s. specialize (Hp ltac:(done)). destruct m; split; by_cases.
  - open_state s. split; by_cases.
  - open_state s. specialize (Hp ltac:(done)). split; by_cases.
  - open_state s. specialize (Hp ltac:(done)). unfold begin_scheduled_background_save in Hb. cbn in Hb.
    destruct bs; cbn in Hb; [injection Hb as <- <-; split; by_cases|].
    destruct (in_progress ph) eqn:E; injection Hb as <- <-; split; by_cases.
  - open_state s. specialize (Hp ltac:(done)). destruct st; split; by_cases.
  - open_state s. specialize (Hp ltac:(done)). split; by_cases.
  - open_state s. specialize (Hp ltac:(done)). split; by_cases.
  - open_state s. specialize (Hp ltac:(done)). destruct result; split; by_cases.
Qed.

Lemma step_ok scheduled s s' : worker_ok s -> step scheduled s s' -> worker_ok s'.
Proof.
  intros Hok H. destruct H as [s s' H|s now r s' H|s r s' H|s|s H|s H]; [by eapply worker_step_ok|..];
    destruct Hok as [Hp Hg Hst Hw].
  - open_state s. unfold request_background_save in H. cbn in H.
    destruct bs; [injection H as <- <-; split; cbn; auto|]. destruct sd; [|injection H as <- <-; split; cbn; auto]. cbn in H.
    destruct (in_progress ph) eqn:Ep; [injection H as <- <-; split; cbn; rewrite ?Ep; auto|].
    assert (ph = Idle) as -> by (destruct ph; (reflexivity || discriminate Ep)).
    destruct st; [by specialize (Hst eq_refl)|].
    destruct th; cbn in H; try specialize (Hp ltac:(done)); destruct q as [[|]|]; cbn in *;
      try done; try (by specialize (Hw eq_refl)); injection H as <- <-; split; by_cases.
  - unfold install_background_save_sender in H. open_state s. destruct sd; injection H as <- <-; split; cbn; auto.
  - open_state s. split; cbn; auto.
  - open_state s. split; cbn; auto.
  - open_state s. unfold send_wake, try_send. cbn. destruct th, q as [[|]|]; split; cbn in *; auto.
Qed.

Lemma reachable_ok scheduled s : reachable scheduled s -> worker_ok s.
Proof.
  intros H. assert (forall a b, rtc (step scheduled) a b -> worker_ok a -> worker_ok b) as Hind.
  { induction 1 as [|a b c Hab _ IH]; [done|]. intros Ha. by apply IH, (step_ok scheduled a). }
  apply (Hind initial s H). split; done.
Qed.

(** The steps from a received [Save] to its save. *)
Lemma handle_save scheduled s :
  thread s = Receiving -> queue s = Some Save ->
  exists s', rtc (worker_step scheduled) s s' /\ thread s' = Saving /\ queue s' = None /\ status s' = status s.
Proof.
  intros Ht Hq. exists (with_thread Saving (with_thread (Handling Save) (with_queue None s))).
  split; [|done]. eapply rtc_l; [by apply w_receive|]. apply rtc_once. by apply w_save.
Qed.

(** ** Theorems *)

(** Background saves are single-flight. In every state that clients, the timer, the thread and the
    shutdown reach, at most one accepted save is pending (queued or running) and the status is busy
    exactly then; a request is refused as busy while one is pending, accepted if none is, the
    thread is installed and no shutdown began, and refused as unavailable otherwise; and as
    long as the thread is not told to stop, a save that was accepted is taken up: the thread's
    own steps lead to it. *)
Theorem single_flight (scheduled : bool) (s : State) (now : Z) :
  reachable scheduled s -> thread s ≠ Exited ->
  (queued_saves s + running_saves s <= 1)%nat /\
  (phase (status s) = Idle <-> (queued_saves s + running_saves s = 0)%nat) /\
  (request_background_save now s).1 =
    (if background_save_stopping s || negb (sender s) then Some Unavailable
     else if bool_decide (phase (status s) = Idle) then None else Some Busy) /\
  (queue s = Some Save -> stopping s = false ->
   exists s', rtc (worker_step scheduled) s s' /\ thread s' = Saving /\ queue s' = None /\
     status s' = status s).
Proof.
  intros Hr Hne. pose proof (reachable_ok _ _ Hr) as [Hp _ Hst Hw]. specialize (Hp Hne).
  split; [rewrite Hp; destruct (in_progress _); lia|]. split; [|split].
  - rewrite Hp. destruct (in_progress (phase (status s))) eqn:E.
    + apply busy_phase in E. done.
    + split; [done|]. intros _. destruct (decide (phase (status s) = Idle)) as [|n]; [done|].
      apply busy_phase in n. congruence.
  - unfold request_background_save. destruct (background_save_stopping s) eqn:Eb; [done|]. cbn [orb].
    destruct (sender s); [|done]. cbn [negb]. unfold in_progress at 1.
    destruct (bool_decide_reflect (phase (status s) = Idle)) as [Ei|Ei]; cbn [negb]; [|done].
    rewrite Ei in Hp. open_state s. destruct th; try done; destruct q as [[|]|]; try done;
      (by specialize (Hst (Hw eq_refl))) || (cbn in Hp; lia).
  - intros Hq Hs. destruct (thread s) eqn:Et; [by apply handle_save| | | |done].
    + (* the timer fired while the request came in: the turn is a wake-up *)
      assert (in_progress (phase (status s)) = true) as Eb.
      { unfold queued_saves in Hp. rewrite Hq in Hp. destruct (in_progress _); [done|]. cbn in Hp. lia. }
      set (s1 := with_thread Receiving s).
      destruct (handle_save scheduled s1 eq_refl Hq) as (s' & Hsteps & H). exists s'. split; [|done].
      assert (begin_scheduled_background_save 0 s = (false, s)) as Hb.
      { unfold begin_scheduled_background_save. by rewrite Eb, orb_true_r. }
      eapply rtc_l; [by eapply (w_scheduled scheduled s 0)|].
      eapply rtc_l; [|exact Hsteps]. pose proof (w_wake scheduled (with_thread (Handling Wake) s) eq_refl) as Hwk.
      cbn [stopping with_thread] in Hwk. by rewrite Hs in Hwk.
    + destruct m; [unfold queued_saves, running_saves in Hp; rewrite Hq, Et in Hp; destruct (in_progress _); cbn in Hp; lia|].
      destruct (handle_save scheduled (with_thread Receiving s) eq_refl Hq) as (s' & Hsteps & H).
      exists s'. split; [|done]. eapply rtc_l; [|exact Hsteps].
      pose proof (w_wake scheduled s Et) as Hwk. by rewrite Hs in Hwk.
    + unfold queued_saves, running_saves in Hp. rewrite Hq, Et in Hp. destruct (in_progress _); cbn in Hp; lia.
Qed.

(** ** Sample states *)

(** A request was accepted and the thread is still waiting. *)
Definition sample_queued : State :=
  mkState (set_phase Queued (Some 7) default_status) true false false (Some Save) Receiving.

Lemma sample_reachable : reachable false sample_queued.
Proof.
  eapply rtc_l; [eapply (s_install false); reflexivity|]. apply rtc_once.
  eapply (s_request false _ 7). reflexivity.
Qed.

Lemma single_flight_witness :
  (request_background_save 9 sample_queued).1 = Some Busy /\
  exists s', rtc (worker_step false) sample_queued s' /\ thread s' = Saving /\ queue s' = None /\
    status s' = status sample_queued.
Proof.
  destruct (single_flight false sample_queued 9 sample_reachable ltac:(discriminate)) as (_ & _ & H & Hrun).
  split; [exact H|]. apply Hrun; reflexivity.
Defined.

(** ** What the code does otherwise than it means to *)

(** The timer fires, a client's save is accepted before the thread looks at the status, and the
    shutdown raises its flag before the thread handles its turn: it leaves with the accepted save
    still in the queue. *)
Example accepted_save_dropped :
  exists s s', reachable true s /\ request_background_save 7 s = (None, s') /\
    exists s'', rtc (step true) s' s'' /\ thread s'' = Exited /\ queue s'' = Some Save /\
      phase (status s'') = Idle.
Proof.
  set (s0 := mkState default_status true false false None TimedOut).
  exists s0. eexists. split; [|split; [reflexivity|]].
  { eapply rtc_l; [eapply (s_install true); reflexivity|]. apply rtc_once, s_worker.
    by apply (w_timeout true (mkState default_status true false false None Receiving)). }
  eexists. split.
  - eapply rtc_l; [apply s_worker; eapply (w_scheduled true _ 8); reflexivity|].
    eapply rtc_l; [apply s_stop|]. eapply rtc_l; [by apply s_raise|].
    apply rtc_once, s_worker. by apply w_wake.
  - done.
Qed.

End SaveWorker.
