(* ===== verification/Restore.v ===== *)
(** * Transactional restore ([src/src/restore.rs])

    A restore has two halves. A running server checks a snapshot it was sent, rewrites it in the current
    format and publishes it with a manifest ([stage_restore]). The next start, before the store is
    opened, moves the old state to a backup directory, installs the snapshot and the journal
    generation it authorizes, and removes the manifest ([commit_pending_restore]). The process may
    stop at any point; the next start runs [commit_pending_restore] again.

    A computation on the data directory goes through the states that its atomic changes (creating a
    file, writing it, renaming, removing) leave; each is followed by a sync of its directory before
    the next begins, so a crash leaves the directory in one of them. A file that is created and then
    written is two changes. Moving a file or a directory is one. *)

From S2P Require Import Prelude.
From S2P Require Import Codec.
From S2P Require Import Wal.
From S2P Require Import Store.
From S2P Require Import Where.
From S2P Require Import Schema.
From S2P Require Import Snapshot.
Local Open Scope Z_scope.

Module Restore.
Import Codec.Codec Snapshot.Snapshot.

(** ** The manifest *)

Definition MANIFEST_MAGIC : bytes := bs "LUXRST1" ++ [0].
Definition MANIFEST_LEN : Z := 208.

Inductive StorageMode := Memory | Tiered.

#[export] Instance StorageMode_eq_dec : EqDecision StorageMode.
Proof. solve_decision. Defined.

#[export] Instance SnapshotFormat_eq_dec : EqDecision SnapshotFormat.
Proof. solve_decision. Defined.

Record PendingRestore := mkPending {
  id : bytes;
  source_len : Z;
  payload_len : Z;
  source_format : SnapshotFormat;
  storage_mode : StorageMode;
  source_sha256 : bytes;
  payload_sha256 : bytes;
  data_dir_hash : bytes;
  journal_dir_hash : bytes;
  encryption_paths_hash : bytes
}.

Definition storage_mode_byte (m : StorageMode) : Z := match m with Memory => 0 | Tiered => 1 end.

Definition storage_mode_from_byte (v : Z) : io StorageMode :=
  match v with
  | 0 => IoOk Memory
  | 1 => IoOk Tiered
  | _ => IoErr (InvalidData "restore manifest has an invalid storage layout")
  end.

Definition encode_manifest (m : PendingRestore) : bytes :=
  MANIFEST_MAGIC ++ id m ++ le_bytes 8 (source_len m) ++ le_bytes 8 (payload_len m) ++
  [format_version (source_format m)] ++ [storage_mode_byte (storage_mode m)] ++ replicate 6 0 ++
  source_sha256 m ++ payload_sha256 m ++ data_dir_hash m ++ journal_dir_hash m ++
  encryption_paths_hash m.

Definition lift_io {A} (r : io A) : reader A := fun input =>
  match r with IoOk a => IoOk (a, input) | IoErr e => IoErr e end.

Definition read_manifest : reader PendingRestore :=
  magic ← read_exact 8;
  if negb (bytes_eqb magic MANIFEST_MAGIC)
  then fail (InvalidData "restore manifest has an invalid header")
  else
    id ← read_exact 16;
    if bytes_eqb id (replicate 16 0)
    then fail (InvalidData "restore manifest has an invalid identifier")
    else
      source_len ← read_u64;
      payload_len ← read_u64;
      version ← read_u8;
      source_format ← lift_io (from_version version);
      mode ← read_u8;
      storage_mode ← lift_io (storage_mode_from_byte mode);
      reserved ← read_exact 6;
      if negb (bytes_eqb reserved (replicate 6 0))
      then fail (InvalidData "restore manifest reserved bytes are not zero")
      else
        source_sha256 ← read_exact 32;
        payload_sha256 ← read_exact 32;
        data_dir_hash ← read_exact 32;
        journal_dir_hash ← read_exact 32;
        encryption_paths_hash ← read_exact 32;
        if (source_len =? 0) || (payload_len =? 0)
        then fail (InvalidData "restore manifest contains an empty snapshot")
        else mret (mkPending id source_len payload_len source_format storage_mode source_sha256
                     payload_sha256 data_dir_hash journal_dir_hash encryption_paths_hash).

Definition decode_manifest (b : bytes) : io PendingRestore :=
  if negb (zlen b =? MANIFEST_LEN) then IoErr (InvalidData "restore manifest has an invalid length")
  else '(m, _) ← read_manifest b; IoOk m.

(** [decode_sha256]: the checksum a client sends with its snapshot. *)
Definition decode_sha256 (value : list Z) : io bytes :=
  let value := Where.Where.trim value in
  if negb (zlen value =? 64) || negb (forallb Schema.Schema.is_ascii_hexdigit value)
  then IoErr (InvalidInput "snapshot checksum must be exactly 64 hexadecimal characters")
  else IoOk (Schema.Schema.hex_bytes value).

(** ** The data directory *)

(** A directory of state: the files in it, by their relative names. *)
Abbreviation Dir := (gmap bytes bytes).

(** [restore-backups/<id>]: [data/lux.dat], the copies of the encryption files, the directories of
    state, and the marker [backup-complete]. *)
Record Backup := mkBackup {
  b_lux : option bytes;
  b_files : gmap bytes bytes;
  b_state : gmap bytes Dir;
  b_complete : option bytes
}.

Definition empty_backup : Backup := mkBackup None ∅ ∅ None.

(** The directories of state are [journal] in memory mode, [global] and [shard_<n>] (and whatever
    else is there) in tiered mode. *)
Record Fs := mkFs {
  live : option bytes;                 (* lux.dat *)
  pending : option bytes;              (* .lux-restore.pending *)
  pending_tmp : option bytes;          (* .lux-restore.pending.tmp *)
  staged : option bytes;               (* .lux-restore.snapshot *)
  state : gmap bytes Dir;
  backups : gmap bytes Backup          (* by restore identifier *)
}.

(** ** Computations that a crash can cut *)

(** The states passed through, the last one, and the result. *)
Definition M (A : Type) : Type := Fs -> list Fs * Fs * io A.

#[export] Instance M_ret : MRet M := fun A a fs => ([], fs, IoOk a).
#[export] Instance M_bind : MBind M := fun A B f m fs =>
  match m fs with
  | (l, fs1, IoOk a) => let '(l', fs2, r) := f a fs1 in (l ++ l', fs2, r)
  | (l, fs1, IoErr e) => (l, fs1, IoErr e)
  end.

Definition look {A} (f : Fs -> A) : M A := fun fs => ([], fs, IoOk (f fs)).
Definition change (f : Fs -> Fs) : M unit := fun fs => ([f fs], f fs, IoOk tt).
Definition check {A} (r : io A) : M A := fun fs => ([], fs, r).
Definition refuse {A} (e : io_error) : M A := check (IoErr e).

Definition set_live (b : option bytes) (f : Fs) : Fs :=
  mkFs b (pending f) (pending_tmp f) (staged f) (state f) (backups f).
Definition set_pending (b : option bytes) (f : Fs) : Fs :=
  mkFs (live f) b (pending_tmp f) (staged f) (state f) (backups f).
Definition set_pending_tmp (b : option bytes) (f : Fs) : Fs :=
  mkFs (live f) (pending f) b (staged f) (state f) (backups f).
Definition set_staged (b : option bytes) (f : Fs) : Fs :=
  mkFs (live f) (pending f) (pending_tmp f) b (state f) (backups f).
Definition set_state (s : gmap bytes Dir) (f : Fs) : Fs :=
  mkFs (live f) (pending f) (pending_tmp f) (staged f) s (backups f).

Definition backup_of (i : bytes) (f : Fs) : Backup := default empty_backup (backups f !! i).
Definition set_backup (i : bytes) (b : Backup) (f : Fs) : Fs :=
  mkFs (live f) (pending f) (pending_tmp f) (staged f) (state f) (<[i := b]> (backups f)).

Definition exists_file (b : option bytes) : bool := bool_decide (is_Some b).

(** ** Configuration *)

(** What a start knows: the storage mode, whether durability is persistent, the digests of the
    configured paths, the encryption files that exist with the names of their copies, whether
    authentication is enabled and whether the two checks of free space pass. *)
Record Config := mkConfig {
  mode : StorageMode;
  persistent : bool;
  c_data_dir_hash : bytes;
  c_journal_dir_hash : bytes;
  c_encryption_paths_hash : bytes;
  encryption_backup_files : list (bytes * bytes);
  auth_enabled : bool;
  data_space : bool;
  journal_space : bool
}.

Definition is_owned_state_directory (name : bytes) : bool :=
  bytes_eqb name (bs "global") ||
  (starts_with name (bs "shard_") && negb (bool_decide (drop 6 name = [])) &&
   forallb is_ascii_digit (drop 6 name)).

(** The directories of state that a restore replaces. *)
Definition owned (m : StorageMode) (name : bytes) : bool :=
  match m with
  | Memory => bytes_eqb name (bs "journal")
  | Tiered => is_owned_state_directory name
  end.

(** Where the global journal is: the directory of state and the file in it. *)
Definition journal_place (m : StorageMode) : bytes * bytes :=
  match m with
  | Memory => (bs "journal", bs "global/wal.lux")
  | Tiered => (bs "global", bs "wal.lux")
  end.

Section Restores.

Context (sha256 : bytes -> bytes) (hll_count : bytes -> Z).
Context (decrypt_vector : bytes -> bytes -> result (list Z)).

(** The validation store is empty; the clocks of a run are arguments. *)
Context (validation : Store.Store.Store) (epoch clock : nat -> Z) (config : Config).

(** ** Staging *)

Definition clean_uncommitted_stage : M unit :=
  s ← look staged;
  _ ← (if exists_file s then change (set_staged None) else mret tt);
  t ← look pending_tmp;
  if exists_file t then change (set_pending_tmp None) else mret tt.

(** [write_private_new]: the file is created, then written. *)
Definition write_private_new (set : option bytes -> Fs -> Fs) (content : bytes) : M unit :=
  _ ← change (set (Some [])); change (set (Some content)).

Record StagedRestore := mkStaged { s_manifest : PendingRestore; s_entries : Z }.

(** The body of [stage_restore]: [canonicalized] is the payload in the current format, [fresh] the random
    identifier. *)
Definition stage_canonical (source : bytes) (expected : option (list Z))
    (canonicalized : io (SnapshotFormat * Z * bytes)) (fresh : bytes) : M StagedRestore :=
  if negb (persistent config)
  then refuse (InvalidInput "restore requires a persistent durability policy")
  else
    p ← look pending;
    if exists_file p
    then refuse (Other "another restore is already staged and awaiting restart")
    else
      _ ← clean_uncommitted_stage;
      if bool_decide (source = []) then refuse (InvalidInput "restore payload is empty")
      else
        _ ← (match expected with
             | None => mret tt
             | Some text =>
                 digest ← check (decode_sha256 text);
                 if bytes_eqb digest (sha256 source) then mret tt
                 else refuse (InvalidData "snapshot checksum does not match the request header")
             end);
        '(format, entries, canonical) ← check canonicalized;
        let manifest := mkPending fresh (zlen source) (zlen canonical) format (mode config)
          (sha256 source) (sha256 canonical) (c_data_dir_hash config) (c_journal_dir_hash config)
          (c_encryption_paths_hash config) in
        if negb (data_space config) then refuse (Other "insufficient free space for restore")
        else
          _ ← write_private_new set_staged canonical;
          _ ← write_private_new set_pending_tmp (encode_manifest manifest);
          _ ← change (fun f => set_pending (pending_tmp f) (set_pending_tmp None f));
          mret (mkStaged manifest entries).

(** [prepare_candidate_runtime]; [bootstrap] installs the tables of authentication, or
    says what is wrong with those of the payload. *)
Definition prepare_candidate_runtime (bootstrap : Store.Store.Store -> option string * Store.Store.Store)
    (s : Store.Store.Store) : io unit * Store.Store.Store :=
  if negb (auth_enabled config) then (IoOk tt, s)
  else
    match bootstrap s with
    | (Some error, s) => (IoErr (InvalidData (String.append "restore auth compatibility failed: " error)), s)
    | (None, s) => (IoOk tt, s)
    end.

(** The clocks that a staging reads and the identifiers that it draws. *)
Record Draws := mkDraws {
  d_epoch : nat -> Z;
  d_clock : nat -> Z;
  d_saved : nat -> Z;
  d_now : Z;
  d_generation : bytes;
  d_successor : bytes;
  d_id : bytes
}.

Definition canonical_of (encrypt_vector : bytes -> list Z -> result bytes) (parse_f64 : bytes -> option Z)
    (bootstrap : Store.Store.Store -> option string * Store.Store.Store) (d : Draws) (source : bytes)
    : io (SnapshotFormat * Z * bytes) :=
  canonicalize_restore sha256 hll_count encrypt_vector decrypt_vector parse_f64
    (prepare_candidate_runtime bootstrap) (d_epoch d) (d_clock d) (d_saved d) (d_now d) (d_generation d)
    (d_successor d) source validation.

Definition stage_restore encrypt_vector parse_f64 bootstrap (d : Draws) (source : bytes)
    (expected : option (list Z)) : M StagedRestore :=
  stage_canonical source expected (canonical_of encrypt_vector parse_f64 bootstrap d source) (d_id d).

(** ** Committing *)

Definition read_pending : M (option (PendingRestore * bytes)) :=
  p ← look pending;
  match p with
  | None => _ ← clean_uncommitted_stage; mret None
  | Some b => m ← check (decode_manifest b); mret (Some (m, b))
  end.

Definition validate_binding (m : PendingRestore) : io unit :=
  if negb (bool_decide (storage_mode m = mode config)) ||
     negb (bytes_eqb (data_dir_hash m) (c_data_dir_hash config)) ||
     negb (bytes_eqb (journal_dir_hash m) (c_journal_dir_hash config)) ||
     negb (bytes_eqb (encryption_paths_hash m) (c_encryption_paths_hash config))
  then IoErr (InvalidData "restore was staged for a different persistence configuration")
  else IoOk tt.

Definition validate_candidate (file : option bytes) (m : PendingRestore) : io unit :=
  match file with
  | None => IoErr (Other "No such file or directory")
  | Some content =>
      if negb (zlen content =? payload_len m)
      then IoErr (InvalidData "staged restore snapshot length does not match its manifest")
      else if negb (bytes_eqb (sha256 content) (payload_sha256 m))
      then IoErr (InvalidData "staged restore snapshot checksum does not match its manifest")
      else
        '(format, _) ← validate_restore_reader sha256 hll_count decrypt_vector 0 epoch clock content
                         validation;
        if negb (bool_decide (format = V6))
        then IoErr (InvalidData "staged restore snapshot is not in the current format")
        else IoOk tt
  end.

(** [move_file_once] of [lux.dat]. *)
Definition move_file_once (i : bytes) : M unit :=
  f ← look (fun f => f);
  match live f, b_lux (backup_of i f) with
  | Some _, None =>
      change (fun f =>
        let b := backup_of i f in
        set_backup i (mkBackup (live f) (b_files b) (b_state b) (b_complete b)) (set_live None f))
  | None, _ => mret tt
  | Some _, Some _ => refuse (InvalidData "restore backup collision")
  end.

Definition move_directory_once (i name : bytes) : M unit :=
  f ← look (fun f => f);
  match state f !! name, b_state (backup_of i f) !! name with
  | Some d, None =>
      change (fun f =>
        let b := backup_of i f in
        set_backup i (mkBackup (b_lux b) (b_files b) (<[name := d]> (b_state b)) (b_complete b))
          (set_state (delete name (state f)) f))
  | None, _ => mret tt
  | Some _, Some _ => refuse (InvalidData "restore backup collision")
  end.

(** [copy_private_once]: written under a temporary name, verified and renamed. *)
Definition copy_private_once (i name content : bytes) : M unit :=
  f ← look (fun f => f);
  match b_files (backup_of i f) !! name with
  | Some copy =>
      if bool_decide (zlen copy = zlen content) && bytes_eqb (sha256 copy) (sha256 content) then mret tt
      else refuse (InvalidData "restore backup collision")
  | None =>
      change (fun f =>
        let b := backup_of i f in
        set_backup i (mkBackup (b_lux b) (<[name := content]> (b_files b)) (b_state b) (b_complete b)) f)
  end.

Fixpoint each {A} (act : A -> M unit) (l : list A) : M unit :=
  match l with
  | [] => mret tt
  | a :: l => _ ← act a; each act l
  end.

Definition set_complete (i : bytes) (c : option bytes) (f : Fs) : Fs :=
  let b := backup_of i f in set_backup i (mkBackup (b_lux b) (b_files b) (b_state b) c) f.

Definition backup_current_state (m : PendingRestore) (manifest_bytes : bytes) : M unit :=
  _ ← move_file_once (id m);
  _ ← each (fun p => copy_private_once (id m) p.1 p.2) (encryption_backup_files config);
  _ ← (match mode config with
       | Memory => move_directory_once (id m) (bs "journal")
       | Tiered =>
           s ← look state;
           each (move_directory_once (id m))
             (merge_sort bytes_le (List.filter is_owned_state_directory (fst <$> map_to_list s)))
       end);
  c ← look (fun f => b_complete (backup_of (id m) f));
  match c with
  | None => write_private_new (set_complete (id m)) manifest_bytes
  | Some installed =>
      if bytes_eqb installed manifest_bytes then mret tt
      else refuse (InvalidData "restore backup marker does not match the pending restore")
  end.

Definition install_snapshot (m : PendingRestore) : M unit :=
  f ← look (fun f => f);
  _ ← (if exists_file (staged f) then
         if exists_file (live f)
         then refuse (InvalidData "live snapshot still exists after restore backup completed")
         else change (fun f => set_live (staged f) (set_staged None f))
       else mret tt);
  l ← look live;
  check (validate_candidate l m).

(** The global journal of the directory; an absent file is empty. *)
Definition journal_file (f : Fs) : option bytes :=
  let '(name, path) := journal_place (mode config) in
  d ← state f !! name; d !! path.

Definition set_journal_file (content : bytes) (f : Fs) : Fs :=
  let '(name, path) := journal_place (mode config) in
  set_state (<[name := <[path := content]> (default ∅ (state f !! name))]> (state f)) f.

(** [Wal::create_named_with_generation]: a missing file is created before its header is written. *)
Definition install_successor_journal : M unit :=
  l ← look live;
  generation ← check (match l with
                      | Some content => authorized_global_successor sha256 content
                      | None => IoErr (Other "No such file or directory")
                      end);
  match generation with
  | None => refuse (InvalidData "restored snapshot does not authorize a successor journal")
  | Some g =>
      j ← look journal_file;
      w ← check (Wal.create_named_with_generation (bs "global") (default [] j) g []);
      match j with
      | None => _ ← change (set_journal_file []); change (set_journal_file (Wal.file w))
      | Some [] => change (set_journal_file (Wal.file w))
      | Some _ => mret tt
      end
  end.

Definition commit_pending_restore : M bool :=
  p ← read_pending;
  match p with
  | None => mret false
  | Some (m, manifest_bytes) =>
      if negb (persistent config)
      then refuse (InvalidData "pending restore cannot commit under an ephemeral durability policy")
      else
        _ ← check (validate_binding m);
        f ← look (fun f => f);
        let backup_complete := exists_file (b_complete (backup_of (id m) f)) in
        candidate ← (if exists_file (staged f) then mret (staged f)
                     else if backup_complete then mret (live f)
                     else refuse (InvalidData "pending restore is missing its staged snapshot before backup completion"));
        _ ← check (validate_candidate candidate m);
        if negb (data_space config) then refuse (Other "insufficient free space for restore")
        else if negb (journal_space config) then refuse (Other "insufficient free space for restore")
        else
          _ ← (if backup_complete then mret tt else backup_current_state m manifest_bytes);
          _ ← install_snapshot m;
          _ ← install_successor_journal;
          _ ← change (set_pending None);
          mret true
  end.

End Restores.

(** ** Lemmas: computations *)

(** From [P] the computation succeeds with [Q], and every state it passes through satisfies [I]. *)
Definition triple {A} (P I : Fs -> Prop) (m : M A) (Q : A -> Fs -> Prop) : Prop :=
  forall f, P f -> let '(l, f', r) := m f in Forall I l /\ exists a, r = IoOk a /\ Q a f'.

Lemma triple_bind {A B} P I (m : M A) (k : A -> M B) Q R :
  triple P I m Q -> (forall a, triple (Q a) I (k a) R) -> triple P I (m ≫= k) R.
Proof.
  intros Hm Hk f Hf. specialize (Hm f Hf). unfold mbind, M_bind.
  destruct (m f) as [[l f1] r]. destruct Hm as (Hl & a & -> & Ha). specialize (Hk a f1 Ha).
  destruct (k a f1) as [[l' f2] r]. destruct Hk as (Hl' & H). split; [by apply Forall_app|done].
Qed.

Lemma triple_ret {A} (P I : Fs -> Prop) (a : A) (Q : A -> Fs -> Prop) :
  (forall f, P f -> Q a f) -> triple P I (mret a) Q.
Proof. intros H f Hf. split; [done|]. exists a. split; [done|]. by apply H. Qed.

Lemma triple_look {A} (P I : Fs -> Prop) (g : Fs -> A) :
  triple P I (look g) (fun a f => P f /\ a = g f).
Proof. intros f Hf. split; [done|]. by eexists. Qed.

Lemma triple_change (P I : Fs -> Prop) g (Q : Fs -> Prop) :
  (forall f, P f -> I (g f) /\ Q (g f)) -> triple P I (change g) (fun _ => Q).
Proof.
  intros H f Hf. destruct (H f Hf) as [HI HQ]. split; [by apply Forall_singleton|]. by exists tt.
Qed.

Lemma triple_check {A} (P I : Fs -> Prop) (r : io A) a :
  r = IoOk a -> triple P I (check r) (fun a' f => P f /\ a' = a).
Proof. intros -> f Hf. split; [done|]. by exists a. Qed.

Lemma triple_weaken {A} (P P' I I' : Fs -> Prop) (m : M A) (Q Q' : A -> Fs -> Prop) :
  triple P I m Q -> (forall f, P' f -> P f) -> (forall f, I f -> I' f) -> (forall a f, Q a f -> Q' a f) ->
  triple P' I' m Q'.
Proof.
  intros Hm HP HI HQ f Hf. specialize (Hm f (HP f Hf)). destruct (m f) as [[l f1] r].
  destruct Hm as (Hl & a & -> & Ha). split; [by eapply Forall_impl|]. exists a. split; [done|]. by apply HQ.
Qed.

(** A loop, with an invariant on the elements done. *)
Lemma triple_each {A} (I : Fs -> Prop) (act : A -> M unit) (J : list A -> Fs -> Prop) l :
  (forall past a rest, l = past ++ a :: rest -> triple (J past) I (act a) (fun _ => J (past ++ [a]))) ->
  triple (J []) I (each act l) (fun _ => J l).
Proof.
  intros H. assert (forall rest past, l = past ++ rest -> triple (J past) I (each act rest) (fun _ => J l)) as Hgo.
  { induction rest as [|a rest IH]; intros past E; cbn [each].
    - apply triple_ret. intros f Hf. by rewrite E, app_nil_r.
    - eapply triple_bind; [by eapply H|]. intros u. cbn beta. apply IH. by rewrite <-app_assoc. }
  by apply (Hgo l []).
Qed.

Lemma backup_set i b f : backup_of i (set_backup i b f) = b.
Proof. unfold backup_of, set_backup. cbn. by rewrite lookup_insert_eq. Qed.

Lemma backup_set_other i j b f : j ≠ i -> backups (set_backup i b f) !! j = backups f !! j.
Proof. intros H. unfold set_backup. cbn. by rewrite lookup_insert_ne. Qed.

(** ** Lemmas: the manifest *)

Definition manifest_ok (m : PendingRestore) : Prop :=
  length (id m) = 16%nat /\ id m ≠ replicate 16 0 /\
  0 < source_len m < u64_mod /\ 0 < payload_len m < u64_mod /\
  length (source_sha256 m) = 32%nat /\ length (payload_sha256 m) = 32%nat /\
  length (data_dir_hash m) = 32%nat /\ length (journal_dir_hash m) = 32%nat /\
  length (encryption_paths_hash m) = 32%nat.

Lemma version_back f : from_version (format_version f) = IoOk f.
Proof. by destruct f. Qed.

Lemma mode_back m : storage_mode_from_byte (storage_mode_byte m) = IoOk m.
Proof. by destruct m. Qed.

Lemma manifest_length m : manifest_ok m -> zlen (encode_manifest m) = MANIFEST_LEN.
Proof.
  intros (H1 & Hz & Hs & Hp & H2 & H3 & H4 & H5 & H6). unfold encode_manifest, zlen.
  rewrite !length_app, !length_le_bytes, length_replicate, H1, H2, H3, H4, H5, H6. reflexivity.
Qed.

Ltac read_fixed := match goal with
  | |- (read_exact ?n ≫= ?f) (?a ++ ?rest) = _ =>
      rewrite (bind_ok _ f _ a rest (read_exact_app n a rest ltac:(first [assumption | reflexivity])))
  end.

Lemma read_manifest_ok m : manifest_ok m -> read_manifest (encode_manifest m) = IoOk (m, []).
Proof.
  intros (H1 & Hz & Hs & Hp & H2 & H3 & H4 & H5 & H6). unfold read_manifest, encode_manifest.
  read_fixed. rewrite bytes_eqb_refl. cbn [negb]. read_fixed.
  rewrite (proj2 (bytes_eqb_neq _ _) Hz).
  assert (u64_ok (source_len m)) by (unfold u64_ok; lia).
  assert (u64_ok (payload_len m)) by (unfold u64_ok; lia).
  rewrite (bind_ok _ _ _ _ _ (snap_rt_u64 (source_len m) _ ltac:(done))).
  rewrite (bind_ok _ _ _ _ _ (snap_rt_u64 (payload_len m) _ ltac:(done))).
  cbn [app]. rewrite (bind_ok _ _ _ _ _ (read_u8_cons _ _)).
  rewrite (bind_ok _ _ _ (source_format m) _) by (unfold lift_io; by rewrite version_back).
  rewrite (bind_ok _ _ _ _ _ (read_u8_cons _ _)).
  rewrite (bind_ok _ _ _ (storage_mode m) _) by (unfold lift_io; by rewrite mode_back).
  read_fixed. rewrite bytes_eqb_refl. cbn [negb]. do 4 read_fixed.
  rewrite <-(app_nil_r (encryption_paths_hash m)) at 1. read_fixed.
  destruct (Z.eqb_spec (source_len m) 0), (Z.eqb_spec (payload_len m) 0); try lia. cbn [orb].
  by destruct m.
Qed.

Lemma decode_encode m : manifest_ok m -> decode_manifest (encode_manifest m) = IoOk m.
Proof.
  intros Hm. unfold decode_manifest. rewrite manifest_length by done. cbn [negb Z.eqb Pos.eqb MANIFEST_LEN].
  by rewrite read_manifest_ok.
Qed.

(** ** Lemmas: validation does not depend on the clocks *)

Lemma parse_clocks hll dv fuel groups absolute sentinel epoch clock epoch' clock' : forall i count input s,
  parse_loop hll dv fuel groups absolute false false sentinel epoch clock i count input s =
  parse_loop hll dv fuel groups absolute false false sentinel epoch' clock' i count input s.
Proof.
  induction fuel as [|fuel IH]; intros i count [|type input] s; try done. cbn [parse_loop].
  destruct (read_entry _ _ _ _ _) as [[[[key ttl] v] rest]|]; [|done]. unfold apply_entry.
  destruct (read_ttl absolute (epoch i) ttl), (read_ttl absolute (epoch' i) ttl). cbn [negb]. apply IH.
Qed.

Lemma validate_clocks sha hll dv epoch clock epoch' clock' input s :
  validate_restore_reader sha hll dv 0 epoch clock input s =
  validate_restore_reader sha hll dv 0 epoch' clock' input s.
Proof.
  unfold validate_restore_reader. destruct (snapshot_format input) as [[format rest]|]; [|done].
  cbn [mbind io_bind]. f_equal. unfold validate_entries, parse_binary.
  destruct format; try (by rewrite (parse_clocks _ _ _ _ _ _ epoch clock epoch' clock')).
  - destruct (read_wal_checkpoints false rest) as [[m r]|]; [|done]. cbn [mbind io_bind].
    by rewrite (parse_clocks _ _ _ _ _ _ epoch clock epoch' clock').
  - destruct (read_body sha rest) as [body|]; [|done]. cbn [mbind io_bind].
    destruct (read_wal_checkpoints false body) as [[m r]|]; [|done]. cbn [mbind io_bind].
    by rewrite (parse_clocks _ _ _ _ _ _ epoch clock epoch' clock').
  - destruct (read_body sha rest) as [body|]; [|done]. cbn [mbind io_bind].
    destruct (read_wal_checkpoints true body) as [[m r]|]; [|done]. cbn [mbind io_bind].
    by rewrite (parse_clocks _ _ _ _ _ _ epoch clock epoch' clock').
Qed.

(** ** The progress of a restore *)

Section Progress.

Context (sha256 : bytes -> bytes) (hll_count : bytes -> Z).
Context (decrypt_vector : bytes -> bytes -> result (list Z)).
Context (validation : Store.Store.Store) (config : Config).

(** The directory as it was staged: [f0], with the manifest [m] in the bytes [mb] and the snapshot [p],
    which authorizes the generation [g]. *)
Context (f0 : Fs) (m : PendingRestore) (mb p g : bytes).

Record ready : Prop := {
  r_pending : pending f0 = Some mb;
  r_manifest : decode_manifest mb = IoOk m;
  r_staged : staged f0 = Some p;
  r_tmp : pending_tmp f0 = None;
  r_binding : validate_binding config m = IoOk tt;
  r_valid : validate_candidate sha256 hll_count decrypt_vector validation (fun _ => 0) (fun _ => 0)
              (Some p) m = IoOk tt;
  r_successor : authorized_global_successor sha256 p = IoOk (Some g);
  r_generation : Wal.generation_ok g;
  r_fresh : backups f0 !! id m = None;
  r_persistent : persistent config = true;
  r_space : data_space config = true /\ journal_space config = true;
  r_files : NoDup (encryption_backup_files config).*1
}.

(** The directories of state: each that a restore replaces is in place or in the backup. *)
Definition dirs_split (f : Fs) : Prop :=
  forall k,
    if owned (mode config) k then
      (state f !! k = state f0 !! k /\ b_state (backup_of (id m) f) !! k = None) \/
      (state f !! k = None /\ b_state (backup_of (id m) f) !! k = state f0 !! k)
    else state f !! k = state f0 !! k /\ b_state (backup_of (id m) f) !! k = None.

(** What no phase touches. *)
Definition untouched (f : Fs) : Prop :=
  pending_tmp f = pending_tmp f0 /\ forall j, j ≠ id m -> backups f !! j = backups f0 !! j.

(** The backup is being made: the old snapshot is in place or in the backup, copies are right. *)
Record backing (f : Fs) : Prop := {
  k_pending : pending f = Some mb;
  k_untouched : untouched f;
  k_staged : staged f = Some p;
  k_complete : b_complete (backup_of (id m) f) = None;
  k_live : (live f = live f0 /\ b_lux (backup_of (id m) f) = None) \/
           (live f = None /\ b_lux (backup_of (id m) f) = live f0);
  k_files : forall name c, b_files (backup_of (id m) f) !! name = Some c ->
              (name, c) ∈ encryption_backup_files config;
  k_dirs : dirs_split f
}.

Definition live_moved (f : Fs) : Prop := live f = None /\ b_lux (backup_of (id m) f) = live f0.
Definition files_copied (l : list (bytes * bytes)) (f : Fs) : Prop :=
  forall name c, (name, c) ∈ l -> b_files (backup_of (id m) f) !! name = Some c.
Definition dirs_moved (f : Fs) : Prop :=
  forall k, owned (mode config) k = true -> state f !! k = None.

(** The old state is all in the backup. *)
Record backed_up (f : Fs) : Prop := {
  b_pending : pending f = Some mb \/ pending f = None;
  b_untouched : untouched f;
  b_live_kept : b_lux (backup_of (id m) f) = live f0;
  b_files_kept : b_files (backup_of (id m) f) = list_to_map (encryption_backup_files config);
  b_dirs_kept : forall k, b_state (backup_of (id m) f) !! k =
                  if owned (mode config) k then state f0 !! k else None;
  b_marked : is_Some (b_complete (backup_of (id m) f));
  b_others : forall k, owned (mode config) k = false -> state f !! k = state f0 !! k
}.

(** The new state is being installed: the snapshot is staged or in place, then the journal appears. *)
Definition journal_absent (f : Fs) : Prop := dirs_moved f.
Definition journal_is (content : bytes) (f : Fs) : Prop :=
  let '(name, path) := journal_place (mode config) in
  forall k, owned (mode config) k = true ->
    state f !! k = if decide (k = name) then Some {[path := content]} else None.

Record installing (f : Fs) : Prop := {
  n_pending : pending f = Some mb;
  n_backed : backed_up f;
  n_files : (staged f = Some p /\ live f = None /\ journal_absent f) \/
            (staged f = None /\ live f = Some p /\
             (journal_absent f \/ journal_is [] f \/ journal_is (Wal.wal_header_bytes g) f))
}.

(** The restore is done: the staged snapshot is live, the journal is empty and of the generation it
    authorizes, the old state is in the backup. *)
Record committed (f : Fs) : Prop := {
  d_pending : pending f = None;
  d_backed : backed_up f;
  d_staged : staged f = None;
  d_live : live f = Some p;
  d_journal : journal_is (Wal.wal_header_bytes g) f
}.

Definition under_way (f : Fs) : Prop := backing f \/ installing f.

Context (Hready : ready).
Context (epoch clock : nat -> Z).

Lemma valid_now : validate_candidate sha256 hll_count decrypt_vector validation epoch clock (Some p) m = IoOk tt.
Proof.
  pose proof (r_valid Hready) as H. unfold validate_candidate in *.
  by rewrite (validate_clocks _ _ _ epoch clock (fun _ => 0) (fun _ => 0)).
Qed.

Lemma journal_owned : owned (mode config) (journal_place (mode config)).1 = true.
Proof. by destruct (mode config). Qed.

Lemma start_backing : backing f0.
Proof.
  pose proof (r_fresh Hready) as Hf. assert (backup_of (id m) f0 = empty_backup) as E.
  { unfold backup_of. by rewrite Hf. }
  split; [apply Hready|done|apply Hready|by rewrite E|left; by rewrite E|by rewrite E|].
  intros k. rewrite E. destruct (owned _ k); [left|]; done.
Qed.

Lemma move_file_triple :
  triple backing under_way (move_file_once (id m)) (fun _ f => backing f /\ live_moved f).
Proof.
  unfold move_file_once. eapply triple_bind; [apply triple_look|]. intros f1. cbn beta.
  intros f [Hb ->]. destruct Hb as [H1 H2 H3 H4 H5 H6 H7].
  destruct (live f) as [x|] eqn:El; [destruct (b_lux (backup_of (id m) f)) eqn:Eb|].
  - destruct H5 as [[_ ?]|[? _]]; done.
  - destruct H5 as [[E _]|[? _]]; [|done].
    assert (backing (set_backup (id m) (mkBackup (live f) (b_files (backup_of (id m) f))
      (b_state (backup_of (id m) f)) (b_complete (backup_of (id m) f))) (set_live None f))) as Hk.
    { split; try done; rewrite ?backup_set; try done.
      - destruct H2 as [H2 H2']. split; [done|]. intros j Hj. rewrite backup_set_other by done. by apply H2'.
      - right. by rewrite <-E, El.
      - intros k. rewrite backup_set. apply H7. }
    split; [apply Forall_singleton; by left|]. exists tt. split; [done|]. split; [done|].
    split; [done|]. rewrite backup_set. cbn. by rewrite El.
  - split; [done|]. exists tt. split; [done|]. split; [|split; [done|]].
    + by split; try done; rewrite El.
    + destruct H5 as [[E E']|[_ E]]; [by rewrite E', <-E|done].
Qed.

Lemma copy_triple l past a rest :
  l = past ++ a :: rest -> l = encryption_backup_files config ->
  triple (fun f => backing f /\ live_moved f /\ files_copied past f) under_way
    (copy_private_once sha256 (id m) a.1 a.2)
    (fun _ f => backing f /\ live_moved f /\ files_copied (past ++ [a]) f).
Proof.
  intros El Ec. unfold copy_private_once. eapply triple_bind; [apply triple_look|]. intros f1. cbn beta.
  intros f [(Hb & Hl & Hc) ->]. destruct Hb as [H1 H2 H3 H4 H5 H6 H7]. destruct a as [name c]. cbn [fst snd].
  assert ((name, c) ∈ encryption_backup_files config) as Hin by (rewrite <-Ec, El; set_solver).
  destruct (b_files (backup_of (id m) f) !! name) as [copy|] eqn:Ef.
  - assert (copy = c) as ->.
    { apply H6 in Ef. pose proof (r_files Hready) as Hnd.
      apply (elem_of_list_to_map_1 (M := gmap bytes)) in Ef, Hin; [|done..]. congruence. }
    rewrite bool_decide_eq_true_2, bytes_eqb_refl by done. split; [done|]. exists tt. split; [done|].
    split; [by split|]. split; [done|]. intros n' c' [H|H]%elem_of_app; [by apply Hc|].
    apply list_elem_of_singleton in H. by injection H as -> ->.
  - assert (backing (set_backup (id m) (mkBackup (b_lux (backup_of (id m) f))
      (<[name := c]> (b_files (backup_of (id m) f))) (b_state (backup_of (id m) f))
      (b_complete (backup_of (id m) f))) f)) as Hk.
    { split; try done; rewrite ?backup_set; try done.
      - destruct H2 as [H2 H2']. split; [done|]. intros j Hj. rewrite backup_set_other by done. by apply H2'.
      - cbn [b_files]. intros n' c' [[-> ->]|[_ H]]%lookup_insert_Some; [done|by apply H6].
      - intros k. rewrite backup_set. apply H7. }
    split; [apply Forall_singleton; by left|]. exists tt. split; [done|]. split; [done|].
    split; [destruct Hl as [Hl1 Hl2]; split; [done|by rewrite backup_set]|].
    intros n' c' Hn'. rewrite backup_set. cbn [b_files]. apply elem_of_app in Hn' as [H|H].
    + rewrite lookup_insert_ne; [by apply Hc|]. intros <-. apply Hc in H. by rewrite Ef in H.
    + apply list_elem_of_singleton in H. injection H as -> ->. by rewrite lookup_insert_eq.
Qed.

(** Moving a directory that the restore replaces. *)
Lemma move_dir_triple name (keep : Fs -> Prop) :
  owned (mode config) name = true ->
  (forall f f', keep f -> (forall k, state f !! k = None -> state f' !! k = None) -> keep f') ->
  triple (fun f => backing f /\ live_moved f /\ files_copied (encryption_backup_files config) f /\ keep f)
    under_way (move_directory_once (id m) name)
    (fun _ f => (backing f /\ live_moved f /\ files_copied (encryption_backup_files config) f /\ keep f) /\
                state f !! name = None).
Proof.
  intros Ho Hkeep. unfold move_directory_once. eapply triple_bind; [apply triple_look|]. intros f1. cbn beta.
  intros f [(Hb & Hl & Hc & Hp) ->]. pose proof Hb as [H1 H2 H3 H4 H5 H6 H7].
  pose proof (H7 name) as Hn. rewrite Ho in Hn.
  destruct (state f !! name) as [d|] eqn:Es; [destruct (b_state (backup_of (id m) f) !! name) eqn:Ebs|].
  - destruct Hn as [[_ ?]|[? _]]; done.
  - set (f' := set_backup (id m) (mkBackup (b_lux (backup_of (id m) f)) (b_files (backup_of (id m) f))
      (<[name := d]> (b_state (backup_of (id m) f))) (b_complete (backup_of (id m) f)))
      (set_state (delete name (state f)) f)).
    assert (forall k, state f' !! k = if decide (k = name) then None else state f !! k) as Hst.
    { intros k. unfold f'. cbn. destruct (decide (k = name)) as [->|]; [by rewrite lookup_delete_eq|].
      by rewrite lookup_delete_ne. }
    assert (backing f') as Hk.
    { split; try done; unfold f'; rewrite ?backup_set; try done.
      - destruct H2 as [H2 H2']. split; [done|]. intros j Hj. rewrite backup_set_other by done. by apply H2'.
      - intros k. fold f'. rewrite Hst. unfold f'. rewrite backup_set. cbn [b_state].
        destruct (decide (k = name)) as [->|Hne].
        + rewrite Ho, lookup_insert_eq. right. split; [done|]. destruct Hn as [[E _]|[? _]]; [|done].
          by rewrite <-E.
        + rewrite lookup_insert_ne by done. apply H7. }
    split; [apply Forall_singleton; by left|]. exists tt. split; [done|].
    split; [|by rewrite Hst, decide_True]. split; [done|].
    split; [destruct Hl as [Hl1 Hl2]; split; [done|unfold f'; by rewrite backup_set]|].
    split; [intros n' c' H; unfold f'; rewrite backup_set; by apply Hc|].
    apply (Hkeep f); [done|]. intros k Hk'. rewrite Hst. by destruct (decide (k = name)).
  - split; [done|]. exists tt. done.
Qed.

Definition copied_all (f : Fs) : Prop :=
  backing f /\ live_moved f /\ files_copied (encryption_backup_files config) f.

Lemma move_all_triple :
  triple copied_all under_way
    (match mode config with
     | Memory => move_directory_once (id m) (bs "journal")
     | Tiered =>
         s ← look state;
         each (move_directory_once (id m))
           (merge_sort bytes_le (List.filter is_owned_state_directory (fst <$> map_to_list s)))
     end)
    (fun _ f => copied_all f /\ dirs_moved f).
Proof.
  unfold dirs_moved. destruct (mode config) eqn:Em.
  - eapply triple_weaken; [apply (move_dir_triple (bs "journal") (fun _ => True))|..].
    + by rewrite Em.
    + done.
    + intros f (H1 & H2 & H3). done.
    + done.
    + cbn beta. intros _ f (H & Hn). split; [by destruct H as (H1 & H2 & H3 & _)|].
      intros k Hk. cbn [owned] in Hk. apply bytes_eqb_eq in Hk. by rewrite Hk.
  - eapply triple_bind; [apply triple_look|]. intros s. cbn beta.
    set (names := merge_sort _ _).
    set (J := fun (past : list bytes) f => copied_all f /\ (forall k, k ∈ past -> state f !! k = None) /\
                (forall k, s !! k = None -> state f !! k = None)).
    eapply (triple_weaken (J []) _ under_way under_way _ (fun _ => J names)); [|..].
    + apply triple_each. intros past a rest E.
      assert (owned (mode config) a = true) as Ho.
      { assert (a ∈ names) as Ha by (rewrite E; set_solver). unfold names in Ha.
        rewrite merge_sort_Permutation in Ha. rewrite list_elem_of_In in Ha.
        apply filter_In in Ha as [_ Ha]. by rewrite Em. }
      eapply triple_weaken; [apply (move_dir_triple a
        (fun f => (forall k, k ∈ past -> state f !! k = None) /\ (forall k, s !! k = None -> state f !! k = None)) Ho)|..].
      * intros f f' [Hp Hs] Hst. split; intros k Hk; apply Hst; [by apply Hp|by apply Hs].
      * intros f ((Hb & Hl & Hc) & Hp & Hs). done.
      * done.
      * cbn beta. intros _ f ((Hb & Hl & Hc & Hp & Hs) & Hn). split; [done|]. split; [|done].
        intros k [Hk|Hk]%elem_of_app; [by apply Hp|]. by apply list_elem_of_singleton in Hk as ->.
    + intros f [Hc ->]. split; [done|]. split; [by intros k ?%not_elem_of_nil|done].
    + done.
    + cbn beta. intros _ f (Hc & Hp & Hs). split; [done|]. intros k Hk.
      destruct (s !! k) as [d|] eqn:Ek; [|by apply Hs]. apply Hp. unfold names.
      rewrite merge_sort_Permutation, list_elem_of_In. apply filter_In. split; [|done].
      apply list_elem_of_In, list_elem_of_fmap. exists (k, d). split; [done|]. by apply elem_of_map_to_list.
Qed.

Lemma backed_from f c :
  copied_all f -> dirs_moved f -> c ≠ None -> installing (set_complete (id m) c f).
Proof.
  intros ([H1 H2 H3 H4 H5 H6 H7] & [Hl1 Hl2] & Hc) Hd Hne.
  assert (backup_of (id m) (set_complete (id m) c f) =
    mkBackup (b_lux (backup_of (id m) f)) (b_files (backup_of (id m) f)) (b_state (backup_of (id m) f)) c) as E.
  { unfold set_complete. by rewrite backup_set. }
  split; [done| |left; done]. split; rewrite ?E; cbn [b_lux b_files b_state b_complete].
  - by left.
  - destruct H2 as [H2 H2']. split; [done|]. intros j Hj. unfold set_complete.
    rewrite backup_set_other by done. by apply H2'.
  - done.
  - apply map_eq. intros name. destruct (b_files (backup_of (id m) f) !! name) as [x|] eqn:Ex.
    + apply H6 in Ex. symmetry. apply elem_of_list_to_map_1; [apply (r_files Hready)|done].
    + symmetry. apply not_elem_of_list_to_map. intros ([n' x'] & -> & Hin)%list_elem_of_fmap.
      apply Hc in Hin. cbn in Ex. by rewrite Ex in Hin.
  - intros k. specialize (H7 k). destruct (owned (mode config) k) eqn:Ek; [|by destruct H7].
    specialize (Hd k Ek). destruct H7 as [[E1 E2]|[_ E2]]; [|done]. by rewrite E2, <-E1.
  - by destruct c; [eexists|].
  - intros k Hk. specialize (H7 k). rewrite Hk in H7. by destruct H7.
Qed.

Lemma backup_triple :
  triple backing under_way (backup_current_state sha256 config m mb)
    (fun _ f => installing f /\ staged f = Some p).
Proof.
  unfold backup_current_state. eapply triple_bind; [apply move_file_triple|]. intros u1. cbn beta.
  eapply (triple_bind _ _ _ _ (fun _ => copied_all)).
  { eapply triple_weaken; [apply (triple_each under_way _ (fun (past : list (bytes * bytes)) f => backing f /\ live_moved f /\ files_copied past f))|..].
    - intros past a rest E. by eapply copy_triple.
    - cbn beta. intros f [Hb Hl]. split; [done|]. split; [done|]. by intros n c ?%not_elem_of_nil.
    - done.
    - done. }
  intros u2. eapply triple_bind; [apply move_all_triple|]. intros u3. cbn beta.
  eapply triple_bind; [apply triple_look|]. intros c. cbn beta.
  intros f [[Hc Hd] ->]. pose proof Hc as (Hb & _). rewrite (k_complete _ Hb).
  unfold write_private_new, mbind, M_bind, change.
  pose proof (backed_from f (Some []) Hc Hd ltac:(done)) as I1.
  assert (set_complete (id m) (Some mb) (set_complete (id m) (Some []) f) = set_complete (id m) (Some mb) f) as E.
  { unfold set_complete. rewrite backup_set. cbn [b_lux b_files b_state]. unfold set_backup. cbn.
    by rewrite insert_insert_eq. }
  pose proof (backed_from f (Some mb) Hc Hd ltac:(done)) as I2. rewrite E. split.
  - apply Forall_cons. split; [by right|]. apply Forall_singleton. by right.
  - exists tt. split; [done|]. split; [done|]. apply (k_staged _ Hb).
Qed.

Lemma install_triple :
  triple installing under_way
    (install_snapshot sha256 hll_count decrypt_vector validation epoch clock m)
    (fun _ f => installing f /\ live f = Some p).
Proof.
  unfold install_snapshot. eapply triple_bind; [apply triple_look|]. intros f1. cbn beta.
  eapply (triple_bind _ _ _ _ (fun _ f => installing f /\ live f = Some p)).
  - intros f [Hi ->]. destruct (n_files _ Hi) as [(Es & El & Hj)|(Es & El & Hj)]; rewrite Es, ?El.
    + unfold exists_file. rewrite bool_decide_eq_true_2 by (by eexists). rewrite bool_decide_eq_false_2 by (by intros []). unfold change. rewrite Es.
      assert (installing (set_live (Some p) (set_staged None f))) as Hi'.
      { destruct Hi as [H1 [B1 B2 B3 B4 B5 B6 B7] _]. split; [done|by split|]. right. split; [done|].
        split; [done|]. by left. }
      split; [apply Forall_singleton; by right|]. by exists tt.
    + unfold exists_file. rewrite bool_decide_eq_false_2 by (by intros []). split; [done|]. by exists tt.
  - intros u. eapply triple_bind; [apply triple_look|]. intros l. cbn beta. intros f [[Hi El] ->]. rewrite El.
    unfold check. rewrite valid_now. split; [done|]. by exists tt.
Qed.

Lemma journal_file_of content f : journal_is content f -> journal_file config f = Some content.
Proof.
  unfold journal_is, journal_file. pose proof journal_owned as Ho.
  destruct (journal_place (mode config)) as [name path]. cbn [fst] in Ho. intros H.
  rewrite (H name Ho), decide_True by done. cbn. by rewrite lookup_singleton_eq.
Qed.

Lemma journal_file_absent f : journal_absent f -> journal_file config f = None.
Proof.
  unfold journal_absent, dirs_moved, journal_file. pose proof journal_owned as Ho.
  destruct (journal_place (mode config)) as [name path]. cbn [fst] in Ho. intros H. by rewrite (H name Ho).
Qed.

Lemma set_journal_is content f :
  journal_absent f \/ (exists c, journal_is c f) -> journal_is content (set_journal_file config content f).
Proof.
  unfold journal_absent, dirs_moved, journal_is, set_journal_file. pose proof journal_owned as Ho.
  destruct (journal_place (mode config)) as [name path]. cbn [fst] in Ho. intros H k Hk. cbn [state set_state].
  destruct (decide (k = name)) as [->|Hne].
  - rewrite lookup_insert_eq. f_equal. destruct H as [H|[c H]].
    + by rewrite (H name Ho).
    + rewrite (H name Ho), decide_True by done. apply insert_singleton_eq.
  - rewrite lookup_insert_ne by done. destruct H as [H|[c H]]; [by apply H|].
    by rewrite (H k Hk), decide_False.
Qed.

Lemma backed_set_journal content f : backed_up f -> backed_up (set_journal_file config content f).
Proof.
  intros [B1 B2 B3 B4 B5 B6 B7]. unfold set_journal_file. pose proof journal_owned as Ho.
  destruct (journal_place (mode config)) as [name path]. cbn [fst] in Ho. split; try done.
  intros k Hk. cbn [state set_state]. rewrite lookup_insert_ne; [by apply B7|]. intros <-. congruence.
Qed.

Lemma set_journal_rest content f :
  pending (set_journal_file config content f) = pending f /\
  staged (set_journal_file config content f) = staged f /\ live (set_journal_file config content f) = live f.
Proof. unfold set_journal_file. by destruct (journal_place (mode config)). Qed.

(** A change of the journal, once the snapshot is installed. *)
Lemma installing_journal content f :
  installing f -> live f = Some p -> content = [] \/ content = Wal.wal_header_bytes g ->
  installing (set_journal_file config content f) /\ live (set_journal_file config content f) = Some p /\
  journal_is content (set_journal_file config content f).
Proof.
  intros Hi El Hc. destruct (set_journal_rest content f) as (R1 & R2 & R3).
  destruct (n_files _ Hi) as [(_ & E & _)|(Es & _ & Hj)]; [by rewrite El in E|].
  assert (journal_is content (set_journal_file config content f)) as J.
  { apply set_journal_is. destruct Hj as [Hj|[Hj|Hj]]; [by left|right; by eexists|right; by eexists]. }
  split; [|by rewrite R3]. split; [rewrite R1; by apply n_pending|apply backed_set_journal, Hi|].
  right. rewrite R2, R3. split; [done|]. split; [done|]. right. destruct Hc as [-> | ->]; [by left|by right].
Qed.

Lemma journal_created content :
  content = [] \/ content = Wal.wal_header_bytes g ->
  exists w, Wal.create_named_with_generation (bs "global") content g [] = IoOk w /\
    Wal.file w = Wal.wal_header_bytes g.
Proof.
  pose proof (r_generation Hready) as Hg. pose proof Hg as (Hl & _ & Hz). intros [-> | ->].
  - exists (Wal.mkWal (Wal.wal_header_bytes g) Wal.Guarded Wal.WAL_HEADER_LEN g). split; [|reflexivity].
    unfold Wal.create_named_with_generation.
    change (Wal.wal_name_ok (bs "global")) with true. cbn [negb].
    rewrite (proj2 (bytes_eqb_neq _ _) Hz). cbn [Wal.open_in negb default mbind io_bind Wal.generation].
    by rewrite bytes_eqb_refl.
  - exists (Wal.journal g [] []). split; [|apply app_nil_r].
    unfold Wal.create_named_with_generation. change (Wal.wal_name_ok (bs "global")) with true. cbn [negb].
    rewrite (proj2 (bytes_eqb_neq _ _) Hz).
    pose proof (Wal.open_journal g [] [] true (Some g) [] Hg) as Ho.
    assert (Wal.file (Wal.journal g [] []) = Wal.wal_header_bytes g) as E by (apply app_nil_r).
    rewrite E in Ho. rewrite (io_step _ _ _ Ho). cbv beta.
    change (Wal.generation (Wal.journal g [] [])) with g. by rewrite bytes_eqb_refl.
Qed.

Lemma journal_triple :
  triple (fun f => installing f /\ live f = Some p) under_way (install_successor_journal sha256 config)
    (fun _ f => installing f /\ live f = Some p /\ journal_is (Wal.wal_header_bytes g) f).
Proof.
  unfold install_successor_journal. eapply triple_bind; [apply triple_look|]. intros l. cbn beta.
  eapply (triple_bind _ _ _ _ (fun g' f => (installing f /\ live f = Some p) /\ g' = Some g)).
  { intros f [[Hi El] ->]. rewrite El. unfold check. rewrite (r_successor Hready). split; [done|]. by eexists. }
  intros [g'|]; [|by intros f [_ ?]].
  eapply (triple_weaken (fun f => (installing f /\ live f = Some p) /\ g' = g) _ under_way _ _
    (fun _ f => installing f /\ live f = Some p /\ journal_is (Wal.wal_header_bytes g) f));
    [|by intros f [H [= ->]]|done|done].
  eapply triple_bind; [apply triple_look|]. intros jf. cbn beta. intros f [[[Hi El] ->] ->].
  destruct (n_files _ Hi) as [(_ & E & _)|(Es & _ & Hj)]; [by rewrite El in E|].
  destruct Hj as [Hj|[Hj|Hj]].
  - rewrite (journal_file_absent f Hj). cbn [from_option Datatypes.id]. destruct (journal_created [] ltac:(by left)) as (w & Ew & Hw).
    unfold mbind, M_bind, check, change. rewrite Ew, Hw.
    destruct (installing_journal [] f Hi El ltac:(by left)) as (I1 & L1 & J1).
    pose proof (installing_journal (Wal.wal_header_bytes g) _ I1 L1 ltac:(by right)) as I2. split.
    + apply Forall_cons. split; [by right|]. apply Forall_singleton. right. apply I2.
    + by exists tt.
  - rewrite (journal_file_of [] f Hj). cbn [from_option Datatypes.id]. destruct (journal_created [] ltac:(by left)) as (w & Ew & Hw).
    unfold mbind, M_bind, check, change. rewrite Ew, Hw.
    pose proof (installing_journal (Wal.wal_header_bytes g) f Hi El ltac:(by right)) as I2.
    split; [apply Forall_singleton; right; apply I2|]. by exists tt.
  - rewrite (journal_file_of _ f Hj). cbn [from_option Datatypes.id].
    destruct (journal_created (Wal.wal_header_bytes g) ltac:(by right)) as (w & Ew & Hw).
    unfold mbind, M_bind, check. rewrite Ew. destruct (Wal.wal_header_bytes g) as [|b hb] eqn:Eh; [by cbv in Eh|].
    split; [done|]. exists tt. by rewrite <-Eh in *.
Qed.

Definition progress (f : Fs) : Prop := under_way f \/ committed f.

Abbreviation commit := (commit_pending_restore sha256 hll_count decrypt_vector validation epoch clock config).

Lemma commit_checks f :
  under_way f ->
  pending f = Some mb /\
  (if exists_file (staged f) then staged f
   else if exists_file (b_complete (backup_of (id m) f)) then live f else None) = Some p /\
  (exists_file (b_complete (backup_of (id m) f)) = false -> backing f) /\
  (exists_file (b_complete (backup_of (id m) f)) = true -> installing f) /\
  (exists_file (staged f) = false -> exists_file (b_complete (backup_of (id m) f)) = true).
Proof.
  unfold exists_file. intros [Hb|Hi].
  - rewrite (k_complete _ Hb), (k_staged _ Hb), bool_decide_eq_true_2 by (by eexists).
    rewrite bool_decide_eq_false_2 by (by intros []). by split; [apply k_pending|].
  - pose proof (b_marked _ (n_backed _ Hi)) as Hm. rewrite (bool_decide_eq_true_2 (is_Some (b_complete _))) by done.
    split; [by apply n_pending|]. split; [|done].
    destruct (n_files _ Hi) as [(-> & _ & _)|(-> & -> & _)];
      [rewrite bool_decide_eq_true_2 by (by eexists)|rewrite bool_decide_eq_false_2 by (by intros [])]; done.
Qed.

Lemma finish_commit f :
  installing f -> live f = Some p -> journal_is (Wal.wal_header_bytes g) f -> committed (set_pending None f).
Proof.
  intros Hi El Hj. destruct Hi as [H1 [B1 B2 B3 B4 B5 B6 B7] [(_ & E & _)|(Es & _ & _)]]; [by rewrite El in E|].
  split; try done. split; try done. by right.
Qed.

Lemma commit_triple : triple under_way progress commit (fun r f => r = true /\ committed f).
Proof.
  unfold commit_pending_restore.
  eapply (triple_bind _ _ _ _ (fun r f => under_way f /\ r = Some (m, mb))).
  { unfold read_pending. eapply triple_bind; [apply triple_look|]. intros pb. cbn beta.
    intros f [Hf ->]. destruct (commit_checks f Hf) as (-> & _).
    unfold mbind, M_bind, check. rewrite (r_manifest Hready). split; [done|]. by eexists. }
  intros r. intros f [Hf ->]. revert f Hf.
  rewrite (r_persistent Hready). cbn [negb].
  eapply (triple_bind under_way _ _ _ (fun _ => under_way)).
  { intros f Hf. unfold check. rewrite (r_binding Hready). split; [done|]. by eexists. }
  intros u. eapply triple_bind; [apply triple_look|]. intros f1. cbn beta zeta.
  eapply (triple_bind _ _ _ _ (fun c f => (under_way f /\ f1 = f) /\ c = Some p)).
  { intros f [Hf ->]. destruct (commit_checks f Hf) as (_ & Hc & _ & _ & He).
    destruct (exists_file (staged f)); [split; [done|]; by eexists|].
    rewrite He in * by done. split; [done|]. by eexists. }
  intros c. eapply (triple_bind _ _ _ _ (fun _ f => under_way f /\ f1 = f)).
  { intros f [Hf ->]. unfold check. rewrite valid_now. split; [done|]. by eexists. }
  intros u'. destruct (r_space Hready) as [-> ->]. cbn [negb].
  eapply (triple_bind _ _ _ _ (fun _ => installing)).
  { intros f [Hf ->]. destruct (commit_checks f Hf) as (_ & _ & H0 & H1 & _).
    destruct (exists_file (b_complete (backup_of (id m) f))) eqn:Ec.
    - split; [done|]. exists tt. split; [done|]. by apply H1.
    - pose proof (triple_weaken _ backing _ progress _ _ (fun _ f => installing f) backup_triple) as Hb.
      apply Hb; [done|intros f' Hf'; by left|by intros a f' [H _]|by apply H0]. }
  intros u2. eapply (triple_bind _ _ _ _ (fun _ f => installing f /\ live f = Some p)).
  { apply (triple_weaken installing _ under_way progress _ _ _ install_triple); [done|intros f' Hf'; by left|done]. }
  intros u3. eapply (triple_bind _ _ _ _
    (fun _ f => installing f /\ live f = Some p /\ journal_is (Wal.wal_header_bytes g) f)).
  { apply (triple_weaken _ _ under_way progress _ _ _ journal_triple); [done|intros f' Hf'; by left|done]. }
  intros u4. cbn beta. eapply triple_bind.
  { apply (triple_change _ _ _ committed). intros f (Hi & El & Hj).
    pose proof (finish_commit f Hi El Hj). by split; [right|]. }
  intros u5. apply triple_ret. done.
Qed.

Lemma commit_again f : committed f -> commit f = ([], f, IoOk false).
Proof.
  intros [D1 D2 D3 D4 D5]. unfold commit_pending_restore, read_pending, clean_uncommitted_stage.
  unfold mbind, M_bind, look. rewrite D1. cbn. rewrite D3. cbn.
  destruct (b_untouched _ D2) as [Ht _]. by rewrite Ht, (r_tmp Hready).
Qed.

End Progress.

(** Another start of the same configuration, with its own free space. *)
Definition with_space (d j : bool) (c : Config) : Config :=
  mkConfig (mode c) (persistent c) (c_data_dir_hash c) (c_journal_dir_hash c) (c_encryption_paths_hash c)
    (encryption_backup_files c) (auth_enabled c) d j.

(** A start that is interrupted after one of its changes of the directory. *)
Definition interrupted (sha256 : bytes -> bytes) (hll_count : bytes -> Z)
    (decrypt_vector : bytes -> bytes -> result (list Z)) (validation : Store.Store.Store) (config : Config)
    (f f' : Fs) : Prop :=
  exists epoch clock d j,
    f' ∈ (commit_pending_restore sha256 hll_count decrypt_vector validation epoch clock
            (with_space d j config) f).1.1.

Lemma short_of_space sha256 hll_count decrypt_vector validation epoch clock config d j f :
  d && j = false -> pending f ≠ None ->
  (commit_pending_restore sha256 hll_count decrypt_vector validation epoch clock
     (with_space d j config) f).1.1 = [].
Proof.
  intros Hs Hp. unfold commit_pending_restore, read_pending. unfold mbind, M_bind, look, check, refuse.
  destruct (pending f) as [b|]; [|done]. destruct (decode_manifest b) as [m|]; [|done]. cbn.
  destruct (negb (persistent config)); [done|]. destruct (validate_binding _ m) as [u|]; [|done]. cbn.
  repeat match goal with |- context [if exists_file ?x then _ else _] => destruct (exists_file x) end; cbn;
    try done; destruct (validate_candidate _ _ _ _ _ _ _ m); cbn; try done; destruct d; cbn in *;
    try done; by rewrite Hs.
Qed.

Lemma progress_kept sha256 hll_count decrypt_vector validation config f0 m mb p g f f' :
  ready sha256 hll_count decrypt_vector validation config f0 m mb p g ->
  progress config f0 m mb p g f -> interrupted sha256 hll_count decrypt_vector validation config f f' ->
  progress config f0 m mb p g f'.
Proof.
  intros Hr Hf (epoch & clock & d & j & Hin).
  assert (with_space true true config = config) as Ew.
  { destruct (r_space _ _ _ _ _ _ _ _ _ _ Hr) as [E1 E2]. destruct config; cbn in *. by rewrite E1, E2. }
  destruct Hf as [Hf|Hf].
  - destruct (d && j) eqn:Es.
    + apply andb_true_iff in Es as [-> ->]. rewrite Ew in Hin.
      pose proof (commit_triple _ _ _ _ _ _ _ _ _ _ Hr epoch clock f Hf) as Ht.
      destruct (commit_pending_restore _ _ _ _ _ _ _ f) as [[l f1] r]. destruct Ht as [Hl _].
      cbn in Hin. rewrite Forall_forall in Hl. by apply Hl.
    + rewrite short_of_space in Hin; [by apply not_elem_of_nil in Hin|done|].
      destruct (commit_checks _ _ _ _ _ _ _ Hf) as [E _]. by rewrite E.
  - unfold commit_pending_restore, read_pending, clean_uncommitted_stage in Hin.
    unfold mbind, M_bind, look in Hin. destruct Hf as [D1 D2 D3 D4 D5]. rewrite D1 in Hin. cbn in Hin.
    rewrite D3 in Hin. cbn in Hin. destruct (b_untouched _ _ _ _ _ D2) as [Ht _].
    rewrite Ht, (r_tmp _ _ _ _ _ _ _ _ _ _ Hr) in Hin. cbn in Hin. by apply not_elem_of_nil in Hin.
Qed.

(** ** Lemmas: staging *)

Definition same_state (f f' : Fs) : Prop :=
  live f' = live f /\ state f' = state f /\ backups f' = backups f.

(** Without a manifest a start changes nothing but the leftovers of a staging. *)
Lemma commit_nothing sha256 hll_count decrypt_vector validation epoch clock config f :
  pending f = None ->
  let '(l, f', r) := commit_pending_restore sha256 hll_count decrypt_vector validation epoch clock config f in
  r = IoOk false /\ same_state f f' /\ pending f' = None /\ staged f' = None /\ pending_tmp f' = None.
Proof.
  intros Hp. unfold commit_pending_restore, read_pending, clean_uncommitted_stage, mbind, M_bind, look.
  rewrite Hp. destruct f as [lv pd tm sg st bk]. cbn in *. subst pd.
  destruct sg, tm; cbn; done.
Qed.

Lemma clean_ok f :
  pending f = None ->
  let '(l, f', r) := clean_uncommitted_stage f in
  r = IoOk tt /\ Forall (fun x => same_state f x /\ pending x = None) l /\
  same_state f f' /\ pending f' = None /\ staged f' = None /\ pending_tmp f' = None.
Proof.
  intros Hp. unfold clean_uncommitted_stage, mbind, M_bind, look.
  destruct f as [lv pd tm sg st bk]. cbn in *. subst pd.
  destruct sg, tm; cbn; (split; [done|]); (split; [|done]); repeat apply Forall_cons_2; try done; apply Forall_nil_2.
Qed.

(** The manifest that staging writes. *)
Definition staged_manifest (sha256 : bytes -> bytes) (config : Config) (source : bytes)
    (format : SnapshotFormat) (canonical fresh : bytes) : PendingRestore :=
  mkPending fresh (zlen source) (zlen canonical) format (mode config) (sha256 source) (sha256 canonical)
    (c_data_dir_hash config) (c_journal_dir_hash config) (c_encryption_paths_hash config).

Lemma stage_ok sha256 config source expected canonicalized fresh f :
  pending f = None ->
  let '(l, f', r) := stage_canonical sha256 config source expected canonicalized fresh f in
  Forall (fun x => same_state f x /\ (pending x = None \/ x = f' /\ exists s, r = IoOk s)) l /\ same_state f f' /\
  match r with
  | IoErr _ => pending f' = None
  | IoOk s =>
      exists format n canonical, canonicalized = IoOk (format, n, canonical) /\ source ≠ [] /\
        persistent config = true /\ data_space config = true /\
        s_manifest s = staged_manifest sha256 config source format canonical fresh /\ s_entries s = n /\
        pending f' = Some (encode_manifest (s_manifest s)) /\ staged f' = Some canonical /\ pending_tmp f' = None
  end.
Proof.
  intros Hp. unfold stage_canonical. destruct (persistent config) eqn:Ep; cbn [negb]; [|done].
  unfold mbind at 1, M_bind at 1, look at 1. rewrite Hp. unfold exists_file.
  rewrite bool_decide_eq_false_2 by (by intros []).
  unfold mbind at 1, M_bind at 1. pose proof (clean_ok f Hp) as Hc.
  destruct (clean_uncommitted_stage f) as [[l0 f1] r0]. destruct Hc as (-> & Hl0 & Hs0 & Hp0 & Hg0 & Ht0).
  assert (forall Q : Fs -> Prop, Forall (fun x => same_state f x /\ (pending x = None \/ Q x)) l0) as Hl.
  { intros Q. eapply Forall_impl; [exact Hl0|]. intros x [H1 H2]. split; [done|by left]. }
  destruct (bool_decide_reflect (source = [])) as [->|Hne].
  { cbn. rewrite app_nil_r. done. }
  match goal with |- context [(?chk ≫= ?k) f1] => set (check_sum := chk); set (go := k) end.
  assert ((exists e, check_sum f1 = ([], f1, IoErr e)) \/ check_sum f1 = ([], f1, IoOk tt)) as [[e E]|E].
  { unfold check_sum. destruct expected as [text|]; [|by right]. unfold mbind, M_bind, check.
    destruct (decode_sha256 text) as [d|e]; [|left; by eexists].
    destruct (bytes_eqb d (sha256 source)); [by right|left; by eexists]. }
  - unfold mbind, M_bind. rewrite E. rewrite app_nil_r. done.
  - unfold mbind, M_bind. rewrite E. unfold go. clear check_sum E go.
    unfold refuse, write_private_new, check, change. unfold mbind, M_bind, mret, M_ret.
    destruct canonicalized as [[[format n] canonical]|e]; cbv beta iota zeta; [|rewrite !app_nil_r; done].
    fold (staged_manifest sha256 config source format canonical fresh).
    destruct (data_space config) eqn:Ed; cbn [negb]; cbv beta iota zeta; [|rewrite !app_nil_r; done]. cbn [app].
    remember (encode_manifest (staged_manifest sha256 config source format canonical fresh)) as mb eqn:Em.
    destruct Hs0 as (S1 & S2 & S3). destruct f1 as [lv pd tm sg st bk]. cbn in *. subst pd tm sg.
    split.
    + apply Forall_app. split; [apply Hl|].
      apply Forall_cons. split; [split; [by split_and!|by left]|].
      apply Forall_cons. split; [split; [by split_and!|by left]|].
      apply Forall_cons. split; [split; [by split_and!|by left]|].
      apply Forall_cons. split; [split; [by split_and!|by left]|].
      apply Forall_cons. split; [split; [by split_and!|]|apply Forall_nil_2].
      right. split; [done|]. by eexists.
    + split; [by split_and!|]. exists format, n, canonical. by rewrite Em.
Qed.

(** What a staging is given: identifier and digests of their sizes, lengths in range, a canonical
    snapshot that validates and authorizes the generation [g] of a new journal (what
    [Snapshot.canonicalize_restore] makes of a payload), and a backup name that is not taken. *)
Record staging_inputs (sha256 : bytes -> bytes) (hll_count : bytes -> Z)
    (decrypt_vector : bytes -> bytes -> result (list Z)) (validation : Store.Store.Store) (config : Config)
    (f : Fs) (source canonical fresh g : bytes) : Prop := {
  i_digest : forall b, length (sha256 b) = 32%nat;
  i_fresh : length fresh = 16%nat /\ fresh ≠ replicate 16 0 /\ backups f !! fresh = None;
  i_paths : length (c_data_dir_hash config) = 32%nat /\ length (c_journal_dir_hash config) = 32%nat /\
            length (c_encryption_paths_hash config) = 32%nat;
  i_sizes : zlen source < u64_mod /\ 0 < zlen canonical < u64_mod;
  i_valid : exists n, validate_restore_reader sha256 hll_count decrypt_vector 0 (fun _ => 0) (fun _ => 0)
                        canonical validation = IoOk (V6, n);
  i_successor : authorized_global_successor sha256 canonical = IoOk (Some g);
  i_generation : Wal.generation_ok g;
  i_space : journal_space config = true;
  i_files : NoDup (encryption_backup_files config).*1
}.

Lemma staged_ready sha256 hll_count decrypt_vector validation config f f0 source format canonical fresh g :
  staging_inputs sha256 hll_count decrypt_vector validation config f source canonical fresh g ->
  same_state f f0 -> source ≠ [] -> persistent config = true -> data_space config = true ->
  let m := staged_manifest sha256 config source format canonical fresh in
  pending f0 = Some (encode_manifest m) -> staged f0 = Some canonical -> pending_tmp f0 = None ->
  ready sha256 hll_count decrypt_vector validation config f0 m (encode_manifest m) canonical g.
Proof.
  intros [Hd (Hf1 & Hf2 & Hf3) (P1 & P2 & P3) (S1 & S2) (n & Hv) Hs Hg Hj He] (Q1 & Q2 & Q3) Hne Hp Hsp m E1 E2 E3.
  split; try done.
  - apply decode_encode. assert (0 < zlen source) by (destruct source; [done|unfold zlen; cbn; lia]).
    unfold manifest_ok; cbn. rewrite !Hd. split_and!; done || lia.
  - unfold validate_binding. cbn. by rewrite bool_decide_eq_true_2, !bytes_eqb_refl.
  - unfold validate_candidate. cbn. rewrite Z.eqb_refl, bytes_eqb_refl. cbn [negb].
    rewrite (io_step _ _ _ Hv). cbv beta iota. by rewrite bool_decide_eq_true_2.
  - by rewrite Q3.
Qed.

Lemma progress_rtc sha256 hll_count decrypt_vector validation config f0 m mb p g f f' :
  ready sha256 hll_count decrypt_vector validation config f0 m mb p g ->
  progress config f0 m mb p g f -> rtc (interrupted sha256 hll_count decrypt_vector validation config) f f' ->
  progress config f0 m mb p g f'.
Proof. intros Hr Hf. induction 1; eauto using progress_kept. Qed.

(** A start in the middle of a restore, or after it, ends with the restore done. *)
Lemma progress_completes sha256 hll_count decrypt_vector validation config f0 m mb p g epoch clock f :
  ready sha256 hll_count decrypt_vector validation config f0 m mb p g -> progress config f0 m mb p g f ->
  let '(_, f', r) := commit_pending_restore sha256 hll_count decrypt_vector validation epoch clock config f in
  (r = IoOk true \/ (r = IoOk false /\ f' = f)) /\ committed config f0 m mb p g f'.
Proof.
  intros Hr [Hf|Hf].
  - pose proof (commit_triple _ _ _ _ _ _ _ _ _ _ Hr epoch clock f Hf) as Ht.
    destruct (commit_pending_restore _ _ _ _ _ _ _ f) as [[l f'] r]. destruct Ht as (_ & a & -> & -> & Hc).
    split; [by left|done].
  - rewrite (commit_again _ _ _ _ _ _ _ _ _ _ Hr epoch clock f Hf). split; [by right|done].
Qed.

(** ** Properties *)


(** ** A sample restore *)

Definition sample_config : Config :=
  mkConfig Memory true (replicate 32 1) (replicate 32 2) (replicate 32 3) [(bs "keyring", bs "secret")] false
    true true.

(** The directory has a snapshot and a journal. *)
Definition sample_fs : Fs :=
  mkFs (Some (bs "old")) None None None {[bs "journal" := {[bs "global/wal.lux" := bs "old journal"]}]} ∅.

Definition sample_source : bytes :=
  value_of (save_snapshot_binary sample_digest sample_seal (fun _ => 1000)
    [mkDumpEntry (bs "k") (DStr (bs "v")) 3000] sample_checkpoints).

Definition sample_draws : Draws :=
  mkDraws (fun _ => 1500) (fun _ => 0) (fun _ => 1600) 0 (replicate 16 4) (replicate 16 5) (replicate 16 6).

Definition sample_canonical : io (SnapshotFormat * Z * bytes) :=
  canonical_of sample_digest (fun _ => 0) sample_open (Store.Store.new 1) sample_config sample_seal (fun _ => None)
    (fun s => (None, s)) sample_draws sample_source.

Definition canonical_bytes : bytes := match sample_canonical with IoOk (_, _, c) => c | IoErr _ => [] end.

Lemma sample_inputs :
  staging_inputs sample_digest (fun _ => 0) sample_open (Store.Store.new 1) sample_config sample_fs sample_source
    canonical_bytes (replicate 16 6) (replicate 16 5).
Proof.
  split.
  - intros b. apply length_le_bytes.
  - split; [reflexivity|]. split; [discriminate|reflexivity].
  - split_and!; reflexivity.
  - vm_compute. split_and!; reflexivity.
  - exists 1. vm_compute. reflexivity.
  - vm_compute. reflexivity.
  - split; [reflexivity|]. split; [|discriminate]. repeat apply Forall_cons_2; try (vm_compute; split; [discriminate|reflexivity]). apply Forall_nil_2.
  - reflexivity.
  - apply NoDup_singleton.
Qed.

Definition is_ok {A} (r : io A) : bool := match r with IoOk _ => true | IoErr _ => false end.
Definition is_ok_true (r : io bool) : bool := match r with IoOk b => b | IoErr _ => false end.

Abbreviation sample_stage := (stage_restore sample_digest (fun _ => 0) sample_open (Store.Store.new 1)
  sample_config sample_seal (fun _ => None) (fun s => (None, s)) sample_draws sample_source None sample_fs).
Abbreviation sample_commit := (commit_pending_restore sample_digest (fun _ => 0) sample_open (Store.Store.new 1)
  (fun _ => 0) (fun _ => 0) sample_config).

Definition sample_staged : Fs := sample_stage.1.2.

(** The first change of a start after the staging: the old snapshot is in the backup and the new one is
    not in place. *)
Definition sample_cut : Fs :=
  match (sample_commit sample_staged).1.1 with f :: _ => f | [] => sample_staged end.

Lemma sample_cut_reached :
  interrupted sample_digest (fun _ => 0) sample_open (Store.Store.new 1) sample_config sample_staged sample_cut.
Proof.
  exists (fun _ => 0), (fun _ => 0), true, true. change (with_space true true sample_config) with sample_config.
  assert (Nat.ltb 0 (length (sample_commit sample_staged).1.1) = true) as Hl by (vm_compute; reflexivity).
  unfold sample_cut. destruct ((sample_commit sample_staged).1.1); [done|by left].
Qed.


End Restore.
