(* ===== verification/Query.v ===== *)
(** * Finding the rows of a table ([src/src/tables/select.rs], lines 109-166, 181-233, 305-686, 1137-1203,
      1621-1660, 1705-1806, 1862-2190 and 2978-3150, and the WHERE forms of UPDATE and DELETE of
      [src/src/tables/mod.rs], lines 4506-4710)

    The conditions of a WHERE are evaluated on the cells of a row, as text and by the type of the column.
    A scan first collects candidates: for each condition that an index can answer, the primary keys that
    the index gives, intersected; or all rows. Then it reads every candidate and evaluates the
    conditions. The candidates of an index are counted, and a query with too many fails.

    As in [Tables] a text is its UTF-8 bytes and the store is what readers see of it. The order in which
    a set is listed is a parameter, as are the lower case of Unicode, the distance of two doubles
    and the configured number of candidates. *)

From S2P Require Import Prelude.
From S2P Require Import Values.
From S2P Require Import Store.
From S2P Require Import Strings.
From S2P Require Import SortedSets.
From S2P Require Import TableBatch.
From S2P Require Import Commands.
From S2P Require Import Where.
From S2P Require Import Jsonb.
From S2P Require Import Schema.
From S2P Require Import Tables.
From S2P Require Import TableJournal.
Local Open Scope Z_scope.

Module Query.
Import Strings.Strings(WRONGTYPE).
Import SortedSets.SortedSets(ranking, f64_eq, f64_lt, f64_le, INFINITY, NEG_INFINITY, NOT_A_FLOAT, skip_take, in_interval, reversed_if).
Import Store.Store(f64_is_nan, f64_rank).
Import TableBatch.TableBatch(TableValue, TvHash, TvZset, TvSet).
Import Where.Where(WhereClause, mkWhere, CmpOp, Eq_, Ne, Gt_, Lt_, Ge, Le, Like, ILike, In_, NotIn, IsValid, IsNotValid, IsNull, IsNotNull, Contains, Or_, single).
Import Schema.Schema.
Import Tables.Tables.
Import SortedSets.SortedSets(u64_ok).

#[local] Existing Instance Where.Where.CmpOp_eq_dec.

(** ** Clauses *)

Definition w_field (c : WhereClause) : bytes := let 'mkWhere f _ _ _ _ := c in f.
Definition w_op (c : WhereClause) : CmpOp := let 'mkWhere _ o _ _ _ := c in o.
Definition w_value (c : WhereClause) : bytes := let 'mkWhere _ _ v _ _ := c in v.
Definition w_values (c : WhereClause) : list bytes := let 'mkWhere _ _ _ vs _ := c in vs.
Definition w_or (c : WhereClause) : list WhereClause := let 'mkWhere _ _ _ _ os := c in os.

(** A clause with another column and no alternatives. *)
Definition on_column (field : bytes) (c : WhereClause) : WhereClause := mkWhere field (w_op c) (w_value c) (w_values c) [].

(** The texts of a parsed clause as UTF-8. *)
Fixpoint bytes_clause (c : WhereClause) : WhereClause :=
  let 'mkWhere f o v vs os := c in mkWhere (as_bytes f) o (as_bytes v) (as_bytes <$> vs) (bytes_clause <$> os).

Definition is_json_type (t : FieldType) : bool := match t with TJson | TArray => true | _ => false end.

Definition is_json_path_field (field : bytes) (schema : list FieldDef) : bool :=
  match split_path field with
  | Some (root, _) => existsb (fun f => bytes_eqb (f_name f) root && is_json_type (field_type f)) schema
  | None => false
  end.

(** [bare_col]: what follows the last dot. *)
Definition bare_col (col : bytes) : bytes := default [] (last (Where.Where.split_by (Z.eqb 46) col [])).

(** [f64::EPSILON] *)
Definition EPSILON : Z := 4372995238176751616.

Section Query.

Context `{Env} (to_lowercase : list Z -> list Z) (f64_distance : Z -> Z -> Z) (max_query_candidates : Z).

(** ** Evaluation *)

Definition like (actual pattern : bytes) (case_insensitive : bool) : bool :=
  default false (Where.Where.sql_like_matches to_lowercase (lossy actual) (lossy pattern) case_insensitive).

Definition bool_true (s : bytes) : bool := bytes_eqb s (bs "1") || bytes_eqb s (bs "true").
Definition as_int (s : bytes) : Z := default 0 (parse_i64 s).
Definition as_double (s : bytes) : Z := default 0 (parse_f64 s).

(** [(a - b).abs() < f64::EPSILON] *)
Definition f64_close (a b : Z) : bool := f64_lt (f64_distance a b) EPSILON.

Definition elem_eq (t : FieldType) (lhs rhs : bytes) : bool :=
  match t with
  | TBool => Bool.eqb (bool_true lhs) (bool_true rhs)
  | TInt | TTimestamp | TRef _ => as_int lhs =? as_int rhs
  | TFloat => f64_close (as_double lhs) (as_double rhs)
  | TStr | TUuid | TVector _ | TJson | TArray => bytes_eqb lhs rhs
  end.

Definition json_array_contains (raw needle : bytes) : bool :=
  match from_str (lossy raw) with
  | Some (Jsonb.Jsonb.Array arr) => existsb (fun el => bool_decide (json_scalar_string el = Some needle)) arr
  | _ => false
  end.

Definition cmp_int (op : CmpOp) (lhs rhs : Z) : bool :=
  match op with
  | Eq_ => lhs =? rhs | Ne => negb (lhs =? rhs) | Gt_ => rhs <? lhs | Lt_ => lhs <? rhs | Ge => rhs <=? lhs | Le => lhs <=? rhs
  | _ => false
  end.

Definition cmp_text (op : CmpOp) (lhs rhs : bytes) : bool :=
  match op with
  | Eq_ => bytes_eqb lhs rhs
  | Ne => negb (bytes_eqb lhs rhs)
  | Gt_ => negb (bytes_leb lhs rhs)
  | Lt_ => negb (bytes_leb rhs lhs)
  | Ge => bytes_leb rhs lhs
  | Le => bytes_leb lhs rhs
  | Like => like lhs rhs false
  | ILike => like lhs rhs true
  | _ => false
  end.

(** The comparison by the type of the column. *)
Definition compare_typed (t : FieldType) (op : CmpOp) (val value : bytes) : bool :=
  match t with
  | TBool =>
      match op with
      | Eq_ => Bool.eqb (bool_true val) (bool_true value)
      | Ne => negb (Bool.eqb (bool_true val) (bool_true value))
      | _ => false
      end
  | TInt | TTimestamp | TRef _ => cmp_int op (as_int val) (as_int value)
  | TFloat =>
      let lhs := as_double val in
      let rhs := as_double value in
      match op with
      | Eq_ => f64_close lhs rhs
      | Ne => f64_le EPSILON (f64_distance lhs rhs)
      | Gt_ => f64_lt rhs lhs
      | Lt_ => f64_lt lhs rhs
      | Ge => f64_le rhs lhs
      | Le => f64_le lhs rhs
      | _ => false
      end
  | TStr | TUuid | TVector _ | TJson | TArray => cmp_text op val value
  end.

Definition absent_matches (op : CmpOp) : bool := match op with Ne | IsNull => true | _ => false end.

(** [matches_condition] for a column that is not a group of alternatives (groups are resolved before). *)
Definition matches_condition (row : gmap bytes bytes) (cond : WhereClause) (field_def : FieldDef) : bool :=
  match row !! w_field cond with
  | None => absent_matches (w_op cond)
  | Some val =>
      match w_op cond with
      | IsNull => false
      | IsNotNull => true
      | In_ => existsb (elem_eq (field_type field_def) val) (w_values cond)
      | NotIn => negb (existsb (elem_eq (field_type field_def) val) (w_values cond))
      | IsValid | IsNotValid => false
      | Contains => json_array_contains val (w_value cond)
      | op => compare_typed (field_type field_def) op val (w_value cond)
      end
  end.

(** [compare_condition_value]: as numbers when both are. *)
Definition compare_condition_value (actual : bytes) (op : CmpOp) (expected : bytes) : bool :=
  match op with
  | IsNull => false
  | IsNotNull => true
  | _ =>
      match parse_f64 actual, parse_f64 expected with
      | Some a, Some e =>
          match op with
          | Eq_ => f64_eq a e | Ne => negb (f64_eq a e) | Gt_ => f64_lt e a | Lt_ => f64_lt a e | Ge => f64_le e a | Le => f64_le a e
          | _ => false
          end
      | _, _ => cmp_text op actual expected
      end
  end.

(** The comparison of a scalar at a JSON path. *)
Definition compare_scalar (actual : bytes) (cond : WhereClause) : bool :=
  match w_op cond with
  | In_ => existsb (compare_condition_value actual Eq_) (w_values cond)
  | NotIn => negb (existsb (compare_condition_value actual Eq_) (w_values cond))
  | op => compare_condition_value actual op (w_value cond)
  end.

Definition eval_json_path_text (raw : option bytes) (path : bytes) (cond : WhereClause) : bool :=
  match raw ≫= (fun raw => from_str (lossy raw)) with
  | None => bool_decide (w_op cond = IsNotValid)
  | Some parsed =>
      let resolved := json_path_get parsed (Where.Where.split_by (Z.eqb 46) path []) in
      let present := match resolved with Some Jsonb.Jsonb.Null | None => false | Some _ => true end in
      match w_op cond with
      | IsValid => present
      | IsNotValid => negb present
      | Contains =>
          match resolved with
          | Some (Jsonb.Jsonb.Array arr) => existsb (fun el => bool_decide (json_scalar_string el = Some (w_value cond))) arr
          | _ => false
          end
      | _ => match resolved ≫= json_scalar_string with Some actual => compare_scalar actual cond | None => false end
      end
  end.

Definition implicit_id_field_for (schema : list FieldDef) : option FieldDef :=
  if has_pk schema then None else Some (mkDef (bs "id") TInt true true false None None None false false).

(** One condition that is not a group. *)
Definition row_matches_one (row : gmap bytes bytes) (schema : list FieldDef) (implicit_id : option FieldDef) (cond : WhereClause) : bool :=
  if is_json_path_field (w_field cond) schema then
    match split_path (w_field cond) with Some (root, path) => eval_json_path_text (row !! root) path cond | None => true end
  else
    let bare := bare_col (w_field cond) in
    match find_field bare schema with
    | Some fd => matches_condition row (on_column bare cond) fd
    | None =>
        if bytes_eqb bare (bs "id") then match implicit_id with Some fd => matches_condition row (on_column bare cond) fd | None => true end
        else true
    end.

Fixpoint row_matches_cond (row : gmap bytes bytes) (schema : list FieldDef) (implicit_id : option FieldDef) (cond : WhereClause) : bool :=
  let 'mkWhere _ op _ _ os := cond in
  match op with
  | Or_ => existsb (row_matches_cond row schema implicit_id) os
  | _ => row_matches_one row schema implicit_id cond
  end.

Definition row_matches_base_conditions (row : gmap bytes bytes) (schema : list FieldDef) (implicit_id : option FieldDef) (conditions : list WhereClause) : bool :=
  forallb (row_matches_cond row schema implicit_id) conditions.

(** ** Candidates *)

Definition CANDIDATE_LIMIT : string := "ERR query candidate limit exceeded".

Definition bounded_candidate_limit (requested : option Z) : Z := Z.min (default usize_max requested) (u64_sat_add max_query_candidates 1).

Definition ensure_candidate_count (count : Z) : result unit := if count >? max_query_candidates then Err CANDIDATE_LIMIT else Ok tt.

(** [zrangebyscore], as [SortedSets.zrangebyscore_ok] gives it for the contents of a sorted set. *)
Definition zrangebyscore (d : Db) (key : bytes) (min max : Z) (min_excl max_excl reversed : bool) (offset count : option Z) : result (list bytes) :=
  if f64_is_nan min || f64_is_nan max then Err NOT_A_FLOAT
  else
    m ← zset_at d key;
    Ok (snd <$> skip_take (default 0 offset) (default usize_max count) (reversed_if reversed (List.filter (in_interval min max min_excl max_excl) (ranking m)))).

Definition smembers_limited (d : Db) (key : bytes) (limit : Z) : result (list bytes) :=
  l ← smembers d key; Ok (skip_take 0 limit l).

Definition get_query_row_ids (d : Db) (table : bytes) (requested : option Z) : result (list bytes) :=
  rows ← zrangebyscore d (ids_key table) NEG_INFINITY INFINITY false false false (Some 0) (Some (bounded_candidate_limit requested));
  _ ← ensure_candidate_count (zlen rows);
  Ok rows.

(** The interval of scores that a condition on a column asks for. *)
Definition score_bounds (op : CmpOp) (score : Z) : option (Z * Z * bool * bool) :=
  match op with
  | Eq_ => Some (score, score, false, false)
  | Gt_ => Some (score, INFINITY, true, false)
  | Ge => Some (score, INFINITY, false, false)
  | Lt_ => Some (NEG_INFINITY, score, false, true)
  | Le => Some (NEG_INFINITY, score, false, false)
  | _ => None
  end.

Definition range_candidates (d : Db) (zkey : bytes) (cond : WhereClause) (fetch_limit : Z) : result (option (list bytes)) :=
  match parse_f64 (w_value cond) with
  | None => Ok None
  | Some score =>
      match score_bounds (w_op cond) score with
      | None => Ok None
      | Some (min, max, min_excl, max_excl) =>
          ids ← zrangebyscore d zkey min max min_excl max_excl false (Some 0) (Some fetch_limit);
          _ ← ensure_candidate_count (zlen ids);
          Ok (Some ids)
      end
  end.

(** The loop over the blind indexes of a value of an encrypted column. *)
Fixpoint blind_members (d : Db) (table field : bytes) (fetch_limit : Z) (values : list bytes) (inspected : Z) (members : gset bytes) : result (gset bytes) :=
  match values with
  | [] => Ok members
  | v :: values =>
      indexed ← smembers_limited d (idx_str_key table field v) fetch_limit;
      let inspected := inspected + zlen indexed in
      _ ← ensure_candidate_count inspected;
      let members := members ∪ list_to_set indexed in
      _ ← ensure_candidate_count (Z.of_nat (size members));
      blind_members d table field fetch_limit values inspected members
  end.

Definition candidates_from_index (d : Db) (table : bytes) (cond : WhereClause) (field_def : FieldDef) (limit : option Z) : result (option (list bytes)) :=
  let fetch_limit := bounded_candidate_limit limit in
  if encrypted field_def then
    if negb (searchable field_def) || negb (bool_decide (w_op cond = Eq_)) then Ok None
    else
      values ← searchable_index_values table field_def (w_value cond);
      members ← blind_members d table (w_field cond) fetch_limit values 0 ∅;
      let members := merge_sort bytes_le (elements members) in
      Ok (Some (match limit with Some limit => skip_take 0 limit members | None => members end))
  else
    match field_type field_def with
    | TStr | TUuid =>
        if bool_decide (w_op cond = Eq_) then
          members ← smembers_limited d (idx_str_key table (w_field cond) (w_value cond)) fetch_limit;
          _ ← ensure_candidate_count (zlen members);
          Ok (Some members)
        else Ok None
    | TVector _ | TJson | TArray => Ok None
    | TInt | TFloat | TBool | TTimestamp | TRef _ => range_candidates d (idx_sorted_key table (w_field cond)) cond fetch_limit
    end.

Definition candidates_from_implicit_id (d : Db) (table : bytes) (cond : WhereClause) (limit : option Z) : result (option (list bytes)) :=
  range_candidates d (ids_key table) cond (bounded_candidate_limit limit).

Definition pk_served_by_ids_set (schema : list FieldDef) (col : bytes) : bool :=
  if negb (has_pk schema) then bytes_eqb col (bs "id")
  else existsb (fun f => primary_key f && bytes_eqb (f_name f) col && bool_decide (field_type f = TInt)) schema.

Definition read_path_index_type (d : Db) (table path : bytes) : result (option FieldType) :=
  v ← hget_checked d (path_indexes_key table) path;
  Ok (v ≫= (fun v => parse_index_type (lossy v))).

Definition narrow (candidate_set : option (gset bytes)) (pks : option (list bytes)) : option (gset bytes) :=
  match pks with
  | None => candidate_set
  | Some pks =>
      let pk_set := list_to_set pks in
      Some (match candidate_set with Some existing => existing ∩ pk_set | None => pk_set end)
  end.

(** The column of a primary key and whether the value is one of it. *)
Definition primary_key_candidate (schema : list FieldDef) (bare : bytes) (cond : WhereClause) : bool :=
  match List.find (fun f => primary_key f && bytes_eqb (f_name f) bare) schema with
  | Some pk => bool_decide (w_op cond = Eq_) && match validate_cell pk (w_value cond) with Ok _ => true | Err _ => false end
  | None => false
  end.

(** What the indexes give for one condition. *)
Definition condition_candidates (d : Db) (table : bytes) (schema : list FieldDef) (cond : WhereClause) (index_limit : option Z) : result (option (list bytes)) :=
  if is_json_path_field (w_field cond) schema then
    ft ← read_path_index_type d table (w_field cond);
    match ft with
    | Some ft => candidates_from_index d table cond (synthetic_path_fielddef (mkPath (w_field cond) ft)) index_limit
    | None => Ok None
    end
  else
    let bare := bare_col (w_field cond) in
    if primary_key_candidate schema bare cond then
      pairs ← hgetall d (row_key_for_pk table (w_value cond));
      Ok (Some (if bool_decide (pairs = ∅) then [] else [w_value cond]))
    else if pk_served_by_ids_set schema bare then candidates_from_implicit_id d table (on_column (bs "id") cond) index_limit
    else match find_field bare schema with
         | Some fd => candidates_from_index d table (on_column bare cond) fd index_limit
         | None => Ok None
         end.

Fixpoint candidate_loop (d : Db) (table : bytes) (schema : list FieldDef) (index_limit : option Z) (conditions : list WhereClause) (candidate_set : option (gset bytes))
    : result (option (gset bytes)) :=
  match conditions with
  | [] => Ok candidate_set
  | cond :: conditions =>
      if negb (bool_decide (w_or cond = [])) then candidate_loop d table schema index_limit conditions candidate_set
      else
        pks ← condition_candidates d table schema cond index_limit;
        candidate_loop d table schema index_limit conditions (narrow candidate_set pks)
  end.

Definition build_candidate_set (d : Db) (table : bytes) (schema : list FieldDef) (conditions : list WhereClause) (limit : option Z) : result (option (gset bytes)) :=
  candidate_loop d table schema (Some (bounded_candidate_limit (if (length conditions =? 1)%nat then limit else None))) conditions None.

(** ** Order from an index *)

Record ScoreRange := mkRange { r_min : Z; r_max : Z; min_exclusive : bool; max_exclusive : bool }.

Fixpoint score_range_loop (order_col : bytes) (conditions : list WhereClause) (r : ScoreRange) : option ScoreRange :=
  match conditions with
  | [] => Some r
  | cond :: conditions =>
      if negb (bool_decide (w_or cond = [])) then None
      else if negb (bytes_eqb (bare_col (w_field cond)) order_col) then None
      else
        score ← parse_f64 (w_value cond);
        r ← match w_op cond with
            | Eq_ => Some (mkRange score score false false)
            | Gt_ => Some (if f64_lt (r_min r) score || (f64_eq score (r_min r) && negb (min_exclusive r))
                           then mkRange score (r_max r) true (max_exclusive r) else r)
            | Ge => Some (if f64_lt (r_min r) score then mkRange score (r_max r) false (max_exclusive r) else r)
            | Lt_ => Some (if f64_lt score (r_max r) || (f64_eq score (r_max r) && negb (max_exclusive r))
                           then mkRange (r_min r) score (min_exclusive r) true else r)
            | Le => Some (if f64_lt score (r_max r) then mkRange (r_min r) score (min_exclusive r) false else r)
            | _ => None
            end;
        score_range_loop order_col conditions r
  end.

Definition score_range_from_conditions (order_col : bytes) (conditions : list WhereClause) : option ScoreRange :=
  score_range_loop order_col conditions (mkRange NEG_INFINITY INFINITY false false).

(** The offset and limit to read from an index, and whether they are those of the query. *)
Definition bounded_order_pagination (limit offset : option Z) : option Z * option Z * bool :=
  let offset_value := default 0 offset in
  match limit with
  | Some l =>
      if (offset_value + l <=? usize_max) && (offset_value + l <=? max_query_candidates) then (Some offset_value, limit, true)
      else (Some 0, Some (u64_sat_add max_query_candidates 1), false)
  | None => (Some 0, Some (u64_sat_add max_query_candidates 1), false)
  end.

Definition is_score_type (t : FieldType) : bool :=
  match t with TInt | TFloat | TBool | TTimestamp | TRef _ => true | _ => false end.

Definition candidates_from_order_index (d : Db) (table : bytes) (schema : list FieldDef) (column : bytes) (ascending : bool) (r : ScoreRange)
    (offset limit : option Z) : result (option (list bytes)) :=
  let read zkey :=
    rows ← zrangebyscore d zkey (r_min r) (r_max r) (min_exclusive r) (max_exclusive r) (negb ascending) offset limit;
    Ok (Some rows) in
  if pk_served_by_ids_set schema column then read (ids_key table)
  else match find_field column schema with
       | None => Ok None
       | Some field => if encrypted field then Ok None else if is_score_type (field_type field) then read (idx_sorted_key table column) else Ok None
       end.

(** ** The scan *)

Record TableScanPlan := mkScanPlan {
  s_conditions : list WhereClause;
  s_order_by : option (bytes * bool);
  s_limit : option Z;
  s_offset : option Z;
  allow_order_pushdown : bool;
  early_limit : option Z }.

Record TableScan := mkScan { row_ids : list bytes; order_satisfied : bool; pagination_satisfied : bool }.

(** A scan of the order index, when the plan allows it and the column has one. *)
Definition order_scan (d : Db) (table : bytes) (schema : list FieldDef) (column : bytes) (ascending : bool) (r : ScoreRange)
    (pagination : option Z * option Z * bool) : result (option TableScan) :=
  let '(offset, limit, satisfied) := pagination in
  ids ← candidates_from_order_index d table schema column ascending r offset limit;
  match ids with
  | None => Ok None
  | Some ids => _ ← ensure_candidate_count (zlen ids); Ok (Some (mkScan ids true satisfied))
  end.

Definition pushed_range (d : Db) (table : bytes) (schema : list FieldDef) (plan : TableScanPlan) : result (option TableScan) :=
  if allow_order_pushdown plan then
    match s_order_by plan with
    | Some (order_col, ascending) =>
        match score_range_from_conditions (bare_col order_col) (s_conditions plan) with
        | Some r => order_scan d table schema (bare_col order_col) ascending r (bounded_order_pagination (s_limit plan) (s_offset plan))
        | None => Ok None
        end
    | None => Ok None
    end
  else Ok None.

Definition pushed_order (d : Db) (table : bytes) (schema : list FieldDef) (plan : TableScanPlan) (candidate_set : option (gset bytes)) : result (option TableScan) :=
  match s_order_by plan, candidate_set with
  | Some (order_col, ascending), None =>
      if allow_order_pushdown plan then
        order_scan d table schema (bare_col order_col) ascending (mkRange NEG_INFINITY INFINITY false false)
          (if bool_decide (s_conditions plan = []) then bounded_order_pagination (s_limit plan) (s_offset plan)
           else (None, Some (bounded_candidate_limit None), false))
      else Ok None
  | _, _ => Ok None
  end.

Definition plan_table_scan (d : Db) (table : bytes) (schema : list FieldDef) (plan : TableScanPlan) : result TableScan :=
  pushed ← pushed_range d table schema plan;
  match pushed with
  | Some scan => Ok scan
  | None =>
      candidate_set ← build_candidate_set d table schema (s_conditions plan) (early_limit plan);
      pushed ← pushed_order d table schema plan candidate_set;
      match pushed with
      | Some scan => Ok scan
      | None =>
          let can_apply_early_limit := bool_decide (s_conditions plan = []) || ((length (s_conditions plan) =? 1)%nat && is_some candidate_set) in
          ids ← match candidate_set with
                | Some pks => Ok (listed pks)
                | None => get_query_row_ids d table (if can_apply_early_limit then early_limit plan else None)
                end;
          let ids := if can_apply_early_limit then match early_limit plan with Some lim => skip_take 0 lim ids | None => ids end else ids in
          _ ← ensure_candidate_count (zlen ids);
          Ok (mkScan ids false false)
      end
  end.

(** ** Checks of the conditions *)

Definition encrypted_path_root (field : bytes) (schema : list FieldDef) : option FieldDef :=
  match split_path field with
  | Some (root, rest) => if bool_decide (rest = []) then None else List.find (fun f => bytes_eqb (f_name f) root && encrypted f) schema
  | None => None
  end.

Definition validate_encrypted_one (field : bytes) (op : CmpOp) (schema : list FieldDef) : result unit :=
  match encrypted_path_root field schema with
  | Some _ => Err "ERR encrypted column does not support JSON path filters"
  | None =>
      match find_field (bare_col field) schema with
      | None => Ok tt
      | Some f =>
          if negb (encrypted f) then Ok tt
          else match op with
               | Eq_ => if searchable f then Ok tt else Err "ERR encrypted column must be SEARCHABLE for equality filters"
               | IsNull | IsNotNull => Ok tt
               | _ => Err "ERR encrypted column only supports equality filters when SEARCHABLE"
               end
      end
  end.

Fixpoint all_ok {A : Type} (f : A -> result unit) (l : list A) : result unit :=
  match l with
  | [] => Ok tt
  | a :: l => _ ← f a; all_ok f l
  end.

Fixpoint validate_encrypted_condition (schema : list FieldDef) (cond : WhereClause) : result unit :=
  let 'mkWhere field op _ _ os := cond in
  match op with
  | Or_ => all_ok (validate_encrypted_condition schema) os
  | _ => validate_encrypted_one field op schema
  end.

Fixpoint validate_where_field (schema : list FieldDef) (has_implicit_pk : bool) (cond : WhereClause) : result unit :=
  let 'mkWhere field op _ _ os := cond in
  match op with
  | Or_ => all_ok (validate_where_field schema has_implicit_pk) os
  | _ =>
      if (has_implicit_pk && bytes_eqb field (bs "id")) || is_json_path_field field schema then Ok tt
      else match find_field field schema with Some _ => Ok tt | None => Err "ERR unknown field in WHERE clause" end
  end.

(** ** Rows that match *)

(** [f64::total_cmp] on bit patterns. *)
Definition total_key (b : Z) : Z := if Z.testbit b 63 then - (b - 9223372036854775808) - 1 else b.

Definition ordered_le (a b : bytes * Z) : Prop :=
  total_key a.2 < total_key b.2 \/ (total_key a.2 = total_key b.2 /\ bytes_le a.1 b.1).

#[export] Instance ordered_le_dec (a b : bytes * Z) : Decision (ordered_le a b).
Proof. unfold ordered_le, bytes_le. apply _. Defined.

Fixpoint score_ids (d : Db) (table : bytes) (pks : list bytes) : result (list (bytes * Z)) :=
  match pks with
  | [] => Ok []
  | pk :: pks =>
      m ← zset_at d (ids_key table);
      rest ← score_ids d table pks;
      Ok ((pk, default INFINITY (m !! pk)) :: rest)
  end.

Fixpoint matching (d : Db) (table : bytes) (schema : list FieldDef) (conditions : list WhereClause) (pks : list bytes) : result (list bytes) :=
  match pks with
  | [] => Ok []
  | pk :: pks =>
      row ← get_row d table schema pk;
      rest ← matching d table schema conditions pks;
      Ok (match row with
          | Some row => if row_matches_base_conditions row schema (implicit_id_field_for schema) conditions then pk :: rest else rest
          | None => rest
          end)
  end.

Definition scan_matching_pks (d : Db) (c : SchemaCache) (table : bytes) (conditions : list WhereClause) : result (list FieldDef * list bytes) :=
  schema ← load_schema d c table;
  _ ← all_ok (fun cond => _ ← validate_encrypted_condition schema cond; validate_where_field schema (negb (has_pk schema)) cond) conditions;
  scan ← plan_table_scan d table schema (mkScanPlan conditions None None None false None);
  ordered_ids ← score_ids d table (row_ids scan);
  matched ← matching d table schema conditions (fst <$> merge_sort ordered_le ordered_ids);
  Ok (schema, matched).

(** [table_update_where_rows] and [table_delete_where_rows], up to the publication of what they stage. *)
Definition table_update_where (d : Db) (c : SchemaCache) (table : bytes) (field_values : list (bytes * bytes)) (where_args : list (list Z)) (ttl : option TtlOp)
    (m : TableMutation) : result (list bytes * TableMutation) :=
  conditions ← Where.Where.parse_where_conditions where_args;
  '(_, matched) ← scan_matching_pks d c table (bytes_clause <$> conditions);
  m ← stage_update_rows d c table field_values ttl matched m;
  Ok (matched, m).

Definition table_delete_where (d : Db) (c : SchemaCache) (table : bytes) (where_args : list (list Z)) (m : TableMutation)
    : result (list bytes * TableMutation) :=
  conditions ← Where.Where.parse_where_conditions where_args;
  '(_, matched) ← scan_matching_pks d c table (bytes_clause <$> conditions);
  m ← stage_delete_rows d c table matched m;
  Ok (matched, m).

End Query.

(** ** What the indexes of a table hold *)

Section Scan.

Context `{Env} (to_lowercase : list Z -> list Z) (f64_distance : Z -> Z -> Z) (max_query_candidates : Z).
Context (d : Db) (table : bytes) (schema : list FieldDef) (ids : gmap bytes Z).

Abbreviation matches_one := (row_matches_one to_lowercase f64_distance).
Abbreviation typed := (compare_typed to_lowercase f64_distance).

(** A query does not end with an error because of the number of candidates. *)
Definition few (n : Z) : Prop := n <= max_query_candidates.

(** The sorted set of an index. *)
Definition score_index (key : bytes) (m : gmap bytes Z) : Prop := zset_at d key = Ok m /\ few (Z.of_nat (size m)).

Definition text_index (key : bytes) (s : gset bytes) : Prop := smembers d key = Ok (listed s) /\ few (Z.of_nat (size s)).

(** The cell [t] of a row is entered in the index of its column. *)
Definition entered (field : FieldDef) (pk t : bytes) : Prop :=
  if encrypted field then
    searchable field = true ->
    exists values v s, searchable_index_values table field t = Ok values /\ v ∈ values /\
      text_index (idx_str_key table (f_name field) v) s /\ pk ∈ s
  else
    match field_type field with
    | TInt | TFloat | TBool | TTimestamp | TRef _ =>
        exists m score, score_index (idx_sorted_key table (f_name field)) m /\ index_score (field_type field) t = Ok score /\ m !! pk = Some score
    | TStr | TUuid => exists s, text_index (idx_str_key table (f_name field) t) s /\ pk ∈ s
    | TVector _ | TJson | TArray => True
    end.

(** The keys of the indexes of a column hold what they should, whatever the value asked for. *)
Definition index_readable (field : FieldDef) : Prop :=
  if encrypted field then
    searchable field = true -> forall v values, searchable_index_values table field v = Ok values ->
      exists sets, Forall2 (fun v s => text_index (idx_str_key table (f_name field) v) s) values sets /\
        few (Z.of_nat (sum_list_with size sets))
  else
    match field_type field with
    | TInt | TFloat | TBool | TTimestamp | TRef _ => exists m, score_index (idx_sorted_key table (f_name field)) m
    | TStr | TUuid => forall v, exists s, text_index (idx_str_key table (f_name field) v) s
    | TVector _ | TJson | TArray => True
    end.

(** What a cell of a column reads as. *)
Definition cell_text (t : FieldType) (cell : bytes) : Prop :=
  match t with
  | TInt | TTimestamp | TRef _ => is_Some (parse_i64 cell)
  | TBool => cell = bs "true" \/ cell = bs "false"
  | _ => True
  end.

(** A condition on a column of scores asks for an interval that has the score of every cell that
    satisfies it. *)
Definition score_exact (t : FieldType) (op : CmpOp) (value : bytes) : Prop :=
  forall score a b ax bx, parse_f64 value = Some score -> score_bounds op score = Some (a, b, ax, bx) ->
    f64_is_nan score = false /\
    forall cell s, cell_text t cell -> index_score t cell = Ok s -> typed t op cell value = true -> in_interval a b ax bx (s, []) = true.

Definition column_exact (field : FieldDef) (op : CmpOp) (value : bytes) : Prop :=
  if encrypted field then
    searchable field = true -> op = Eq_ ->
    (exists values, searchable_index_values table field value = Ok values) /\
    forall cell, typed (field_type field) Eq_ cell value = true ->
      searchable_index_values table field cell = searchable_index_values table field value
  else if is_score_type (field_type field) then score_exact (field_type field) op value else True.

Definition column_type (bare : bytes) : FieldType := match find_field bare schema with Some fd => field_type fd | None => TInt end.

(** A condition that the indexes answer as the evaluation does. A JSON path has no index of its own. *)
Definition condition_exact (cond : WhereClause) : Prop :=
  w_or cond = [] ->
  let bare := bare_col (w_field cond) in
  if is_json_path_field (w_field cond) schema then read_path_index_type d table (w_field cond) = Ok None
  else if primary_key_candidate schema bare cond then
    forall cell, typed (column_type bare) Eq_ cell (w_value cond) = true -> cell = w_value cond
  else if pk_served_by_ids_set schema bare then score_exact (column_type bare) (w_op cond) (w_value cond)
  else match find_field bare schema with Some fd => column_exact fd (w_op cond) (w_value cond) | None => True end.

(** The table: its rows are those listed in the set of primary keys, and each cell is in its index. *)
Record consistent : Prop := {
  k_limit : 1 <= max_query_candidates < usize_max;
  k_listed : forall s, listed s ≡ₚ elements s;
  k_ids : score_index (ids_key table) ids;
  k_scores : forall pk s, ids !! pk = Some s -> u64_ok s /\ f64_is_nan s = false /\ s <> 9223372036854775808;
  k_rows : forall pk, is_Some (ids !! pk) -> exists r, get_row d table schema pk = Ok r;
  k_gone : forall pk, ids !! pk = None -> get_row d table schema pk = Ok None;
  k_names : forall fd, fd ∈ schema -> find_field (f_name fd) schema = Some fd;
  k_entered : forall pk row fd t, get_row d table schema pk = Ok (Some row) -> fd ∈ schema -> row !! f_name fd = Some t ->
    pk_served_by_ids_set schema (f_name fd) = false -> entered fd pk t;
  k_served : forall pk row col t, get_row d table schema pk = Ok (Some row) -> pk_served_by_ids_set schema col = true ->
    row !! col = Some t -> exists s, index_score (column_type col) t = Ok s /\ ids !! pk = Some s;
  k_cells : forall pk row col t, get_row d table schema pk = Ok (Some row) -> row !! col = Some t -> cell_text (column_type col) t;
  k_pk : forall pk row fd, get_row d table schema pk = Ok (Some row) -> fd ∈ schema -> primary_key fd = true ->
    row !! f_name fd = Some pk;
  k_readable : forall fd, fd ∈ schema -> index_readable fd
}.

(** The rows that a query should find: those of the table that satisfy the conditions, in the order of
    the set of primary keys. *)
Definition row_found (conditions : list WhereClause) (pk : bytes) : bool :=
  match get_row d table schema pk with
  | Ok (Some row) => row_matches_base_conditions to_lowercase f64_distance row schema (implicit_id_field_for schema) conditions
  | _ => false
  end.

Definition matching_rows (conditions : list WhereClause) : list bytes := List.filter (row_found conditions) (snd <$> ranking ids).

(** ** Lemmas: what one condition gives *)

Context (Hk : consistent).

Abbreviation L := (bounded_candidate_limit max_query_candidates None).
Abbreviation ensure := (ensure_candidate_count max_query_candidates).

Lemma limit_above : bounded_candidate_limit max_query_candidates (Some L) = L /\ max_query_candidates < L.
Proof.
  pose proof (k_limit Hk). unfold bounded_candidate_limit, u64_sat_add. cbn [from_option]. unfold id. split; lia.
Qed.

Lemma ensure_few n : few n -> ensure n = Ok tt.
Proof. unfold few, ensure_candidate_count. intros Hn. by destruct (Z.gtb_spec n max_query_candidates); [lia|]. Qed.

Lemma take_few {A : Type} (l : list A) : few (zlen l) -> skip_take 0 L l = l.
Proof.
  intros Hl. pose proof limit_above as [_ Hm]. unfold few in Hl. unfold skip_take.
  pose proof (zlen_nonneg l). rewrite (Z.min_r L), (Z.min_l 0) by lia.
  cbn. unfold zlen. rewrite Nat2Z.id. apply firstn_all.
Qed.

Lemma few_nonneg n : 0 <= n <= max_query_candidates -> few n.
Proof. unfold few. lia. Qed.

Lemma members_all key s : text_index key s -> smembers_limited d key L = Ok (listed s) /\ few (zlen (listed s)).
Proof.
  intros [E Hs]. assert (few (zlen (listed s))) as Hf.
  { unfold zlen. by rewrite (k_listed Hk s). }
  unfold smembers_limited. rewrite E. cbn [mbind result_bind]. by rewrite take_few.
Qed.

Lemma filter_length {A : Type} (f : A -> bool) l : zlen (List.filter f l) <= zlen l.
Proof. induction l as [|a l IH]; [done|]. cbn. rewrite !zlen_cons. destruct (f a); rewrite ?zlen_cons; lia. Qed.

Lemma range_all key m a b ax bx :
  score_index key m -> f64_is_nan a = false -> f64_is_nan b = false ->
  let pks := snd <$> List.filter (in_interval a b ax bx) (ranking m) in
  zrangebyscore d key a b ax bx false (Some 0) (Some L) = Ok pks /\ few (zlen pks).
Proof.
  intros [E Hs] Ha Hb. cbn zeta. assert (few (zlen (List.filter (in_interval a b ax bx) (ranking m)))) as Hf.
  { pose proof (filter_length (in_interval a b ax bx) (ranking m)) as Hl. rewrite SortedSets.SortedSets.zlen_ranking in Hl. unfold few in *. lia. }
  unfold zrangebyscore. rewrite Ha, Hb, E. cbn [orb mbind result_bind from_option reversed_if]. unfold id. rewrite take_few by done.
  split; [done|]. unfold zlen in *. by rewrite length_fmap.
Qed.

Lemma elem_of_range m a b ax bx pk s :
  m !! pk = Some s -> in_interval a b ax bx (s, []) = true -> pk ∈ snd <$> List.filter (in_interval a b ax bx) (ranking m).
Proof.
  intros E Hi. apply list_elem_of_fmap. exists (s, pk). split; [done|]. apply list_elem_of_In, filter_In. split; [|exact Hi].
  apply list_elem_of_In, SortedSets.SortedSets.elem_of_ranking. done.
Qed.

(** The answer to a condition has every row that satisfies it. *)
Definition answers (pks : option (list bytes)) (sat : bytes -> Prop) : Prop :=
  match pks with None => True | Some pks => few (zlen pks) /\ forall pk, sat pk -> pk ∈ pks end.

(** The operators that an index of scores can answer. *)
Definition ranged (op : CmpOp) : bool := match op with Eq_ | Gt_ | Ge | Lt_ | Le => true | _ => false end.

Lemma bounds_ranged op score b : score_bounds op score = Some b -> ranged op = true.
Proof. by destruct op. Qed.

Lemma range_answers key m cond t sat :
  score_index key m -> score_exact t (w_op cond) (w_value cond) ->
  (ranged (w_op cond) = true -> forall pk, sat pk -> exists cell s, cell_text t cell /\ index_score t cell = Ok s /\ m !! pk = Some s /\ typed t (w_op cond) cell (w_value cond) = true) ->
  exists pks, range_candidates max_query_candidates d key cond L = Ok pks /\ answers pks sat.
Proof.
  intros Hi He Hsat. unfold range_candidates. destruct (parse_f64 (w_value cond)) as [score|] eqn:Es; [|by exists None].
  destruct (score_bounds (w_op cond) score) as [[[[a b] ax] bx]|] eqn:Eb; [|by exists None].
  destruct (He score a b ax bx Es Eb) as [Hn Hx].
  assert (f64_is_nan a = false /\ f64_is_nan b = false) as [Ha Hb].
  { destruct (w_op cond); cbn in Eb; try done; injection Eb as <- <- <- <-; done. }
  destruct (range_all key m a b ax bx Hi Ha Hb) as [-> Hf]. cbn [mbind result_bind]. rewrite ensure_few by done. cbn [mbind result_bind].
  eexists. split; [reflexivity|]. split; [done|]. intros pk Hpk. destruct (Hsat (bounds_ranged _ _ _ Eb) pk Hpk) as (cell & s & E0 & E1 & E2 & E3).
  eapply elem_of_range; [done|]. by eapply Hx.
Qed.

Lemma blind_all field values sets : forall inspected members,
  Forall2 (fun v s => text_index (idx_str_key table field v) s) values sets ->
  0 <= inspected -> Z.of_nat (size members) <= inspected ->
  few (inspected + Z.of_nat (sum_list_with size sets)) ->
  blind_members max_query_candidates d table field L values inspected members = Ok (members ∪ ⋃ sets) /\
  few (Z.of_nat (size (members ∪ ⋃ sets))).
Proof.
  revert sets. induction values as [|v values IH]; intros sets inspected members Hall Hi Hm Hf.
  - inversion Hall; subst. cbn [blind_members]. change (⋃ []) with (∅ : gset bytes). rewrite union_empty_r_L. split; [done|].
    change (sum_list_with size []) with 0%nat in Hf. unfold few in *. lia.
  - inversion Hall as [|? s ? sets' Hs Hall']; subst. cbn [blind_members].
    destruct (members_all _ _ Hs) as [-> Hl]. cbn [mbind result_bind]. cbn [sum_list_with] in Hf.
    assert (zlen (listed s) = Z.of_nat (size s)) as Ez by (unfold zlen; by rewrite (k_listed Hk s)).
    assert (list_to_set (listed s) = s) as El.
    { apply set_eq. intros x. rewrite elem_of_list_to_set, (k_listed Hk s). apply elem_of_elements. }
    rewrite El, Ez. rewrite (ensure_few (inspected + Z.of_nat (size s))) by (unfold few in *; lia). cbn [mbind result_bind].
    assert (size (members ∪ s) <= size members + size s)%nat as Hsz.
    { rewrite size_union_alt. pose proof (subseteq_size (s ∖ members) s ltac:(set_solver)). lia. }
    rewrite (ensure_few (Z.of_nat (size (members ∪ s)))) by (unfold few in *; lia). cbn [mbind result_bind].
    destruct (IH sets' (inspected + Z.of_nat (size s)) (members ∪ s) Hall') as [-> Hf']; [lia|lia| |].
    { unfold few in *. lia. }
    change (⋃ (s :: sets')) with (s ∪ ⋃ sets'). rewrite assoc_L by apply _. done.
Qed.

Lemma matches_cell row fd cond bare :
  matches_condition to_lowercase f64_distance row (on_column bare cond) fd = true -> ranged (w_op cond) = true ->
  exists t, row !! bare = Some t /\ typed (field_type fd) (w_op cond) t (w_value cond) = true.
Proof.
  unfold matches_condition, on_column. cbn [w_field w_op w_value w_values]. destruct (row !! bare) as [t|]; intros Hm Hr.
  - exists t. split; [done|]. by destruct (w_op cond).
  - by destruct (w_op cond).
Qed.

(** A row with a cell that satisfies a condition of a column. *)
Definition has_cell (col : bytes) (t : FieldType) (op : CmpOp) (value pk : bytes) : Prop :=
  exists row cell, get_row d table schema pk = Ok (Some row) /\ row !! col = Some cell /\ cell_text t cell /\ typed t op cell value = true.

Lemma none_answers (R R' : Prop) sat : exists pks, @Ok (option (list bytes)) None = Ok pks /\ (R -> answers pks sat) /\ (R' -> pks = None).
Proof. exists None. split; [done|]. split; [|done]. intros _. exact I. Qed.

Lemma score_answers key col t cond m :
  score_index key m -> score_exact t (w_op cond) (w_value cond) ->
  (forall pk row cell, get_row d table schema pk = Ok (Some row) -> row !! col = Some cell ->
     exists m' s, score_index key m' /\ index_score t cell = Ok s /\ m' !! pk = Some s) ->
  exists pks, range_candidates max_query_candidates d key cond L = Ok pks /\
    (ranged (w_op cond) = true -> answers pks (has_cell col t (w_op cond) (w_value cond))) /\
    (ranged (w_op cond) = false -> pks = None).
Proof.
  intros Hm He Hent. destruct (range_answers key m cond t (has_cell col t (w_op cond) (w_value cond)) Hm He) as (pks & E & Ha).
  - intros _ pk (row & cell & Hrow & Hc & Hx0 & Ht). destruct (Hent pk row cell Hrow Hc) as (m' & s & [Em' _] & Ei & Emk).
    rewrite (proj1 Hm) in Em'. injection Em' as <-. by exists cell, s.
  - exists pks. split; [done|]. split; [done|]. intros Hno. unfold range_candidates in E.
    destruct (parse_f64 _) as [score|]; [|by injection E as <-]. destruct (score_bounds (w_op cond) score) as [b|] eqn:Eb; [|by injection E as <-].
    apply bounds_ranged in Eb. congruence.
Qed.

Lemma index_answers fd cond :
  fd ∈ schema -> w_field cond = f_name fd -> pk_served_by_ids_set schema (f_name fd) = false -> column_exact fd (w_op cond) (w_value cond) ->
  exists pks, candidates_from_index max_query_candidates d table cond fd (Some L) = Ok pks /\
    (ranged (w_op cond) = true -> answers pks (has_cell (f_name fd) (field_type fd) (w_op cond) (w_value cond))) /\
    (ranged (w_op cond) = false -> pks = None).
Proof.
  intros Hin Hf Hs He. unfold candidates_from_index. rewrite (proj1 limit_above), Hf. pose proof (k_readable Hk fd Hin) as Hr.
  unfold column_exact in He. unfold index_readable in Hr.
  pose proof (fun pk row t Hrow Ht => k_entered Hk pk row fd t Hrow Hin Ht Hs) as Hent. unfold entered in Hent.
  destruct (encrypted fd) eqn:Ee.
  - destruct (searchable fd) eqn:Es; [|apply none_answers]. destruct (bool_decide_reflect (w_op cond = Eq_)) as [Eo|Eo]; [|apply none_answers].
    cbn [negb orb]. destruct (He eq_refl Eo) as [[values Ev] Hx]. destruct (Hr eq_refl _ values Ev) as (sets & Hall & Hfew).
    rewrite Ev. cbn [mbind result_bind]. destruct (blind_all (f_name fd) values sets 0 ∅ Hall ltac:(lia) ltac:(rewrite size_empty; lia) Hfew) as [-> Hsz].
    rewrite union_empty_l_L in *. cbn [mbind result_bind].
    set (l := merge_sort bytes_le (elements (⋃ sets))).
    assert (l ≡ₚ elements (⋃ sets)) as Hl by apply merge_sort_Permutation.
    assert (few (zlen l)) as Hfl by (unfold zlen; by rewrite Hl). rewrite take_few by done. exists (Some l). split; [done|]. rewrite Eo. split; [|done].
    intros _. split; [done|]. intros pk (row & cell & Hrow & Hc & Hx0 & Ht). rewrite Hl. apply elem_of_elements.
    destruct (Hent pk row cell Hrow Hc eq_refl) as (values' & v & s & Ev' & Hv & Hi & Hpk). rewrite (Hx cell Ht), Ev in Ev'. injection Ev' as <-.
    apply elem_of_union_list. apply list_elem_of_lookup in Hv as [i Hv]. destruct (Forall2_lookup_l _ _ _ _ _ Hall Hv) as (s' & Hs' & Hi').
    exists s'. split; [by eapply list_elem_of_lookup_2|]. destruct Hi as [Ei _], Hi' as [Ei' _]. rewrite Ei in Ei'. injection Ei' as El.
    apply elem_of_elements. rewrite <-(k_listed Hk s'), <-El, (k_listed Hk s). by apply elem_of_elements.
  - destruct (field_type fd) eqn:Eft; cbn [is_score_type] in *.
    all: try (destruct Hr as [m Hm]; by eapply score_answers).
    all: try apply none_answers.
    all: destruct (bool_decide_reflect (w_op cond = Eq_)) as [Eo|Eo]; [|apply none_answers];
      destruct (Hr (w_value cond)) as [s Hi]; destruct (members_all _ _ Hi) as [-> Hl]; cbn [mbind result_bind]; rewrite ensure_few by done;
      cbn [mbind result_bind]; eexists; split; [reflexivity|]; rewrite Eo; split; [|done]; intros _; split; [done|];
      intros pk (row & cell & Hrow & Hc & Hx0 & Ht); cbn in Ht; apply bytes_eqb_eq in Ht as ->; destruct (Hent pk row _ Hrow Hc) as (s' & [Ei' _] & Hpk);
      rewrite (proj1 Hi) in Ei'; injection Ei' as El; rewrite El, (k_listed Hk s'); by apply elem_of_elements.
Qed.

Definition satisfies (cond : WhereClause) (pk : bytes) : Prop :=
  exists row, get_row d table schema pk = Ok (Some row) /\
    row_matches_cond to_lowercase f64_distance row schema (implicit_id_field_for schema) cond = true.

Lemma satisfies_one cond pk : w_or cond = [] -> satisfies cond pk ->
  exists row, get_row d table schema pk = Ok (Some row) /\ matches_one row schema (implicit_id_field_for schema) cond = true.
Proof. destruct cond as [f op v vs os]. cbn. intros -> (row & Hr & Hm). exists row. split; [done|]. by destruct op. Qed.

Lemma find_field_some name fd : find_field name schema = Some fd -> fd ∈ schema /\ f_name fd = name.
Proof. unfold find_field. intros [Hin Hn]%find_some. split; [by apply list_elem_of_In|]. by apply bytes_eqb_eq. Qed.

(** The cell behind a condition on a column, when the operator compares. *)
Lemma satisfies_cell cond pk :
  w_or cond = [] -> is_json_path_field (w_field cond) schema = false -> ranged (w_op cond) = true -> satisfies cond pk ->
  let bare := bare_col (w_field cond) in
  is_Some (find_field bare schema) \/ (bare = bs "id" /\ has_pk schema = false) ->
  has_cell bare (column_type bare) (w_op cond) (w_value cond) pk.
Proof.
  intros Ho Hj Hr Hs bare Hb. destruct (satisfies_one cond pk Ho Hs) as (row & Hrow & Hm). unfold row_matches_one in Hm. rewrite Hj in Hm.
  fold bare in Hm. unfold has_cell, column_type. destruct (find_field bare schema) as [fd|] eqn:Ef.
  - destruct (matches_cell row fd cond bare Hm Hr) as (t & Ht & Hc). exists row, t. pose proof (k_cells Hk pk row bare t Hrow Ht) as Hx.
    unfold column_type in Hx. rewrite Ef in Hx. done.
  - destruct Hb as [[? ?]|[Eb Hp]]; [done|]. rewrite Eb, bytes_eqb_refl in Hm. unfold implicit_id_field_for in Hm. rewrite Hp in Hm.
    destruct (matches_cell row _ cond (bs "id") Hm Hr) as (t & Ht & Hc). exists row, t. rewrite Eb.
    pose proof (k_cells Hk pk row bare t Hrow) as Hx. rewrite Eb in Hx. specialize (Hx Ht). unfold column_type in Hx. rewrite <-Eb, Ef in Hx. done.
Qed.

Lemma served_column bare : pk_served_by_ids_set schema bare = true -> is_Some (find_field bare schema) \/ (bare = bs "id" /\ has_pk schema = false).
Proof.
  unfold pk_served_by_ids_set. destruct (has_pk schema) eqn:Ep; cbn [negb].
  - intros (f & Hin & Hf)%existsb_exists. left. apply andb_true_iff in Hf as [[_ Hn]%andb_true_iff _]. apply bytes_eqb_eq in Hn as <-.
    eexists. apply (k_names Hk). by apply list_elem_of_In.
  - intros E%bytes_eqb_eq. by right.
Qed.

Lemma not_ranged_none (P : bytes -> Prop) sat op pks :
  (ranged op = true -> answers pks P) -> (ranged op = false -> pks = None) -> (ranged op = true -> forall pk, sat pk -> P pk) -> answers pks sat.
Proof.
  intros H1 H2 H3. destruct (ranged op); [|by rewrite H2]. specialize (H1 eq_refl). destruct pks as [l|]; [|done]. destruct H1 as [Hf Hl].
  split; [done|]. intros pk Hpk. by apply Hl, H3.
Qed.

Lemma candidate_op bare cond : primary_key_candidate schema bare cond = true ->
  w_op cond = Eq_ /\ exists fd, fd ∈ schema /\ f_name fd = bare /\ primary_key fd = true.
Proof.
  unfold primary_key_candidate. destruct (List.find _ schema) as [fd|] eqn:E; [|done]. intros [Ho _]%andb_true_iff. apply bool_decide_eq_true in Ho.
  split; [done|]. apply find_some in E as [Hin [Hp Hn]%andb_true_iff]. exists fd. split; [by apply list_elem_of_In|]. split; [by apply bytes_eqb_eq|done].
Qed.

Lemma row_read pk : exists pairs, hgetall d (row_key_for_pk table pk) = Ok pairs /\
  forall row, get_row d table schema pk = Ok (Some row) -> pairs <> ∅.
Proof.
  assert (exists r, get_row d table schema pk = Ok r) as [r Hr].
  { destruct (ids !! pk) eqn:E; [apply (k_rows Hk); by rewrite E|]. eexists. by apply (k_gone Hk). }
  revert Hr. unfold get_row, get_row_impl. destruct (hgetall d (row_key_for_pk table pk)) as [pairs|]; [|done]. intros _. exists pairs. split; [done|].
  cbn [mbind result_bind]. by destruct (bool_decide_reflect (pairs = ∅)).
Qed.

Lemma condition_answers cond :
  condition_exact cond -> w_or cond = [] ->
  exists pks, condition_candidates max_query_candidates d table schema cond (Some L) = Ok pks /\ answers pks (satisfies cond).
Proof.
  intros He Ho. specialize (He Ho). cbn zeta in He. unfold condition_candidates. destruct (is_json_path_field (w_field cond) schema) eqn:Ej.
  { rewrite He. cbn [mbind result_bind]. by exists None. }
  pose proof (satisfies_cell cond) as Hcell. set (bare := bare_col (w_field cond)) in *. destruct (primary_key_candidate schema bare cond) eqn:Ep.
  - destruct (candidate_op bare cond Ep) as (Eo & fd & Hin & Hn & Hpk). destruct (row_read (w_value cond)) as (pairs & -> & Hne). cbn [mbind result_bind].
    eexists. split; [reflexivity|]. split; [pose proof (k_limit Hk); destruct (bool_decide _); unfold few, zlen; cbn; lia|].
    intros pk Hs. rewrite Eo in Hcell. destruct (Hcell pk Ho Ej eq_refl Hs) as (row & cell & Hrow & Hc & _ & Ht).
    { left. eexists. rewrite <-Hn. by apply (k_names Hk). }
    apply He in Ht as ->. rewrite <-Hn, (k_pk Hk pk row fd Hrow Hin Hpk) in Hc. injection Hc as ->.
    rewrite bool_decide_eq_false_2 by (by eapply Hne). by left.
  - destruct (pk_served_by_ids_set schema bare) eqn:Es.
    + unfold candidates_from_implicit_id. rewrite (proj1 limit_above).
      destruct (score_answers (ids_key table) bare (column_type bare) (on_column (bs "id") cond) ids (k_ids Hk) He) as (pks & E & H1 & H2).
      { intros pk row cell Hrow Hc. destruct (k_served Hk pk row bare cell Hrow Es Hc) as (s & Ei & Es'). exists ids, s. by split; [apply (k_ids Hk)|]. }
      exists pks. split; [done|]. eapply not_ranged_none; [exact H1|exact H2|]. intros Hr pk Hs. apply Hcell; [done..|]. by apply served_column.
    + destruct (find_field bare schema) as [fd|] eqn:Ef; [|by exists None]. destruct (find_field_some bare fd Ef) as [Hin Hn].
      destruct (index_answers fd (on_column bare cond) Hin (eq_sym Hn)) as (pks & E & H1 & H2); [by rewrite Hn|exact He|].
      exists pks. split; [done|]. eapply not_ranged_none; [exact H1|exact H2|]. intros Hr pk Hs. cbn [on_column w_op w_value] in *.
      assert (column_type bare = field_type fd) as <- by (unfold column_type; by rewrite Ef). rewrite Hn. apply Hcell; [done..|]. left. by rewrite Ef.
Qed.

Definition covers (set : option (gset bytes)) (sat : bytes -> Prop) : Prop :=
  match set with None => True | Some set => few (Z.of_nat (size set)) /\ forall pk, sat pk -> pk ∈ set end.

Lemma size_of_list (l : list bytes) : Z.of_nat (size (list_to_set l : gset bytes)) <= zlen l.
Proof.
  unfold zlen. induction l as [|x l IH]; [done|]. cbn [list_to_set length]. rewrite size_union_alt, size_singleton.
  pose proof (subseteq_size (list_to_set l ∖ {[x]}) (list_to_set l : gset bytes) ltac:(set_solver)). lia.
Qed.

Lemma narrow_covers set pks sat sat' :
  covers set sat -> answers pks sat' -> covers (narrow set pks) (fun pk => sat pk /\ sat' pk).
Proof.
  intros HS Hp. destruct pks as [pks|]; cbn [narrow].
  - destruct Hp as [Hf Hp]. pose proof (size_of_list pks) as Hz. destruct set as [set|]; cbn.
    + destruct HS as [HfS HS]. split.
      * pose proof (subseteq_size (set ∩ list_to_set pks) set ltac:(set_solver)). unfold few in *. lia.
      * intros pk [H1 H2]. apply elem_of_intersection. split; [by apply HS|]. apply elem_of_list_to_set. by apply Hp.
    + split; [unfold few in *; lia|]. intros pk [_ H2]. apply elem_of_list_to_set. by apply Hp.
  - destruct set as [set|]; [|done]. destruct HS as [Hf HS]. split; [done|]. by intros pk [? _]; apply HS.
Qed.

Lemma covers_weaken set (sat sat' : bytes -> Prop) : covers set sat -> (forall pk, sat' pk -> sat pk) -> covers set sat'.
Proof. destruct set as [set|]; [|done]. intros [Hf Hs] Hw. split; [done|]. intros pk Hpk. by apply Hs, Hw. Qed.

Lemma loop_covers conditions : forall set sat,
  Forall condition_exact conditions -> covers set sat ->
  exists set', candidate_loop max_query_candidates d table schema (Some L) conditions set = Ok set' /\
    covers set' (fun pk => sat pk /\ Forall (fun cond => satisfies cond pk) conditions).
Proof.
  induction conditions as [|cond conditions IH]; intros set sat Hall Hc.
  - exists set. split; [done|]. eapply covers_weaken; [exact Hc|]. by intros pk [? _].
  - apply Forall_cons in Hall as [He Hall]. cbn [candidate_loop]. destruct (bool_decide_reflect (w_or cond = [])) as [Ho|Ho]; cbn [negb].
    + destruct (condition_answers cond He Ho) as (pks & -> & Ha). cbn [mbind result_bind].
      destruct (IH _ _ Hall (narrow_covers set pks sat (satisfies cond) Hc Ha)) as (set' & E & Hc'). exists set'. split; [done|].
      eapply covers_weaken; [exact Hc'|]. intros pk [H1 [H2 H3]%Forall_cons]. done.
    + destruct (IH set sat Hall Hc) as (set' & E & Hc'). exists set'. split; [done|].
      eapply covers_weaken; [exact Hc'|]. intros pk [H1 [H2 H3]%Forall_cons]. done.
Qed.

Lemma interval_all m : (forall pk s, m !! pk = Some s -> u64_ok s /\ f64_is_nan s = false) ->
  List.filter (in_interval NEG_INFINITY INFINITY false false) (ranking m) = ranking m.
Proof.
  intros Hm. assert (forall x, x ∈ ranking m -> u64_ok x.1 /\ f64_is_nan x.1 = false) as Hx.
  { intros x Hx%SortedSets.SortedSets.elem_of_ranking. by eapply Hm. }
  revert Hx. induction (ranking m) as [|x l IH]; [done|]. intros Hx. cbn [List.filter].
  destruct (Hx x ltac:(by left)) as [Hu Hn]. pose proof (SortedSets.SortedSets.rank_bound x.1 Hu Hn) as Hb.
  assert (in_interval NEG_INFINITY INFINITY false false x = true) as ->.
  { unfold in_interval, SortedSets.SortedSets.above, SortedSets.SortedSets.below, f64_le, f64_lt, f64_eq. rewrite Hn.
    change (f64_is_nan NEG_INFINITY) with false. change (f64_is_nan INFINITY) with false. cbn [negb andb].
    change (f64_rank NEG_INFINITY) with (- INFINITY). change (f64_rank INFINITY) with INFINITY.
    apply andb_true_iff. rewrite !orb_true_iff, !Z.ltb_lt, !Z.eqb_eq. lia. }
  f_equal. apply IH. intros y Hy. apply Hx. by right.
Qed.

(** The rows that the scan reads: every row that satisfies the conditions is among them. *)
Lemma scan_covers conditions :
  Forall condition_exact conditions ->
  exists pks, plan_table_scan max_query_candidates d table schema (mkScanPlan conditions None None None false None) = Ok (mkScan pks false false) /\
    NoDup pks /\ forall pk, Forall (fun cond => satisfies cond pk) conditions -> is_Some (ids !! pk) -> pk ∈ pks.
Proof.
  intros Hall. unfold plan_table_scan, pushed_range. cbn [allow_order_pushdown mbind result_bind s_conditions early_limit].
  unfold build_candidate_set. replace (if (length conditions =? 1)%nat then None else None) with (@None Z) by (by destruct (length conditions =? 1)%nat).
  destruct (loop_covers conditions None (fun _ => True) Hall I) as (set & -> & Hc). cbn [mbind result_bind].
  unfold pushed_order. cbn [s_order_by mbind result_bind].
  replace (if bool_decide (conditions = []) || (length conditions =? 1)%nat && is_some set then (@None Z) else None) with (@None Z) by (by destruct (_ || _)).
  destruct set as [set|].
  - destruct Hc as [Hf Hc]. cbn [mbind result_bind].
    match goal with |- context [if ?b then ?x else ?x] => replace (if b then x else x) with x by (by destruct b) end.
    assert (zlen (listed set) = Z.of_nat (size set)) as Ez by (unfold zlen; by rewrite (k_listed Hk set)).
    rewrite Ez, ensure_few by done. cbn [mbind result_bind]. eexists. split; [done|]. split.
    + rewrite (k_listed Hk set). apply NoDup_elements.
    + intros pk Hpk _. rewrite (k_listed Hk set). by apply elem_of_elements, Hc.
  - unfold get_query_row_ids. destruct (range_all (ids_key table) ids NEG_INFINITY INFINITY false false (k_ids Hk) eq_refl eq_refl) as [-> Hf].
    cbn [mbind result_bind]. rewrite ensure_few by done. cbn [mbind result_bind].
    rewrite interval_all in * by (intros pk s Hs; destruct (k_scores Hk pk s Hs) as (? & ? & _); done).
    match goal with |- context [if ?b then ?x else ?x] => replace (if b then x else x) with x by (by destruct b) end.
    rewrite ensure_few by done. cbn [mbind result_bind]. eexists. split; [done|]. split.
    + unfold ranking. rewrite merge_sort_Permutation, <-list_fmap_compose. apply NoDup_fst_map_to_list.
    + intros pk _ [s Hs]. apply list_elem_of_fmap. exists (s, pk). split; [done|]. by apply SortedSets.SortedSets.elem_of_ranking.
Qed.

(** ** Lemmas: the order *)

Definition score_of (pk : bytes) : Z := default INFINITY (ids !! pk).
Definition pk_le (a b : bytes) : Prop := ordered_le (a, score_of a) (b, score_of b).

#[local] Instance ordered_total : Total ordered_le.
Proof.
  intros a b. unfold ordered_le. destruct (Z.lt_total (total_key a.2) (total_key b.2)) as [?|[E|?]]; [left; by left| |right; by left].
  destruct (SortedSets.SortedSets.bytes_leb_total a.1 b.1); [left|right]; by right.
Qed.

#[local] Instance ordered_trans : Transitive ordered_le.
Proof.
  intros a b c. unfold ordered_le. intros [H1|[E1 L1]] [H2|[E2 L2]]; [left; lia..|]. right. split; [lia|].
  by eapply SortedSets.SortedSets.bytes_leb_trans.
Qed.

#[local] Instance pk_le_antisym : AntiSymm (=) pk_le.
Proof.
  intros a b. unfold pk_le, ordered_le. cbn. intros [H1|[E1 L1]] [H2|[E2 L2]]; try lia. by apply SortedSets.SortedSets.bytes_leb_antisym.
Qed.

Lemma score_ids_all pks : score_ids d table pks = Ok ((fun pk => (pk, score_of pk)) <$> pks).
Proof. induction pks as [|pk pks IH]; [done|]. cbn [score_ids]. rewrite (proj1 (k_ids Hk)). cbn [mbind result_bind]. by rewrite IH. Qed.

Lemma matching_all conditions pks :
  matching to_lowercase f64_distance d table schema conditions pks = Ok (List.filter (row_found conditions) pks).
Proof.
  induction pks as [|pk pks IH]; [done|]. cbn [matching List.filter]. unfold row_found at 1.
  assert (exists r, get_row d table schema pk = Ok r) as [r ->].
  { destruct (ids !! pk) eqn:E; [apply (k_rows Hk); by rewrite E|]. eexists. by apply (k_gone Hk). }
  cbn [mbind result_bind]. rewrite IH. cbn [mbind result_bind]. destruct r as [row|]; [|done]. by destruct (row_matches_base_conditions _ _ row _ _ _).
Qed.

Lemma sorted_pks pks : StronglySorted pk_le (fst <$> merge_sort ordered_le ((fun pk => (pk, score_of pk)) <$> pks)).
Proof.
  pose proof (StronglySorted_merge_sort ordered_le ((fun pk => (pk, score_of pk)) <$> pks)) as Hs.
  assert (Forall (fun x => x.2 = score_of x.1) (merge_sort ordered_le ((fun pk => (pk, score_of pk)) <$> pks))) as Hf.
  { rewrite merge_sort_Permutation. apply Forall_fmap, Forall_true. done. }
  induction Hs as [|x l Hl IH Hx]; [constructor|]. apply Forall_cons in Hf as [Ex Hf]. cbn. constructor; [by apply IH|].
  apply Forall_fmap. rewrite Forall_forall in Hx, Hf |- *. intros y Hy. specialize (Hx y Hy). specialize (Hf y Hy).
  cbn. unfold pk_le. rewrite <-Ex, <-Hf. by destruct x, y.
Qed.

Lemma found_sorted {A : Type} (R : relation A) (f : A -> bool) l : StronglySorted R l -> StronglySorted R (List.filter f l).
Proof.
  induction 1 as [|x l Hl IH Hx]; [constructor|]. cbn. destruct (f x); [|done]. constructor; [done|].
  rewrite Forall_forall in Hx |- *. intros y Hy. apply Hx. apply list_elem_of_In in Hy. apply filter_In in Hy as [Hy _]. by apply list_elem_of_In.
Qed.

(** On the scores of rows, the order of all doubles is that of the sorted set. *)
Lemma rank_key s : u64_ok s -> f64_is_nan s = false -> s <> 9223372036854775808 ->
  total_key s = if f64_rank s <? 0 then f64_rank s - 1 else f64_rank s.
Proof.
  intros Hu Hn Hz. unfold total_key, f64_rank. rewrite Hn. destruct (SortedSets.SortedSets.bits_cases s Hu) as [(? & -> & _)|(? & -> & _)].
  - destruct (Z.ltb_spec s 0); [destruct Hu; lia|done].
  - destruct (Z.ltb_spec (- (s - 9223372036854775808)) 0); lia.
Qed.

Lemma sorted_ranking : StronglySorted pk_le (snd <$> ranking ids).
Proof.
  pose proof (SortedSets.SortedSets.ranking_sorted ids) as Hs.
  assert (forall x, x ∈ ranking ids -> ids !! x.2 = Some x.1) as Hx by (intros x; apply SortedSets.SortedSets.elem_of_ranking).
  induction Hs as [|x l Hl IH Hlt]; [constructor|]. cbn. constructor; [apply IH; intros y Hy; apply Hx; by right|].
  apply Forall_fmap. rewrite Forall_forall in Hlt |- *. intros y Hy. specialize (Hlt y Hy).
  pose proof (Hx x ltac:(by left)) as Ex. pose proof (Hx y ltac:(by right)) as Ey. cbn. unfold pk_le, score_of. rewrite Ex, Ey.
  destruct (k_scores Hk _ _ Ex) as (Ux & Nx & Zx), (k_scores Hk _ _ Ey) as (Uy & Ny & Zy). cbn [from_option]. unfold id, ordered_le. cbn [fst snd].
  rewrite (rank_key x.1), (rank_key y.1) by done. apply SortedSets.SortedSets.zkey_lt in Hlt as [Hlt|(E & Hle & _)].
  - left. destruct (Z.ltb_spec (f64_rank x.1) 0), (Z.ltb_spec (f64_rank y.1) 0); lia.
  - right. by rewrite E.
Qed.

Lemma found_satisfies conditions pk : row_found conditions pk = true -> is_Some (ids !! pk) /\ Forall (fun cond => satisfies cond pk) conditions.
Proof.
  unfold row_found. destruct (get_row d table schema pk) as [[row|]|] eqn:Er; [|done..]. intros Hm. split.
  - destruct (ids !! pk) eqn:E; [done|]. rewrite (k_gone Hk pk E) in Er. done.
  - unfold row_matches_base_conditions in Hm. rewrite forallb_forall in Hm. apply Forall_forall. intros cond Hc%list_elem_of_In. exists row.
    split; [done|]. by apply Hm.
Qed.

Lemma scan_is_filter pks conditions :
  NoDup pks -> (forall pk, Forall (fun cond => satisfies cond pk) conditions -> is_Some (ids !! pk) -> pk ∈ pks) ->
  List.filter (row_found conditions) (fst <$> merge_sort ordered_le ((fun pk => (pk, score_of pk)) <$> pks)) = matching_rows conditions.
Proof.
  intros Hn Hc. unfold matching_rows. apply (StronglySorted_unique pk_le).
  - apply found_sorted, sorted_pks.
  - apply found_sorted, sorted_ranking.
  - assert (fst <$> merge_sort ordered_le ((fun pk => (pk, score_of pk)) <$> pks) ≡ₚ pks) as Hp.
    { rewrite merge_sort_Permutation, <-list_fmap_compose. by rewrite (list_fmap_id pks : (compose fst (fun pk => (pk, score_of pk)) <$> pks) = pks). }
    apply NoDup_Permutation.
    + apply NoDup_ListNoDup, List.NoDup_filter, NoDup_ListNoDup. by rewrite Hp.
    + apply NoDup_ListNoDup, List.NoDup_filter, NoDup_ListNoDup. unfold ranking. rewrite merge_sort_Permutation, <-list_fmap_compose. apply NoDup_fst_map_to_list.
    + intros pk. rewrite !list_elem_of_In, !filter_In, <-!list_elem_of_In. split; intros [Hin Hf]; (split; [|done]); destruct (found_satisfies _ _ Hf) as [[s Hs] Ha].
      * apply list_elem_of_fmap. exists (s, pk). split; [done|]. by apply SortedSets.SortedSets.elem_of_ranking.
      * rewrite Hp. apply Hc; [done|by eexists].
Qed.

End Scan.

(** ** Conditions that are exact *)

(** Reading integers as doubles: [r] is the rank of the result. The order is kept, and kept strictly
    around the integers that a double holds exactly. *)
Record integers_as_doubles `{Env} (r : Z -> Z) : Prop := {
  i_parse : forall t n, parse_i64 t = Some n -> exists b, parse_f64 t = Some b /\ u64_ok b /\ f64_is_nan b = false /\ f64_rank b = r n;
  i_le : forall a b, a < b -> r a <= r b;
  i_lt : forall a b, a < b -> Z.abs a < 2 ^ 53 \/ Z.abs b < 2 ^ 53 -> r a < r b
}.

Definition is_int_type (t : FieldType) : bool := match t with TInt | TTimestamp | TRef _ => true | _ => false end.

Lemma int_exact `{Env} lower distance r t op value n :
  integers_as_doubles r -> is_int_type t = true -> parse_i64 value = Some n -> Z.abs n < 2 ^ 53 ->
  score_exact lower distance t op value.
Proof.
  intros Hi Ht Hn Hb score a b ax bx Es Eb. destruct (i_parse r Hi value n Hn) as (x & Ex & Ux & Nx & Rx). rewrite Es in Ex. injection Ex as ->.
  split; [done|]. intros cell s Hc Hs Hm.
  assert (exists k, parse_i64 cell = Some k /\ cmp_int op k n = true /\ u64_ok s /\ f64_is_nan s = false /\ f64_rank s = r k) as (k & Hk & Hcmp & Us & Ns & Rs).
  { destruct t; try done; cbn in Hc, Hs, Hm; destruct Hc as [k Hk]; destruct (i_parse r Hi cell k Hk) as (y & Ey & Uy & Ny & Ry); rewrite Ey in Hs; injection Hs as <-;
      exists k; unfold as_int in Hm; by rewrite Hk, Hn in Hm. }
  pose proof (SortedSets.SortedSets.rank_bound s Us Ns) as Hbnd.
  assert (n < k -> r n < r k) as Hgt by (intros; apply (i_lt r Hi); auto). assert (k < n -> r k < r n) as Hlt by (intros; apply (i_lt r Hi); auto).
  assert (k = n -> r k = r n) as Heq by (by intros ->).
  assert (f64_rank NEG_INFINITY = - INFINITY /\ f64_rank INFINITY = INFINITY) as [E1 E2] by done.
  destruct op; cbn in Eb; try done; injection Eb as <- <- <- <-; unfold in_interval, SortedSets.SortedSets.above, SortedSets.SortedSets.below, f64_le, f64_lt, f64_eq;
    cbn [fst]; rewrite ?Ns, ?Nx; change (f64_is_nan NEG_INFINITY) with false; change (f64_is_nan INFINITY) with false; cbn [negb andb];
    rewrite ?E1, ?E2, ?Rs, ?Rx in *; cbn in Hcmp; apply andb_true_iff; rewrite ?orb_true_iff, ?Z.ltb_lt, ?Z.eqb_eq;
    rewrite ?Z.eqb_eq, ?Z.ltb_lt, ?Z.leb_le in Hcmp; destruct (Z.lt_trichotomy k n) as [?|[?|?]]; lia.
Qed.

(** ** Properties *)


(** ** A concrete table *)

(** The rank of the double nearest to an integer: above [2 ^ 53] only even integers have one. *)
Definition rank_of (n : Z) : Z :=
  let m := if Z.abs n <? 2 ^ 53 then Z.abs n else Z.min (2 * (Z.abs n / 2)) (2 ^ 62) in if n <? 0 then - m else m.

Definition int_double (n : Z) : Z := if rank_of n <? 0 then 2 ^ 63 - rank_of n else rank_of n.

(** Integers stand for the doubles they denote. *)
#[local] Instance query_env : Env := {|
  parse_f64 b := int_double <$> parse_i64 b;
  fmt_f64 := fmt_i;
  parse_f32 := parse_i64;
  fmt_f32 := fmt_i;
  i64_as_f64 := int_double;
  u64_as_f64 := int_double;
  f64_as_i64 z := z;
  from_str _ := None;
  json_f64 _ := None;
  listed := elements;
  vector_metadata _ _ pk := pk;
  encrypt _ _ _ v := Ok v;
  decrypt _ _ _ v := Ok v;
  blind_indexes _ _ v := Ok [v];
  now_ms := 1000 |}.

Lemma rank_of_bound n : - 2 ^ 62 <= rank_of n <= 2 ^ 62.
Proof. unfold rank_of. destruct (Z.ltb_spec (Z.abs n) (2 ^ 53)), (Z.ltb_spec n 0); Z.to_euclidean_division_equations; lia. Qed.

Lemma double_rank n : u64_ok (int_double n) /\ f64_is_nan (int_double n) = false /\ f64_rank (int_double n) = rank_of n.
Proof.
  pose proof (rank_of_bound n) as Hb. unfold int_double. assert (u64_ok (if rank_of n <? 0 then 2 ^ 63 - rank_of n else rank_of n)) as Hu.
  { unfold u64_ok, u64_mod. destruct (Z.ltb_spec (rank_of n) 0); lia. }
  assert (f64_is_nan (if rank_of n <? 0 then 2 ^ 63 - rank_of n else rank_of n) = false) as Hn.
  { rewrite SortedSets.SortedSets.nan_bits. apply Z.ltb_ge. unfold INFINITY.
    destruct (SortedSets.SortedSets.bits_cases _ Hu) as [(? & _ & ->)|(? & _ & ->)]; destruct (Z.ltb_spec (rank_of n) 0); lia. }
  split; [done|]. split; [done|]. unfold f64_rank. rewrite Hn.
  destruct (SortedSets.SortedSets.bits_cases _ Hu) as [(? & -> & _)|(? & -> & _)]; destruct (Z.ltb_spec (rank_of n) 0); lia.
Qed.

Lemma sample_integers : integers_as_doubles rank_of.
Proof.
  split.
  - intros t n Hn. destruct (double_rank n) as (? & ? & ?). exists (int_double n). cbn. by rewrite Hn.
  - intros a b Hab. unfold rank_of. destruct (Z.ltb_spec (Z.abs a) (2 ^ 53)), (Z.ltb_spec (Z.abs b) (2 ^ 53)), (Z.ltb_spec a 0), (Z.ltb_spec b 0); Z.to_euclidean_division_equations; lia.
  - intros a b Hab Hc. unfold rank_of. destruct (Z.ltb_spec (Z.abs a) (2 ^ 53)), (Z.ltb_spec (Z.abs b) (2 ^ 53)), (Z.ltb_spec a 0), (Z.ltb_spec b 0); Z.to_euclidean_division_equations; lia.
Qed.

Abbreviation column := TableJournal.TableJournal.column.
Abbreviation sample_cache := TableJournal.TableJournal.sample_cache.
Abbreviation cell := TableJournal.TableJournal.cell.

Definition two_columns : list FieldDef := [column "id" TStr true true None; column "n" TInt false false None].

Definition row_hash (cells : list (bytes * bytes)) : TableValue := TvHash (Values.Values.mkHash (list_to_map cells) ∅).

(** The keys of a table [a] with the rows [k], where [n] is 5, and [l], where it is 7. *)
Definition entries : list (bytes * TableValue) :=
  [(ids_key (bs "a"), TvZset {[bs "k" := int_double 1; bs "l" := int_double 2]});
   (row_key_for_pk (bs "a") (bs "k"), row_hash [(bs "id", bs "k"); (bs "n", [5; 0; 0; 0; 0; 0; 0; 0])]);
   (row_key_for_pk (bs "a") (bs "l"), row_hash [(bs "id", bs "l"); (bs "n", [7; 0; 0; 0; 0; 0; 0; 0])]);
   (idx_sorted_key (bs "a") (bs "n"), TvZset {[bs "k" := int_double 5; bs "l" := int_double 7]});
   (idx_str_key (bs "a") (bs "id") (bs "k"), TvSet {[bs "k"]});
   (idx_str_key (bs "a") (bs "id") (bs "l"), TvSet {[bs "l"]})].

Definition two_rows : Db := fun k => (list_to_map entries : gmap bytes TableValue) !! k.
Definition two_ids : gmap bytes Z := {[bs "k" := int_double 1; bs "l" := int_double 2]}.
Definition row_k : gmap bytes bytes := {[bs "id" := bs "k"; bs "n" := bs "5"]}.
Definition row_l : gmap bytes bytes := {[bs "id" := bs "l"; bs "n" := bs "7"]}.

Lemma two_rows_key k v : two_rows k = Some v -> (k, v) ∈ entries.
Proof. apply elem_of_list_to_map_2. Qed.

Lemma two_rows_read pk row : get_row two_rows (bs "a") two_columns pk = Ok (Some row) -> (pk = bs "k" /\ row = row_k) \/ (pk = bs "l" /\ row = row_l).
Proof.
  intros Hr. assert (exists v, two_rows (row_key_for_pk (bs "a") pk) = Some v) as [v Hv].
  { revert Hr. unfold get_row, get_row_impl, hgetall. destruct (two_rows _) as [v|]; [by eexists|done]. }
  apply two_rows_key in Hv. unfold entries in Hv. rewrite !elem_of_cons in Hv.
  destruct Hv as [E|[E|[E|[E|[E|[E|E]]]]]]; [..|by apply not_elem_of_nil in E]; injection E as E _; cbn in E; try discriminate E.
  - assert (pk = bs "k") as -> by exact E. left. split; [done|]. assert (get_row two_rows (bs "a") two_columns (bs "k") = Ok (Some row_k)) as E' by (vm_compute; reflexivity). congruence.
  - assert (pk = bs "l") as -> by exact E. right. split; [done|]. assert (get_row two_rows (bs "a") two_columns (bs "l") = Ok (Some row_l)) as E' by (vm_compute; reflexivity). congruence.
Qed.

Lemma two_rows_text v : exists s, text_index 10 two_rows (idx_str_key (bs "a") (bs "id") v) s.
Proof.
  destruct (two_rows (idx_str_key (bs "a") (bs "id") v)) as [w|] eqn:E.
  - pose proof (two_rows_key _ _ E) as Hin. unfold entries in Hin. rewrite !elem_of_cons in Hin.
    destruct Hin as [E'|[E'|[E'|[E'|[E'|[E'|E']]]]]]; [..|by apply not_elem_of_nil in E']; injection E' as Ek Ew; cbn in Ek; try discriminate Ek;
      subst w; eexists; unfold text_index, smembers; rewrite E; (split; [reflexivity|]); rewrite size_singleton; vm_compute; discriminate.
  - exists ∅. unfold text_index, smembers. rewrite E. split; [reflexivity|]. vm_compute. discriminate.
Qed.

Lemma two_rows_consistent : consistent 10 two_rows (bs "a") two_columns two_ids.
Proof.
  assert (forall pk, two_ids !! pk = None \/ pk = bs "k" \/ pk = bs "l") as Hpk.
  { intros pk. destruct (decide (pk = bs "k")), (decide (pk = bs "l")); auto. left. unfold two_ids. by rewrite lookup_insert_ne, lookup_singleton_ne. }
  split.
  - vm_compute. split; [discriminate|reflexivity].
  - done.
  - split; vm_compute; [reflexivity|discriminate].
  - intros pk s Hs. destruct (Hpk pk) as [E|[->| ->]]; [by rewrite E in Hs|vm_compute in Hs; injection Hs as <-..]; vm_compute; split_and!; discriminate || reflexivity.
  - intros pk [s Hs]. destruct (Hpk pk) as [E|[->| ->]]; [by rewrite E in Hs|eexists; vm_compute; reflexivity..].
  - intros pk Hn. assert (two_rows (row_key_for_pk (bs "a") pk) = None) as E.
    { destruct (two_rows _) as [w|] eqn:E; [|done]. apply two_rows_key in E. unfold entries in E. rewrite !elem_of_cons in E.
      destruct E as [E|[E|[E|[E|[E|[E|E]]]]]]; [..|by apply not_elem_of_nil in E]; injection E as E _; cbn in E; try discriminate E; subst pk; by vm_compute in Hn. }
    unfold get_row, get_row_impl, hgetall. by rewrite E.
  - intros fd Hin. unfold two_columns in Hin. rewrite !elem_of_cons in Hin. destruct Hin as [->|[->|Hin]]; [reflexivity..|by apply not_elem_of_nil in Hin].
  - intros pk row fd t Hrow Hin Ht _. unfold two_columns in Hin. rewrite !elem_of_cons in Hin. destruct Hin as [->|[->|Hin]]; [| |by apply not_elem_of_nil in Hin].
    + destruct (two_rows_read pk row Hrow) as [[-> ->]|[-> ->]]; vm_compute in Ht; injection Ht as <-;
        [exists {[bs "k"]}|exists {[bs "l"]}]; (split; [split; [vm_compute; reflexivity|vm_compute; discriminate]|by apply elem_of_singleton]).
    + exists {[bs "k" := int_double 5; bs "l" := int_double 7]}.
      destruct (two_rows_read pk row Hrow) as [[-> ->]|[-> ->]]; vm_compute in Ht; injection Ht as <-;
        [exists (int_double 5)|exists (int_double 7)]; (split; [split; vm_compute; [reflexivity|discriminate]|split; vm_compute; reflexivity]).
  - intros pk row col t Hrow Hs Ht. unfold pk_served_by_ids_set in Hs. cbn in Hs. by rewrite !andb_false_r in Hs.
  - intros pk row col t Hrow Ht. unfold column_type. destruct (find_field col two_columns) as [fd|] eqn:Ef.
    + destruct (find_field_some two_columns col fd Ef) as [Hin Hn]. subst col. unfold two_columns in Hin. rewrite !elem_of_cons in Hin.
      destruct Hin as [->|[->|Hin]]; [done| |by apply not_elem_of_nil in Hin].
      destruct (two_rows_read pk row Hrow) as [[-> ->]|[-> ->]]; vm_compute in Ht; injection Ht as <-; vm_compute; by eexists.
    + exfalso. destruct (two_rows_read pk row Hrow) as [[-> ->]|[-> ->]]; apply elem_of_dom_2 in Ht; unfold row_k, row_l in Ht;
        rewrite dom_insert_L, dom_singleton_L, elem_of_union, !elem_of_singleton in Ht; destruct Ht as [-> | ->]; by vm_compute in Ef.
  - intros pk row fd Hrow Hin Hp. unfold two_columns in Hin. rewrite !elem_of_cons in Hin. destruct Hin as [->|[->|Hin]]; [|done|by apply not_elem_of_nil in Hin].
    destruct (two_rows_read pk row Hrow) as [[-> ->]|[-> ->]]; reflexivity.
  - intros fd Hin. unfold two_columns in Hin. rewrite !elem_of_cons in Hin. destruct Hin as [->|[->|Hin]]; [| |by apply not_elem_of_nil in Hin].
    + intros v. apply two_rows_text.
    + exists {[bs "k" := int_double 5; bs "l" := int_double 7]}. split; vm_compute; [reflexivity|discriminate].
Qed.


(** ** What the planner misses *)

Definition stored (schema : list FieldDef) (rows : list (list (bytes * bytes))) : Db :=
  let d := TableJournal.TableJournal.sample_db in
  match TableJournal.TableJournal.stage_request d (sample_cache schema) (bs "a") (TableJournal.TableJournal.RInsert rows None) [] with
  | Ok m => publish m d
  | Err _ => d
  end.

Abbreviation found schema d conditions := (row_found (fun s => s) (fun _ _ => 0) d (bs "a") schema conditions).
Abbreviation scan schema d conditions :=
  (match scan_matching_pks (fun s => s) (fun _ _ => 0) 10 d (sample_cache schema) (bs "a") conditions with Ok r => Some r.2 | Err _ => None end).

(** Two integers that round to the same double: the index says that the greater is not greater. *)
Example large_integer_missed :
  let d := stored two_columns [[cell "id" "k"; cell "n" "9007199254740993"]] in
  let where_ := [single (bs "n") Gt_ (bs "9007199254740992")] in
  found two_columns d where_ (bs "k") = true /\ scan two_columns d where_ = Some [].
Proof. vm_compute. done. Qed.

(** A primary key is looked up by the text of the condition. *)
Example key_text_missed :
  let schema := [column "id" TInt true true None; column "x" TStr false false None] in
  let d := stored schema [[cell "id" "7"; cell "x" "u"]] in
  let where_ := [single (bs "id") Eq_ (bs "+7")] in
  found schema d where_ (bs "7") = true /\ scan schema d where_ = Some [] /\
  scan schema d [single (bs "id") Ge (bs "+7"); single (bs "id") Le (bs "+7")] = Some [bs "7"].
Proof. vm_compute. done. Qed.

(** A UUID is indexed by the text of the insert and compared by its canonical text: in upper case it is never found. *)
Example upper_uuid_missed :
  let schema := [column "id" TStr true true None; column "u" TUuid false false None] in
  let d := stored schema [[cell "id" "k"; cell "u" "0123456789ABCDEF0123456789ABCDEF"]] in
  let canonical := [single (bs "u") Eq_ (bs "01234567-89ab-cdef-0123-456789abcdef")] in
  found schema d canonical (bs "k") = true /\ scan schema d canonical = Some [] /\
  scan schema d [single (bs "u") Eq_ (bs "0123456789ABCDEF0123456789ABCDEF")] = Some [].
Proof. vm_compute. done. Qed.

(** ORDER BY a column that has an index reads the index alone: a row without a value in the column is not
    read, although no condition excludes it. *)
Example null_rows_not_ordered :
  let d := stored two_columns [[cell "id" "k"; cell "n" "5"]; [cell "id" "l"]] in
  get_all_row_ids d (bs "a") = Ok [bs "k"; bs "l"] /\
  plan_table_scan 10 d (bs "a") two_columns (mkScanPlan [] (Some (bs "n", true)) None None true None) = Ok (mkScan [bs "k"] true false).
Proof. vm_compute. done. Qed.

(** A TIMESTAMP column accepts the text [*] for the time of the insert, but its index does not: the insert fails. *)
Example timestamp_star_refused :
  let schema := [column "id" TStr true true None; column "at" TTimestamp false false None] in
  validate_cell (column "at" TTimestamp false false None) (bs "*") = Ok tt /\
  exists e, stage_table_insert TableJournal.TableJournal.sample_db (sample_cache schema) (bs "a") [cell "id" "k"; cell "at" "*"] None (mutation_new []) = Err e.
Proof. split; [reflexivity|]. eexists. vm_compute. reflexivity. Qed.
End Query.
