(* ===== verification/Refresh.v ===== *)
(** * Refresh tokens ([src/src/auth/refresh.rs] and [logout] of [src/src/auth.rs])

    A session is a row of [auth.sessions] with the hash of its current refresh token. A refresh presents
    the token: it is decoded, its session is read, the presentation is classified, a new token is signed
    and the row is updated under a condition that names the session and the hash of the presented token.
    A token that was used before revokes the whole family of its session.

    The handlers are programs of requests to the tables, the signer and the clock. A request is one atomic
    step; between two requests of a handler any number of other handlers may run. A request may also fail.
    Statements on the tables are those of [Where] and [Query]: their WHERE words are parsed and evaluated
    on the rows as in those files. Signatures, the hash and JSON are parameters; texts are UTF-8 bytes. *)

From S2P Require Import Prelude.
From S2P Require Import Commands.
From S2P Require Import Where.
From S2P Require Import Schema.
From S2P Require Import Tables.
From S2P Require Import TableJournal.
From S2P Require Import Query.
Local Open Scope Z_scope.

Module Refresh.
Import Where.Where(WhereClause, mkWhere, Eq_, single, or_group, IsNull, Gt_).
Import Schema.Schema.
Import Tables.Tables(Env).
Import Query.Query(row_matches_base_conditions).

Abbreviation Row := (gmap bytes bytes).

(** ** Programs *)

Inductive Table := SESSIONS | USERS.

Record RefreshClaims := mkClaims {
  iss : bytes; sub : bytes; aud : bytes; session_id : bytes; refresh_token_family : bytes; refresh_generation : Z;
  token_type : bytes; jti : bytes; iat : Z; exp : Z }.

(** The answer of a handler: the tokens of a refresh, a success without tokens, or a status and its message. *)
Inductive AuthResponse :=
| Granted (access_token refresh_token : bytes) (expires_in : Z) (user : Row)
| Done
| Error (status : Z) (message : string).

Inductive prog (A : Type) : Type :=
| Ret (a : A)
| FindRow (t : Table) (field value : bytes) (k : result (option Row) -> prog A)
| FindRows (t : Table) (field value : bytes) (k : result (list Row) -> prog A)
| UpdateWhere (t : Table) (updates : list (bytes * bytes)) (args : list bytes) (k : result Z -> prog A)
| SignRefresh (c : RefreshClaims) (k : result bytes -> prog A)
| SignAccess (user_id email session_id : bytes) (k : result bytes -> prog A)
| UnixSeconds (k : Z -> prog A).
Arguments Ret {A}. Arguments FindRow {A}. Arguments FindRows {A}. Arguments UpdateWhere {A}.
Arguments SignRefresh {A}. Arguments SignAccess {A}. Arguments UnixSeconds {A}.

Fixpoint prog_bind {A B : Type} (f : A -> prog B) (p : prog A) : prog B :=
  match p with
  | Ret a => f a
  | FindRow t c v k => FindRow t c v (fun r => prog_bind f (k r))
  | FindRows t c v k => FindRows t c v (fun r => prog_bind f (k r))
  | UpdateWhere t u w k => UpdateWhere t u w (fun r => prog_bind f (k r))
  | SignRefresh c k => SignRefresh c (fun r => prog_bind f (k r))
  | SignAccess u e s k => SignAccess u e s (fun r => prog_bind f (k r))
  | UnixSeconds k => UnixSeconds (fun r => prog_bind f (k r))
  end.

#[export] Instance prog_mret : MRet prog := fun A => Ret.
#[export] Instance prog_mbind : MBind prog := fun A B f p => prog_bind f p.

Definition find_row_by_field (t : Table) (field value : bytes) : prog (result (option Row)) := FindRow t field value Ret.
Definition find_rows_by_field (t : Table) (field value : bytes) : prog (result (list Row)) := FindRows t field value Ret.
Definition durable_table_update_where (t : Table) (updates : list (bytes * bytes)) (args : list bytes) : prog (result Z) := UpdateWhere t updates args Ret.
Definition unix_seconds : prog Z := UnixSeconds Ret.

(** ** Sessions *)

Definition row_field_is_set (row : Row) (field : bytes) : bool :=
  match row !! field with Some v => negb (bytes_eqb v []) && negb (bytes_eqb v (bs "0")) | None => false end.

Definition nonempty (v : option bytes) : option bytes := match v with Some [] => None | v => v end.

Definition session_family (session : Row) : bytes :=
  match nonempty (session !! bs "refresh_token_family") with
  | Some f => f
  | None => default [] (session !! bs "id")
  end.

Definition session_generation (session : Row) : Z := default 0 (session !! bs "refresh_generation" ≫= parse_u64).

Inductive Presentation := Current | Reuse | Revoked | Invalid.

Definition classify (session : Row) (claims : option RefreshClaims) (token_hash : bytes) : Presentation :=
  let revoked := row_field_is_set session (bs "revoked_at") in
  let is_current := bool_decide (session !! bs "refresh_token_hash" = Some token_hash) in
  match claims with
  | Some c =>
      if negb (bool_decide (session !! bs "id" = Some (session_id c)) && bool_decide (session !! bs "user_id" = Some (sub c)) &&
               bytes_eqb (session_family session) (refresh_token_family c))
      then Invalid
      else
        let current_generation := session_generation session in
        if refresh_generation c >? current_generation then Invalid
        else if (refresh_generation c <? current_generation) || negb is_current then Reuse
        else if revoked then Revoked else Current
  | None =>
      if bool_decide (session !! bs "legacy_refresh_token_hash" = Some token_hash) then Reuse
      else if is_current then if revoked then Revoked else Current
      else Invalid
  end.

Definition UNAUTHORIZED (msg : string) : AuthResponse := Error 401 msg.
Definition INTERNAL (msg : string) : AuthResponse := Error 500 msg.

Definition session_for_token (token_hash : bytes) (claims : option RefreshClaims) : prog (result (option Row)) :=
  match claims with
  | Some c => find_row_by_field SESSIONS (bs "id") (session_id c)
  | None =>
      session ← find_row_by_field SESSIONS (bs "refresh_token_hash") token_hash;
      match session with
      | Ok None => find_row_by_field SESSIONS (bs "legacy_refresh_token_hash") token_hash
      | r => mret r
      end
  end.

Definition revoke_family (sid now_sec : bytes) (reuse_detected : bool) : prog (result unit) :=
  session ← find_row_by_field SESSIONS (bs "id") sid;
  match session with
  | Err e => mret (Err e)
  | Ok None => mret (Ok tt)
  | Ok (Some session) =>
      let updates := [(bs "revoked_at", now_sec); (bs "access_revoked_at", now_sec); (bs "updated_at", now_sec)] ++
                     (if reuse_detected then [(bs "refresh_reuse_detected_at", now_sec)] else []) in
      r ← durable_table_update_where SESSIONS updates
            (match nonempty (session !! bs "refresh_token_family") with
             | Some family => [bs "refresh_token_family"; bs "="; family]
             | None => [bs "id"; bs "="; sid]
             end);
      mret (match r with Ok _ => Ok tt | Err e => Err e end)
  end.

Definition reuse_detected (session : Row) (now_sec : Z) : prog AuthResponse :=
  match session !! bs "id" with
  | None => mret (INTERNAL "session row is missing id")
  | Some sid =>
      r ← revoke_family sid (fmt_u now_sec) true;
      mret (match r with
            | Ok _ => UNAUTHORIZED "refresh token reuse detected; session revoked"
            | Err e => INTERNAL e
            end)
  end.

Definition revoked_opaque_was_consumed (session : Row) : prog (result bool) :=
  let family := session_family session in
  let id := default [] (session !! bs "id") in
  if bool_decide (family = []) then mret (Ok false)
  else
    rows ← find_rows_by_field SESSIONS (bs "refresh_token_family") family;
    mret (match rows with
          | Ok rows => Ok (existsb (fun candidate => negb (bool_decide (candidate !! bs "id" = Some id)) && negb (row_field_is_set candidate (bs "revoked_at"))) rows)
          | Err e => Err e
          end).

Definition rotation_lost (sid : bytes) (claims : option RefreshClaims) (token_hash : bytes) : prog AuthResponse :=
  latest ← find_row_by_field SESSIONS (bs "id") sid;
  match latest with
  | Err e => mret (INTERNAL e)
  | Ok None => mret (UNAUTHORIZED "invalid refresh token")
  | Ok (Some latest) =>
      match classify latest claims token_hash with
      | Reuse => now_sec ← unix_seconds; reuse_detected latest now_sec
      | Revoked => mret (UNAUTHORIZED "refresh token revoked")
      | Current | Invalid => mret (UNAUTHORIZED "invalid refresh token")
      end
  end.

Definition validate_user_active (user : Row) (now_sec : Z) : option AuthResponse :=
  if row_field_is_set user (bs "deleted_at") then Some (UNAUTHORIZED "user deleted")
  else if default 0 (user !! bs "banned_until" ≫= parse_u64) >? now_sec then Some (UNAUTHORIZED "user banned")
  else None.

(** The condition of the rotation. *)
Definition rotation_args (sid token_hash now_text : bytes) : list bytes :=
  [bs "id"; bs "="; sid; bs "AND"; bs "refresh_token_hash"; bs "="; token_hash; bs "AND"; bs "expires_at"; bs ">"; now_text; bs "AND";
   bs "revoked_at"; bs "IS"; bs "NULL"; bs "OR"; bs "revoked_at"; bs "="; bs "0"].

Definition u64_sat (z : Z) : Z := Z.min usize_max z.

Definition REFRESH_TOKEN_AUDIENCE : bytes := bs "lux-auth-refresh".
Definition REFRESH_TOKEN_TYPE : bytes := bs "refresh".
Definition MAX_REFRESH_TOKEN_BYTES : Z := 8192.

(** Tokens: their header, the keys of the server and the JWT library, which checks the signature, the issuer,
    the audience and, when asked, the expiry. *)
Inductive Algorithm := ES256 | HS256 | OtherAlgorithm.

Record SigningKey := mkKey { algorithm : bytes; public_jwk : bytes; private_key : bytes }.

Section Handlers.

Context (hash_secret : bytes -> bytes).
Context (decode_header : bytes -> option (Algorithm * option bytes)).
Context (signing_key_by_kid : bytes -> result (option SigningKey)) (active_signing_key : result (option SigningKey)).
Context (key_from_jwk : bytes -> option bytes).
Context (jwt_decode : Algorithm -> bytes -> bytes -> bytes -> bool -> bytes -> option RefreshClaims).
Context (issuer : bytes) (refresh_token_ttl access_token_ttl : Z).

Definition claims (token : bytes) (validate_expiration : bool) : option RefreshClaims + AuthResponse :=
  let invalid := UNAUTHORIZED "invalid refresh token" in
  if negb (zlen (List.filter (Z.eqb 46) token) =? 2) then inl None
  else match decode_header token with
       | None => inr invalid
       | Some (alg, kid) =>
           let found := match alg, kid with
                        | ES256, None | OtherAlgorithm, _ => Ok None
                        | ES256, Some kid | HS256, Some kid => signing_key_by_kid kid
                        | HS256, None => active_signing_key
                        end in
           match found with
           | Err e => inr (INTERNAL e)
           | Ok None => inr invalid
           | Ok (Some key) =>
               let decoding_key :=
                 match alg with
                 | ES256 => if bytes_eqb (algorithm key) (bs "ES256")
                            then match key_from_jwk (public_jwk key) with Some k => inl k | None => inr (INTERNAL "invalid auth signing key") end
                            else inr invalid
                 | HS256 => if bytes_eqb (algorithm key) (bs "HS256") then inl (private_key key) else inr invalid
                 | OtherAlgorithm => inr invalid
                 end in
               match decoding_key with
               | inr response => inr response
               | inl k =>
                   match jwt_decode alg k issuer REFRESH_TOKEN_AUDIENCE validate_expiration token with
                   | None => inr invalid
                   | Some c => if negb (bytes_eqb (token_type c) REFRESH_TOKEN_TYPE) then inr invalid else inl (Some c)
                   end
               end
           end
       end.

Definition sign (user_id sid family : bytes) (generation now : Z) (fresh_jti : bytes) : prog (result bytes) :=
  SignRefresh (mkClaims issuer user_id REFRESH_TOKEN_AUDIENCE sid family generation REFRESH_TOKEN_TYPE fresh_jti now (u64_sat (now + refresh_token_ttl))) Ret.

(** The rotation of the current token of a session. *)
Definition rotate (token_hash : bytes) (parsed_claims : option RefreshClaims) (session : Row) (now_sec : Z) (user_agent fresh_jti : bytes) : prog AuthResponse :=
  let expires_at := default 0 (session !! bs "expires_at" ≫= parse_u64) in
  if expires_at <=? now_sec then mret (UNAUTHORIZED "refresh token expired")
  else match session !! bs "user_id" with
  | None => mret (INTERNAL "session row is missing user_id")
  | Some user_id =>
      user ← find_row_by_field USERS (bs "id") user_id;
      match user with
      | Err e => mret (INTERNAL e)
      | Ok None => mret (UNAUTHORIZED "user not found")
      | Ok (Some user) =>
          match validate_user_active user now_sec with
          | Some response => mret response
          | None =>
              match session !! bs "id" with
              | None => mret (INTERNAL "session row is missing id")
              | Some sid =>
                  let email := default [] (user !! bs "email") in
                  let generation := Z.max (u64_sat (session_generation session + 1)) 1 in
                  next ← sign user_id sid (session_family session) generation now_sec fresh_jti;
                  match next with
                  | Err e => mret (INTERNAL e)
                  | Ok next_refresh_token =>
                      access ← SignAccess user_id email sid Ret;
                      match access with
                      | Err e => mret (INTERNAL e)
                      | Ok access_token =>
                          let now_text := fmt_u now_sec in
                          let updates :=
                            [(bs "refresh_token_hash", hash_secret next_refresh_token); (bs "refresh_generation", fmt_u generation);
                             (bs "expires_at", fmt_u (u64_sat (now_sec + refresh_token_ttl))); (bs "refresh_rotated_at", now_text);
                             (bs "updated_at", now_text); (bs "user_agent", user_agent)] ++
                            (match parsed_claims with None => [(bs "legacy_refresh_token_hash", token_hash)] | Some _ => [] end) in
                          rotated ← durable_table_update_where SESSIONS updates (rotation_args sid token_hash now_text);
                          match rotated with
                          | Ok 1 =>
                              _ ← durable_table_update_where USERS [(bs "last_sign_in_at", now_text)] [bs "id"; bs "="; user_id];
                              mret (Granted access_token next_refresh_token access_token_ttl user)
                          | Ok 0 => rotation_lost sid parsed_claims token_hash
                          | Ok _ => mret (INTERNAL "refresh rotation matched more than one session")
                          | Err e => mret (INTERNAL e)
                          end
                      end
                  end
              end
          end
      end
  end.

(** [grant], after the body of the request was parsed: [refresh_token] is its field. *)
Definition grant (refresh_token : option bytes) (user_agent fresh_jti : bytes) : prog AuthResponse :=
  match nonempty refresh_token with
  | None => mret (Error 400 "missing refresh_token")
  | Some refresh_token =>
      if zlen refresh_token >? MAX_REFRESH_TOKEN_BYTES then mret (UNAUTHORIZED "invalid refresh token")
      else
        let token_hash := hash_secret refresh_token in
        match claims refresh_token true with
        | inr response => mret response
        | inl parsed_claims =>
            now_sec ← unix_seconds;
            session ← session_for_token token_hash parsed_claims;
            match session with
            | Err e => mret (INTERNAL e)
            | Ok None => mret (UNAUTHORIZED "invalid refresh token")
            | Ok (Some session) =>
                match classify session parsed_claims token_hash with
                | Reuse => reuse_detected session now_sec
                | Invalid => mret (UNAUTHORIZED "invalid refresh token")
                | Revoked =>
                    match parsed_claims with
                    | Some _ => mret (UNAUTHORIZED "refresh token revoked")
                    | None =>
                        consumed ← revoked_opaque_was_consumed session;
                        match consumed with
                        | Ok true => reuse_detected session now_sec
                        | Ok false => mret (UNAUTHORIZED "refresh token revoked")
                        | Err e => mret (INTERNAL e)
                        end
                    end
                | Current => rotate token_hash parsed_claims session now_sec user_agent fresh_jti
                end
            end
        end
  end.

(** [session_id_for_token], for a logout that presents a refresh token. *)
Definition session_id_for_token (token : bytes) : prog (result (option bytes)) :=
  if zlen token >? MAX_REFRESH_TOKEN_BYTES then mret (Ok None)
  else match claims token false with
       | inl (Some c) => mret (Ok (Some (session_id c)))
       | inl None =>
           session ← session_for_token (hash_secret token) None;
           mret (match session with Ok s => Ok (s ≫= fun s => s !! bs "id") | Err e => Err e end)
       | inr (Error status e) => mret (if status >=? 500 then Err e else Ok None)
       | inr _ => mret (Ok None)
       end.

(** [logout]: [bearer] is the session of the access token, when there is a valid one. *)
Definition logout (bearer refresh_token : option bytes) : prog AuthResponse :=
  now_sec ← unix_seconds;
  match bearer, refresh_token with
  | Some sid, _ =>
      r ← revoke_family sid (fmt_u now_sec) false;
      mret (match r with Ok _ => Done | Err e => INTERNAL e end)
  | None, Some token =>
      sid ← session_id_for_token token;
      match sid with
      | Ok (Some sid) => r ← revoke_family sid (fmt_u now_sec) false; mret (match r with Ok _ => Done | Err e => INTERNAL e end)
      | Ok None => mret Done
      | Err e => mret (INTERNAL e)
      end
  | None, None => mret (UNAUTHORIZED "missing bearer token or refresh_token")
  end.

End Handlers.
(** ** Handlers that run together *)

Definition text_column (name : string) (pk uniq : bool) : FieldDef := mkDef (bs name) TStr pk uniq (negb pk) None None None false false.
Definition int_column (name : string) : FieldDef := mkDef (bs name) TInt false false true None None None false false.

(** The columns of [auth.sessions]. *)
Definition sessions_schema : list FieldDef :=
  [text_column "id" true true; mkDef (bs "user_id") TUuid false false true None None None false false;
   text_column "refresh_token_hash" false true; text_column "refresh_token_family" false false; int_column "refresh_generation";
   text_column "legacy_refresh_token_hash" false false; text_column "user_agent" false false; text_column "ip" false false;
   int_column "expires_at"; int_column "revoked_at"; int_column "access_revoked_at"; int_column "refresh_rotated_at";
   int_column "refresh_reuse_detected_at"; int_column "created_at"; int_column "updated_at"].

Section System.

Context `{Env} (to_lowercase : list Z -> list Z) (f64_distance : Z -> Z -> Z).
Context (hash_secret : bytes -> bytes).
Context (decode_header : bytes -> option (Algorithm * option bytes)).
Context (signing_key_by_kid : bytes -> result (option SigningKey)) (active_signing_key : result (option SigningKey)).
Context (key_from_jwk : bytes -> option bytes).
Context (jwt_decode : Algorithm -> bytes -> bytes -> bytes -> bool -> bytes -> option RefreshClaims).
Context (issuer : bytes) (refresh_token_ttl access_token_ttl : Z).

Definition matches_row (conditions : list WhereClause) (row : Row) : bool :=
  row_matches_base_conditions to_lowercase f64_distance row sessions_schema None conditions.

Definition apply_updates (updates : list (bytes * bytes)) (row : Row) : Row := foldl (fun row p => <[p.1 := p.2]> row) row updates.

(** [table_update_where] on the rows of a table: every row that matches is updated; the result is their number. *)
Definition update_rows (updates : list (bytes * bytes)) (conditions : list WhereClause) (rows : list Row) : list Row :=
  (fun row => if matches_row conditions row then apply_updates updates row else row) <$> rows.
Definition count_rows (conditions : list WhereClause) (rows : list Row) : Z := zlen (List.filter (matches_row conditions) rows).

(** A running handler: the hash of the token it presents, the hash of the token it signed and has not stored,
    and whether its rotation succeeded. *)
Record Proc := mkProc { p_hash : bytes; p_signed : option bytes; p_won : bool; p_prog : prog AuthResponse }.

(** The sessions, the hashes of all tokens that were signed or presented, and the handlers. *)
Record System := mkSystem { sessions : list Row; issued : gset bytes; procs : list Proc }.

Definition eq_condition (field value : bytes) : list WhereClause := [single field Eq_ value].

(** One request of a handler. A statement may fail without an effect; a signed token is new. *)
Inductive request : list Row -> gset bytes -> Proc -> list Row -> gset bytes -> Proc -> Prop :=
| R_find_none field value k rows used h signed won :
    (forall row, row ∈ rows -> matches_row (eq_condition field value) row = false) ->
    request rows used (mkProc h signed won (FindRow SESSIONS field value k)) rows used (mkProc h signed won (k (Ok None)))
| R_find_some field value k rows used h signed won row :
    row ∈ rows -> matches_row (eq_condition field value) row = true ->
    request rows used (mkProc h signed won (FindRow SESSIONS field value k)) rows used (mkProc h signed won (k (Ok (Some row))))
| R_find_error t field value k rows used h signed won e :
    request rows used (mkProc h signed won (FindRow t field value k)) rows used (mkProc h signed won (k (Err e)))
| R_find_user field value k rows used h signed won r :
    request rows used (mkProc h signed won (FindRow USERS field value k)) rows used (mkProc h signed won (k r))
| R_find_all field value k rows used h signed won found :
    found ⊆+ List.filter (matches_row (eq_condition field value)) rows ->
    request rows used (mkProc h signed won (FindRows SESSIONS field value k)) rows used (mkProc h signed won (k (Ok found)))
| R_find_all_other t field value k rows used h signed won r :
    t = USERS \/ is_Some (match r with Err e => Some e | Ok _ => None end) ->
    request rows used (mkProc h signed won (FindRows t field value k)) rows used (mkProc h signed won (k r))
| R_update updates args k rows used h signed won conditions :
    Where.Where.parse_where_conditions args = Ok conditions ->
    let n := count_rows conditions rows in
    let sets := existsb (fun p => bytes_eqb p.1 (bs "refresh_token_hash")) updates in
    request rows used (mkProc h signed won (UpdateWhere SESSIONS updates args k)) (update_rows updates conditions rows) used
      (mkProc h (if sets then None else signed) (if sets then n =? 1 else won) (k (Ok n)))
| R_update_error t updates args k rows used h signed won e :
    request rows used (mkProc h signed won (UpdateWhere t updates args k)) rows used (mkProc h signed won (k (Err e)))
| R_update_user updates args k rows used h signed won r :
    request rows used (mkProc h signed won (UpdateWhere USERS updates args k)) rows used (mkProc h signed won (k r))
| R_sign c k rows used h signed won token :
    hash_secret token ∉ used ->
    request rows used (mkProc h signed won (SignRefresh c k)) rows ({[hash_secret token]} ∪ used)
      (mkProc h (Some (hash_secret token)) won (k (Ok token)))
| R_sign_error c k rows used h signed won e :
    request rows used (mkProc h signed won (SignRefresh c k)) rows used (mkProc h signed won (k (Err e)))
| R_sign_access user_id email sid k rows used h signed won r :
    request rows used (mkProc h signed won (SignAccess user_id email sid k)) rows used (mkProc h signed won (k r))
| R_clock k rows used h signed won z :
    0 < z <= i64_max -> request rows used (mkProc h signed won (UnixSeconds k)) rows used (mkProc h signed won (k z)).

Abbreviation grant_program := (grant hash_secret decode_header signing_key_by_kid active_signing_key key_from_jwk jwt_decode issuer refresh_token_ttl access_token_ttl).
Abbreviation logout_program := (logout hash_secret decode_header signing_key_by_kid active_signing_key key_from_jwk jwt_decode issuer).

(** A refresh or a logout begins, a handler makes a request, a sign-in adds a session with a new token, or the
    sessions of a user are removed. *)
Inductive step : System -> System -> Prop :=
| S_grant s token user_agent fresh_jti :
    step s (mkSystem (sessions s) ({[hash_secret token]} ∪ issued s)
              (procs s ++ [mkProc (hash_secret token) None false (grant_program (Some token) user_agent fresh_jti)]))
| S_logout s h bearer token :
    step s (mkSystem (sessions s) (issued s) (procs s ++ [mkProc h None false (logout_program bearer token)]))
| S_request s i p rows used p' :
    procs s !! i = Some p -> request (sessions s) (issued s) p rows used p' ->
    step s (mkSystem rows used (<[i := p']> (procs s)))
| S_sign_in s row h :
    row !! bs "refresh_token_hash" = Some h -> h ∉ issued s -> (forall other, other ∈ sessions s -> other !! bs "id" <> row !! bs "id") ->
    step s (mkSystem (sessions s ++ [row]) ({[h]} ∪ issued s) (procs s))
| S_remove s keep :
    step s (mkSystem (List.filter keep (sessions s)) (issued s) (procs s)).

(** The hash of the current token of each session. *)
Definition current_hashes (rows : list Row) : list bytes := omap (fun row => row !! bs "refresh_token_hash") rows.

(** A system that starts: sessions with different tokens, no handlers. *)
Definition initial (s : System) : Prop :=
  procs s = [] /\ NoDup (current_hashes (sessions s)) /\ forall h, h ∈ current_hashes (sessions s) -> h ∈ issued s.

(** A session that was revoked. *)
Definition revoked_row (row : Row) : bool := match row !! bs "revoked_at" with Some v => negb (Query.Query.as_int v =? 0) | None => false end.

(** A handler that answered with tokens. *)
Definition answered (p : Proc) : bool := match p_prog p with Ret (Granted _ _ _ _) => true | _ => false end.

(** ** Lemmas: the rotation *)

Definition HASH : bytes := bs "refresh_token_hash".

Definition rotation_conditions (sid h now_text : bytes) : list WhereClause :=
  [single (bs "id") Eq_ sid; single HASH Eq_ h; single (bs "expires_at") Gt_ now_text;
   or_group [single (bs "revoked_at") IsNull []; single (bs "revoked_at") Eq_ (bs "0")]].

Lemma rotation_parsed sid h now_text : Where.Where.parse_where_conditions (rotation_args sid h now_text) = Ok (rotation_conditions sid h now_text).
Proof. reflexivity. Qed.

Lemma hash_condition h row :
  Query.Query.row_matches_cond to_lowercase f64_distance row sessions_schema None (single HASH Eq_ h) =
  match row !! HASH with Some v => bytes_eqb v h | None => false end.
Proof. reflexivity. Qed.

Lemma rotation_hash sid h now_text row : matches_row (rotation_conditions sid h now_text) row = true -> row !! HASH = Some h.
Proof.
  unfold matches_row, row_matches_base_conditions, rotation_conditions. cbn [forallb]. rewrite hash_condition.
  intros (_ & (Hh & _)%andb_true_iff)%andb_true_iff. destruct (row !! HASH) as [v|]; [|done]. by apply bytes_eqb_eq in Hh as ->.
Qed.

Lemma apply_other u row k : existsb (fun p => bytes_eqb p.1 k) u = false -> apply_updates u row !! k = row !! k.
Proof.
  unfold apply_updates. revert row. induction u as [|p u IH]; intros row Hk; [done|]. cbn in Hk. apply orb_false_iff in Hk as [Hp Hk]. cbn [foldl].
  rewrite IH by done. apply lookup_insert_ne. by apply bytes_eqb_neq.
Qed.

Lemma current_other u conditions rows : existsb (fun p => bytes_eqb p.1 HASH) u = false -> current_hashes (update_rows u conditions rows) = current_hashes rows.
Proof.
  intros Hu. unfold current_hashes, update_rows. induction rows as [|row rows IH]; [done|]. cbn.
  replace ((if matches_row conditions row then apply_updates u row else row) !! bs "refresh_token_hash") with (row !! bs "refresh_token_hash").
  - destruct (row !! _); [f_equal|]; exact IH.
  - destruct (matches_row conditions row); [|done]. symmetry. by apply apply_other.
Qed.

(** A rotation changes nothing, or replaces the presented hash, which was current in one session, by the new one. *)
Lemma rotation_effect sid h now_text u nh rows :
  (forall row, apply_updates u row !! HASH = Some nh) -> NoDup (current_hashes rows) ->
  let conditions := rotation_conditions sid h now_text in
  (count_rows conditions rows = 0 /\ update_rows u conditions rows = rows) \/
  (count_rows conditions rows = 1 /\ exists a b, current_hashes rows = a ++ h :: b /\ current_hashes (update_rows u conditions rows) = a ++ nh :: b).
Proof.
  intros Hu Hn conditions. pose proof (rotation_hash sid h now_text) as Hrot. fold conditions in Hrot. clearbody conditions. induction rows as [|row rows IH]; [by left|]. unfold count_rows, update_rows, current_hashes in *. cbn [List.filter fmap list_fmap omap list_omap] in *.
  destruct (matches_row conditions row) eqn:Em.
  - right. pose proof (Hrot _ Em) as Eh. unfold HASH in Eh, Hu. rewrite Eh in Hn |- *. apply NoDup_cons in Hn as [Hni Hn].
    assert (forall r, r ∈ rows -> matches_row conditions r = false) as Hno.
    { intros r Hr. apply not_true_iff_false. intros Hm%Hrot. apply Hni. apply list_elem_of_omap. by exists r. }
    assert (List.filter (matches_row conditions) rows = []) as ->.
    { clear -Hno. induction rows as [|r rows IH]; [done|]. cbn [List.filter]. rewrite Hno by (by left). apply IH. intros r' Hr. apply Hno. by right. }
    split; [done|]. exists [], (omap (fun row => row !! bs "refresh_token_hash") rows). split; [done|]. rewrite Hu. cbn. f_equal. f_equal.
    clear -Hno. induction rows as [|r rows IH]; [done|]. cbn [fmap list_fmap]. rewrite Hno by (by left). f_equal. apply IH. intros r' Hr. apply Hno. by right.
  - assert (NoDup (omap (fun row => row !! bs "refresh_token_hash") rows)) as Hn'.
    { destruct (row !! _); [by apply NoDup_cons in Hn as [_ ?]|done]. }
    destruct (IH Hn') as [[E1 E2]|(E1 & a & b & E2 & E3)].
    + left. split; [done|]. f_equal. exact E2.
    + right. split; [done|]. destruct (row !! bs "refresh_token_hash") as [x|]; [|by exists a, b].
      exists (x :: a), b. cbn. split; f_equal; done.
Qed.

(** ** Lemmas: handlers *)

(** An update that leaves a revoked session revoked, and the same session. *)
Definition keeps (u : list (bytes * bytes)) : Prop :=
  forall row, (revoked_row row = true -> revoked_row (apply_updates u row) = true) /\ apply_updates u row !! bs "id" = row !! bs "id".

Lemma keeps_other u :
  existsb (fun p => bytes_eqb p.1 (bs "revoked_at")) u = false -> existsb (fun p => bytes_eqb p.1 (bs "id")) u = false -> keeps u.
Proof. intros H1 H2 row. unfold revoked_row. by rewrite !apply_other. Qed.

(** What a handler that presents the hash [h] does: no update of it makes a revoked session valid; it sets the hash of a session only by a rotation from [h] to
    the hash of the token that it signed, and answers with tokens only when its rotation changed a session. *)
Fixpoint safe (h : bytes) (signed : option bytes) (won : bool) (p : prog AuthResponse) : Prop :=
  match p with
  | Ret r => match r with Granted _ _ _ _ => won = true | _ => True end
  | FindRow _ _ _ k => forall r, safe h signed won (k r)
  | FindRows _ _ _ k => forall r, safe h signed won (k r)
  | UpdateWhere t u w k =>
      match t with
      | USERS => forall r, safe h signed won (k r)
      | SESSIONS =>
          keeps u /\
          if existsb (fun p => bytes_eqb p.1 HASH) u then
            won = false /\ (exists sid now_text nh, signed = Some nh /\ w = rotation_args sid h now_text /\ forall row, apply_updates u row !! HASH = Some nh) /\
            (forall n, safe h None (n =? 1) (k (Ok n))) /\ forall e, safe h signed won (k (Err e))
          else forall r, safe h signed won (k r)
      end
  | SignRefresh _ k => (forall t, safe h (Some (hash_secret t)) won (k (Ok t))) /\ forall e, safe h signed won (k (Err e))
  | SignAccess _ _ _ k => forall r, safe h signed won (k r)
  | UnixSeconds k => forall z, 0 < z <= i64_max -> safe h signed won (k z)
  end.

Definition revoke_updates (z : Z) (reuse : bool) : list (bytes * bytes) :=
  [(bs "revoked_at", fmt_u z); (bs "access_revoked_at", fmt_u z); (bs "updated_at", fmt_u z)] ++
  (if reuse then [(bs "refresh_reuse_detected_at", fmt_u z)] else []).

Lemma revoke_revokes z reuse row : 0 < z <= i64_max -> revoked_row (apply_updates (revoke_updates z reuse) row) = true.
Proof.
  intros Hz. unfold revoked_row. assert (apply_updates (revoke_updates z reuse) row !! bs "revoked_at" = Some (fmt_u z)) as ->.
  { destruct reuse; cbn [revoke_updates app apply_updates foldl fst snd]; rewrite !(lookup_insert_ne _ _ (bs "revoked_at")) by (vm_compute; discriminate); apply lookup_insert_eq. }
  unfold Query.Query.as_int. pose proof (parse_i64_fmt_i z ltac:(unfold i64_min; lia)) as E. unfold fmt_i in E. destruct (Z.ltb_spec z 0); [lia|]. rewrite E.
  cbn [from_option id]. apply negb_true_iff, Z.eqb_neq. unfold id. lia.
Qed.

Lemma revoke_keeps z reuse : 0 < z <= i64_max -> keeps (revoke_updates z reuse).
Proof. intros Hz row. split; [by intros _; apply revoke_revokes|]. apply apply_other. by destruct reuse. Qed.

(** Programs that only revoke. *)
Lemma revoke_safe h signed won sid z reuse (f : result unit -> prog AuthResponse) :
  0 < z <= i64_max -> (forall r, safe h signed won (f r)) -> safe h signed won (revoke_family sid (fmt_u z) reuse ≫= f).
Proof.
  intros Hz Hf. unfold revoke_family. cbn [mbind prog_mbind prog_bind find_row_by_field safe]. intros [[session|]|]; [|apply Hf..].
  fold (revoke_updates z reuse). unfold durable_table_update_where. cbn [mbind prog_mbind prog_bind safe].
  split; [by apply revoke_keeps|]. replace (existsb (fun p => bytes_eqb p.1 HASH) (revoke_updates z reuse)) with false by (by destruct reuse).
  intros r. apply Hf.
Qed.

Lemma reuse_safe h signed won session now : 0 < now <= i64_max -> safe h signed won (reuse_detected session now).
Proof. intros Hz. unfold reuse_detected. destruct (session !! bs "id"); [|exact I]. apply revoke_safe; [done|]. by intros []. Qed.

Lemma lost_safe h signed won sid c : safe h signed won (rotation_lost sid c h).
Proof.
  unfold rotation_lost. cbn. intros [[latest|]|]; [|exact I..]. destruct (classify latest c h); try exact I. cbn [mbind prog_mbind unix_seconds prog_bind safe]. intros z Hz. by apply reuse_safe.
Qed.

Lemma session_safe (h : bytes) (signed : option bytes) (won : bool) (c : option RefreshClaims) (f : result (option Row) -> prog AuthResponse) :
  (forall r : result (option Row), safe h signed won (f r)) -> safe h signed won (session_for_token h c ≫= f).
Proof. intros Hf. unfold session_for_token. destruct c as [c|]; cbn; [apply Hf|]. intros [[row|]|]; cbn; apply Hf. Qed.

Lemma rotate_safe h c session now user_agent fresh_jti :
  safe h None false (rotate hash_secret issuer refresh_token_ttl access_token_ttl h c session now user_agent fresh_jti).
Proof.
  unfold rotate. destruct (_ <=? now); [exact I|]. destruct (session !! bs "user_id") as [user_id|]; [|exact I].
  cbn [mbind prog_mbind find_row_by_field prog_bind safe]. intros [[user|]|]; [|exact I..]. destruct (validate_user_active user now) as [[]|] eqn:Ev; [|exact I..|].
  { unfold validate_user_active in Ev. destruct (row_field_is_set user _); [done|]. by destruct (_ >? now). }
  destruct (session !! bs "id") as [sid|]; [|exact I].
  unfold sign. cbn [mbind prog_mbind prog_bind safe]. split; [|intros e; exact I]. intros token. cbn [prog_bind safe]. intros [access|]; [|exact I].
  unfold durable_table_update_where. cbn [mbind prog_mbind prog_bind safe existsb app fst].
  split; [apply keeps_other; by destruct c|]. change (bytes_eqb (bs "refresh_token_hash") HASH) with true. cbn [orb]. split; [done|]. split.
  { exists sid, (fmt_u now), (hash_secret token). split; [done|]. split; [done|]. intros row. destruct c as [c|]; cbn [app apply_updates foldl fst snd];
      rewrite !(lookup_insert_ne _ _ HASH) by (vm_compute; discriminate); apply lookup_insert_eq. }
  split; [|intros e; exact I]. intros n. destruct n as [|[p|p|]|p]; cbn [prog_bind safe]; [apply lost_safe|exact I..| |exact I]. by intros r.
Qed.

Lemma grant_safe token user_agent fresh_jti : safe (hash_secret token) None false (grant_program (Some token) user_agent fresh_jti).
Proof.
  unfold grant. destruct (nonempty (Some token)) as [t|] eqn:En; [|exact I].
  assert (t = token) as -> by (destruct token; [done|by injection En as <-]). destruct (zlen token >? _); [exact I|].
  destruct (claims _ _ _ _ _ _ token true) as [c|r] eqn:Ec.
  - cbn [mbind prog_mbind unix_seconds prog_bind safe]. intros z Hz. apply session_safe. intros [[session|]|]; [|exact I..].
    destruct (classify session c (hash_secret token)); [apply rotate_safe|by apply reuse_safe| |exact I]. destruct c as [c|]; [exact I|].
    unfold revoked_opaque_was_consumed. destruct (bool_decide _); cbn [mbind prog_mbind prog_bind mret prog_mret]; [exact I|].
    cbn [find_rows_by_field prog_bind safe]. intros [rows|]; [|exact I]. unfold mbind, prog_mbind, mret, prog_mret. cbn [prog_bind]. match goal with |- context [existsb ?f rows] => destruct (existsb f rows) end; [by apply reuse_safe|exact I].
  - assert (match r with Granted _ _ _ _ => False | _ => True end) as Hr; [|by destruct r].
    revert Ec. unfold claims, UNAUTHORIZED, INTERNAL. repeat case_match; intros; simplify_eq; exact I.
Qed.

Lemma session_id_safe (h : bytes) (signed : option bytes) (won : bool) token (f : result (option bytes) -> prog AuthResponse) :
  (forall r : result (option bytes), safe h signed won (f r)) ->
  safe h signed won (session_id_for_token hash_secret decode_header signing_key_by_kid active_signing_key key_from_jwk jwt_decode issuer token ≫= f).
Proof.
  intros Hf. unfold session_id_for_token. destruct (zlen token >? _); [apply Hf|]. destruct (claims _ _ _ _ _ _ token false) as [[c|]|[]]; cbn; try apply Hf.
  intros [[row|]|]; cbn; [apply Hf| |apply Hf]. intros [[row|]|]; cbn; apply Hf.
Qed.

Lemma logout_safe h bearer token : safe h None false (logout_program bearer token).
Proof.
  unfold logout. cbn [mbind prog_mbind unix_seconds prog_bind safe]. intros z Hz.
  assert (forall sid, safe h None false (revoke_family sid (fmt_u z) false ≫= fun r => mret (match r with Ok _ => Done | Err e => INTERNAL e end))) as Hrev.
  { intros sid. apply revoke_safe; [done|]. by intros []. }
  destruct bearer as [sid|]; [apply Hrev|]. destruct token as [token|]; [|exact I].
  apply session_id_safe. intros [[sid|]|]; [apply Hrev|exact I..].
Qed.

(** ** The invariant *)

(** The current tokens are different and known; a token that was exchanged, and a token that was signed and not
    stored, is current nowhere, and no two handlers have the same. *)
Record inv (s : System) : Prop := {
  v_nodup : NoDup (current_hashes (sessions s));
  v_issued : forall h, h ∈ current_hashes (sessions s) -> h ∈ issued s;
  v_safe : forall i p, procs s !! i = Some p -> safe (p_hash p) (p_signed p) (p_won p) (p_prog p);
  v_won : forall i p, procs s !! i = Some p -> p_won p = true -> p_hash p ∈ issued s /\ p_hash p ∉ current_hashes (sessions s);
  v_signed : forall i p nh, procs s !! i = Some p -> p_signed p = Some nh -> nh ∈ issued s /\ nh ∉ current_hashes (sessions s);
  v_apart : forall i j p q nh, procs s !! i = Some p -> procs s !! j = Some q -> p_signed p = Some nh ->
    (p_won q = true -> p_hash q <> nh) /\ (i <> j -> p_signed q <> Some nh);
  v_once : forall i j p q, procs s !! i = Some p -> procs s !! j = Some q -> p_won p = true -> p_won q = true -> p_hash p = p_hash q -> i = j
}.

(** The invariant for the handlers alone, with their hashes and the current ones as parameters. *)
Lemma inv_procs s rows used :
  inv s -> current_hashes rows = current_hashes (sessions s) -> issued s ⊆ used -> inv (mkSystem rows used (procs s)).
Proof.
  intros [H1 H2 H3 H4 H5 H6 H7] Er Hu. split; cbn [sessions issued procs]; rewrite ?Er; try done.
  - intros h Hh. by apply Hu, H2.
  - intros i p Hp Hw. destruct (H4 i p Hp Hw). split; [by apply Hu|done].
  - intros i p nh Hp Hs. destruct (H5 i p nh Hp Hs). split; [by apply Hu|done].
Qed.

(** A handler that neither signs nor rotates. *)
Lemma inv_same s i p k :
  inv s -> procs s !! i = Some p -> safe (p_hash p) (p_signed p) (p_won p) k ->
  inv (mkSystem (sessions s) (issued s) (<[i := mkProc (p_hash p) (p_signed p) (p_won p) k]> (procs s))).
Proof.
  intros [H1 H2 H3 H4 H5 H6 H7] Hp Hk.
  assert (forall j q, <[i := mkProc (p_hash p) (p_signed p) (p_won p) k]> (procs s) !! j = Some q ->
    safe (p_hash q) (p_signed q) (p_won q) (p_prog q) /\ exists q0, procs s !! j = Some q0 /\ p_hash q = p_hash q0 /\ p_signed q = p_signed q0 /\ p_won q = p_won q0) as Hq.
  { intros j q [(<- & <- & _)|[_ Hq]]%list_lookup_insert_Some; [|split; [by eapply H3|by exists q]]. split; [done|]. by exists p. }
  split; cbn [sessions issued procs]; try done.
  - intros j q E. by destruct (Hq j q E).
  - intros j q E Hw. destruct (Hq j q E) as (_ & q0 & E0 & -> & _ & Ew). rewrite Ew in Hw. by eapply H4.
  - intros j q nh E Hs. destruct (Hq j q E) as (_ & q0 & E0 & _ & Es & _). rewrite Es in Hs. by eapply H5.
  - intros j j' q q' nh E E' Hs. destruct (Hq j q E) as (_ & q0 & E0 & _ & Es & _), (Hq j' q' E') as (_ & q0' & E0' & -> & -> & ->).
    rewrite Es in Hs. by eapply H6.
  - intros j j' q q' E E' Hw Hw' Hh. destruct (Hq j q E) as (_ & q0 & E0 & Eh & _ & Ew), (Hq j' q' E') as (_ & q0' & E0' & Eh' & _ & Ew').
    eapply (H7 j j' q0 q0'); congruence.
Qed.

(** A handler signs a token that is new. *)
Lemma inv_sign s i p nh k :
  inv s -> procs s !! i = Some p -> nh ∉ issued s -> safe (p_hash p) (Some nh) (p_won p) k ->
  inv (mkSystem (sessions s) ({[nh]} ∪ issued s) (<[i := mkProc (p_hash p) (Some nh) (p_won p) k]> (procs s))).
Proof.
  intros [H1 H2 H3 H4 H5 H6 H7] Hp Hn Hk.
  assert (forall j q, <[i := mkProc (p_hash p) (Some nh) (p_won p) k]> (procs s) !! j = Some q ->
    safe (p_hash q) (p_signed q) (p_won q) (p_prog q) /\ exists q0, procs s !! j = Some q0 /\ p_hash q = p_hash q0 /\ p_won q = p_won q0 /\
      ((j = i /\ p_signed q = Some nh) \/ (j <> i /\ p_signed q = p_signed q0))) as Hq.
  { intros j q [(<- & <- & _)|[Hne Hq]]%list_lookup_insert_Some.
    - split; [done|]. exists p. split; [done|]. by auto.
    - split; [by eapply H3|]. exists q. split; [done|]. by auto. }
  split; cbn [sessions issued procs]; try done.
  - intros h Hh. apply elem_of_union_r. by apply H2.
  - intros j q E. by destruct (Hq j q E).
  - intros j q E Hw. destruct (Hq j q E) as (_ & q0 & E0 & -> & Ew & _). rewrite Ew in Hw. destruct (H4 j q0 E0 Hw). split; [by apply elem_of_union_r|done].
  - intros j q nh' E Hs. destruct (Hq j q E) as (_ & q0 & E0 & _ & _ & [[-> Es]|[_ Es]]); rewrite Es in Hs.
    + injection Hs as <-. split; [by apply elem_of_union_l, elem_of_singleton|]. intros Hin%H2. done.
    + destruct (H5 j q0 nh' E0 Hs). split; [by apply elem_of_union_r|done].
  - intros j j' q q' nh' E E' Hs. destruct (Hq j q E) as (_ & q0 & E0 & _ & _ & Hs0), (Hq j' q' E') as (_ & q0' & E0' & -> & -> & Hs0').
    destruct Hs0 as [[-> Es]|[Hj Es]]; rewrite Es in Hs.
    + injection Hs as <-. split; [intros Hw <-; by destruct (H4 j' q0' E0' Hw)|]. intros Hne Hs'.
      destruct Hs0' as [[-> _]|[_ Es']]; [done|]. rewrite Es' in Hs'. by destruct (H5 j' q0' nh E0' Hs').
    + destruct (H6 j j' q0 q0' nh' E0 E0' Hs) as [A B]. split; [done|]. intros Hne. destruct Hs0' as [[-> Es']|[_ Es']]; rewrite Es'; [|by apply B].
      intros [= <-]. by destruct (H5 j q0 nh E0 Hs).
  - intros j j' q q' E E' Hw Hw' Hh. destruct (Hq j q E) as (_ & q0 & E0 & Eh & Ew & _), (Hq j' q' E') as (_ & q0' & E0' & Eh' & Ew' & _).
    eapply (H7 j j' q0 q0'); congruence.
Qed.

(** A handler tries to rotate. *)
Lemma inv_rotate s i p rows nh n k :
  inv s -> procs s !! i = Some p -> p_signed p = Some nh -> p_won p = false ->
  (n = 0 /\ rows = sessions s) \/
  (n = 1 /\ exists a b, current_hashes (sessions s) = a ++ p_hash p :: b /\ current_hashes rows = a ++ nh :: b) ->
  safe (p_hash p) None (n =? 1) k ->
  inv (mkSystem rows (issued s) (<[i := mkProc (p_hash p) None (n =? 1) k]> (procs s))).
Proof.
  intros [H1 H2 H3 H4 H5 H6 H7] Hp Hs Hw Hn Hk. destruct (H5 i p nh Hp Hs) as [Hni Hnc].
  assert (forall h, h ∈ current_hashes rows -> h ∈ current_hashes (sessions s) \/ h = nh) as Hin.
  { destruct Hn as [[_ ->]|(_ & a & b & -> & ->)]; [by left|]. intros h. rewrite !elem_of_app, !elem_of_cons. tauto. }
  assert (forall j q, <[i := mkProc (p_hash p) None (n =? 1) k]> (procs s) !! j = Some q ->
    safe (p_hash q) (p_signed q) (p_won q) (p_prog q) /\ exists q0, procs s !! j = Some q0 /\ p_hash q = p_hash q0 /\
      ((j = i /\ p_signed q = None /\ p_won q = (n =? 1)) \/ (j <> i /\ p_signed q = p_signed q0 /\ p_won q = p_won q0))) as Hq.
  { intros j q [(<- & <- & _)|[Hne Hq]]%list_lookup_insert_Some.
    - split; [done|]. exists p. split; [done|]. by auto.
    - split; [by eapply H3|]. exists q. split; [done|]. by auto. }
  assert (n = 1 -> p_hash p ∈ current_hashes (sessions s) /\ p_hash p ∉ current_hashes rows) as Hspent.
  { intros ->. destruct Hn as [[? _]|(_ & a & b & E & ->)]; [done|]. rewrite E in H1, Hnc |- *. split; [apply elem_of_app; right; by left|].
    apply NoDup_app in H1 as (Ha & Hd & [Hb Hb']%NoDup_cons). rewrite elem_of_app, elem_of_cons. intros [Hx|[Hx|Hx]]; [|subst nh|done].
    - apply (Hd _ Hx). by left.
    - apply Hnc, elem_of_app. right. by left. }
  split; cbn [sessions issued procs]; try done.
  - destruct Hn as [[_ ->]|(_ & a & b & E & ->)]; [done|]. rewrite E in H1, Hnc. apply NoDup_app in H1 as (Ha & Hd & [Hb Hb']%NoDup_cons).
    apply not_elem_of_app in Hnc as [Hna [_ Hnb]%not_elem_of_cons]. apply NoDup_app. split; [done|]. split; [|by apply NoDup_cons].
    intros x Hx [->|Hx']%elem_of_cons; [done|]. apply (Hd x Hx). by right.
  - intros h Hh. destruct (Hin h Hh) as [?| ->]; [by apply H2|done].
  - intros j q E. by destruct (Hq j q E).
  - intros j q E Hwq. destruct (Hq j q E) as (_ & q0 & E0 & -> & [(-> & _ & Ew)|(_ & _ & Ew)]); rewrite Ew in Hwq.
    + apply Z.eqb_eq in Hwq. rewrite Hp in E0. injection E0 as <-. destruct (Hspent Hwq). split; [by apply H2|done].
    + destruct (H4 j q0 E0 Hwq) as [A B]. split; [done|]. intros Hx. destruct (Hin _ Hx) as [?|Ex]; [done|]. by destruct (H6 i j p q0 nh Hp E0 Hs) as [C _]; apply C.
  - intros j q nh' E Hsq. destruct (Hq j q E) as (_ & q0 & E0 & _ & [(-> & Es & _)|(Hj & Es & _)]); rewrite Es in Hsq; [done|].
    destruct (H5 j q0 nh' E0 Hsq) as [A B]. split; [done|]. intros Hx. destruct (Hin _ Hx) as [?| ->]; [done|].
    destruct (H6 i j p q0 nh Hp E0 Hs) as [_ C]. by apply C.
  - intros j j' q q' nh' E E' Hsq. destruct (Hq j q E) as (_ & q0 & E0 & _ & [(-> & Es & _)|(Hj & Es & _)]); rewrite Es in Hsq; [done|].
    destruct (Hq j' q' E') as (_ & q0' & E0' & -> & Hq'). destruct (H6 j j' q0 q0' nh' E0 E0' Hsq) as [A B]. split.
    + intros Hwq. destruct Hq' as [(-> & _ & Ew)|(_ & _ & Ew)]; rewrite Ew in Hwq; [|by apply A]. apply Z.eqb_eq in Hwq. rewrite Hp in E0'. injection E0' as <-.
      destruct (Hspent Hwq) as [Hc _]. intros <-. by destruct (H5 j q0 _ E0 Hsq).
    + intros Hne. destruct Hq' as [(_ & Es' & _)|(_ & Es' & _)]; rewrite Es'; [done|by apply B].
  - intros j j' q q' E E' Hwq Hwq' Hh. destruct (Hq j q E) as (_ & q0 & E0 & Eh & Hq0), (Hq j' q' E') as (_ & q0' & E0' & Eh' & Hq0').
    destruct Hq0 as [(-> & _ & Ew)|(Hj & _ & Ew)], Hq0' as [(-> & _ & Ew')|(Hj' & _ & Ew')]; [done| | |eapply (H7 j j' q0 q0'); congruence]; exfalso.
    + rewrite Ew in Hwq. apply Z.eqb_eq in Hwq. rewrite Hp in E0. injection E0 as <-. destruct (Hspent Hwq) as [Hc _].
      rewrite Ew' in Hwq'. destruct (H4 j' q0' E0' Hwq') as [_ Hx]. apply Hx. congruence.
    + rewrite Ew' in Hwq'. apply Z.eqb_eq in Hwq'. rewrite Hp in E0'. injection E0' as <-. destruct (Hspent Hwq') as [Hc _].
      rewrite Ew in Hwq. destruct (H4 j q0 E0 Hwq) as [_ Hx]. apply Hx. congruence.
Qed.

Lemma inv_request s i p rows used p' :
  inv s -> procs s !! i = Some p -> request (sessions s) (issued s) p rows used p' -> inv (mkSystem rows used (<[i := p']> (procs s))).
Proof.
  intros Hi Hp Hr. pose proof (v_safe s Hi i p Hp) as Hs. inversion Hr; subst; cbn [p_hash p_signed p_won p_prog safe] in Hs;
    try (by apply (inv_same s i _ _ Hi Hp)).
  - (* a statement on the sessions *)
    destruct Hs as [_ Hs]. destruct (existsb (fun p => bytes_eqb p.1 HASH) updates) eqn:Eu.
    + destruct Hs as (Hw & (sid & now_text & nh & Hsg & -> & Hu) & Hok & _). rewrite rotation_parsed in H0. injection H0 as <-.
      subst n sets. change (existsb (fun p => bytes_eqb p.1 (bs "refresh_token_hash")) updates) with (existsb (fun p => bytes_eqb p.1 HASH) updates).
      rewrite Eu. apply (inv_rotate s i (mkProc h signed won (UpdateWhere SESSIONS updates (rotation_args sid h now_text) k)) _ nh); [done|exact Hp|exact Hsg|exact Hw| |apply Hok].
      destruct (rotation_effect sid h now_text updates nh (sessions s) Hu (v_nodup s Hi)) as [[-> ->]|(-> & a & b & E1 & E2)]; [by left|].
      right. split; [done|]. by exists a, b.
    + subst sets. change (existsb (fun p => bytes_eqb p.1 (bs "refresh_token_hash")) updates) with (existsb (fun p => bytes_eqb p.1 HASH) updates). rewrite Eu.
      apply (inv_procs (mkSystem (sessions s) (issued s) (<[i := mkProc h signed won (k (Ok n))]> (procs s)))); [|by apply current_other|done].
      by apply (inv_same s i _ _ Hi Hp).
  - (* a statement that fails *)
    apply (inv_same s i _ _ Hi Hp). cbn [p_hash p_signed p_won]. destruct t; [|apply Hs]. destruct Hs as [_ Hs]. destruct (existsb _ updates); [apply Hs|apply Hs].
  - (* a new token *)
    by apply (inv_sign s i _ _ _ Hi Hp); [|apply Hs].
  - apply (inv_same s i _ _ Hi Hp). apply Hs.
  - apply (inv_same s i _ _ Hi Hp). by apply Hs.
Qed.

Lemma inv_start s h p :
  inv s -> safe h None false p -> inv (mkSystem (sessions s) (issued s) (procs s ++ [mkProc h None false p])).
Proof.
  intros [H1 H2 H3 H4 H5 H6 H7] Hp.
  assert (forall j q, (procs s ++ [mkProc h None false p]) !! j = Some q -> procs s !! j = Some q \/ q = mkProc h None false p) as Hq.
  { intros j q [?|[_ Hq]]%lookup_app_Some; [by left|right]. apply list_lookup_singleton_Some in Hq as [_ <-]. done. }
  split; cbn [sessions issued procs]; try done.
  - intros j q [Hj| ->]%Hq; [by eapply H3|done].
  - intros j q [Hj| ->]%Hq; [by eapply H4|done].
  - intros j q nh [Hj| ->]%Hq; [by eapply H5|done].
  - intros j j' q q' nh [Hj| ->]%Hq [Hj'| ->]%Hq Hs; [by eapply H6|done..].
  - intros j j' q q' [Hj| ->]%Hq [Hj'| ->]%Hq Hw Hw' Hh; [by eapply H7|done..].
Qed.

Lemma inv_rows s rows :
  inv s -> NoDup (current_hashes rows) -> (forall h, h ∈ current_hashes rows -> h ∈ current_hashes (sessions s)) ->
  inv (mkSystem rows (issued s) (procs s)).
Proof.
  intros [H1 H2 H3 H4 H5 H6 H7] Hn Hsub. split; cbn [sessions issued procs]; try done.
  - intros h Hh. by apply H2, Hsub.
  - intros i p Hp Hw. destruct (H4 i p Hp Hw) as [A B]. split; [done|]. intros Hx. by apply B, Hsub.
  - intros i p nh Hp Hs. destruct (H5 i p nh Hp Hs) as [A B]. split; [done|]. intros Hx. by apply B, Hsub.
Qed.

Lemma inv_sign_in s row h :
  inv s -> row !! HASH = Some h -> h ∉ issued s -> inv (mkSystem (sessions s ++ [row]) ({[h]} ∪ issued s) (procs s)).
Proof.
  intros [H1 H2 H3 H4 H5 H6 H7] Er Hh. assert (current_hashes (sessions s ++ [row]) = current_hashes (sessions s) ++ [h]) as E.
  { unfold current_hashes. rewrite omap_app. cbn [omap list_omap]. unfold HASH in Er. by rewrite Er. }
  split; cbn [sessions issued procs]; rewrite ?E; try done.
  - apply NoDup_app. split; [done|]. split; [|apply NoDup_singleton]. intros x Hx ->%list_elem_of_singleton. by apply Hh, H2.
  - intros x [Hx| ->%list_elem_of_singleton]%elem_of_app; [apply elem_of_union_r; by apply H2|by apply elem_of_union_l, elem_of_singleton].
  - intros i p Hp Hw. destruct (H4 i p Hp Hw) as [A B]. split; [by apply elem_of_union_r|]. intros [Hx|Hx%list_elem_of_singleton]%elem_of_app; [done|]. by subst h.
  - intros i p nh Hp Hs. destruct (H5 i p nh Hp Hs) as [A B]. split; [by apply elem_of_union_r|]. intros [Hx|Hx%list_elem_of_singleton]%elem_of_app; [done|]. by subst h.
Qed.

Lemma current_filter keep rows : sublist (current_hashes (List.filter keep rows)) (current_hashes rows).
Proof.
  unfold current_hashes. induction rows as [|row rows IH]; [done|]. cbn [List.filter]. destruct (keep row); cbn [omap list_omap]; destruct (row !! _); try done;
    [by apply sublist_skip|by apply sublist_cons].
Qed.

Lemma inv_step s s' : inv s -> step s s' -> inv s'.
Proof.
  intros Hi Hst. inversion Hst; subst.
  - apply (inv_procs (mkSystem (sessions s) (issued s) (procs s ++ _))); [|done|apply union_subseteq_r]. apply inv_start; [done|apply grant_safe].
  - apply inv_start; [done|apply logout_safe].
  - by eapply inv_request.
  - by apply inv_sign_in.
  - apply inv_rows; [done| |].
    + eapply sublist_NoDup; [apply (v_nodup s Hi)|apply current_filter].
    + intros h Hh. eapply elem_of_sublist; [|apply current_filter]. exact Hh.
Qed.

Lemma inv_initial s : initial s -> inv s.
Proof. intros (Hp & Hn & Hs). split; rewrite ?Hp; try done; intros; by simplify_eq. Qed.

Lemma inv_reach s s' : initial s -> rtc step s s' -> inv s'.
Proof. intros Hi Hr. apply inv_initial in Hi. induction Hr; eauto using inv_step. Qed.

Lemma answered_won s i p : inv s -> procs s !! i = Some p -> answered p = true -> p_won p = true.
Proof.
  intros Hi Hp Ha. pose proof (v_safe s Hi i p Hp) as Hs. unfold answered in Ha. destruct (p_prog p) as [[]| | | | | |]; try done.
Qed.

(** ** Lemmas: revoked sessions *)

Lemma rotation_revoked sid h now_text row : matches_row (rotation_conditions sid h now_text) row = true -> revoked_row row = false.
Proof.
  unfold matches_row, row_matches_base_conditions, rotation_conditions. cbn [forallb]. intros (_ & (_ & (_ & (Hr & _)%andb_true_iff)%andb_true_iff)%andb_true_iff)%andb_true_iff.
  revert Hr. change (Query.Query.row_matches_cond to_lowercase f64_distance row sessions_schema None _)
    with (match row !! bs "revoked_at" with Some _ => false | None => true end || (match row !! bs "revoked_at" with Some v => Query.Query.as_int v =? 0 | None => false end || false)).
  unfold revoked_row. destruct (row !! bs "revoked_at") as [v|]; [|done]. cbn [orb]. rewrite orb_false_r. by intros ->.
Qed.

Lemma update_elem u conditions rows row' : row' ∈ update_rows u conditions rows ->
  exists row, row ∈ rows /\ ((matches_row conditions row = true /\ row' = apply_updates u row) \/ row' = row).
Proof.
  unfold update_rows. intros (row & -> & Hin)%list_elem_of_fmap. exists row. split; [done|]. destruct (matches_row conditions row) eqn:E; [left|right]; done.
Qed.

(** The token with the hash [h] belongs to revoked sessions only, if to any, and no handler has exchanged it. *)
Record barred (h : bytes) (s : System) : Prop := {
  a_issued : h ∈ issued s;
  a_rows : forall row, row ∈ sessions s -> row !! HASH = Some h -> revoked_row row = true;
  a_signed : forall i p, procs s !! i = Some p -> p_signed p <> Some h;
  a_won : forall i p, procs s !! i = Some p -> p_won p = true -> p_hash p <> h
}.

Lemma barred_proc h s i p rows used p' :
  barred h s -> procs s !! i = Some p -> h ∈ used -> (forall row, row ∈ rows -> row !! HASH = Some h -> revoked_row row = true) ->
  p_signed p' <> Some h -> (p_won p' = true -> p_hash p' <> h) -> barred h (mkSystem rows used (<[i := p']> (procs s))).
Proof.
  intros [A1 A2 A3 A4] Hp Hu Hr Hs Hw. split; cbn [sessions issued procs]; try done.
  - intros j q [(<- & <- & _)|[_ Hq]]%list_lookup_insert_Some; [done|by eapply A3].
  - intros j q [(<- & <- & _)|[_ Hq]]%list_lookup_insert_Some; [done|by eapply A4].
Qed.

Lemma barred_request h s i p rows used p' :
  inv s -> barred h s -> procs s !! i = Some p -> request (sessions s) (issued s) p rows used p' -> barred h (mkSystem rows used (<[i := p']> (procs s))).
Proof.
  intros Hi Hb Hp Hr. pose proof (v_safe s Hi i p Hp) as Hs. destruct Hb as [A1 A2 A3 A4] eqn:Eb. pose proof (A3 i p Hp) as As. pose proof (A4 i p Hp) as Aw.
  inversion Hr; subst; cbn [p_hash p_signed p_won p_prog safe] in Hs, As, Aw; try (by eapply barred_proc).
  - (* a statement on the sessions *)
    destruct Hs as [Hk Hs]. subst sets.
    change (existsb (fun p => bytes_eqb p.1 (bs "refresh_token_hash")) updates) with (existsb (fun p => bytes_eqb p.1 HASH) updates).
    destruct (existsb (fun p => bytes_eqb p.1 HASH) updates) eqn:Eu.
    + destruct Hs as (Hw & (sid & now_text & nh & -> & -> & Hu) & _). rewrite rotation_parsed in H0. injection H0 as <-.
      eapply barred_proc; [done|exact Hp|done| |done|].
      * intros row' Hin Hh. destruct (update_elem _ _ _ _ Hin) as (row & Hrow & [[Hm ->]| ->]); [|by apply A2]. rewrite Hu in Hh. congruence.
      * cbn [p_won p_hash]. intros Hn%Z.eqb_eq ->. subst n.
        destruct (rotation_effect sid h now_text updates nh (sessions s) Hu (v_nodup s Hi)) as [[E _]|(_ & a & b & E & _)]; [by rewrite E in Hn|].
        unfold count_rows in Hn. destruct (List.filter _ (sessions s)) as [|row l] eqn:Ef; [done|].
        assert (row ∈ List.filter (matches_row (rotation_conditions sid h now_text)) (sessions s)) as Hin by (rewrite Ef; by left).
        apply list_elem_of_In, filter_In in Hin as [Hin Hm]. apply list_elem_of_In in Hin.
        pose proof (rotation_revoked _ _ _ _ Hm) as Hv. apply rotation_hash in Hm. by rewrite (A2 row Hin Hm) in Hv.
    + eapply barred_proc; [done|exact Hp|done| |done|done]. intros row' Hin Hh. destruct (update_elem _ _ _ _ Hin) as (row & Hrow & [[Hm ->]| ->]); [|by apply A2].
      rewrite apply_other in Hh by done. by apply (Hk row), A2.
  - (* a new token *)
    eapply barred_proc; [done|exact Hp|by apply elem_of_union_r|done| |done]. cbn [p_signed]. intros [= <-]. done.
Qed.

Lemma barred_step h s s' : inv s -> barred h s -> step s s' -> barred h s'.
Proof.
  intros Hi Hb Hst. inversion Hst; subst; [| |by eapply barred_request| |]; destruct Hb as [A1 A2 A3 A4].
  - split; cbn [sessions issued procs]; [by apply elem_of_union_r|done|..];
      intros j q [Hq|[_ Hq]]%lookup_app_Some; eauto; apply list_lookup_singleton_Some in Hq as [_ <-]; done.
  - split; cbn [sessions issued procs]; [done|done|..];
      intros j q [Hq|[_ Hq]]%lookup_app_Some; eauto; apply list_lookup_singleton_Some in Hq as [_ <-]; done.
  - split; cbn [sessions issued procs]; [by apply elem_of_union_r| |done|done]. intros row' [Hin| ->%list_elem_of_singleton]%elem_of_app Hh; [by apply A2|].
    unfold HASH in Hh. congruence.
  - split; cbn [sessions issued procs]; [done| |done|done]. intros row' Hin%list_elem_of_In. apply filter_In in Hin as [Hin _]. apply A2. by apply list_elem_of_In.
Qed.

Lemma revoked_barred s row h : inv s -> row ∈ sessions s -> row !! HASH = Some h -> revoked_row row = true -> barred h s.
Proof.
  intros Hi Hin Hh Hr. assert (h ∈ current_hashes (sessions s)) as Hc by (apply list_elem_of_omap; by exists row).
  split.
  - by apply (v_issued s Hi).
  - intros row' Hin' Hh'. assert (row' = row) as ->; [|done].
    pose proof (v_nodup s Hi) as Hn. clear -Hin Hin' Hh Hh' Hn. unfold current_hashes in Hn. unfold HASH in Hh, Hh'. induction (sessions s) as [|r rows IH]; [by apply not_elem_of_nil in Hin|].
    cbn [omap list_omap] in Hn. apply elem_of_cons in Hin as [->|Hin], Hin' as [->|Hin'].
    + done.
    + rewrite Hh in Hn. apply NoDup_cons in Hn as [Hn _]. exfalso. apply Hn, list_elem_of_omap. by exists row'.
    + rewrite Hh' in Hn. apply NoDup_cons in Hn as [Hn _]. exfalso. apply Hn, list_elem_of_omap. by exists row.
    + apply IH; [done|done|]. destruct (r !! _); [by apply NoDup_cons in Hn as [_ ?]|done].
  - intros i p Hp Hs. by destruct (v_signed s Hi i p h Hp Hs).
  - intros i p Hp Hw <-. by destruct (v_won s Hi i p Hp Hw).
Qed.

Lemma barred_reach h s s' : inv s -> barred h s -> rtc step s s' -> barred h s'.
Proof. intros Hi Hb Hr. induction Hr; eauto using inv_step, barred_step. Qed.

End System.

(** ** Properties *)

(** C22. A refresh token is exchanged at most once, and never after its session was revoked. Whatever refreshes,
    logouts, sign-ins and removals of sessions run together, in whatever order their requests to the tables,
    the signer and the clock are interleaved and whichever of them fail: two different refreshes that
    were both answered with tokens presented different tokens (their hashes differ); the token of a
    refresh that was answered with tokens is not the current token of any session; and a token that
    is current for a session which is revoked is never exchanged after that. New tokens have new hashes. *)
Theorem refresh_token_used_once `{Env} lower distance hash_secret decode_header signing_key_by_kid active_signing_key key_from_jwk jwt_decode
    issuer refresh_token_ttl access_token_ttl s0 s :
  let step := step lower distance hash_secret decode_header signing_key_by_kid active_signing_key key_from_jwk jwt_decode issuer refresh_token_ttl access_token_ttl in
  initial s0 -> rtc step s0 s ->
  (forall i j p q, procs s !! i = Some p -> procs s !! j = Some q -> answered p = true -> answered q = true -> p_hash p = p_hash q -> i = j) /\
  (forall i p row, procs s !! i = Some p -> answered p = true -> row ∈ sessions s -> row !! bs "refresh_token_hash" <> Some (p_hash p)) /\
  (forall row h s' i p, row ∈ sessions s -> row !! bs "refresh_token_hash" = Some h -> revoked_row row = true ->
     rtc step s s' -> procs s' !! i = Some p -> answered p = true -> p_hash p <> h).
Proof.
  intros step Hi Hr. pose proof (inv_reach _ _ _ _ _ _ _ _ _ _ _ s0 s Hi Hr) as Hv. split; [|split].
  - intros i j p q Hp Hq Hap Haq. apply (v_once _ _ Hv i j p q Hp Hq); by eapply answered_won.
  - intros i p row Hp Ha Hin Hh. pose proof (answered_won _ _ _ _ Hv Hp Ha) as Hw. destruct (v_won _ _ Hv i p Hp Hw) as [_ Hc].
    apply Hc, list_elem_of_omap. by exists row.
  - intros row h s' i p Hin Hh Hrev Hr' Hp Ha. pose proof (revoked_barred _ s row h Hv Hin Hh Hrev) as Hb.
    pose proof (barred_reach _ _ _ _ _ _ _ _ _ _ _ h s s' Hv Hb Hr') as Hb'. apply (a_won _ _ Hb' i p Hp).
    eapply answered_won; [|exact Hp|exact Ha]. eapply inv_reach; [exact Hi|]. by transitivity s.
Qed.

(** ** A refresh that succeeds *)

(** What a request is answered with, and the effect of the request, as a function. *)
Inductive Reply := AtTime (z : Z) | FirstRow | UserRow (user : Row) | Token (t : bytes) | Access (t : bytes) | Updated.

Abbreviation sample_matches := (@matches_row TableJournal.TableJournal.sample_env (fun s => s) (fun _ _ => 0)).

Definition serve (s : System) (i : nat) (a : Reply) : option System :=
  p ← procs s !! i;
  let next rows used signed won q := Some (mkSystem rows used (<[i := mkProc (p_hash p) signed won q]> (procs s))) in
  match p_prog p, a with
  | UnixSeconds k, AtTime z => if (0 <? z) && (z <=? i64_max) then next (sessions s) (issued s) (p_signed p) (p_won p) (k z) else None
  | FindRow SESSIONS field value k, FirstRow =>
      row ← head (List.filter (sample_matches (eq_condition field value)) (sessions s));
      next (sessions s) (issued s) (p_signed p) (p_won p) (k (Ok (Some row)))
  | FindRow USERS _ _ k, UserRow user => next (sessions s) (issued s) (p_signed p) (p_won p) (k (Ok (Some user)))
  | SignRefresh _ k, Token t =>
      if bool_decide (t ∈ issued s) then None else next (sessions s) ({[t]} ∪ issued s) (Some t) (p_won p) (k (Ok t))
  | SignAccess _ _ _ k, Access t => next (sessions s) (issued s) (p_signed p) (p_won p) (k (Ok t))
  | UpdateWhere USERS _ _ k, Updated => next (sessions s) (issued s) (p_signed p) (p_won p) (k (Ok 1))
  | UpdateWhere SESSIONS updates args k, Updated =>
      match Where.Where.parse_where_conditions args with
      | Ok conditions =>
          let n := @count_rows TableJournal.TableJournal.sample_env (fun s => s) (fun _ _ => 0) conditions (sessions s) in
          let sets := existsb (fun p => bytes_eqb p.1 (bs "refresh_token_hash")) updates in
          next (@update_rows TableJournal.TableJournal.sample_env (fun s => s) (fun _ _ => 0) updates conditions (sessions s)) (issued s)
            (if sets then None else p_signed p) (if sets then n =? 1 else p_won p) (k (Ok n))
      | Err _ => None
      end
  | _, _ => None
  end.

(** The parameters: a text is its own hash, and no token is a JWT. *)
Abbreviation sample_step := (@step TableJournal.TableJournal.sample_env (fun s => s) (fun _ _ => 0) (fun t => t) (fun _ => None) (fun _ => Ok None) (Ok None)
  (fun _ => None) (fun _ _ _ _ _ _ => None) (bs "lux") 1000 60).

Lemma serve_step s i a s' : serve s i a = Some s' -> sample_step s s'.
Proof.
  unfold serve. destruct (procs s !! i) as [[h signed won q]|] eqn:Ep; [|done]. cbn [mbind option_bind p_prog p_hash p_signed p_won].
  destruct q as [|[] field value k|table ? ? ?|[] u args k|c k|? ? ? k|k], a as [z| |user|t|t|]; try done.
  - destruct (head _) as [row|] eqn:Eh; [|done]. cbn [mbind option_bind]. intros [= <-]. apply (S_request _ _ _ _ _ _ _ _ _ _ _ _ i _ _ _ _ Ep).
    assert (row ∈ List.filter (sample_matches (eq_condition field value)) (sessions s)) as Hin by (destruct (List.filter _ _); [done|injection Eh as ->; by left]).
    apply list_elem_of_In, filter_In in Hin as [Hin Hm]. apply R_find_some; [by apply list_elem_of_In|done].
  - intros [= <-]. apply (S_request _ _ _ _ _ _ _ _ _ _ _ _ i _ _ _ _ Ep), R_find_user.
  - destruct (Where.Where.parse_where_conditions args) as [c|] eqn:Ec; [|done]. intros [= <-]. apply (S_request _ _ _ _ _ _ _ _ _ _ _ _ i _ _ _ _ Ep). by apply R_update.
  - intros [= <-]. apply (S_request _ _ _ _ _ _ _ _ _ _ _ _ i _ _ _ _ Ep), R_update_user.
  - case_bool_decide; [done|]. intros [= <-]. apply (S_request _ _ _ _ _ _ _ _ _ _ _ _ i _ _ _ _ Ep). by apply (R_sign _ _ (fun t => t)).
  - intros [= <-]. apply (S_request _ _ _ _ _ _ _ _ _ _ _ _ i _ _ _ _ Ep), R_sign_access.
  - destruct (Z.ltb_spec 0 z), (Z.leb_spec z i64_max); try done. cbn [andb]. intros [= <-]. apply (S_request _ _ _ _ _ _ _ _ _ _ _ _ i _ _ _ _ Ep). by apply R_clock.
Qed.

Fixpoint serve_all (s : System) (work : list (nat * Reply)) : option System :=
  match work with
  | [] => Some s
  | (i, a) :: work => serve s i a ≫= fun s' => serve_all s' work
  end.

Lemma serve_all_reach s work s' : serve_all s work = Some s' -> rtc sample_step s s'.
Proof.
  revert s. induction work as [|[i a] work IH]; intros s; cbn [serve_all]; [intros [= <-]; apply rtc_refl|].
  destruct (serve s i a) as [s1|] eqn:E; [|done]. cbn [mbind option_bind]. intros Hs. eapply rtc_l; [by eapply serve_step|by apply IH].
Qed.

Definition first_session : Row :=
  list_to_map [(bs "id", bs "ses_1"); (bs "user_id", bs "u"); (bs "refresh_token_hash", bs "t0"); (bs "expires_at", bs "100")].

Definition first_system : System := mkSystem [first_session] {[bs "t0"]} [].

(** Two refreshes with the same token. *)
Definition two_grants : System :=
  let q j := mkProc (bs "t0") None false
    (grant (fun t => t) (fun _ => None) (fun _ => Ok None) (Ok None) (fun _ => None) (fun _ _ _ _ _ _ => None) (bs "lux") 1000 60 (Some (bs "t0")) (bs "agent") j) in
  mkSystem [first_session] ({[bs "t0"]} ∪ ({[bs "t0"]} ∪ {[bs "t0"]})) [q (bs "j1"); q (bs "j2")].

Lemma two_grants_reach : rtc sample_step first_system two_grants.
Proof.
  eapply rtc_l; [apply (S_grant _ _ _ _ _ _ _ _ _ _ _ first_system (bs "t0") (bs "agent") (bs "j1"))|].
  eapply rtc_l; [apply (S_grant _ _ _ _ _ _ _ _ _ _ _ _ (bs "t0") (bs "agent") (bs "j2"))|]. apply rtc_refl.
Qed.

(** Both read the session before either of them rotates; the first to rotate is answered, the other detects
    the reuse and revokes the session. *)
Definition race : list (nat * Reply) :=
  [(0%nat, AtTime 5); (1%nat, AtTime 5); (0%nat, FirstRow); (1%nat, FirstRow); (0%nat, UserRow ∅); (1%nat, UserRow ∅);
   (0%nat, Token (bs "t1")); (1%nat, Token (bs "t2")); (0%nat, Access (bs "a1")); (1%nat, Access (bs "a2"));
   (0%nat, Updated); (1%nat, Updated); (0%nat, Updated); (1%nat, FirstRow); (1%nat, AtTime 6); (1%nat, FirstRow); (1%nat, Updated)].

Definition raced : System := default first_system (serve_all two_grants race).

Definition summary (s : System) : list (bool * bytes) * list bytes * list bool :=
  ((fun p => (answered p, match p_prog p with Ret (Error _ m) => bs m | _ => [] end)) <$> procs s, current_hashes (sessions s), revoked_row <$> sessions s).

Lemma raced_reach : rtc sample_step first_system raced.
Proof.
  assert (serve_all two_grants race = Some raced) as E%serve_all_reach.
  { unfold raced. assert (match serve_all two_grants race with Some _ => true | None => false end = true) as E by (vm_compute; reflexivity).
    destruct (serve_all two_grants race); [done|discriminate E]. }
  transitivity two_grants; [exact two_grants_reach|exact E].
Qed.

Lemma raced_summary : summary raced =
  ([(true, []); (false, bs "refresh token reuse detected; session revoked")], [bs "t1"], [true]).
Proof. vm_compute. reflexivity. Qed.

Lemma first_initial : initial first_system.
Proof.
  assert (current_hashes (sessions first_system) = [bs "t0"]) as E by (vm_compute; reflexivity).
  unfold initial. rewrite E. split; [done|]. split; [apply NoDup_singleton|]. intros h ->%list_elem_of_singleton. change (bs "t0" ∈ ({[bs "t0"]} : gset bytes)). by apply elem_of_singleton_2.
Qed.

Lemma summary_row s answers h : summary s = (answers, [h], [true]) ->
  exists row, row ∈ sessions s /\ row !! bs "refresh_token_hash" = Some h /\ revoked_row row = true.
Proof.
  unfold summary. intros E. apply pair_eq in E as [E Er]. apply pair_eq in E as [_ Ec]. destruct (sessions s) as [|row [|]]; [done| |done].
  exists row. split; [by left|]. cbn in Er. injection Er as Er. split; [|exact Er]. unfold current_hashes in Ec. cbn [omap list_omap] in Ec.
  destruct (row !! bs "refresh_token_hash"); [|discriminate Ec]. by injection Ec as ->.
Qed.

(** Of the two refreshes that raced with the token [t0] one was answered, with [t1], and the other revoked the
    session: whatever happens next, [t1] is never exchanged. *)
Lemma refresh_token_used_once_witness :
  summary raced = ([(true, []); (false, bs "refresh token reuse detected; session revoked")], [bs "t1"], [true]) /\
  forall s' i p, rtc sample_step raced s' -> procs s' !! i = Some p -> answered p = true -> p_hash p <> bs "t1".
Proof.
  split; [exact raced_summary|]. intros s' i p Hr Hp Ha. destruct (summary_row _ _ _ raced_summary) as (row & Hin & Hh & Hrev).
  destruct (refresh_token_used_once _ _ _ _ _ _ _ _ _ _ _ first_system raced first_initial raced_reach) as (_ & _ & Hn).
  exact (Hn row (bs "t1") s' i p Hin Hh Hrev Hr Hp Ha).
Defined.


End Refresh.
