(* ===== verification/Timeseries.v ===== *)
(** * Time series ([src/src/store/timeseries.rs] and [src/src/cmd/timeseries.rs])

    TSADD, TSMADD, TSGET, TSRANGE, TSMRANGE and TSINFO, from the arguments of the command to its reply. A series
    keeps its samples in increasing order of their timestamps, a retention and labels; an addition
    replaces the sample of its timestamp or inserts it, and drops what is older than the retention.

    Samples are a timestamp and the bit pattern of a double. The arithmetic of doubles, their text and
    parsing and the lower case of texts are parameters. Integers overflow as in a release build. The
    positions that the standard library finds by bisection are those its documentation promises for
    ordered samples, which the invariant gives. The loop over the buckets of an aggregation takes
    fuel: it does not end on every input. *)

From S2P Require Import Prelude.
From S2P Require Import Codec.
From S2P Require Import Values.
From S2P Require Import Store.
From S2P Require Import Strings.
From S2P Require Import Lists.
From S2P Require Import Hashes.
From S2P Require Import SortedSets.
From S2P Require Import Commands.
From S2P Require Import Disk.
From S2P Require Import Wal.
From S2P Require Import Durability.
From S2P Require Import Groups.
From S2P Require Import Schema.
From S2P Require Import Snapshot.
From S2P Require Import TableJournal.
Local Open Scope Z_scope.

Module Timeseries.
Import Values.Values Store.Store.
Import Strings.Strings(WRONGTYPE).
Import Hashes.Hashes(adjust).
Import SortedSets.SortedSets(INFINITY, NEG_INFINITY).
Import Commands.Commands(cmd_eq).
Import TableJournal.TableJournal(arg_str).
Import Durability.Durability(Os, Db, mkDb, commit_journaled_checked).

Abbreviation Sample := (Z * Z)%type.
Abbreviation labels_t := (list (bytes * bytes)).

(** The arithmetic of [f64], on bits. *)
Class Arith := {
  f_sum : list Z -> Z;
  f_sub : Z -> Z -> Z;
  f_div : Z -> Z -> Z;
  f_min : Z -> Z -> Z;
  f_max : Z -> Z -> Z;
  f_square : Z -> Z;
  f_sqrt : Z -> Z;
  f_of_usize : Z -> Z
}.

(** ** Positions *)

(** [partition_point]: how many samples come before the first that does not satisfy [p]. *)
Fixpoint partition_point (p : Sample -> bool) (l : list Sample) : nat :=
  match l with
  | [] => 0%nat
  | x :: l => if p x then S (partition_point p l) else 0%nat
  end.

(** [binary_search_by_key]: the position of the timestamp, or the position where it belongs. *)
Fixpoint binary_search_by_key (timestamp : Z) (l : list Sample) : nat + nat :=
  match l with
  | [] => inr 0%nat
  | x :: l =>
      if x.1 <? timestamp then
        match binary_search_by_key timestamp l with inl i => inl (S i) | inr i => inr (S i) end
      else if x.1 =? timestamp then inl 0%nat else inr 0%nat
  end.

(** [&samples[start..end]], which panics when [start > end]. *)
Definition slice_of (start stop : nat) (l : list Sample) : outcome (list Sample) :=
  if (stop <? start)%nat then Panicked else Returned (slice l start stop).

(** ** Aggregation *)

Section Operations.

Context `{Arith}.

Definition mean (vals : list Z) : Z := f_div (f_sum vals) (f_of_usize (zlen vals)).
Definition variance (vals : list Z) (n : Z) : Z :=
  let m := mean vals in f_div (f_sum ((fun v => f_square (f_sub v m)) <$> vals)) (f_of_usize n).

Definition minimum (vals : list Z) : Z := foldl f_min INFINITY vals.
Definition maximum (vals : list Z) : Z := foldl f_max NEG_INFINITY vals.

Definition compute_agg (vals : list Z) (agg_fn : bytes) : Z :=
  let named name := bytes_eqb agg_fn (bs name) in
  if named "avg" then mean vals
  else if named "sum" then f_sum vals
  else if named "min" then minimum vals
  else if named "max" then maximum vals
  else if named "count" then f_of_usize (zlen vals)
  else if named "first" then default 0 (head vals)
  else if named "last" then default 0 (last vals)
  else if named "range" then f_sub (maximum vals) (minimum vals)
  else if named "std.p" then f_sqrt (variance vals (zlen vals))
  else if named "std.s" then if zlen vals <? 2 then 0 else f_sqrt (variance vals (zlen vals - 1))
  else if named "var.p" then variance vals (zlen vals)
  else if named "var.s" then if zlen vals <? 2 then 0 else variance vals (zlen vals - 1)
  else mean vals.

(** The state of the loop: the bucket, its values and the results. *)
Abbreviation Loop := (Z * list Z * list Sample)%type.

Definition flush (agg_fn : bytes) (st : Loop) : list Sample :=
  let '(bucket_start, vals, results) := st in
  if bool_decide (vals = []) then results else results ++ [(bucket_start, compute_agg vals agg_fn)].

(** [while ts >= bucket_start + bucket_ms]. *)
Fixpoint advance (fuel : nat) (agg_fn : bytes) (bucket_ms ts : Z) (st : Loop) : option Loop :=
  match fuel with
  | O => None
  | S fuel =>
      let '(bucket_start, vals, results) := st in
      if ts >=? as_i64 (bucket_start + bucket_ms)
      then advance fuel agg_fn bucket_ms ts (as_i64 (bucket_start + bucket_ms), [], flush agg_fn st)
      else Some st
  end.

Fixpoint aggregate_loop (fuel : nat) (agg_fn : bytes) (bucket_ms : Z) (samples : list Sample) (st : Loop) : option Loop :=
  match samples with
  | [] => Some st
  | (ts, val) :: samples =>
      '(bucket_start, vals, results) ← advance fuel agg_fn bucket_ms ts st;
      aggregate_loop fuel agg_fn bucket_ms samples (bucket_start, vals ++ [val], results)
  end.

(** [None]: the loop has not ended. *)
Definition aggregate_samples (fuel : nat) (samples : list Sample) (agg_fn : bytes) (bucket_ms : Z) : option (list Sample) :=
  match samples with
  | [] => Some []
  | (first_ts, _) :: _ =>
      if bucket_ms <=? 0 then Some []
      else flush agg_fn <$> aggregate_loop fuel agg_fn bucket_ms samples (Z.quot first_ts bucket_ms * bucket_ms, [], [])
  end.

(** ** Operations on the store *)

Definition add_sample (timestamp val : Z) (l : list Sample) : list Sample * Z :=
  match binary_search_by_key timestamp l with
  | inl i => (<[i := (timestamp, val)]> l, 0)
  | inr i => (take i l ++ (timestamp, val) :: drop i l, 16)
  end.

Definition trim (timestamp retention : Z) (l : list Sample) : list Sample * Z :=
  if retention >? 0 then
    let cutoff := as_i64 (timestamp - as_i64 retention) in
    let keep_from := partition_point (fun s => s.1 <? cutoff) l in
    (drop keep_from l, Z.of_nat keep_from * 16)
  else (l, 0).

Definition new_series (retention : option Z) (labels : option labels_t) : TimeSeriesData :=
  mkSeries [] (default 0 retention) (default [] labels).

(** The entry that TSADD works on. *)
Definition open_series (key : bytes) (retention : option Z) (labels : option labels_t) (now : Z) (s : Store) : Entry * Store :=
  match find s key with
  | Some e => if is_expired_at now e then (mkEntry (VTimeSeries (new_series retention labels)) None (e_lru_clock e), s) else (e, s)
  | None => (mkEntry (VTimeSeries (new_series retention labels)) None (lru_clock s), key_added s)
  end.

(** The series with the new sample, and the change of its memory. *)
Definition add_to_series (timestamp val : Z) (retention : option Z) (labels : option labels_t) (ts : TimeSeriesData) : TimeSeriesData * Z :=
  let retention := default (t_retention ts) retention in
  let labels := default (t_labels ts) labels in
  let '(samples, added) := add_sample timestamp val (t_samples ts) in
  let '(samples, trimmed) := trim timestamp retention samples in
  (mkSeries samples retention labels, added - trimmed).

Definition tsadd (key : bytes) (timestamp val : Z) (retention : option Z) (labels : option labels_t) (now : Z) (s : Store)
    : result Z * Store :=
  let s := bump key s in
  let '(e, s1) := open_series key retention labels now s in
  match value e with
  | VTimeSeries ts =>
      let '(ts, delta) := add_to_series timestamp val retention labels ts in
      (Ok timestamp, adjust key delta (put_data key (mkEntry (VTimeSeries ts) (expires_at e) (e_lru_clock e)) s1))
  | _ => (Err WRONGTYPE, s)
  end.

(** The series of a key, for the readers. *)
Definition view_series (key : bytes) (now : Z) (s : Store) : result (option TimeSeriesData) :=
  match find s key with
  | Some e => if is_expired_at now e then Ok None
              else match value e with VTimeSeries ts => Ok (Some ts) | _ => Err WRONGTYPE end
  | None => Ok None
  end.

Definition tsget (key : bytes) (now : Z) (s : Store) : result (option Sample) :=
  match view_series key now s with
  | Ok (Some ts) => Ok (last (t_samples ts))
  | Ok None => Ok None
  | Err e => Err e
  end.

(** The samples of a range. *)
Definition range_of (from to : Z) (l : list Sample) : outcome (list Sample) :=
  slice_of (partition_point (fun s => s.1 <? from) l) (partition_point (fun s => s.1 <=? to) l) l.

Definition take_count (count : option Z) (l : list Sample) : list Sample :=
  match count with Some n => take (Z.to_nat n) l | None => l end.

(** [None]: an aggregation has not ended. *)
Definition tsrange (fuel : nat) (key : bytes) (from to : Z) (agg : option (bytes * Z)) (count : option Z) (now : Z) (s : Store)
    : option (outcome (result (list Sample))) :=
  match view_series key now s with
  | Err e => Some (Returned (Err e))
  | Ok None => Some (Returned (Ok []))
  | Ok (Some ts) =>
      match range_of from to (t_samples ts) with
      | Panicked => Some Panicked
      | Returned slice =>
          match agg with
          | Some (agg_fn, bucket_ms) =>
              result ← aggregate_samples fuel slice agg_fn bucket_ms;
              Some (Returned (Ok (take_count count result)))
          | None => Some (Returned (Ok (take_count count slice)))
          end
      end
  end.

Definition tsinfo (key : bytes) (now : Z) (s : Store) : result (option (Z * option Sample * option Sample * Z * labels_t)) :=
  match view_series key now s with
  | Ok (Some ts) => Ok (Some (zlen (t_samples ts), head (t_samples ts), last (t_samples ts), t_retention ts, t_labels ts))
  | Ok None => Ok None
  | Err e => Err e
  end.

Definition labels_match (filters labels : labels_t) : bool :=
  forallb (fun f => existsb (fun l => bytes_eqb l.1 f.1 && bytes_eqb l.2 f.2) labels) filters.

(** The entries of all shards, in the order of the shards; the order inside a shard is that of its map. *)
Definition all_entries (s : Store) : list (bytes * Entry) := sh ← shards s; map_to_list (data sh).

Abbreviation Series := (bytes * labels_t * list Sample)%type.

Fixpoint tsmrange_loop (fuel : nat) (from to : Z) (filters : labels_t) (agg : option (bytes * Z)) (now : Z)
    (entries : list (bytes * Entry)) : option (outcome (list Series)) :=
  match entries with
  | [] => Some (Returned [])
  | (key, e) :: entries =>
      let rest := tsmrange_loop fuel from to filters agg now entries in
      if is_expired_at now e then rest
      else match value e with
           | VTimeSeries ts =>
               if negb (labels_match filters (t_labels ts)) then rest
               else match range_of from to (t_samples ts) with
                    | Panicked => Some Panicked
                    | Returned slice =>
                        samples ← match agg with
                                  | Some (agg_fn, bucket_ms) => aggregate_samples fuel slice agg_fn bucket_ms
                                  | None => Some slice
                                  end;
                        rest ← rest;
                        Some (results ← rest; Returned ((key_string key, t_labels ts, samples) :: results))
                    end
           | _ => rest
           end
  end.

Definition tsmrange (fuel : nat) (from to : Z) (filters : labels_t) (agg : option (bytes * Z)) (now : Z) (s : Store)
    : option (outcome (list Series)) :=
  tsmrange_loop fuel from to filters agg now (all_entries s).

(** ** Commands *)

(** The reply of a command. *)
Inductive Frame :=
| FError (message : bytes)
| FInteger (n : Z)
| FBulk (text : bytes)
| FNullArray
| FArray (items : list Frame).

Context (parse_f64 : bytes -> option Z) (fmt_f64 : Z -> bytes) (to_lowercase : bytes -> bytes).

Definition arg_i64 (arg : bytes) : option Z := parse_i64 (arg_str arg).

Definition wrong_arity (name : string) : Frame := FError (bs "ERR wrong number of arguments for '" ++ bs name ++ bs "' command").

(** [*] is the clock, in milliseconds. *)
Definition timestamp_of (now_ms : Z) (arg : bytes) : option Z :=
  if bytes_eqb arg (bs "*") then Some now_ms else arg_i64 arg.

Record Options := mkOptions { o_retention : option Z; o_labels : option labels_t }.

(** The pairs after LABELS, and what follows them. *)
Fixpoint label_pairs (args : list bytes) : labels_t * list bytes :=
  match args with
  | a :: (b :: rest) as args =>
      if cmd_eq a (bs "RETENTION") then ([], a :: args)
      else let '(pairs, rest) := label_pairs rest in ((arg_str a, arg_str b) :: pairs, rest)
  | _ => ([], args)
  end.

(** The options of TSADD; [fuel] is the number of arguments. *)
Fixpoint tsadd_options (fuel : nat) (args : list bytes) (o : Options) : option Options :=
  match fuel, args with
  | _, [] => Some o
  | O, _ => None
  | S fuel, a :: rest =>
      match cmd_eq a (bs "RETENTION"), rest with
      | true, b :: rest => tsadd_options fuel rest (mkOptions (Some (as_u64 (default 0 (arg_i64 b)))) (o_labels o))
      | _, _ =>
          if cmd_eq a (bs "LABELS") then
            let '(pairs, rest) := label_pairs rest in
            tsadd_options fuel rest (mkOptions (o_retention o) (Some pairs))
          else None
      end
  end.

(** What TSADD parses: the key, the timestamp, the value and the options, or the message of an error. *)
Definition parse_tsadd (now_ms : Z) (args : list bytes) : (bytes * Z * Z * Options) + bytes :=
  match args with
  | _ :: key :: t :: v :: rest =>
      match timestamp_of now_ms t with
      | None => inr (bs "ERR invalid timestamp")
      | Some timestamp =>
          match parse_f64 (arg_str v) with
          | None => inr (bs "ERR value is not a valid float")
          | Some val =>
              match tsadd_options (length rest) rest (mkOptions None None) with
              | None => inr (bs "ERR syntax error")
              | Some o => inl (key, timestamp, val, o)
              end
          end
      end
  | _ => inr (bs "ERR wrong number of arguments for 'tsadd' command")
  end.

(** [journal_args[2] = timestamp]. *)
Definition tsadd_journal (timestamp : Z) (args : list bytes) : list bytes := <[2%nat := fmt_i timestamp]> args.

(** The closure given to the journal. *)
Definition tsadd_apply (key : bytes) (timestamp val : Z) (o : Options) (now : Z) (s : Store) : result Z * bool * Store :=
  let '(r, s) := tsadd key timestamp val (o_retention o) (o_labels o) now s in (r, is_ok r, s).

Definition WAL_FAILED (e : string) : Frame := FError (bs "ERR WAL append failed: " ++ bs e).

Definition added_frame (r : result (result Z)) : Frame :=
  match r with
  | Ok (Ok ts) => FInteger ts
  | Ok (Err e) => FError (bs e)
  | Err e => WAL_FAILED e
  end.

Context (syncs_each_append : bool).

Definition cmd_tsadd (os : Os) (now_ms now : Z) (args : list bytes) (d : Db (St := Store)) : Frame * Db (St := Store) :=
  match parse_tsadd now_ms args with
  | inr e => (FError e, d)
  | inl (key, timestamp, val, o) =>
      let '(r, d) := commit_journaled_checked syncs_each_append os (tsadd_journal timestamp args) (tsadd_apply key timestamp val o now) d in
      (added_frame r, d)
  end.

(** The additions of TSMADD: key, timestamp, value and the text of the value. The clock is read for each. *)
Fixpoint tsmadd_resolve (now_ms : nat -> Z) (i : nat) (args : list bytes) : list (bytes * Z * Z * bytes) + bytes :=
  match args with
  | key :: t :: v :: rest =>
      match timestamp_of (now_ms i) t with
      | None => inr (bs "ERR invalid timestamp")
      | Some timestamp =>
          match parse_f64 (arg_str v) with
          | None => inr (bs "ERR value is not a valid float")
          | Some val => match tsmadd_resolve now_ms (S i) rest with
                        | inl l => inl ((key, timestamp, val, v) :: l)
                        | inr e => inr e
                        end
          end
      end
  | _ => inl []
  end.

Fixpoint tsmadd_commit (os : nat -> Os) (now : Z) (i : nat) (resolved : list (bytes * Z * Z * bytes)) (d : Db (St := Store))
    : list Frame * Db (St := Store) :=
  match resolved with
  | [] => ([], d)
  | (key, timestamp, val, raw_value) :: resolved =>
      let '(r, d) := commit_journaled_checked syncs_each_append (os i) [bs "TSADD"; key; fmt_i timestamp; raw_value]
                       (tsadd_apply key timestamp val (mkOptions None None) now) d in
      let '(frames, d) := tsmadd_commit os now (S i) resolved d in
      (added_frame r :: frames, d)
  end.

Definition cmd_tsmadd (os : nat -> Os) (now_ms : nat -> Z) (now : Z) (args : list bytes) (d : Db (St := Store)) : Frame * Db (St := Store) :=
  if (zlen args <? 4) || negb ((zlen args - 1) mod 3 =? 0) then (wrong_arity "tsmadd", d)
  else match tsmadd_resolve now_ms 0 (tail args) with
       | inr e => (FError e, d)
       | inl resolved => let '(frames, d) := tsmadd_commit os now 0 resolved d in (FArray frames, d)
       end.

Definition sample_frame (s : Sample) : Frame := FArray [FInteger s.1; FBulk (fmt_f64 s.2)].

Definition cmd_tsget (now : Z) (args : list bytes) (s : Store) : Frame :=
  match args with
  | [_; key] => match tsget key now s with
                | Ok (Some x) => sample_frame x
                | Ok None => FNullArray
                | Err e => FError (bs e)
                end
  | _ => wrong_arity "tsget"
  end.

Definition bound_from (arg : bytes) : Z := if bytes_eqb arg (bs "-") then i64_min else default 0 (arg_i64 arg).
Definition bound_to (arg : bytes) : Z := if bytes_eqb arg (bs "+") then i64_max else default i64_max (arg_i64 arg).

(** The options of TSRANGE: the aggregation and the count. *)
Fixpoint tsrange_options (fuel : nat) (args : list bytes) (agg : option (bytes * Z)) (count : option Z) : option (bytes * Z) * option Z :=
  match fuel, args with
  | S fuel, a :: rest =>
      match cmd_eq a (bs "AGGREGATION"), rest with
      | true, f :: b :: rest => tsrange_options fuel rest (Some (to_lowercase (arg_str f), default 0 (arg_i64 b))) count
      | _, _ =>
          match cmd_eq a (bs "COUNT"), rest with
          | true, n :: rest => tsrange_options fuel rest agg (Some (as_u64 (default 0 (arg_i64 n))))
          | _, _ => tsrange_options fuel rest agg count
          end
      end
  | _, _ => (agg, count)
  end.

Definition cmd_tsrange (fuel : nat) (now : Z) (args : list bytes) (s : Store) : option (outcome Frame) :=
  match args with
  | _ :: key :: from :: to :: rest =>
      let '(agg, count) := tsrange_options (length rest) rest None None in
      r ← tsrange fuel key (bound_from from) (bound_to to) agg count now s;
      Some (r ← r; Returned (match r with Ok samples => FArray (sample_frame <$> samples) | Err e => FError (bs e) end))
  | _ => Some (Returned (wrong_arity "tsrange"))
  end.

(** The words after FILTER, and what follows them. *)
Fixpoint filter_words (args : list bytes) : labels_t * list bytes :=
  match args with
  | [] => ([], [])
  | a :: rest =>
      if cmd_eq a (bs "AGGREGATION") || cmd_eq a (bs "WITHLABELS") then ([], args)
      else
        let '(filters, rest) := filter_words rest in
        let s := arg_str a in
        match list_find (fun b => b = 61) s with
        | Some (eq, _) => ((take eq s, drop (S eq) s) :: filters, rest)
        | None => (filters, rest)
        end
  end.

Fixpoint tsmrange_options (fuel : nat) (args : list bytes) (filters : labels_t) (agg : option (bytes * Z)) : labels_t * option (bytes * Z) :=
  match fuel, args with
  | S fuel, a :: rest =>
      if cmd_eq a (bs "FILTER") then
        let '(more, rest) := filter_words rest in tsmrange_options fuel rest (filters ++ more) agg
      else match cmd_eq a (bs "AGGREGATION"), rest with
           | true, f :: b :: rest => tsmrange_options fuel rest filters (Some (to_lowercase (arg_str f), default 0 (arg_i64 b)))
           | _, _ => tsmrange_options fuel rest filters agg
           end
  | _, _ => (filters, agg)
  end.

Definition pair_frame (p : bytes * bytes) : Frame := FArray [FBulk p.1; FBulk p.2].

Definition cmd_tsmrange (fuel : nat) (now : Z) (args : list bytes) (s : Store) : option (outcome Frame) :=
  match args with
  | _ :: from :: to :: a :: b :: rest =>
      let '(filters, agg) := tsmrange_options (length (a :: b :: rest)) (a :: b :: rest) [] None in
      r ← tsmrange fuel (bound_from from) (bound_to to) filters agg now s;
      Some (results ← r; Returned (FArray ((fun x : Series =>
        FArray [FBulk x.1.1; FArray (pair_frame <$> x.1.2); FArray (sample_frame <$> x.2)]) <$> results)))
  | _ => Some (Returned (wrong_arity "tsmrange"))
  end.

Definition cmd_tsinfo (now : Z) (args : list bytes) (s : Store) : Frame :=
  match args with
  | [_; key] =>
      match tsinfo key now s with
      | Ok (Some (count, first, last, retention, labels)) =>
          FArray ([FBulk (bs "totalSamples"); FInteger count; FBulk (bs "firstTimestamp"); FInteger (from_option fst 0 first);
                   FBulk (bs "lastTimestamp"); FInteger (from_option fst 0 last); FBulk (bs "retentionTime"); FInteger (as_i64 retention)] ++
                  (if bool_decide (labels = []) then [] else [FBulk (bs "labels"); FArray (pair_frame <$> labels)]))
      | Ok None => FError (bs "ERR TSDB: the key does not exist")
      | Err e => FError (bs e)
      end
  | _ => wrong_arity "tsinfo"
  end.

End Operations.

(** ** Specification *)

(** Samples in increasing order of their timestamps. *)
Definition ordered (l : list Sample) : Prop := StronglySorted (fun a b : Sample => a.1 < b.1) l.

(** Every series of the store is ordered. *)
Definition series_ok (s : Store) : Prop :=
  forall k e ts, find s k = Some e -> value e = VTimeSeries ts -> ordered (t_samples ts).

(** A series as a map from timestamps to values. *)
Definition contents (l : list Sample) : gmap Z Z := list_to_map l.

(** [l] is the map [m] in order. *)
Definition lists (l : list Sample) (m : gmap Z Z) : Prop := ordered l /\ forall t v, (t, v) ∈ l <-> m !! t = Some v.

(** The map after an addition. *)
Definition after_add (timestamp val retention : Z) (m : gmap Z Z) : gmap Z Z :=
  let m := <[timestamp := val]> m in
  if retention >? 0 then filter (fun p => as_i64 (timestamp - as_i64 retention) <= p.1) m else m.

Definition within (from to : Z) (m : gmap Z Z) : gmap Z Z := filter (fun p => from <= p.1 <= to) m.

(** The values of the samples in the bucket [q], in order. *)
Definition bucket_values (b q : Z) (l : list Sample) : list Z := snd <$> List.filter (fun x => x.1 / b =? q) l.

(** The aggregates of the buckets that have samples, in order. *)
Definition bucketed `{Arith} (agg_fn : bytes) (b : Z) (l result : list Sample) : Prop :=
  exists qs, StronglySorted Z.lt qs /\ (forall q, q ∈ qs <-> exists x, x ∈ l /\ x.1 / b = q) /\
    result = (fun q => (q * b, compute_agg (bucket_values b q l) agg_fn)) <$> qs.

(** ** Lemmas: samples *)

Lemma ordered_cons x l : ordered (x :: l) <-> ordered l /\ forall y, y ∈ l -> x.1 < y.1.
Proof.
  unfold ordered. split.
  - intros [Hl Hx]%StronglySorted_inv. rewrite Forall_forall in Hx. done.
  - intros [Hl Hx]. constructor; [done|by apply Forall_forall].
Qed.

Lemma ordered_NoDup l : ordered l -> NoDup l.*1.
Proof.
  induction l as [|x l IH]; [constructor|]. intros [Hl Hx]%ordered_cons. cbn. constructor; [|by apply IH].
  intros (y & E & Hy)%list_elem_of_fmap. specialize (Hx y Hy). lia.
Qed.

Lemma ordered_lists l : ordered l -> lists l (contents l).
Proof. intros Ho. split; [done|]. intros t v. apply elem_of_list_to_map. by apply ordered_NoDup. Qed.

Lemma lists_eq l m m' : lists l m -> lists l m' -> m = m'.
Proof. intros [_ H1] [_ H2]. apply map_eq. intros t. apply option_eq. intros v. by rewrite <-H1, <-H2. Qed.

Lemma lists_filter l m (P : Z -> bool) (Q : Z * Z -> Prop) `{!forall x, Decision (Q x)} :
  (forall t v, Q (t, v) <-> P t = true) -> lists l m -> lists (List.filter (fun x => P x.1) l) (filter Q m).
Proof.
  intros HQ [Ho Hm]. split.
  - clear Hm. induction l as [|x l IH]; [done|]. apply ordered_cons in Ho as [Ho Hx]. cbn. destruct (P x.1); [|by apply IH].
    apply ordered_cons. split; [by apply IH|]. intros y [Hy _]%list_elem_of_In%filter_In. apply Hx. by apply list_elem_of_In.
  - intros t v. rewrite map_lookup_filter_Some, <-Hm, HQ. rewrite !list_elem_of_In, filter_In. done.
Qed.

(** The addition, by recursion. *)
Fixpoint place (t v : Z) (l : list Sample) : list Sample :=
  match l with
  | [] => [(t, v)]
  | x :: l => if x.1 <? t then x :: place t v l else if x.1 =? t then (t, v) :: l else (t, v) :: x :: l
  end.

Lemma add_place t v l : (add_sample t v l).1 = place t v l.
Proof.
  unfold add_sample. induction l as [|x l IH]; [done|]. cbn. destruct (x.1 <? t); [|by destruct (x.1 =? t)].
  rewrite <-IH. by destruct (binary_search_by_key t l).
Qed.

Lemma place_elem t v l y : ordered l -> y ∈ place t v l <-> y = (t, v) \/ (y ∈ l /\ y.1 <> t).
Proof.
  induction l as [|x l IH]; intros Ho; cbn [place].
  - rewrite list_elem_of_singleton. split; [auto|]. intros [->|[H _]]; [done|by apply not_elem_of_nil in H].
  - apply ordered_cons in Ho as [Ho Hx]. destruct (Z.ltb_spec x.1 t); [|destruct (Z.eqb_spec x.1 t)]; rewrite !elem_of_cons.
    + rewrite IH by done. split; [|naive_solver]. intros [->|[->|[]]]; [right; split; [by left|lia]|by left|right; split; [by right|done]].
    + split; [|naive_solver]. intros [->|Hy]; [by left|]. right. split; [by right|]. specialize (Hx y Hy). lia.
    + split; [|naive_solver]. intros [->|[->|Hy]]; [by left|right; split; [by left|done]|]. right. split; [by right|]. specialize (Hx y Hy). lia.
Qed.

Lemma place_ordered t v l : ordered l -> ordered (place t v l).
Proof.
  induction l as [|x l IH]; intros Ho; cbn [place]; [by repeat constructor|]. pose proof Ho as Hxl. apply ordered_cons in Ho as [Ho Hx].
  destruct (Z.ltb_spec x.1 t); [|destruct (Z.eqb_spec x.1 t)]; apply ordered_cons.
  - split; [by apply IH|]. intros y [->|[Hy _]]%place_elem; [done|by apply Hx|done].
  - split; [done|]. cbn. intros y Hy. specialize (Hx y Hy). lia.
  - split; [done|]. cbn. intros y [->|Hy]%elem_of_cons; [lia|]. specialize (Hx y Hy). lia.
Qed.

Lemma place_lists t v l m : lists l m -> lists (place t v l) (<[t := v]> m).
Proof.
  intros [Ho Hm]. split; [by apply place_ordered|]. intros a b. rewrite place_elem by done. rewrite lookup_insert_Some, <-Hm. cbn.
  split; [intros [[= -> ->]|[]]|intros [[-> ->]|[]]]; auto.
Qed.

(** The samples from a bound on, and up to a bound. *)
Lemma take_upto l to : ordered l -> take (partition_point (fun x => x.1 <=? to) l) l = List.filter (fun x => x.1 <=? to) l.
Proof.
  induction l as [|x l IH]; [done|]. intros [Ho Hx]%ordered_cons. cbn. destruct (Z.leb_spec x.1 to); [cbn; by rewrite IH|]. symmetry. cbn.
  clear IH Ho. induction l as [|y l IH]; [done|]. cbn. assert (x.1 < y.1) by (apply Hx; by left). destruct (Z.leb_spec y.1 to); [lia|]. apply IH. intros z Hz. apply Hx. by right.
Qed.

Lemma drop_from l c : ordered l -> drop (partition_point (fun x => x.1 <? c) l) l = List.filter (fun x => c <=? x.1) l.
Proof.
  induction l as [|x l IH]; [done|]. intros [Ho Hx]%ordered_cons. cbn. destruct (Z.ltb_spec x.1 c), (Z.leb_spec c x.1); try lia; cbn; [by apply IH|].
  f_equal. clear IH Ho. induction l as [|y l IH]; [done|]. cbn. assert (x.1 < y.1) by (apply Hx; by left). destruct (Z.leb_spec c y.1); [|lia]. f_equal. apply IH. intros z Hz. apply Hx. by right.
Qed.

Lemma range_exact l from to : ordered l -> from <= to -> range_of from to l = Returned (List.filter (fun x => (from <=? x.1) && (x.1 <=? to)) l).
Proof.
  intros Ho Hft. unfold range_of, slice_of, slice. revert Ho. induction l as [|x l IH]; [done|]. intros Ho. pose proof Ho as Hxl. apply ordered_cons in Ho as [Ho Hx].
  specialize (IH Ho). cbn [partition_point List.filter]. destruct (Z.ltb_spec x.1 from).
  - destruct (Z.leb_spec x.1 to), (Z.leb_spec from x.1); try lia. cbn [andb]. rewrite <-IH. done.
  - rewrite drop_0, Nat.sub_0_r. destruct (Z.leb_spec from x.1); [|lia]. cbn [andb]. pose proof (take_upto (x :: l) to Hxl) as E. cbn [partition_point List.filter] in E.
    assert (List.filter (fun x => (from <=? x.1) && (x.1 <=? to)) l = List.filter (fun x => x.1 <=? to) l) as ->.
    { clear -Hx H. induction l as [|y l IH]; [done|]. cbn. assert (x.1 < y.1) by (apply Hx; by left). destruct (Z.leb_spec from y.1); [|lia]. cbn [andb].
      rewrite IH; [done|]. intros z Hz. apply Hx. by right. }
    rewrite <-E. cbn [Nat.ltb Nat.leb]. done.
Qed.

Lemma trim_lists t r l m : lists l m ->
  lists (trim t r l).1 (if r >? 0 then filter (fun p => as_i64 (t - as_i64 r) <= p.1) m else m).
Proof.
  intros Hl. unfold trim. destruct (r >? 0); [|done]. cbn [fst]. rewrite drop_from by apply Hl. apply (lists_filter l m (fun a => as_i64 (t - as_i64 r) <=? a)); [|done].
  intros a b. cbn. by rewrite Z.leb_le.
Qed.

(** ** Lemmas: aggregation *)

Section Aggregation.

Context `{Arith} (agg_fn : bytes) (b : Z) (Hb : 0 < b).

(** The buckets of the samples up to [done]: the current one is [q]. *)
Record buckets (done : list Sample) (q : Z) (vals : list Z) (results : list Sample) : Prop := {
  b_last : forall x, x ∈ done -> x.1 / b <= q;
  b_vals : vals = bucket_values b q done;
  b_results : exists qs, StronglySorted Z.lt qs /\ (forall p, p ∈ qs <-> p < q /\ exists x, x ∈ done /\ x.1 / b = p) /\
    results = (fun p => (p * b, compute_agg (bucket_values b p done) agg_fn)) <$> qs
}.

Lemma values_nil q l : bucket_values b q l = [] <-> forall x, x ∈ l -> x.1 / b <> q.
Proof.
  unfold bucket_values. split.
  - intros E%fmap_nil_inv x Hx Hq. assert (x ∈ List.filter (fun x => x.1 / b =? q) l) as Hin; [|rewrite E in Hin; by apply not_elem_of_nil in Hin].
    apply list_elem_of_In, filter_In. split; [by apply list_elem_of_In|by apply Z.eqb_eq].
  - intros Hno. induction l as [|x l IH]; [done|]. cbn. destruct (Z.eqb_spec (x.1 / b) q); [by destruct (Hno x ltac:(by left))|]. apply IH. intros y Hy. apply Hno. by right.
Qed.

Lemma values_app q l x : bucket_values b q (l ++ [x]) = bucket_values b q l ++ (if x.1 / b =? q then [x.2] else []).
Proof. unfold bucket_values. rewrite List.filter_app, fmap_app. cbn. by destruct (x.1 / b =? q). Qed.

Lemma sorted_snoc (qs : list Z) q : StronglySorted Z.lt qs -> (forall p, p ∈ qs -> p < q) -> StronglySorted Z.lt (qs ++ [q]).
Proof.
  induction qs as [|p qs IH]; intros Hs Hq; [by repeat constructor|]. apply StronglySorted_inv in Hs as [Hs Hp]. cbn. constructor.
  - apply IH; [done|]. intros r Hr. apply Hq. by right.
  - apply Forall_app. split; [done|]. constructor; [|done]. apply Hq. by left.
Qed.

(** The buckets before [q] and, when it has samples, [q]. *)
Lemma flush_buckets done q vals results : buckets done q vals results ->
  exists qs, StronglySorted Z.lt qs /\ (forall p, p ∈ qs <-> p <= q /\ exists x, x ∈ done /\ x.1 / b = p) /\
    flush agg_fn (q * b, vals, results) = (fun p => (p * b, compute_agg (bucket_values b p done) agg_fn)) <$> qs.
Proof.
  intros [Hl -> (qs & Hs & Hq & ->)]. unfold flush. case_bool_decide as Ev.
  - pose proof (proj1 (values_nil q done) Ev) as Hno. exists qs. split; [done|]. split; [|done]. intros p. rewrite Hq. split.
    + intros [? He]. split; [lia|done].
    + intros [Hp (x & Hx & E)]. split; [|by exists x]. specialize (Hno x Hx). lia.
  - exists (qs ++ [q]). split; [apply sorted_snoc; [done|]; intros p Hp; by apply Hq|]. split; [|by rewrite fmap_app].
    intros p. rewrite elem_of_app, list_elem_of_singleton, Hq. split.
    + intros [[? ?]| ->]; [split; [lia|done]|]. split; [lia|]. destruct (bucket_values b q done) as [|v vs] eqn:E; [done|].
      assert (v ∈ bucket_values b q done) as Hv by (rewrite E; by left). apply list_elem_of_fmap in Hv as (x & _ & Hx).
      apply list_elem_of_In, filter_In in Hx as [Hx Hxq]. exists x. split; [by apply list_elem_of_In|by apply Z.eqb_eq].
    + intros [Hp He]. destruct (decide (p = q)); [by right|]. left. split; [lia|done].
Qed.

Lemma buckets_flush done q p vals results : q < p -> buckets done q vals results -> buckets done p [] (flush agg_fn (q * b, vals, results)).
Proof.
  intros Hp Hi. pose proof (b_last _ _ _ _ Hi) as Hl. destruct (flush_buckets _ _ _ _ Hi) as (qs & Hs & Hq & E). split.
  - intros x Hx. specialize (Hl x Hx). lia.
  - symmetry. apply values_nil. intros x Hx. specialize (Hl x Hx). lia.
  - exists qs. split; [done|]. split; [|done]. intros r. rewrite Hq. split; intros [Hr (x & Hx & Ex)]; (split; [|by exists x]); [lia|].
    specialize (Hl x Hx). lia.
Qed.

Lemma buckets_push done x vals results : buckets done (x.1 / b) vals results -> buckets (done ++ [x]) (x.1 / b) (vals ++ [x.2]) results.
Proof.
  intros [Hl Hv (qs & Hs & Hq & ->)]. split.
  - intros y [Hy|Hy]%elem_of_app; [by apply Hl|]. apply list_elem_of_singleton in Hy as ->. lia.
  - by rewrite values_app, Z.eqb_refl, Hv.
  - exists qs. split; [done|]. split.
    + intros p. rewrite Hq. split; intros [Hp (y & Hy & E)]; (split; [done|]); exists y; (split; [|done]); [apply elem_of_app; by left|].
      apply elem_of_app in Hy as [Hy|Hy]; [done|]. apply list_elem_of_singleton in Hy as ->. lia.
    + apply list_fmap_ext. intros i p Hp%list_elem_of_lookup_2. apply Hq in Hp as [Hp _]. rewrite values_app. destruct (Z.eqb_spec (x.1 / b) p); [lia|]. by rewrite app_nil_r.
Qed.

(** The inner loop reaches the bucket of the timestamp. *)
Lemma advance_reaches fuel ts q vals results :
  0 <= q <= ts / b -> (ts / b + 1) * b <= i64_max -> ts / b - q < Z.of_nat fuel ->
  advance fuel agg_fn b ts (q * b, vals, results) =
  Some (if decide (q = ts / b) then (q * b, vals, results) else (ts / b * b, [], flush agg_fn (q * b, vals, results))).
Proof.
  revert q vals results. induction fuel as [|fuel IH]; intros q vals results Hq Hmax Hf; [lia|]. cbn [advance].
  pose proof (Z.mul_div_le ts b Hb). pose proof (Z.mul_succ_div_gt ts b Hb).
  assert (as_i64 (q * b + b) = (q + 1) * b) as -> by (rewrite as_i64_small; [lia|unfold i64_min; nia]).
  rewrite Z.geb_leb. destruct (Z.leb_spec ((q + 1) * b) ts) as [Hle|Hgt].
  - assert (q + 1 <= ts / b) by (apply Z.div_le_lower_bound; lia). rewrite IH by lia. destruct (decide (q = ts / b)); [lia|]. f_equal.
    destruct (decide (q + 1 = ts / b)) as [->|]; [done|]. unfold flush at 1. by rewrite bool_decide_eq_true_2.
  - destruct (decide (q = ts / b)); [done|]. nia.
Qed.

Lemma loop_buckets fuel l : forall done q vals results, ordered l ->
  (forall x y, x ∈ l -> y ∈ l -> x.1 / b - y.1 / b < Z.of_nat fuel) ->
  (forall x, x ∈ l -> x.1 / b - q < Z.of_nat fuel) ->
  0 <= q -> (forall x, x ∈ l -> q <= x.1 / b /\ (x.1 / b + 1) * b <= i64_max) -> buckets done q vals results ->
  exists q' vals' results', aggregate_loop fuel agg_fn b l (q * b, vals, results) = Some (q' * b, vals', results') /\ buckets (done ++ l) q' vals' results'.
Proof.
  induction l as [|[ts val] l IH]; intros done q vals results Ho Hf Hq0 Hq Hl Hi.
  - exists q, vals, results. by rewrite app_nil_r.
  - apply ordered_cons in Ho as [Ho Hx]. cbn [aggregate_loop]. destruct (Hl (ts, val) ltac:(by left)) as [Hqt Hm]. cbn [fst] in Hqt, Hm.
    rewrite advance_reaches by (try split; try done; apply (Hq0 (ts, val)); by left).
    assert (exists vals1 results1, (if decide (q = ts / b) then (q * b, vals, results) else (ts / b * b, [], flush agg_fn (q * b, vals, results))) = (ts / b * b, vals1, results1) /\ buckets done (ts / b) vals1 results1)
      as (vals1 & results1 & -> & Hi1).
    { destruct (decide (q = ts / b)) as [->|]; [by exists vals, results|]. eexists _, _. split; [done|]. apply buckets_flush; [lia|done]. }
    cbn [mbind option_bind]. apply (buckets_push done (ts, val)) in Hi1. cbn [fst snd] in Hi1.
    destruct (IH (done ++ [(ts, val)]) (ts / b) (vals1 ++ [val]) results1) as (q' & vals' & results' & E & Hi'); [done|..|done|].
    + intros x y Hx' Hy. apply Hf; by right.
    + intros x Hx'. apply (Hf x (ts, val)); [by right|by left].
    + lia.
    + intros x Hx'. split; [|apply Hl; by right]. apply Z.div_le_mono; [done|]. specialize (Hx x Hx'). cbn in Hx. lia.
    + exists q', vals', results'. split; [done|]. by rewrite <-app_assoc in Hi'.
Qed.

Lemma aggregate_exact fuel l : ordered l -> (forall x, x ∈ l -> 0 <= x.1 /\ (x.1 / b + 1) * b <= i64_max) ->
  (forall x y, x ∈ l -> y ∈ l -> x.1 / b - y.1 / b < Z.of_nat fuel) ->
  exists result, bucketed agg_fn b l result /\ aggregate_samples fuel l agg_fn b = Some result.
Proof.
  intros Ho Hl Hf. destruct l as [|[t v] l].
  { exists []. split; [|done]. exists []. split; [constructor|]. split; [|done]. intros q. split; [by intros ?%not_elem_of_nil|]. intros (x & Hx & _). by apply not_elem_of_nil in Hx. }
  unfold aggregate_samples. destruct (Z.leb_spec b 0); [lia|]. destruct (Hl (t, v) ltac:(by left)) as [Ht _]. cbn [fst] in Ht.
  rewrite Z.quot_div_nonneg by lia.
  assert (forall x, x ∈ (t, v) :: l -> t / b <= x.1 / b) as Hmin.
  { intros x Hx. apply Z.div_le_mono; [done|]. apply elem_of_cons in Hx as [->|Hx]; [done|]. apply ordered_cons in Ho as [_ Ho]. specialize (Ho x Hx). cbn in Ho. lia. }
  destruct (loop_buckets fuel ((t, v) :: l) [] (t / b) [] []) as (q & vals & results & E & Hi).
  - done.
  - done.
  - intros x Hx. apply (Hf x (t, v)); [done|by left].
  - by apply Z.div_pos.
  - intros x Hx. split; [by apply Hmin|by apply Hl].
  - split; [by intros x ?%not_elem_of_nil|done|]. exists []. split; [constructor|]. split; [|done]. intros p. split; [by intros ?%not_elem_of_nil|].
    intros [_ (x & Hx & _)]. by apply not_elem_of_nil in Hx.
  - rewrite E. cbn [fmap option_fmap option_map]. eexists. split; [|done]. destruct (flush_buckets _ _ _ _ Hi) as (qs & Hs & Hq & ->).
    exists qs. split; [done|]. split; [|done]. intros p. rewrite Hq. split; [by intros [_ ?]|]. intros He. split; [|done]. destruct He as (x & Hx & <-). by apply (b_last _ _ _ _ Hi).
Qed.

End Aggregation.

(** ** Lemmas: the store *)

Lemma find_adjust key n s k : find (adjust key n s) k = find s k.
Proof. unfold adjust, Lists.Lists.charge, Lists.Lists.refund. destruct (n >? 0); [by autorewrite with lux|]. by destruct (n <? 0); autorewrite with lux. Qed.

Lemma nonempty_adjust key n s : nonempty (adjust key n s) <-> nonempty s.
Proof.
  unfold adjust, Lists.Lists.charge, Lists.Lists.refund. destruct (n >? 0); [apply (nonempty_shard_mem_add key n s)|]. destruct (n <? 0); [apply (nonempty_shard_mem_sub key (- n) s)|done].
Qed.

Lemma nonempty_tsadd key timestamp val retention labels now s : nonempty s -> nonempty (tsadd key timestamp val retention labels now s).2.
Proof.
  intros Hn. assert (nonempty (bump key s)) as Hb by (by apply nonempty_bump). unfold tsadd, open_series.
  destruct (find (bump key s) key) as [e|]; [destruct (is_expired_at now e)|]; cbn [value].
  2: destruct (value e); [exact Hb..|].
  all: destruct (add_to_series _ _ _ _ _); cbn [snd]; by apply nonempty_adjust, nonempty_put_data.
Qed.

Lemma add_to_lists timestamp val retention labels ts : ordered (t_samples ts) ->
  let ts' := (add_to_series timestamp val retention labels ts).1 in
  t_retention ts' = default (t_retention ts) retention /\ t_labels ts' = default (t_labels ts) labels /\
  lists (t_samples ts') (after_add timestamp val (t_retention ts') (contents (t_samples ts))).
Proof.
  intros Ho. unfold add_to_series. pose proof (add_place timestamp val (t_samples ts)) as Ep. destruct (add_sample _ _ _) as [samples added]. cbn [fst] in Ep. subst samples.
  pose proof (trim_lists timestamp (default (t_retention ts) retention) _ _ (place_lists timestamp val _ _ (ordered_lists _ Ho))) as Hl. by destruct (trim _ _ _) as [samples' trimmed].
Qed.

(** What TSADD leaves: the answer, and the entry of the key. *)
Lemma tsadd_effect key timestamp val retention labels now s : nonempty s -> series_ok s ->
  let '(r, s') := tsadd key timestamp val retention labels now s in
  (forall k, k <> key -> find s' k = find s k) /\
  match view_series key now s with
  | Err e => r = Err e /\ find s' key = find s key
  | Ok old =>
      let ts := default (new_series retention labels) old in
      r = Ok timestamp /\ ordered (t_samples ts) /\
      exists e, find s' key = Some e /\ is_expired_at now e = false /\ value e = VTimeSeries (add_to_series timestamp val retention labels ts).1
  end.
Proof.
  intros Hn Hok. unfold tsadd, open_series, view_series. rewrite find_bump. assert (nonempty (bump key s)) as Hnb by (by apply nonempty_bump).
  assert (forall k, find (bump key s) k = find s k) as Hfb by (intros k; apply find_bump).
  assert (forall e s1 delta, nonempty s1 -> (forall k, find s1 k = find s k) -> let s' := adjust key delta (put_data key e s1) in
    (forall k, k <> key -> find s' k = find s k) /\ find s' key = Some e) as Hput.
  { intros e s1 delta Hn1 Hs1 s'. subst s'. split; [intros k Hk|]; rewrite find_adjust, find_put_data by done; [by rewrite decide_False|by rewrite decide_True]. }
  destruct (find s key) as [e|] eqn:Ef; [destruct (is_expired_at now e) eqn:Ee|].
  - cbn [value]. destruct (add_to_series _ _ _ _ _) as [ts' delta] eqn:Ea. destruct (Hput (mkEntry (VTimeSeries ts') None (e_lru_clock e)) (bump key s) delta Hnb Hfb) as [Ho Hk].
    split; [done|]. split; [done|]. split; [constructor|]. eexists. split; [done|]. done.
  - destruct (value e) as [| | | | | | | | |ts] eqn:Ev; try (split; [by intros|]; split; [done|by rewrite Hfb]).
    destruct (add_to_series _ _ _ _ _) as [ts' delta] eqn:Ea. destruct (Hput (mkEntry (VTimeSeries ts') (expires_at e) (e_lru_clock e)) (bump key s) delta Hnb Hfb) as [Ho Hk].
    split; [done|]. split; [done|]. split; [by eapply Hok|]. eexists. split; [done|]. split; [done|]. done.
  - cbn [value]. destruct (add_to_series _ _ _ _ _) as [ts' delta] eqn:Ea. destruct (Hput (mkEntry (VTimeSeries ts') None (lru_clock (bump key s))) (key_added (bump key s)) delta Hnb Hfb) as [Ho Hk].
    split; [done|]. split; [done|]. split; [constructor|]. eexists. split; [done|]. done.
Qed.

Lemma series_ok_tsadd key timestamp val retention labels now s : nonempty s -> series_ok s -> series_ok (tsadd key timestamp val retention labels now s).2.
Proof.
  intros Hn Hok. pose proof (tsadd_effect key timestamp val retention labels now s Hn Hok) as He.
  destruct (tsadd key timestamp val retention labels now s) as [r s']. destruct He as (Hother & Hkey). cbn [snd]. intros k e ts Hf Hv.
  destruct (decide (k = key)) as [->|]; [|rewrite Hother in Hf by done; by eapply Hok]. destruct (view_series key now s) as [old|msg].
  - destruct Hkey as (_ & Ho & e' & Hf' & _ & Hv'). rewrite Hf' in Hf. injection Hf as <-. rewrite Hv' in Hv. injection Hv as <-.
    by destruct (add_to_lists timestamp val retention labels _ Ho) as (_ & _ & ? & _).
  - destruct Hkey as [_ Hf']. rewrite Hf' in Hf. by eapply Hok.
Qed.

Lemma last_latest l : ordered l ->
  match last l with
  | Some x => contents l !! x.1 = Some x.2 /\ forall t v, contents l !! t = Some v -> t <= x.1
  | None => contents l = ∅
  end.
Proof.
  intros Ho. pose proof (ordered_lists l Ho) as [_ Hm]. destruct (last l) as [[t v]|] eqn:E.
  - split; [apply Hm; by apply last_Some_elem_of|]. intros t' v' Hin%Hm. apply last_Some in E as [l' ->].
    apply elem_of_app in Hin as [Hin|Hin]; [|apply list_elem_of_singleton in Hin; by injection Hin as -> ->].
    clear Hm. induction l' as [|x l' IH]; [by apply not_elem_of_nil in Hin|]. cbn in Ho. apply ordered_cons in Ho as [Ho Hx].
    apply elem_of_cons in Hin as [<-|Hin]; [|by apply IH]. specialize (Hx (t, v)). cbn in *. enough (t' < t) by lia. apply Hx, elem_of_app. right. by left.
  - by apply last_None in E as ->.
Qed.

(** ** Properties *)


(** ** Durability *)

Section Durable.

(** The parsing of doubles, the time that deadlines are compared with, and the clock of the recovery. *)
Context (parse_f64 : bytes -> option Z) (now replay_ms : Z).

(** What TSADD reads of a store: everything but the versions and the counters. *)
#[local] Instance store_equiv : Equiv Store := fun s s' =>
  lru_clock s = lru_clock s' /\ (nonempty s <-> nonempty s') /\ forall k, find s k = find s' k.

#[local] Instance store_equivalence : Equivalence (≡@{Store}).
Proof.
  split.
  - intros s. done.
  - intros s s' (H1 & H2 & H3). split; [done|]. split; [by symmetry|]. intros k. by rewrite H3.
  - intros s1 s2 s3 (H1 & H2 & H3) (H4 & H5 & H6). split; [congruence|]. split; [by rewrite H2|]. intros k. by rewrite H3.
Qed.

(** The recovery of a command of the journal. *)
Definition replay_tsadd (c : list bytes) (s : Store) : bool * Store :=
  match c with
  | name :: _ =>
      if cmd_eq name (bs "TSADD") then
        match parse_tsadd parse_f64 replay_ms c with
        | inl (key, timestamp, val, o) => let '(_, ok, s) := tsadd_apply key timestamp val o now s in (ok, s)
        | inr _ => (false, s)
        end
      else (false, s)
  | [] => (false, s)
  end.

Lemma equiv_adjust key n s s' : s ≡ s' -> adjust key n s ≡ adjust key n s'.
Proof.
  intros (H1 & H2 & H3). split; [|split; [by rewrite !nonempty_adjust|intros k; by rewrite !find_adjust]]. unfold adjust. by destruct (n >? 0), (n <? 0).
Qed.

Lemma find_put_empty key e s k : ~ nonempty s -> find (put_data key e s) k = find s k.
Proof. unfold nonempty, find, put_data, with_shard, shard_at, shard_index. cbn. intros Hn. destruct (shards s); [done|cbn in Hn; lia]. Qed.

Lemma equiv_put key e s s' : s ≡ s' -> put_data key e s ≡ put_data key e s'.
Proof.
  intros (H1 & H2 & H3). split; [done|]. split; [by rewrite !nonempty_put_data|]. intros k.
  destruct (decide (nonempty s)) as [Hn|Hn].
  - rewrite !find_put_data by (try done; by apply H2). by rewrite H3.
  - rewrite !find_put_empty by (try done; by rewrite <-H2). done.
Qed.

Lemma equiv_bump key s : bump key s ≡ s.
Proof. split; [done|]. split; [apply nonempty_bump|]. intros k. apply find_bump. Qed.

Lemma tsadd_equiv key timestamp val retention labels s s' : s ≡ s' ->
  (tsadd key timestamp val retention labels now s).1 = (tsadd key timestamp val retention labels now s').1 /\
  (tsadd key timestamp val retention labels now s).2 ≡ (tsadd key timestamp val retention labels now s').2.
Proof.
  intros He. assert (bump key s ≡ bump key s') as Hb by (by rewrite !equiv_bump). unfold tsadd, open_series. clear He. revert Hb. generalize (bump key s) (bump key s'). clear s s'.
  intros s s' He. pose proof He as (H1 & H2 & H3). rewrite H3, H1. assert (key_added s ≡ key_added s') as Hk by done.
  destruct (find s' key) as [e|]; [destruct (is_expired_at now e)|]; cbn [value expires_at e_lru_clock].
  - destruct (add_to_series _ _ _ _ _). split; [done|]. by apply equiv_adjust, equiv_put.
  - destruct (value e); try done. destruct (add_to_series _ _ _ _ _). split; [done|]. by apply equiv_adjust, equiv_put.
  - destruct (add_to_series _ _ _ _ _). split; [done|]. by apply equiv_adjust, equiv_put.
Qed.

#[local] Instance series_machine : Durability.Durability.Machine Store.
Proof.
  refine {| Durability.Durability.execute := replay_tsadd |}; intros c s s' He; unfold replay_tsadd; destruct c as [|name c]; try done;
    destruct (cmd_eq name _); try done; destruct (parse_tsadd _ _ _) as [[[[key t] v] o]|]; try done; unfold tsadd_apply;
    destruct (tsadd_equiv key t v (o_retention o) (o_labels o) s s' He) as [E1 E2]; destruct (tsadd _ _ _ _ _ _ s), (tsadd _ _ _ _ _ _ s'); cbn in *; [by subst|done].
Defined.

Lemma timestamp_range now_ms t timestamp : i64_min <= now_ms <= i64_max -> timestamp_of now_ms t = Some timestamp -> i64_min <= timestamp <= i64_max.
Proof. intros Hm. unfold timestamp_of, arg_i64. destruct (bytes_eqb t _); [by intros [= <-]|]. apply Schema.Schema.parse_i64_range. Qed.

Lemma fmt_i_ascii z : Forall (fun b => b < 128) (fmt_i z).
Proof. unfold fmt_i. destruct (z <? 0); [constructor; [lia|]|]; apply Groups.Groups.digits_ascii. Qed.

Lemma arg_str_fmt z : arg_str (fmt_i z) = fmt_i z.
Proof. unfold arg_str. by rewrite Groups.Groups.ascii_utf8 by apply fmt_i_ascii. Qed.

(** A journaled TSADD parses to what the command was parsed to, at every clock. *)
Lemma journal_parses now_ms args key timestamp val o : i64_min <= now_ms <= i64_max ->
  parse_tsadd parse_f64 now_ms args = inl (key, timestamp, val, o) ->
  parse_tsadd parse_f64 replay_ms (tsadd_journal timestamp args) = inl (key, timestamp, val, o).
Proof.
  intros Hm. destruct args as [|name [|k [|t [|v rest]]]]; try done. cbn [parse_tsadd]. destruct (timestamp_of now_ms t) as [ts|] eqn:Et; [|done].
  pose proof (timestamp_range _ _ _ Hm Et) as Hr.
  destruct (parse_f64 (arg_str v)) as [x|] eqn:Ev; [|done]. destruct (tsadd_options _ _ _) as [o'|] eqn:Eo; [|done]. intros [= -> -> -> ->].
  unfold tsadd_journal. cbn. unfold timestamp_of, arg_i64. assert (bytes_eqb (fmt_i timestamp) (bs "*") = false) as ->.
  { apply bytes_eqb_neq. intros E. pose proof (parse_i64_fmt_i timestamp Hr) as Hp. rewrite E in Hp. discriminate Hp. }
  rewrite arg_str_fmt, parse_i64_fmt_i by done. by rewrite Ev, Eo.
Qed.

(** A TSADD, and one addition of a TSMADD, as a request to the journal is sound: replaying its record at any clock gives what the
    command did; a refused addition changes nothing that a client can read, and so does its replay. *)
Theorem tsadd_sound now_ms args key timestamp val o s :
  i64_min <= now_ms <= i64_max -> parse_tsadd parse_f64 now_ms args = inl (key, timestamp, val, o) -> cmd_eq (default [] (head args)) (bs "TSADD") = true ->
  Wal.Wal.mutation_ok (Wal.Wal.MChecked (tsadd_journal timestamp args)) ->
  Durability.Durability.sound_at (P := unit) (Durability.Durability.Checked (tsadd_journal timestamp args) (tsadd_apply key timestamp val o now)) s.
Proof.
  intros Hm Hp Hc Hok. pose proof (journal_parses now_ms args key timestamp val o Hm Hp) as Hj.
  assert (Durability.Durability.execute (tsadd_journal timestamp args) s = let '(_, ok, s) := tsadd_apply key timestamp val o now s in (ok, s)) as Hx.
  { cbn [Durability.Durability.execute series_machine]. unfold replay_tsadd. destruct args as [|name [|k [|t args]]]; [done..|]. unfold tsadd_journal in *. change (cmd_eq name (bs "TSADD") = true) in Hc.
    change (<[2%nat := fmt_i timestamp]> (name :: k :: t :: args)) with (name :: k :: fmt_i timestamp :: args) in *. cbv beta iota. by rewrite Hc, Hj. }
  split; [by intros m [= <-]|]. unfold Durability.Durability.leads. cbn [Durability.Durability.execute_all]. rewrite Hx. unfold tsadd_apply.
  destruct (tsadd key timestamp val (o_retention o) (o_labels o) now s) as [r s'] eqn:E. destruct r as [x|e]; cbn [is_ok]; [by exists s'|].
  assert (s' ≡ s) as He; [|done]. revert E. unfold tsadd. destruct (open_series key _ _ now (bump key s)) as [en s1]. destruct (value en); try (intros [= _ <-]; apply equiv_bump).
  by destruct (add_to_series _ _ _ _ _).
Qed.

End Durable.

(** ** Witnesses and findings *)

(** Doubles as integers. *)
Definition sample_arith : Arith := {|
  f_sum := foldl Z.add 0; f_sub := Z.sub; f_div := Z.div; f_min := Z.min; f_max := Z.max;
  f_square := fun v => v * v; f_sqrt := Z.sqrt; f_of_usize := fun n => n |}.

Definition added (l : list Sample) : Store := foldl (fun s p => (tsadd (bs "t") p.1 p.2 None None 0 s).2) (new 2) l.

Lemma added_ok l : nonempty (added l) /\ series_ok (added l).
Proof.
  unfold added. assert (nonempty (new 2) /\ series_ok (new 2)) as Hi.
  { split; [vm_compute; lia|]. intros k e ts Hf. by rewrite Snapshot.Snapshot.find_new in Hf. }
  revert Hi. generalize (new 2). induction l as [|p l IH]; intros s [Hn Hok]; [done|]. cbn [foldl]. apply IH. split; [by apply nonempty_tsadd|by apply series_ok_tsadd].
Qed.

Definition sample_series : Store := added [(12, 4); (5, 1); (7, 2); (12, 3)].


(** A range whose start is after its end panics when a sample lies between. *)
Lemma reversed_range_panics `{Arith} fuel : tsrange fuel (bs "t") 100 0 None None 0 sample_series = Some Panicked.
Proof. vm_compute. reflexivity. Qed.

(** The bucket of the largest timestamp is never reached: its end overflows, and the loop goes on for ever. *)
Lemma advance_never_ends `{Arith} fuel agg_fn b st : advance fuel agg_fn b i64_max st = None.
Proof.
  revert st. induction fuel as [|fuel IH]; intros [[start vals] results]; [done|]. cbn [advance].
  pose proof (as_i64_range (start + b)). rewrite Z.geb_leb. destruct (Z.leb_spec (as_i64 (start + b)) i64_max); [apply IH|lia].
Qed.

Lemma aggregation_never_ends `{Arith} fuel :
  tsrange fuel (bs "t") i64_min i64_max (Some (bs "sum", 1000)) None 0 (added [(i64_max, 1)]) = None.
Proof.
  unfold tsrange. assert (view_series (bs "t") 0 (added [(i64_max, 1)]) = Ok (Some (mkSeries [(i64_max, 1)] 0 []))) as -> by (vm_compute; reflexivity).
  cbn [t_samples]. assert (range_of i64_min i64_max [(i64_max, 1)] = Returned [(i64_max, 1)]) as -> by (vm_compute; reflexivity).
  unfold aggregate_samples. cbn [Z.leb Z.compare aggregate_loop]. by rewrite advance_never_ends.
Qed.

(** Buckets of negative timestamps are cut toward zero: the bucket that begins at 0 holds the sample of -5. *)
Lemma negative_bucket :
  @tsrange sample_arith 2 (bs "t") (-10) 10 (Some (bs "count", 10)) None 0 (added [(-5, 1); (5, 1)]) = Some (Returned (Ok [(0, 2)])).
Proof. vm_compute. reflexivity. Qed.

(** A negative retention is taken as a bound in the future: the sample just added is dropped. *)
Lemma negative_retention_drops :
  let args := [bs "TSADD"; bs "t"; bs "20"; bs "1"; bs "RETENTION"; bs "-1"] in
  let '(r, d) := cmd_tsadd (fun _ => Some 1) false Durability.Durability.ideal 0 0 args (mkDb sample_series None false true) in
  r = FInteger 20 /\ view_series (bs "t") 0 (Durability.Durability.state d) = Ok (Some (mkSeries [] 18446744073709551615 [])).
Proof. vm_compute. split; reflexivity. Qed.

(** A new series is charged for its sample and not for its key and labels. *)
Lemma new_series_undercharged : used_memory (added [(1, 1)]) = 16 /\ total_memory (added [(1, 1)]) = 81.
Proof. vm_compute. split; reflexivity. Qed.

(** Only the first key of a command is brought back from the cold tier. An addition of TSMADD to another key
    that is cold is acknowledged, and lost when the key is read next: its cold copy replaces the series. *)
Definition cold_series : Store :=
  (evict_key (fun _ => 0) None false 0 (bs "t") (tsadd (bs "t") 1 1 None None 0 (mkStore [empty_shard] 0 0 0 (Some [Disk.Disk.create]) ∅ ∅)).2).2.

Definition tsmadd_run : Frame * Db (St := Store) :=
  cmd_tsmadd (fun _ => Some 7) false (fun _ => Durability.Durability.ideal) (fun _ => 0) 0
    [bs "TSMADD"; bs "u"; bs "5"; bs "7"; bs "t"; bs "5"; bs "7"] (mkDb (try_promote (fun _ => 0) 0 (bs "u") 0 cold_series).2 None false true).

Lemma tsmadd_addition_lost :
  tsmadd_run.1 = FArray [FInteger 5; FInteger 5] /\
  tsget (bs "t") 0 (try_promote (fun _ => 0) 0 (bs "t") 0 (Durability.Durability.state tsmadd_run.2)).2 = Ok (Some (1, 1)).
Proof. vm_compute. split; reflexivity. Qed.

End Timeseries.
