(* ===== verification/Keyring.v ===== *)
(** * The encryption keyring ([src/src/encryption.rs])

    Values are encrypted under a data key of their own, which every key of the ring wraps; the envelope names the
    keys. Keys are added by ENC INIT and ENC ROTATE and removed by ENC RETIRE. The ring is kept in a sealed file
    that is replaced by a rename; the seal comes from the configuration or from a file of its own.

    The AEAD, the hashes, base64 and JSON are parameters, and so are the random bytes of an operation. What the
    operating system does to writes, renames and syncs is an argument. The file system is the state file
    and the seal file. Keys of the AEAD have the length their type gives them, so building one does
    not fail. Texts are UTF-8 bytes. *)

From S2P Require Import Prelude.
From S2P Require Import Where.
From S2P Require Import Groups.
From S2P Require Import Schema.
Local Open Scope Z_scope.

Module Keyring.

Definition ENVELOPE_MAGIC : bytes := bs "LUXENC2".
Definition SEALED_VALUE_PREFIX : bytes := bs "luxsealed:".
Definition STATE_MAGIC : bytes := bs "LUXENCSTATE1".
Definition NONCE_LEN : Z := 12.
Definition DATA_KEY_LEN : Z := 32.
Definition WRAPPED_DATA_KEY_LEN : Z := 48.

Record SealedValue := mkSealed { sv_table : bytes; sv_field : bytes; sv_pk : bytes; sv_envelope : bytes }.
Record EncryptionKeyConfig := mkConfig { kc_id : bytes; kc_secret : bytes; kc_decrypt_only : bool }.
Record NetworkKey := mkKey { secret : bytes; wrap_key : bytes; search_key : bytes; decrypt_only : bool }.
Record EncryptionState := mkState { active_key_id : option bytes; keys : gmap bytes NetworkKey }.
Record PlainKey := mkPlainKey { pk_id : bytes; pk_secret : bytes; pk_decrypt_only : bool }.
Record PlainState := mkPlain { ps_version : Z; ps_active : option bytes; ps_keys : list PlainKey }.
Record SealedState := mkSealedState { ss_version : Z; ss_nonce : bytes; ss_ciphertext : bytes }.

(** The library code. A seal may fail; an opening fails on a wrong key, nonce, context or text. *)
Class Crypto := {
  aead_seal : bytes -> bytes -> bytes -> bytes -> option bytes;
  aead_open : bytes -> bytes -> bytes -> bytes -> option bytes;
  sha256 : bytes -> bytes;
  hmac_sign : bytes -> bytes -> bytes;
  b64_encode : bytes -> bytes;
  b64_decode : bytes -> option bytes;
  value_to_json : SealedValue -> bytes;
  value_of_json : bytes -> option SealedValue;
  plain_to_json : PlainState -> bytes;
  plain_of_json : bytes -> option PlainState;
  sealed_to_json : SealedState -> bytes;
  sealed_of_json : bytes -> option SealedState
}.

Section Ring.

Context `{Crypto}.

(** ** Keys *)

Definition derive_key (secret label : bytes) : bytes := sha256 (label ++ 0 :: secret).
Definition seal_state_key (secret : bytes) : bytes := derive_key secret (bs "lux-enc-state-seal-v1").

Definition is_id_byte (b : Z) : bool := in_rng 48 57 b || in_rng 65 90 b || in_rng 97 122 b || (b =? 95) || (b =? 45).

Definition validate_key_id (id : bytes) : result unit :=
  if bool_decide (id = []) then Err "ERR encryption key id cannot be empty"
  else if zlen id >? 255 then Err "ERR encryption key id is too long"
  else if negb (forallb is_id_byte id) then Err "ERR encryption key id must contain only letters, numbers, '_' or '-'"
  else Ok tt.

Definition network_key (c : EncryptionKeyConfig) : NetworkKey :=
  mkKey (kc_secret c) (derive_key (kc_secret c) (bs "lux-dek-wrap-v1")) (derive_key (kc_secret c) (bs "lux-table-search-v1")) (kc_decrypt_only c).

Fixpoint build_loop (configs : list EncryptionKeyConfig) (ks : gmap bytes NetworkKey) : result (gmap bytes NetworkKey) :=
  match configs with
  | [] => Ok ks
  | c :: configs =>
      match validate_key_id (kc_id c) with
      | Err e => Err e
      | Ok _ => if bool_decide (is_Some (ks !! kc_id c)) then Err "ERR duplicate ENC key"
                else build_loop configs (<[kc_id c := network_key c]> ks)
      end
  end.

Definition build_network_keys (configs : list EncryptionKeyConfig) : result (gmap bytes NetworkKey) := build_loop configs ∅.

Definition validate_active_key (active : option bytes) (ks : gmap bytes NetworkKey) : result unit :=
  match active with
  | None => Ok tt
  | Some active =>
      match ks !! active with
      | None => Err "ERR active encryption key is not configured"
      | Some key => if decrypt_only key then Err "ERR active encryption key is marked decrypt-only" else Ok tt
      end
  end.

(** [keys.keys()] in order. *)
Definition sorted_ids (ks : gmap bytes NetworkKey) : list bytes := merge_sort bytes_le (fst <$> map_to_list ks).

(** ** Envelopes *)

Definition aad_with_writer (label table field pk writer_key_id : bytes) : bytes :=
  label ++ 0 :: table ++ 0 :: field ++ 0 :: pk ++ 0 :: writer_key_id.
Definition wrap_aad (table field pk writer_key_id : bytes) : bytes := aad_with_writer (bs "lux-dek-wrap-aad-v1") table field pk writer_key_id.
Definition value_aad (table field pk writer_key_id : bytes) : bytes := aad_with_writer (bs "lux-value-aad-v1") table field pk writer_key_id.

Record KeyWrap := mkWrap { key_id : bytes; nonce : bytes; wrapped_data_key : bytes }.
Record ParsedEnvelope := mkEnvelope { writer_key_id : bytes; wraps : list KeyWrap; value_nonce : bytes; ciphertext : bytes }.

Definition TRUNCATED : string := "ERR encrypted value is truncated".

Fixpoint parse_wraps (count : nat) (rest : bytes) : result (list KeyWrap * bytes) :=
  match count with
  | O => Ok ([], rest)
  | S count =>
      match rest with
      | [] => Err TRUNCATED
      | id_len :: rest =>
          if zlen rest <? id_len + NONCE_LEN + WRAPPED_DATA_KEY_LEN then Err TRUNCATED
          else
            let key_id := take (Z.to_nat id_len) rest in
            if negb (is_utf8 key_id) then Err "ERR encrypted value has invalid key id"
            else
              let rest := drop (Z.to_nat id_len) rest in
              let nonce := take (Z.to_nat NONCE_LEN) rest in
              let rest := drop (Z.to_nat NONCE_LEN) rest in
              let wrapped := take (Z.to_nat WRAPPED_DATA_KEY_LEN) rest in
              match parse_wraps count (drop (Z.to_nat WRAPPED_DATA_KEY_LEN) rest) with
              | Err e => Err e
              | Ok (ws, rest) => Ok (mkWrap key_id nonce wrapped :: ws, rest)
              end
      end
  end.

Definition parse_envelope (envelope : bytes) : result ParsedEnvelope :=
  if negb (starts_with envelope ENVELOPE_MAGIC) then Err "ERR stored value is not encrypted"
  else match drop (length ENVELOPE_MAGIC) envelope with
       | [] => Err TRUNCATED
       | writer_len :: rest =>
           if zlen rest <? writer_len + 1 then Err TRUNCATED
           else
             let writer := take (Z.to_nat writer_len) rest in
             if negb (is_utf8 writer) then Err "ERR encrypted value has invalid writer key id"
             else
               let rest := drop (Z.to_nat writer_len) rest in
               match parse_wraps (Z.to_nat (default 0 (head rest))) (tail rest) with
               | Err e => Err e
               | Ok (ws, rest) =>
                   if zlen rest <? NONCE_LEN then Err TRUNCATED
                   else Ok (mkEnvelope writer ws (take (Z.to_nat NONCE_LEN) rest) (drop (Z.to_nat NONCE_LEN) rest))
               end
       end.

(** The random bytes of one encryption: the data key, the nonce of the value, and a nonce for each key. *)
Record Draws := mkDraws { d_data_key : bytes; d_value_nonce : bytes; d_wrap_nonce : bytes -> bytes }.

Fixpoint wrap_all (dr : Draws) (ks : gmap bytes NetworkKey) (aad : bytes) (ids : list bytes) : result (list KeyWrap) :=
  match ids with
  | [] => Ok []
  | id :: ids =>
      match ks !! id with
      | None => wrap_all dr ks aad ids
      | Some key =>
          match aead_seal (wrap_key key) (d_wrap_nonce dr id) aad (d_data_key dr) with
          | None => Err "ERR encryption key wrap failed"
          | Some wrapped =>
              match wrap_all dr ks aad ids with
              | Err e => Err e
              | Ok ws => Ok (mkWrap id (d_wrap_nonce dr id) wrapped :: ws)
              end
          end
      end
  end.

Definition as_u8 (z : Z) : Z := z mod 256.

Definition wrap_bytes (w : KeyWrap) : bytes := as_u8 (zlen (key_id w)) :: key_id w ++ nonce w ++ wrapped_data_key w.

Definition envelope_bytes (writer : bytes) (ws : list KeyWrap) (vnonce ct : bytes) : bytes :=
  ENVELOPE_MAGIC ++ as_u8 (zlen writer) :: writer ++ as_u8 (zlen ws) :: concat (wrap_bytes <$> ws) ++ vnonce ++ ct.

Definition encrypt (dr : Draws) (st : EncryptionState) (table field pk plaintext : bytes) : result bytes :=
  match active_key_id st with
  | None => Err "ERR encrypted values require an active encryption key"
  | Some active =>
      if bool_decide (keys st = ∅) then Err "ERR encrypted values require at least one encryption key"
      else
        match aead_seal (d_data_key dr) (d_value_nonce dr) (value_aad table field pk active) plaintext with
        | None => Err "ERR encryption failed"
        | Some ct =>
            match wrap_all dr (keys st) (wrap_aad table field pk active) (sorted_ids (keys st)) with
            | Err e => Err e
            | Ok ws => if zlen ws >? 255 then Err "ERR too many encryption keys for one encrypted value"
                       else Ok (envelope_bytes active ws (d_value_nonce dr) ct)
            end
        end
  end.

(** The first wrap that a key of the ring opens to a data key. *)
Fixpoint unwrap (ks : gmap bytes NetworkKey) (aad : bytes) (ws : list KeyWrap) : option bytes :=
  match ws with
  | [] => None
  | w :: ws =>
      match ks !! key_id w with
      | None => unwrap ks aad ws
      | Some key =>
          match aead_open (wrap_key key) (nonce w) aad (wrapped_data_key w) with
          | Some opened => if zlen opened =? DATA_KEY_LEN then Some opened else unwrap ks aad ws
          | None => unwrap ks aad ws
          end
      end
  end.

Definition decrypt (st : EncryptionState) (table field pk envelope : bytes) : result bytes :=
  match parse_envelope envelope with
  | Err e => Err e
  | Ok p =>
      match unwrap (keys st) (wrap_aad table field pk (writer_key_id p)) (wraps p) with
      | None => Err "ERR encrypted value cannot be decrypted by configured keys"
      | Some data_key =>
          match aead_open data_key (value_nonce p) (value_aad table field pk (writer_key_id p)) (ciphertext p) with
          | None => Err "ERR encrypted value could not be decrypted"
          | Some plaintext => Ok plaintext
          end
      end
  end.

(** ** Sealed values *)

Definition decode_sealed_value (value : bytes) : result (bytes * bytes * bytes * bytes) :=
  if negb (starts_with value SEALED_VALUE_PREFIX) then Err "ERR value is not sealed"
  else match b64_decode (drop (length SEALED_VALUE_PREFIX) value) with
       | None => Err "ERR sealed value decode failed"
       | Some json =>
           match value_of_json json with
           | None => Err "ERR sealed value invalid"
           | Some sealed =>
               match b64_decode (sv_envelope sealed) with
               | None => Err "ERR sealed envelope decode failed"
               | Some envelope => Ok (sv_table sealed, sv_field sealed, sv_pk sealed, envelope)
               end
           end
       end.

Definition seal (dr : Draws) (st : EncryptionState) (table field pk plaintext : bytes) : result bytes :=
  match encrypt dr st table field pk plaintext with
  | Err e => Err e
  | Ok envelope => Ok (SEALED_VALUE_PREFIX ++ b64_encode (value_to_json (mkSealed table field pk (b64_encode envelope))))
  end.

Definition MISMATCH : string := "ERR sealed value location mismatch".

Definition unseal (st : EncryptionState) (table field pk value : bytes) : result bytes :=
  match decode_sealed_value value with
  | Err e => Err e
  | Ok (t, f, p, envelope) =>
      if negb (bytes_eqb t table && bytes_eqb f field && bytes_eqb p pk) then Err MISMATCH else decrypt st table field pk envelope
  end.

Definition reencrypt (dr : Draws) (st : EncryptionState) (table field pk envelope : bytes) : result bytes :=
  match decode_sealed_value envelope with
  | Ok (t, f, p, sealed_envelope) =>
      if negb (bytes_eqb t table && bytes_eqb f field && bytes_eqb p pk) then Err MISMATCH
      else match decrypt st table field pk sealed_envelope with
           | Err e => Err e
           | Ok plaintext => seal dr st table field pk plaintext
           end
  | Err _ => match decrypt st table field pk envelope with
             | Err e => Err e
             | Ok plaintext => encrypt dr st table field pk plaintext
             end
  end.

Definition is_encrypted_value (raw : bytes) : bool := starts_with raw ENVELOPE_MAGIC || is_ok (decode_sealed_value raw).
Definition has_encrypted_value_prefix (raw : bytes) : bool := starts_with raw ENVELOPE_MAGIC || starts_with raw SEALED_VALUE_PREFIX.

Definition envelope_decryptable_by_any (envelope : bytes) (key_ids : gset bytes) : bool :=
  let envelope := match decode_sealed_value envelope with Ok (_, _, _, e) => e | Err _ => envelope end in
  match parse_envelope envelope with
  | Ok p => existsb (fun w => bool_decide (key_id w ∈ key_ids)) (wraps p)
  | Err _ => false
  end.

Definition hex (b : bytes) : bytes := Schema.Schema.hex_text b.

Definition blind_indexes (st : EncryptionState) (table field encoded_value : bytes) : result (list bytes) :=
  if bool_decide (keys st = ∅) then Err "ERR searchable encrypted columns require configured encryption keys"
  else Ok (omap (fun id => (fun key => hex (hmac_sign (search_key key) (table ++ 0 :: field ++ 0 :: encoded_value))) <$> keys st !! id) (sorted_ids (keys st))).

(** ** The files *)

(** The state file and the seal file. *)
Record Files := mkFiles { state_file : option bytes; seal_file : option bytes }.

(** A ring: its state, whether it has a path for each file, and the seal of the configuration. *)
Record EncryptionKeyring := mkRing { inner : EncryptionState; state_path : bool; seal_path : bool; seal_secret : option bytes }.

Definition set_inner (st : EncryptionState) (r : EncryptionKeyring) : EncryptionKeyring := mkRing st (state_path r) (seal_path r) (seal_secret r).

(** What the operating system does during one operation: the creation of the seal file, which may fail and leave a part of it, and each step of the
    replacement of the state file. With it, the random bytes. *)
Record Os := mkOs {
  os_new_seal : bytes; os_seal_written : option bytes + unit;
  os_staged : bool; os_regular : bool; os_renamed : bool; os_verified : bool; os_synced : bool;
  os_nonce : bytes; os_key_id : bytes; os_secret : bytes }.

Definition text_seal (raw : bytes) : result bytes :=
  match utf8_chars raw with
  | None => Err "ERR ENC seal file is not valid UTF-8"
  | Some text =>
      match b64_decode (Schema.Schema.as_bytes (Where.Where.trim text)) with
      | None => Err "ERR ENC seal file is invalid"
      | Some seal => if zlen seal =? 32 then Ok seal else Err "ERR ENC seal file has invalid length"
      end
  end.

(** [write_new_seal_file]: the text and a newline. *)
Definition write_new_seal_file (os : Os) (encoded : bytes) (fs : Files) : result unit * Files :=
  match os_seal_written os with
  | inr _ => (Ok tt, mkFiles (state_file fs) (Some (encoded ++ [10])))
  | inl partial => (Err "ERR ENC seal write failed", mkFiles (state_file fs) partial)
  end.

Definition read_seal_key (os : Os) (create : bool) (fs : Files) : result bytes * Files :=
  match seal_file fs with
  | Some raw => (text_seal raw, fs)
  | None =>
      if create then
        match write_new_seal_file os (b64_encode (os_new_seal os)) fs with
        | (Ok _, fs) => (Ok (os_new_seal os), fs)
        | (Err e, fs) => (Err e, fs)
        end
      else (Err "ERR ENC seal read failed", fs)
  end.

Definition current_seal (os : Os) (r : EncryptionKeyring) (fs : Files) : result bytes * Files :=
  match seal_secret r with
  | Some secret => (Ok secret, fs)
  | None => if seal_path r then read_seal_key os true fs else (Err "ERR ENC seal key is not configured", fs)
  end.

Definition push_new (out : list bytes) (seal : bytes) : list bytes := if bool_decide (seal ∈ out) then out else out ++ [seal].

Definition collect_candidate_seals (r : EncryptionKeyring) (previous : list bytes) (fs : Files) : result (list bytes) :=
  let out := foldl push_new (match seal_secret r with Some s => [s] | None => [] end) previous in
  let with_file :=
    match seal_path r, seal_file fs with
    | true, Some raw => match text_seal raw with Ok seal => Ok (push_new out seal) | Err e => Err e end
    | _, _ => Ok out
    end in
  match with_file with
  | Err e => Err e
  | Ok [] => Err "ERR ENC no seal key configured"
  | Ok out => Ok out
  end.

(** ** The sealed state *)

Definition plain_of (st : EncryptionState) : PlainState :=
  mkPlain 1 (active_key_id st)
    (omap (fun id => (fun key => mkPlainKey id (b64_encode (secret key)) (decrypt_only key)) <$> keys st !! id) (sorted_ids (keys st))).

(** The bytes of the state file. *)
Definition sealed_bytes (os : Os) (seal : bytes) (st : EncryptionState) : option bytes :=
  (fun ct => sealed_to_json (mkSealedState 1 (b64_encode (os_nonce os)) (b64_encode ct))) <$>
    aead_seal (seal_state_key seal) (os_nonce os) STATE_MAGIC (plain_to_json (plain_of st)).

(** The result: an error says whether the new state was installed. *)
Definition persist_state (os : Os) (r : EncryptionKeyring) (st : EncryptionState) (fs : Files) : (unit + string * bool) * Files :=
  if negb (state_path r) then (inr ("ERR ENC state path is not configured", false), fs)
  else match current_seal os r fs with
       | (Err e, fs) => (inr (e, false), fs)
       | (Ok seal, fs) =>
           match sealed_bytes os seal st with
           | None => (inr ("ERR ENC state seal failed", false), fs)
           | Some raw =>
               if negb (os_staged os) then (inr ("ERR ENC state write failed", false), fs)
               else if negb (os_regular os) || negb (os_renamed os) then (inr ("ERR ENC state replace failed", false), fs)
               else
                 let fs := mkFiles (Some raw) (seal_file fs) in
                 if negb (os_verified os) then (inr ("ERR ENC state replace failed", true), fs)
                 else if negb (os_synced os) then (inr ("ERR ENC state directory sync failed", true), fs)
                 else (inl tt, fs)
           end
       end.

Definition commit_state (os : Os) (candidate : EncryptionState) (r : EncryptionKeyring) (fs : Files) : result unit * EncryptionKeyring * Files :=
  match persist_state os r candidate fs with
  | (inl _, fs) => (Ok tt, set_inner candidate r, fs)
  | (inr (e, installed), fs) => (Err e, if (installed : bool) then set_inner candidate r else r, fs)
  end.

(** The keys of an opened state. *)
Fixpoint decode_keys (l : list PlainKey) : result (list EncryptionKeyConfig) :=
  match l with
  | [] => Ok []
  | k :: l =>
      match b64_decode (pk_secret k) with
      | None => Err "ERR ENC state key secret is invalid"
      | Some s => match decode_keys l with
                  | Err e => Err e
                  | Ok cs => Ok (mkConfig (pk_id k) s (pk_decrypt_only k) :: cs)
                  end
      end
  end.

Definition state_of_plain (plain : PlainState) : result EncryptionState :=
  if negb (ps_version plain =? 1) then Err "ERR ENC state version is unsupported"
  else match decode_keys (ps_keys plain) with
       | Err e => Err e
       | Ok configs =>
           match build_network_keys configs with
           | Err e => Err e
           | Ok ks => match validate_active_key (ps_active plain) ks with
                      | Err e => Err e
                      | Ok _ => Ok (mkState (ps_active plain) ks)
                      end
           end
       end.

Fixpoint try_seals (candidates : list bytes) (nonce ct : bytes) : result (EncryptionState * bytes) :=
  match candidates with
  | [] => Err "ERR ENC state could not be unsealed"
  | seal :: candidates =>
      match aead_open (seal_state_key seal) nonce STATE_MAGIC ct with
      | None => try_seals candidates nonce ct
      | Some json =>
          match plain_of_json json with
          | None => Err "ERR ENC state is invalid"
          | Some plain => match state_of_plain plain with Ok st => Ok (st, seal) | Err e => Err e end
          end
      end
  end.

Definition load_state (raw : bytes) (candidates : list bytes) : result (EncryptionState * bytes) :=
  match sealed_of_json raw with
  | None => Err "ERR ENC state is invalid"
  | Some sealed =>
      if negb (ss_version sealed =? 1) then Err "ERR ENC state version is unsupported"
      else match b64_decode (ss_nonce sealed) with
           | None => Err "ERR ENC state nonce is invalid"
           | Some nonce =>
               if negb (zlen nonce =? NONCE_LEN) then Err "ERR ENC state nonce is invalid"
               else match b64_decode (ss_ciphertext sealed) with
                    | None => Err "ERR ENC state ciphertext is invalid"
                    | Some ct => try_seals candidates nonce ct
                    end
           end
  end.

(** ** Operations *)

Definition generate_key_id (draw : bytes) : bytes := bs "k" ++ hex draw.

Definition key_configs (st : EncryptionState) : list EncryptionKeyConfig :=
  (fun p => mkConfig p.1 (secret p.2) (decrypt_only p.2)) <$> map_to_list (keys st).

Definition chosen_id (os : Os) (requested : option bytes) : bytes := default (generate_key_id (os_key_id os)) requested.

(** The end of INIT and ROTATE. *)
Definition commit_key (os : Os) (id : bytes) (configs : list EncryptionKeyConfig) (r : EncryptionKeyring) (fs : Files)
    : result bytes * EncryptionKeyring * Files :=
  match build_network_keys configs with
  | Err e => (Err e, r, fs)
  | Ok ks =>
      match commit_state os (mkState (Some id) ks) r fs with
      | (Ok _, r, fs) => (Ok id, r, fs)
      | (Err e, r, fs) => (Err e, r, fs)
      end
  end.

Definition init (os : Os) (requested : option bytes) (r : EncryptionKeyring) (fs : Files) : result bytes * EncryptionKeyring * Files :=
  match active_key_id (inner r) with
  | Some active => (Ok active, r, fs)
  | None =>
      let id := chosen_id os requested in
      match validate_key_id id with
      | Err e => (Err e, r, fs)
      | Ok _ => commit_key os id [mkConfig id (os_secret os) false] r fs
      end
  end.

Definition rotate (os : Os) (requested : option bytes) (r : EncryptionKeyring) (fs : Files) : result bytes * EncryptionKeyring * Files :=
  if bool_decide (keys (inner r) = ∅) then init os requested r fs
  else
    let id := chosen_id os requested in
    match validate_key_id id with
    | Err e => (Err e, r, fs)
    | Ok _ =>
        if bool_decide (is_Some (keys (inner r) !! id)) then (Err "ERR ENC key already exists", r, fs)
        else
          let configs := (fun c => mkConfig (kc_id c) (kc_secret c) true) <$> key_configs (inner r) in
          commit_key os id (configs ++ [mkConfig id (os_secret os) false]) r fs
    end.

Definition retire (os : Os) (id : bytes) (r : EncryptionKeyring) (fs : Files) : result unit * EncryptionKeyring * Files :=
  if bool_decide (active_key_id (inner r) = Some id) then (Err "ERR ENC cannot retire the active key", r, fs)
  else if negb (bool_decide (is_Some (keys (inner r) !! id))) then (Err "ERR ENC key does not exist", r, fs)
  else
    let configs := List.filter (fun c => negb (bytes_eqb (kc_id c) id)) (key_configs (inner r)) in
    match build_network_keys configs with
    | Err e => (Err e, r, fs)
    | Ok ks => commit_state os (mkState (active_key_id (inner r)) ks) r fs
    end.

Definition remaining_key_ids_without (id : bytes) (st : EncryptionState) : gset bytes := dom (keys st) ∖ {[id]}.
Definition has_active_key (st : EncryptionState) : bool := bool_decide (is_Some (active_key_id st)).

(** ** Opening *)

Record Config := mkEncConfig {
  c_active : option bytes; c_keys : list EncryptionKeyConfig; c_state_path : bool; c_seal_path : bool; c_auto_init : bool;
  c_seal_secret : option bytes; c_previous : list bytes }.

Definition state_from_config (c : Config) : result EncryptionState :=
  match build_network_keys (c_keys c) with
  | Err e => Err e
  | Ok ks => match validate_active_key (c_active c) ks with
             | Err e => Err e
             | Ok _ => Ok (mkState (c_active c) ks)
             end
  end.

(** The state, and whether the file must be sealed again. *)
Definition open_state (os : Os) (c : Config) (fs : Files) : result (EncryptionState * bool) * Files :=
  let r := mkRing (mkState None ∅) (c_state_path c) (c_seal_path c) (c_seal_secret c) in
  match c_state_path c, state_file fs with
  | true, Some raw =>
      match collect_candidate_seals r (c_previous c) fs with
      | Err e => (Err e, fs)
      | Ok candidates =>
          match load_state raw candidates with
          | Err e => (Err e, fs)
          | Ok (st, used_seal) =>
              match current_seal os r fs with
              | (Err e, fs) => (Err e, fs)
              | (Ok current, fs) => (Ok (st, negb (bytes_eqb used_seal current)), fs)
              end
          end
      end
  | _, _ => (match state_from_config c with Ok st => Ok (st, false) | Err e => Err e end, fs)
  end.

(** [os] is the system of the reading and the sealing again, [os'] that of the initialisation; [removed] says whether the obsolete seal file could be removed. *)
Definition open (os os' : Os) (removed : bool) (c : Config) (fs : Files) : result EncryptionKeyring * Files :=
  match open_state os c fs with
  | (Err e, fs) => (Err e, fs)
  | (Ok (st, needs_reseal), fs) =>
      let r := mkRing st (c_state_path c) (c_seal_path c) (c_seal_secret c) in
      match validate_active_key (active_key_id st) (keys st) with
      | Err e => (Err e, fs)
      | Ok _ =>
          let resealed := if (needs_reseal : bool) then persist_state os r st fs else (inl tt, fs) in
          match resealed with
          | (inr (e, _), fs) => (Err e, fs)
          | (inl _, fs) =>
              let initialised := if c_auto_init c && negb (has_active_key st) then init os' None r fs else (Ok [], r, fs) in
              match initialised with
              | (Err e, _, fs) => (Err e, fs)
              | (Ok _, r, fs) =>
                  (Ok r, if bool_decide (is_Some (seal_secret r)) && seal_path r && removed then mkFiles (state_file fs) None else fs)
              end
          end
      end
  end.

(** ** Reports *)

Definition key_status (st : EncryptionState) (id : bytes) (key : NetworkKey) : bytes :=
  if bool_decide (active_key_id st = Some id) then bs "active" else if decrypt_only key then bs "decrypt-only" else bs "available".

Definition list_keys (st : EncryptionState) : list (bytes * bytes) :=
  omap (fun id => (fun key => (id, key_status st id key)) <$> keys st !! id) (sorted_ids (keys st)).

(** Whether there is an active key, which, how many keys, and whether the state is on disk. *)
Definition status (r : EncryptionKeyring) (fs : Files) : bool * option bytes * Z * bool :=
  (bool_decide (is_Some (active_key_id (inner r))), active_key_id (inner r), Z.of_nat (size (keys (inner r))),
   state_path r && bool_decide (is_Some (state_file fs))).

(** ** Specification *)

(** What is relied on of the libraries: opening inverts sealing, whose text is sixteen bytes longer; decoding inverts encoding; base64 is printable. *)
Class Lawful : Prop := {
  open_seal k n a p ct : aead_seal k n a p = Some ct -> aead_open k n a ct = Some p;
  seal_len k n a p ct : aead_seal k n a p = Some ct -> zlen ct = zlen p + 16;
  b64_back x : b64_decode (b64_encode x) = Some x;
  b64_text x : Forall (fun b => 32 < b < 127) (b64_encode x);
  plain_back x : plain_of_json (plain_to_json x) = Some x;
  sealed_back x : sealed_of_json (sealed_to_json x) = Some x;
  value_back x : value_of_json (value_to_json x) = Some x
}.

(** Keys are derived from their secrets, their ids are valid, and the active one may encrypt. *)
Record state_ok (st : EncryptionState) : Prop := {
  so_keys : forall id key, keys st !! id = Some key -> validate_key_id id = Ok tt /\ key = network_key (mkConfig id (secret key) (decrypt_only key));
  so_active : validate_active_key (active_key_id st) (keys st) = Ok tt
}.

Record draws_ok (dr : Draws) : Prop := {
  do_data : zlen (d_data_key dr) = DATA_KEY_LEN;
  do_value : zlen (d_value_nonce dr) = NONCE_LEN;
  do_wrap : forall id, zlen (d_wrap_nonce dr id) = NONCE_LEN
}.

(** Both states hold the key [id], with the same secret. *)
Definition shares (id : bytes) (st st' : EncryptionState) : Prop :=
  exists key key', keys st !! id = Some key /\ keys st' !! id = Some key' /\ secret key = secret key'.

(** Some key opens what was sealed by another key or in another context: what the AEAD is meant to exclude. *)
Definition forgery : Prop :=
  exists k k' n a a' p ct, aead_seal k n a p = Some ct /\ is_Some (aead_open k' n a' ct) /\ (k, a) <> (k', a').

(** ** Lemmas: envelopes *)

Lemma valid_id id : validate_key_id id = Ok tt -> zlen id <= 255 /\ Forall (fun b => b < 128) id.
Proof using.
  unfold validate_key_id. destruct (bool_decide _); [done|]. destruct (Z.gtb_spec (zlen id) 255); [done|]. destruct (forallb is_id_byte id) eqn:E; [|done]. intros _. split; [lia|].
  apply Forall_forall. intros b Hb. rewrite forallb_forall in E. specialize (E b ltac:(by apply list_elem_of_In)). unfold is_id_byte, in_rng in E. zbool. lia.
Qed.

Lemma id_utf8 id : validate_key_id id = Ok tt -> is_utf8 id = true.
Proof using. intros [_ Hb]%valid_id. by apply Groups.Groups.ascii_utf8. Qed.

Definition wrap_ok (w : KeyWrap) : Prop :=
  validate_key_id (key_id w) = Ok tt /\ zlen (nonce w) = NONCE_LEN /\ zlen (wrapped_data_key w) = WRAPPED_DATA_KEY_LEN.

Lemma as_u8_small z : 0 <= z <= 255 -> as_u8 z = z.
Proof using. intros. unfold as_u8. apply Z.mod_small. lia. Qed.

Lemma take_zlen {A} (a b : list A) n : zlen a = n -> take (Z.to_nat n) (a ++ b) = a /\ drop (Z.to_nat n) (a ++ b) = b.
Proof using. intros <-. unfold zlen. rewrite Nat2Z.id. by rewrite take_app_length, drop_app_length. Qed.

Lemma parse_wraps_back ws rest : Forall wrap_ok ws -> parse_wraps (length ws) (concat (wrap_bytes <$> ws) ++ rest) = Ok (ws, rest).
Proof using.
  induction 1 as [|w ws (Hid & Hn & Hw) Hws IH]; [done|]. cbn [length fmap list_fmap concat parse_wraps]. unfold wrap_bytes at 1. cbn [app].
  destruct (valid_id _ Hid) as [Hl _]. rewrite as_u8_small by (unfold zlen in *; lia). rewrite <-!app_assoc.
  destruct (Z.ltb_spec (zlen (key_id w ++ nonce w ++ wrapped_data_key w ++ concat (wrap_bytes <$> ws) ++ rest)) (zlen (key_id w) + NONCE_LEN + WRAPPED_DATA_KEY_LEN)) as [Hlt|_].
  { unfold zlen in *. rewrite !length_app in Hlt. lia. }
  destruct (take_zlen (key_id w) (nonce w ++ wrapped_data_key w ++ concat (wrap_bytes <$> ws) ++ rest) _ eq_refl) as [-> ->]. rewrite id_utf8 by done. cbn [negb].
  destruct (take_zlen (nonce w) (wrapped_data_key w ++ concat (wrap_bytes <$> ws) ++ rest) _ Hn) as [-> ->].
  destruct (take_zlen (wrapped_data_key w) (concat (wrap_bytes <$> ws) ++ rest) _ Hw) as [-> ->]. rewrite IH. by destruct w.
Qed.

Lemma parse_envelope_back writer ws vnonce ct :
  validate_key_id writer = Ok tt -> zlen ws <= 255 -> Forall wrap_ok ws -> zlen vnonce = NONCE_LEN ->
  parse_envelope (envelope_bytes writer ws vnonce ct) = Ok (mkEnvelope writer ws vnonce ct).
Proof using.
  intros Hw Hl Hws Hn. destruct (valid_id _ Hw) as [Hwl _]. unfold parse_envelope, envelope_bytes, starts_with. rewrite take_app_length, drop_app_length.
  rewrite (proj2 (bool_decide_eq_true _) eq_refl : bytes_eqb _ _ = true). cbn [negb]. rewrite (as_u8_small (zlen writer)) by (unfold zlen in *; lia).
  destruct (Z.ltb_spec (zlen (writer ++ as_u8 (zlen ws) :: concat (wrap_bytes <$> ws) ++ vnonce ++ ct)) (zlen writer + 1)) as [Hlt|_].
  { unfold zlen in *. rewrite length_app in Hlt. cbn in Hlt. lia. }
  destruct (take_zlen writer (as_u8 (zlen ws) :: concat (wrap_bytes <$> ws) ++ vnonce ++ ct) _ eq_refl) as [-> ->]. rewrite id_utf8 by done. cbn [negb head default tail].
  unfold default, id. rewrite as_u8_small by (unfold zlen in *; lia). unfold zlen at 1. rewrite Nat2Z.id, parse_wraps_back by done.
  destruct (Z.ltb_spec (zlen (vnonce ++ ct)) NONCE_LEN) as [Hlt|_]; [unfold zlen in *; rewrite length_app in Hlt; lia|].
  by destruct (take_zlen vnonce ct _ Hn) as [-> ->].
Qed.

(** ** Lemmas: contexts *)

Lemma split_nul (a a' r r' : bytes) : 0 ∉ a -> 0 ∉ a' -> a ++ 0 :: r = a' ++ 0 :: r' -> a = a' /\ r = r'.
Proof using.
  revert a'. induction a as [|x a IH]; intros [|y a'] Ha Ha' E; cbn in E.
  - by injection E.
  - injection E as <- _. destruct Ha'. by left.
  - injection E as -> _. destruct Ha. by left.
  - injection E as -> E. destruct (IH a') as [-> ->]; [| |done|done]; intros Hin; [apply Ha|apply Ha']; by right.
Qed.

Lemma aad_injective label t t' f f' p p' w : 0 ∉ t -> 0 ∉ t' -> 0 ∉ f -> 0 ∉ f' ->
  aad_with_writer label t f p w = aad_with_writer label t' f' p' w -> (t, f, p) = (t', f', p').
Proof using.
  intros Ht Ht' Hf Hf' E. unfold aad_with_writer in E. apply app_inv_head in E. injection E as E. apply split_nul in E as [-> E]; [|done..].
  apply split_nul in E as [-> E]; [|done..]. by apply app_inv_tail in E as ->.
Qed.

(** ** Lemmas: encryption *)

(** What an encryption wraps: the data key, under keys of the state, one wrap for each. *)
Definition wraps_of (dr : Draws) (ks : gmap bytes NetworkKey) (aad : bytes) (ws : list KeyWrap) : Prop :=
  Forall (fun w => exists key, ks !! key_id w = Some key /\ nonce w = d_wrap_nonce dr (key_id w) /\
    aead_seal (wrap_key key) (nonce w) aad (d_data_key dr) = Some (wrapped_data_key w)) ws.

Lemma wrap_all_spec dr ks aad ids ws : wrap_all dr ks aad ids = Ok ws ->
  wraps_of dr ks aad ws /\ forall id, id ∈ ids -> is_Some (ks !! id) -> id ∈ key_id <$> ws.
Proof using.
  revert ws. induction ids as [|id ids IH]; intros ws; cbn [wrap_all].
  - intros [= <-]. split; [constructor|]. by intros ? ?%not_elem_of_nil.
  - destruct (ks !! id) as [key|] eqn:Ek.
    + destruct (aead_seal _ _ _ _) as [wrapped|] eqn:Es; [|done]. destruct (wrap_all dr ks aad ids) as [ws'|] eqn:Ew; [|done]. intros [= <-]. destruct (IH _ eq_refl) as [H1 H2]. split.
      * constructor; [|done]. by exists key.
      * cbn [fmap list_fmap key_id]. intros i [->|Hi]%elem_of_cons Hs; [by left|right; by apply H2].
    + intros Hw. destruct (IH _ Hw) as [H1 H2]. split; [done|]. intros i [->|Hi]%elem_of_cons Hs; [rewrite Ek in Hs; by destruct Hs|by apply H2].
Qed.

Lemma sorted_ids_elem ks id : id ∈ sorted_ids ks <-> is_Some (ks !! id).
Proof using.
  unfold sorted_ids. rewrite merge_sort_Permutation, list_elem_of_fmap. split.
  - intros ([i k] & -> & Hk%elem_of_map_to_list). by exists k.
  - intros [k Hk]. exists (id, k). split; [done|]. by apply elem_of_map_to_list.
Qed.

(** The parts of an encryption that succeeds. *)
Record encryption (dr : Draws) (st : EncryptionState) (t f p m env : bytes) (active : bytes) (ws : list KeyWrap) (ct : bytes) : Prop := {
  e_active : active_key_id st = Some active;
  e_text : aead_seal (d_data_key dr) (d_value_nonce dr) (value_aad t f p active) m = Some ct;
  e_wraps : wraps_of dr (keys st) (wrap_aad t f p active) ws;
  e_all : forall id, is_Some (keys st !! id) -> id ∈ key_id <$> ws;
  e_parsed : parse_envelope env = Ok (mkEnvelope active ws (d_value_nonce dr) ct)
}.

Lemma encrypt_parts `{!Lawful} dr st t f p m env : state_ok st -> draws_ok dr -> encrypt dr st t f p m = Ok env ->
  exists active ws ct, encryption dr st t f p m env active ws ct.
Proof using.
  intros Hst Hd. unfold encrypt. destruct (active_key_id st) as [active|] eqn:Ea; [|done]. destruct (bool_decide _); [done|].
  destruct (aead_seal _ _ _ m) as [ct|] eqn:Es; [|done]. destruct (wrap_all _ _ _ _) as [ws|] eqn:Ew; [|done]. destruct (Z.gtb_spec (zlen ws) 255); [done|].
  intros [= <-]. destruct (wrap_all_spec _ _ _ _ _ Ew) as [Hws Hall]. exists active, ws, ct. split; try done.
  - intros id Hid. apply Hall; [by apply sorted_ids_elem|done].
  - apply parse_envelope_back; [|lia| |by apply do_value].
    + pose proof (so_active _ Hst) as Hv. rewrite Ea in Hv. cbn in Hv. destruct (keys st !! active) as [key|] eqn:Ek; [|done]. exact (proj1 (so_keys _ Hst active key Ek)).
    + eapply Forall_impl; [exact Hws|]. intros w (key & Hk & Hn & Hsl). split; [exact (proj1 (so_keys _ Hst _ _ Hk))|]. rewrite Hn. split; [by apply do_wrap|].
      apply seal_len in Hsl. rewrite Hsl, (do_data _ Hd). done.
Qed.

(** Two keys made of the same secret wrap in the same way. *)
Lemma same_wrap_key st st' id key key' : state_ok st -> state_ok st' -> keys st !! id = Some key -> keys st' !! id = Some key' -> secret key = secret key' -> wrap_key key = wrap_key key'.
Proof using. intros H1 H2 [_ ->]%(so_keys _ H1) [_ ->]%(so_keys _ H2). cbn. by intros ->. Qed.

Lemma unwrap_spec `{!Lawful} dr ks aad aad' ws st' : wraps_of dr ks aad ws -> zlen (d_data_key dr) = DATA_KEY_LEN ->
  match unwrap (keys st') aad' ws with
  | Some dk => forgery \/ (dk = d_data_key dr /\ aad' = aad)
  | None => forgery \/ forall id key key', id ∈ key_id <$> ws -> ks !! id = Some key -> keys st' !! id = Some key' -> wrap_key key = wrap_key key' -> aad' <> aad
  end.
Proof using.
  intros Hws Hd. induction Hws as [|w ws (key & Hk & Hn & Hs) Hws IH]; cbn [unwrap]; [right; by intros ? ? ? ?%not_elem_of_nil|].
  destruct (keys st' !! key_id w) as [key0|] eqn:Ek0.
  - destruct (decide ((wrap_key key, aad) = (wrap_key key0, aad'))) as [[= E1 E2]|Hne].
    + rewrite <-E1, <-E2, (open_seal _ _ _ _ _ Hs), Hd. cbn. by right.
    + destruct (aead_open (wrap_key key0) (nonce w) aad' (wrapped_data_key w)) as [o|] eqn:Eo.
      * assert forgery as Hf; [|repeat case_match; by left]. exists (wrap_key key), (wrap_key key0), (nonce w), aad, aad', (d_data_key dr), (wrapped_data_key w). split; [done|]. split; [by rewrite Eo|done].
      * destruct (unwrap (keys st') aad' ws); [done|]. destruct IH as [IH|IH]; [by left|]. right. cbn [fmap list_fmap]. intros id k k' [->|Hin]%elem_of_cons Hk1 Hk2 E; [|by eapply IH].
        rewrite Hk in Hk1. injection Hk1 as <-. rewrite Ek0 in Hk2. injection Hk2 as <-. intros ->. apply Hne. by rewrite E.
  - destruct (unwrap (keys st') aad' ws); [done|]. destruct IH as [IH|IH]; [by left|]. right. cbn [fmap list_fmap]. intros id k k' [->|Hin]%elem_of_cons Hk1 Hk2 E; [by rewrite Ek0 in Hk2|by eapply IH].
Qed.

(** ** Lemmas: building keys *)

Definition entry_of (c : EncryptionKeyConfig) : bytes * NetworkKey := (kc_id c, network_key c).

Lemma build_loop_spec cs ks : forall acc, build_loop cs acc = Ok ks ->
  ks = list_to_map (entry_of <$> cs) ∪ acc /\ NoDup (kc_id <$> cs) /\ Forall (fun c => validate_key_id (kc_id c) = Ok tt /\ acc !! kc_id c = None) cs.
Proof using.
  induction cs as [|c cs IH]; intros acc; cbn [build_loop].
  - intros [= <-]. split; [symmetry; exact (map_empty_union acc)|]. split; constructor.
  - destruct (validate_key_id (kc_id c)) as [[]|] eqn:Ev; [|done]. case_bool_decide as Hs; [done|]. apply eq_None_not_Some in Hs. intros (-> & Hn & Hf)%IH. split; [|split].
    + cbn [fmap list_fmap list_to_map foldr]. rewrite <-insert_union_r, insert_union_l; [done|]. apply not_elem_of_list_to_map_1. rewrite <-list_fmap_compose.
      intros (c' & E & Hc')%list_elem_of_fmap. rewrite Forall_forall in Hf. destruct (Hf c' Hc') as [_ Hx]. cbn in E. rewrite <-E, lookup_insert_eq in Hx. done.
    + cbn [fmap list_fmap]. constructor; [|done]. intros (c' & E & Hc')%list_elem_of_fmap. rewrite Forall_forall in Hf. destruct (Hf c' Hc') as [_ Hx]. rewrite <-E, lookup_insert_eq in Hx. done.
    + constructor; [done|]. eapply Forall_impl; [exact Hf|]. intros c' [Hv Hx]. split; [done|]. by apply lookup_insert_None in Hx as [? _].
Qed.

Lemma build_spec cs ks : build_network_keys cs = Ok ks ->
  ks = list_to_map (entry_of <$> cs) /\ NoDup (kc_id <$> cs) /\ Forall (fun c => validate_key_id (kc_id c) = Ok tt) cs.
Proof using.
  intros (-> & Hn & Hf)%build_loop_spec. rewrite map_union_empty. split; [done|]. split; [done|]. eapply Forall_impl; [exact Hf|]. by intros c [].
Qed.

Lemma build_loop_ok cs : forall acc, NoDup (kc_id <$> cs) -> Forall (fun c => validate_key_id (kc_id c) = Ok tt /\ acc !! kc_id c = None) cs ->
  is_ok (build_loop cs acc) = true.
Proof using.
  induction cs as [|c cs IH]; intros acc Hn Hf; [done|]. cbn [build_loop]. inversion Hf as [|? ? [Hv Hx] Hf']; subst. rewrite Hv. rewrite bool_decide_eq_false_2 by (rewrite Hx; by intros []).
  cbn [fmap list_fmap] in Hn. apply NoDup_cons in Hn as [Hni Hn]. apply IH; [done|]. apply Forall_forall. intros c' Hc'. rewrite Forall_forall in Hf'. destruct (Hf' c' Hc') as [Hv' Hx'].
  split; [done|]. rewrite lookup_insert_ne; [done|]. intros E. apply Hni. rewrite E. by apply list_elem_of_fmap_2.
Qed.

Lemma build_ok cs : NoDup (kc_id <$> cs) -> Forall (fun c => validate_key_id (kc_id c) = Ok tt) cs -> build_network_keys cs = Ok (list_to_map (entry_of <$> cs)).
Proof using.
  intros Hn Hf. assert (is_ok (build_network_keys cs) = true) as Hok.
  { apply build_loop_ok; [done|]. eapply Forall_impl; [exact Hf|]. intros c Hc. by rewrite lookup_empty. }
  destruct (build_network_keys cs) as [ks|] eqn:E; [|done]. by apply build_spec in E as (-> & _).
Qed.

(** The lookup of a key that was built. *)
Lemma built_lookup cs ks id key : build_network_keys cs = Ok ks -> ks !! id = Some key <-> exists c, c ∈ cs /\ kc_id c = id /\ key = network_key c.
Proof using.
  intros (-> & Hn & _)%build_spec. rewrite <-elem_of_list_to_map by (by rewrite <-list_fmap_compose). rewrite list_elem_of_fmap. split.
  - intros (c & [= -> ->] & Hc). by exists c.
  - intros (c & Hc & <- & ->). by exists c.
Qed.

Lemma built_ok cs ks id key : build_network_keys cs = Ok ks -> ks !! id = Some key ->
  validate_key_id id = Ok tt /\ key = network_key (mkConfig id (secret key) (decrypt_only key)).
Proof using.
  intros Hb Hk. apply (built_lookup _ _ _ _ Hb) in Hk as (c & Hc & <- & ->). apply build_spec in Hb as (_ & _ & Hf). rewrite Forall_forall in Hf. split; [by apply Hf|by destruct c].
Qed.

Lemma configs_elem st c : c ∈ key_configs st <-> exists key, keys st !! kc_id c = Some key /\ c = mkConfig (kc_id c) (secret key) (decrypt_only key).
Proof using.
  unfold key_configs. rewrite list_elem_of_fmap. split.
  - intros ([id key] & -> & Hk%elem_of_map_to_list). by exists key.
  - intros (key & Hk & E). exists (kc_id c, key). split; [done|]. by apply elem_of_map_to_list.
Qed.

(** ** Lemmas: operations *)

Inductive op := Init (requested : option bytes) | Rotate (requested : option bytes) | Retire (id : bytes).

(** Whether the operation succeeded, the ring and the files. *)
Definition run_op (os : Os) (o : op) (r : EncryptionKeyring) (fs : Files) : bool * EncryptionKeyring * Files :=
  match o with
  | Init q => let '(res, r, fs) := init os q r fs in (is_ok res, r, fs)
  | Rotate q => let '(res, r, fs) := rotate os q r fs in (is_ok res, r, fs)
  | Retire id => let '(res, r, fs) := retire os id r fs in (is_ok res, r, fs)
  end.

(** The state that an operation commits, when it gets that far. *)
Definition target (os : Os) (o : op) (r : EncryptionKeyring) (st : EncryptionState) : Prop :=
  match o with
  | Init q => active_key_id (inner r) = None /\ active_key_id st = Some (chosen_id os q) /\
      build_network_keys [mkConfig (chosen_id os q) (os_secret os) false] = Ok (keys st)
  | Rotate q => active_key_id st = Some (chosen_id os q) /\
      ((keys (inner r) = ∅ /\ active_key_id (inner r) = None /\ build_network_keys [mkConfig (chosen_id os q) (os_secret os) false] = Ok (keys st)) \/
       build_network_keys (((fun c => mkConfig (kc_id c) (kc_secret c) true) <$> key_configs (inner r)) ++ [mkConfig (chosen_id os q) (os_secret os) false]) = Ok (keys st))
  | Retire id => active_key_id st = active_key_id (inner r) /\ active_key_id (inner r) <> Some id /\
      build_network_keys (List.filter (fun c => negb (bytes_eqb (kc_id c) id)) (key_configs (inner r))) = Ok (keys st)
  end.

(** An operation leaves everything as it is, or it is the commit of its target. *)
Lemma run_op_cases os o r fs :
  (exists ok, run_op os o r fs = (ok, r, fs) /\ (ok = true -> is_Some (active_key_id (inner r)))) \/
  exists st, target os o r st /\ run_op os o r fs = (let '(res, r', fs') := commit_state os st r fs in (is_ok res, r', fs')).
Proof using.
  assert (forall id cs, (let '(res, r', fs') := commit_key os id cs r fs in (is_ok res, r', fs')) = (false, r, fs) \/
    exists ks, build_network_keys cs = Ok ks /\
      (let '(res, r', fs') := commit_key os id cs r fs in (is_ok res, r', fs')) = (let '(res, r', fs') := commit_state os (mkState (Some id) ks) r fs in (is_ok res, r', fs'))) as Hkey.
  { intros id cs. unfold commit_key. destruct (build_network_keys cs) as [ks|e]; [|by left]. right. exists ks. split; [done|]. by destruct (commit_state _ _ _ _) as [[[]]]. }
  assert (forall q, (exists ok, (let '(res, r, fs) := init os q r fs in (is_ok res, r, fs)) = (ok, r, fs) /\ (ok = true -> is_Some (active_key_id (inner r)))) \/
    exists st, target os (Init q) r st /\ (let '(res, r, fs) := init os q r fs in (is_ok res, r, fs)) = (let '(res, r', fs') := commit_state os st r fs in (is_ok res, r', fs'))) as Hinit.
  { intros q. unfold init. destruct (active_key_id (inner r)) eqn:Ea; [left; exists true; split; [done|by eexists]|]. destruct (validate_key_id _) as [[]|]; [|left; by exists false].
    destruct (Hkey (chosen_id os q) [mkConfig (chosen_id os q) (os_secret os) false]) as [Hl|(ks & Hb & E)]; [left; by exists false|]. right. by exists (mkState (Some (chosen_id os q)) ks). }
  destruct o as [q|q|id]; cbn [run_op].
  - apply Hinit.
  - unfold rotate. case_bool_decide as Hempty.
    { destruct (Hinit q) as [Hl|(st & (H1 & H2 & H3) & E)]; [by left|]. right. exists st. split; [|done]. split; [done|]. by left. }
    destruct (validate_key_id _) as [[]|]; [|left; by exists false]. case_bool_decide; [left; by exists false|].
    match goal with |- context [commit_key os ?id ?cs r fs] => destruct (Hkey id cs) as [Hl|(ks & Hb & E)] end; [left; by exists false|]. right. exists (mkState (Some (chosen_id os q)) ks). split; [|done]. split; [done|]. by right.
  - unfold retire. case_bool_decide as Ha; [left; by exists false|]. case_bool_decide; cbn [negb]; [|left; by exists false].
    destruct (build_network_keys _) as [ks|] eqn:Eb; [|left; by exists false]. right. exists (mkState (active_key_id (inner r)) ks). split; [done|].
    by destruct (commit_state _ _ _ _) as [[]].
Qed.

Lemma target_ok os o r st : state_ok (inner r) -> target os o r st -> state_ok st.
Proof using.
  intros Hok Ht. split.
  - intros id key Hk. destruct o as [q|q|i]; cbn [target] in Ht; [destruct Ht as (_ & _ & Hb)|destruct Ht as (_ & [(_ & _ & Hb)|Hb])|destruct Ht as (_ & _ & Hb)]; exact (built_ok _ _ _ _ Hb Hk).
  - destruct o as [q|q|i]; cbn [target] in Ht.
    + destruct Ht as (_ & -> & Hb). cbn. rewrite (proj2 (built_lookup _ _ (chosen_id os q) (network_key (mkConfig (chosen_id os q) (os_secret os) false)) Hb)); [done|]. eexists. split; [by left|done].
    + destruct Ht as (-> & [(_ & _ & Hb)|Hb]); cbn; rewrite (proj2 (built_lookup _ _ (chosen_id os q) (network_key (mkConfig (chosen_id os q) (os_secret os) false)) Hb)); try done; exists (mkConfig (chosen_id os q) (os_secret os) false); (split; [|done]); [by left|].
      apply elem_of_app. right. by left.
    + destruct Ht as (-> & Hne & Hb). pose proof (so_active _ Hok) as Ha. destruct (active_key_id (inner r)) as [a|] eqn:Ea; [|done]. cbn in Ha |- *.
      destruct (keys (inner r) !! a) as [key|] eqn:Ek; [|done]. destruct (so_keys _ Hok a key Ek) as [_ E].
      rewrite (proj2 (built_lookup _ _ a (network_key (mkConfig a (secret key) (decrypt_only key))) Hb)); [by rewrite <-E|].
      exists (mkConfig a (secret key) (decrypt_only key)). split; [|done]. apply list_elem_of_In, filter_In. split; [apply list_elem_of_In, configs_elem; by exists key|]. apply negb_true_iff, bytes_eqb_neq. cbn. congruence.
Qed.

(** A commit keeps the key [id], unless it is the key that is retired or the ring had no active key. *)
Lemma target_keeps os o r st id : is_Some (active_key_id (inner r)) -> o <> Retire id -> target os o r st -> is_Some (keys (inner r) !! id) ->
  shares id (inner r) st /\ is_Some (active_key_id st).
Proof using.
  intros [a Ha] Ho Ht [key Hk]. unfold shares. destruct o as [q|q|i]; cbn [target] in Ht.
  - destruct Ht as (E & _). congruence.
  - destruct Ht as (-> & [(_ & E & _)|Hb]); [congruence|]. split; [|by eexists]. exists key, (network_key (mkConfig id (secret key) true)). split; [done|]. split; [|done].
    apply (built_lookup _ _ _ _ Hb). exists (mkConfig id (secret key) true). split; [|done]. apply elem_of_app. left. apply list_elem_of_fmap. exists (mkConfig id (secret key) (decrypt_only key)).
    split; [done|]. apply configs_elem. by exists key.
  - destruct Ht as (-> & _ & Hb). split; [|by eexists]. exists key, (network_key (mkConfig id (secret key) (decrypt_only key))). split; [done|]. split; [|done].
    apply (built_lookup _ _ _ _ Hb). exists (mkConfig id (secret key) (decrypt_only key)). split; [|done]. apply list_elem_of_In, filter_In. split; [apply list_elem_of_In, configs_elem; by exists key|].
    apply negb_true_iff, bytes_eqb_neq. cbn. congruence.
Qed.

Lemma commit_cases os st r fs res r' fs' : commit_state os st r fs = (res, r', fs') -> r' = r \/ r' = set_inner st r.
Proof using. unfold commit_state. destruct (persist_state os r st fs) as [[[]|[e []]] fs1]; intros [= _ <- _]; auto. Qed.

(** Many operations, each with its system. *)
Fixpoint run_ops (l : list (Os * op)) (r : EncryptionKeyring) (fs : Files) : EncryptionKeyring * Files :=
  match l with
  | [] => (r, fs)
  | (os, o) :: l => let '(_, r, fs) := run_op os o r fs in run_ops l r fs
  end.

Lemma op_keeps os o r fs id : state_ok (inner r) -> is_Some (active_key_id (inner r)) -> o <> Retire id -> is_Some (keys (inner r) !! id) ->
  let r' := (run_op os o r fs).1.2 in state_ok (inner r') /\ is_Some (active_key_id (inner r')) /\ shares id (inner r) (inner r').
Proof using.
  intros Hok Ha Ho Hk r'. subst r'. assert (shares id (inner r) (inner r)) as Hself by (destruct Hk as [key Hk]; by exists key, key).
  destruct (run_op_cases os o r fs) as [(ok & -> & _)|(st & Ht & ->)]; [done|]. destruct (commit_state os st r fs) as [[res r'] fs'] eqn:Ec. cbn [fst snd].
  destruct (commit_cases _ _ _ _ _ _ _ Ec) as [->| ->]; [done|]. cbn [set_inner inner]. split; [by eapply target_ok|]. destruct (target_keeps os o r st id Ha Ho Ht Hk). done.
Qed.

Lemma shares_trans id a b c : shares id a b -> shares id b c -> shares id a c.
Proof using. intros (k1 & k2 & H1 & H2 & E1) (k3 & k4 & H3 & H4 & E2). exists k1, k4. split; [done|]. split; [done|]. congruence. Qed.

Lemma ops_keep l id : forall r fs, state_ok (inner r) -> is_Some (active_key_id (inner r)) -> Forall (fun p => p.2 <> Retire id) l -> is_Some (keys (inner r) !! id) ->
  state_ok (inner (run_ops l r fs).1) /\ shares id (inner r) (inner (run_ops l r fs).1).
Proof using.
  induction l as [|[os o] l IH]; intros r fs Hok Ha Hl Hk; cbn [run_ops].
  - split; [done|]. destruct Hk as [key Hk]. by exists key, key.
  - inversion Hl as [|? ? Ho Hl']; subst. pose proof (op_keeps os o r fs id Hok Ha Ho Hk) as (H1 & H2 & H3). destruct (run_op os o r fs) as [[ok r'] fs']. cbn [fst snd] in H1, H2, H3.
    destruct (IH r' fs' H1 H2 Hl') as [H4 H5]; [by destruct H3 as (? & k' & _ & Hk' & _); exists k'|]. split; [done|]. by eapply shares_trans.
Qed.

(** ** Lemmas: the files *)

(** The random bytes of an operation have their lengths. *)
Definition os_ok (os : Os) : Prop := zlen (os_nonce os) = NONCE_LEN /\ zlen (os_new_seal os) = 32.

(** [seal] is the seal of the ring. *)
Definition sealed_by (r : EncryptionKeyring) (fs : Files) (seal : bytes) : Prop :=
  match seal_secret r with
  | Some s => s = seal
  | None => seal_path r = true /\ exists raw, seal_file fs = Some raw /\ text_seal raw = Ok seal
  end.

(** The state file, when there is one, opens under the seal of the ring to the state of the ring. *)
Definition in_sync (r : EncryptionKeyring) (fs : Files) : Prop :=
  state_ok (inner r) /\
  match state_file fs with
  | None => True
  | Some raw => state_path r = true /\ exists seal, sealed_by r fs seal /\ forall more, load_state raw (seal :: more) = Ok (inner r, seal)
  end.

(** The entries of a map in the order of its keys. *)
Lemma sorted_entries (ks : gmap bytes NetworkKey) : omap (fun id => (fun key => (id, key)) <$> ks !! id) (sorted_ids ks) ≡ₚ map_to_list ks.
Proof using.
  unfold sorted_ids. rewrite merge_sort_Permutation. assert (forall l : list (bytes * NetworkKey), (forall p, p ∈ l -> ks !! p.1 = Some p.2) -> omap (fun id => (fun key => (id, key)) <$> ks !! id) (fst <$> l) = l) as Hl.
  { induction l as [|[id key] l IH]; intros Hp; [done|]. cbn. assert (ks !! id = Some key) as -> by (apply (Hp (id, key)); by left). cbn. f_equal. apply IH. intros p Hin. apply Hp. by right. }
  rewrite Hl; [done|]. intros [id key] Hin. by apply elem_of_map_to_list.
Qed.

Lemma omap_entries {A} (f : bytes -> NetworkKey -> A) (ks : gmap bytes NetworkKey) (ids : list bytes) :
  omap (fun id => (fun key => f id key) <$> ks !! id) ids = (fun p => f p.1 p.2) <$> omap (fun id => (fun key => (id, key)) <$> ks !! id) ids.
Proof using. induction ids as [|id ids IH]; [done|]. cbn. destruct (ks !! id); cbn; by rewrite IH. Qed.

Lemma decode_keys_back `{!Lawful} (l : list (bytes * NetworkKey)) :
  decode_keys ((fun p => mkPlainKey p.1 (b64_encode (secret p.2)) (decrypt_only p.2)) <$> l) = Ok ((fun p => mkConfig p.1 (secret p.2) (decrypt_only p.2)) <$> l).
Proof using. induction l as [|p l IH]; [done|]. cbn. rewrite b64_back. cbn in IH. by rewrite IH. Qed.

Lemma state_back `{!Lawful} st : state_ok st -> state_of_plain (plain_of st) = Ok st.
Proof using.
  intros Hok. unfold state_of_plain, plain_of. cbn [ps_version ps_keys ps_active]. change (negb (1 =? 1)) with false.
  rewrite (omap_entries (fun id key => mkPlainKey id (b64_encode (secret key)) (decrypt_only key))). pose proof (sorted_entries (keys st)) as Hp.
  set (l := omap _ _) in *. clearbody l. cbv beta iota. rewrite decode_keys_back. set (cs := (fun p => mkConfig p.1 (secret p.2) (decrypt_only p.2)) <$> l).
  assert (forall p, p ∈ l -> keys st !! p.1 = Some p.2) as Hl by (intros [id key]; rewrite Hp; apply elem_of_map_to_list).
  assert (entry_of <$> cs = l) as Ecs.
  { unfold cs. rewrite <-list_fmap_compose. clear Hp cs. induction l as [|[id key] l IH]; [done|]. cbn [fmap list_fmap compose]. f_equal; [|apply IH; intros p Hin; apply Hl; by right].
    unfold entry_of. cbn. f_equal. symmetry. apply (so_keys _ Hok), (Hl (id, key)). by left. }
  rewrite (build_ok cs).
  - rewrite Ecs. assert ((list_to_map l : gmap bytes NetworkKey) = keys st) as ->; [|rewrite (so_active _ Hok); by destruct st].
    rewrite <-(list_to_map_to_list (keys st)). apply list_to_map_proper; [|done]. rewrite Hp. apply NoDup_fst_map_to_list.
  - unfold cs. rewrite <-list_fmap_compose. change (NoDup (fst <$> l)). rewrite Hp. apply NoDup_fst_map_to_list.
  - apply Forall_fmap, Forall_forall. intros p Hin. cbn. exact (proj1 (so_keys _ Hok _ _ (Hl p Hin))).
Qed.

Lemma load_back `{!Lawful} os seal st raw more : state_ok st -> zlen (os_nonce os) = NONCE_LEN -> sealed_bytes os seal st = Some raw ->
  load_state raw (seal :: more) = Ok (st, seal).
Proof using.
  intros Hok Hn. unfold sealed_bytes. destruct (aead_seal _ _ _ _) as [ct|] eqn:Es; [|done]. intros [= <-]. unfold load_state. rewrite sealed_back. cbn [ss_version ss_nonce ss_ciphertext].
  change (negb (1 =? 1)) with false. rewrite !b64_back, Hn. cbv iota. change (negb (NONCE_LEN =? NONCE_LEN)) with false. cbv iota. cbn [try_seals].
  rewrite (open_seal _ _ _ _ _ Es), plain_back, state_back by done. done.
Qed.

(** A new seal file is read back. *)
Lemma ascii_chars l : Forall (fun b => 0 <= b < 128) l -> utf8_chunks l = (fun b => (Some b, [b])) <$> l.
Proof using.
  unfold utf8_chunks. induction 1 as [|b l Hb Hl IH]; [done|]. cbn [length utf8_chunks_go]. unfold utf8_next. rewrite (proj2 (Z.ltb_lt b 128)) by lia. cbn. by rewrite IH.
Qed.

Lemma trim_newline l : Forall (fun b => 32 < b < 127) l -> Where.Where.trim (l ++ [10]) = l.
Proof using.
  intros Hl. assert (forall b, 32 < b < 127 -> Where.Where.is_whitespace b = false) as Hw.
  { intros b Hb. unfold Where.Where.is_whitespace, in_rng. rewrite !orb_false_iff. zbool. repeat split; lia. }
  unfold Where.Where.trim. destruct l as [|b l]; [reflexivity|]. cbn [app Where.Where.trim_start_by]. rewrite (Hw b) by (by inversion Hl).
  unfold Where.Where.trim_end_by. change (b :: l ++ [10]) with ((b :: l) ++ [10]). rewrite reverse_app. change (reverse [10]) with [10]. cbn [app Where.Where.trim_start_by].
  change (Where.Where.is_whitespace 10) with true. cbv iota. destruct (reverse (b :: l)) as [|x m] eqn:E.
  - apply (f_equal reverse) in E. rewrite reverse_involutive in E. discriminate E.
  - cbn [Where.Where.trim_start_by]. rewrite Hw; [by rewrite <-E, reverse_involutive|]. rewrite Forall_forall in Hl. apply Hl. apply elem_of_reverse. rewrite E. by left.
Qed.

Lemma text_seal_back `{!Lawful} seal : zlen seal = 32 -> text_seal (b64_encode seal ++ [10]) = Ok seal.
Proof using.
  intros Hs. unfold text_seal. pose proof (b64_text seal) as Ht. assert (Forall (fun b => 0 <= b < 128) (b64_encode seal ++ [10])) as Ha.
  { apply Forall_app. split; [eapply Forall_impl; [exact Ht|]; cbn; lia|repeat constructor; lia]. }
  unfold utf8_chars. rewrite ascii_chars by done.
  assert (forall l : bytes, mapM fst ((fun b => (Some b, [b])) <$> l) = Some l) as Hm by (induction l as [|b l IH]; [done|]; cbn; cbn in IH; by rewrite IH).
  rewrite Hm, trim_newline by done.
  assert (Schema.Schema.as_bytes (b64_encode seal) = b64_encode seal) as ->; [|by rewrite b64_back, Hs].
  unfold Schema.Schema.as_bytes. clear -Ht. induction Ht as [|b l Hb Hl IH]; [done|]. cbn [fmap list_fmap concat]. rewrite IH. unfold Schema.Schema.utf8_char. rewrite (proj2 (Z.ltb_lt b 128)) by lia. done.
Qed.

Lemma current_seal_sealed `{!Lawful} os r fs res fs' : zlen (os_new_seal os) = 32 -> current_seal os r fs = (res, fs') ->
  state_file fs' = state_file fs /\ (forall seal, sealed_by r fs seal -> fs' = fs) /\ match res with Ok seal => sealed_by r fs' seal | Err _ => True end.
Proof using.
  intros Hl. unfold current_seal, sealed_by. destruct (seal_secret r) as [s|]; [intros [= <- <-]; done|]. destruct (seal_path r); [|intros [= <- <-]; by split].
  unfold read_seal_key. destruct (seal_file fs) as [raw|] eqn:Ef.
  - intros [= <- <-]. split; [done|]. split; [done|]. destruct (text_seal raw) eqn:Et; [|done]. split; [done|]. by exists raw.
  - unfold write_new_seal_file. destruct (os_seal_written os); intros [= <- <-]; (split; [done|]); (split; [by intros seal (_ & raw & ? & _)|]); [done|].
    split; [done|]. eexists. split; [done|]. by apply text_seal_back.
Qed.

(** A commit: the ring and the file have the new state, or neither of them has changed. *)
Lemma commit_in_sync `{!Lawful} os st r fs res r' fs' : os_ok os -> in_sync r fs -> state_ok st -> commit_state os st r fs = (res, r', fs') ->
  in_sync r' fs' /\ (r' = r /\ state_file fs' = state_file fs /\ is_ok res = false \/ r' = set_inner st r /\ is_Some (state_file fs')).
Proof using.
  intros [Hn Hl] [Hok Hf] Hst. unfold commit_state, persist_state. destruct (state_path r) eqn:Ep; cbn [negb].
  2: { intros [= <- <- <-]. split; [|by left]. split; [done|]. by rewrite Ep. }
  destruct (current_seal os r fs) as [seal fs1] eqn:Ec. destruct (current_seal_sealed os r fs seal fs1 Hl Ec) as (Hs1 & Hs2 & Hs3).
  assert (in_sync r fs1) as Hr1.
  { split; [done|]. rewrite Hs1. destruct (state_file fs) as [raw|] eqn:Er; [|done]. destruct Hf as (Hp & s & Hs & Hload). split; [done|]. exists s. split; [|done]. by rewrite (Hs2 s Hs). }
  destruct seal as [seal|e]; [|intros [= <- <- <-]; split; [done|by left]].
  destruct (sealed_bytes os seal st) as [raw|] eqn:Eb; [|intros [= <- <- <-]; split; [done|by left]].
  destruct (os_staged os); cbn [negb]; [|intros [= <- <- <-]; split; [done|by left]].
  destruct (negb (os_regular os) || negb (os_renamed os)); [intros [= <- <- <-]; split; [done|by left]|].
  assert (in_sync (set_inner st r) (mkFiles (Some raw) (seal_file fs1))) as Hnew.
  { split; [done|]. cbn [state_file]. split; [done|]. exists seal. split; [exact Hs3|]. intros more. by eapply load_back. }
  destruct (negb (os_verified os)); [|destruct (negb (os_synced os))]; intros [= <- <- <-]; (split; [exact Hnew|]); right; (split; [done|by eexists]).
Qed.

Lemma ops_in_sync `{!Lawful} l : forall r fs, in_sync r fs -> Forall (fun p => os_ok p.1) l -> in_sync (run_ops l r fs).1 (run_ops l r fs).2.
Proof using.
  induction l as [|[os o] l IH]; intros r fs Hs Hl; [done|]. inversion Hl as [|? ? Ho Hl']; subst. cbn [run_ops].
  destruct (run_op_cases os o r fs) as [(ok & -> & _)|(st & Ht & ->)]; [by apply IH|]. destruct (commit_state os st r fs) as [[res r'] fs'] eqn:Ec. apply IH; [|done].
  by destruct (commit_in_sync os st r fs res r' fs' Ho Hs (target_ok _ _ _ _ (proj1 Hs) Ht) Ec).
Qed.

Lemma push_new_head seal out x : exists more, push_new (seal :: out) x = seal :: more.
Proof using. unfold push_new. case_bool_decide; [by exists out|]. by exists (out ++ [x]). Qed.

Lemma push_all_head seal l : forall out, exists more, foldl push_new (seal :: out) l = seal :: more.
Proof using. induction l as [|x l IH]; intros out; [by exists out|]. cbn [foldl]. destruct (push_new_head seal out x) as [more ->]. apply IH. Qed.

(** The ring is opened again, from the same configuration. *)
Lemma reopen_same `{!Lawful} os c r fs : in_sync r fs -> is_Some (state_file fs) ->
  c_state_path c = state_path r -> c_seal_path c = seal_path r -> c_seal_secret c = seal_secret r -> (seal_secret r = None -> c_previous c = []) ->
  (seal_secret r <> None -> seal_file fs = None) -> open_state os c fs = (Ok (inner r, false), fs).
Proof using.
  intros [Hok Hf] [raw Er] E1 E2 E3 Hprev Hno. rewrite Er in Hf. destruct Hf as (Hp & seal & Hs & Hload). unfold open_state. rewrite E1, E2, E3, Hp, Er.
  unfold collect_candidate_seals, current_seal. cbn [seal_secret seal_path]. unfold sealed_by in Hs. destruct (seal_secret r) as [s|].
  - subst s. rewrite Hno by done. destruct (push_all_head seal (c_previous c) []) as [more ->]. replace (if seal_path r then _ else _) with (Ok (seal :: more)) by (by destruct (seal_path r)). rewrite Hload.
    by rewrite (proj2 (bool_decide_eq_true _) eq_refl : bytes_eqb seal seal = true).
  - destruct Hs as (-> & sraw & Ef & Et). rewrite Hprev by done. rewrite Ef, Et. cbn [foldl push_new]. change (push_new [] seal) with [seal]. cbv iota. rewrite Hload. unfold read_seal_key. rewrite Ef, Et.
    by rewrite (proj2 (bool_decide_eq_true _) eq_refl : bytes_eqb seal seal = true).
Qed.

(** ** Lemmas: sealed values *)

Lemma sealed_decodes `{!Lawful} dr st t f p m v : seal dr st t f p m = Ok v ->
  exists env, encrypt dr st t f p m = Ok env /\ decode_sealed_value v = Ok (t, f, p, env).
Proof using.
  unfold seal. destruct (encrypt dr st t f p m) as [env|]; [|done]. intros E. assert (v = SEALED_VALUE_PREFIX ++ b64_encode (value_to_json (mkSealed t f p (b64_encode env)))) as -> by congruence. clear E. exists env. split; [done|]. unfold decode_sealed_value, starts_with. rewrite take_app_length, drop_app_length.
  rewrite (proj2 (bool_decide_eq_true _) eq_refl : bytes_eqb _ _ = true). cbn [negb]. rewrite b64_back, value_back. cbn. by rewrite b64_back.
Qed.

(** An envelope is not a sealed value. *)
Lemma envelope_not_sealed writer ws vnonce ct : decode_sealed_value (envelope_bytes writer ws vnonce ct) = Err "ERR value is not sealed".
Proof using. reflexivity. Qed.

Lemma encrypt_not_sealed dr st t f p m env : encrypt dr st t f p m = Ok env -> decode_sealed_value env = Err "ERR value is not sealed".
Proof using.
  unfold encrypt. destruct (active_key_id st); [|done]. destruct (bool_decide _); [done|]. destruct (aead_seal _ _ _ m); [|done]. destruct (wrap_all _ _ _ _); [|done].
  destruct (_ >? 255); [done|]. intros [= <-]. apply envelope_not_sealed.
Qed.

(** What a ring that holds a key of the envelope makes of it, where it was written. *)
Lemma decrypt_shared `{!Lawful} dr st st' id t f p m env : state_ok st -> state_ok st' -> draws_ok dr -> shares id st st' -> encrypt dr st t f p m = Ok env ->
  envelope_decryptable_by_any env {[id]} = true /\ (forgery \/ decrypt st' t f p env = Ok m).
Proof using.
  intros Hst Hst' Hd (key & key' & Hk & Hk' & Es) He. pose proof (encrypt_not_sealed _ _ _ _ _ _ _ He) as Hns.
  destruct (encrypt_parts dr st t f p m env Hst Hd He) as (active & ws & ct & Hp). assert (id ∈ key_id <$> ws) as Hin by (apply (e_all _ _ _ _ _ _ _ _ _ _ Hp); by eexists). split.
  - unfold envelope_decryptable_by_any. rewrite Hns, (e_parsed _ _ _ _ _ _ _ _ _ _ Hp). cbn [wraps]. apply existsb_exists. apply list_elem_of_fmap in Hin as (w & -> & Hw).
    exists w. split; [by apply list_elem_of_In|]. apply bool_decide_eq_true. by apply elem_of_singleton.
  - unfold decrypt. rewrite (e_parsed _ _ _ _ _ _ _ _ _ _ Hp). cbn [writer_key_id wraps value_nonce ciphertext].
    pose proof (unwrap_spec dr (keys st) _ (wrap_aad t f p active) ws st' (e_wraps _ _ _ _ _ _ _ _ _ _ Hp) (do_data _ Hd)) as Hu. destruct (unwrap _ _ _) as [dk|].
    + destruct Hu as [Hf|[-> _]]; [by left|]. right. by rewrite (open_seal _ _ _ _ _ (e_text _ _ _ _ _ _ _ _ _ _ Hp)).
    + destruct Hu as [Hf|Hno]; [by left|]. exfalso. by apply (Hno id key key' Hin Hk Hk' (same_wrap_key st st' id key key' Hst Hst' Hk Hk' Es)).
Qed.

(** An envelope that any ring opens was written where it is read. *)
Lemma decrypt_bound `{!Lawful} dr st st' t f p m env t' f' p' m' : state_ok st -> draws_ok dr -> encrypt dr st t f p m = Ok env ->
  0 ∉ t -> 0 ∉ t' -> 0 ∉ f -> 0 ∉ f' -> decrypt st' t' f' p' env = Ok m' -> forgery \/ ((t', f', p') = (t, f, p) /\ m' = m).
Proof using.
  intros Hst Hd He Ht Ht' Hf Hf'. destruct (encrypt_parts dr st t f p m env Hst Hd He) as (active & ws & ct & Hp).
  unfold decrypt. rewrite (e_parsed _ _ _ _ _ _ _ _ _ _ Hp). cbn [writer_key_id wraps value_nonce ciphertext].
  pose proof (unwrap_spec dr (keys st) _ (wrap_aad t' f' p' active) ws st' (e_wraps _ _ _ _ _ _ _ _ _ _ Hp) (do_data _ Hd)) as Hu. destruct (unwrap _ _ _) as [dk|]; [|done].
  destruct Hu as [Hg|[-> Ea]]; [by left|]. apply aad_injective in Ea as [= -> -> ->]; [|done..]. rewrite (open_seal _ _ _ _ _ (e_text _ _ _ _ _ _ _ _ _ _ Hp)). intros [= <-]. by right.
Qed.

(** ** Properties *)


(** C21. The ring in memory and its file agree. From a ring whose file, if it has one, opens under its seal to
    its state, after any operations, whatever the operating system refuses in each of them: the file still
    opens to the state of the ring, whose active key is one of its keys and may encrypt; the next operation either changes neither
    the ring nor the state file or installs the state it was to commit in both, also when it
    reports an error; one that changes nothing and reports success had nothing to do; and
    opening the ring again from the same configuration gives its state, with no need to seal it again. *)
Theorem keyring_file_in_sync `{!Lawful} l os o r fs : in_sync r fs -> Forall (fun q => os_ok q.1) l -> os_ok os ->
  let '(r1, fs1) := run_ops l r fs in
  let '(ok, r2, fs2) := run_op os o r1 fs1 in
  in_sync r2 fs2 /\
  ((r2 = r1 /\ state_file fs2 = state_file fs1 /\ (ok = true -> is_Some (active_key_id (inner r1)))) \/
   (target os o r1 (inner r2) /\ is_Some (state_file fs2))) /\
  forall c os', is_Some (state_file fs2) -> c_state_path c = state_path r2 -> c_seal_path c = seal_path r2 -> c_seal_secret c = seal_secret r2 ->
    (seal_secret r2 = None -> c_previous c = []) -> (seal_secret r2 <> None -> seal_file fs2 = None) ->
    open_state os' c fs2 = (Ok (inner r2, false), fs2).
Proof using.
  intros Hs Hl Ho. pose proof (ops_in_sync l r fs Hs Hl) as Hs1. destruct (run_ops l r fs) as [r1 fs1]. cbn [fst snd] in Hs1.
  assert (forall b r2 fs2, run_op os o r1 fs1 = (b, r2, fs2) -> in_sync r2 fs2 /\
    ((r2 = r1 /\ state_file fs2 = state_file fs1 /\ (b = true -> is_Some (active_key_id (inner r1)))) \/ (target os o r1 (inner r2) /\ is_Some (state_file fs2)))) as Hstep.
  { intros b r2 fs2 E. destruct (run_op_cases os o r1 fs1) as [(ok & E' & Hidle)|(st & Ht & E')]; rewrite E in E'.
    - injection E' as -> -> ->. split; [done|]. left. done.
    - destruct (commit_state os st r1 fs1) as [[res r'] fs'] eqn:Ec. injection E' as -> -> ->.
      destruct (commit_in_sync os st r1 fs1 res r' fs' Ho Hs1 (target_ok _ _ _ _ (proj1 Hs1) Ht) Ec) as [Hs2 [(-> & Hf & Hr)|[-> Hf]]]; (split; [done|]); [left|by right].
      split; [done|]. split; [done|]. by rewrite Hr. }
  destruct (run_op os o r1 fs1) as [[ok r2] fs2] eqn:E. destruct (Hstep _ _ _ eq_refl) as [H1 H2]. split; [done|]. split; [done|].
  intros c os' Hfile E1 E2 E3 Hp Hn. by apply reopen_same.
Qed.

(** A name with a NUL byte makes two places one: the value of the hash field [f\0a] of the key [b] is also that of the field [f] of the key [a\0b]. *)
Lemma nul_names_ambiguous st env :
  decrypt st (bs "__lux_hash") (bs "f" ++ 0 :: bs "a") (bs "b") env = decrypt st (bs "__lux_hash") (bs "f") (bs "a" ++ 0 :: bs "b") env.
Proof using. reflexivity. Qed.

(** A damaged seal file stops the opening of the ring although the seal is configured. *)
Lemma damaged_seal_file_blocks st seal previous : collect_candidate_seals (mkRing st true true (Some seal)) previous (mkFiles (Some []) (Some [255])) = Err "ERR ENC seal file is not valid UTF-8".
Proof using. reflexivity. Qed.

(** ENC INIT on a ring whose keys are all decrypt-only forgets them. *)
Lemma init_forgets_keys os q r fs id : validate_key_id (chosen_id os q) = Ok tt -> id <> chosen_id os q -> active_key_id (inner r) = None ->
  (init os q r fs).1.1 = Ok (chosen_id os q) -> keys (inner (init os q r fs).1.2) !! id = None.
Proof using.
  intros Hv Hne Ha. unfold init. rewrite Ha, Hv. unfold commit_key. destruct (build_network_keys _) as [ks|] eqn:Eb; [|done].
  unfold commit_state. destruct (persist_state os r _ fs) as [[[]|[e []]] fs1]; try done. intros _. cbn. apply build_spec in Eb as (-> & _ & _). cbn. by rewrite lookup_insert_ne.
Qed.

End Ring.

(** ** Witnesses *)

(** Numbers as texts of zeros and ones that end in a two. *)
Fixpoint bits (p : positive) : bytes := match p with xH => [] | xO p => 48 :: bits p | xI p => 49 :: bits p end.
Fixpoint unbits (l : bytes) : option positive :=
  match l with
  | [] => Some xH
  | b :: l => if b =? 48 then xO <$> unbits l else if b =? 49 then xI <$> unbits l else None
  end.
Definition to_text (x : bytes) : bytes := concat ((fun z => bits (encode z) ++ [50]) <$> x).
Fixpoint of_text (acc l : bytes) : option bytes :=
  match l with
  | [] => match acc with [] => Some [] | _ => None end
  | b :: l =>
      if b =? 50 then z ← unbits (reverse acc) ≫= decode; r ← of_text [] l; Some (z :: r)
      else of_text (b :: acc) l
  end.

Lemma unbits_bits p : unbits (bits p) = Some p.
Proof. induction p as [p IH|p IH|]; cbn; [by rewrite IH..|done]. Qed.

Lemma bits_digits p : Forall (fun b => b = 48 \/ b = 49) (bits p).
Proof. induction p; cbn; constructor; auto. Qed.

Lemma of_text_number m l : forall acc, Forall (fun b => b = 48 \/ b = 49) m ->
  of_text acc (m ++ 50 :: l) = (z ← unbits (reverse acc ++ m) ≫= decode; r ← of_text [] l; Some (z :: r)).
Proof.
  induction m as [|b m IH]; intros acc Hm; [by rewrite app_nil_r|]. inversion Hm as [|? ? Hb Hm']; subst. cbn [app of_text].
  destruct (Z.eqb_spec b 50); [lia|]. rewrite IH by done. rewrite reverse_cons, <-app_assoc. done.
Qed.

Lemma text_back x : of_text [] (to_text x) = Some x.
Proof.
  induction x as [|z x IH]; [done|]. unfold to_text. cbn [fmap list_fmap concat]. rewrite <-app_assoc. change ([50] ++ ?l) with (50 :: l). rewrite of_text_number by apply bits_digits.
  cbn [reverse rev_append app]. change (reverse [] ++ bits (encode z)) with (bits (encode z)). rewrite unbits_bits. cbn [mbind option_bind]. rewrite decode_encode. cbn [mbind option_bind].
  unfold to_text in IH. by rewrite IH.
Qed.

Lemma text_printable x : Forall (fun b => 32 < b < 127) (to_text x).
Proof.
  unfold to_text. induction x as [|z x IH]; [constructor|]. cbn [fmap list_fmap concat]. apply Forall_app. split; [|exact IH]. apply Forall_app. split; [|repeat constructor; lia].
  eapply Forall_impl; [apply bits_digits|]. cbn. lia.
Qed.

(** Texts one after the other, each with its length. *)
Definition put (l : bytes) : bytes := zlen l :: l.
Definition get (l : bytes) : option (bytes * bytes) := match l with [] => None | n :: l => Some (take (Z.to_nat n) l, drop (Z.to_nat n) l) end.

Lemma get_put l rest : get (put l ++ rest) = Some (l, rest).
Proof. unfold put, get, zlen. cbn [app]. by rewrite Nat2Z.id, take_app_length, drop_app_length. Qed.

Definition put_key (k : PlainKey) : bytes := put (pk_id k) ++ put (pk_secret k) ++ [if pk_decrypt_only k then 1 else 0].
Fixpoint get_keys (n : nat) (l : bytes) : option (list PlainKey) :=
  match n with
  | O => Some []
  | S n =>
      '(id, l) ← get l; '(secret, l) ← get l;
      match l with
      | flag :: l => ks ← get_keys n l; Some (mkPlainKey id secret (flag =? 1) :: ks)
      | [] => None
      end
  end.

Lemma get_keys_back ks : get_keys (length ks) (concat (put_key <$> ks)) = Some ks.
Proof.
  induction ks as [|[id s d] ks IH]; [done|]. cbn [length get_keys fmap list_fmap concat]. unfold put_key at 1. cbn [pk_id pk_secret pk_decrypt_only]. rewrite <-!app_assoc, get_put. cbn [mbind option_bind].
  rewrite get_put. cbn [mbind option_bind app]. rewrite IH. cbn [mbind option_bind]. by destruct d.
Qed.

Definition plain_text (x : PlainState) : bytes :=
  ps_version x :: (match ps_active x with Some a => 1 :: put a | None => 0 :: put [] end) ++ zlen (ps_keys x) :: concat (put_key <$> ps_keys x).
Definition text_plain (l : bytes) : option PlainState :=
  match l with
  | v :: flag :: l => '(a, l) ← get l; match l with n :: l => ks ← get_keys (Z.to_nat n) l; Some (mkPlain v (if flag =? 1 then Some a else None) ks) | [] => None end
  | _ => None
  end.

Lemma plain_text_back x : text_plain (plain_text x) = Some x.
Proof.
  destruct x as [v a ks]. unfold plain_text, text_plain. cbn [ps_version ps_active ps_keys]. destruct a as [a|]; cbn [app]; rewrite ?app_comm_cons, get_put; cbn [mbind option_bind]; unfold zlen; rewrite Nat2Z.id, get_keys_back; done.
Qed.

(** A cipher that checks sums of the key, the nonce and the context. *)
Definition checksum (l : bytes) : Z := foldl (fun a b => (a * 31 + b) mod 251) 7 l.
Definition sample_tag (k n a : bytes) : bytes := checksum k :: checksum n :: checksum a :: replicate 13 0.

Definition sample_crypto : Crypto := {|
  aead_seal := fun k n a p => Some (p ++ sample_tag k n a);
  aead_open := fun k n a ct => let m := (length ct - 16)%nat in if bytes_eqb (drop m ct) (sample_tag k n a) then Some (take m ct) else None;
  sha256 := fun x => take 32 (reverse x ++ replicate 32 0);
  hmac_sign := fun k x => k ++ x;
  b64_encode := to_text; b64_decode := of_text [];
  value_to_json := fun x => put (sv_table x) ++ put (sv_field x) ++ put (sv_pk x) ++ sv_envelope x;
  value_of_json := fun l => '(t, l) ← get l; '(f, l) ← get l; '(p, l) ← get l; Some (mkSealed t f p l);
  plain_to_json := plain_text; plain_of_json := text_plain;
  sealed_to_json := fun x => ss_version x :: put (ss_nonce x) ++ ss_ciphertext x;
  sealed_of_json := fun l => match l with v :: l => '(n, l) ← get l; Some (mkSealedState v n l) | [] => None end
|}.

Lemma sample_lawful : @Lawful sample_crypto.
Proof.
  split.
  - intros k n a p ct. cbn [aead_seal aead_open sample_crypto]. intros [= <-]. rewrite length_app. change (length (sample_tag k n a)) with 16%nat. replace (length p + 16 - 16)%nat with (length p) by lia.
    rewrite drop_app_length, take_app_length. by rewrite (proj2 (bool_decide_eq_true _) eq_refl : bytes_eqb _ _ = true).
  - intros k n a p ct. cbn [aead_seal sample_crypto]. intros [= <-]. unfold zlen. rewrite length_app. change (length (sample_tag k n a)) with 16%nat. lia.
  - intros x. apply text_back.
  - intros x. apply text_printable.
  - intros x. apply plain_text_back.
  - intros [v n ct]. cbn [sealed_of_json sealed_to_json sample_crypto ss_version ss_nonce ss_ciphertext]. by rewrite get_put.
  - intros [t f p e]. cbn [value_of_json value_to_json sample_crypto sv_table sv_field sv_pk sv_envelope]. rewrite get_put. cbn [mbind option_bind]. rewrite get_put. cbn [mbind option_bind]. by rewrite get_put.
Qed.

Definition sample_draws : Draws := mkDraws (replicate 32 7) (replicate 12 1) (fun id => replicate 12 (checksum id)).
Definition sample_os (tag : Z) : Os := mkOs (replicate 32 9) (inr tt) true true true true true (replicate 12 tag) [tag] [tag; tag].

Definition first_state : EncryptionState :=
  mkState (Some (bs "k1")) (match @build_network_keys sample_crypto [mkConfig (bs "k1") (bs "secret") false] with Ok ks => ks | Err _ => ∅ end).
Definition first_ring : EncryptionKeyring := mkRing first_state true true None.

Lemma first_ok : @state_ok sample_crypto first_state.
Proof.
  split; [|by vm_compute]. intros id key Hk. apply (@built_ok sample_crypto [mkConfig (bs "k1") (bs "secret") false] (keys first_state)); [by vm_compute|exact Hk].
Qed.

Lemma sample_draws_ok : draws_ok sample_draws.
Proof. split; [by vm_compute..|]. intros id. unfold sample_draws, zlen. cbn [d_wrap_nonce]. by rewrite length_replicate. Qed.

(** Two rotations and the retirement of the first of the new keys. *)
Definition history : list (Os * op) := [(sample_os 1, Rotate (Some (bs "k2"))); (sample_os 2, Rotate (Some (bs "k3"))); (sample_os 3, Retire (bs "k2"))].

Definition sample_envelope : bytes :=
  match @encrypt sample_crypto sample_draws first_state (bs "t") (bs "f") (bs "1") (bs "text") with Ok env => env | Err _ => [] end.


(** The second rotation fails after its rename: the ring has the new key. *)
Definition failing : Os := mkOs (replicate 32 9) (inr tt) true true true true false (replicate 12 5) [5] [5; 5].

Lemma keyring_file_in_sync_witness :
  let '(r1, fs1) := @run_ops sample_crypto history first_ring (mkFiles None None) in
  let '(ok, r2, fs2) := @run_op sample_crypto failing (Rotate (Some (bs "k4"))) r1 fs1 in
  ok = false /\ active_key_id (inner r2) = Some (bs "k4") /\ @in_sync sample_crypto r2 fs2.
Proof.
  pose proof (@keyring_file_in_sync sample_crypto sample_lawful history failing (Rotate (Some (bs "k4"))) first_ring (mkFiles None None)) as Hk.
  assert (@in_sync sample_crypto first_ring (mkFiles None None)) as H0 by (split; [exact first_ok|exact I]).
  assert (Forall (fun q => os_ok q.1) history) as Hh by (repeat constructor; vm_compute; reflexivity).
  assert (os_ok failing) as Hf by (split; vm_compute; reflexivity). specialize (Hk H0 Hh Hf).
  assert (let '(r1, fs1) := @run_ops sample_crypto history first_ring (mkFiles None None) in
    let '(ok, r2, fs2) := @run_op sample_crypto failing (Rotate (Some (bs "k4"))) r1 fs1 in ok = false /\ active_key_id (inner r2) = Some (bs "k4")) as Hv by (vm_compute; split; reflexivity).
  revert Hk Hv. destruct (@run_ops sample_crypto history first_ring (mkFiles None None)) as [r1 fs1]. destruct (@run_op sample_crypto failing (Rotate (Some (bs "k4"))) r1 fs1) as [[ok r2] fs2].
  intros (Hs & _) [H1 H2]. done.
Defined.

End Keyring.
